(* ===== verification/_CoqProject ===== *)
-Q . S2P
Prelude.v
Bytes.v
Sha256.v
Sha512.v
Crc32c.v
Dots.v
Wal.v
WalLog.v
WalReplay.v
WalDurable.v
Hamt.v
HamtMap.v
Lamport.v
LamportConc.v
Sorting.v
Engine.v
EngineInv.v
JoinSpec.v
EngineThms.v
EngineConc.v
Merkle.v
Snapshot.v
LocalFS.v
Bridge.v
CkptSched.v
Recovery.v
RecoveryThms.v
BridgeThms.v
QueryTier.v
BridgeSys.v
DurableWit.v
Iblt.v
IbltPeel.v
Strata.v
IbltWire.v
AntiEntropy.v
Reconstruct.v
Envelope.v
FrameReader.v
Admission.v
Identity.v
Hedge.v
Apply.v
ApplyWitness.v
Receiver.v
ReceiverThms.v
ReceiverSec.v
ReceiverWit.v
PayloadStore.v
RelayCache.v
Topology.v
Gossip.v
GossipSweep.v
GossipPlan.v
GossipReach.v
GossipDigest.v
CommitWindow.v
PeerSet.v
LsmKeys.v
Resolver.v
L1Compactor.v
LsmPrune.v
ResolverThms.v
LsmInv.v
LsmSteps.v
LsmThms.v
SkipList.v
Pii.v
Tombstones.v
MemTable.v
MemTableThms.v
CkptFlush.v
LiveSource.v
NodePool.v
ShardedStack.v
ShardedThms.v
Reclaim.v
Arena.v
HamtHeap.v
HamtHeapThms.v
