(* ===== verification/Prelude.v ===== *)
(** * A verification of the Sovereign delta-CRDT engine

    Sovereign is a replicated store.  Each node keeps a delta-CRDT engine
    (pkg/sync): entities map to sets of immutable entries, every entry carries a
    causal dot (origin node, Lamport counter), and replicas exchange entries by
    anti-entropy until they hold the same ones.  Local writes are made durable by
    a write-ahead log and checkpoint images (pkg/durability).  Frames from other
    nodes pass a chain of gates before they reach the engine (pkg/receive), and a
    gossiper sweeps its entries to its peers (pkg/mesh).  Checkpoints feed a query
    tier of columnar files (internal/database) that answers bitemporal queries.
    This development models the core of pkg/sync, the durability layer, the frame
    envelopes and the receiver, the gossiper and its peer set, the query tier, and
    of the memory management of pkg/sync the arena, the epochs and a lock-free
    stack.

    ** The parts and how they interact

    - Entries are kept in persistent hash array mapped tries (hamt.go), one per
      shard; an entity is routed to a shard by a seeded hash (crdt.go).
    - InsertLocal mints a dot from the Lamport clock and adds one entry; Join
      merges the entries of a delta, advancing the clock past every counter it
      sees.  Both publish new shard roots by compare-and-swap.
    - A node sends a digest of its entries, an invertible Bloom lookup table
      (iblt.go, iblt_wire.go); the peer subtracts it from its own, peels the
      difference and answers with the entries that are missing (GenerateDelta).
    - Entries cross the wire as Cap'n Proto events; a seam re-validates each
      (crdt_reconstruct.go), bounds its counter by the receiver's clock
      (crdt_reconstruct_skew.go), and only then Join sees it (crdt_apply.go,
      crdt_apply_batch.go).
    - Merkle roots over the dots tell replicas apart (merkle_sharded.go); the
      mesh keeps the payloads of local writes and answers reads with the latest
      dot (pkg/mesh/gossip.go).
    - The bridge (bridge.go) inserts a local write, appends it to the log
      (internal/chaos/wal.go) and returns after the fsync; every K writes one
      caller designates a checkpoint, which a drain goroutine takes: an anchor
      record with the Merkle root, a state fingerprint and the cut, an image of
      the state in the object store (snapshot.go, localfs.go), and the delta for
      the query tier.  At boot, recovery.go replays the log, with the image when
      it is bound to the last anchor, and reopens the log.

    - Frames arrive length-prefixed (FrameReader of receiver.go) in one of three
      signed envelopes (pkg/attribution): a relay envelope around one event with a
      chain of hop signatures, a batch, and a batch with a second, post-quantum
      signature.  The receiver checks shape, rate (pkg/admission), clock
      (pkg/clock), depth, hop chain, directory and origin signature
      (pkg/identity), and hands the inner frame to the seam.

    - The gossiper (pkg/mesh/gossip.go) signs local writes, and on each tick sends
      to every peer the entries the peer's last digest does not hold, batched by
      origin, and sends on the frames of other origins it has kept (relayCache).
      Peers exchange digests (digest.go).  The peer set (peer.go) keeps one
      connection per peer, region.go and topology.go choose the peers of a
      round, and frames are signed with a hedged nonce (eddsa_hedge.go).
    - The query tier (internal/database): a checkpoint feeds each entry to the
      MemTable, an arena skip list (skiplist.go, memtable.go), rotates it and
      flushes it into one level-0 Arrow file per entity; the compactor merges
      them into a level-1 file with a manifest, prunes dominated rows, and reaps
      the inputs (l1_compactor.go); the resolver (query.go) answers AsOf and Range
      from the level-1 file, the level-0 files no manifest lists, and the live
      engine (cmd/sovereign-node).
    - Below the tries is an off-heap arena of nodes and blocks (hamt_arena.go);
      what a new shard root unlinks is retired and goes back to the arena's free
      lists when two epochs have passed (reclamation.go).  The package also has a
      sharded lock-free stack (sharded.go) over a pool of nodes (elimination.go).

    ** The files

    - Prelude.v: machine integers and their wrap-around, lawful comparators,
      error results, list lemmas, the tactic [words] and the hint database
      [sovereign].  Bytes.v: little- and big-endian fields, strings as bytes,
      slices.  Sha256.v: SHA-256, executable.  Sorting.v: what slices.SortFunc
      promises, as the class [SliceSort], with insertion sort as an instance.
    - Dots.v: CausalDot, CRDTEntry, compareDots, HashCausalDot, the merge loop of
      Join ([dotMerge]) and insertionSortLastEntry; the abstract value of an entry
      slice is a finite map from dots to entries ([dots_map]).
    - Hamt.v, HamtMap.v: the trie nodes and the HAMT wrapper (Get, Set, Delete,
      ForEach, AllEntries, Len), refined to finite maps.
    - Lamport.v: the clock (NextDot, AdvanceLamportTo, the lamport
      file, Close's flush) and MaxAcceptableDotCounter, one call at a time, with
      binary64 arithmetic for the rate.  LamportConc.v: the same calls and the
      persist worker, interleaved atomic operation by atomic operation.
    - Engine.v: DeltaCRDTEngine (routing, InsertLocal, Join, SetShardCount, State,
      PointGet, Close).  EngineInv.v: the invariant [wf_engine].  JoinSpec.v,
      EngineThms.v: Join as union of dot maps, convergence,
      re-sharding, reachability.  EngineConc.v: the load / rebuild /
      compare-and-swap loops of concurrent calls as a step relation.
    - Merkle.v: the two Merkle roots and CaptureShardsPinned.
    - Crc32c.v: CRC-32C and its error-detection facts.  Wal.v: the records of the
      log and their codecs; WalLog.v: file, appends, fsync, open; WalReplay.v:
      replay; WalDurable.v: interleaved appends, failures, crashes and reopenings
      as a step relation, and what the log does not survive.
    - Snapshot.v: image codec and state fingerprint.  LocalFS.v: the object store
      over a file system with crash points.  Bridge.v: PutLocal, PutLocals,
      RecordClockAdvance, AppendCheckpoint, NewBridge.  CkptSched.v: the scheduler
      word under interleaved writers, drainer and Close.  QueryTier.v: the delta of
      the query tier.
    - Recovery.v, RecoveryThms.v: recovery from log and image.
      BridgeThms.v: from a checkpoint to a bounded recovery.  BridgeSys.v: writers,
      log, joins, crashes and recoveries composed.  DurableWit.v: concrete
      runs, and instances of the durability theorems.
    - Iblt.v, IbltPeel.v: the table, Subtract and Peel.  Strata.v: the
      strata estimator.  IbltWire.v: both wire codecs.  AntiEntropy.v: digests,
      GenerateDelta and the delta's entry iterator, up to a whole round.
    - Reconstruct.v: the wire-integrity seam and the verdict it must reach.
      Apply.v: BuildCRDTDeltaEvent, ApplyCRDTDeltaEvent, ApplyCRDTDeltaBatch and
      InspectBatchDots over a Cap'n Proto interface.  ApplyWitness.v: a codec that
      satisfies the interface's laws.
    - Envelope.v: the envelopes, the hop chain and forwarding.
      FrameReader.v: reassembly of a stream.  Admission.v: the rate gate.
      Identity.v: directory and verification, over the class [Crypto].
    - Receiver.v: HandleFrame, HandleBatchFrame, HandleHybridFrame and
      DispatchFrame.  ReceiverThms.v: what acceptance and a drop imply.
      ReceiverSec.v: hostile frames.  ReceiverWit.v: toy keys, and the theorems on
      frames signed with them.
    - PayloadStore.v: payloadCache, selectLatestDot, LatestPayload, and
      InsertLocalEvents on a node without a durability bridge.
    - Hedge.v (with Sha512.v): signing, over the class [Signer].  RelayCache.v: the
      frames of other origins a node keeps.  Topology.v: peer selection.
      CommitWindow.v: concurrent local writes
      and a sweep that meets an entry before its payload.
    - Gossip.v: the builder of a batch's message, the gossiper's state and helpers.  GossipSweep.v: the sweep with
      its memo of signed envelopes; GossipPlan.v: the plan a sweep must send;
      GossipReach.v: a swept entry reaches the peer's engine, and local writes
      keep what the sweep relies on.  GossipDigest.v: the digest exchange, and
      concrete gossipers.  PeerSet.v: connections, their release and eviction,
      and the reconnect loop.
    - LsmKeys.v: object keys of the files.  Resolver.v: AsOf and Range over an
      object store.  L1Compactor.v: compaction, manifests, the reaper.  LsmPrune.v:
      the dominance prune.  ResolverThms.v, LsmInv.v, LsmSteps.v: what a
      query reads, the invariant of the store under writes, compactions and reaps.
      LsmThms.v: queries answer from the whole history, on concrete stores too.
    - SkipList.v: the skip list inside its byte arena.  MemTable.v: the MemTable,
      its rotation and the flush loop.  MemTableThms.v: one partition per entity,
      and no write is lost or doubled by a rotation.  Pii.v: the masking of
      personal data.  Tombstones.v: the tombstone collector.  CkptFlush.v: from a checkpoint to a query.  LiveSource.v: the live
      engine behind the resolver.
    - NodePool.v: the node pool and its sharded free lists.  ShardedStack.v: push
      and pop with the goroutine's cache of nodes, one atomic operation per step.
      ShardedThms.v: the stacks they implement, the simulation of each step, whole
      runs, and two that go wrong.
    - Reclaim.v: participants, retirement and the advance of the epoch, one atomic
      operation per step.  Arena.v: size classes, allocation and the free lists.
      HamtHeap.v: the trie in the arena, with reference counts, over the interface
      [ArenaAlloc] of an allocator that may refuse; HamtHeapThms.v: that it is the
      trie of Hamt.v, and that the arena of Arena.v is such an allocator.

    ** What the theorems show

    Each theorem's comment states its conditions; the ones that matter most are
    named here.
    Engine: Join computes the union of dot maps; replicas that have received the
    same entries in any order, batching and multiplicity are indistinguishable, as
    long as an entity and a dot name one entry; the invariant holds in every state
    reached before a dot is minted at the end of the counter space; and any
    interleaving of the loops of concurrent calls ends in a state that running the
    calls one after another gives.
    Clock: dots are unique within a run, across a clean restart and under
    concurrency, below 2^64 - 1000; the skew bound is exact and no frame moves the
    clock past it.
    Trie: each operation refines its finite-map operation.  Digests: a peel is
    exact within an explicit fuel when the hash has no accident on the difference,
    an anti-entropy round then brings the receiver to the union, and the wire
    codecs round-trip and bound what they accept.  Seam: it decides every frame
    exactly as its contract orders, batches are all or nothing, and a built frame
    is applied as built.  Reads: the point read is the merged view's read, and a
    node reads its own writes.
    Durability: a log replays to what was appended, torn tails are dropped and
    damage is refused; no acknowledged record is lost under any interleaving of
    appends, fsyncs, failures, crashes and reopenings in which a failed write
    stores no bytes and records are within their bound; recovery reads exactly the
    accepted image and the log, or fails with a listed error, when every dot names
    one entry; a checkpoint that returned nil makes later recoveries bounded when
    the log has the image's own dots; the scheduler runs exactly one checkpoint per
    K writes and none after teardown; end to end, every acknowledged write is read
    after a crash and recovery, under the conditions on the log and with counters
    below 2^60.
    Frames: the envelopes round-trip, parse to typed values from any bytes, and a
    hop signature binds the inner frame and the times before it; a forwarded
    envelope opens; the stream reader returns the frames sent however the reads
    fall.  Receiver: an accepted frame was authentic and is joined as it was
    signed, a dropped one leaves the state alone but for the clock, and no bytes
    can crash it or break its invariant, the exhaustion of the arena apart.
    Mesh: a healthy batched sweep sends exactly its plan, a planned entry is joined
    by every peer that is ready for it, a digest exchange completes, local writes
    are shippable, and the connection maps name existing connections in every
    reachable peer set.  Query tier: the skip list implements a sorted store in its
    bytes, the MemTable conserves writes across rotations and has the rows of a
    successful flush on disk, a checkpoint's entries reach queries once its flush
    succeeded, AsOf and Range answer from the whole history under any regular
    sequence of flushes, compactions and reaps ([lsm_regular]), the prune drops
    exactly the dominated rows, and a node's own write is visible before any flush.
    Memory: the sharded stack implements one atomic stack per shard, reclamation
    frees nothing a reader holds or protects and loses nothing it was given, the
    arena hands out disjoint blocks that keep what is stored in them, every version
    of a trie in the arena reads as its value until it is released unless the arena
    is exhausted or asked for more than its largest class, and released versions
    are retired without rest; the first two hold of every interleaving that avoids
    the races described below.
    Some theorems record behaviours the code does not intend: a digest on which
    peeling never ends, a digest that panics, a bound that can be ratcheted to the
    end of the counter space, writes lost after a HAMT becomes empty by Delete, a
    lamport file that moves back, a short write that strands later appends, an
    oversized record and an implausible counter that make a log unreadable, a dot
    minted twice after a crash, an unsigned frame that moves the clock to its end,
    a skew bound that never applies behind the clock cap, a registered peer that
    writes under another's dots, a rate gate that is a fixed ceiling, a forged
    digest that silences a sweep, a superseded inbound connection that is never
    released, a level-0 file that a failed read hides from queries, rows lost
    when a reap stops half-way, a file overwritten by one of equal system time,
    failed uploads that a checkpoint reports as success, an entity id that is not
    UTF-8 and blocks every later flush, skip-list reservations that overlap, a pop
    that takes a reused node because emptying a shard resets its generation, two
    cache refills that wait for each other, an advance that is overtaken and then
    frees what a reader holds, hazard pointers beyond the 64 that are noticed,
    blocks over 512 KiB that overlap (an entity with 4370 entries asks for one), a
    node that is lost when a deletion empties it, and a root that two versions share with one reference.

    ** Modelling choices, bounds and fuel

    A Go integer is a [Z] in its range with the wrap-around written out; [16]byte
    and [32]byte are byte lists; a nil slice and an empty one are both [[]] where
    the code does not tell them apart.  A panic is a value of [outcome], an error
    of [result].  maphash, the sort routines, the Cap'n Proto library and the
    cryptographic packages are the classes MapHash, SliceSort, Capnp and Crypto,
    Arrow's IPC format and xxhash the classes ArrowIPC and XXHash;
    nothing is assumed of Crypto, and theorems about signatures name the
    verification that succeeded.  The classes' concrete instances in the
    witnesses show that the laws can hold.  The trie recursion is bounded by the
    source's own depth limit of seven levels; Peel takes a fuel that
    [reconcile_exact] shows to be enough (buckets + k * differences) on honest
    tables without hash accidents, and no fuel is enough on a crafted one; the binary search takes one more than the
    length.  Calls in Engine.v run to completion; EngineConc.v and LamportConc.v
    interleave them.  The scan and replay loops of the log take the file's length
    as fuel, and [replay_accepts_only_contiguous] shows it never runs out.  The
    walks of the skip list take one more than the number of nodes, and
    [skiplist_refines_sorted_store] shows that this is enough.  The object store
    of the query tier is a finite map from keys to bytes whose calls fail as the
    environment says; a flush is one step.

    The stack's theorem is about calm runs: no pop empties a shard or a free list
    while another pop that has loaded that list's head is still to compare it
    ([calm_run]); generations stay below 2^32.  The theorem on reclamation is about
    prompt runs, in which no advance succeeds while another has lists to swap out,
    and at most 16 participants, so that their 64 hazard pointers fit the snapshot.
    The arena's memory is a map from the offsets of 8-byte words, and its calls run
    one at a time; a size is below 2^63.  In HamtHeap.v a block holds its contents,
    a 32-bit count wraps, and the memory is below 2^32 words, more than which no
    node has references; DecRef's loop takes one more than the words in use as fuel
    and get and set one more than the depth limit, and the theorems show that they
    do not run out.  Memory is sequentially consistent, as Go's atomic operations
    are.

    A file is its bytes and the number of them that an fsync has made durable; a
    crash keeps any prefix that contains the durable bytes.  Writes and fsyncs
    succeed or fail as the environment says.  [acked_records_survive] and
    [acked_put_survives] take a failed write to store nothing (WalDurable.v shows
    what a short write does); CRC-32C is computed, and detection is claimed for
    damage inside four bytes, where it is certain.

    ** What is not modelled

    Tries are values in Engine.v, so that Join and InsertLocal never meet the panic
    of an exhausted arena (hamt_arena.go:548, 660, 822); HamtHeap.v shows for one
    writer that the arena holds them or that the run stops there, and EngineConc.v takes from reclamation only that an address in use
    is not reused: the composition of concurrent engine calls with the arena and
    the epochs is left out, and the object pools, the teardown of the epochs and
    the paging hints of residency.go are too.  The elimination array and the
    flat-combining stack (ElimStack of elimination.go, flatcomb.go), which only an
    example, benchmarks and tests use, are not modelled.  Nil shard pointers do
    not occur after construction.  Float products and sums round separately (no
    fused multiply-add).  Error texts, metrics and logging are left out.  Frames
    are handled one at a time.  Key generation and key files, sockets and the
    command-line programs are left out, and so are the jemalloc buffers and the
    Postgres sink of internal/database, the gossip control plane (control.go,
    probe.go) and the chaos harness. *)
From stdpp Require Export base list gmap strings sorting list_numbers.
From Stdlib Require Export Lia.

#[global] Open Scope Z_scope.

Declare Scope sovereign_scope.
Delimit Scope sovereign_scope with sov.
#[global] Open Scope sovereign_scope.

(** ** Machine integers

    A Go integer of width [w] is a [Z] in its range; every arithmetic
    operation that can leave the range is wrapped with one of these. *)

Definition u64_max : Z := 2 ^ 64 - 1.
Definition u64 (x : Z) : Z := x `mod` 2 ^ 64.
Definition u32 (x : Z) : Z := x `mod` 2 ^ 32.
Definition i32 (x : Z) : Z := (x + 2 ^ 31) `mod` 2 ^ 32 - 2 ^ 31.
Definition i64 (x : Z) : Z := (x + 2 ^ 63) `mod` 2 ^ 64 - 2 ^ 63.

Definition is_u64 (x : Z) : Prop := 0 <= x < 2 ^ 64.
Definition is_u32 (x : Z) : Prop := 0 <= x < 2 ^ 32.
Definition is_i32 (x : Z) : Prop := - 2 ^ 31 <= x < 2 ^ 31.
Definition is_i64 (x : Z) : Prop := - 2 ^ 63 <= x < 2 ^ 63.
Definition is_byte (x : Z) : Prop := 0 <= x < 2 ^ 8.
Definition is_bytes (l : list Z) : Prop := Forall is_byte l.

Notation "x '+ₒ' y" := (u64 (x + y)) (at level 50, left associativity) : sovereign_scope.
Notation "x '*ₒ' y" := (u64 (x * y)) (at level 40, left associativity) : sovereign_scope.

(** Arithmetic goals about wrapped values: [lia] after unfolding the ranges. *)
Ltac words :=
  unfold is_u64, is_u32, is_i32, is_i64, is_byte, u64_max, u64, u32, i32, i64 in *; lia.

Lemma u64_range x : is_u64 (u64 x).
Proof. unfold is_u64, u64. apply Z.mod_pos_bound. lia. Qed.

Lemma u64_id x : is_u64 x → u64 x = x.
Proof. intros H. unfold u64. apply Z.mod_small. exact H. Qed.

Create HintDb sovereign.
#[export] Hint Resolve u64_range : sovereign.

Lemma u64_idemp x : u64 (u64 x) = u64 x.
Proof. apply u64_id, u64_range. Qed.

Lemma i32_range x : is_i32 (i32 x).
Proof.
  unfold is_i32, i32. pose proof (Z.mod_pos_bound (x + 2^31) (2^32) ltac:(lia)). lia.
Qed.

Lemma i32_id x : is_i32 x → i32 x = x.
Proof. unfold is_i32, i32. intros H. rewrite Z.mod_small; lia. Qed.

Lemma i32_mod x : i32 x `mod` 2 ^ 32 = x `mod` 2 ^ 32.
Proof.
  unfold i32. rewrite Zminus_mod, Z.mod_mod, <- Zminus_mod by lia.
  f_equal. lia.
Qed.

Lemma i32_congr x y : x `mod` 2 ^ 32 = y `mod` 2 ^ 32 → i32 x = i32 y.
Proof.
  intros H. unfold i32. f_equal.
  rewrite <- (Zplus_mod_idemp_l x), <- (Zplus_mod_idemp_l y). by rewrite H.
Qed.

Lemma i64_u64 x : is_i64 x → i64 (u64 x) = x.
Proof.
  intros H. unfold i64, u64, is_i64 in *.
  rewrite Zplus_mod_idemp_l, Z.mod_small by lia. lia.
Qed.

(** ** Lawful comparators

    Go comparators return -1, 0 or 1; the model returns [Lt], [Eq] or [Gt].
    [LawfulCmp] is what a comparator promises to the sorts and merges that use
    it: it is a total order and [Eq] is equality. *)

Class LawfulCmp {A} (cmp : A → A → comparison) := {
  cmp_eq : ∀ a b, cmp a b = Eq ↔ a = b;
  cmp_opp : ∀ a b, cmp b a = CompOpp (cmp a b);
  cmp_lt_trans : ∀ a b c, cmp a b = Lt → cmp b c = Lt → cmp a c = Lt;
}.

Section Cmp.
Context {A} (cmp : A → A → comparison) `{!LawfulCmp cmp}.

Definition cmp_lt (a b : A) : Prop := cmp a b = Lt.
Definition cmp_le (a b : A) : Prop := cmp a b ≠ Gt.

#[global] Instance cmp_lt_dec : RelDecision cmp_lt.
Proof. intros a b. unfold cmp_lt. apply _. Defined.
#[global] Instance cmp_le_dec : RelDecision cmp_le.
Proof. intros a b. unfold cmp_le. apply _. Defined.

Lemma cmp_refl a : cmp a a = Eq.
Proof. by apply cmp_eq. Qed.

Lemma cmp_gt_lt a b : cmp a b = Gt ↔ cmp b a = Lt.
Proof. rewrite (cmp_opp (cmp:=cmp) a b). destruct (cmp a b); simpl; naive_solver. Qed.

#[global] Instance cmp_lt_transitive : Transitive cmp_lt.
Proof. intros a b c. apply cmp_lt_trans. Qed.

#[global] Instance cmp_lt_irrefl : Irreflexive cmp_lt.
Proof. intros a Ha. unfold cmp_lt in Ha. rewrite cmp_refl in Ha. done. Qed.

#[global] Instance cmp_le_total : Total cmp_le.
Proof.
  intros a b. unfold cmp_le. rewrite (cmp_opp (cmp:=cmp) a b).
  destruct (cmp a b); simpl; naive_solver.
Qed.

#[global] Instance cmp_le_transitive : Transitive cmp_le.
Proof.
  intros a b c. unfold cmp_le. intros Hab Hbc.
  destruct (cmp a b) eqn:E1; [| |done].
  - apply cmp_eq in E1 as ->. done.
  - destruct (cmp b c) eqn:E2; [| |done].
    + apply cmp_eq in E2 as <-. by rewrite E1.
    + by rewrite (cmp_lt_trans _ _ _ E1 E2).
Qed.

#[global] Instance cmp_le_antisymm : AntiSymm (=) cmp_le.
Proof.
  intros a b. unfold cmp_le. rewrite (cmp_opp (cmp:=cmp) a b).
  destruct (cmp a b) eqn:E; simpl; intros; try done. by apply cmp_eq.
Qed.

Lemma cmp_lt_le a b : cmp_lt a b → cmp_le a b.
Proof. unfold cmp_lt, cmp_le. congruence. Qed.

Lemma cmp_le_lt_eq a b : cmp_le a b → cmp_lt a b ∨ a = b.
Proof.
  unfold cmp_lt, cmp_le. destruct (cmp a b) eqn:E; [|by left|done].
  right. by apply cmp_eq.
Qed.

Lemma cmp_lt_ne a b : cmp_lt a b → a ≠ b.
Proof. intros H ->. by apply cmp_lt_irrefl in H. Qed.
End Cmp.

#[global] Instance Zcompare_lawful : LawfulCmp Z.compare.
Proof.
  split; intros *.
  - apply Z.compare_eq_iff.
  - apply Z.compare_antisym.
  - rewrite !Z.compare_lt_iff. lia.
Qed.

(** Comparing through an injection (a record through its fields, a Go string
    through its bytes). *)
Lemma lawful_by_inj {A B} (f : A → B) `{!Inj (=) (=) f} (cmp : B → B → comparison)
    `{!LawfulCmp cmp} : LawfulCmp (λ a b, cmp (f a) (f b)).
Proof.
  split; intros *.
  - rewrite cmp_eq. split; [apply inj, _ | by intros ->].
  - apply cmp_opp.
  - apply cmp_lt_trans.
Qed.

(** Lexicographic comparison of pairs. *)
Definition pair_compare {A B} (ca : A → A → comparison) (cb : B → B → comparison)
    (x y : A * B) : comparison :=
  match ca x.1 y.1 with Eq => cb x.2 y.2 | c => c end.

#[global] Instance pair_compare_lawful {A B} (ca : A → A → comparison)
    (cb : B → B → comparison) `{!LawfulCmp ca} `{!LawfulCmp cb} :
  LawfulCmp (pair_compare ca cb).
Proof.
  split.
  - intros [a b] [a' b']. unfold pair_compare; simpl.
    destruct (ca a a') eqn:E.
    + apply cmp_eq in E as ->. rewrite cmp_eq. naive_solver.
    + split; [done|]. intros [= -> ->]. by rewrite cmp_refl in E.
    + split; [done|]. intros [= -> ->]. by rewrite cmp_refl in E.
  - intros [a b] [a' b']. unfold pair_compare; simpl.
    rewrite (cmp_opp (cmp:=ca) a a'). destruct (ca a a'); simpl; [apply cmp_opp|done|done].
  - intros [a1 b1] [a2 b2] [a3 b3]. unfold pair_compare; simpl.
    destruct (ca a1 a2) eqn:E1; [| |done].
    + apply cmp_eq in E1 as ->. destruct (ca a2 a3) eqn:E2; try done.
      apply cmp_lt_trans.
    + intros _. destruct (ca a2 a3) eqn:E2; [| |done].
      * apply cmp_eq in E2 as <-. by rewrite E1.
      * by rewrite (cmp_lt_trans _ _ _ E1 E2).
Qed.

(** Lexicographic comparison of lists: Go's [bytes.Compare] and the order of
    Go strings. *)
Fixpoint list_compare {A} (cmp : A → A → comparison) (l k : list A) : comparison :=
  match l, k with
  | [], [] => Eq
  | [], _ :: _ => Lt
  | _ :: _, [] => Gt
  | x :: l', y :: k' => match cmp x y with Eq => list_compare cmp l' k' | c => c end
  end.

#[global] Instance list_compare_lawful {A} (cmp : A → A → comparison) `{!LawfulCmp cmp} :
  LawfulCmp (list_compare cmp).
Proof.
  split.
  - intros l. induction l as [|x l IH]; intros [|y k]; simpl; [done|done|done|].
    destruct (cmp x y) eqn:E.
    + apply cmp_eq in E as ->. rewrite IH. clear IH. naive_solver.
    + split; [done|]. intros [= -> ->]. by rewrite cmp_refl in E.
    + split; [done|]. intros [= -> ->]. by rewrite cmp_refl in E.
  - intros l. induction l as [|x l IH]; intros [|y k]; simpl; try done.
    rewrite (cmp_opp (cmp:=cmp) x y). destruct (cmp x y); simpl; done.
  - intros l. induction l as [|x l IH]; intros [|y k] [|z m]; simpl; try done.
    destruct (cmp x y) eqn:E1; [| |done].
    + apply cmp_eq in E1 as ->. destruct (cmp y z) eqn:E2; try done. apply IH.
    + intros _. destruct (cmp y z) eqn:E2; [| |done].
      * apply cmp_eq in E2 as <-. by rewrite E1.
      * by rewrite (cmp_lt_trans _ _ _ E1 E2).
Qed.

Definition bytes_compare : list Z → list Z → comparison := list_compare Z.compare.

#[global] Instance bytes_compare_lawful : LawfulCmp bytes_compare.
Proof. apply list_compare_lawful, _. Qed.

(** ** Error results

    Go's [(value, error)] pairs: [Ok] with a nil error, [Err] otherwise. *)
Inductive result (E A : Type) :=
| Ok (a : A)
| Err (e : E).
Arguments Ok {E A} a.
Arguments Err {E A} e.

#[global] Instance result_ret {E} : MRet (result E) := λ A, Ok.
#[global] Instance result_bind {E} : MBind (result E) :=
  λ A B f m, match m with Ok a => f a | Err e => Err e end.

Lemma result_bind_Ok {E A B} (m : result E A) (f : A → result E B) b :
  mbind f m = Ok b ↔ ∃ a, m = Ok a ∧ f a = Ok b.
Proof. destruct m; simpl; [naive_solver|]. split; [done|]. by intros (? & [=] & _). Qed.

Lemma result_bind_Err {E A B} (m : result E A) (f : A → result E B) e :
  mbind f m = Err e ↔ m = Err e ∨ ∃ a, m = Ok a ∧ f a = Err e.
Proof. destruct m; simpl; naive_solver. Qed.

(** ** Lists *)

Lemma elem_of_concat {A} (x : A) (ls : list (list A)) :
  x ∈ concat ls ↔ ∃ l, x ∈ l ∧ l ∈ ls.
Proof.
  induction ls as [|l ls IH]; simpl.
  - split; [by intros ?%elem_of_nil|]. intros (l & _ & ?%elem_of_nil). done.
  - rewrite elem_of_app, IH. setoid_rewrite elem_of_cons. naive_solver.
Qed.

Lemma NoDup_concat_map {A B} (f : A → list B) (cs : list A) :
  (∀ c, c ∈ cs → NoDup (f c)) →
  (∀ p q c c' x, cs !! p = Some c → cs !! q = Some c' → x ∈ f c → x ∈ f c' → p = q) →
  NoDup (concat (map f cs)).
Proof.
  induction cs as [|c cs IH]; simpl; intros Hnd Hdis; [constructor|].
  apply NoDup_app. split_and!.
  - apply Hnd. left.
  - intros x Hx (l & Hxl & Hl)%elem_of_concat. apply list_elem_of_fmap in Hl as (c' & -> & Hc').
    apply list_elem_of_lookup in Hc' as [q Hq].
    by specialize (Hdis O (S q) c c' x eq_refl Hq Hx Hxl).
  - apply IH; [intros; apply Hnd; by right|].
    intros p q c1 c2 x H1 H2 Hx1 Hx2. specialize (Hdis (S p) (S q) c1 c2 x H1 H2 Hx1 Hx2). lia.
Qed.

Lemma StronglySorted_weaken {A} (R S : A → A → Prop) l :
  (∀ x y, R x y → S x y) → StronglySorted R l → StronglySorted S l.
Proof.
  intros H. induction 1 as [|x l _ IH Hf]; constructor; [done|].
  eapply Forall_impl; [exact Hf|]. auto.
Qed.

Lemma map_update {A B} (f : A → B) (t : nat) x l : map f (<[t := x]> l) = <[t := f x]> (map f l).
Proof. apply list_fmap_insert. Qed.

(** ** How often a number occurs in a list

    Ownership of numbered things is stated with [occ]: its laws are linear, so
    [lia] closes the accounts. *)

Fixpoint occ (i : Z) (l : list Z) : nat :=
  match l with [] => 0 | x :: l' => (if decide (x = i) then 1 else 0) + occ i l' end%nat.

Lemma occ_app i l k : occ i (l ++ k) = (occ i l + occ i k)%nat.
Proof. induction l as [|x l IH]; simpl; lia. Qed.

Lemma occ_elem i l : i ∈ l ↔ (0 < occ i l)%nat.
Proof.
  induction l as [|x l IH]; simpl; [split; [by intros ?%elem_of_nil|lia]|]. rewrite elem_of_cons, IH.
  destruct (decide (x = i)) as [->|]; [split; [lia|by left]|]. split; [intros [->|]; [done|lia]|right; lia].
Qed.

Lemma occ_update i (C : list (list Z)) h c c' :
  C !! h = Some c → (occ i (concat (<[h := c']> C)) + occ i c = occ i (concat C) + occ i c')%nat.
Proof.
  revert h. induction C as [|x C IH]; intros [|h] Hh; simplify_eq/=; rewrite !occ_app; [lia|]. specialize (IH h Hh). lia.
Qed.

Lemma occ_part i (C : list (list Z)) h c : C !! h = Some c → (occ i c <= occ i (concat C))%nat.
Proof.
  revert h. induction C as [|x C IH]; intros [|h] Hh; simplify_eq/=; rewrite occ_app; [lia|]. specialize (IH h Hh). lia.
Qed.

Lemma occ_parts i (C : list (list Z)) h k c d :
  h ≠ k → C !! h = Some c → C !! k = Some d → (occ i c + occ i d <= occ i (concat C))%nat.
Proof.
  revert h k. induction C as [|x C IH]; intros [|h] [|k] Hne Hh Hk; simplify_eq/=; rewrite occ_app.
  - by pose proof (occ_part i C k d Hk); lia.
  - by pose proof (occ_part i C h c Hh); lia.
  - specialize (IH h k ltac:(congruence) Hh Hk). lia.
Qed.
