(* ===== verification/Bytes.v ===== *)
(** Byte strings: the fixed-width encodings of [encoding/binary], Go strings as
    byte sequences, and slices. *)
From S2P Require Import Prelude.

(** ** Fixed-width integers

    [le_put n x] is what [binary.LittleEndian.PutUint<8n>] writes, [le_get] what
    [binary.LittleEndian.Uint<8n>] reads; the [be_] versions are big-endian. *)

Definition le_put (n : nat) (x : Z) : list Z := Z_to_little_endian (Z.of_nat n) 8 x.
Definition le_get (bs : list Z) : Z := little_endian_to_Z 8 bs.
Definition be_put (n : nat) (x : Z) : list Z := reverse (le_put n x).
Definition be_get (bs : list Z) : Z := le_get (reverse bs).
Arguments le_put : simpl never.
Arguments be_put : simpl never.
Arguments le_get : simpl never.
Arguments be_get : simpl never.

Lemma length_le_put n x : length (le_put n x) = n.
Proof.
  unfold le_put. pose proof (length_Z_to_little_endian (Z.of_nat n) 8 x). lia.
Qed.

Lemma length_be_put n x : length (be_put n x) = n.
Proof. unfold be_put. by rewrite length_reverse, length_le_put. Qed.

Lemma le_put_bytes n x : is_bytes (le_put n x).
Proof. unfold le_put, is_bytes, is_byte. apply Z_to_little_endian_bound; lia. Qed.

Lemma be_put_bytes n x : is_bytes (be_put n x).
Proof. unfold be_put, is_bytes. apply Forall_reverse, le_put_bytes. Qed.

Lemma le_get_put n x : 0 <= x < 2 ^ (Z.of_nat n * 8) → le_get (le_put n x) = x.
Proof.
  intros H. unfold le_get, le_put.
  rewrite little_endian_to_Z_to_little_endian by lia. by apply Z.mod_small.
Qed.

Lemma le_put_get n bs : length bs = n → is_bytes bs → le_put n (le_get bs) = bs.
Proof.
  intros <- H. unfold le_get, le_put. apply Z_to_little_endian_to_Z; [done|lia|done].
Qed.

Lemma be_get_put n x : 0 <= x < 2 ^ (Z.of_nat n * 8) → be_get (be_put n x) = x.
Proof. intros H. unfold be_get, be_put. rewrite reverse_involutive. by apply le_get_put. Qed.

Lemma le_get_range bs :
  is_bytes bs → 0 <= le_get bs < 2 ^ (Z.of_nat (length bs) * 8).
Proof. intros H. apply little_endian_to_Z_bound; [lia|done]. Qed.

Lemma le_put_inj n x y :
  0 <= x < 2 ^ (Z.of_nat n * 8) → 0 <= y < 2 ^ (Z.of_nat n * 8) →
  le_put n x = le_put n y → x = y.
Proof. intros Hx Hy H. by rewrite <- (le_get_put n x), H, le_get_put. Qed.

Lemma be_put_inj n x y :
  0 <= x < 2 ^ (Z.of_nat n * 8) → 0 <= y < 2 ^ (Z.of_nat n * 8) →
  be_put n x = be_put n y → x = y.
Proof. intros Hx Hy H%(inj reverse). by apply (le_put_inj n). Qed.

(** ** Go strings *)

Fixpoint string_bytes (s : string) : list Z :=
  match s with
  | EmptyString => []
  | String a s' => Z.of_N (Ascii.N_of_ascii a) :: string_bytes s'
  end.

Fixpoint bytes_string (bs : list Z) : string :=
  match bs with
  | [] => EmptyString
  | b :: bs' => String (Ascii.ascii_of_N (Z.to_N b)) (bytes_string bs')
  end.

Lemma bytes_string_bytes s : bytes_string (string_bytes s) = s.
Proof.
  induction s as [|a s IH]; simpl; [done|].
  by rewrite N2Z.id, Ascii.ascii_N_embedding, IH.
Qed.

#[global] Instance string_bytes_inj : Inj (=) (=) string_bytes.
Proof. intros s t H. by rewrite <- (bytes_string_bytes s), H, bytes_string_bytes. Qed.

Lemma string_bytes_bytes bs : is_bytes bs → string_bytes (bytes_string bs) = bs.
Proof.
  induction 1 as [|b bs Hb _ IH]; simpl; [done|]. unfold is_byte in Hb.
  rewrite Ascii.N_ascii_embedding by lia. by rewrite Z2N.id, IH by lia.
Qed.

(** Go compares strings byte by byte. *)
Definition string_compare (a b : string) : comparison :=
  bytes_compare (string_bytes a) (string_bytes b).

#[global] Instance string_compare_lawful : LawfulCmp string_compare.
Proof. unfold string_compare. apply (lawful_by_inj string_bytes bytes_compare). Qed.

(** ** hash/maphash

    The runtime's seeded string hash: a function of the seed and the bytes
    written, with a uint64 result.  The seed is its 8-byte backing word. *)
Class MapHash := {
  maphash : Z → list Z → Z;
  maphash_range : ∀ seed bs, is_u64 (maphash seed bs);
}.

(** ** Slices: [bs[off : off+len]] *)

Definition slice (off len : nat) (bs : list Z) : list Z := take len (drop off bs).
Arguments slice : simpl never.

Lemma length_slice off len bs :
  (off + len <= length bs)%nat → length (slice off len bs) = len.
Proof. intros H. unfold slice. rewrite length_take, length_drop. lia. Qed.

Lemma slice_bytes off len bs : is_bytes bs → is_bytes (slice off len bs).
Proof. intros H. unfold slice, is_bytes. by apply Forall_take, Forall_drop. Qed.

Lemma slice_app_here len (a b : list Z) : length a = len → slice 0 len (a ++ b) = a.
Proof. intros <-. unfold slice. by rewrite drop_0, take_app_length. Qed.

Lemma slice_app_skip off len (a b : list Z) :
  (length a <= off)%nat → slice off len (a ++ b) = slice (off - length a) len b.
Proof. intros H. unfold slice. by rewrite drop_app_ge. Qed.

Lemma slice_drop off len k (bs : list Z) : slice off len (drop k bs) = slice (k + off) len bs.
Proof. unfold slice. by rewrite drop_drop. Qed.

(** The last field has nothing after it. *)
Lemma slice_all len (a : list Z) : length a = len → slice 0 len a = a.
Proof. intros H. rewrite <- (app_nil_r a) at 1. by apply slice_app_here. Qed.

(** [len] evaluates the length of an encoding; [slices] reads the fields of a
    concatenation of fields of known lengths. *)
Ltac len := repeat rewrite ?length_app, ?length_be_put, ?length_le_put; simpl length; lia.

Ltac slices :=
  repeat first
    [ rewrite slice_app_here by len
    | rewrite slice_app_skip by len; repeat rewrite ?length_app, ?length_be_put, ?length_le_put;
      repeat match goal with H : length _ = _ |- _ => rewrite H end; cbn [Nat.sub length Nat.add] ].

#[export] Hint Resolve le_put_bytes be_put_bytes slice_bytes : core.
