(* ===== verification/Sha256.v ===== *)
(** [crypto/sha256.Sum256] as an executable function on byte lists (FIPS 180-4,
    32-bit words as [Z], every addition wrapped). *)
From S2P Require Import Prelude Bytes.

Definition rotr (n x : Z) : Z := Z.lor (Z.shiftr x n) (u32 (Z.shiftl x (32 - n))).
Definition not32 (x : Z) : Z := Z.lxor x (2 ^ 32 - 1).

Definition Ch (x y z : Z) : Z := Z.lxor (Z.land x y) (Z.land (not32 x) z).
Definition Maj (x y z : Z) : Z :=
  Z.lxor (Z.lxor (Z.land x y) (Z.land x z)) (Z.land y z).
Definition bigSigma0 (x : Z) : Z := Z.lxor (Z.lxor (rotr 2 x) (rotr 13 x)) (rotr 22 x).
Definition bigSigma1 (x : Z) : Z := Z.lxor (Z.lxor (rotr 6 x) (rotr 11 x)) (rotr 25 x).
Definition smallSigma0 (x : Z) : Z :=
  Z.lxor (Z.lxor (rotr 7 x) (rotr 18 x)) (Z.shiftr x 3).
Definition smallSigma1 (x : Z) : Z :=
  Z.lxor (Z.lxor (rotr 17 x) (rotr 19 x)) (Z.shiftr x 10).

Definition round_constants : list Z :=
 [1116352408;1899447441;3049323471;3921009573;961987163;1508970993;2453635748;2870763221;
  3624381080;310598401;607225278;1426881987;1925078388;2162078206;2614888103;3248222580;
  3835390401;4022224774;264347078;604807628;770255983;1249150122;1555081692;1996064986;
  2554220882;2821834349;2952996808;3210313671;3336571891;3584528711;113926993;338241895;
  666307205;773529912;1294757372;1396182291;1695183700;1986661051;2177026350;2456956037;
  2730485921;2820302411;3259730800;3345764771;3516065817;3600352804;4094571909;275423344;
  430227734;506948616;659060556;883997877;958139571;1322822218;1537002063;1747873779;
  1955562222;2024104815;2227730452;2361852424;2428436474;2756734187;3204031479;3329325298].

Definition initial_hash : list Z :=
 [1779033703;3144134277;1013904242;2773480762;1359893119;2600822924;528734635;1541459225].

(** Message padding: a 1 bit, zeros to 56 mod 64 bytes, the bit length. *)
Definition pad (msg : list Z) : list Z :=
  let len := Z.of_nat (length msg) in
  let zeros := Z.to_nat ((55 - len) `mod` 64) in
  msg ++ [128] ++ replicate zeros 0 ++ be_put 8 (u64 (8 * len)).

(** The message schedule, newest word first: [n] more words are appended. *)
Fixpoint extend_schedule (n : nat) (w : list Z) : list Z :=
  match n with
  | O => w
  | S n' =>
      let at_ i := nth i w 0 in
      let next := u32 (smallSigma1 (at_ 1%nat) + at_ 6%nat + smallSigma0 (at_ 14%nat) + at_ 15%nat) in
      extend_schedule n' (next :: w)
  end.

Record vars := mkVars { va : Z; vb : Z; vc : Z; vd : Z; ve : Z; vf : Z; vg : Z; vh : Z }.

Definition round (v : vars) (kw : Z * Z) : vars :=
  let t1 := u32 (vh v + bigSigma1 (ve v) + Ch (ve v) (vf v) (vg v) + kw.1 + kw.2) in
  let t2 := u32 (bigSigma0 (va v) + Maj (va v) (vb v) (vc v)) in
  mkVars (u32 (t1 + t2)) (va v) (vb v) (vc v) (u32 (vd v + t1)) (ve v) (vf v) (vg v).

Definition vars_of (h : list Z) : vars :=
  mkVars (nth 0 h 0) (nth 1 h 0) (nth 2 h 0) (nth 3 h 0)
         (nth 4 h 0) (nth 5 h 0) (nth 6 h 0) (nth 7 h 0).
Definition vars_list (v : vars) : list Z :=
  [va v; vb v; vc v; vd v; ve v; vf v; vg v; vh v].

Fixpoint words_of (n : nat) (bs : list Z) : list Z :=
  match n with
  | O => []
  | S n' => be_get (take 4 bs) :: words_of n' (drop 4 bs)
  end.

Definition compress (h : list Z) (block : list Z) : list Z :=
  let w := reverse (extend_schedule 48 (reverse (words_of 16 block))) in
  let v := foldl round (vars_of h) (zip round_constants w) in
  zip_with (λ x y, u32 (x + y)) h (vars_list v).

Fixpoint compress_blocks (n : nat) (h : list Z) (bs : list Z) : list Z :=
  match n with
  | O => h
  | S n' => compress_blocks n' (compress h (take 64 bs)) (drop 64 bs)
  end.

Definition Sum256 (msg : list Z) : list Z :=
  let padded := pad msg in
  let h := compress_blocks (length padded / 64) initial_hash padded in
  concat (map (be_put 4) h).

Lemma length_compress h block : length h = 8%nat → length (compress h block) = 8%nat.
Proof. intros H. unfold compress. by rewrite length_zip_with, H. Qed.

Lemma length_compress_blocks n h bs :
  length h = 8%nat → length (compress_blocks n h bs) = 8%nat.
Proof.
  revert h bs. induction n as [|n IH]; intros h bs H; simpl; [done|].
  by apply IH, length_compress.
Qed.

Lemma length_Sum256 msg : length (Sum256 msg) = 32%nat.
Proof.
  unfold Sum256. set (h := compress_blocks _ _ _).
  assert (length h = 8%nat) as Hh by by apply length_compress_blocks.
  clearbody h. by do 9 (destruct h as [|? h]; try done).
Qed.

Lemma Sum256_bytes msg : is_bytes (Sum256 msg).
Proof.
  unfold Sum256. generalize (compress_blocks (length (pad msg) / 64) initial_hash (pad msg)).
  intros h. induction h as [|x h IH]; cbn [map concat]; [constructor|].
  unfold is_bytes. rewrite Forall_app. split; [apply be_put_bytes | done].
Qed.

(** FIPS 180-4 test vectors. *)
Example Sum256_abc :
  Sum256 (string_bytes "abc") =
  [186;120;22;191;143;1;207;234;65;65;64;222;93;174;34;35;176;3;97;163;150;23;122;156;180;16;255;97;242;0;21;173].
Proof. vm_compute. reflexivity. Qed.

Example Sum256_empty :
  Sum256 [] =
  [227;176;196;66;152;252;28;20;154;251;244;200;153;111;185;36;39;174;65;228;100;155;147;76;164;149;153;27;120;82;184;85].
Proof. vm_compute. reflexivity. Qed.
