(* ===== verification/Sha512.v ===== *)
(** [crypto/sha512] as an executable function on byte lists (FIPS 180-4, 64-bit
    words as [Z], every addition wrapped). *)
From S2P Require Import Prelude Bytes Sha256.

Definition rotr64 (n x : Z) : Z := Z.lor (Z.shiftr x n) (u64 (Z.shiftl x (64 - n))).
Definition xor3 (a b c : Z) : Z := Z.lxor (Z.lxor a b) c.
Definition Ch64 (x y z : Z) : Z := Z.lxor (Z.land x y) (Z.land (Z.lxor x u64_max) z).
Definition bigSigma0_512 (x : Z) : Z := xor3 (rotr64 28 x) (rotr64 34 x) (rotr64 39 x).
Definition bigSigma1_512 (x : Z) : Z := xor3 (rotr64 14 x) (rotr64 18 x) (rotr64 41 x).
Definition smallSigma0_512 (x : Z) : Z := xor3 (rotr64 1 x) (rotr64 8 x) (Z.shiftr x 7).
Definition smallSigma1_512 (x : Z) : Z := xor3 (rotr64 19 x) (rotr64 61 x) (Z.shiftr x 6).

Definition round_constants_512 : list Z :=
 [4794697086780616226;8158064640168781261;13096744586834688815;16840607885511220156;
  4131703408338449720;6480981068601479193;10538285296894168987;12329834152419229976;
  15566598209576043074;1334009975649890238;2608012711638119052;6128411473006802146;
  8268148722764581231;9286055187155687089;11230858885718282805;13951009754708518548;
  16472876342353939154;17275323862435702243;1135362057144423861;2597628984639134821;
  3308224258029322869;5365058923640841347;6679025012923562964;8573033837759648693;
  10970295158949994411;12119686244451234320;12683024718118986047;13788192230050041572;
  14330467153632333762;15395433587784984357;489312712824947311;1452737877330783856;
  2861767655752347644;3322285676063803686;5560940570517711597;5996557281743188959;
  7280758554555802590;8532644243296465576;9350256976987008742;10552545826968843579;
  11727347734174303076;12113106623233404929;14000437183269869457;14369950271660146224;
  15101387698204529176;15463397548674623760;17586052441742319658;1182934255886127544;
  1847814050463011016;2177327727835720531;2830643537854262169;3796741975233480872;
  4115178125766777443;5681478168544905931;6601373596472566643;7507060721942968483;
  8399075790359081724;8693463985226723168;9568029438360202098;10144078919501101548;
  10430055236837252648;11840083180663258601;13761210420658862357;14299343276471374635;
  14566680578165727644;15097957966210449927;16922976911328602910;17689382322260857208;
  500013540394364858;748580250866718886;1242879168328830382;1977374033974150939;
  2944078676154940804;3659926193048069267;4368137639120453308;4836135668995329356;
  5532061633213252278;6448918945643986474;6902733635092675308;7801388544844847127].

Definition initial_hash_512 : list Z :=
 [7640891576956012808;13503953896175478587;4354685564936845355;11912009170470909681;
  5840696475078001361;11170449401992604703;2270897969802886507;6620516959819538809].

(** Padding to 112 mod 128 bytes; the bit length has 128 bits. *)
Definition pad_512 (msg : list Z) : list Z :=
  let len := Z.of_nat (length msg) in
  msg ++ [128] ++ replicate (Z.to_nat ((111 - len) `mod` 128)) 0 ++ be_put 16 (8 * len).

Fixpoint extend_schedule_512 (n : nat) (w : list Z) : list Z :=
  match n with
  | O => w
  | S n' =>
      let at_ i := nth i w 0 in
      extend_schedule_512 n'
        (u64 (smallSigma1_512 (at_ 1%nat) + at_ 6%nat + smallSigma0_512 (at_ 14%nat) + at_ 15%nat) :: w)
  end.

Definition round_512 (v : vars) (kw : Z * Z) : vars :=
  let t1 := u64 (vh v + bigSigma1_512 (ve v) + Ch64 (ve v) (vf v) (vg v) + kw.1 + kw.2) in
  let t2 := u64 (bigSigma0_512 (va v) + Maj (va v) (vb v) (vc v)) in
  mkVars (u64 (t1 + t2)) (va v) (vb v) (vc v) (u64 (vd v + t1)) (ve v) (vf v) (vg v).

Fixpoint words_of_512 (n : nat) (bs : list Z) : list Z :=
  match n with
  | O => []
  | S n' => be_get (take 8 bs) :: words_of_512 n' (drop 8 bs)
  end.

Definition compress_512 (h : list Z) (block : list Z) : list Z :=
  let w := reverse (extend_schedule_512 64 (reverse (words_of_512 16 block))) in
  let v := foldl round_512 (vars_of h) (zip round_constants_512 w) in
  zip_with (λ x y, u64 (x + y)) h (vars_list v).

Fixpoint compress_blocks_512 (n : nat) (h : list Z) (bs : list Z) : list Z :=
  match n with
  | O => h
  | S n' => compress_blocks_512 n' (compress_512 h (take 128 bs)) (drop 128 bs)
  end.

Definition Sum512 (msg : list Z) : list Z :=
  let padded := pad_512 msg in
  concat (map (be_put 8) (compress_blocks_512 (length padded / 128) initial_hash_512 padded)).
Arguments Sum512 : simpl never.

Lemma length_compress_512 h block : length h = 8%nat → length (compress_512 h block) = 8%nat.
Proof. intros H. unfold compress_512. rewrite length_zip_with, H. done. Qed.

Lemma length_compress_blocks_512 n h bs : length h = 8%nat → length (compress_blocks_512 n h bs) = 8%nat.
Proof. revert h bs. induction n as [|n IH]; intros h bs Hh; simpl; [done|]. by apply IH, length_compress_512. Qed.

Lemma length_Sum512 msg : length (Sum512 msg) = 64%nat.
Proof.
  unfold Sum512.
  pose proof (length_compress_blocks_512 (length (pad_512 msg) / 128) initial_hash_512 (pad_512 msg) eq_refl) as H.
  destruct (compress_blocks_512 _ _ _) as [|a [|b [|c [|d [|e [|f [|g [|h [|]]]]]]]]]; done.
Qed.

(** Test vectors: "abc", and a message of two blocks. *)
Example Sum512_abc : Sum512 [97; 98; 99] =
 [221;175;53;161;147;97;122;186;204;65;115;73;174;32;65;49;
  18;230;250;78;137;169;126;162;10;158;238;230;75;85;211;154;
  33;146;153;42;39;79;193;168;54;186;60;35;163;254;235;189;
  69;77;68;35;100;60;232;14;42;154;201;79;165;76;164;159].
Proof. vm_compute. reflexivity. Qed.

Example Sum512_120 : Sum512 (replicate 120 97) =
 [242;65;222;97;43;1;170;47;163;207;1;83;29;42;142;94;
  23;252;118;29;253;72;167;4;168;52;164;127;87;214;234;222;
  120;4;236;195;155;228;47;222;241;110;198;173;234;247;192;28;
  47;208;196;204;151;211;134;9;7;207;164;163;179;109;12;5].
Proof. vm_compute. reflexivity. Qed.
