(* ===== verification/Crc32c.v ===== *)
(** hash/crc32 with the Castagnoli polynomial, as internal/chaos/wal.go uses it:
    the reflected bit-serial algorithm (the standard library's table is eight of
    its steps precomputed).  The checksum separates any two messages of the same
    length that differ inside one window of at most four bytes. *)
From S2P Require Import Prelude Bytes.

(** crc32.Castagnoli, reflected. *)
Definition castagnoli : Z := 0x82F63B78.

Definition crc_bit (x : Z) : Z :=
  if Z.odd x then Z.lxor (Z.shiftr x 1) castagnoli else Z.shiftr x 1.

Definition crc_byte (crc b : Z) : Z := Nat.iter 8 crc_bit (Z.lxor crc b).

Definition crc_run (crc : Z) (bs : list Z) : Z := foldl crc_byte crc bs.

(** crc32.Checksum(bs, castagnoliTable). *)
Definition crc32_Checksum (bs : list Z) : Z := Z.lxor (crc_run 0xFFFFFFFF bs) 0xFFFFFFFF.
Arguments crc_run : simpl never.
Arguments crc32_Checksum : simpl never.

(** The check value of CRC-32C. *)
Example crc32c_check : crc32_Checksum (string_bytes "123456789") = 0xE3069283.
Proof. vm_compute. reflexivity. Qed.

(** ** The bit step is linear and, on 32 bits, injective *)

Lemma u32_log x : is_u32 x ↔ 0 <= x ∧ ∀ i, 32 <= i → Z.testbit x i = false.
Proof.
  unfold is_u32. split.
  - intros [H0 H1]. split; [done|]. intros i Hi. destruct (decide (x = 0)) as [->|Hx]; [apply Z.bits_0|].
    apply Z.bits_above_log2; [done|]. apply Z.log2_lt_pow2 in H1; lia.
  - intros [H0 H]. split; [done|]. destruct (decide (x = 0)) as [->|Hx]; [lia|].
    apply Z.log2_lt_pow2; [lia|]. destruct (Z.lt_ge_cases (Z.log2 x) 32) as [|Hge]; [done|].
    specialize (H _ Hge). rewrite Z.bit_log2 in H by lia. done.
Qed.

Lemma lxor_u32 x y : is_u32 x → is_u32 y → is_u32 (Z.lxor x y).
Proof.
  intros [Hx0 Hx]%u32_log [Hy0 Hy]%u32_log. apply u32_log. split.
  - apply Z.lxor_nonneg. lia.
  - intros i Hi. by rewrite Z.lxor_spec, Hx, Hy.
Qed.

Lemma shiftr1_range x : is_u32 x → 0 <= Z.shiftr x 1 < 2 ^ 31.
Proof.
  unfold is_u32. rewrite Z.shiftr_div_pow2 by lia. intros [H0 H1]. split.
  - by apply Z.div_pos.
  - apply Z.div_lt_upper_bound; [done|]. change (2 ^ 1 * 2 ^ 31) with (2 ^ 32). done.
Qed.

Lemma crc_bit_range x : is_u32 x → is_u32 (crc_bit x).
Proof.
  intros H. pose proof (shiftr1_range x H). unfold crc_bit.
  assert (is_u32 (Z.shiftr x 1)) by (unfold is_u32; lia).
  destruct (Z.odd x); [|done]. apply lxor_u32; [done|]. unfold is_u32, castagnoli. lia.
Qed.

Lemma crc_bit_lxor x y : crc_bit (Z.lxor x y) = Z.lxor (crc_bit x) (crc_bit y).
Proof.
  unfold crc_bit. rewrite Z.shiftr_lxor.
  replace (Z.odd (Z.lxor x y)) with (xorb (Z.odd x) (Z.odd y)) by by rewrite <- !Z.bit0_odd, Z.lxor_spec.
  apply Z.bits_inj'. intros i _.
  destruct (Z.odd x), (Z.odd y); simpl; rewrite !Z.lxor_spec;
    destruct (Z.testbit (Z.shiftr x 1) i), (Z.testbit (Z.shiftr y 1) i), (Z.testbit castagnoli i); done.
Qed.

Lemma crc_bit_double z : crc_bit (2 * z) = z.
Proof.
  unfold crc_bit. rewrite Z.odd_mul. simpl. rewrite Z.shiftr_div_pow2 by lia.
  change (2 ^ 1) with 2. rewrite Z.mul_comm. by apply Z.div_mul.
Qed.

(** The polynomial's top bit is set, so the top bit of the result is the bit
    that was shifted out. *)
Lemma crc_bit_top x : is_u32 x → Z.testbit (crc_bit x) 31 = Z.odd x.
Proof.
  intros H. pose proof (shiftr1_range x H) as Hs. unfold crc_bit.
  assert (Z.testbit (Z.shiftr x 1) 31 = false) as E.
  { destruct (decide (Z.shiftr x 1 = 0)) as [->|]; [done|].
    apply Z.bits_above_log2; [lia|]. apply Z.log2_lt_pow2; lia. }
  destruct (Z.odd x); [|done]. by rewrite Z.lxor_spec, E.
Qed.

Lemma crc_bit_inj x y : is_u32 x → is_u32 y → crc_bit x = crc_bit y → x = y.
Proof.
  intros Hx Hy E. pose proof (crc_bit_top x Hx) as Ho. rewrite E, crc_bit_top in Ho by done.
  assert (Z.shiftr x 1 = Z.shiftr y 1) as Es.
  { unfold crc_bit in E. rewrite Ho in E. destruct (Z.odd x); [|done].
    rewrite <- (Z.lxor_0_r (Z.shiftr x 1)), <- (Z.lxor_0_r (Z.shiftr y 1)).
    by rewrite <- (Z.lxor_nilpotent castagnoli), <- !Z.lxor_assoc, E. }
  rewrite (Z.div2_odd x), (Z.div2_odd y), Ho. by rewrite !Z.div2_spec, Es.
Qed.

(** ** Iterated steps *)

Lemma iter_range n x : is_u32 x → is_u32 (Nat.iter n crc_bit x).
Proof. intros H. induction n; simpl; [done|]. by apply crc_bit_range. Qed.

Lemma iter_inj n x y : is_u32 x → is_u32 y → Nat.iter n crc_bit x = Nat.iter n crc_bit y → x = y.
Proof.
  intros Hx Hy. induction n; simpl; [done|]. intros H%crc_bit_inj; [auto| |]; by apply iter_range.
Qed.

Lemma iter_lxor n x y :
  Nat.iter n crc_bit (Z.lxor x y) = Z.lxor (Nat.iter n crc_bit x) (Nat.iter n crc_bit y).
Proof. induction n as [|n IH]; simpl; [done|]. by rewrite IH, crc_bit_lxor. Qed.

Lemma iter_shift n z : Nat.iter n crc_bit (z * 2 ^ Z.of_nat n) = z.
Proof.
  revert z. induction n as [|n IH]; intros z; [simpl; lia|].
  rewrite Nat.iter_succ_r.
  replace (z * 2 ^ Z.of_nat (S n)) with (2 * (z * 2 ^ Z.of_nat n)).
  - by rewrite crc_bit_double.
  - rewrite Nat2Z.inj_succ, Z.pow_succ_r by lia. lia.
Qed.

Lemma byte_u32 b : is_byte b → is_u32 b.
Proof. unfold is_byte, is_u32. lia. Qed.

Lemma crc_run_range c bs : is_u32 c → is_bytes bs → is_u32 (crc_run c bs).
Proof.
  intros Hc H. revert c Hc. induction H as [|b bs Hb _ IH]; intros c Hc; [done|].
  apply (IH (crc_byte c b)). by apply iter_range, lxor_u32, byte_u32.
Qed.

Lemma crc_run_app c a b : crc_run c (a ++ b) = crc_run (crc_run c a) b.
Proof. unfold crc_run. apply foldl_app. Qed.

(** The same bytes keep different states apart. *)
Lemma crc_run_inj_state bs c c' :
  is_u32 c → is_u32 c' → is_bytes bs → crc_run c bs = crc_run c' bs → c = c'.
Proof.
  intros Hc Hc' H. revert c c' Hc Hc'. induction H as [|b bs Hb _ IH]; intros c c' Hc Hc' E; [done|].
  assert (∀ c, is_u32 c → is_u32 (crc_byte c b)) as Hr.
  { intros. by apply iter_range, lxor_u32, byte_u32. }
  apply (IH (crc_byte c b) (crc_byte c' b)) in E; [|auto..].
  unfold crc_byte in E. apply iter_inj in E; [|by apply lxor_u32, byte_u32..].
  rewrite <- (Z.lxor_0_r c), <- (Z.lxor_0_r c'), <- (Z.lxor_nilpotent b).
  by rewrite <- !Z.lxor_assoc, E.
Qed.

Lemma le_get_cons b bs : is_byte b → le_get (b :: bs) = Z.lxor b (le_get bs * 2 ^ 8).
Proof.
  intros Hb. unfold le_get. simpl. rewrite <- Z.shiftl_mul_pow2 by lia.
  apply Z.bits_inj'. intros i Hi. rewrite Z.lor_spec, Z.lxor_spec, Z.shiftl_spec by done.
  destruct (Z.lt_ge_cases i 8).
  - rewrite (Z.testbit_neg_r _ (i - 8)) by lia. by destruct (Z.testbit b i).
  - replace (Z.testbit b i) with false; [by destruct (Z.testbit _ (i - 8))|].
    symmetry. destruct (decide (b = 0)) as [->|]; [apply Z.bits_0|].
    unfold is_byte in Hb. apply Z.bits_above_log2; [lia|].
    assert (Z.log2 b < 8) by (apply Z.log2_lt_pow2; lia). lia.
Qed.

(** Running over [bs] is [8 * len] bit steps from the state xored with the
    little-endian value of [bs]. *)
Lemma crc_run_le_get c bs :
  is_bytes bs → crc_run c bs = Nat.iter (8 * length bs) crc_bit (Z.lxor c (le_get bs)).
Proof.
  intros H. revert c. induction H as [|b bs Hb _ IH]; intros c.
  - unfold crc_run, le_get. simpl. by rewrite Z.lxor_0_r.
  - change (crc_run c (b :: bs)) with (crc_run (crc_byte c b) bs). rewrite IH, le_get_cons by done.
    rewrite <- Z.lxor_assoc. simpl length.
    replace (8 * S (length bs))%nat with (8 * length bs + 8)%nat by lia.
    rewrite Nat.iter_add. f_equal. rewrite (iter_lxor 8). unfold crc_byte. f_equal.
    symmetry. apply (iter_shift 8).
Qed.

Lemma le_get_u32 bs : is_bytes bs → (length bs <= 4)%nat → is_u32 (le_get bs).
Proof.
  intros H Hl. pose proof (le_get_range bs H). unfold is_u32. split; [lia|].
  eapply Z.lt_le_trans; [apply H0|]. apply Z.pow_le_mono_r; lia.
Qed.

(** Any change inside a window of at most four bytes changes the checksum. *)
Lemma crc32_burst pre w w' post :
  is_bytes pre → is_bytes w → is_bytes w' → is_bytes post →
  length w' = length w → (length w <= 4)%nat →
  crc32_Checksum (pre ++ w ++ post) = crc32_Checksum (pre ++ w' ++ post) → w = w'.
Proof.
  intros Hp Hw Hw' Hq Hl H4 E. set (c := crc_run 0xFFFFFFFF pre).
  assert (is_u32 c) as Hc by (apply crc_run_range; [done|assumption]).
  assert (∀ v, is_bytes v → is_u32 (crc_run c v)) as Hr by (intros; by apply crc_run_range).
  unfold crc32_Checksum in E. rewrite !crc_run_app in E. fold c in E.
  assert (crc_run (crc_run c w) post = crc_run (crc_run c w') post) as E1.
  { rewrite <- (Z.lxor_0_r (crc_run _ post)), <- (Z.lxor_0_r (crc_run (crc_run c w') post)).
    by rewrite <- (Z.lxor_nilpotent 0xFFFFFFFF), <- !Z.lxor_assoc, E. }
  apply crc_run_inj_state in E1; [|auto..].
  rewrite !crc_run_le_get, Hl in E1 by done.
  apply iter_inj in E1; [|apply lxor_u32, le_get_u32; [done..|lia]|apply lxor_u32, le_get_u32; [done..|lia]].
  assert (le_get w = le_get w') as E2.
  { rewrite <- (Z.lxor_0_l (le_get w)), <- (Z.lxor_0_l (le_get w')), <- (Z.lxor_nilpotent c).
    by rewrite !Z.lxor_assoc, E1. }
  by rewrite <- (le_put_get (length w) w), E2, le_put_get.
Qed.

Lemma crc32_range bs : is_bytes bs → is_u32 (crc32_Checksum bs).
Proof. intros H. apply lxor_u32; [by apply crc_run_range|done]. Qed.
