(* ===== verification/Dots.v ===== *)
(** Causal dots and CRDT entries (pkg/sync/hamt.go, pkg/sync/crdt.go): the data
    model, the dot order, the dot-keyed merge that [Join] runs, and the
    insertion step of [InsertLocal].  The abstract value of an entry slice is the
    finite map from dots to entries. *)
From S2P Require Import Prelude Bytes.

(** ** Data *)

(** CausalDot: [16]byte and uint64. *)
Record CausalDot := mkDot { NodeID : list Z; Counter : Z }.

#[global] Instance CausalDot_eq_dec : EqDecision CausalDot.
Proof. solve_decision. Defined.

#[global] Instance CausalDot_countable : Countable CausalDot.
Proof.
  refine (inj_countable' (λ d, (NodeID d, Counter d)) (λ p, mkDot p.1 p.2) _).
  by intros [].
Defined.

Record CRDTEntry := mkEntry {
  PayloadDigest : list Z;
  OriginNodeID : list Z;
  DotNodeID : list Z;
  DotCounter : Z;
  SystemTime : Z;
  ValidTimeStart : Z;
  ValidTimeEnd : Z;
  AssertionTime : Z;
  DecisionTime : Z;
  H3Index : Z;
}.

#[global] Instance CRDTEntry_eq_dec : EqDecision CRDTEntry.
Proof. solve_decision. Defined.

(** The entries a Go CRDTEntry can hold: [32]byte, [16]byte, uint64 and int64
    fields. *)
Definition sized_entry (x : CRDTEntry) : Prop :=
  (length (PayloadDigest x) = 32%nat ∧ length (OriginNodeID x) = 16%nat ∧ length (DotNodeID x) = 16%nat) ∧
  (is_bytes (PayloadDigest x) ∧ is_bytes (OriginNodeID x) ∧ is_bytes (DotNodeID x)) ∧
  is_u64 (DotCounter x) ∧ is_u64 (H3Index x) ∧ is_i64 (SystemTime x) ∧ is_i64 (ValidTimeStart x) ∧
  is_i64 (ValidTimeEnd x) ∧ is_i64 (AssertionTime x) ∧ is_i64 (DecisionTime x).

#[global] Instance is_bytes_dec l : Decision (is_bytes l).
Proof. unfold is_bytes, is_byte. apply _. Defined.

#[global] Instance sized_entry_dec x : Decision (sized_entry x).
Proof. unfold sized_entry, is_u64, is_i64. apply _. Defined.

Definition Dot (e : CRDTEntry) : CausalDot := mkDot (DotNodeID e) (DotCounter e).

(** ** The dot order *)

(** compareDots: the 16 node-id bytes from the left, then the counter. *)
Definition compareDots (a b : CausalDot) : comparison :=
  match bytes_compare (NodeID a) (NodeID b) with
  | Eq => Z.compare (Counter a) (Counter b)
  | c => c
  end.

#[global] Instance compareDots_lawful : LawfulCmp compareDots.
Proof.
  assert (Inj (=) (=) (λ d, (NodeID d, Counter d))) by by intros [] [] [= -> ->].
  exact (lawful_by_inj (λ d, (NodeID d, Counter d)) (pair_compare bytes_compare Z.compare)).
Qed.

Abbreviation dot_lt := (cmp_lt compareDots).
Abbreviation dot_le := (cmp_le compareDots).

Definition entry_lt (a b : CRDTEntry) : Prop := dot_lt (Dot a) (Dot b).

#[global] Instance entry_lt_trans : Transitive entry_lt.
Proof. intros a b c. unfold entry_lt. apply cmp_lt_transitive, _. Qed.

(** The leaf invariant: entries strictly ascending by dot. *)
Definition dot_sorted (l : list CRDTEntry) : Prop := StronglySorted entry_lt l.

#[global] Instance dot_sorted_dec l : Decision (dot_sorted l).
Proof.
  assert (∀ a b, Decision (entry_lt a b)) by (intros; unfold entry_lt; apply _).
  induction l as [|e l IH]; [left; constructor|].
  destruct IH as [Hl|Hl]; [|right; by inversion 1].
  destruct (decide (Forall (entry_lt e) l)); [left|right]; [by constructor|by inversion 1].
Defined.

(** ** HashCausalDot: FNV-1a over node id, counter (low byte first), digest *)

Definition fnv_step (key b : Z) : Z := Z.lxor key b *ₒ 1099511628211.

Definition HashCausalDot (dot : CausalDot) (digest : list Z) : Z :=
  let key := foldl fnv_step 14695981039346656037 (NodeID dot) in
  let key := foldl fnv_step key (le_put 8 (Counter dot)) in
  foldl fnv_step key digest.

Lemma fnv_range key l : is_u64 key → is_u64 (foldl fnv_step key l).
Proof.
  revert key. induction l as [|b l IH]; intros key Hk; simpl; [done|].
  apply IH, u64_range.
Qed.

Lemma HashCausalDot_range dot digest : is_u64 (HashCausalDot dot digest).
Proof. unfold HashCausalDot. do 3 apply fnv_range. done. Qed.

(** A concrete seeded hash with the interface of [hash/maphash], for evaluation. *)
Definition fnv_maphash : MapHash.
Proof.
  refine {| maphash seed bs := foldl fnv_step (u64 seed) bs |}.
  intros seed bs. apply fnv_range, u64_range.
Defined.

(** A sample entry: node [n] (repeated 16 times), counter [c], digest bytes [p]. *)
Definition sample_entry (n c p : Z) : CRDTEntry :=
  mkEntry (replicate 32 p) (replicate 16 n) (replicate 16 n) c 10 20 30 40 50 0.

(** ** The merge loop shared by perShardMerge and mergeExistingDot

    Two sorted slices walked with [p1] and [p2]; on equal dots the existing
    entry is kept.  [merged], [added], [inserted] and [skipped] are the loop's
    locals. *)

Record mergeResult := mkMerge {
  merged : list CRDTEntry;
  added : bool;
  inserted : Z;
  skipped : Z;
}.

Definition push_existing (e : CRDTEntry) (r : mergeResult) : mergeResult :=
  mkMerge (e :: merged r) (added r) (inserted r) (skipped r).
Definition push_incoming (e : CRDTEntry) (r : mergeResult) : mergeResult :=
  mkMerge (e :: merged r) true (inserted r + 1) (skipped r).
Definition push_equal (e : CRDTEntry) (r : mergeResult) : mergeResult :=
  mkMerge (e :: merged r) (added r) (inserted r) (skipped r + 1).

Fixpoint dotMerge (existing : list CRDTEntry) : list CRDTEntry → mergeResult :=
  fix go (incoming : list CRDTEntry) : mergeResult :=
    match existing, incoming with
    | [], [] => mkMerge [] false 0 0
    | [], i :: inc' => push_incoming i (go inc')
    | e :: ex', [] => push_existing e (dotMerge ex' [])
    | e :: ex', i :: inc' =>
        match compareDots (Dot e) (Dot i) with
        | Lt => push_existing e (dotMerge ex' (i :: inc'))
        | Gt => push_incoming i (go inc')
        | Eq => push_equal e (dotMerge ex' inc')
        end
    end.

Arguments dotMerge : simpl never.

(** ** insertionSortLastEntry

    [shift_last j dst last] is the backward pass at loop index [j - 1]:
    [dst[j]] is the hole. *)
Fixpoint shift_last (j : nat) (dst : list CRDTEntry) (last : CRDTEntry) : list CRDTEntry :=
  match j with
  | O => <[0%nat := last]> dst
  | S j' =>
      match dst !! j' with
      | Some e =>
          match compareDots (Dot e) (Dot last) with
          | Gt => shift_last j' (<[j := e]> dst) last
          | _ => <[j := last]> dst
          end
      | None => dst
      end
  end.

Definition insertionSortLastEntry (dst : list CRDTEntry) : list CRDTEntry :=
  let n := length dst in
  if (n <? 2)%nat then dst
  else match dst !! (n - 1)%nat with
       | Some last => shift_last (n - 1) dst last
       | None => dst
       end.

(** ** The abstract value of an entry slice *)

Definition dots_map (l : list CRDTEntry) : gmap CausalDot CRDTEntry :=
  list_to_map (map (λ e, (Dot e, e)) l).

(** Two maps never bind one dot to different entries. *)
Definition dot_consistent (m1 m2 : gmap CausalDot CRDTEntry) : Prop :=
  ∀ d e1 e2, m1 !! d = Some e1 → m2 !! d = Some e2 → e1 = e2.

Lemma dots_map_nil : dots_map [] = ∅.
Proof. done. Qed.

Lemma dots_map_cons e l : dots_map (e :: l) = <[Dot e := e]> (dots_map l).
Proof. done. Qed.

Lemma dots_map_lookup_dot l d e : dots_map l !! d = Some e → Dot e = d ∧ e ∈ l.
Proof.
  induction l as [|e' l IH]; [done|].
  rewrite dots_map_cons, lookup_insert. case_decide.
  - intros [= ->]. split; [done|left].
  - intros H'. destruct (IH H'). split; [done|by right].
Qed.

Lemma dots_map_None l d : dots_map l !! d = None ↔ ∀ e, e ∈ l → Dot e ≠ d.
Proof.
  induction l as [|e' l IH].
  { split; [|done]. intros _ e He. by apply elem_of_nil in He. }
  rewrite dots_map_cons, lookup_insert_None, IH.
  setoid_rewrite elem_of_cons. clear IH. naive_solver.
Qed.

Lemma dot_sorted_inv e l : dot_sorted (e :: l) → dot_sorted l ∧ Forall (entry_lt e) l.
Proof. by inversion 1. Qed.

Lemma dots_map_below e l : Forall (entry_lt e) l → dots_map l !! Dot e = None.
Proof.
  intros H. apply dots_map_None. intros e' He' Heq.
  rewrite Forall_forall in H. specialize (H e' He'). unfold entry_lt in H.
  rewrite Heq in H. by apply cmp_lt_irrefl in H; [|apply _].
Qed.

Lemma dots_map_elem l e : dot_sorted l → e ∈ l → dots_map l !! Dot e = Some e.
Proof.
  induction l as [|e' l IH]; [by intros _ ?%elem_of_nil|].
  intros [Hs Hf]%dot_sorted_inv [->|He]%elem_of_cons.
  - by rewrite dots_map_cons, lookup_insert_eq.
  - rewrite dots_map_cons, lookup_insert_ne; [by apply IH|].
    rewrite Forall_forall in Hf. specialize (Hf e He).
    by apply (cmp_lt_ne compareDots).
Qed.

Lemma dot_sorted_NoDup l : dot_sorted l → NoDup l.
Proof.
  induction 1 as [|e l _ IH Hf]; constructor; [|done].
  intros He. rewrite Forall_forall in Hf. specialize (Hf e He).
  by apply (cmp_lt_irrefl compareDots) in Hf.
Qed.

(** Sorted slices with the same abstract value are equal: the leaf
    representation is canonical. *)
Lemma dots_map_inj l1 l2 :
  dot_sorted l1 → dot_sorted l2 → dots_map l1 = dots_map l2 → l1 = l2.
Proof.
  intros H1 H2 Heq. apply (StronglySorted_unique_strong entry_lt); [|done|done|].
  - intros x y _ _ Hxy Hyx. exfalso.
    apply (cmp_lt_irrefl compareDots (Dot x)). by apply (cmp_lt_transitive compareDots _ (Dot y)).
  - apply NoDup_Permutation.
    + by apply dot_sorted_NoDup.
    + by apply dot_sorted_NoDup.
    + intros e. split; intros He.
      * apply dots_map_elem in He; [|done]. rewrite Heq in He.
        by apply dots_map_lookup_dot in He as [_ ?].
      * apply dots_map_elem in He; [|done]. rewrite <- Heq in He.
        by apply dots_map_lookup_dot in He as [_ ?].
Qed.

(** ** Correctness of the merge loop *)

Lemma dotMerge_nil_l inc :
  dotMerge [] inc = mkMerge inc (negb (bool_decide (inc = []))) (Z.of_nat (length inc)) 0.
Proof.
  induction inc as [|i inc IH]; [done|].
  change (dotMerge [] (i :: inc)) with (push_incoming i (dotMerge [] inc)).
  rewrite IH. unfold push_incoming. cbn -[Z.of_nat]. f_equal. lia.
Qed.

Lemma dotMerge_nil_r ex : dotMerge ex [] = mkMerge ex false 0 0.
Proof.
  induction ex as [|e ex IH]; [done|].
  change (dotMerge (e :: ex) []) with (push_existing e (dotMerge ex [])). by rewrite IH.
Qed.

Lemma dotMerge_cons e ex i inc :
  dotMerge (e :: ex) (i :: inc) =
  match compareDots (Dot e) (Dot i) with
  | Lt => push_existing e (dotMerge ex (i :: inc))
  | Gt => push_incoming i (dotMerge (e :: ex) inc)
  | Eq => push_equal e (dotMerge ex inc)
  end.
Proof. done. Qed.

Lemma merge_ind (P : list CRDTEntry → list CRDTEntry → Prop) :
  (∀ inc, P [] inc) → (∀ ex, P ex []) →
  (∀ e ex i inc, P ex (i :: inc) → P (e :: ex) inc → P ex inc → P (e :: ex) (i :: inc)) →
  ∀ ex inc, P ex inc.
Proof.
  intros Hl Hr Hc ex. induction ex as [|e ex IH]; [done|].
  intros inc. induction inc as [|i inc IH2]; auto.
Qed.

Lemma dotMerge_elem ex inc x :
  x ∈ merged (dotMerge ex inc) → x ∈ ex ∨ x ∈ inc.
Proof.
  revert ex inc. apply (merge_ind (λ ex inc, x ∈ merged (dotMerge ex inc) → x ∈ ex ∨ x ∈ inc)).
  - intros inc. rewrite dotMerge_nil_l. simpl. auto.
  - intros ex. rewrite dotMerge_nil_r. simpl. auto.
  - intros e ex i inc IH1 IH2 IH3. rewrite dotMerge_cons.
    destruct (compareDots (Dot e) (Dot i)); simpl; rewrite !elem_of_cons in *; naive_solver.
Qed.

Lemma Forall_merged (P : CRDTEntry → Prop) ex inc :
  Forall P ex → Forall P inc → Forall P (merged (dotMerge ex inc)).
Proof.
  rewrite !Forall_forall. intros H1 H2 x [?|?]%dotMerge_elem; auto.
Qed.

Lemma Forall_entry_lt_trans e i l : entry_lt e i → Forall (entry_lt i) l → Forall (entry_lt e) l.
Proof. intros H1 H2. eapply Forall_impl; [exact H2|]. intros x. by apply entry_lt_trans. Qed.

Lemma dotMerge_sorted ex inc :
  dot_sorted ex → dot_sorted inc → dot_sorted (merged (dotMerge ex inc)).
Proof.
  revert ex inc. apply (merge_ind (λ ex inc, dot_sorted ex → dot_sorted inc → _)).
  - intros inc _ H. by rewrite dotMerge_nil_l.
  - intros ex H _. by rewrite dotMerge_nil_r.
  - intros e ex i inc IH1 IH2 IH3 He Hi. rewrite dotMerge_cons.
    destruct (dot_sorted_inv _ _ He) as [Hex Hfe].
    destruct (dot_sorted_inv _ _ Hi) as [Hinc Hfi].
    destruct (compareDots (Dot e) (Dot i)) eqn:E; simpl.
    + apply SSorted_cons; [by apply IH3|]. apply Forall_merged; [done|]. apply cmp_eq in E.
      eapply Forall_impl; [exact Hfi|]. intros x. unfold entry_lt. by rewrite E.
    + apply SSorted_cons; [by apply IH1|]. apply Forall_merged; [done|]. constructor; [done|].
      by apply (Forall_entry_lt_trans _ i).
    + apply SSorted_cons; [by apply IH2|]. apply Forall_merged; [|done]. apply cmp_gt_lt in E; [|apply _].
      constructor; [done|]. by apply (Forall_entry_lt_trans _ e).
Qed.

Lemma union_insert_both {K A} `{Countable K} (m1 m2 : gmap K A) k x y :
  <[k := x]> (m1 ∪ m2) = <[k := x]> m1 ∪ <[k := y]> m2.
Proof.
  apply map_eq. intros j. rewrite lookup_union, !lookup_insert, lookup_union.
  case_decide; [by rewrite union_Some_l|done].
Qed.

(** The merge of two sorted slices implements the left-biased union. *)
Lemma dotMerge_union ex inc :
  dot_sorted ex → dot_sorted inc →
  dots_map (merged (dotMerge ex inc)) = dots_map ex ∪ dots_map inc.
Proof.
  revert ex inc. apply (merge_ind (λ ex inc, dot_sorted ex → dot_sorted inc → _)).
  - intros inc _ H. by rewrite dotMerge_nil_l, dots_map_nil, (left_id_L ∅ (∪)).
  - intros ex H _. by rewrite dotMerge_nil_r, dots_map_nil, (right_id_L ∅ (∪)).
  - intros e ex i inc IH1 IH2 IH3 He Hi. rewrite dotMerge_cons.
    destruct (dot_sorted_inv _ _ He) as [Hex Hfe].
    destruct (dot_sorted_inv _ _ Hi) as [Hinc Hfi].
    destruct (compareDots (Dot e) (Dot i)) eqn:E; simpl; rewrite dots_map_cons.
    + rewrite IH3, !dots_map_cons by done. apply cmp_eq in E. rewrite <- E.
      apply union_insert_both.
    + rewrite IH1, dots_map_cons by done. apply insert_union_l.
    + rewrite IH2 by done. rewrite (dots_map_cons i). apply insert_union_r.
      apply dots_map_below. apply cmp_gt_lt in E; [|apply _].
      constructor; [done|]. by apply (Forall_entry_lt_trans _ e).
Qed.

(** Nothing added: the merge returns the existing slice unchanged. *)
Lemma dotMerge_not_added ex inc :
  added (dotMerge ex inc) = false → merged (dotMerge ex inc) = ex ∧ inserted (dotMerge ex inc) = 0.
Proof.
  revert ex inc. apply (merge_ind (λ ex inc, added _ = false → _)).
  - intros inc. rewrite dotMerge_nil_l. simpl. by case_bool_decide; subst.
  - intros ex. by rewrite dotMerge_nil_r.
  - intros e ex i inc IH1 IH2 IH3. rewrite dotMerge_cons.
    destruct (compareDots (Dot e) (Dot i)); simpl; [| |done].
    + intros [-> ->]%IH3. done.
    + intros [-> ->]%IH1. done.
Qed.

Lemma dotMerge_counts ex inc :
  0 <= inserted (dotMerge ex inc) ∧ 0 <= skipped (dotMerge ex inc) ∧
  inserted (dotMerge ex inc) + skipped (dotMerge ex inc) = Z.of_nat (length inc) ∧
  Z.of_nat (length (merged (dotMerge ex inc))) = Z.of_nat (length ex) + inserted (dotMerge ex inc) ∧
  (added (dotMerge ex inc) = true ↔ 0 < inserted (dotMerge ex inc)).
Proof.
  revert ex inc. apply merge_ind.
  - intros inc. rewrite dotMerge_nil_l. simpl. case_bool_decide; subst; simpl.
    + split_and!; try lia; split; (done || lia).
    + destruct inc; [done|]. simpl. split_and!; try lia; split; (done || lia).
  - intros ex. rewrite dotMerge_nil_r. simpl. split_and!; try lia; split; (done || lia).
  - intros e ex i inc (?&?&?&?&Hl) (?&?&?&?&Hg) (?&?&?&?&He). rewrite dotMerge_cons.
    destruct (compareDots (Dot e) (Dot i)); simpl length in *; simpl; split_and!;
      try lia; (exact Hl || exact He || (split; [lia|done])).
Qed.

(** ** Correctness of the insertion pass *)

Lemma shift_last_spec pre hole post last :
  (∃ a b, pre = a ++ b ∧
     shift_last (length pre) (pre ++ hole :: post) last = a ++ last :: b ++ post ∧
     Forall (λ e, compareDots (Dot e) (Dot last) = Gt) b ∧
     match list.last a with Some e => compareDots (Dot e) (Dot last) ≠ Gt | None => True end).
Proof.
  revert hole post. induction pre as [|x pre IH] using rev_ind; intros hole post.
  { exists [], []. simpl. repeat split; auto. }
  rewrite length_app, Nat.add_comm. cbn [length Nat.add shift_last].
  rewrite <- app_assoc. cbn [app].
  rewrite (lookup_app_r pre) by lia. rewrite Nat.sub_diag. cbn [lookup list_lookup].
  assert (∀ y, <[S (length pre) := y]> (pre ++ x :: hole :: post) = pre ++ x :: y :: post) as Hins.
  { intros y. rewrite insert_app_r_alt by lia.
    by replace (S (length pre) - length pre)%nat with 1%nat by lia. }
  rewrite !Hins. destruct (compareDots (Dot x) (Dot last)) eqn:E.
  - exists (pre ++ [x]), []. rewrite last_snoc, app_nil_r, <- app_assoc.
    repeat split; [done|]. congruence.
  - exists (pre ++ [x]), []. rewrite last_snoc, app_nil_r, <- app_assoc.
    repeat split; [done|]. congruence.
  - destruct (IH x (x :: post)) as (a & b & -> & Hs & Hb & Ha).
    exists a, (b ++ [x]). rewrite Hs, <- !app_assoc. repeat split; [|done].
    apply Forall_app. auto.
Qed.

Lemma dot_sorted_app a b :
  dot_sorted (a ++ b) ↔
  dot_sorted a ∧ dot_sorted b ∧ ∀ x y, x ∈ a → y ∈ b → entry_lt x y.
Proof.
  induction a as [|x a IH]; simpl.
  { split; [|naive_solver]. intros H. split_and!; [constructor|done|].
    intros x y Hx. by apply elem_of_nil in Hx. }
  split.
  - intros [H1 H2]%dot_sorted_inv. apply IH in H1 as (?&?&Hab). apply Forall_app in H2 as [Ha Hb].
    split_and!; [by constructor|done|]. intros y z [->|Hy]%elem_of_cons Hz; [|by apply Hab].
    by rewrite Forall_forall in Hb; apply Hb.
  - intros ([Ha Hxa]%dot_sorted_inv & Hb & Hab). constructor.
    + apply IH. split_and!; [done|done|]. intros. apply Hab; [by right|done].
    + apply Forall_app. split; [done|]. apply Forall_forall. intros y Hy. apply Hab; [left|done].
Qed.

(** [InsertLocal]'s backward pass puts a new dot at its place in a sorted slice. *)
Lemma insertionSortLastEntry_spec ex x :
  dot_sorted ex → dots_map ex !! Dot x = None →
  dot_sorted (insertionSortLastEntry (ex ++ [x])) ∧
  dots_map (insertionSortLastEntry (ex ++ [x])) = <[Dot x := x]> (dots_map ex) ∧
  insertionSortLastEntry (ex ++ [x]) ≡ₚ x :: ex.
Proof.
  intros Hs Hnew.
  assert (∃ a b, ex = a ++ b ∧ insertionSortLastEntry (ex ++ [x]) = a ++ x :: b ∧
            Forall (λ e, compareDots (Dot e) (Dot x) = Gt) b ∧
            match list.last a with Some e => compareDots (Dot e) (Dot x) ≠ Gt | None => True end)
    as (a & b & -> & -> & Hb & Ha).
  { unfold insertionSortLastEntry. rewrite length_app. simpl.
    destruct ex as [|e ex]; [by exists [], []|].
    replace (length (e :: ex) + 1 <? 2)%nat with false
      by (symmetry; apply Nat.ltb_ge; simpl; lia).
    replace (length (e :: ex) + 1 - 1)%nat with (length (e :: ex)) by lia.
    rewrite (lookup_app_r (e :: ex)) by lia. rewrite Nat.sub_diag. cbn [lookup list_lookup].
    destruct (shift_last_spec (e :: ex) x [] x) as (a & b & Hab & Hs' & Hb & Ha).
    exists a, b. rewrite Hab in Hs' |- *. rewrite app_nil_r in Hs'. auto. }
  assert (Forall (λ e, entry_lt x e) b) as Hb'.
  { eapply Forall_impl; [exact Hb|]. intros e E. by apply cmp_gt_lt in E; [|apply _]. }
  apply dot_sorted_app in Hs as (Hsa & Hsb & Hab).
  assert (Forall (λ e, entry_lt e x) a) as Ha'.
  { destruct a as [|z a _] using rev_ind; [constructor|]. rewrite last_snoc in Ha.
    assert (entry_lt z x) as Hzx.
    { destruct (cmp_le_lt_eq compareDots (Dot z) (Dot x) Ha) as [?|Heq]; [done|].
      exfalso. apply (proj1 (dots_map_None _ _) Hnew z); [|done]. set_solver. }
    apply dot_sorted_app in Hsa as (_ & _ & Haz). apply Forall_app. split; [|by repeat constructor].
    apply Forall_forall. intros y Hy. apply (entry_lt_trans _ z); [|done]. apply Haz; set_solver. }
  assert (dot_sorted (a ++ x :: b)) as Hres.
  { apply dot_sorted_app. split_and!; [done|by constructor|].
    rewrite Forall_forall in Ha'. intros y z Hy [->|Hz]%elem_of_cons; auto. }
  assert (a ++ x :: b ≡ₚ x :: a ++ b) as Hperm by by rewrite Permutation_middle.
  split_and!; [done| |done].
  apply map_eq. intros d. rewrite lookup_insert. case_decide as Hd.
  - subst d. apply dots_map_elem; [done|]. set_solver.
  - destruct (dots_map (a ++ b) !! d) as [e|] eqn:E.
    + apply dots_map_lookup_dot in E as [<- He]. apply dots_map_elem; [done|]. set_solver.
    + rewrite dots_map_None in E |- *. intros e He. rewrite Hperm in He.
      apply elem_of_cons in He as [->|He]; auto.
Qed.
