(* ===== verification/Wal.v ===== *)
(** The write-ahead log's data and codecs (internal/chaos/wal.go, and the entry
    codec of internal/chaos/codec.go): mutations, checkpoints, the record
    framing, the CRC32C wrapper, and the decoders.  Files, appends and replay
    are in WalLog.v. *)
From S2P Require Import Prelude Bytes Crc32c Dots.

(** ** Constants *)

Definition walMagic : Z := 0x57414C00.
Definition walVersion : Z := 1.
Definition maxRecordPayloadLen : Z := 2 ^ 22.
Definition MaxCredibleClockHigh : Z := 2 ^ 60.
Definition walEntryLen : nat := 80.
Definition crdtEntryWireLen : nat := 120.

(** WALRecordType *)
Definition WALRecMutation : Z := 0x01.
Definition WALRecCheckpoint : Z := 0x02.
Definition WALRecClockAdvance : Z := 0x03.
Definition WALRecMutationV2 : Z := 0x04.
Definition WALRecCheckpointV2 : Z := 0x05.
Definition WALRecChecksummed : Z := 0x06.

(** ** Data *)

Record WALEntry := mkWALEntry {
  we_PayloadDigest : list Z;
  we_OriginNodeID : list Z;
  we_DotNodeID : list Z;
  we_DotCounter : Z;
  we_SystemTime : Z;
}.

Record WALMutation := mkWALMutation {
  wm_EntityID : string;
  wm_Full : CRDTEntry;
  wm_NodeID : list Z;
  wm_Counter : Z;
  wm_Entry : WALEntry;
  wm_Legacy : bool;
}.

Record WALCheckpoint := mkWALCheckpoint {
  wc_MerkleRoot : list Z;
  wc_Fingerprint : list Z;
  wc_LamportHigh : Z;
  wc_CutSeq : Z;
  wc_ClockHigh : Z;
  wc_HasCutSeq : bool;
  wc_HasFingerprint : bool;
}.

(** WALCheckpoint{} *)
Definition zeroCheckpoint : WALCheckpoint :=
  mkWALCheckpoint (replicate 32 0) (replicate 32 0) 0 0 0 false false.

Inductive WALError :=
| ErrEmptyEntityID
| ErrMarkedLegacy
| ErrDotInconsistent
| ErrZeroOrigin
| ErrWrite
| ErrFsync
| ErrFsyncClosed
| ErrTruncate
| ErrHeaderRead
| ErrBadMagic
| ErrBadVersion (v : Z)
| ErrPayloadLength (len seq : Z)
| ErrWALSeqGap (expected observed : Z)
| ErrWALCorrupt (seq : Z)
| ErrTruncatedPrefix (seq : Z)
| ErrTruncatedPayload (seq : Z)
| ErrShortClockAdvance (seq : Z)
| ErrShortCheckpoint (seq : Z)
| ErrUnknownType (typ seq : Z)
| ErrOutOfFuel.

(** The five fields an old record carries. *)
Definition entry_subset (e : CRDTEntry) : WALEntry :=
  mkWALEntry (PayloadDigest e) (OriginNodeID e) (DotNodeID e) (DotCounter e) (SystemTime e).

Definition NewWALMutation (entityID : string) (dot : CausalDot) (e : CRDTEntry) : WALMutation :=
  let e := mkEntry (PayloadDigest e) (NodeID dot) (NodeID dot) (Counter dot) (SystemTime e)
             (ValidTimeStart e) (ValidTimeEnd e) (AssertionTime e) (DecisionTime e) (H3Index e) in
  mkWALMutation entityID e (NodeID dot) (Counter dot) (entry_subset e) false.

(** Some: the error. *)
Definition validateV2 (m : WALMutation) : option WALError :=
  if String.eqb (wm_EntityID m) "" then Some ErrEmptyEntityID
  else if wm_Legacy m then Some ErrMarkedLegacy
  else if negb (bool_decide (DotNodeID (wm_Full m) = wm_NodeID m) &&
                (DotCounter (wm_Full m) =? wm_Counter m))
  then Some ErrDotInconsistent
  else if bool_decide (OriginNodeID (wm_Full m) = replicate 16 0) then Some ErrZeroOrigin
  else None.

(** ** Entry codecs *)

Definition encodeCRDTEntry (e : CRDTEntry) : list Z :=
  PayloadDigest e ++ OriginNodeID e ++ DotNodeID e ++ be_put 8 (DotCounter e) ++
  be_put 8 (u64 (SystemTime e)) ++ be_put 8 (u64 (ValidTimeStart e)) ++ be_put 8 (u64 (ValidTimeEnd e)) ++
  be_put 8 (u64 (AssertionTime e)) ++ be_put 8 (u64 (DecisionTime e)) ++ be_put 8 (H3Index e).

(** [binary.BigEndian.Uint64(src[off:off+8])] *)
Definition be64 (off : nat) (src : list Z) : Z := be_get (slice off 8 src).

Definition decodeCRDTEntry (src : list Z) : CRDTEntry :=
  mkEntry (slice 0 32 src) (slice 32 16 src) (slice 48 16 src) (be64 64 src) (i64 (be64 72 src))
    (i64 (be64 80 src)) (i64 (be64 88 src)) (i64 (be64 96 src)) (i64 (be64 104 src)) (be64 112 src).

Definition encodeWALEntry (e : WALEntry) : list Z :=
  we_PayloadDigest e ++ we_OriginNodeID e ++ we_DotNodeID e ++ be_put 8 (we_DotCounter e) ++
  be_put 8 (u64 (we_SystemTime e)).

Definition decodeWALEntry (src : list Z) : WALEntry :=
  mkWALEntry (slice 0 32 src) (slice 32 16 src) (slice 48 16 src) (be64 64 src) (i64 (be64 72 src)).

(** ** Payloads and records *)

Definition length_prefixed (id : list Z) : list Z := be_put 4 (u32 (Z.of_nat (length id))) ++ id.

Definition putMutationV1Payload (m : WALMutation) : list Z :=
  length_prefixed (string_bytes (wm_EntityID m)) ++ wm_NodeID m ++ be_put 8 (wm_Counter m) ++
  encodeWALEntry (wm_Entry m).

Definition putMutationV2Payload (m : WALMutation) : list Z :=
  length_prefixed (string_bytes (wm_EntityID m)) ++ wm_NodeID m ++ be_put 8 (wm_Counter m) ++
  encodeCRDTEntry (wm_Full m).

Definition putCheckpointV2Payload (c : WALCheckpoint) : list Z :=
  wc_MerkleRoot c ++ be_put 8 (wc_LamportHigh c) ++ be_put 8 (wc_CutSeq c) ++ be_put 8 (wc_ClockHigh c) ++
  (if wc_HasFingerprint c then wc_Fingerprint c else []).

Definition putCheckpointV1Payload (c : WALCheckpoint) : list Z :=
  wc_MerkleRoot c ++ be_put 8 (wc_LamportHigh c).

Definition putClockAdvancePayload (advancedTo : Z) : list Z := be_put 8 advancedTo.

(** seq(8) ‖ type(1) ‖ payloadLen(4) ‖ payload *)
Definition encodeRecord (seq typ : Z) (payload : list Z) : list Z :=
  be_put 8 seq ++ [typ] ++ be_put 4 (u32 (Z.of_nat (length payload))) ++ payload.

Definition encodeMutationRecord (seq : Z) (m : WALMutation) : list Z :=
  encodeRecord seq WALRecMutation (putMutationV1Payload m).
Definition encodeMutationV2Record (seq : Z) (m : WALMutation) : list Z :=
  encodeRecord seq WALRecMutationV2 (putMutationV2Payload m).
Definition encodeCheckpointRecord (seq : Z) (c : WALCheckpoint) : list Z :=
  if wc_HasCutSeq c then encodeRecord seq WALRecCheckpointV2 (putCheckpointV2Payload c)
  else encodeRecord seq WALRecCheckpoint (putCheckpointV1Payload c).
Definition encodeClockAdvanceRecord (seq advancedTo : Z) : list Z :=
  encodeRecord seq WALRecClockAdvance (putClockAdvancePayload advancedTo).

(** innerType(1) ‖ innerPayload ‖ crc32c(4) *)
Definition checksummed (innerType : Z) (inner : list Z) : list Z :=
  (innerType :: inner) ++ be_put 4 (crc32_Checksum (innerType :: inner)).

Definition frameChecksummed (seq innerType : Z) (inner : list Z) : list Z :=
  encodeRecord seq WALRecChecksummed (checksummed innerType inner).

Definition encodeMutationV2Checksummed (seq : Z) (m : WALMutation) : list Z :=
  frameChecksummed seq WALRecMutationV2 (putMutationV2Payload m).
Definition encodeCheckpointChecksummed (seq : Z) (c : WALCheckpoint) : list Z :=
  if wc_HasCutSeq c then frameChecksummed seq WALRecCheckpointV2 (putCheckpointV2Payload c)
  else frameChecksummed seq WALRecCheckpoint (putCheckpointV1Payload c).
Definition encodeClockAdvanceChecksummed (seq advancedTo : Z) : list Z :=
  frameChecksummed seq WALRecClockAdvance (putClockAdvancePayload advancedTo).

(** ** Decoding *)

Definition unwrapChecksummed (payload : list Z) (seq : Z) : result WALError (Z * list Z) :=
  if (length payload <? 5)%nat then Err (ErrWALCorrupt seq)
  else
    let body := take (length payload - 4) payload in
    let want := be_get (drop (length payload - 4) payload) in
    if negb (want =? crc32_Checksum body) then Err (ErrWALCorrupt seq)
    else Ok (nth 0 body 0, drop 1 body).

(** The two mutation decoders differ in the entry they read after the common
    prefix entityIDLen ‖ entityID ‖ NodeID ‖ Counter. *)
Definition decodeMutationPayload (p : list Z) (seq : Z) : result WALError WALMutation :=
  if (length p <? 4)%nat then Err (ErrTruncatedPrefix seq)
  else
    let idLen := be_get (slice 0 4 p) in
    if Z.of_nat (length p) <? 4 + idLen + 16 + 8 + Z.of_nat walEntryLen then Err (ErrTruncatedPayload seq)
    else
      let n := Z.to_nat idLen in
      let e := decodeWALEntry (slice (4 + n + 24) walEntryLen p) in
      Ok (mkWALMutation (bytes_string (slice 4 n p))
            (mkEntry (we_PayloadDigest e) (we_OriginNodeID e) (we_DotNodeID e) (we_DotCounter e)
               (we_SystemTime e) 0 0 0 0 0)
            (slice (4 + n) 16 p) (be64 (4 + n + 16) p) e true).

Definition decodeMutationV2Payload (p : list Z) (seq : Z) : result WALError WALMutation :=
  if (length p <? 4)%nat then Err (ErrTruncatedPrefix seq)
  else
    let idLen := be_get (slice 0 4 p) in
    if Z.of_nat (length p) <? 4 + idLen + 16 + 8 + Z.of_nat crdtEntryWireLen then Err (ErrTruncatedPayload seq)
    else
      let n := Z.to_nat idLen in
      let e := decodeCRDTEntry (slice (4 + n + 24) crdtEntryWireLen p) in
      Ok (mkWALMutation (bytes_string (slice 4 n p)) e (slice (4 + n) 16 p) (be64 (4 + n + 16) p)
            (entry_subset e) false).

(** ** Reading back what was written *)

Lemma be_get_put8 x : is_u64 x → be_get (be_put 8 x) = x.
Proof. intros H. by apply be_get_put. Qed.

Lemma length_encodeCRDTEntry e : sized_entry e → length (encodeCRDTEntry e) = crdtEntryWireLen.
Proof. intros ((H1 & H2 & H3) & _). unfold encodeCRDTEntry, crdtEntryWireLen. len. Qed.

Lemma decode_encodeCRDTEntry e : sized_entry e → decodeCRDTEntry (encodeCRDTEntry e) = e.
Proof.
  intros ((H1 & H2 & H3) & _ & H4 & H5 & H6 & H7 & H8 & H9 & H10).
  unfold decodeCRDTEntry, encodeCRDTEntry, be64. slices. rewrite slice_all by len.
  rewrite !be_get_put8 by (done || apply u64_range). rewrite !i64_u64 by done. by destruct e.
Qed.

Definition sized_walentry (e : WALEntry) : Prop :=
  (length (we_PayloadDigest e) = 32%nat ∧ length (we_OriginNodeID e) = 16%nat ∧ length (we_DotNodeID e) = 16%nat) ∧
  (is_bytes (we_PayloadDigest e) ∧ is_bytes (we_OriginNodeID e) ∧ is_bytes (we_DotNodeID e)) ∧
  is_u64 (we_DotCounter e) ∧ is_i64 (we_SystemTime e).

Lemma length_encodeWALEntry e : sized_walentry e → length (encodeWALEntry e) = walEntryLen.
Proof. intros ((H1 & H2 & H3) & _). unfold encodeWALEntry, walEntryLen. len. Qed.

Lemma decode_encodeWALEntry e : sized_walentry e → decodeWALEntry (encodeWALEntry e) = e.
Proof.
  intros ((H1 & H2 & H3) & _ & H4 & H5).
  unfold decodeWALEntry, encodeWALEntry, be64. slices. rewrite slice_all by len.
  rewrite !be_get_put8 by (done || apply u64_range). rewrite !i64_u64 by done. by destruct e.
Qed.

(** The mutations a Go WALMutation can hold, with an entity id whose framed
    record stays within the replay bound. *)
Definition sized_mutation (m : WALMutation) : Prop :=
  sized_entry (wm_Full m) ∧ sized_walentry (wm_Entry m) ∧
  (length (wm_NodeID m) = 16%nat ∧ is_bytes (wm_NodeID m)) ∧ is_u64 (wm_Counter m) ∧
  153 + Z.of_nat (length (string_bytes (wm_EntityID m))) <= maxRecordPayloadLen.

Definition sized_checkpoint (c : WALCheckpoint) : Prop :=
  (length (wc_MerkleRoot c) = 32%nat ∧ length (wc_Fingerprint c) = 32%nat) ∧
  (is_bytes (wc_MerkleRoot c) ∧ is_bytes (wc_Fingerprint c)) ∧
  is_u64 (wc_LamportHigh c) ∧ is_u64 (wc_CutSeq c) ∧ is_u64 (wc_ClockHigh c).

#[global] Instance sized_mutation_dec m : Decision (sized_mutation m).
Proof. unfold sized_mutation, sized_walentry, is_u64, is_i64. apply _. Defined.
#[global] Instance sized_checkpoint_dec c : Decision (sized_checkpoint c).
Proof. unfold sized_checkpoint, is_u64. apply _. Defined.

Lemma u32_small x : 0 <= x < 2 ^ 32 → u32 x = x.
Proof. apply Z.mod_small. Qed.

(** The common prefix of both mutation payloads. *)
Lemma mutation_prefix (id node rest : list Z) (c : Z) :
  Z.of_nat (length id) <= maxRecordPayloadLen → length node = 16%nat → is_u64 c →
  let p := length_prefixed id ++ node ++ be_put 8 c ++ rest in
  be_get (slice 0 4 p) = Z.of_nat (length id) ∧
  slice 4 (length id) p = id ∧ slice (4 + length id) 16 p = node ∧
  be64 (4 + length id + 16) p = c ∧
  slice (4 + length id + 24) (length rest) p = rest ∧
  length p = (4 + length id + 24 + length rest)%nat.
Proof.
  intros Hid Hn Hc. unfold length_prefixed, be64. cbv zeta.
  rewrite u32_small by (unfold maxRecordPayloadLen in Hid; lia).
  rewrite <- !(assoc_L (++)).
  assert (∀ off len, (length id <= off)%nat → slice (4 + off) len
    (be_put 4 (Z.of_nat (length id)) ++ id ++ node ++ be_put 8 c ++ rest) =
    slice (off - length id) len (node ++ be_put 8 c ++ rest)) as Hskip.
  { intros off l Ho. rewrite slice_app_skip by len. rewrite length_be_put.
    rewrite slice_app_skip by lia. f_equal. lia. }
  split_and!.
  - rewrite slice_app_here by len. rewrite be_get_put; [done|].
    unfold maxRecordPayloadLen in Hid. change (2 ^ (Z.of_nat 4 * 8)) with (2 ^ 32). lia.
  - rewrite slice_app_skip by len. rewrite length_be_put. by apply slice_app_here.
  - rewrite Hskip, Nat.sub_diag by lia. by apply slice_app_here.
  - rewrite <- Nat.add_assoc, Hskip by lia. replace (length id + 16 - length id)%nat with 16%nat by lia.
    slices. by apply be_get_put8.
  - rewrite <- Nat.add_assoc, Hskip by lia. replace (length id + 24 - length id)%nat with 24%nat by lia.
    slices. by apply slice_all.
  - len.
Qed.

(** What a 0x04 record reads back as: the legacy subset is derived from the full
    entry and the record is not marked legacy. *)
Definition readV2 (m : WALMutation) : WALMutation :=
  mkWALMutation (wm_EntityID m) (wm_Full m) (wm_NodeID m) (wm_Counter m) (entry_subset (wm_Full m)) false.

(** What a 0x01 record reads back as: five fields are unknown, and marked so. *)
Definition readV1 (m : WALMutation) : WALMutation :=
  let e := wm_Entry m in
  mkWALMutation (wm_EntityID m)
    (mkEntry (we_PayloadDigest e) (we_OriginNodeID e) (we_DotNodeID e) (we_DotCounter e) (we_SystemTime e) 0 0 0 0 0)
    (wm_NodeID m) (wm_Counter m) e true.

Lemma decode_mutationV2 m seq : sized_mutation m → decodeMutationV2Payload (putMutationV2Payload m) seq = Ok (readV2 m).
Proof.
  intros (Hf & He & [Hn _] & Hc & Hid). unfold decodeMutationV2Payload, putMutationV2Payload.
  destruct (mutation_prefix (string_bytes (wm_EntityID m)) (wm_NodeID m) (encodeCRDTEntry (wm_Full m)) (wm_Counter m))
    as (E1 & E2 & E3 & E4 & E5 & E6); [lia|done..|].
  rewrite (length_encodeCRDTEntry _ Hf) in E5, E6. rewrite E1, Nat2Z.id, E2, E3, E4, E5, E6.
  rewrite (proj2 (Nat.ltb_ge _ _)), (proj2 (Z.ltb_ge _ _)) by (unfold crdtEntryWireLen; lia).
  by rewrite decode_encodeCRDTEntry, bytes_string_bytes.
Qed.

Lemma decode_mutationV1 m seq : sized_mutation m → decodeMutationPayload (putMutationV1Payload m) seq = Ok (readV1 m).
Proof.
  intros (Hf & He & [Hn _] & Hc & Hid). unfold decodeMutationPayload, putMutationV1Payload.
  destruct (mutation_prefix (string_bytes (wm_EntityID m)) (wm_NodeID m) (encodeWALEntry (wm_Entry m)) (wm_Counter m))
    as (E1 & E2 & E3 & E4 & E5 & E6); [lia|done..|].
  rewrite (length_encodeWALEntry _ He) in E5, E6. rewrite E1, Nat2Z.id, E2, E3, E4, E5, E6.
  rewrite (proj2 (Nat.ltb_ge _ _)), (proj2 (Z.ltb_ge _ _)) by (unfold walEntryLen; lia).
  by rewrite decode_encodeWALEntry, bytes_string_bytes.
Qed.

(** A mutation built by the construction site reads back as itself. *)
Lemma readV2_New k d e : readV2 (NewWALMutation k d e) = NewWALMutation k d e.
Proof. done. Qed.

(** ** The checksum wrapper *)

Lemma be_put4_length x : length (be_put 4 x) = 4%nat.
Proof. apply length_be_put. Qed.

Lemma take_drop_crc (body crc : list Z) :
  length crc = 4%nat →
  take (length (body ++ crc) - 4) (body ++ crc) = body ∧ drop (length (body ++ crc) - 4) (body ++ crc) = crc.
Proof.
  intros H. rewrite length_app, H, Nat.add_sub. by rewrite take_app_length, drop_app_length.
Qed.

(** unwrapChecksummed reads a body followed by four bytes. *)
Lemma unwrap_spec typ inner crc seq :
  length crc = 4%nat →
  unwrapChecksummed ((typ :: inner) ++ crc) seq =
    if be_get crc =? crc32_Checksum (typ :: inner) then Ok (typ, inner) else Err (ErrWALCorrupt seq).
Proof.
  intros H. unfold unwrapChecksummed. destruct (take_drop_crc (typ :: inner) crc H) as [-> ->].
  rewrite (proj2 (Nat.ltb_ge _ _)) by (rewrite length_app; simpl; lia).
  destruct (be_get crc =? _); [|done]. simpl. by rewrite drop_0.
Qed.

Lemma unwrap_checksummed typ inner seq :
  is_bytes (typ :: inner) → unwrapChecksummed (checksummed typ inner) seq = Ok (typ, inner).
Proof.
  intros H. unfold checksummed. rewrite unwrap_spec by apply length_be_put.
  rewrite be_get_put by apply (crc32_range _ H). by rewrite Z.eqb_refl.
Qed.
