(* ===== verification/WalLog.v ===== *)
(** The write-ahead log as a file (internal/chaos/wal.go): OpenWAL, the append
    operations, scanRecords, Close and ReplayWAL, over a byte-level file.

    A file is its contents and the length of the prefix that the last completed
    fsync covered.  A Write either stores all its bytes or fails after storing
    some of them; an fsync succeeds or fails.  Reads return the contents up to
    the end of the file.  The fsync spy and the checksum switch that only tests
    set are at their production values. *)
From S2P Require Import Prelude Bytes Crc32c Dots Wal.

(** ** Files *)

Record File := mkFile { fdata : list Z; durable : nat }.

(** The outcome of a write: complete, or an error after [n] bytes. *)
Inductive wres := WrOk | WrShort (n : nat).

Definition write_at (off : nat) (bs : list Z) (old : list Z) : list Z :=
  take off old ++ replicate (off - length old) 0 ++ bs ++ drop (off + length bs) old.

(** [f.Write(bs)] at offset [off]: the file, the new offset and success. *)
Definition file_write (off : nat) (bs : list Z) (r : wres) (f : File) : File * nat * bool :=
  match r with
  | WrOk => (mkFile (write_at off bs (fdata f)) (durable f), (off + length bs)%nat, true)
  | WrShort n =>
      let bs := take n bs in
      (mkFile (write_at off bs (fdata f)) (durable f), (off + length bs)%nat, false)
  end.

Definition file_sync (f : File) : File := mkFile (fdata f) (length (fdata f)).

(** ** The log

    [w_f] is the open handle's offset; Close sets it to nil. *)
Record WAL := mkWAL { w_f : option nat; nextSeq : Z }.

(** Write the encoded record, then consume the sequence number: the body the
    four append operations share between the lock and the fsync.  A nil handle
    refuses the write. *)
Definition write_record (rec : list Z) (r : wres) (s : File * WAL) : File * WAL * option WALError :=
  let '(f, w) := s in
  match w_f w with
  | None => (f, w, Some ErrWrite)
  | Some off =>
      match file_write off rec r f with
      | (f', off', true) => (f', mkWAL (Some off') (nextSeq w +ₒ 1), None)
      | (f', off', false) => (f', mkWAL (Some off') (nextSeq w), Some ErrWrite)
      end
  end.

(** syncFile on the handle captured under the lock. *)
Definition syncFile (fd : option nat) (ok : bool) (f : File) : File * option WALError :=
  match fd with
  | None => (f, Some ErrFsyncClosed)
  | Some _ => if ok then (file_sync f, None) else (f, Some ErrFsync)
  end.

(** The locked part of an append, up to the unlock. *)
Definition AppendMutation_locked (m : WALMutation) (r : wres) (s : File * WAL) : File * WAL * option WALError :=
  match validateV2 m with
  | Some e => (s, Some e)
  | None => write_record (encodeMutationV2Checksummed (nextSeq s.2) m) r s
  end.

Definition AppendCheckpoint_locked (c : WALCheckpoint) (r : wres) (s : File * WAL) : File * WAL * option WALError :=
  write_record (encodeCheckpointChecksummed (nextSeq s.2) c) r s.

Definition AppendClockAdvance_locked (advancedTo : Z) (r : wres) (s : File * WAL) : File * WAL * option WALError :=
  write_record (encodeClockAdvanceChecksummed (nextSeq s.2) advancedTo) r s.

(** The batch stops at the first element that fails; [i] is its index. *)
Fixpoint AppendMutations_locked (i : Z) (ms : list (WALMutation * wres)) (s : File * WAL) :
    File * WAL * Z * option WALError :=
  match ms with
  | [] => (s, -1, None)
  | (m, r) :: ms' =>
      match AppendMutation_locked m r s with
      | (s', Some e) => (s', i, Some e)
      | (s', None) => AppendMutations_locked (i + 1) ms' s'
      end
  end.

(** unlock, then fsync the captured handle. *)
Definition then_sync (ok : bool) (x : File * WAL * option WALError) : File * WAL * option WALError :=
  match x with
  | (s, Some e) => (s, Some e)
  | ((f, w), None) => let '(f', e) := syncFile (w_f w) ok f in ((f', w), e)
  end.

Definition AppendMutation (m : WALMutation) (r : wres) (ok : bool) (s : File * WAL) : File * WAL * option WALError :=
  then_sync ok (AppendMutation_locked m r s).
Definition AppendCheckpoint (c : WALCheckpoint) (r : wres) (ok : bool) (s : File * WAL) :
    File * WAL * option WALError :=
  then_sync ok (AppendCheckpoint_locked c r s).
Definition AppendClockAdvance (advancedTo : Z) (r : wres) (ok : bool) (s : File * WAL) :
    File * WAL * option WALError :=
  then_sync ok (AppendClockAdvance_locked advancedTo r s).
Definition AppendMutations (ms : list (WALMutation * wres)) (ok : bool) (s : File * WAL) :
    File * WAL * Z * option WALError :=
  match AppendMutations_locked 0 ms s with
  | (s', i, Some e) => (s', i, Some e)
  | ((f, w), i, None) => let '(f', e) := syncFile (w_f w) ok f in ((f', w), -1, e)
  end.

(** Close: the final fsync's error is dropped. *)
Definition WAL_Close (ok : bool) (s : File * WAL) : File * WAL :=
  let '(f, w) := s in
  match w_f w with
  | None => (f, w)
  | Some _ => ((if ok then file_sync f else f), mkWAL None (nextSeq w))
  end.

(** ** Opening *)

Definition walHeader : list Z := be_put 4 walMagic ++ be_put 2 walVersion ++ [0; 0].

(** verifyHeader, and the same checks at the start of ReplayWAL. *)
Definition verifyHeader (bs : list Z) : option WALError :=
  if (length bs <? 8)%nat then Some ErrHeaderRead
  else if negb (be_get (slice 0 4 bs) =? walMagic) then Some ErrBadMagic
  else if negb (be_get (slice 4 2 bs) =? walVersion) then Some (ErrBadVersion (be_get (slice 4 2 bs)))
  else None.

Record scanResult := mkScan { sc_nextSeq : Z; sc_count : Z; sc_lastGood : nat }.

(** [bs] is what is left of the file. *)
Fixpoint scan_loop (fuel : nat) (bs : list Z) (s : scanResult) : option scanResult :=
  match fuel with
  | O => None
  | S fuel' =>
      if (length bs <? 13)%nat then Some s
      else
        let seq := be_get (slice 0 8 bs) in
        let payloadLen := be_get (slice 9 4 bs) in
        let rest := drop 13 bs in
        if Z.of_nat (length rest) <? payloadLen then Some s
        else
          scan_loop fuel' (drop (Z.to_nat payloadLen) rest)
            (mkScan (if sc_nextSeq s <=? seq then seq +ₒ 1 else sc_nextSeq s) (sc_count s +ₒ 1)
               (sc_lastGood s + 13 + Z.to_nat payloadLen))
  end.

Definition scanRecords (bs : list Z) : option scanResult :=
  scan_loop (S (length bs)) (drop 8 bs) (mkScan 0 0 8).

(** The outcomes of the calls OpenWAL makes: the header's write and fsync, and
    the truncation. *)
Record open_io := mkOpenIO { oi_write : wres; oi_sync : bool; oi_truncate : bool }.

Definition OpenWAL (io : open_io) (f : File) : File * result WALError WAL :=
  if (length (fdata f) =? 0)%nat then
    match file_write 0 walHeader (oi_write io) f with
    | (f', off, true) =>
        if oi_sync io then (file_sync f', Ok (mkWAL (Some off) 0)) else (f', Err ErrFsync)
    | (f', _, false) => (f', Err ErrWrite)
    end
  else
    match verifyHeader (fdata f) with
    | Some e => (f, Err e)
    | None =>
        match scanRecords (fdata f) with
        | None => (f, Err ErrOutOfFuel)
        | Some sc =>
            if oi_truncate io
            then (mkFile (take (sc_lastGood sc) (fdata f)) (Nat.min (durable f) (sc_lastGood sc)),
                  Ok (mkWAL (Some (sc_lastGood sc)) (sc_nextSeq sc)))
            else (f, Err ErrTruncate)
        end
    end.

(** ** Replay *)

Record WALRecord := mkWALRecord {
  wr_Type : Z;
  wr_Mutation : option WALMutation;
  wr_Advance : Z;
  wr_Seq : Z;
}.

Record Replayed := mkReplayed {
  rp_Mutations : list WALMutation;
  rp_Advances : list Z;
  rp_Ordered : list WALRecord;
  rp_FinalCheckpt : WALCheckpoint;
  rp_HasCheckpoint : bool;
  rp_LamportHigh : Z;
  rp_NextSeq : Z;
  rp_FinalCheckptSeq : Z;
  rp_LegacyCheckpoint : bool;
  rp_SeqContiguityVerified : bool;
  rp_RecordsVerified : Z;
  rp_ClockHighClamped : bool;
  rp_ClockHighRaw : Z;
}.

Definition emptyReplayed : Replayed :=
  mkReplayed [] [] [] zeroCheckpoint false 0 0 0 false false 0 false 0.

(** The record is complete: count it, move NextSeq. *)
Definition note_record (seq : Z) (o : Replayed) : Replayed :=
  let '(mkReplayed ms ads ord fc hc lh ns fs lc sv rv cc cr) := o in
  mkReplayed ms ads ord fc hc lh (if ns <=? seq then seq +ₒ 1 else ns) fs lc sv (rv + 1) cc cr.

(** The mutation arms. *)
Definition add_mutation (typ seq : Z) (m : WALMutation) (o : Replayed) : Replayed :=
  let '(mkReplayed ms ads ord fc hc lh ns fs lc sv rv cc cr) := o in
  mkReplayed (ms ++ [m]) ads (ord ++ [mkWALRecord typ (Some m) 0 seq]) fc hc
    (if lh <? wm_Counter m then wm_Counter m else lh) ns fs lc sv rv cc cr.

(** The clock-advance arm. *)
Definition add_advance (seq to : Z) (o : Replayed) : Replayed :=
  let '(mkReplayed ms ads ord fc hc lh ns fs lc sv rv cc cr) := o in
  mkReplayed ms (ads ++ [to]) (ord ++ [mkWALRecord WALRecClockAdvance None to seq]) fc hc
    (if lh <? to then to else lh) ns fs lc sv rv cc cr.

(** The final assignments of both checkpoint arms. *)
Definition set_checkpoint (seq : Z) (c : WALCheckpoint) (o : Replayed) : Replayed :=
  let '(mkReplayed ms ads ord fc hc lh ns fs lc sv rv cc cr) := o in
  mkReplayed ms ads ord c true (if lh <? wc_LamportHigh c then wc_LamportHigh c else lh) ns seq
    (negb (wc_HasFingerprint c)) sv rv cc cr.

(** The clamp of an incredible ClockHigh. *)
Definition clamp_clock (c : WALCheckpoint) (o : Replayed) : WALCheckpoint * Replayed :=
  if MaxCredibleClockHigh <? wc_ClockHigh c then
    let '(mkReplayed ms ads ord fc hc lh ns fs lc sv rv cc cr) := o in
    let floor := if lh <? wc_LamportHigh c then wc_LamportHigh c else lh in
    (mkWALCheckpoint (wc_MerkleRoot c) (wc_Fingerprint c) (wc_LamportHigh c) (wc_CutSeq c) floor
       (wc_HasCutSeq c) (wc_HasFingerprint c),
     mkReplayed ms ads ord fc hc lh ns fs lc sv rv true (if cr <? wc_ClockHigh c then wc_ClockHigh c else cr))
  else (c, o).

Definition decodeCheckpointV2 (p : list Z) : WALCheckpoint :=
  mkWALCheckpoint (slice 0 32 p)
    (if (88 <=? length p)%nat then slice 56 32 p else replicate 32 0)
    (be64 32 p) (be64 40 p) (if (56 <=? length p)%nat then be64 48 p else 0) true (88 <=? length p)%nat.

(** The switch on the (inner) record type. *)
Definition replay_record (seq typ : Z) (p : list Z) (o : Replayed) : result WALError Replayed :=
  if typ =? WALRecMutation then
    m ← decodeMutationPayload p seq; Ok (add_mutation WALRecMutation seq m o)
  else if typ =? WALRecMutationV2 then
    m ← decodeMutationV2Payload p seq; Ok (add_mutation WALRecMutationV2 seq m o)
  else if typ =? WALRecClockAdvance then
    if (length p <? 8)%nat then Err (ErrShortClockAdvance seq) else Ok (add_advance seq (be64 0 p) o)
  else if typ =? WALRecCheckpoint then
    if (length p <? 40)%nat then Err (ErrShortCheckpoint seq)
    else Ok (set_checkpoint seq
               (mkWALCheckpoint (slice 0 32 p) (replicate 32 0) (be64 32 p) 0 0 false false) o)
  else if typ =? WALRecCheckpointV2 then
    if (length p <? 48)%nat then Err (ErrShortCheckpoint seq)
    else let '(c, o) := clamp_clock (decodeCheckpointV2 p) o in Ok (set_checkpoint seq c o)
  else Err (ErrUnknownType typ seq).

(** The 0x06 wrapper, then the switch. *)
Definition replay_payload (seq typ : Z) (p : list Z) (o : Replayed) : result WALError Replayed :=
  '(typ, p) ← (if typ =? WALRecChecksummed then unwrapChecksummed p seq else Ok (typ, p));
  replay_record seq typ p o.

(** The guards on a complete record header: length bound, then contiguity. *)
Definition header_guard (seq payloadLen prevSeq : Z) (o : Replayed) : option WALError :=
  if maxRecordPayloadLen <? payloadLen then Some (ErrPayloadLength payloadLen seq)
  else if (rp_RecordsVerified o =? 0) && negb (seq =? 0) then Some (ErrWALSeqGap 0 seq)
  else if (0 <? rp_RecordsVerified o) && negb (seq =? prevSeq +ₒ 1) then Some (ErrWALSeqGap (prevSeq +ₒ 1) seq)
  else None.

Fixpoint replay_loop (fuel : nat) (bs : list Z) (prevSeq : Z) (o : Replayed) : result WALError Replayed :=
  match fuel with
  | O => Err ErrOutOfFuel
  | S fuel' =>
      if (length bs <? 13)%nat then Ok o
      else
        let seq := be_get (slice 0 8 bs) in
        let typ := nth 8 bs 0 in
        let payloadLen := be_get (slice 9 4 bs) in
        match header_guard seq payloadLen prevSeq o with
        | Some e => Err e
        | None =>
            let rest := drop 13 bs in
            if Z.of_nat (length rest) <? payloadLen then Ok o
            else
              let n := Z.to_nat payloadLen in
              o' ← replay_payload seq typ (take n rest) (note_record seq o);
              replay_loop fuel' (drop n rest) seq o'
        end
  end.

Definition verified (o : Replayed) : Replayed :=
  let '(mkReplayed ms ads ord fc hc lh ns fs lc sv rv cc cr) := o in
  mkReplayed ms ads ord fc hc lh ns fs lc true rv cc cr.

Definition ReplayWAL (bs : list Z) : result WALError Replayed :=
  match verifyHeader bs with
  | Some e => Err e
  | None => o ← replay_loop (S (length bs)) (drop 8 bs) 0 emptyReplayed; Ok (verified o)
  end.
