(* ===== verification/WalReplay.v ===== *)
(** What ReplayWAL and scanRecords make of a log: the abstract log is the list of
    records appended, each framed or bare; its file is the header and the
    records, and replaying the file, with any torn record after it, gives the
    abstract log back. *)
From S2P Require Import Prelude Bytes Crc32c Dots Wal WalLog.

(** ** The abstract log *)

Inductive logrec :=
| LMutation (m : WALMutation)
| LMutationV1 (m : WALMutation)
| LCheckpoint (c : WALCheckpoint)
| LClockAdvance (advancedTo : Z).

Definition rec_type (r : logrec) : Z :=
  match r with
  | LMutation _ => WALRecMutationV2
  | LMutationV1 _ => WALRecMutation
  | LCheckpoint c => if wc_HasCutSeq c then WALRecCheckpointV2 else WALRecCheckpoint
  | LClockAdvance _ => WALRecClockAdvance
  end.

Definition rec_payload (r : logrec) : list Z :=
  match r with
  | LMutation m => putMutationV2Payload m
  | LMutationV1 m => putMutationV1Payload m
  | LCheckpoint c => if wc_HasCutSeq c then putCheckpointV2Payload c else putCheckpointV1Payload c
  | LClockAdvance t => putClockAdvancePayload t
  end.

Definition sized_rec (r : logrec) : Prop :=
  match r with
  | LMutation m | LMutationV1 m => sized_mutation m
  | LCheckpoint c => sized_checkpoint c
  | LClockAdvance t => is_u64 t
  end.

(** A record of the file: framed by a checksum or bare. *)
Abbreviation frec := (bool * logrec)%type.

Definition rec_bytes (seq : nat) (x : frec) : list Z :=
  if x.1 then frameChecksummed (Z.of_nat seq) (rec_type x.2) (rec_payload x.2)
  else encodeRecord (Z.of_nat seq) (rec_type x.2) (rec_payload x.2).

Fixpoint log_bytes (seq : nat) (l : list frec) : list Z :=
  match l with
  | [] => []
  | x :: l' => rec_bytes seq x ++ log_bytes (S seq) l'
  end.

Definition log_file (l : list frec) : list Z := walHeader ++ log_bytes 0 l.

(** The checkpoint a record reads back as, before the clamp. *)
Definition readCheckpoint (c : WALCheckpoint) : WALCheckpoint :=
  if wc_HasCutSeq c
  then mkWALCheckpoint (wc_MerkleRoot c) (if wc_HasFingerprint c then wc_Fingerprint c else replicate 32 0)
         (wc_LamportHigh c) (wc_CutSeq c) (wc_ClockHigh c) true (wc_HasFingerprint c)
  else mkWALCheckpoint (wc_MerkleRoot c) (replicate 32 0) (wc_LamportHigh c) 0 0 false false.

(** One record replayed, on values. *)
Definition fold_rec (seq : nat) (r : logrec) (o : Replayed) : Replayed :=
  let seq := Z.of_nat seq in
  let o := note_record seq o in
  match r with
  | LMutation m => add_mutation WALRecMutationV2 seq (readV2 m) o
  | LMutationV1 m => add_mutation WALRecMutation seq (readV1 m) o
  | LClockAdvance t => add_advance seq t o
  | LCheckpoint c => let '(c, o) := clamp_clock (readCheckpoint c) o in set_checkpoint seq c o
  end.

Fixpoint fold_log (seq : nat) (l : list frec) (o : Replayed) : Replayed :=
  match l with
  | [] => o
  | x :: l' => fold_log (S seq) l' (fold_rec seq x.2 o)
  end.

(** ** Encodings are bytes *)

Lemma string_bytes_are s : is_bytes (string_bytes s).
Proof.
  induction s as [|a s IH]; constructor; [|done]. unfold is_byte.
  pose proof (Ascii.N_ascii_bounded a). lia.
Qed.

Ltac bytes_auto :=
  unfold is_bytes in *;
  repeat first [ done | apply Forall_app; split | apply be_put_bytes | apply string_bytes_are
               | apply Forall_cons; split | apply Forall_nil; exact I ].

Lemma encodeCRDTEntry_bytes e : sized_entry e → is_bytes (encodeCRDTEntry e).
Proof. intros (_ & (H1 & H2 & H3) & _). unfold encodeCRDTEntry. bytes_auto. Qed.

Lemma encodeWALEntry_bytes e : sized_walentry e → is_bytes (encodeWALEntry e).
Proof. intros (_ & (H1 & H2 & H3) & _). unfold encodeWALEntry. bytes_auto. Qed.

Lemma rec_payload_bytes r : sized_rec r → is_bytes (rec_payload r).
Proof.
  destruct r as [m|m|c|t]; simpl.
  - intros (Hf & _ & [_ Hn] & _). pose proof (encodeCRDTEntry_bytes _ Hf).
    unfold putMutationV2Payload, length_prefixed. bytes_auto.
  - intros (_ & He & [_ Hn] & _). pose proof (encodeWALEntry_bytes _ He).
    unfold putMutationV1Payload, length_prefixed. bytes_auto.
  - intros (_ & [H1 H2] & _). unfold putCheckpointV2Payload, putCheckpointV1Payload.
    destruct (wc_HasCutSeq c), (wc_HasFingerprint c); bytes_auto.
  - intros _. unfold putClockAdvancePayload. bytes_auto.
Qed.

Lemma rec_type_byte r : is_byte (rec_type r).
Proof. destruct r as [m|m|c|t]; try done. simpl. by destruct (wc_HasCutSeq c). Qed.

Lemma rec_type_plain r : rec_type r ≠ WALRecChecksummed.
Proof. destruct r as [m|m|c|t]; try done. simpl. by destruct (wc_HasCutSeq c). Qed.

Lemma length_rec_payload r :
  sized_rec r → Z.of_nat (length (rec_payload r)) + 5 <= maxRecordPayloadLen.
Proof.
  unfold maxRecordPayloadLen. destruct r as [m|m|c|t]; simpl.
  - intros (Hf & _ & [Hn _] & _ & Hid). pose proof (length_encodeCRDTEntry _ Hf) as E.
    unfold putMutationV2Payload, length_prefixed, crdtEntryWireLen, maxRecordPayloadLen in *. len.
  - intros (_ & He & [Hn _] & _ & Hid). pose proof (length_encodeWALEntry _ He) as E.
    unfold putMutationV1Payload, length_prefixed, walEntryLen, maxRecordPayloadLen in *. len.
  - intros ([H1 H2] & _). unfold putCheckpointV2Payload, putCheckpointV1Payload.
    destruct (wc_HasCutSeq c), (wc_HasFingerprint c); len.
  - intros _. lia.
Qed.

(** Each record of the file is one [encodeRecord] within the replay bound. *)
Lemma rec_bytes_encode seq x :
  sized_rec x.2 → ∃ typ p,
    rec_bytes seq x = encodeRecord (Z.of_nat seq) typ p ∧ Z.of_nat (length p) <= maxRecordPayloadLen ∧
    ∀ o, replay_payload (Z.of_nat seq) typ p o = replay_record (Z.of_nat seq) (rec_type x.2) (rec_payload x.2) o.
Proof.
  intros Hx. pose proof (length_rec_payload _ Hx). destruct x as [[] r]; unfold rec_bytes; simpl in *.
  - exists WALRecChecksummed, (checksummed (rec_type r) (rec_payload r)). split; [done|]. split.
    + unfold checksummed. rewrite length_app, length_be_put. simpl. lia.
    + intros o. unfold replay_payload. simpl. rewrite unwrap_checksummed; [done|].
      constructor; [apply rec_type_byte|by apply rec_payload_bytes].
  - exists (rec_type r), (rec_payload r). split_and!; [done|lia|]. intros o. unfold replay_payload.
    by rewrite (proj2 (Z.eqb_neq _ _) (rec_type_plain r)).
Qed.

(** ** One step of the loops *)

Lemma length_encodeRecord seq typ p : length (encodeRecord seq typ p) = (13 + length p)%nat.
Proof. unfold encodeRecord. len. Qed.

Lemma header_fields seq typ p n rest :
  is_u64 seq → Z.of_nat (length p) < 2 ^ 32 → (13 <= n)%nat →
  let bs := take n (encodeRecord seq typ p) ++ rest in
  be_get (slice 0 8 bs) = seq ∧ nth 8 bs 0 = typ ∧ be_get (slice 9 4 bs) = Z.of_nat (length p) ∧
  drop 13 bs = take (n - 13) p ++ rest.
Proof.
  intros Hs Hp Hn. unfold encodeRecord. rewrite u32_small by lia.
  set (a := be_put 8 seq). set (b := be_put 4 (Z.of_nat (length p))).
  assert (length a = 8%nat) as Ha by apply length_be_put.
  assert (length b = 4%nat) as Hb by apply length_be_put.
  assert (∀ r, take n (a ++ [typ] ++ b ++ p) ++ r = a ++ [typ] ++ b ++ take (n - 13) p ++ r) as E.
  { intros r. rewrite take_app_ge, Ha by lia. rewrite take_app_ge by (simpl; lia). simpl length.
    rewrite take_app_ge, Hb by lia. rewrite <- !(assoc_L (++)). do 4 f_equal. f_equal. lia. }
  cbv zeta. rewrite E. split_and!.
  - rewrite slice_app_here by done. by apply be_get_put8.
  - rewrite app_nth2, Ha by lia. done.
  - rewrite slice_app_skip, Ha by lia. rewrite slice_app_skip by (simpl; lia). simpl length.
    rewrite slice_app_here by done. apply be_get_put. change (2 ^ (Z.of_nat 4 * 8)) with (2 ^ 32). lia.
  - rewrite drop_app_ge, Ha by lia. rewrite drop_app_ge by (simpl; lia). simpl length.
    rewrite drop_app_ge, Hb by lia. by rewrite drop_0.
Qed.

(** A whole record at the front. *)
Lemma header_whole seq typ p rest :
  is_u64 seq → Z.of_nat (length p) < 2 ^ 32 →
  let bs := encodeRecord seq typ p ++ rest in
  be_get (slice 0 8 bs) = seq ∧ nth 8 bs 0 = typ ∧ be_get (slice 9 4 bs) = Z.of_nat (length p) ∧
  drop 13 bs = p ++ rest.
Proof.
  intros Hs Hp. pose proof (header_fields seq typ p (13 + length p) rest Hs Hp ltac:(lia)) as H.
  rewrite <- (length_encodeRecord seq typ p), firstn_all, length_encodeRecord in H.
  replace (13 + length p - 13)%nat with (length p) in H by lia. by rewrite firstn_all in H.
Qed.

Lemma replay_loop_record fuel seq typ p rest prev o :
  is_u64 seq → Z.of_nat (length p) <= maxRecordPayloadLen →
  header_guard seq (Z.of_nat (length p)) prev o = None →
  replay_loop (S fuel) (encodeRecord seq typ p ++ rest) prev o =
    (o' ← replay_payload seq typ p (note_record seq o); replay_loop fuel rest seq o').
Proof.
  intros Hs Hp Hg. destruct (header_whole seq typ p rest) as (E1 & E2 & E3 & E4);
    [done|unfold maxRecordPayloadLen in Hp; lia|].
  cbn [replay_loop]. rewrite (proj2 (Nat.ltb_ge _ _)) by (rewrite length_app, length_encodeRecord; lia).
  rewrite E1, E2, E3, E4, Hg. rewrite (proj2 (Z.ltb_ge _ _)) by (rewrite length_app; lia).
  by rewrite Nat2Z.id, take_app_length, drop_app_length.
Qed.

Lemma replay_loop_torn fuel seq typ p n prev o :
  is_u64 seq → Z.of_nat (length p) <= maxRecordPayloadLen →
  header_guard seq (Z.of_nat (length p)) prev o = None → (n < 13 + length p)%nat →
  replay_loop (S fuel) (take n (encodeRecord seq typ p)) prev o = Ok o.
Proof.
  intros Hs Hp Hg Hn. cbn [replay_loop]. destruct (Nat.ltb_spec (length (take n (encodeRecord seq typ p))) 13) as [|Hl]; [done|].
  assert (13 <= n)%nat as Hn' by (rewrite length_take in Hl; lia).
  destruct (header_fields seq typ p n []) as (E1 & E2 & E3 & E4);
    [done|unfold maxRecordPayloadLen in Hp; lia|done|].
  rewrite app_nil_r in E1, E2, E3, E4. rewrite E1, E3, E4, Hg, app_nil_r.
  rewrite (proj2 (Z.ltb_lt _ _)) by (rewrite length_take; lia). done.
Qed.

Lemma scan_loop_record fuel seq typ p rest s :
  is_u64 seq → Z.of_nat (length p) <= maxRecordPayloadLen →
  scan_loop (S fuel) (encodeRecord seq typ p ++ rest) s =
    scan_loop fuel rest (mkScan (if sc_nextSeq s <=? seq then seq +ₒ 1 else sc_nextSeq s) (sc_count s +ₒ 1)
      (sc_lastGood s + length (encodeRecord seq typ p))).
Proof.
  intros Hs Hp. destruct (header_whole seq typ p rest) as (E1 & E2 & E3 & E4);
    [done|unfold maxRecordPayloadLen in Hp; lia|].
  cbn [scan_loop]. rewrite (proj2 (Nat.ltb_ge _ _)) by (rewrite length_app, length_encodeRecord; lia).
  rewrite E1, E3, E4. rewrite (proj2 (Z.ltb_ge _ _)) by (rewrite length_app; lia).
  rewrite Nat2Z.id, drop_app_length, length_encodeRecord. do 2 f_equal. lia.
Qed.

Lemma scan_loop_torn fuel seq typ p n s :
  is_u64 seq → Z.of_nat (length p) <= maxRecordPayloadLen → (n < 13 + length p)%nat →
  scan_loop (S fuel) (take n (encodeRecord seq typ p)) s = Some s.
Proof.
  intros Hs Hp Hn. cbn [scan_loop]. destruct (Nat.ltb_spec (length (take n (encodeRecord seq typ p))) 13) as [|Hl]; [done|].
  assert (13 <= n)%nat as Hn' by (rewrite length_take in Hl; lia).
  destruct (header_fields seq typ p n []) as (E1 & E2 & E3 & E4);
    [done|unfold maxRecordPayloadLen in Hp; lia|done|].
  rewrite app_nil_r in E1, E2, E3, E4. rewrite E3, E4, app_nil_r.
  rewrite (proj2 (Z.ltb_lt _ _)) by (rewrite length_take; lia). done.
Qed.

(** ** The switch on a well-sized record *)

Lemma decode_checkpointV2 c :
  sized_checkpoint c → wc_HasCutSeq c = true → decodeCheckpointV2 (putCheckpointV2Payload c) = readCheckpoint c.
Proof.
  intros ([H1 H2] & _ & H3 & H4 & H5) Hc. unfold decodeCheckpointV2, readCheckpoint. rewrite Hc.
  unfold putCheckpointV2Payload, be64.
  assert (length (putCheckpointV2Payload c) = if wc_HasFingerprint c then 88 else 56)%nat as Hl.
  { unfold putCheckpointV2Payload. destruct (wc_HasFingerprint c); len. }
  unfold putCheckpointV2Payload in Hl. rewrite Hl.
  destruct (wc_HasFingerprint c); cbn [Nat.leb]; slices; rewrite ?slice_all by done; by rewrite !be_get_put8.
Qed.

Lemma clamp_clock_zero c o : wc_ClockHigh c = 0 → clamp_clock c o = (c, o).
Proof. intros H. unfold clamp_clock. by rewrite H. Qed.

Lemma replay_record_spec seq r o :
  sized_rec r →
  replay_record (Z.of_nat seq) (rec_type r) (rec_payload r) (note_record (Z.of_nat seq) o) = Ok (fold_rec seq r o).
Proof.
  unfold fold_rec. destruct r as [m|m|c|t]; intros H; unfold replay_record, rec_type, rec_payload.
  - simpl. by rewrite decode_mutationV2.
  - simpl. by rewrite decode_mutationV1.
  - destruct (wc_HasCutSeq c) eqn:Hc; cbn [Z.eqb].
    + assert (56 <= length (putCheckpointV2Payload c))%nat as Hl.
      { destruct H as ([H1 _] & _). unfold putCheckpointV2Payload. len. }
      simpl. rewrite (proj2 (Nat.ltb_ge _ _)) by lia. rewrite decode_checkpointV2 by done.
      by destruct (clamp_clock _ _).
    + destruct H as ([H1 _] & _ & H3 & _).
      simpl. rewrite (proj2 (Nat.ltb_ge _ _)) by (unfold putCheckpointV1Payload; len).
      rewrite clamp_clock_zero by (unfold readCheckpoint; by rewrite Hc). unfold readCheckpoint. rewrite Hc.
      unfold putCheckpointV1Payload, be64. slices. rewrite slice_all by apply length_be_put. by rewrite be_get_put8.
  - simpl. unfold putClockAdvancePayload, be64. rewrite slice_all by apply length_be_put. by rewrite be_get_put8.
Qed.

Lemma clamp_RecordsVerified c o : rp_RecordsVerified (clamp_clock c o).2 = rp_RecordsVerified o.
Proof. unfold clamp_clock. destruct (_ <? _); [|done]. by destruct o. Qed.

Lemma fold_rec_RecordsVerified seq r o : rp_RecordsVerified (fold_rec seq r o) = rp_RecordsVerified o + 1.
Proof.
  unfold fold_rec. destruct r as [m|m|c|t].
  1,2,4: by destruct o.
  pose proof (clamp_RecordsVerified (readCheckpoint c) (note_record (Z.of_nat seq) o)) as E.
  destruct (clamp_clock _ _) as [c' o']. destruct o, o'; simpl in *. done.
Qed.

(** ** The loops over a log *)

(** Where the loop stands after [k] records. *)
Definition at_record (k : nat) (prev : Z) (o : Replayed) : Prop :=
  rp_RecordsVerified o = Z.of_nat k ∧ (k ≠ O → prev = Z.of_nat k - 1).

Lemma at_record_guard k prev o len :
  at_record k prev o → Z.of_nat k < 2 ^ 64 → len <= maxRecordPayloadLen →
  header_guard (Z.of_nat k) len prev o = None.
Proof.
  intros [Hv Hp] Hk Hl. unfold header_guard. rewrite Hv, (proj2 (Z.ltb_ge _ _)) by done.
  destruct k as [|k]; [done|]. rewrite Hp by done. rewrite (u64_id (_ + 1)) by (unfold is_u64; lia).
  rewrite (proj2 (Z.eqb_neq (Z.of_nat (S k)) 0)) by lia.
  replace (Z.of_nat (S k) - 1 + 1) with (Z.of_nat (S k)) by lia. by rewrite Z.eqb_refl, andb_false_r.
Qed.

(** What a crash can leave after [k] complete records: a strict prefix of a
    record within the bound. *)
Definition torn (k : nat) (tail : list Z) : Prop :=
  ∃ typ p n, Z.of_nat (length p) <= maxRecordPayloadLen ∧ (n < 13 + length p)%nat ∧
    tail = take n (encodeRecord (Z.of_nat k) typ p).

Lemma torn_nil k : torn k [].
Proof. exists 0, [], O. split_and!; [done|simpl; lia|done]. Qed.

Lemma torn_take k n tail : torn k tail → torn k (take n tail).
Proof.
  intros (typ & p & n' & Hp & Hn & ->). exists typ, p, (Nat.min n n'). split_and!; [done|lia|].
  by rewrite take_take.
Qed.

Definition sized_log (l : list frec) : Prop := Forall (λ x, sized_rec x.2) l.

Lemma replay_loop_prefix l k rest fuel prev o :
  sized_log l → Z.of_nat (k + length l) < 2 ^ 64 → (length l <= fuel)%nat → at_record k prev o →
  ∃ prev', at_record (k + length l) prev' (fold_log k l o) ∧
    replay_loop fuel (log_bytes k l ++ rest) prev o = replay_loop (fuel - length l) rest prev' (fold_log k l o).
Proof.
  intros Hl. revert k fuel prev o. induction Hl as [|x l Hx Hl IH]; intros k fuel prev o Hk Hf Ho; simpl in *.
  - exists prev. by rewrite Nat.add_0_r, Nat.sub_0_r.
  - destruct fuel as [|fuel]; [lia|]. destruct (rec_bytes_encode k x Hx) as (typ & p & -> & Hp & Hr).
    destruct (IH (S k) fuel (Z.of_nat k) (fold_rec k x.2 o)) as (prev' & Ha & E); [lia|lia| |].
    { destruct Ho as [Hv _]. split; [rewrite fold_rec_RecordsVerified; lia|]. intros _. lia. }
    exists prev'. rewrite Nat.add_succ_r. split; [done|].
    rewrite <- (assoc_L (++)), replay_loop_record; [|unfold is_u64; lia|done|apply at_record_guard; [done|lia|done]].
    rewrite Hr, replay_record_spec by done. exact E.
Qed.

Lemma replay_loop_log l k tail fuel prev o :
  sized_log l → torn (k + length l) tail → Z.of_nat (k + length l) < 2 ^ 64 → (length l < fuel)%nat →
  at_record k prev o → replay_loop fuel (log_bytes k l ++ tail) prev o = Ok (fold_log k l o).
Proof.
  intros Hl (typ & p & n & Hp & Hn & ->) Hk Hf Ho.
  destruct (replay_loop_prefix l k (take n (encodeRecord (Z.of_nat (k + length l)) typ p)) fuel prev o)
    as (prev' & Ha & ->); [done|lia|lia|done|].
  destruct (fuel - length l)%nat as [|fuel'] eqn:Ef; [lia|].
  apply replay_loop_torn; [unfold is_u64; lia|done|by apply at_record_guard|done].
Qed.

Lemma scan_loop_log l k tail fuel s :
  sized_log l → torn (k + length l) tail → Z.of_nat (k + length l) < 2 ^ 64 → (length l < fuel)%nat →
  sc_nextSeq s = Z.of_nat k →
  ∃ s', scan_loop fuel (log_bytes k l ++ tail) s = Some s' ∧ sc_nextSeq s' = Z.of_nat (k + length l) ∧
    sc_lastGood s' = (sc_lastGood s + length (log_bytes k l))%nat.
Proof.
  intros Hl. revert k fuel s. induction Hl as [|x l Hx Hl IH]; intros k fuel s Ht Hk Hf Hs; simpl in *.
  - destruct fuel as [|fuel]; [lia|]. destruct Ht as (typ & p & n & Hp & Hn & ->). rewrite Nat.add_0_r in *.
    rewrite scan_loop_torn; [|unfold is_u64; lia|done..]. exists s. split_and!; [done..|]. simpl. lia.
  - destruct fuel as [|fuel]; [lia|]. destruct (rec_bytes_encode k x Hx) as (typ & p & -> & Hp & Hr).
    rewrite <- (assoc_L (++)), scan_loop_record; [|unfold is_u64; lia|done].
    rewrite Nat.add_succ_r in Ht. destruct (IH (S k) fuel
      (mkScan (if sc_nextSeq s <=? Z.of_nat k then Z.of_nat k +ₒ 1 else sc_nextSeq s) (sc_count s +ₒ 1)
        (sc_lastGood s + length (encodeRecord (Z.of_nat k) typ p)))) as (s' & E & En & Eg); [done|lia|lia| |].
    + simpl. rewrite (proj2 (Z.leb_le _ _)) by lia. rewrite u64_id by (unfold is_u64; lia). lia.
    + exists s'. split_and!; [done|rewrite En; lia|]. rewrite Eg, length_app. simpl. lia.
Qed.

(** ** Whole files *)

Lemma length_rec_bytes k x : (13 <= length (rec_bytes k x))%nat.
Proof. destruct x as [[] r]; unfold rec_bytes, frameChecksummed; cbn [fst]; rewrite length_encodeRecord; lia. Qed.

Lemma length_log_bytes k l : (13 * length l <= length (log_bytes k l))%nat.
Proof.
  revert k. induction l as [|x l IH]; intros k; simpl; [lia|]. rewrite length_app.
  pose proof (length_rec_bytes k x). specialize (IH (S k)). lia.
Qed.

Lemma verify_walHeader rest : verifyHeader (walHeader ++ rest) = None.
Proof.
  unfold verifyHeader. rewrite (proj2 (Nat.ltb_ge _ _)) by (rewrite length_app; simpl; lia). unfold walHeader.
  rewrite <- !(assoc_L (++)). slices. done.
Qed.

Definition replay_log (l : list frec) : Replayed := verified (fold_log 0 l emptyReplayed).

Lemma drop_walHeader rest : drop 8 (walHeader ++ rest) = rest.
Proof. by apply drop_app_length'. Qed.

Lemma ReplayWAL_log l tail :
  sized_log l → torn (length l) tail → Z.of_nat (length l) < 2 ^ 64 →
  ReplayWAL (log_file l ++ tail) = Ok (replay_log l).
Proof.
  intros Hl Ht Hn. unfold ReplayWAL, log_file. rewrite <- (assoc_L (++)), verify_walHeader, drop_walHeader.
  rewrite replay_loop_log; [done|done|done|done| |by split].
  rewrite !length_app. pose proof (length_log_bytes 0 l). simpl length. lia.
Qed.

Lemma scanRecords_log l tail :
  sized_log l → torn (length l) tail → Z.of_nat (length l) < 2 ^ 64 →
  ∃ s, scanRecords (log_file l ++ tail) = Some s ∧ sc_nextSeq s = Z.of_nat (length l) ∧
    sc_lastGood s = length (log_file l).
Proof.
  intros Hl Ht Hn. unfold scanRecords, log_file. rewrite <- (assoc_L (++)), drop_walHeader.
  destruct (scan_loop_log l 0 tail (S (length (walHeader ++ log_bytes 0 l ++ tail))) (mkScan 0 0 8))
    as (s & E & En & Eg); [done..| |done|].
  - rewrite !length_app. pose proof (length_log_bytes 0 l). simpl length. lia.
  - exists s. split_and!; [done|done|]. rewrite Eg, length_app. done.
Qed.

(** * Properties of the write-ahead log's codec and replay: a log replays to what
    was appended, a torn tail is dropped, corrupted content is refused, and what
    replay accepts of arbitrary bytes. *)

(** ** What a log means *)

Definition rec_mutation (r : logrec) : option WALMutation :=
  match r with LMutation m => Some (readV2 m) | LMutationV1 m => Some (readV1 m) | _ => None end.
Definition rec_advance (r : logrec) : option Z :=
  match r with LClockAdvance t => Some t | _ => None end.
Definition rec_high (r : logrec) : Z :=
  match r with LMutation m | LMutationV1 m => wm_Counter m | LCheckpoint c => wc_LamportHigh c | LClockAdvance t => t end.
Definition rec_ordered (seq : nat) (r : logrec) : option WALRecord :=
  match r with
  | LMutation m => Some (mkWALRecord WALRecMutationV2 (Some (readV2 m)) 0 (Z.of_nat seq))
  | LMutationV1 m => Some (mkWALRecord WALRecMutation (Some (readV1 m)) 0 (Z.of_nat seq))
  | LClockAdvance t => Some (mkWALRecord WALRecClockAdvance None t (Z.of_nat seq))
  | LCheckpoint _ => None
  end.

Definition log_mutations (l : list frec) : list WALMutation := omap (rec_mutation ∘ snd) l.
Definition log_advances (l : list frec) : list Z := omap (rec_advance ∘ snd) l.
Definition log_ordered (l : list frec) : list WALRecord := omap id (imap (λ i x, rec_ordered i x.2) l).
Definition log_high (l : list frec) : Z := foldl (λ h x, Z.max h (rec_high x.2)) 0 l.

(** The final checkpoint of a log and its sequence number; an incredible
    ClockHigh is floored to the high-water up to and including the record. *)
Definition settle (high : Z) (c : WALCheckpoint) : WALCheckpoint :=
  let c := readCheckpoint c in
  mkWALCheckpoint (wc_MerkleRoot c) (wc_Fingerprint c) (wc_LamportHigh c) (wc_CutSeq c)
    (if MaxCredibleClockHigh <? wc_ClockHigh c then high else wc_ClockHigh c) (wc_HasCutSeq c) (wc_HasFingerprint c).

Definition final_checkpoint (l : list frec) (o : Replayed) : Prop :=
  match rp_HasCheckpoint o with
  | false => ∀ i x c, l !! i = Some x → x.2 ≠ LCheckpoint c
  | true => ∃ i b c, l !! i = Some (b, LCheckpoint c) ∧
      (∀ j y c', (i < j)%nat → l !! j = Some y → y.2 ≠ LCheckpoint c') ∧
      rp_FinalCheckptSeq o = Z.of_nat i ∧ rp_FinalCheckpt o = settle (log_high (take (S i) l)) c ∧
      rp_LegacyCheckpoint o = negb (wc_HasFingerprint (readCheckpoint c))
  end.

(** [o] is what the log [l] says. *)
Record replays (l : list frec) (o : Replayed) : Prop := {
  rs_mutations : rp_Mutations o = log_mutations l;
  rs_advances : rp_Advances o = log_advances l;
  rs_ordered : rp_Ordered o = log_ordered l;
  rs_high : rp_LamportHigh o = log_high l;
  rs_next : rp_NextSeq o = Z.of_nat (length l);
  rs_count : rp_RecordsVerified o = Z.of_nat (length l);
  rs_checkpoint : final_checkpoint l o;
}.

(** ** Appending one record *)

Lemma fold_log_app k l1 l2 o : fold_log k (l1 ++ l2) o = fold_log (k + length l1) l2 (fold_log k l1 o).
Proof.
  revert k o. induction l1 as [|x l1 IH]; intros k o; simpl; [by rewrite Nat.add_0_r|].
  rewrite IH. f_equal. lia.
Qed.

Lemma log_high_snoc l x : log_high (l ++ [x]) = Z.max (log_high l) (rec_high x.2).
Proof. unfold log_high. by rewrite foldl_app. Qed.

Lemma log_ordered_snoc l x :
  log_ordered (l ++ [x]) = log_ordered l ++ match rec_ordered (length l) x.2 with Some r => [r] | None => [] end.
Proof.
  unfold log_ordered. rewrite imap_app, omap_app. simpl. rewrite Nat.add_0_r. by destruct (rec_ordered _ _).
Qed.

Lemma log_mutations_snoc l x :
  log_mutations (l ++ [x]) = log_mutations l ++ match rec_mutation x.2 with Some r => [r] | None => [] end.
Proof. unfold log_mutations. rewrite omap_app. simpl. by destruct (rec_mutation _). Qed.

Lemma log_advances_snoc l x :
  log_advances (l ++ [x]) = log_advances l ++ match rec_advance x.2 with Some r => [r] | None => [] end.
Proof. unfold log_advances. rewrite omap_app. simpl. by destruct (rec_advance _). Qed.

Lemma if_max a b : (if a <? b then b else a) = Z.max a b.
Proof. destruct (Z.ltb_spec a b); lia. Qed.

(** The final checkpoint is kept by any other record. *)
Lemma final_checkpoint_keep l x o o' :
  final_checkpoint l o → (∀ c, x.2 ≠ LCheckpoint c) →
  rp_HasCheckpoint o' = rp_HasCheckpoint o → rp_FinalCheckptSeq o' = rp_FinalCheckptSeq o →
  rp_FinalCheckpt o' = rp_FinalCheckpt o → rp_LegacyCheckpoint o' = rp_LegacyCheckpoint o →
  final_checkpoint (l ++ [x]) o'.
Proof.
  unfold final_checkpoint. intros H Hx -> -> -> ->. destruct (rp_HasCheckpoint o).
  - destruct H as (i & b & c & Hi & Hlast & H). pose proof (lookup_lt_Some _ _ _ Hi) as Hlt.
    exists i, b, c. split; [by rewrite lookup_app_l|]. split.
    + intros j y c' Hj Hy. apply lookup_app_Some in Hy as [Hy|[Hge Hy]]; [by eapply Hlast|].
      apply list_lookup_singleton_Some in Hy as [_ <-]. apply Hx.
    + by rewrite take_app_le by lia.
  - intros i y c Hy. apply lookup_app_Some in Hy as [Hy|[Hge Hy]]; [by eapply H|].
    apply list_lookup_singleton_Some in Hy as [_ <-]. apply Hx.
Qed.

(** A checkpoint record becomes the final one. *)
Lemma fold_checkpoint l b c o :
  replays l o → Z.of_nat (length l) < 2 ^ 64 - 1 → replays (l ++ [(b, LCheckpoint c)]) (fold_rec (length l) (LCheckpoint c) o).
Proof.
  intros [H1 H2 H3 H4 H5 H6 _] Hn. destruct o as [ms ads ord fc hc lh ns fs lc sv rv cc cr]; simpl in *. subst.
  unfold fold_rec. cbn [note_record]. rewrite Z.leb_refl, u64_id by (unfold is_u64; lia).
  assert (wc_LamportHigh (readCheckpoint c) = wc_LamportHigh c) as Elh by (unfold readCheckpoint; by destruct (wc_HasCutSeq c)).
  assert (∃ cc' cr', clamp_clock (readCheckpoint c) (mkReplayed (log_mutations l) (log_advances l) (log_ordered l) fc hc
      (log_high l) (Z.of_nat (length l) + 1) fs lc sv (Z.of_nat (length l) + 1) cc cr) =
    (settle (Z.max (log_high l) (wc_LamportHigh c)) c, mkReplayed (log_mutations l) (log_advances l) (log_ordered l) fc hc
      (log_high l) (Z.of_nat (length l) + 1) fs lc sv (Z.of_nat (length l) + 1) cc' cr')) as (cc' & cr' & ->).
  { unfold clamp_clock, settle. rewrite if_max, Elh. cbv zeta. destruct (_ <? _); [by eexists _, _|].
    exists cc, cr. rewrite <- Elh. by destruct (readCheckpoint c). }
  cbn [set_checkpoint]. rewrite if_max. cbn [settle wc_LamportHigh wc_HasFingerprint]. rewrite Elh.
  split; cbn [rp_Mutations rp_Advances rp_Ordered rp_LamportHigh rp_NextSeq rp_RecordsVerified].
  - rewrite log_mutations_snoc. simpl. by rewrite app_nil_r.
  - rewrite log_advances_snoc. simpl. by rewrite app_nil_r.
  - rewrite log_ordered_snoc. simpl. by rewrite app_nil_r.
  - by rewrite log_high_snoc.
  - rewrite length_app. simpl. lia.
  - rewrite length_app. simpl. lia.
  - unfold final_checkpoint. simpl. exists (length l), b, c. split_and!; [| | | |done].
    + by rewrite lookup_app_r, Nat.sub_diag by lia.
    + intros j y c' Hj Hy. apply lookup_lt_Some in Hy. rewrite length_app in Hy. simpl in Hy. lia.
    + done.
    + rewrite take_ge by (rewrite length_app; simpl; lia). by rewrite log_high_snoc.
Qed.

Lemma fold_replays l x o :
  replays l o → Z.of_nat (length l) < 2 ^ 64 - 1 → replays (l ++ [x]) (fold_rec (length l) x.2 o).
Proof.
  intros H Hn. destruct x as [b [m|m|c|t]]; simpl; [| |by apply fold_checkpoint|].
  all: destruct H as [H1 H2 H3 H4 H5 H6 H7];
    destruct o as [ms ads ord fc hc lh ns fs lc sv rv cc cr]; simpl in *; subst;
    unfold fold_rec; cbn [note_record add_mutation add_advance];
    rewrite Z.leb_refl, u64_id, if_max by (unfold is_u64; lia);
    split; cbn [rp_Mutations rp_Advances rp_Ordered rp_LamportHigh rp_NextSeq rp_RecordsVerified];
    [ by rewrite log_mutations_snoc; simpl; rewrite ?app_nil_r
    | by rewrite log_advances_snoc; simpl; rewrite ?app_nil_r
    | by rewrite log_ordered_snoc
    | by rewrite log_high_snoc
    | rewrite length_app; simpl; lia | rewrite length_app; simpl; lia
    | by eapply final_checkpoint_keep; [exact H7|..] ].
Qed.

Lemma fold_log_replays l : Z.of_nat (length l) < 2 ^ 64 → replays l (fold_log 0 l emptyReplayed).
Proof.
  induction l as [|x l IH] using rev_ind; intros Hn; [by split|]. rewrite length_app in Hn. simpl in Hn.
  rewrite fold_log_app. simpl. apply fold_replays; [apply IH|]; lia.
Qed.

Lemma verified_replays l o : replays l o → replays l (verified o).
Proof. intros [H1 H2 H3 H4 H5 H6 H7]. by destruct o; split. Qed.

Lemma replay_log_replays l : Z.of_nat (length l) < 2 ^ 64 → replays l (replay_log l).
Proof. intros H. by apply verified_replays, fold_log_replays. Qed.

(** A log replays to what was appended: for any sequence of mutation,
    checkpoint and clock-advance records within the length bound, each framed by
    a checksum or bare, in the old or the new mutation format, followed by any
    strict prefix of one more record, ReplayWAL succeeds and returns the
    mutations and advances in order, the records with their sequence numbers,
    the high-water of all counters, and the last checkpoint with its ClockHigh
    floored when incredible; the framing leaves no trace and the torn record is
    dropped. *)
Theorem replay_roundtrip (l : list frec) (tail : list Z) :
  sized_log l → torn (length l) tail → Z.of_nat (length l) < 2 ^ 64 →
  ∃ o, ReplayWAL (log_file l ++ tail) = Ok o ∧ replays l o ∧ rp_SeqContiguityVerified o = true.
Proof.
  intros Hl Ht Hn. exists (replay_log l). split_and!; [by apply ReplayWAL_log|by apply replay_log_replays|].
  unfold replay_log. by destruct (fold_log 0 l emptyReplayed).
Qed.

(** ** Corruption *)

(** Any byte string after [l] whose first record fails to replay makes the whole
    log fail with that error. *)
Lemma ReplayWAL_refuses l typ p rest err :
  sized_log l → Z.of_nat (length l) < 2 ^ 64 → Z.of_nat (length p) <= maxRecordPayloadLen →
  (∀ o, replay_payload (Z.of_nat (length l)) typ p o = Err err) →
  ReplayWAL (log_file l ++ encodeRecord (Z.of_nat (length l)) typ p ++ rest) = Err err.
Proof.
  intros Hl Hn Hp He. unfold ReplayWAL, log_file. rewrite <- (assoc_L (++)), verify_walHeader, drop_walHeader.
  pose proof (length_log_bytes 0 l) as Hb.
  set (x := encodeRecord (Z.of_nat (length l)) typ p ++ rest).
  destruct (replay_loop_prefix l 0 x (S (length (walHeader ++ log_bytes 0 l ++ x))) 0 emptyReplayed)
    as (prev & Ha & ->); [done..| |by split|].
  { rewrite !length_app. lia. }
  destruct (S (length (walHeader ++ log_bytes 0 l ++ x)) - length l)%nat as [|fuel] eqn:Ef.
  { rewrite !length_app in Ef. lia. }
  unfold x. rewrite replay_loop_record; [by rewrite He|unfold is_u64; lia|done|by apply at_record_guard].
Qed.

Lemma be_get_inj a b : is_bytes a → is_bytes b → length a = length b → be_get a = be_get b → a = b.
Proof.
  intros Ha Hb Hl E. apply (inj reverse). unfold be_get in E.
  rewrite <- (le_put_get (length a) (reverse a)), <- (le_put_get (length a) (reverse b)), E; [done|..].
  1,3: rewrite length_reverse; done.
  all: by apply Forall_reverse.
Qed.

(** The content of a framed record after damage: a window of at most four bytes
    of type or payload replaced, or the stored checksum replaced. *)
Inductive damaged (body : list Z) : list Z → list Z → Prop :=
| damaged_content pre w w' post :
    body = pre ++ w ++ post → length w' = length w → (length w <= 4)%nat → is_bytes w' → w' ≠ w →
    damaged body (pre ++ w' ++ post) (be_put 4 (crc32_Checksum body))
| damaged_checksum crc :
    length crc = 4%nat → is_bytes crc → crc ≠ be_put 4 (crc32_Checksum body) → damaged body body crc.

(** Damage keeps the length and shows in the checksum. *)
Lemma damaged_mismatch body body' crc :
  is_bytes body → damaged body body' crc →
  length body' = length body ∧ length crc = 4%nat ∧ be_get crc ≠ crc32_Checksum body'.
Proof.
  intros Hb [pre w w' post E Hw H4 Hw' Hne|crc' Hl Hc Hne].
  - split_and!; [|apply length_be_put|].
    + rewrite E, !length_app, Hw. done.
    + rewrite be_get_put by apply (crc32_range _ Hb). rewrite E in Hb |- *.
      apply Forall_app in Hb as [Hpre [Hw0 Hpost]%Forall_app].
      intros Heq. apply Hne. symmetry. by apply (crc32_burst pre w w' post).
  - split_and!; [done|done|]. intros E. apply Hne, be_get_inj; [done|auto|by rewrite length_be_put|].
    rewrite E. symmetry. apply be_get_put, (crc32_range _ Hb).
Qed.

Lemma unwrap_damaged typ inner body' crc seq :
  is_bytes (typ :: inner) → damaged (typ :: inner) body' crc →
  unwrapChecksummed (body' ++ crc) seq = Err (ErrWALCorrupt seq).
Proof.
  intros Hb (Hl & Hc & Hne)%damaged_mismatch; [|done].
  destruct body' as [|typ' inner']; [done|]. rewrite unwrap_spec by done.
  by rewrite (proj2 (Z.eqb_neq _ _) Hne).
Qed.

(** Damaged content never replays: when the type and payload bytes of a
    framed record differ from what was appended inside one window of at most
    four bytes, or the stored checksum differs, ReplayWAL refuses the whole log
    with ErrWALCorrupt and the record's sequence number, whatever follows it. *)
Theorem damaged_record_refused (l : list frec) (r : logrec) (body crc rest : list Z) :
  sized_log l → sized_rec r → Z.of_nat (length l) < 2 ^ 64 →
  damaged (rec_type r :: rec_payload r) body crc →
  ReplayWAL (log_file l ++ encodeRecord (Z.of_nat (length l)) WALRecChecksummed (body ++ crc) ++ rest) =
    Err (ErrWALCorrupt (Z.of_nat (length l))).
Proof.
  intros Hl Hr Hn Hd. apply ReplayWAL_refuses; [done|done| |].
  - pose proof (length_rec_payload r Hr) as Hp.
    assert (length (body ++ crc) = length (rec_payload r) + 5)%nat as ->; [|lia].
    destruct Hd as [pre w w' post E Hw _ _ _|crc Hc _ _]; rewrite length_app.
    + apply (f_equal length) in E. rewrite length_be_put. rewrite !length_app in *. simpl in E. lia.
    + rewrite Hc. simpl. lia.
  - intros o. unfold replay_payload. rewrite Z.eqb_refl.
    rewrite (unwrap_damaged (rec_type r) (rec_payload r)); [done| |done].
    constructor; [apply rec_type_byte|by apply rec_payload_bytes].
Qed.

(** ** Arbitrary bytes *)

(** What every accepted replay satisfies, whatever the file holds. *)
Record accepted_replay (o : Replayed) : Prop := {
  ar_count : 0 <= rp_RecordsVerified o;
  ar_next : rp_NextSeq o = rp_RecordsVerified o;
  ar_seqs : StronglySorted Z.lt (map wr_Seq (rp_Ordered o));
  ar_range : Forall (λ s, 0 <= s < rp_RecordsVerified o) (map wr_Seq (rp_Ordered o));
  ar_mutations : rp_Mutations o = omap wr_Mutation (rp_Ordered o);
  ar_counters : Forall (λ m, wm_Counter m <= rp_LamportHigh o) (rp_Mutations o);
  ar_advances : Forall (λ t, t <= rp_LamportHigh o) (rp_Advances o);
  ar_checkpoint : rp_HasCheckpoint o = true →
    wc_LamportHigh (rp_FinalCheckpt o) <= rp_LamportHigh o ∧
    wc_ClockHigh (rp_FinalCheckpt o) <= Z.max MaxCredibleClockHigh (rp_LamportHigh o) ∧
    0 <= rp_FinalCheckptSeq o < rp_RecordsVerified o;
  ar_clamped : rp_ClockHighClamped o = true → MaxCredibleClockHigh < rp_ClockHighRaw o;
}.

Lemma Forall_le_mono {A} (f : A → Z) h h' l : h <= h' → Forall (λ x, f x <= h) l → Forall (λ x, f x <= h') l.
Proof. intros Hh H. eapply Forall_impl; [exact H|]. simpl. intros x. lia. Qed.

Lemma Forall_seq_mono n n' l : n <= n' → Forall (λ s, 0 <= s < n) l → Forall (λ s, 0 <= s < n') l.
Proof. intros Hh H. eapply Forall_impl; [exact H|]. simpl. intros x. lia. Qed.

Lemma seqs_snoc l s : StronglySorted Z.lt l → Forall (λ s', 0 <= s' < s) l → StronglySorted Z.lt (l ++ [s]).
Proof.
  intros Hs Hf. induction Hs as [|x l Hs IH Hx]; simpl; [by constructor; [constructor|]|].
  apply Forall_cons in Hf as [Hx0 Hf]. constructor; [by apply IH|]. apply Forall_app. split; [done|].
  constructor; [lia|constructor].
Qed.

Ltac seq_bounds :=
  rewrite map_app; apply Forall_app; split;
  [ by eapply Forall_seq_mono; [|eassumption]; lia | constructor; [simpl; lia|constructor] ].

Lemma accepted_mutation typ m o :
  accepted_replay o → rp_RecordsVerified o < 2 ^ 64 - 1 →
  accepted_replay (add_mutation typ (rp_RecordsVerified o) m (note_record (rp_RecordsVerified o) o)).
Proof.
  intros [H1 H2 H3 H4 H5 H6 H7 H8 H9] Hn.
  destruct o as [ms ads ord fc hc lh ns fs lc sv rv cc cr]; simpl in *. subst.
  rewrite Z.leb_refl, u64_id, if_max by (unfold is_u64; lia). split; simpl; [lia|done|..].
  - rewrite map_app. by apply seqs_snoc.
  - seq_bounds.
  - by rewrite omap_app.
  - apply Forall_app. split; [|constructor; [lia|constructor]]. eapply Forall_le_mono; [|exact H6]. lia.
  - eapply (Forall_le_mono id); [|exact H7]. lia.
  - intros Hc. specialize (H8 Hc). lia.
  - done.
Qed.

Lemma accepted_advance t o :
  accepted_replay o → rp_RecordsVerified o < 2 ^ 64 - 1 →
  accepted_replay (add_advance (rp_RecordsVerified o) t (note_record (rp_RecordsVerified o) o)).
Proof.
  intros [H1 H2 H3 H4 H5 H6 H7 H8 H9] Hn.
  destruct o as [ms ads ord fc hc lh ns fs lc sv rv cc cr]; simpl in *. subst.
  rewrite Z.leb_refl, u64_id, if_max by (unfold is_u64; lia). split; simpl; [lia|done|..].
  - rewrite map_app. by apply seqs_snoc.
  - seq_bounds.
  - rewrite omap_app. simpl. by rewrite app_nil_r.
  - eapply Forall_le_mono; [|exact H6]. lia.
  - apply Forall_app. split; [|constructor; [lia|constructor]]. eapply (Forall_le_mono id); [|exact H7]. lia.
  - intros Hc. specialize (H8 Hc). lia.
  - done.
Qed.

Lemma accepted_checkpoint c o :
  accepted_replay o → rp_RecordsVerified o < 2 ^ 64 - 1 →
  let '(c', o') := clamp_clock c (note_record (rp_RecordsVerified o) o) in
  accepted_replay (set_checkpoint (rp_RecordsVerified o) c' o').
Proof.
  intros [H1 H2 H3 H4 H5 H6 H7 H8 H9] Hn.
  destruct o as [ms ads ord fc hc lh ns fs lc sv rv cc cr]; simpl in *. subst.
  rewrite Z.leb_refl, u64_id by (unfold is_u64; lia). unfold clamp_clock.
  destruct (Z.ltb_spec MaxCredibleClockHigh (wc_ClockHigh c)); simpl; rewrite ?if_max; split; simpl;
    try (first [lia | done | by eapply Forall_seq_mono; [|eassumption]; lia
      | eapply Forall_le_mono; [|exact H6]; lia | eapply (Forall_le_mono id); [|exact H7]; lia]).
Qed.

Lemma replay_payload_accepted typ p o o' :
  accepted_replay o → rp_RecordsVerified o < 2 ^ 64 - 1 →
  replay_payload (rp_RecordsVerified o) typ p (note_record (rp_RecordsVerified o) o) = Ok o' →
  accepted_replay o' ∧ rp_RecordsVerified o' = rp_RecordsVerified o + 1.
Proof.
  intros Ho Hn H. unfold replay_payload in H. apply result_bind_Ok in H as ([typ' p'] & _ & H).
  assert (∀ A f n, rp_RecordsVerified (add_mutation A f n (note_record f o)) = rp_RecordsVerified o + 1) as E1 by by destruct o.
  assert (∀ f n, rp_RecordsVerified (add_advance f n (note_record f o)) = rp_RecordsVerified o + 1) as E2 by by destruct o.
  assert (∀ c, rp_RecordsVerified (clamp_clock c (note_record (rp_RecordsVerified o) o)).2 = rp_RecordsVerified o + 1) as E3.
  { intros c. rewrite clamp_RecordsVerified. by destruct o. }
  assert (∀ s c o1, rp_RecordsVerified (set_checkpoint s c o1) = rp_RecordsVerified o1) as E4 by by intros ?? [].
  unfold replay_record in H. repeat case_match; simplify_eq;
    try (apply result_bind_Ok in H as (m & _ & [= <-]); split; [by apply accepted_mutation|apply E1]);
    try (split; [by apply accepted_advance|apply E2]).
  - pose proof (accepted_checkpoint (mkWALCheckpoint (slice 0 32 p') (replicate 32 0) (be64 32 p') 0 0 false false) o Ho Hn) as Ha.
    rewrite clamp_clock_zero in Ha by done. split; [done|]. rewrite E4. by destruct o.
  - match goal with Hc : clamp_clock ?c _ = (?c', ?o1) |- _ =>
      pose proof (accepted_checkpoint c o Ho Hn) as Ha; pose proof (E3 c) as Er; rewrite Hc in Ha, Er end.
    split; [done|]. by rewrite E4.
Qed.

Lemma replay_payload_fuel seq typ p o : replay_payload seq typ p o ≠ Err ErrOutOfFuel.
Proof.
  unfold replay_payload, unwrapChecksummed, replay_record, decodeMutationPayload, decodeMutationV2Payload.
  repeat (case_match; simplify_eq/=; try done).
Qed.

Lemma replay_loop_accepted fuel bs prev o :
  (length bs < fuel)%nat → accepted_replay o → Z.of_nat (length bs) + rp_RecordsVerified o < 2 ^ 64 - 1 →
  (0 < rp_RecordsVerified o → prev = rp_RecordsVerified o - 1) →
  replay_loop fuel bs prev o ≠ Err ErrOutOfFuel ∧
  ∀ o', replay_loop fuel bs prev o = Ok o' →
    accepted_replay o' ∧ 13 * (rp_RecordsVerified o' - rp_RecordsVerified o) <= Z.of_nat (length bs).
Proof.
  revert bs prev o. induction fuel as [|fuel IH]; intros bs prev o Hf Ho Hn Hp; [lia|]. simpl.
  destruct (Nat.ltb_spec (length bs) 13) as [|Hl]; [split; [done|]; intros o' [= <-]; split; [done|lia]|].
  set (seq := be_get _). set (plen := be_get _). destruct (header_guard seq plen prev o) as [e|] eqn:Hg.
  { split; [|done]. unfold header_guard in Hg. repeat case_match; simplify_eq; done. }
  destruct (_ <? plen); [split; [done|]; intros o' [= <-]; split; [done|lia]|].
  assert (seq = rp_RecordsVerified o) as Hs.
  { pose proof (ar_count o Ho). unfold header_guard in Hg. destruct (_ <? plen); [done|].
    destruct (Z.eqb_spec (rp_RecordsVerified o) 0) as [E|E].
    - destruct (Z.eqb_spec seq 0); [lia|done].
    - rewrite (proj2 (Z.ltb_lt _ _)) in Hg by lia. simpl in Hg. rewrite Hp in Hg by lia.
      rewrite u64_id in Hg by (unfold is_u64; lia). destruct (Z.eqb_spec seq (rp_RecordsVerified o - 1 + 1)); [lia|done]. }
  rewrite Hs. set (rest := drop (Z.to_nat plen) (drop 13 bs)).
  assert (length rest + 13 <= length bs)%nat as Hr by (unfold rest; rewrite !length_drop; lia).
  destruct (replay_payload _ _ _ _) as [o1|e] eqn:E; simpl.
  - apply replay_payload_accepted in E as [Ha Hc]; [|done|lia].
    destruct (IH rest (rp_RecordsVerified o) o1) as [Hne Hok]; [lia|done|lia|lia|].
    split; [done|]. intros o' Ho'. destruct (Hok o' Ho') as [Hacc Hb]. split; [done|]. lia.
  - split; [|done]. intros [= ->]. by eapply replay_payload_fuel.
Qed.

(** ReplayWAL on any file: it terminates; and when it accepts, no record is
    missing.  The sequence numbers of the records it returns ascend strictly
    inside 0 .. RecordsVerified - 1, NextSeq is RecordsVerified, the high-water
    covers every counter, advance and checkpoint it returns, the final
    checkpoint's ClockHigh is at most 2^60 or the high-water, and it has counted
    at most one record per 13 bytes after the header. *)
Theorem replay_accepts_only_contiguous (bs : list Z) :
  Z.of_nat (length bs) < 2 ^ 63 →
  ReplayWAL bs ≠ Err ErrOutOfFuel ∧
  ∀ o, ReplayWAL bs = Ok o →
    accepted_replay o ∧ rp_SeqContiguityVerified o = true ∧
    8 + 13 * rp_RecordsVerified o <= Z.of_nat (length bs).
Proof.
  intros Hn. unfold ReplayWAL. destruct (verifyHeader bs) as [e|] eqn:Hh.
  { split; [|done]. unfold verifyHeader in Hh. repeat case_match; simplify_eq; done. }
  assert (8 <= length bs)%nat as Hl.
  { unfold verifyHeader in Hh. destruct (Nat.ltb_spec (length bs) 8); [done|lia]. }
  assert (accepted_replay emptyReplayed) as He by (split; simpl; try done; constructor).
  destruct (replay_loop_accepted (S (length bs)) (drop 8 bs) 0 emptyReplayed) as [Hf Ha];
    [rewrite length_drop; lia|done|rewrite length_drop; simpl; lia|simpl; lia|].
  destruct (replay_loop _ _ _ _) as [o|e]; simpl; [|by split; [congruence|]].
  split; [done|]. intros o' [= <-]. destruct (Ha o eq_refl) as [Hacc Hb]. rewrite length_drop in Hb.
  destruct Hacc. destruct o; simpl in *. split_and!; [by split|done|lia].
Qed.
