(* ===== verification/WalDurable.v ===== *)
(** Crash safety of the write-ahead log: any number of goroutines append under
    the log's mutex and fsync outside it, the process crashes at any point, the
    file loses any part of what no fsync covered, and the log is opened again.
    Every record whose append returned nil is replayed after every later crash. *)
From S2P Require Import Prelude Bytes Crc32c Dots Wal WalLog WalReplay.

#[local] Arguments rec_bytes : simpl never.

(** ** Cutting a log file *)

Lemma log_bytes_app k l1 l2 : log_bytes k (l1 ++ l2) = log_bytes k l1 ++ log_bytes (k + length l1) l2.
Proof.
  revert k. induction l1 as [|x l1 IH]; intros k; simpl; [by rewrite Nat.add_0_r|].
  rewrite IH, <- (assoc_L (++)). do 3 f_equal. lia.
Qed.

Lemma log_file_app l1 l2 : log_file (l1 ++ l2) = log_file l1 ++ log_bytes (length l1) l2.
Proof. unfold log_file. by rewrite log_bytes_app, (assoc_L (++)). Qed.

(** A cut log is some whole records and a torn one; every record that ends
    before the cut is whole. *)
Lemma cut_log_bytes k l n :
  sized_log l → ∃ j tail, (j <= length l)%nat ∧ torn (k + j) tail ∧
    take n (log_bytes k l) = log_bytes k (take j l) ++ tail ∧
    ∀ i, (i <= length l)%nat → (length (log_bytes k (take i l)) <= n)%nat → (i <= j)%nat.
Proof.
  intros Hl. revert k n. induction Hl as [|x l Hx Hl IH]; intros k n; simpl.
  - exists O, []. rewrite take_nil. split_and!; [done|apply torn_nil|done|lia].
  - destruct (Nat.lt_ge_cases n (length (rec_bytes k x))) as [Hn|Hn].
    + exists O, (take n (rec_bytes k x)). split_and!; [lia| |by rewrite take_app_le by lia|].
      * destruct (rec_bytes_encode k x Hx) as (typ & p & E & Hp & _). rewrite E in Hn |- *.
        rewrite length_encodeRecord in Hn. exists typ, p, n. by rewrite Nat.add_0_r.
      * intros [|i] _; [lia|]. simpl. rewrite length_app. lia.
    + destruct (IH (S k) (n - length (rec_bytes k x))%nat) as (j & tail & Hj & Ht & E & Hmax).
      exists (S j), tail. rewrite Nat.add_succ_r. split_and!; [lia|done| |].
      * rewrite take_app_ge, E by done. simpl. by rewrite (assoc_L (++)).
      * intros [|i] Hi; [lia|]. simpl. rewrite length_app. intros Hin.
        assert (i <= j)%nat; [|lia]. apply Hmax; lia.
Qed.

Lemma cut_log_file l tail n :
  sized_log l → torn (length l) tail → (8 <= n)%nat →
  ∃ j tail', (j <= length l)%nat ∧ torn j tail' ∧ take n (log_file l ++ tail) = log_file (take j l) ++ tail' ∧
    ∀ i, (i <= length l)%nat → (length (log_file (take i l)) <= n)%nat → (i <= j)%nat.
Proof.
  intros Hl Ht Hn. destruct (Nat.lt_ge_cases n (length (log_file l))) as [Hlt|Hge].
  - destruct (cut_log_bytes 0 l (n - 8) Hl) as (j & tail' & Hj & Ht' & E & Hmax).
    exists j, tail'. split_and!; [done|done| |].
    + rewrite take_app_le by lia. unfold log_file in *. rewrite take_app_ge by done.
      change (length walHeader) with 8%nat. by rewrite E, (assoc_L (++)).
    + intros i Hi Hin. apply Hmax; [done|]. unfold log_file in Hin. rewrite length_app in Hin.
      change (length walHeader) with 8%nat in Hin. lia.
  - exists (length l), (take (n - length (log_file l)) tail). split_and!; [done|by apply torn_take| |done].
    by rewrite take_app_ge, firstn_all by done.
Qed.

(** ** The system *)

(** What a client asks of the log. *)
Inductive call :=
| CallMutation (m : WALMutation)
| CallMutations (ms : list WALMutation)
| CallCheckpoint (c : WALCheckpoint)
| CallClockAdvance (advancedTo : Z).

Definition call_records (c : call) : list logrec :=
  match c with
  | CallMutation m => [LMutation m]
  | CallMutations ms => map LMutation ms
  | CallCheckpoint c => [LCheckpoint c]
  | CallClockAdvance t => [LClockAdvance t]
  end.

(** The critical section of the call; [rs] are the outcomes of its writes. *)
Definition run_locked (c : call) (rs : nat → wres) (s : File * WAL) : File * WAL * option WALError :=
  match c with
  | CallMutation m => AppendMutation_locked m (rs O) s
  | CallMutations ms =>
      let '(s', _, e) := AppendMutations_locked 0 (imap (λ i m, (m, rs i)) ms) s in (s', e)
  | CallCheckpoint c => AppendCheckpoint_locked c (rs O) s
  | CallClockAdvance t => AppendClockAdvance_locked t (rs O) s
  end.

(** [y_wal] is the open log, if the process is up; [y_pending] the calls between
    their unlock and the end of their fsync, and [y_acked] the records whose call
    has returned nil, each with the sequence number it was stamped with. *)
Record wal_sys := mkSys {
  y_file : File;
  y_wal : option WAL;
  y_pending : list (list (nat * logrec));
  y_acked : list (nat * logrec);
}.

(** A failed write stores nothing. *)
Definition clean (r : wres) : Prop := r = WrOk ∨ r = WrShort 0.

Definition stamped (seq : Z) (rs : list logrec) : list (nat * logrec) :=
  imap (λ i r, ((Z.to_nat seq + i)%nat, r)) rs.

Inductive wal_step : wal_sys → wal_sys → Prop :=
(* a call's critical section; it goes on to its fsync unless it failed *)
| ws_append c rs f w pend ack f' w' err :
    Forall sized_rec (call_records c) → (∀ i, clean (rs i)) →
    run_locked c rs (f, w) = (f', w', err) → Z.of_nat (length (fdata f')) < 2 ^ 63 →
    wal_step (mkSys f (Some w) pend ack)
      (mkSys f' (Some w')
         (match err with None => stamped (nextSeq w) (call_records c) :: pend | Some _ => pend end) ack)
(* a pending fsync ends; the call returns nil when it succeeded *)
| ws_sync f w p1 b p2 ack ok f' err :
    syncFile (w_f w) ok f = (f', err) →
    wal_step (mkSys f (Some w) (p1 ++ b :: p2) ack)
      (mkSys f' (Some w) (p1 ++ p2) (match err with None => b ++ ack | Some _ => ack end))
(* the process closes the log: fsyncs still pending fail on the closed handle *)
| ws_close f w pend ack ok f' w' :
    WAL_Close ok (f, w) = (f', w') → wal_step (mkSys f (Some w) pend ack) (mkSys f' None [] ack)
(* a crash: the file keeps any prefix that has all that was fsynced *)
| ws_crash f w pend ack n :
    (durable f <= n)%nat →
    wal_step (mkSys f w pend ack)
      (mkSys (mkFile (take n (fdata f)) (length (take n (fdata f)))) None [] ack)
(* the log is opened again *)
| ws_open f pend ack io f' w :
    OpenWAL io f = (f', Ok w) → wal_step (mkSys f None pend ack) (mkSys f' (Some w) pend ack).

(** The log is created on an empty file. *)
Inductive wal_init : wal_sys → Prop :=
| wi_create io f w : OpenWAL io (mkFile [] 0) = (f, Ok w) → wal_init (mkSys f (Some w) [] []).

Definition wal_reachable (s : wal_sys) : Prop := ∃ s0, wal_init s0 ∧ rtc wal_step s0 s.

(** ** Critical sections append whole records *)

Definition framed (l : list logrec) : list frec := map (pair true) l.

Lemma framed_app l1 l2 : framed (l1 ++ l2) = framed l1 ++ framed l2.
Proof. apply map_app. Qed.
Lemma length_framed l : length (framed l) = length l.
Proof. apply length_map. Qed.
Lemma framed_take n l : framed (take n l) = take n (framed l).
Proof. unfold framed. symmetry. apply firstn_map. Qed.
Lemma framed_sized l : Forall sized_rec l → sized_log (framed l).
Proof. intros H. unfold sized_log, framed. by apply Forall_fmap. Qed.

(** The file ends with the last record of [l] and the handle stands there. *)
Definition at_end (l : list logrec) (f : File) (w : WAL) : Prop :=
  fdata f = log_file (framed l) ∧ w_f w = Some (length (fdata f)) ∧ nextSeq w = Z.of_nat (length l).

Lemma write_at_end bs old : write_at (length old) bs old = old ++ bs.
Proof.
  unfold write_at. rewrite firstn_all, Nat.sub_diag, drop_ge by lia. simpl. by rewrite app_nil_r.
Qed.

Lemma write_record_clean l r x f w f' w' err :
  at_end l f w → clean r → write_record (rec_bytes (length l) (true, x)) r (f, w) = (f', w', err) →
  Z.of_nat (length (fdata f')) < 2 ^ 63 →
  durable f' = durable f ∧
  match err with None => at_end (l ++ [x]) f' w' | Some _ => at_end l f' w' end.
Proof.
  intros (Hf & Hw & Hn) Hr H Hsz. unfold write_record in H. rewrite Hw in H.
  destruct Hr as [->| ->]; cbn [file_write take] in H; injection H as <- <- <-; cbn [fdata] in Hsz;
    (split; [done|]); unfold at_end; cbn [fdata w_f nextSeq]; rewrite write_at_end in *.
  - split_and!.
    + rewrite Hf, framed_app, log_file_app, length_framed. simpl. by rewrite app_nil_r.
    + exact (f_equal Some (eq_sym (length_app (fdata f) (rec_bytes (length l) (true, x))))).
    + pose proof (length_log_bytes 0 (framed l)) as Hl. rewrite Hn, length_app. rewrite Hf in Hsz.
      unfold log_file in Hsz. rewrite !length_app, length_framed in *.
      rewrite u64_id by (unfold is_u64; lia). simpl. lia.
  - rewrite app_nil_r, Nat.add_0_r. by split_and!.
Qed.

(** A critical section appends a prefix of the call's records, all of them when
    it succeeds. *)
Definition appended (l : list logrec) (rs : list logrec) (f f' : File) (w' : WAL) (err : option WALError) : Prop :=
  durable f' = durable f ∧ ∃ added, at_end (l ++ added) f' w' ∧ added `prefix_of` rs ∧ (err = None → added = rs).

Lemma appended_none l rs f w err : at_end l f w → err ≠ None → appended l rs f f w err.
Proof. intros H He. split; [done|]. exists []. rewrite app_nil_r. split_and!; [done|apply prefix_nil|done]. Qed.

Lemma appended_one l x r f w f' w' err :
  at_end l f w → clean r → write_record (rec_bytes (length l) (true, x)) r (f, w) = (f', w', err) →
  Z.of_nat (length (fdata f')) < 2 ^ 63 → appended l [x] f f' w' err.
Proof.
  intros Ha Hr H Hsz. destruct (write_record_clean _ _ _ _ _ _ _ _ Ha Hr H Hsz) as [Hd He]. split; [done|].
  destruct err; [exists []|exists [x]]; rewrite ?app_nil_r; (split_and!; [done| |done]); [apply prefix_nil|done].
Qed.

Lemma AppendMutation_locked_appends l m r f w f' w' err :
  at_end l f w → clean r → AppendMutation_locked m r (f, w) = (f', w', err) →
  Z.of_nat (length (fdata f')) < 2 ^ 63 → appended l [LMutation m] f f' w' err.
Proof.
  intros Ha Hr H Hsz. unfold AppendMutation_locked in H.
  destruct (validateV2 m); [injection H as <- <- <-; by apply appended_none|].
  pose proof Ha as (_ & _ & Hn). cbn [snd] in H. rewrite Hn in H.
  exact (appended_one l (LMutation m) r f w f' w' err Ha Hr H Hsz).
Qed.

Lemma write_record_grows rec r f w f' w' err :
  w_f w = Some (length (fdata f)) → write_record rec r (f, w) = (f', w', err) →
  (length (fdata f) <= length (fdata f'))%nat ∧ w_f w' = Some (length (fdata f')).
Proof.
  intros Hw H. unfold write_record in H. rewrite Hw in H.
  destruct r; simpl in H; injection H as <- <- <-; simpl; rewrite write_at_end, length_app; split; lia || done.
Qed.

Lemma AppendMutations_locked_grows ms i f w f' w' j err :
  w_f w = Some (length (fdata f)) → AppendMutations_locked i ms (f, w) = (f', w', j, err) →
  (length (fdata f) <= length (fdata f'))%nat.
Proof.
  revert i f w. induction ms as [|[m r] ms IH]; intros i f w Hw H; simpl in H; [by injection H as <- <- <- <-|].
  destruct (AppendMutation_locked m r (f, w)) as [[f1 w1] [e|]] eqn:E; unfold AppendMutation_locked in E;
    destruct (validateV2 m); try (by injection E as <- <- <-; injection H as <- <- <- <-); try done.
  all: apply write_record_grows in E as [Hg Hw1]; [|done].
  - injection H as <- <- <- <-. done.
  - apply IH in H; [lia|done].
Qed.

Lemma AppendMutations_locked_appends ms i l f w f' w' j err :
  at_end l f w → Forall (λ x, clean x.2) ms → AppendMutations_locked i ms (f, w) = (f', w', j, err) →
  Z.of_nat (length (fdata f')) < 2 ^ 63 → appended l (map LMutation (map fst ms)) f f' w' err.
Proof.
  intros Ha Hc. revert i l f w Ha. induction Hc as [|[m r] ms Hr Hc IH]; intros i l f w Ha H Hsz; simpl in *.
  - injection H as <- <- <- <-. split; [done|]. exists []. by rewrite app_nil_r.
  - destruct (AppendMutation_locked m r (f, w)) as [[f1 w1] err1] eqn:E.
    assert (Z.of_nat (length (fdata f1)) < 2 ^ 63) as Hsz1.
    { destruct err1; [by injection H as <- <- <- <-|].
      apply AppendMutations_locked_grows in H; [lia|]. unfold AppendMutation_locked in E.
      destruct (validateV2 m); [done|]. apply write_record_grows in E as [_ ?]; [done|apply Ha]. }
    destruct (AppendMutation_locked_appends _ _ _ _ _ _ _ _ Ha Hr E Hsz1) as (Hd & added & He & Hp & Hall).
    destruct err1 as [e|].
    + injection H as <- <- <- <-. split; [done|]. exists added. split_and!; [done| |done].
      by apply (prefix_app_r _ [_]).
    + rewrite Hall in He by done. destruct (IH _ _ _ _ He H Hsz) as (Hd2 & added2 & He2 & Hp2 & Hall2).
      split; [congruence|]. exists (LMutation m :: added2). rewrite <- (assoc_L (++)) in He2.
      split_and!; [done|by apply prefix_cons|]. intros Hn. by rewrite Hall2.
Qed.

Lemma run_locked_appends c rs l f w f' w' err :
  at_end l f w → (∀ i, clean (rs i)) → run_locked c rs (f, w) = (f', w', err) →
  Z.of_nat (length (fdata f')) < 2 ^ 63 → appended l (call_records c) f f' w' err.
Proof.
  intros Ha Hc H Hsz. destruct c as [m|ms|c|t]; cbn [run_locked call_records] in *.
  - by eapply AppendMutation_locked_appends.
  - destruct (AppendMutations_locked _ _ _) as [[[f1 w1] j] e] eqn:E. injection H as <- <- <-.
    replace ms with (map fst (imap (λ i m, (m, rs i)) ms)) at 1.
    + eapply AppendMutations_locked_appends; [done| |done|done]. apply Forall_lookup. intros i [m r].
      rewrite list_lookup_imap. intros (m' & _ & [= -> ->])%fmap_Some. apply Hc.
    + apply list_eq. intros i. rewrite list_lookup_fmap, list_lookup_imap. by destruct (ms !! i).
  - pose proof Ha as (_ & _ & Hn). unfold AppendCheckpoint_locked in H. cbn [snd] in H.
    rewrite Hn in H. replace (encodeCheckpointChecksummed (Z.of_nat (length l)) c)
      with (rec_bytes (length l) (true, LCheckpoint c)) in H.
    + exact (appended_one l (LCheckpoint c) (rs O) f w f' w' err Ha (Hc O) H Hsz).
    + unfold rec_bytes, encodeCheckpointChecksummed, rec_type, rec_payload. cbn [fst snd]. by destruct (wc_HasCutSeq c).
  - pose proof Ha as (_ & _ & Hn). unfold AppendClockAdvance_locked in H. cbn [snd] in H. rewrite Hn in H.
    exact (appended_one l (LClockAdvance t) (rs O) f w f' w' err Ha (Hc O) H Hsz).
Qed.

(** ** The invariant *)

#[local] Ltac ysimpl := cbn [y_file y_wal y_pending y_acked fdata durable file_sync] in *.

Record winv (s : wal_sys) (l : list logrec) : Prop := {
  wi_sized : Forall sized_rec l;
  wi_size : Z.of_nat (length (fdata (y_file s))) < 2 ^ 63;
  wi_durable : (8 <= durable (y_file s) <= length (fdata (y_file s)))%nat;
  wi_file : ∃ tail, fdata (y_file s) = log_file (framed l) ++ tail ∧ torn (length l) tail;
  wi_wal : ∀ w, y_wal s = Some w → at_end l (y_file s) w;
  wi_pending : ∀ b i r, b ∈ y_pending s → (i, r) ∈ b → l !! i = Some r;
  wi_acked : ∀ i r, (i, r) ∈ y_acked s →
    l !! i = Some r ∧ (length (log_file (framed (take (S i) l))) <= durable (y_file s))%nat;
}.

Lemma log_length_bound (l : list frec) tail :
  Z.of_nat (length (log_file l ++ tail)) < 2 ^ 63 → Z.of_nat (length l) < 2 ^ 63.
Proof.
  unfold log_file. pose proof (length_log_bytes 0 l). rewrite !length_app in *. lia.
Qed.

Lemma framed_prefix_length j l : (length (log_file (framed (take j l))) <= length (log_file (framed l)))%nat.
Proof. rewrite <- (take_drop j l) at 2. rewrite framed_app, log_file_app, length_app. lia. Qed.

Lemma elem_of_stamped seq rs i r : (i, r) ∈ stamped seq rs → ∃ j, i = (Z.to_nat seq + j)%nat ∧ rs !! j = Some r.
Proof.
  intros (j & Hj)%list_elem_of_lookup. unfold stamped in Hj. rewrite list_lookup_imap in Hj.
  apply fmap_Some in Hj as (r' & Hr & [= -> ->]). by exists j.
Qed.

Lemma winv_append c rs f w pend ack f' w' err l :
  winv (mkSys f (Some w) pend ack) l → Forall sized_rec (call_records c) → (∀ i, clean (rs i)) →
  run_locked c rs (f, w) = (f', w', err) → Z.of_nat (length (fdata f')) < 2 ^ 63 →
  ∃ added, added `prefix_of` call_records c ∧ winv (mkSys f' (Some w')
    (match err with None => stamped (nextSeq w) (call_records c) :: pend | Some _ => pend end) ack) (l ++ added).
Proof.
  intros [Hs Hz Hd Hf Hw Hp Ha] Hc Hr H Hsz. ysimpl. pose proof (Hw w eq_refl) as (Ef & Ew & En).
  destruct (run_locked_appends c rs l f w f' w' err (Hw w eq_refl) Hr H Hsz) as (Hd' & added & He & Hpre & Hall).
  exists added. split; [done|]. split; ysimpl.
  - apply Forall_app. split; [done|]. destruct Hpre as [k Hk]. rewrite Hk in Hc. by apply Forall_app in Hc as [? _].
  - done.
  - rewrite Hd'. destruct He as (-> & _). rewrite framed_app, log_file_app, length_app, <- Ef. lia.
  - exists []. rewrite app_nil_r. split; [apply He|apply torn_nil].
  - by intros ? [= <-].
  - assert (∀ i r, l !! i = Some r → (l ++ added) !! i = Some r) as Hl by (intros; by apply lookup_app_l_Some).
    destruct err; [by eauto|]. intros b i r [->|Hb]%elem_of_cons Hin; [|by eauto].
    apply elem_of_stamped in Hin as (j & -> & Hj). rewrite En, Nat2Z.id, Hall by done.
    rewrite lookup_app_r by lia. by rewrite Nat.add_comm, Nat.add_sub.
  - intros i r Hin. destruct (Ha i r Hin) as [Hi Hdur]. split; [by apply lookup_app_l_Some|].
    apply lookup_lt_Some in Hi. rewrite take_app_le, Hd' by lia. done.
Qed.

Lemma winv_sync f w p1 b p2 ack ok f' err l :
  winv (mkSys f (Some w) (p1 ++ b :: p2) ack) l → syncFile (w_f w) ok f = (f', err) →
  winv (mkSys f' (Some w) (p1 ++ p2) (match err with None => b ++ ack | Some _ => ack end)) l.
Proof.
  intros [Hs Hz Hd Hf Hw Hp Ha] H. ysimpl. pose proof (Hw w eq_refl) as (Ef & Ew & En).
  assert (∀ b', b' ∈ p1 ++ p2 → b' ∈ p1 ++ b :: p2) as Hsub.
  { intros b'. rewrite !elem_of_app, elem_of_cons. tauto. }
  unfold syncFile in H. rewrite Ew in H. destruct ok; injection H as <- <-; [|by split; eauto].
  split; ysimpl; [done|done|lia|done|by intros ? [= <-]|by eauto|].
  intros i r. rewrite elem_of_app. intros Hin. assert (l !! i = Some r) as Hi.
  { destruct Hin as [Hin|Hin]; [|by apply Ha]. eapply Hp; [|exact Hin]. rewrite elem_of_app, elem_of_cons. tauto. }
  split; [done|]. rewrite Ef. apply framed_prefix_length.
Qed.

(** A crash leaves a log that still has every acked record. *)
Lemma winv_image f w pend ack l n :
  winv (mkSys f w pend ack) l → (durable f <= n)%nat →
  ∃ l' tail, l' `prefix_of` l ∧ Forall sized_rec l' ∧ take n (fdata f) = log_file (framed l') ++ tail ∧ torn (length l') tail ∧
    ∀ i r, (i, r) ∈ ack → l' !! i = Some r.
Proof.
  intros [Hs Hz Hd (tail & Ef & Ht) Hw Hp Ha] Hn. ysimpl. rewrite <- (length_framed l) in Ht.
  destruct (cut_log_file (framed l) tail n) as (j & tail' & Hj & Ht' & E & Hmax); [by apply framed_sized|done|lia|].
  exists (take j l), tail'. rewrite length_framed in *. rewrite length_take, Nat.min_l by lia. split_and!.
  - apply prefix_take.
  - by apply Forall_take.
  - by rewrite Ef, E, framed_take.
  - done.
  - intros i r Hin. destruct (Ha i r Hin) as [Hi Hdur]. pose proof (lookup_lt_Some _ _ _ Hi) as Hlt.
    rewrite lookup_take_lt; [done|]. assert (S i <= j)%nat; [|lia]. apply Hmax; [lia|].
    rewrite <- framed_take. lia.
Qed.

Lemma winv_crash f w pend ack l n :
  winv (mkSys f w pend ack) l → (durable f <= n)%nat →
  ∃ l', l' `prefix_of` l ∧ winv (mkSys (mkFile (take n (fdata f)) (length (take n (fdata f)))) None [] ack) l'.
Proof.
  intros Hi Hn. destruct (winv_image f w pend ack l n Hi Hn) as (l' & tail & Hpre & Hs & E & Ht & Ha).
  destruct Hi as [_ Hz Hd _ _ _ _]. ysimpl. exists l'. split; [done|]. split; ysimpl; [done|..].
  - rewrite length_take. lia.
  - rewrite length_take. lia.
  - by exists tail.
  - done.
  - by intros b i r ?%elem_of_nil.
  - intros i r Hin. split; [by apply Ha|]. rewrite E, length_app.
    pose proof (framed_prefix_length (S i) l'). lia.
Qed.

(** Opening a log: truncated to its whole records, when the truncation works. *)
Lemma OpenWAL_log io f (l : list frec) tail :
  sized_log l → fdata f = log_file l ++ tail → torn (length l) tail → Z.of_nat (length (fdata f)) < 2 ^ 63 →
  OpenWAL io f =
    if oi_truncate io
    then (mkFile (log_file l) (Nat.min (durable f) (length (log_file l))),
          Ok (mkWAL (Some (length (log_file l))) (Z.of_nat (length l))))
    else (f, Err ErrTruncate).
Proof.
  intros Hs E Ht Hz. unfold OpenWAL. rewrite E in Hz |- *. pose proof (log_length_bound _ _ Hz) as Hn.
  destruct (scanRecords_log l tail) as (sc & Esc & En & Eg); [done|done|lia|].
  replace (length (log_file l ++ tail) =? 0)%nat with false
    by (symmetry; apply Nat.eqb_neq; unfold log_file; rewrite !length_app; simpl; lia).
  rewrite Esc, Eg, En. unfold log_file at 1. rewrite <- (assoc_L (++)), verify_walHeader.
  by rewrite take_app_length.
Qed.

Lemma OpenWAL_framed io f l tail :
  Forall sized_rec l → fdata f = log_file (framed l) ++ tail → torn (length l) tail →
  Z.of_nat (length (fdata f)) < 2 ^ 63 →
  OpenWAL io f =
    if oi_truncate io
    then (mkFile (log_file (framed l)) (Nat.min (durable f) (length (log_file (framed l)))),
          Ok (mkWAL (Some (length (log_file (framed l)))) (Z.of_nat (length l))))
    else (f, Err ErrTruncate).
Proof.
  intros Hs E Ht Hz. rewrite <- (length_framed l). apply (OpenWAL_log io f (framed l) tail);
    [by apply framed_sized|done|by rewrite length_framed|done].
Qed.

Lemma winv_open f pend ack io f' w l :
  winv (mkSys f None pend ack) l → OpenWAL io f = (f', Ok w) → winv (mkSys f' (Some w) pend ack) l.
Proof.
  intros [Hs Hz Hd (tail & Ef & Ht) Hw Hp Ha] H. ysimpl.
  rewrite (OpenWAL_framed io f l tail Hs Ef Ht Hz) in H. destruct (oi_truncate io); [|done]. injection H as <- <-.
  split; ysimpl; [done|..].
  - rewrite Ef, length_app in Hz. lia.
  - unfold log_file. rewrite length_app. change (length walHeader) with 8%nat. lia.
  - exists []. rewrite app_nil_r. split; [done|apply torn_nil].
  - by intros ? [= <-].
  - done.
  - intros i r Hin. destruct (Ha i r Hin) as [Hi Hdur]. split; [done|].
    pose proof (framed_prefix_length (S i) l) as Hpre.
    unfold log_file in *. rewrite !length_app in *. change (length walHeader) with 8%nat in *. lia.
Qed.

Lemma winv_close f w pend ack ok f' w' l :
  winv (mkSys f (Some w) pend ack) l → WAL_Close ok (f, w) = (f', w') → winv (mkSys f' None [] ack) l.
Proof.
  intros [Hs Hz Hd Hf Hw Hp Ha] H. unfold WAL_Close in H. ysimpl.
  pose proof (Hw w eq_refl) as (_ & Ew & _). rewrite Ew in H. injection H as <- <-.
  destruct ok; split; ysimpl; try done; try lia; try (by intros ??? ?%elem_of_nil).
  intros i r Hin. destruct (Ha i r Hin). split; [done|lia].
Qed.

Lemma winv_step s s' l : wal_step s s' → winv s l → ∃ l', winv s' l'.
Proof.
  destruct 1 as [c rs f w pend ack f' w' err H1 H2 H3 H4|f w p1 b p2 ack ok f' err H|f w pend ack ok f' w' H
                |f w pend ack n H|f pend ack io f' w H]; intros Hi.
  - destruct (winv_append _ _ _ _ _ _ _ _ _ _ Hi H1 H2 H3 H4) as (added & _ & ?). by eexists.
  - exists l. by eapply winv_sync.
  - exists l. by eapply winv_close.
  - destruct (winv_crash _ _ _ _ _ _ Hi H) as (l' & _ & ?). by eexists.
  - exists l. by eapply winv_open.
Qed.

Lemma winv_init s : wal_init s → winv s [].
Proof.
  intros [io f w H]. unfold OpenWAL in H. simpl in H. destruct (oi_write io); [|done]. simpl in H.
  destruct (oi_sync io); [|done]. injection H as <- <-. split; ysimpl; try done; try lia.
  - exists []. split; [done|apply torn_nil].
  - by intros ? [= <-].
  - by intros ??? ?%elem_of_nil.
  - by intros ?? ?%elem_of_nil.
Qed.

Lemma winv_reachable s : wal_reachable s → ∃ l, winv s l.
Proof.
  intros (s0 & H0 & Hr). assert (∃ l, winv s0 l) as Hl by (exists []; by apply winv_init). clear H0.
  induction Hr as [s|s s1 s2 Hs _ IH]; [done|]. apply IH. destruct Hl as [l Hl]. by eapply winv_step.
Qed.

(** C17. No acknowledged record is ever lost.  In every state reachable by
    appends of any kind (single, batch, checkpoint, clock advance) whose
    critical sections and fsyncs interleave in any order, whose writes and
    fsyncs may fail, by closes, crashes and reopenings: whatever prefix of the
    file a crash leaves beyond what was fsynced, ReplayWAL accepts it and
    returns a log with every record whose call returned nil, at the sequence
    number it was stamped with, and OpenWAL can resume it with the sequence
    number replay ends at.  (A write that fails stores no bytes; records are
    within the length bound.) *)
Theorem acked_records_survive (s : wal_sys) (n : nat) :
  wal_reachable s → (durable (y_file s) <= n)%nat →
  let image := take n (fdata (y_file s)) in
  ∃ l o, ReplayWAL image = Ok o ∧ replays (framed l) o ∧
    (∀ i r, (i, r) ∈ y_acked s → l !! i = Some r) ∧
    (∀ io, oi_truncate io = true → ∃ f' w, OpenWAL io (mkFile image (length image)) = (f', Ok w) ∧
       nextSeq w = rp_NextSeq o ∧ fdata f' = log_file (framed l)).
Proof.
  intros (l0 & Hi)%winv_reachable Hn image. destruct s as [f w pend ack]. ysimpl.
  pose proof (wi_size _ _ Hi) as Hz. ysimpl.
  destruct (winv_image f w pend ack l0 n Hi Hn) as (l & tail & _ & Hs & E & Ht & Ha).
  assert (Z.of_nat (length image) < 2 ^ 63) as Hz' by (unfold image; rewrite length_take; lia).
  pose proof Hz' as Hl. unfold image in Hl. rewrite E in Hl. apply log_length_bound in Hl. rewrite length_framed in Hl.
  exists l, (replay_log (framed l)).
  assert (replays (framed l) (replay_log (framed l))) as Hrep by (apply replay_log_replays; rewrite length_framed; lia).
  split_and!; [|done|done|].
  - unfold image. rewrite E. apply ReplayWAL_log; [by apply framed_sized|by rewrite length_framed|rewrite length_framed; lia].
  - intros io Hio. rewrite (OpenWAL_framed io (mkFile image (length image)) l tail Hs E Ht Hz'), Hio.
    eexists _, _. split_and!; [done| |done]. by rewrite (rs_next _ _ Hrep), length_framed.
Qed.

(** * Two ways a log stops replaying although every append that wrote to it
    returned nil, and the write-ahead log's properties at concrete logs. *)

Definition io_ok : open_io := mkOpenIO WrOk true true.

(** A fresh log. *)
Definition fresh : File * WAL :=
  match OpenWAL io_ok (mkFile [] 0) with (f, Ok w) => (f, w) | (f, Err _) => (f, mkWAL None 0) end.

Definition replays_advance (t : Z) (r : result WALError Replayed) : bool :=
  match r with Ok o => bool_decide (t ∈ rp_Advances o) | Err _ => false end.

(** ** A write that fails half way *)

Definition short_then_ok (n : nat) : File * WAL * option WALError :=
  let '(s1, _) := AppendClockAdvance 7 (WrShort n) true fresh in AppendClockAdvance 9 WrOk true s1.

Definition strands (n : nat) : bool :=
  match short_then_ok n with
  | (f, w, None) => negb (replays_advance 9 (ReplayWAL (fdata f)))
  | _ => false
  end.

Lemma strands_all : forallb strands (seq 1 25) = true.
Proof. vm_compute. reflexivity. Qed.

(** A short write strands what is acknowledged after it: when a clock-advance
    append fails after writing some but not all of its 26 bytes, the file offset
    has moved past them, and the next append, although it returns nil, is not
    replayed. *)
Theorem short_write_strands_acked (n : nat) :
  (0 < n < 26)%nat →
  ∃ f1 w1 f2 w2,
    AppendClockAdvance 7 (WrShort n) true fresh = (f1, w1, Some ErrWrite) ∧
    AppendClockAdvance 9 WrOk true (f1, w1) = (f2, w2, None) ∧
    replays_advance 9 (ReplayWAL (fdata f2)) = false.
Proof.
  intros Hn. pose proof strands_all as H. rewrite forallb_forall in H. specialize (H n).
  assert (strands n = true) as E by (apply H, in_seq; lia). clear H. unfold strands, short_then_ok in E.
  destruct (AppendClockAdvance 7 (WrShort n) true fresh) as [[f1 w1] e1] eqn:E1.
  destruct (AppendClockAdvance 9 WrOk true (f1, w1)) as [[f2 w2] [e2|]] eqn:E2; [done|].
  exists f1, w1, f2, w2. apply negb_true_iff in E. split_and!; [|done|done].
  rewrite <- E1. unfold AppendClockAdvance, AppendClockAdvance_locked, write_record in E1 |- *. simpl in E1 |- *.
  injection E1 as <- <- <-. done.
Qed.

(** ** An entity id the replay bound refuses *)

(** The record of a mutation whose framed payload is over the bound. *)
Lemma length_framed_mutation m :
  sized_entry (wm_Full m) → length (wm_NodeID m) = 16%nat →
  Z.of_nat (length (checksummed WALRecMutationV2 (putMutationV2Payload m))) =
    153 + Z.of_nat (length (string_bytes (wm_EntityID m))).
Proof.
  intros Hf Hn. pose proof (length_encodeCRDTEntry _ Hf) as E. unfold crdtEntryWireLen in E.
  unfold checksummed, putMutationV2Payload, length_prefixed. simpl length. len.
Qed.

(** The append side has no length bound: a mutation whose entity id is long
    enough to put its record over 4 MiB is accepted and acknowledged, and the
    log, whatever it held, is refused by every later replay. *)
Theorem oversized_mutation_bricks_log (l : list logrec) (f : File) (w : WAL) (m : WALMutation) :
  Forall sized_rec l → at_end l f w → Z.of_nat (length l) < 2 ^ 63 →
  validateV2 m = None → sized_entry (wm_Full m) → length (wm_NodeID m) = 16%nat →
  maxRecordPayloadLen < 153 + Z.of_nat (length (string_bytes (wm_EntityID m))) < 2 ^ 32 →
  ∃ f' w', AppendMutation m WrOk true (f, w) = (f', w', None) ∧
    ReplayWAL (fdata f') =
      Err (ErrPayloadLength (153 + Z.of_nat (length (string_bytes (wm_EntityID m)))) (Z.of_nat (length l))).
Proof.
  intros Hs (Ef & Ew & En) Hl Hv Hf Hn Hm. unfold AppendMutation, AppendMutation_locked. rewrite Hv. cbn [snd].
  unfold write_record. rewrite Ew, En. cbn [file_write then_sync syncFile w_f]. rewrite write_at_end.
  eexists _, _. split; [done|]. cbn [fdata file_sync]. rewrite Ef.
  unfold encodeMutationV2Checksummed, frameChecksummed.
  set (p := checksummed _ _). assert (Z.of_nat (length p) = 153 + Z.of_nat (length (string_bytes (wm_EntityID m)))) as Ep
    by by apply length_framed_mutation.
  unfold ReplayWAL, log_file. rewrite <- (assoc_L (++)), verify_walHeader, drop_walHeader.
  pose proof (length_log_bytes 0 (framed l)) as Hb. rewrite length_framed in Hb.
  destruct (replay_loop_prefix (framed l) 0 (encodeRecord (Z.of_nat (length l)) WALRecChecksummed p)
    (S (length (walHeader ++ log_bytes 0 (framed l) ++ encodeRecord (Z.of_nat (length l)) WALRecChecksummed p))) 0 emptyReplayed)
    as (prev & Ha & ->); [by apply framed_sized|rewrite length_framed; lia|rewrite !length_app, length_framed; lia|by split|].
  destruct (_ - _)%nat as [|fuel] eqn:Efuel; [rewrite !length_app, length_framed in Efuel; lia|].
  destruct (header_whole (Z.of_nat (length l)) WALRecChecksummed p []) as (H1 & _ & H3 & _); [unfold is_u64; lia|lia|].
  rewrite app_nil_r in H1, H3. cbn [replay_loop]. rewrite (proj2 (Nat.ltb_ge _ _)) by (rewrite length_encodeRecord; lia).
  rewrite H1, H3, Ep. unfold header_guard. by rewrite (proj2 (Z.ltb_lt _ _)) by lia.
Qed.

(** ** Witnesses *)

Definition sample_mutation (k : string) (c : Z) : WALMutation :=
  NewWALMutation k (mkDot (replicate 16 3) c) (mkEntry (replicate 32 9) [] [] 0 (-5) 1 2 3 4 6).

(** A checkpoint with a ClockHigh above the credible ceiling. *)
Definition sample_checkpoint : WALCheckpoint :=
  mkWALCheckpoint (replicate 32 1) (replicate 32 2) 41 1 (2 ^ 63) true true.

Definition sample_log : list frec :=
  [(true, LMutation (sample_mutation "a" 41)); (false, LMutationV1 (sample_mutation "b" 42));
   (true, LClockAdvance 50); (true, LCheckpoint sample_checkpoint)].

Lemma sample_log_sized : sized_log sample_log.
Proof.
  repeat constructor; cbn [snd sized_rec];
    (apply (bool_decide_unpack (sized_mutation _)) || apply (bool_decide_unpack (sized_checkpoint _)) || done);
    vm_compute; exact I.
Qed.

Definition torn_tail : list Z := take 20 (encodeRecord 4 WALRecClockAdvance (be_put 8 60)).

Lemma torn_tail_torn : torn (length sample_log) torn_tail.
Proof. exists WALRecClockAdvance, (be_put 8 60), 20%nat. by vm_compute. Qed.

Lemma replay_roundtrip_witness :
  ∃ o, ReplayWAL (log_file sample_log ++ torn_tail) = Ok o ∧ replays sample_log o ∧ rp_SeqContiguityVerified o = true.
Proof.
  apply (replay_roundtrip sample_log torn_tail); [apply sample_log_sized|apply torn_tail_torn|done].
Defined.

Lemma damaged_record_refused_witness :
  ReplayWAL (log_file sample_log ++
    encodeRecord 4 WALRecChecksummed (3 :: be_put 8 61 ++ be_put 4 (crc32_Checksum (3 :: be_put 8 60))) ++ [1; 2]) =
  Err (ErrWALCorrupt 4).
Proof.
  apply (damaged_record_refused sample_log (LClockAdvance 60) (3 :: be_put 8 61)
    (be_put 4 (crc32_Checksum (3 :: be_put 8 60))) [1; 2]); [apply sample_log_sized|done|done|].
  apply (damaged_content (3 :: be_put 8 60) (3 :: replicate 7 0) [60] [61] []);
    [reflexivity|reflexivity|simpl; lia| |discriminate].
  constructor; [done|constructor].
Defined.

Lemma replay_accepts_only_contiguous_witness : ReplayWAL walHeader ≠ Err ErrOutOfFuel.
Proof. apply (replay_accepts_only_contiguous walHeader). done. Defined.

Lemma short_write_strands_acked_witness :
  ∃ f1 w1 f2 w2,
    AppendClockAdvance 7 (WrShort 13) true fresh = (f1, w1, Some ErrWrite) ∧
    AppendClockAdvance 9 WrOk true (f1, w1) = (f2, w2, None) ∧
    replays_advance 9 (ReplayWAL (fdata f2)) = false.
Proof. apply (short_write_strands_acked 13). lia. Defined.

(** A run: two appends, the second fsynced, then a crash. *)
Definition run1 : File * WAL := (AppendMutation_locked (sample_mutation "a" 41) WrOk fresh).1.
Definition run2 : File * WAL := (AppendClockAdvance_locked 50 WrOk run1).1.
Definition run_sys : wal_sys :=
  mkSys (file_sync run2.1) (Some run2.2) (stamped 0 [LMutation (sample_mutation "a" 41)] :: [])
    (stamped 1 [LClockAdvance 50]).

Lemma run_sys_reachable : wal_reachable run_sys.
Proof.
  exists (mkSys fresh.1 (Some fresh.2) [] []). split; [by apply (wi_create io_ok)|].
  eapply rtc_l.
  { apply (ws_append (CallMutation (sample_mutation "a" 41)) (λ _, WrOk) fresh.1 fresh.2 [] [] run1.1 run1.2 None).
    - constructor; [|constructor]. apply (bool_decide_unpack (sized_mutation _)). vm_compute. exact I.
    - by left.
    - vm_compute. reflexivity.
    - vm_compute. reflexivity. }
  eapply rtc_l.
  { apply (ws_append (CallClockAdvance 50) (λ _, WrOk) run1.1 run1.2 [stamped 0 [LMutation (sample_mutation "a" 41)]] []
      run2.1 run2.2 None).
    - by constructor; [|constructor].
    - by left.
    - vm_compute. reflexivity.
    - vm_compute. reflexivity. }
  eapply rtc_l; [|apply rtc_refl].
  apply (ws_sync run2.1 run2.2 [] (stamped 1 [LClockAdvance 50]) [stamped 0 [LMutation (sample_mutation "a" 41)]] [] true
    (file_sync run2.1) None). reflexivity.
Qed.

Lemma acked_records_survive_witness :
  ∃ (l : list logrec) o, ReplayWAL (fdata run2.1) = Ok o ∧ l !! 1%nat = Some (LClockAdvance 50).
Proof.
  destruct (acked_records_survive run_sys (length (fdata run2.1)) run_sys_reachable) as (l & o & Hr & _ & Ha & _).
  - simpl. lia.
  - exists l, o. split; [|apply Ha; by left]. rewrite <- Hr. symmetry. exact (f_equal ReplayWAL (firstn_all _)).
Defined.

(** An entity id of 4 MiB, sealed so that nothing evaluates it. *)
Lemma long_id_sig : { k : string | Z.of_nat (length (string_bytes k)) = maxRecordPayloadLen }.
Proof.
  exists (bytes_string (replicate (Z.to_nat maxRecordPayloadLen) 97)).
  rewrite string_bytes_bytes; [|by apply Forall_replicate].
  rewrite length_replicate. apply Z2Nat.id. unfold maxRecordPayloadLen. lia.
Qed.

Definition long_id : string := proj1_sig long_id_sig.

Lemma length_long_id : Z.of_nat (length (string_bytes long_id)) = maxRecordPayloadLen.
Proof. exact (proj2_sig long_id_sig). Qed.

Lemma sample_mutation_valid k c : string_bytes k ≠ [] → validateV2 (sample_mutation k c) = None.
Proof.
  intros Hk. unfold validateV2. rewrite (proj2 (String.eqb_neq _ _)) by (intros E; simpl in E; by subst).
  cbn [wm_Legacy sample_mutation NewWALMutation wm_Full wm_NodeID wm_Counter DotNodeID DotCounter NodeID Counter
    OriginNodeID]. by rewrite bool_decide_eq_true_2, Z.eqb_refl by done.
Qed.

Lemma oversized_mutation_bricks_log_witness :
  ∃ f' w', AppendMutation (sample_mutation long_id 41) WrOk true fresh = (f', w', None) ∧
    ReplayWAL (fdata f') = Err (ErrPayloadLength (153 + maxRecordPayloadLen) 0).
Proof.
  pose proof (oversized_mutation_bricks_log [] fresh.1 fresh.2 (sample_mutation long_id 41)) as H.
  cbn [wm_EntityID sample_mutation NewWALMutation] in H. rewrite length_long_id in H.
  apply H; [constructor|by split_and!|done|apply sample_mutation_valid| |done|unfold maxRecordPayloadLen; lia].
  - intros E. pose proof length_long_id as Hl. rewrite E in Hl. discriminate Hl.
  - apply (bool_decide_unpack (sized_entry _)). vm_compute. exact I.
Defined.
