(* ===== verification/Hamt.v ===== *)
(** The hash array-mapped trie of pkg/sync/hamt.go.

    A node carries the three fields of [HamtNode] that the algorithm reads
    (bitmap, children array, leaf array); an off-heap [NodePtr] is the node it
    points to, and the null pointer is [None].  [set] compares the pointer it
    gets back with the one it started from, so its result says which of the
    three cases happened: the same pointer, the null pointer, or a freshly
    allocated node.  Reference counts and the arena are in HamtHeap.v. *)
From S2P Require Import Prelude Bytes Dots.

Definition hamtBits : Z := 5.
Definition hamtWidth : nat := 32.
Definition hamtMask : Z := 31.
Definition hamtMaxDepth : nat := 7.

(** ** Data *)

Record hamtLeaf := mkLeaf {
  leafHash : Z;
  entityID : string;
  crdtEntries : list CRDTEntry;
}.

Inductive HamtNode := mkNode (bitmap : Z) (children : list HamtNode) (leaves : list hamtLeaf).

(** Nested induction over the children array. *)
Lemma HamtNode_rect' (P : HamtNode → Prop) :
  (∀ bm cs ls, Forall P cs → P (mkNode bm cs ls)) → ∀ n, P n.
Proof.
  intros H. fix IH 1. intros [bm cs ls]. apply H.
  induction cs as [|c cs IHcs]; constructor; [apply IH|exact IHcs].
Qed.

(** ** Bitmap indexing *)

(** Set bits of [x] below position [n]; [bits.OnesCount32] is all 32. *)
Fixpoint rank (x : Z) (n : nat) : nat :=
  match n with
  | O => O
  | S n' => (rank x n' + if Z.testbit x (Z.of_nat n') then 1 else 0)%nat
  end.

Definition popcount (x : Z) : nat := rank x 32.

(** The 5-bit hash segment a node at [depth] branches on. *)
Definition segment (hash : Z) (depth : nat) : nat :=
  Z.to_nat (Z.land (Z.shiftr hash (Z.of_nat depth * hamtBits)) hamtMask).

Definition bit_of (idx : nat) : Z := Z.shiftl 1 (Z.of_nat idx).
Definition pos_of (bm : Z) (idx : nat) : nat := popcount (Z.land bm (bit_of idx - 1)).

(** ** get *)

Fixpoint find_leaf (key : string) (ls : list hamtLeaf) : list CRDTEntry :=
  match ls with
  | [] => []
  | l :: ls' => if String.eqb (entityID l) key then crdtEntries l else find_leaf key ls'
  end.

Fixpoint node_get (n : HamtNode) (key : string) (hash : Z) (depth : nat) : list CRDTEntry :=
  match n with
  | mkNode bm cs ls =>
      match ls with
      | _ :: _ => find_leaf key ls
      | [] =>
          if (hamtMaxDepth <=? depth)%nat then []
          else
            let idx := segment hash depth in
            if Z.land bm (bit_of idx) =? 0 then []
            else
              (fix child cs pos :=
                 match cs, pos with
                 | [], _ => []
                 | c :: _, O => node_get c key hash (S depth)
                 | _ :: cs', S pos' => child cs' pos'
                 end) cs (pos_of bm idx)
      end
  end.

(** ** set *)

Inductive setResult := Same | Gone | Fresh (n : HamtNode).

(** The node a result points to, [p] being the receiver. *)
Definition result_node (p : HamtNode) (r : setResult) : option HamtNode :=
  match r with Same => Some p | Gone => None | Fresh n => Some n end.

Definition leafNode (ls : list hamtLeaf) : HamtNode := mkNode 0 [] ls.

Fixpoint find_index (key : string) (ls : list hamtLeaf) : option nat :=
  match ls with
  | [] => None
  | l :: ls' => if String.eqb (entityID l) key then Some O else S <$> find_index key ls'
  end.

Definition updateLeafEntry (oldLeaves : list hamtLeaf) (idx : nat) (key : string) (hash : Z)
    (entries : list CRDTEntry) : setResult :=
  match entries with
  | [] =>
      if (length oldLeaves =? 1)%nat then Gone
      else Fresh (leafNode (take idx oldLeaves ++ drop (S idx) oldLeaves))
  | _ :: _ => Fresh (leafNode (<[idx := mkLeaf hash key entries]> oldLeaves))
  end.

Definition appendToCollision (p : HamtNode) (oldLeaves : list hamtLeaf) (key : string)
    (hash : Z) (entries : list CRDTEntry) : HamtNode :=
  match entries with
  | [] => p
  | _ :: _ => leafNode (oldLeaves ++ [mkLeaf hash key entries])
  end.

Definition node_entries (n : HamtNode) : list hamtLeaf := match n with mkNode _ _ ls => ls end.

(** [rem] is [hamtMaxDepth - depth]: the recursion runs out exactly where the
    code's [depth >= hamtMaxDepth] test succeeds. *)
Fixpoint setCollision_at (rem : nat) (p : HamtNode) (oldHash : Z) (newKey : string)
    (newHash : Z) (newEntries : list CRDTEntry) : HamtNode :=
  match rem with
  | O => appendToCollision p (node_entries p) newKey newHash newEntries
  | S rem' =>
      let depth := (hamtMaxDepth - rem)%nat in
      let idxOld := segment oldHash depth in
      let idxNew := segment newHash depth in
      if (idxOld =? idxNew)%nat then
        mkNode (bit_of idxOld)
          [setCollision_at rem' p oldHash newKey newHash newEntries] []
      else
        let newLeaf := leafNode [mkLeaf newHash newKey newEntries] in
        mkNode (Z.lor (bit_of idxOld) (bit_of idxNew))
          (if (idxOld <? idxNew)%nat then [p; newLeaf] else [newLeaf; p]) []
  end.

Definition setCollision (p : HamtNode) (oldHash : Z) (newKey : string) (newHash : Z)
    (newEntries : list CRDTEntry) (depth : nat) : HamtNode :=
  setCollision_at (hamtMaxDepth - depth) p oldHash newKey newHash newEntries.

Fixpoint node_set (n : HamtNode) (key : string) (hash : Z) (entries : list CRDTEntry)
    (depth : nat) : setResult :=
  match n with
  | mkNode bm cs ls =>
      match ls with
      | l0 :: _ =>
          match find_index key ls with
          | Some i => updateLeafEntry ls i key hash entries
          | None =>
              match entries with
              | [] => Same
              | _ :: _ => Fresh (setCollision n (leafHash l0) key hash entries depth)
              end
          end
      | [] =>
          let idx := segment hash depth in
          let pos := pos_of bm idx in
          if Z.land bm (bit_of idx) =? 0 then
            match entries with
            | [] => Same
            | _ :: _ =>
                Fresh (mkNode (Z.lor bm (bit_of idx))
                  (take pos cs ++ leafNode [mkLeaf hash key entries] :: drop pos cs) [])
            end
          else
            match
              (fix child cs pos :=
                 match cs, pos with
                 | [], _ => Same
                 | c :: _, O => node_set c key hash entries (S depth)
                 | _ :: cs', S pos' => child cs' pos'
                 end) cs pos
            with
            | Same => Same
            | Gone =>
                let bm' := Z.ldiff bm (bit_of idx) in
                if bm' =? 0 then Gone
                else Fresh (mkNode bm' (take pos cs ++ drop (S pos) cs) [])
            | Fresh c' => Fresh (mkNode bm (<[pos := c']> cs) [])
            end
      end
  end.

Definition node_delete (n : HamtNode) (key : string) (hash : Z) (depth : nat) : setResult :=
  node_set n key hash [] depth.

(** ** forEach: the callback threads a state and says whether to go on *)

Section ForEach.
Context {St : Type} (fn : St → string → list CRDTEntry → St * bool).

Fixpoint visit_leaves (ls : list hamtLeaf) (s : St) : St * bool :=
  match ls with
  | [] => (s, true)
  | l :: ls' =>
      match fn s (entityID l) (crdtEntries l) with
      | (s', true) => visit_leaves ls' s'
      | (s', false) => (s', false)
      end
  end.

Fixpoint node_forEach (n : HamtNode) (s : St) : St * bool :=
  match n with
  | mkNode bm cs ls =>
      match ls with
      | _ :: _ => visit_leaves ls s
      | [] =>
          (fix go cs s :=
             match cs with
             | [] => (s, true)
             | c :: cs' =>
                 match node_forEach c s with
                 | (s', true) => go cs' s'
                 | (s', false) => (s', false)
                 end
             end) cs s
      end
  end.
End ForEach.

(** The leaves in visiting order. *)
Fixpoint node_leaves (n : HamtNode) : list hamtLeaf :=
  match n with
  | mkNode bm cs ls =>
      match ls with
      | _ :: _ => ls
      | [] => concat (map node_leaves cs)
      end
  end.

(** ** Bitmap lemmas *)

Lemma rank_ext x y n :
  (∀ i, (i < n)%nat → Z.testbit x (Z.of_nat i) = Z.testbit y (Z.of_nat i)) → rank x n = rank y n.
Proof.
  induction n as [|n IH]; intros H; simpl; [done|].
  rewrite IH by (intros; apply H; lia). by rewrite H by lia.
Qed.

Lemma rank_mono x i j : (i <= j)%nat → (rank x i <= rank x j)%nat.
Proof. induction 1; simpl; [done|]. lia. Qed.

Lemma rank_lt x i j :
  Z.testbit x (Z.of_nat i) = true → (i < j)%nat → (rank x i < rank x j)%nat.
Proof.
  intros Hi Hj. pose proof (rank_mono x (S i) j Hj) as Hm. simpl in Hm. rewrite Hi in Hm. lia.
Qed.

Lemma rank_inj x i j :
  Z.testbit x (Z.of_nat i) = true → Z.testbit x (Z.of_nat j) = true → rank x i = rank x j → i = j.
Proof.
  intros Hi Hj Hr. destruct (Nat.lt_trichotomy i j) as [H|[H|H]]; [|done|].
  - pose proof (rank_lt x i j Hi H). lia.
  - pose proof (rank_lt x j i Hj H). lia.
Qed.

Lemma bit_of_pow2 idx : bit_of idx = 2 ^ Z.of_nat idx.
Proof. unfold bit_of. rewrite Z.shiftl_mul_pow2 by lia. lia. Qed.

Lemma bit_of_testbit idx j :
  Z.testbit (bit_of idx) (Z.of_nat j) = bool_decide (idx = j).
Proof.
  rewrite bit_of_pow2, Z.pow2_bits_eqb by lia.
  case_bool_decide; [apply Z.eqb_eq|apply Z.eqb_neq]; lia.
Qed.

Lemma land_bit_of bm idx :
  (Z.land bm (bit_of idx) =? 0) = negb (Z.testbit bm (Z.of_nat idx)).
Proof.
  destruct (Z.testbit bm (Z.of_nat idx)) eqn:E; simpl.
  - apply Z.eqb_neq. intros H.
    assert (Z.testbit (Z.land bm (bit_of idx)) (Z.of_nat idx) = true) as H'.
    { rewrite Z.land_spec, E, bit_of_testbit. by rewrite bool_decide_true. }
    by rewrite H, Z.bits_0 in H'.
  - apply Z.eqb_eq, Z.bits_inj_0. intros n. rewrite Z.land_spec.
    destruct (decide (0 <= n)) as [Hn|Hn]; [|by rewrite !Z.testbit_neg_r by lia].
    rewrite <- (Z2Nat.id n) by lia. rewrite bit_of_testbit.
    case_bool_decide; [subst idx; by rewrite E|by rewrite andb_false_r].
Qed.

Lemma pos_of_rank bm idx : (idx <= 32)%nat → pos_of bm idx = rank bm idx.
Proof.
  intros Hidx. unfold pos_of, popcount. rewrite bit_of_pow2, Z.sub_1_r, <- Z.ones_equiv.
  assert (∀ n, (n <= 32)%nat →
    rank (Z.land bm (Z.ones (Z.of_nat idx))) n = rank bm (Nat.min n idx)) as H.
  { induction n as [|n IH]; intros Hn; [done|]. cbn [rank]. rewrite IH, Z.land_spec by lia.
    destruct (decide (n < idx)%nat).
    - rewrite Z.ones_spec_low, andb_true_r by lia.
      rewrite Nat.min_l by lia. replace (S n `min` idx)%nat with (S n) by lia. done.
    - rewrite Z.ones_spec_high, andb_false_r by lia. rewrite !Nat.min_r by lia. lia. }
  rewrite H by lia. f_equal. lia.
Qed.

Lemma rank_lor bm idx n :
  Z.testbit bm (Z.of_nat idx) = false →
  rank (Z.lor bm (bit_of idx)) n = (rank bm n + if bool_decide (idx < n)%nat then 1 else 0)%nat.
Proof.
  intros Hb. induction n as [|n IH]; [done|]. cbn [rank]. rewrite IH, Z.lor_spec, bit_of_testbit.
  destruct (decide (idx = n)) as [->|Hne].
  - rewrite Hb, (bool_decide_true (n = n)), (bool_decide_false (n < n)%nat),
      (bool_decide_true (n < S n)%nat) by lia. simpl. lia.
  - rewrite (bool_decide_false (idx = n)), orb_false_r by done.
    rewrite (bool_decide_ext (idx < S n)%nat (idx < n)%nat) by lia. lia.
Qed.

Lemma rank_ldiff bm idx n :
  Z.testbit bm (Z.of_nat idx) = true →
  rank bm n = (rank (Z.ldiff bm (bit_of idx)) n + if bool_decide (idx < n)%nat then 1 else 0)%nat.
Proof.
  intros Hb. induction n as [|n IH]; [done|]. cbn [rank]. rewrite IH, Z.ldiff_spec, bit_of_testbit.
  destruct (decide (idx = n)) as [->|Hne].
  - rewrite Hb, (bool_decide_true (n = n)), (bool_decide_false (n < n)%nat),
      (bool_decide_true (n < S n)%nat) by lia. simpl. lia.
  - rewrite (bool_decide_false (idx = n)), andb_true_r by done.
    rewrite (bool_decide_ext (idx < S n)%nat (idx < n)%nat) by lia. lia.
Qed.

Lemma segment_lt hash depth : (segment hash depth < 32)%nat.
Proof.
  unfold segment, hamtMask. change 31 with (Z.ones 5). rewrite Z.land_ones by lia.
  pose proof (Z.mod_pos_bound (hash ≫ (Z.of_nat depth * hamtBits)) (2^5) ltac:(lia)). lia.
Qed.

(** ** The array-mapped slot of an index *)

Definition slot {A} (bm : Z) (cs : list A) (i : nat) : option A :=
  if Z.testbit bm (Z.of_nat i) then cs !! rank bm i else None.

Section Slots.
Context {A : Type} (bm : Z) (cs : list A) (idx : nat).
Hypothesis Hidx : (idx < 32)%nat.
Hypothesis Hlen : length cs = popcount bm.

Lemma slot_insert c i :
  Z.testbit bm (Z.of_nat idx) = false →
  slot (Z.lor bm (bit_of idx)) (take (rank bm idx) cs ++ c :: drop (rank bm idx) cs) i =
  if bool_decide (idx = i) then Some c else slot bm cs i.
Proof.
  intros Hb. unfold slot. rewrite Z.lor_spec, bit_of_testbit, rank_lor by done.
  pose proof (rank_mono bm idx 32 ltac:(lia)) as Hr. fold (popcount bm) in Hr. rewrite <- Hlen in Hr.
  case_bool_decide as Hi.
  - subst i. rewrite orb_true_r, bool_decide_false by lia.
    rewrite lookup_app_r, length_take, Nat.add_0_r, Nat.min_l, Nat.sub_diag
      by (rewrite ?length_take; lia). done.
  - rewrite orb_false_r. destruct (Z.testbit bm (Z.of_nat i)) eqn:Ei; [|done].
    case_bool_decide as Hlt.
    + pose proof (rank_mono bm idx i ltac:(lia)).
      rewrite lookup_app_r, length_take, Nat.min_l by (rewrite ?length_take; lia).
      replace (rank bm i + 1 - rank bm idx)%nat with (S (rank bm i - rank bm idx)) by lia.
      rewrite lookup_cons, lookup_drop. f_equal. lia.
    + pose proof (rank_lt bm i idx Ei ltac:(lia)).
      rewrite lookup_app_l, lookup_take_lt by (rewrite ?length_take; lia). f_equal. lia.
Qed.

Lemma slot_delete i :
  Z.testbit bm (Z.of_nat idx) = true →
  slot (Z.ldiff bm (bit_of idx)) (take (rank bm idx) cs ++ drop (S (rank bm idx)) cs) i =
  if bool_decide (idx = i) then None else slot bm cs i.
Proof.
  intros Hb. unfold slot. rewrite Z.ldiff_spec, bit_of_testbit.
  pose proof (rank_lt bm idx 32 Hb ltac:(lia)) as Hr. fold (popcount bm) in Hr. rewrite <- Hlen in Hr.
  case_bool_decide as Hi; [by rewrite andb_false_r|].
  rewrite andb_true_r. destruct (Z.testbit bm (Z.of_nat i)) eqn:Ei; [|done].
  pose proof (rank_ldiff bm idx i Hb) as Hd. case_bool_decide as Hlt.
  - pose proof (rank_lt bm idx i Hb ltac:(lia)).
    rewrite lookup_app_r, length_take, Nat.min_l by (rewrite ?length_take; lia).
    rewrite lookup_drop. f_equal. lia.
  - pose proof (rank_lt bm i idx Ei ltac:(lia)).
    rewrite lookup_app_l, lookup_take_lt by (rewrite ?length_take; lia). f_equal. lia.
Qed.

Lemma slot_replace c i :
  Z.testbit bm (Z.of_nat idx) = true →
  slot bm (<[rank bm idx := c]> cs) i = if bool_decide (idx = i) then Some c else slot bm cs i.
Proof.
  intros Hb. unfold slot. pose proof (rank_lt bm idx 32 Hb ltac:(lia)) as Hr.
  fold (popcount bm) in Hr. rewrite <- Hlen in Hr. case_bool_decide as Hi.
  - subst i. rewrite Hb. by apply list_lookup_insert_eq.
  - destruct (Z.testbit bm (Z.of_nat i)) eqn:Ei; [|done].
    apply list_lookup_insert_ne. intros Heq. apply Hi. by apply (rank_inj bm).
Qed.

Lemma length_slot_insert c :
  Z.testbit bm (Z.of_nat idx) = false →
  length (take (rank bm idx) cs ++ c :: drop (rank bm idx) cs) = popcount (Z.lor bm (bit_of idx)).
Proof.
  intros Hb. unfold popcount. rewrite rank_lor, bool_decide_true by (done || lia).
  fold (popcount bm). rewrite <- Hlen, length_app. simpl. rewrite length_take, length_drop. lia.
Qed.

Lemma length_slot_delete :
  Z.testbit bm (Z.of_nat idx) = true →
  length (take (rank bm idx) cs ++ drop (S (rank bm idx)) cs) =
  popcount (Z.ldiff bm (bit_of idx)).
Proof.
  intros Hb. pose proof (rank_ldiff bm idx 32 Hb) as Hr. rewrite bool_decide_true in Hr by lia.
  pose proof (rank_lt bm idx 32 Hb ltac:(lia)). unfold popcount in *.
  rewrite length_app, length_take, length_drop. lia.
Qed.

Lemma slot_present : Z.testbit bm (Z.of_nat idx) = true → ∃ c, slot bm cs idx = Some c.
Proof.
  intros Hb. unfold slot. rewrite Hb. pose proof (rank_lt bm idx 32 Hb ltac:(lia)) as Hr.
  fold (popcount bm) in Hr. rewrite <- Hlen in Hr. by apply lookup_lt_is_Some_2.
Qed.
End Slots.

Lemma rank_surj x n p :
  (p < rank x n)%nat → ∃ i, (i < n)%nat ∧ Z.testbit x (Z.of_nat i) = true ∧ rank x i = p.
Proof.
  induction n as [|n IH]; simpl; [lia|]. intros Hp.
  destruct (decide (p < rank x n)%nat) as [Hlt|Hge].
  - destruct (IH Hlt) as (i & ? & ? & ?). exists i. split_and!; [lia|done|done].
  - exists n. destruct (Z.testbit x (Z.of_nat n)); split_and!; try done; lia.
Qed.

Lemma slot_elem {A} bm (cs : list A) c :
  length cs = popcount bm → (c ∈ cs ↔ ∃ i, (i < 32)%nat ∧ slot bm cs i = Some c).
Proof.
  intros Hlen. rewrite list_elem_of_lookup. split.
  - intros [p Hp]. pose proof (lookup_lt_Some _ _ _ Hp) as Hlt. rewrite Hlen in Hlt.
    apply rank_surj in Hlt as (i & Hi & Hb & <-). exists i. split; [done|].
    unfold slot. by rewrite Hb.
  - intros (i & _ & H). unfold slot in H. destruct (Z.testbit bm (Z.of_nat i)); [|done]. eauto.
Qed.

(** ** Unfolding equations *)

Lemma node_get_leaf bm cs l ls key hash d :
  node_get (mkNode bm cs (l :: ls)) key hash d = find_leaf key (l :: ls).
Proof. done. Qed.

Lemma child_lookup {A} (f : HamtNode → A) (dflt : A) cs pos :
  (fix child (cs : list HamtNode) (pos : nat) :=
     match cs, pos with
     | [], _ => dflt
     | c :: _, O => f c
     | _ :: cs', S pos' => child cs' pos'
     end) cs pos = match cs !! pos with Some c => f c | None => dflt end.
Proof. revert pos. induction cs as [|c cs IH]; intros [|pos]; simpl; auto. Qed.

Lemma node_get_inner bm cs key hash d :
  (d < hamtMaxDepth)%nat →
  node_get (mkNode bm cs []) key hash d =
  match slot bm cs (segment hash d) with
  | Some c => node_get c key hash (S d)
  | None => []
  end.
Proof.
  intros Hd. cbn [node_get]. replace (hamtMaxDepth <=? d)%nat with false
    by (symmetry; apply Nat.leb_gt; lia).
  rewrite land_bit_of, pos_of_rank by (pose proof (segment_lt hash d); lia). unfold slot.
  destruct (Z.testbit bm (Z.of_nat (segment hash d))); simpl; [|done].
  apply (child_lookup (λ c, node_get c key hash (S d))).
Qed.

(** The result of descending into the child at [idx]. *)
Definition set_child (bm : Z) (cs : list HamtNode) (idx : nat) (r : setResult) : setResult :=
  match r with
  | Same => Same
  | Gone =>
      let bm' := Z.ldiff bm (bit_of idx) in
      if bm' =? 0 then Gone
      else Fresh (mkNode bm' (take (rank bm idx) cs ++ drop (S (rank bm idx)) cs) [])
  | Fresh c' => Fresh (mkNode bm (<[rank bm idx := c']> cs) [])
  end.

Lemma node_set_inner bm cs key hash es d :
  node_set (mkNode bm cs []) key hash es d =
  let idx := segment hash d in
  if Z.testbit bm (Z.of_nat idx) then
    set_child bm cs idx
      match slot bm cs idx with Some c => node_set c key hash es (S d) | None => Same end
  else
    match es with
    | [] => Same
    | _ :: _ =>
        Fresh (mkNode (Z.lor bm (bit_of idx))
          (take (rank bm idx) cs ++ leafNode [mkLeaf hash key es] :: drop (rank bm idx) cs) [])
    end.
Proof.
  cbn [node_set]. rewrite land_bit_of, pos_of_rank by (pose proof (segment_lt hash d); lia).
  unfold slot. destruct (Z.testbit bm (Z.of_nat (segment hash d))); simpl; [|done].
  by rewrite (child_lookup (λ c, node_set c key hash es (S d))).
Qed.

(** ** Leaf arrays *)

Definition leaf_keys (ls : list hamtLeaf) : list string := map entityID ls.

Lemma find_leaf_notin key ls : key ∉ leaf_keys ls → find_leaf key ls = [].
Proof.
  induction ls as [|l ls IH]; simpl; [done|]. intros H. rewrite not_elem_of_cons in H.
  destruct H as [H1 H2]. rewrite (proj2 (String.eqb_neq _ _)) by congruence. auto.
Qed.

Lemma find_leaf_in l ls : NoDup (leaf_keys ls) → l ∈ ls → find_leaf (entityID l) ls = crdtEntries l.
Proof.
  induction ls as [|l' ls IH]; simpl; [by intros _ ?%elem_of_nil|].
  intros [Hn Hd]%NoDup_cons [->|Hl]%elem_of_cons; [by rewrite String.eqb_refl|].
  rewrite (proj2 (String.eqb_neq _ _)); [by apply IH|].
  intros Heq. apply Hn. rewrite Heq. by apply list_elem_of_fmap_2.
Qed.

Lemma find_leaf_some key ls :
  find_leaf key ls ≠ [] → ∃ l, l ∈ ls ∧ entityID l = key ∧ crdtEntries l = find_leaf key ls.
Proof.
  induction ls as [|l ls IH]; simpl; [done|].
  destruct (String.eqb_spec (entityID l) key) as [He|He]; intros H.
  - exists l. split_and!; [left|done|done].
  - destruct (IH H) as (l' & ? & ? & ?). exists l'. split_and!; [by right|done|done].
Qed.

Lemma find_leaf_app key a b :
  key ∉ leaf_keys a → find_leaf key (a ++ b) = find_leaf key b.
Proof.
  induction a as [|l a IH]; simpl; [done|]. intros H. rewrite not_elem_of_cons in H.
  destruct H as [H1 H2]. rewrite (proj2 (String.eqb_neq _ _)) by congruence. auto.
Qed.

Lemma find_leaf_app_l key a b :
  key ∉ leaf_keys b → find_leaf key (a ++ b) = find_leaf key a.
Proof.
  intros H. induction a as [|l a IH]; simpl; [by apply find_leaf_notin|].
  by destruct (String.eqb (entityID l) key).
Qed.

Lemma find_index_None key ls : find_index key ls = None ↔ key ∉ leaf_keys ls.
Proof.
  induction ls as [|l ls IH]; simpl; [split; [intros _ H; by apply elem_of_nil in H|done]|].
  rewrite not_elem_of_cons. destruct (String.eqb_spec (entityID l) key) as [He|He].
  - split; [done|]. intros [H _]. congruence.
  - rewrite fmap_None, IH. split; [intros H; split; [congruence|done]|tauto].
Qed.

Lemma find_index_Some key ls i :
  find_index key ls = Some i →
  ∃ a l b, ls = a ++ l :: b ∧ length a = i ∧ entityID l = key ∧ key ∉ leaf_keys a.
Proof.
  revert i. induction ls as [|l ls IH]; intros i; simpl; [done|].
  destruct (String.eqb_spec (entityID l) key) as [He|He].
  - intros [= <-]. exists [], l, ls. split_and!; try done. intros H; by apply elem_of_nil in H.
  - intros H. apply fmap_Some in H as (j & Hj & ->).
    destruct (IH j Hj) as (a & l' & b & -> & <- & ? & ?). exists (l :: a), l', b.
    split_and!; try done. simpl. rewrite not_elem_of_cons. split; [congruence|done].
Qed.

Lemma node_get_leafNode ls k h d : node_get (leafNode ls) k h d = find_leaf k ls.
Proof. destruct ls; [|done]. cbn. by destruct d as [|[|[|[|[|[|[|?]]]]]]]. Qed.

Lemma node_leaves_leafNode ls : node_leaves (leafNode ls) = ls.
Proof. by destruct ls. Qed.

Arguments node_get : simpl never.
Arguments node_set : simpl never.
Arguments leafNode : simpl never.
Arguments bit_of : simpl never.

(** ** The trie invariant *)

Section Trie.
Context (hk : string → Z).

Definition leaf_ok (l : hamtLeaf) : Prop :=
  leafHash l = hk (entityID l) ∧ crdtEntries l ≠ [].

(** Leaf nodes hold entries only; several keys share one only at the maximum
    depth.  Intermediate nodes hold children only: one per set bit, and every
    leaf below the child at index [i] has segment [i] at this depth. *)
Inductive wf_node : nat → HamtNode → Prop :=
| wf_leaf d ls :
    (d <= hamtMaxDepth)%nat → ls ≠ [] → ((d < hamtMaxDepth)%nat → length ls = 1%nat) →
    Forall leaf_ok ls → NoDup (leaf_keys ls) → wf_node d (leafNode ls)
| wf_inner d bm cs :
    (d < hamtMaxDepth)%nat → length cs = popcount bm →
    (∀ i c, (i < 32)%nat → slot bm cs i = Some c →
       wf_node (S d) c ∧ Forall (λ l, segment (leafHash l) d = i) (node_leaves c)) →
    wf_node d (mkNode bm cs []).

Definition result_get (p : HamtNode) (r : setResult) (key : string) (d : nat) : list CRDTEntry :=
  match result_node p r with Some n => node_get n key (hk key) d | None => [] end.

Lemma wf_singleton d l : (d <= hamtMaxDepth)%nat → leaf_ok l → wf_node d (leafNode [l]).
Proof.
  intros Hd Hl. apply wf_leaf; [done|done|done|by constructor|apply NoDup_singleton].
Qed.

Lemma wf_leaf_inv d l ls bm cs :
  wf_node d (mkNode bm cs (l :: ls)) →
  bm = 0 ∧ cs = [] ∧ (d <= hamtMaxDepth)%nat ∧ ((d < hamtMaxDepth)%nat → ls = []) ∧
  Forall leaf_ok (l :: ls) ∧ NoDup (leaf_keys (l :: ls)).
Proof.
  inversion 1 as [? ? ? ? Hs|]; subst. split_and!; auto. intros Hd. specialize (Hs Hd).
  by destruct ls.
Qed.

Lemma wf_inner_inv d bm cs :
  wf_node d (mkNode bm cs []) →
  (d < hamtMaxDepth)%nat ∧ length cs = popcount bm ∧
  ∀ i c, (i < 32)%nat → slot bm cs i = Some c →
    wf_node (S d) c ∧ Forall (λ l, segment (leafHash l) d = i) (node_leaves c).
Proof. inversion 1; subst; [done|]. auto. Qed.

(** ** setCollision *)

Lemma slot_single idx (c : HamtNode) i :
  (idx < 32)%nat → slot (bit_of idx) [c] i = if bool_decide (idx = i) then Some c else None.
Proof.
  intros Hidx. rewrite <- (Z.lor_0_l (bit_of idx)).
  replace [c] with (take (rank 0 idx) ([] : list HamtNode) ++ c :: drop (rank 0 idx) [])
    by by rewrite take_nil, drop_nil.
  rewrite (slot_insert 0 [] idx Hidx) by (rewrite ?Z.bits_0; done).
  unfold slot. by rewrite Z.bits_0.
Qed.

Lemma rank_bit_of idx i : rank (bit_of idx) i = if bool_decide (idx < i)%nat then 1%nat else 0%nat.
Proof.
  rewrite <- (Z.lor_0_l (bit_of idx)), rank_lor by apply Z.bits_0.
  assert (rank 0 i = 0%nat) as ->; [|done].
  induction i as [|i IH]; simpl; [done|]. by rewrite IH, Z.bits_0.
Qed.

Lemma slot_pair a b (p q : HamtNode) i :
  (a < 32)%nat → (b < 32)%nat → a ≠ b →
  slot (Z.lor (bit_of a) (bit_of b)) (if (a <? b)%nat then [p; q] else [q; p]) i =
  if bool_decide (a = i) then Some p else if bool_decide (b = i) then Some q else None.
Proof.
  intros Ha Hb Hab.
  assert ((if (a <? b)%nat then [p; q] else [q; p]) =
          take (rank (bit_of a) b) [p] ++ q :: drop (rank (bit_of a) b) [p]) as ->.
  { rewrite rank_bit_of. destruct (Nat.ltb_spec a b).
    - by rewrite bool_decide_true by lia.
    - by rewrite bool_decide_false by lia. }
  rewrite (slot_insert (bit_of a) [p] b Hb).
  - rewrite slot_single by done. repeat case_bool_decide; congruence.
  - unfold popcount. by rewrite rank_bit_of, bool_decide_true by lia.
  - rewrite bit_of_testbit. by apply bool_decide_false.
Qed.

Lemma popcount_pair a b :
  (a < 32)%nat → (b < 32)%nat → a ≠ b → popcount (Z.lor (bit_of a) (bit_of b)) = 2%nat.
Proof.
  intros. unfold popcount. rewrite rank_lor by (rewrite bit_of_testbit; by apply bool_decide_false).
  by rewrite rank_bit_of, !bool_decide_true by lia.
Qed.

Definition new_leaf (key : string) (es : list CRDTEntry) : hamtLeaf := mkLeaf (hk key) key es.

(** What the collision subtree is built from: a leaf node at [depth] that does
    not hold [key]. *)
Definition collides (rem : nat) (l0 : hamtLeaf) (ls : list hamtLeaf) (key : string) : Prop :=
  (rem <= hamtMaxDepth)%nat ∧ ((0 < rem)%nat → ls = []) ∧
  Forall leaf_ok (l0 :: ls) ∧ NoDup (leaf_keys (l0 :: ls)) ∧ key ∉ leaf_keys (l0 :: ls).

Lemma collides_pred rem l0 ls key : collides (S rem) l0 ls key → collides rem l0 ls key.
Proof. intros (?&Hs&?&?&?). split_and!; auto; lia. Qed.

Lemma setCollision_get rem l0 ls key es k' :
  collides rem l0 ls key → es ≠ [] →
  node_get (setCollision_at rem (leafNode (l0 :: ls)) (leafHash l0) key (hk key) es) k' (hk k')
    (hamtMaxDepth - rem) = if String.eqb k' key then es else find_leaf k' (l0 :: ls).
Proof.
  intros Hc Hes. induction rem as [|rem IH].
  { destruct Hc as (_ & _ & _ & _ & Hk). destruct es as [|e es]; [done|].
    cbn [setCollision_at appendToCollision]. change (node_entries (leafNode ?x)) with x.
    rewrite node_get_leafNode.
    destruct (String.eqb_spec k' key) as [->|Hne].
    - rewrite find_leaf_app by done. simpl. by rewrite String.eqb_refl.
    - apply find_leaf_app_l. simpl.
      rewrite not_elem_of_cons. split; [done|]. intros H. by apply elem_of_nil in H. }
  destruct Hc as (Hrem & Hone & Hok & Hnd & Hk) eqn:HcE; clear HcE.
  rewrite Hone in * by lia. clear Hone.
  assert (leafHash l0 = hk (entityID l0)) as Hh by by apply Forall_cons in Hok as [[? _] _].
  simpl in Hk. rewrite not_elem_of_cons in Hk. destruct Hk as [Hk _].
  cbn [setCollision_at]. set (d := (hamtMaxDepth - S rem)%nat).
  assert (d < hamtMaxDepth)%nat as Hd by (subst d; unfold hamtMaxDepth in *; lia).
  assert (hamtMaxDepth - rem = S d)%nat as HSd by (subst d; lia).
  pose proof (segment_lt (leafHash l0) d). pose proof (segment_lt (hk key) d).
  destruct (Nat.eqb_spec (segment (leafHash l0) d) (segment (hk key) d)) as [Hseg|Hseg];
    rewrite node_get_inner by done.
  - rewrite slot_single by done. case_bool_decide as Hi.
    + rewrite <- HSd. apply IH. by apply collides_pred.
    + destruct (String.eqb_spec k' key) as [->|Hne]; [congruence|]. simpl.
      destruct (String.eqb_spec (entityID l0) k') as [<-|]; [congruence|done].
  - rewrite slot_pair by done. case_bool_decide as Hi; [|case_bool_decide as Hi'].
    + rewrite node_get_leafNode. destruct (String.eqb_spec k' key) as [->|Hne]; [congruence|done].
    + rewrite node_get_leafNode. simpl. destruct (String.eqb_spec key k') as [->|Hne].
      * by rewrite String.eqb_refl.
      * rewrite (proj2 (String.eqb_neq _ _)) by congruence.
        destruct (String.eqb_spec (entityID l0) k') as [<-|]; [congruence|done].
    + destruct (String.eqb_spec k' key) as [->|Hne]; [congruence|]. simpl.
      destruct (String.eqb_spec (entityID l0) k') as [<-|]; [congruence|done].
Qed.

Lemma setCollision_leaves rem p oldHash key es l :
  node_entries p ≠ [] → es ≠ [] →
  l ∈ node_leaves (setCollision_at rem p oldHash key (hk key) es) →
  l ∈ node_entries p ∨ l = new_leaf key es.
Proof.
  destruct p as [bm cs ls]. intros Hp Hes. simpl in Hp. destruct ls as [|l0 ls]; [done|].
  induction rem as [|rem IH].
  - destruct es as [|e es]; [done|]. cbn [setCollision_at appendToCollision node_entries].
    rewrite node_leaves_leafNode, elem_of_app, list_elem_of_singleton. auto.
  - cbn [setCollision_at].
    destruct (_ =? _)%nat; [|destruct (_ <? _)%nat]; cbn [node_leaves map concat node_entries];
      rewrite ?node_leaves_leafNode, app_nil_r, ?elem_of_app.
    + apply IH.
    + rewrite list_elem_of_singleton. intros [?|?]; auto.
    + rewrite list_elem_of_singleton. intros [?|?]; auto.
Qed.

Lemma setCollision_wf rem l0 ls key es :
  collides rem l0 ls key → es ≠ [] →
  wf_node (hamtMaxDepth - rem)
    (setCollision_at rem (leafNode (l0 :: ls)) (leafHash l0) key (hk key) es).
Proof.
  intros Hc Hes. induction rem as [|rem IH].
  { destruct Hc as (_ & _ & Hok & Hnd & Hk). destruct es as [|e es]; [done|].
    cbn [setCollision_at appendToCollision]. change (node_entries (leafNode ?x)) with x.
    apply wf_leaf.
    - lia.
    - done.
    - unfold hamtMaxDepth. lia.
    - apply Forall_app. split; [done|]. by repeat constructor.
    - unfold leaf_keys. rewrite map_app. apply NoDup_app. split_and!; [done| |].
      + intros x Hx Hx'. apply list_elem_of_singleton in Hx' as ->. done.
      + simpl. apply NoDup_singleton. }
  pose proof (IH (collides_pred _ _ _ _ Hc)) as IH'. clear IH.
  destruct Hc as (Hrem & Hone & Hok & Hnd & Hk). rewrite Hone in * by lia. clear Hone.
  assert (leafHash l0 = hk (entityID l0)) as Hh by by apply Forall_cons in Hok as [[? _] _].
  cbn [setCollision_at]. set (d := (hamtMaxDepth - S rem)%nat) in *.
  assert (d < hamtMaxDepth)%nat as Hd by (subst d; unfold hamtMaxDepth in *; lia).
  assert (hamtMaxDepth - rem = S d)%nat as HSd by (subst d; lia). rewrite HSd in IH'.
  pose proof (segment_lt (leafHash l0) d). pose proof (segment_lt (hk key) d).
  destruct (Nat.eqb_spec (segment (leafHash l0) d) (segment (hk key) d)) as [Hseg|Hseg].
  - constructor; [done| |].
    + unfold popcount. by rewrite rank_bit_of, bool_decide_true by lia.
    + intros i c Hi. rewrite slot_single by done. case_bool_decide as Hs; [|done]. intros [= <-].
      split; [done|]. apply Forall_forall. intros l Hl.
      apply setCollision_leaves in Hl; [|done|done]. simpl in Hl.
      destruct Hl as [->%list_elem_of_singleton| ->]; [done|]. simpl. congruence.
  - constructor; [done| |].
    + rewrite popcount_pair by done. by destruct (_ <? _)%nat.
    + intros i c Hi. rewrite slot_pair by done.
      case_bool_decide as Hs; [|case_bool_decide as Hs'; [|done]]; intros [= <-].
      * split; [|by repeat constructor]. apply wf_singleton; [lia|]. by apply Forall_cons in Hok as [? _].
      * split; [|by repeat constructor]. by apply wf_singleton; [lia|].
Qed.

(** ** node_set *)

Lemma elem_node_leaves_inner bm cs l :
  length cs = popcount bm →
  (l ∈ node_leaves (mkNode bm cs []) ↔
   ∃ i c, (i < 32)%nat ∧ slot bm cs i = Some c ∧ l ∈ node_leaves c).
Proof.
  intros Hlen. cbn [node_leaves]. rewrite elem_of_concat. setoid_rewrite list_elem_of_fmap.
  split.
  - intros (? & ? & c & -> & Hc). apply (slot_elem bm) in Hc as (i & ? & ?); eauto.
  - intros (i & c & Hi & Hs & Hl). exists (node_leaves c). split; [done|]. exists c.
    split; [done|]. apply (slot_elem bm); eauto.
Qed.

Lemma updateLeafEntry_cases ls i key es :
  find_index key ls = Some i → NoDup (leaf_keys ls) →
  ∃ a l b, ls = a ++ l :: b ∧ entityID l = key ∧ (key ∉ leaf_keys a) ∧ (key ∉ leaf_keys b) ∧
    updateLeafEntry ls i key (hk key) es =
      (if bool_decide (es = []) then
         if bool_decide ((a ++ b) = []) then Gone else Fresh (leafNode (a ++ b))
       else Fresh (leafNode (a ++ (new_leaf key es :: b)))).
Proof.
  intros (a & l & b & -> & <- & <- & Ha)%find_index_Some Hnd. exists a, l, b.
  unfold leaf_keys in Hnd. rewrite map_app in Hnd.
  apply NoDup_app in Hnd as (_ & Hab & [Hl _]%NoDup_cons). split_and!; try done.
  unfold updateLeafEntry. destruct es as [|e es].
  - rewrite bool_decide_true by done. rewrite length_app, take_app_length. simpl length.
    replace (S (length a)) with (length (a ++ [l])) by (rewrite length_app; simpl; lia).
    rewrite (cons_middle l a b), (app_assoc a [l] b), drop_app_length.
    case_bool_decide as E.
    + apply app_eq_nil in E as [-> ->]. done.
    + rewrite (proj2 (Nat.eqb_neq _ _)); [done|].
      intros H. apply E. destruct a, b; simpl in *; try lia. done.
  - rewrite bool_decide_false by done.
    by rewrite insert_app_r_alt, Nat.sub_diag by lia.
Qed.

Lemma node_set_leaf bm cs l ls key es d :
  node_set (mkNode bm cs (l :: ls)) key (hk key) es d =
  match find_index key (l :: ls) with
  | Some i => updateLeafEntry (l :: ls) i key (hk key) es
  | None =>
      if bool_decide (es = []) then Same
      else Fresh (setCollision (mkNode bm cs (l :: ls)) (leafHash l) key (hk key) es d)
  end.
Proof. destruct es; done. Qed.

Lemma collides_of_wf d l ls key :
  wf_node d (leafNode (l :: ls)) → find_index key (l :: ls) = None →
  collides (hamtMaxDepth - d) l ls key ∧ (hamtMaxDepth - (hamtMaxDepth - d) = d)%nat.
Proof.
  intros (_ & _ & Hd & Hone & Hok & Hnd)%wf_leaf_inv Hk%find_index_None.
  split; [|lia]. split_and!; [lia| |done|done|done]. intros. apply Hone. lia.
Qed.

(** Descending: if the child's result has the right contents, so has the
    node's. *)
Lemma set_child_get bm cs idx c r k' d es0 key :
  (d < hamtMaxDepth)%nat → (idx < 32)%nat → length cs = popcount bm →
  slot bm cs idx = Some c → segment (hk key) d = idx →
  result_get c r k' (S d) = (if String.eqb k' key then es0 else node_get c k' (hk k') (S d)) →
  result_get (mkNode bm cs []) (set_child bm cs idx r) k' d =
  if String.eqb k' key then es0 else node_get (mkNode bm cs []) k' (hk k') d.
Proof.
  intros Hd Hidx Hlen Hc Hkey Hr. unfold result_get in *.
  assert (Z.testbit bm (Z.of_nat idx) = true) as Hb.
  { unfold slot in Hc. by destruct (Z.testbit bm (Z.of_nat idx)). }
  rewrite (node_get_inner bm cs) by done.
  destruct (decide (segment (hk k') d = idx)) as [Hs|Hs].
  - rewrite Hs, Hc, <- Hr. destruct r as [| |c']; simpl.
    + by rewrite node_get_inner, Hs, Hc by done.
    + destruct (_ =? 0); [done|]. simpl. rewrite node_get_inner, Hs by done.
      by rewrite (slot_delete bm cs idx Hidx Hlen), bool_decide_true by done.
    + rewrite node_get_inner, Hs by done.
      by rewrite (slot_replace bm cs idx Hidx Hlen), bool_decide_true by done.
  - rewrite (proj2 (String.eqb_neq k' key)) by congruence. destruct r as [| |c']; simpl.
    + by rewrite node_get_inner by done.
    + pose proof (slot_delete bm cs idx Hidx Hlen (segment (hk k') d) Hb) as Hsl.
      rewrite bool_decide_false in Hsl by congruence.
      destruct (Z.eqb_spec (Z.ldiff bm (bit_of idx)) 0) as [H0|H0]; simpl.
      * rewrite <- Hsl, H0. unfold slot. by rewrite Z.bits_0.
      * by rewrite node_get_inner, Hsl by done.
    + rewrite node_get_inner by done.
      by rewrite (slot_replace bm cs idx Hidx Hlen), bool_decide_false by congruence.
Qed.

Lemma find_leaf_other k' x a b : entityID x ≠ k' → find_leaf k' (a ++ x :: b) = find_leaf k' (a ++ b).
Proof.
  intros Hx. induction a as [|y a IHa]; simpl.
  - by rewrite (proj2 (String.eqb_neq _ _)).
  - by rewrite IHa.
Qed.

Lemma node_set_get_leaf d l ls key es k' :
  wf_node d (leafNode (l :: ls)) →
  result_get (leafNode (l :: ls)) (node_set (leafNode (l :: ls)) key (hk key) es d) k' d =
  if String.eqb k' key then es else find_leaf k' (l :: ls).
Proof.
  intros Hwf. destruct (wf_leaf_inv _ _ _ _ _ Hwf) as (_ & _ & Hd & Hone & Hok & Hnd).
  unfold leafNode at 2. rewrite node_set_leaf. change (mkNode 0 [] ?x) with (leafNode x).
  unfold result_get. destruct (find_index key (l :: ls)) as [i|] eqn:Hi.
  - destruct (updateLeafEntry_cases _ i key es Hi Hnd) as (a & x & b & -> & Hx & Ha & Hb & ->).
    destruct (String.eqb_spec k' key) as [->|Hne].
    + case_bool_decide as He; [case_bool_decide|]; simpl; rewrite ?node_get_leafNode.
      * by subst.
      * rewrite find_leaf_app by done. subst es. by apply find_leaf_notin.
      * rewrite find_leaf_app by done. simpl. by rewrite String.eqb_refl.
    + rewrite find_leaf_other by congruence.
      case_bool_decide as He; [case_bool_decide as Hab|]; simpl;
        rewrite ?node_get_leafNode; [by rewrite Hab|done|].
      by rewrite find_leaf_other by (simpl; congruence).
  - pose proof Hi as Hk. apply find_index_None in Hk. case_bool_decide as He; simpl.
    + rewrite node_get_leafNode. destruct (String.eqb_spec k' key) as [->|]; [|done].
      subst. by apply find_leaf_notin.
    + unfold setCollision. destruct (collides_of_wf d l ls key Hwf Hi) as [Hc Hdd].
      rewrite <- Hdd at 2. by apply setCollision_get.
Qed.

(** [set] changes the binding of its key and nothing else. *)
Lemma node_set_get n : ∀ d key es k',
  wf_node d n →
  result_get n (node_set n key (hk key) es d) k' d =
  if String.eqb k' key then es else node_get n k' (hk k') d.
Proof.
  induction n as [bm cs ls IH] using HamtNode_rect'. intros d key es k' Hwf.
  destruct ls as [|l ls].
  - apply wf_inner_inv in Hwf as (Hd & Hlen & Hch). rewrite node_set_inner. cbn zeta.
    pose proof (segment_lt (hk key) d) as Hidx. set (idx := segment (hk key) d) in *.
    destruct (Z.testbit bm (Z.of_nat idx)) eqn:Hb.
    + destruct (slot_present bm cs idx Hidx Hlen Hb) as [c Hc]. rewrite Hc.
      destruct (Hch idx c Hidx Hc) as [Hwc _].
      assert (c ∈ cs) as Hin by (apply (slot_elem bm); eauto).
      rewrite Forall_forall in IH. by apply (set_child_get bm cs idx c); auto.
    + unfold result_get. rewrite (node_get_inner bm cs) by done.
      assert (slot bm cs idx = None) as Hnone by (unfold slot; by rewrite Hb).
      destruct es as [|e es]; simpl; rewrite node_get_inner by done.
      * destruct (String.eqb_spec k' key) as [->|]; [|done]. fold idx. by rewrite Hnone.
      * rewrite (slot_insert bm cs idx Hidx Hlen) by done. case_bool_decide as Hs.
        -- rewrite node_get_leafNode, <- Hs, Hnone. simpl.
           rewrite String.eqb_sym. done.
        -- by rewrite (proj2 (String.eqb_neq k' key)) by (intros ->; by apply Hs).
  - destruct (wf_leaf_inv _ _ _ _ _ Hwf) as (-> & -> & _).
    change (mkNode 0 [] ?x) with (leafNode x) in *. rewrite node_get_leafNode.
    by apply node_set_get_leaf.
Qed.

Definition result_leaves (p : HamtNode) (r : setResult) : list hamtLeaf :=
  match result_node p r with Some n => node_leaves n | None => [] end.

Definition result_wf (d : nat) (p : HamtNode) (r : setResult) : Prop :=
  match result_node p r with Some n => wf_node d n | None => True end.

(** The leaf arrays [updateLeafEntry] can build satisfy the leaf conditions. *)
Lemma wf_leaf_delete d a x b :
  wf_node d (leafNode (a ++ x :: b)) → a ++ b ≠ [] → wf_node d (leafNode (a ++ b)).
Proof.
  intros Hwf Hab. assert (∃ l ls, a ++ x :: b = l :: ls) as (l & ls & Heq)
    by (destruct a; simpl; eauto). rewrite Heq in Hwf.
  destruct (wf_leaf_inv _ _ _ _ _ Hwf) as (_ & _ & Hd & Hone & Hok & Hnd).
  rewrite <- Heq in Hok, Hnd. apply wf_leaf; [done|done| | |].
  - intros Hd'. exfalso. apply Hab. rewrite Hone in Heq by done.
    apply (f_equal length) in Heq. rewrite length_app in Heq. simpl in Heq.
    apply length_zero_iff_nil. rewrite length_app. lia.
  - rewrite Forall_app, Forall_cons in Hok. apply Forall_app. tauto.
  - unfold leaf_keys in *. rewrite map_app in *. simpl in Hnd.
    apply NoDup_app in Hnd as (? & Hdis & [_ ?]%NoDup_cons). apply NoDup_app.
    split_and!; [done| |done]. intros y Hy Hy'. apply (Hdis y Hy). by right.
Qed.

Lemma wf_leaf_replace d a x y b :
  wf_node d (leafNode (a ++ x :: b)) → leaf_ok y → entityID y = entityID x →
  wf_node d (leafNode (a ++ y :: b)).
Proof.
  intros Hwf Hy Hk. assert (∃ l ls, a ++ x :: b = l :: ls) as (l & ls & Heq)
    by (destruct a; simpl; eauto). rewrite Heq in Hwf.
  destruct (wf_leaf_inv _ _ _ _ _ Hwf) as (_ & _ & Hd & Hone & Hok & Hnd).
  rewrite <- Heq in Hok, Hnd. apply wf_leaf; [done|by destruct a| | |].
  - intros Hd'. rewrite Hone in Heq by done. apply (f_equal length) in Heq.
    rewrite length_app in *. simpl in *. lia.
  - rewrite Forall_app, Forall_cons in *. tauto.
  - unfold leaf_keys in *. rewrite map_app in *. simpl in *. by rewrite Hk.
Qed.

Lemma result_child_leaves bm cs idx c r l d :
  (d < hamtMaxDepth)%nat → (idx < 32)%nat → length cs = popcount bm → slot bm cs idx = Some c →
  l ∈ result_leaves (mkNode bm cs []) (set_child bm cs idx r) →
  l ∈ node_leaves (mkNode bm cs []) ∨ l ∈ result_leaves c r.
Proof.
  intros Hd Hidx Hlen Hc.
  assert (Z.testbit bm (Z.of_nat idx) = true) as Hb.
  { unfold slot in Hc. by destruct (Z.testbit bm (Z.of_nat idx)). }
  destruct r as [| |c']; unfold result_leaves; simpl result_node.
  - auto.
  - destruct (_ =? 0); simpl result_node; [by intros ?%elem_of_nil|].
    rewrite !elem_node_leaves_inner by (done || by apply length_slot_delete).
    intros (i & x & Hi & Hs & Hl). rewrite (slot_delete bm cs idx Hidx Hlen) in Hs by done.
    case_bool_decide; [done|]. left. eauto 10.
  - rewrite !elem_node_leaves_inner by (done || by rewrite length_insert).
    intros (i & x & Hi & Hs & Hl). rewrite (slot_replace bm cs idx Hidx Hlen) in Hs by done.
    case_bool_decide; [by simplify_eq; auto|]. left. eauto 10.
Qed.

(** [set] adds no leaf but the one for its key. *)
Lemma node_set_leaves n : ∀ d key es l,
  wf_node d n → l ∈ result_leaves n (node_set n key (hk key) es d) →
  l ∈ node_leaves n ∨ (l = new_leaf key es ∧ es ≠ []).
Proof.
  induction n as [bm cs ls IH] using HamtNode_rect'. intros d key es l Hwf.
  destruct ls as [|l0 ls].
  - apply wf_inner_inv in Hwf as (Hd & Hlen & Hch). rewrite node_set_inner. cbn zeta.
    pose proof (segment_lt (hk key) d) as Hidx. set (idx := segment (hk key) d) in *.
    destruct (Z.testbit bm (Z.of_nat idx)) eqn:Hb.
    + destruct (slot_present bm cs idx Hidx Hlen Hb) as [c Hc]. rewrite Hc. intros Hl.
      apply (result_child_leaves _ _ _ c _ _ d) in Hl; [|done..]. destruct Hl as [Hl|Hl]; [by left|].
      destruct (Hch idx c Hidx Hc) as [Hwc _].
      assert (c ∈ cs) as Hin by (apply (slot_elem bm); eauto).
      rewrite Forall_forall in IH. destruct (IH c Hin (S d) key es l Hwc Hl) as [Hlc|?]; [left|by right].
      apply elem_node_leaves_inner; eauto 10.
    + destruct es as [|e es]; [by left|]. unfold result_leaves; simpl result_node.
      rewrite !elem_node_leaves_inner by (done || by apply length_slot_insert).
      intros (i & x & Hi & Hs & Hl). rewrite (slot_insert bm cs idx Hidx Hlen) in Hs by done.
      case_bool_decide; [simplify_eq|left; eauto 10].
      rewrite node_leaves_leafNode in Hl. apply list_elem_of_singleton in Hl. by right.
  - destruct (wf_leaf_inv _ _ _ _ _ Hwf) as (-> & -> & _ & _ & _ & Hnd).
    rewrite node_set_leaf. unfold result_leaves. change (node_leaves (mkNode 0 [] (l0 :: ls))) with (l0 :: ls).
    destruct (find_index key (l0 :: ls)) as [i|] eqn:Hi.
    + destruct (updateLeafEntry_cases _ i key es Hi Hnd) as (a & x & b & -> & Hx & Ha & Hb & ->).
      rewrite elem_of_app, elem_of_cons.
      repeat case_bool_decide; cbn [result_node]; rewrite ?node_leaves_leafNode.
      * by intros ?%elem_of_nil.
      * rewrite elem_of_app. tauto.
      * rewrite elem_of_app, elem_of_cons. tauto.
    + case_bool_decide as He; simpl; [by left|]. intros Hl.
      apply setCollision_leaves in Hl as [?|?]; auto.
Qed.

Lemma set_child_wf bm cs idx c r d key es :
  (d < hamtMaxDepth)%nat → (idx < 32)%nat → wf_node d (mkNode bm cs []) →
  slot bm cs idx = Some c → segment (hk key) d = idx → result_wf (S d) c r →
  (∀ l, l ∈ result_leaves c r → l ∈ node_leaves c ∨ (l = new_leaf key es ∧ es ≠ [])) →
  result_wf d (mkNode bm cs []) (set_child bm cs idx r).
Proof.
  intros Hd Hidx Hwf Hc Hkey Hr Hl. destruct (wf_inner_inv _ _ _ Hwf) as (_ & Hlen & Hch).
  assert (Z.testbit bm (Z.of_nat idx) = true) as Hb.
  { unfold slot in Hc. by destruct (Z.testbit bm (Z.of_nat idx)). }
  destruct r as [| |c']; unfold result_wf in *; simpl in *; [done| |].
  - destruct (_ =? 0); simpl; [done|]. apply wf_inner; [done|by apply length_slot_delete|].
    intros i x Hi. rewrite (slot_delete bm cs idx Hidx Hlen) by done.
    case_bool_decide; [done|]. by apply Hch.
  - apply wf_inner; [done|by rewrite length_insert|].
    intros i x Hi. rewrite (slot_replace bm cs idx Hidx Hlen) by done.
    case_bool_decide as Hii; [|by apply Hch]. intros [= <-]. split; [done|].
    apply Forall_forall. intros l Hlc. destruct (Hch idx c Hidx Hc) as [_ Hseg].
    rewrite Forall_forall in Hseg. destruct (Hl l Hlc) as [?|[-> _]]; [subst; auto|].
    simpl. congruence.
Qed.

(** [set] preserves the trie invariant. *)
Lemma node_set_wf n : ∀ d key es,
  wf_node d n → result_wf d n (node_set n key (hk key) es d).
Proof.
  induction n as [bm cs ls IH] using HamtNode_rect'. intros d key es Hwf.
  destruct ls as [|l0 ls].
  - pose proof Hwf as Hwf'. apply wf_inner_inv in Hwf' as (Hd & Hlen & Hch).
    rewrite node_set_inner. cbn zeta.
    pose proof (segment_lt (hk key) d) as Hidx. set (idx := segment (hk key) d) in *.
    destruct (Z.testbit bm (Z.of_nat idx)) eqn:Hb.
    + destruct (slot_present bm cs idx Hidx Hlen Hb) as [c Hc]. rewrite Hc.
      destruct (Hch idx c Hidx Hc) as [Hwc _].
      assert (c ∈ cs) as Hin by (apply (slot_elem bm); eauto).
      rewrite Forall_forall in IH. apply (set_child_wf _ _ _ c _ _ key es); auto.
      intros l. by apply node_set_leaves.
    + destruct es as [|e es]; [done|]. unfold result_wf; simpl.
      apply wf_inner; [done|by apply length_slot_insert|].
      intros i x Hi. rewrite (slot_insert bm cs idx Hidx Hlen) by done.
      case_bool_decide; [|by apply Hch]. intros [= <-].
      split; [by apply wf_singleton; [lia|]|]. rewrite node_leaves_leafNode. by repeat constructor.
  - destruct (wf_leaf_inv _ _ _ _ _ Hwf) as (-> & -> & _ & _ & _ & Hnd).
    rewrite node_set_leaf. change (mkNode 0 [] ?x) with (leafNode x) in *. unfold result_wf.
    destruct (find_index key (l0 :: ls)) as [i|] eqn:Hi.
    + destruct (updateLeafEntry_cases _ i key es Hi Hnd) as (a & x & b & Heq & Hx & Ha & Hb & ->).
      rewrite Heq in Hwf.
      repeat case_bool_decide; simpl; [done|by apply (wf_leaf_delete _ _ x)|].
      by apply (wf_leaf_replace _ _ x).
    + case_bool_decide as He; simpl; [done|]. unfold setCollision.
      destruct (collides_of_wf d l0 ls key Hwf Hi) as [Hc Hdd]. rewrite <- Hdd at 1.
      by apply setCollision_wf.
Qed.

(** ** Lookup and iteration agree *)

Lemma wf_leaves_ok n : ∀ d, wf_node d n → Forall leaf_ok (node_leaves n).
Proof.
  induction n as [bm cs ls IH] using HamtNode_rect'. intros d Hwf. destruct ls as [|l ls].
  - apply wf_inner_inv in Hwf as (Hd & Hlen & Hch). apply Forall_forall. intros l.
    rewrite elem_node_leaves_inner by done. intros (i & c & Hi & Hc & Hl).
    assert (c ∈ cs) as Hin by (apply (slot_elem bm); eauto).
    rewrite Forall_forall in IH. destruct (Hch i c Hi Hc) as [Hwc _].
    specialize (IH c Hin (S d) Hwc). rewrite Forall_forall in IH. auto.
  - by apply wf_leaf_inv in Hwf as (_ & _ & _ & _ & ? & _).
Qed.

Lemma node_get_in n : ∀ d l,
  wf_node d n → l ∈ node_leaves n →
  node_get n (entityID l) (hk (entityID l)) d = crdtEntries l.
Proof.
  induction n as [bm cs ls IH] using HamtNode_rect'. intros d l Hwf Hl. destruct ls as [|l0 ls].
  - pose proof (wf_leaves_ok _ _ Hwf) as Hok. rewrite Forall_forall in Hok.
    destruct (Hok l Hl) as [Hh _]. apply wf_inner_inv in Hwf as (Hd & Hlen & Hch).
    rewrite elem_node_leaves_inner in Hl by done. destruct Hl as (i & c & Hi & Hc & Hl).
    assert (c ∈ cs) as Hin by (apply (slot_elem bm); eauto).
    destruct (Hch i c Hi Hc) as [Hwc Hseg]. rewrite Forall_forall in Hseg.
    rewrite node_get_inner by done. rewrite <- Hh, (Hseg l Hl), Hc, Hh.
    rewrite Forall_forall in IH. auto.
  - apply wf_leaf_inv in Hwf as (-> & -> & _ & _ & _ & Hnd). rewrite node_get_leaf.
    by apply find_leaf_in.
Qed.

Lemma node_get_some n : ∀ d k,
  wf_node d n → node_get n k (hk k) d ≠ [] →
  new_leaf k (node_get n k (hk k) d) ∈ node_leaves n.
Proof.
  induction n as [bm cs ls IH] using HamtNode_rect'. intros d k Hwf Hg. destruct ls as [|l0 ls].
  - apply wf_inner_inv in Hwf as (Hd & Hlen & Hch). apply elem_node_leaves_inner; [done|].
    rewrite node_get_inner in * by done. pose proof (segment_lt (hk k) d) as Hidx.
    destruct (slot bm cs (segment (hk k) d)) as [c|] eqn:Hc; [|done].
    assert (c ∈ cs) as Hin by (apply (slot_elem bm); eauto).
    destruct (Hch _ c Hidx Hc) as [Hwc _]. rewrite Forall_forall in IH.
    exists (segment (hk k) d), c. auto.
  - apply wf_leaf_inv in Hwf as (-> & -> & _ & _ & Hok & Hnd). rewrite node_get_leaf in *.
    apply find_leaf_some in Hg as (l & Hl & <- & <-).
    rewrite Forall_forall in Hok. destruct (Hok l Hl) as [Hh _].
    unfold new_leaf. rewrite <- Hh. by destruct l.
Qed.

Lemma wf_keys_nodup n : ∀ d, wf_node d n → NoDup (leaf_keys (node_leaves n)).
Proof.
  induction n as [bm cs ls IH] using HamtNode_rect'. intros d Hwf. destruct ls as [|l ls].
  - pose proof (wf_leaves_ok _ _ Hwf) as Hok. rewrite Forall_forall in Hok.
    pose proof Hwf as Hwf'. apply wf_inner_inv in Hwf' as (Hd & Hlen & Hch).
    cbn [node_leaves]. unfold leaf_keys. rewrite concat_map, map_map.
    assert (∀ p c, cs !! p = Some c → ∃ i, (i < 32)%nat ∧ slot bm cs i = Some c ∧ rank bm i = p) as Hs.
    { intros p c Hp. pose proof (lookup_lt_Some _ _ _ Hp) as Hlt. rewrite Hlen in Hlt.
      apply rank_surj in Hlt as (i & Hi & Hb & <-). exists i. unfold slot. by rewrite Hb. }
    apply NoDup_concat_map.
    + intros c Hc. apply (slot_elem bm) in Hc as (i & Hi & Hsl); [|done].
      destruct (Hch i c Hi Hsl) as [Hwc _]. rewrite Forall_forall in IH.
      apply (IH c) with (d := S d); [|done]. apply (slot_elem bm); eauto.
    + intros p q c c' x Hp Hq (l & -> & Hl)%list_elem_of_fmap (l' & Hll & Hl')%list_elem_of_fmap.
      destruct (Hs p c Hp) as (i & Hi & Hsi & <-). destruct (Hs q c' Hq) as (j & Hj & Hsj & <-).
      destruct (Hch i c Hi Hsi) as [_ H1]. destruct (Hch j c' Hj Hsj) as [_ H2].
      rewrite Forall_forall in H1, H2. f_equal. rewrite <- (H1 l Hl), <- (H2 l' Hl').
      assert (l ∈ node_leaves (mkNode bm cs [])) as Hn1 by (apply elem_node_leaves_inner; eauto 10).
      assert (l' ∈ node_leaves (mkNode bm cs [])) as Hn2 by (apply elem_node_leaves_inner; eauto 10).
      destruct (Hok l Hn1) as [-> _]. destruct (Hok l' Hn2) as [-> _]. by rewrite Hll.
  - by apply wf_leaf_inv in Hwf as (_ & _ & _ & _ & _ & ?).
Qed.
End Trie.

(** ** forEach visits the leaves in order and stops when the callback says so *)

Lemma visit_leaves_app {St} (fn : St → string → list CRDTEntry → St * bool) a b s :
  visit_leaves fn (a ++ b) s =
  match visit_leaves fn a s with (s', true) => visit_leaves fn b s' | r => r end.
Proof.
  revert s. induction a as [|l a IH]; intros s; simpl; [done|].
  destruct (fn s (entityID l) (crdtEntries l)) as [s' []]; [apply IH|done].
Qed.

Lemma node_forEach_spec {St} (fn : St → string → list CRDTEntry → St * bool) n : ∀ s,
  node_forEach fn n s = visit_leaves fn (node_leaves n) s.
Proof.
  induction n as [bm cs ls IH] using HamtNode_rect'. intros s. destruct ls; [|done].
  cbn [node_forEach node_leaves]. revert s.
  induction IH as [|c cs Hc Hcs IHcs]; intros s; [done|]. cbn [map concat].
  rewrite visit_leaves_app, <- Hc. destruct (node_forEach fn c s) as [s' []]; [apply IHcs|done].
Qed.
