(* ===== verification/HamtMap.v ===== *)
(** The HAMT wrapper of pkg/sync/hamt.go: Get, Set, Delete, ForEach, Len and
    AllEntries over a trie root, and its refinement to a finite map from entity
    ids to non-empty entry slices. *)
From S2P Require Import Prelude Bytes Dots Hamt.

(** ** Data and operations *)

Section HAMT.
Context `{MH : MapHash}.

(** [root] is the root NodePtr ([None] for the null pointer), [seed] the
    maphash seed, [count] the number of entities.  The arena pointer is not
    modelled. *)
Record HAMT := mkHAMT { root : option HamtNode; seed : Z; count : Z }.

(** NewHAMT with the seed [maphash.MakeSeed] returned; newHAMTWithSeed. *)
Definition NewHAMT (sd : Z) : HAMT := mkHAMT (Some (mkNode 0 [] [])) sd 0.

Definition seededHash (sd : Z) (key : string) : Z := maphash sd (string_bytes key).
Definition hashKey (h : HAMT) (key : string) : Z := seededHash (seed h) key.

Definition HAMT_Len (h : HAMT) : Z := count h.

Definition HAMT_Get (h : HAMT) (key : string) : list CRDTEntry :=
  match root h with
  | Some n => node_get n key (hashKey h key) 0
  | None => []
  end.

Definition HAMT_Set (h : HAMT) (key : string) (entries : list CRDTEntry) : HAMT :=
  let hash := hashKey h key in
  let existing := HAMT_Get h key in
  let newRoot :=
    match root h with
    | Some n => result_node n (node_set n key hash entries 0)
    | None => None
    end in
  let delta :=
    match existing, entries with
    | [], _ :: _ => 1
    | _ :: _, [] => -1
    | _, _ => 0
    end in
  mkHAMT newRoot (seed h) (count h + delta).

Definition HAMT_Delete (h : HAMT) (key : string) : HAMT :=
  match HAMT_Get h key with
  | [] => h
  | _ :: _ =>
      let newRoot :=
        match root h with
        | Some n => result_node n (node_delete n key (hashKey h key) 0)
        | None => None
        end in
      mkHAMT newRoot (seed h) (count h - 1)
  end.

Definition HAMT_ForEach {St} (fn : St → string → list CRDTEntry → St * bool) (h : HAMT) (s : St) : St :=
  match root h with
  | Some n => (node_forEach fn n s).1
  | None => s
  end.

Definition HAMT_AllEntries (h : HAMT) : list CRDTEntry :=
  HAMT_ForEach (λ result _ entries, (result ++ entries, true)) h [].

(** ** Abstraction *)

Definition hamt_items (h : HAMT) : list (string * list CRDTEntry) :=
  match root h with
  | Some n => map (λ l, (entityID l, crdtEntries l)) (node_leaves n)
  | None => []
  end.

(** The map a HAMT stands for. *)
Definition hamt_map (h : HAMT) : gmap string (list CRDTEntry) := list_to_map (hamt_items h).

Definition wf_HAMT (h : HAMT) : Prop :=
  (∃ n, root h = Some n ∧ wf_node (hashKey h) 0 n) ∧
  count h = Z.of_nat (length (hamt_items h)).

(** Absent entities and empty slices are the same thing to a reader. *)
Definition nonempty {A} (l : list A) : option (list A) :=
  match l with [] => None | _ => Some l end.

Lemma nonempty_Some {A} (l l' : list A) : nonempty l = Some l' ↔ l = l' ∧ l ≠ [].
Proof. destruct l; simpl; naive_solver. Qed.

Lemma items_nodup h : wf_HAMT h → NoDup (hamt_items h).*1.
Proof.
  intros [(n & Hr & Hwf) _]. unfold hamt_items. rewrite Hr.
  apply wf_keys_nodup in Hwf. unfold leaf_keys in Hwf.
  replace ((map (λ l, (entityID l, crdtEntries l)) (node_leaves n)).*1)
    with (map entityID (node_leaves n)); [done|].
  by rewrite <- list_fmap_compose.
Qed.

Lemma hamt_map_lookup h k : wf_HAMT h → hamt_map h !! k = nonempty (HAMT_Get h k).
Proof.
  intros Hwf. pose proof (items_nodup h Hwf) as Hnd. destruct Hwf as [(n & Hr & Hwf) _].
  apply option_eq. intros es. unfold hamt_map.
  rewrite <- elem_of_list_to_map by done. rewrite nonempty_Some.
  unfold hamt_items, HAMT_Get. rewrite Hr. rewrite list_elem_of_fmap. split.
  - intros (l & [= -> ->] & Hl). pose proof (wf_leaves_ok _ _ _ Hwf) as Hok.
    rewrite Forall_forall in Hok. destruct (Hok l Hl) as [_ Hne].
    by rewrite (node_get_in _ _ _ _ Hwf Hl).
  - intros [<- Hne]. eexists. split; [|by apply node_get_some]. done.
Qed.

Lemma hamt_map_size h : wf_HAMT h → HAMT_Len h = Z.of_nat (size (hamt_map h)).
Proof.
  intros Hwf. pose proof (items_nodup h Hwf) as Hnd. destruct Hwf as [_ Hc].
  unfold HAMT_Len. rewrite Hc. f_equal. unfold hamt_map.
  rewrite <- (length_map_to_list (list_to_map (hamt_items h) : gmap _ _)).
  by rewrite map_to_list_to_map.
Qed.

Lemma wf_NewHAMT sd : wf_HAMT (NewHAMT sd) ∧ hamt_map (NewHAMT sd) = ∅.
Proof.
  split; [|done]. split; [|done]. exists (mkNode 0 [] []). split; [done|].
  apply wf_inner; [unfold hamtMaxDepth; lia|done|].
  intros i c _. unfold slot. by rewrite Z.bits_0.
Qed.

Lemma HAMT_Get_Set h k es k' :
  wf_HAMT h → HAMT_Get (HAMT_Set h k es) k' = if String.eqb k' k then es else HAMT_Get h k'.
Proof.
  intros [(n & Hr & Hwf) _]. unfold HAMT_Get, HAMT_Set, hashKey. simpl. rewrite Hr.
  exact (node_set_get (seededHash (seed h)) n 0 k es k' Hwf).
Qed.

Lemma list_to_map_agree h m :
  (∃ n, root h = Some n ∧ wf_node (hashKey h) 0 n) →
  (∀ k, nonempty (HAMT_Get h k) = m !! k) → hamt_map h = m.
Proof.
  intros Hr Hg. apply map_eq. intros k. rewrite <- Hg.
  pose (h' := mkHAMT (root h) (seed h) (Z.of_nat (length (hamt_items h)))).
  assert (wf_HAMT h') as Hwf by (split; [exact Hr|done]).
  exact (hamt_map_lookup h' k Hwf).
Qed.

Lemma items_size h :
  (∃ n, root h = Some n ∧ wf_node (hashKey h) 0 n) → length (hamt_items h) = size (hamt_map h).
Proof.
  intros Hr. pose (h' := mkHAMT (root h) (seed h) (Z.of_nat (length (hamt_items h)))).
  assert (wf_HAMT h') as Hwf by (split; [exact Hr|done]).
  pose proof (hamt_map_size h' Hwf) as Hs. unfold HAMT_Len in Hs. simpl in Hs.
  change (hamt_map h') with (hamt_map h) in Hs. lia.
Qed.

(** Set of a non-empty slice refines map insertion. *)
Lemma HAMT_Set_insert h k es :
  wf_HAMT h → es ≠ [] →
  wf_HAMT (HAMT_Set h k es) ∧ hamt_map (HAMT_Set h k es) = <[k := es]> (hamt_map h).
Proof.
  intros Hwf Hes. pose proof Hwf as [(n & Hr & Hn) Hc].
  assert (∃ n', root (HAMT_Set h k es) = Some n' ∧ wf_node (hashKey (HAMT_Set h k es)) 0 n') as Hroot.
  { unfold HAMT_Set. simpl. rewrite Hr.
    pose proof (node_set_wf (hashKey h) n 0 k es Hn) as Hw. unfold result_wf in Hw.
    pose proof (node_set_get (hashKey h) n 0 k es k Hn) as Hg.
    rewrite String.eqb_refl in Hg. unfold result_get in Hg.
    destruct (result_node n _) as [n'|]; [|by subst]. exists n'. split; [done|exact Hw]. }
  assert (hamt_map (HAMT_Set h k es) = <[k := es]> (hamt_map h)) as Hm.
  { apply list_to_map_agree; [done|]. intros k'. rewrite HAMT_Get_Set by done.
    rewrite lookup_insert. destruct (String.eqb_spec k' k) as [->|Hne].
    - rewrite decide_True by done. by destruct es.
    - rewrite decide_False by congruence. by rewrite hamt_map_lookup. }
  split; [|done]. split; [done|]. rewrite (items_size _ Hroot), Hm.
  unfold HAMT_Set. simpl. rewrite Hc, (items_size h) by eauto.
  destruct es as [|e es]; [done|]. pose proof (hamt_map_lookup h k Hwf) as Hl.
  destruct (HAMT_Get h k) eqn:E; simpl in Hl.
  - rewrite map_size_insert_None by done. lia.
  - rewrite map_size_insert_Some by (rewrite Hl; eauto). lia.
Qed.

Lemma HAMT_Delete_map h k :
  wf_HAMT h →
  hamt_map (HAMT_Delete h k) = delete k (hamt_map h) ∧
  HAMT_Len (HAMT_Delete h k) = Z.of_nat (size (hamt_map (HAMT_Delete h k))) ∧
  (wf_HAMT (HAMT_Delete h k) ∨ root (HAMT_Delete h k) = None).
Proof.
  intros Hwf. pose proof (hamt_map_lookup h k Hwf) as Hl. unfold HAMT_Delete.
  destruct (HAMT_Get h k) as [|e es] eqn:E; simpl in Hl.
  { rewrite delete_id by done. split_and!; [done|by apply hamt_map_size|by left]. }
  pose proof Hwf as [(n & Hr & Hn) Hc]. rewrite Hr. unfold node_delete.
  set (h' := mkHAMT _ _ _).
  assert (HAMT_Len h' = Z.of_nat (size (delete k (hamt_map h)))) as Hlen.
  { unfold HAMT_Len. simpl. rewrite map_size_delete_Some by (rewrite Hl; eauto).
    rewrite Hc, (items_size h) by eauto.
    assert (size (hamt_map h) ≠ 0%nat).
    { intros H0%map_size_empty_inv. by rewrite H0, lookup_empty in Hl. }
    lia. }
  assert (∀ k', nonempty (HAMT_Get h' k') = delete k (hamt_map h) !! k') as Hg.
  { intros k'. unfold HAMT_Get. simpl.
    pose proof (node_set_get (hashKey h) n 0 k [] k' Hn) as Hg. unfold result_get in Hg.
    change (hashKey h' k') with (hashKey h k'). rewrite Hg, lookup_delete.
    destruct (String.eqb_spec k' k) as [He|Hne].
    - by rewrite decide_True by congruence.
    - rewrite decide_False by congruence. rewrite hamt_map_lookup by done.
      unfold HAMT_Get. by rewrite Hr. }
  pose proof (node_set_wf (hashKey h) n 0 k [] Hn) as Hw. unfold result_wf in Hw.
  destruct (result_node n (node_set n k (hashKey h k) [] 0)) as [n'|] eqn:Hres.
  - assert (hamt_map h' = delete k (hamt_map h)) as Hm by (apply list_to_map_agree; eauto).
    rewrite Hm. split_and!; [done|done|left]. split; [by exists n'|].
    change (count h') with (HAMT_Len h'). rewrite Hlen, items_size, Hm by (by exists n').
    done.
  - assert (hamt_map h' = delete k (hamt_map h)) as Hm.
    { change (hamt_map h') with (∅ : gmap string (list CRDTEntry)).
      symmetry. apply map_empty. intros k'. rewrite <- Hg. done. }
    rewrite Hm. split_and!; [done|done|by right].
Qed.

Lemma visit_leaves_collect {St} (f : St → string → list CRDTEntry → St) ls s :
  visit_leaves (λ s k es, (f s k es, true)) ls s =
  (foldl (λ s it, f s it.1 it.2) s (map (λ l, (entityID l, crdtEntries l)) ls), true).
Proof. revert s. induction ls as [|l ls IH]; intros s; simpl; [done|]. apply IH. Qed.

(** A callback that never stops is folded over the items. *)
Lemma HAMT_ForEach_fold {St} (f : St → string → list CRDTEntry → St) h s :
  HAMT_ForEach (λ s k es, (f s k es, true)) h s =
  foldl (λ s it, f s it.1 it.2) s (hamt_items h).
Proof.
  unfold HAMT_ForEach, hamt_items. destruct (root h) as [n|]; [|done].
  by rewrite node_forEach_spec, visit_leaves_collect.
Qed.

Lemma hamt_items_perm h : wf_HAMT h → hamt_items h ≡ₚ map_to_list (hamt_map h).
Proof. intros Hwf. unfold hamt_map. symmetry. apply map_to_list_to_map. by apply items_nodup. Qed.

Lemma hamt_items_elem h k es : wf_HAMT h → (k, es) ∈ hamt_items h ↔ HAMT_Get h k = es ∧ es ≠ [].
Proof.
  intros Hwf. rewrite elem_of_list_to_map by by apply items_nodup.
  fold (hamt_map h). rewrite hamt_map_lookup, nonempty_Some by done. naive_solver.
Qed.

Lemma HAMT_AllEntries_items h : HAMT_AllEntries h = concat (map snd (hamt_items h)).
Proof.
  unfold HAMT_AllEntries. rewrite (HAMT_ForEach_fold (λ r _ es, r ++ es)).
  rewrite <- (app_nil_l (concat _)). generalize ([] : list CRDTEntry) as acc.
  induction (hamt_items h) as [|[k es] l IH]; intros acc; simpl; [by rewrite app_nil_r|].
  by rewrite IH, app_assoc.
Qed.
End HAMT.

Arguments HAMT : clear implicits.

(** ** Properties *)

Section Properties.
Context `{MH : MapHash}.

(** Set of a non-empty slice on a well-formed HAMT refines finite-map
    insertion: the trie invariant is kept, exactly the binding of the key
    changes for every reader, and Len is the number of entities. *)
Theorem hamt_set_refines_insert (h : HAMT) (k : string) (es : list CRDTEntry) :
  wf_HAMT h → es ≠ [] →
  wf_HAMT (HAMT_Set h k es) ∧
  hamt_map (HAMT_Set h k es) = <[k := es]> (hamt_map h) ∧
  (∀ k', HAMT_Get (HAMT_Set h k es) k' = if String.eqb k' k then es else HAMT_Get h k') ∧
  HAMT_Len (HAMT_Set h k es) = Z.of_nat (size (hamt_map (HAMT_Set h k es))).
Proof.
  intros Hwf Hes. destruct (HAMT_Set_insert h k es Hwf Hes) as [Hw Hm].
  split_and!; [done|done| |by apply hamt_map_size]. intros k'. by apply HAMT_Get_Set.
Qed.

(** ForEach visits every entity exactly once with the slice Get returns
    for it: collecting the visited pairs gives a permutation of the map's
    bindings, and a pair is visited iff Get answers it. *)
Theorem hamt_forEach_enumerates (h : HAMT) :
  wf_HAMT h →
  let visited := HAMT_ForEach (λ acc k es, (acc ++ [(k, es)], true)) h [] in
  visited ≡ₚ map_to_list (hamt_map h) ∧ NoDup visited.*1 ∧
  ∀ k es, (k, es) ∈ visited ↔ HAMT_Get h k = es ∧ es ≠ [].
Proof.
  intros Hwf. rewrite (HAMT_ForEach_fold (λ acc k es, acc ++ [(k, es)])).
  assert (∀ acc l, foldl (λ s (it : string * list CRDTEntry), s ++ [(it.1, it.2)]) acc l = acc ++ l) as Hf.
  { intros acc l. revert acc. induction l as [|[k es] l IH]; intros acc; simpl;
      [by rewrite app_nil_r|]. by rewrite IH, <- app_assoc. }
  rewrite Hf. simpl. split_and!; [by apply hamt_items_perm|by apply items_nodup|].
  intros k es. by apply hamt_items_elem.
Qed.

(** Delete on a well-formed HAMT refines map deletion, and Len stays the
    number of entities. *)
Theorem hamt_delete_refines_delete (h : HAMT) (k : string) :
  wf_HAMT h →
  hamt_map (HAMT_Delete h k) = delete k (hamt_map h) ∧
  HAMT_Len (HAMT_Delete h k) = Z.of_nat (size (hamt_map (HAMT_Delete h k))).
Proof. intros Hwf. destruct (HAMT_Delete_map h k Hwf) as (? & ? & _). done. Qed.

(** Deleting the only entity leaves the null root, and from then on Set
    stores nothing: whatever is written afterwards is not found by Get, while
    Len counts it. *)
Theorem hamt_delete_last_loses_writes (sd : Z) (k k' : string) (e e' : CRDTEntry)
    (es es' : list CRDTEntry) :
  let h := HAMT_Delete (HAMT_Set (NewHAMT sd) k (e :: es)) k in
  HAMT_Get (HAMT_Set h k' (e' :: es')) k' = [] ∧ HAMT_Len (HAMT_Set h k' (e' :: es')) = 1.
Proof.
  set (h1 := HAMT_Set (NewHAMT sd) k (e :: es)).
  destruct (wf_NewHAMT sd) as [Hw0 Hm0].
  assert (root (HAMT_Delete h1 k) = None ∧ count (HAMT_Delete h1 k) = 0) as [Hr Hc].
  { unfold HAMT_Delete. assert (HAMT_Get h1 k = e :: es) as ->.
    { unfold h1. by rewrite HAMT_Get_Set, String.eqb_refl. }
    unfold h1, HAMT_Set, NewHAMT, hashKey. cbn [root seed count].
    rewrite node_set_inner. cbn zeta. rewrite Z.bits_0, Z.lor_0_l. cbn [result_node app].
    unfold node_delete. rewrite node_set_inner. cbn zeta. cbn [root].
    set (idx := segment _ 0). pose proof (segment_lt (seededHash sd k) 0) as Hidx. fold idx in Hidx.
    rewrite bit_of_testbit, bool_decide_true by done. rewrite take_nil, drop_nil. cbn [app].
    rewrite slot_single, bool_decide_true by done.
    unfold leafNode. rewrite (node_set_leaf (seededHash sd)). cbn [find_index entityID].
    rewrite String.eqb_refl. cbn [updateLeafEntry length Nat.eqb set_child].
    rewrite Z.ldiff_diag. split; [done|].
    unfold HAMT_Get. cbn [root]. unfold hashKey. cbn [seed].
    rewrite node_get_inner by (unfold hamtMaxDepth; lia).
    unfold slot. by rewrite Z.bits_0. }
  unfold HAMT_Get, HAMT_Len, HAMT_Set. cbn [root count]. rewrite Hr. split; [done|].
  rewrite Hc. unfold HAMT_Get. by rewrite Hr.
Qed.
End Properties.

(** ** Witnesses *)

Definition sample_hamt : HAMT := @HAMT_Set fnv_maphash (NewHAMT 7) "a" [sample_entry 1 1 5].

Lemma sample_hamt_wf : @wf_HAMT fnv_maphash sample_hamt.
Proof. apply HAMT_Set_insert; [apply wf_NewHAMT|done]. Qed.

Lemma hamt_set_refines_insert_witness :
  @HAMT_Get fnv_maphash (@HAMT_Set fnv_maphash sample_hamt "b" [sample_entry 2 1 5]) "a" =
    [sample_entry 1 1 5] ∧
  HAMT_Len (@HAMT_Set fnv_maphash sample_hamt "b" [sample_entry 2 1 5]) = 2.
Proof.
  pose proof (@hamt_set_refines_insert fnv_maphash sample_hamt "b" [sample_entry 2 1 5]
                sample_hamt_wf ltac:(done)) as (_ & _ & Hg & _).
  split; [rewrite Hg|]; vm_compute; reflexivity.
Defined.

Lemma hamt_forEach_enumerates_witness :
  @HAMT_ForEach _ (λ acc k es, (acc ++ [(k, es)], true)) sample_hamt [] ≡ₚ
  map_to_list (hamt_map sample_hamt).
Proof. exact (proj1 (@hamt_forEach_enumerates fnv_maphash sample_hamt sample_hamt_wf)). Defined.

Lemma hamt_delete_refines_delete_witness :
  hamt_map (@HAMT_Delete fnv_maphash sample_hamt "a") = delete "a" (hamt_map sample_hamt).
Proof. exact (proj1 (@hamt_delete_refines_delete fnv_maphash sample_hamt "a" sample_hamt_wf)). Defined.
