(* ===== verification/Lamport.v ===== *)
(** The Lamport clock of pkg/sync (crdt.go, crdt_reconstruct_skew.go), and
    first IEEE-754 binary64 as the skew bound of pkg/sync uses it: conversions from
    and to uint64, multiplication, addition, comparison and [math.Ceil], on the
    executable specification floats of the standard library (round to nearest
    even; a compiler that fuses a multiply-add rounds once instead of twice). *)
From Stdlib Require Export SpecFloat.
From S2P Require Import Prelude Bytes Dots.

Abbreviation f64 := spec_float.

Definition f64_zero : f64 := S754_zero false.
Definition f64_mul (x y : f64) : f64 := SFmul 53 1024 x y.
Definition f64_add (x y : f64) : f64 := SFadd 53 1024 x y.
Definition f64_ltb (x y : f64) : bool := SFltb x y.
Definition f64_leb (x y : f64) : bool := SFleb x y.

(** [float64(n)] for an integer [n >= 0]. *)
Definition f64_of_Z (n : Z) : f64 := binary_normalize 53 1024 n 0 false.

(** Integer part toward zero of a finite number. *)
Definition f64_trunc (x : f64) : Z :=
  match x with
  | S754_finite s m e =>
      let a := if 0 <=? e then Z.shiftl (Z.pos m) e else Z.shiftr (Z.pos m) (- e) in
      if s then - a else a
  | _ => 0
  end.

(** [uint64(x)] for an in-range [x]. *)
Definition f64_to_u64 (x : f64) : Z := u64 (f64_trunc x).

(** [math.Ceil]: infinities, NaN and zeros are returned as they are, and so is a
    number whose exponent is not negative. *)
Definition f64_ceil (x : f64) : f64 :=
  match x with
  | S754_finite s m e =>
      if 0 <=? e then x
      else if s then
        let q := Z.shiftr (Z.pos m) (- e) in
        if q =? 0 then S754_zero true else binary_normalize 53 1024 (- q) 0 true
      else
        let q := Z.shiftr (Z.pos m) (- e) in
        let exact := Z.shiftl q (- e) =? Z.pos m in
        f64_of_Z (if exact then q else q + 1)
  | _ => x
  end.

(** The constants [0.1], [0.9] (the exact constant 1.0 - 0.1 rounded once) and
    [float64(math.MaxUint64)], which rounds to 2^64. *)
Definition f64_0_1 : f64 := S754_finite false 7205759403792794 (-56).
Definition f64_0_9 : f64 := S754_finite false 8106479329266893 (-53).
Definition f64_2_64 : f64 := f64_of_Z (2 ^ 64).
Definition f64_60 : f64 := f64_of_Z 60.

Example f64_max_uint64_rounds : f64_of_Z u64_max = f64_2_64.
Proof. vm_compute. reflexivity. Qed.

Example f64_ceil_6_1 : f64_trunc (f64_ceil (f64_mul f64_0_1 (f64_of_Z 61))) = 7.
Proof. vm_compute. reflexivity. Qed.

Example f64_mul_exact : f64_mul f64_60 (f64_of_Z 100) = f64_of_Z 6000.
Proof. vm_compute. reflexivity. Qed.

(** * The Lamport clock of the engine (pkg/sync/crdt.go NextDot,
    AdvanceLamportTo, persistLamport, recoverLamport, Close's flush) and the
    skew bound computed from it (crdt_reconstruct_skew.go), one call at a time.
    LamportConc.v interleaves the same calls instruction by instruction. *)

(** ** Data *)

(** The clock fields of DeltaCRDTEngine.  [observedInboundRate] is the float
    whose bits observedInboundRateBits holds.  [offers] lists the values handed
    to persistCh, oldest first; whether the worker took one is up to it. *)
Record Clock := mkClock {
  lamportCounter : Z;
  lastSavedCounter : Z;
  observedInboundRate : f64;
  lamportSkewHorizonSeconds : f64;
  lamportSkewAbsoluteSlack : Z;
  offers : list Z;
}.

Record LamportSnapshot := mkSnapshot {
  Lamport : Z;
  ObservedInboundRate : f64;
  HorizonSeconds : f64;
  AbsoluteSlack : Z;
}.

Definition set_lamport (v : Z) (c : Clock) : Clock :=
  mkClock v (lastSavedCounter c) (observedInboundRate c) (lamportSkewHorizonSeconds c)
    (lamportSkewAbsoluteSlack c) (offers c).

(** A successful CompareAndSwap of lastSavedCounter and the non-blocking send. *)
Definition bump_saved (nextLimit : Z) (c : Clock) : Clock :=
  mkClock (lamportCounter c) nextLimit (observedInboundRate c) (lamportSkewHorizonSeconds c)
    (lamportSkewAbsoluteSlack c) (offers c ++ [nextLimit]).

Definition set_rate (r : f64) (c : Clock) : Clock :=
  mkClock (lamportCounter c) (lastSavedCounter c) r (lamportSkewHorizonSeconds c)
    (lamportSkewAbsoluteSlack c) (offers c).

Definition SetLamportHorizonSeconds (h : f64) (c : Clock) : Clock :=
  mkClock (lamportCounter c) (lastSavedCounter c) (observedInboundRate c) h
    (lamportSkewAbsoluteSlack c) (offers c).

Definition SetLamportAbsoluteSlack (s : Z) (c : Clock) : Clock :=
  mkClock (lamportCounter c) (lastSavedCounter c) (observedInboundRate c)
    (lamportSkewHorizonSeconds c) s (offers c).

Definition LamportSkewAbsoluteSlackUnbounded : Z := u64_max.

(** ** Clock operations *)

Definition NextDot (localNodeID : list Z) (c : Clock) : CausalDot * Clock :=
  let counter := lamportCounter c +ₒ 1 in
  let c := set_lamport counter c in
  let dot := mkDot localNodeID counter in
  if counter <=? lastSavedCounter c then (dot, c)
  else
    let nextLimit := counter +ₒ 1000 in
    if nextLimit <=? lastSavedCounter c then (dot, c)
    else (dot, bump_saved nextLimit c).

(** The EWMA update: alpha*float64(delta) + (1-alpha)*prev. *)
Definition ewma (delta : Z) (prev : f64) : f64 :=
  f64_add (f64_mul f64_0_1 (f64_of_Z delta)) (f64_mul f64_0_9 prev).

Definition AdvanceLamportTo (remoteCounter : Z) (c : Clock) : Clock :=
  let current := lamportCounter c in
  if remoteCounter <=? current then c
  else
    let c := set_lamport remoteCounter c in
    let c :=
      if remoteCounter <=? lastSavedCounter c then c
      else bump_saved (remoteCounter +ₒ 1000) c in
    set_rate (ewma (u64 (remoteCounter - current)) (observedInboundRate c)) c.

Definition LamportCounter (c : Clock) : Z := lamportCounter c.

Definition Clock_snapshot (c : Clock) : LamportSnapshot :=
  mkSnapshot (lamportCounter c) (observedInboundRate c) (lamportSkewHorizonSeconds c)
    (lamportSkewAbsoluteSlack c).

(** ** The lamport file

    [None] is an absent or unreadable file.  [ok] is whether every system call
    of persistLamport succeeded; the write goes to a temporary file and the
    rename is last, so a failure leaves the old contents. *)

Definition persistLamport (ok : bool) (val : Z) (file : option (list Z)) : option (list Z) :=
  if ok then Some (be_put 8 val) else file.

Definition recoverLamport (file : option (list Z)) : option Z :=
  match file with
  | None => None
  | Some data => if (length data <? 8)%nat then None else Some (be_get (slice 0 8 data))
  end.

(** The clock part of NewDeltaCRDTEngine. *)
Definition newClock (initialCounter : Z) (file : option (list Z)) : Clock :=
  let initialCounter :=
    match recoverLamport file with
    | Some recovered =>
        if (0 <? recovered) && (initialCounter <? recovered) then recovered else initialCounter
    | None => initialCounter
    end in
  mkClock initialCounter initialCounter f64_zero f64_60 1000 [].

(** The flush at the end of Close: the larger of the file's value and the
    watermark. *)
Definition Close_flush (ok : bool) (c : Clock) (file : option (list Z)) : option (list Z) :=
  let current := default 0 (recoverLamport file) in
  let final := lastSavedCounter c in
  let final := if final <? current then current else final in
  persistLamport ok final file.

(** ** The skew bound *)

Definition rateEnvelope (s : LamportSnapshot) : f64 :=
  if f64_ltb f64_zero (ObservedInboundRate s) && f64_ltb f64_zero (HorizonSeconds s)
  then f64_ceil (f64_mul (ObservedInboundRate s) (HorizonSeconds s))
  else f64_zero.

Definition envelope (s : LamportSnapshot) : Z :=
  if f64_leb f64_2_64 (rateEnvelope s) then u64_max
  else if f64_ltb f64_zero (rateEnvelope s) then f64_to_u64 (rateEnvelope s)
  else 0.

Definition MaxAcceptableDotCounter (s : LamportSnapshot) : Z :=
  let bound := Lamport s in
  if u64_max - bound <? envelope s then u64_max
  else
    let bound := bound + envelope s in
    if u64_max - bound <? AbsoluteSlack s then u64_max
    else bound + AbsoluteSlack s.

(** ** Sequences of clock calls *)

Inductive clock_op :=
| Mint
| Advance (remoteCounter : Z)
| Tune (h : f64) (s : Z).

Definition clock_step (id : list Z) (op : clock_op) (c : Clock) : list Z * Clock :=
  match op with
  | Mint => let '(d, c') := NextDot id c in ([Counter d], c')
  | Advance r => ([], AdvanceLamportTo r c)
  | Tune h s => ([], SetLamportAbsoluteSlack s (SetLamportHorizonSeconds h c))
  end.

(** The counters minted by a sequence of calls, in order. *)
Fixpoint clock_run (id : list Z) (ops : list clock_op) (c : Clock) : list Z * Clock :=
  match ops with
  | [] => ([], c)
  | op :: ops' =>
      let '(m, c1) := clock_step id op c in
      let '(ms, c2) := clock_run id ops' c1 in
      (m ++ ms, c2)
  end.

(** ** Lemmas *)

Definition wf_clock (c : Clock) : Prop :=
  is_u64 (lamportCounter c) ∧ is_u64 (lastSavedCounter c) ∧ is_u64 (lamportSkewAbsoluteSlack c).

(** Every counter the clock has reached is covered by the watermark. *)
Definition covered (c : Clock) : Prop := lamportCounter c <= lastSavedCounter c.

(** The headroom under which no addition of the clock wraps. *)
Definition headroom (n : Z) (c : Clock) : Prop :=
  0 <= lamportCounter c ∧ lamportCounter c + n + 1000 < 2 ^ 64.

Lemma NextDot_spec id c n :
  headroom n c → 1 <= n →
  (NextDot id c).1 = mkDot id (lamportCounter c + 1) ∧
  lamportCounter (NextDot id c).2 = lamportCounter c + 1 ∧
  lastSavedCounter c <= lastSavedCounter (NextDot id c).2 ∧
  covered (NextDot id c).2 ∧
  headroom (n - 1) (NextDot id c).2.
Proof.
  intros [H0 Hr] Hn. unfold NextDot, covered, headroom.
  rewrite !(u64_id (lamportCounter c + 1)) by words.
  rewrite (u64_id (lamportCounter c + 1 + 1000)) by words. simpl.
  destruct (Z.leb_spec (lamportCounter c + 1) (lastSavedCounter c)); simpl;
    [split_and!; done || lia|].
  destruct (Z.leb_spec (lamportCounter c + 1 + 1000) (lastSavedCounter c)); simpl;
    split_and!; done || lia.
Qed.

Lemma AdvanceLamportTo_max r c :
  lamportCounter (AdvanceLamportTo r c) = Z.max (lamportCounter c) r.
Proof.
  unfold AdvanceLamportTo. destruct (Z.leb_spec r (lamportCounter c)); simpl; [lia|].
  destruct (r <=? lastSavedCounter c); simpl; lia.
Qed.

Lemma AdvanceLamportTo_saved r c :
  0 <= r → r + 1000 < 2 ^ 64 → covered c →
  lastSavedCounter c <= lastSavedCounter (AdvanceLamportTo r c) ∧ covered (AdvanceLamportTo r c).
Proof.
  intros H0 Hr Hc. unfold AdvanceLamportTo, covered in *.
  destruct (Z.leb_spec r (lamportCounter c)); simpl; [lia|].
  destruct (Z.leb_spec r (lastSavedCounter c)); simpl; [lia|].
  rewrite u64_id by words. lia.
Qed.

Lemma AdvanceLamportTo_knobs r c :
  lamportSkewHorizonSeconds (AdvanceLamportTo r c) = lamportSkewHorizonSeconds c ∧
  lamportSkewAbsoluteSlack (AdvanceLamportTo r c) = lamportSkewAbsoluteSlack c.
Proof.
  unfold AdvanceLamportTo. destruct (r <=? lamportCounter c); [done|].
  simpl. by destruct (r <=? lastSavedCounter c).
Qed.

Lemma wf_AdvanceLamportTo r c : is_u64 r → wf_clock c → wf_clock (AdvanceLamportTo r c).
Proof.
  intros Hr (Hl & Hs & Hk). destruct (AdvanceLamportTo_knobs r c) as [_ Hk'].
  unfold wf_clock. rewrite Hk', AdvanceLamportTo_max. split_and!; [words| |done].
  unfold AdvanceLamportTo. destruct (r <=? lamportCounter c); [done|].
  simpl. destruct (r <=? lastSavedCounter c); [done|]. apply u64_range.
Qed.

Lemma wf_NextDot id c : wf_clock c → wf_clock (NextDot id c).2.
Proof.
  intros (Hl & Hs & Hk). unfold NextDot, wf_clock. cbn zeta.
  destruct (_ <=? _); [|destruct (_ <=? _)]; simpl; split_and!; done || apply u64_range.
Qed.

#[export] Hint Resolve wf_AdvanceLamportTo wf_NextDot : sovereign.

Lemma NextDot_counter id c : (NextDot id c).1 = mkDot id (lamportCounter c +ₒ 1).
Proof. unfold NextDot. cbn zeta. destruct (_ <=? _); [done|]. by destruct (_ <=? _). Qed.

Lemma NextDot_lamport id c : lamportCounter (NextDot id c).2 = lamportCounter c +ₒ 1.
Proof. unfold NextDot. cbn zeta. destruct (_ <=? _); [done|]. by destruct (_ <=? _). Qed.

Lemma recover_persist v file : is_u64 v → recoverLamport (persistLamport true v file) = Some v.
Proof.
  intros Hv. unfold recoverLamport, persistLamport. rewrite length_be_put. simpl.
  rewrite <- (app_nil_r (be_put 8 v)), slice_app_here by apply length_be_put.
  rewrite be_get_put by words. done.
Qed.

Lemma envelope_range s : is_u64 (envelope s).
Proof.
  unfold envelope. destruct (f64_leb _ _); [words|].
  destruct (f64_ltb _ _); [apply u64_range|words].
Qed.

(** The two saturating additions compute the exact sum capped at MaxUint64. *)
Lemma MaxAcceptable_min s :
  0 <= Lamport s → 0 <= AbsoluteSlack s →
  MaxAcceptableDotCounter s = Z.min u64_max (Lamport s + envelope s + AbsoluteSlack s).
Proof.
  intros HL HS. pose proof (envelope_range s) as [He _]. unfold MaxAcceptableDotCounter.
  destruct (Z.ltb_spec (u64_max - Lamport s) (envelope s)); [lia|].
  destruct (Z.ltb_spec (u64_max - (Lamport s + envelope s)) (AbsoluteSlack s)); lia.
Qed.

(** One call within the headroom: minted counters exceed the clock before the
    call, the clock and the watermark only grow, and the watermark covers the
    clock. *)
Lemma clock_step_spec id op c n :
  headroom n c → 1 <= n → covered c →
  (∀ r, op = Advance r → 0 <= r ∧ r + n + 1000 <= 2 ^ 64) →
  let '(m, c') := clock_step id op c in
  Forall (λ k, lamportCounter c < k <= lamportCounter c') m ∧
  lamportCounter c <= lamportCounter c' ∧
  lastSavedCounter c <= lastSavedCounter c' ∧
  covered c' ∧ headroom (n - 1) c' ∧
  (length m <= 1)%nat ∧
  (∀ r, op = Advance r → r <= lamportCounter c').
Proof.
  intros Hh Hn Hc Hr. destruct op as [|r|h s]; simpl.
  - destruct (NextDot_spec id c n Hh Hn) as (Hd & Hl & Hs & Hc' & Hh').
    destruct (NextDot id c) as [d c']. simpl in *. subst d. simpl.
    split_and!; try done; [|lia..]. constructor; [lia|done].
  - destruct (Hr r eq_refl) as [H0 Hb].
    destruct (AdvanceLamportTo_saved r c H0 ltac:(lia) Hc) as [Hs Hc'].
    pose proof (AdvanceLamportTo_max r c) as Hm. unfold headroom in *. rewrite Hm.
    split_and!; try done; try lia. intros ? [= ->]. lia.
  - unfold headroom, covered in *. simpl. split_and!; try done; lia.
Qed.

Lemma clock_run_spec id ops c :
  headroom (Z.of_nat (length ops)) c → covered c →
  (∀ r, Advance r ∈ ops → 0 <= r ∧ r + Z.of_nat (length ops) + 1000 <= 2 ^ 64) →
  let '(ms, c') := clock_run id ops c in
  StronglySorted Z.lt ms ∧
  Forall (λ k, lamportCounter c < k <= lamportCounter c') ms ∧
  lamportCounter c <= lamportCounter c' ∧
  lastSavedCounter c <= lastSavedCounter c' ∧ covered c' ∧
  (∀ r, Advance r ∈ ops → r <= lamportCounter c').
Proof.
  revert c. induction ops as [|op ops IH]; intros c Hh Hc Hr; simpl.
  { split_and!; try done; try lia; [constructor|]. by intros r ?%elem_of_nil. }
  pose proof (clock_step_spec id op c _ Hh ltac:(simpl; lia) Hc) as Hstep.
  destruct (clock_step id op c) as [m c1].
  destruct Hstep as (Hm & Hl & Hs & Hc1 & Hh1 & Hlen & Hadv).
  { intros r ->. apply Hr. left. }
  replace (Z.of_nat (length (op :: ops)) - 1) with (Z.of_nat (length ops)) in Hh1 by (simpl; lia).
  specialize (IH c1 Hh1 Hc1). destruct (clock_run id ops c1) as [ms c2].
  destruct IH as (Hss & Hf & Hl2 & Hs2 & Hc2 & Hadv2).
  { intros r Hin. destruct (Hr r) as [? Hb]; [by right|]. simpl in Hb. lia. }
  split_and!; try done; try lia.
  - destruct m as [|k [|]]; simpl in *; [done| |lia]. constructor; [done|].
    inversion_clear Hm as [|? ? Hk _]. eapply Forall_impl; [exact Hf|]. simpl. lia.
  - apply Forall_app. split; eapply Forall_impl; [exact Hm| |exact Hf|]; simpl; lia.
  - intros r [Heq|Hin]%elem_of_cons; [|by apply Hadv2].
    specialize (Hadv r (eq_sym Heq)). lia.
Qed.

(** ** Properties *)

(** Over any sequence of NextDot, AdvanceLamportTo and setter calls that
    stays clear of 2^64, the minted counters are strictly increasing (so dots of
    one node are unique), each exceeds the clock the sequence started from, the
    final clock is at least every remote counter applied, and the persistence
    watermark never moves back and covers the clock. *)
Theorem clock_run_unique_dots (id : list Z) (ops : list clock_op) (c : Clock) :
  headroom (Z.of_nat (length ops)) c → covered c →
  (∀ r, Advance r ∈ ops → 0 <= r ∧ r + Z.of_nat (length ops) + 1000 <= 2 ^ 64) →
  let '(ms, c') := clock_run id ops c in
  StronglySorted Z.lt ms ∧ Forall (λ k, lamportCounter c < k <= lastSavedCounter c') ms ∧
  lastSavedCounter c <= lastSavedCounter c' ∧
  (∀ r, Advance r ∈ ops → r <= lamportCounter c' <= lastSavedCounter c').
Proof.
  intros Hh Hc Hr. pose proof (clock_run_spec id ops c Hh Hc Hr) as H.
  destruct (clock_run id ops c) as [ms c']. destruct H as (Hss & Hf & Hl & Hs & Hc' & Hadv).
  unfold covered in Hc'. split_and!; try done.
  - eapply Forall_impl; [exact Hf|]. simpl. lia.
  - intros r Hin. specialize (Hadv r Hin). lia.
Qed.

(** The skew bound is the exact sum lamport + envelope + slack capped at
    MaxUint64: it never wraps, is never below the receiver's clock, and for an
    engine that has observed no inbound advance it is lamport + slack. *)
Theorem skew_bound_saturates (s : LamportSnapshot) :
  is_u64 (Lamport s) → is_u64 (AbsoluteSlack s) →
  MaxAcceptableDotCounter s = Z.min u64_max (Lamport s + envelope s + AbsoluteSlack s) ∧
  Lamport s <= MaxAcceptableDotCounter s <= u64_max ∧
  (ObservedInboundRate s = f64_zero →
   MaxAcceptableDotCounter s = Z.min u64_max (Lamport s + AbsoluteSlack s)) ∧
  (AbsoluteSlack s = LamportSkewAbsoluteSlackUnbounded → MaxAcceptableDotCounter s = u64_max).
Proof.
  intros [HL HL'] [HS HS']. pose proof (envelope_range s) as [He _].
  rewrite (MaxAcceptable_min s HL HS). split_and!; [done|unfold u64_max in *; lia|unfold u64_max in *; lia| |].
  - intros Hz. replace (envelope s) with 0; [f_equal; lia|].
    unfold envelope, rateEnvelope. by rewrite Hz.
  - unfold LamportSkewAbsoluteSlackUnbounded, u64_max in *. lia.
Qed.

(** [n] frames, each stamped exactly at the receiver's current bound. *)
Fixpoint ratchet (n : nat) (c : Clock) : Clock :=
  match n with
  | O => c
  | S n' => ratchet n' (AdvanceLamportTo (MaxAcceptableDotCounter (Clock_snapshot c)) c)
  end.

(** A peer that stamps every frame exactly at the receiver's current bound
    drives a fresh engine with the production knobs to the end of the counter
    space in 21 accepted frames (each accepted frame multiplies the rate
    envelope by more than six); the next local dot then has counter 0. *)
Theorem skew_bound_ratchet (id : list Z) :
  lamportCounter (ratchet 21 (newClock 0 None)) = u64_max ∧
  (NextDot id (ratchet 21 (newClock 0 None))).1 = mkDot id 0.
Proof.
  assert (lamportCounter (ratchet 21 (newClock 0 None)) = u64_max) as H by (vm_compute; reflexivity).
  split; [done|]. rewrite NextDot_counter, H. done.
Qed.

(** A remote counter within 1000 of 2^64 moves the persistence watermark
    back below the clock: remoteCounter + 1000 wraps. *)
Theorem advance_watermark_wraps (r : Z) (c : Clock) :
  2 ^ 64 - 1000 <= r < 2 ^ 64 → lamportCounter c < r → lastSavedCounter c < r →
  lamportCounter (AdvanceLamportTo r c) = r ∧ lastSavedCounter (AdvanceLamportTo r c) = r + 1000 - 2 ^ 64.
Proof.
  intros Hr Hl Hs. split; [rewrite AdvanceLamportTo_max; lia|]. unfold AdvanceLamportTo.
  destruct (Z.leb_spec r (lamportCounter c)); [lia|]. simpl.
  destruct (Z.leb_spec r (lastSavedCounter c)); [lia|]. simpl.
  unfold u64. rewrite <- (Z.mod_small (r + 1000 - 2 ^ 64) (2 ^ 64)) by lia.
  by rewrite <- (Z_mod_plus_full (r + 1000) (-1) (2 ^ 64)).
Qed.

(** Restart: the value Close flushes is recovered exactly, the flush never
    lowers the file, and the restarted engine's clock is at least every counter
    the old engine minted, so dots stay unique across a clean restart. *)
Theorem close_restart_roundtrip (c : Clock) (file : option (list Z)) (initialCounter : Z) :
  wf_clock c → covered c → (∀ v, recoverLamport file = Some v → is_u64 v) → is_u64 initialCounter →
  let file' := Close_flush true c file in
  recoverLamport file' = Some (Z.max (default 0 (recoverLamport file)) (lastSavedCounter c)) ∧
  lamportCounter c <= lamportCounter (newClock initialCounter file') ∧
  covered (newClock initialCounter file').
Proof.
  intros (Hl & Hs & _) Hc Hf Hi. unfold Close_flush. cbn zeta.
  set (cur := default 0 (recoverLamport file)).
  assert (is_u64 cur) as Hcur.
  { unfold cur. destruct (recoverLamport file) eqn:E; simpl; [by apply Hf|words]. }
  replace (if lastSavedCounter c <? cur then cur else lastSavedCounter c)
    with (Z.max cur (lastSavedCounter c)) by (destruct (Z.ltb_spec (lastSavedCounter c) cur); lia).
  assert (is_u64 (Z.max cur (lastSavedCounter c))) as Hmax by words.
  unfold newClock. rewrite (recover_persist _ _ Hmax). unfold covered in *. simpl.
  split_and!; [done| |lia].
  destruct (Z.ltb_spec 0 (Z.max cur (lastSavedCounter c)));
    destruct (Z.ltb_spec initialCounter (Z.max cur (lastSavedCounter c))); simpl; words.
Qed.

(** ** Witnesses *)

Definition sample_clock : Clock := newClock 40 None.

Lemma clock_run_unique_dots_witness :
  StronglySorted Z.lt (clock_run [1] [Mint; Advance 900; Mint; Mint] sample_clock).1 ∧
  (clock_run [1] [Mint; Advance 900; Mint; Mint] sample_clock).1 = [41; 901; 902].
Proof.
  split; [|vm_compute; reflexivity].
  pose proof (clock_run_unique_dots [1] [Mint; Advance 900; Mint; Mint] sample_clock) as H.
  destruct (clock_run _ _ _) as [ms c']. apply H.
  - unfold headroom. simpl. lia.
  - unfold covered. simpl. lia.
  - intros r Hr. repeat (apply elem_of_cons in Hr as [Heq|Hr];
      [try discriminate Heq; injection Heq as ->; simpl; lia|]).
    by apply elem_of_nil in Hr.
Defined.

Lemma skew_bound_saturates_witness :
  MaxAcceptableDotCounter (Clock_snapshot sample_clock) = 1040.
Proof.
  destruct (skew_bound_saturates (Clock_snapshot sample_clock)) as (_ & _ & Hz & _);
    [simpl; words|simpl; words|]. rewrite (Hz eq_refl). vm_compute. reflexivity.
Defined.

Lemma advance_watermark_wraps_witness :
  lastSavedCounter (AdvanceLamportTo u64_max sample_clock) = 999.
Proof.
  destruct (advance_watermark_wraps u64_max sample_clock) as [_ ->]; simpl; [words..|].
  vm_compute. reflexivity.
Defined.

Lemma close_restart_roundtrip_witness :
  recoverLamport (Close_flush true (NextDot [1] sample_clock).2 (Some (be_put 8 500))) = Some 1041.
Proof.
  destruct (close_restart_roundtrip (NextDot [1] sample_clock).2 (Some (be_put 8 500)) 3) as [-> _].
  - apply wf_NextDot. vm_compute. repeat split; discriminate.
  - vm_compute. discriminate.
  - intros v. change (Some (be_put 8 500)) with (persistLamport true 500 None).
    rewrite recover_persist by words. intros [= <-]. words.
  - words.
  - vm_compute. reflexivity.
Defined.
