(* ===== verification/LamportConc.v ===== *)
(** The Lamport clock under concurrency (pkg/sync/crdt.go NextDot,
    AdvanceLamportTo, persistWorkerLoop): the atomic operations of any number of
    calls and of the persist worker, interleaved one by one. *)
From S2P Require Import Prelude Bytes Dots Lamport.

(** The program counter of a call, with its locals.  NextDot: before the Add;
    before the first load of lastSavedCounter; at the loop head; before the
    compare-and-swap; before the send; returned.  AdvanceLamportTo: the same
    two loops, then the load and the store of the rate. *)
Inductive pc :=
| NStart
| NCheck (counter : Z)
| NLoop (counter : Z)
| NCas (counter lastSaved : Z)
| NSend (counter : Z)
| NDone (counter : Z)
| AStart (r : Z)
| ACas (r current : Z)
| ALoop (r current : Z)
| ASaveCas (r current lastSaved : Z)
| ASend (r current : Z)
| ARate (r current : Z)
| AStore (r : Z) (rate : f64)
| ADone (r : Z).

(** [worker] is the value the persist worker is writing, if it is not parked at
    the receive; [file] the value on disk. *)
Record cclock := mkCClock {
  cc_lamport : Z;
  cc_saved : Z;
  cc_rate : f64;
  cc_worker : option Z;
  cc_file : Z;
  cc_threads : list pc;
}.

(** The atomic step of a call at [q]: its next pc and the shared state.  The
    select-default send is taken when the worker is parked, dropped otherwise. *)
Definition offer (v : Z) (w : option Z) : option Z := match w with None => Some v | Some _ => w end.

Definition pc_step (q : pc) (s : cclock) : option (pc * cclock) :=
  let '(mkCClock l sv rt w f ts) := s in
  match q with
  | NStart => Some (NCheck (l +ₒ 1), mkCClock (l +ₒ 1) sv rt w f ts)
  | NCheck c => Some (if c <=? sv then NDone c else NLoop c, s)
  | NLoop c => Some (if c +ₒ 1000 <=? sv then NDone c else NCas c sv, s)
  | NCas c ls =>
      if sv =? ls then Some (NSend c, mkCClock l (c +ₒ 1000) rt w f ts) else Some (NLoop c, s)
  | NSend c => Some (NDone c, mkCClock l sv rt (offer (c +ₒ 1000) w) f ts)
  | AStart r => Some (if r <=? l then ADone r else ACas r l, s)
  | ACas r cur => if l =? cur then Some (ALoop r cur, mkCClock r sv rt w f ts) else Some (AStart r, s)
  | ALoop r cur => Some (if r <=? sv then ARate r cur else ASaveCas r cur sv, s)
  | ASaveCas r cur ls =>
      if sv =? ls then Some (ASend r cur, mkCClock l (r +ₒ 1000) rt w f ts) else Some (ALoop r cur, s)
  | ASend r cur => Some (ARate r cur, mkCClock l sv rt (offer (r +ₒ 1000) w) f ts)
  | ARate r cur => Some (AStore r (ewma (u64 (r - cur)) rt), s)
  | AStore r rate => Some (ADone r, mkCClock l sv rate w f ts)
  | NDone _ | ADone _ => None
  end.

Definition with_pc (t : nat) (q : pc) (s : cclock) : cclock :=
  mkCClock (cc_lamport s) (cc_saved s) (cc_rate s) (cc_worker s) (cc_file s) (<[t := q]> (cc_threads s)).

(** The worker's write, and its return to the receive. *)
Definition worker_step (s : cclock) : option cclock :=
  match cc_worker s with
  | Some v => Some (mkCClock (cc_lamport s) (cc_saved s) (cc_rate s) None v (cc_threads s))
  | None => None
  end.

Inductive clock_cstep : cclock → cclock → Prop :=
| c_thread t q q' s s' :
    cc_threads s !! t = Some q → pc_step q s = Some (q', s') → clock_cstep s (with_pc t q' s')
| c_worker s s' : worker_step s = Some s' → clock_cstep s s'.

(** ** Invariant *)

(** The counter a NextDot call has been given. *)
Definition counter_of (q : pc) : option Z :=
  match q with NCheck c | NLoop c | NCas c _ | NSend c | NDone c => Some c | _ => None end.
Definition remote_of (q : pc) : option Z :=
  match q with
  | AStart r | ACas r _ | ALoop r _ | ASaveCas r _ _ | ASend r _ | ARate r _ | AStore r _ | ADone r => Some r
  | _ => None
  end.

(** What a call has made sure of at its pc, given the watermark. *)
Definition pc_saved (sv : Z) (q : pc) : Prop :=
  match q with
  | NCas c ls => ls < c + 1000
  | NSend c => c + 1000 <= sv
  | NDone c => c <= sv
  | ACas r cur => cur < r
  | ASaveCas r _ ls => ls < r
  | ASend r _ => r + 1000 <= sv
  | ARate r _ | AStore r _ => r <= sv
  | _ => True
  end.

Definition is_start (q : pc) : bool := match q with NStart => true | _ => false end.
Definition starts (ts : list pc) : Z := Z.of_nat (length (List.filter is_start ts)).

(** [B] bounds the counters in play: with [n] calls to mint, nothing reaches
    2^64. *)
Record cinv (l0 B : Z) (s : cclock) : Prop := {
  ci_lam : l0 <= cc_lamport s;
  ci_room : cc_lamport s + starts (cc_threads s) <= B;
  ci_wrap : B + 1000 < 2 ^ 64;
  ci_pos : 0 <= l0;
  ci_counter : ∀ t q c, cc_threads s !! t = Some q → counter_of q = Some c → l0 < c <= cc_lamport s;
  ci_distinct : ∀ t1 t2 q1 q2 c, cc_threads s !! t1 = Some q1 → cc_threads s !! t2 = Some q2 →
    counter_of q1 = Some c → counter_of q2 = Some c → t1 = t2;
  ci_remote : ∀ t q r, cc_threads s !! t = Some q → remote_of q = Some r →
    0 <= r ∧ r + Z.of_nat (length (cc_threads s)) <= B;
  ci_saved : ∀ t q, cc_threads s !! t = Some q → pc_saved (cc_saved s) q;
  ci_worker : ∀ v, cc_worker s = Some v → v <= cc_saved s;
  ci_file : cc_file s <= cc_saved s;
}.

Lemma starts_le ts : starts ts <= Z.of_nat (length ts).
Proof. unfold starts. induction ts as [|[] ts IH]; simpl; lia. Qed.

Lemma starts_insert ts t q q' :
  ts !! t = Some q →
  starts (<[t := q']> ts) =
  starts ts - (if is_start q then 1 else 0) + (if is_start q' then 1 else 0).
Proof.
  unfold starts. revert t. induction ts as [|x ts IH]; intros [|t] Ht; simpl in *; try done.
  - injection Ht as ->. destruct (is_start q), (is_start q'); simpl; lia.
  - specialize (IH t Ht). destruct (is_start x); simpl; lia.
Qed.

Lemma pc_saved_mono sv sv' q : sv <= sv' → pc_saved sv q → pc_saved sv' q.
Proof. destruct q; simpl; lia. Qed.

Lemma offer_le v w sv : v <= sv → (∀ x, w = Some x → x <= sv) → ∀ x, offer v w = Some x → x <= sv.
Proof. destruct w; simpl; naive_solver. Qed.

(** What one atomic step of a call can do. *)
Record effect (B : Z) (t : nat) (s : cclock) (q q' : pc) (s' : cclock) : Prop := {
  ef_threads : cc_threads s' = cc_threads s;
  ef_lam : cc_lamport s <= cc_lamport s';
  ef_saved : cc_saved s <= cc_saved s';
  ef_room : cc_lamport s' + starts (<[t := q']> (cc_threads s)) <= B;
  ef_counter : counter_of q' = counter_of q ∨
    counter_of q' = Some (cc_lamport s') ∧ cc_lamport s < cc_lamport s';
  ef_remote : remote_of q' = remote_of q;
  ef_pc : pc_saved (cc_saved s') q';
  ef_worker : ∀ v, cc_worker s' = Some v → v <= cc_saved s';
  ef_file : cc_file s' = cc_file s;
}.

Lemma pc_step_effect l0 B s t q q' s' :
  cinv l0 B s → cc_threads s !! t = Some q → pc_step q s = Some (q', s') → effect B t s q q' s'.
Proof.
  intros [Hl Hroom Hw Hpos Hc _ Hr Hs Hwk Hf] Ht Hstep.
  pose proof (starts_insert (cc_threads s) t q q' Ht) as Hst.
  pose proof (starts_le (cc_threads s)) as Hle.
  assert (0 <= starts (cc_threads s)) as H0 by (unfold starts; lia).
  specialize (Hs t q Ht). specialize (Hr t q). specialize (Hc t q).
  assert (is_start q = true → 1 <= starts (cc_threads s)) as H1.
  { intros Hq. unfold starts. assert (q ∈ List.filter is_start (cc_threads s)) as Hin.
    { apply list_elem_of_In, List.filter_In. split; [|done]. apply list_elem_of_In. by eapply list_elem_of_lookup_2. }
    destruct (List.filter is_start (cc_threads s)); [by apply elem_of_nil in Hin|]. simpl. lia. }
  assert (∀ x, 0 <= x <= B → x +ₒ 1000 = x + 1000) as Hadd by (intros x Hx; apply u64_id; unfold is_u64; lia).
  destruct s as [l sv rt w f ts]. simpl in *.
  destruct q as [|c|c|c ls|c|c|r|r cur|r cur|r cur ls|r cur|r cur|r rate|r]; simpl in *;
    repeat match goal with
    | H : ∀ c', _ → Some ?c = Some c' → _ |- _ => specialize (H _ Ht eq_refl)
    end;
    try (rewrite Hadd in * by lia);
    repeat match goal with
    | H : context [if ?x <=? ?y then _ else _] |- _ => destruct (Z.leb_spec x y)
    | H : context [if ?x =? ?y then _ else _] |- _ => destruct (Z.eqb_spec x y)
    end; simplify_eq;
    try (specialize (H1 eq_refl); rewrite u64_id in * by (unfold is_u64; lia));
    split; simpl in *; try done; try lia; try (by left); try (by apply offer_le); try (right; split; [done|lia]);
    try (intros v Hv; specialize (Hwk v Hv); lia).
Qed.

Lemma pc_step_inv l0 B s t q q' s' :
  cinv l0 B s → cc_threads s !! t = Some q → pc_step q s = Some (q', s') → cinv l0 B (with_pc t q' s').
Proof.
  intros Hinv Ht Hstep. destruct (pc_step_effect l0 B s t q q' s' Hinv Ht Hstep) as [Et El Es Er Ec Em Ep Ew Ef].
  destruct Hinv as [Hl Hroom Hw Hpos Hc Hd Hr Hs Hwk Hf].
  split; unfold with_pc; simpl; rewrite ?Et, ?Ef, ?length_insert; try done; try lia.
  - intros t1 q1 c [(<- & <- & _)|[_ H1]]%list_lookup_insert_Some Hq; [|specialize (Hc t1 q1 c H1 Hq); lia].
    destruct Ec as [Ec|[Ec Hlt]]; rewrite Ec in Hq; [specialize (Hc t q c Ht Hq); lia|].
    injection Hq as <-. lia.
  - intros t1 t2 q1 q2 c H1 H2 Hq1 Hq2.
    assert (∀ t3 q3, cc_threads s !! t3 = Some q3 → t3 ≠ t → counter_of q3 = Some c → counter_of q' ≠ Some c) as Hno.
    { intros t3 q3 H3 Hne Hq3 Hq'. destruct Ec as [Ec|[Ec Hlt]]; rewrite Ec in Hq'.
      - apply Hne. by apply (Hd t3 t q3 q c).
      - injection Hq' as <-. specialize (Hc t3 q3 _ H3 Hq3). lia. }
    apply list_lookup_insert_Some in H1 as [(<- & <- & _)|[N1 H1]], H2 as [(<- & <- & _)|[N2 H2]]; [done| | |].
    + by destruct (Hno t2 q2 H2 ltac:(done) Hq2).
    + by destruct (Hno t1 q1 H1 ltac:(done) Hq1).
    + by apply (Hd t1 t2 q1 q2 c).
  - intros t1 q1 r [(<- & <- & _)|[_ H1]]%list_lookup_insert_Some Hq; [rewrite Em in Hq; eauto|eauto].
  - intros t1 q1 [(<- & <- & _)|[_ H1]]%list_lookup_insert_Some; [done|]. eapply pc_saved_mono; eauto.
Qed.

Lemma clock_cstep_inv l0 B s s' :
  cinv l0 B s → clock_cstep s s' → cinv l0 B s' ∧ cc_saved s <= cc_saved s' ∧ cc_lamport s <= cc_lamport s'.
Proof.
  intros Hinv Hs. destruct Hs as [t q q' s s' Ht Hstep|s s' Hw].
  - split; [by eapply pc_step_inv|]. destruct (pc_step_effect l0 B s t q q' s' Hinv Ht Hstep). done.
  - unfold worker_step in Hw. destruct (cc_worker s) as [v|] eqn:E; [|done]. injection Hw as <-.
    destruct Hinv. split; [|simpl; lia]. split; simpl; try done. auto.
Qed.

Lemma clock_csteps_inv l0 B s s' :
  cinv l0 B s → rtc clock_cstep s s' → cinv l0 B s' ∧ cc_saved s <= cc_saved s' ∧ cc_lamport s <= cc_lamport s'.
Proof.
  intros Hinv Hs. induction Hs as [s|s s1 s2 H1 _ IH]; [split; [done|lia]|].
  destruct (clock_cstep_inv l0 B s s1 Hinv H1) as (Hi & ? & ?). destruct (IH Hi) as (? & ? & ?). split; [done|lia].
Qed.

(** ** Properties *)

(** Calls about to start on a clock: NextDot calls and AdvanceLamportTo calls. *)
Definition fresh_calls (l0 sv : Z) (rate : f64) (file : Z) (qs : list pc) : cclock :=
  mkCClock l0 sv rate None file qs.

Lemma fresh_calls_inv l0 sv rate file qs B :
  0 <= l0 → file <= sv → B + 1000 < 2 ^ 64 → l0 + Z.of_nat (length qs) <= B →
  Forall (λ q, q = NStart ∨ ∃ r, q = AStart r ∧ 0 <= r ∧ r + Z.of_nat (length qs) <= B) qs →
  cinv l0 B (fresh_calls l0 sv rate file qs).
Proof.
  intros H0 Hf HB Hl Hq. rewrite Forall_lookup in Hq. pose proof (starts_le qs).
  split; simpl; try done; try lia.
  - intros t q c Ht Hc. destruct (Hq t q Ht) as [->|(r & -> & _)]; done.
  - intros t1 t2 q1 q2 c H1 _ Hc. destruct (Hq t1 q1 H1) as [->|(r & -> & _)]; done.
  - intros t q r Ht Hr. destruct (Hq t q Ht) as [->|(r' & -> & ? & ?)]; [done|]. by injection Hr as <-.
  - intros t q Ht. destruct (Hq t q Ht) as [->|(r & -> & _)]; done.
Qed.

(** C38. Under any interleaving of the atomic operations of NextDot and
    AdvanceLamportTo calls and of the persist worker, as long as the clock, the
    counters to mint and the remote counters stay below a bound B with
    B + 1000 < 2^64 (past it the watermark wraps), and the file does not start ahead
    of the watermark: two calls never get the same
    counter, every counter exceeds the clock the calls started from, the clock and
    the watermark only grow from any state of the run to any later one, the
    watermark covers every counter returned, and the file never gets ahead of the
    watermark. *)
Theorem concurrent_dots_unique (l0 sv : Z) (rate : f64) (file : Z) (qs : list pc) (B : Z) (s : cclock) :
  0 <= l0 → file <= sv → B + 1000 < 2 ^ 64 → l0 + Z.of_nat (length qs) <= B →
  Forall (λ q, q = NStart ∨ ∃ r, q = AStart r ∧ 0 <= r ∧ r + Z.of_nat (length qs) <= B) qs →
  rtc clock_cstep (fresh_calls l0 sv rate file qs) s →
  (∀ t1 t2 c, cc_threads s !! t1 = Some (NDone c) → cc_threads s !! t2 = Some (NDone c) → t1 = t2) ∧
  (∀ t c, cc_threads s !! t = Some (NDone c) → l0 < c <= cc_lamport s ∧ c <= cc_saved s) ∧
  l0 <= cc_lamport s ∧ sv <= cc_saved s ∧ cc_file s <= cc_saved s ∧
  (∀ s', rtc clock_cstep s s' → cc_lamport s <= cc_lamport s' ∧ cc_saved s <= cc_saved s').
Proof.
  intros H0 Hf HB Hl Hq Hs.
  destruct (clock_csteps_inv l0 B _ s (fresh_calls_inv l0 sv rate file qs B H0 Hf HB Hl Hq) Hs) as (Hi & Hsv & Hlm).
  simpl in Hsv, Hlm. split_and!; try done; [| |by apply (ci_file _ _ _ Hi)|].
  - intros t1 t2 c H1 H2. by apply (ci_distinct _ _ _ Hi t1 t2 _ _ c H1 H2).
  - intros t c Ht. pose proof (ci_counter _ _ _ Hi t _ c Ht eq_refl).
    pose proof (ci_saved _ _ _ Hi t _ Ht) as Hd. simpl in Hd. done.
  - intros s' Hs'. destruct (clock_csteps_inv l0 B s s' Hi Hs') as (_ & ? & ?). done.
Qed.

(** Running a schedule: [Some t] lets call [t] take a step, [None] the worker. *)
Definition sched_step (o : option nat) (s : cclock) : option cclock :=
  match o with
  | None => worker_step s
  | Some t =>
      q ← cc_threads s !! t; p ← pc_step q s; Some (with_pc t p.1 p.2)
  end.

Fixpoint run_schedule (os : list (option nat)) (s : cclock) : option cclock :=
  match os with
  | [] => Some s
  | o :: os' => s' ← sched_step o s; run_schedule os' s'
  end.

Lemma run_schedule_steps os s s' : run_schedule os s = Some s' → rtc clock_cstep s s'.
Proof.
  revert s. induction os as [|o os IH]; intros s H; simpl in H; [by injection H as ->|].
  destruct (sched_step o s) as [s1|] eqn:E; [|done]. eapply rtc_l; [|by apply IH].
  destruct o as [t|]; simpl in E; [|by apply c_worker].
  destruct (cc_threads s !! t) as [q|] eqn:Ht; [|done]. simpl in E.
  destruct (pc_step q s) as [[q' s2]|] eqn:Hp; [|done]. simpl in E. injection E as <-. by eapply c_thread.
Qed.

(** The file can move back: a NextDot call that is descheduled between its
    successful compare-and-swap and its send hands the worker an old limit after
    a newer one has been written.  Here the disk goes from 6000 to 1001 while
    counter 5001 has already been returned, so a crash restarts the clock below
    a dot in use. *)
Theorem lamport_file_regresses :
  ∃ s1 s2,
    rtc clock_cstep (fresh_calls 0 0 f64_zero 0 [NStart; AStart 5000; NStart]) s1 ∧ rtc clock_cstep s1 s2 ∧
    cc_file s1 = 6000 ∧ cc_file s2 = 1001 ∧ cc_threads s2 !! 2%nat = Some (NDone 5001) ∧
    lamportCounter (newClock 0 (persistLamport true (cc_file s2) None)) < 5001.
Proof.
  set (s0 := fresh_calls 0 0 f64_zero 0 [NStart; AStart 5000; NStart]).
  (* call 0 up to its send; call 1 and the worker to the end *)
  destruct (run_schedule (map Some [0; 0; 0; 0] ++ map Some [1; 1; 1; 1; 1; 1; 1] ++ [None])%nat s0) as [s1|] eqn:E1;
    [|vm_compute in E1; discriminate E1].
  destruct (run_schedule (map Some [2; 2] ++ [Some 0; None])%nat s1) as [s2|] eqn:E2;
    [|exfalso; vm_compute in E1; injection E1 as <-; vm_compute in E2; discriminate E2].
  exists s1, s2. split; [by eapply run_schedule_steps|]. split; [by eapply run_schedule_steps|].
  vm_compute in E1. injection E1 as <-. vm_compute in E2. injection E2 as <-. by vm_compute.
Qed.

(** ** Witness *)

Lemma concurrent_dots_unique_witness :
  ∃ s, rtc clock_cstep (fresh_calls 7 9 f64_zero 9 [NStart; NStart]) s ∧
    cc_threads s !! 0%nat = Some (NDone 8) ∧ cc_threads s !! 1%nat = Some (NDone 9) ∧ 9 <= cc_saved s.
Proof.
  destruct (run_schedule (map Some [0; 1; 0; 1])%nat (fresh_calls 7 9 f64_zero 9 [NStart; NStart])) as [s|] eqn:E;
    [|vm_compute in E; discriminate E].
  pose proof (run_schedule_steps _ _ _ E) as Hs. exists s. split; [exact Hs|].
  assert (cc_threads s = [NDone 8; NDone 9]) as Ht by (vm_compute in E; injection E as <-; reflexivity).
  destruct (concurrent_dots_unique 7 9 f64_zero 9 [NStart; NStart] 100 s) as (_ & Hc & _).
  - lia.
  - lia.
  - lia.
  - simpl. lia.
  - repeat constructor.
  - exact Hs.
  - split; [by rewrite Ht|]. split; [by rewrite Ht|]. apply (Hc 1%nat 9). by rewrite Ht.
Defined.
