(* ===== verification/Sorting.v ===== *)
(** Go's slices.SortFunc and sort.Slice as an interface.  The library sorts are
    not stable, so all a caller may rely on is that the result is a permutation
    in order; the engine's theorems are proved against this class and hold for
    every sort that satisfies it. *)
From S2P Require Import Prelude.

(** A comparator the sort accepts: antisymmetric and transitive; [Eq] need not
    be equality. *)
Class WeakCmp {A} (cmp : A → A → comparison) := {
  weak_opp : ∀ a b, cmp b a = CompOpp (cmp a b);
  weak_trans : ∀ a b c, cmp a b ≠ Gt → cmp b c ≠ Gt → cmp a c ≠ Gt;
}.

(** Comparing by a key. *)
#[global] Instance weak_by_key {A B} (f : A → B) (cmp : B → B → comparison) `{!LawfulCmp cmp} :
  WeakCmp (λ a b, cmp (f a) (f b)).
Proof.
  split; intros *; [apply cmp_opp|]. exact (cmp_le_transitive cmp (f a) (f b) (f c)).
Qed.

Class SliceSort := {
  sortFunc : ∀ {A : Type}, (A → A → comparison) → list A → list A;
  sortFunc_perm : ∀ A (cmp : A → A → comparison) l, sortFunc cmp l ≡ₚ l;
  sortFunc_sorted : ∀ A (cmp : A → A → comparison) l,
    WeakCmp cmp → StronglySorted (λ a b, cmp a b ≠ Gt) (sortFunc cmp l);
}.

(** A concrete sort, for evaluation: insertion from the back. *)
Fixpoint insert_by {A} (cmp : A → A → comparison) (x : A) (l : list A) : list A :=
  match l with
  | [] => [x]
  | y :: l' => match cmp x y with Gt => y :: insert_by cmp x l' | _ => x :: l end
  end.

Definition insertion_sort {A} (cmp : A → A → comparison) (l : list A) : list A :=
  foldr (insert_by cmp) [] l.

Lemma insert_by_perm {A} (cmp : A → A → comparison) x l : insert_by cmp x l ≡ₚ x :: l.
Proof.
  induction l as [|y l IH]; simpl; [done|]. destruct (cmp x y); [done|done|].
  rewrite IH. apply Permutation_swap.
Qed.

Lemma insert_by_sorted {A} (cmp : A → A → comparison) `{!WeakCmp cmp} x l :
  StronglySorted (λ a b, cmp a b ≠ Gt) l → StronglySorted (λ a b, cmp a b ≠ Gt) (insert_by cmp x l).
Proof.
  induction 1 as [|y l Hs IH Hf]; simpl; [by repeat constructor|].
  destruct (cmp x y) eqn:E.
  1,2: constructor; [by constructor|]; constructor; [congruence|];
    eapply Forall_impl; [exact Hf|]; intros z Hz; apply (weak_trans x y z); congruence.
  constructor; [done|]. rewrite insert_by_perm. constructor; [|done].
  rewrite (weak_opp x y), E. done.
Qed.

Lemma insertion_sort_perm {A} (cmp : A → A → comparison) l : insertion_sort cmp l ≡ₚ l.
Proof. induction l as [|x l IH]; simpl; [done|]. by rewrite insert_by_perm, IH. Qed.

Lemma insertion_sort_sorted {A} (cmp : A → A → comparison) `{!WeakCmp cmp} l :
  StronglySorted (λ a b, cmp a b ≠ Gt) (insertion_sort cmp l).
Proof. induction l as [|x l IH]; simpl; [constructor|]. by apply insert_by_sorted. Qed.

Definition insertion_SliceSort : SliceSort.
Proof.
  refine {| sortFunc A cmp l := insertion_sort cmp l |}.
  - intros A. exact insertion_sort_perm.
  - intros A cmp l Hcmp. apply insertion_sort_sorted, _.
Defined.

(** With a comparator whose [Eq] is equality the result is determined by the
    multiset, whatever the sort. *)
Lemma sortFunc_canonical `{SS : SliceSort} {A} (cmp : A → A → comparison) `{!LawfulCmp cmp} l1 l2 :
  l1 ≡ₚ l2 → sortFunc cmp l1 = sortFunc cmp l2.
Proof.
  intros Hp. apply (StronglySorted_unique (cmp_le cmp)).
  - apply sortFunc_sorted. exact (weak_by_key (λ x, x) cmp).
  - apply sortFunc_sorted. exact (weak_by_key (λ x, x) cmp).
  - by rewrite !sortFunc_perm.
Qed.
