(* ===== verification/Engine.v ===== *)
(** The sharded δ-CRDT engine of pkg/sync/crdt.go and pkg/sync/point_get.go:
    routing, local inserts, Join, re-sharding, the merged view and point reads,
    each call run to completion (its compare-and-swap loops succeed at the first
    attempt; EngineConc.v interleaves them). *)
From S2P Require Import Prelude Bytes Dots Hamt HamtMap Lamport Sorting.

(** A call returns or panics. *)
Inductive outcome (A : Type) :=
| Ret (a : A)
| Panic (msg : string).
Arguments Ret {A} a.
Arguments Panic {A} msg.

Section Engine.
Context `{MH : MapHash} `{SS : SliceSort}.

(** ** Data *)

(** DeltaCRDTEngine: [shards] are the roots the shard pointers hold, [clk] the
    Lamport clock, [closing] the flag Close arms in the EBR manager.  Arena,
    reclamation and pools carry no data of the state. *)
Record Engine := mkEngine {
  shards : list HAMT;
  routeSeed : Z;
  localNodeID : list Z;
  clk : Clock;
  closing : bool;
  deltasGenerated : Z;
  deltasApplied : Z;
  entriesInserted : Z;
  entriesSkipped : Z;
}.

Record incomingEntry := mkIncoming { in_entityID : string; in_entry : CRDTEntry }.

Definition defaultShardCount : nat := 256.

(** initShardsLocked: [seeds i] is the maphash seed of shard [i]. *)
Definition initShards (seeds : nat → Z) (n : nat) : list HAMT := map (λ i, NewHAMT (seeds i)) (seq 0 n).

Definition NewDeltaCRDTEngine (nodeID : list Z) (initialCounter : Z) (file : option (list Z))
    (rseed : Z) (seeds : nat → Z) : Engine :=
  mkEngine (initShards seeds defaultShardCount) rseed nodeID (newClock initialCounter file)
    false 0 0 0 0.

Definition with_shards (ss : list HAMT) (e : Engine) : Engine :=
  mkEngine ss (routeSeed e) (localNodeID e) (clk e) (closing e) (deltasGenerated e)
    (deltasApplied e) (entriesInserted e) (entriesSkipped e).
Definition with_clk (c : Clock) (e : Engine) : Engine :=
  mkEngine (shards e) (routeSeed e) (localNodeID e) c (closing e) (deltasGenerated e)
    (deltasApplied e) (entriesInserted e) (entriesSkipped e).
Definition with_counts (applied inserted skipped : Z) (e : Engine) : Engine :=
  mkEngine (shards e) (routeSeed e) (localNodeID e) (clk e) (closing e) (deltasGenerated e)
    (deltasApplied e +ₒ applied) (entriesInserted e +ₒ inserted) (entriesSkipped e +ₒ skipped).

(** ** Routing and reading *)

Definition route (rseed : Z) (n : nat) (entityID : string) : nat :=
  let n' := Z.of_nat n in
  let h := maphash rseed (string_bytes entityID) in
  if n' =? 0 then O
  else if Z.land n' (n' - 1) =? 0 then Z.to_nat (Z.land h (n' - 1))
  else Z.to_nat (h `mod` n').

Definition routeShard (e : Engine) (entityID : string) : nat :=
  route (routeSeed e) (length (shards e)) entityID.

(** Get on a shard; [[]] outside the slice, which routeShard never reaches. *)
Definition shard_get (ss : list HAMT) (i : nat) (entityID : string) : list CRDTEntry :=
  match ss !! i with Some h => HAMT_Get h entityID | None => [] end.

Definition PointGet (e : Engine) (entityID : string) : list CRDTEntry :=
  match shards e with
  | [] => []
  | _ => shard_get (shards e) (routeShard e entityID) entityID
  end.

Definition allShardRoots (e : Engine) : list HAMT := shards e.

(** State: every shard's entries Set into a fresh HAMT with seed [sd]. *)
Definition State (sd : Z) (e : Engine) : HAMT :=
  foldl (λ merged shardRoot,
           HAMT_ForEach (λ merged entityID entries, (HAMT_Set merged entityID entries, true))
             shardRoot merged)
    (NewHAMT sd) (shards e).

(** ** Local inserts *)

(** The body of InsertLocal's loop against the current shard root. *)
Definition insert_entry (current : HAMT) (entityID : string) (entry : CRDTEntry) : HAMT :=
  let existing := HAMT_Get current entityID in
  HAMT_Set current entityID (insertionSortLastEntry (existing ++ [entry])).

Definition stamp (dot : CausalDot) (origin : list Z) (e : CRDTEntry) : CRDTEntry :=
  mkEntry (PayloadDigest e) origin (NodeID dot) (Counter dot) (SystemTime e) (ValidTimeStart e)
    (ValidTimeEnd e) (AssertionTime e) (DecisionTime e) (H3Index e).

(** The shard's trie is a value: the panics of an exhausted arena
    (hamt_arena.go:548, 660, 822) are not among the outcomes here and in [Join],
    but in HamtHeap.v. *)
Definition InsertLocal (entityID : string) (entry : CRDTEntry) (e : Engine) :
    outcome (CausalDot * Engine) :=
  if closing e then Panic "sovereign: InsertLocal after Close (arena is torn down)"
  else
    let '(dot, c) := NextDot (localNodeID e) (clk e) in
    let e := with_clk c e in
    let entry := stamp dot (localNodeID e) entry in
    let i := routeShard e entityID in
    match shards e !! i with
    | Some current =>
        let e := with_shards (<[i := insert_entry current entityID entry]> (shards e)) e in
        Ret (dot, with_counts 0 1 0 e)
    | None => Panic "index out of range"
    end.

(** ** Join *)

Definition cmpIncomingEntries (a b : incomingEntry) : comparison :=
  match string_compare (in_entityID a) (in_entityID b) with
  | Eq => compareDots (Dot (in_entry a)) (Dot (in_entry b))
  | c => c
  end.

(** The in-place dedup: [last] is incoming[k-1].  Returns the kept tail and the
    number of dropped elements. *)
Fixpoint dedup_from (last : incomingEntry) (l : list incomingEntry) : list incomingEntry * Z :=
  match l with
  | [] => ([], 0)
  | x :: l' =>
      if bool_decide (in_entityID x ≠ in_entityID last) ||
         bool_decide (compareDots (Dot (in_entry x)) (Dot (in_entry last)) ≠ Eq)
      then let '(k, s) := dedup_from x l' in (x :: k, s)
      else let '(k, s) := dedup_from last l' in (k, s + 1)
  end.

Definition dedup (l : list incomingEntry) : list incomingEntry * Z :=
  match l with
  | [] => ([], 0)
  | x :: l' => let '(k, s) := dedup_from x l' in (x :: k, s)
  end.

(** A blockRange, as the entity it belongs to and the entries it spans. *)
Definition block : Type := string * list CRDTEntry.

(** The runs of equal entity ids. *)
Fixpoint group_runs (l : list incomingEntry) : list block :=
  match l with
  | [] => []
  | x :: l' =>
      match group_runs l' with
      | (id, es) :: bs =>
          if String.eqb (in_entityID x) id then (id, in_entry x :: es) :: bs
          else (in_entityID x, [in_entry x]) :: (id, es) :: bs
      | [] => [(in_entityID x, [in_entry x])]
      end
  end.

Definition shardBatches (rt : string → nat) (bs : list block) : gmap nat (list block) :=
  foldl (λ m b, <[rt b.1 := default [] (m !! rt b.1) ++ [b]]> m) ∅ bs.

Definition shardOrder (m : gmap nat (list block)) : list nat :=
  sortFunc Nat.compare (map_to_list m).*1.

(** perShardMerge's accumulator: modified, inserted, skipped, addedAny. *)
Record shardMerge := mkShardMerge {
  modified : HAMT;
  sm_inserted : Z;
  sm_skipped : Z;
  addedAny : bool;
}.

Definition merge_block (a : shardMerge) (b : block) : shardMerge :=
  let '(entityID, incomingBlock) := b in
  let existing := HAMT_Get (modified a) entityID in
  let r := dotMerge existing incomingBlock in
  mkShardMerge
    (if added r then HAMT_Set (modified a) entityID (merged r) else modified a)
    (sm_inserted a + inserted r) (sm_skipped a + skipped r) (addedAny a || added r).

Definition perShardMerge (base : HAMT) (batches : list block) : shardMerge :=
  foldl merge_block (mkShardMerge base 0 0 false) batches.

(** One shard's turn of the driver loop: totals and the shard slice. *)
Definition join_shard (m : gmap nat (list block)) (acc : list HAMT * Z * Z) (idx : nat) :
    list HAMT * Z * Z :=
  let '(ss, totalInserted, totalSkipped) := acc in
  match ss !! idx with
  | Some current =>
      let r := perShardMerge current (default [] (m !! idx)) in
      if addedAny r
      then (<[idx := modified r]> ss, totalInserted + sm_inserted r, totalSkipped + sm_skipped r)
      else (ss, totalInserted, totalSkipped + sm_skipped r)
  | None => acc
  end.

(** [Entries] of a delta: [None] for a nil Seq, otherwise what it yields. *)
Definition Seq : Type := option (list (string * CRDTEntry)).

Definition receive_entries (entries : list (string * CRDTEntry)) (c : Clock) : Clock :=
  foldl (λ c ie, AdvanceLamportTo (DotCounter ie.2) c) c entries.

Definition Join (delta : Seq) (e : Engine) : outcome Engine :=
  if closing e then Panic "sovereign: Join after Close (arena is torn down)"
  else match delta with
  | None => Ret e
  | Some entries =>
      let e := with_clk (receive_entries entries (clk e)) e in
      match entries with
      | [] => Ret e
      | _ =>
          let incoming := map (λ ie, mkIncoming ie.1 ie.2) entries in
          let incoming := sortFunc cmpIncomingEntries incoming in
          let '(incoming, dups) := dedup incoming in
          let m := shardBatches (routeShard e) (group_runs incoming) in
          let '(ss, totalInserted, totalSkipped) :=
            foldl (join_shard m) (shards e, 0, 0) (shardOrder m) in
          Ret (with_counts 1 totalInserted (dups + totalSkipped) (with_shards ss e))
      end
  end.

(** ** Re-sharding *)

Definition mergeExistingDot (base : HAMT) (entityID : string) (incoming : list CRDTEntry) : HAMT :=
  let r := dotMerge (HAMT_Get base entityID) incoming in
  if added r then HAMT_Set base entityID (merged r) else base.

(** The callback of SetShardCount's re-emit, on the new shard slice. *)
Definition re_emit (rseed : Z) (ss : list HAMT) (entityID : string) (entries : list CRDTEntry) :
    list HAMT :=
  let i := route rseed (length ss) entityID in
  match ss !! i with
  | Some cur => <[i := mergeExistingDot cur entityID entries]> ss
  | None => ss
  end.

Definition SetShardCount (n : Z) (seeds : nat → Z) (e : Engine) : outcome Engine :=
  if (n <? 1) || negb (Z.land n (n - 1) =? 0)
  then Panic "SetShardCount: n must be a positive power of two"
  else if Z.of_nat (length (shards e)) =? n then Ret e
  else
    let ss :=
      foldl (λ ss root, HAMT_ForEach (λ ss id es, (re_emit (routeSeed e) ss id es, true)) root ss)
        (initShards seeds (Z.to_nat n)) (shards e) in
    Ret (with_shards ss e).

Definition SetClosing (e : Engine) : Engine :=
  mkEngine (shards e) (routeSeed e) (localNodeID e) (clk e) true (deltasGenerated e)
    (deltasApplied e) (entriesInserted e) (entriesSkipped e).

(** Close: the teardown flag, then the final flush of the watermark to the
    lamport file ([ok]: the file system calls succeed).  The arena it frees is
    not part of the state. *)
Definition Close (ok : bool) (file : option (list Z)) (e : Engine) : Engine * option (list Z) :=
  let e := SetClosing e in (e, Close_flush ok (clk e) file).
End Engine.
