(* ===== verification/EngineInv.v ===== *)
(** The engine's invariant and the lemmas behind its theorems: routing, the
    per-shard merge, Join's sort-dedup-group pipeline, and re-sharding. *)
From S2P Require Import Prelude Bytes Dots Hamt HamtMap Lamport Sorting Engine.

(** ** Routing *)

Lemma land_pred_pow2 n : 0 < n → Z.land n (n - 1) = 0 → n = 2 ^ Z.log2 n.
Proof.
  intros Hn H0. pose proof (Z.log2_spec n Hn) as [Hlo Hhi].
  destruct (Z.eq_dec n (2 ^ Z.log2 n)) as [|Hne]; [done|exfalso].
  assert (Z.testbit (n - 1) (Z.log2 n) = true) as Hb.
  { replace (Z.log2 n) with (Z.log2 (n - 1)).
    - apply Z.bit_log2. pose proof (Z.pow_pos_nonneg 2 (Z.log2 n) ltac:(lia) (Z.log2_nonneg n)). lia.
    - apply Z.log2_unique; [apply Z.log2_nonneg|]. lia. }
  assert (Z.testbit (Z.land n (n - 1)) (Z.log2 n) = true) as Ht.
  { by rewrite Z.land_spec, Z.bit_log2, Hb by done. }
  by rewrite H0, Z.bits_0 in Ht.
Qed.

Lemma land_pred_mod h n : 0 < n → Z.land n (n - 1) = 0 → Z.land h (n - 1) = h `mod` n.
Proof.
  intros Hn H0. pose proof (land_pred_pow2 n Hn H0) as Hp. rewrite Hp.
  replace (2 ^ Z.log2 n - 1) with (Z.ones (Z.log2 n)) by (rewrite Z.ones_equiv; lia).
  apply Z.land_ones, Z.log2_nonneg.
Qed.

Section Inv.
Context `{MH : MapHash} `{SS : SliceSort}.

(** The bitmask route and the modulo route agree. *)
Lemma route_mod rseed n k :
  (0 < n)%nat → route rseed n k = Z.to_nat (maphash rseed (string_bytes k) `mod` Z.of_nat n).
Proof.
  intros Hn. unfold route. destruct (Z.eqb_spec (Z.of_nat n) 0) as [H|_]; [lia|].
  destruct (Z.eqb_spec (Z.land (Z.of_nat n) (Z.of_nat n - 1)) 0) as [H0|_]; [|done].
  by rewrite land_pred_mod by lia.
Qed.

Lemma route_lt rseed n k : (0 < n)%nat → (route rseed n k < n)%nat.
Proof.
  intros Hn. rewrite route_mod by done.
  pose proof (Z.mod_pos_bound (maphash rseed (string_bytes k)) (Z.of_nat n) ltac:(lia)). lia.
Qed.

(** ** The invariant *)

(** A shard is a well-formed HAMT whose leaves are dot-sorted and hold only the
    entities routed to it. *)
Definition shard_ok (rt : string → nat) (i : nat) (h : HAMT) : Prop :=
  wf_HAMT h ∧ ∀ k, dot_sorted (HAMT_Get h k) ∧ (HAMT_Get h k ≠ [] → rt k = i).

Definition shards_ok (rseed : Z) (ss : list HAMT) : Prop :=
  (0 < length ss)%nat ∧
  ∀ i h, ss !! i = Some h → shard_ok (route rseed (length ss)) i h.

Definition wf_engine (e : Engine) : Prop :=
  shards_ok (routeSeed e) (shards e) ∧ wf_clock (clk e).

(** What a reader sees in a shard slice. *)
Definition ss_get (rseed : Z) (ss : list HAMT) (k : string) : list CRDTEntry :=
  shard_get ss (route rseed (length ss) k) k.

Lemma PointGet_ss e k : PointGet e k = ss_get (routeSeed e) (shards e) k.
Proof. unfold PointGet, ss_get, routeShard. by destruct (shards e). Qed.

Lemma routed_shard rseed ss k :
  shards_ok rseed ss → ∃ h, ss !! route rseed (length ss) k = Some h ∧
    shard_ok (route rseed (length ss)) (route rseed (length ss) k) h ∧ ss_get rseed ss k = HAMT_Get h k.
Proof.
  intros [Hlen Hok]. destruct (lookup_lt_is_Some_2 ss (route rseed (length ss) k)) as [h Hh].
  { by apply route_lt. }
  exists h. split_and!; [done|by apply Hok|]. unfold ss_get, shard_get. by rewrite Hh.
Qed.

Lemma ss_get_sorted rseed ss k : shards_ok rseed ss → dot_sorted (ss_get rseed ss k).
Proof. intros Hok. destruct (routed_shard rseed ss k Hok) as (h & _ & [_ Hs] & ->). apply Hs. Qed.

(** A shard answers only for the entities routed to it. *)
Lemma shard_get_other rseed ss i h k :
  shards_ok rseed ss → ss !! i = Some h → route rseed (length ss) k ≠ i → HAMT_Get h k = [].
Proof.
  intros [_ Hok] Hi Hne. destruct (Hok i h Hi) as [_ Hs]. destruct (Hs k) as [_ Hr].
  destruct (HAMT_Get h k); [done|]. by destruct Hne; apply Hr.
Qed.

Lemma shards_ok_insert rseed ss i h' :
  shards_ok rseed ss → (i < length ss)%nat → shard_ok (route rseed (length ss)) i h' →
  shards_ok rseed (<[i := h']> ss) ∧
  ∀ k, ss_get rseed (<[i := h']> ss) k =
       if decide (route rseed (length ss) k = i) then HAMT_Get h' k else ss_get rseed ss k.
Proof.
  intros [Hlen Hok] Hi Hh'. split.
  - split; [by rewrite length_insert|]. rewrite length_insert. intros j h Hj.
    apply list_lookup_insert_Some in Hj as [(-> & <- & _)|[_ Hj]]; [done|by apply Hok].
  - intros k. unfold ss_get, shard_get. rewrite length_insert. case_decide as Hd.
    + rewrite Hd. by rewrite list_lookup_insert_eq.
    + by rewrite list_lookup_insert_ne.
Qed.

Lemma shard_ok_new rt i sd : shard_ok rt i (NewHAMT sd).
Proof.
  destruct (wf_NewHAMT sd) as [Hwf Hm]. split; [done|]. intros k.
  pose proof (hamt_map_lookup _ k Hwf) as Hl. rewrite Hm, lookup_empty in Hl.
  destruct (HAMT_Get (NewHAMT sd) k); [|done]. split; [constructor|done].
Qed.

Lemma initShards_lookup seeds n i h :
  initShards seeds n !! i = Some h → h = NewHAMT (seeds i) ∧ (i < n)%nat.
Proof.
  unfold initShards. intros H. apply list_lookup_fmap_Some in H as (j & -> & Hj).
  apply lookup_seq in Hj as [-> Hj]. simpl. done.
Qed.

Lemma shards_ok_init rseed seeds n : (0 < n)%nat → shards_ok rseed (initShards seeds n).
Proof.
  intros Hn. split; [unfold initShards; by rewrite length_map, length_seq|].
  intros i h [-> _]%initShards_lookup. apply shard_ok_new.
Qed.

Lemma ss_get_init rseed seeds n k : ss_get rseed (initShards seeds n) k = [].
Proof.
  unfold ss_get, shard_get. destruct (_ !! _) as [h|] eqn:E; [|done].
  apply initShards_lookup in E as [-> _]. destruct (wf_NewHAMT (seeds (route rseed (length (initShards seeds n)) k))) as [Hwf Hm].
  pose proof (hamt_map_lookup _ k Hwf) as Hl. rewrite Hm, lookup_empty in Hl.
  by destruct (HAMT_Get _ k).
Qed.

(** ** One merge into one shard *)

Lemma mergeExistingDot_spec rt i h k es :
  shard_ok rt i h → rt k = i → dot_sorted es →
  shard_ok rt i (mergeExistingDot h k es) ∧
  ∀ k', HAMT_Get (mergeExistingDot h k es) k' =
        if String.eqb k' k then merged (dotMerge (HAMT_Get h k) es) else HAMT_Get h k'.
Proof.
  intros [Hwf Hs] Hrt Hes.
  assert (∀ k', HAMT_Get (mergeExistingDot h k es) k' =
        if String.eqb k' k then merged (dotMerge (HAMT_Get h k) es) else HAMT_Get h k') as Hg.
  { intros k'. unfold mergeExistingDot. destruct (added _) eqn:E.
    - by apply HAMT_Get_Set.
    - apply dotMerge_not_added in E as [-> _]. by destruct (String.eqb_spec k' k) as [->|]. }
  split; [|done]. split.
  - unfold mergeExistingDot. destruct (added _) eqn:E; [|done]. apply HAMT_Set_insert; [done|].
    destruct (dotMerge_counts (HAMT_Get h k) es) as (_ & _ & _ & Hl & Ha).
    intros H0. rewrite H0 in Hl. apply Ha in E. simpl in Hl. lia.
  - intros k'. rewrite Hg. destruct (String.eqb_spec k' k) as [->|]; [|done].
    split; [|done]. by apply dotMerge_sorted; [apply Hs|].
Qed.

Definition blocks_ok (rt : string → nat) (i : nat) (bs : list block) : Prop :=
  NoDup bs.*1 ∧ ∀ b, b ∈ bs → dot_sorted b.2 ∧ rt b.1 = i.

(** The entries a batch brings for an entity. *)
Definition block_of (bs : list block) (k : string) : list CRDTEntry :=
  default [] ((list_to_map bs : gmap string (list CRDTEntry)) !! k).

Lemma block_of_cons id es bs k : block_of ((id, es) :: bs) k = if String.eqb k id then es else block_of bs k.
Proof.
  unfold block_of. simpl. rewrite lookup_insert. destruct (String.eqb_spec k id) as [->|Hne].
  - by rewrite decide_True.
  - by rewrite decide_False by congruence.
Qed.

Lemma block_of_notin bs k : k ∉ bs.*1 → block_of bs k = [].
Proof. intros H. unfold block_of. by rewrite not_elem_of_list_to_map_1. Qed.

Lemma block_of_elem bs id es : NoDup bs.*1 → (id, es) ∈ bs → block_of bs id = es.
Proof. intros Hnd Hin. unfold block_of. by rewrite (elem_of_list_to_map_1 _ _ es). Qed.

Definition total_len (bs : list block) : Z := foldr (λ b n, Z.of_nat (length b.2) + n) 0 bs.

Lemma total_len_cons b bs : total_len (b :: bs) = Z.of_nat (length b.2) + total_len bs.
Proof. done. Qed.

Lemma merge_fold_spec rt i bs a :
  shard_ok rt i (modified a) → blocks_ok rt i bs →
  let r := foldl merge_block a bs in
  shard_ok rt i (modified r) ∧
  (∀ k, HAMT_Get (modified r) k = merged (dotMerge (HAMT_Get (modified a) k) (block_of bs k))) ∧
  (addedAny r = false → addedAny a = false ∧ modified r = modified a ∧ sm_inserted r = sm_inserted a) ∧
  sm_inserted a <= sm_inserted r ∧
  sm_inserted r + sm_skipped r = sm_inserted a + sm_skipped a + total_len bs.
Proof.
  revert a. induction bs as [|[id es] bs IH]; intros a Ha [Hnd Hb]; cbn [foldl].
  { simpl. split_and!; [done| |done|lia|lia]. intros k. by rewrite block_of_notin, dotMerge_nil_r by set_solver. }
  destruct (Hb (id, es)) as [Hes Hrt]; [left|]. simpl in Hes, Hrt.
  destruct (mergeExistingDot_spec rt i (modified a) id es Ha Hrt Hes) as [Ha' Hg].
  destruct (dotMerge_counts (HAMT_Get (modified a) id) es) as (Hi & Hs & Hsum & _ & Hadd).
  apply NoDup_cons in Hnd as [Hnin Hnd].
  destruct (IH (merge_block a (id, es))) as (Hok & Hget & Hna & Hle & Hcnt); [exact Ha'| |].
  { split; [done|]. intros b Hin. apply Hb. by right. }
  change (modified (merge_block a (id, es))) with (mergeExistingDot (modified a) id es) in *.
  assert (sm_inserted (merge_block a (id, es)) =
            sm_inserted a + inserted (dotMerge (HAMT_Get (modified a) id) es)) as Ei by done.
  assert (sm_skipped (merge_block a (id, es)) =
            sm_skipped a + skipped (dotMerge (HAMT_Get (modified a) id) es)) as Es by done.
  rewrite Ei in Hle, Hcnt. rewrite Es in Hcnt.
  rewrite total_len_cons. split_and!; [done| | |lia|cbn [snd]; lia].
  - intros k. rewrite Hget, Hg, block_of_cons. destruct (String.eqb_spec k id) as [->|]; [|done].
    by rewrite (block_of_notin bs), dotMerge_nil_r.
  - intros Hf. destruct (Hna Hf) as (Hf1 & Hm & Hin). simpl in Hf1. rewrite Ei in Hin.
    apply orb_false_iff in Hf1 as [Hf1 Hf2]. rewrite Hm, Hin. split_and!; [done| |].
    + unfold mergeExistingDot. by rewrite Hf2.
    + assert (¬ 0 < inserted (dotMerge (HAMT_Get (modified a) id) es)); [|lia].
      intros ?%Hadd. congruence.
Qed.

Lemma perShardMerge_spec rt i h bs :
  shard_ok rt i h → blocks_ok rt i bs →
  let r := perShardMerge h bs in
  shard_ok rt i (modified r) ∧
  (∀ k, HAMT_Get (modified r) k = merged (dotMerge (HAMT_Get h k) (block_of bs k))) ∧
  (addedAny r = false → modified r = h ∧ sm_inserted r = 0) ∧
  0 <= sm_inserted r ∧ sm_inserted r + sm_skipped r = total_len bs.
Proof.
  intros Hh Hb. destruct (merge_fold_spec rt i bs (mkShardMerge h 0 0 false) Hh Hb) as (?&?&Hna&?&?).
  split_and!; try done. intros Hf. by destruct (Hna Hf) as (_ & ? & ?).
Qed.
End Inv.
