(* ===== verification/JoinSpec.v ===== *)
(** Join's pipeline (sort, dedup, group by entity, batch by shard, merge shard
    by shard) computes, for every entity, the dot merge of the stored slice with
    the delta's entries for it. *)
From S2P Require Import Prelude Bytes Dots Hamt HamtMap Lamport Sorting Engine EngineInv.

(** ** Sort and dedup *)

Definition in_key (x : incomingEntry) : string * CausalDot := (in_entityID x, Dot (in_entry x)).
Definition in_lt (a b : incomingEntry) : Prop := cmpIncomingEntries a b = Lt.

Lemma cmpIncomingEntries_key a b :
  cmpIncomingEntries a b = pair_compare string_compare compareDots (in_key a) (in_key b).
Proof. done. Qed.

#[global] Instance cmpIncomingEntries_weak : WeakCmp cmpIncomingEntries.
Proof. exact (weak_by_key in_key (pair_compare string_compare compareDots)). Qed.

Lemma in_lt_trans a b c : in_lt a b → in_lt b c → in_lt a c.
Proof.
  unfold in_lt. rewrite !cmpIncomingEntries_key. apply cmp_lt_trans.
Qed.

Lemma in_le_cases a b : cmpIncomingEntries a b ≠ Gt → in_lt a b ∨ in_key a = in_key b.
Proof. exact (cmp_le_lt_eq (pair_compare string_compare compareDots) (in_key a) (in_key b)). Qed.

Lemma dedup_from_spec l last :
  StronglySorted (λ a b, cmpIncomingEntries a b ≠ Gt) (last :: l) →
  let '(k, s) := dedup_from last l in
  StronglySorted in_lt (last :: k) ∧ (∀ x, x ∈ k → x ∈ l) ∧
  (∀ x, x ∈ l → ∃ y, y ∈ last :: k ∧ in_key y = in_key x) ∧
  Z.of_nat (length k) + s = Z.of_nat (length l) ∧ 0 <= s.
Proof.
  revert last. induction l as [|x l IH]; intros last Hs; simpl.
  { split_and!; [repeat constructor| |by intros x ?%elem_of_nil|lia|lia]. done. }
  inversion_clear Hs as [|? ? Hs' Hf]. inversion_clear Hf as [|? ? Hle Hf'].
  destruct (in_le_cases last x Hle) as [Hlt|Heq].
  - replace (_ || _) with true.
    + specialize (IH x Hs'). destruct (dedup_from x l) as [k s].
      destruct IH as (Hk & Hsub & Hcov & Hlen & H0). split_and!; [| | |simpl; lia|done].
      * constructor; [done|]. inversion_clear Hk as [|? ? Hk' Hfk].
        constructor; [done|]. eapply Forall_impl; [exact Hfk|]. intros y. by apply in_lt_trans.
      * intros y [->|Hy]%elem_of_cons; [left|right; auto].
      * intros y [->|Hy]%elem_of_cons; [exists x; split; [right; left|done]|].
        destruct (Hcov y Hy) as (z & Hz & ?). exists z. split; [by right|done].
    + symmetry. apply orb_true_iff. unfold in_lt, cmpIncomingEntries in Hlt.
      destruct (string_compare (in_entityID last) (in_entityID x)) eqn:E; [| |done].
      * right. apply bool_decide_eq_true. intros H%cmp_eq. rewrite H in Hlt.
        by rewrite (cmp_refl compareDots) in Hlt.
      * left. apply bool_decide_eq_true. intros H. rewrite H in E.
        by rewrite (cmp_refl string_compare) in E.
  - injection Heq as Hid Hdot. replace (_ || _) with false.
    + specialize (IH last). destruct (dedup_from last l) as [k s].
      destruct IH as (Hk & Hsub & Hcov & Hlen & H0); [inversion_clear Hs'; by constructor|].
      split_and!; [done| | |lia|lia].
      * intros y Hy. right. auto.
      * intros y [->|Hy]%elem_of_cons; [|by apply Hcov].
        exists last. split; [left|]. unfold in_key, Dot. congruence.
    + symmetry. apply orb_false_iff. split; apply bool_decide_eq_false; [by intros []|].
      intros []. apply cmp_eq. unfold Dot. congruence.
Qed.

Lemma dedup_spec l :
  StronglySorted (λ a b, cmpIncomingEntries a b ≠ Gt) l →
  let '(k, s) := dedup l in
  StronglySorted in_lt k ∧ (∀ x, x ∈ k → x ∈ l) ∧
  (∀ x, x ∈ l → ∃ y, y ∈ k ∧ in_key y = in_key x) ∧
  Z.of_nat (length k) + s = Z.of_nat (length l) ∧ 0 <= s.
Proof.
  destruct l as [|x l]; simpl; intros Hs.
  { split_and!; [constructor|done| |done|done]. by intros x ?%elem_of_nil. }
  pose proof (dedup_from_spec l x Hs) as H. destruct (dedup_from x l) as [k s].
  destruct H as (Hk & Hsub & Hcov & Hlen & H0). split_and!; [done| | |simpl; lia|done].
  - intros y [->|Hy]%elem_of_cons; [left|right; auto].
  - intros y [->|Hy]%elem_of_cons; [exists x; split; [left|done]|auto].
Qed.

(** ** Grouping *)

(** The entries of one entity, in order. *)
Definition entries_for (k : string) (l : list incomingEntry) : list CRDTEntry :=
  map in_entry (filter (λ x, in_entityID x = k) l).

Definition id_le (a b : string) : Prop := string_compare a b ≠ Gt.

Lemma group_runs_ids l id : id ∈ (group_runs l).*1 → ∃ x, x ∈ l ∧ in_entityID x = id.
Proof.
  induction l as [|x l IH]; simpl; [by intros ?%elem_of_nil|].
  destruct (group_runs l) as [|[id' es] bs]; [|destruct (String.eqb_spec (in_entityID x) id')];
    simpl in *; rewrite ?elem_of_cons in *; setoid_rewrite elem_of_cons; naive_solver.
Qed.

Lemma group_runs_sorted l :
  StronglySorted id_le (map in_entityID l) →
  StronglySorted (cmp_lt string_compare) (group_runs l).*1.
Proof.
  induction l as [|x l IH]; simpl; [constructor|]. intros Hs.
  inversion_clear Hs as [|? ? Hs' Hf]. specialize (IH Hs').
  assert (∀ id, id ∈ (group_runs l).*1 → id_le (in_entityID x) id) as Hle.
  { intros id (y & Hy & <-)%group_runs_ids. rewrite Forall_forall in Hf. apply Hf.
    apply list_elem_of_fmap. eauto. }
  destruct (group_runs l) as [|[id es] bs]; simpl in *; [by repeat constructor|].
  destruct (String.eqb_spec (in_entityID x) id) as [Heq|Hne]; simpl; [done|].
  assert (cmp_lt string_compare (in_entityID x) id) as Hlt.
  { destruct (cmp_le_lt_eq string_compare (in_entityID x) id) as [?|?]; [apply Hle; left|done|done]. }
  constructor; [done|]. inversion_clear IH as [|? ? _ Hfb]. constructor; [done|].
  eapply Forall_impl; [exact Hfb|]. intros y. apply (cmp_lt_transitive string_compare), Hlt.
Qed.

Lemma sorted_lt_NoDup ids : StronglySorted (cmp_lt string_compare) ids → NoDup ids.
Proof.
  induction 1 as [|x l _ IH Hf]; constructor; [|done]. intros Hin.
  rewrite Forall_forall in Hf. by apply Hf, cmp_lt_irrefl in Hin; [|apply _].
Qed.

Lemma group_runs_block l k :
  StronglySorted id_le (map in_entityID l) → block_of (group_runs l) k = entries_for k l.
Proof.
  induction l as [|x l IH]; [done|]. intros Hs.
  pose proof (group_runs_sorted (x :: l) Hs) as Hids. cbn [map] in Hs.
  inversion_clear Hs as [|? ? Hs' Hf]. specialize (IH Hs').
  unfold entries_for in *. rewrite filter_cons. simpl in *.
  destruct (group_runs l) as [|[id es] bs].
  - rewrite block_of_cons. destruct (String.eqb_spec k (in_entityID x)) as [->|Hne].
    + rewrite decide_True by done. simpl. by rewrite <- IH.
    + by rewrite decide_False by congruence.
  - destruct (String.eqb_spec (in_entityID x) id) as [Heq|Hne].
    + rewrite block_of_cons in *. destruct (String.eqb_spec k id) as [->|Hk].
      * rewrite decide_True by done. simpl. by rewrite <- IH.
      * rewrite decide_False by congruence. done.
    + rewrite (block_of_cons (in_entityID x)). destruct (String.eqb_spec k (in_entityID x)) as [->|Hk].
      * rewrite decide_True by done. simpl. rewrite <- IH, block_of_notin; [done|].
        apply sorted_lt_NoDup in Hids. by apply NoDup_cons in Hids as [? _].
      * rewrite decide_False by congruence. done.
Qed.

Lemma group_runs_total l : total_len (group_runs l) = Z.of_nat (length l).
Proof.
  induction l as [|x l IH]; [done|]. cbn [group_runs].
  destruct (group_runs l) as [|[id es] bs]; [|destruct (String.eqb _ _)];
    rewrite ?total_len_cons in *; simpl in *; lia.
Qed.

Lemma in_lt_id_le l : StronglySorted in_lt l → StronglySorted id_le (map in_entityID l).
Proof.
  induction 1 as [|x l _ IH Hf]; simpl; constructor; [done|]. apply Forall_map.
  eapply Forall_impl; [exact Hf|]. intros y. unfold in_lt, cmpIncomingEntries, id_le. simpl.
  by destruct (string_compare _ _).
Qed.

Lemma entries_for_sorted k l : StronglySorted in_lt l → dot_sorted (entries_for k l).
Proof.
  unfold entries_for. induction 1 as [|x l _ IH Hf]; [constructor|].
  rewrite filter_cons. case_decide as Hx; [|done]. simpl. constructor; [done|].
  apply Forall_map, Forall_forall. intros y [Hy Hin]%list_elem_of_filter.
  rewrite Forall_forall in Hf. specialize (Hf y Hin). unfold in_lt, cmpIncomingEntries in Hf.
  rewrite Hx, Hy, (cmp_refl string_compare) in Hf. exact Hf.
Qed.

(** The blocks of a sorted, deduplicated delta. *)
Lemma group_runs_ok l b :
  StronglySorted in_lt l → b ∈ group_runs l → dot_sorted b.2 ∧ block_of (group_runs l) b.1 = b.2.
Proof.
  intros Hs Hb. pose proof (in_lt_id_le l Hs) as Hid.
  assert (NoDup (group_runs l).*1) as Hnd by by apply sorted_lt_NoDup, group_runs_sorted.
  assert (block_of (group_runs l) b.1 = b.2) as Hbl.
  { apply block_of_elem; [done|]. by destruct b. }
  split; [|done]. rewrite <- Hbl, group_runs_block by done. by apply entries_for_sorted.
Qed.

(** ** Batching *)

Lemma shardBatches_snoc rt bs b :
  shardBatches rt (bs ++ [b]) =
  <[rt b.1 := default [] (shardBatches rt bs !! rt b.1) ++ [b]]> (shardBatches rt bs).
Proof. unfold shardBatches. by rewrite foldl_app. Qed.

(** The blocks routed to shard [i], in order. *)
Fixpoint batch_of (rt : string → nat) (i : nat) (bs : list block) : list block :=
  match bs with
  | [] => []
  | b :: bs' => if (rt b.1 =? i)%nat then b :: batch_of rt i bs' else batch_of rt i bs'
  end.

Lemma batch_of_app rt i bs bs' : batch_of rt i (bs ++ bs') = batch_of rt i bs ++ batch_of rt i bs'.
Proof. induction bs as [|b bs IH]; simpl; [done|]. rewrite IH. by destruct (_ =? _)%nat. Qed.

Lemma elem_of_batch rt i bs b : b ∈ batch_of rt i bs ↔ b ∈ bs ∧ rt b.1 = i.
Proof.
  induction bs as [|x bs IH]; simpl.
  - split; [by intros ?%elem_of_nil|by intros [?%elem_of_nil _]].
  - destruct (Nat.eqb_spec (rt x.1) i); rewrite ?elem_of_cons, IH; clear IH; naive_solver.
Qed.

Lemma batch_of_NoDup rt i bs : NoDup bs.*1 → NoDup (batch_of rt i bs).*1.
Proof.
  induction bs as [|b bs IH]; simpl; [done|]. intros [Hni Hnd]%NoDup_cons.
  destruct (_ =? _)%nat; [|by apply IH]. simpl. constructor; [|by apply IH].
  intros (b' & Hb' & Hin)%list_elem_of_fmap. apply elem_of_batch in Hin as [Hin _].
  apply Hni, list_elem_of_fmap. by exists b'.
Qed.

Lemma shardBatches_lookup rt bs i : shardBatches rt bs !! i = nonempty (batch_of rt i bs).
Proof.
  induction bs as [|b bs IH] using rev_ind; [done|].
  rewrite shardBatches_snoc, batch_of_app, lookup_insert. simpl.
  destruct (Nat.eqb_spec (rt b.1) i) as [->|Hne].
  - rewrite decide_True, IH by done. by destruct (batch_of rt i bs).
  - by rewrite decide_False, app_nil_r by done.
Qed.

Lemma shardBatches_default rt bs i : default [] (shardBatches rt bs !! i) = batch_of rt i bs.
Proof. rewrite shardBatches_lookup. by destruct (batch_of rt i bs). Qed.

Lemma block_of_batch rt bs k : block_of (batch_of rt (rt k) bs) k = block_of bs k.
Proof.
  induction bs as [|[id es] bs IH]; [done|]. rewrite block_of_cons. simpl.
  destruct (Nat.eqb_spec (rt id) (rt k)) as [Heq|Hne]; [by rewrite block_of_cons, IH|].
  by destruct (String.eqb_spec k id) as [->|].
Qed.

Lemma total_len_batches rt bs order :
  NoDup order → (∀ b, b ∈ bs → rt b.1 ∈ order) →
  foldr (λ i n, total_len (batch_of rt i bs) + n) 0 order = total_len bs.
Proof.
  intros Hnd. induction bs as [|b bs IH]; intros Hin.
  { clear. induction order as [|i order IH]; simpl in *; [done|]. lia. }
  rewrite total_len_cons, <- IH by (intros; apply Hin; by right).
  assert (rt b.1 ∈ order) as Hb by (apply Hin; left). clear IH Hin.
  induction order as [|i order IHo]; [by apply elem_of_nil in Hb|].
  apply NoDup_cons in Hnd as [Hni Hnd]. cbn [foldr batch_of].
  destruct (Nat.eqb_spec (rt b.1) i) as [Heq|Hne].
  - rewrite total_len_cons.
    assert (foldr (λ i n, total_len (batch_of rt i (b :: bs)) + n) 0 order =
            foldr (λ i n, total_len (batch_of rt i bs) + n) 0 order) as H; [|simpl in H; lia].
    clear IHo Hb Hnd. induction order as [|j order IH]; [done|]. simpl in *.
    rewrite (proj2 (Nat.eqb_neq (rt b.1) j)), IH by set_solver. done.
  - apply elem_of_cons in Hb as [?|Hb]; [done|]. specialize (IHo Hnd Hb). simpl in IHo. lia.
Qed.

Section Join.
Context `{MH : MapHash} `{SS : SliceSort}.

(** ** The driver loop over the shards *)

Lemma join_shards_spec rseed m order ss ti ts :
  shards_ok rseed ss → NoDup order →
  (∀ i, i ∈ order → (i < length ss)%nat ∧
     blocks_ok (route rseed (length ss)) i (default [] (m !! i))) →
  let '(ss', ti', ts') := foldl (join_shard m) (ss, ti, ts) order in
  shards_ok rseed ss' ∧ length ss' = length ss ∧
  (∀ k, ss_get rseed ss' k =
        if decide (route rseed (length ss) k ∈ order)
        then merged (dotMerge (ss_get rseed ss k) (block_of (default [] (m !! route rseed (length ss) k)) k))
        else ss_get rseed ss k) ∧
  ti <= ti' ∧
  ti' + ts' = ti + ts + foldr (λ i n, total_len (default [] (m !! i)) + n) 0 order.
Proof.
  revert ss ti ts. induction order as [|i order IH]; intros ss ti ts Hok Hnd Hb; cbn [foldl].
  { split_and!; [done|done| |lia|simpl; lia]. intros k. by rewrite decide_False by apply not_elem_of_nil. }
  apply NoDup_cons in Hnd as [Hni Hnd]. destruct (Hb i) as [Hi Hbi]; [left|].
  destruct (lookup_lt_is_Some_2 ss i Hi) as [h Hh].
  destruct (perShardMerge_spec _ i h _ (proj2 Hok i h Hh) Hbi) as (Hmok & Hmget & Hna & Hpos & Hsum).
  set (r := perShardMerge h (default [] (m !! i))) in *.
  assert (join_shard m (ss, ti, ts) i =
          (<[i := modified r]> ss, ti + sm_inserted r, ts + sm_skipped r)) as ->.
  { unfold join_shard. rewrite Hh. fold r. destruct (addedAny r) eqn:E; [done|].
    destruct (Hna eq_refl) as [Hm H0]. rewrite Hm, H0, Z.add_0_r. by rewrite list_insert_id. }
  destruct (shards_ok_insert rseed ss i (modified r) Hok Hi Hmok) as [Hok' Hget'].
  pose proof (length_insert ss i (modified r)) as Hl.
  specialize (IH (<[i := modified r]> ss) (ti + sm_inserted r) (ts + sm_skipped r) Hok' Hnd).
  destruct (foldl _ _ order) as [[ss' ti'] ts'].
  rewrite Hl in IH. destruct IH as (Hok'' & Hl' & Hg & Hle & Hs).
  { intros j Hj. apply Hb. by right. }
  split_and!; [done|done| |lia|simpl; lia].
  intros k. rewrite Hg, Hget'. destruct (decide (route rseed (length ss) k = i)) as [Hr|Hr].
  - rewrite Hr. rewrite decide_False by done. rewrite decide_True by left.
    rewrite Hmget. do 2 f_equal. unfold ss_get, shard_get. by rewrite Hr, Hh.
  - destruct (decide (route rseed (length ss) k ∈ order)) as [Hin|Hin].
    + by rewrite decide_True by by right.
    + rewrite decide_False; [done|]. by intros [?|?]%elem_of_cons.
Qed.

(** The sorted, deduplicated delta. *)
Definition prepared (entries : list (string * CRDTEntry)) : list incomingEntry * Z :=
  dedup (sortFunc cmpIncomingEntries (map (λ ie, mkIncoming ie.1 ie.2) entries)).

Lemma prepared_spec entries :
  let '(inc, dups) := prepared entries in
  StronglySorted in_lt inc ∧
  (∀ x, x ∈ inc → (in_entityID x, in_entry x) ∈ entries) ∧
  (∀ k e, (k, e) ∈ entries → ∃ y, y ∈ inc ∧ in_entityID y = k ∧ Dot (in_entry y) = Dot e) ∧
  Z.of_nat (length inc) + dups = Z.of_nat (length entries) ∧ 0 <= dups.
Proof.
  unfold prepared. set (l := map _ entries).
  pose proof (dedup_spec _ (sortFunc_sorted _ cmpIncomingEntries l _)) as H.
  pose proof (sortFunc_perm _ cmpIncomingEntries l) as Hp.
  destruct (dedup _) as [inc dups]. destruct H as (Hs & Hsub & Hcov & Hlen & H0).
  split_and!; [done| | | |done].
  - intros x Hx%Hsub. rewrite Hp in Hx. apply list_elem_of_fmap in Hx as ([k e] & -> & Hin). done.
  - intros k e Hin. destruct (Hcov (mkIncoming k e)) as (y & Hy & Hk).
    { rewrite Hp. apply list_elem_of_fmap. exists (k, e). done. }
    injection Hk as H1 H2. exists y. unfold Dot. split_and!; [done|done|]. congruence.
  - rewrite (Permutation_length Hp) in Hlen. unfold l in Hlen. by rewrite length_map in Hlen.
Qed.

(** The batches of a prepared delta: distinct shards of the slice, each with
    dot-sorted blocks of entities routed to it. *)
Lemma join_batches rt n inc :
  StronglySorted in_lt inc → (∀ k, (rt k < n)%nat) →
  let m := shardBatches rt (group_runs inc) in
  NoDup (shardOrder m) ∧ (∀ i, i ∈ shardOrder m ↔ is_Some (m !! i)) ∧
  ∀ i, i ∈ shardOrder m → (i < n)%nat ∧ blocks_ok rt i (default [] (m !! i)).
Proof.
  intros Hs Hrt m. set (bs := group_runs inc) in *.
  pose proof (sortFunc_perm _ Nat.compare (map_to_list m).*1) as Hperm.
  assert (∀ i, i ∈ shardOrder m ↔ is_Some (m !! i)) as Hord.
  { intros i. unfold shardOrder. rewrite Hperm, list_elem_of_fmap. split.
    - intros ([j v] & -> & Hv%elem_of_map_to_list). by exists v.
    - intros [v Hv%elem_of_map_to_list]. by exists (i, v). }
  split_and!; [unfold shardOrder; rewrite Hperm; apply NoDup_fst_map_to_list|done|].
  intros i Hi%Hord. unfold m in *. rewrite shardBatches_default. rewrite shardBatches_lookup in Hi.
  assert (∀ b, b ∈ batch_of rt i bs → dot_sorted b.2 ∧ rt b.1 = i) as Hall.
  { intros b [Hbin Hb]%elem_of_batch. split; [|done]. by apply (group_runs_ok inc b Hs). }
  split.
  - destruct (batch_of rt i bs) as [|b l]; [by destruct Hi|].
    destruct (Hall b) as [_ <-]; [left|]. apply Hrt.
  - split; [|done]. by apply batch_of_NoDup, sorted_lt_NoDup, group_runs_sorted, in_lt_id_le.
Qed.

(** What Join does to the shard slice and the counters. *)
Lemma join_spec rseed ss entries :
  shards_ok rseed ss →
  let '(inc, dups) := prepared entries in
  let m := shardBatches (route rseed (length ss)) (group_runs inc) in
  let '(ss', ti, ts) := foldl (join_shard m) (ss, 0, 0) (shardOrder m) in
  shards_ok rseed ss' ∧ length ss' = length ss ∧
  (∀ k, ss_get rseed ss' k = merged (dotMerge (ss_get rseed ss k) (entries_for k inc))) ∧
  0 <= ti ∧ ti + ts + dups = Z.of_nat (length entries).
Proof.
  intros Hok. pose proof (prepared_spec entries) as Hprep.
  destruct (prepared entries) as [inc dups]. destruct Hprep as (Hs & _ & _ & Hlen & _).
  cbn zeta.
  set (rt := route rseed (length ss)). set (bs := group_runs inc). set (m := shardBatches rt bs).
  pose proof (in_lt_id_le inc Hs) as Hid.
  destruct (join_batches rt (length ss) inc Hs) as (Hndo & Hord & Hb); [intros k; apply route_lt, Hok|].
  fold bs m in Hndo, Hord, Hb.
  pose proof (join_shards_spec rseed m (shardOrder m) ss 0 0 Hok Hndo Hb) as H.
  destruct (foldl _ _ _) as [[ss' ti] ts]. destruct H as (Hok' & Hl & Hg & H0 & Hsum).
  split_and!; [done|done| |done|].
  - intros k. rewrite Hg, <- (group_runs_block inc k Hid). fold bs rt. case_decide as Hd.
    + unfold m. by rewrite shardBatches_default, block_of_batch.
    + rewrite Hord in Hd. unfold m in Hd. rewrite shardBatches_lookup in Hd.
      rewrite <- (block_of_batch rt). destruct (batch_of rt (rt k) bs); [|by destruct Hd].
      unfold block_of. simpl. by rewrite dotMerge_nil_r.
  - rewrite <- Hlen, <- group_runs_total. fold bs.
    rewrite <- (total_len_batches rt bs (shardOrder m) Hndo).
    + rewrite Hsum. unfold m.
      assert (∀ o, foldr (λ i n, total_len (default [] (shardBatches rt bs !! i)) + n) 0 o =
                   foldr (λ i n, total_len (batch_of rt i bs) + n) 0 o) as ->; [|lia].
      induction o as [|i o IHo]; simpl; [done|]. by rewrite shardBatches_default, IHo.
    + intros b Hbin. apply Hord. unfold m. rewrite shardBatches_lookup.
      destruct (batch_of rt (rt b.1) bs) eqn:E; [|by eexists].
      assert (b ∈ batch_of rt (rt b.1) bs) as Hin by by apply elem_of_batch.
      rewrite E in Hin. by apply elem_of_nil in Hin.
Qed.
End Join.
