(* ===== verification/EngineThms.v ===== *)
(** Theorems about the engine: Join as a join of dot maps, convergence of
    replicas, local inserts, re-sharding, and the agreement of the two read
    paths. *)
From S2P Require Import Prelude Bytes Dots Hamt HamtMap Lamport Sorting Engine EngineInv JoinSpec.

(** ** Lists of entries as dot maps *)

Lemma dots_map_consistent l d e :
  (∀ e1 e2, e1 ∈ l → e2 ∈ l → Dot e1 = Dot e2 → e1 = e2) →
  dots_map l !! d = Some e ↔ e ∈ l ∧ Dot e = d.
Proof.
  intros Hc. split.
  - intros H%dots_map_lookup_dot. tauto.
  - intros [Hin <-]. destruct (dots_map l !! Dot e) as [e'|] eqn:E.
    + apply dots_map_lookup_dot in E as [Hd Hin']. by rewrite (Hc e' e).
    + by apply (proj1 (dots_map_None _ _) E e) in Hin.
Qed.

(** What a delta says about one entity. *)
Definition delta_for (k : string) (entries : list (string * CRDTEntry)) : list CRDTEntry :=
  map snd (filter (λ ie, ie.1 = k) entries).

Definition delta_view (k : string) (entries : list (string * CRDTEntry)) : gmap CausalDot CRDTEntry :=
  dots_map (delta_for k entries).

Lemma elem_of_delta_for k entries e : e ∈ delta_for k entries ↔ (k, e) ∈ entries.
Proof.
  unfold delta_for. rewrite list_elem_of_fmap. split.
  - intros ([k' e'] & -> & [Hk Hin]%list_elem_of_filter). simpl in *. by subst.
  - intros Hin. exists (k, e). split; [done|]. by apply list_elem_of_filter.
Qed.

(** A dot is minted once: [g] is the entry every dot of every entity stands for. *)
Definition assignment : Type := string → CausalDot → CRDTEntry.
Definition delta_agrees (g : assignment) (entries : list (string * CRDTEntry)) : Prop :=
  ∀ k e, (k, e) ∈ entries → e = g k (Dot e).

Lemma delta_agrees_consistent g entries k e1 e2 :
  delta_agrees g entries → e1 ∈ delta_for k entries → e2 ∈ delta_for k entries →
  Dot e1 = Dot e2 → e1 = e2.
Proof.
  intros Hg H1%elem_of_delta_for%Hg H2%elem_of_delta_for%Hg Hd. rewrite H1, H2. by rewrite Hd.
Qed.

Lemma delta_view_lookup g entries k d e :
  delta_agrees g entries → delta_view k entries !! d = Some e ↔ (k, e) ∈ entries ∧ Dot e = d.
Proof.
  intros Hg. unfold delta_view. rewrite dots_map_consistent; [by rewrite elem_of_delta_for|].
  intros e1 e2. by apply (delta_agrees_consistent g).
Qed.

Section Props.
Context `{MH : MapHash} `{SS : SliceSort}.

(** ** The engine's abstract state *)

Definition view (e : Engine) (k : string) : gmap CausalDot CRDTEntry := dots_map (PointGet e k).

Definition engine_agrees (g : assignment) (e : Engine) : Prop :=
  ∀ k x, x ∈ PointGet e k → x = g k (Dot x).

(** Engines no reader can tell apart. *)
Definition eng_equiv (e1 e2 : Engine) : Prop := ∀ k, PointGet e1 k = PointGet e2 k.

#[global] Instance eng_equiv_equivalence : Equivalence eng_equiv.
Proof. split; [done|by intros ?? H ?|intros ??? H1 H2 k; by rewrite H1]. Qed.

#[global] Instance view_proper : Proper (eng_equiv ==> (=) ==> (=)) view.
Proof. intros e1 e2 H k ? <-. unfold view. by rewrite (H k). Qed.

Lemma PointGet_sorted e k : wf_engine e → dot_sorted (PointGet e k).
Proof. intros [Hok _]. rewrite PointGet_ss. by apply ss_get_sorted. Qed.

#[local] Hint Resolve PointGet_sorted : sovereign.

(** The leaf representation is canonical: equal views are equal slices. *)
Lemma view_inj e1 e2 :
  wf_engine e1 → wf_engine e2 → (∀ k, view e1 k = view e2 k) → eng_equiv e1 e2.
Proof. intros H1 H2 H k. apply dots_map_inj; [auto with sovereign..|apply H]. Qed.

Lemma view_lookup e k d x : wf_engine e → view e k !! d = Some x ↔ x ∈ PointGet e k ∧ Dot x = d.
Proof.
  intros Hwf. unfold view. split.
  - intros H%dots_map_lookup_dot. tauto.
  - intros [Hin <-]. apply dots_map_elem; [auto with sovereign|done].
Qed.

(** ** Join *)

Lemma dots_map_prepared g entries k :
  delta_agrees g entries → dots_map (entries_for k (prepared entries).1) = delta_view k entries.
Proof.
  intros Hg. pose proof (prepared_spec entries) as H. destruct (prepared entries) as [inc dups].
  destruct H as (Hs & Hsub & Hcov & _). simpl. apply map_eq. intros d. apply option_eq. intros e.
  assert (∀ e, e ∈ entries_for k inc → (k, e) ∈ entries) as Hin.
  { intros e' He. unfold entries_for in He. apply list_elem_of_fmap in He as (x & -> & Hx).
    apply list_elem_of_filter in Hx as [<- Hx]. by apply Hsub. }
  rewrite (delta_view_lookup g) by done. split.
  - intros [Hd He]%dots_map_lookup_dot. auto.
  - intros [He <-]. destruct (Hcov k e He) as (y & Hy & Hk & Hd).
    assert (in_entry y = e) as Hye.
    { rewrite (Hg k e He), <- Hd, <- Hk. apply Hg. by apply Hsub. }
    apply dots_map_elem; [by apply entries_for_sorted|]. unfold entries_for.
    apply list_elem_of_fmap. exists y. split; [done|]. by apply list_elem_of_filter.
Qed.

Lemma receive_entries_wf entries c :
  Forall (λ ie, is_u64 (DotCounter ie.2)) entries → wf_clock c → wf_clock (receive_entries entries c).
Proof.
  revert c. induction entries as [|ie entries IH]; intros c Hf Hc; [done|].
  inversion_clear Hf. apply IH; auto with sovereign.
Qed.

Lemma receive_entries_max entries c :
  lamportCounter (receive_entries entries c) =
  foldr Z.max (lamportCounter c) (map (λ ie, DotCounter ie.2) entries).
Proof.
  revert c. induction entries as [|ie entries IH]; intros c; [done|]. simpl.
  change (receive_entries (ie :: entries) c) with (receive_entries entries (AdvanceLamportTo (DotCounter ie.2) c)).
  rewrite IH, AdvanceLamportTo_max. clear IH.
  induction entries as [|ie' entries IH]; simpl in *; lia.
Qed.

Lemma join_ret entries e :
  wf_engine e → closing e = false → Forall (λ ie, is_u64 (DotCounter ie.2)) entries →
  ∃ e' ins skp, Join (Some entries) e = Ret e' ∧ wf_engine e' ∧
    (∀ k, PointGet e' k = merged (dotMerge (PointGet e k) (entries_for k (prepared entries).1))) ∧
    clk e' = receive_entries entries (clk e) ∧ routeSeed e' = routeSeed e ∧
    localNodeID e' = localNodeID e ∧ closing e' = closing e ∧
    length (shards e') = length (shards e) ∧
    (is_u64 (entriesInserted e) → entriesInserted e' = entriesInserted e +ₒ ins) ∧
    (is_u64 (entriesSkipped e) → entriesSkipped e' = entriesSkipped e +ₒ skp) ∧
    0 <= ins ∧ ins + skp = Z.of_nat (length entries).
Proof.
  intros [Hok Hc] Hcl Hf. pose proof (receive_entries_wf entries (clk e) Hf Hc) as Hc'.
  unfold Join. rewrite Hcl. destruct entries as [|ie entries].
  - exists (with_clk (receive_entries [] (clk e)) e), 0, 0.
    split_and!; try done; try lia.
    + intros k. assert (entries_for k (prepared []).1 = []) as ->.
      { pose proof (prepared_spec []) as H. destruct (prepared []) as [inc dups].
        destruct H as (_ & _ & _ & H & H0). destruct inc; [done|]. simpl in *. lia. }
      by rewrite dotMerge_nil_r.
    + intros Hi. simpl. by rewrite Z.add_0_r, u64_id.
    + intros Hi. simpl. by rewrite Z.add_0_r, u64_id.
  - set (l := ie :: entries) in *. cbn zeta. fold (prepared l).
    pose proof (join_spec (routeSeed e) (shards e) l Hok) as H.
    destruct (prepared l) as [inc dups].
    change (routeShard (with_clk (receive_entries l (clk e)) e))
      with (route (routeSeed e) (length (shards e))).
    cbn [shards with_clk]. cbn zeta in H.
    destruct (foldl _ _ _) as [[ss ti] ts]. destruct H as (Hok' & Hl & Hg & H0 & Hsum).
    eexists _, ti, (dups + ts). split; [done|]. split_and!; try done; try lia.
    intros k. rewrite !PointGet_ss. apply Hg.
Qed.

Lemma join_view g entries e :
  wf_engine e → closing e = false → Forall (λ ie, is_u64 (DotCounter ie.2)) entries →
  delta_agrees g entries →
  ∃ e', Join (Some entries) e = Ret e' ∧ wf_engine e' ∧ closing e' = false ∧
    clk e' = receive_entries entries (clk e) ∧
    ∀ k, view e' k = view e k ∪ delta_view k entries.
Proof.
  intros Hwf Hcl Hf Hg.
  destruct (join_ret entries e Hwf Hcl Hf) as (e' & _ & _ & Hj & Hwf' & Hpg & Hck & _ & _ & Hcl' & _).
  exists e'. split_and!; [done|done|congruence|done|]. intros k. unfold view. rewrite Hpg.
  rewrite dotMerge_union; [by rewrite (dots_map_prepared g)|by apply PointGet_sorted|].
  pose proof (prepared_spec entries) as H. destruct (prepared entries) as [inc dups].
  apply entries_for_sorted, H.
Qed.

(** Everything an engine holds after a join was there before or delivered. *)
Lemma join_elem entries e e' k x :
  wf_engine e → closing e = false → Forall (λ ie, is_u64 (DotCounter ie.2)) entries →
  Join (Some entries) e = Ret e' → x ∈ PointGet e' k → x ∈ PointGet e k ∨ (k, x) ∈ entries.
Proof.
  intros Hwf Hcl Hf Hj Hx. destruct (join_ret entries e Hwf Hcl Hf) as (e'' & _ & _ & Hj' & _ & Hpg & _).
  rewrite Hj' in Hj. injection Hj as <-. rewrite Hpg in Hx. apply dotMerge_elem in Hx as [Hx|Hx]; [by left|].
  right. pose proof (prepared_spec entries) as H. destruct (prepared entries) as [inc dups].
  destruct H as (_ & Hsub & _). unfold entries_for in Hx. simpl in Hx.
  apply list_elem_of_fmap in Hx as (z & -> & [<- Hin]%list_elem_of_filter). by apply Hsub.
Qed.

(** Joining a sequence of deltas. *)
Fixpoint join_all (ds : list (list (string * CRDTEntry))) (e : Engine) : outcome Engine :=
  match ds with
  | [] => Ret e
  | d :: ds' => match Join (Some d) e with Ret e' => join_all ds' e' | Panic m => Panic m end
  end.

Lemma view_delta_union g e d1 d2 k :
  engine_agrees g e → delta_agrees g d1 → delta_agrees g d2 → wf_engine e →
  view e k ∪ delta_view k d1 ∪ delta_view k d2 = view e k ∪ delta_view k (d1 ++ d2).
Proof.
  intros He H1 H2 Hwf. rewrite <- (assoc_L (∪)). f_equal. apply map_eq. intros d.
  assert (delta_agrees g (d1 ++ d2)) as H12 by (intros k' x [?|?]%elem_of_app; auto).
  apply option_eq. intros x. rewrite (delta_view_lookup g) by done.
  rewrite lookup_union_Some_raw, elem_of_app, !(delta_view_lookup g) by done.
  rewrite eq_None_not_Some. split; [naive_solver|]. intros [[Hx|Hx] Hd]; [by left|].
  destruct (delta_view k d1 !! d) as [y|] eqn:E.
  - left. apply (delta_view_lookup g) in E as [Hy Hyd]; [|done].
    rewrite (H2 k x Hx), Hd, <- Hyd, <- (H1 k y Hy). by rewrite Hyd.
  - right. split; [by intros [? ?]|done].
Qed.

Lemma join_all_view g ds e :
  wf_engine e → closing e = false → engine_agrees g e →
  Forall (λ ie, is_u64 (DotCounter ie.2)) (concat ds) → delta_agrees g (concat ds) →
  ∃ e', join_all ds e = Ret e' ∧ wf_engine e' ∧ closing e' = false ∧
    ∀ k, view e' k = view e k ∪ delta_view k (concat ds).
Proof.
  revert e. induction ds as [|d ds IH]; intros e Hwf Hcl He Hf Hg.
  { exists e. split_and!; [done..|]. intros k.
    change (delta_view k (concat [])) with (∅ : gmap CausalDot CRDTEntry). by rewrite (right_id_L ∅ (∪)). }
  simpl in *. apply Forall_app in Hf as [Hf1 Hf2].
  assert (delta_agrees g d) as Hg1 by (intros k x Hx; apply Hg, elem_of_app; by left).
  assert (delta_agrees g (concat ds)) as Hg2 by (intros k x Hx; apply Hg, elem_of_app; by right).
  destruct (join_view g d e Hwf Hcl Hf1 Hg1) as (e1 & -> & Hwf1 & Hcl1 & _ & Hv1).
  assert (engine_agrees g e1) as He1.
  { intros k x Hx. assert (view e1 k !! Dot x = Some x) as Hl by by apply view_lookup.
    rewrite Hv1 in Hl. apply lookup_union_Some_raw in Hl as [Hl|[_ Hl]].
    - apply view_lookup in Hl as [? _]; [|done]. by apply He.
    - apply (delta_view_lookup g) in Hl as [? _]; [|done]. by apply Hg1. }
  destruct (IH e1 Hwf1 Hcl1 He1 Hf2 Hg2) as (e' & Hj & Hwf' & Hcl' & Hv').
  exists e'. split_and!; [done..|]. intros k. rewrite Hv', Hv1. by apply (view_delta_union g).
Qed.

(** ** Local inserts *)

(** The body of the insert loop on a shard that does not hold the dot. *)
Lemma insert_entry_spec rt i h k x :
  shard_ok rt i h → rt k = i → dots_map (HAMT_Get h k) !! Dot x = None →
  shard_ok rt i (insert_entry h k x) ∧
  dots_map (HAMT_Get (insert_entry h k x) k) = <[Dot x := x]> (dots_map (HAMT_Get h k)) ∧
  HAMT_Get (insert_entry h k x) k ≡ₚ x :: HAMT_Get h k ∧
  ∀ k', k' ≠ k → HAMT_Get (insert_entry h k x) k' = HAMT_Get h k'.
Proof.
  intros [Hwf Hsh] Hrt Hnew.
  destruct (insertionSortLastEntry_spec (HAMT_Get h k) x) as (Hs' & Hm' & Hp'); [apply Hsh|done|].
  unfold insert_entry. set (es := insertionSortLastEntry (HAMT_Get h k ++ [x])) in *.
  assert (es ≠ []) as Hes by (intros H0; rewrite H0 in Hp'; by apply Permutation_nil_cons in Hp').
  split_and!.
  - split; [by apply HAMT_Set_insert|]. intros k'. rewrite HAMT_Get_Set by done.
    destruct (String.eqb_spec k' k) as [->|]; [done|apply Hsh].
  - by rewrite HAMT_Get_Set, String.eqb_refl.
  - by rewrite HAMT_Get_Set, String.eqb_refl.
  - intros k' Hk'. rewrite HAMT_Get_Set by done. by destruct (String.eqb_spec k' k).
Qed.

Lemma InsertLocal_spec k x e :
  let dot := mkDot (localNodeID e) (lamportCounter (clk e) +ₒ 1) in
  wf_engine e → closing e = false → view e k !! dot = None →
  ∃ e', InsertLocal k x e = Ret (dot, e') ∧ wf_engine e' ∧ closing e' = false ∧
    clk e' = (NextDot (localNodeID e) (clk e)).2 ∧ localNodeID e' = localNodeID e ∧
    entriesInserted e' = entriesInserted e +ₒ 1 ∧
    view e' k = <[dot := stamp dot (localNodeID e) x]> (view e k) ∧
    PointGet e' k ≡ₚ stamp dot (localNodeID e) x :: PointGet e k ∧
    (∀ k', k' ≠ k → PointGet e' k' = PointGet e k').
Proof.
  intros dot [Hok Hc] Hcl Hnew. unfold InsertLocal. rewrite Hcl.
  pose proof (NextDot_counter (localNodeID e) (clk e)) as Hd. fold dot in Hd.
  pose proof (wf_NextDot (localNodeID e) (clk e) Hc) as Hc'.
  destruct (NextDot (localNodeID e) (clk e)) as [d c]. simpl in Hd, Hc'. subst d.
  cbn [localNodeID with_clk shards]. set (y := stamp dot (localNodeID e) x).
  change (routeShard (with_clk c e) k) with (route (routeSeed e) (length (shards e)) k).
  set (i := route (routeSeed e) (length (shards e)) k).
  destruct (routed_shard _ _ k Hok) as (h & Hh & Hsh & Hget). fold i in Hh, Hsh. rewrite Hh.
  unfold view in *. rewrite PointGet_ss, Hget in *.
  destruct (insert_entry_spec _ i h k y Hsh eq_refl Hnew) as (Hok' & Hm' & Hp' & Ho').
  destruct (shards_ok_insert _ _ i _ Hok (lookup_lt_Some _ _ _ Hh) Hok') as [Hoks Hgets].
  eexists. split; [done|]. split_and!; try done.
  - rewrite PointGet_ss. simpl. by rewrite Hgets, decide_True by done.
  - rewrite PointGet_ss. simpl. by rewrite Hgets, decide_True by done.
  - intros k' Hk'. rewrite !PointGet_ss. simpl. rewrite Hgets. case_decide as Hd; [|done].
    rewrite Ho' by done. unfold ss_get, shard_get. by rewrite Hd, Hh.
Qed.

(** ** Whole-state traversals *)

Definition all_items (ss : list HAMT) : list block := concat (map hamt_items ss).

Lemma all_items_elem rseed ss k es :
  shards_ok rseed ss → (k, es) ∈ all_items ss ↔ ss_get rseed ss k = es ∧ es ≠ [].
Proof.
  intros Hok. unfold all_items. rewrite elem_of_concat. split.
  - intros (l & Hin & (h & -> & Hh)%list_elem_of_fmap).
    apply list_elem_of_lookup in Hh as [i Hi]. destruct (proj2 Hok i h Hi) as [Hwf Hs].
    apply hamt_items_elem in Hin as [Hg Hne]; [|done]. split; [|done].
    destruct (Hs k) as [_ Hr]. rewrite Hg in Hr. specialize (Hr Hne).
    unfold ss_get, shard_get. by rewrite Hr, Hi.
  - intros [Hg Hne]. destruct (routed_shard rseed ss k Hok) as (h & Hh & [Hwf _] & Hget).
    exists (hamt_items h). split; [apply hamt_items_elem; [done|]; by rewrite <- Hget|].
    apply list_elem_of_fmap. exists h. split; [done|]. by eapply list_elem_of_lookup_2.
Qed.

Lemma all_items_NoDup rseed ss : shards_ok rseed ss → NoDup (all_items ss).*1.
Proof.
  intros Hok. unfold all_items.
  replace ((concat (map hamt_items ss)).*1) with (concat (map (λ h, (hamt_items h).*1) ss)).
  2: { clear. induction ss as [|h ss IH]; simpl; [done|]. by rewrite fmap_app, IH. }
  apply NoDup_concat_map.
  - intros h [i Hi]%list_elem_of_lookup. destruct (proj2 Hok i h Hi) as [Hwf _]. by apply items_nodup.
  - assert (∀ i h k, ss !! i = Some h → k ∈ (hamt_items h).*1 → route rseed (length ss) k = i) as Hr.
    { intros i h k Hi ([k' es] & -> & Hin)%list_elem_of_fmap. simpl.
      destruct (proj2 Hok i h Hi) as [Hwf Hs]. apply hamt_items_elem in Hin as [Hg Hne]; [|done].
      destruct (Hs k') as [_ Hr]. apply Hr. by rewrite Hg. }
    intros p q h h' k Hp Hq Hk Hk'. by rewrite <- (Hr p h k), (Hr q h' k).
Qed.

Lemma block_of_all_items rseed ss k : shards_ok rseed ss → block_of (all_items ss) k = ss_get rseed ss k.
Proof.
  intros Hok. destruct (ss_get rseed ss k) as [|x es] eqn:E.
  - apply block_of_notin. intros ([k' es] & -> & Hin)%list_elem_of_fmap.
    apply (all_items_elem rseed) in Hin as [Hg Hne]; [|done]. simpl in *. congruence.
  - apply block_of_elem; [by eapply all_items_NoDup|]. by apply (all_items_elem rseed).
Qed.

(** Both State and SetShardCount fold a step over every item of every shard. *)
Lemma foldl_forEach {St} (f : St → string → list CRDTEntry → St) ss s :
  foldl (λ s h, HAMT_ForEach (λ s k es, (f s k es, true)) h s) s ss =
  foldl (λ s it, f s it.1 it.2) s (all_items ss).
Proof.
  unfold all_items. revert s. induction ss as [|h ss IH]; intros s; simpl; [done|].
  by rewrite IH, foldl_app, HAMT_ForEach_fold.
Qed.

Lemma foldl_Set_spec items h :
  wf_HAMT h → NoDup items.*1 → Forall (λ it, it.2 ≠ []) items →
  let h' := foldl (λ h it, HAMT_Set h it.1 it.2) h items in
  wf_HAMT h' ∧ ∀ k, HAMT_Get h' k =
    match block_of items k with [] => HAMT_Get h k | es => es end.
Proof.
  revert h. induction items as [|[id es] items IH]; intros h Hwf Hnd Hne; simpl.
  { split; [done|]. intros k. by rewrite block_of_notin by set_solver. }
  apply NoDup_cons in Hnd as [Hni Hnd]. inversion_clear Hne as [|? ? He Hne']. simpl in He.
  destruct (HAMT_Set_insert h id es Hwf He) as [Hwf' _].
  destruct (IH (HAMT_Set h id es) Hwf' Hnd Hne') as [Hw Hg]. split; [done|]. intros k.
  rewrite Hg, block_of_cons, HAMT_Get_Set by done. destruct (String.eqb_spec k id) as [->|]; [|done].
  rewrite block_of_notin by done. by destruct es.
Qed.

Lemma State_spec sd e : wf_engine e → wf_HAMT (State sd e) ∧ ∀ k, HAMT_Get (State sd e) k = PointGet e k.
Proof.
  intros [Hok _]. unfold State. rewrite (foldl_forEach (λ h k es, HAMT_Set h k es)).
  destruct (foldl_Set_spec (all_items (shards e)) (NewHAMT sd)) as [Hwf Hg].
  - apply wf_NewHAMT.
  - by eapply all_items_NoDup.
  - apply Forall_forall. intros [k es] Hin. by apply (all_items_elem (routeSeed e)) in Hin as [_ ?].
  - split; [done|]. intros k. rewrite Hg, (block_of_all_items (routeSeed e)), PointGet_ss by done.
    destruct (ss_get _ _ k); [|done]. destruct (wf_NewHAMT sd) as [Hwn Hmn].
    pose proof (hamt_map_lookup _ k Hwn) as Hl. rewrite Hmn, lookup_empty in Hl.
    by destruct (HAMT_Get (NewHAMT sd) k).
Qed.

(** ** Re-sharding *)

Lemma re_emit_spec rseed ss id es :
  shards_ok rseed ss → dot_sorted es →
  shards_ok rseed (re_emit rseed ss id es) ∧ length (re_emit rseed ss id es) = length ss ∧
  ∀ k, ss_get rseed (re_emit rseed ss id es) k =
       if String.eqb k id then merged (dotMerge (ss_get rseed ss id) es) else ss_get rseed ss k.
Proof.
  intros Hok Hes. destruct (routed_shard rseed ss id Hok) as (h & Hh & Hsh & Hget).
  unfold re_emit. set (i := route rseed (length ss) id) in *. rewrite Hh.
  destruct (mergeExistingDot_spec _ i h id es Hsh eq_refl Hes) as [Hsh' Hg].
  destruct (shards_ok_insert rseed ss i _ Hok (lookup_lt_Some _ _ _ Hh) Hsh') as [Hok' Hg'].
  split_and!; [done|apply length_insert|]. intros k. rewrite Hg', Hg, Hget.
  destruct (String.eqb_spec k id) as [->|Hne]; [by rewrite decide_True|].
  case_decide as Hd; [|done]. unfold ss_get, shard_get. by rewrite Hd, Hh.
Qed.

Lemma re_emit_all_spec rseed items ss :
  shards_ok rseed ss → NoDup items.*1 → Forall (λ it : block, dot_sorted it.2) items →
  let ss' := foldl (λ ss it, re_emit rseed ss it.1 it.2) ss items in
  shards_ok rseed ss' ∧ length ss' = length ss ∧
  ∀ k, ss_get rseed ss' k = merged (dotMerge (ss_get rseed ss k) (block_of items k)).
Proof.
  revert ss. induction items as [|[id es] items IH]; intros ss Hok Hnd Hs; simpl.
  { split_and!; [done|done|]. intros k. by rewrite block_of_notin, dotMerge_nil_r by set_solver. }
  apply NoDup_cons in Hnd as [Hni Hnd]. inversion_clear Hs as [|? ? He Hs']. simpl in He.
  destruct (re_emit_spec rseed ss id es Hok He) as (Hok' & Hl & Hg).
  destruct (IH _ Hok' Hnd Hs') as (Hok'' & Hl' & Hg'). split_and!; [done|congruence|]. intros k.
  rewrite Hg', Hg, block_of_cons. destruct (String.eqb_spec k id) as [->|]; [|done].
  by rewrite (block_of_notin items), dotMerge_nil_r.
Qed.

Lemma SetShardCount_spec n seeds e :
  wf_engine e → 1 <= n → Z.land n (n - 1) = 0 →
  ∃ e', SetShardCount n seeds e = Ret e' ∧ wf_engine e' ∧ eng_equiv e' e ∧
    Z.of_nat (length (shards e')) = n ∧ clk e' = clk e ∧ closing e' = closing e ∧
    localNodeID e' = localNodeID e.
Proof.
  intros [Hok Hc] Hn Hp. unfold SetShardCount. rewrite Hp.
  destruct (Z.ltb_spec n 1); [lia|]. simpl.
  destruct (Z.eqb_spec (Z.of_nat (length (shards e))) n); [by exists e; split_and!|].
  rewrite (foldl_forEach (λ ss id es, re_emit (routeSeed e) ss id es)).
  destruct (re_emit_all_spec (routeSeed e) (all_items (shards e)) (initShards seeds (Z.to_nat n)))
    as (Hok' & Hl & Hg).
  - apply shards_ok_init. lia.
  - by eapply all_items_NoDup.
  - apply Forall_forall. intros [k es] Hin. apply (all_items_elem (routeSeed e)) in Hin as [<- _]; [|done].
    by apply ss_get_sorted.
  - eexists. split; [done|]. split_and!; try done.
    + intros k. rewrite !PointGet_ss. simpl. rewrite Hg, ss_get_init, dotMerge_nil_l. simpl.
      by apply block_of_all_items.
    + simpl. rewrite Hl. unfold initShards. rewrite length_map, length_seq. lia.
Qed.

(** ** Reachable engines *)

Lemma wf_NewDeltaCRDTEngine nodeID c file rseed seeds :
  is_u64 c → (∀ v, recoverLamport file = Some v → is_u64 v) →
  wf_engine (NewDeltaCRDTEngine nodeID c file rseed seeds).
Proof.
  intros Hc Hf. split; [by apply shards_ok_init; unfold defaultShardCount; lia|].
  unfold NewDeltaCRDTEngine, newClock. simpl.
  destruct (recoverLamport file) as [v|]; [|by split_and!].
  specialize (Hf v eq_refl). destruct (_ && _); by split_and!.
Qed.

Lemma PointGet_new nodeID c file rseed seeds k :
  PointGet (NewDeltaCRDTEngine nodeID c file rseed seeds) k = [].
Proof. rewrite PointGet_ss. apply ss_get_init. Qed.

(** The clock is at least the counter of every stored dot. *)
Definition dominates (e : Engine) : Prop :=
  ∀ k x, x ∈ PointGet e k → DotCounter x <= lamportCounter (clk e).

(** Complete calls that return, with 64-bit arguments; the flag says whether
    the call mints a dot, that is adds one to the clock modulo 2^64.  The apply
    calls of crdt_apply.go reach the engine through Join. *)
Inductive engine_step : bool → Engine → Engine → Prop :=
| step_insert k x dot e e' : InsertLocal k x e = Ret (dot, e') → engine_step true e e'
| step_next_dot e : engine_step true e (with_clk (NextDot (localNodeID e) (clk e)).2 e)
| step_join entries e e' :
    Forall (λ ie, is_u64 (DotCounter ie.2)) entries →
    Join (Some entries) e = Ret e' → engine_step false e e'
| step_advance r e : is_u64 r → engine_step false e (with_clk (AdvanceLamportTo r (clk e)) e)
| step_reshard n seeds e e' : SetShardCount n seeds e = Ret e' → engine_step false e e'
| step_horizon h e : engine_step false e (with_clk (SetLamportHorizonSeconds h (clk e)) e)
| step_slack s e : is_u64 s → engine_step false e (with_clk (SetLamportAbsoluteSlack s (clk e)) e)
| step_close ok file e : engine_step false e (Close ok file e).1.

(** A run and its trace: each call's flag with the engine it was made on. *)
Inductive engine_run : Engine → list (bool * Engine) → Engine → Prop :=
| run_nil e : engine_run e [] e
| run_call b e e1 tr e2 : engine_step b e e1 → engine_run e1 tr e2 → engine_run e ((b, e) :: tr) e2.

(** No call mints a dot with the clock at the end of the counter space. *)
Definition never_wraps (tr : list (bool * Engine)) : Prop :=
  ∀ e, (true, e) ∈ tr → lamportCounter (clk e) ≠ u64_max.

Lemma dominates_fresh e k id :
  dominates e → lamportCounter (clk e) < u64_max → is_u64 (lamportCounter (clk e)) →
  view e k !! mkDot id (lamportCounter (clk e) +ₒ 1) = None.
Proof.
  intros Hd Hlt Hu. unfold view. apply dots_map_None. intros x Hx Hdot.
  specialize (Hd k x Hx). apply (f_equal Counter) in Hdot. unfold Dot in Hdot. simpl in Hdot.
  rewrite u64_id in Hdot by words. lia.
Qed.

Lemma foldr_max_ge l a : a <= foldr Z.max a l ∧ ∀ x, x ∈ l → x <= foldr Z.max a l.
Proof.
  induction l as [|y l [IH1 IH2]]; simpl; [split; [lia|by intros ? ?%elem_of_nil]|].
  split; [lia|]. intros x [->|Hx]%elem_of_cons; [lia|]. specialize (IH2 x Hx). lia.
Qed.

Lemma receive_entries_ge entries c k x :
  (k, x) ∈ entries → DotCounter x <= lamportCounter (receive_entries entries c).
Proof.
  intros Hin. rewrite receive_entries_max. apply foldr_max_ge, list_elem_of_fmap.
  by exists (k, x).
Qed.

Lemma step_insert_inv k x dot e e' :
  InsertLocal k x e = Ret (dot, e') → lamportCounter (clk e) < u64_max →
  wf_engine e → dominates e → wf_engine e' ∧ dominates e'.
Proof.
  intros Hi Hlt Hwf Hd. assert (closing e = false) as Hcl.
  { destruct (closing e) eqn:E; [|done]. unfold InsertLocal in Hi. by rewrite E in Hi. }
  pose proof Hwf as [_ (Hu & _)].
  destruct (InsertLocal_spec k x e Hwf Hcl) as (e'' & Hi' & Hwf' & _ & Hck & _ & _ & _ & Hp & Ho).
  { by apply dominates_fresh. }
  rewrite Hi' in Hi. injection Hi as <- <-. split; [done|]. intros k' y Hy. rewrite Hck, NextDot_lamport.
  rewrite u64_id by words. destruct (decide (k' = k)) as [->|Hne].
  + rewrite Hp in Hy. apply elem_of_cons in Hy as [->|Hy]; [simpl; rewrite u64_id by words; lia|].
    specialize (Hd k y Hy). lia.
  + rewrite Ho in Hy by done. specialize (Hd k' y Hy). lia.
Qed.

Lemma step_join_inv entries e e' :
  Forall (λ ie, is_u64 (DotCounter ie.2)) entries → Join (Some entries) e = Ret e' →
  wf_engine e → dominates e → wf_engine e' ∧ dominates e'.
Proof.
  intros Hf Hj Hwf Hd. assert (closing e = false) as Hcl.
  { destruct (closing e) eqn:E; [|done]. unfold Join in Hj. by rewrite E in Hj. }
  destruct (join_ret entries e Hwf Hcl Hf) as (e'' & ? & ? & Hj' & Hwf' & Hpg & Hck & _).
  rewrite Hj' in Hj. injection Hj as <-. split; [done|]. intros k y Hy. rewrite Hpg in Hy. rewrite Hck.
  apply dotMerge_elem in Hy as [Hy|Hy].
  + specialize (Hd k y Hy). rewrite receive_entries_max.
    pose proof (foldr_max_ge (map (λ ie, DotCounter ie.2) entries) (lamportCounter (clk e))) as [? _]. lia.
  + pose proof (prepared_spec entries) as Hprep. destruct (prepared entries) as [inc dups].
    destruct Hprep as (_ & Hsub & _). unfold entries_for in Hy. simpl in Hy.
    apply list_elem_of_fmap in Hy as (z & -> & [Hz Hin]%list_elem_of_filter).
    apply Hsub in Hin. by eapply receive_entries_ge.
Qed.

Lemma step_reshard_inv n seeds e e' :
  SetShardCount n seeds e = Ret e' → wf_engine e → dominates e → wf_engine e' ∧ dominates e'.
Proof.
  intros Hr Hwf Hd. unfold SetShardCount in Hr. destruct (_ || _) eqn:E; [done|].
  apply orb_false_iff in E as [E1 E2]. apply Z.ltb_ge in E1. apply negb_false_iff, Z.eqb_eq in E2.
  destruct (SetShardCount_spec n seeds e Hwf E1 E2) as (e'' & Hr' & Hwf' & Heq & _ & Hck & _).
  unfold SetShardCount in Hr'. rewrite E2 in Hr'. destruct (Z.ltb_spec n 1); [lia|]. simpl in Hr'.
  rewrite Hr' in Hr. injection Hr as <-. split; [done|]. intros k y Hy. rewrite Heq in Hy. rewrite Hck.
  by eapply Hd.
Qed.

(** Only the clock changes, to one that is not behind. *)
Lemma with_clk_inv c e :
  wf_clock c → lamportCounter (clk e) <= lamportCounter c →
  wf_engine e → dominates e → wf_engine (with_clk c e) ∧ dominates (with_clk c e).
Proof.
  intros Hc Hle [Hs _] Hd. split; [by split|]. intros k x Hx.
  change (x ∈ PointGet e k) in Hx. specialize (Hd k x Hx). simpl. lia.
Qed.

Lemma engine_step_inv b e e' :
  engine_step b e e' → (b = true → lamportCounter (clk e) < u64_max) →
  wf_engine e → dominates e → wf_engine e' ∧ dominates e'.
Proof.
  intros Hs Hlt Hwf Hd. pose proof Hwf as [_ Hc]. pose proof Hc as (Hu & Hsv & Hsl).
  destruct Hs as [k x dot e e' Hi|e|entries e e' Hf Hj|r e Hr|n seeds e e' Hr|h e|s e Hs|e].
  - by eapply step_insert_inv; [|apply Hlt|..].
  - specialize (Hlt eq_refl). apply with_clk_inv; try done; [by apply wf_NextDot|].
    rewrite NextDot_lamport, u64_id by words. lia.
  - by eapply step_join_inv.
  - apply with_clk_inv; try done; [by apply wf_AdvanceLamportTo|]. rewrite AdvanceLamportTo_max. lia.
  - by eapply step_reshard_inv.
  - by apply with_clk_inv.
  - by apply with_clk_inv.
  - by split.
Qed.

(** A call that mints at the end of the counter space leaves the clock at 0. *)
Lemma engine_step_wraps e e' :
  engine_step true e e' → lamportCounter (clk e) = u64_max → lamportCounter (clk e') = 0.
Proof.
  assert (∀ c, lamportCounter c = u64_max → lamportCounter (NextDot (localNodeID e) c).2 = 0) as Hn.
  { intros c Hc. rewrite NextDot_lamport, Hc. reflexivity. }
  inversion 1 as [k x dot ? ? Hi|?| | | | | |]; subst; intros Hc; [|by apply Hn].
  unfold InsertLocal in Hi. destruct (closing e); [done|].
  destruct (NextDot (localNodeID e) (clk e)) as [d c] eqn:E. cbn zeta in Hi.
  destruct (_ !! _); [|done]. injection Hi as _ <-. simpl. specialize (Hn (clk e) Hc). by rewrite E in Hn.
Qed.

(** The engine the constructor returns. *)
Lemma new_engine_inv nodeID c file rseed seeds :
  is_u64 c → (∀ v, recoverLamport file = Some v → is_u64 v) →
  wf_engine (NewDeltaCRDTEngine nodeID c file rseed seeds) ∧
  dominates (NewDeltaCRDTEngine nodeID c file rseed seeds).
Proof.
  intros Hc Hf. split; [by apply wf_NewDeltaCRDTEngine|]. intros k x Hx.
  rewrite PointGet_new in Hx. by apply elem_of_nil in Hx.
Qed.

Lemma engine_run_inv e0 tr e :
  engine_run e0 tr e → never_wraps tr → wf_engine e0 → dominates e0 → wf_engine e ∧ dominates e.
Proof.
  induction 1 as [e|b e e1 tr e2 Hs Hr IH]; intros Hn Hwf Hd; [done|].
  pose proof Hwf as [_ (Hu & _)]. destruct (engine_step_inv b e e1 Hs) as [Hwf1 Hd1]; [|done..|].
  - intros ->. specialize (Hn e ltac:(left)). unfold u64_max in *. words.
  - apply IH; [|done..]. intros s Hin. apply Hn. by right.
Qed.
End Props.

#[export] Hint Resolve PointGet_sorted wf_NewDeltaCRDTEngine : sovereign.

(** * The engine's properties, stated over complete calls. *)

Section Theorems.
Context `{MH : MapHash} `{SS : SliceSort}.

(** C7. Join refines the join of dot maps: on a well-formed open engine it
    returns, keeps the invariant, turns every entity's dot map into its
    left-biased union with the delta's dot map for that entity, raises the clock
    to the largest counter seen, and accounts for every delivered entry as
    inserted or skipped. *)
Theorem join_refines_union (g : assignment) (entries : list (string * CRDTEntry)) (e : Engine) :
  wf_engine e → closing e = false → Forall (λ ie, is_u64 (DotCounter ie.2)) entries →
  delta_agrees g entries → is_u64 (entriesInserted e) → is_u64 (entriesSkipped e) →
  ∃ e' ins skp, Join (Some entries) e = Ret e' ∧ wf_engine e' ∧
    (∀ k, view e' k = view e k ∪ delta_view k entries) ∧
    lamportCounter (clk e') = foldr Z.max (lamportCounter (clk e)) (map (λ ie, DotCounter ie.2) entries) ∧
    entriesInserted e' = entriesInserted e +ₒ ins ∧ entriesSkipped e' = entriesSkipped e +ₒ skp ∧
    0 <= ins ∧ ins + skp = Z.of_nat (length entries).
Proof.
  intros Hwf Hcl Hf Hg Hi Hs.
  destruct (join_ret entries e Hwf Hcl Hf)
    as (e' & ins & skp & Hj & Hwf' & _ & Hck & _ & _ & _ & _ & Hins & Hskp & H0 & Hsum).
  destruct (join_view g entries e Hwf Hcl Hf Hg) as (e'' & Hj' & _ & _ & _ & Hv).
  rewrite Hj in Hj'. injection Hj' as <-. exists e', ins, skp.
  split_and!; try done; [|by apply Hins|by apply Hskp]. by rewrite Hck, receive_entries_max.
Qed.

(** C1. Strong eventual consistency: two open, well-formed replicas that no
    reader can tell apart (whatever their shard counts, seeds and node ids), and
    that join deltas carrying the same set of entries, in any order, batching
    and duplication, are indistinguishable again: every entity has the same
    entry slice on both. This is when an entity and a dot name one entry across
    the replicas and the deltas and counters are 64-bit; two entries under one
    dot, which DurableWit.lost_insert_dot_reminted shows a node can mint after
    it lost a write, leave replicas apart. *)
Theorem replicas_converge (g : assignment) (ds1 ds2 : list (list (string * CRDTEntry))) (e1 e2 : Engine) :
  wf_engine e1 → wf_engine e2 → closing e1 = false → closing e2 = false →
  eng_equiv e1 e2 → engine_agrees g e1 →
  delta_agrees g (concat ds1) → Forall (λ ie, is_u64 (DotCounter ie.2)) (concat ds1) →
  (∀ ie, ie ∈ concat ds1 ↔ ie ∈ concat ds2) →
  ∃ e1' e2', join_all ds1 e1 = Ret e1' ∧ join_all ds2 e2 = Ret e2' ∧ eng_equiv e1' e2'.
Proof.
  intros Hw1 Hw2 Hc1 Hc2 Heq Ha Hg Hf Hset.
  assert (engine_agrees g e2) as Ha2 by (intros k x Hx; apply Ha; by rewrite Heq).
  assert (delta_agrees g (concat ds2)) as Hg2 by (intros k x Hx; apply Hg; by apply Hset).
  assert (Forall (λ ie, is_u64 (DotCounter ie.2)) (concat ds2)) as Hf2.
  { rewrite Forall_forall in *. intros ie Hin. by apply Hf, Hset. }
  destruct (join_all_view g ds1 e1 Hw1 Hc1 Ha Hf Hg) as (e1' & Hj1 & Hw1' & _ & Hv1).
  destruct (join_all_view g ds2 e2 Hw2 Hc2 Ha2 Hf2 Hg2) as (e2' & Hj2 & Hw2' & _ & Hv2).
  exists e1', e2'. split_and!; [done|done|]. apply view_inj; [done|done|]. intros k.
  rewrite Hv1, Hv2, Heq. f_equal. apply map_eq. intros d. apply option_eq. intros x.
  rewrite !(delta_view_lookup g) by done. by rewrite Hset.
Qed.

(** Joining a delta again changes nothing: no reader sees a difference and
    the clock stays where it is. *)
Theorem join_idempotent (g : assignment) (entries : list (string * CRDTEntry)) (e : Engine) :
  wf_engine e → closing e = false → Forall (λ ie, is_u64 (DotCounter ie.2)) entries →
  delta_agrees g entries →
  ∃ e1 e2, Join (Some entries) e = Ret e1 ∧ Join (Some entries) e1 = Ret e2 ∧
    eng_equiv e2 e1 ∧ lamportCounter (clk e2) = lamportCounter (clk e1).
Proof.
  intros Hwf Hcl Hf Hg.
  destruct (join_view g entries e Hwf Hcl Hf Hg) as (e1 & Hj1 & Hw1 & Hc1 & Hk1 & Hv1).
  destruct (join_view g entries e1 Hw1 Hc1 Hf Hg) as (e2 & Hj2 & Hw2 & _ & Hk2 & Hv2).
  exists e1, e2. split_and!; [done|done| |].
  - apply view_inj; [done|done|]. intros k. rewrite Hv2, Hv1, <- (assoc_L (∪)).
    f_equal. apply map_eq. intros d. rewrite lookup_union. by destruct (delta_view k entries !! d).
  - rewrite Hk2, receive_entries_max. rewrite Hk1.
    assert (∀ l a, (∀ x, x ∈ l → x <= a) → foldr Z.max a l = a) as Hmax.
    { induction l as [|y l IH]; intros a Hl; simpl; [done|].
      rewrite IH by (intros; apply Hl; by right). specialize (Hl y ltac:(left)). lia. }
    apply Hmax. intros x ([k y] & -> & Hy)%list_elem_of_fmap. by eapply receive_entries_ge.
Qed.

(** InsertLocal on an engine whose clock dominates its dots stamps the entry
    with a dot no entity holds, adds exactly that entry to exactly that entity,
    leaves every other entity alone and keeps the invariant. *)
Theorem insert_local_adds_fresh_dot (k : string) (x : CRDTEntry) (e : Engine) :
  wf_engine e → dominates e → closing e = false → lamportCounter (clk e) < u64_max →
  let dot := mkDot (localNodeID e) (lamportCounter (clk e) + 1) in
  (∀ k', view e k' !! dot = None) ∧
  ∃ e', InsertLocal k x e = Ret (dot, e') ∧ wf_engine e' ∧ dominates e' ∧
    view e' k = <[dot := stamp dot (localNodeID e) x]> (view e k) ∧
    PointGet e' k ≡ₚ stamp dot (localNodeID e) x :: PointGet e k ∧
    (∀ k', k' ≠ k → PointGet e' k' = PointGet e k') ∧
    entriesInserted e' = entriesInserted e +ₒ 1.
Proof.
  intros Hwf Hd Hcl Hlt. pose proof Hwf as [_ (Hu & _)].
  assert (lamportCounter (clk e) + 1 = lamportCounter (clk e) +ₒ 1) as Heq.
  { rewrite u64_id; words. }
  rewrite Heq. split; [intros k'; by apply dominates_fresh|].
  destruct (InsertLocal_spec k x e Hwf Hcl (dominates_fresh e k _ Hd Hlt Hu))
    as (e' & Hi & Hwf' & _ & _ & _ & Hn & Hv & Hp & Ho).
  exists e'. split_and!; try done.
  by eapply step_insert_inv.
Qed.

(** C21. Take any engine reachable from the constructor, in calls that run to
    completion, by InsertLocal, NextDot, Join, AdvanceLamportTo, SetShardCount,
    SetLamportHorizonSeconds, SetLamportAbsoluteSlack and Close with 64-bit
    arguments.  As long as no call of the run mints a dot with the clock at
    2^64 - 1, the engine is well formed (tries, routing, clock fields), every
    entity's slice is strictly sorted by dot and the clock is at least the counter
    of every stored dot.  A call that does mint there sets the clock to 0. *)
Theorem reachable_engine_invariant (nodeID : list Z) (c : Z) (file : option (list Z)) (rseed : Z)
    (seeds : nat → Z) (tr : list (bool * Engine)) (e : Engine) :
  is_u64 c → (∀ v, recoverLamport file = Some v → is_u64 v) →
  engine_run (NewDeltaCRDTEngine nodeID c file rseed seeds) tr e →
  (never_wraps tr →
   wf_engine e ∧ (∀ k, dot_sorted (PointGet e k)) ∧
   ∀ k x, x ∈ PointGet e k → DotCounter x <= lamportCounter (clk e)) ∧
  (∀ e', engine_step true e e' → lamportCounter (clk e) = u64_max → lamportCounter (clk e') = 0).
Proof.
  intros Hc Hf Hr. destruct (new_engine_inv nodeID c file rseed seeds Hc Hf) as [Hwf0 Hd0].
  split; [|intros e'; apply engine_step_wraps]. intros Hn.
  destruct (engine_run_inv _ _ _ Hr Hn Hwf0 Hd0) as [Hwf Hd].
  split_and!; [done| |done]. intros k. by apply PointGet_sorted.
Qed.

(** The O(log N) point read returns what the merged view returns, for every
    entity and whatever seed the view was built with. *)
Theorem point_get_is_state_get (sd : Z) (e : Engine) (k : string) :
  wf_engine e → PointGet e k = HAMT_Get (State sd e) k.
Proof. intros Hwf. symmetry. by apply State_spec. Qed.

(** SetShardCount re-shards without a reader noticing: a power of two is
    accepted, yields exactly that many shards, keeps the invariant, the clock and
    every entity's slice; any other count panics. *)
Theorem set_shard_count_transparent (n : Z) (seeds : nat → Z) (e : Engine) :
  wf_engine e →
  (1 <= n ∧ Z.land n (n - 1) = 0 →
   ∃ e', SetShardCount n seeds e = Ret e' ∧ wf_engine e' ∧ eng_equiv e' e ∧
     Z.of_nat (length (shards e')) = n ∧ clk e' = clk e) ∧
  (¬ (1 <= n ∧ Z.land n (n - 1) = 0) → ∃ msg, SetShardCount n seeds e = Panic msg).
Proof.
  intros Hwf. split.
  - intros [Hn Hp]. destruct (SetShardCount_spec n seeds e Hwf Hn Hp) as (e' & ?&?&?&?&?&_).
    exists e'. by split_and!.
  - intros Hn. unfold SetShardCount. destruct (_ || _) eqn:E; [by eexists|]. exfalso. apply Hn.
    apply orb_false_iff in E as [E1 E2]. apply Z.ltb_ge in E1. by apply negb_false_iff, Z.eqb_eq in E2.
Qed.

(** Routing is total and in range: every entity goes to one shard of the
    slice, and the bitmask used for a power-of-two count is the hash modulo the
    count. *)
Theorem route_in_range_and_modulo (e : Engine) (k : string) :
  wf_engine e →
  (routeShard e k < length (shards e))%nat ∧
  Z.of_nat (routeShard e k) =
    maphash (routeSeed e) (string_bytes k) `mod` Z.of_nat (length (shards e)).
Proof.
  intros [[Hlen _] _]. unfold routeShard. split; [by apply route_lt|].
  rewrite route_mod by done. rewrite Z2Nat.id; [done|]. apply Z.mod_pos_bound. lia.
Qed.
End Theorems.

(** ** Witnesses *)

Definition sample_engine (node rseed : Z) : Engine :=
  NewDeltaCRDTEngine (replicate 16 node) 0 None rseed (λ i, Z.of_nat i).

Definition sample_delta : list (string * CRDTEntry) :=
  [("b", sample_entry 2 7 5); ("a", sample_entry 2 6 5); ("b", sample_entry 3 1 9); ("b", sample_entry 2 7 5)].

Definition sample_assignment : assignment := λ k d,
  if bool_decide (d = mkDot (replicate 16 3) 1) then sample_entry 3 1 9
  else sample_entry 2 (Counter d) 5.

Lemma sample_engine_wf node rseed : wf_engine (MH:=fnv_maphash) (sample_engine node rseed).
Proof. by apply wf_NewDeltaCRDTEngine. Qed.

Lemma sample_engine_dominates node rseed : dominates (MH:=fnv_maphash) (sample_engine node rseed).
Proof. intros k x Hx. unfold sample_engine in Hx. rewrite PointGet_new in Hx. by apply elem_of_nil in Hx. Qed.

Lemma sample_delta_agrees : delta_agrees sample_assignment sample_delta.
Proof.
  intros k e H. repeat (apply elem_of_cons in H as [H|H];
    [injection H as -> ->; vm_compute; reflexivity|]). by apply elem_of_nil in H.
Qed.

Lemma sample_delta_counters : Forall (λ ie, is_u64 (DotCounter ie.2)) sample_delta.
Proof. repeat constructor; done. Qed.

Lemma join_refines_union_witness :
  ∃ e', Join (MH:=fnv_maphash) (SS:=insertion_SliceSort) (Some sample_delta) (sample_engine 1 9) = Ret e' ∧
    view (MH:=fnv_maphash) e' "b" = view (MH:=fnv_maphash) (sample_engine 1 9) "b" ∪ delta_view "b" sample_delta.
Proof.
  destruct (join_refines_union (MH:=fnv_maphash) (SS:=insertion_SliceSort) sample_assignment sample_delta
              (sample_engine 1 9) (sample_engine_wf 1 9) eq_refl sample_delta_counters sample_delta_agrees
              ltac:(done) ltac:(done)) as (e' & _ & _ & Hj & _ & Hv & _).
  exists e'. split; [exact Hj|apply Hv].
Defined.

Lemma replicas_converge_witness :
  ∃ e1 e2,
    join_all (MH:=fnv_maphash) (SS:=insertion_SliceSort) [sample_delta; rev sample_delta] (sample_engine 1 9) = Ret e1 ∧
    join_all (MH:=fnv_maphash) (SS:=insertion_SliceSort) [rev sample_delta] (sample_engine 4 77) = Ret e2 ∧
    eng_equiv (MH:=fnv_maphash) e1 e2.
Proof.
  apply (replicas_converge (MH:=fnv_maphash) (SS:=insertion_SliceSort) sample_assignment).
  - apply sample_engine_wf.
  - apply sample_engine_wf.
  - reflexivity.
  - reflexivity.
  - intros k. unfold sample_engine. by rewrite !PointGet_new.
  - intros k x Hx. unfold sample_engine in Hx. rewrite PointGet_new in Hx. by apply elem_of_nil in Hx.
  - intros k x Hx. apply sample_delta_agrees. revert Hx. simpl. set_solver.
  - simpl. repeat constructor; done.
  - intros ie. simpl. set_solver.
Defined.

Lemma join_idempotent_witness :
  ∃ e1 e2, Join (MH:=fnv_maphash) (SS:=insertion_SliceSort) (Some sample_delta) (sample_engine 1 9) = Ret e1 ∧
    Join (MH:=fnv_maphash) (SS:=insertion_SliceSort) (Some sample_delta) e1 = Ret e2 ∧
    eng_equiv (MH:=fnv_maphash) e2 e1.
Proof.
  destruct (join_idempotent (MH:=fnv_maphash) (SS:=insertion_SliceSort) sample_assignment sample_delta
              (sample_engine 1 9) (sample_engine_wf 1 9) eq_refl sample_delta_counters sample_delta_agrees)
    as (e1 & e2 & ? & ? & ? & _).
  exists e1, e2. by split_and!.
Defined.

Lemma insert_local_adds_fresh_dot_witness :
  ∃ e', InsertLocal (MH:=fnv_maphash) "a" (sample_entry 0 0 5) (sample_engine 1 9) =
        Ret (mkDot (replicate 16 1) 1, e') ∧
    PointGet (MH:=fnv_maphash) e' "a" ≡ₚ [sample_entry 1 1 5].
Proof.
  assert (lamportCounter (clk (sample_engine 1 9)) < u64_max) as Hlt by (unfold u64_max; simpl; lia).
  destruct (insert_local_adds_fresh_dot (MH:=fnv_maphash) "a" (sample_entry 0 0 5) (sample_engine 1 9)
              (sample_engine_wf 1 9) (sample_engine_dominates 1 9) eq_refl Hlt)
    as (_ & e' & Hi & _ & _ & _ & Hp & _).
  exists e'. split; [exact Hi|]. rewrite Hp. unfold sample_engine. by rewrite PointGet_new.
Defined.

Lemma reachable_engine_invariant_witness :
  ∃ e', InsertLocal (MH:=fnv_maphash) "a" (sample_entry 0 0 5)
          (with_clk (AdvanceLamportTo 41 (clk (sample_engine 1 9))) (sample_engine 1 9)) =
        Ret (mkDot (replicate 16 1) 42, e') ∧ wf_engine (MH:=fnv_maphash) e'.
Proof.
  set (e1 := with_clk _ _).
  destruct (InsertLocal (MH:=fnv_maphash) "a" (sample_entry 0 0 5) e1) as [[d e']|m] eqn:E;
    [|vm_compute in E; discriminate E].
  exists e'. assert (d = mkDot (replicate 16 1) 42) as ->.
  { pose proof (f_equal (λ o, match o with Ret p => Some p.1 | _ => None end) E) as Ed.
    vm_compute in Ed. injection Ed as <-. reflexivity. }
  split; [reflexivity|].
  refine (proj1 (proj1 (reachable_engine_invariant (MH:=fnv_maphash) (SS:=insertion_SliceSort) (replicate 16 1)
    0 None 9 (λ i, Z.of_nat i) [(false, sample_engine 1 9); (true, e1)] e' _ _ _) _)); [done|done| |].
  - eapply run_call; [apply (step_advance 41); done|].
    eapply run_call; [exact (step_insert "a" (sample_entry 0 0 5) _ e1 e' E)|constructor].
  - intros s Hs. apply elem_of_cons in Hs as [[=]|Hs]. apply list_elem_of_singleton in Hs as [= ->].
    unfold u64_max. simpl. lia.
Defined.

Lemma point_get_is_state_get_witness :
  PointGet (MH:=fnv_maphash) (sample_engine 1 9) "a" =
  HAMT_Get (MH:=fnv_maphash) (State (MH:=fnv_maphash) 12 (sample_engine 1 9)) "a".
Proof. exact (point_get_is_state_get (MH:=fnv_maphash) 12 (sample_engine 1 9) "a" (sample_engine_wf 1 9)). Defined.

Lemma set_shard_count_transparent_witness :
  ∃ e', SetShardCount (MH:=fnv_maphash) 8 (λ i, Z.of_nat i) (sample_engine 1 9) = Ret e' ∧
    length (shards e') = 8%nat.
Proof.
  destruct (proj1 (set_shard_count_transparent (MH:=fnv_maphash) 8 (λ i, Z.of_nat i) (sample_engine 1 9)
              (sample_engine_wf 1 9)) ltac:(done)) as (e' & Hs & _ & _ & Hl & _).
  exists e'. split; [exact Hs|lia].
Defined.

Lemma route_in_range_and_modulo_witness :
  (routeShard (MH:=fnv_maphash) (sample_engine 1 9) "a" < 256)%nat.
Proof. exact (proj1 (route_in_range_and_modulo (MH:=fnv_maphash) (sample_engine 1 9) "a" (sample_engine_wf 1 9))). Defined.
