(* ===== verification/EngineConc.v ===== *)
(** InsertLocal and Join running concurrently (pkg/sync/crdt.go): the
    load / rebuild / compare-and-swap loops on the shard pointers, interleaved
    step by step.  A shard pointer is an address and the root behind it; the
    reclamation scheme never reuses an address a loop still holds, so a
    successful swap installs a fresh one. *)
From S2P Require Import Prelude Bytes Dots Hamt HamtMap Lamport Sorting Engine EngineInv JoinSpec.
From S2P Require Import EngineThms.

Section Conc.
Context `{MH : MapHash} `{SS : SliceSort}.

(** ** Loops and threads *)

(** One compare-and-swap loop: InsertLocal's on the entity's shard, or Join's
    turn on shard [i] with the batches routed there. *)
Inductive task :=
| InsTask (k : string) (x : CRDTEntry)
| MergeTask (i : nat) (bs : list block).

Definition task_shard (rt : string → nat) (tk : task) : nat :=
  match tk with InsTask k _ => rt k | MergeTask i _ => i end.

(** The root a loop builds from the one it loaded; [None] breaks out of the loop
    without a swap (Join, nothing added). *)
Definition task_run (tk : task) (current : HAMT) : option HAMT :=
  match tk with
  | InsTask k x => Some (insert_entry current k x)
  | MergeTask _ bs =>
      let r := perShardMerge current bs in
      if addedAny r then Some (modified r) else None
  end.

(** A call in flight: the loops it still has to finish, and the pointer the
    current loop has loaded. *)
Record thread := mkThread { todo : list task; loaded : option (nat * HAMT) }.

Record config := mkConfig { roots : list (nat * HAMT); next : nat; threads : list thread }.

Inductive conc_step (rt : string → nat) : config → config → Prop :=
| s_load c t tk w p h :
    threads c !! t = Some (mkThread (tk :: w) None) →
    roots c !! task_shard rt tk = Some (p, h) →
    conc_step rt c (mkConfig (roots c) (next c) (<[t := mkThread (tk :: w) (Some (p, h))]> (threads c)))
| s_nothing c t tk w p h :
    threads c !! t = Some (mkThread (tk :: w) (Some (p, h))) → task_run tk h = None →
    conc_step rt c (mkConfig (roots c) (next c) (<[t := mkThread w None]> (threads c)))
| s_cas_ok c t tk w p h h' h0 :
    threads c !! t = Some (mkThread (tk :: w) (Some (p, h))) → task_run tk h = Some h' →
    roots c !! task_shard rt tk = Some (p, h0) →
    conc_step rt c (mkConfig (<[task_shard rt tk := (next c, h')]> (roots c)) (S (next c))
                      (<[t := mkThread w None]> (threads c)))
| s_cas_fail c t tk w p h h' p' h0 :
    threads c !! t = Some (mkThread (tk :: w) (Some (p, h))) → task_run tk h = Some h' →
    roots c !! task_shard rt tk = Some (p', h0) → p' ≠ p →
    conc_step rt c (mkConfig (roots c) (next c) (<[t := mkThread (tk :: w) None]> (threads c))).

(** ** Calls *)

(** InsertLocal with its stamped entry, or Join with the entries of its delta. *)
Inductive call := CInsert (k : string) (x : CRDTEntry) | CJoin (entries : list (string * CRDTEntry)).

Definition call_entries (c : call) : list (string * CRDTEntry) :=
  match c with CInsert k x => [(k, x)] | CJoin entries => entries end.

Definition join_tasks (rt : string → nat) (entries : list (string * CRDTEntry)) : list task :=
  let m := shardBatches rt (group_runs (prepared entries).1) in
  map (λ i, MergeTask i (default [] (m !! i))) (shardOrder m).

Definition call_tasks (rt : string → nat) (c : call) : list task :=
  match c with CInsert k x => [InsTask k x] | CJoin entries => join_tasks rt entries end.

(** The same calls one at a time: InsertLocal from its stamped entry on, and
    Join. *)
Definition insert_stamped (k : string) (x : CRDTEntry) (e : Engine) : outcome Engine :=
  if closing e then Panic "sovereign: InsertLocal after Close (arena is torn down)"
  else match shards e !! routeShard e k with
       | Some current =>
           Ret (with_counts 0 1 0 (with_shards (<[routeShard e k := insert_entry current k x]> (shards e)) e))
       | None => Panic "index out of range"
       end.

Definition call_run (c : call) (e : Engine) : outcome Engine :=
  match c with CInsert k x => insert_stamped k x e | CJoin entries => Join (Some entries) e end.

Fixpoint run_calls (calls : list call) (e : Engine) : outcome Engine :=
  match calls with
  | [] => Ret e
  | c :: calls => match call_run c e with Ret e => run_calls calls e | Panic m => Panic m end
  end.

Definition start (rt : string → nat) (ss : list HAMT) (calls : list call) : config :=
  mkConfig (imap pair ss) (length ss) (map (λ c, mkThread (call_tasks rt c) None) calls).

(** ** Invariant *)

Definition task_entries (tk : task) : list (string * CRDTEntry) :=
  match tk with
  | InsTask k x => [(k, x)]
  | MergeTask _ bs => concat (map (λ b, map (pair b.1) b.2) bs)
  end.

Definition pend (c : config) : list task := concat (map todo (threads c)).

Definition task_ok (rt : string → nat) (n : nat) (tk : task) : Prop :=
  (task_shard rt tk < n)%nat ∧
  match tk with InsTask _ _ => True | MergeTask i bs => blocks_ok rt i bs end.

(** An insert's dot is carried by no other pending loop. *)
Definition no_clash (l : list task) : Prop :=
  ∀ k x rest, l ≡ₚ InsTask k x :: rest → ∀ tk y, tk ∈ rest → (k, y) ∈ task_entries tk → Dot y ≠ Dot x.

Definition root_holds (h : HAMT) (k : string) (x : CRDTEntry) : Prop := x ∈ HAMT_Get h k.

(** Entity [k] holds [x] in the published roots. *)
Definition holds (rt : string → nat) (c : config) (k : string) (x : CRDTEntry) : Prop :=
  ∃ p h, roots c !! rt k = Some (p, h) ∧ root_holds h k x.

(** Held, or still to be written by some loop. *)
Definition held_or_pending (rt : string → nat) (c : config) (k : string) (x : CRDTEntry) : Prop :=
  holds rt c k x ∨ ∃ tk, tk ∈ pend c ∧ (k, x) ∈ task_entries tk.

Record inv (rt : string → nat) (g : assignment) (c : config) : Prop := {
  inv_rt : ∀ k, (rt k < length (roots c))%nat;
  inv_roots : ∀ i p h, roots c !! i = Some (p, h) → shard_ok rt i h ∧ (p < next c)%nat;
  inv_agree : ∀ k x, held_or_pending rt c k x → x = g k (Dot x);
  inv_tasks : ∀ tk, tk ∈ pend c → task_ok rt (length (roots c)) tk;
  inv_clash : no_clash (pend c);
  inv_fresh : ∀ k x, InsTask k x ∈ pend c → ∀ y, holds rt c k y → Dot y ≠ Dot x;
  inv_loaded : ∀ t tk w p h, threads c !! t = Some (mkThread (tk :: w) (Some (p, h))) →
    shard_ok rt (task_shard rt tk) h ∧ (p < next c)%nat ∧
    ∀ p' h', roots c !! task_shard rt tk = Some (p', h') →
      (p = p' → h = h') ∧ ∀ k x, root_holds h k x → root_holds h' k x;
}.

(** ** One loop *)

Lemma elem_of_task_entries i bs k x :
  NoDup bs.*1 → (k, x) ∈ task_entries (MergeTask i bs) ↔ x ∈ block_of bs k.
Proof.
  intros Hnd. simpl. rewrite elem_of_concat. split.
  - intros (l & Hl & (b & -> & Hb)%list_elem_of_fmap). apply list_elem_of_fmap in Hl as (y & [= -> ->] & Hy).
    destruct b as [id es]. cbn [fst snd] in *. by rewrite (block_of_elem bs id es).
  - intros Hx. unfold block_of in Hx. destruct (list_to_map bs !! k) as [es|] eqn:E; [|by apply elem_of_nil in Hx].
    apply elem_of_list_to_map_2 in E. exists (map (pair k) es). split.
    + apply list_elem_of_fmap. by exists x.
    + apply list_elem_of_fmap. by exists (k, es).
Qed.

(** Merging slices that agree holds exactly what either holds. *)
Lemma dotMerge_elem_iff (f : CausalDot → CRDTEntry) ex inc x :
  dot_sorted ex → dot_sorted inc →
  (∀ y, y ∈ ex ∨ y ∈ inc → y = f (Dot y)) →
  x ∈ merged (dotMerge ex inc) ↔ x ∈ ex ∨ x ∈ inc.
Proof.
  intros He Hi Hf. split; [apply dotMerge_elem|]. intros Hx.
  assert (dots_map (merged (dotMerge ex inc)) !! Dot x = Some x) as H.
  { rewrite dotMerge_union by done. destruct Hx as [Hx|Hx].
    - apply lookup_union_Some_l. by apply dots_map_elem.
    - destruct (dots_map ex !! Dot x) as [y|] eqn:E.
      + rewrite (lookup_union_Some_l _ _ _ _ E). apply dots_map_lookup_dot in E as [Hd Hy].
        rewrite (Hf y), (Hf x) by auto. by rewrite Hd.
      + rewrite lookup_union_r by done. by apply dots_map_elem. }
  by apply dots_map_lookup_dot in H as [_ ?].
Qed.

Lemma block_of_sorted rt i bs k : blocks_ok rt i bs → dot_sorted (block_of bs k).
Proof.
  intros [Hnd Hb]. unfold block_of. destruct (list_to_map bs !! k) as [es|] eqn:E; simpl; [|constructor].
  apply elem_of_list_to_map_2 in E. by apply (Hb (k, es)).
Qed.

(** What a loop's rebuild does to the root it started from. *)
Lemma task_run_spec rt n g tk h :
  let i := task_shard rt tk in
  shard_ok rt i h → task_ok rt n tk →
  (∀ k x, root_holds h k x ∨ (k, x) ∈ task_entries tk → x = g k (Dot x)) →
  (∀ k x, tk = InsTask k x → ∀ y, root_holds h k y → Dot y ≠ Dot x) →
  match task_run tk h with
  | Some h' => shard_ok rt i h' ∧ ∀ k x, root_holds h' k x ↔ root_holds h k x ∨ (k, x) ∈ task_entries tk
  | None => ∀ k x, (k, x) ∈ task_entries tk → root_holds h k x
  end.
Proof.
  destruct tk as [k x|i bs]; cbn [task_shard task_run]; intros Hsh [_ Hbs] Hag Hfresh.
  - destruct (insert_entry_spec rt (rt k) h k x Hsh eq_refl) as (Hok & _ & Hp & Ho).
    { apply dots_map_None. intros e He. by apply (Hfresh k x eq_refl). }
    split; [done|]. intros k' y. unfold root_holds. cbn [task_entries]. rewrite list_elem_of_singleton.
    destruct (decide (k' = k)) as [->|Hne].
    + rewrite Hp, elem_of_cons. naive_solver.
    + rewrite Ho by done. naive_solver.
  - destruct (perShardMerge_spec rt i h bs Hsh Hbs) as (Hok & Hg & Hna & _).
    assert (∀ k x, root_holds (modified (perShardMerge h bs)) k x ↔
      root_holds h k x ∨ (k, x) ∈ task_entries (MergeTask i bs)) as Hiff.
    { intros k x. unfold root_holds. rewrite Hg, elem_of_task_entries by apply Hbs.
      apply (dotMerge_elem_iff (g k)); [apply Hsh|by eapply block_of_sorted|].
      intros y Hy. apply Hag. by rewrite (elem_of_task_entries i) by apply Hbs. }
    destruct (addedAny (perShardMerge h bs)) eqn:E; [done|].
    destruct (Hna eq_refl) as [Hm _]. rewrite Hm in Hiff. intros k x Hin. apply Hiff. by right.
Qed.

(** ** Steps preserve the invariant and what is held or pending *)

Lemma pend_keep c t th th' :
  threads c !! t = Some th → todo th' = todo th →
  concat (map todo (<[t := th']> (threads c))) = pend c.
Proof.
  intros Ht Hd. unfold pend. f_equal. change (map todo) with (fmap (M:=list) todo).
  rewrite list_fmap_insert, list_insert_id; [done|]. rewrite list_lookup_fmap, Ht. simpl. by rewrite Hd.
Qed.

Lemma pend_pop c t tk w ld :
  threads c !! t = Some (mkThread (tk :: w) ld) →
  pend c ≡ₚ tk :: concat (map todo (<[t := mkThread w None]> (threads c))).
Proof.
  intros Ht. unfold pend. destruct (list_elem_of_split_length _ _ _ Ht) as (l1 & l2 & -> & ->).
  rewrite insert_app_r_alt, Nat.sub_diag by lia. simpl. rewrite !map_app, !concat_app. simpl.
  by rewrite <- Permutation_middle.
Qed.

Lemma no_clash_pop l tk l' : no_clash l → l ≡ₚ tk :: l' → no_clash l'.
Proof.
  intros Hn Hp k x rest Hr tk' y Hin. apply (Hn k x (tk :: rest)); [|by right].
  rewrite Hp, Hr. apply Permutation_swap.
Qed.

Lemma holds_ext rt c c' k x : roots c' = roots c → holds rt c' k x ↔ holds rt c k x.
Proof. intros H. unfold holds. by rewrite H. Qed.

(** Steps that publish nothing: the pending loops stay, or one whose entries are
    already held goes. *)
Lemma quiet_step rt g c c' :
  inv rt g c → roots c' = roots c → next c' = next c →
  (pend c' = pend c ∨
   ∃ tk, pend c ≡ₚ tk :: pend c' ∧ ∀ k x, (k, x) ∈ task_entries tk → holds rt c k x) →
  (∀ t tk w p h, threads c' !! t = Some (mkThread (tk :: w) (Some (p, h))) →
     threads c !! t = Some (mkThread (tk :: w) (Some (p, h))) ∨ roots c !! task_shard rt tk = Some (p, h)) →
  inv rt g c' ∧ ∀ k x, held_or_pending rt c' k x ↔ held_or_pending rt c k x.
Proof.
  intros [Hrt Hr Ha Ht Hc Hf Hl] Er En Hp Hld.
  assert (∀ tk, tk ∈ pend c' → tk ∈ pend c) as Hsub.
  { intros tk Hin. destruct Hp as [Hp|(tk' & Hp & _)]; [by rewrite <- Hp|rewrite Hp; by right]. }
  assert (∀ k x, held_or_pending rt c' k x ↔ held_or_pending rt c k x) as Hhop.
  { intros k x. unfold held_or_pending. rewrite (holds_ext rt c c' k x Er). split.
    - intros [?|(tk & ? & ?)]; [by left|right; eauto].
    - intros [?|(tk & Hin & Hx)]; [by left|]. destruct Hp as [Hp|(tk' & Hp & Hh)]; [right; rewrite Hp; eauto|].
      rewrite Hp in Hin. apply elem_of_cons in Hin as [->|Hin]; [left; auto|right; eauto]. }
  split; [|done]. split; rewrite ?Er, ?En; try done.
  - intros k x Hx. apply Ha. by apply Hhop.
  - intros tk Hin. apply Ht. by apply Hsub.
  - destruct Hp as [Hp|(tk' & Hp & _)]; [by rewrite Hp|by eapply no_clash_pop].
  - intros k x Hin y Hy. apply (Hf k x (Hsub _ Hin)). by apply (holds_ext rt c c' k y Er).
  - intros t tk w p h Hth. destruct (Hld t tk w p h Hth) as [Hold|Hroot]; [by eapply Hl|].
    destruct (Hr _ _ _ Hroot) as [? ?]. split_and!; [done|done|]. intros p' h'. rewrite Hroot.
    intros [= <- <-]. done.
Qed.

(** What a successful swap publishes. *)
Lemma holds_swap rt c c' tk p h h' :
  let i := task_shard rt tk in
  roots c !! i = Some (p, h) → roots c' = <[i := (next c, h')]> (roots c) → shard_ok rt i h' →
  (∀ k x, root_holds h' k x ↔ root_holds h k x ∨ (k, x) ∈ task_entries tk) →
  ∀ k x, holds rt c' k x ↔ holds rt c k x ∨ (k, x) ∈ task_entries tk.
Proof.
  intros i Hi Er [_ Hsh] Hiff k x. unfold holds. rewrite Er. split.
  - intros (p' & h0 & Hl & Hx). destruct (decide (rt k = i)) as [Hk|Hk].
    + rewrite Hk, list_lookup_insert_eq in Hl by (by eapply lookup_lt_Some). injection Hl as <- <-.
      apply Hiff in Hx as [Hx|Hx]; [left|by right]. exists p, h. by rewrite Hk.
    + rewrite list_lookup_insert_ne in Hl by done. left. eauto.
  - intros Hx. assert (rt k = i → root_holds h' k x →
      ∃ p0 h0, <[i := (next c, h')]> (roots c) !! rt k = Some (p0, h0) ∧ root_holds h0 k x) as Hnew.
    { intros -> Hh. exists (next c), h'. split; [|done]. apply list_lookup_insert_eq. by eapply lookup_lt_Some. }
    destruct Hx as [(p' & h0 & Hl & Hx)|Hx].
    + destruct (decide (rt k = i)) as [Hk|Hk].
      * apply Hnew; [done|]. apply Hiff. left. rewrite Hk, Hi in Hl. by injection Hl as <- <-.
      * exists p', h0. by rewrite list_lookup_insert_ne.
    + assert (root_holds h' k x) as Hh by (apply Hiff; by right). apply Hnew; [|done].
      apply (Hsh k). intros E. unfold root_holds in Hh. rewrite E in Hh. by apply elem_of_nil in Hh.
Qed.

Lemma swap_step rt g c t tk w p h h' :
  let i := task_shard rt tk in
  let c' := mkConfig (<[i := (next c, h')]> (roots c)) (S (next c)) (<[t := mkThread w None]> (threads c)) in
  inv rt g c → threads c !! t = Some (mkThread (tk :: w) (Some (p, h))) →
  roots c !! i = Some (p, h) → task_run tk h = Some h' →
  inv rt g c' ∧ ∀ k x, held_or_pending rt c' k x ↔ held_or_pending rt c k x.
Proof.
  intros i c' Hinv Hth Hroot Hrun. pose proof Hinv as [Hrt Hr Ha Ht Hc Hf Hl].
  pose proof (pend_pop c t tk w _ Hth) as Hp. change (concat _) with (pend c') in Hp.
  assert (tk ∈ pend c) as Htk by (rewrite Hp; left).
  assert (∀ k x, root_holds h k x → holds rt c k x) as Hheld.
  { intros k x Hx. exists p, h. destruct (Hr i p h Hroot) as [[_ Hsh] _]. split; [|done].
    rewrite (proj2 (Hsh k)); [exact Hroot|]. intros E. unfold root_holds in Hx. rewrite E in Hx. by apply elem_of_nil in Hx. }
  pose proof (task_run_spec rt (length (roots c)) g tk h (proj1 (Hr i p h Hroot)) (Ht tk Htk)) as Hspec.
  rewrite Hrun in Hspec. destruct Hspec as [Hok Hiff].
  { intros k x [Hx|Hx]; apply Ha; [left; auto|right; eauto]. }
  { intros k x -> y Hy. apply (Hf k x Htk). auto. }
  pose proof (holds_swap rt c c' tk p h h' Hroot eq_refl Hok Hiff) as Hholds.
  assert (∀ k x, held_or_pending rt c' k x ↔ held_or_pending rt c k x) as Hhop.
  { intros k x. unfold held_or_pending. rewrite Hholds. setoid_rewrite Hp. setoid_rewrite elem_of_cons.
    naive_solver. }
  split; [|done]. split.
  - intros k. unfold c'. cbn [roots]. rewrite length_insert. apply Hrt.
  - intros j p' h0 Hj. unfold c' in *. cbn [roots next] in *.
    apply list_lookup_insert_Some in Hj as [(Ej & [= <- <-] & _)|[_ Hj]]; [rewrite <- Ej; split; [exact Hok|lia]|].
    destruct (Hr j p' h0 Hj). split; [done|lia].
  - intros k x Hx. apply Ha. by apply Hhop.
  - intros tk' Hin. unfold c'. cbn [roots]. rewrite length_insert. apply Ht. rewrite Hp. by right.
  - by eapply no_clash_pop.
  - intros k x Hin y [Hy|Hy]%Hholds; [apply (Hf k x); [rewrite Hp; by right|done]|].
    apply elem_of_Permutation in Hin as [rest Hrest].
    apply (Hc k x (tk :: rest)) with tk; [|left|done]. rewrite Hp, Hrest. apply Permutation_swap.
  - intros t' tk' w' p0 h0 Ht'. unfold c' in *. cbn [roots next threads] in *.
    apply list_lookup_insert_Some in Ht' as [(_ & [=] & _)|[_ Ht']].
    destruct (Hl t' tk' w' p0 h0 Ht') as (Hsh & Hlt & Hcur). split_and!; [done|lia|].
    intros p' h1 Hj. apply list_lookup_insert_Some in Hj as [(Ei & [= <- <-] & _)|[_ Hj]]; [|by apply Hcur].
    split; [lia|]. intros k x Hx. apply Hiff. left. rewrite <- Ei in Hcur. by apply (Hcur p h Hroot).
Qed.

Lemma conc_step_inv rt g c c' :
  inv rt g c → conc_step rt c c' →
  inv rt g c' ∧ ∀ k x, held_or_pending rt c' k x ↔ held_or_pending rt c k x.
Proof.
  intros Hinv Hs. destruct Hs as [c t tk w p h Ht Hr|c t tk w p h Ht Hn|c t tk w p h h' h0 Ht Hrun Hr|c t tk w p h h' p' h0 Ht Hrun Hr Hne].
  - apply (quiet_step rt g c); [done..| |].
    + left. by apply (pend_keep c t _ _ Ht).
    + intros t' tk' w' p' h'. cbn [threads]. intros [(-> & [= -> -> -> ->] & _)|[_ ?]]%list_lookup_insert_Some; auto.
  - apply (quiet_step rt g c); [done..| |].
    + right. exists tk. split; [by apply (pend_pop c t _ _ _ Ht)|]. intros k x Hx.
      destruct (inv_loaded _ _ _ Hinv _ _ _ _ _ Ht) as (Hsh & _ & Hcur).
      assert (tk ∈ pend c) as Htk by (rewrite (pend_pop c t tk w _ Ht); left).
      pose proof (inv_tasks _ _ _ Hinv tk Htk) as Hok.
      destruct (lookup_lt_is_Some_2 (roots c) (task_shard rt tk) (proj1 Hok)) as [[p1 h1] Hr].
      destruct (Hcur p1 h1 Hr) as [_ Hmono].
      assert (∀ k x, root_holds h k x → holds rt c k x) as Hheld.
      { intros k' y Hy. exists p1, h1. split; [|by apply Hmono]. rewrite (proj2 (proj2 Hsh k')); [done|].
        intros E. unfold root_holds in Hy. rewrite E in Hy. by apply elem_of_nil in Hy. }
      pose proof (task_run_spec rt _ g tk h Hsh Hok) as Hspec. rewrite Hn in Hspec. apply Hheld, Hspec; [| |done].
      * intros k' y [Hy|Hy]; apply (inv_agree _ _ _ Hinv); [left; auto|right; eauto].
      * intros k' y -> z Hz. apply (inv_fresh _ _ _ Hinv k' y Htk). auto.
    + intros t' tk' w' p' h'. cbn [threads]. intros [(_ & [=] & _)|[_ ?]]%list_lookup_insert_Some; auto.
  - destruct (inv_loaded _ _ _ Hinv _ _ _ _ _ Ht) as (_ & _ & Hcur).
    destruct (Hcur p h0 Hr) as [Heq _]. rewrite <- (Heq eq_refl) in Hr. by apply (swap_step rt g c t tk w p h h').
  - apply (quiet_step rt g c); [done..| |].
    + left. by apply (pend_keep c t _ _ Ht).
    + intros t' tk' w' p1 h1. cbn [threads]. intros [(_ & [=] & _)|[_ ?]]%list_lookup_insert_Some; auto.
Qed.

Lemma conc_steps_inv rt g c c' :
  inv rt g c → rtc (conc_step rt) c c' →
  inv rt g c' ∧ ∀ k x, held_or_pending rt c' k x ↔ held_or_pending rt c k x.
Proof.
  intros Hinv Hs. induction Hs as [c|c c1 c2 Hs _ IH]; [done|].
  destruct (conc_step_inv rt g c c1 Hinv Hs) as [Hi1 Hh1]. destruct (IH Hi1) as [Hi2 Hh2].
  split; [done|]. intros k x. by rewrite Hh2.
Qed.

(** ** The initial configuration *)

Lemma join_tasks_ok rt n entries tk :
  (∀ k, (rt k < n)%nat) → tk ∈ join_tasks rt entries → task_ok rt n tk.
Proof.
  intros Hrt (i & -> & Hi)%list_elem_of_fmap. pose proof (prepared_spec entries) as H.
  destruct (prepared entries) as [inc dups]. destruct H as (Hs & _).
  destruct (join_batches rt n inc Hs Hrt) as (_ & _ & Hb). by apply Hb.
Qed.

(** The loops of a Join carry the entries of its delta. *)
Lemma join_tasks_entries rt n g entries k x :
  (∀ k, (rt k < n)%nat) → delta_agrees g entries →
  (∃ tk, tk ∈ join_tasks rt entries ∧ (k, x) ∈ task_entries tk) ↔ (k, x) ∈ entries.
Proof.
  intros Hrt Hg. pose proof (prepared_spec entries) as H. pose proof (dots_map_prepared g entries k Hg) as Hdv.
  unfold join_tasks. destruct (prepared entries) as [inc dups]. destruct H as (Hs & Hsub & _). simpl in Hdv.
  cbn [fst]. set (bs := group_runs inc).
  destruct (join_batches rt n inc Hs Hrt) as (_ & Hord & Hb). fold bs in Hord, Hb.
  pose proof (group_runs_block inc k (in_lt_id_le inc Hs)) as Hgr. fold bs in Hgr.
  split.
  - intros (tk & (i & -> & Hi)%list_elem_of_fmap & Hx). destruct (Hb i Hi) as [_ Hbi].
    rewrite elem_of_task_entries in Hx by apply Hbi. rewrite shardBatches_default in Hx, Hbi.
    assert (rt k = i) as <-.
    { unfold block_of in Hx. destruct (list_to_map _ !! k) as [es|] eqn:E; [|by apply elem_of_nil in Hx].
      apply elem_of_list_to_map_2 in E. by apply (proj2 Hbi (k, es)). }
    rewrite block_of_batch, Hgr in Hx. unfold entries_for in Hx.
    apply list_elem_of_fmap in Hx as (z & -> & [<- Hz]%list_elem_of_filter). by apply Hsub.
  - intros Hin. assert (delta_view k entries !! Dot x = Some x) as Hl by by apply (delta_view_lookup g).
    rewrite <- Hdv in Hl. apply dots_map_lookup_dot in Hl as [_ Hx].
    rewrite <- Hgr, <- (block_of_batch rt), <- shardBatches_default in Hx.
    assert (rt k ∈ shardOrder (shardBatches rt bs)) as Ho.
    { apply Hord. destruct (shardBatches rt bs !! rt k) as [v|]; [by eexists|].
      unfold block_of in Hx. simpl in Hx. by apply elem_of_nil in Hx. }
    eexists. split; [apply list_elem_of_fmap; by exists (rt k)|].
    apply elem_of_task_entries; [apply (Hb _ Ho)|done].
Qed.

Lemma call_tasks_entries rt n g cl k x :
  (∀ k, (rt k < n)%nat) → delta_agrees g (call_entries cl) →
  (∃ tk, tk ∈ call_tasks rt cl ∧ (k, x) ∈ task_entries tk) ↔ (k, x) ∈ call_entries cl.
Proof.
  intros Hrt Hg. destruct cl as [k' x'|entries]; simpl in *; [|by eapply join_tasks_entries].
  split.
  - intros (tk & ->%list_elem_of_singleton & Hin). done.
  - intros Hin. exists (InsTask k' x'). split; [by apply list_elem_of_singleton|done].
Qed.

Definition all_entries (calls : list call) : list (string * CRDTEntry) := concat (map call_entries calls).

Lemma calls_tasks_entries rt n g calls k x :
  (∀ k, (rt k < n)%nat) → delta_agrees g (all_entries calls) →
  (∃ tk, tk ∈ concat (map (call_tasks rt) calls) ∧ (k, x) ∈ task_entries tk) ↔ (k, x) ∈ all_entries calls.
Proof.
  intros Hrt. unfold all_entries. induction calls as [|cl calls IH]; intros Hg; simpl in *.
  - split; [by intros (? & ?%elem_of_nil & _)|by intros ?%elem_of_nil].
  - setoid_rewrite elem_of_app. rewrite <- IH, <- (call_tasks_entries rt n g cl) by
      (done || intros ???; apply Hg, elem_of_app; auto). naive_solver.
Qed.

(** The dot of each insert is new: the engine and the other calls lack it. *)
Definition fresh_inserts (e : Engine) (calls : list call) : Prop :=
  ∀ l1 k x l2, calls = l1 ++ CInsert k x :: l2 →
    (∀ y, y ∈ PointGet e k → Dot y ≠ Dot x) ∧
    (∀ y, (k, y) ∈ all_entries (l1 ++ l2) → Dot y ≠ Dot x).

Lemma fresh_inserts_perm e calls calls' :
  calls ≡ₚ calls' → fresh_inserts e calls → fresh_inserts e calls'.
Proof.
  intros Hp Hf l1 k x l2 ->. assert (CInsert k x ∈ calls) as (m1 & m2 & ->)%list_elem_of_split.
  { rewrite Hp. set_solver. }
  destruct (Hf m1 k x m2 eq_refl) as [H1 H2]. split; [done|]. intros y Hy. apply H2.
  assert (m1 ++ m2 ≡ₚ l1 ++ l2) as Hm.
  { apply (Permutation_cons_inv (a:=CInsert k x)). by rewrite !Permutation_middle. }
  unfold all_entries in *. by rewrite Hm.
Qed.

(** InsertLocal is its dot followed by its stamped insertion. *)
Lemma InsertLocal_stamped k x e :
  InsertLocal k x e =
  let '(dot, c) := NextDot (localNodeID e) (clk e) in
  match insert_stamped k (stamp dot (localNodeID e) x) (with_clk c e) with
  | Ret e' => Ret (dot, e')
  | Panic m => Panic m
  end.
Proof.
  unfold InsertLocal, insert_stamped. destruct (closing e) eqn:E.
  - destruct (NextDot _ _) as [dot c]. cbn [closing with_clk]. by rewrite E.
  - destruct (NextDot _ _) as [dot c]. cbn [closing with_clk]. rewrite E. cbn zeta.
    by destruct (shards (with_clk c e) !! _).
Qed.

(** What readers see after one call alone. *)
Lemma call_run_spec g cl e :
  wf_engine e → closing e = false → engine_agrees g e → delta_agrees g (call_entries cl) →
  Forall (λ ie, is_u64 (DotCounter ie.2)) (call_entries cl) → fresh_inserts e [cl] →
  ∃ e', call_run cl e = Ret e' ∧ wf_engine e' ∧ closing e' = false ∧
    ∀ k x, x ∈ PointGet e' k ↔ x ∈ PointGet e k ∨ (k, x) ∈ call_entries cl.
Proof.
  intros Hwf Hcl Hag Hg Hu Hfr. destruct cl as [k0 x0|entries]; simpl in *.
  - destruct (Hfr [] k0 x0 [] eq_refl) as [Hnew _]. destruct Hwf as [Hok Hc]. unfold insert_stamped. rewrite Hcl.
    change (routeShard e k0) with (route (routeSeed e) (length (shards e)) k0).
    destruct (routed_shard _ _ k0 Hok) as (h & Hh & Hsh & Hget). rewrite Hh.
    destruct (insert_entry_spec _ _ h k0 x0 Hsh eq_refl) as (Hok' & _ & Hp' & Ho').
    { apply dots_map_None. intros y Hy. apply Hnew. by rewrite PointGet_ss, Hget. }
    destruct (shards_ok_insert _ _ _ _ Hok (lookup_lt_Some _ _ _ Hh) Hok') as [Hoks Hgets].
    eexists. split; [done|]. split_and!; try done. intros k x. rewrite list_elem_of_singleton.
    rewrite !PointGet_ss. simpl. rewrite Hgets. destruct (decide (k = k0)) as [->|Hk].
    + rewrite decide_True, Hp', elem_of_cons by done. rewrite <- Hget. naive_solver.
    + assert ((k, x) ≠ (k0, x0)) by congruence. case_decide as Hd; [|naive_solver].
      rewrite Ho' by done. unfold ss_get, shard_get. rewrite Hd, Hh. naive_solver.
  - destruct (join_view g entries e Hwf Hcl Hu Hg) as (e' & Hj & Hwf' & Hcl' & _ & Hv).
    exists e'. split_and!; try done. intros k x.
    pose proof (view_lookup e' k (Dot x) x Hwf') as H1. rewrite Hv, lookup_union_Some_raw in H1.
    rewrite view_lookup, (delta_view_lookup g) in H1 by done. split.
    + intros Hx. destruct (proj2 H1 (conj Hx eq_refl)) as [[? _]|(_ & ? & _)]; auto.
    + intros [Hx|Hx]; [apply H1; by left|]. destruct (view e k !! Dot x) as [y|] eqn:E; [|apply H1; auto].
      apply view_lookup in E as [Hy Hyd]; [|done]. apply H1. left. split; [|done].
      assert (x = y) as ->; [|done]. by rewrite (Hg k x Hx), <- Hyd, <- (Hag k y Hy).
Qed.

Lemma run_calls_spec g calls e :
  wf_engine e → closing e = false → engine_agrees g e → delta_agrees g (all_entries calls) →
  Forall (λ ie, is_u64 (DotCounter ie.2)) (all_entries calls) → fresh_inserts e calls →
  ∃ e', run_calls calls e = Ret e' ∧ wf_engine e' ∧
    ∀ k x, x ∈ PointGet e' k ↔ x ∈ PointGet e k ∨ (k, x) ∈ all_entries calls.
Proof.
  revert e. induction calls as [|cl calls IH]; intros e Hwf Hcl Hag Hg Hu Hfr.
  - exists e. split_and!; try done. intros k x. unfold all_entries. simpl. set_solver.
  - unfold all_entries in *. simpl in *. apply Forall_app in Hu as [Hu1 Hu2].
    destruct (call_run_spec g cl e Hwf Hcl Hag) as (e1 & Hr & Hwf1 & Hcl1 & Hpg); [|done| |].
    { intros k x Hx. apply Hg, elem_of_app. by left. }
    { intros l1 k x l2 Heq. destruct l1 as [|? []]; [|done..]. injection Heq as -> <-.
      destruct (Hfr [] k x calls eq_refl) as [Hn _]. split; [done|]. by intros y ?%elem_of_nil. }
    rewrite Hr. destruct (IH e1 Hwf1 Hcl1) as (e' & Hr' & Hwf' & Hpg'); [| |done| |].
    { intros k x [Hx|Hx]%Hpg; [by apply Hag|]. apply Hg, elem_of_app. by left. }
    { intros k x Hx. apply Hg, elem_of_app. by right. }
    { intros l1 k x l2 ->. destruct (Hfr (cl :: l1) k x l2 eq_refl) as [H1 H2].
      unfold all_entries in H2. simpl in H2. split.
      - intros y [Hy|Hy]%Hpg; [by apply H1|]. apply H2, elem_of_app. by left.
      - intros y Hy. apply H2, elem_of_app. by right. }
    exists e'. split_and!; try done. intros k x. rewrite Hpg', Hpg, elem_of_app. tauto.
Qed.

Lemma pend_start rt ss calls : pend (start rt ss calls) = concat (map (call_tasks rt) calls).
Proof. unfold pend, start. simpl. by rewrite map_map. Qed.

Lemma InsTask_call rt calls k x :
  InsTask k x ∈ concat (map (call_tasks rt) calls) → ∃ l1 l2, calls = l1 ++ CInsert k x :: l2.
Proof.
  intros (l & Hl & (cl & -> & Hcl)%list_elem_of_fmap)%elem_of_concat.
  assert (cl = CInsert k x) as ->.
  { destruct cl as [k' x'|entries]; simpl in Hl; [by apply list_elem_of_singleton in Hl as [= -> ->]|].
    by apply list_elem_of_fmap in Hl as (i & [=] & _). }
  by apply list_elem_of_split in Hcl.
Qed.

Lemma start_no_clash rt n g e calls :
  (∀ k, (rt k < n)%nat) → delta_agrees g (all_entries calls) → fresh_inserts e calls →
  no_clash (concat (map (call_tasks rt) calls)).
Proof.
  intros Hrt Hg Hfr k x rest Hp tk y Hin Hy.
  assert (InsTask k x ∈ concat (map (call_tasks rt) calls)) as (l1 & l2 & Hc)%InsTask_call by (rewrite Hp; left).
  destruct (Hfr l1 k x l2 Hc) as [_ Hno]. apply Hno. clear Hno.
  assert (rest ≡ₚ concat (map (call_tasks rt) (l1 ++ l2))) as Hrest.
  { apply (Permutation_cons_inv (a:=InsTask k x)). rewrite <- Hp, Hc. rewrite !map_app, !concat_app. simpl.
    by rewrite <- Permutation_middle. }
  apply (calls_tasks_entries rt n g); [done| |exists tk; by rewrite <- Hrest].
  intros k' z Hz. apply Hg. rewrite Hc. unfold all_entries in *. rewrite map_app, concat_app in *. simpl. set_solver.
Qed.

Lemma holds_start rt e calls k x :
  rt = route (routeSeed e) (length (shards e)) →
  holds rt (start rt (shards e) calls) k x ↔ x ∈ PointGet e k.
Proof.
  intros ->. rewrite PointGet_ss. unfold holds, start, ss_get, shard_get. cbn [roots].
  rewrite list_lookup_imap. destruct (shards e !! _) as [h|]; simpl.
  - unfold root_holds. naive_solver.
  - split; [by intros (? & ? & [=] & _)|by intros ?%elem_of_nil].
Qed.

Lemma start_inv g e calls :
  let rt := route (routeSeed e) (length (shards e)) in
  wf_engine e → engine_agrees g e → delta_agrees g (all_entries calls) → fresh_inserts e calls →
  inv rt g (start rt (shards e) calls) ∧
  ∀ k x, held_or_pending rt (start rt (shards e) calls) k x ↔ x ∈ PointGet e k ∨ (k, x) ∈ all_entries calls.
Proof.
  intros rt [[Hlen Hok] Hck] Hag Hg Hfr.
  assert (∀ k, (rt k < length (shards e))%nat) as Hrt by (intros k; by apply route_lt).
  assert (∀ k x, held_or_pending rt (start rt (shards e) calls) k x ↔
    x ∈ PointGet e k ∨ (k, x) ∈ all_entries calls) as Hhop.
  { intros k x. unfold held_or_pending. rewrite pend_start, (holds_start rt e) by done.
    by rewrite (calls_tasks_entries rt _ g calls k x Hrt Hg). }
  split; [|done]. split; unfold start; cbn [roots next threads]; rewrite ?length_imap.
  - done.
  - intros i p h. rewrite list_lookup_imap. destruct (shards e !! i) as [h'|] eqn:E; [|done]. simpl.
    intros [= <- <-]. split; [by apply Hok|by eapply lookup_lt_Some].
  - intros k x [Hx|Hx]%Hhop; [by apply Hag|by apply Hg].
  - intros tk. fold (start rt (shards e) calls). rewrite pend_start.
    intros (l & Hl & (cl & -> & _)%list_elem_of_fmap)%elem_of_concat.
    destruct cl as [k x|entries]; simpl in Hl; [|by eapply join_tasks_ok].
    apply list_elem_of_singleton in Hl as ->. split; [apply Hrt|done].
  - fold (start rt (shards e) calls). rewrite pend_start. by eapply start_no_clash.
  - intros k x. fold (start rt (shards e) calls). rewrite pend_start. intros (l1 & l2 & Hc)%InsTask_call y.
    rewrite (holds_start rt e) by done. by apply (Hfr l1 k x l2).
  - intros t tk w p h Ht. apply list_lookup_fmap_Some in Ht as (cl & [=] & _).
Qed.

(** ** Completion *)

Lemma run_alone rt g c t tk w p h :
  inv rt g c → threads c !! t = Some (mkThread (tk :: w) (Some (p, h))) →
  roots c !! task_shard rt tk = Some (p, h) →
  ∃ c', conc_step rt c c' ∧ pend c ≡ₚ tk :: pend c'.
Proof.
  intros Hinv Ht Hr. destruct (task_run tk h) as [h'|] eqn:E; eexists; split.
  - by eapply s_cas_ok.
  - by apply (pend_pop c t tk w _ Ht).
  - by eapply s_nothing.
  - by apply (pend_pop c t tk w _ Ht).
Qed.

Lemma load_and_run rt g c t tk w :
  inv rt g c → threads c !! t = Some (mkThread (tk :: w) None) →
  ∃ c', rtc (conc_step rt) c c' ∧ pend c ≡ₚ tk :: pend c'.
Proof.
  intros Hinv Ht. assert (tk ∈ pend c) as Htk by (rewrite (pend_pop c t tk w _ Ht); left).
  destruct (lookup_lt_is_Some_2 (roots c) (task_shard rt tk)) as [[p h] Hr]; [by apply (inv_tasks _ _ _ Hinv)|].
  pose proof (s_load rt c t tk w p h Ht Hr) as Hs. destruct (conc_step_inv rt g c _ Hinv Hs) as [Hi1 _].
  match type of Hs with conc_step _ _ ?c1 =>
    destruct (run_alone rt g c1 t tk w p h Hi1) as (c' & Hs' & Hp); [|done|]
  end.
  { apply list_lookup_insert_eq. by eapply lookup_lt_Some. }
  exists c'. split; [by eapply rtc_l, rtc_once|]. rewrite <- Hp. unfold pend at 2. cbn [threads].
  by rewrite (pend_keep c t _ _ Ht).
Qed.

(** Any loop can be finished by running its thread alone. *)
Lemma finish_task rt g c t tk w ld :
  inv rt g c → threads c !! t = Some (mkThread (tk :: w) ld) →
  ∃ c', rtc (conc_step rt) c c' ∧ pend c ≡ₚ tk :: pend c'.
Proof.
  intros Hinv Ht. destruct ld as [[p h]|]; [|by eapply load_and_run].
  assert (tk ∈ pend c) as Htk by (rewrite (pend_pop c t tk w _ Ht); left).
  destruct (lookup_lt_is_Some_2 (roots c) (task_shard rt tk)) as [[p' h0] Hr]; [by apply (inv_tasks _ _ _ Hinv)|].
  destruct (task_run tk h) as [h'|] eqn:E.
  2: { eexists. split; [eapply rtc_once; by eapply s_nothing|by apply (pend_pop c t tk w _ Ht)]. }
  destruct (decide (p' = p)) as [->|Hne].
  { eexists. split; [eapply rtc_once; by eapply s_cas_ok|by apply (pend_pop c t tk w _ Ht)]. }
  pose proof (s_cas_fail rt c t tk w p h h' p' h0 Ht E Hr Hne) as Hs.
  destruct (conc_step_inv rt g c _ Hinv Hs) as [Hi1 _].
  destruct (load_and_run rt g _ t tk w Hi1) as (c' & Hs' & Hp).
  { apply list_lookup_insert_eq. by eapply lookup_lt_Some. }
  exists c'. split; [by eapply rtc_l|]. rewrite <- Hp. unfold pend at 2. cbn [threads].
  by rewrite (pend_keep c t _ _ Ht).
Qed.

Lemma complete rt g c : inv rt g c → ∃ c', rtc (conc_step rt) c c' ∧ pend c' = [].
Proof.
  remember (length (pend c)) as n eqn:Hn. revert c Hn. induction n as [|n IH]; intros c Hn Hinv.
  { exists c. split; [done|]. by apply nil_length_inv. }
  assert (∃ t tk w ld, threads c !! t = Some (mkThread (tk :: w) ld)) as (t & tk & w & ld & Ht).
  { destruct (pend c) as [|tk l] eqn:E; [done|]. assert (tk ∈ pend c) as Hin by (rewrite E; left).
    apply elem_of_concat in Hin as (ts & Hts & ([td ld] & -> & Hth)%list_elem_of_fmap).
    apply list_elem_of_lookup in Hth as [t Ht]. destruct td as [|tk' w]; [by apply elem_of_nil in Hts|]. eauto. }
  destruct (finish_task rt g c t tk w ld Hinv Ht) as (c1 & Hs1 & Hp1).
  destruct (conc_steps_inv rt g c c1 Hinv Hs1) as [Hi1 _].
  destruct (IH c1) as (c' & Hs & Hd); [|done|].
  { apply Permutation_length in Hp1. simpl in Hp1. lia. }
  exists c'. split; [by etrans|done].
Qed.

(** ** What readers see at the end *)

Lemma conc_steps_length rt c c' : rtc (conc_step rt) c c' → length (roots c') = length (roots c).
Proof.
  induction 1 as [|c c1 c2 Hs _ IH]; [done|]. rewrite IH. destruct Hs; simpl; rewrite ?length_insert; done.
Qed.

(** The engine with the roots published in a configuration. *)
Definition published (c : config) (e : Engine) : Engine := with_shards (roots c).*2 e.

Lemma published_wf g e c :
  let rt := route (routeSeed e) (length (shards e)) in
  inv rt g c → length (roots c) = length (shards e) → wf_clock (clk e) → (0 < length (shards e))%nat →
  wf_engine (published c e) ∧ ∀ k x, x ∈ PointGet (published c e) k ↔ holds rt c k x.
Proof.
  intros rt Hinv Hl Hck Hpos. split.
  - split; [|done]. simpl. split; [by rewrite length_fmap, Hl|]. intros i h Hi.
    apply list_lookup_fmap_Some in Hi as ([p h'] & -> & Hi). simpl. rewrite length_fmap, Hl.
    by apply (inv_roots _ _ _ Hinv i p h').
  - intros k x. rewrite PointGet_ss. unfold ss_get, shard_get, holds, published. simpl.
    rewrite length_fmap, Hl, list_lookup_fmap. fold rt.
    destruct (roots c !! rt k) as [[p h]|]; simpl; unfold root_holds; [naive_solver|].
    split; [by intros ?%elem_of_nil|by intros (? & ? & [=] & _)].
Qed.

Lemma pend_done c : Forall (λ th, todo th = []) (threads c) ↔ pend c = [].
Proof.
  unfold pend. induction (threads c) as [|th ths IH]; simpl; [done|].
  rewrite Forall_cons, IH. destruct (todo th); simpl; naive_solver.
Qed.

(** C10. The compare-and-swap loops of concurrent calls linearise.  Take any
    number of InsertLocal calls, each with the dot it has already been given, and
    Join calls with 64-bit counters, such that an entity and a dot name one entry
    across the engine and all calls and no insert's dot is carried by the engine or
    another call.  However their loops interleave, once they have all finished the
    engine is well formed, and readers see exactly what running InsertLocal's
    insertions and the Joins one after another gives, in every order of the calls.
    The dots themselves are handed out concurrently in LamportConc. *)
Theorem concurrent_calls_linearize (g : assignment) (e : Engine) (calls order : list call) (c : config) :
  wf_engine e → closing e = false → engine_agrees g e → delta_agrees g (all_entries calls) →
  Forall (λ ie, is_u64 (DotCounter ie.2)) (all_entries calls) → fresh_inserts e calls →
  let rt := route (routeSeed e) (length (shards e)) in
  rtc (conc_step rt) (start rt (shards e) calls) c → Forall (λ th, todo th = []) (threads c) →
  order ≡ₚ calls →
  wf_engine (published c e) ∧
  ∃ e', run_calls order e = Ret e' ∧ eng_equiv (published c e) e'.
Proof.
  intros Hwf Hcl Hag Hg Hu Hfr rt Hs Hdone Ho. pose proof Hwf as [[Hpos _] Hck].
  destruct (start_inv g e calls Hwf Hag Hg Hfr) as [Hi0 Hh0]. fold rt in Hi0, Hh0.
  destruct (conc_steps_inv rt g _ c Hi0 Hs) as [Hi Hh]. apply pend_done in Hdone.
  pose proof (conc_steps_length rt _ c Hs) as Hl. unfold start in Hl. cbn [roots] in Hl. rewrite length_imap in Hl.
  destruct (published_wf g e c Hi Hl Hck Hpos) as [Hwf' Hpg]. fold rt in Hpg.
  assert (∀ ie, ie ∈ all_entries order ↔ ie ∈ all_entries calls) as Hoe.
  { intros ie. unfold all_entries. by rewrite Ho. }
  destruct (run_calls_spec g order e Hwf Hcl Hag) as (e' & Hr & Hwe & Hpe).
  { intros k x Hx. by apply Hg, Hoe. }
  { rewrite Forall_forall in *. intros ie Hin. by apply Hu, Hoe. }
  { by eapply fresh_inserts_perm. }
  split; [done|]. exists e'. split; [done|]. apply view_inj; [done|done|]. intros k. apply map_eq. intros d.
  apply option_eq. intros x. rewrite !view_lookup by done. rewrite Hpg, Hpe, Hoe, <- Hh0, <- Hh.
  unfold held_or_pending. rewrite Hdone. setoid_rewrite elem_of_nil. naive_solver.
Qed.

(** No interleaving paints the engine into a corner: from every state the
    concurrent calls can reach, some continuation finishes all of them; and a
    loop that rebuilt from a root that is no longer the published one finds
    another address in the pointer, so its swap fails and it reloads. *)
Theorem concurrent_calls_complete (g : assignment) (e : Engine) (calls : list call) (c : config) :
  wf_engine e → engine_agrees g e → delta_agrees g (all_entries calls) → fresh_inserts e calls →
  let rt := route (routeSeed e) (length (shards e)) in
  rtc (conc_step rt) (start rt (shards e) calls) c →
  (∃ c', rtc (conc_step rt) c c' ∧ Forall (λ th, todo th = []) (threads c')) ∧
  (∀ t tk w p h p' h', threads c !! t = Some (mkThread (tk :: w) (Some (p, h))) →
     roots c !! task_shard rt tk = Some (p', h') → h' ≠ h → p' ≠ p).
Proof.
  intros Hwf Hag Hg Hfr rt Hs. destruct (start_inv g e calls Hwf Hag Hg Hfr) as [Hi0 _].
  destruct (conc_steps_inv rt g _ c Hi0 Hs) as [Hi _]. split.
  - destruct (complete rt g c Hi) as (c' & Hc' & Hd). exists c'. split; [done|by apply pend_done].
  - intros t tk w p h p' h' Ht Hr Hne ->. destruct (inv_loaded _ _ _ Hi _ _ _ _ _ Ht) as (_ & _ & Hcur).
    apply Hne. symmetry. by apply (Hcur p h' Hr).
Qed.
End Conc.

(** ** Witnesses *)

Definition sample_calls : list call := [CInsert "a" (sample_entry 1 1 5); CJoin sample_delta].

Definition sample_calls_assignment : assignment := λ k d,
  if bool_decide (d = mkDot (replicate 16 1) 1) then sample_entry 1 1 5 else sample_assignment k d.

Lemma sample_calls_agree : delta_agrees sample_calls_assignment (all_entries sample_calls).
Proof.
  intros k e H. repeat (apply elem_of_cons in H as [H|H];
    [injection H as -> ->; vm_compute; reflexivity|]). by apply elem_of_nil in H.
Qed.

Lemma sample_calls_fresh : fresh_inserts (MH:=fnv_maphash) (sample_engine 1 9) sample_calls.
Proof.
  intros l1 k x l2 Hc. split.
  - intros y Hy. unfold sample_engine in Hy. rewrite PointGet_new in Hy. by apply elem_of_nil in Hy.
  - unfold sample_calls in Hc. destruct l1 as [|c1 [|c2 l1]]; simpl in Hc.
    + injection Hc as <- <- <-. intros y Hy. unfold all_entries, sample_delta in Hy. simpl in Hy.
      repeat (apply elem_of_cons in Hy as [Hy|Hy];
        [try discriminate Hy; injection Hy as ->; vm_compute; discriminate|]).
      by apply elem_of_nil in Hy.
    + discriminate Hc.
    + injection Hc as _ _ Hc. by destruct l1.
Qed.

Lemma sample_engine_agrees g node rseed : engine_agrees (MH:=fnv_maphash) g (sample_engine node rseed).
Proof. intros k x Hx. unfold sample_engine in Hx. rewrite PointGet_new in Hx. by apply elem_of_nil in Hx. Qed.

Lemma concurrent_calls_complete_witness :
  ∃ c, rtc (conc_step (MH:=fnv_maphash) (route (MH:=fnv_maphash) 9 256))
         (start (SS:=insertion_SliceSort) (route (MH:=fnv_maphash) 9 256) (shards (sample_engine 1 9)) sample_calls) c ∧
    Forall (λ th, todo th = []) (threads c).
Proof.
  exact (proj1 (concurrent_calls_complete (MH:=fnv_maphash) (SS:=insertion_SliceSort) sample_calls_assignment
    (sample_engine 1 9) sample_calls _ (sample_engine_wf 1 9) (sample_engine_agrees _ 1 9)
    sample_calls_agree sample_calls_fresh (rtc_refl _ _))).
Defined.

Lemma concurrent_calls_linearize_witness :
  ∃ c e', rtc (conc_step (MH:=fnv_maphash) (route (MH:=fnv_maphash) 9 256))
         (start (SS:=insertion_SliceSort) (route (MH:=fnv_maphash) 9 256) (shards (sample_engine 1 9)) sample_calls) c ∧
    run_calls (MH:=fnv_maphash) (SS:=insertion_SliceSort) (rev sample_calls) (sample_engine 1 9) = Ret e' ∧
    eng_equiv (MH:=fnv_maphash) (published c (sample_engine 1 9)) e'.
Proof.
  destruct (start_inv (MH:=fnv_maphash) (SS:=insertion_SliceSort) sample_calls_assignment (sample_engine 1 9) sample_calls
    (sample_engine_wf 1 9) (sample_engine_agrees _ 1 9) sample_calls_agree sample_calls_fresh) as [Hi _].
  destruct (complete (MH:=fnv_maphash) _ _ _ Hi) as (c & Hs & Hd).
  destruct (concurrent_calls_linearize (MH:=fnv_maphash) (SS:=insertion_SliceSort) sample_calls_assignment
    (sample_engine 1 9) sample_calls (rev sample_calls) c) as (_ & e' & Hj & He).
  - apply sample_engine_wf.
  - reflexivity.
  - apply sample_engine_agrees.
  - apply sample_calls_agree.
  - unfold all_entries. simpl. repeat constructor; done.
  - apply sample_calls_fresh.
  - exact Hs.
  - by apply pend_done.
  - symmetry. apply Permutation_rev.
  - exists c, e'. split; [exact Hs|]. split; [exact Hj|exact He].
Defined.
