(* ===== verification/Merkle.v ===== *)
(** Merkle roots: HAMT.MerkleRoot (pkg/sync/hamt.go) and the sharded-direct path
    of pkg/sync/merkle_sharded.go with the checkpoint capture. *)
From S2P Require Import Prelude Bytes Sha256 Dots Hamt HamtMap Lamport Sorting Engine EngineInv.
From S2P Require Import JoinSpec EngineThms.

Section Merkle.
Context `{MH : MapHash} `{SS : SliceSort}.

(** ** Definitions *)

(** One 24-byte record: node id, big-endian counter. *)
Definition pair_bytes (p : CausalDot) : list Z := NodeID p ++ be_put 8 (Counter p).

(** The sort-and-hash tail both roots share; a shardDotPair is a CausalDot. *)
Definition hashShardDotPairs (pairs : list CausalDot) : list Z :=
  let pairs := sortFunc compareDots pairs in
  match pairs with
  | [] => replicate 32 0
  | _ => Sum256 (concat (map pair_bytes pairs))
  end.

Definition HAMT_MerkleRoot (h : HAMT) : list Z :=
  hashShardDotPairs (HAMT_ForEach (λ pairs _ entries, (pairs ++ map Dot entries, true)) h []).

Definition MerkleRootFromShards (e : Engine) : list Z :=
  hashShardDotPairs
    (foldl (λ pairs shardRoot,
              HAMT_ForEach (λ pairs _ entries, (pairs ++ map Dot entries, true)) shardRoot pairs)
       [] (shards e)).

(** CaptureShardsPinned's locals, and the state of the caller's callback. *)
Record captureState (St : Type) := mkCapture {
  cp_pairs : list CausalDot;
  cp_maxLocalDot : Z;
  cp_stopped : bool;
  cp_fn : St;
}.
Arguments mkCapture {St}.
Arguments cp_pairs {St}.
Arguments cp_maxLocalDot {St}.
Arguments cp_stopped {St}.
Arguments cp_fn {St}.

Definition max_local (node : list Z) (acc : Z) (entries : list CRDTEntry) : Z :=
  foldl (λ acc x, if bool_decide (DotNodeID x = node) && (acc <? DotCounter x) then DotCounter x else acc)
    acc entries.

Definition capture_entity {St} (node : list Z) (fn : option (St → string → list CRDTEntry → St * bool))
    (s : captureState St) (entityID : string) (entries : list CRDTEntry) : captureState St * bool :=
  let pairs := cp_pairs s ++ map Dot entries in
  let m := max_local node (cp_maxLocalDot s) entries in
  match fn with
  | Some f =>
      let '(st, continue) := f (cp_fn s) entityID entries in
      if continue then (mkCapture pairs m (cp_stopped s) st, true)
      else (mkCapture pairs m true st, false)
  | None => (mkCapture pairs m (cp_stopped s) (cp_fn s), true)
  end.

(** Returns the root, the watermark and the callback's final state. *)
Definition CaptureShardsPinned {St} (fn : option (St → string → list CRDTEntry → St * bool)) (st : St)
    (e : Engine) : list Z * Z * St :=
  let s :=
    foldl (λ s shardRoot,
             if cp_stopped s then s
             else HAMT_ForEach (capture_entity (localNodeID e) fn) shardRoot s)
      (mkCapture [] 0 false st) (shards e) in
  (hashShardDotPairs (cp_pairs s), cp_maxLocalDot s, cp_fn s).

(** ** Lemmas *)

(** The dots of a list of items, in order. *)
Definition item_dots (items : list block) : list CausalDot := concat (map (λ it, map Dot it.2) items).

Lemma foldl_collect items acc :
  foldl (λ pairs (it : block), pairs ++ map Dot it.2) acc items = acc ++ item_dots items.
Proof.
  revert acc. induction items as [|it items IH]; intros acc; simpl; [by rewrite app_nil_r|].
  by rewrite IH, <- app_assoc.
Qed.

Lemma HAMT_MerkleRoot_items h : HAMT_MerkleRoot h = hashShardDotPairs (item_dots (hamt_items h)).
Proof.
  unfold HAMT_MerkleRoot. rewrite (HAMT_ForEach_fold (λ pairs _ entries, pairs ++ map Dot entries)).
  by rewrite foldl_collect.
Qed.

Lemma MerkleRootFromShards_items e :
  MerkleRootFromShards e = hashShardDotPairs (item_dots (all_items (shards e))).
Proof.
  unfold MerkleRootFromShards. rewrite (foldl_forEach (λ pairs _ entries, pairs ++ map Dot entries)).
  by rewrite foldl_collect.
Qed.

Lemma hashShardDotPairs_perm l1 l2 : l1 ≡ₚ l2 → hashShardDotPairs l1 = hashShardDotPairs l2.
Proof. intros Hp. unfold hashShardDotPairs. by rewrite (sortFunc_canonical compareDots l1 l2 Hp). Qed.

Lemma item_dots_perm i1 i2 : i1 ≡ₚ i2 → item_dots i1 ≡ₚ item_dots i2.
Proof.
  intros Hp. unfold item_dots. induction Hp; simpl; [done|by apply Permutation_app| |by etrans].
  rewrite !app_assoc. apply Permutation_app; [apply Permutation_app_comm|done].
Qed.

Lemma NoDup_items (items : list block) : NoDup items.*1 → NoDup items.
Proof. apply NoDup_fmap_1. Qed.

Lemma items_perm_of_get rseed ss h :
  shards_ok rseed ss → wf_HAMT h → (∀ k, HAMT_Get h k = ss_get rseed ss k) →
  hamt_items h ≡ₚ all_items ss.
Proof.
  intros Hok Hwf Hg. apply NoDup_Permutation.
  - by apply NoDup_items, items_nodup.
  - by eapply NoDup_items, all_items_NoDup.
  - intros [k es]. rewrite hamt_items_elem, (all_items_elem rseed) by done. by rewrite Hg.
Qed.

Lemma all_items_equiv e1 e2 :
  wf_engine e1 → wf_engine e2 → eng_equiv e1 e2 → all_items (shards e1) ≡ₚ all_items (shards e2).
Proof.
  intros [H1 _] [H2 _] Heq. apply NoDup_Permutation.
  - by eapply NoDup_items, all_items_NoDup.
  - by eapply NoDup_items, all_items_NoDup.
  - intros [k es]. rewrite (all_items_elem (routeSeed e1)), (all_items_elem (routeSeed e2)) by done.
    specialize (Heq k). rewrite !PointGet_ss in Heq. by rewrite Heq.
Qed.

(** The bytes hashed determine the sorted dots. *)
Definition dot_ok (d : CausalDot) : Prop := length (NodeID d) = 16%nat ∧ is_u64 (Counter d).

(** The bytes hashed for a list of dots. *)
Definition dot_bytes (ds : list CausalDot) : list Z := concat (map pair_bytes (sortFunc compareDots ds)).

Lemma pair_bytes_length d : dot_ok d → length (pair_bytes d) = 24%nat.
Proof. intros [H _]. unfold pair_bytes. rewrite length_app, length_be_put. lia. Qed.

Lemma pair_bytes_app_inj d1 d2 r1 r2 :
  dot_ok d1 → dot_ok d2 → pair_bytes d1 ++ r1 = pair_bytes d2 ++ r2 → d1 = d2 ∧ r1 = r2.
Proof.
  intros H1 H2 Heq.
  apply app_inj_1 in Heq as [Hp Hr]; [|by rewrite !pair_bytes_length]. split; [|done].
  unfold pair_bytes in Hp. apply app_inj_1 in Hp as [Hn Hb]; [|destruct H1, H2; congruence].
  destruct d1 as [n1 c1], d2 as [n2 c2], H1 as [_ H1], H2 as [_ H2]. simpl in *.
  apply be_put_inj in Hb; [by subst|words|words].
Qed.

Lemma concat_pair_bytes_inj l1 l2 :
  Forall dot_ok l1 → Forall dot_ok l2 → concat (map pair_bytes l1) = concat (map pair_bytes l2) → l1 = l2.
Proof.
  revert l2. induction l1 as [|d1 l1 IH]; intros [|d2 l2] H1 H2 Heq; simpl in *; [done| | |].
  - inversion_clear H2 as [|? ? Hd _]. apply (f_equal length) in Heq.
    rewrite length_app, pair_bytes_length in Heq by done. simpl in Heq. lia.
  - inversion_clear H1 as [|? ? Hd _]. apply (f_equal length) in Heq.
    rewrite length_app, pair_bytes_length in Heq by done. simpl in Heq. lia.
  - inversion_clear H1. inversion_clear H2.
    apply pair_bytes_app_inj in Heq as [-> Heq]; [|done|done]. f_equal. by apply IH.
Qed.

(** ** Capture *)

Lemma max_local_app node acc l1 l2 : max_local node acc (l1 ++ l2) = max_local node (max_local node acc l1) l2.
Proof. unfold max_local. by rewrite foldl_app. Qed.

Lemma max_local_spec node acc l :
  acc <= max_local node acc l ∧
  (∀ x, x ∈ l → DotNodeID x = node → DotCounter x <= max_local node acc l) ∧
  (max_local node acc l = acc ∨ ∃ x, x ∈ l ∧ DotNodeID x = node ∧ DotCounter x = max_local node acc l).
Proof.
  revert acc. induction l as [|x l IH]; intros acc.
  { split_and!; [simpl; lia|by intros ? ?%elem_of_nil|by left]. }
  change (max_local node acc (x :: l)) with
    (max_local node (if bool_decide (DotNodeID x = node) && (acc <? DotCounter x) then DotCounter x else acc) l).
  destruct (IH (if bool_decide (DotNodeID x = node) && (acc <? DotCounter x) then DotCounter x else acc))
    as (Hge & Hall & Hex).
  destruct (bool_decide (DotNodeID x = node)) eqn:En; simpl in *;
    [apply bool_decide_eq_true in En|apply bool_decide_eq_false in En].
  - destruct (Z.ltb_spec acc (DotCounter x)); (split_and!; [lia| |]).
    + intros y [->|Hy]%elem_of_cons Hn; [lia|by apply Hall].
    + right. destruct Hex as [Hex|(y & Hy & ? & ?)]; [exists x; rewrite Hex; split_and!; [left|done|done]|].
      exists y. split_and!; [by right|done|done].
    + intros y [->|Hy]%elem_of_cons Hn; [lia|by apply Hall].
    + destruct Hex as [Hex|(y & Hy & ? & ?)]; [by left|]. right. exists y. split_and!; [by right|done|done].
  - split_and!; [lia| |].
    + intros y [->|Hy]%elem_of_cons Hn; [done|by apply Hall].
    + destruct Hex as [Hex|(y & Hy & ? & ?)]; [by left|]. right. exists y. split_and!; [by right|done|done].
Qed.

(** A callback that never stops the walk. *)
Definition capture_total {St} (f : St → string → list CRDTEntry → St) :
    option (St → string → list CRDTEntry → St * bool) := Some (λ s k es, (f s k es, true)).

Lemma capture_walk {St} (f : St → string → list CRDTEntry → St) node ss s :
  cp_stopped s = false →
  foldl (λ s shardRoot, if cp_stopped s then s
                        else HAMT_ForEach (capture_entity node (capture_total f)) shardRoot s) s ss =
  mkCapture (cp_pairs s ++ item_dots (all_items ss))
    (max_local node (cp_maxLocalDot s) (concat (all_items ss).*2)) false
    (foldl (λ st it, f st it.1 it.2) (cp_fn s) (all_items ss)).
Proof.
  intros Hs.
  set (step := λ (s : captureState St) (it : block),
         mkCapture (cp_pairs s ++ map Dot it.2) (max_local node (cp_maxLocalDot s) it.2)
           (cp_stopped s) (f (cp_fn s) it.1 it.2)).
  assert (∀ items s, foldl step s items =
    mkCapture (cp_pairs s ++ item_dots items) (max_local node (cp_maxLocalDot s) (concat items.*2))
      (cp_stopped s) (foldl (λ st it, f st it.1 it.2) (cp_fn s) items)) as Hitems.
  { induction items as [|it items IH]; intros s0; cbn [foldl].
    - destruct s0. unfold item_dots. simpl. by rewrite app_nil_r.
    - rewrite IH. unfold step, item_dots. cbn [cp_pairs cp_maxLocalDot cp_stopped cp_fn map concat].
      rewrite fmap_cons. cbn [concat]. by rewrite max_local_app, <- app_assoc. }
  assert (∀ h s, HAMT_ForEach (capture_entity node (capture_total f)) h s = foldl step s (hamt_items h)) as Hh.
  { intros h s0. exact (HAMT_ForEach_fold (λ s k es, step s (k, es)) h s0). }
  revert s Hs. induction ss as [|h ss IH]; intros s Hs; simpl.
  - rewrite <- Hs. destruct s. unfold item_dots. simpl in *. by rewrite app_nil_r.
  - rewrite Hs, Hh, IH; [|by rewrite Hitems]. rewrite Hitems. unfold all_items, item_dots.
    cbn [cp_pairs cp_maxLocalDot cp_stopped cp_fn map concat].
    rewrite map_app, concat_app, fmap_app, concat_app, max_local_app, foldl_app, <- app_assoc. done.
Qed.

(** ** Properties *)

(** The sharded-direct root is byte-identical to the root of the merged view
    State builds, for every seed the view is built with. *)
Theorem merkle_from_shards_is_state_merkle (sd : Z) (e : Engine) :
  wf_engine e → MerkleRootFromShards e = HAMT_MerkleRoot (State sd e).
Proof.
  intros Hwf. destruct (State_spec sd e Hwf) as [Hs Hg].
  rewrite MerkleRootFromShards_items, HAMT_MerkleRoot_items.
  apply hashShardDotPairs_perm, item_dots_perm. symmetry. apply (items_perm_of_get (routeSeed e)); [|done|].
  - apply Hwf.
  - intros k. by rewrite Hg, PointGet_ss.
Qed.

(** Replicas no reader can tell apart have the same root, whatever their
    shard counts, seeds and insertion histories. *)
Theorem merkle_root_converges (e1 e2 : Engine) :
  wf_engine e1 → wf_engine e2 → eng_equiv e1 e2 → MerkleRootFromShards e1 = MerkleRootFromShards e2.
Proof.
  intros H1 H2 Heq. rewrite !MerkleRootFromShards_items.
  by apply hashShardDotPairs_perm, item_dots_perm, all_items_equiv.
Qed.

(** Equal roots mean equal dot multisets, unless SHA-256 collides on the very
    byte strings the two engines hash, or one engine is empty and the other's
    string hashes to the 32 zero bytes the empty engine has for root.  (Only dots
    are covered: payload digests and times are not part of the hashed bytes.) *)
Theorem merkle_root_determines_dots (e1 e2 : Engine) :
  let d1 := item_dots (all_items (shards e1)) in
  let d2 := item_dots (all_items (shards e2)) in
  Forall dot_ok d1 → Forall dot_ok d2 →
  MerkleRootFromShards e1 = MerkleRootFromShards e2 →
  d1 ≡ₚ d2 ∨
  (dot_bytes d1 ≠ dot_bytes d2 ∧ Sum256 (dot_bytes d1) = Sum256 (dot_bytes d2)) ∨
  (d1 = [] ∧ d2 ≠ [] ∧ Sum256 (dot_bytes d2) = replicate 32 0) ∨
  (d2 = [] ∧ d1 ≠ [] ∧ Sum256 (dot_bytes d1) = replicate 32 0).
Proof.
  intros d1 d2 H1 H2. rewrite !MerkleRootFromShards_items. fold d1 d2. unfold hashShardDotPairs, dot_bytes.
  pose proof (sortFunc_perm _ compareDots d1) as P1. pose proof (sortFunc_perm _ compareDots d2) as P2.
  rewrite <- P1 in H1. rewrite <- P2 in H2.
  destruct (sortFunc compareDots d1) as [|a l1] eqn:E1, (sortFunc compareDots d2) as [|b l2] eqn:E2; cbn zeta.
  - intros _. left. by rewrite <- P1, <- P2.
  - intros H. do 2 right. left. apply Permutation_nil_l in P1. split_and!; [done| |done].
    intros E. rewrite E in P2. by apply Permutation_nil_r in P2.
  - intros H. do 3 right. apply Permutation_nil_l in P2. split_and!; [done| |done].
    intros E. rewrite E in P1. by apply Permutation_nil_r in P1.
  - intros H. destruct (decide (concat (map pair_bytes (a :: l1)) = concat (map pair_bytes (b :: l2)))) as [Heq|Hne].
    + left. apply concat_pair_bytes_inj in Heq; [|done|done]. by rewrite <- P1, <- P2, Heq.
    + right. by left.
Qed.

(** A checkpoint capture whose callback never stops visits every entity of
    the engine once, returns the root MerkleRootFromShards returns, and its
    watermark is the largest counter among the local node's dots in the visited
    image (0 without one), hence never above the clock. *)
Theorem capture_root_and_watermark {St} (f : St → string → list CRDTEntry → St) (st : St) (e : Engine) :
  wf_engine e → dominates e →
  let '(root, maxLocalDot, st') := CaptureShardsPinned (capture_total f) st e in
  root = MerkleRootFromShards e ∧
  st' = foldl (λ st it, f st it.1 it.2) st (all_items (shards e)) ∧
  (∀ k x, x ∈ PointGet e k → DotNodeID x = localNodeID e → DotCounter x <= maxLocalDot) ∧
  (maxLocalDot = 0 ∨ ∃ k x, x ∈ PointGet e k ∧ DotNodeID x = localNodeID e ∧ DotCounter x = maxLocalDot) ∧
  maxLocalDot <= lamportCounter (clk e).
Proof.
  intros Hwf Hd. unfold CaptureShardsPinned. rewrite (capture_walk f) by done.
  cbn [cp_pairs cp_maxLocalDot cp_fn]. rewrite app_nil_l.
  destruct (max_local_spec (localNodeID e) 0 (concat (all_items (shards e)).*2)) as (H0 & Hall & Hex).
  set (w := max_local _ _ _) in *.
  assert (∀ x, x ∈ concat (all_items (shards e)).*2 ↔ ∃ k, x ∈ PointGet e k) as Hel.
  { intros x. rewrite elem_of_concat. split.
    - intros (l & Hx & ([k es] & -> & Hin)%list_elem_of_fmap). exists k.
      apply (all_items_elem (routeSeed e)) in Hin as [Hg _]; [|apply Hwf]. by rewrite PointGet_ss, Hg.
    - intros [k Hx]. exists (PointGet e k). split; [done|]. apply list_elem_of_fmap.
      exists (k, PointGet e k). split; [done|]. apply (all_items_elem (routeSeed e)); [apply Hwf|].
      rewrite PointGet_ss in *. split; [done|]. intros E. rewrite E in Hx. by apply elem_of_nil in Hx. }
  assert (w = 0 ∨ ∃ k x, x ∈ PointGet e k ∧ DotNodeID x = localNodeID e ∧ DotCounter x = w) as Hex'.
  { destruct Hex as [?|(x & Hx & Hn & Hc)]; [by left|]. apply Hel in Hx as [k Hx]. right. by exists k, x. }
  split_and!; [by rewrite MerkleRootFromShards_items|done| |done|].
  - intros k x Hx Hn. apply Hall; [|done]. apply Hel. by exists k.
  - destruct Hex' as [->|(k & x & Hx & _ & <-)]; [|by eapply Hd]. destruct Hwf as [_ [[? _] _]]. lia.
Qed.
End Merkle.

(** ** Witnesses *)

Definition merkle_engine (rseed : Z) (first second : CRDTEntry) : Engine :=
  let e := NewDeltaCRDTEngine (replicate 16 1) 0 None rseed (λ i, Z.of_nat i) in
  match Join (MH:=fnv_maphash) (SS:=insertion_SliceSort) (Some [("a", first); ("b", second)]) e with
  | Ret e' => e'
  | Panic _ => e
  end.

Lemma merkle_engine_wf rseed n1 c1 p1 n2 c2 p2 :
  is_u64 c1 → is_u64 c2 →
  wf_engine (MH:=fnv_maphash) (merkle_engine rseed (sample_entry n1 c1 p1) (sample_entry n2 c2 p2)) ∧
  dominates (MH:=fnv_maphash) (merkle_engine rseed (sample_entry n1 c1 p1) (sample_entry n2 c2 p2)).
Proof.
  intros H1 H2. unfold merkle_engine.
  destruct (new_engine_inv (MH:=fnv_maphash) (replicate 16 1) 0 None rseed (λ i, Z.of_nat i)) as [Hwf Hd];
    [done|done|]. destruct (Join _ _) as [e'|m] eqn:E; [|by split].
  eapply step_join_inv; [|exact E|done|done].
  constructor; [done|]. constructor; [done|]. constructor.
Qed.

Definition merkle_engine_1 : Engine := merkle_engine 3 (sample_entry 2 4 5) (sample_entry 1 9 5).

Lemma merkle_engine_1_ok :
  wf_engine (MH:=fnv_maphash) merkle_engine_1 ∧ dominates (MH:=fnv_maphash) merkle_engine_1.
Proof. unfold merkle_engine_1. by apply merkle_engine_wf. Qed.

Lemma merkle_from_shards_is_state_merkle_witness :
  MerkleRootFromShards (SS:=insertion_SliceSort) merkle_engine_1 =
  HAMT_MerkleRoot (SS:=insertion_SliceSort) (State (MH:=fnv_maphash) 8 merkle_engine_1).
Proof.
  exact (merkle_from_shards_is_state_merkle (MH:=fnv_maphash) (SS:=insertion_SliceSort) 8 merkle_engine_1
           (proj1 merkle_engine_1_ok)).
Defined.

Lemma merkle_root_converges_witness :
  MerkleRootFromShards (SS:=insertion_SliceSort) (NewDeltaCRDTEngine (replicate 16 1) 0 None 3 (λ i, Z.of_nat i)) =
  MerkleRootFromShards (SS:=insertion_SliceSort) (NewDeltaCRDTEngine (replicate 16 2) 7 None 4 (λ i, 5)).
Proof.
  apply (merkle_root_converges (MH:=fnv_maphash) (SS:=insertion_SliceSort)).
  - by apply wf_NewDeltaCRDTEngine.
  - by apply wf_NewDeltaCRDTEngine.
  - intros k. by rewrite !PointGet_new.
Defined.

Lemma merkle_root_determines_dots_witness :
  let d := item_dots (all_items (shards merkle_engine_1)) in
  d ≡ₚ d ∨ (dot_bytes (SS:=insertion_SliceSort) d ≠ dot_bytes (SS:=insertion_SliceSort) d ∧
            Sum256 (dot_bytes (SS:=insertion_SliceSort) d) = Sum256 (dot_bytes (SS:=insertion_SliceSort) d)) ∨
  (d = [] ∧ d ≠ [] ∧ Sum256 (dot_bytes (SS:=insertion_SliceSort) d) = replicate 32 0) ∨
  (d = [] ∧ d ≠ [] ∧ Sum256 (dot_bytes (SS:=insertion_SliceSort) d) = replicate 32 0).
Proof.
  assert (item_dots (all_items (shards merkle_engine_1)) =
            [mkDot (replicate 16 2) 4; mkDot (replicate 16 1) 9]) as Hd by (vm_compute; reflexivity).
  apply (merkle_root_determines_dots (SS:=insertion_SliceSort) merkle_engine_1 merkle_engine_1).
  - rewrite Hd. by repeat (constructor; [split; [done|split; done]|]).
  - rewrite Hd. by repeat (constructor; [split; [done|split; done]|]).
  - reflexivity.
Defined.

Lemma capture_root_and_watermark_witness :
  (CaptureShardsPinned (SS:=insertion_SliceSort)
     (capture_total (λ n _ es, n + Z.of_nat (length es))) 0 merkle_engine_1).1 =
  (MerkleRootFromShards (SS:=insertion_SliceSort) merkle_engine_1, 9).
Proof.
  assert ((CaptureShardsPinned (SS:=insertion_SliceSort)
     (capture_total (λ n _ es, n + Z.of_nat (length es))) 0 merkle_engine_1).1.2 = 9) as H9
    by (vm_compute; reflexivity).
  pose proof (capture_root_and_watermark (MH:=fnv_maphash) (SS:=insertion_SliceSort)
    (λ n _ es, n + Z.of_nat (length es)) 0 merkle_engine_1
    (proj1 merkle_engine_1_ok)
    (proj2 merkle_engine_1_ok)) as H.
  destruct (CaptureShardsPinned _ _ _) as [[root w] st]. simpl in *. destruct H as (-> & _).
  by rewrite H9.
Defined.
