(* ===== verification/Snapshot.v ===== *)
(** Checkpoint images (pkg/durability/snapshot.go) and the state fingerprint
    (pkg/durability/state_fingerprint.go): the image codec with its CRC32C
    trailer, and the hash of a state's full entries. *)
From S2P Require Import Prelude Bytes Sha256 Crc32c Dots Wal WalLog WalReplay Hamt HamtMap.
From S2P Require Import Lamport Sorting Engine EngineInv JoinSpec EngineThms Merkle.

Definition snapshotVersionV2 : Z := 2.
Definition snapshotVersionV3 : Z := 3.
Definition snapshotHeaderSize : nat := 61.

(** "SNSP" *)
Definition snapshotMagic : list Z := [0x53; 0x4E; 0x53; 0x50].

(** SnapshotRecord: an entity id and one of its entries. *)
Abbreviation SnapshotRecord := (string * CRDTEntry)%type.

Record SnapshotImage := mkImage {
  im_Records : list SnapshotRecord;
  im_MerkleRoot : list Z;
  im_LamportHigh : Z;
  im_CutSeq : Z;
}.

Inductive SnapshotError :=
| ErrEntityIDTooLong (n : nat)
| ErrImageHeaderShort
| ErrImageMagic
| ErrSnapshotCorrupt
| ErrImageVersion (v : Z)
| ErrTruncatedIDLen (i : Z)
| ErrTruncatedID (i : Z)
| ErrTruncatedEntry (i : Z)
| ErrTrailingBytes
| ErrWatermark (header key : Z)
| ErrStore
| PanicMakeSlice.

(** ** Encoding *)

Definition compareDotsLocal (a b : CausalDot) : comparison := compareDots a b.

(** The less function of the stable sort, as a comparator: entity id, then dot. *)
Definition cmpSnapshotRecord (a b : SnapshotRecord) : comparison :=
  match string_compare a.1 b.1 with
  | Eq => compareDotsLocal (Dot a.2) (Dot b.2)
  | c => c
  end.

Definition encodeSnapshotRecord (r : SnapshotRecord) : result SnapshotError (list Z) :=
  let id := string_bytes r.1 in
  if (0xFFFF <? Z.of_nat (length id)) then Err (ErrEntityIDTooLong (length id))
  else Ok (be_put 2 (Z.of_nat (length id)) ++ id ++ encodeCRDTEntry r.2).

Fixpoint encodeSnapshotRecords (rs : list SnapshotRecord) : result SnapshotError (list Z) :=
  match rs with
  | [] => Ok []
  | r :: rs' => b ← encodeSnapshotRecord r; bs ← encodeSnapshotRecords rs'; Ok (b ++ bs)
  end.

Definition snapshotHeader (v : Z) (image : SnapshotImage) : list Z :=
  snapshotMagic ++ [v] ++ be_put 8 (im_LamportHigh image) ++
  be_put 8 (Z.of_nat (length (im_Records image))) ++ be_put 8 (im_CutSeq image) ++ im_MerkleRoot image.

(** sort.SliceStable is the stable sort; [insertion_sort] is one. *)
Definition encodeSnapshotImage (image : SnapshotImage) : result SnapshotError (list Z) :=
  let ordered := insertion_sort cmpSnapshotRecord (im_Records image) in
  body ← encodeSnapshotRecords ordered;
  let buf := snapshotHeader snapshotVersionV3 image ++ body in
  Ok (buf ++ be_put 4 (crc32_Checksum buf)).

(** ** Decoding *)

(** The record loop; [i] is the record's index, [n] the records left. *)
Fixpoint decodeSnapshotRecords (n : nat) (i : Z) (data : list Z) :
    result SnapshotError (list SnapshotRecord * list Z) :=
  match n with
  | O => Ok ([], data)
  | S n' =>
      if (length data <? 2)%nat then Err (ErrTruncatedIDLen i)
      else
        let eidLen := Z.to_nat (be_get (slice 0 2 data)) in
        let data := drop 2 data in
        if (length data <? eidLen)%nat then Err (ErrTruncatedID i)
        else
          let id := bytes_string (take eidLen data) in
          let data := drop eidLen data in
          if (length data <? crdtEntryWireLen)%nat then Err (ErrTruncatedEntry i)
          else
            let e := decodeCRDTEntry (take crdtEntryWireLen data) in
            '(rs, rest) ← decodeSnapshotRecords n' (i + 1) (drop crdtEntryWireLen data);
            Ok ((id, e) :: rs, rest)
  end.

(** The version switch: a V3 image's checksum is verified and dropped. *)
Definition checkTrailer (data : list Z) : result SnapshotError (list Z) :=
  let version := nth 4 data 0 in
  if version =? snapshotVersionV3 then
    if (length data <? snapshotHeaderSize + 4)%nat then Err ErrSnapshotCorrupt
    else
      let body := take (length data - 4) data in
      if be_get (drop (length data - 4) data) =? crc32_Checksum body then Ok body else Err ErrSnapshotCorrupt
  else if version =? snapshotVersionV2 then Ok data
  else Err (ErrImageVersion version).

(** The largest allocation, and the size of a record in memory. *)
Definition maxAlloc : Z := 2 ^ 48.
Definition sizeofSnapshotRecord : Z := 136.

(** The record slice is made with the header's count for its capacity: a count
    past the allocation limit is a run-time panic.  The loop is bounded by the
    bytes left, as every record takes 122 of them: past that it has returned a
    truncation error. *)
Definition decodeSnapshotImage (data : list Z) : result SnapshotError SnapshotImage :=
  if (length data <? snapshotHeaderSize)%nat then Err ErrImageHeaderShort
  else if negb (bool_decide (take 4 data = snapshotMagic)) then Err ErrImageMagic
  else
    data ← checkTrailer data;
    let recordCount := be64 13 data in
    if maxAlloc <? recordCount * sizeofSnapshotRecord then Err PanicMakeSlice else
    let n := Nat.min (Z.to_nat recordCount) (S (length data)) in
    '(rs, rest) ← decodeSnapshotRecords n 0 (drop snapshotHeaderSize data);
    if negb (length rest =? 0)%nat then Err ErrTrailingBytes
    else Ok (mkImage rs (slice 29 32 data) (be64 5 data) (be64 21 data)).

(** snapshotDelta: the records as a delta's entries. *)
Definition snapshotDelta (rs : list SnapshotRecord) : Seq := Some rs.

(** ** The state fingerprint *)

(** "SOVEREIGN-STATE-FINGERPRINT-v1" and a zero byte. *)
Definition fingerprintDomainSep : list Z := string_bytes "SOVEREIGN-STATE-FINGERPRINT-v1" ++ [0].

Definition fingerprintEntry (r : SnapshotRecord) : list Z :=
  Sum256 (fingerprintDomainSep ++ string_bytes r.1 ++ [0] ++ encodeCRDTEntry r.2).

Section Fingerprint.
Context `{MH : MapHash} `{SS : SliceSort}.

Definition foldEntryDigests (perEntry : list (list Z)) : list Z :=
  Sum256 (concat (sortFunc bytes_compare perEntry)).

Definition fingerprintRecords (records : list SnapshotRecord) : list Z :=
  foldEntryDigests (map fingerprintEntry records).

(** The capture callback of StateFingerprint and of the checkpoint image. *)
Definition collect_records (acc : list SnapshotRecord) (k : string) (es : list CRDTEntry) : list SnapshotRecord :=
  acc ++ map (pair k) es.

Definition StateFingerprint (e : Engine) : list Z :=
  let '(_, _, records) := CaptureShardsPinned (capture_total collect_records) [] e in
  foldEntryDigests (map fingerprintEntry records).
End Fingerprint.

(** ** Round trip *)

Definition sized_record (r : SnapshotRecord) : Prop :=
  sized_entry r.2 ∧ Z.of_nat (length (string_bytes r.1)) <= 0xFFFF.

Definition sized_image (im : SnapshotImage) : Prop :=
  Forall sized_record (im_Records im) ∧ length (im_MerkleRoot im) = 32%nat ∧ is_bytes (im_MerkleRoot im) ∧
  is_u64 (im_LamportHigh im) ∧ is_u64 (im_CutSeq im) ∧
  Z.of_nat (length (im_Records im)) * sizeofSnapshotRecord <= maxAlloc.

Definition record_bytes (r : SnapshotRecord) : list Z :=
  be_put 2 (Z.of_nat (length (string_bytes r.1))) ++ string_bytes r.1 ++ encodeCRDTEntry r.2.

Lemma encodeSnapshotRecord_ok r : sized_record r → encodeSnapshotRecord r = Ok (record_bytes r).
Proof. intros [_ H]. unfold encodeSnapshotRecord. by rewrite (proj2 (Z.ltb_ge _ _)). Qed.

Lemma encodeSnapshotRecords_ok rs :
  Forall sized_record rs → encodeSnapshotRecords rs = Ok (concat (map record_bytes rs)).
Proof.
  induction 1 as [|r rs Hr _ IH]; simpl; [done|]. by rewrite encodeSnapshotRecord_ok, IH.
Qed.

Lemma length_record_bytes r :
  sized_record r → length (record_bytes r) = (2 + length (string_bytes r.1) + crdtEntryWireLen)%nat.
Proof.
  intros [He _]. unfold record_bytes. rewrite !length_app, length_be_put, length_encodeCRDTEntry by done. lia.
Qed.

Lemma decodeSnapshotRecords_ok rs i rest :
  Forall sized_record rs →
  decodeSnapshotRecords (length rs) i (concat (map record_bytes rs) ++ rest) = Ok (rs, rest).
Proof.
  intros H. revert i. induction H as [|[k e] rs [He Hk] _ IH]; intros i; [done|].
  cbn [fst snd] in He, Hk. set (more := concat (map record_bytes rs) ++ rest).
  assert (concat (map record_bytes ((k, e) :: rs)) ++ rest =
    be_put 2 (Z.of_nat (length (string_bytes k))) ++ string_bytes k ++ encodeCRDTEntry e ++ more) as E.
  { cbn [map concat]. unfold record_bytes at 1. cbn [fst snd]. by rewrite <- !(assoc_L (++)). }
  rewrite E. clear E. change (length ((k, e) :: rs)) with (S (length rs)). cbn [decodeSnapshotRecords].
  pose proof (length_encodeCRDTEntry e He) as Hl.
  rewrite (proj2 (Nat.ltb_ge _ 2)) by (rewrite length_app, length_be_put; lia).
  rewrite slice_app_here by apply length_be_put.
  rewrite be_get_put by (change (2 ^ (Z.of_nat 2 * 8)) with 65536; lia).
  rewrite Nat2Z.id, drop_app_length' by (symmetry; apply length_be_put).
  rewrite (proj2 (Nat.ltb_ge _ (length (string_bytes k)))) by (rewrite length_app; lia).
  rewrite take_app_length, drop_app_length.
  rewrite (proj2 (Nat.ltb_ge _ crdtEntryWireLen)) by (rewrite length_app; lia).
  rewrite take_app_length', drop_app_length' by done. unfold more. rewrite IH.
  by rewrite decode_encodeCRDTEntry, bytes_string_bytes.
Qed.

Lemma length_snapshotHeader v im : sized_image im → length (snapshotHeader v im) = snapshotHeaderSize.
Proof. intros (_ & H & _). unfold snapshotHeader. rewrite !length_app, !length_be_put, H. done. Qed.

(** The header's fields, whatever follows it. *)
Lemma snapshotHeader_fields v im rest :
  sized_image im →
  let data := snapshotHeader v im ++ rest in
  take 4 data = snapshotMagic ∧ nth 4 data 0 = v ∧ be64 5 data = im_LamportHigh im ∧
  be64 13 data = Z.of_nat (length (im_Records im)) ∧ be64 21 data = im_CutSeq im ∧
  slice 29 32 data = im_MerkleRoot im ∧ drop snapshotHeaderSize data = rest.
Proof.
  intros Hs. pose proof (length_snapshotHeader v im Hs) as Hl. destruct Hs as (_ & H & _ & H1 & H2 & H3).
  assert (is_u64 (Z.of_nat (length (im_Records im)))) by (unfold is_u64, maxAlloc, sizeofSnapshotRecord in *; lia).
  cbv zeta. split_and!; [done|done|..].
  5: by apply drop_app_length'.
  all: unfold snapshotHeader, be64; rewrite <- !(assoc_L (++));
    change (snapshotMagic ++ [v] ++ ?x) with ((snapshotMagic ++ [v]) ++ x); slices; rewrite ?be_get_put8 by done; done.
Qed.

Lemma snapshotHeader_bytes im : sized_image im → is_bytes (snapshotHeader snapshotVersionV3 im).
Proof.
  intros (_ & _ & H & _). unfold snapshotHeader, is_bytes in *. repeat (apply Forall_app; split);
    try apply be_put_bytes; try done; repeat (constructor; [done|]); constructor.
Qed.

(** What the encoder writes for a sized image. *)
Definition image_bytes (im : SnapshotImage) : list Z :=
  snapshotHeader snapshotVersionV3 im ++
  concat (map record_bytes (insertion_sort cmpSnapshotRecord (im_Records im))).

Lemma encodeSnapshotImage_ok im :
  sized_image im → encodeSnapshotImage im = Ok (image_bytes im ++ be_put 4 (crc32_Checksum (image_bytes im))).
Proof.
  intros (H & _). unfold encodeSnapshotImage. rewrite encodeSnapshotRecords_ok; [done|].
  by rewrite insertion_sort_perm.
Qed.

Lemma record_bytes_are r : sized_record r → is_bytes (record_bytes r).
Proof.
  intros [(_ & (H1 & H2 & H3) & _) _]. unfold record_bytes, encodeCRDTEntry, is_bytes in *.
  repeat (apply Forall_app; split); try apply be_put_bytes; try done. apply string_bytes_are.
Qed.

Lemma image_bytes_are im : sized_image im → is_bytes (image_bytes im).
Proof.
  intros Hs. apply Forall_app. split; [by apply snapshotHeader_bytes|]. destruct Hs as (H & _).
  apply Forall_concat, Forall_fmap, Forall_forall. intros r Hr. apply record_bytes_are.
  rewrite Forall_forall in H. apply H. by rewrite insertion_sort_perm in Hr.
Qed.

(** Reading what was written, with any four trailing bytes. *)
Lemma decode_image_trailer im crc :
  sized_image im → length crc = 4%nat →
  decodeSnapshotImage (image_bytes im ++ crc) =
    if be_get crc =? crc32_Checksum (image_bytes im)
    then Ok (mkImage (insertion_sort cmpSnapshotRecord (im_Records im)) (im_MerkleRoot im) (im_LamportHigh im) (im_CutSeq im))
    else Err ErrSnapshotCorrupt.
Proof.
  intros Hs Hc. set (rs := insertion_sort cmpSnapshotRecord (im_Records im)).
  pose proof (length_snapshotHeader snapshotVersionV3 im Hs) as Hl.
  assert (length (image_bytes im) = snapshotHeaderSize + length (concat (map record_bytes rs)))%nat as Hb.
  { unfold image_bytes. rewrite length_app, Hl. done. }
  destruct (snapshotHeader_fields snapshotVersionV3 im (concat (map record_bytes rs) ++ crc) Hs) as (E1 & E2 & _).
  destruct (snapshotHeader_fields snapshotVersionV3 im (concat (map record_bytes rs)) Hs) as (_ & _ & E3 & E4 & E5 & E6 & E7).
  assert (snapshotHeader snapshotVersionV3 im ++ concat (map record_bytes rs) = image_bytes im) as Ei by done.
  rewrite Ei in E3, E4, E5, E6, E7. rewrite (assoc_L (++)), Ei in E1, E2.
  unfold decodeSnapshotImage. rewrite (proj2 (Nat.ltb_ge _ _)) by (rewrite length_app; lia).
  rewrite bool_decide_eq_true_2 by done. unfold checkTrailer. rewrite E2.
  change (snapshotVersionV3 =? snapshotVersionV3) with true. cbn [negb]. cbv iota.
  rewrite (proj2 (Nat.ltb_ge _ _)) by (rewrite length_app; lia).
  destruct (take_drop_crc (image_bytes im) crc Hc) as [-> ->].
  destruct (be_get crc =? _); [|done]. cbn [mbind result_bind]. rewrite E4, E5, E6, E7, E3.
  destruct Hs as (Hr & _ & _ & _ & _ & Hn). rewrite (proj2 (Z.ltb_ge _ _)) by done.
  assert (length rs = length (im_Records im)) as Hrs by (unfold rs; by rewrite insertion_sort_perm).
  assert (length rs <= length (concat (map record_bytes rs)))%nat as Hlen.
  { generalize rs. intros l. induction l as [|r l IH]; [done|]. cbn [map concat]. rewrite length_app.
    unfold record_bytes at 1. rewrite length_app, length_be_put. cbn [length]. lia. }
  rewrite Nat2Z.id, Nat.min_l, <- Hrs by lia.
  rewrite <- (app_nil_r (concat (map record_bytes rs))), decodeSnapshotRecords_ok; [done|].
  unfold rs. by rewrite insertion_sort_perm.
Qed.

(** A checkpoint image reads back as its records in the canonical order (by
    entity id, then dot) with its root, watermark and cut.  Damage to the encoded
    image behind its version byte, inside one window of at most four bytes, or to
    its checksum, is refused as corrupt. *)
Theorem snapshot_image_roundtrip (im : SnapshotImage) :
  sized_image im →
  ∃ body, encodeSnapshotImage im = Ok (body ++ be_put 4 (crc32_Checksum body)) ∧
    decodeSnapshotImage (body ++ be_put 4 (crc32_Checksum body)) =
      Ok (mkImage (insertion_sort cmpSnapshotRecord (im_Records im)) (im_MerkleRoot im) (im_LamportHigh im) (im_CutSeq im)) ∧
    ∀ body' crc, damaged body body' crc → take 5 body' = take 5 body →
      decodeSnapshotImage (body' ++ crc) = Err ErrSnapshotCorrupt.
Proof.
  intros Hs. pose proof (image_bytes_are im Hs) as Hb. exists (image_bytes im). split_and!.
  - by apply encodeSnapshotImage_ok.
  - rewrite decode_image_trailer by (done || apply length_be_put).
    rewrite be_get_put by apply (crc32_range _ Hb). by rewrite Z.eqb_refl.
  - intros body' crc (Hl & Hc & Hne)%damaged_mismatch H5; [|done].
    pose proof (length_snapshotHeader snapshotVersionV3 im Hs) as Hh.
    destruct (snapshotHeader_fields snapshotVersionV3 im
      (concat (map record_bytes (insertion_sort cmpSnapshotRecord (im_Records im)))) Hs) as (E1 & E2 & _).
    fold (image_bytes im) in E1, E2.
    assert (snapshotHeaderSize <= length (image_bytes im))%nat as Hsz by (unfold image_bytes; rewrite length_app; lia).
    unfold snapshotHeaderSize in Hsz. unfold decodeSnapshotImage, checkTrailer, snapshotHeaderSize.
    rewrite (proj2 (Nat.ltb_ge _ _)) by (rewrite length_app; lia).
    rewrite take_app_le by lia.
    rewrite bool_decide_eq_true_2 by (rewrite <- E1; apply (f_equal (take 4)) in H5; by rewrite !take_take in H5).
    assert (nth 4 (body' ++ crc) 0 = snapshotVersionV3) as ->.
    { rewrite app_nth1 by lia. rewrite <- (take_drop 5 body'), H5.
      rewrite app_nth1 by (rewrite length_take; lia). rewrite <- E2.
      rewrite <- (take_drop 5 (image_bytes im)) at 2. by rewrite app_nth1 by (rewrite length_take; lia). }
    change (snapshotVersionV3 =? snapshotVersionV3) with true. cbn [negb].
    rewrite (proj2 (Nat.ltb_ge _ _)) by (rewrite length_app; lia).
    destruct (take_drop_crc body' crc Hc) as [-> ->]. by rewrite (proj2 (Z.eqb_neq _ _) Hne).
Qed.

(** ** Fingerprints *)

Section FingerprintProps.
Context `{MH : MapHash} `{SS : SliceSort}.

(** All records of a state, in walk order. *)
Definition state_records (e : Engine) : list SnapshotRecord :=
  concat (map (λ it : block, map (pair it.1) it.2) (all_items (shards e))).

Lemma foldl_collect_records items acc :
  foldl (λ st (it : block), collect_records st it.1 it.2) acc items =
  acc ++ concat (map (λ it : block, map (pair it.1) it.2) items).
Proof.
  revert acc. induction items as [|it items IH]; intros acc; simpl; [by rewrite app_nil_r|].
  rewrite IH. unfold collect_records. by rewrite <- (assoc_L (++)).
Qed.

Lemma capture_records e :
  CaptureShardsPinned (capture_total collect_records) [] e =
    (MerkleRootFromShards e, max_local (localNodeID e) 0 (concat (all_items (shards e)).*2), state_records e).
Proof.
  unfold CaptureShardsPinned. rewrite capture_walk by done. cbn [cp_pairs cp_maxLocalDot cp_fn].
  rewrite app_nil_l, foldl_collect_records, MerkleRootFromShards_items. done.
Qed.

Lemma elem_of_state_records e k x : wf_engine e → (k, x) ∈ state_records e ↔ x ∈ PointGet e k.
Proof.
  intros [Hok _]. unfold state_records. rewrite elem_of_concat. split.
  - intros (l & Hin & ([k' es] & -> & Hit)%list_elem_of_fmap). apply (all_items_elem (routeSeed e)) in Hit as [Hg _]; [|done].
    simpl in Hin. apply list_elem_of_fmap in Hin as (y & [= <- <-] & Hy). by rewrite PointGet_ss, Hg.
  - intros Hx. rewrite PointGet_ss in Hx. exists (map (pair k) (ss_get (routeSeed e) (shards e) k)). split.
    + apply list_elem_of_fmap. by exists x.
    + apply list_elem_of_fmap. exists (k, ss_get (routeSeed e) (shards e) k). split; [done|].
      apply (all_items_elem (routeSeed e)); [done|]. split; [done|]. intros E. rewrite E in Hx. by apply elem_of_nil in Hx.
Qed.

Lemma NoDup_state_records e : wf_engine e → NoDup (state_records e).
Proof.
  intros [Hok Hc]. unfold state_records. apply NoDup_concat_map.
  - intros [k es] Hin. apply (all_items_elem (routeSeed e)) in Hin as [Hg _]; [|done]. simpl.
    apply NoDup_fmap_2; [by intros ?? [= ->]|]. rewrite <- Hg. apply dot_sorted_NoDup, ss_get_sorted. done.
  - intros p q [k es] [k' es'] [j x] Hp Hq H1 H2. simpl in *.
    apply list_elem_of_fmap in H1 as (? & [= <- <-] & _). apply list_elem_of_fmap in H2 as (? & [= <- <-] & _).
    apply (NoDup_lookup (all_items (shards e)).*1 p q j); [by eapply all_items_NoDup| |].
    + apply list_lookup_fmap_Some. by exists (j, es).
    + apply list_lookup_fmap_Some. by exists (j, es').
Qed.

Lemma state_records_equiv e1 e2 :
  wf_engine e1 → wf_engine e2 → eng_equiv e1 e2 ↔ state_records e1 ≡ₚ state_records e2.
Proof.
  intros H1 H2. split.
  - intros Heq. apply NoDup_Permutation; [by apply NoDup_state_records..|].
    intros [k x]. rewrite !elem_of_state_records by done. by rewrite Heq.
  - intros Hp. apply view_inj; [done|done|]. intros k. apply map_eq. intros d. apply option_eq. intros x.
    rewrite !view_lookup by done. rewrite <- !elem_of_state_records by done. by rewrite Hp.
Qed.

Lemma StateFingerprint_records e : StateFingerprint e = fingerprintRecords (state_records e).
Proof. unfold StateFingerprint. by rewrite capture_records. Qed.

(** The bytes hashed for an entry, and for a state. *)
Definition entry_preimage (r : SnapshotRecord) : list Z :=
  fingerprintDomainSep ++ string_bytes r.1 ++ [0] ++ encodeCRDTEntry r.2.
Definition state_preimage (e : Engine) : list Z :=
  concat (sortFunc bytes_compare (map fingerprintEntry (state_records e))).

Lemma entry_preimage_inj r1 r2 :
  sized_entry r1.2 → sized_entry r2.2 → entry_preimage r1 = entry_preimage r2 → r1 = r2.
Proof.
  intros H1 H2 E. unfold entry_preimage in E. apply app_inv_head in E. rewrite !(assoc_L (++)) in E.
  apply app_inj_2 in E as [E1 E2]; [|by rewrite !length_encodeCRDTEntry].
  apply app_inj_2 in E1 as [E1 _]; [|done]. apply (inj string_bytes) in E1.
  apply (f_equal decodeCRDTEntry) in E2. rewrite !decode_encodeCRDTEntry in E2 by done.
  destruct r1, r2. simpl in *. congruence.
Qed.

Lemma concat_inj_len (n : nat) (l1 l2 : list (list Z)) :
  (0 < n)%nat → Forall (λ x, length x = n) l1 → Forall (λ x, length x = n) l2 → concat l1 = concat l2 → l1 = l2.
Proof.
  intros Hn H1. revert l2. induction H1 as [|x l1 Hx _ IH]; intros [|y l2] H2 E; simpl in *; [done| | |].
  - apply Forall_cons in H2 as [Hy _]. apply (f_equal length) in E. rewrite length_app in E. simpl in E. lia.
  - apply (f_equal length) in E. rewrite length_app in E. simpl in E. lia.
  - apply Forall_cons in H2 as [Hy H2]. apply app_inj_1 in E as [-> E]; [|lia]. f_equal. by apply IH.
Qed.

(** Lists with the same images under [f] are the same lists, or [f] collides on
    two of their elements. *)
Lemma map_perm_or_collision {A B} `{!EqDecision A} (f : A → B) (l1 l2 : list A) :
  map f l1 ≡ₚ map f l2 → l1 ≡ₚ l2 ∨ ∃ x y, x ∈ l1 ∧ y ∈ l2 ∧ x ≠ y ∧ f x = f y.
Proof.
  intros Hp. destruct (Permutation_map_inv f _ Hp) as (l3 & E & Hp3).
  assert (∀ l l', map f l = map f l' → l = l' ∨ ∃ x y, x ∈ l ∧ y ∈ l' ∧ x ≠ y ∧ f x = f y) as H.
  { induction l as [|x l IH]; intros [|y l'] Hm; try done; [by left|]. injection Hm as Hf Hm.
    destruct (decide (x = y)) as [->|Hne]; [|right; exists x, y; split_and!; [left|left|done|done]].
    destruct (IH l' Hm) as [->|(a & b & ? & ? & ? & ?)]; [by left|].
    right. exists a, b. split_and!; [by right|by right|done|done]. }
  destruct (H l1 l3 E) as [->|(x & y & Hx & Hy & Hne & Hf)]; [by left|].
  right. exists x, y. split_and!; [done|by rewrite Hp3|done|done].
Qed.

(** The fingerprint sees every byte of the state: indistinguishable engines
    have the same fingerprint, and engines with the same fingerprint hold the
    same entries, field by field, unless SHA-256 collides on the two byte
    strings hashed for the states or on those of two different entries in
    them. *)
Theorem fingerprint_determines_state (e1 e2 : Engine) :
  wf_engine e1 → wf_engine e2 →
  (∀ k x, x ∈ PointGet e1 k ∨ x ∈ PointGet e2 k → sized_entry x) →
  (eng_equiv e1 e2 → StateFingerprint e1 = StateFingerprint e2) ∧
  (StateFingerprint e1 = StateFingerprint e2 →
   eng_equiv e1 e2 ∨
   (state_preimage e1 ≠ state_preimage e2 ∧ Sum256 (state_preimage e1) = Sum256 (state_preimage e2)) ∨
   ∃ k1 x1 k2 x2, x1 ∈ PointGet e1 k1 ∧ x2 ∈ PointGet e2 k2 ∧
     entry_preimage (k1, x1) ≠ entry_preimage (k2, x2) ∧
     Sum256 (entry_preimage (k1, x1)) = Sum256 (entry_preimage (k2, x2))).
Proof.
  intros H1 H2 Hs. rewrite !StateFingerprint_records. split.
  - intros Heq%state_records_equiv; [|done|done]. unfold fingerprintRecords, foldEntryDigests. do 2 f_equal.
    by apply sortFunc_canonical; [apply _|rewrite Heq].
  - intros E. destruct (decide (state_preimage e1 = state_preimage e2)) as [Ep|Ep]; [|by right; left].
    apply (concat_inj_len 32) in Ep; [|lia|..].
    2, 3: rewrite sortFunc_perm; apply Forall_fmap, Forall_forall; intros; apply length_Sum256.
    assert (map fingerprintEntry (state_records e1) ≡ₚ map fingerprintEntry (state_records e2)) as Hp.
    { by rewrite <- (sortFunc_perm _ bytes_compare), Ep, sortFunc_perm. }
    apply map_perm_or_collision in Hp as [Hp|([k1 x1] & [k2 x2] & Hx & Hy & Hne & Hf)].
    + left. by apply state_records_equiv.
    + right. right. apply elem_of_state_records in Hx; [|done]. apply elem_of_state_records in Hy; [|done].
      exists k1, x1, k2, x2. split_and!; [done|done| |done].
      intros Eq. apply Hne, entry_preimage_inj; [apply (Hs k1); by left|apply (Hs k2); by right|done].
Qed.
End FingerprintProps.
