(* ===== verification/LocalFS.v ===== *)
(** The local object store (pkg/durability/localfs.go) and the snapshot calls on
    it (pkg/durability/snapshot.go): key resolution, atomic uploads, listings,
    downloads, deletes and the reaping of interrupted uploads.

    A path is the list of its segments from the root of the file system; the
    file system is the files with their contents (directories carry no data).
    The context passed to each call is alive. *)
From Stdlib Require Import Ascii DecimalString DecimalN.
From S2P Require Import Prelude Bytes Sha256 Crc32c Dots Wal WalLog WalReplay Hamt HamtMap.
From S2P Require Import Lamport Sorting Engine EngineInv JoinSpec EngineThms Merkle Snapshot.

Abbreviation path := (list string).
Abbreviation FS := (gmap (list string) (list Z)).

Definition uploadTmpPrefix : string := ".upload-".

Inductive FSError := ErrEmptyKey | ErrAbsoluteKey | ErrEscapesRoot | ErrIO | ErrNotExist.

(** ** Paths *)

Definition is_slash (a : Ascii.ascii) : bool := Ascii.eqb a "/"%char.

Fixpoint split_slash (s : string) : list string :=
  match s with
  | EmptyString => [EmptyString]
  | String a s' =>
      if is_slash a then EmptyString :: split_slash s'
      else match split_slash s' with seg :: segs => String a seg :: segs | [] => [String a EmptyString] end
  end.

Fixpoint join_slash (p : path) : string :=
  match p with
  | [] => EmptyString
  | [seg] => seg
  | seg :: p' => String.append seg (String "/"%char (join_slash p'))
  end.

(** One segment of filepath.Clean on an absolute path; [rp] is the path so far,
    reversed. *)
Definition clean_push (rp : path) (seg : string) : path :=
  if String.eqb seg "" || String.eqb seg "." then rp
  else if String.eqb seg ".." then tail rp
  else seg :: rp.

Definition clean_from (root : path) (segs : list string) : path := reverse (foldl clean_push (reverse root) segs).

(** rootAbs == abs or abs has prefix rootAbs + "/": with the file system's root
    for rootAbs the second is never true. *)
Definition inside (root p : path) : bool :=
  bool_decide (root = p) || (negb (bool_decide (root = [])) && bool_decide (root `prefix_of` p)).

Definition resolve (root : path) (key : string) : result FSError path :=
  match key with
  | EmptyString => Err ErrEmptyKey
  | String a _ =>
      if is_slash a then Err ErrAbsoluteKey
      else
        let abs := clean_from root (split_slash key) in
        if inside root abs then Ok abs else Err ErrEscapesRoot
  end.

(** ** Operations *)

(** An upload completes, fails before the rename (the temporary file is removed
    again), fails after it at the directory fsync, or is cut off by a crash that
    leaves its temporary file behind. *)
Inductive upload_io := UpOk | UpErr | UpDirSyncErr | UpCrash (suffix : string) (written : nat).

Definition parent (p : path) : path := take (length p - 1) p.

Definition Upload (root : path) (key : string) (data : list Z) (io : upload_io) (fs : FS) : FS * result FSError unit :=
  match resolve root key with
  | Err e => (fs, Err e)
  | Ok abs =>
      match io with
      | UpOk => (<[abs := data]> fs, Ok tt)
      | UpErr => (fs, Err ErrIO)
      | UpDirSyncErr => (<[abs := data]> fs, Err ErrIO)
      | UpCrash suffix n =>
          (<[parent abs ++ [String.append uploadTmpPrefix suffix] := take n data]> fs, Err ErrIO)
      end
  end.

Definition Download (root : path) (key : string) (fs : FS) : result FSError (list Z) :=
  abs ← resolve root key;
  match fs !! abs with Some data => Ok data | None => Err ErrNotExist end.

(** Deleting what is not there succeeds. *)
Definition Delete (root : path) (key : string) (ok : bool) (fs : FS) : FS * result FSError unit :=
  match resolve root key with
  | Err e => (fs, Err e)
  | Ok abs => if ok then (delete abs fs, Ok tt) else (fs, Err ErrIO)
  end.

Definition is_tmp (p : path) : bool :=
  match last p with Some name => String.prefix uploadTmpPrefix name | None => false end.

Definition under (root p : path) : bool := bool_decide (root `prefix_of` p).

(** The key a file is listed under. *)
Definition key_of (root p : path) : string := join_slash (drop (length root) p).

Definition ListObjects (root : path) (prefix : string) (maxKeys : Z) (fs : FS) : list string :=
  let files := filter (λ p, under root p && String.prefix prefix (key_of root p) && negb (is_tmp p))
                 ((map_to_list fs).*1) in
  let keys := insertion_sort string_compare (map (key_of root) files) in
  if (0 <? maxKeys) && (maxKeys <? Z.of_nat (length keys)) then take (Z.to_nat maxKeys) keys else keys.

(** NewLocalFS reaps what interrupted uploads left under the root. *)
Definition ReapUploadOrphans (root : path) (fs : FS) : FS :=
  filter (λ pd, negb (under root pd.1 && is_tmp pd.1)) fs.

(** ** Snapshots *)

Definition decimal (n : Z) : string := NilEmpty.string_of_uint (N.to_uint (Z.to_N n)).
Definition snapshotKey (lamportHigh : Z) : string := String.append "ckpt/" (decimal lamportHigh).

Definition WriteSnapshotImage (root : path) (image : SnapshotImage) (io : upload_io) (fs : FS) :
    FS * result SnapshotError unit :=
  match encodeSnapshotImage image with
  | Err e => (fs, Err e)
  | Ok data =>
      match Upload root (snapshotKey (im_LamportHigh image)) data io fs with
      | (fs', Ok _) => (fs', Ok tt)
      | (fs', Err _) => (fs', Err ErrStore)
      end
  end.

Definition LoadSnapshotImage (root : path) (fs : FS) (lamportHigh : Z) : result SnapshotError SnapshotImage :=
  match Download root (snapshotKey lamportHigh) fs with
  | Err _ => Err ErrStore
  | Ok data =>
      image ← decodeSnapshotImage data;
      if negb (im_LamportHigh image =? lamportHigh) then Err (ErrWatermark (im_LamportHigh image) lamportHigh)
      else Ok image
  end.

Definition SnapshotExists (root : path) (fs : FS) (lamportHigh : Z) : result SnapshotError bool :=
  Ok (existsb (String.eqb (snapshotKey lamportHigh)) (ListObjects root (snapshotKey lamportHigh) 1 fs)).

(** ** Resolution stays inside the root *)

(** No key leaves the store: whatever the key (with "..", empty and "."
    segments), resolve refuses it or gives a path at or below the root. *)
Theorem resolve_confined (root : path) (key : string) (p : path) :
  resolve root key = Ok p → root `prefix_of` p.
Proof.
  unfold resolve. destruct key as [|a s]; [done|]. destruct (is_slash a); [done|].
  generalize (clean_from root (split_slash (String a s))). intros abs.
  destruct (inside root abs) eqn:E; [|done]. intros [= <-]. unfold inside in E.
  apply orb_true_iff in E as [E|E]; [by apply bool_decide_eq_true in E as <-|].
  apply andb_true_iff in E as [_ E]. by apply bool_decide_eq_true in E.
Qed.

(** ** Decimal keys *)

Fixpoint no_slash (s : string) : bool :=
  match s with EmptyString => true | String a s' => negb (is_slash a) && no_slash s' end.

Lemma split_no_slash s : no_slash s = true → split_slash s = [s].
Proof.
  induction s as [|a s IH]; simpl; [done|]. rewrite andb_true_iff, negb_true_iff. intros [-> H]. by rewrite IH.
Qed.

(** Digits start a decimal and make it up. *)
Definition is_digit (a : Ascii.ascii) : bool :=
  let n := Ascii.N_of_ascii a in (48 <=? n)%N && (n <=? 57)%N.

Fixpoint all_digits (s : string) : bool :=
  match s with EmptyString => true | String a s' => is_digit a && all_digits s' end.

Lemma string_of_uint_digits d : all_digits (NilEmpty.string_of_uint d) = true.
Proof. by induction d. Qed.

Lemma digits_no_slash s : all_digits s = true → no_slash s = true.
Proof.
  induction s as [|a s IH]; simpl; [done|]. rewrite !andb_true_iff. intros [Ha Hs]. split; [|auto].
  apply negb_true_iff. unfold is_slash. destruct (Ascii.eqb_spec a "/"%char) as [->|]; [|done]. discriminate Ha.
Qed.

Lemma N_to_uint_nonnil n : N.to_uint n ≠ Decimal.Nil.
Proof. intros E. pose proof (DecimalN.Unsigned.of_to n) as H. rewrite E in H. simpl in H. subst n. discriminate E. Qed.

Lemma decimal_digits n : all_digits (decimal n) = true ∧ decimal n ≠ EmptyString.
Proof.
  split; [apply string_of_uint_digits|]. unfold decimal. pose proof (N_to_uint_nonnil (Z.to_N n)).
  by destruct (N.to_uint (Z.to_N n)).
Qed.

Lemma decimal_inj n m : 0 <= n → 0 <= m → decimal n = decimal m → n = m.
Proof.
  intros Hn Hm E. apply (f_equal NilEmpty.uint_of_string) in E. unfold decimal in E.
  rewrite !NilEmpty.usu in E. injection E as E. apply (f_equal N.of_uint) in E.
  rewrite !DecimalN.Unsigned.of_to in E. lia.
Qed.

Lemma digits_not_dot s : all_digits s = true → s ≠ EmptyString → clean_push [] s = [s].
Proof.
  intros Hd Hne. unfold clean_push. destruct s as [|a s]; [done|]. simpl in Hd. apply andb_true_iff in Hd as [Ha _].
  assert (a ≠ "."%char) as Hdot by (intros ->; discriminate Ha).
  destruct (String.eqb_spec (String a s) "."); [congruence|]. by destruct (String.eqb_spec (String a s) ".."); [congruence|].
Qed.

Definition ckpt_path (root : path) (n : Z) : path := root ++ ["ckpt"; decimal n].

Lemma split_snapshotKey n : split_slash (snapshotKey n) = ["ckpt"; decimal n].
Proof.
  destruct (decimal_digits n) as [Hd _]. unfold snapshotKey. simpl. by rewrite split_no_slash by by apply digits_no_slash.
Qed.

Lemma resolve_snapshotKey root n : root ≠ [] → resolve root (snapshotKey n) = Ok (ckpt_path root n).
Proof.
  intros Hr. destruct (decimal_digits n) as [Hd Hne]. unfold resolve. rewrite split_snapshotKey.
  unfold snapshotKey at 1. simpl String.append. cbn [is_slash Ascii.eqb].
  assert (clean_from root ["ckpt"; decimal n] = ckpt_path root n) as ->.
  { unfold clean_from, ckpt_path. simpl. pose proof (digits_not_dot (decimal n) Hd Hne) as Hc. unfold clean_push in *.
    simpl. destruct (String.eqb (decimal n) "" || String.eqb (decimal n) "."); [done|].
    destruct (String.eqb (decimal n) ".."); [done|]. rewrite !reverse_cons, reverse_involutive, <- (assoc_L (++)). done. }
  unfold inside. rewrite (bool_decide_eq_false_2 (root = [])) by done.
  rewrite (bool_decide_eq_true_2 (root `prefix_of` ckpt_path root n)) by by apply prefix_app_r.
  change (is_slash "c"%char) with false. cbn [negb andb]. by rewrite orb_true_r.
Qed.

(** ** Listings *)

(** Segments as the file system has them: not empty, without a slash. *)
Definition wf_fs (fs : FS) : Prop :=
  ∀ p d, fs !! p = Some d → Forall (λ seg, no_slash seg = true ∧ seg ≠ EmptyString) p.

Lemma split_append_slash s rest :
  no_slash s = true → split_slash (String.append s (String "/"%char rest)) = s :: split_slash rest.
Proof.
  induction s as [|a s IH]; simpl; [done|]. rewrite andb_true_iff, negb_true_iff. intros [-> H]. by rewrite IH.
Qed.

Lemma split_join p : p ≠ [] → Forall (λ seg, no_slash seg = true ∧ seg ≠ EmptyString) p → split_slash (join_slash p) = p.
Proof.
  intros Hne H. induction H as [|seg p [Hs _] Hp IH]; [done|]. destruct p as [|seg' p].
  - by apply split_no_slash.
  - change (join_slash (seg :: seg' :: p)) with (String.append seg (String "/"%char (join_slash (seg' :: p)))).
    rewrite split_append_slash by done. by rewrite IH.
Qed.

Lemma key_of_ckpt root p n :
  Forall (λ seg, no_slash seg = true ∧ seg ≠ EmptyString) p → root `prefix_of` p →
  key_of root p = snapshotKey n ↔ p = ckpt_path root n.
Proof.
  intros Hp [r ->]. unfold key_of, ckpt_path. rewrite drop_app_length. apply Forall_app in Hp as [_ Hr]. split.
  - intros E. f_equal. destruct r as [|seg r]; [done|]. rewrite <- (split_join (seg :: r)) by done.
    by rewrite E, split_snapshotKey.
  - intros ->%app_inv_head. done.
Qed.

Lemma prefix_compare (k x : string) : String.prefix k x = true → string_compare k x ≠ Gt.
Proof.
  revert x. induction k as [|a k IH]; intros [|b x]; try done. simpl. intros H.
  destruct (Ascii.ascii_dec a b) as [->|]; [|done]. unfold string_compare, bytes_compare in *. simpl.
  rewrite Z.compare_refl. by apply IH.
Qed.

Lemma prefix_head a s b t : String.prefix (String a s) (String b t) = true → a = b.
Proof. cbn [String.prefix]. by destruct (Ascii.ascii_dec a b). Qed.

Lemma prefix_refl_string s : String.prefix s s = true.
Proof. induction s as [|a s IH]; simpl; [done|]. by destruct (Ascii.ascii_dec a a). Qed.

(** The least of a sorted list comes first. *)
Lemma sorted_least_first k l :
  StronglySorted (λ a b, string_compare a b ≠ Gt) l → k ∈ l → (∀ x, x ∈ l → string_compare k x ≠ Gt) →
  ∃ l', l = k :: l'.
Proof.
  intros Hs Hk Hle. destruct l as [|x l]; [by apply elem_of_nil in Hk|]. exists l. f_equal.
  apply (anti_symm (cmp_le string_compare)); [|apply Hle; left].
  apply elem_of_cons in Hk as [->|Hk]; [by unfold cmp_le; rewrite (cmp_refl string_compare)|].
  inversion_clear Hs as [|? ? _ Hf]. rewrite Forall_forall in Hf. by apply Hf.
Qed.

Lemma SnapshotExists_spec root fs n :
  wf_fs fs → SnapshotExists root fs n = Ok (bool_decide (is_Some (fs !! ckpt_path root n))).
Proof.
  intros Hwf. unfold SnapshotExists, ListObjects. f_equal. set (K := snapshotKey n).
  set (files := filter _ _). set (keys := insertion_sort string_compare (map (key_of root) files)).
  assert (∀ k, k ∈ keys ↔ ∃ p, k = key_of root p ∧ root `prefix_of` p ∧ is_Some (fs !! p) ∧
    String.prefix K k = true ∧ is_tmp p = false) as Hkeys.
  { intros k. unfold keys. rewrite insertion_sort_perm, list_elem_of_fmap. apply exist_proper. intros p.
    unfold files. rewrite list_elem_of_filter, !andb_True, negb_True. unfold under. rewrite bool_decide_spec.
    rewrite list_elem_of_fmap. split.
    - intros (-> & ((Hu & Hp) & Ht) & [p' d] & -> & Hd%elem_of_map_to_list). simpl in *.
      split_and!; [done|done|by eexists|by apply Is_true_true|by apply not_true_is_false; intros ?; apply Ht, Is_true_true].
    - intros (-> & Hu & [d Hd] & Hp & Ht). rewrite Ht. split_and!; [done|done|by rewrite Hp|by intros []|].
      exists (p, d). split; [done|]. by apply elem_of_map_to_list. }
  assert (K ∈ keys ↔ is_Some (fs !! ckpt_path root n)) as HK.
  { rewrite Hkeys. split.
    - intros (p & Ek & Hu & [d Hd] & _). symmetry in Ek. apply key_of_ckpt in Ek as ->; [by eexists|by eapply Hwf|done].
    - intros [d Hd]. exists (ckpt_path root n). destruct (decimal_digits n) as [Hdig Hne]. split_and!.
      + symmetry. apply key_of_ckpt; [by eapply Hwf|by apply prefix_app_r|done].
      + by apply prefix_app_r.
      + by eexists.
      + apply prefix_refl_string.
      + unfold is_tmp, ckpt_path. rewrite last_app. revert Hdig Hne. generalize (decimal n). intros [|a s]; [done|].
        intros Hdg _. apply not_true_is_false. intros <-%prefix_head. discriminate Hdg. }
  assert (∀ l : list string, (∀ k, k ∈ l → k ∈ keys) → K ∉ keys → existsb (String.eqb K) l = false) as Hno.
  { intros l Hl Hn. apply not_true_is_false. intros (k & Hin & Hk)%existsb_exists. apply String.eqb_eq in Hk as <-.
    apply Hn, Hl. by apply list_elem_of_In. }
  destruct (decide (K ∈ keys)) as [Hin|Hnin].
  - rewrite bool_decide_eq_true_2 by by apply HK.
    destruct (sorted_least_first K keys) as [l' El]; [| done | |].
    + apply (insertion_sort_sorted string_compare).
    + intros x (p & _ & _ & _ & Hp & _)%Hkeys. by apply prefix_compare.
    + rewrite El. destruct (_ && _); simpl; by rewrite String.eqb_refl.
  - rewrite bool_decide_eq_false_2 by (intros ?%HK; done). destruct (_ && _); apply Hno; try done.
    intros k (i & Hi & _)%elem_of_take. by eapply list_elem_of_lookup_2.
Qed.

Lemma encode_too_long rs r :
  r ∈ rs → 0xFFFF < Z.of_nat (length (string_bytes r.1)) → ∃ e, encodeSnapshotRecords rs = Err e.
Proof.
  intros Hin Hl. induction Hin as [rs|r r' rs Hin IH]; simpl; unfold encodeSnapshotRecord at 1.
  - rewrite (proj2 (Z.ltb_lt _ _)) by done. by eexists.
  - destruct (_ <? _); [by eexists|]. destruct IH as [e ->]; [done|]. by eexists.
Qed.

Lemma wf_fs_insert fs p d :
  wf_fs fs → Forall (λ seg, no_slash seg = true ∧ seg ≠ EmptyString) p → wf_fs (<[p := d]> fs).
Proof.
  intros Hwf Hp q d' [[<- _]|[_ Hq]]%lookup_insert_Some; [done|by eapply Hwf].
Qed.

Lemma wf_fs_ckpt root fs n d :
  wf_fs fs → Forall (λ seg, no_slash seg = true ∧ seg ≠ EmptyString) root → wf_fs (<[ckpt_path root n := d]> fs).
Proof.
  intros Hwf Hr. apply wf_fs_insert; [done|]. destruct (decimal_digits n) as [Hd Hne].
  apply Forall_app. split; [done|]. repeat constructor; [done|by apply digits_no_slash|done].
Qed.

Lemma no_slash_append s t : no_slash s = true → no_slash t = true → no_slash (String.append s t) = true.
Proof. induction s as [|a s IH]; simpl; [done|]. rewrite !andb_true_iff. naive_solver. Qed.

Lemma parent_ckpt root n : parent (ckpt_path root n) = root ++ ["ckpt"].
Proof.
  unfold parent, ckpt_path. rewrite length_app. simpl. replace (length root + 2 - 1)%nat with (length root + 1)%nat by lia.
  rewrite take_app_ge by lia. by replace (length root + 1 - length root)%nat with 1%nat by lia.
Qed.

Lemma wf_fs_tmp root fs n suffix d :
  wf_fs fs → Forall (λ seg, no_slash seg = true ∧ seg ≠ EmptyString) root → no_slash suffix = true →
  wf_fs (<[parent (ckpt_path root n) ++ [String.append uploadTmpPrefix suffix] := d]> fs).
Proof.
  intros Hwf Hr Hs. apply wf_fs_insert; [done|]. rewrite parent_ckpt, <- (assoc_L (++)).
  apply Forall_app. split; [done|]. constructor; [done|]. constructor; [|constructor].
  split; [by apply no_slash_append|done].
Qed.

Lemma tmp_path_ne root n m suffix :
  parent (ckpt_path root n) ++ [String.append uploadTmpPrefix suffix] ≠ ckpt_path root m.
Proof.
  rewrite parent_ckpt, <- (assoc_L (++)). unfold ckpt_path. intros E%app_inv_head. injection E as E.
  destruct (decimal_digits m) as [Hd _]. rewrite <- E in Hd. discriminate Hd.
Qed.

(** A successful write is what a load returns. *)
Lemma WriteSnapshotImage_ok root fs im :
  root ≠ [] → wf_fs fs → Forall (λ seg, no_slash seg = true ∧ seg ≠ EmptyString) root → sized_image im →
  ∃ fs', WriteSnapshotImage root im UpOk fs = (fs', Ok tt) ∧
    SnapshotExists root fs' (im_LamportHigh im) = Ok true ∧
    LoadSnapshotImage root fs' (im_LamportHigh im) =
      Ok (mkImage (insertion_sort cmpSnapshotRecord (im_Records im)) (im_MerkleRoot im) (im_LamportHigh im) (im_CutSeq im)).
Proof.
  intros Hr Hwf Hroot Hs. pose proof (crc32_range _ (image_bytes_are im Hs)) as Hc.
  unfold WriteSnapshotImage. rewrite encodeSnapshotImage_ok by done.
  unfold Upload. rewrite resolve_snapshotKey by done. eexists. split; [done|]. split.
  - rewrite SnapshotExists_spec by by apply wf_fs_ckpt. by rewrite lookup_insert_eq.
  - unfold LoadSnapshotImage, Download. rewrite resolve_snapshotKey by done. cbn [mbind result_bind].
    rewrite lookup_insert_eq, decode_image_trailer by (done || apply length_be_put).
    rewrite be_get_put by apply Hc. rewrite Z.eqb_refl. cbn [mbind result_bind im_LamportHigh]. by rewrite Z.eqb_refl.
Qed.

(** Checkpoint images are published atomically: a WriteSnapshotImage that
    returns nil makes SnapshotExists true and LoadSnapshotImage return the image
    (records in canonical order); one that fails before its rename, or is cut
    off by a crash, changes neither call for any watermark; and an entity id over
    65535 bytes makes it fail. *)
Theorem localfs_snapshot_atomic (root : path) (fs : FS) (im : SnapshotImage) :
  root ≠ [] → wf_fs fs → Forall (λ seg, no_slash seg = true ∧ seg ≠ EmptyString) root →
  (sized_image im →
   ∃ fs', WriteSnapshotImage root im UpOk fs = (fs', Ok tt) ∧
     SnapshotExists root fs' (im_LamportHigh im) = Ok true ∧
     LoadSnapshotImage root fs' (im_LamportHigh im) =
       Ok (mkImage (insertion_sort cmpSnapshotRecord (im_Records im)) (im_MerkleRoot im) (im_LamportHigh im) (im_CutSeq im))) ∧
  (∀ io n, (io = UpErr ∨ ∃ suffix w, io = UpCrash suffix w ∧ no_slash suffix = true) →
     let fs' := (WriteSnapshotImage root im io fs).1 in
     SnapshotExists root fs' n = SnapshotExists root fs n ∧
     LoadSnapshotImage root fs' n = LoadSnapshotImage root fs n) ∧
  (∀ r io, r ∈ im_Records im → 0xFFFF < Z.of_nat (length (string_bytes r.1)) →
     ∃ e, WriteSnapshotImage root im io fs = (fs, Err e)).
Proof.
  intros Hr Hwf Hroot. split_and!.
  - by apply WriteSnapshotImage_ok.
  - intros io n Hio. unfold WriteSnapshotImage. destruct (encodeSnapshotImage im) as [data|e]; [|done].
    unfold Upload. rewrite resolve_snapshotKey by done.
    destruct Hio as [->|(suffix & w & -> & Hsuf)]; [done|]. cbn [fst].
    rewrite !SnapshotExists_spec by (done || by apply wf_fs_tmp).
    unfold LoadSnapshotImage, Download. rewrite resolve_snapshotKey by done. cbn [mbind result_bind].
    by rewrite lookup_insert_ne by apply tmp_path_ne.
  - intros r io Hin Hlen. unfold WriteSnapshotImage, encodeSnapshotImage.
    destruct (encode_too_long (insertion_sort cmpSnapshotRecord (im_Records im)) r) as [e ->]; [|done|by eexists].
    by rewrite insertion_sort_perm.
Qed.
