(* ===== verification/Bridge.v ===== *)
(** The write-through bridge between engine and log (pkg/durability/bridge.go):
    local writes, clock advances, checkpoints, the query tier's delta plan, and
    the checkpoint scheduler's packed word.  Each call is run to completion here;
    BridgeSys.v interleaves the critical sections and crashes, CkptSched.v the
    scheduler's compare-and-swap loops. *)
From S2P Require Import Prelude Bytes Sha256 Crc32c Dots Wal WalLog WalReplay Hamt HamtMap.
From S2P Require Import Lamport Sorting Engine EngineInv JoinSpec EngineThms Merkle Snapshot.
From S2P Require Import LocalFS.

(** ** The scheduler's word *)

Definition ckptRunnerBit : Z := 1.
Definition ckptClosingBit : Z := 2 ^ 63.
Definition ckptPendingMask : Z := 2 ^ 62 - 1.

Definition ckptPending (s : Z) : Z := Z.land (Z.shiftr s 1) ckptPendingMask.
(** s &^ closing = 0 *)
Definition ckptIdle (s : Z) : bool := Z.ldiff s ckptClosingBit =? 0.

(** noteMutations: the counter after the Add, and whether this caller owns a
    crossing. *)
Definition noteMutations (interval n counter : Z) : Z * bool :=
  if interval =? 0 then (counter, false)
  else
    let total := counter +ₒ n in
    (total, negb (total / interval =? u64 (total - n) / interval)).

(** The word designateCheckpoint's compare-and-swap stores over [s]: None when it
    returns without one; the flag says it claimed the runner. *)
Definition designate_word (s : Z) : option (Z * bool) :=
  if negb (Z.land s ckptClosingBit =? 0) then None
  else if negb (Z.land s ckptRunnerBit =? 0) then Some (s +ₒ 2, false)
  else Some (Z.lor (s +ₒ 2) ckptRunnerBit, true).

(** The word drainCheckpoints stores over [s] after a checkpoint; the flag says
    the runner exits. *)
Definition drain_word (s : Z) : Z * bool :=
  if ckptPending s =? 1 then (Z.land s ckptClosingBit, true) else (u64 (s - 2), false).

(** Close's first loop: None when the bit is set already. *)
Definition closing_word (s : Z) : option Z :=
  if negb (Z.land s ckptClosingBit =? 0) then None else Some (Z.lor s ckptClosingBit).

(** ** The bridge *)

Inductive BridgeError :=
| BErrWAL (e : WALError)
| BErrMemTable
| BErrSnapshot (e : SnapshotError)
| BErrFlush.

Section Bridge.
Context `{MH : MapHash} `{SS : SliceSort}.

(** [b_snapshotter]: root and content of the LocalFS, when one is wired.  The
    commit timers are in nanoseconds. *)
Record Bridge := mkBridge {
  b_engine : Engine;
  b_log : File * WAL;
  b_snapshotter : option (path * FS);
  snapshotIndexEnabled : bool;
  checkpointInterval : Z;
  ckptCounter : Z;
  ckptErrors : Z;
  lastFlushedDot : option (gmap string CausalDot);
  commitCount : Z;
  commitAppendNs : Z;
  commitMaxAppendNs : Z;
}.

Definition NewBridge (engine : Engine) (log : File * WAL) (interval : Z) : Bridge :=
  mkBridge engine log None false interval 0 0 None 0 0 0.

Definition SetSnapshotter (lfs : option (path * FS)) (enableIndex : bool) (b : Bridge) : Bridge :=
  mkBridge (b_engine b) (b_log b) lfs enableIndex (checkpointInterval b) (ckptCounter b) (ckptErrors b)
    (lastFlushedDot b) (commitCount b) (commitAppendNs b) (commitMaxAppendNs b).

Definition set_engine (e : Engine) (b : Bridge) : Bridge :=
  mkBridge e (b_log b) (b_snapshotter b) (snapshotIndexEnabled b) (checkpointInterval b) (ckptCounter b)
    (ckptErrors b) (lastFlushedDot b) (commitCount b) (commitAppendNs b) (commitMaxAppendNs b).
Definition set_log (s : File * WAL) (b : Bridge) : Bridge :=
  mkBridge (b_engine b) s (b_snapshotter b) (snapshotIndexEnabled b) (checkpointInterval b) (ckptCounter b)
    (ckptErrors b) (lastFlushedDot b) (commitCount b) (commitAppendNs b) (commitMaxAppendNs b).
Definition set_fs (root : path) (fs : FS) (b : Bridge) : Bridge :=
  mkBridge (b_engine b) (b_log b) (Some (root, fs)) (snapshotIndexEnabled b) (checkpointInterval b)
    (ckptCounter b) (ckptErrors b) (lastFlushedDot b) (commitCount b) (commitAppendNs b) (commitMaxAppendNs b).
Definition set_ckptCounter (n : Z) (b : Bridge) : Bridge :=
  mkBridge (b_engine b) (b_log b) (b_snapshotter b) (snapshotIndexEnabled b) (checkpointInterval b) n
    (ckptErrors b) (lastFlushedDot b) (commitCount b) (commitAppendNs b) (commitMaxAppendNs b).
Definition set_flushed (m : option (gmap string CausalDot)) (b : Bridge) : Bridge :=
  mkBridge (b_engine b) (b_log b) (b_snapshotter b) (snapshotIndexEnabled b) (checkpointInterval b)
    (ckptCounter b) (ckptErrors b) m (commitCount b) (commitAppendNs b) (commitMaxAppendNs b).

(** [ns]: the append's wall time. *)
Definition noteCommit (ns : Z) (b : Bridge) : Bridge :=
  mkBridge (b_engine b) (b_log b) (b_snapshotter b) (snapshotIndexEnabled b) (checkpointInterval b)
    (ckptCounter b) (ckptErrors b) (lastFlushedDot b) (commitCount b +ₒ 1) (i64 (commitAppendNs b + ns))
    (if ns <=? commitMaxAppendNs b then commitMaxAppendNs b else ns).

(** ** Local writes *)

Definition set_digest (d : list Z) (e : CRDTEntry) : CRDTEntry :=
  mkEntry d (OriginNodeID e) (DotNodeID e) (DotCounter e) (SystemTime e) (ValidTimeStart e)
    (ValidTimeEnd e) (AssertionTime e) (DecisionTime e) (H3Index e).

(** Digest and InsertLocal: the dot and the record the log will carry. *)
Definition put_insert (entityID : string) (payload : list Z) (entry : CRDTEntry) (e : Engine) :
    outcome (CausalDot * WALMutation * Engine) :=
  let entry := set_digest (Sum256 payload) entry in
  match InsertLocal entityID entry e with
  | Panic m => Panic m
  | Ret (dot, e') => Ret (dot, NewWALMutation entityID dot entry, e')
  end.

(** The counter's part of noteMutations; the result says that the caller went on
    to designate a checkpoint. *)
Definition count_mutations (n : Z) (b : Bridge) : Bridge * bool :=
  let '(c, owner) := noteMutations (checkpointInterval b) n (ckptCounter b) in (set_ckptCounter c b, owner).

(** [r], [ok] and [ns]: the outcomes of the write and the fsync, and their time.
    The last result says a checkpoint was designated. *)
Definition PutLocal (entityID : string) (payload : list Z) (entry : CRDTEntry) (r : wres) (ok : bool) (ns : Z)
    (b : Bridge) : outcome (CausalDot * option WALError * Bridge * bool) :=
  match put_insert entityID payload entry (b_engine b) with
  | Panic m => Panic m
  | Ret (dot, mut, e) =>
      let b := set_engine e b in
      match AppendMutation mut r ok (b_log b) with
      | (s, Some err) => Ret (dot, Some err, noteCommit ns (set_log s b), false)
      | (s, None) =>
          let '(b, owner) := count_mutations 1 (noteCommit ns (set_log s b)) in Ret (dot, None, b, owner)
      end
  end.

Record LocalItem := mkItem { li_EntityID : string; li_Payload : list Z; li_Entry : CRDTEntry }.

Fixpoint put_inserts (items : list LocalItem) (e : Engine) : outcome (list (CausalDot * WALMutation) * Engine) :=
  match items with
  | [] => Ret ([], e)
  | it :: items' =>
      match put_insert (li_EntityID it) (li_Payload it) (li_Entry it) e with
      | Panic m => Panic m
      | Ret (dot, mut, e) =>
          match put_inserts items' e with
          | Panic m => Panic m
          | Ret (l, e) => Ret ((dot, mut) :: l, e)
          end
      end
  end.

(** The dots, failedFrom and the error. *)
Definition PutLocals (items : list LocalItem) (rs : nat → wres) (ok : bool) (ns : Z) (b : Bridge) :
    outcome (list CausalDot * Z * option WALError * Bridge * bool) :=
  match put_inserts items (b_engine b) with
  | Panic m => Panic m
  | Ret (l, e) =>
      let b := set_engine e b in
      match AppendMutations (imap (λ i m, (m, rs i)) l.*2) ok (b_log b) with
      | (s, _, Some err) => Ret (l.*1, 0, Some err, noteCommit ns (set_log s b), false)
      | (s, _, None) =>
          let '(b, owner) := count_mutations (Z.of_nat (length items)) (noteCommit ns (set_log s b)) in
          Ret (l.*1, -1, None, b, owner)
      end
  end.

Definition RecordClockAdvance (r : wres) (ok : bool) (b : Bridge) : option WALError * Bridge :=
  let '(s, err) := AppendClockAdvance (lamportCounter (clk (b_engine b))) r ok (b_log b) in (err, set_log s b).

(** ** Checkpoints *)

(** The query tier's representative of an entity: the entry of the greatest dot. *)
Definition note_latest (latest : gmap string CRDTEntry) (entityID : string) (x : CRDTEntry) : gmap string CRDTEntry :=
  match latest !! entityID with
  | Some cur => match compareDotsLocal (Dot cur) (Dot x) with Lt => <[entityID := x]> latest | _ => latest end
  | None => <[entityID := x]> latest
  end.

(** The capture callback under a snapshotter. *)
Definition capture_both (acc : list SnapshotRecord * gmap string CRDTEntry) (entityID : string) (entries : list CRDTEntry) :
    list SnapshotRecord * gmap string CRDTEntry :=
  foldl (λ acc x, (acc.1 ++ [(entityID, x)], note_latest acc.2 entityID x)) acc entries.

(** planQueryTierDelta and commitQueryTierDelta; [order]: the map iteration. *)
Definition planQueryTierDelta (lastFlushed : option (gmap string CausalDot)) (order : list (string * CRDTEntry)) :
    list (string * CRDTEntry) :=
  filter (λ r, default ∅ lastFlushed !! r.1 ≠ Some (Dot r.2)) order.

Definition commitQueryTierDelta (delta : list (string * CRDTEntry)) (lastFlushed : option (gmap string CausalDot)) :
    option (gmap string CausalDot) :=
  Some (foldl (λ m r, <[r.1 := Dot r.2]> m) (default ∅ lastFlushed) delta).

(** The outcomes of the calls a checkpoint makes: the log's write and fsync, the
    image's upload, the construction of the MemTable and its flush, and the
    iteration order of the map of latest entries. *)
Record ckpt_io := mkCkptIO {
  ci_write : wres;
  ci_sync : bool;
  ci_upload : upload_io;
  ci_memtable : bool;
  ci_flush : bool;
  ci_order : gmap string CRDTEntry → list (string * CRDTEntry);
}.

(** The anchor and, under a snapshotter, the image and the latest entries. *)
Definition capture_checkpoint (cutSeq : Z) (withImage : bool) (e : Engine) :
    WALCheckpoint * list SnapshotRecord * gmap string CRDTEntry :=
  let '(root, maxLocalDot, (records, latest)) :=
    CaptureShardsPinned (Some (λ acc k es, (if withImage then capture_both acc k es else acc, true))) ([], ∅) e in
  (mkWALCheckpoint root (if withImage then fingerprintRecords records else replicate 32 0)
     maxLocalDot cutSeq (lamportCounter (clk e)) true withImage,
   records, latest).

(** The image that goes with an anchor. *)
Definition anchor_image (c : WALCheckpoint) (records : list SnapshotRecord) : SnapshotImage :=
  mkImage records (wc_MerkleRoot c) (wc_LamportHigh c) (wc_CutSeq c).

Definition Bridge_AppendCheckpoint (io : ckpt_io) (b : Bridge) : option BridgeError * Bridge :=
  let cutSeq := nextSeq (b_log b).2 in
  let '(ckpt, records, latest) :=
    capture_checkpoint cutSeq (bool_decide (is_Some (b_snapshotter b))) (b_engine b) in
  match AppendCheckpoint ckpt (ci_write io) (ci_sync io) (b_log b) with
  | (s, Some err) => (Some (BErrWAL err), set_log s b)
  | (s, None) =>
      let b := set_log s b in
      match b_snapshotter b with
      | None => (None, b)
      | Some (root, fs) =>
          if snapshotIndexEnabled b && negb (ci_memtable io) then (Some BErrMemTable, b)
          else
            match WriteSnapshotImage root (anchor_image ckpt records) (ci_upload io) fs with
            | (fs', Err err) => (Some (BErrSnapshot err), set_fs root fs' b)
            | (fs', Ok _) =>
                let b := set_fs root fs' b in
                if negb (snapshotIndexEnabled b) then (None, b)
                else
                  let delta := planQueryTierDelta (lastFlushedDot b) (ci_order io latest) in
                  if ci_flush io then (None, set_flushed (commitQueryTierDelta delta (lastFlushedDot b)) b)
                  else (Some BErrFlush, b)
            end
      end
  end.

(** One turn of drainCheckpoints: the checkpoint, its error metered. *)
Definition drain_checkpoint (io : ckpt_io) (b : Bridge) : Bridge :=
  match Bridge_AppendCheckpoint io b with
  | (None, b) => b
  | (Some _, b) =>
      mkBridge (b_engine b) (b_log b) (b_snapshotter b) (snapshotIndexEnabled b) (checkpointInterval b)
        (ckptCounter b) (ckptErrors b +ₒ 1) (lastFlushedDot b) (commitCount b) (commitAppendNs b) (commitMaxAppendNs b)
  end.
End Bridge.
