(* ===== verification/CkptSched.v ===== *)
(** The checkpoint scheduler of pkg/durability/bridge.go as interleaved atomic
    steps: any number of writers run noteMutations and designateCheckpoint, the
    drain goroutine they spawn runs drainCheckpoints, and closers run the first
    part of Close; every load and compare-and-swap of the packed word is a step
    of its own. *)
From S2P Require Import Prelude Bytes Sha256 Crc32c Dots Wal WalLog WalReplay Hamt HamtMap.
From S2P Require Import Lamport Sorting Engine EngineInv JoinSpec EngineThms Merkle Snapshot.
From S2P Require Import LocalFS Bridge.

(** ** The word's fields *)

Lemma land_pow2 x n : 0 <= n → Z.land x (2 ^ n) = if Z.testbit x n then 2 ^ n else 0.
Proof.
  intros Hn. apply Z.bits_inj'. intros i Hi. rewrite Z.land_spec, Z.pow2_bits_eqb by done.
  destruct (Z.eqb_spec n i) as [->|Hne].
  - rewrite andb_true_r. destruct (Z.testbit x i); [by rewrite Z.pow2_bits_true|by rewrite Z.bits_0].
  - rewrite andb_false_r. destruct (Z.testbit x n); [by rewrite Z.pow2_bits_false|by rewrite Z.bits_0].
Qed.

Lemma ldiff_sub x y : Z.ldiff x y = x - Z.land x y.
Proof.
  assert (Z.ldiff (Z.land x y) x = 0) as H.
  { apply Z.bits_inj'. intros i _. rewrite Z.ldiff_spec, Z.land_spec, Z.bits_0. by destruct (Z.testbit x i), (Z.testbit y i). }
  rewrite (Z.sub_nocarry_ldiff _ _ H). apply Z.bits_inj'. intros i _.
  rewrite !Z.ldiff_spec, Z.land_spec. by destruct (Z.testbit x i), (Z.testbit y i).
Qed.

(** Closing flag, pending count, runner flag. *)
Definition word_of (c : bool) (p : Z) (r : bool) : Z := Z.b2z c * 2 ^ 63 + 2 * p + Z.b2z r.

Section Word.
Context (c : bool) (p : Z) (r : bool) (Hp : 0 <= p < 2 ^ 62).

Lemma word_closing : Z.testbit (word_of c p r) 63 = c.
Proof.
  unfold word_of. apply Z.b2z_inj. rewrite Z.testbit_spec' by done.
  replace (Z.b2z c * 2 ^ 63 + 2 * p + Z.b2z r) with (2 * p + Z.b2z r + Z.b2z c * 2 ^ 63) by lia.
  rewrite Z.div_add by done. rewrite Z.div_small by (destruct r; simpl; lia). by destruct c.
Qed.

Lemma word_land_closing : Z.land (word_of c p r) ckptClosingBit = Z.b2z c * 2 ^ 63.
Proof. unfold ckptClosingBit. rewrite land_pow2, word_closing by done. by destruct c. Qed.

Lemma word_land_runner : Z.land (word_of c p r) ckptRunnerBit = Z.b2z r.
Proof.
  unfold ckptRunnerBit. change 1 with (Z.ones 1). rewrite Z.land_ones by done. unfold word_of.
  replace (Z.b2z c * 2 ^ 63 + 2 * p + Z.b2z r) with (Z.b2z r + (Z.b2z c * 2 ^ 62 + p) * 2 ^ 1) by lia.
  rewrite Z.mod_add by done. by destruct r.
Qed.

Lemma word_pending : ckptPending (word_of c p r) = p.
Proof.
  unfold ckptPending. change ckptPendingMask with (Z.ones 62). rewrite Z.land_ones, Z.shiftr_div_pow2 by done. unfold word_of.
  replace (Z.b2z c * 2 ^ 63 + 2 * p + Z.b2z r) with (Z.b2z r + (Z.b2z c * 2 ^ 62 + p) * 2 ^ 1) by lia.
  rewrite Z.div_add by done. rewrite (Z.div_small (Z.b2z r)) by (destruct r; simpl; lia).
  replace (0 + (Z.b2z c * 2 ^ 62 + p)) with (p + Z.b2z c * 2 ^ 62) by lia.
  rewrite Z.mod_add by done. by apply Z.mod_small.
Qed.

Lemma word_idle : ckptIdle (word_of c p r) = (p =? 0) && negb r.
Proof.
  unfold ckptIdle. rewrite ldiff_sub, word_land_closing. unfold word_of.
  destruct r; simpl; rewrite ?andb_false_r, ?andb_true_r.
  - apply Z.eqb_neq. lia.
  - destruct (Z.eqb_spec p 0); [apply Z.eqb_eq|apply Z.eqb_neq]; lia.
Qed.

Lemma word_u64 : is_u64 (word_of c p r).
Proof. unfold is_u64, word_of. destruct c, r; simpl; lia. Qed.

Lemma designate_word_spec :
  p + 1 < 2 ^ 62 →
  designate_word (word_of c p r) = if c then None else Some (word_of false (p + 1) true, negb r).
Proof.
  intros Hp'. unfold designate_word. rewrite word_land_closing, word_land_runner. destruct c; [done|].
  assert (word_of false p r +ₒ 2 = word_of false (p + 1) r) as E.
  { rewrite u64_id; unfold word_of, is_u64; destruct r; simpl; lia. }
  rewrite E. destruct r; [done|]. simpl. do 2 f_equal. unfold ckptRunnerBit.
  pose proof (Z.add_lor_land (word_of false (p + 1) false) 1) as Hor.
  assert (Z.land (word_of false (p + 1) false) 1 = 0) as El; [|rewrite El in Hor; unfold word_of in *; simpl in *; lia].
  change 1 with (Z.ones 1) at 2. rewrite Z.land_ones by done. unfold word_of. simpl.
  replace (0 * 2 ^ 63 + 2 * (p + 1) + 0) with ((p + 1) * 2 ^ 1) by lia. by apply Z.mod_mul.
Qed.

Lemma designate_refused : bool_decide (designate_word (word_of c p r) = None) = c.
Proof.
  unfold designate_word. rewrite word_land_closing. destruct c; [done|].
  change (negb (Z.b2z false * 2 ^ 63 =? 0)) with false. cbv iota. by destruct (negb _).
Qed.

Lemma drain_word_spec :
  1 <= p → r = true →
  drain_word (word_of c p r) = if p =? 1 then (word_of c 0 false, true) else (word_of c (p - 1) true, false).
Proof.
  intros H1 Hr. unfold drain_word. rewrite word_pending, word_land_closing. destruct (p =? 1).
  - f_equal. unfold word_of. simpl. lia.
  - f_equal. rewrite u64_id; unfold word_of, is_u64; subst r; destruct c; simpl; lia.
Qed.

Lemma closing_word_spec : closing_word (word_of c p r) = if c then None else Some (word_of true p r).
Proof.
  unfold closing_word. rewrite word_land_closing. destruct c eqn:Ec; [done|]. simpl. f_equal.
  pose proof (Z.add_lor_land (word_of false p r) ckptClosingBit) as Hor.
  rewrite <- Ec in Hor. rewrite word_land_closing in Hor. rewrite Ec in Hor. unfold word_of, ckptClosingBit in *. simpl in *. lia.
Qed.
End Word.

(** ** The interleaving *)

(** Where a goroutine stands. *)
Inductive goroutine :=
| TNote (n : Z)       (* a writer, about to run noteMutations(n) *)
| TDesig              (* designateCheckpoint, before the load *)
| TDesigL (s : Z)     (* with the loaded word *)
| TRun                (* drainCheckpoints, inside AppendCheckpoint *)
| TDrain              (* after it, before the load *)
| TDrainL (s : Z)
| TClose              (* Close, before the load *)
| TCloseL (s : Z)
| TWait               (* waitCheckpointsIdle *)
| TDown.              (* Close, tearing engine and log down *)

Definition is_runner (t : goroutine) : bool := match t with TRun | TDrain | TDrainL _ => true | _ => false end.
Definition between_runs (t : goroutine) : bool := match t with TDrain | TDrainL _ => true | _ => false end.

(** The word and the counter; the goroutines; and what has happened: the
    mutations counted by calls that returned from noteMutations' Add, the owners
    among them, the accepted designations and the checkpoints run. *)
Record sched := mkSched {
  sc_word : Z;
  sc_counter : Z;
  sc_threads : list goroutine;
  sc_owners : Z;
  sc_designated : Z;
  sc_runs : Z;
}.

Definition sched_init : sched := mkSched 0 0 [] 0 0 0.

(** [K] is checkpointInterval.  The counter and the pending count are followed
    short of their overflow. *)
Inductive ckpt_step (K : Z) : sched → sched → Prop :=
| st_call n p1 p2 w c o d k :
    0 < n <= K → ckpt_step K (mkSched w c (p1 ++ p2) o d k) (mkSched w c (p1 ++ TNote n :: p2) o d k)
| st_close p1 p2 w c o d k :
    ckpt_step K (mkSched w c (p1 ++ p2) o d k) (mkSched w c (p1 ++ TClose :: p2) o d k)
| st_note n p1 p2 w c c' owner o d k :
    noteMutations K n c = (c', owner) → c + n < 2 ^ 64 →
    ckpt_step K (mkSched w c (p1 ++ TNote n :: p2) o d k)
      (mkSched w c' (p1 ++ (if owner then [TDesig] else []) ++ p2) (o + Z.b2z owner) d k)
| st_desig_load p1 p2 w c o d k :
    ckpt_step K (mkSched w c (p1 ++ TDesig :: p2) o d k) (mkSched w c (p1 ++ TDesigL w :: p2) o d k)
| st_desig_refused s p1 p2 w c o d k :
    designate_word s = None →
    ckpt_step K (mkSched w c (p1 ++ TDesigL s :: p2) o d k) (mkSched w c (p1 ++ p2) o d k)
| st_desig_cas s s' claim p1 p2 c o d k :
    designate_word s = Some (s', claim) → d + 1 < 2 ^ 62 →
    ckpt_step K (mkSched s c (p1 ++ TDesigL s :: p2) o d k)
      (mkSched s' c (p1 ++ (if claim then [TRun] else []) ++ p2) o (d + 1) k)
| st_desig_retry s p1 p2 w c o d k :
    w ≠ s → is_Some (designate_word s) →
    ckpt_step K (mkSched w c (p1 ++ TDesigL s :: p2) o d k) (mkSched w c (p1 ++ TDesig :: p2) o d k)
| st_run p1 p2 w c o d k :
    ckpt_step K (mkSched w c (p1 ++ TRun :: p2) o d k) (mkSched w c (p1 ++ TDrain :: p2) o d (k + 1))
| st_drain_load p1 p2 w c o d k :
    ckpt_step K (mkSched w c (p1 ++ TDrain :: p2) o d k) (mkSched w c (p1 ++ TDrainL w :: p2) o d k)
| st_drain_cas s s' exit p1 p2 c o d k :
    drain_word s = (s', exit) →
    ckpt_step K (mkSched s c (p1 ++ TDrainL s :: p2) o d k)
      (mkSched s' c (p1 ++ (if exit then [] else [TRun]) ++ p2) o d k)
| st_drain_retry s p1 p2 w c o d k :
    w ≠ s → ckpt_step K (mkSched w c (p1 ++ TDrainL s :: p2) o d k) (mkSched w c (p1 ++ TDrain :: p2) o d k)
| st_close_load p1 p2 w c o d k :
    ckpt_step K (mkSched w c (p1 ++ TClose :: p2) o d k) (mkSched w c (p1 ++ TCloseL w :: p2) o d k)
| st_close_set s p1 p2 w c o d k :
    closing_word s = None →
    ckpt_step K (mkSched w c (p1 ++ TCloseL s :: p2) o d k) (mkSched w c (p1 ++ TWait :: p2) o d k)
| st_close_cas s s' p1 p2 c o d k :
    closing_word s = Some s' →
    ckpt_step K (mkSched s c (p1 ++ TCloseL s :: p2) o d k) (mkSched s' c (p1 ++ TWait :: p2) o d k)
| st_close_retry s p1 p2 w c o d k :
    w ≠ s → is_Some (closing_word s) →
    ckpt_step K (mkSched w c (p1 ++ TCloseL s :: p2) o d k) (mkSched w c (p1 ++ TClose :: p2) o d k)
| st_idle p1 p2 w c o d k :
    ckptIdle w = true →
    ckpt_step K (mkSched w c (p1 ++ TWait :: p2) o d k) (mkSched w c (p1 ++ TDown :: p2) o d k).

Definition sched_reachable (K : Z) (s : sched) : Prop := rtc (ckpt_step K) sched_init s.

(** Goroutines at a place. *)
Definition count (f : goroutine → bool) (l : list goroutine) : Z := Z.of_nat (length (List.filter f l)).

Lemma count_app f l1 l2 : count f (l1 ++ l2) = count f l1 + count f l2.
Proof. unfold count. rewrite List.filter_app, length_app. lia. Qed.
Lemma count_cons f t l : count f (t :: l) = Z.b2z (f t) + count f l.
Proof. unfold count. simpl. destruct (f t); simpl; lia. Qed.
Lemma count_nonneg f l : 0 <= count f l.
Proof. unfold count. lia. Qed.

(** A goroutine that has seen the closing bit. *)
Definition saw_closing (t : goroutine) : bool :=
  match t with
  | TWait | TDown => true
  | TCloseL s => bool_decide (closing_word s = None)
  | TDesigL s => bool_decide (designate_word s = None)
  | _ => false
  end.
Definition is_desig (t : goroutine) : bool := match t with TDesig | TDesigL _ => true | _ => false end.
Definition is_down (t : goroutine) : bool := match t with TDown => true | _ => false end.
Lemma down_saw l : count is_down l <= count saw_closing l.
Proof. induction l as [|t l IH]; [done|]. rewrite !count_cons. destruct t; simpl; lia || (destruct (bool_decide _); simpl; lia). Qed.

Lemma between_runner l : count between_runs l <= count is_runner l.
Proof. induction l as [|t l IH]; [done|]. rewrite !count_cons. destruct t; simpl; lia. Qed.

Definition small_note (K : Z) (t : goroutine) : Prop := match t with TNote n => 0 < n <= K | _ => True end.

(** The invariant, with the fields of the word. *)
Record sinv (K : Z) (s : sched) (c : bool) (p : Z) (r : bool) : Prop := {
  si_pending : 0 <= p < 2 ^ 62;
  si_word : sc_word s = word_of c p r;
  si_runner : r = true ↔ 0 < p;
  si_runners : count is_runner (sc_threads s) = Z.b2z r;
  si_designated : sc_designated s = sc_runs s + p - count between_runs (sc_threads s);
  si_runs : count between_runs (sc_threads s) <= sc_runs s;
  si_closing : c = false → count saw_closing (sc_threads s) = 0;
  si_down : 0 < count is_down (sc_threads s) → r = false;
  si_inflight : sc_designated s + count is_desig (sc_threads s) <= sc_owners s;
  si_accepted : c = false → sc_designated s + count is_desig (sc_threads s) = sc_owners s;
  si_notes : Forall (small_note K) (sc_threads s);
  si_counter : 0 <= sc_counter s < 2 ^ 64;
  si_owners : sc_owners s = sc_counter s / K;
}.

Lemma noteMutations_crossing K n c c' owner :
  0 < n <= K → 0 <= c → c + n < 2 ^ 64 → noteMutations K n c = (c', owner) →
  c' = c + n ∧ c' / K = c / K + Z.b2z owner.
Proof.
  intros Hn Hc Hlt H. unfold noteMutations in H. rewrite (proj2 (Z.eqb_neq K 0)) in H by lia.
  rewrite (u64_id (c + n)) in H by (unfold is_u64; lia). replace (c + n - n) with c in H by lia.
  rewrite (u64_id c) in H by (unfold is_u64; lia). injection H as <- <-. split; [done|].
  assert (c / K <= (c + n) / K) by (apply Z.div_le_mono; lia).
  assert ((c + n) / K <= (c + 1 * K) / K) as Hle by (apply Z.div_le_mono; lia).
  rewrite Z.div_add in Hle by lia. destruct (Z.eqb_spec ((c + n) / K) (c / K)); simpl; lia.
Qed.

#[local] Ltac counts :=
  cbn [sc_word sc_counter sc_threads sc_owners sc_designated sc_runs app] in *;
  rewrite ?count_app, ?count_cons in *;
  cbn [is_runner between_runs saw_closing is_down is_desig Z.b2z] in *.
#[local] Ltac notes :=
  rewrite ?Forall_app, ?Forall_cons in *; cbn [small_note] in *; repeat split; try tauto; try lia.
#[local] Ltac finish :=
  match goal with
  | |- Forall _ _ => notes
  | |- _ = _ / _ => congruence
  | |- _ ↔ _ => done || (split; intros; done || lia)
  | |- _ => done || lia || (intros; subst; repeat match goal with H : ?x = ?x → _ |- _ => specialize (H eq_refl) end;
                            simpl in *; lia || (exfalso; lia))
  end.
#[local] Ltac keep := split; [split|]; counts; finish.

Lemma sinv_init K : 0 < K → sinv K sched_init false 0 false.
Proof. intros HK. split; simpl; done || lia. Qed.

Lemma sinv_step K s s' c p r :
  0 < K → ckpt_step K s s' → sinv K s c p r → ∃ c' p' r', sinv K s' c' p' r' ∧ (c = true → c' = true).
Proof.
  intros HK Hs [H1 H2 H3 H4 H5 H5' H6 H7 Hin Hac H8 H9 H10].
  pose proof (count_nonneg saw_closing) as Hsaw. pose proof (count_nonneg is_down) as Hdn. pose proof down_saw as Hds.
  destruct Hs as [n p1 p2 w ct o d k Hn|p1 p2 w ct o d k|n p1 p2 w ct ct' owner o d k Hnote Hlt|p1 p2 w ct o d k
    |s p1 p2 w ct o d k Hd|s s' claim p1 p2 ct o d k Hd Hlt|s p1 p2 w ct o d k Hne Hd|p1 p2 w ct o d k
    |p1 p2 w ct o d k|s s' ex p1 p2 ct o d k Hd|s p1 p2 w ct o d k Hne|p1 p2 w ct o d k|s p1 p2 w ct o d k Hc
    |s s' p1 p2 ct o d k Hc|s p1 p2 w ct o d k Hne Hc|p1 p2 w ct o d k Hi]; counts;
    pose proof (Hsaw p1); pose proof (Hsaw p2); pose proof (Hdn p1); pose proof (Hdn p2);
    pose proof (Hds p1); pose proof (Hds p2); clear Hsaw Hdn Hds.
  (* the steps that leave the word alone *)
  1,2,8,9,11: exists c, p, r; keep.
  - assert (0 < n <= K) as Hn by (apply Forall_app in H8 as [_ H8]; by apply Forall_cons in H8 as [? _]).
    destruct (noteMutations_crossing K n ct ct' owner) as [-> E]; [done|lia|lia|done|].
    rewrite <- H10 in E. exists c, p, r. destruct owner; keep.
  - assert (bool_decide (designate_word w = None) = c) as Eb by (rewrite H2; by apply designate_refused).
    exists c, p, r. split; [split|]; counts; rewrite ?Eb; finish.
  - rewrite bool_decide_eq_true_2 in H6 by done. exists c, p, r. keep.
  - rewrite bool_decide_eq_false_2 in H6 by congruence. rewrite H2, designate_word_spec in Hd by lia. destruct c; [done|]. injection Hd as <- <-.
    exists false, (p + 1), true. destruct r; cbn [negb]; keep.
  - destruct Hd as [s' Hd]. rewrite Hd in H6. exists c, p, r. keep.
  - assert (r = true) as -> by (destruct r; [done|]; pose proof (count_nonneg is_runner p1);
      pose proof (count_nonneg is_runner p2); simpl in *; lia).
    rewrite H2, drain_word_spec in Hd by (done || lia).
    destruct (Z.eqb_spec p 1); injection Hd as <- <-; [exists c, 0, false|exists c, (p - 1), true]; keep.
  - assert (bool_decide (closing_word w = None) = c) as Eb by (rewrite H2, closing_word_spec by done; by destruct c).
    exists c, p, r. split; [split|]; counts; rewrite ?Eb; finish.
  - rewrite bool_decide_eq_true_2 in H6 by done. exists c, p, r. keep.
  - rewrite H2, closing_word_spec in Hc by done. destruct c; [done|]. injection Hc as <-. exists true, p, r. keep.
  - destruct Hc as [s' Hc]. rewrite Hc in H6. exists c, p, r. keep.
  - rewrite H2, word_idle in Hi by done. apply andb_true_iff in Hi as [Hp%Z.eqb_eq Hr%negb_true_iff].
    exists c, p, r. keep.
Qed.

Lemma sched_inv K s : 0 < K → sched_reachable K s → ∃ c p r, sinv K s c p r.
Proof.
  intros HK Hr. assert (∃ c p r, sinv K sched_init c p r) as Hi by (eexists _, _, _; by apply sinv_init).
  revert Hi. induction Hr as [s|s1 s2 s3 Hs _ IH]; [done|]. intros (c & p & r & H).
  apply IH. destruct (sinv_step K _ _ _ _ _ HK Hs H) as (c' & p' & r' & H' & _). by exists c', p', r'.
Qed.

Lemma down_stays K s s' : rtc (ckpt_step K) s s' → count is_down (sc_threads s) <= count is_down (sc_threads s').
Proof.
  induction 1 as [|s1 s2 s3 Hs _ IH]; [done|]. etrans; [|exact IH]. clear IH.
  destruct Hs; cbn [sc_threads]; rewrite ?count_app, ?count_cons; cbn [is_down Z.b2z];
    repeat match goal with |- context [if ?b then _ else _] => destruct b end; rewrite ?count_cons; cbn [is_down Z.b2z];
    change (count is_down []) with 0; lia.
Qed.

(** C26. The checkpoint scheduler is exact under any interleaving of writers, the
    drain goroutine and Close, when one call counts between 1 and K mutations, the
    mutation counter stays below 2^64 and there are fewer than 2^62 designations:
    exactly one caller owns each multiple of K; at most one drain goroutine exists,
    and one does whenever the word is not idle, so no designation is stranded;
    checkpoints run never exceed the designations by more than the one being
    drained and equal them when the word is idle; until Close, every owner's
    designation is accepted, so that at rest exactly one checkpoint ran per multiple
    of K. *)
Theorem checkpoint_scheduler_exact (K : Z) (s : sched) :
  0 < K → sched_reachable K s →
  sc_owners s = sc_counter s / K ∧
  count is_runner (sc_threads s) = (if ckptIdle (sc_word s) then 0 else 1) ∧
  sc_runs s <= sc_designated s + count between_runs (sc_threads s) ∧
  sc_designated s <= sc_owners s ∧
  (ckptIdle (sc_word s) = true → sc_runs s = sc_designated s) ∧
  (Z.land (sc_word s) ckptClosingBit = 0 → ckptIdle (sc_word s) = true → count is_desig (sc_threads s) = 0 →
   sc_runs s = sc_counter s / K).
Proof.
  intros HK Hr. destruct (sched_inv K s HK Hr) as (c & p & r & [H1 H2 H3 H4 H5 H5' H6 H7 Hin Hac H8 H9 H10]).
  pose proof (count_nonneg is_desig (sc_threads s)). pose proof (between_runner (sc_threads s)) as Hbr.
  pose proof (count_nonneg between_runs (sc_threads s)).
  assert (r = false → p = 0) as Hp0.
  { intros ->. destruct (Z.lt_ge_cases 0 p) as [Hlt|]; [by apply H3 in Hlt|lia]. }
  assert (ckptIdle (sc_word s) = negb r) as Ei.
  { rewrite H2, word_idle by done. destruct r; simpl; [by rewrite andb_false_r|]. by rewrite Hp0. }
  assert (negb r = true → sc_runs s = sc_designated s) as Hrest.
  { intros ->%negb_true_iff. rewrite Hp0 in H5 by done. simpl in *. lia. }
  rewrite Ei. split_and!; [done|rewrite H4; by destruct r|lia|lia|done|].
  rewrite H2, word_land_closing by done. intros Hc Hi Hd. rewrite Hrest, <- H10, <- Hac by (done || by destruct c). lia.
Qed.

(** Teardown is safe: once a Close has passed its wait and tears down engine
    and log, no drain goroutine exists, and none will ever run again, whatever
    the writers and other closers still do. *)
Theorem close_drains_checkpoints (K : Z) (s s' : sched) :
  0 < K → sched_reachable K s → 0 < count is_down (sc_threads s) → rtc (ckpt_step K) s s' →
  count is_runner (sc_threads s') = 0 ∧ ckptIdle (sc_word s') = true ∧ sc_runs s' = sc_designated s'.
Proof.
  intros HK Hr Hd Hs. pose proof (down_stays K s s' Hs). assert (sched_reachable K s') as Hr' by (unfold sched_reachable in *; by etrans).
  destruct (sched_inv K s' HK Hr') as (c & p & r & [H1 H2 H3 H4 H5 H5' H6 H7 _ _ _ _ _]).
  rewrite H7 in * by lia. pose proof (between_runner (sc_threads s')) as Hbr.
  pose proof (count_nonneg between_runs (sc_threads s')). simpl in H4.
  assert (p = 0) as -> by (destruct (Z.lt_ge_cases 0 p) as [Hlt|]; [by apply H3 in Hlt|lia]).
  split_and!; [done|by rewrite H2, word_idle|lia].
Qed.

(** ** A run: two writers, then Close while the checkpoint is still running *)

Definition run_word : Z := word_of true 1 true.

Lemma sched_run :
  sched_reachable 2 (mkSched run_word 2 [TRun; TWait] 1 1 0) ∧
  sched_reachable 2 (mkSched (2 ^ 63) 2 [TDown] 1 1 1).
Proof.
  assert (sched_reachable 2 (mkSched run_word 2 [TRun; TWait] 1 1 0)) as H.
  { unfold sched_reachable, sched_init.
    eapply rtc_l; [apply (st_call 2 1 [] []); lia|].
    eapply rtc_l; [apply (st_note 2 1 [] [] 0 0 1 false); done|].
    eapply rtc_l; [apply (st_call 2 1 [] []); lia|].
    eapply rtc_l; [apply (st_note 2 1 [] [] 0 1 2 true); done|].
    eapply rtc_l; [apply (st_desig_load 2 [] [])|].
    eapply rtc_l; [apply (st_desig_cas 2 0 3 true [] []); [vm_compute; reflexivity|done]|].
    eapply rtc_l; [apply (st_close 2 [TRun] [])|].
    eapply rtc_l; [apply (st_close_load 2 [TRun] [])|].
    eapply rtc_l; [apply (st_close_cas 2 3 run_word [TRun] []); vm_compute; reflexivity|].
    apply rtc_refl. }
  split; [done|]. unfold sched_reachable in *. etrans; [exact H|].
  eapply rtc_l; [apply (st_run 2 [] [TWait])|].
  eapply rtc_l; [apply (st_drain_load 2 [] [TWait])|].
  eapply rtc_l; [apply (st_drain_cas 2 run_word (2 ^ 63) true [] [TWait]); vm_compute; reflexivity|].
  eapply rtc_l; [apply (st_idle 2 [] []); vm_compute; reflexivity|]. apply rtc_refl.
Qed.

(** The same two writers without Close: mid-run and at rest. *)
Definition sched_running : sched := mkSched 3 2 [TRun] 1 1 0.
Definition sched_rested : sched := mkSched 0 2 [] 1 1 1.

Lemma sched_run_to_rest : sched_reachable 2 sched_running ∧ rtc (ckpt_step 2) sched_running sched_rested.
Proof.
  split.
  - unfold sched_reachable, sched_init.
    eapply rtc_l; [apply (st_call 2 1 [] []); lia|].
    eapply rtc_l; [apply (st_note 2 1 [] [] 0 0 1 false); done|].
    eapply rtc_l; [apply (st_call 2 1 [] []); lia|].
    eapply rtc_l; [apply (st_note 2 1 [] [] 0 1 2 true); done|].
    eapply rtc_l; [apply (st_desig_load 2 [] [])|].
    eapply rtc_l; [apply (st_desig_cas 2 0 3 true [] []); [vm_compute; reflexivity|done]|]. apply rtc_refl.
  - eapply rtc_l; [apply (st_run 2 [] [])|].
    eapply rtc_l; [apply (st_drain_load 2 [] [])|].
    eapply rtc_l; [apply (st_drain_cas 2 3 0 true [] []); vm_compute; reflexivity|]. apply rtc_refl.
Qed.

Lemma checkpoint_scheduler_exact_witness :
  (sched_reachable 2 sched_running ∧
   count is_runner (sc_threads sched_running) = (if ckptIdle (sc_word sched_running) then 0 else 1)) ∧
  (sched_reachable 2 sched_rested ∧ sc_runs sched_rested = sc_counter sched_rested / 2).
Proof.
  destruct sched_run_to_rest as [H1 H2].
  assert (sched_reachable 2 sched_rested) as H3 by (unfold sched_reachable in *; by etrans).
  split; (split; [assumption|]).
  - destruct (checkpoint_scheduler_exact 2 sched_running) as (_ & H & _); [lia|assumption|exact H].
  - destruct (checkpoint_scheduler_exact 2 sched_rested) as (_ & _ & _ & _ & _ & H); [lia|assumption|].
    apply H; vm_compute; reflexivity.
Defined.

Lemma close_drains_checkpoints_witness : count is_runner [TDown; TNote 1] = 0.
Proof.
  destruct (close_drains_checkpoints 2 (mkSched (2 ^ 63) 2 [TDown] 1 1 1) (mkSched (2 ^ 63) 2 [TDown; TNote 1] 1 1 1))
    as (H & _); [lia|apply sched_run|done| |exact H].
  eapply rtc_l; [apply (st_call 2 1 [TDown] []); lia|]. apply rtc_refl.
Defined.
