(* ===== verification/Recovery.v ===== *)
(** Crash recovery (pkg/durability/recovery.go): RecoverEngineWithSnapshot
    rebuilds the engine from the write-ahead log and, when the log's final
    checkpoint has one that passes every check, the checkpoint image.  Log lines
    and the scratch directory carry no data of the state. *)
From S2P Require Import Prelude Bytes Sha256 Crc32c Dots Wal WalLog WalReplay Hamt HamtMap.
From S2P Require Import Lamport Sorting Engine EngineInv JoinSpec EngineThms Merkle Snapshot.
From S2P Require Import LocalFS.

(** SnapshotStore: what recovery asks of a store. *)
Record SnapshotStore := mkStore {
  st_Exists : Z → result SnapshotError bool;
  st_Load : Z → result SnapshotError SnapshotImage;
}.

(** LocalFS is one. *)
Definition localStore (root : path) (fs : FS) : SnapshotStore :=
  mkStore (SnapshotExists root fs) (LoadSnapshotImage root fs).

Definition replayChunkSize : nat := 2048.
Definition maxPlausibleCounter : Z := 2 ^ 60.

Inductive FallbackReason :=
| FBNone
| FBProbeFailed
| FBNoImage (lh : Z)
| FBLoadFailed (e : SnapshotError)
| FBWatermark (header key : Z)
| FBBinding
| FBNoCheckpoint
| FBPhantoms (n : Z).

Record RecoveryWitness := mkWitness {
  rw_FallbackReason : FallbackReason;
  rw_SnapshotLamportHigh : Z;
  rw_ReplayedRecords : Z;
  rw_Bounded : bool;
  rw_CheckpointSeq : Z;
  rw_LocalPhantomsRejected : Z;
  rw_ExactWALFallback : bool;
  rw_LegacyRecords : Z;
  rw_HolesRepaired : Z;
  rw_IntegrityChecksArmed : bool;
  rw_LegacyCheckpoint : bool;
  rw_PostTailRootArmed : bool;
  rw_SeqContiguityVerified : bool;
  rw_RecordsVerified : Z;
  rw_ClockHighClamped : bool;
  rw_ClockHighRaw : Z;
}.

Inductive RecoveryError :=
| RErrReplay (e : WALError)
| RErrEngine
| RErrReopen (e : WALError)
| ErrRecoveryRootMismatch
| ErrRecoveryFingerprintMismatch
| ErrRecoveryImageDuplicate (skipped : Z)
| RErrEmptyEntityID
| RErrZeroDot
| RErrForeignDot
| RErrImplausibleCounter
| RErrDotDisagrees
| RErrForeignOrigin
| RPanic (msg : string).

(** ** Records *)

Definition restoreEntry (m : WALMutation) (nodeID : list Z) : CRDTEntry :=
  if negb (wm_Legacy m) then wm_Full m
  else mkEntry (we_PayloadDigest (wm_Entry m)) nodeID (wm_NodeID m) (wm_Counter m)
         (we_SystemTime (wm_Entry m)) 0 0 0 0 0.

(** Some: the error. *)
Definition checkMutationRecord (m : WALMutation) (nodeID : list Z) : option RecoveryError :=
  if String.eqb (wm_EntityID m) "" then Some RErrEmptyEntityID
  else if bool_decide (wm_NodeID m = replicate 16 0) || (wm_Counter m =? 0) then Some RErrZeroDot
  else if negb (bool_decide (wm_NodeID m = nodeID)) then Some RErrForeignDot
  else if maxPlausibleCounter <? wm_Counter m then Some RErrImplausibleCounter
  else if negb (wm_Legacy m) then
    if negb (bool_decide (DotNodeID (wm_Full m) = wm_NodeID m) && (DotCounter (wm_Full m) =? wm_Counter m))
    then Some RErrDotDisagrees
    else if negb (bool_decide (OriginNodeID (wm_Full m) = nodeID)) then Some RErrForeignOrigin
    else None
  else None.

Definition mutation_dot (m : WALMutation) : CausalDot := mkDot (wm_NodeID m) (wm_Counter m).

(** ** Choosing the image *)

Record imageChoice := mkChoice {
  ic_image : option SnapshotImage;
  ic_high : Z;
  ic_reason : FallbackReason;
  ic_exact : bool;
  ic_phantoms : Z;
}.

(** The probe, the load and the binding to the anchor. *)
Definition loadImage (rep : Replayed) (store : option SnapshotStore) : imageChoice :=
  match store with
  | None => mkChoice None 0 FBNone false 0
  | Some st =>
      if negb (rp_HasCheckpoint rep) then mkChoice None 0 FBNoCheckpoint false 0
      else
        let lh := wc_LamportHigh (rp_FinalCheckpt rep) in
        match st_Exists st lh with
        | Err _ => mkChoice None 0 FBProbeFailed true 0
        | Ok false => mkChoice None 0 (FBNoImage lh) true 0
        | Ok true =>
            match st_Load st lh with
            | Err e => mkChoice None 0 (FBLoadFailed e) true 0
            | Ok img =>
                if negb (im_LamportHigh img =? lh)
                then mkChoice None (im_LamportHigh img) (FBWatermark (im_LamportHigh img) lh) true 0
                else if wc_HasCutSeq (rp_FinalCheckpt rep) &&
                        (negb (im_CutSeq img =? wc_CutSeq (rp_FinalCheckpt rep)) ||
                         negb (bool_decide (im_MerkleRoot img = wc_MerkleRoot (rp_FinalCheckpt rep))))
                then mkChoice None (im_LamportHigh img) FBBinding true 0
                else mkChoice (Some img) (im_LamportHigh img) FBNone false 0
            end
        end
  end.

(** Local dots of the image that the log does not have. *)
Definition count_phantoms (nodeID : list Z) (muts : list WALMutation) (records : list SnapshotRecord) : Z :=
  let localDots := list_to_set (C:=gset CausalDot) (map mutation_dot muts) in
  Z.of_nat (length (filter (λ r : SnapshotRecord, DotNodeID r.2 = nodeID ∧ Dot r.2 ∉ localDots) records)).

Definition rejectPhantoms (nodeID : list Z) (rep : Replayed) (c : imageChoice) : imageChoice :=
  match ic_image c with
  | None => c
  | Some img =>
      let phantoms := count_phantoms nodeID (rp_Mutations rep) (im_Records img) in
      if 0 <? phantoms then mkChoice None (ic_high c) (FBPhantoms phantoms) true phantoms else c
  end.

Definition chooseImage (nodeID : list Z) (rep : Replayed) (store : option SnapshotStore) : imageChoice :=
  rejectPhantoms nodeID rep (loadImage rep store).

Definition rebuiltInitial (rep : Replayed) : Z :=
  if rp_HasCheckpoint rep && (rp_LamportHigh rep <? wc_ClockHigh (rp_FinalCheckpt rep))
  then wc_ClockHigh (rp_FinalCheckpt rep) else rp_LamportHigh rep.

(** The first sequence number the image does not cover. *)
Definition cutFrom (rep : Replayed) : Z :=
  if rp_HasCheckpoint rep && wc_HasCutSeq (rp_FinalCheckpt rep)
  then wc_CutSeq (rp_FinalCheckpt rep) else rp_FinalCheckptSeq rep +ₒ 1.

Definition is_mutation (rec : WALRecord) : bool :=
  (wr_Type rec =? WALRecMutation) || (wr_Type rec =? WALRecMutationV2).

Section Recovery.
Context `{MH : MapHash} `{SS : SliceSort}.

(** ** Rebuilding *)

Definition of_outcome {A} (o : outcome A) : result RecoveryError A :=
  match o with Ret a => Ok a | Panic m => Err (RPanic m) end.

Definition flushChunk (chunk : list SnapshotRecord) (e : Engine) : result RecoveryError Engine :=
  match chunk with [] => Ok e | _ => of_outcome (Join (snapshotDelta chunk) e) end.

Definition advance (to : Z) (e : Engine) : Engine := with_clk (AdvanceLamportTo to (clk e)) e.

(** The locals of the replay loops: engine, pending chunk, records applied and
    legacy records among them. *)
Record replayState := mkReplay {
  rs_engine : Engine;
  rs_chunk : list SnapshotRecord;
  rs_applied : Z;
  rs_legacy : Z;
}.

(** Append a checked mutation to the chunk, flush a full one. *)
Definition applyMutation (nodeID : list Z) (m : WALMutation) (s : replayState) : result RecoveryError replayState :=
  match checkMutationRecord m nodeID with
  | Some err => Err err
  | None =>
      let legacy := if wm_Legacy m then rs_legacy s + 1 else rs_legacy s in
      let chunk := rs_chunk s ++ [(wm_EntityID m, restoreEntry m nodeID)] in
      if (replayChunkSize <=? length chunk)%nat
      then e ← flushChunk chunk (rs_engine s); Ok (mkReplay e [] (rs_applied s + 1) legacy)
      else Ok (mkReplay (rs_engine s) chunk (rs_applied s + 1) legacy)
  end.

(** The tail; [cut] is [Some cutFrom] under a snapshot. *)
Fixpoint replayTail (nodeID : list Z) (cut : option Z) (ordered : list WALRecord) (s : replayState) :
    result RecoveryError replayState :=
  match ordered with
  | [] => Ok s
  | rec :: ordered' =>
      if match cut with Some c => wr_Seq rec <? c | None => false end then replayTail nodeID cut ordered' s
      else match wr_Mutation rec with
      | Some m =>
          if is_mutation rec then s' ← applyMutation nodeID m s; replayTail nodeID cut ordered' s'
          else replayTail nodeID cut ordered' s
      | None =>
          if wr_Type rec =? WALRecClockAdvance
          then replayTail nodeID cut ordered'
                 (mkReplay (advance (wr_Advance rec) (rs_engine s)) (rs_chunk s) (rs_applied s + 1) (rs_legacy s))
          else replayTail nodeID cut ordered' s
      end
  end.

(** Durable mutations below the cut that the image lacks. *)
Fixpoint repairHoles (nodeID : list Z) (cut : Z) (inImage : gset CausalDot) (ordered : list WALRecord)
    (s : replayState) : result RecoveryError replayState :=
  match ordered with
  | [] => Ok s
  | rec :: ordered' =>
      match wr_Mutation rec with
      | Some m =>
          if negb (is_mutation rec) || (cut <=? wr_Seq rec) || bool_decide (mutation_dot m ∈ inImage)
          then repairHoles nodeID cut inImage ordered' s
          else s' ← applyMutation nodeID m s; repairHoles nodeID cut inImage ordered' s'
      | None => repairHoles nodeID cut inImage ordered' s
      end
  end.

(** The image's Join and the pre-tail checks. *)
Definition joinImage (rep : Replayed) (img : SnapshotImage) (e : Engine) : result RecoveryError Engine :=
  e ← of_outcome (Join (snapshotDelta (im_Records img)) e);
  if negb (entriesSkipped e =? 0) then Err (ErrRecoveryImageDuplicate (entriesSkipped e))
  else if wc_HasFingerprint (rp_FinalCheckpt rep) then
    if negb (bool_decide (MerkleRootFromShards e = wc_MerkleRoot (rp_FinalCheckpt rep)))
    then Err ErrRecoveryRootMismatch
    else if negb (bool_decide (StateFingerprint e = wc_Fingerprint (rp_FinalCheckpt rep)))
    then Err ErrRecoveryFingerprintMismatch
    else Ok e
  else Ok e.

(** The environment: the seeds of the new engine, whether it could be made, and
    the outcomes of opening the log. *)
Record recoverEnv := mkEnv {
  env_rseed : Z;
  env_seeds : nat → Z;
  env_engine_ok : bool;
  env_open : open_io;
}.

Definition newEngineAt (env : recoverEnv) (nodeID : list Z) (initialCounter : Z) : result RecoveryError Engine :=
  if env_engine_ok env then Ok (NewDeltaCRDTEngine nodeID initialCounter None (env_rseed env) (env_seeds env))
  else Err RErrEngine.

Definition reopen (env : recoverEnv) (f : File) : result RecoveryError (File * WAL) :=
  match OpenWAL (env_open env) f with (f', Ok w) => Ok (f', w) | (_, Err e) => Err (RErrReopen e) end.

Definition coldBoot (env : recoverEnv) (nodeID : list Z) : result RecoveryError (Engine * File * WAL * Replayed) :=
  e ← newEngineAt env nodeID 1;
  '(f, w) ← reopen env (mkFile [] 0);
  Ok (e, f, w, emptyReplayed).

(** The part between the replay of the log and its reopening. *)
Definition rebuild (env : recoverEnv) (nodeID : list Z) (rep : Replayed) (c : imageChoice) :
    result RecoveryError (Engine * Z * Z * Z) :=
  e ← newEngineAt env nodeID (rebuiltInitial rep);
  e ← match ic_image c with Some img => joinImage rep img e | None => Ok e end;
  let cut := match ic_image c with Some _ => Some (cutFrom rep) | None => None end in
  s ← replayTail nodeID cut (rp_Ordered rep) (mkReplay e [] 0 0);
  e ← flushChunk (rs_chunk s) (rs_engine s);
  '(e, holes) ←
    match ic_image c with
    | Some img =>
        let inImage := list_to_set (C:=gset CausalDot) (map (λ r : SnapshotRecord, Dot r.2) (im_Records img)) in
        h ← repairHoles nodeID (cutFrom rep) inImage (rp_Ordered rep) (mkReplay e [] 0 0);
        e ← flushChunk (rs_chunk h) (rs_engine h); Ok (e, rs_applied h)
    | None => Ok (e, 0)
    end;
  Ok (advance (rebuiltInitial rep) e, rs_applied s, rs_legacy s, holes).

(** No mutation at or after the cut. *)
Definition checkpointFinal (rep : Replayed) : bool :=
  forallb (λ rec, negb (is_mutation rec && (cutFrom rep <=? wr_Seq rec))) (rp_Ordered rep).

(** [file] is None when there is no log at the path. *)
Definition RecoverEngineWithSnapshot (env : recoverEnv) (nodeID : list Z) (file : option File)
    (store : option SnapshotStore) : result RecoveryError (Engine * File * WAL * Replayed * RecoveryWitness) :=
  match file with
  | None =>
      '(e, f, w, rep) ← coldBoot env nodeID;
      Ok (e, f, w, rep, mkWitness FBNone 0 0 false 0 0 false 0 0 false false false false 0 false 0)
  | Some f =>
      match ReplayWAL (fdata f) with
      | Err err => Err (RErrReplay err)
      | Ok rep =>
          let c := chooseImage nodeID rep store in
          let useSnapshot := bool_decide (is_Some (ic_image c)) in
          '(e, replayed, legacy, holes) ← rebuild env nodeID rep c;
          '(f', w) ← reopen env f;
          let postTailArmed := rp_HasCheckpoint rep && checkpointFinal rep && useSnapshot &&
                               (ic_phantoms c =? 0) && (holes =? 0) in
          if postTailArmed && negb (bool_decide (MerkleRootFromShards e = wc_MerkleRoot (rp_FinalCheckpt rep)))
          then Err ErrRecoveryRootMismatch
          else
            Ok (e, f', w, rep,
                mkWitness (ic_reason c) (ic_high c) replayed useSnapshot (rp_FinalCheckptSeq rep) (ic_phantoms c)
                  (ic_exact c) legacy holes (useSnapshot && wc_HasFingerprint (rp_FinalCheckpt rep))
                  (rp_LegacyCheckpoint rep) postTailArmed (rp_SeqContiguityVerified rep) (rp_RecordsVerified rep)
                  (rp_ClockHighClamped rep) (rp_ClockHighRaw rep))
      end
  end.

Definition RecoverEngine (env : recoverEnv) (nodeID : list Z) (file : option File) :
    result RecoveryError (Engine * File * WAL * Replayed) :=
  '(e, f, w, rep, _) ← RecoverEngineWithSnapshot env nodeID file None; Ok (e, f, w, rep).
End Recovery.
