(* ===== verification/RecoveryThms.v ===== *)
(** What crash recovery rebuilds: when RecoverEngineWithSnapshot returns an
    engine, it holds exactly the chosen image's records and every mutation of the
    log; it does return one when no image is used; and the image of an honest
    checkpoint passes every check. *)
From S2P Require Import Prelude Bytes Sha256 Crc32c Dots Wal WalLog WalReplay WalDurable Hamt.
From S2P Require Import HamtMap Lamport Sorting Engine EngineInv JoinSpec EngineThms Merkle.
From S2P Require Import Snapshot LocalFS Recovery.

(** Every dot names one entity and one entry. *)
Definition owns (G : CausalDot → SnapshotRecord) (R : list SnapshotRecord) : Prop :=
  ∀ r, r ∈ R → G (Dot r.2) = r.

Lemma owns_agrees G R : owns G R → delta_agrees (λ _ d, (G d).2) R.
Proof. intros H k e Hin. specialize (H (k, e) Hin). simpl in *. by rewrite H. Qed.

Lemma owns_app G R1 R2 : owns G (R1 ++ R2) ↔ owns G R1 ∧ owns G R2.
Proof. unfold owns. setoid_rewrite elem_of_app. naive_solver. Qed.

Definition u64_dots (R : list SnapshotRecord) : Prop := Forall (λ r, is_u64 (DotCounter r.2)) R.

(** The record a log mutation is applied as. *)
Definition restored (nodeID : list Z) (m : WALMutation) : SnapshotRecord := (wm_EntityID m, restoreEntry m nodeID).

(** What the tail loop and the hole loop apply. *)
Definition tail_mutation (cut : option Z) (rec : WALRecord) : option WALMutation :=
  if match cut with Some c => wr_Seq rec <? c | None => false end then None
  else if is_mutation rec then wr_Mutation rec else None.
Definition hole_mutation (cut : Z) (inImage : gset CausalDot) (rec : WALRecord) : option WALMutation :=
  match wr_Mutation rec with
  | Some m => if negb (is_mutation rec) || (cut <=? wr_Seq rec) || bool_decide (mutation_dot m ∈ inImage)
              then None else Some m
  | None => None
  end.

Lemma omap_cons_match {A B} (f : A → option B) x l :
  omap f (x :: l) = match f x with Some y => y :: omap f l | None => omap f l end.
Proof. done. Qed.

Lemma if_same {A} (b : bool) (x : A) : (if b then x else x) = x.
Proof. by destruct b. Qed.

Section Rebuild.
Context `{MH : MapHash} `{SS : SliceSort}.
Context (G : CausalDot → SnapshotRecord) (nodeID : list Z) (low : Z).

(** ** The engine during recovery *)

(** [e] holds exactly [R], and its clock has not fallen below [low]. *)
Record joined (R : list SnapshotRecord) (e : Engine) : Prop := {
  jd_wf : wf_engine e;
  jd_open : closing e = false;
  jd_dom : dominates e;
  jd_low : low <= lamportCounter (clk e);
  jd_node : localNodeID e = nodeID;
  jd_get : ∀ k x, x ∈ PointGet e k ↔ (k, x) ∈ R;
}.

Lemma joined_join R D e :
  joined R e → owns G (R ++ D) → u64_dots D → ∃ e', Join (Some D) e = Ret e' ∧ joined (R ++ D) e'.
Proof.
  intros [Hwf Hcl Hd Hlow Hnode Hg] Ho Hu. pose proof (owns_agrees _ _ Ho) as Hag.
  apply owns_app in Ho as [HoR HoD]. pose proof (owns_agrees _ _ HoD) as HagD.
  destruct (join_view _ D e Hwf Hcl Hu HagD) as (e' & Hj & Hwf' & Hcl' & Hck & Hv).
  exists e'. split; [done|].
  assert (wf_engine e' ∧ dominates e') as [_ Hd'] by by eapply step_join_inv.
  destruct (join_ret D e Hwf Hcl Hu) as (e'' & _ & _ & Hj' & _ & _ & _ & _ & Hn' & _).
  rewrite Hj in Hj'. injection Hj' as <-.
  split; [done|done|done| |congruence|].
  - rewrite Hck, receive_entries_max.
    pose proof (proj1 (foldr_max_ge (map (λ ie, DotCounter ie.2) D) (lamportCounter (clk e)))). lia.
  - intros k x. rewrite elem_of_app, <- Hg.
    assert (x ∈ PointGet e' k ↔ view e' k !! Dot x = Some x) as ->.
    { rewrite view_lookup by done. tauto. }
    rewrite Hv, lookup_union_Some_raw, view_lookup, (delta_view_lookup _ _ _ _ _ HagD) by done. split; [tauto|].
    intros [Hx|Hx]; [tauto|]. destruct (view e k !! Dot x) as [y|] eqn:E; [left|tauto].
    apply view_lookup in E as [Hy Hyd]; [|done].
    assert (x = y) as <-; [|by split]. apply Hg in Hy.
    rewrite (Hag k x), (Hag k y) by (apply elem_of_app; tauto). by rewrite Hyd.
Qed.

Lemma joined_advance R e t : is_u64 t → joined R e → joined R (advance t e).
Proof.
  intros Ht [[Hok Hc] Hcl Hd Hlow Hnode Hg].
  assert (lamportCounter (clk (advance t e)) = Z.max (lamportCounter (clk e)) t) as E
    by apply AdvanceLamportTo_max.
  split; [| |intros k x Hx| | |exact Hg]; [|done| | |done].
  - split; [done|]. simpl. auto with sovereign.
  - rewrite E. specialize (Hd k x Hx). lia.
  - rewrite E. lia.
Qed.

(** ** Chunks *)

(** [R] is in the engine but for the pending chunk. *)
Definition tracked (R : list SnapshotRecord) (s : replayState) : Prop :=
  ∃ R', joined R' (rs_engine s) ∧ R = R' ++ rs_chunk s.

Lemma tracked_start R e : joined R e → tracked R (mkReplay e [] 0 0).
Proof. intros H. exists R. by rewrite app_nil_r. Qed.

Lemma flushChunk_joined R C e :
  joined R e → owns G (R ++ C) → u64_dots C → ∃ e', flushChunk C e = Ok e' ∧ joined (R ++ C) e'.
Proof.
  intros Hj Ho Hu. destruct C as [|r C]; [exists e; by rewrite app_nil_r|].
  destruct (joined_join R (r :: C) e Hj Ho Hu) as (e' & He & Hj'). exists e'. split; [|done].
  unfold flushChunk, snapshotDelta. by rewrite He.
Qed.

Lemma tracked_flush R s :
  tracked R s → owns G R → u64_dots R → ∃ e, flushChunk (rs_chunk s) (rs_engine s) = Ok e ∧ joined R e.
Proof.
  intros (R' & Hj & ->) Ho Hu. apply Forall_app in Hu as [_ Hu]. by apply flushChunk_joined.
Qed.

Lemma applyMutation_tracked R m s :
  tracked R s → owns G (R ++ [restored nodeID m]) → u64_dots (R ++ [restored nodeID m]) →
  match applyMutation nodeID m s with
  | Ok s' => checkMutationRecord m nodeID = None ∧ tracked (R ++ [restored nodeID m]) s'
  | Err e => checkMutationRecord m nodeID = Some e
  end.
Proof.
  intros (R' & Hj & ->) Ho Hu. unfold applyMutation. destruct (checkMutationRecord m nodeID) as [e|]; [done|].
  set (r := restored nodeID m) in *. fold r. rewrite <- (assoc_L (++)) in Ho, Hu |- *.
  change [(wm_EntityID m, restoreEntry m nodeID)] with [r].
  destruct (_ <=? _)%nat.
  - apply Forall_app in Hu as [_ Hu]. destruct (flushChunk_joined R' _ _ Hj Ho Hu) as (e & -> & Hj').
    cbn [mbind result_bind]. split; [done|]. exists (R' ++ rs_chunk s ++ [r]). simpl. by rewrite app_nil_r.
  - split; [done|]. by exists R'.
Qed.

(** Applying one mutation and then the rest. *)
Lemma apply_step m ms R s (k : replayState → result RecoveryError replayState) :
  (∀ R s, tracked R s → owns G (R ++ map (restored nodeID) ms) → u64_dots (R ++ map (restored nodeID) ms) →
     match k s with
     | Ok s' => Forall (λ m, checkMutationRecord m nodeID = None) ms ∧ tracked (R ++ map (restored nodeID) ms) s'
     | Err e => Exists (λ m, checkMutationRecord m nodeID = Some e) ms
     end) →
  tracked R s → owns G (R ++ map (restored nodeID) (m :: ms)) → u64_dots (R ++ map (restored nodeID) (m :: ms)) →
  match s' ← applyMutation nodeID m s; k s' with
  | Ok s' => Forall (λ m, checkMutationRecord m nodeID = None) (m :: ms) ∧
             tracked (R ++ map (restored nodeID) (m :: ms)) s'
  | Err e => Exists (λ m, checkMutationRecord m nodeID = Some e) (m :: ms)
  end.
Proof.
  intros IH Ht Ho Hu. cbn [map] in *. rewrite cons_middle, (assoc_L (++)) in Ho, Hu |- *.
  assert (owns G (R ++ [restored nodeID m])) as Ho1 by by apply owns_app in Ho as [? _].
  assert (u64_dots (R ++ [restored nodeID m])) as Hu1 by by apply Forall_app in Hu as [? _].
  pose proof (applyMutation_tracked R m s Ht Ho1 Hu1) as H.
  destruct (applyMutation nodeID m s) as [s'|e]; cbn [mbind result_bind]; [|by left].
  destruct H as [Hc Ht']. specialize (IH _ _ Ht' Ho Hu). destruct (k s'); [|by right].
  split; [by constructor; [|apply IH]|apply IH].
Qed.

Lemma replayTail_tracked cut ordered R s :
  let ms := omap (tail_mutation cut) ordered in
  tracked R s → owns G (R ++ map (restored nodeID) ms) → u64_dots (R ++ map (restored nodeID) ms) →
  Forall (λ rec, is_u64 (wr_Advance rec)) ordered →
  match replayTail nodeID cut ordered s with
  | Ok s' => Forall (λ m, checkMutationRecord m nodeID = None) ms ∧ tracked (R ++ map (restored nodeID) ms) s'
  | Err e => Exists (λ m, checkMutationRecord m nodeID = Some e) ms
  end.
Proof.
  cbv zeta. intros Ht Ho Hu Hadv. revert R s Ht Ho Hu.
  induction Hadv as [|rec ordered Ha _ IH]; intros R s Ht Ho Hu.
  { simpl. rewrite app_nil_r. split; [constructor|done]. }
  rewrite omap_cons_match in Ho, Hu |- *. cbn [replayTail].
  set (ms := omap _ ordered) in *. clearbody ms. unfold tail_mutation in Ho, Hu |- *.
  destruct (match cut with Some _ => _ | None => _ end); [by apply IH|].
  destruct (wr_Mutation rec) as [m|].
  - destruct (is_mutation rec); [|by apply IH]. by apply apply_step.
  - rewrite if_same in Ho, Hu |- *. destruct (wr_Type rec =? WALRecClockAdvance); [|by apply IH].
    apply IH; [|done|done]. destruct Ht as (R' & Hj & ->). exists R'. split; [by apply joined_advance|done].
Qed.

Lemma repairHoles_tracked cut inImage ordered R s :
  let ms := omap (hole_mutation cut inImage) ordered in
  tracked R s → owns G (R ++ map (restored nodeID) ms) → u64_dots (R ++ map (restored nodeID) ms) →
  match repairHoles nodeID cut inImage ordered s with
  | Ok s' => Forall (λ m, checkMutationRecord m nodeID = None) ms ∧ tracked (R ++ map (restored nodeID) ms) s'
  | Err e => Exists (λ m, checkMutationRecord m nodeID = Some e) ms
  end.
Proof.
  cbv zeta. revert R s. induction ordered as [|rec ordered IH]; intros R s Ht Ho Hu.
  { simpl. rewrite app_nil_r. split; [constructor|done]. }
  rewrite omap_cons_match in Ho, Hu |- *. cbn [repairHoles].
  set (ms := omap _ ordered) in *. clearbody ms. unfold hole_mutation in Ho, Hu |- *.
  destruct (wr_Mutation rec) as [m|]; [|by apply IH].
  destruct (_ || _); [by apply IH|]. by apply apply_step.
Qed.

(** Each mutation applied is counted. *)
Lemma applyMutation_applied m s s' : applyMutation nodeID m s = Ok s' → rs_applied s' = rs_applied s + 1.
Proof.
  unfold applyMutation. destruct (checkMutationRecord m nodeID); [done|]. destruct (_ <=? _)%nat.
  - destruct (flushChunk _ _); simpl; [by intros [= <-]|done].
  - by intros [= <-].
Qed.

Lemma repairHoles_applied cut inImage ordered s s' :
  repairHoles nodeID cut inImage ordered s = Ok s' →
  rs_applied s' = rs_applied s + Z.of_nat (length (omap (hole_mutation cut inImage) ordered)).
Proof.
  revert s. induction ordered as [|rec ordered IH]; intros s; [intros [= <-]; simpl; lia|].
  rewrite omap_cons_match. cbn [repairHoles]. unfold hole_mutation at 1.
  destruct (wr_Mutation rec) as [m|]; [|apply IH]. destruct (_ || _); [apply IH|].
  destruct (applyMutation nodeID m s) as [s1|] eqn:E; simpl; [|done].
  intros H%IH. apply applyMutation_applied in E. rewrite H, E. lia.
Qed.
End Rebuild.

(** ** The log's records *)

Lemma elem_of_log_ordered l rec :
  rec ∈ log_ordered l → ∃ i x, l !! i = Some x ∧ rec_ordered i x.2 = Some rec.
Proof.
  unfold log_ordered. intros (o & Ho & E)%list_elem_of_omap. simpl in E. subst o.
  apply list_elem_of_lookup in Ho as [i Hi]. rewrite list_lookup_imap in Hi.
  apply fmap_Some in Hi as (x & Hx & E). by exists i, x.
Qed.

Lemma tail_all l : omap (tail_mutation None) (log_ordered l) = log_mutations l.
Proof.
  induction l as [|x l IH] using rev_ind; [done|].
  rewrite log_ordered_snoc, log_mutations_snoc, omap_app, IH. f_equal. by destruct x as [b [m|m|c|t]].
Qed.

Lemma elem_of_log_mutations l m :
  m ∈ log_mutations l ↔ ∃ rec, rec ∈ log_ordered l ∧ is_mutation rec = true ∧ wr_Mutation rec = Some m.
Proof.
  rewrite <- tail_all, list_elem_of_omap. split; intros (rec & Hin & H); exists rec; (split; [done|]).
  - unfold tail_mutation in H. by destruct (is_mutation rec).
  - unfold tail_mutation. by destruct H as [-> ->].
Qed.

Lemma log_rec_mutation l m :
  sized_log l → m ∈ log_mutations l → ∃ m0, sized_mutation m0 ∧ (m = readV2 m0 ∨ m = readV1 m0).
Proof.
  intros Hl. unfold log_mutations. intros ([b r] & Hin & E)%list_elem_of_omap.
  unfold sized_log in Hl. rewrite Forall_forall in Hl. specialize (Hl _ Hin). simpl in *.
  destruct r as [m0|m0|c|t]; simplify_eq/=; eauto.
Qed.

Lemma log_records_u64 nodeID l : sized_log l → u64_dots (map (restored nodeID) (log_mutations l)).
Proof.
  intros Hl. apply Forall_fmap, Forall_forall. intros m (m0 & Hm & [-> | ->])%(log_rec_mutation _ _ Hl); simpl.
  - destruct Hm as ((_ & _ & ? & _) & _). done.
  - destruct Hm as (_ & _ & _ & ? & _). done.
Qed.

Lemma log_advances_u64 l : sized_log l → Forall (λ rec, is_u64 (wr_Advance rec)) (log_ordered l).
Proof.
  intros Hl. apply Forall_forall. intros rec (i & [b r] & Hi & E)%elem_of_log_ordered.
  apply list_elem_of_lookup_2 in Hi. unfold sized_log in Hl. rewrite Forall_forall in Hl. specialize (Hl _ Hi).
  destruct r; simplify_eq/=; done.
Qed.

Lemma rec_high_u64 r : sized_rec r → is_u64 (rec_high r).
Proof. destruct r as [m|m|c|t]; simpl; [by intros (_&_&_&?&_)..|by intros (_&_&?&_)|done]. Qed.

Lemma log_high_u64 l : sized_log l → is_u64 (log_high l).
Proof.
  induction l as [|x l IH] using rev_ind; intros H; [done|]. apply Forall_app in H as [H Hx].
  inversion_clear Hx. rewrite log_high_snoc. specialize (IH H). pose proof (rec_high_u64 x.2 ltac:(done)).
  unfold is_u64 in *. lia.
Qed.

Lemma rebuiltInitial_u64 l rep : sized_log l → replays l rep → is_u64 (rebuiltInitial rep).
Proof.
  intros Hl [_ _ _ Hh _ _ Hc]. unfold rebuiltInitial. rewrite Hh. pose proof (log_high_u64 l Hl).
  unfold final_checkpoint in Hc. destruct (rp_HasCheckpoint rep); simpl; [|done].
  destruct (_ <? _); [|done]. destruct Hc as (i & b & c & Hi & _ & _ & -> & _). simpl.
  destruct (_ <? _); [by apply log_high_u64, Forall_take|].
  apply list_elem_of_lookup_2 in Hi. unfold sized_log in Hl. rewrite Forall_forall in Hl. specialize (Hl _ Hi).
  destruct Hl as (_ & _ & _ & _ & ?). unfold readCheckpoint. by destruct (wc_HasCutSeq c).
Qed.

(** The dot of a record is the one its entry carries; AppendMutation refuses any
    other, and an old-format entry is rebuilt from it. *)
Definition dots_consistent (nodeID : list Z) (ms : list WALMutation) : Prop :=
  Forall (λ m, Dot (restoreEntry m nodeID) = mutation_dot m) ms.

Lemma checked_consistent m nodeID :
  checkMutationRecord m nodeID = None → Dot (restoreEntry m nodeID) = mutation_dot m.
Proof.
  unfold checkMutationRecord, restoreEntry, mutation_dot, Dot. intros H.
  destruct (String.eqb _ _); [done|]. destruct (_ || _); [done|]. destruct (negb (bool_decide (_ = nodeID))); [done|].
  destruct (_ <? _); [done|]. destruct (negb (wm_Legacy m)); [|done].
  destruct (negb (_ && _)) eqn:E; [done|]. apply negb_false_iff, andb_true_iff in E as [E1 E2].
  apply bool_decide_eq_true in E1. apply Z.eqb_eq in E2. by rewrite E1, E2.
Qed.

Definition image_records (c : imageChoice) : list SnapshotRecord :=
  match ic_image c with Some img => im_Records img | None => [] end.

Lemma tail_mutation_log l cut m : m ∈ omap (tail_mutation cut) (log_ordered l) → m ∈ log_mutations l.
Proof.
  intros (rec & Hin & H)%list_elem_of_omap. apply elem_of_log_mutations. exists rec. split; [done|].
  unfold tail_mutation in H. destruct (match cut with Some _ => _ | None => _ end); [done|].
  by destruct (is_mutation rec).
Qed.

Lemma hole_mutation_log l cut D m : m ∈ omap (hole_mutation cut D) (log_ordered l) → m ∈ log_mutations l.
Proof.
  intros (rec & Hin & H)%list_elem_of_omap. apply elem_of_log_mutations. exists rec. split; [done|].
  unfold hole_mutation in H. destruct (wr_Mutation rec); [|done].
  destruct (is_mutation rec); [|done]. by destruct (_ || _); simplify_eq.
Qed.

(** Tail, holes and image make up the log. *)
Lemma tail_or_hole l cut D m :
  m ∈ log_mutations l →
  m ∈ omap (tail_mutation (Some cut)) (log_ordered l) ∨ m ∈ omap (hole_mutation cut D) (log_ordered l) ∨
  mutation_dot m ∈ D.
Proof.
  intros (rec & Hin & Hm & E)%elem_of_log_mutations.
  destruct (decide (mutation_dot m ∈ D)) as [|HD]; [tauto|]. rewrite !list_elem_of_omap.
  destruct (Z.ltb_spec (wr_Seq rec) cut).
  - right. left. exists rec. split; [done|]. unfold hole_mutation. rewrite E, Hm.
    rewrite (proj2 (Z.leb_gt _ _)) by done. by rewrite bool_decide_eq_false_2.
  - left. exists rec. split; [done|]. unfold tail_mutation. rewrite (proj2 (Z.ltb_ge _ _)) by lia. by rewrite Hm.
Qed.

Section Recovered.
Context `{MH : MapHash} `{SS : SliceSort}.
Context (G : CausalDot → SnapshotRecord) (nodeID : list Z).

Lemma new_joined low env :
  is_u64 low → env_engine_ok env = true →
  ∃ e, newEngineAt env nodeID low = Ok e ∧ joined nodeID low [] e ∧ entriesSkipped e = 0.
Proof.
  intros Hl Ho. unfold newEngineAt. rewrite Ho. eexists. split; [done|]. split; [|done].
  split; [by apply wf_NewDeltaCRDTEngine|done|intros k x Hx| |done|intros k x].
  - rewrite PointGet_new in Hx. by apply elem_of_nil in Hx.
  - simpl. lia.
  - by rewrite PointGet_new, !elem_of_nil.
Qed.

Lemma joinImage_ok rep img e e' :
  joinImage rep img e = Ok e' → Join (Some (im_Records img)) e = Ret e'.
Proof.
  unfold joinImage, snapshotDelta. destruct (Join _ e) as [e1|]; [|done]. simpl.
  destruct (negb _); [done|]. destruct (wc_HasFingerprint _); [|congruence].
  destruct (negb _); [done|]. destruct (negb _); [done|congruence].
Qed.

(** The image's join, when there is one. *)
Lemma image_step c rep e low :
  joined nodeID low [] e → owns G (image_records c) → u64_dots (image_records c) →
  match (match ic_image c with Some img => joinImage rep img e | None => Ok e end) with
  | Ok e' => joined nodeID low (image_records c) e'
  | Err err => ∃ img, ic_image c = Some img ∧ joinImage rep img e = Err err
  end.
Proof.
  unfold image_records. intros Hj Ho Hu. destruct (ic_image c) as [img|]; [|done].
  destruct (joinImage rep img e) as [e'|err] eqn:E; [|by exists img].
  apply joinImage_ok in E. destruct (joined_join G nodeID low [] (im_Records img) e Hj Ho Hu) as (e'' & E' & Hj').
  rewrite E in E'. by injection E' as <-.
Qed.

(** Why a rebuild fails. *)
Definition rebuild_failure (env : recoverEnv) (l : list frec) (rep : Replayed) (c : imageChoice) (err : RecoveryError) : Prop :=
  (env_engine_ok env = false ∧ err = RErrEngine) ∨
  (∃ m, m ∈ log_mutations l ∧ checkMutationRecord m nodeID = Some err) ∨
  (∃ img e, ic_image c = Some img ∧ newEngineAt env nodeID (rebuiltInitial rep) = Ok e ∧ joinImage rep img e = Err err).

(** The mutations the image leaves out below the cut. *)
Definition hole_list (l : list frec) (rep : Replayed) (c : imageChoice) : list WALMutation :=
  match ic_image c with
  | Some img => omap (hole_mutation (cutFrom rep)
      (list_to_set (map (λ r : SnapshotRecord, Dot r.2) (im_Records img)))) (log_ordered l)
  | None => []
  end.
Definition tail_list (l : list frec) (rep : Replayed) (c : imageChoice) : list WALMutation :=
  omap (tail_mutation (match ic_image c with Some _ => Some (cutFrom rep) | None => None end)) (log_ordered l).

(** Image, tail and holes are image and log. *)
Lemma recovered_records l rep c r :
  let log := map (restored nodeID) (log_mutations l) in
  owns G (image_records c ++ log) → dots_consistent nodeID (log_mutations l) →
  r ∈ (image_records c ++ map (restored nodeID) (tail_list l rep c)) ++ map (restored nodeID) (hole_list l rep c) ↔
  r ∈ image_records c ++ log.
Proof.
  cbv zeta. intros Ho Hcons. unfold image_records, tail_list, hole_list in *.
  destruct (ic_image c) as [img|]; [|by rewrite tail_all, app_nil_r].
  set (D := list_to_set _). rewrite !elem_of_app, !list_elem_of_fmap. split.
  - intros [[?|(m & -> & Hm%tail_mutation_log)]|(m & -> & Hm%hole_mutation_log)]; eauto.
  - intros [?|(m & -> & Hm)]; [tauto|]. destruct (tail_or_hole l (cutFrom rep) D m Hm) as [H|[H|H]]; [eauto..|].
    left. left. apply elem_of_list_to_set, list_elem_of_fmap in H as (r & Hd & Hin).
    replace (restored nodeID m) with r; [done|]. rewrite <- (Ho r) by (apply elem_of_app; tauto).
    rewrite <- Hd. unfold dots_consistent in Hcons. rewrite Forall_forall in Hcons. rewrite <- (Hcons m Hm).
    apply (Ho (restored nodeID m)), elem_of_app. right. apply list_elem_of_fmap. by exists m.
Qed.

(** The hole loop, when there is an image. *)
Lemma hole_step l rep c R e low :
  joined nodeID low R e → owns G (R ++ map (restored nodeID) (hole_list l rep c)) →
  u64_dots (R ++ map (restored nodeID) (hole_list l rep c)) → rp_Ordered rep = log_ordered l →
  match (match ic_image c with
         | Some img =>
             let inImage := list_to_set (C:=gset CausalDot) (map (λ r : SnapshotRecord, Dot r.2) (im_Records img)) in
             h ← repairHoles nodeID (cutFrom rep) inImage (rp_Ordered rep) (mkReplay e [] 0 0);
             e ← flushChunk (rs_chunk h) (rs_engine h); Ok (e, rs_applied h)
         | None => Ok (e, 0)
         end) with
  | Ok (e', h) => joined nodeID low (R ++ map (restored nodeID) (hole_list l rep c)) e' ∧
                  h = Z.of_nat (length (hole_list l rep c))
  | Err err => ∃ m, m ∈ log_mutations l ∧ checkMutationRecord m nodeID = Some err
  end.
Proof.
  unfold hole_list. intros Hj Ho Hu ->. destruct (ic_image c) as [img|]; [|by rewrite app_nil_r].
  cbv zeta. set (D := list_to_set _) in *.
  pose proof (repairHoles_tracked G nodeID low (cutFrom rep) D (log_ordered l) R (mkReplay e [] 0 0)
    (tracked_start nodeID _ _ _ Hj) Ho Hu) as Hh.
  destruct (repairHoles _ _ _ _ _) as [h|err] eqn:E; cbn [mbind result_bind].
  - apply repairHoles_applied in E. destruct Hh as [_ Hh].
    destruct (tracked_flush G nodeID low _ h Hh Ho Hu) as (e' & -> & Hj'). cbn [mbind result_bind]. done.
  - apply Exists_exists in Hh as (m & Hm%hole_mutation_log & E'). by exists m.
Qed.

Lemma rebuild_spec env l rep c :
  let log := map (restored nodeID) (log_mutations l) in
  sized_log l → replays l rep → owns G (image_records c ++ log) → u64_dots (image_records c) →
  dots_consistent nodeID (log_mutations l) →
  match rebuild env nodeID rep c with
  | Ok (e, _, _, h) => (∃ R, joined nodeID (rebuiltInitial rep) R e ∧ ∀ r, r ∈ R ↔ r ∈ image_records c ++ log) ∧
                       h = Z.of_nat (length (hole_list l rep c))
  | Err err => rebuild_failure env l rep c err
  end.
Proof.
  cbv zeta. intros Hl Hr Ho Hu Hcons.
  pose proof (rebuiltInitial_u64 l rep Hl Hr) as Hlow. pose proof (log_records_u64 nodeID l Hl) as Hul.
  pose proof (λ r, recovered_records l rep c r Ho Hcons) as Hrec.
  set (log := map (restored nodeID) (log_mutations l)) in *. set (I := image_records c) in *.
  set (T := map (restored nodeID) (tail_list l rep c)) in *. set (H := map (restored nodeID) (hole_list l rep c)) in *.
  assert (owns G ((I ++ T) ++ H)) as HoA by (intros r Hin; by apply Ho, Hrec).
  assert (u64_dots ((I ++ T) ++ H)) as HuA.
  { apply Forall_forall. intros r Hin. apply Hrec in Hin. unfold u64_dots in *.
    rewrite Forall_forall in Hu, Hul. apply elem_of_app in Hin as [?|?]; auto. }
  assert (owns G (I ++ T)) as HoT by by apply owns_app in HoA as [? _].
  assert (u64_dots (I ++ T)) as HuT by by apply Forall_app in HuA as [? _].
  unfold rebuild. destruct (env_engine_ok env) eqn:Een; [|unfold newEngineAt; rewrite Een; simpl; by left].
  destruct (new_joined (rebuiltInitial rep) env Hlow Een) as (e0 & En & Hj0 & _). rewrite En. cbn [mbind result_bind].
  pose proof (image_step c rep e0 _ Hj0 (proj1 (proj1 (owns_app G I T) HoT)) Hu) as HI.
  destruct (match ic_image c with Some _ => _ | None => _ end) as [e1|err] eqn:E1; cbn [mbind result_bind].
  2: { right. right. destruct HI as (img & Hi & Hji). by exists img, e0. }
  pose proof (rs_ordered _ _ Hr) as Hord. rewrite Hord. set (cut := match ic_image c with Some _ => _ | None => _ end).
  pose proof (replayTail_tracked G nodeID _ cut (log_ordered l) I (mkReplay e1 [] 0 0)
    (tracked_start nodeID _ _ _ HI) HoT HuT (log_advances_u64 l Hl)) as Ht.
  destruct (replayTail nodeID cut (log_ordered l) _) as [s|err]; cbn [mbind result_bind].
  2: { right. left. apply Exists_exists in Ht as (m & Hm%tail_mutation_log & E). by exists m. }
  destruct Ht as [_ Ht]. destruct (tracked_flush G nodeID _ _ s Ht HoT HuT) as (e2 & -> & Hj2). cbn [mbind result_bind].
  pose proof (hole_step l rep c (I ++ T) e2 _ Hj2 HoA HuA Hord) as Hh. rewrite Hord in Hh. cbv zeta in Hh |- *.
  match type of Hh with match ?t with _ => _ end => destruct t as [[e3 h]|err] end;
    cbn [mbind result_bind]; [|right; by left].
  destruct Hh as [Hj3 ->]. split; [|done]. exists ((I ++ T) ++ H). split; [by apply joined_advance|].
  intros r. by apply Hrec.
Qed.
End Recovered.

(** ** The whole recovery *)

Section Whole.
Context `{MH : MapHash} `{SS : SliceSort}.

(** Why a recovery of a well-formed log fails: the rebuild, the reopening of the
    log, or the root after an untouched tail. *)
Definition recovery_failure (env : recoverEnv) (nodeID : list Z) (l : list frec) (c : imageChoice) (err : RecoveryError) : Prop :=
  rebuild_failure nodeID env l (replay_log l) c err ∨
  (oi_truncate (env_open env) = false ∧ err = RErrReopen ErrTruncate) ∨
  (is_Some (ic_image c) ∧ hole_list l (replay_log l) c = [] ∧ checkpointFinal (replay_log l) = true ∧
   (∃ e n lg h, rebuild env nodeID (replay_log l) c = Ok (e, n, lg, h) ∧
      MerkleRootFromShards e ≠ wc_MerkleRoot (rp_FinalCheckpt (replay_log l))) ∧
   err = ErrRecoveryRootMismatch).

Lemma recover_spec G env nodeID f l tail store :
  let rep := replay_log l in
  let c := chooseImage nodeID rep store in
  let log := map (restored nodeID) (log_mutations l) in
  sized_log l → fdata f = log_file l ++ tail → torn (length l) tail → Z.of_nat (length (fdata f)) < 2 ^ 63 →
  owns G (image_records c ++ log) → u64_dots (image_records c) → dots_consistent nodeID (log_mutations l) →
  match RecoverEngineWithSnapshot env nodeID (Some f) store with
  | Ok (e, f', w, rep', wit) =>
      rep' = rep ∧ (∃ R, joined nodeID (rebuiltInitial rep) R e ∧ ∀ r, r ∈ R ↔ r ∈ image_records c ++ log) ∧
      fdata f' = log_file l ∧ w = mkWAL (Some (length (log_file l))) (Z.of_nat (length l)) ∧
      rw_Bounded wit = bool_decide (is_Some (ic_image c))
  | Err err => recovery_failure env nodeID l c err
  end.
Proof.
  cbv zeta. intros Hl Hf Ht Hz Ho Hu Hc. pose proof Hz as Hn. rewrite Hf in Hn. apply log_length_bound in Hn.
  assert (replays l (replay_log l)) as Hr by (apply replay_log_replays; lia).
  unfold RecoverEngineWithSnapshot. rewrite Hf, ReplayWAL_log by (done || lia).
  set (c := chooseImage nodeID (replay_log l) store) in *. cbv zeta.
  pose proof (rebuild_spec G nodeID env l (replay_log l) c Hl Hr Ho Hu Hc) as H.
  destruct (rebuild env nodeID (replay_log l) c) as [[[[e n] lg] h]|err] eqn:Erb; cbn [mbind result_bind]; [|by left].
  destruct H as [HR Hh]. unfold reopen. rewrite (OpenWAL_log _ f l tail Hl Hf Ht Hz).
  destruct (oi_truncate (env_open env)) eqn:Eo; cbn [mbind result_bind]; [|right; by left].
  destruct (_ && negb _) eqn:E; [|done]. right. right.
  apply andb_true_iff in E as [E Hne]. repeat (apply andb_true_iff in E as [E ?]).
  apply negb_true_iff, bool_decide_eq_false in Hne.
  split_and!; [by eapply bool_decide_eq_true| |done|by exists e, n, lg, h|done].
  destruct (hole_list _ _ _); [done|]. subst h. simplify_eq/=.
Qed.

(** C9. For any log of sized records followed by a torn record, below 2^63 bytes
    in all, any store and any image it returns, when every dot of the accepted
    image and of the log names one entity and one entry, a record's dot is its
    entry's, and the image's counters are 64-bit: recovery either fails with one
    of the listed errors or returns a well-formed engine that reads exactly the
    entries of the accepted image and of the log, with a clock above all of them
    and the log reopened at its end. Not covered: one dot with two entries, as
    the 120-byte image entry and 80-byte legacy record of recovery.go:436-448.
    *)
Theorem recovery_exact (G : CausalDot → SnapshotRecord) (env : recoverEnv) (nodeID : list Z) (f : File)
    (l : list frec) (tail : list Z) (store : option SnapshotStore) :
  let rep := replay_log l in
  let c := chooseImage nodeID rep store in
  sized_log l → fdata f = log_file l ++ tail → torn (length l) tail → Z.of_nat (length (fdata f)) < 2 ^ 63 →
  owns G (image_records c ++ map (restored nodeID) (log_mutations l)) → u64_dots (image_records c) →
  dots_consistent nodeID (log_mutations l) →
  match RecoverEngineWithSnapshot env nodeID (Some f) store with
  | Ok (e, f', w, rep', wit) =>
      rep' = rep ∧ wf_engine e ∧ closing e = false ∧ dominates e ∧
      rebuiltInitial rep <= lamportCounter (clk e) ∧ log_high l <= lamportCounter (clk e) ∧
      (∀ k x, x ∈ PointGet e k ↔
         (k, x) ∈ image_records c ∨ ∃ m, m ∈ log_mutations l ∧ wm_EntityID m = k ∧ restoreEntry m nodeID = x) ∧
      fdata f' = log_file l ∧ w = mkWAL (Some (length (log_file l))) (Z.of_nat (length l))
  | Err err => recovery_failure env nodeID l c err
  end.
Proof.
  cbv zeta. intros Hl Hf Ht Hz Ho Hu Hc.
  pose proof (recover_spec G env nodeID f l tail store Hl Hf Ht Hz Ho Hu Hc) as H.
  destruct (RecoverEngineWithSnapshot env nodeID (Some f) store) as [[[[[e f'] w] rep'] wit]|err]; [|done].
  destruct H as (Hrep & (R & [Hwf Hcl Hd Hlow _ Hg] & HR) & Hf' & Hw & _).
  rewrite Hf in Hz. apply log_length_bound in Hz.
  assert (log_high l <= rebuiltInitial (replay_log l)) as Hhigh.
  { destruct (replay_log_replays l) as [_ _ _ <- _ _ _]; [lia|]. unfold rebuiltInitial.
    destruct (rp_HasCheckpoint _ && _) eqn:E; [|lia]. apply andb_true_iff in E as [_ E%Z.ltb_lt]. lia. }
  split_and!; [done..|lia| |done|done].
  intros k x. rewrite Hg, HR, elem_of_app, list_elem_of_fmap. unfold restored. naive_solver.
Qed.

(** A checkpoint image the store did not give. *)
Lemma image_records_None nodeID rep : image_records (chooseImage nodeID rep None) = [].
Proof. done. Qed.

(** Replay alone is total: when every mutation of the log passes its record
    check, engine construction and truncation succeed, RecoverEngine returns an
    engine that reads, for every entity, exactly the log's entries for it. *)
Theorem recovery_total (G : CausalDot → SnapshotRecord) (env : recoverEnv) (nodeID : list Z) (f : File)
    (l : list frec) (tail : list Z) :
  sized_log l → fdata f = log_file l ++ tail → torn (length l) tail → Z.of_nat (length (fdata f)) < 2 ^ 63 →
  owns G (map (restored nodeID) (log_mutations l)) →
  Forall (λ m, checkMutationRecord m nodeID = None) (log_mutations l) →
  env_engine_ok env = true → oi_truncate (env_open env) = true →
  ∃ e f', RecoverEngine env nodeID (Some f) =
      Ok (e, f', mkWAL (Some (length (log_file l))) (Z.of_nat (length l)), replay_log l) ∧
    wf_engine e ∧ dominates e ∧ fdata f' = log_file l ∧
    ∀ k x, x ∈ PointGet e k ↔ ∃ m, m ∈ log_mutations l ∧ wm_EntityID m = k ∧ restoreEntry m nodeID = x.
Proof.
  intros Hl Hf Ht Hz Ho Hck Hen Htr.
  assert (dots_consistent nodeID (log_mutations l)) as Hc.
  { eapply Forall_impl; [exact Hck|]. intros m. apply checked_consistent. }
  assert (u64_dots []) as Hu by constructor.
  pose proof (recover_spec G env nodeID f l tail None Hl Hf Ht Hz Ho Hu Hc) as H.
  unfold RecoverEngine. destruct (RecoverEngineWithSnapshot env nodeID (Some f) None) as [[[[[e f'] w] rep'] wit]|err].
  - destruct H as (-> & (R & [Hwf Hcl Hd Hlow _ Hg] & HR) & Hf' & -> & _). exists e, f'. split_and!; [done..|].
    intros k x. rewrite Hg, HR. rewrite image_records_None, app_nil_l, list_elem_of_fmap. unfold restored. naive_solver.
  - exfalso. destruct H as [[[? _]|[(m & Hm & E)|(img & e & ? & _)]]|[[? _]|([? ?] & _)]]; [congruence| |done|congruence|done].
    rewrite Forall_forall in Hck. rewrite (Hck m Hm) in E. done.
Qed.
End Whole.

(** * Honest checkpoints are accepted: the image of an engine joins into a fresh
    engine without a duplicate, reproduces its root and fingerprint, and so
    recovery from it succeeds, bounded by the log's cut. *)

Section Fresh.
Context `{MH : MapHash} `{SS : SliceSort}.

(** ** A join into an empty engine skips nothing *)

Lemma merge_fold_fresh rt i bs a :
  shard_ok rt i (modified a) → blocks_ok rt i bs → (∀ b, b ∈ bs → HAMT_Get (modified a) b.1 = []) →
  sm_skipped (foldl merge_block a bs) = sm_skipped a.
Proof.
  revert a. induction bs as [|[id es] bs IH]; intros a Ha [Hnd Hb] Hf; [done|]. cbn [foldl].
  destruct (Hb (id, es)) as [Hes Hrt]; [left|]. simpl in Hes, Hrt.
  destruct (mergeExistingDot_spec rt i (modified a) id es Ha Hrt Hes) as [Ha' Hg].
  apply NoDup_cons in Hnd as [Hnin Hnd].
  assert (HAMT_Get (modified a) id = []) as E by (apply (Hf (id, es)); left).
  rewrite (IH (merge_block a (id, es))); [| |split; [done|]|].
  - simpl. rewrite E, dotMerge_nil_l. simpl. lia.
  - exact Ha'.
  - intros b Hin. apply Hb. by right.
  - intros b Hin. change (modified (merge_block a (id, es))) with (mergeExistingDot (modified a) id es).
    rewrite Hg. destruct (String.eqb_spec b.1 id) as [Heq|]; [|by apply Hf; right].
    exfalso. apply Hnin. rewrite <- Heq. apply list_elem_of_fmap. by exists b.
Qed.

Lemma join_shards_fresh rt m order ss ti ts :
  NoDup order → (∀ i h, i ∈ order → ss !! i = Some h → shard_ok rt i h ∧ blocks_ok rt i (default [] (m !! i)) ∧
    ∀ b, b ∈ default [] (m !! i) → HAMT_Get h b.1 = []) →
  let '(_, _, ts') := foldl (join_shard m) (ss, ti, ts) order in ts' = ts.
Proof.
  revert ss ti ts. induction order as [|i order IH]; intros ss ti ts Hnd Hf; cbn [foldl]; [done|].
  apply NoDup_cons in Hnd as [Hni Hnd]. unfold join_shard at 2. destruct (ss !! i) as [h|] eqn:E.
  - destruct (Hf i h) as (Hok & Hb & Hfr); [left|done|].
    assert (sm_skipped (perShardMerge h (default [] (m !! i))) = 0) as Hs
      by by apply (merge_fold_fresh rt i _ (mkShardMerge h 0 0 false)).
    rewrite Hs, Z.add_0_r. destruct (addedAny _); apply IH; try done.
    + intros j h' Hj. rewrite list_lookup_insert_ne by set_solver. apply Hf. by right.
    + intros j h' Hj. apply Hf. by right.
  - apply IH; [done|]. intros j h' Hj. apply Hf. by right.
Qed.

Definition record_key (r : SnapshotRecord) : string * CausalDot := (r.1, Dot r.2).

Lemma prepared_no_dups entries : NoDup (map record_key entries) → (prepared entries).2 = 0.
Proof.
  intros Hnd. pose proof (prepared_spec entries) as H. destruct (prepared entries) as [inc dups].
  destruct H as (_ & _ & Hcov & Hlen & H0). simpl.
  assert (length (map record_key entries) <= length (map in_key inc))%nat as Hle.
  { apply NoDup_incl_length; [by apply NoDup_ListNoDup|]. intros y Hy. apply list_elem_of_In in Hy.
    apply list_elem_of_In. apply list_elem_of_fmap in Hy as ([k e] & -> & Hin).
    destruct (Hcov k e Hin) as (z & Hz & <- & Hd). apply list_elem_of_fmap. exists z.
    unfold record_key, in_key. simpl. by rewrite Hd. }
  rewrite !length_map in Hle. lia.
Qed.

Lemma join_fresh_skips entries e e' :
  wf_engine e → (∀ k, PointGet e k = []) → entriesSkipped e = 0 → NoDup (map record_key entries) →
  Join (Some entries) e = Ret e' → entriesSkipped e' = 0.
Proof.
  intros [Hok _] Hempty H0 Hnd. unfold Join. destruct (closing e); [done|].
  destruct entries as [|ie entries]; [by intros [= <-]|]. set (l := ie :: entries) in *. cbn zeta. fold (prepared l).
  pose proof (prepared_no_dups l Hnd) as Hdup. pose proof (prepared_spec l) as Hprep.
  destruct (prepared l) as [inc dups]. simpl in Hdup. subst dups. destruct Hprep as (Hs & _).
  change (routeShard (with_clk (receive_entries l (clk e)) e)) with (route (routeSeed e) (length (shards e))).
  cbn [shards with_clk]. set (rt := route (routeSeed e) (length (shards e))). set (m := shardBatches rt (group_runs inc)).
  destruct (join_batches rt (length (shards e)) inc Hs) as (Hndo & Hord & Hb); [intros k; apply route_lt, Hok|].
  fold m in Hndo, Hord, Hb.
  pose proof (join_shards_fresh rt m (shardOrder m) (shards e) 0 0 Hndo) as H.
  destruct (foldl _ _ _) as [[ss ti] ts]. rewrite H; [intros [= <-]; simpl; by rewrite H0|].
  intros i h Hi Hh. split_and!; [by apply Hok|by apply Hb|]. intros b Hin. destruct (Hb i Hi) as [_ [_ Hbl]].
  destruct (Hbl b Hin) as [_ Hr]. specialize (Hempty b.1). rewrite PointGet_ss in Hempty.
  unfold ss_get, shard_get in Hempty. fold rt in Hempty. by rewrite Hr, Hh in Hempty.
Qed.
End Fresh.

Section Honest.
Context `{MH : MapHash} `{SS : SliceSort}.

Lemma MerkleRoot_equiv e1 e2 :
  wf_engine e1 → wf_engine e2 → eng_equiv e1 e2 → MerkleRootFromShards e1 = MerkleRootFromShards e2.
Proof.
  intros H1 H2 Heq. rewrite !MerkleRootFromShards_items.
  by apply hashShardDotPairs_perm, item_dots_perm, all_items_equiv.
Qed.

Lemma StateFingerprint_equiv e1 e2 :
  wf_engine e1 → wf_engine e2 → eng_equiv e1 e2 → StateFingerprint e1 = StateFingerprint e2.
Proof.
  intros H1 H2 Heq. rewrite !StateFingerprint_records. unfold fingerprintRecords, foldEntryDigests. do 2 f_equal.
  apply (sortFunc_canonical bytes_compare), Permutation_map. by apply (state_records_equiv e1 e2).
Qed.

Lemma NoDup_state_keys e : wf_engine e → NoDup (map record_key (state_records e)).
Proof.
  intros Hwf. apply NoDup_fmap_2_strong; [|by apply NoDup_state_records].
  intros [k x] [k' y] Hx Hy [= <- Hd1 Hd2]. apply elem_of_state_records in Hx, Hy; [|done..].
  assert (Dot x = Dot y) as Hd by (unfold Dot; congruence).
  f_equal. apply (inj Some). rewrite <- (proj2 (view_lookup e k (Dot x) x Hwf)) by done.
  apply view_lookup; [done|]. by rewrite Hd.
Qed.

(** With nothing after the cut and no hole, the log adds nothing to the image. *)
Lemma untouched_records G nodeID l rep c r :
  owns G (image_records c ++ map (restored nodeID) (log_mutations l)) → dots_consistent nodeID (log_mutations l) →
  is_Some (ic_image c) → rp_Ordered rep = log_ordered l → hole_list l rep c = [] → checkpointFinal rep = true →
  r ∈ image_records c ++ map (restored nodeID) (log_mutations l) ↔ r ∈ image_records c.
Proof.
  intros Ho Hc [img Hi] Hord Hh Hf. rewrite <- (recovered_records G nodeID l rep c r Ho Hc), Hh.
  assert (tail_list l rep c = []) as ->; [|by rewrite !app_nil_r].
  unfold tail_list. rewrite Hi. apply elem_of_nil_inv. intros m (rec & Hin & E)%list_elem_of_omap.
  unfold checkpointFinal in Hf. rewrite Hord, forallb_forall in Hf. specialize (Hf rec (proj1 (list_elem_of_In _ _) Hin)).
  unfold tail_mutation in E. destruct (Z.ltb_spec (wr_Seq rec) (cutFrom rep)); [done|].
  rewrite (proj2 (Z.leb_le _ _)) in Hf by lia. by destruct (is_mutation rec).
Qed.

(** [e] holds exactly what [e0] holds. *)
Lemma same_records nodeID low R e e0 :
  joined nodeID low R e → wf_engine e0 → (∀ r, r ∈ R ↔ r ∈ state_records e0) → eng_equiv e e0.
Proof.
  intros [Hwf _ _ _ _ Hg] H0 HR. apply view_inj; [done|done|]. intros k. apply map_eq. intros d.
  apply option_eq. intros x. rewrite !view_lookup by done. by rewrite Hg, HR, elem_of_state_records.
Qed.

(** The store's answer for the log's final checkpoint is the image of [e0], and
    the log has every dot of [e0] that is this node's. *)
Record honest (nodeID : list Z) (e0 : Engine) (l : list frec) (st : SnapshotStore) (img : SnapshotImage) : Prop := {
  hn_wf : wf_engine e0;
  hn_checkpoint : rp_HasCheckpoint (replay_log l) = true;
  hn_root : wc_MerkleRoot (rp_FinalCheckpt (replay_log l)) = MerkleRootFromShards e0;
  hn_fingerprint : wc_HasFingerprint (rp_FinalCheckpt (replay_log l)) = true →
    wc_Fingerprint (rp_FinalCheckpt (replay_log l)) = StateFingerprint e0;
  hn_exists : st_Exists st (wc_LamportHigh (rp_FinalCheckpt (replay_log l))) = Ok true;
  hn_load : st_Load st (wc_LamportHigh (rp_FinalCheckpt (replay_log l))) = Ok img;
  hn_records : im_Records img ≡ₚ state_records e0;
  hn_high : im_LamportHigh img = wc_LamportHigh (rp_FinalCheckpt (replay_log l));
  hn_cut : wc_HasCutSeq (rp_FinalCheckpt (replay_log l)) = true →
    im_CutSeq img = wc_CutSeq (rp_FinalCheckpt (replay_log l));
  hn_imroot : im_MerkleRoot img = MerkleRootFromShards e0;
  hn_local : ∀ r, r ∈ state_records e0 → DotNodeID r.2 = nodeID → Dot r.2 ∈ map mutation_dot (log_mutations l);
}.

Lemma honest_chosen nodeID e0 l st img :
  honest nodeID e0 l st img → Z.of_nat (length l) < 2 ^ 64 →
  chooseImage nodeID (replay_log l) (Some st) =
    mkChoice (Some img) (wc_LamportHigh (rp_FinalCheckpt (replay_log l))) FBNone false 0.
Proof.
  intros [Hwf Hc Hr Hfp He Hl Hrec Hh Hcut Him Hloc] Hn. unfold chooseImage, loadImage.
  rewrite Hc, He, Hl, Hh, Z.eqb_refl. cbn [negb].
  assert (wc_HasCutSeq (rp_FinalCheckpt (replay_log l)) &&
    (negb (im_CutSeq img =? wc_CutSeq (rp_FinalCheckpt (replay_log l))) ||
     negb (bool_decide (im_MerkleRoot img = wc_MerkleRoot (rp_FinalCheckpt (replay_log l))))) = false) as ->.
  { destruct (wc_HasCutSeq _); [|done]. rewrite Hcut, Z.eqb_refl by done. simpl.
    by rewrite bool_decide_eq_true_2 by congruence. }
  unfold rejectPhantoms. cbn [ic_image]. unfold count_phantoms.
  destruct (replay_log_replays l Hn) as [-> _ _ _ _ _ _].
  replace (filter _ _) with (@nil SnapshotRecord); [done|].
  symmetry. apply elem_of_nil_inv. intros r [[Hnode Hni] Hin]%list_elem_of_filter. apply Hni.
  apply elem_of_list_to_set, Hloc; [|done]. by rewrite <- Hrec.
Qed.

Lemma honest_joins nodeID e0 l st img env low e :
  honest nodeID e0 l st img → newEngineAt env nodeID low = Ok e → is_u64 low → u64_dots (im_Records img) →
  ∃ e', joinImage (replay_log l) img e = Ok e'.
Proof.
  intros [Hwf Hc Hr Hfp _ _ Hrec _ _ _ _] He Hlow Hu.
  assert (env_engine_ok env = true) as Hok by (unfold newEngineAt in He; by destruct (env_engine_ok env)).
  destruct (new_joined nodeID low env Hlow Hok) as (e1 & He1 & Hj & H0). rewrite He in He1. injection He1 as <-.
  assert (NoDup (map record_key (im_Records img))) as Hnd.
  { rewrite Hrec. by apply NoDup_state_keys. }
  set (g := λ (k : string) d, default (mkEntry [] [] [] 0 0 0 0 0 0 0) (view e0 k !! d)).
  assert (delta_agrees g (im_Records img)) as Hag.
  { intros k x Hx. rewrite Hrec in Hx. apply elem_of_state_records in Hx; [|done]. unfold g.
    by rewrite (proj2 (view_lookup e0 k (Dot x) x Hwf)). }
  destruct Hj as [Hwf1 Hcl _ _ _ Hg].
  destruct (join_view g (im_Records img) e Hwf1 Hcl Hu Hag) as (e' & HJ & Hwf' & _ & _ & Hv).
  exists e'. unfold joinImage, snapshotDelta. rewrite HJ. cbn [of_outcome mbind result_bind].
  rewrite (join_fresh_skips (im_Records img) e e' Hwf1) by
    (done || (intros k; apply elem_of_nil_inv; intros x Hx; apply Hg, elem_of_nil in Hx; done)). cbn [negb Z.eqb].
  assert (eng_equiv e' e0) as Heq.
  { apply view_inj; [done|done|]. intros k. rewrite Hv. apply map_eq. intros d. apply option_eq. intros x.
    rewrite lookup_union_Some_raw, !view_lookup, (delta_view_lookup g), Hg, elem_of_nil by done.
    rewrite Hrec, elem_of_state_records by done. split; [tauto|]. intros H. right. split; [|done].
    apply eq_None_not_Some. intros [y Hy]. apply view_lookup in Hy as [Hy%Hg _]; [|done]. by apply elem_of_nil in Hy. }
  destruct (wc_HasFingerprint _); [|done].
  rewrite (MerkleRoot_equiv e' e0), bool_decide_eq_true_2 by done. cbn [negb].
  by rewrite (StateFingerprint_equiv e' e0), bool_decide_eq_true_2 by (done || (symmetry; by apply Hfp)).
Qed.

(** An honest checkpoint is always accepted: if the log's final checkpoint
    carries the root and fingerprint of an engine, the store returns that
    engine's image, and the log has all of this node's dots in it, then recovery
    succeeds (the log's records passing their check), starts from the image, and
    reads, for every entity, exactly what that engine and the log's mutations
    have for it.  The root check after the tail does not misfire. *)
Lemma honest_checkpoint_recovers (G : CausalDot → SnapshotRecord) (env : recoverEnv) (nodeID : list Z) (f : File)
    (l : list frec) (tail : list Z) (st : SnapshotStore) (e0 : Engine) (img : SnapshotImage) :
  honest nodeID e0 l st img →
  sized_log l → fdata f = log_file l ++ tail → torn (length l) tail → Z.of_nat (length (fdata f)) < 2 ^ 63 →
  owns G (state_records e0 ++ map (restored nodeID) (log_mutations l)) → u64_dots (state_records e0) →
  Forall (λ m, checkMutationRecord m nodeID = None) (log_mutations l) →
  env_engine_ok env = true → oi_truncate (env_open env) = true →
  ∃ e f' w rep wit, RecoverEngineWithSnapshot env nodeID (Some f) (Some st) = Ok (e, f', w, rep, wit) ∧
    rw_Bounded wit = true ∧ wf_engine e ∧ dominates e ∧
    ∀ k x, x ∈ PointGet e k ↔
      x ∈ PointGet e0 k ∨ ∃ m, m ∈ log_mutations l ∧ wm_EntityID m = k ∧ restoreEntry m nodeID = x.
Proof.
  intros Hh Hl Hf Ht Hz Ho Hu Hck Hen Htr. pose proof Hz as Hn. rewrite Hf in Hn. apply log_length_bound in Hn.
  pose proof (honest_chosen _ _ _ _ _ Hh ltac:(lia)) as Ec.
  assert (∀ r, r ∈ image_records (chooseImage nodeID (replay_log l) (Some st)) ↔ r ∈ state_records e0) as Hrecs.
  { intros r. rewrite Ec. unfold image_records. cbn [ic_image]. by rewrite (hn_records _ _ _ _ _ Hh). }
  assert (dots_consistent nodeID (log_mutations l)) as Hc.
  { eapply Forall_impl; [exact Hck|]. intros m. apply checked_consistent. }
  assert (owns G (image_records (chooseImage nodeID (replay_log l) (Some st)) ++ map (restored nodeID) (log_mutations l))) as Ho'.
  { intros r Hr. apply Ho. rewrite elem_of_app in *. by rewrite <- Hrecs. }
  assert (u64_dots (image_records (chooseImage nodeID (replay_log l) (Some st)))) as Hu'.
  { apply Forall_forall. intros r Hr%Hrecs. unfold u64_dots in Hu. rewrite Forall_forall in Hu. by apply Hu. }
  pose proof (recover_spec G env nodeID f l tail (Some st) Hl Hf Ht Hz Ho' Hu' Hc) as H.
  destruct (RecoverEngineWithSnapshot env nodeID (Some f) (Some st)) as [[[[[e f'] w] rep'] wit]|err].
  - destruct H as (-> & (R & [Hwf _ Hd _ _ Hg] & HR) & _ & _ & Hb). eexists _, _, _, _, _. split_and!; [done| |done|done|].
    + rewrite Hb, Ec. done.
    + intros k x. rewrite Hg, HR, elem_of_app, Hrecs, elem_of_state_records, list_elem_of_fmap by apply Hh.
      unfold restored. naive_solver.
  - exfalso. rewrite Ec in H.
    destruct H as [[[? _]|[(m & Hm & E)|(img' & e & [= <-] & He & Hj)]]|[[? _]|H]]; [congruence| | |congruence|].
    + rewrite Forall_forall in Hck. rewrite (Hck m Hm) in E. done.
    + destruct (honest_joins _ _ _ _ _ _ _ _ Hh He) as (e' & E); [|by rewrite Ec in Hu'|congruence].
      apply (rebuiltInitial_u64 l); [done|]. apply replay_log_replays. lia.
    + destruct H as (_ & Hno & Hfin & (e & n & lg & h & Hrb & Hne) & _).
      pose proof (rebuild_spec G nodeID env l (replay_log l) _ Hl ltac:(by apply replay_log_replays; lia) Ho' Hu' Hc) as Hs.
      rewrite Ec, Hrb in Hs. destruct Hs as [(R & Hj & HR) _]. apply Hne. rewrite (hn_root _ _ _ _ _ Hh).
      apply MerkleRoot_equiv; [apply Hj|apply Hh|]. apply (same_records nodeID _ R e e0 Hj); [apply Hh|].
      rewrite Ec in Ho'. intros r. rewrite HR, <- Hrecs, Ec. apply (untouched_records G nodeID l (replay_log l)); try done.
      apply replay_log_replays. lia.
Qed.
End Honest.
