(* ===== verification/BridgeThms.v ===== *)
(** A checkpoint of the bridge and the recovery from it; the query tier's delta
    flush. *)
From S2P Require Import Prelude Bytes Sha256 Crc32c Dots Wal WalLog WalReplay WalDurable Hamt.
From S2P Require Import HamtMap Lamport Sorting Engine EngineInv JoinSpec EngineThms Merkle.
From S2P Require Import Snapshot LocalFS Bridge Recovery RecoveryThms.

#[local] Arguments log_file : simpl never.

Section Capture.
Context `{MH : MapHash} `{SS : SliceSort}.

(** ** What a checkpoint captures *)

Lemma capture_both_records acc k es : (capture_both acc k es).1 = collect_records acc.1 k es.
Proof.
  unfold capture_both, collect_records. revert acc. induction es as [|x es IH]; intros acc; simpl; [by rewrite app_nil_r|].
  rewrite IH. simpl. by rewrite <- (assoc_L (++)).
Qed.

Lemma foldl_capture_both items acc :
  (foldl (λ st (it : block), capture_both st it.1 it.2) acc items).1 =
  foldl (λ st (it : block), collect_records st it.1 it.2) acc.1 items.
Proof.
  revert acc. induction items as [|it items IH]; intros acc; [done|]. cbn [foldl].
  by rewrite IH, capture_both_records.
Qed.

Definition latest_of (e : Engine) : gmap string CRDTEntry :=
  (foldl (λ st (it : block), capture_both st it.1 it.2) ([], ∅) (all_items (shards e))).2.

Definition anchor_of (e : Engine) (cutSeq : Z) : WALCheckpoint :=
  mkWALCheckpoint (MerkleRootFromShards e) (StateFingerprint e)
    (max_local (localNodeID e) 0 (concat (all_items (shards e)).*2)) cutSeq (lamportCounter (clk e)) true true.

Lemma capture_checkpoint_image e cutSeq :
  capture_checkpoint cutSeq true e = (anchor_of e cutSeq, state_records e, latest_of e).
Proof.
  unfold capture_checkpoint, CaptureShardsPinned.
  rewrite (capture_walk capture_both) by done. cbn [cp_pairs cp_maxLocalDot cp_fn]. 
  assert (foldl (λ st it, capture_both st it.1 it.2) ([], ∅) (all_items (shards e)) =
          (state_records e, latest_of e)) as ->.
  { rewrite (surjective_pairing (foldl _ _ _)). f_equal. rewrite foldl_capture_both. cbn [fst].
    by rewrite foldl_collect_records. }
  unfold anchor_of. by rewrite MerkleRootFromShards_items, StateFingerprint_records.
Qed.

Lemma MerkleRoot_is32 e : length (MerkleRootFromShards e) = 32%nat ∧ is_bytes (MerkleRootFromShards e).
Proof.
  rewrite MerkleRootFromShards_items. unfold hashShardDotPairs. destruct (sortFunc _ _).
  - split; [done|]. by apply Forall_replicate.
  - split; [apply length_Sum256|apply Sum256_bytes].
Qed.

Lemma StateFingerprint_is32 e : length (StateFingerprint e) = 32%nat ∧ is_bytes (StateFingerprint e).
Proof. rewrite StateFingerprint_records. split; [apply length_Sum256|apply Sum256_bytes]. Qed.

Lemma max_local_u64 node l : Forall (λ x, is_u64 (DotCounter x)) l → is_u64 (max_local node 0 l).
Proof.
  unfold max_local. assert (is_u64 0) as H0 by done. revert H0. generalize 0. induction l as [|x l IH]; intros z Hz H; [done|].
  inversion_clear H. simpl. apply IH; [|done]. by destruct (_ && _).
Qed.

Lemma state_entries_u64 e : wf_engine e → u64_dots (state_records e) → Forall (λ x, is_u64 (DotCounter x)) (concat (all_items (shards e)).*2).
Proof.
  intros [Hok _] Hu. apply Forall_forall. intros x (es & Hx & (it & -> & Hit)%list_elem_of_fmap)%elem_of_concat.
  unfold u64_dots in Hu. rewrite Forall_forall in Hu. apply (Hu (it.1, x)). unfold state_records.
  apply elem_of_concat. exists (map (pair it.1) it.2). split; apply list_elem_of_fmap; [by exists x|by exists it].
Qed.

Lemma anchor_sized e cutSeq :
  wf_engine e → u64_dots (state_records e) → is_u64 cutSeq → sized_checkpoint (anchor_of e cutSeq).
Proof.
  intros Hwf Hu Hc. destruct (MerkleRoot_is32 e), (StateFingerprint_is32 e). unfold sized_checkpoint. simpl.
  split_and!; try done; [by apply max_local_u64, state_entries_u64|apply Hwf..].
Qed.
End Capture.

(** ** From a checkpoint to a bounded recovery *)

Definition is_checkpoint (r : logrec) : bool := match r with LCheckpoint _ => true | _ => false end.

(** The last checkpoint record of a log. *)
Lemma final_checkpoint_at l1 b c l2 o :
  replays (l1 ++ (b, LCheckpoint c) :: l2) o → Forall (λ x, is_checkpoint x.2 = false) l2 →
  rp_HasCheckpoint o = true ∧ ∃ h, rp_FinalCheckpt o = settle h c.
Proof.
  intros [_ _ _ _ _ _ H] Hno. unfold final_checkpoint in H.
  assert ((l1 ++ (b, LCheckpoint c) :: l2) !! length l1 = Some (b, LCheckpoint c)) as Hat
    by by rewrite lookup_app_r, Nat.sub_diag by lia.
  destruct (rp_HasCheckpoint o); [|by destruct (H _ _ c Hat)]. split; [done|].
  destruct H as (i & b' & c' & Hi & Hlast & _ & -> & _). exists (log_high (take (S i) (l1 ++ (b, LCheckpoint c) :: l2))).
  assert (i = length l1) as ->; [|rewrite Hat in Hi; by injection Hi as _ <-].
  destruct (Nat.lt_trichotomy i (length l1)) as [Hlt|[?|Hgt]]; [by destruct (Hlast _ _ c Hlt Hat)|done|].
  rewrite lookup_app_r in Hi by lia. destruct (i - length l1)%nat as [|j] eqn:E; [lia|]. simpl in Hi.
  rewrite Forall_lookup in Hno. specialize (Hno j _ Hi). done.
Qed.

Lemma AppendCheckpoint_ok l c ok f w f' w' :
  at_end l f w → AppendCheckpoint c WrOk ok (f, w) = (f', w', None) → Z.of_nat (length (fdata f')) < 2 ^ 63 →
  at_end (l ++ [LCheckpoint c]) f' w'.
Proof.
  intros Ha H Hz. unfold AppendCheckpoint, then_sync in H.
  destruct (AppendCheckpoint_locked c WrOk (f, w)) as [[f1 w1] [err|]] eqn:E; [done|].
  destruct (syncFile (w_f w1) ok f1) as [f2 e2] eqn:Es. injection H as -> -> ->.
  assert (fdata f1 = fdata f') as Ef.
  { unfold syncFile in Es. destruct (w_f w'); [|done]. destruct ok; by injection Es as <-. }
  destruct (run_locked_appends (CallCheckpoint c) (λ _, WrOk) l f w f1 w' None Ha) as (_ & added & Hat & _ & Hall);
    [by left|done|by rewrite Ef|]. rewrite Hall in Hat by done. unfold at_end in *. by rewrite <- Ef.
Qed.

Lemma log_mutations_checkpoint l c later :
  log_mutations (framed (l ++ LCheckpoint c :: later)) = log_mutations (framed (l ++ later)).
Proof. unfold log_mutations, framed. rewrite !map_app, !omap_app. done. Qed.

Section Checkpoint.
Context `{MH : MapHash} `{SS : SliceSort}.

(** A store path, and the sizes the image format has room for. *)
Definition store_ok (root : path) (fs : FS) : Prop :=
  root ≠ [] ∧ wf_fs fs ∧ Forall (λ seg, no_slash seg = true ∧ seg ≠ EmptyString) root.
Definition image_fits (e : Engine) : Prop :=
  Forall sized_record (state_records e) ∧
  Z.of_nat (length (state_records e)) * sizeofSnapshotRecord <= maxAlloc.

Lemma image_fits_u64 e : image_fits e → u64_dots (state_records e).
Proof. intros [H _]. eapply Forall_impl; [exact H|]. intros r [(_ & _ & ? & _) _]. done. Qed.

Lemma anchor_image_sized e cut :
  wf_engine e → image_fits e → is_u64 cut → sized_image (anchor_image (anchor_of e cut) (state_records e)).
Proof.
  intros Hwf Hf Hc. pose proof (image_fits_u64 e Hf) as Hu. destruct (MerkleRoot_is32 e). destruct Hf as [Hr Hn].
  unfold sized_image. simpl. split_and!; try done. by apply max_local_u64, state_entries_u64.
Qed.

(** A checkpoint that returned nil appended the anchor and stored the image. *)
Lemma checkpoint_done b b' io root fs l :
  wf_engine (b_engine b) → image_fits (b_engine b) → at_end l (b_log b).1 (b_log b).2 →
  b_snapshotter b = Some (root, fs) → store_ok root fs →
  Bridge_AppendCheckpoint io b = (None, b') → ci_write io = WrOk → ci_upload io = UpOk →
  Z.of_nat (length (fdata (b_log b').1)) < 2 ^ 63 → Z.of_nat (length l) < 2 ^ 63 →
  let c := anchor_of (b_engine b) (Z.of_nat (length l)) in
  ∃ fs', at_end (l ++ [LCheckpoint c]) (b_log b').1 (b_log b').2 ∧ b_snapshotter b' = Some (root, fs') ∧
    SnapshotExists root fs' (wc_LamportHigh c) = Ok true ∧
    LoadSnapshotImage root fs' (wc_LamportHigh c) =
      Ok (anchor_image c (insertion_sort cmpSnapshotRecord (state_records (b_engine b)))).
Proof.
  intros Hwf Hfit Ha Hsn (Hr & Hfs & Hseg) H Hw Hup Hz Hl. unfold Bridge_AppendCheckpoint in H.
  pose proof Ha as (_ & _ & En). rewrite Hsn, En, bool_decide_eq_true_2, capture_checkpoint_image, Hw, Hup in H by by eexists.
  cbv zeta. set (c := anchor_of (b_engine b) (Z.of_nat (length l))) in *.
  destruct (b_log b) as [f w]. cbn [fst snd] in Ha.
  destruct (AppendCheckpoint c WrOk (ci_sync io) (f, w)) as [[f1 w1] [err|]] eqn:E; [done|].
  cbn [b_snapshotter set_log snapshotIndexEnabled] in H. rewrite Hsn in H.
  destruct (_ && negb (ci_memtable io)); [done|].
  assert (sized_image (anchor_image c (state_records (b_engine b)))) as Hsz
    by (apply anchor_image_sized; [done|done|unfold is_u64; lia]).
  destruct (WriteSnapshotImage_ok root fs _ Hr Hfs Hseg Hsz) as (fs' & Ew & Hex & Hld). rewrite Ew in H.
  exists fs'. assert ((b_log b').1 = f1 ∧ (b_log b').2 = w1 ∧ b_snapshotter b' = Some (root, fs')) as (E1 & E2 & ->).
  { destruct (negb _); [by injection H as <-|]. destruct (ci_flush io); [by injection H as <-|done]. }
  rewrite E1, E2 in *. split_and!; [|done|exact Hex|exact Hld]. by eapply AppendCheckpoint_ok.
Qed.

(** A checkpoint only appends to the log. *)
Lemma checkpoint_grows io b b' res l :
  Bridge_AppendCheckpoint io b = (res, b') → at_end l (b_log b).1 (b_log b).2 →
  (length (fdata (b_log b).1) <= length (fdata (b_log b').1))%nat.
Proof.
  intros H (_ & Hw & _). unfold Bridge_AppendCheckpoint in H.
  destruct (capture_checkpoint _ _ _) as [[c records] latest].
  destruct (AppendCheckpoint c _ _ (b_log b)) as [s err] eqn:E.
  assert (b_log b' = s) as ->.
  { destruct err; [by injection H as _ <-|]. cbn [b_snapshotter set_log] in H.
    destruct (b_snapshotter b) as [[root fs]|]; [|by injection H as _ <-]. destruct (_ && _); [by injection H as _ <-|].
    destruct (WriteSnapshotImage _ _ _ _) as [fs' []]; [|by injection H as _ <-].
    destruct (negb _); [by injection H as _ <-|]. destruct (ci_flush io); by injection H as _ <-. }
  destruct (b_log b) as [f w]. unfold AppendCheckpoint, then_sync in E. cbn [fst snd] in *.
  destruct (AppendCheckpoint_locked c (ci_write io) (f, w)) as [[f1 w1] [e|]] eqn:E1;
    apply write_record_grows in E1 as [Hg _]; try done; [by injection E as <-|].
  destruct (syncFile (w_f w1) (ci_sync io) f1) as [f2 e2] eqn:Es. injection E as <- _. cbn [fst].
  unfold syncFile in Es. destruct (w_f w1); [|by injection Es as <-]. destruct (ci_sync io); by injection Es as <-.
Qed.

(** C25. After an AppendCheckpoint that returned nil under a snapshotter whose
    upload succeeded, on a well-formed engine whose state fits an image, a crash
    with any later mutations and clock advances, no later checkpoint, and a torn
    record at the end (below 2^63 bytes in all) recovers, bounded, from the
    checkpoint's image: exactly what the engine held then and what the log
    carries. This is when the log has a record of every dot of this node in the
    image (otherwise recovery discards the image), its records are sized and
    pass their check, every dot names one entity and entry across image and log,
    and recovery can build an engine and truncate. *)
Theorem checkpoint_bounds_recovery (b b' : Bridge) (io : ckpt_io) (root : path) (fs : FS) (l : list logrec) :
  let e := b_engine b in
  let c := anchor_of e (Z.of_nat (length l)) in
  wf_engine e → image_fits e → at_end l (b_log b).1 (b_log b).2 → Forall sized_rec l →
  b_snapshotter b = Some (root, fs) → store_ok root fs →
  Bridge_AppendCheckpoint io b = (None, b') → ci_write io = WrOk → ci_upload io = UpOk →
  Z.of_nat (length (fdata (b_log b').1)) < 2 ^ 63 →
  ∃ fs', fdata (b_log b').1 = log_file (framed (l ++ [LCheckpoint c])) ∧ b_snapshotter b' = Some (root, fs') ∧
    ∀ (G : CausalDot → SnapshotRecord) later tail f env,
      let log := framed (l ++ LCheckpoint c :: later) in
      Forall sized_rec later → Forall (λ r, is_checkpoint r = false) later →
      fdata f = log_file log ++ tail → torn (length log) tail → Z.of_nat (length (fdata f)) < 2 ^ 63 →
      (∀ r, r ∈ state_records e → DotNodeID r.2 = localNodeID e → Dot r.2 ∈ map mutation_dot (log_mutations log)) →
      owns G (state_records e ++ map (restored (localNodeID e)) (log_mutations log)) →
      Forall (λ m, checkMutationRecord m (localNodeID e) = None) (log_mutations log) →
      env_engine_ok env = true → oi_truncate (env_open env) = true →
      ∃ e' f' w rep wit,
        RecoverEngineWithSnapshot env (localNodeID e) (Some f) (Some (localStore root fs')) = Ok (e', f', w, rep, wit) ∧
        rw_Bounded wit = true ∧ wf_engine e' ∧ dominates e' ∧
        ∀ k x, x ∈ PointGet e' k ↔ x ∈ PointGet e k ∨
          ∃ m, m ∈ log_mutations log ∧ wm_EntityID m = k ∧ restoreEntry m (localNodeID e) = x.
Proof.
  cbv zeta. intros Hwf Hfit Ha Hl Hsn Hst H Hw Hup Hz.
  assert (Z.of_nat (length l) < 2 ^ 63) as Hn.
  { pose proof Ha as (E & _). rewrite <- (length_framed l). apply (log_length_bound _ []). rewrite app_nil_r, <- E.
    pose proof (checkpoint_grows io b b' None l H Ha). lia. }
  destruct (checkpoint_done b b' io root fs l Hwf Hfit Ha Hsn Hst H Hw Hup Hz Hn) as (fs' & (Ef & _) & Hsn' & Hex & Hld).
  exists fs'. split_and!; [done|done|]. intros G later tail f env Hlat Hno Hf Ht Hzf Hloc Ho Hck Hen Htr.
  set (c := anchor_of (b_engine b) (Z.of_nat (length l))) in *.
  assert (sized_log (framed (l ++ LCheckpoint c :: later))) as Hs.
  { apply framed_sized, Forall_app. split; [done|]. constructor; [|done].
    apply anchor_sized; [done|by apply image_fits_u64|unfold is_u64; lia]. }
  pose proof Hzf as Hnl. rewrite Hf in Hnl. apply log_length_bound in Hnl.
  apply (honest_checkpoint_recovers G env (localNodeID (b_engine b)) f _ tail (localStore root fs') (b_engine b)
    (anchor_image c (insertion_sort cmpSnapshotRecord (state_records (b_engine b))))); try done; [|by apply image_fits_u64].
  destruct (final_checkpoint_at (framed l) true c (framed later) (replay_log (framed (l ++ LCheckpoint c :: later))))
    as (Hhas & h & Hfin).
  - rewrite framed_app in *. apply replay_log_replays. lia.
  - by apply Forall_fmap.
  - split; rewrite ?Hfin; try done. simpl. apply insertion_sort_perm.
Qed.
End Checkpoint.
