(* ===== verification/QueryTier.v ===== *)
(** The query tier's delta flush (pkg/durability/bridge.go: planQueryTierDelta,
    commitQueryTierDelta and the latest map of AppendCheckpoint): flushing only
    the entities whose greatest dot moved leaves the tier as a full flush would. *)
From S2P Require Import Prelude Bytes Sha256 Crc32c Dots Wal WalLog WalReplay WalDurable Hamt.
From S2P Require Import HamtMap Lamport Sorting Engine EngineInv JoinSpec EngineThms Merkle.
From S2P Require Import Snapshot LocalFS Bridge Recovery RecoveryThms BridgeThms.

(** ** The latest entry of an entity *)

Lemma note_latest_run k es m :
  dot_sorted es → (∀ cur, m !! k = Some cur → Forall (λ x, compareDots (Dot cur) (Dot x) = Lt) es) →
  foldl (λ m x, note_latest m k x) m es = match last es with Some x => <[k := x]> m | None => m end.
Proof.
  intros Hs. revert m. induction Hs as [|x es _ IH Hf]; intros m Hm; [done|]. cbn [foldl].
  assert (note_latest m k x = <[k := x]> m) as ->.
  { unfold note_latest. destruct (m !! k) as [cur|] eqn:E; [|done]. specialize (Hm cur eq_refl).
    inversion_clear Hm. unfold compareDotsLocal. by destruct (compareDots _ _). }
  rewrite IH.
  - rewrite last_cons. destruct (last es); [by rewrite insert_insert_eq|done].
  - intros cur. rewrite lookup_insert_eq. intros [= <-]. exact Hf.
Qed.

Lemma capture_both_latest acc k es : (capture_both acc k es).2 = foldl (λ m x, note_latest m k x) acc.2 es.
Proof. unfold capture_both. revert acc. induction es as [|x es IH]; intros acc; [done|]. cbn [foldl]. by rewrite IH. Qed.

Lemma latest_fold items acc k :
  NoDup items.*1 → Forall (λ it, dot_sorted it.2 ∧ it.2 ≠ [] ∧ acc.2 !! it.1 = None) items →
  (foldl (λ st (it : block), capture_both st it.1 it.2) acc items).2 !! k =
  match last (block_of items k) with Some x => Some x | None => acc.2 !! k end.
Proof.
  revert acc. induction items as [|[id es] items IH]; intros acc Hnd Hall; [done|].
  apply NoDup_cons in Hnd as [Hni Hnd]. inversion_clear Hall as [|? ? (Hs & Hne & Hno) Hall']. cbn [foldl fst snd] in *.
  assert ((capture_both acc id es).2 = match last es with Some x => <[id := x]> acc.2 | None => acc.2 end) as E.
  { rewrite capture_both_latest. apply note_latest_run; [done|]. by rewrite Hno. }
  destruct (last es) as [y|] eqn:El; [|by apply last_None in El].
  rewrite IH; [|done|].
  - rewrite E, block_of_cons. destruct (String.eqb_spec k id) as [->|Hk].
    + by rewrite El, (block_of_notin items), lookup_insert_eq.
    + by rewrite lookup_insert_ne.
  - rewrite E. apply Forall_forall. intros it Hin. rewrite Forall_forall in Hall'. destruct (Hall' it Hin) as (? & ? & ?).
    split_and!; [done|done|]. rewrite lookup_insert_ne; [done|]. intros ->. apply Hni, list_elem_of_fmap. by exists it.
Qed.

Section Tier.
Context `{MH : MapHash} `{SS : SliceSort}.

Lemma latest_of_last e k : wf_engine e → latest_of e !! k = last (PointGet e k).
Proof.
  intros [Hok _]. unfold latest_of. rewrite latest_fold.
  - rewrite (block_of_all_items (routeSeed e)), PointGet_ss by done. simpl. by destruct (last _).
  - by apply (all_items_NoDup (routeSeed e)).
  - apply Forall_forall. intros [id es] Hin. apply (all_items_elem (routeSeed e)) in Hin as [<- Hne]; [|done].
    split_and!; [by apply ss_get_sorted|done|done].
Qed.

(** ** Flushing *)

(** The tier: the row of each entity's last flush. *)
Definition flush_rows (rows : list (string * CRDTEntry)) (tier : gmap string CRDTEntry) : gmap string CRDTEntry :=
  foldl (λ t r, <[r.1 := r.2]> t) tier rows.

Lemma flush_rows_union rows tier : NoDup rows.*1 → flush_rows rows tier = list_to_map rows ∪ tier.
Proof.
  unfold flush_rows. revert tier. induction rows as [|[k x] rows IH]; intros tier Hnd; simpl; [by rewrite (left_id_L ∅ (∪))|].
  apply NoDup_cons in Hnd as [Hni Hnd]. rewrite IH by done. rewrite <- insert_union_l, <- insert_union_r; [done|].
  by apply not_elem_of_list_to_map_1.
Qed.

Lemma commit_union rows (m : gmap string CausalDot) :
  NoDup rows.*1 → foldl (λ m (r : string * CRDTEntry), <[r.1 := Dot r.2]> m) m rows = (Dot <$> list_to_map rows) ∪ m.
Proof.
  revert m. induction rows as [|[k x] rows IH]; intros m Hnd; simpl; [by rewrite fmap_empty, (left_id_L ∅ (∪))|].
  apply NoDup_cons in Hnd as [Hni Hnd]. rewrite IH by done. rewrite fmap_insert, <- insert_union_l, <- insert_union_r; [done|].
  rewrite lookup_fmap, not_elem_of_list_to_map_1; done.
Qed.

Lemma NoDup_filter_fst {A B} (P : A * B → Prop) `{!∀ x, Decision (P x)} (l : list (A * B)) :
  NoDup l.*1 → NoDup (filter P l).*1.
Proof.
  induction l as [|[a b] l IH]; [done|]. intros [Hni Hnd]%NoDup_cons. rewrite filter_cons.
  case_decide; [|by apply IH]. rewrite fmap_cons. constructor; [|by apply IH]. simpl.
  intros (r & Hr & [_ Hin]%list_elem_of_filter)%list_elem_of_fmap. apply Hni, list_elem_of_fmap. by exists r.
Qed.

(** The watermark is the dot of what was flushed. *)
Definition tier_synced (flushed : option (gmap string CausalDot)) (tier : gmap string CRDTEntry) : Prop :=
  default ∅ flushed = Dot <$> tier.

(** Delta flushing is full flushing: over any iteration order of the latest
    map, when the watermark matches what the tier holds and equal dots mean equal
    entries, flushing the planned delta gives the same tier as flushing every
    entity's latest entry, the committed watermark matches the new tier, the
    delta has exactly the entities whose greatest dot differs from the flushed
    one, and the entry flushed for an entity is the last of its slice. *)
Theorem delta_flush_is_full_flush (e : Engine) (flushed : option (gmap string CausalDot))
    (tier : gmap string CRDTEntry) (order : list (string * CRDTEntry)) :
  wf_engine e → order ≡ₚ map_to_list (latest_of e) → tier_synced flushed tier →
  (∀ k x y, tier !! k = Some x → y ∈ PointGet e k → Dot x = Dot y → x = y) →
  let delta := planQueryTierDelta flushed order in
  flush_rows delta tier = flush_rows order tier ∧
  tier_synced (commitQueryTierDelta delta flushed) (flush_rows delta tier) ∧
  (∀ k x, (k, x) ∈ delta ↔ last (PointGet e k) = Some x ∧ Dot <$> tier !! k ≠ Some (Dot x)).
Proof.
  intros Hwf Hord Hsync Hdots delta. unfold tier_synced in *.
  assert (NoDup order.*1) as Hnd by (rewrite Hord; apply NoDup_fst_map_to_list).
  assert (NoDup delta.*1) as Hnd' by by apply NoDup_filter_fst.
  assert (∀ k x, (k, x) ∈ order ↔ last (PointGet e k) = Some x) as Hin.
  { intros k x. rewrite Hord, elem_of_map_to_list. by rewrite latest_of_last. }
  assert (∀ k x, (k, x) ∈ delta ↔ last (PointGet e k) = Some x ∧ Dot <$> tier !! k ≠ Some (Dot x)) as Hdelta.
  { intros k x. unfold delta, planQueryTierDelta. rewrite list_elem_of_filter, Hin, Hsync, lookup_fmap. simpl. tauto. }
  split_and!; [|by unfold commitQueryTierDelta; simpl; rewrite flush_rows_union, commit_union, Hsync, map_fmap_union|done].
  rewrite !flush_rows_union by done. apply map_eq. intros k. apply option_eq. intros x.
  rewrite !lookup_union_Some_raw. rewrite <- !elem_of_list_to_map, <- !not_elem_of_list_to_map by done. split.
  - intros [[Hl _]%Hdelta|[Hno Ht]]; [left; by apply Hin|].
    destruct (last (PointGet e k)) as [y|] eqn:El; [|right; split; [|done]].
    + left. apply Hin. rewrite El. f_equal. symmetry. eapply Hdots; [done|by apply last_Some_elem_of|].
      assert (¬ Dot <$> tier !! k ≠ Some (Dot y)) as Hd.
      { intros Hd. apply Hno, list_elem_of_fmap. exists (k, y). split; [done|]. by apply Hdelta. }
      apply dec_stable in Hd. rewrite Ht in Hd. by apply (inj Some) in Hd.
    + intros ([k' y] & -> & Hy%Hin)%list_elem_of_fmap. simpl in *. congruence.
  - intros [Hl%Hin|[Hno Ht]].
    + destruct (decide (Dot <$> tier !! k = Some (Dot x))) as [Hd|Hd]; [right|left; by apply Hdelta].
      apply fmap_Some in Hd as (y & Hy & Hyd). assert (y = x) as -> by (eapply Hdots; [done|by apply last_Some_elem_of|done]).
      split; [|done]. intros ([k' z] & -> & [Hz Hne]%Hdelta)%list_elem_of_fmap. simpl in *.
      rewrite Hz in Hl. injection Hl as ->. apply Hne. by rewrite Hy.
    + right. split; [|done]. intros ([k' z] & -> & [Hz _]%Hdelta)%list_elem_of_fmap. apply Hno, list_elem_of_fmap.
      exists (k', z). split; [done|]. by apply Hin.
Qed.
End Tier.
