(* ===== verification/BridgeSys.v ===== *)
(** Writes, crashes and recoveries end to end: goroutines run PutLocal and
    PutLocals (insert, locked append, fsync, each a step of its own), foreign
    joins and checkpoints go on beside them, the process crashes at any point and
    is recovered.  What PutLocal acknowledged is in every later engine. *)
From S2P Require Import Prelude Bytes Sha256 Crc32c Dots Wal WalLog WalReplay WalDurable Hamt.
From S2P Require Import HamtMap Lamport Sorting Engine EngineInv JoinSpec EngineThms Merkle.
From S2P Require Import Snapshot LocalFS Bridge Recovery RecoveryThms.

#[local] Arguments log_file : simpl never.

(** ** Records of this node *)

Definition muts (l : list logrec) : list WALMutation :=
  omap (λ r, match r with LMutation m => Some m | _ => None end) l.

(** What NewWALMutation makes of a dot this node minted. *)
Record origin (nodeID : list Z) (m : WALMutation) : Prop := {
  or_sized : sized_mutation m;
  or_new : wm_Legacy m = false;
  or_entity : wm_EntityID m ≠ "";
  or_node : wm_NodeID m = nodeID;
  or_dotnode : DotNodeID (wm_Full m) = nodeID;
  or_counter : DotCounter (wm_Full m) = wm_Counter m;
  or_origin : OriginNodeID (wm_Full m) = nodeID;
  or_plausible : 0 < wm_Counter m <= maxPlausibleCounter;
}.

Definition rec_origin (nodeID : list Z) (r : logrec) : Prop :=
  match r with LMutation m => origin nodeID m | LMutationV1 _ => False | _ => True end.

Lemma muts_app l1 l2 : muts (l1 ++ l2) = muts l1 ++ muts l2.
Proof. apply omap_app. Qed.

Lemma elem_of_muts l m : m ∈ muts l ↔ LMutation m ∈ l.
Proof.
  unfold muts. rewrite list_elem_of_omap. split.
  - intros (r & Hin & E). by destruct r; simplify_eq.
  - intros Hin. by exists (LMutation m).
Qed.

Lemma log_mutations_framed nodeID l :
  Forall (rec_origin nodeID) l → log_mutations (framed l) = map readV2 (muts l).
Proof.
  unfold log_mutations. induction 1 as [|r l Hr _ IH]; [done|].
  destruct r as [m|m|c|t]; simpl in *; [by rewrite <- IH|done|exact IH|exact IH].
Qed.

Lemma readV2_origin nodeID m :
  origin nodeID m → nodeID ≠ replicate 16 0 →
  checkMutationRecord (readV2 m) nodeID = None ∧ restored nodeID (readV2 m) = (wm_EntityID m, wm_Full m) ∧
  Dot (wm_Full m) = mkDot nodeID (wm_Counter m).
Proof.
  intros [_ H2 H3 H4 H5 H6 H7 H8] Hn. unfold checkMutationRecord, restored, restoreEntry, Dot. simpl.
  rewrite (proj2 (String.eqb_neq _ _) H3), H4, H5, H6, H7.
  rewrite (bool_decide_eq_false_2 (nodeID = _)) by done. rewrite !(bool_decide_eq_true_2 (nodeID = nodeID)) by done.
  rewrite (proj2 (Z.eqb_neq _ _)) by lia. rewrite (proj2 (Z.ltb_ge _ _)) by lia. by rewrite Z.eqb_refl.
Qed.

(** Distinct counters give every dot its owner. *)
Lemma origin_owner nodeID l :
  nodeID ≠ replicate 16 0 → Forall (rec_origin nodeID) l → NoDup (map wm_Counter (muts l)) →
  ∃ G, owns G (map (restored nodeID) (log_mutations (framed l))).
Proof.
  intros Hn Hl Hnd. rewrite (log_mutations_framed nodeID) by done.
  assert (Forall (origin nodeID) (muts l)) as Ho.
  { apply Forall_forall. intros m Hm%elem_of_muts. rewrite Forall_forall in Hl. by apply (Hl (LMutation m)). }
  set (M := list_to_map (map (λ m, (mkDot nodeID (wm_Counter m), (wm_EntityID m, wm_Full m))) (muts l)) : gmap CausalDot SnapshotRecord).
  exists (λ d, default ("", mkEntry [] [] [] 0 0 0 0 0 0 0) (M !! d)).
  intros r (m' & -> & (m & -> & Hm)%list_elem_of_fmap)%list_elem_of_fmap.
  rewrite Forall_forall in Ho. destruct (readV2_origin nodeID m (Ho m Hm) Hn) as (_ & -> & Hd). cbn [snd]. rewrite Hd.
  assert (M !! mkDot nodeID (wm_Counter m) = Some (wm_EntityID m, wm_Full m)) as ->; [|done].
  apply elem_of_list_to_map.
  - rewrite <- list_fmap_compose. rewrite (list_fmap_ext _ (mkDot nodeID ∘ wm_Counter)) by done.
    rewrite list_fmap_compose. apply NoDup_fmap_2; [by intros ?? [= ->]|done].
  - apply list_elem_of_fmap. by exists m.
Qed.

Section System.
Context `{MH : MapHash} `{SS : SliceSort}.
Context (nodeID : list Z).

(** ** The system *)

(** The log with its pending fsyncs and acknowledgements; the engine, while the
    process is up; and the writes between their insert and their append. *)
Record bsys := mkBSys {
  bs_wal : wal_sys;
  bs_engine : option Engine;
  bs_minted : list WALMutation;
}.

(** A call's critical section on the log. *)
Inductive locked_append (c : call) : wal_sys → wal_sys → Prop :=
| la_intro rs f w pend ack f' w' err :
    Forall sized_rec (call_records c) → (∀ i, clean (rs i)) →
    run_locked c rs (f, w) = (f', w', err) → Z.of_nat (length (fdata f')) < 2 ^ 63 →
    locked_append c (mkSys f (Some w) pend ack)
      (mkSys f' (Some w')
         (match err with None => stamped (nextSeq w) (call_records c) :: pend | Some _ => pend end) ack).

Inductive bridge_step : bsys → bsys → Prop :=
(* PutLocal, or an item of PutLocals: digest and InsertLocal *)
| bp_insert k payload x dot m e e' y ms :
    put_insert k payload x e = Ret (dot, m, e') → sized_mutation m → k ≠ "" →
    lamportCounter (clk e) < maxPlausibleCounter →
    bridge_step (mkBSys y (Some e) ms) (mkBSys y (Some e') (m :: ms))
(* the append of some of the writes; they go on to their fsync unless it failed *)
| bp_append c ms rest ms0 e y y' :
    ms0 ≡ₚ ms ++ rest → call_records c = map LMutation ms → locked_append c y y' →
    bridge_step (mkBSys y (Some e) ms0) (mkBSys y' (Some e) rest)
(* a checkpoint's anchor or a clock advance *)
| bp_anchor c r ms e y y' :
    call_records c = [r] → (∀ m, r ≠ LMutation m) → locked_append c y y' →
    bridge_step (mkBSys y (Some e) ms) (mkBSys y' (Some e) ms)
(* a pending fsync ends *)
| bp_sync f w p1 b p2 ack ok f' err e ms :
    syncFile (w_f w) ok f = (f', err) →
    bridge_step (mkBSys (mkSys f (Some w) (p1 ++ b :: p2) ack) (Some e) ms)
      (mkBSys (mkSys f' (Some w) (p1 ++ p2) (match err with None => b ++ ack | Some _ => ack end)) (Some e) ms)
(* a delta from a peer *)
| bp_join entries e e' y ms :
    Forall (λ ie, is_u64 (DotCounter ie.2)) entries → Join (Some entries) e = Ret e' →
    bridge_step (mkBSys y (Some e) ms) (mkBSys y (Some e') ms)
(* a crash at any point: the file keeps any prefix that has all that was fsynced *)
| bp_crash f w pend ack n e ms :
    (durable f <= n)%nat →
    bridge_step (mkBSys (mkSys f w pend ack) e ms)
      (mkBSys (mkSys (mkFile (take n (fdata f)) (length (take n (fdata f)))) None [] ack) None [])
(* the process comes up again *)
| bp_recover f pend ack env e f' w rep :
    RecoverEngine env nodeID (Some f) = Ok (e, f', w, rep) →
    bridge_step (mkBSys (mkSys f None pend ack) None []) (mkBSys (mkSys f' (Some w) pend ack) (Some e) []).

(** The first boot, on no log. *)
Inductive bridge_init : bsys → Prop :=
| bi_boot env e f w rep :
    RecoverEngine env nodeID None = Ok (e, f, w, rep) → bridge_init (mkBSys (mkSys f (Some w) [] []) (Some e) []).

Definition bridge_reachable (s : bsys) : Prop := ∃ s0, bridge_init s0 ∧ rtc bridge_step s0 s.

(** ** The invariant *)

Record engine_up (l : list logrec) (ms : list WALMutation) (e : Engine) : Prop := {
  eu_wf : wf_engine e;
  eu_open : closing e = false;
  eu_dom : dominates e;
  eu_node : localNodeID e = nodeID;
  eu_high : ∀ m, m ∈ muts l ++ ms → wm_Counter m <= lamportCounter (clk e);
}.

Record binv (s : bsys) (l : list logrec) : Prop := {
  bv_wal : winv (bs_wal s) l;
  bv_log : Forall (rec_origin nodeID) l;
  bv_minted : Forall (origin nodeID) (bs_minted s);
  bv_distinct : NoDup (map wm_Counter (muts l ++ bs_minted s));
  bv_engine : ∀ e, bs_engine s = Some e → engine_up l (bs_minted s) e;
}.

#[local] Ltac bsimpl := cbn [bs_wal bs_engine bs_minted] in *.

Lemma put_insert_spec k payload x dot m e e' :
  wf_engine e → closing e = false → dominates e → localNodeID e = nodeID →
  lamportCounter (clk e) < maxPlausibleCounter → put_insert k payload x e = Ret (dot, m, e') →
  wf_engine e' ∧ closing e' = false ∧ dominates e' ∧ localNodeID e' = nodeID ∧
  lamportCounter (clk e') = lamportCounter (clk e) + 1 ∧ wm_EntityID m = k ∧ wm_Counter m = lamportCounter (clk e) + 1 ∧
  (sized_mutation m → k ≠ "" → origin nodeID m) ∧ wm_Full m ∈ PointGet e' k.
Proof.
  intros Hwf Hcl Hd Hnode Hlt H. unfold put_insert in H. set (x' := set_digest _ x) in *.
  destruct (InsertLocal k x' e) as [[dot' e1]|] eqn:E; [|done]. injection H as <- <- <-.
  assert (lamportCounter (clk e) < u64_max) as Hlt' by (unfold maxPlausibleCounter, u64_max in *; lia).
  pose proof Hwf as [_ (Hu & _)].
  destruct (InsertLocal_spec k x' e Hwf Hcl) as (e'' & Hi & Hwf' & Hcl' & Hck & Hn' & _ & _ & Hp & _).
  { by apply dominates_fresh. }
  rewrite Hi in E. injection E as <- <-.
  assert (lamportCounter (clk e) +ₒ 1 = lamportCounter (clk e) + 1) as Ec by (apply u64_id; words).
  assert (dominates e'') as Hd'' by by eapply step_insert_inv.
  assert (lamportCounter (clk e'') = lamportCounter (clk e) + 1) as Eck by (rewrite Hck, NextDot_lamport; exact Ec).
  split_and!; try done; try (cbn [wm_Counter NewWALMutation Counter]; by rewrite ?Ec); [congruence| |].
  - intros Hs Hk. split; try done; cbn [wm_Counter NewWALMutation Counter]; rewrite ?Ec; unfold is_u64 in *; lia.
  - rewrite Hp. left.
Qed.

Lemma locked_append_inv c y y' l :
  locked_append c y y' → winv y l → ∃ added, added `prefix_of` call_records c ∧ winv y' (l ++ added).
Proof. intros [rs f w pend ack f' w' err H1 H2 H3 H4] Hw. by eapply winv_append. Qed.

(** The log and the pending writes may lose records and trade them. *)
Lemma binv_trade y y' e ms ms' gone l l' :
  binv (mkBSys y e ms) l → winv y' l' → muts l ++ ms ≡ₚ (muts l' ++ ms') ++ gone → Forall (rec_origin nodeID) l' →
  binv (mkBSys y' e ms') l'.
Proof.
  intros [Hw Hl Hm Hnd He] Hw' Hp Hl'. bsimpl.
  assert (∀ m, m ∈ muts l' ++ ms' → m ∈ muts l ++ ms) as Hsub.
  { intros m Hin. rewrite Hp. apply elem_of_app. by left. }
  assert (∀ m, m ∈ muts l ++ ms → origin nodeID m) as Ho.
  { intros m [Hin%elem_of_muts|Hin]%elem_of_app.
    - rewrite Forall_forall in Hl. by apply (Hl (LMutation m)).
    - rewrite Forall_forall in Hm. by apply Hm. }
  split; bsimpl; [done|done| | |].
  - apply Forall_forall. intros m Hin. apply Ho, Hsub, elem_of_app. by right.
  - rewrite Hp, map_app in Hnd. by apply NoDup_app in Hnd as [? _].
  - intros e' E. destruct (He e' E) as [H1 H2 H3 H4 H5]. split; [done..|]. intros m Hin. by apply H5, Hsub.
Qed.

Lemma muts_prefix l' l : l' `prefix_of` l → ∃ gone, muts l = muts l' ++ gone.
Proof. intros [k ->]. exists (muts k). apply muts_app. Qed.

Lemma muts_map ms : muts (map LMutation ms) = ms.
Proof. unfold muts. induction ms as [|m ms IH]; [done|]. simpl. by f_equal. Qed.

Lemma recover_reopens env f e f' w rep :
  RecoverEngine env nodeID (Some f) = Ok (e, f', w, rep) → OpenWAL (env_open env) f = (f', Ok w).
Proof.
  intros H. unfold RecoverEngine, RecoverEngineWithSnapshot in H.
  destruct (ReplayWAL (fdata f)) as [rep'|]; [|done]. cbv zeta in H.
  destruct (rebuild _ _ _ _) as [[[[e1 n] lg] h]|]; [|done]. cbn [mbind result_bind] in H.
  unfold reopen in H. destruct (OpenWAL (env_open env) f) as [f1 [w1|]]; [|done]. cbn [mbind result_bind] in H.
  destruct (_ && negb _); [done|]. cbn [mbind result_bind] in H. by injection H as _ <- <- _.
Qed.

(** Recovering a log of this node's records: it succeeds, and the engine has
    every mutation and a clock above all of them. *)
Lemma recover_origin_log env f l tail :
  nodeID ≠ replicate 16 0 → Forall sized_rec l → Forall (rec_origin nodeID) l → NoDup (map wm_Counter (muts l)) →
  fdata f = log_file (framed l) ++ tail → torn (length l) tail → Z.of_nat (length (fdata f)) < 2 ^ 63 →
  match RecoverEngine env nodeID (Some f) with
  | Ok (e, f', w, rep) => engine_up l [] e ∧ ∀ m, m ∈ muts l → wm_Full m ∈ PointGet e (wm_EntityID m)
  | Err err => env_engine_ok env = false ∨ oi_truncate (env_open env) = false
  end.
Proof.
  intros Hn Hs Ho Hnd Hf Ht Hz. destruct (origin_owner nodeID l Hn Ho Hnd) as [G HG].
  assert (∀ m, m ∈ muts l → origin nodeID m) as Hor.
  { intros m Hm%elem_of_muts. rewrite Forall_forall in Ho. by apply (Ho (LMutation m)). }
  assert (Forall (λ m, checkMutationRecord m nodeID = None) (log_mutations (framed l))) as Hck.
  { rewrite (log_mutations_framed nodeID) by done. apply Forall_fmap, Forall_forall. intros m Hm. by apply readV2_origin; [apply Hor|]. }
  assert (dots_consistent nodeID (log_mutations (framed l))) as Hc.
  { eapply Forall_impl; [exact Hck|]. intros m. apply checked_consistent. }
  assert (u64_dots []) as Hu by constructor.
  pose proof (recover_spec G env nodeID f (framed l) tail None (framed_sized _ Hs) Hf ltac:(by rewrite length_framed) Hz HG Hu Hc) as H.
  unfold RecoverEngine. destruct (RecoverEngineWithSnapshot env nodeID (Some f) None) as [[[[[e f'] w] rep'] wit]|err];
    cbn [mbind result_bind].
  - destruct H as (-> & (R & [Hwf Hcl Hd Hlow Hnode Hg] & HR) & _).
    assert (∀ m, m ∈ muts l → wm_Full m ∈ PointGet e (wm_EntityID m)) as Hall.
    { intros m Hm. apply Hg, HR, elem_of_app. right. rewrite (log_mutations_framed nodeID) by done.
      apply list_elem_of_fmap. exists (readV2 m). split; [|apply list_elem_of_fmap; by exists m].
      destruct (readV2_origin nodeID m (Hor m Hm) Hn) as (_ & -> & _). done. }
    split; [|done]. split; [done|done|done|done|]. intros m. rewrite app_nil_r. intros Hm.
    rewrite <- (or_counter _ _ (Hor m Hm)). by eapply Hd, Hall.
  - destruct H as [[[? _]|[(m & Hm & E)|(img & e & ? & _)]]|[[? _]|([? ?] & _)]]; [by left| |done|by right|done].
    rewrite Forall_forall in Hck. rewrite (Hck m Hm) in E. done.
Qed.

Lemma binv_insert k payload x dot m e e' y ms l :
  binv (mkBSys y (Some e) ms) l → put_insert k payload x e = Ret (dot, m, e') → sized_mutation m → k ≠ "" →
  lamportCounter (clk e) < maxPlausibleCounter → binv (mkBSys y (Some e') (m :: ms)) l.
Proof.
  intros [Hw Hl Hm Hnd He] Hi Hsz Hk Hlt. bsimpl. destruct (He e eq_refl) as [H1 H2 H3 H4 H5].
  destruct (put_insert_spec k payload x dot m e e' H1 H2 H3 H4 Hlt Hi) as (G1 & G2 & G3 & G4 & G5 & G6 & G7 & G8 & _).
  assert (muts l ++ m :: ms ≡ₚ m :: (muts l ++ ms)) as Hperm by (symmetry; apply Permutation_middle).
  split; bsimpl; [done|done|by constructor; [apply G8|]| |].
  - rewrite Hperm. cbn [map]. constructor; [|done]. intros (m' & E & Hin)%list_elem_of_fmap. specialize (H5 m' Hin). lia.
  - intros e0 [= <-]. split; [done..|]. intros m'. rewrite Hperm. intros [->|Hin]%elem_of_cons; [lia|].
    specialize (H5 m' Hin). lia.
Qed.

Lemma binv_append c ms rest ms0 e y y' l :
  binv (mkBSys y e ms0) l → ms0 ≡ₚ ms ++ rest → call_records c = map LMutation ms → locked_append c y y' →
  ∃ l', binv (mkBSys y' e rest) l'.
Proof.
  intros Hb Hp Hc Hla. destruct (locked_append_inv c y y' l Hla (bv_wal _ _ Hb)) as (added & Hpre & Hw').
  exists (l ++ added). rewrite Hc in Hpre. destruct Hpre as [k Hk].
  assert (ms = muts added ++ muts k) as Hms by (rewrite <- muts_app, <- Hk; by rewrite muts_map).
  eapply (binv_trade y y' e ms0 rest (muts k) l); [done|done| |].
  - rewrite Hp, Hms, muts_app. rewrite <- !(assoc_L (++)). do 2 f_equiv. apply Permutation_app_comm.
  - apply Forall_app. split; [apply Hb|]. apply Forall_forall. intros r Hr.
    assert (r ∈ map LMutation ms) as Hin by (rewrite Hk; apply elem_of_app; by left).
    apply list_elem_of_fmap in Hin as (m & -> & Hm). simpl. pose proof (bv_minted _ _ Hb) as Hmt. bsimpl.
    rewrite Hp, Forall_app in Hmt. destruct Hmt as [Hmt _]. rewrite Forall_forall in Hmt. by apply Hmt.
Qed.

Lemma binv_anchor c r ms e y y' l :
  binv (mkBSys y e ms) l → call_records c = [r] → (∀ m, r ≠ LMutation m) → locked_append c y y' →
  ∃ l', binv (mkBSys y' e ms) l'.
Proof.
  intros Hb Hc Hr Hla. destruct (locked_append_inv c y y' l Hla (bv_wal _ _ Hb)) as (added & Hpre & Hw').
  exists (l ++ added). rewrite Hc in Hpre. assert (added = [] ∨ added = [r]) as Hadd.
  { destruct Hpre as [k Hk]. destruct added as [|r' [|]]; simplify_eq/=; tauto. }
  assert (muts added = [] ∧ Forall (rec_origin nodeID) added) as [Hma Hoa].
  { destruct Hadd as [->| ->]; [by split|]. destruct Hla as [rs f w pend ack f' w' err Hsz _ _ _].
    destruct r as [m|m|c'|t]; [by destruct (Hr m)| |by repeat constructor..]. exfalso. by destruct c as [|[|? []]| |]. }
  eapply (binv_trade y y' e ms ms [] l); [done|done| |by apply Forall_app; split; [apply Hb|]].
  by rewrite muts_app, Hma, !app_nil_r.
Qed.

Lemma binv_join entries e e' y ms l :
  binv (mkBSys y (Some e) ms) l → Forall (λ ie, is_u64 (DotCounter ie.2)) entries → Join (Some entries) e = Ret e' →
  binv (mkBSys y (Some e') ms) l.
Proof.
  intros [Hw Hl Hm Hnd He] Hf Hj. bsimpl. split; bsimpl; [done..|]. intros e0 [= <-].
  destruct (He e eq_refl) as [H1 H2 H3 H4 H5].
  destruct (step_join_inv entries e e' Hf Hj H1 H3) as [G1 G2].
  destruct (join_ret entries e H1 H2 Hf) as (e'' & _ & _ & Hj' & _ & _ & Hck & _ & Hn' & Hcl' & _).
  rewrite Hj in Hj'. injection Hj' as <-. split; [done|congruence|done|congruence|]. intros m Hin.
  rewrite Hck, receive_entries_max. specialize (H5 m Hin).
  pose proof (proj1 (foldr_max_ge (map (λ ie, DotCounter ie.2) entries) (lamportCounter (clk e)))). lia.
Qed.

Lemma binv_crash f w pend ack n e ms l :
  binv (mkBSys (mkSys f w pend ack) e ms) l → (durable f <= n)%nat →
  ∃ l', binv (mkBSys (mkSys (mkFile (take n (fdata f)) (length (take n (fdata f)))) None [] ack) None []) l'.
Proof.
  intros Hb H. destruct (winv_crash f w pend ack l n (bv_wal _ _ Hb) H) as (l' & Hpre & Hw'). exists l'.
  destruct (muts_prefix l' l Hpre) as [gone Hg].
  eapply (binv_trade _ _ None ms [] (gone ++ ms) l); [|done| |].
  - destruct Hb as [B1 B2 B3 B4 _]. by split.
  - rewrite Hg, app_nil_r. by rewrite <- (assoc_L (++)).
  - destruct Hpre as [k ->]. pose proof (bv_log _ _ Hb) as Hl. by apply Forall_app in Hl as [? _].
Qed.

Lemma binv_recover f pend ack env e f' w rep l :
  nodeID ≠ replicate 16 0 → binv (mkBSys (mkSys f None pend ack) None []) l →
  RecoverEngine env nodeID (Some f) = Ok (e, f', w, rep) → binv (mkBSys (mkSys f' (Some w) pend ack) (Some e) []) l.
Proof.
  intros Hn [Hw Hl Hm Hnd He] H. bsimpl. rewrite app_nil_r in Hnd.
  pose proof (wi_sized _ _ Hw) as Hs. pose proof (wi_size _ _ Hw) as Hz. destruct (wi_file _ _ Hw) as (tail & Ef & Ht).
  cbn [y_file] in *.
  pose proof (recover_origin_log env f l tail Hn Hs Hl Hnd Ef Ht Hz) as Hup. rewrite H in Hup.
  apply recover_reopens in H. split; bsimpl; [by eapply winv_open|done|done|by rewrite app_nil_r|].
  intros e0 [= <-]. apply Hup.
Qed.

Lemma binv_step s s' l : nodeID ≠ replicate 16 0 → bridge_step s s' → binv s l → ∃ l', binv s' l'.
Proof.
  intros Hn [k payload x dot m e e' y ms Hi Hsz Hk Hlt|c ms rest ms0 e y y' Hp Hc Hla|c r ms e y y' Hc Hr Hla
    |f w p1 b p2 ack ok f' err e ms H|entries e e' y ms Hf Hj|f w pend ack n e ms H|f pend ack env e f' w rep H] Hb.
  - exists l. by eapply binv_insert.
  - by eapply binv_append.
  - by eapply binv_anchor.
  - exists l. eapply (binv_trade _ _ (Some e) ms ms [] l); [done|by eapply winv_sync; [apply (bv_wal _ _ Hb)|]| |apply Hb].
    by rewrite app_nil_r.
  - exists l. by eapply binv_join.
  - by eapply binv_crash.
  - exists l. by eapply binv_recover.
Qed.

Lemma binv_init s : bridge_init s → binv s [].
Proof.
  intros [env e f w rep H]. unfold RecoverEngine, RecoverEngineWithSnapshot, coldBoot, newEngineAt, reopen in H.
  destruct (env_engine_ok env); [|done]. cbn [mbind result_bind] in H.
  destruct (OpenWAL (env_open env) (mkFile [] 0)) as [f1 [w1|]] eqn:E; [|done]. cbn [mbind result_bind] in H.
  injection H as <- <- <- <-. split; bsimpl; [by eapply winv_init, wi_create|constructor|constructor|constructor|].
  intros e0 [= <-]. split; [by apply wf_NewDeltaCRDTEngine|done| |done|by intros m ?%elem_of_nil].
  intros k x Hx. rewrite PointGet_new in Hx. by apply elem_of_nil in Hx.
Qed.

Lemma binv_reachable s : nodeID ≠ replicate 16 0 → bridge_reachable s → ∃ l, binv s l.
Proof.
  intros Hn (s0 & H0 & Hr). assert (∃ l, binv s0 l) as Hl by (exists []; by apply binv_init). clear H0.
  induction Hr as [s|s s1 s2 Hs _ IH]; [done|]. apply IH. destruct Hl as [l Hl]. by eapply binv_step.
Qed.

(** C2. End to end: for any interleaving of writers, foreign joins, checkpoint
    anchors, clock advances, failed writes and fsyncs, crashes and recoveries, a
    crash then leaves a log from which recovery succeeds and reads every write
    whose PutLocal or PutLocals returned nil. This is when a write that fails
    stores no bytes, records are within the length bound, entity ids are not
    empty and the clock is below 2^60 at each local write, and when recovery can
    build an engine and truncate the file. (short_write_strands_acked,
    oversized_mutation_bricks_log and implausible_counter_bricks_recovery show
    what happens otherwise.) *)
Theorem acked_put_survives (s : bsys) (n : nat) (env : recoverEnv) :
  nodeID ≠ replicate 16 0 → bridge_reachable s → (durable (y_file (bs_wal s)) <= n)%nat →
  env_engine_ok env = true → oi_truncate (env_open env) = true →
  let image := take n (fdata (y_file (bs_wal s))) in
  ∃ e f w rep, RecoverEngine env nodeID (Some (mkFile image (length image))) = Ok (e, f, w, rep) ∧
    wf_engine e ∧ dominates e ∧
    ∀ i m, (i, LMutation m) ∈ y_acked (bs_wal s) →
      wm_Full m ∈ PointGet e (wm_EntityID m) ∧ Dot (wm_Full m) = mkDot nodeID (wm_Counter m).
Proof.
  intros Hn Hr Hd Hen Htr image. destruct (binv_reachable s Hn Hr) as [l Hb]. destruct s as [[f w pend ack] e ms]. bsimpl.
  cbn [y_file y_acked] in *.
  destruct (winv_image f w pend ack l n (bv_wal _ _ Hb) Hd) as (l' & tail & Hpre & Hs & E & Ht & Ha).
  destruct Hb as [Hw Hl _ Hnd _]. bsimpl. pose proof (wi_size _ _ Hw) as Hz. cbn [y_file] in Hz.
  destruct (muts_prefix l' l Hpre) as [gone Hg].
  assert (NoDup (map wm_Counter (muts l'))) as Hnd'.
  { rewrite Hg, !map_app in Hnd. apply NoDup_app in Hnd as [Hnd _]. by apply NoDup_app in Hnd as [? _]. }
  assert (Forall (rec_origin nodeID) l') as Hl' by (destruct Hpre as [k ->]; by apply Forall_app in Hl as [? _]).
  assert (Z.of_nat (length image) < 2 ^ 63) as Hz' by (unfold image; rewrite length_take; lia).
  pose proof (recover_origin_log env (mkFile image (length image)) l' tail Hn Hs Hl' Hnd' E Ht Hz') as H.
  destruct (RecoverEngine env nodeID _) as [[[[e' f'] w'] rep]|err]; [|destruct H; congruence].
  destruct H as [[H1 _ H3 _ _] Hall]. exists e', f', w', rep. split_and!; [done..|].
  intros i m Hin. assert (LMutation m ∈ l') as Hm by (eapply list_elem_of_lookup_2; by apply Ha).
  split; [by apply Hall, elem_of_muts|]. rewrite Forall_forall in Hl'. specialize (Hl' _ Hm). simpl in Hl'.
  by apply readV2_origin.
Qed.
End System.
