(* ===== verification/DurableWit.v ===== *)
(** Concrete runs of the durability layer, in one of which the dot of a lost
    write is minted again after the recovery, and instances of its theorems. *)
From S2P Require Import Prelude Bytes Sha256 Crc32c Dots Wal WalLog WalReplay WalDurable Hamt.
From S2P Require Import HamtMap Lamport Sorting Engine EngineInv JoinSpec EngineThms Merkle.
From S2P Require Import Snapshot LocalFS Bridge Recovery RecoveryThms BridgeThms QueryTier.
From S2P Require Import BridgeSys.

#[local] Existing Instance fnv_maphash.
#[local] Existing Instance insertion_SliceSort.

Definition run_node : list Z := replicate 16 7.
Definition run_env : recoverEnv := mkEnv 5 (λ i, Z.of_nat i) true (mkOpenIO WrOk true true).
Definition blank_entry : CRDTEntry :=
  mkEntry (replicate 32 0) (replicate 16 0) (replicate 16 0) 0 11 12 13 14 15 16.

(** The bridge of a recovered node. *)
Definition boot (f : option File) : option Bridge :=
  match RecoverEngine run_env run_node f with
  | Ok (e, f, w, _) => Some (NewBridge e (f, w) 0)
  | Err _ => None
  end.

Definition put (k : string) (payload : list Z) (r : wres) (b : Bridge) : option (CausalDot * bool * Bridge) :=
  match PutLocal k payload blank_entry r true 0 b with
  | Ret (dot, err, b, _) => Some (dot, bool_decide (err = None), b)
  | Panic _ => None
  end.

(** Boot, an acknowledged write, a write whose append fails, a crash, a recovery
    and a third write: the dots of the last two, whether they were acknowledged,
    and what each engine then reads. *)
Definition remint_run : option (CausalDot * bool * list CRDTEntry * CausalDot * bool * list CRDTEntry) :=
  b ← boot None;
  '(_, _, b) ← put "z" [1] WrOk b;
  '(d1, ok1, b) ← put "k" [2] (WrShort 0) b;
  b' ← boot (Some (b_log b).1);
  '(d2, ok2, b') ← put "k" [3] WrOk b';
  Some (d1, ok1, PointGet (b_engine b) "k", d2, ok2, PointGet (b_engine b') "k").

(** A lost write's dot is minted again: a PutLocal whose append fails leaves
    its entry in the engine, where readers and gossip see it; after a crash the
    recovered clock stands at the log's high-water, and the next PutLocal gives
    the same dot to a different entry and acknowledges it.  A replica that got
    the first entry keeps it: merging the second in changes nothing. *)
Theorem lost_insert_dot_reminted :
  ∃ d A B, remint_run = Some (d, false, [A], d, true, [B]) ∧ Dot A = d ∧ Dot B = d ∧ A ≠ B ∧
    merged (dotMerge [A] [B]) = [A] ∧ merged (dotMerge [B] [A]) = [B].
Proof.
  destruct remint_run as [[[[[[d1 ok1] A] d2] ok2] B]|] eqn:E; vm_compute in E; [|discriminate E].
  injection E as <- <- <- <- <- <-. do 3 eexists. split_and!; try reflexivity. discriminate.
Qed.

(** Boot, a delta from a peer whose dot is at 2^60, a local write, a restart: the
    write's outcome and the restart's error. *)
Definition implausible_run : option (bool * option RecoveryError) :=
  b ← boot None;
  match Join (Some [("p", sample_entry 9 (2 ^ 60) 1)]) (b_engine b) with
  | Panic _ => None
  | Ret e =>
      '(_, ok, b) ← put "k" [2] WrOk (set_engine e b);
      match RecoverEngine run_env run_node (Some (b_log b).1) with
      | Ok _ => Some (ok, None)
      | Err err => Some (ok, Some err)
      end
  end.

(** Recovery refuses a log that was acknowledged: once a peer's dot has moved
    the clock to 2^60, the next PutLocal mints a counter above
    maxPlausibleCounter, appends and acknowledges it, and every recovery of that
    log fails with the implausible-counter error. *)
Theorem implausible_counter_bricks_recovery :
  implausible_run = Some (true, Some RErrImplausibleCounter).
Proof. vm_compute. reflexivity. Qed.

(** * The witnesses of the durability layer's theorems, on concrete images, logs
    and runs. *)

#[local] Existing Instance fnv_maphash.
#[local] Existing Instance insertion_SliceSort.

(** ** Witnesses: images and stores *)

Definition run_image : SnapshotImage := mkImage [("b", sample_entry 2 7 5); ("a", sample_entry 2 6 5)] (replicate 32 1) 7 3.

Lemma run_entry_sized n c p : is_byte n → is_byte p → is_u64 c → sized_entry (sample_entry n c p).
Proof. intros Hn Hp Hc. unfold sized_entry, is_bytes. split_and!; try done; by apply Forall_replicate. Qed.

Lemma run_image_sized : sized_image run_image.
Proof.
  unfold sized_image. split_and!; try done; [|by apply Forall_replicate].
  repeat (constructor; [split; [by apply run_entry_sized|done]|]). constructor.
Qed.

Lemma snapshot_image_roundtrip_witness :
  ∃ body, encodeSnapshotImage run_image = Ok (body ++ be_put 4 (crc32_Checksum body)) ∧
    decodeSnapshotImage (body ++ be_put 4 (crc32_Checksum body)) =
      Ok (mkImage [("a", sample_entry 2 6 5); ("b", sample_entry 2 7 5)] (replicate 32 1) 7 3).
Proof.
  destruct (snapshot_image_roundtrip run_image run_image_sized) as (body & H1 & H2 & _).
  exists body. split; [exact H1|exact H2].
Defined.

Lemma fingerprint_determines_state_witness :
  StateFingerprint merkle_engine_1 = StateFingerprint merkle_engine_1.
Proof.
  apply (fingerprint_determines_state merkle_engine_1 merkle_engine_1).
  - apply merkle_engine_1_ok.
  - apply merkle_engine_1_ok.
  - intros k x Hx. assert (x ∈ PointGet merkle_engine_1 k) as Hin by tauto. clear Hx.
    apply elem_of_state_records in Hin; [|apply merkle_engine_1_ok].
    assert (state_records merkle_engine_1 = [("a", sample_entry 2 4 5); ("b", sample_entry 1 9 5)]) as E by (vm_compute; reflexivity).
    rewrite E in Hin. apply elem_of_cons in Hin as [[= -> ->]|Hin]; [by apply run_entry_sized|].
    apply elem_of_cons in Hin as [[= -> ->]|Hin%elem_of_nil]; [by apply run_entry_sized|done].
  - reflexivity.
Defined.

Lemma resolve_confined_witness :
  resolve ["data"; "lsm"] "ckpt/x/../9" = Ok ["data"; "lsm"; "ckpt"; "9"] ∧
  ["data"; "lsm"] `prefix_of` ["data"; "lsm"; "ckpt"; "9"].
Proof. split; [reflexivity|]. apply (resolve_confined ["data"; "lsm"] "ckpt/x/../9"). reflexivity. Defined.

Lemma localfs_snapshot_atomic_witness :
  ∃ fs', WriteSnapshotImage ["data"] run_image UpOk ∅ = (fs', Ok tt) ∧ SnapshotExists ["data"] fs' 7 = Ok true.
Proof.
  destruct (localfs_snapshot_atomic ["data"] ∅ run_image) as [H _]; [done|by intros p d ?|by repeat constructor|].
  destruct (H run_image_sized) as (fs' & H1 & H2 & _). exists fs'. split; [exact H1|exact H2].
Defined.

(** ** Witnesses: a log and its recovery *)

Definition run_m (c : Z) : WALMutation := NewWALMutation "k" (mkDot run_node c) (set_digest (Sum256 [c]) blank_entry).

Lemma run_m_sized c : is_u64 c → sized_mutation (run_m c).
Proof.
  intros Hc. unfold sized_mutation, sized_entry, sized_walentry, is_bytes.
  pose proof (length_Sum256 [c]) as H1. pose proof (Sum256_bytes [c]) as H2. unfold is_bytes in H2.
  split_and!; try done; try (by apply Forall_replicate).
Qed.

Definition run_log : list frec := [(true, LMutation (run_m 2)); (true, LClockAdvance 9); (false, LMutation (run_m 10))].
Definition run_file : File := mkFile (log_file run_log) 0.

Lemma run_log_sized : sized_log run_log.
Proof. repeat (constructor; [first [by apply run_m_sized|done]|]). constructor. Qed.

Lemma run_log_owner : ∃ G, owns G (map (restored run_node) (log_mutations run_log)).
Proof.
  exists (λ d, ("k", wm_Full (run_m (Counter d)))). intros r Hr.
  apply elem_of_cons in Hr as [->|Hr]; [reflexivity|]. apply elem_of_cons in Hr as [->|?%elem_of_nil]; [reflexivity|done].
Qed.

Lemma run_log_checked : Forall (λ m, checkMutationRecord m run_node = None) (log_mutations run_log).
Proof. repeat constructor. Qed.

Lemma run_file_short : Z.of_nat (length (fdata run_file)) < 2 ^ 63.
Proof.
  assert (length (fdata run_file) = 363)%nat as ->; [|lia]. unfold run_file, log_file, run_log. cbn [fdata].
  vm_compute. reflexivity.
Qed.

Lemma recovery_exact_witness :
  (∃ e f w rep wit, RecoverEngineWithSnapshot run_env run_node (Some run_file) None = Ok (e, f, w, rep, wit) ∧
     10 <= lamportCounter (clk e)) ∨
  ∃ err, recovery_failure run_env run_node run_log (chooseImage run_node (replay_log run_log) None) err.
Proof.
  destruct run_log_owner as [G HG].
  assert (fdata run_file = log_file run_log ++ []) as Hf by by rewrite app_nil_r.
  assert (dots_consistent run_node (log_mutations run_log)) as Hc by (repeat constructor).
  assert (u64_dots []) as Hu by constructor.
  pose proof (recovery_exact G run_env run_node run_file run_log [] None run_log_sized Hf (torn_nil _) run_file_short HG Hu Hc) as H.
  destruct (RecoverEngineWithSnapshot run_env run_node (Some run_file) None) as [[[[[e f'] w] rep'] wit]|err].
  - left. destruct H as (_ & _ & _ & _ & _ & Hh & _). exists e, f', w, rep', wit. split; [reflexivity|].
    assert (log_high run_log = 10) as E by (vm_compute; reflexivity). rewrite E in Hh. exact Hh.
  - right. exists err. exact H.
Defined.

Lemma recovery_total_witness :
  ∃ e f' w, RecoverEngine run_env run_node (Some run_file) = Ok (e, f', w, replay_log run_log) ∧
    wm_Full (run_m 10) ∈ PointGet e "k".
Proof.
  destruct run_log_owner as [G HG].
  assert (fdata run_file = log_file run_log ++ []) as Hf by by rewrite app_nil_r.
  destruct (recovery_total G run_env run_node run_file run_log [] run_log_sized Hf (torn_nil _) run_file_short HG
    run_log_checked eq_refl eq_refl) as (e & f' & H & _ & _ & _ & Hg).
  exists e, f', (mkWAL (Some (length (log_file run_log))) (Z.of_nat (length run_log))). split; [exact H|].
  apply Hg. exists (readV2 (run_m 10)). split_and!; [right; left|reflexivity|reflexivity].
Defined.

(** ** Witness: an acknowledged write *)

Definition run_e0 : Engine := NewDeltaCRDTEngine run_node 1 None 5 (λ i, Z.of_nat i).
Definition run_f0 : File := mkFile walHeader 8.
Definition run_w0 : WAL := mkWAL (Some 8%nat) 0.
Definition run_e1 : Engine :=
  match put_insert "k" [2] blank_entry run_e0 with Ret (_, _, e) => e | Panic _ => run_e0 end.
Definition run_s1 : File * WAL * option WALError := run_locked (CallMutation (run_m 2)) (λ _, WrOk) (run_f0, run_w0).
Definition run_final : bsys :=
  mkBSys (mkSys (file_sync run_s1.1.1) (Some run_s1.1.2) [] [(0%nat, LMutation (run_m 2))]) (Some run_e1) [].

Lemma run_reaches : bridge_reachable run_node run_final.
Proof.
  exists (mkBSys (mkSys run_f0 (Some run_w0) [] []) (Some run_e0) []). split.
  { apply (bi_boot run_node run_env run_e0 run_f0 run_w0 emptyReplayed). reflexivity. }
  eapply rtc_l.
  { apply (bp_insert run_node "k" [2] blank_entry (mkDot run_node 2) (run_m 2) run_e0 run_e1);
      [vm_compute; reflexivity|by apply run_m_sized|done|reflexivity]. }
  eapply rtc_l.
  { apply (bp_append run_node (CallMutation (run_m 2)) [run_m 2] [] _ _ _
      (mkSys run_s1.1.1 (Some run_s1.1.2) [stamped 0 [LMutation (run_m 2)]] [])); [reflexivity|reflexivity|].
    apply (la_intro (CallMutation (run_m 2)) (λ _, WrOk) run_f0 run_w0 [] [] run_s1.1.1 run_s1.1.2 None).
    - constructor; [by apply run_m_sized|constructor].
    - by left.
    - vm_compute. reflexivity.
    - vm_compute. reflexivity. }
  eapply rtc_l; [|apply rtc_refl].
  apply (bp_sync run_node run_s1.1.1 run_s1.1.2 [] (stamped 0 [LMutation (run_m 2)]) [] [] true (file_sync run_s1.1.1) None).
  vm_compute. reflexivity.
Qed.

Lemma acked_put_survives_witness :
  let image := fdata (y_file (bs_wal run_final)) in
  ∃ e f w rep, RecoverEngine run_env run_node (Some (mkFile image (length image))) = Ok (e, f, w, rep) ∧
    wm_Full (run_m 2) ∈ PointGet e "k".
Proof.
  intros image. set (n := length image).
  destruct (acked_put_survives run_node run_final n run_env) as (e & f & w & rep & H & _ & _ & Hg);
    [done|exact run_reaches|reflexivity|reflexivity|reflexivity|].
  assert (take n (fdata (y_file (bs_wal run_final))) = image) as E by apply firstn_all.
  rewrite E in H. exists e, f, w, rep. split; [exact H|]. apply (Hg 0%nat (run_m 2)). left.
Defined.

(** ** Witnesses: a checkpoint *)

Lemma delta_flush_is_full_flush_witness :
  let order := map_to_list (latest_of merkle_engine_1) in
  flush_rows (planQueryTierDelta None order) ∅ = flush_rows order ∅.
Proof.
  intros order. apply (delta_flush_is_full_flush merkle_engine_1 None ∅ order).
  - apply merkle_engine_1_ok.
  - reflexivity.
  - reflexivity.
  - intros k x y Hx. by rewrite lookup_empty in Hx.
Defined.

Definition run_bridge : Bridge :=
  SetSnapshotter (Some (["data"], ∅)) false (NewBridge run_e1 (file_sync run_s1.1.1, run_s1.1.2) 0).
Definition run_io : ckpt_io := mkCkptIO WrOk true UpOk true true map_to_list.
Definition run_bridge' : Bridge := (Bridge_AppendCheckpoint run_io run_bridge).2.

Lemma run_e0_ok : wf_engine run_e0 ∧ dominates run_e0.
Proof.
  unfold run_e0. split; [by apply wf_NewDeltaCRDTEngine|]. intros k x Hx. rewrite PointGet_new in Hx. by apply elem_of_nil in Hx.
Qed.

Lemma run_e1_put : put_insert "k" [2] blank_entry run_e0 = Ret (mkDot run_node 2, run_m 2, run_e1).
Proof. vm_compute. reflexivity. Qed.

Lemma run_e1_ok : wf_engine run_e1 ∧ localNodeID run_e1 = run_node.
Proof.
  destruct (put_insert_spec run_node "k" [2] blank_entry _ _ run_e0 run_e1 (proj1 run_e0_ok) eq_refl (proj2 run_e0_ok)
    eq_refl eq_refl run_e1_put) as (H1 & _ & _ & H2 & _). split; assumption.
Qed.

Lemma run_e1_records : state_records run_e1 = [("k", wm_Full (run_m 2))].
Proof. vm_compute. reflexivity. Qed.

Lemma run_e1_fits : image_fits run_e1.
Proof.
  unfold image_fits. rewrite run_e1_records.
  split; [|cbn [length]; unfold sizeofSnapshotRecord, maxAlloc; lia]. constructor; [|constructor].
  split; cbn [fst snd]; [apply (run_m_sized 2); done|]. vm_compute. discriminate.
Qed.

Lemma run_ckpt_log c : log_mutations (framed ([LMutation (run_m 2)] ++ [LCheckpoint c])) = [readV2 (run_m 2)].
Proof. reflexivity. Qed.

Lemma run_ckpt_local r :
  r ∈ [("k", wm_Full (run_m 2))] → Dot r.2 ∈ map mutation_dot [readV2 (run_m 2)].
Proof. intros [->|?%elem_of_nil]%elem_of_cons; [|done]. apply list_elem_of_fmap.
  exists (readV2 (run_m 2)). split; [reflexivity|apply list_elem_of_here].
Qed.

Lemma run_ckpt_owner :
  owns (λ d, ("k", wm_Full (run_m (Counter d)))) ([("k", wm_Full (run_m 2))] ++ map (restored run_node) [readV2 (run_m 2)]).
Proof. intros r [->|[->|?%elem_of_nil]%elem_of_cons]%elem_of_cons; [reflexivity|reflexivity|done]. Qed.

Lemma checkpoint_bounds_recovery_witness :
  ∃ fs', b_snapshotter run_bridge' = Some (["data"], fs') ∧
    ∃ e f' w rep wit,
      RecoverEngineWithSnapshot run_env run_node (Some (b_log run_bridge').1) (Some (localStore ["data"] fs')) =
        Ok (e, f', w, rep, wit) ∧ rw_Bounded wit = true.
Proof.
  destruct run_e1_ok as [Hwf Hnode].
  destruct (checkpoint_bounds_recovery run_bridge run_bridge' run_io ["data"] ∅ [LMutation (run_m 2)])
    as (fs' & Hf & Hs & H).
  - exact Hwf.
  - exact run_e1_fits.
  - split_and!; vm_compute; reflexivity.
  - constructor; [by apply run_m_sized|constructor].
  - reflexivity.
  - split_and!; [done|by intros p d ?|by repeat constructor].
  - vm_compute. reflexivity.
  - reflexivity.
  - reflexivity.
  - vm_compute. reflexivity.
  - exists fs'. split; [exact Hs|].
    destruct (H (λ d, ("k", wm_Full (run_m (Counter d)))) [] [] (b_log run_bridge').1 run_env)
      as (e & f' & w & rep & wit & Hr & Hb & _).
    + constructor.
    + constructor.
    + rewrite app_nil_r. exact Hf.
    + apply torn_nil.
    + vm_compute. reflexivity.
    + cbn [b_engine run_bridge SetSnapshotter NewBridge]. rewrite run_e1_records, run_ckpt_log. intros r Hr _.
      exact (run_ckpt_local r Hr).
    + cbn [b_engine run_bridge SetSnapshotter NewBridge]. rewrite run_e1_records, run_ckpt_log, Hnode. exact run_ckpt_owner.
    + cbn [b_engine run_bridge SetSnapshotter NewBridge]. rewrite run_ckpt_log, Hnode.
      constructor; [reflexivity|constructor].
    + reflexivity.
    + reflexivity.
    + exists e, f', w, rep, wit. split; [|exact Hb]. cbn [b_engine run_bridge SetSnapshotter NewBridge] in Hr.
      rewrite Hnode in Hr. exact Hr.
Defined.
