(* ===== verification/Iblt.v ===== *)
(** Invertible Bloom lookup tables (pkg/sync/iblt.go): Insert, Delete, Subtract,
    the purity test and the peeling cascade, with the algebra of tables the
    theorems rest on.  The arena-backed variants (NewArenaIBLT, subtractArena,
    PeelArena) run the same computation on other memory. *)
From S2P Require Import Prelude Bytes Dots Hamt HamtMap Lamport Sorting Engine.

(** ** Data *)

Record Bucket := mkBucket { Count : Z; KeySum : Z; HashSum : Z }.

#[global] Instance Bucket_eq_dec : EqDecision Bucket.
Proof. solve_decision. Defined.

(** [ibltSeed] is the maphash seed word. *)
Record IBLT := mkIBLT { buckets : list Bucket; ibltK : nat; ibltSeed : Z }.

Definition zeroBucket : Bucket := mkBucket 0 0 0.
Definition ibltMaxK : Z := 8.

Definition NumBuckets (t : IBLT) : Z := Z.of_nat (length (buckets t)).

Definition NewIBLTWithSeed (numBuckets k seed : Z) : outcome IBLT :=
  if (k <=? 0) || (ibltMaxK <? k) then Panic "iblt: k out of range [1, 8]"
  else if numBuckets <? 0 then Panic "makeslice: len out of range"
  else Ret (mkIBLT (replicate (Z.to_nat numBuckets) zeroBucket) (Z.to_nat k) seed).

(** NewArenaIBLT clamps a negative size instead of panicking. *)
Definition NewArenaIBLT (numBuckets k seed : Z) : outcome IBLT :=
  if (k <=? 0) || (ibltMaxK <? k) then Panic "iblt: k out of range [1, 8]"
  else
    let numBuckets := if numBuckets <=? 0 then 0 else numBuckets in
    Ret (mkIBLT (replicate (Z.to_nat numBuckets) zeroBucket) (Z.to_nat k) seed).

Section IBLT.
Context `{MH : MapHash}.

(** ** Hashing *)

Definition hashKeyWithSeed (seed key : Z) : Z := maphash seed (le_put 8 key).

(** The k bucket indices of a key with primary hash [h] in a table of [n]
    buckets. *)
Definition getHashesInto (n k : nat) (h : Z) : list nat :=
  let h2 := Z.lor (Z.shiftr h 32) 1 in
  map (λ i, Z.to_nat ((h +ₒ (Z.of_nat i *ₒ h2)) `mod` Z.of_nat n)) (seq 0 k).

(** ** Updates *)

(** Count += sign, KeySum ^= key, HashSum ^= hash. *)
Definition add_bucket (sign key h : Z) (b : Bucket) : Bucket :=
  mkBucket (i32 (Count b + sign)) (Z.lxor (KeySum b) key) (Z.lxor (HashSum b) h).

Definition apply_key (k : nat) (seed : Z) (sign key : Z) (bs : list Bucket) : list Bucket :=
  let h := hashKeyWithSeed seed key in
  foldl (λ bs idx, alter (add_bucket sign key h) idx bs) bs (getHashesInto (length bs) k h).

(** Insert and Delete: [SetSeed] refuses the zero seed, and the index
    computation divides by the number of buckets. *)
Definition update (sign key : Z) (t : IBLT) : outcome IBLT :=
  if ibltSeed t =? 0 then Panic "maphash: use of uninitialized Seed"
  else if (length (buckets t) =? 0)%nat then Panic "integer divide by zero"
  else Ret (mkIBLT (apply_key (ibltK t) (ibltSeed t) sign key (buckets t)) (ibltK t) (ibltSeed t)).

Definition IBLT_Insert (key : Z) (t : IBLT) : outcome IBLT := update 1 key t.
Definition IBLT_Delete (key : Z) (t : IBLT) : outcome IBLT := update (-1) key t.

Definition sub_bucket (a b : Bucket) : Bucket :=
  mkBucket (i32 (Count a - Count b)) (Z.lxor (KeySum a) (KeySum b)) (Z.lxor (HashSum a) (HashSum b)).

(** Subtract and subtractArena; [None] is the configuration error. *)
Definition Subtract (t other : IBLT) : option IBLT :=
  if negb (length (buckets t) =? length (buckets other))%nat || negb (ibltK t =? ibltK other)%nat
  then None
  else Some (mkIBLT (zip_with sub_bucket (buckets t) (buckets other)) (ibltK t) (ibltSeed t)).

(** ** Peeling *)

Definition isPureCount (c : Z) : bool := (c =? 1) || (c =? -1).

Definition isPure (seed : Z) (bs : list Bucket) (idx : nat) : bool :=
  match bs !! idx with
  | Some b => isPureCount (Count b) && (HashSum b =? hashKeyWithSeed seed (KeySum b))
  | None => false
  end.

(** The cascade over the targets of one peeled key: updates, and the indices
    that became pure appended to the queue. *)
Definition cascade (seed sign key h : Z) (ts : list nat) (st : list Bucket * list nat) :
    list Bucket * list nat :=
  foldl (λ st idx,
           let bs := alter (add_bucket sign key h) idx st.1 in
           (bs, if isPure seed bs idx then st.2 ++ [idx] else st.2)) st ts.

(** The avalanche.  [queue] is the undrained part of pureQueue (compaction moves
    it without changing it); [None] is running out of fuel. *)
Fixpoint peel_loop (fuel k : nat) (seed : Z) (bs : list Bucket) (queue : list nat)
    (localHas remoteHas : list Z) : option (list Bucket * list Z * list Z) :=
  match fuel with
  | O => None
  | S fuel' =>
      match queue with
      | [] => Some (bs, localHas, remoteHas)
      | idx :: queue' =>
          if isPure seed bs idx then
            let b := default zeroBucket (bs !! idx) in
            let key := KeySum b in
            let h := hashKeyWithSeed seed key in
            let ts := getHashesInto (length bs) k h in
            if 0 <? Count b then
              let '(bs', q) := cascade seed (-1) key h ts (bs, queue') in
              peel_loop fuel' k seed bs' q (localHas ++ [key]) remoteHas
            else
              let '(bs', q) := cascade seed 1 key h ts (bs, queue') in
              peel_loop fuel' k seed bs' q localHas (remoteHas ++ [key])
          else peel_loop fuel' k seed bs queue' localHas remoteHas
      end
  end.

Definition initial_queue (seed : Z) (bs : list Bucket) : list nat :=
  filter (λ i, isPure seed bs i = true) (seq 0 (length bs)).

Record peelResult := mkPeel { localHas : list Z; remoteHas : list Z; peelOk : bool }.

(** Peel and PeelArena.  [peelOk = false] is ErrIncompletePeel.  With the zero
    seed the first bucket whose count passes the gate panics in SetSeed. *)
Definition Peel (fuel : nat) (t : IBLT) : option (outcome peelResult) :=
  if (ibltSeed t =? 0) && existsb (λ b, isPureCount (Count b)) (buckets t)
  then Some (Panic "maphash: use of uninitialized Seed")
  else
    match peel_loop fuel (ibltK t) (ibltSeed t) (buckets t) (initial_queue (ibltSeed t) (buckets t)) [] [] with
    | Some (bs, l, r) => Some (Ret (mkPeel l r (forallb (λ b, bool_decide (b = zeroBucket)) bs)))
    | None => None
    end.

(** ** Buckets *)

Definition wf_bucket (b : Bucket) : Prop := is_i32 (Count b).
Definition wf_buckets (bs : list Bucket) : Prop := Forall wf_bucket bs.

Lemma i32_add_l x y : i32 (i32 x + y) = i32 (x + y).
Proof.
  apply i32_congr. rewrite Zplus_mod, i32_mod, <- Zplus_mod. done.
Qed.

Lemma add_bucket_wf sign key h b : wf_bucket (add_bucket sign key h b).
Proof. apply i32_range. Qed.

Lemma add_bucket_comm s1 k1 h1 s2 k2 h2 b :
  add_bucket s1 k1 h1 (add_bucket s2 k2 h2 b) = add_bucket s2 k2 h2 (add_bucket s1 k1 h1 b).
Proof.
  unfold add_bucket. simpl. f_equal.
  - rewrite !i32_add_l. f_equal. lia.
  - by rewrite !Z.lxor_assoc, (Z.lxor_comm k2).
  - by rewrite !Z.lxor_assoc, (Z.lxor_comm h2).
Qed.

Lemma add_bucket_inv s k h b : wf_bucket b → add_bucket (- s) k h (add_bucket s k h b) = b.
Proof.
  intros Hb. destruct b as [c ks hs]. unfold add_bucket. simpl in *. f_equal.
  - rewrite i32_add_l. replace (c + s + - s) with c by lia. by apply i32_id.
  - by rewrite Z.lxor_assoc, Z.lxor_nilpotent, Z.lxor_0_r.
  - by rewrite Z.lxor_assoc, Z.lxor_nilpotent, Z.lxor_0_r.
Qed.

Lemma sub_bucket_add s k h a b : sub_bucket a (add_bucket s k h b) = add_bucket (- s) k h (sub_bucket a b).
Proof.
  unfold sub_bucket, add_bucket. simpl. f_equal.
  - apply i32_congr. rewrite (Zminus_mod (Count a)), i32_mod, <- Zminus_mod.
    rewrite (Zplus_mod (i32 _)), i32_mod, <- Zplus_mod. f_equal. lia.
  - by rewrite Z.lxor_assoc.
  - by rewrite Z.lxor_assoc.
Qed.

Lemma sub_bucket_zero b : wf_bucket b → sub_bucket b zeroBucket = b.
Proof.
  intros Hb. destruct b as [c ks hs]. unfold sub_bucket. simpl.
  by rewrite Z.sub_0_r, i32_id, !Z.lxor_0_r.
Qed.

Lemma sub_bucket_sub a d : wf_bucket d → sub_bucket a (sub_bucket a d) = d.
Proof.
  intros Hd. destruct d as [c ks hs]. unfold sub_bucket. simpl. f_equal.
  - rewrite <- (i32_id c) at 2 by exact Hd. apply i32_congr.
    rewrite Zminus_mod, i32_mod, <- Zminus_mod. f_equal. lia.
  - by rewrite <- Z.lxor_assoc, Z.lxor_nilpotent, Z.lxor_0_l.
  - by rewrite <- Z.lxor_assoc, Z.lxor_nilpotent, Z.lxor_0_l.
Qed.

(** ** Tables as lists of signed keys *)

Lemma alter_alter_comm (f g : Bucket → Bucket) i j (bs : list Bucket) :
  (∀ b, f (g b) = g (f b)) → alter f i (alter g j bs) = alter g j (alter f i bs).
Proof.
  intros H. apply list_eq. intros l.
  destruct (decide (l = i)) as [->|Hi], (decide (i = j)) as [->|Hij];
    try destruct (decide (l = j)) as [->|Hj];
    rewrite ?list_lookup_alter_eq, ?list_lookup_alter_ne, ?list_lookup_alter_eq,
      ?list_lookup_alter_ne by done; try done;
    match goal with |- context [bs !! ?x] => destruct (bs !! x); simpl; by rewrite ?H end.
Qed.

Lemma length_foldl_alter (f : Bucket → Bucket) (ts : list nat) (bs : list Bucket) :
  length (foldl (λ bs i, alter f i bs) bs ts) = length bs.
Proof.
  revert bs. induction ts as [|t ts IH]; intros bs; simpl; [done|]. by rewrite IH, length_alter.
Qed.

Lemma length_apply_key k seed s key bs : length (apply_key k seed s key bs) = length bs.
Proof. apply length_foldl_alter. Qed.

Lemma alter_foldl_comm (f g : Bucket → Bucket) i (us : list nat) (bs : list Bucket) :
  (∀ b, f (g b) = g (f b)) →
  alter f i (foldl (λ bs i, alter g i bs) bs us) = foldl (λ bs i, alter g i bs) (alter f i bs) us.
Proof.
  intros H. revert bs. induction us as [|u us IH]; intros bs; simpl; [done|].
  by rewrite IH, alter_alter_comm.
Qed.

Lemma foldl_alter_comm (f g : Bucket → Bucket) (ts us : list nat) (bs : list Bucket) :
  (∀ b, f (g b) = g (f b)) →
  foldl (λ bs i, alter f i bs) (foldl (λ bs i, alter g i bs) bs us) ts =
  foldl (λ bs i, alter g i bs) (foldl (λ bs i, alter f i bs) bs ts) us.
Proof.
  intros H. revert bs. induction ts as [|t ts IH]; intros bs; simpl; [done|].
  by rewrite alter_foldl_comm, IH.
Qed.

Lemma apply_key_comm k seed s1 k1 s2 k2 bs :
  apply_key k seed s1 k1 (apply_key k seed s2 k2 bs) = apply_key k seed s2 k2 (apply_key k seed s1 k1 bs).
Proof.
  unfold apply_key at 1 3. rewrite !length_apply_key. unfold apply_key.
  apply foldl_alter_comm. intros b. apply add_bucket_comm.
Qed.

Lemma wf_alter f i bs : (∀ b, wf_bucket (f b)) → wf_buckets bs → wf_buckets (alter f i bs).
Proof.
  intros Hf Hw. apply Forall_lookup_2. intros j b Hj. destruct (decide (j = i)) as [->|Hne].
  - rewrite list_lookup_alter_eq in Hj. destruct (bs !! i); simplify_eq/=. apply Hf.
  - rewrite list_lookup_alter_ne in Hj by done. by eapply Forall_lookup_1 in Hw.
Qed.

Lemma wf_foldl_alter s key h (ts : list nat) (bs : list Bucket) :
  wf_buckets bs → wf_buckets (foldl (λ bs i, alter (add_bucket s key h) i bs) bs ts).
Proof.
  revert bs. induction ts as [|t ts IH]; intros bs Hw; simpl; [done|].
  apply IH, wf_alter; [|done]. intros b. apply add_bucket_wf.
Qed.

Lemma wf_apply_key k seed s key bs : wf_buckets bs → wf_buckets (apply_key k seed s key bs).
Proof. apply wf_foldl_alter. Qed.

Lemma foldl_alter_inv s key h (ts : list nat) (bs : list Bucket) :
  wf_buckets bs →
  foldl (λ bs i, alter (add_bucket (- s) key h) i bs)
    (foldl (λ bs i, alter (add_bucket s key h) i bs) bs ts) ts = bs.
Proof.
  revert bs. induction ts as [|t ts IH]; intros bs Hw; simpl; [done|].
  rewrite alter_foldl_comm by (intros; apply add_bucket_comm).
  assert (alter (add_bucket (- s) key h) t (alter (add_bucket s key h) t bs) = bs) as ->; [|by apply IH].
  apply list_eq. intros j. destruct (decide (j = t)) as [->|Hne].
  - rewrite !list_lookup_alter_eq. destruct (bs !! t) as [b|] eqn:E; simpl; [|done].
    rewrite add_bucket_inv; [done|]. by eapply Forall_lookup_1 in Hw.
  - by rewrite !list_lookup_alter_ne.
Qed.

Lemma apply_key_inv k seed s key bs :
  wf_buckets bs → apply_key k seed (- s) key (apply_key k seed s key bs) = bs.
Proof.
  intros Hw. unfold apply_key at 1. rewrite length_apply_key. unfold apply_key.
  by apply foldl_alter_inv.
Qed.

(** A signed key: +1 for a key the local set has, -1 for the remote. *)
Definition signed : Type := Z * Z.
Definition pos (keys : list Z) : list signed := map (λ key, (1, key)) keys.
Definition neg (keys : list Z) : list signed := map (λ key, (-1, key)) keys.
Definition flip (m : list signed) : list signed := map (λ sk, (- sk.1, sk.2)) m.

(** The keys of [m] applied to a table, and the table they alone make. *)
Definition apply_all (k : nat) (seed : Z) (m : list signed) (bs : list Bucket) : list Bucket :=
  foldr (λ sk bs, apply_key k seed sk.1 sk.2 bs) bs m.

Definition table_of (n k : nat) (seed : Z) (m : list signed) : list Bucket :=
  apply_all k seed m (replicate n zeroBucket).

Lemma wf_zeros n : wf_buckets (replicate n zeroBucket).
Proof. apply Forall_replicate. unfold wf_bucket. simpl. words. Qed.

Lemma length_apply_all k seed m bs : length (apply_all k seed m bs) = length bs.
Proof. induction m as [|sk m IH]; simpl; [done|]. by rewrite length_apply_key. Qed.

Lemma wf_apply_all k seed m bs : wf_buckets bs → wf_buckets (apply_all k seed m bs).
Proof. intros H. induction m as [|sk m IH]; simpl; [done|]. by apply wf_apply_key. Qed.

Lemma apply_all_app k seed m m' bs :
  apply_all k seed (m ++ m') bs = apply_all k seed m (apply_all k seed m' bs).
Proof. unfold apply_all. by rewrite foldr_app. Qed.

(** The table depends on the multiset of signed keys only. *)
Lemma apply_all_perm k seed m m' bs : m ≡ₚ m' → apply_all k seed m bs = apply_all k seed m' bs.
Proof.
  induction 1 as [|x m m' _ IH|x y m|m m' m'' _ IH1 _ IH2]; simpl; [done|by rewrite IH| |congruence].
  apply apply_key_comm.
Qed.

Lemma apply_all_key k seed s key m bs :
  apply_key k seed s key (apply_all k seed m bs) = apply_all k seed m (apply_key k seed s key bs).
Proof. induction m as [|x m IH]; simpl; [done|]. by rewrite apply_key_comm, IH. Qed.

(** Opposite occurrences cancel. *)
Lemma apply_all_flip k seed m bs :
  wf_buckets bs → apply_all k seed (flip m) (apply_all k seed m bs) = bs.
Proof.
  intros Hw. induction m as [|[s key] m IH]; simpl; [done|].
  rewrite apply_all_key, apply_key_inv by by apply wf_apply_all. done.
Qed.

Lemma flip_pos keys : flip (pos keys) = neg keys.
Proof. unfold flip, pos, neg. rewrite map_map. done. Qed.

Lemma flip_flip m : flip (flip m) = m.
Proof.
  unfold flip. induction m as [|[s key] m IH]; simpl; [done|].
  by rewrite IH, Z.opp_involutive.
Qed.

(** ** Subtract *)

Lemma zip_sub_alter s key h i (a b : list Bucket) :
  zip_with sub_bucket a (alter (add_bucket s key h) i b) =
  alter (add_bucket (- s) key h) i (zip_with sub_bucket a b).
Proof.
  apply list_eq. intros j. rewrite lookup_zip_with. destruct (decide (j = i)) as [->|Hne].
  - rewrite !list_lookup_alter_eq, lookup_zip_with. destruct (a !! i); simpl; [|done].
    destruct (b !! i); simpl; [|done]. by rewrite sub_bucket_add.
  - rewrite !list_lookup_alter_ne, lookup_zip_with by done. done.
Qed.

Lemma zip_sub_apply k seed s key (a b : list Bucket) :
  length a = length b →
  zip_with sub_bucket a (apply_key k seed s key b) = apply_key k seed (- s) key (zip_with sub_bucket a b).
Proof.
  intros Hl. unfold apply_key. rewrite length_zip_with, Hl, Nat.min_id.
  set (h := hashKeyWithSeed seed key). generalize (getHashesInto (length b) k h) as ts. intros ts.
  clear Hl. revert b. induction ts as [|t ts IH]; intros b; simpl; [done|].
  by rewrite IH, zip_sub_alter.
Qed.

Lemma zip_sub_zeros n (a : list Bucket) :
  length a = n → wf_buckets a → zip_with sub_bucket a (replicate n zeroBucket) = a.
Proof.
  intros <-. induction 1 as [|b a Hb _ IH]; simpl; [done|]. by rewrite sub_bucket_zero, IH.
Qed.

(** Subtracting the table of [m'] applies its keys with the opposite sign. *)
Lemma zip_sub_table n k seed m' (a : list Bucket) :
  length a = n → wf_buckets a →
  zip_with sub_bucket a (table_of n k seed m') = apply_all k seed (flip m') a.
Proof.
  intros Hl Hw. unfold table_of. induction m' as [|[s key] m' IH]; simpl.
  - by apply zip_sub_zeros.
  - rewrite zip_sub_apply by (by rewrite length_apply_all, length_replicate). by rewrite IH.
Qed.

(** ** Peeling *)

Lemma cascade_buckets seed sign key h ts bs q :
  (cascade seed sign key h ts (bs, q)).1 = foldl (λ bs i, alter (add_bucket sign key h) i bs) bs ts.
Proof.
  unfold cascade. revert bs q. induction ts as [|t ts IH]; intros bs q; simpl; [done|]. apply IH.
Qed.

Lemma cascade_queue seed sign key h ts bs q :
  ∃ new, (cascade seed sign key h ts (bs, q)).2 = q ++ new ∧ (length new <= length ts)%nat ∧
         ∀ i, i ∈ new → i ∈ ts.
Proof.
  unfold cascade. revert bs q. induction ts as [|t ts IH]; intros bs q; simpl.
  { exists []. rewrite app_nil_r. split_and!; [done|done|]. by intros i ?%elem_of_nil. }
  destruct (isPure seed _ t).
  - destruct (IH (alter (add_bucket sign key h) t bs) (q ++ [t])) as (new & Hq & Hl & Hin).
    exists (t :: new). rewrite Hq, <- app_assoc. split_and!; [done|simpl; lia|].
    intros i [->|Hi]%elem_of_cons; [left|right; auto].
  - destruct (IH (alter (add_bucket sign key h) t bs) q) as (new & Hq & Hl & Hin).
    exists new. split_and!; [done|lia|]. intros i Hi. right. auto.
Qed.

Lemma length_getHashesInto n k h : length (getHashesInto n k h) = k.
Proof. unfold getHashesInto. by rewrite length_map, length_seq. Qed.

(** One peeled key is one application of the opposite sign. *)
Lemma cascade_apply k seed sign key bs q :
  (cascade seed sign key (hashKeyWithSeed seed key)
     (getHashesInto (length bs) k (hashKeyWithSeed seed key)) (bs, q)).1 = apply_key k seed sign key bs.
Proof. apply cascade_buckets. Qed.
End IBLT.
