(* ===== verification/IbltPeel.v ===== *)
(** Correctness of the peeling cascade: what a peel returns accounts for every
    bucket, it is exact and terminates on the difference of two honest digests,
    and it never terminates on a table that holds a key in all but one of the
    key's buckets. *)
From S2P Require Import Prelude Bytes Dots Hamt HamtMap Lamport Sorting Engine Iblt.

Section Peel.
Context `{MH : MapHash}.

Lemma isPure_spec seed bs i :
  isPure seed bs i = true →
  ∃ b, bs !! i = Some b ∧ (Count b = 1 ∨ Count b = -1) ∧ HashSum b = hashKeyWithSeed seed (KeySum b).
Proof.
  unfold isPure. destruct (bs !! i) as [b|]; [|done]. intros [Hc Hh]%andb_true_iff.
  exists b. split; [done|]. apply orb_true_iff in Hc as [?%Z.eqb_eq|?%Z.eqb_eq];
    apply Z.eqb_eq in Hh; auto.
Qed.

(** One dequeue that peels. *)
Lemma peel_loop_pure fuel k seed bs i q lh rh b :
  isPure seed bs i = true → bs !! i = Some b →
  ∃ new, (length new <= k)%nat ∧
  peel_loop (S fuel) k seed bs (i :: q) lh rh =
    if 0 <? Count b
    then peel_loop fuel k seed (apply_key k seed (-1) (KeySum b) bs) (q ++ new) (lh ++ [KeySum b]) rh
    else peel_loop fuel k seed (apply_key k seed 1 (KeySum b) bs) (q ++ new) lh (rh ++ [KeySum b]).
Proof.
  intros Hp Hb. simpl. rewrite Hp, Hb. simpl.
  set (h := hashKeyWithSeed seed (KeySum b)). set (ts := getHashesInto (length bs) k h).
  destruct (0 <? Count b).
  - destruct (cascade_queue seed (-1) (KeySum b) h ts bs q) as (new & Hq & Hl & _).
    pose proof (cascade_apply k seed (-1) (KeySum b) bs q) as Hbs. fold h ts in Hbs.
    exists new. unfold ts in Hl. rewrite length_getHashesInto in Hl. split; [done|].
    destruct (cascade _ _ _ _ _ _) as [bs1 q1]. simpl in *. by subst.
  - destruct (cascade_queue seed 1 (KeySum b) h ts bs q) as (new & Hq & Hl & _).
    pose proof (cascade_apply k seed 1 (KeySum b) bs q) as Hbs. fold h ts in Hbs.
    exists new. unfold ts in Hl. rewrite length_getHashesInto in Hl. split; [done|].
    destruct (cascade _ _ _ _ _ _) as [bs1 q1]. simpl in *. by subst.
Qed.

Lemma peel_loop_skip fuel k seed bs i q lh rh :
  isPure seed bs i = false →
  peel_loop (S fuel) k seed bs (i :: q) lh rh = peel_loop fuel k seed bs q lh rh.
Proof. intros Hp. simpl. by rewrite Hp. Qed.

(** ** Conservation *)

(** Whatever the table held, the buckets left are the buckets given minus the
    keys returned. *)
Lemma peel_loop_conserves fuel k seed bs q lh rh bs' lh' rh' :
  peel_loop fuel k seed bs q lh rh = Some (bs', lh', rh') →
  ∃ l r, lh' = lh ++ l ∧ rh' = rh ++ r ∧ bs' = apply_all k seed (flip (pos l ++ neg r)) bs.
Proof.
  revert bs q lh rh. induction fuel as [|fuel IH]; intros bs q lh rh; [done|].
  destruct q as [|i q].
  { simpl. intros [= <- <- <-]. exists [], []. by rewrite !app_nil_r. }
  destruct (isPure seed bs i) eqn:Hp.
  - destruct (isPure_spec _ _ _ Hp) as (b & Hb & Hc & _).
    destruct (peel_loop_pure fuel k seed bs i q lh rh b Hp Hb) as (new & _ & ->).
    destruct (Z.ltb_spec 0 (Count b)) as [Hpos|Hneg].
    + intros H. apply IH in H as (l & r & -> & -> & ->). exists (KeySum b :: l), r.
      rewrite <- app_assoc. split_and!; [done|done|]. simpl. by rewrite apply_all_key.
    + intros H. apply IH in H as (l & r & -> & -> & ->). exists l, (KeySum b :: r).
      rewrite <- app_assoc. split_and!; [done|done|].
      rewrite <- apply_all_key.
      change (apply_key k seed 1 (KeySum b) ?x) with (apply_all k seed [(1, KeySum b)] x).
      rewrite <- apply_all_app. apply apply_all_perm. unfold flip, pos, neg. rewrite !map_app. simpl.
      by rewrite <- Permutation_middle.
  - rewrite peel_loop_skip by done. apply IH.
Qed.

Lemma all_zero_spec bs : forallb (λ b, bool_decide (b = zeroBucket)) bs = true ↔ bs = replicate (length bs) zeroBucket.
Proof.
  induction bs as [|b bs IH]; simpl; [done|]. rewrite andb_true_iff, bool_decide_eq_true, IH.
  split; [intros [-> <-]; done|]. intros [= -> H]. split; [done|exact H].
Qed.

Lemma pos_neg_flip_inv k seed m bs n :
  wf_buckets bs → apply_all k seed (flip m) bs = replicate n zeroBucket → bs = table_of n k seed m.
Proof.
  intros Hw H. unfold table_of. rewrite <- H.
  rewrite <- (flip_flip m) at 1. by rewrite apply_all_flip.
Qed.

(** ** Exactness on honest differences *)

(** [m] is peeled without accidents: in the table of any part of it a bucket
    passes the purity test only when it holds one key of that part with its own
    sign, and only the empty part has an all-zero table.  Both can fail only
    through a collision of the seeded hash or of the key sums. *)
Definition faithful (n k : nat) (seed : Z) (m : list signed) : Prop :=
  ∀ m', sublist m' m →
    (∀ i, isPure seed (table_of n k seed m') i = true →
       ∃ b, table_of n k seed m' !! i = Some b ∧ (Count b, KeySum b) ∈ m') ∧
    (table_of n k seed m' = replicate n zeroBucket → m' = []).

(** All parts of a list. *)
Fixpoint sublists {A} (l : list A) : list (list A) :=
  match l with
  | [] => [[]]
  | x :: l' => sublists l' ++ map (cons x) (sublists l')
  end.

Lemma elem_of_sublists {A} (l l' : list A) : sublist l' l → l' ∈ sublists l.
Proof.
  induction 1 as [|x l1 l2 _ IH|x l1 l2 _ IH]; simpl; [left| |];
    apply elem_of_app; [right|by left]. apply list_elem_of_fmap. by exists l1.
Qed.

Lemma foldl_alter_notin (f : Bucket → Bucket) (ts : list nat) (bs : list Bucket) (i : nat) :
  i ∉ ts → foldl (λ bs j, alter f j bs) bs ts !! i = bs !! i.
Proof.
  revert bs. induction ts as [|t ts IH]; intros bs Hi; simpl; [done|].
  rewrite IH by set_solver. apply list_lookup_alter_ne. set_solver.
Qed.

Lemma foldl_alter_in (f : Bucket → Bucket) (ts : list nat) (bs : list Bucket) (i : nat) :
  NoDup ts → i ∈ ts → foldl (λ bs j, alter f j bs) bs ts !! i = f <$> bs !! i.
Proof.
  revert bs. induction ts as [|t ts IH]; intros bs Hnd Hi; [by apply elem_of_nil in Hi|].
  apply NoDup_cons in Hnd as [Hni Hnd]. simpl. apply elem_of_cons in Hi as [->|Hi].
  - rewrite foldl_alter_notin by done. apply list_lookup_alter_eq.
  - rewrite IH by done. rewrite list_lookup_alter_ne; [done|]. by intros ->.
Qed.

Lemma getHashesInto_lt n k h i : (0 < n)%nat → i ∈ getHashesInto n k h → (i < n)%nat.
Proof.
  intros Hn. unfold getHashesInto. intros (j & -> & _)%list_elem_of_fmap.
  set (x := _ +ₒ _). pose proof (Z.mod_pos_bound x (Z.of_nat n) ltac:(lia)). lia.
Qed.

(** What the hash has to do for that.  A bucket adds up the keys that fall into
    it; the sums of two or more keys of the difference never look like one key
    (their count is 1 or -1 and the sum of their hashes is the hash of their sum),
    and the sums of one or more are never all zero. *)
Definition sum_bucket (seed : Z) (ks : list signed) : Bucket :=
  foldr (λ sk b, add_bucket sk.1 sk.2 (hashKeyWithSeed seed sk.2) b) zeroBucket ks.

Definition looks_single (seed : Z) (b : Bucket) : bool := isPureCount (Count b) && (HashSum b =? hashKeyWithSeed seed (KeySum b)).

Definition separates (seed : Z) (m : list signed) : Prop :=
  ∀ ks, sublist ks m → (looks_single seed (sum_bucket seed ks) = true → length ks = 1%nat) ∧ (sum_bucket seed ks = zeroBucket → ks = []).

(** Every key has [k] different buckets. *)
Definition spread (n k : nat) (seed : Z) (keys : list Z) : Prop :=
  ∀ key, key ∈ keys → NoDup (getHashesInto n k (hashKeyWithSeed seed key)).

Definition falls_in (n k : nat) (seed : Z) (i : nat) (sk : signed) : Prop := i ∈ getHashesInto n k (hashKeyWithSeed seed sk.2).

#[global] Instance falls_in_dec n k seed i sk : Decision (falls_in n k seed i sk).
Proof. unfold falls_in. apply _. Defined.

Definition in_bucket (n k : nat) (seed : Z) (i : nat) (m : list signed) : list signed := filter (falls_in n k seed i) m.

Lemma bucket_sums n k seed m i : spread n k seed (map snd m) → (i < n)%nat →
  table_of n k seed m !! i = Some (sum_bucket seed (in_bucket n k seed i m)).
Proof.
  intros Hs Hi. induction m as [|sk m IH]; [by apply lookup_replicate_2|].
  assert (spread n k seed (map snd m)) as Hs' by (intros key Hk; apply Hs; by right). specialize (IH Hs').
  unfold table_of in *. cbn [apply_all foldr]. fold (apply_all k seed m (replicate n zeroBucket)). unfold apply_key at 1.
  unfold in_bucket. rewrite length_apply_all, length_replicate, filter_cons. case_decide as E; unfold falls_in in E.
  - rewrite foldl_alter_in; [|apply Hs; by left|done]. by rewrite IH.
  - by rewrite foldl_alter_notin.
Qed.

Lemma separates_faithful n k seed m : (0 < n)%nat → (0 < k)%nat → Forall (λ sk, sk.1 = 1 ∨ sk.1 = -1) m → spread n k seed (map snd m) →
  separates seed m → faithful n k seed m.
Proof.
  intros Hn Hk Hsg Hsp Hsep m' Hm'.
  assert (spread n k seed (map snd m')) as Hs.
  { intros key (sk & -> & Hin)%list_elem_of_fmap. apply Hsp, list_elem_of_fmap. exists sk. split; [done|]. by eapply elem_of_sublist. }
  assert (∀ i, sublist (in_bucket n k seed i m') m) as Hf by (intros i; etrans; [apply sublist_filter|done]). split.
  - intros i Hp. destruct (isPure_spec _ _ _ Hp) as (b & Hb & _). exists b. split; [done|].
    assert (i < n)%nat as Hi by (apply lookup_lt_Some in Hb; unfold table_of in Hb; by rewrite length_apply_all, length_replicate in Hb).
    rewrite (bucket_sums n k seed m' i Hs Hi) in Hb. unfold isPure in Hp. rewrite (bucket_sums n k seed m' i Hs Hi) in Hp.
    pose proof (proj1 (Hsep _ (Hf i)) Hp) as Hl. injection Hb as Eb.
    destruct (in_bucket n k seed i m') as [|[sg key] [|]] eqn:E; try done.
    assert ((sg, key) ∈ m') as Hin by (eapply elem_of_sublist; [|apply (sublist_filter (falls_in n k seed i))]; fold (in_bucket n k seed i m'); rewrite E; by left).
    assert ((sg, key) ∈ m) as Hin' by (by eapply elem_of_sublist). rewrite Forall_forall in Hsg. specialize (Hsg _ Hin'). simpl in Hsg.
    assert ((Count b, KeySum b) = (sg, key)) as ->; [|done]. rewrite <- Eb. simpl. by destruct Hsg as [->| ->].
  - intros Ht. destruct m' as [|sk m']; [done|]. exfalso. set (ts := getHashesInto n k (hashKeyWithSeed seed sk.2)).
    destruct ts as [|i ts'] eqn:E; [apply (f_equal length) in E; unfold ts in E; rewrite length_getHashesInto in E; simpl in E; lia|].
    assert (falls_in n k seed i sk) as Hi by (unfold falls_in; fold ts; rewrite E; by left).
    assert (i < n)%nat as Hlt by by apply (getHashesInto_lt n k (hashKeyWithSeed seed sk.2)).
    pose proof (bucket_sums n k seed (sk :: m') i Hs Hlt) as Hb. rewrite Ht, lookup_replicate_2 in Hb by done. injection Hb as Hb.
    apply eq_sym, (Hsep _ (Hf i)) in Hb. unfold in_bucket in Hb. by rewrite filter_cons_True in Hb.
Qed.

Lemma signs_pm a b : Forall (λ sk : signed, sk.1 = 1 ∨ sk.1 = -1) (pos a ++ neg b).
Proof. apply Forall_app. split; apply Forall_forall; intros sk (x & -> & _)%list_elem_of_fmap; [by left|by right]. Qed.

Lemma signed_keys a b : map snd (pos a ++ neg b) = a ++ b.
Proof. unfold pos, neg. rewrite map_app, !map_map. simpl. by rewrite !map_id. Qed.

(** The step between the buckets of a key is odd: in a table of 1024 buckets four
    of them differ. *)
Lemma digest_spread seed keys : spread 1024 4 seed keys.
Proof.
  intros key _. set (h := hashKeyWithSeed seed key). unfold getHashesInto. set (h2 := Z.lor (Z.shiftr h 32) 1).
  assert (∃ q, h2 = 2 * q + 1) as [q Hq].
  { exists (h2 / 2). assert (h2 mod 2 = 1); [|pose proof (Z.div_mod h2 2 ltac:(done)); lia].
    rewrite <- Z.bit0_mod. unfold h2. by rewrite Z.lor_spec, orb_true_r. }
  assert (∀ i, (h +ₒ (i *ₒ h2)) `mod` 1024 = (h + i * h2) `mod` 1024) as Hm.
  { intros i. pose proof (Z.div_mod (i * h2) (2 ^ 64) ltac:(done)) as E1. pose proof (Z.div_mod (h + u64 (i * h2)) (2 ^ 64) ltac:(done)) as E2.
    fold (u64 (i * h2)) in E1. fold (u64 (h + u64 (i * h2))) in E2.
    replace (h + i * h2) with (u64 (h + u64 (i * h2)) + (2 ^ 54 * ((h + u64 (i * h2)) / 2 ^ 64) + 2 ^ 54 * (i * h2 / 2 ^ 64)) * 1024) by lia.
    by rewrite Z_mod_plus_full. }
  assert (∀ i j, 0 <= i < j → j < 4 → Z.to_nat ((h +ₒ (i *ₒ h2)) `mod` 1024) ≠ Z.to_nat ((h +ₒ (j *ₒ h2)) `mod` 1024)) as Hne.
  { intros i j Hij Hj E. rewrite !Hm in E. pose proof (Z.mod_pos_bound (h + i * h2) 1024). pose proof (Z.mod_pos_bound (h + j * h2) 1024).
    pose proof (Z.div_mod (h + i * h2) 1024). pose proof (Z.div_mod (h + j * h2) 1024).
    assert ((h + i * h2) `mod` 1024 = (h + j * h2) `mod` 1024) by lia.
    assert (j - i = 1 ∨ j - i = 2 ∨ j - i = 3) as [Hd|[Hd|Hd]] by lia; assert (j = i + (j - i)) as Ej by lia; rewrite Hd in Ej; subst j; subst h2; lia. }
  cbn [seq map]. change (Z.of_nat 1024) with 1024. change (Z.of_nat 0) with 0. change (Z.of_nat 1) with 1. change (Z.of_nat 2) with 2. change (Z.of_nat 3) with 3.
  repeat constructor; rewrite ?not_elem_of_cons; repeat split; try apply not_elem_of_nil; apply Hne; lia.
Qed.

Lemma faithful_sublist n k seed m m' : faithful n k seed m → sublist m' m → faithful n k seed m'.
Proof. intros Hf Hs m'' Hs'. apply Hf. by etrans. Qed.

Lemma table_of_remove n k seed m1 s key m2 :
  apply_key k seed (- s) key (table_of n k seed (m1 ++ (s, key) :: m2)) = table_of n k seed (m1 ++ m2).
Proof.
  unfold table_of.
  rewrite (apply_all_perm k seed (m1 ++ (s, key) :: m2) ((s, key) :: m1 ++ m2)) by by rewrite Permutation_middle.
  simpl. rewrite apply_key_inv; [done|]. apply wf_apply_all, wf_zeros.
Qed.

Lemma length_table_of n k seed m : length (table_of n k seed m) = n.
Proof. unfold table_of. by rewrite length_apply_all, length_replicate. Qed.

Lemma peel_loop_exact n k seed fuel m q lh rh :
  faithful n k seed m → (length q + k * length m < fuel)%nat →
  ∃ l r m', peel_loop fuel k seed (table_of n k seed m) q lh rh =
              Some (table_of n k seed m', lh ++ l, rh ++ r) ∧
            sublist m' m ∧ m ≡ₚ pos l ++ neg r ++ m'.
Proof.
  revert m q lh rh. induction fuel as [|fuel IH]; intros m q lh rh Hf Hfu; [lia|].
  destruct q as [|i q].
  { exists [], [], m. simpl. rewrite !app_nil_r. split_and!; done. }
  destruct (isPure seed (table_of n k seed m) i) eqn:Hp.
  - destruct (Hf m) as [Hpure _]; [done|]. destruct (Hpure i Hp) as (b & Hb & Hin).
    destruct (isPure_spec _ _ _ Hp) as (b' & Hb' & Hc & _). rewrite Hb in Hb'. injection Hb' as <-.
    destruct (peel_loop_pure fuel k seed (table_of n k seed m) i q lh rh b Hp Hb) as (new & Hl & ->).
    apply list_elem_of_split in Hin as (m1 & m2 & ->).
    assert (sublist (m1 ++ m2) (m1 ++ (Count b, KeySum b) :: m2)) as Hsub.
    { apply sublist_app; [done|]. by apply sublist_cons. }
    pose proof (faithful_sublist _ _ _ _ _ Hf Hsub) as Hf'.
    assert (length (q ++ new) + k * length (m1 ++ m2) < fuel)%nat as Hfu'.
    { rewrite length_app in *. simpl in Hfu. rewrite length_app in *. simpl in Hfu. lia. }
    pose proof (table_of_remove n k seed m1 (Count b) (KeySum b) m2) as Hrem.
    destruct Hc as [Hc|Hc]; rewrite Hc in *.
    + change (0 <? 1) with true. change (- (1)) with (-1) in Hrem. cbv iota. rewrite Hrem.
      destruct (IH (m1 ++ m2) (q ++ new) (lh ++ [KeySum b]) rh Hf' Hfu') as (l & r & m' & -> & Hs & Hperm).
      exists (KeySum b :: l), r, m'. rewrite <- app_assoc. split_and!; [done|by etrans|].
      rewrite <- Permutation_middle, Hperm. done.
    + change (0 <? -1) with false. change (- -1) with 1 in Hrem. cbv iota. rewrite Hrem.
      destruct (IH (m1 ++ m2) (q ++ new) lh (rh ++ [KeySum b]) Hf' Hfu') as (l & r & m' & -> & Hs & Hperm).
      exists l, (KeySum b :: r), m'. rewrite <- app_assoc. split_and!; [done|by etrans|].
      rewrite <- Permutation_middle, Hperm. simpl. by rewrite <- Permutation_middle.
  - rewrite peel_loop_skip by done. apply IH; [done|]. simpl in Hfu. lia.
Qed.

Lemma length_initial_queue seed bs : (length (initial_queue seed bs) <= length bs)%nat.
Proof. unfold initial_queue. etrans; [apply length_filter|]. by rewrite length_seq. Qed.

Lemma pos_neg_perm_inj l r a b : pos l ++ neg r ≡ₚ pos a ++ neg b → l ≡ₚ a ∧ r ≡ₚ b.
Proof.
  intros H.
  assert (∀ s keys, s = 1 ∨ s = -1 → map snd (List.filter (λ sk, sk.1 =? s) (pos keys)) = if s =? 1 then keys else []) as Hp.
  { intros s keys [->| ->]; induction keys as [|x keys IH]; simpl in *; by rewrite ?IH. }
  assert (∀ s keys, s = 1 ∨ s = -1 → map snd (List.filter (λ sk, sk.1 =? s) (neg keys)) = if s =? 1 then [] else keys) as Hn.
  { intros s keys [->| ->]; induction keys as [|x keys IH]; simpl in *; by rewrite ?IH. }
  assert (∀ s, s = 1 ∨ s = -1 → map snd (List.filter (λ sk, sk.1 =? s) (pos l ++ neg r)) ≡ₚ
                              map snd (List.filter (λ sk, sk.1 =? s) (pos a ++ neg b))) as Hf.
  { intros s _. apply Permutation_map.
    induction H as [|x l1 l2 _ IH|x y l1|l1 l2 l3 _ IH1 _ IH2]; simpl; [done| | |by etrans].
    - destruct (x.1 =? s); by rewrite IH.
    - destruct (x.1 =? s), (y.1 =? s); try done. apply Permutation_swap. }
  pose proof (Hf 1 ltac:(auto)) as H1. pose proof (Hf (-1) ltac:(auto)) as H2.
  rewrite !List.filter_app, !map_app, !Hp, !Hn in H1, H2 by auto. simpl in H1, H2.
  by rewrite !app_nil_r in H1.
Qed.

(** ** Divergence *)

Lemma isPure_ext seed bs bs' i : bs !! i = bs' !! i → isPure seed bs i = isPure seed bs' i.
Proof. intros H. unfold isPure. by rewrite H. Qed.

(** With distinct targets the cascade enqueues the targets pure at its end. *)
Lemma cascade_queue_nodup seed sign key h ts bs q i :
  NoDup ts → i ∈ ts → isPure seed (cascade seed sign key h ts (bs, q)).1 i = true →
  i ∈ (cascade seed sign key h ts (bs, q)).2.
Proof.
  revert bs q. induction ts as [|t ts IH]; intros bs q Hnd Hi; [by apply elem_of_nil in Hi|].
  apply NoDup_cons in Hnd as [Hni Hnd].
  change (cascade seed sign key h (t :: ts) (bs, q)) with
    (cascade seed sign key h ts
       (alter (add_bucket sign key h) t bs,
        if isPure seed (alter (add_bucket sign key h) t bs) t then q ++ [t] else q)).
  apply elem_of_cons in Hi as [->|Hi]; [|by apply IH].
  rewrite cascade_buckets. intros Hp.
  rewrite (isPure_ext _ _ (alter (add_bucket sign key h) t bs)) in Hp by by apply foldl_alter_notin.
  rewrite Hp. destruct (cascade_queue seed sign key h ts (alter (add_bucket sign key h) t bs) (q ++ [t]))
    as (new & -> & _). set_solver.
Qed.

Lemma list_choose_elem {A} (l : list A) : l ≠ [] → ∃ x, x ∈ l.
Proof. destruct l as [|x l]; [done|]. exists x. left. Qed.

Section Divergence.
Variables (n k : nat) (seed key : Z) (init : list nat) (last : nat).
Let h := hashKeyWithSeed seed key.
Let ts := getHashesInto n k h.
Hypothesis Hn : (0 < n)%nat.
Hypothesis Hts : ts = init ++ [last].
Hypothesis Hnd : NoDup ts.

(** The key present in all its buckets but [last], and absent (negatively
    present) in [last] only. *)
Definition almost : list Bucket :=
  foldl (λ bs i, alter (add_bucket 1 key h) i bs) (replicate n zeroBucket) init.
Definition missing : list Bucket := alter (add_bucket (-1) key h) last (replicate n zeroBucket).

Lemma length_almost : length almost = n.
Proof. unfold almost. by rewrite length_foldl_alter, length_replicate. Qed.

Lemma length_missing : length missing = n.
Proof. unfold missing. by rewrite length_alter, length_replicate. Qed.

Lemma wf_almost : wf_buckets almost.
Proof. apply wf_foldl_alter, wf_zeros. Qed.

Lemma apply_almost : apply_key k seed (-1) key almost = missing.
Proof.
  unfold apply_key. rewrite length_almost. fold h ts. rewrite Hts, foldl_app. simpl. unfold almost.
  by rewrite (foldl_alter_inv 1) by apply wf_zeros.
Qed.

Lemma apply_missing : apply_key k seed 1 key missing = almost.
Proof.
  unfold apply_key. rewrite length_missing. fold h ts. rewrite Hts, foldl_app. simpl. unfold missing.
  rewrite <- (alter_foldl_comm (add_bucket (-1) key h)) by (intros; apply add_bucket_comm).
  fold almost. pose proof (foldl_alter_inv (-1) key h [last] almost wf_almost) as H.
  simpl in H. exact H.
Qed.

Lemma split_nodup : NoDup init ∧ last ∉ init.
Proof.
  rewrite Hts in Hnd. apply NoDup_app in Hnd as (? & Hx & _). split; [done|].
  intros Hl. apply (Hx last Hl). left.
Qed.

Lemma target_lt i : i ∈ ts → (i < n)%nat.
Proof. by apply getHashesInto_lt. Qed.

Lemma zeros_lookup i : i ∈ ts → replicate n zeroBucket !! i = Some zeroBucket.
Proof. intros Hi. by apply lookup_replicate_2, target_lt. Qed.

Lemma almost_lookup i : i ∈ init → almost !! i = Some (mkBucket 1 key h).
Proof.
  intros Hi. destruct split_nodup as [Hni _]. unfold almost.
  rewrite foldl_alter_in, zeros_lookup by (done || (rewrite Hts; set_solver)). simpl.
  unfold add_bucket. simpl. done.
Qed.

Lemma almost_last : almost !! last = Some zeroBucket.
Proof.
  unfold almost. rewrite foldl_alter_notin by apply split_nodup. apply zeros_lookup.
  rewrite Hts. set_solver.
Qed.

Lemma missing_last : missing !! last = Some (mkBucket (-1) key h).
Proof. unfold missing. by rewrite list_lookup_alter_eq, zeros_lookup by (rewrite Hts; set_solver). Qed.

Lemma missing_init i : i ∈ init → missing !! i = Some zeroBucket.
Proof.
  intros Hi. unfold missing. rewrite list_lookup_alter_ne.
  - apply zeros_lookup. rewrite Hts. set_solver.
  - intros <-. by apply split_nodup in Hi.
Qed.

Lemma pure_one c bs i : c = 1 ∨ c = -1 → bs !! i = Some (mkBucket c key h) → isPure seed bs i = true.
Proof.
  intros Hc Hb. unfold isPure. rewrite Hb. simpl. fold h. rewrite Z.eqb_refl.
  by destruct Hc as [->| ->].
Qed.

Lemma pure_zero bs i : bs !! i = Some zeroBucket → isPure seed bs i = false.
Proof. intros Hb. unfold isPure. by rewrite Hb. Qed.

Lemma peel_diverges fuel q lh rh bs :
  init ≠ [] → (∀ i, i ∈ q → i ∈ ts) →
  (bs = almost ∧ ∃ i, i ∈ q ∧ i ∈ init) ∨ (bs = missing ∧ last ∈ q) →
  peel_loop fuel k seed bs q lh rh = None.
Proof.
  intros Hinit. destruct (list_choose_elem init Hinit) as [j0 Hj0]. clear Hinit.
  revert q lh rh bs. induction fuel as [|fuel IH]; intros q lh rh bs Hq Hinv; [done|].
  destruct q as [|i q].
  { destruct Hinv as [[_ (i & Hi & _)]|[_ Hi]]; by apply elem_of_nil in Hi. }
  assert (i ∈ ts) as Hi by (apply Hq; left).
  assert (∀ j, j ∈ q → j ∈ ts) as Hq' by (intros; apply Hq; by right).
  pose proof Hi as Hi'. rewrite Hts, elem_of_app, list_elem_of_singleton in Hi'.
  destruct Hinv as [[-> (j & Hj & Hjin)] | [-> Hl]], Hi' as [Hin | ->].
  - (* the queue head is a bucket that holds the key *)
    pose proof (pure_one 1 almost i (or_introl eq_refl) (almost_lookup i Hin)) as Hp.
    simpl. rewrite Hp, (almost_lookup i Hin). simpl. fold h. rewrite length_almost. fold ts.
    pose proof (cascade_apply k seed (-1) key almost q) as Hbs. rewrite length_almost in Hbs. fold h ts in Hbs.
    rewrite apply_almost in Hbs.
    pose proof (cascade_queue_nodup seed (-1) key h ts almost q last Hnd ltac:(rewrite Hts; set_solver)) as Hen.
    destruct (cascade_queue seed (-1) key h ts almost q) as (new & Hnew & _ & Hsub).
    destruct (cascade seed (-1) key h ts (almost, q)) as [bs' q']. simpl in *. subst bs' q'.
    apply IH.
    + intros x [?|?]%elem_of_app; auto.
    + right. split; [done|]. apply Hen. apply (pure_one (-1)); [by right|apply missing_last].
  - rewrite peel_loop_skip by apply pure_zero, almost_last. apply IH; [done|]. left. split; [done|].
    exists j. split; [|done]. apply elem_of_cons in Hj as [->|Hj]; [|done].
    by apply split_nodup in Hjin.
  - rewrite peel_loop_skip by by apply pure_zero, missing_init. apply IH; [done|]. right. split; [done|].
    apply elem_of_cons in Hl as [<-|Hl]; [|done]. by apply split_nodup in Hin.
  - pose proof (pure_one (-1) missing last (or_intror eq_refl) missing_last) as Hp.
    simpl. rewrite Hp, missing_last. simpl. fold h. rewrite length_missing. fold ts.
    pose proof (cascade_apply k seed 1 key missing q) as Hbs. rewrite length_missing in Hbs. fold h ts in Hbs.
    rewrite apply_missing in Hbs.
    pose proof (cascade_queue_nodup seed 1 key h ts missing q j0 Hnd ltac:(rewrite Hts; set_solver)) as Hen.
    destruct (cascade_queue seed 1 key h ts missing q) as (new & Hnew & _ & Hsub).
    destruct (cascade seed 1 key h ts (missing, q)) as [bs' q']. simpl in *. subst bs' q'.
    apply IH.
    + intros x [?|?]%elem_of_app; auto.
    + left. split; [done|]. exists j0. split; [|done]. apply Hen.
      apply (pure_one 1); [by left|]. by apply almost_lookup.
Qed.
End Divergence.
End Peel.

(** * Properties of the lookup tables and of the peel. *)

Section Theorems.
Context `{MH : MapHash}.

(** Inserting a list of keys, in order. *)
Fixpoint insert_keys (keys : list Z) (t : IBLT) : outcome IBLT :=
  match keys with
  | [] => Ret t
  | key :: keys' => match IBLT_Insert key t with Ret t' => insert_keys keys' t' | Panic m => Panic m end
  end.

(** A table inserts can work on. *)
Definition usable (t : IBLT) : Prop := ibltSeed t ≠ 0 ∧ (0 < length (buckets t))%nat ∧ wf_buckets (buckets t).

Lemma update_ret sign key t :
  usable t →
  update sign key t = Ret (mkIBLT (apply_key (ibltK t) (ibltSeed t) sign key (buckets t)) (ibltK t) (ibltSeed t)) ∧
  usable (mkIBLT (apply_key (ibltK t) (ibltSeed t) sign key (buckets t)) (ibltK t) (ibltSeed t)).
Proof.
  intros (Hs & Hl & Hw). unfold update. destruct (Z.eqb_spec (ibltSeed t) 0); [done|].
  destruct (Nat.eqb_spec (length (buckets t)) 0); [lia|]. split; [done|].
  split_and!; simpl; [done|by rewrite length_apply_key|by apply wf_apply_key].
Qed.

Lemma insert_keys_ret keys t :
  usable t →
  insert_keys keys t = Ret (mkIBLT (apply_all (ibltK t) (ibltSeed t) (pos keys) (buckets t)) (ibltK t) (ibltSeed t)).
Proof.
  revert t. induction keys as [|key keys IH]; intros t Hu; simpl; [by destruct t|].
  destruct (update_ret 1 key t Hu) as [Hr Hu']. unfold IBLT_Insert. rewrite Hr, IH by done. simpl.
  by rewrite apply_all_key.
Qed.

Lemma empty_usable n k seed : seed ≠ 0 → (0 < n)%nat → usable (mkIBLT (replicate n zeroBucket) k seed).
Proof. intros Hs Hn. split_and!; simpl; [done|by rewrite length_replicate|apply wf_zeros]. Qed.

(** The digest of a list of keys under a size, hash count and seed. *)
Definition digest (n k : nat) (seed : Z) (keys : list Z) : IBLT := mkIBLT (table_of n k seed (pos keys)) k seed.

Lemma insert_keys_digest n k seed keys :
  seed ≠ 0 → (0 < n)%nat →
  insert_keys keys (mkIBLT (replicate n zeroBucket) k seed) = Ret (digest n k seed keys).
Proof. intros Hs Hn. rewrite insert_keys_ret by by apply empty_usable. done. Qed.

Lemma Subtract_digests n k seed common a b a' b' :
  a ≡ₚ common ++ a' → b ≡ₚ common ++ b' →
  Subtract (digest n k seed a) (digest n k seed b) =
  Some (mkIBLT (table_of n k seed (pos a' ++ neg b')) k seed).
Proof.
  intros Ha Hb. unfold Subtract, digest. simpl. rewrite !length_table_of, !Nat.eqb_refl. simpl.
  do 2 f_equal. rewrite zip_sub_table; [|apply length_table_of|apply wf_apply_all, wf_zeros].
  unfold table_of. rewrite <- apply_all_app, flip_pos.
  rewrite (apply_all_perm _ _ (neg b ++ pos a) (neg common ++ pos common ++ (pos a' ++ neg b'))).
  - rewrite !apply_all_app, <- flip_pos. rewrite apply_all_flip; [done|].
    apply wf_apply_all, wf_apply_all, wf_zeros.
  - unfold pos, neg. rewrite Ha, Hb, !map_app. solve_Permutation || (rewrite <- !app_assoc;
      apply Permutation_app_head; rewrite (Permutation_app_comm (map _ b')), <- !app_assoc; done).
Qed.

Definition peel_fuel (t : IBLT) (d : nat) : nat := S (length (buckets t) + ibltK t * d).

Lemma Peel_ret fuel t :
  ibltSeed t ≠ 0 →
  Peel fuel t =
    match peel_loop fuel (ibltK t) (ibltSeed t) (buckets t) (initial_queue (ibltSeed t) (buckets t)) [] [] with
    | Some (bs, l, r) => Some (Ret (mkPeel l r (forallb (λ b, bool_decide (b = zeroBucket)) bs)))
    | None => None
    end.
Proof. intros Hs. unfold Peel. destruct (Z.eqb_spec (ibltSeed t) 0); done. Qed.

Lemma reconcile_digests (n k : nat) (seed : Z) (common a b a' b' : list Z) (fuel : nat) :
  seed ≠ 0 → a ≡ₚ common ++ a' → b ≡ₚ common ++ b' →
  faithful n k seed (pos a' ++ neg b') →
  (n + k * (length a' + length b') < fuel)%nat →
  ∃ diff res, Subtract (digest n k seed a) (digest n k seed b) = Some diff ∧
    Peel fuel diff = Some (Ret res) ∧
    (∀ x, x ∈ localHas res → x ∈ a') ∧ (∀ x, x ∈ remoteHas res → x ∈ b') ∧
    (peelOk res = true ↔ localHas res ≡ₚ a' ∧ remoteHas res ≡ₚ b').
Proof.
  intros Hs Ha Hb Hf Hfu. rewrite (Subtract_digests n k seed common a b a' b' Ha Hb).
  set (m := pos a' ++ neg b') in *.
  assert (length m = length a' + length b')%nat as Hlm by (unfold m, pos, neg; by rewrite length_app, !length_map).
  pose proof (length_initial_queue seed (table_of n k seed m)) as Hq. rewrite length_table_of in Hq.
  destruct (peel_loop_exact n k seed fuel m (initial_queue seed (table_of n k seed m)) [] [] Hf ltac:(lia))
    as (l & r & m' & Hp & Hsub & Hperm).
  eexists (mkIBLT (table_of n k seed m) k seed), (mkPeel l r _).
  split; [done|]. rewrite Peel_ret by done. cbn [ibltK ibltSeed buckets]. rewrite Hp.
  split; [done|]. cbn [localHas remoteHas peelOk app].
  assert (∀ s x, (s, x) ∈ m → s = 1 ∧ x ∈ a' ∨ s = -1 ∧ x ∈ b') as Hm.
  { intros s x [Hx|Hx]%elem_of_app; apply list_elem_of_fmap in Hx as (y & [= -> ->] & Hy); auto. }
  split_and!.
  - intros x Hx. destruct (Hm 1 x) as [[_ ?]|[? _]]; [|done|done]. rewrite Hperm. apply elem_of_app. left.
    apply list_elem_of_fmap. by exists x.
  - intros x Hx. destruct (Hm (-1) x) as [[? _]|[_ ?]]; [|done|done]. rewrite Hperm.
    apply elem_of_app. right. apply elem_of_app. left. apply list_elem_of_fmap. by exists x.
  - rewrite all_zero_spec, length_table_of. split.
    + intros Hz. apply (Hf m' Hsub) in Hz as ->. rewrite app_nil_r in Hperm.
      unfold m in Hperm. apply pos_neg_perm_inj in Hperm as [H1 H2]. by split.
    + intros [H1%Permutation_length H2%Permutation_length].
      apply Permutation_length in Hperm. rewrite Hlm in Hperm. unfold pos, neg in Hperm.
      rewrite !length_app, !length_map in Hperm. destruct m' as [|x m']; [done|]. simpl in Hperm. lia.
Qed.

(** ** A table that cannot be peeled *)

(** The difference: [key] in all of its buckets but the last; and the remote
    digest that produces it against [local]. *)
Definition crafted_diff (local : IBLT) (key : Z) : IBLT :=
  let n := length (buckets local) in
  let ts := getHashesInto n (ibltK local) (hashKeyWithSeed (ibltSeed local) key) in
  mkIBLT (almost n (ibltSeed local) key (removelast ts)) (ibltK local) (ibltSeed local).

Definition crafted_remote (local : IBLT) (key : Z) : IBLT :=
  mkIBLT (zip_with sub_bucket (buckets local) (buckets (crafted_diff local key))) (ibltK local) (ibltSeed local).

Lemma length_crafted_remote local key : length (buckets (crafted_remote local key)) = length (buckets local).
Proof. simpl. rewrite length_zip_with, length_almost. apply Nat.min_id. Qed.

Lemma Subtract_crafted local key : Subtract local (crafted_remote local key) = Some (crafted_diff local key).
Proof.
  unfold Subtract. rewrite length_crafted_remote, !Nat.eqb_refl. simpl. unfold crafted_diff. do 2 f_equal.
  set (d := almost _ _ _ _). apply list_eq. intros i. rewrite !lookup_zip_with.
  destruct (buckets local !! i) as [a|] eqn:Ea; simpl.
  - destruct (d !! i) as [b|] eqn:Eb; simpl; [|done]. f_equal. apply sub_bucket_sub.
    exact (Forall_lookup_1 _ _ _ _ (wf_almost _ _ _ _) Eb).
  - symmetry. apply lookup_ge_None. unfold d. rewrite length_almost. by apply lookup_ge_None.
Qed.

Lemma Peel_crafted local key fuel :
  usable local → (2 <= ibltK local)%nat →
  NoDup (getHashesInto (length (buckets local)) (ibltK local) (hashKeyWithSeed (ibltSeed local) key)) →
  Peel fuel (crafted_diff local key) = None.
Proof.
  intros (Hs & Hl & _) Hk Hnd. unfold crafted_diff. set (n := length (buckets local)) in *.
  set (k := ibltK local) in *. set (seed := ibltSeed local) in *.
  set (ts := getHashesInto n k (hashKeyWithSeed seed key)) in *.
  pose proof (length_getHashesInto n k (hashKeyWithSeed seed key)) as Hlen. fold ts in Hlen.
  assert (∃ last, ts = removelast ts ++ [last]) as [last Hts].
  { exists (List.last ts 0%nat). apply app_removelast_last. intros H0. rewrite H0 in Hlen. simpl in Hlen. lia. }
  set (init := removelast ts) in *.
  assert (init ≠ []) as Hinit by (intros H0; rewrite Hts, H0 in Hlen; simpl in Hlen; lia).
  rewrite Peel_ret by done. cbn [ibltK ibltSeed buckets].
  rewrite (peel_diverges n k seed key init last Hl Hts Hnd); [done|done| |].
  - intros i Hi. unfold initial_queue in Hi. apply list_elem_of_filter in Hi as [Hp _].
    apply isPure_spec in Hp as (b & Hb & Hc & _).
    destruct (decide (i ∈ init)) as [?|Hni]; [fold ts; rewrite Hts; set_solver|]. exfalso.
    unfold almost in Hb. rewrite foldl_alter_notin in Hb by done.
    apply lookup_replicate in Hb as [-> _]. simpl in Hc. lia.
  - left. split; [done|]. destruct (list_choose_elem init Hinit) as [j Hj]. exists j. split; [|done].
    pose proof (almost_lookup n k seed key init last Hl Hts Hnd j Hj) as Hlk.
    unfold initial_queue. apply list_elem_of_filter. split; [by apply (pure_one seed key 1); [left|]|].
    apply elem_of_seq. split; [lia|]. apply lookup_lt_Some in Hlk. simpl. exact Hlk.
Qed.

(** ** Properties *)

(** C35. Subtract and Peel of two digests built under one size, hash count and
    non-zero seed return within an explicit fuel bound, every returned key is a
    real difference on its side, and the peel reports success iff it returned
    the whole difference. This is when every differing key falls into k
    different buckets (always so with 1024 buckets and k = 4, digest_spread) and
    the hash has no accident on the difference (separates): no sum of two or
    more of its keys passes for one key, and no sum of one or more is all zero.
    *)
Theorem reconcile_exact (n k : nat) (seed : Z) (common a b a' b' : list Z) (fuel : nat) :
  (0 < n)%nat → (0 < k)%nat → seed ≠ 0 → a ≡ₚ common ++ a' → b ≡ₚ common ++ b' →
  spread n k seed (a' ++ b') → separates seed (pos a' ++ neg b') →
  (n + k * (length a' + length b') < fuel)%nat →
  ∃ diff res, Subtract (digest n k seed a) (digest n k seed b) = Some diff ∧
    Peel fuel diff = Some (Ret res) ∧
    (∀ x, x ∈ localHas res → x ∈ a') ∧ (∀ x, x ∈ remoteHas res → x ∈ b') ∧
    (peelOk res = true ↔ localHas res ≡ₚ a' ∧ remoteHas res ≡ₚ b').
Proof.
  intros Hn Hk Hs Ha Hb Hsp Hsep. apply (reconcile_digests n k seed common); [done..|].
  apply separates_faithful; [done|done|apply signs_pm|by rewrite signed_keys|done].
Qed.

(** A successful peel accounts for every bit of the table, honest or not:
    the table equals the one obtained by inserting the returned local keys into
    and deleting the returned remote keys from an empty table. *)
Theorem peel_success_reproduces_table (fuel : nat) (t : IBLT) (res : peelResult) :
  wf_buckets (buckets t) → Peel fuel t = Some (Ret res) → peelOk res = true →
  buckets t = table_of (length (buckets t)) (ibltK t) (ibltSeed t) (pos (localHas res) ++ neg (remoteHas res)).
Proof.
  intros Hw. unfold Peel. destruct (_ && _); [done|].
  destruct (peel_loop _ _ _ _ _ _ _) as [[[bs l] r]|] eqn:E; [|done]. intros [= <-] Hok. simpl in *.
  apply peel_loop_conserves in E as (l' & r' & -> & -> & ->). simpl in *.
  apply all_zero_spec in Hok. rewrite length_apply_all in Hok. by apply pos_neg_flip_inv.
Qed.

(** Delete undoes Insert exactly, whatever the table holds: counts wrap at 32
    bits in both directions. *)
Theorem delete_undoes_insert (key : Z) (t : IBLT) :
  usable t → ∃ t', IBLT_Insert key t = Ret t' ∧ IBLT_Delete key t' = Ret t.
Proof.
  intros Hu. destruct (update_ret 1 key t Hu) as [Hr Hu']. eexists. split; [exact Hr|].
  destruct (update_ret (-1) key _ Hu') as [Hr' _]. unfold IBLT_Delete. rewrite Hr'. simpl.
  rewrite (apply_key_inv _ _ 1) by apply Hu. by destruct t.
Qed.

(** A digest depends only on the multiset of keys: inserting a permutation of
    the keys gives the same table. *)
Theorem digest_order_irrelevant (keys keys' : list Z) (t : IBLT) :
  usable t → keys ≡ₚ keys' → insert_keys keys t = insert_keys keys' t.
Proof.
  intros Hu Hp. rewrite !insert_keys_ret by done. do 2 f_equal. apply apply_all_perm.
  unfold pos. by rewrite Hp.
Qed.

(** Peel does not terminate on every digest a peer can send: for any local
    digest and any key whose k >= 2 bucket indices are distinct there is a remote
    digest of the same size, hash count and seed for which the difference holds
    that key in all but one of its buckets, and then no amount of fuel lets Peel
    finish (the key is peeled, re-created with the opposite sign and peeled
    again, and localHas grows without bound). *)
Theorem peel_diverges_on_crafted_digest (local : IBLT) (key : Z) :
  usable local → (2 <= ibltK local)%nat →
  NoDup (getHashesInto (length (buckets local)) (ibltK local) (hashKeyWithSeed (ibltSeed local) key)) →
  ∃ remote diff, length (buckets remote) = length (buckets local) ∧ ibltK remote = ibltK local ∧
    ibltSeed remote = ibltSeed local ∧ wf_buckets (buckets remote) ∧
    Subtract local remote = Some diff ∧ ∀ fuel, Peel fuel diff = None.
Proof.
  intros Hu Hk Hnd. exists (crafted_remote local key), (crafted_diff local key).
  split_and!; [apply length_crafted_remote|done|done| |apply Subtract_crafted|intros fuel; by apply Peel_crafted].
  apply Forall_lookup_2. intros i b. unfold crafted_remote. cbn [buckets]. rewrite lookup_zip_with.
  intros H. apply bind_Some in H as (x & _ & H). apply bind_Some in H as (y & _ & [= <-]).
  apply i32_range.
Qed.
End Theorems.

(** ** Witnesses *)

(** An executable test. *)
Definition separatesb `{MH : MapHash} (seed : Z) (m : list signed) : bool :=
  forallb (λ ks, (negb (looks_single seed (sum_bucket seed ks)) || (length ks =? 1)%nat) &&
    (negb (bool_decide (sum_bucket seed ks = zeroBucket)) || bool_decide (ks = []))) (sublists m).

Lemma separatesb_spec `{MH : MapHash} seed m : separatesb seed m = true → separates seed m.
Proof.
  unfold separatesb. rewrite forallb_forall. intros H ks Hs%elem_of_sublists. apply list_elem_of_In, H, andb_true_iff in Hs as [H1 H2]. split.
  - intros E. rewrite E in H1. simpl in H1. by apply Nat.eqb_eq.
  - intros E. rewrite bool_decide_true in H2 by done. simpl in H2. by apply bool_decide_eq_true in H2.
Qed.

Lemma sample_separates : separates (MH:=fnv_maphash) 7 (pos [2; 3] ++ neg [9]).
Proof. apply separatesb_spec. vm_compute. reflexivity. Qed.

Lemma sample_spread : spread (MH:=fnv_maphash) 16 3 7 [2; 3; 9].
Proof. intros key Hk. repeat (apply elem_of_cons in Hk as [->|Hk]; [by apply (bool_decide_unpack _); vm_compute|]). by apply elem_of_nil in Hk. Qed.

Lemma reconcile_exact_witness :
  ∃ diff res,
    Subtract (digest (MH:=fnv_maphash) 16 3 7 [1; 2; 3]) (digest (MH:=fnv_maphash) 16 3 7 [9; 1]) = Some diff ∧
    Peel (MH:=fnv_maphash) 40 diff = Some (Ret res) ∧ peelOk res = true ∧ localHas res ≡ₚ [2; 3].
Proof.
  destruct (reconcile_exact (MH:=fnv_maphash) 16 3 7 [1] [1; 2; 3] [9; 1] [2; 3] [9] 40) as
    (diff & res & Hs & Hp & _ & _ & Hok).
  - lia.
  - lia.
  - done.
  - done.
  - apply Permutation_swap.
  - exact sample_spread.
  - exact sample_separates.
  - simpl. lia.
  - exists diff, res.
    assert (peelOk res = true) as Ht.
    { pose proof (f_equal (λ d, match d with Some d => Peel (MH:=fnv_maphash) 40 d | None => None end) Hs) as H.
      cbv beta iota in H. rewrite Hp in H. vm_compute in H. injection H as <-. reflexivity. }
    split_and!; [done|done|done|]. by apply Hok.
Defined.

Definition sample_table : IBLT := digest (MH:=fnv_maphash) 16 3 7 [2; 3].

Lemma sample_table_usable : usable sample_table.
Proof.
  split_and!; [done| |apply wf_apply_all, wf_zeros]. vm_compute. lia.
Qed.

Lemma peel_success_reproduces_table_witness :
  buckets sample_table = table_of (MH:=fnv_maphash) 16 3 7 (pos [2; 3] ++ neg []).
Proof.
  destruct (Peel (MH:=fnv_maphash) 40 sample_table) as [[res|m]|] eqn:E;
    [|vm_compute in E; discriminate E|vm_compute in E; discriminate E].
  pose proof (peel_success_reproduces_table (MH:=fnv_maphash) 40 sample_table res
                (proj2 (proj2 sample_table_usable)) E) as H.
  vm_compute in E. injection E as <-. apply H. reflexivity.
Defined.

Lemma delete_undoes_insert_witness :
  ∃ t', IBLT_Insert (MH:=fnv_maphash) 5 sample_table = Ret t' ∧ IBLT_Delete (MH:=fnv_maphash) 5 t' = Ret sample_table.
Proof. exact (delete_undoes_insert (MH:=fnv_maphash) 5 sample_table sample_table_usable). Defined.

Lemma digest_order_irrelevant_witness :
  insert_keys (MH:=fnv_maphash) [5; 6] sample_table = insert_keys (MH:=fnv_maphash) [6; 5] sample_table.
Proof.
  exact (digest_order_irrelevant (MH:=fnv_maphash) [5; 6] [6; 5] sample_table sample_table_usable
           (Permutation_swap _ _ _)).
Defined.

Lemma peel_diverges_on_crafted_digest_witness :
  ∃ remote diff, ibltSeed remote = 7 ∧ Subtract sample_table remote = Some diff ∧
    ∀ fuel, Peel (MH:=fnv_maphash) fuel diff = None.
Proof.
  destruct (peel_diverges_on_crafted_digest (MH:=fnv_maphash) sample_table 5 sample_table_usable) as
    (remote & diff & _ & _ & Hs & _ & Hd & Hp).
  - vm_compute. lia.
  - apply (bool_decide_eq_true_1 _). vm_compute. reflexivity.
  - exists remote, diff. split_and!; [exact Hs|exact Hd|exact Hp].
Defined.
