(* ===== verification/Strata.v ===== *)
(** The strata estimator (pkg/sync/iblt.go): stratum choice by trailing zeros,
    estimation by peeling strata from the sparsest, and the sizing of the
    reconciliation table. *)
From S2P Require Import Prelude Bytes Dots Hamt HamtMap Lamport Sorting Engine Iblt IbltPeel.

Definition strataCount : nat := 32.
Definition strataIBLTBuckets : nat := 80.
Definition strataK : nat := 3.
Definition minDynamicBuckets : Z := 128.

(** ** trailingZeros64 *)

Definition deBruijn : Z := 0x03f79d71b4ca8b09.
Definition deBruijn_table : list Z :=
  [0; 1; 56; 2; 57; 49; 28; 3; 61; 58; 42; 50; 38; 29; 17; 4;
   62; 47; 59; 36; 45; 43; 51; 22; 53; 39; 33; 30; 24; 18; 12; 5;
   63; 55; 48; 27; 60; 41; 37; 16; 46; 35; 44; 21; 52; 32; 23; 11;
   54; 26; 40; 15; 34; 20; 31; 10; 25; 14; 19; 9; 13; 8; 7; 6].

Definition trailingZeros64 (x : Z) : Z :=
  if x =? 0 then 64
  else
    let lowest := Z.land x (u64 (- x)) in
    default 0 (deBruijn_table !! Z.to_nat (Z.shiftr (lowest *ₒ deBruijn) 58)).

(** ** The estimator *)

Record StrataEstimator := mkStrata { strata : list IBLT; strataSeed : Z }.

Definition NewStrataEstimator (seed : Z) : StrataEstimator :=
  mkStrata (replicate strataCount (mkIBLT (replicate strataIBLTBuckets zeroBucket) strataK seed)) seed.

(** The stratum of a key. *)
Definition stratum (key : Z) : nat :=
  let s := trailingZeros64 key in
  Z.to_nat (if Z.of_nat strataCount <=? s then Z.of_nat strataCount - 1 else s).

(** DynamicIBLTSize on Go ints: the product wraps at 64 bits, the division
    truncates toward zero. *)
Definition DynamicIBLTSize (dEst : Z) : Z :=
  let size := Z.quot (i64 (dEst * 3)) 2 in
  if size <? minDynamicBuckets then minDynamicBuckets else size.

Definition NewDynamicIBLT (dEst k seed : Z) : outcome IBLT := NewIBLTWithSeed (DynamicIBLTSize dEst) k seed.

Section Strata.
Context `{MH : MapHash}.

Definition Strata_Insert (key : Z) (se : StrataEstimator) : outcome StrataEstimator :=
  let s := stratum key in
  match strata se !! s with
  | None => Panic "index out of range"
  | Some t =>
      match IBLT_Insert key t with
      | Ret t' => Ret (mkStrata (<[s := t']> (strata se)) (strataSeed se))
      | Panic m => Panic m
      end
  end.

(** One stratum of Estimate: either the returned estimate or the count so far. *)
Inductive stratumResult :=
| Estimated (d : Z)
| Accumulated (count : Z).

Definition estimate_stratum (fuel : nat) (s : nat) (count : Z) (a b : IBLT) : option (outcome stratumResult) :=
  match Subtract a b with
  | None => Some (Ret (Estimated (i64 (Z.shiftl count (Z.of_nat s + 1)))))
  | Some diff =>
      match Peel fuel diff with
      | None => None
      | Some (Panic m) => Some (Panic m)
      | Some (Ret res) =>
          let found := Z.of_nat (length (localHas res)) + Z.of_nat (length (remoteHas res)) in
          if peelOk res then Some (Ret (Accumulated (i64 (count + found))))
          else Some (Ret (Estimated (i64 (Z.shiftl (count + found) (Z.of_nat s + 1)))))
      end
  end.

(** The loop from stratum [n - 1] down to 0. *)
Fixpoint estimate_from (fuel n : nat) (count : Z) (local remote : StrataEstimator) : option (outcome Z) :=
  match n with
  | O => Some (Ret count)
  | S s =>
      match strata local !! s, strata remote !! s with
      | Some a, Some b =>
          match estimate_stratum fuel s count a b with
          | None => None
          | Some (Panic m) => Some (Panic m)
          | Some (Ret (Estimated d)) => Some (Ret d)
          | Some (Ret (Accumulated c)) => estimate_from fuel s c local remote
          end
      | _, _ => Some (Panic "nil stratum")
      end
  end.

Definition Estimate (fuel : nat) (se remote : StrataEstimator) : option (outcome Z) :=
  estimate_from fuel strataCount 0 se remote.
End Strata.

(** ** Lemmas *)

(** Isolating the lowest set bit. *)
Lemma land_opp_lowest c q : 0 <= c → Z.land (2 ^ c * (2 * q + 1)) (- (2 ^ c * (2 * q + 1))) = 2 ^ c.
Proof.
  intros Hc. set (x := 2 ^ c * (2 * q + 1)).
  assert (- x = Z.lnot (x - 1)) as -> by (unfold Z.lnot; lia).
  assert (x - 1 = 2 ^ c * (2 * q) + (2 ^ c - 1)) as Hx1 by (unfold x; lia).
  pose proof (Z.pow_pos_nonneg 2 c ltac:(lia) Hc) as Hp.
  assert (∀ i, 0 <= i → Z.testbit x i = if i <? c then false else Z.testbit (2 * q + 1) (i - c)) as Hbx.
  { intros i Hi. unfold x. rewrite Z.mul_comm. destruct (Z.ltb_spec i c).
    - by rewrite Z.mul_pow2_bits_low.
    - rewrite Z.mul_pow2_bits by lia. done. }
  assert (∀ i, 0 <= i → Z.testbit (x - 1) i = if i <? c then true else Z.testbit (2 * q) (i - c)) as Hbx1.
  { intros i Hi. rewrite Hx1. destruct (Z.ltb_spec i c).
    - rewrite <- (Z.mod_pow2_bits_low _ c) by lia.
      rewrite Z.add_comm, (Z.mul_comm (2 ^ c)), Z_mod_plus_full, Z.mod_small by lia.
      replace (2 ^ c - 1) with (Z.ones c) by (rewrite Z.ones_equiv; lia).
      apply Z.ones_spec_low. lia.
    - replace i with (i - c + c) at 1 by lia. rewrite <- Z.div_pow2_bits by lia.
      rewrite Z.add_comm, (Z.mul_comm (2 ^ c)), Z.div_add, Z.div_small by lia. done. }
  apply Z.bits_inj'. intros i Hi. rewrite Z.land_spec, Z.lnot_spec, Hbx, Hbx1 by done.
  rewrite Z.pow2_bits_eqb by done. destruct (Z.ltb_spec i c) as [Hlt|Hge].
  - symmetry. apply Z.eqb_neq. lia.
  - destruct (Z.eqb_spec c i) as [->|Hne].
    + rewrite Z.sub_diag. rewrite Z.testbit_odd_0, Z.testbit_even_0. done.
    + replace (i - c) with (Z.succ (i - c - 1)) by lia.
      rewrite Z.testbit_odd_succ, Z.testbit_even_succ by lia. by destruct (Z.testbit q _).
Qed.

(** Every non-zero uint64 is a power of two times an odd number. *)
Lemma odd_part x : 0 < x < 2 ^ 64 → ∃ c q, 0 <= c < 64 ∧ 0 <= q ∧ x = 2 ^ c * (2 * q + 1).
Proof.
  intros Hx. assert (∃ n : nat, x < 2 ^ Z.of_nat n ∧ (n <= 64)%nat) as (n & Hn & Hn64) by (exists 64%nat; split; [change (Z.of_nat 64) with 64; lia|lia]).
  destruct Hx as [Hx _]. revert x Hx Hn. induction n as [|n IH]; intros x Hx Hn; [simpl in Hn; lia|].
  rewrite Nat2Z.inj_succ, Z.pow_succ_r in Hn by lia.
  destruct (Z.Even_or_Odd x) as [[y ->]|[y ->]].
  - destruct (IH ltac:(lia) y) as (c & q & Hc & Hq & ->); [lia|lia|].
    destruct (Z.eq_dec c 63) as [->|Hc63].
    + exfalso. pose proof (Z.pow_le_mono_r 2 (Z.of_nat n) 63 ltac:(lia) ltac:(lia)). nia.
    + exists (c + 1), q. rewrite Z.pow_add_r by lia. split_and!; lia.
  - exists 0, y. split_and!; lia.
Qed.

Lemma land_opp_u64 c q :
  0 <= c < 64 → 0 <= q → 2 ^ c * (2 * q + 1) < 2 ^ 64 →
  Z.land (2 ^ c * (2 * q + 1)) (u64 (- (2 ^ c * (2 * q + 1)))) = 2 ^ c.
Proof.
  intros Hc Hq Hx. unfold u64. rewrite <- Z.land_ones, Z.land_assoc, land_opp_lowest by lia.
  rewrite Z.land_ones by lia. apply Z.mod_small.
  split; [apply Z.pow_nonneg; lia|apply Z.pow_lt_mono_r; lia].
Qed.

Lemma deBruijn_correct c :
  0 <= c < 64 → deBruijn_table !! Z.to_nat (Z.shiftr (2 ^ c *ₒ deBruijn) 58) = Some c.
Proof.
  intros Hc.
  assert (forallb (λ c, bool_decide (deBruijn_table !! Z.to_nat (Z.shiftr (2 ^ Z.of_nat c *ₒ deBruijn) 58) =
                                     Some (Z.of_nat c))) (seq 0 64) = true) as H by (vm_compute; reflexivity).
  rewrite forallb_forall in H. specialize (H (Z.to_nat c)). rewrite Z2Nat.id in H by lia.
  apply bool_decide_eq_true in H; [exact H|]. apply in_seq. lia.
Qed.

Lemma trailingZeros64_pow c q :
  0 <= c < 64 → 0 <= q → 2 ^ c * (2 * q + 1) < 2 ^ 64 → trailingZeros64 (2 ^ c * (2 * q + 1)) = c.
Proof.
  intros Hc Hq Hx. unfold trailingZeros64.
  pose proof (Z.pow_pos_nonneg 2 c ltac:(lia) ltac:(lia)).
  destruct (Z.eqb_spec (2 ^ c * (2 * q + 1)) 0); [nia|].
  rewrite land_opp_u64 by done. cbn zeta. by rewrite deBruijn_correct.
Qed.

(** ** Properties *)

(** The de Bruijn routine counts trailing zeros: for every uint64 the result
    is 64 for zero and otherwise the c < 64 with x = 2^c * odd; the stratum index
    derived from it is always in range. *)
Theorem trailing_zeros_correct (x : Z) :
  is_u64 x →
  (x = 0 → trailingZeros64 x = 64) ∧
  (x ≠ 0 → ∃ q, 0 <= trailingZeros64 x < 64 ∧ x = 2 ^ trailingZeros64 x * (2 * q + 1)) ∧
  (stratum x < strataCount)%nat.
Proof.
  intros [H0 H1]. assert (0 <= trailingZeros64 x) as Hnn.
  { destruct (Z.eq_dec x 0) as [->|Hx]; [by compute|].
    destruct (odd_part x ltac:(lia)) as (c & q & Hc & Hq & ->). rewrite trailingZeros64_pow by done. lia. }
  split_and!.
  - by intros ->.
  - intros Hx. destruct (odd_part x ltac:(lia)) as (c & q & Hc & Hq & ->).
    rewrite trailingZeros64_pow by done. by exists q.
  - unfold stratum, strataCount. destruct (Z.leb_spec (Z.of_nat 32) (trailingZeros64 x)); lia.
Qed.

(** The reconciliation table has at least 128 buckets whatever the estimate,
    even when three times the estimate overflows the int; without overflow it has
    floor(1.5 * estimate) buckets (one fewer than the documented ceiling for an
    odd estimate above 85), so NewDynamicIBLT panics only for k out of range. *)
Theorem dynamic_size_floor (dEst k seed : Z) :
  is_i64 dEst →
  128 <= DynamicIBLTSize dEst ∧
  (85 < dEst → dEst * 3 < 2 ^ 63 → DynamicIBLTSize dEst = dEst * 3 / 2) ∧
  (1 <= k <= 8 → ∃ t, NewDynamicIBLT dEst k seed = Ret t ∧ NumBuckets t = DynamicIBLTSize dEst).
Proof.
  intros Hd. assert (128 <= DynamicIBLTSize dEst) as Hmin.
  { unfold DynamicIBLTSize, minDynamicBuckets. destruct (Z.ltb_spec (Z.quot (i64 (dEst * 3)) 2) 128); lia. }
  split_and!; [done| |].
  - intros H1 H2. unfold DynamicIBLTSize, minDynamicBuckets.
    assert (i64 (dEst * 3) = dEst * 3) as -> by (unfold i64; rewrite Z.mod_small; lia).
    rewrite Z.quot_div_nonneg by lia.
    pose proof (Z.div_le_mono (86 * 3) (dEst * 3) 2 ltac:(lia) ltac:(lia)) as Hle.
    change (86 * 3 / 2) with 129 in Hle. destruct (Z.ltb_spec (dEst * 3 / 2) 128); lia.
  - intros Hk. unfold NewDynamicIBLT, NewIBLTWithSeed, ibltMaxK.
    destruct (Z.leb_spec k 0); [lia|]. destruct (Z.ltb_spec 8 k); [lia|]. simpl.
    destruct (Z.ltb_spec (DynamicIBLTSize dEst) 0); [lia|]. eexists. split; [done|].
    unfold NumBuckets. simpl. rewrite length_replicate. lia.
Qed.

(** ** Witnesses *)

Lemma trailing_zeros_correct_witness :
  ∃ q, 40960 = 2 ^ trailingZeros64 40960 * (2 * q + 1) ∧ trailingZeros64 40960 = 13.
Proof.
  destruct (trailing_zeros_correct 40960) as (_ & H & _); [words|].
  destruct (H ltac:(done)) as (q & _ & Hq). exists q. split; [exact Hq|vm_compute; reflexivity].
Defined.

Lemma dynamic_size_floor_witness : DynamicIBLTSize 101 = 151.
Proof.
  destruct (dynamic_size_floor 101 4 7) as (_ & H & _); [words|]. rewrite H by lia. reflexivity.
Defined.
