(* ===== verification/IbltWire.v ===== *)
(** The digest wire format (pkg/sync/iblt_wire.go): tables and strata estimators
    to bytes and back, with every rejection branch. *)
From S2P Require Import Prelude Bytes Dots Hamt HamtMap Lamport Sorting Engine Iblt IbltPeel.
From S2P Require Import Strata.

(** ** Format *)

Definition ibltWireMagic : Z := 0x49424C31.
Definition ibltWireHeaderLen : nat := 18.
Definition bucketWireLen : nat := 20.
Definition maxFrameSizeBytes : Z := 16 * 2 ^ 20.
(** sizeof(Bucket) on the 64-bit targets: int32, padding, two uint64. *)
Definition sizeofBucket : Z := 24.
Definition maxIBLTBuckets : Z := maxFrameSizeBytes / sizeofBucket.

Definition strataWireMagic : Z := 0x53545241.
Definition strataWireHeaderLen : nat := 13.

(** The errors, in the order the parser checks for them. *)
Inductive ibltError :=
| ErrNilDigest
| ErrShortHeader (got : Z)
| ErrMagic (got : Z)
| ErrIBLTTooLarge (numBuckets : Z)
| ErrKRange (k : Z)
| ErrShortBuckets (got want : Z).

Inductive strataError :=
| ErrNilEstimator
| ErrStratum (i : nat) (e : ibltError)
| ErrStrataShortHeader (got : Z)
| ErrStrataMagic (got : Z)
| ErrStrataCount (n : Z).

(** The seed crosses the wire as its backing word. *)
Definition SeedToUint64 (s : Z) : Z := s.
Definition Uint64ToSeed (w : Z) : Z := w.

Definition bucket_bytes (b : Bucket) : list Z :=
  le_put 4 (u32 (Count b)) ++ le_put 8 (KeySum b) ++ le_put 8 (HashSum b).

Definition read_bucket (wire : list Z) (off : nat) : Bucket :=
  mkBucket (i32 (le_get (slice off 4 wire))) (le_get (slice (off + 4) 8 wire))
    (le_get (slice (off + 12) 8 wire)).

Definition iblt_bytes (t : IBLT) : list Z :=
  le_put 4 ibltWireMagic ++ le_put 4 (u32 (NumBuckets t)) ++ le_put 2 (Z.of_nat (ibltK t) `mod` 2 ^ 16) ++
  le_put 8 (SeedToUint64 (ibltSeed t)) ++ concat (map bucket_bytes (buckets t)).

(** [None] is a nil digest. *)
Definition MarshalIBLT (t : option IBLT) : result ibltError (list Z) :=
  match t with
  | None => Err ErrNilDigest
  | Some t => Ok (iblt_bytes t)
  end.

Definition UnmarshalIBLT (wire : list Z) : result ibltError IBLT :=
  if (length wire <? ibltWireHeaderLen)%nat then Err (ErrShortHeader (Z.of_nat (length wire)))
  else
    let got := le_get (slice 0 4 wire) in
    if negb (got =? ibltWireMagic) then Err (ErrMagic got)
    else
      let n := le_get (slice 4 4 wire) in
      if (n <? 0) || (maxIBLTBuckets <? n) then Err (ErrIBLTTooLarge n)
      else
        let k := le_get (slice 8 2 wire) in
        if (k <=? 0) || (ibltMaxK <? k) then Err (ErrKRange k)
        else
          let want := Z.of_nat ibltWireHeaderLen + n * Z.of_nat bucketWireLen in
          if Z.of_nat (length wire) <? want then Err (ErrShortBuckets (Z.of_nat (length wire)) want)
          else
            let seed := Uint64ToSeed (le_get (slice 10 8 wire)) in
            Ok (mkIBLT (map (λ i, read_bucket wire (ibltWireHeaderLen + i * bucketWireLen)) (seq 0 (Z.to_nat n)))
                  (Z.to_nat k) seed).

Definition MarshalStrataEstimator (se : option StrataEstimator) : result strataError (list Z) :=
  match se with
  | None => Err ErrNilEstimator
  | Some se =>
      Ok (le_put 4 strataWireMagic ++ [Z.of_nat strataCount] ++ le_put 8 (SeedToUint64 (strataSeed se)) ++
          concat (map iblt_bytes (strata se)))
  end.

(** The per-stratum loop: [i] counts up, [n] strata are left. *)
Fixpoint read_strata (n i : nat) (wire : list Z) (off : nat) : result strataError (list IBLT) :=
  match n with
  | O => Ok []
  | S n' =>
      match UnmarshalIBLT (drop off wire) with
      | Err e => Err (ErrStratum i e)
      | Ok t =>
          rest ← read_strata n' (S i) wire (off + (ibltWireHeaderLen + length (buckets t) * bucketWireLen));
          Ok (t :: rest)
      end
  end.

Definition UnmarshalStrataEstimator (wire : list Z) : result strataError StrataEstimator :=
  if (length wire <? strataWireHeaderLen)%nat then Err (ErrStrataShortHeader (Z.of_nat (length wire)))
  else
    let got := le_get (slice 0 4 wire) in
    if negb (got =? strataWireMagic) then Err (ErrStrataMagic got)
    else
      let n := le_get (slice 4 1 wire) in
      if negb (n =? Z.of_nat strataCount) then Err (ErrStrataCount n)
      else
        let seed := Uint64ToSeed (le_get (slice 5 8 wire)) in
        ts ← read_strata strataCount 0 wire strataWireHeaderLen;
        Ok (mkStrata ts seed).

(** ** What fits the wire *)

Definition wire_bucket (b : Bucket) : Prop := is_i32 (Count b) ∧ is_u64 (KeySum b) ∧ is_u64 (HashSum b).

Definition wire_iblt (t : IBLT) : Prop :=
  NumBuckets t <= maxIBLTBuckets ∧ 1 <= Z.of_nat (ibltK t) <= ibltMaxK ∧ is_u64 (ibltSeed t) ∧
  Forall wire_bucket (buckets t).

(** ** Lemmas *)

Lemma length_bucket_bytes b : length (bucket_bytes b) = bucketWireLen.
Proof. unfold bucket_bytes. by rewrite !length_app, !length_le_put. Qed.

Lemma length_concat_buckets bs : length (concat (map bucket_bytes bs)) = (length bs * bucketWireLen)%nat.
Proof.
  induction bs as [|b bs IH]; [done|]. cbn [map concat length].
  rewrite length_app, IH, length_bucket_bytes. unfold bucketWireLen. lia.
Qed.

Lemma length_iblt_bytes t : length (iblt_bytes t) = (ibltWireHeaderLen + length (buckets t) * bucketWireLen)%nat.
Proof.
  unfold iblt_bytes. rewrite !length_app, !length_le_put, length_concat_buckets.
  unfold ibltWireHeaderLen. lia.
Qed.

Lemma i32_u32 c : is_i32 c → i32 (u32 c) = c.
Proof.
  intros Hc. rewrite <- (i32_id c) at 2 by done. apply i32_congr. unfold u32. by rewrite Z.mod_mod by lia.
Qed.

Lemma read_bucket_here pre b rest :
  wire_bucket b → read_bucket (pre ++ bucket_bytes b ++ rest) (length pre) = b.
Proof.
  intros (Hc & Hk & Hh). unfold read_bucket, bucket_bytes. rewrite <- !app_assoc.
  rewrite !(slice_app_skip _ _ pre) by lia.
  replace (length pre - length pre)%nat with 0%nat by lia.
  replace (length pre + 4 - length pre)%nat with 4%nat by lia.
  replace (length pre + 12 - length pre)%nat with 12%nat by lia.
  rewrite (slice_app_here 4) by apply length_le_put.
  rewrite !(slice_app_skip _ _ (le_put 4 _)) by (rewrite length_le_put; lia). rewrite !length_le_put.
  change (4 - 4)%nat with 0%nat. change (12 - 4)%nat with 8%nat.
  rewrite (slice_app_here 8) by apply length_le_put.
  rewrite (slice_app_skip 8) by (rewrite length_le_put; lia). rewrite length_le_put. change (8 - 8)%nat with 0%nat.
  rewrite (slice_app_here 8) by apply length_le_put.
  rewrite !le_get_put by (words || (unfold u32; apply Z.mod_pos_bound; lia)).
  rewrite i32_u32 by done. by destruct b.
Qed.

Lemma read_buckets_all pre bs rest :
  Forall wire_bucket bs →
  map (λ i, read_bucket (pre ++ concat (map bucket_bytes bs) ++ rest) (length pre + i * bucketWireLen))
    (seq 0 (length bs)) = bs.
Proof.
  revert pre. induction bs as [|b bs IH]; intros pre Hf; [done|].
  inversion_clear Hf as [|? ? Hb Hbs]. cbn [length seq map concat]. rewrite <- app_assoc. f_equal.
  - rewrite Nat.add_0_r. by apply read_bucket_here.
  - rewrite <- seq_shift, map_map. rewrite <- (IH (pre ++ bucket_bytes b) Hbs) at 2.
    apply map_ext. intros i. rewrite <- app_assoc, length_app, length_bucket_bytes. f_equal.
    unfold bucketWireLen. lia.
Qed.

(** The header fields read back what was written. *)
Lemma iblt_header t rest :
  wire_iblt t →
  le_get (slice 0 4 (iblt_bytes t ++ rest)) = ibltWireMagic ∧
  le_get (slice 4 4 (iblt_bytes t ++ rest)) = NumBuckets t ∧
  le_get (slice 8 2 (iblt_bytes t ++ rest)) = Z.of_nat (ibltK t) ∧
  le_get (slice 10 8 (iblt_bytes t ++ rest)) = ibltSeed t.
Proof.
  intros (Hn & Hk & Hs & _). unfold iblt_bytes. rewrite <- !app_assoc.
  assert (0 <= NumBuckets t) by (unfold NumBuckets; lia).
  assert (u32 (NumBuckets t) = NumBuckets t) as -> .
  { unfold u32. apply Z.mod_small. unfold maxIBLTBuckets, maxFrameSizeBytes, sizeofBucket in Hn.
    change (16 * 2 ^ 20 / 24) with 699050 in Hn. lia. }
  rewrite (Z.mod_small (Z.of_nat (ibltK t))) by (unfold ibltMaxK in Hk; lia).
  split_and!.
  - rewrite slice_app_here by apply length_le_put. by rewrite le_get_put.
  - rewrite slice_app_skip, length_le_put by (rewrite length_le_put; lia). cbn [Nat.sub].
    rewrite slice_app_here by apply length_le_put. rewrite le_get_put; [done|].
    unfold maxIBLTBuckets, maxFrameSizeBytes, sizeofBucket in Hn.
    change (16 * 2 ^ 20 / 24) with 699050 in Hn. change (Z.of_nat 4 * 8) with 32. lia.
  - do 2 (rewrite slice_app_skip, length_le_put by (rewrite length_le_put; lia); cbn [Nat.sub]).
    rewrite slice_app_here by apply length_le_put. rewrite le_get_put; [done|].
    unfold ibltMaxK in Hk. change (Z.of_nat 2 * 8) with 16. lia.
  - do 3 (rewrite slice_app_skip, length_le_put by (rewrite length_le_put; lia); cbn [Nat.sub]).
    rewrite slice_app_here by apply length_le_put. rewrite le_get_put; [done|]. exact Hs.
Qed.

(** Decoding consumes exactly what encoding produced. *)
Lemma Unmarshal_iblt_bytes t rest : wire_iblt t → UnmarshalIBLT (iblt_bytes t ++ rest) = Ok t.
Proof.
  intros Hw. destruct (iblt_header t rest Hw) as (Hm & Hn & Hk & Hs).
  destruct Hw as (Hnb & Hkb & _ & Hbs).
  assert (0 <= NumBuckets t) as Hn0 by (unfold NumBuckets; lia).
  unfold UnmarshalIBLT. rewrite Hm, Hn, Hk, Hs, Z.eqb_refl.
  rewrite length_app, length_iblt_bytes. unfold NumBuckets in *.
  destruct (Nat.ltb_spec (ibltWireHeaderLen + length (buckets t) * bucketWireLen + length rest) ibltWireHeaderLen);
    [lia|]. simpl negb. cbv iota.
  destruct (Z.ltb_spec (Z.of_nat (length (buckets t))) 0); [lia|].
  destruct (Z.ltb_spec maxIBLTBuckets (Z.of_nat (length (buckets t)))); [lia|]. cbn [orb].
  destruct (Z.leb_spec (Z.of_nat (ibltK t)) 0); [lia|].
  destruct (Z.ltb_spec ibltMaxK (Z.of_nat (ibltK t))); [lia|]. cbn [orb].
  destruct (Z.ltb_spec
    (Z.of_nat (ibltWireHeaderLen + length (buckets t) * bucketWireLen + length rest))
    (Z.of_nat ibltWireHeaderLen + Z.of_nat (length (buckets t)) * Z.of_nat bucketWireLen)); [lia|].
  rewrite !Nat2Z.id. f_equal. unfold Uint64ToSeed.
  assert (∃ hdr, length hdr = ibltWireHeaderLen ∧
    iblt_bytes t = hdr ++ concat (map bucket_bytes (buckets t))) as (hdr & Hl & Hb).
  { unfold iblt_bytes. exists (le_put 4 ibltWireMagic ++ le_put 4 (u32 (NumBuckets t)) ++
      le_put 2 (Z.of_nat (ibltK t) `mod` 2 ^ 16) ++ le_put 8 (SeedToUint64 (ibltSeed t))).
    by rewrite !length_app, !length_le_put, <- !app_assoc. }
  rewrite Hb, <- app_assoc, <- Hl. rewrite read_buckets_all by done. by destruct t.
Qed.

Lemma read_strata_all ts i pre :
  Forall wire_iblt ts → read_strata (length ts) i (pre ++ concat (map iblt_bytes ts)) (length pre) = Ok ts.
Proof.
  revert i pre. induction ts as [|t ts IH]; intros i pre Hf; [done|].
  inversion_clear Hf as [|? ? Ht Hts]. cbn [length read_strata map concat].
  rewrite drop_app_length, Unmarshal_iblt_bytes by done.
  rewrite <- (length_iblt_bytes t), <- (length_app pre).
  rewrite app_assoc, IH by done. done.
Qed.

Lemma slice_le_get_u64 off wire : is_bytes wire → (off + 8 <= length wire)%nat → is_u64 (le_get (slice off 8 wire)).
Proof.
  intros Hb Hl. pose proof (le_get_range (slice off 8 wire) (slice_bytes _ _ _ Hb)) as H.
  rewrite length_slice in H by done. exact H.
Qed.

Definition strata_header_bytes (se : StrataEstimator) : list Z :=
  le_put 4 strataWireMagic ++ [Z.of_nat strataCount] ++ le_put 8 (SeedToUint64 (strataSeed se)).

Lemma strata_header se rest :
  is_u64 (strataSeed se) →
  length (strata_header_bytes se) = strataWireHeaderLen ∧
  le_get (slice 0 4 (strata_header_bytes se ++ rest)) = strataWireMagic ∧
  le_get (slice 4 1 (strata_header_bytes se ++ rest)) = Z.of_nat strataCount ∧
  le_get (slice 5 8 (strata_header_bytes se ++ rest)) = strataSeed se.
Proof.
  intros Hs. unfold strata_header_bytes. split; [by rewrite !length_app, !length_le_put|].
  rewrite <- !app_assoc. split_and!.
  - rewrite slice_app_here by apply length_le_put. by rewrite le_get_put.
  - rewrite slice_app_skip, length_le_put by (rewrite length_le_put; lia). cbn [Nat.sub].
    by rewrite slice_app_here.
  - rewrite slice_app_skip, length_le_put by (rewrite length_le_put; lia). cbn [Nat.sub].
    rewrite slice_app_skip by (cbn [length]; lia). cbn [length Nat.sub].
    rewrite slice_app_here by apply length_le_put. rewrite le_get_put; [done|]. exact Hs.
Qed.

(** ** Properties *)

(** Digest round trip: a table of at most 699050 buckets with 1 <= k <= 8
    decodes from its own encoding, also when more bytes follow. *)
Theorem iblt_wire_roundtrip (t : IBLT) (rest : list Z) :
  wire_iblt t →
  ∃ bytes, MarshalIBLT (Some t) = Ok bytes ∧ UnmarshalIBLT (bytes ++ rest) = Ok t ∧
    length bytes = (18 + 20 * length (buckets t))%nat.
Proof.
  intros Hw. exists (iblt_bytes t). split_and!; [done|by apply Unmarshal_iblt_bytes|].
  rewrite length_iblt_bytes. unfold ibltWireHeaderLen, bucketWireLen. lia.
Qed.

(** What UnmarshalIBLT accepts is bounded: any accepted wire is long enough
    for the buckets it declares, the table is well formed with 1 <= k <= 8, and
    its bucket array fits the 16 MiB ingress cap. *)
Theorem unmarshal_iblt_bounds (wire : list Z) (t : IBLT) :
  is_bytes wire → UnmarshalIBLT wire = Ok t →
  wire_iblt t ∧ NumBuckets t * sizeofBucket <= maxFrameSizeBytes ∧
  (18 + 20 * length (buckets t) <= length wire)%nat.
Proof.
  intros Hb. unfold UnmarshalIBLT.
  destruct (Nat.ltb_spec (length wire) ibltWireHeaderLen) as [|Hlen]; [done|].
  destruct (negb _); [done|]. cbn zeta.
  set (n := le_get (slice 4 4 wire)). set (k := le_get (slice 8 2 wire)).
  destruct (Z.ltb_spec n 0); [done|]. destruct (Z.ltb_spec maxIBLTBuckets n) as [|Hn]; [done|]. cbn [orb].
  destruct (Z.leb_spec k 0); [done|]. destruct (Z.ltb_spec ibltMaxK k) as [|Hk]; [done|]. cbn [orb].
  destruct (Z.ltb_spec (Z.of_nat (length wire)) (Z.of_nat ibltWireHeaderLen + n * Z.of_nat bucketWireLen))
    as [|Hw]; [done|]. intros [= <-]. unfold wire_iblt, NumBuckets. cbn [buckets ibltK ibltSeed].
  rewrite length_map, length_seq, !Z2Nat.id by lia.
  unfold ibltWireHeaderLen, bucketWireLen in *.
  assert (maxIBLTBuckets * sizeofBucket <= maxFrameSizeBytes) as Hcap by (vm_compute; discriminate).
  split_and!; [done|lia|lia| | |unfold sizeofBucket in *; lia|lia].
  - apply slice_le_get_u64; [done|lia].
  - apply Forall_forall. intros b (i & -> & Hi%elem_of_seq)%list_elem_of_fmap. unfold read_bucket, wire_bucket.
    cbn [Count KeySum HashSum]. split_and!; [apply i32_range|apply slice_le_get_u64; [done|lia]..].
Qed.

Lemma strata_decode se :
  length (strata se) = strataCount → Forall wire_iblt (strata se) → is_u64 (strataSeed se) →
  UnmarshalStrataEstimator (le_put 4 strataWireMagic ++ [Z.of_nat strataCount] ++ le_put 8 (SeedToUint64 (strataSeed se)) ++
    concat (map iblt_bytes (strata se))) = Ok se.
Proof.
  intros Hl Hf Hs.
  set (body := concat (map iblt_bytes (strata se))).
  destruct (strata_header se body Hs) as (Hh & Hm & Hc & Hsd).
  set (wire := le_put 4 strataWireMagic ++ _) in *.
  assert (wire = strata_header_bytes se ++ body) as Hw
    by (unfold wire, strata_header_bytes; by rewrite <- !app_assoc).
  unfold UnmarshalStrataEstimator. rewrite Hw, Hm, Hc, Hsd, !Z.eqb_refl.
  rewrite length_app, Hh. destruct (Nat.ltb_spec (strataWireHeaderLen + length body) strataWireHeaderLen); [lia|].
  cbn [negb]. cbv iota zeta. rewrite <- Hl, <- Hh. unfold body. rewrite read_strata_all by done.
  simpl. by destruct se.
Qed.

(** Estimator round trip: 32 wire-sized strata and the seed survive encoding
    and decoding. *)
Theorem strata_wire_roundtrip (se : StrataEstimator) :
  length (strata se) = strataCount → Forall wire_iblt (strata se) → is_u64 (strataSeed se) →
  ∃ bytes, MarshalStrataEstimator (Some se) = Ok bytes ∧ UnmarshalStrataEstimator bytes = Ok se.
Proof. intros Hl Hf Hs. eexists. split; [done|]. by apply strata_decode. Qed.

(** ** Witnesses *)

Lemma sample_table_wire : wire_iblt sample_table.
Proof.
  split_and!; [vm_compute; discriminate|vm_compute; discriminate|vm_compute; discriminate|done|].
  assert (Forall (λ b, (is_i32 (Count b) ∧ is_u64 (KeySum b)) ∧ is_u64 (HashSum b)) (buckets sample_table)) as H.
  { unfold is_i32, is_u64. apply (bool_decide_eq_true_1 _). vm_compute. reflexivity. }
  eapply Forall_impl; [exact H|]. intros b [[? ?] ?]. by split_and!.
Qed.

Lemma iblt_wire_roundtrip_witness :
  UnmarshalIBLT (iblt_bytes sample_table ++ [1; 2; 3]) = Ok sample_table.
Proof.
  destruct (iblt_wire_roundtrip sample_table [1; 2; 3] sample_table_wire) as (bytes & [= <-] & H & _).
  exact H.
Defined.

Lemma unmarshal_iblt_bounds_witness : NumBuckets sample_table * sizeofBucket <= maxFrameSizeBytes.
Proof.
  apply (unmarshal_iblt_bounds (iblt_bytes sample_table ++ []) sample_table).
  - apply (bool_decide_eq_true_1 _). vm_compute. reflexivity.
  - vm_compute. reflexivity.
Defined.

Lemma strata_wire_roundtrip_witness :
  ∃ bytes, MarshalStrataEstimator (Some (NewStrataEstimator 7)) = Ok bytes ∧
    UnmarshalStrataEstimator bytes = Ok (NewStrataEstimator 7).
Proof.
  apply (strata_wire_roundtrip (NewStrataEstimator 7)); [done| |done].
  apply Forall_replicate. split_and!; [vm_compute; discriminate|vm_compute; discriminate|
    vm_compute; discriminate|done|]. by apply Forall_replicate.
Defined.
