(* ===== verification/AntiEntropy.v ===== *)
(** Anti-entropy (pkg/sync/crdt.go): digests of the engine's entries,
    GenerateDelta against a remote digest, and the lazy Entries iterator of the
    delta it returns. *)
From S2P Require Import Prelude Bytes Dots Hamt HamtMap Lamport Sorting Engine EngineInv JoinSpec.
From S2P Require Import EngineThms Iblt IbltPeel Strata IbltWire.

Definition entry_key (x : CRDTEntry) : Z := HashCausalDot (Dot x) (PayloadDigest x).

(** sort.Search over a slice: the smallest index in [i, j) with [f], else [j]. *)
Fixpoint search_from (fuel : nat) (f : nat → bool) (i j : nat) : nat :=
  match fuel with
  | O => i
  | S fuel' =>
      if (i <? j)%nat then
        let h := ((i + j) / 2)%nat in
        if f h then search_from fuel' f i h else search_from fuel' f (S h) j
      else i
  end.

Definition sort_Search (n : nat) (f : nat → bool) : nat := search_from (S n) f 0 n.

(** The membership test of the Entries closure. *)
Definition in_sendKeys (sendKeys : list Z) (key : Z) : bool :=
  match sendKeys with
  | [] => false
  | _ =>
      let idx := sort_Search (length sendKeys) (λ j, key <=? default 0 (sendKeys !! j)) in
      bool_decide (sendKeys !! idx = Some key)
  end.

(** The fields of CRDTDelta the iterator reads; [peelErr] is [true] for a
    non-nil error. *)
Record CRDTDelta := mkDelta {
  shardRoots : list HAMT;
  sendKeys : list Z;
  diffNil : bool;
  peelErr : bool;
}.

Lemma lxor_u64 a b : is_u64 a → is_u64 b → is_u64 (Z.lxor a b).
Proof.
  unfold is_u64. intros [Ha Ha'] [Hb Hb']. assert (0 <= Z.lxor a b) as Hn by (by apply Z.lxor_nonneg).
  split; [done|]. destruct (Z.eq_dec (Z.lxor a b) 0) as [->|H0]; [lia|].
  apply Z.log2_lt_pow2; [lia|]. eapply Z.le_lt_trans; [apply Z.log2_lxor; lia|].
  apply Z.max_lub_lt; (destruct (Z.eq_dec a 0) as [->|]; [|]; destruct (Z.eq_dec b 0) as [->|]);
    try (apply Z.log2_lt_pow2; lia); simpl; lia.
Qed.

Lemma Forall_zip_with_sub P (a b : list Bucket) :
  (∀ x y, P x → P y → P (sub_bucket x y)) →
  Forall P a → Forall P b → Forall P (zip_with sub_bucket a b).
Proof.
  intros H Ha. revert b. induction Ha as [|x a Hx _ IH]; intros b Hb; simpl; [constructor|].
  destruct Hb as [|y b Hy Hb]; constructor; auto.
Qed.

Section AntiEntropy.
Context `{MH : MapHash} `{SS : SliceSort}.

(** A walk over every shard that inserts each entry's key: a panic aborts it. *)
Definition digest_shard (st : outcome IBLT) (shardRoot : HAMT) : outcome IBLT :=
  HAMT_ForEach (λ st _ entries,
    match st with
    | Ret t => (insert_keys (map entry_key entries) t, true)
    | Panic m => (Panic m, false)
    end) shardRoot st.

Definition GenerateDigestWithSeed (seed : Z) (e : Engine) : outcome IBLT :=
  foldl digest_shard (NewArenaIBLT 1024 4 seed) (shards e).

Fixpoint strata_insert_keys (keys : list Z) (se : StrataEstimator) : outcome StrataEstimator :=
  match keys with
  | [] => Ret se
  | key :: keys' =>
      match Strata_Insert key se with Ret se' => strata_insert_keys keys' se' | Panic m => Panic m end
  end.

Definition GenerateStrataEstimator (seed : Z) (e : Engine) : outcome StrataEstimator :=
  foldl (λ st shardRoot,
    HAMT_ForEach (λ st _ entries,
      match st with
      | Ret se => (strata_insert_keys (map entry_key entries) se, true)
      | Panic m => (Panic m, false)
      end) shardRoot st) (Ret (NewStrataEstimator seed)) (shards e).

(** GenerateDelta; [None] is a peel that has not finished within the fuel. *)
Definition GenerateDelta (fuel : nat) (remoteDigest : IBLT) (e : Engine) : option (outcome CRDTDelta) :=
  match GenerateDigestWithSeed (ibltSeed remoteDigest) e with
  | Panic m => Some (Panic m)
  | Ret localDigest =>
      match Subtract localDigest remoteDigest with
      | None => Some (Ret (mkDelta (shards e) [] true false))
      | Some diff =>
          match Peel fuel diff with
          | None => None
          | Some (Panic m) => Some (Panic m)
          | Some (Ret r) =>
              Some (Ret (mkDelta (shards e) (sortFunc Z.compare (localHas r)) false (negb (peelOk r))))
          end
      end
  end.

(** What the Entries closure yields to a consumer that never stops it. *)
Definition delta_entries (d : CRDTDelta) : list (string * CRDTEntry) :=
  foldl (λ out sr,
    HAMT_ForEach (λ out entityID entries,
      (out ++ map (λ x, (entityID, x))
                (List.filter (λ x, diffNil d || peelErr d || in_sendKeys (sendKeys d) (entry_key x)) entries), true))
      sr out) [] (shardRoots d).

(** ** The binary search *)

Lemma search_from_spec fuel f i j :
  (j - i < fuel)%nat → (i <= j)%nat → (∀ a b, (a <= b)%nat → f a = true → f b = true) →
  let r := search_from fuel f i j in
  (i <= r <= j)%nat ∧ (∀ x, (i <= x < r)%nat → f x = false) ∧ ((r < j)%nat → f r = true).
Proof.
  intros Hfu Hij Hmono. revert i j Hfu Hij. induction fuel as [|fuel IH]; intros i j Hfu Hij; [lia|].
  cbn [search_from]. cbv zeta.
  destruct (Nat.ltb_spec i j) as [Hlt|Hge].
  - assert (i <= (i + j) / 2 < j)%nat as Hh.
    { split; [apply Nat.div_le_lower_bound; lia|apply Nat.Div0.div_lt_upper_bound; lia]. }
    destruct (f ((i + j) / 2)%nat) eqn:Ef.
    + destruct (IH i ((i + j) / 2)%nat ltac:(lia) ltac:(lia)) as (Hr & Hlo & Hhi). split_and!; try lia; [exact Hlo|].
      intros _. destruct (decide (search_from fuel f i ((i + j) / 2) < (i + j) / 2)%nat) as [Hd|Hd]; [by apply Hhi|].
      replace (search_from fuel f i ((i + j) / 2)) with ((i + j) / 2)%nat by lia. done.
    + destruct (IH (S ((i + j) / 2)) j ltac:(lia) ltac:(lia)) as (Hr & Hlo & Hhi). split_and!; try lia; [|exact Hhi].
      intros x Hx. destruct (decide (S ((i + j) / 2) <= x)%nat); [apply Hlo; lia|].
      destruct (f x) eqn:Ex; [|done]. rewrite (Hmono x ((i + j) / 2)%nat) in Ef; [done|lia|done].
  - split_and!; try lia.
Qed.

(** On a sorted slice the search decides membership. *)
Lemma in_sendKeys_spec keys key :
  in_sendKeys (sortFunc Z.compare keys) key = true ↔ key ∈ keys.
Proof.
  pose proof (sortFunc_perm _ Z.compare keys) as Hp.
  assert (StronglySorted Z.le (sortFunc Z.compare keys)) as Hs.
  { eapply StronglySorted_weaken; [|apply sortFunc_sorted; exact (weak_by_key (λ x, x) Z.compare)].
    intros x y Hxy. by apply Z.compare_le_iff. }
  assert (key ∈ keys ↔ key ∈ sortFunc Z.compare keys) as -> by by rewrite Hp.
  clear Hp. generalize dependent (sortFunc Z.compare keys). intros l Hs. clear keys.
  unfold in_sendKeys. destruct l as [|k0 l0] eqn:El; [split; [done|by intros ?%elem_of_nil]|].
  rewrite <- El in *. clear El k0 l0. set (f := λ j, key <=? default 0 (l !! j)).
  (* beyond the slice the closure is not called; monotonicity holds inside it *)
  assert (∀ a b x y, (a <= b)%nat → l !! a = Some x → l !! b = Some y → x <= y) as Hmono.
  { clear -Hs. induction Hs as [|z l Hs IH Hf]; intros a b x y Hab Ha Hb; [done|].
    destruct a as [|a], b as [|b]; simpl in *; [by simplify_eq| |lia|].
    - simplify_eq. rewrite Forall_forall in Hf. apply Hf. by eapply list_elem_of_lookup_2.
    - eapply IH; [|done|done]. lia. }
  set (g := λ j, if (j <? length l)%nat then f j else true).
  assert (∀ fuel i j, (j <= length l)%nat → search_from fuel f i j = search_from fuel g i j) as Hfg.
  { induction fuel as [|fuel IH]; intros i j Hj; [done|]. cbn [search_from]. cbv zeta. destruct (Nat.ltb_spec i j); [|done].
    assert ((i + j) / 2 < j)%nat by (apply Nat.Div0.div_lt_upper_bound; lia).
    unfold g at 1. destruct (Nat.ltb_spec ((i + j) / 2) (length l)); [|lia].
    destruct (f ((i + j) / 2)%nat); apply IH; lia. }
  destruct (search_from_spec (S (length l)) g 0 (length l)) as (Hr & Hlo & Hhi); [lia|lia| |].
  { intros a b Hab. unfold g, f. destruct (Nat.ltb_spec b (length l)) as [Hb|]; [|done].
    destruct (Nat.ltb_spec a (length l)) as [Ha|]; [|lia].
    destruct (lookup_lt_is_Some_2 l a Ha) as [x Hx], (lookup_lt_is_Some_2 l b Hb) as [y Hy].
    rewrite Hx, Hy. simpl. rewrite !Z.leb_le. specialize (Hmono a b x y Hab Hx Hy). lia. }
  unfold sort_Search. rewrite Hfg by lia. set (r := search_from _ _ _ _) in *.
  rewrite bool_decide_eq_true. split; [by intros H%list_elem_of_lookup_2|].
  intros [i Hi]%list_elem_of_lookup. pose proof (lookup_lt_Some _ _ _ Hi) as Hil.
  assert (¬ (i < r)%nat) as Hir.
  { intros Hlt. specialize (Hlo i ltac:(lia)). unfold g, f in Hlo. rewrite Hi in Hlo. simpl in Hlo.
    destruct (Nat.ltb_spec i (length l)); [|lia]. apply Z.leb_gt in Hlo. lia. }
  assert (r < length l)%nat as Hrl by lia. specialize (Hhi Hrl).
  destruct (lookup_lt_is_Some_2 l r Hrl) as [y Hy]. rewrite Hy. f_equal.
  unfold g, f in Hhi. rewrite Hy in Hhi. simpl in Hhi. destruct (Nat.ltb_spec r (length l)); [|lia].
  apply Z.leb_le in Hhi. specialize (Hmono r i y key ltac:(lia) Hy Hi). lia.
Qed.

(** ** Digests *)

Definition engine_keys (e : Engine) : list Z := map entry_key (concat (all_items (shards e)).*2).

Lemma insert_keys_app k1 k2 t :
  insert_keys (k1 ++ k2) t = match insert_keys k1 t with Ret t' => insert_keys k2 t' | Panic m => Panic m end.
Proof.
  revert t. induction k1 as [|key k1 IH]; intros t; simpl; [done|]. by destruct (IBLT_Insert key t).
Qed.

(** A walk that never panics is the insertion of all keys. *)
Lemma digest_walk ss t :
  usable t →
  foldl digest_shard (Ret t) ss = insert_keys (map entry_key (concat (all_items ss).*2)) t.
Proof.
  revert t. induction ss as [|h ss IH]; intros t Hu; simpl; [done|].
  assert (∀ items t, usable t →
    visit_leaves (λ st (_ : string) entries, match st with
       | Ret t => (insert_keys (map entry_key entries) t, true) | Panic m => (Panic m, false) end)
      items (Ret t) = (insert_keys (map entry_key (concat (map crdtEntries items))) t, true) ∧
    ∃ t', insert_keys (map entry_key (concat (map crdtEntries items))) t = Ret t' ∧ usable t') as Hv.
  { clear. induction items as [|l items IH]; intros t Hu; simpl; [by eauto|].
    assert (∃ t1, insert_keys (map entry_key (crdtEntries l)) t = Ret t1 ∧ usable t1) as (t1 & H1 & Hu1).
    { rewrite insert_keys_ret by done. eexists. split; [done|]. destruct Hu as (? & ? & ?).
      split_and!; simpl; [done|by rewrite length_apply_all|by apply wf_apply_all]. }
    rewrite map_app, insert_keys_app, H1. by apply IH. }
  unfold digest_shard at 2, HAMT_ForEach, all_items. simpl. unfold hamt_items.
  destruct (root h) as [nd|].
  - rewrite node_forEach_spec. destruct (Hv (node_leaves nd) t Hu) as (-> & t' & Ht' & Hu'). simpl.
    rewrite Ht', IH by done. rewrite fmap_app, concat_app, map_app, insert_keys_app.
    replace (concat (map (λ l, (entityID l, crdtEntries l)) (node_leaves nd)).*2)
      with (concat (map crdtEntries (node_leaves nd))) by (by rewrite <- list_fmap_compose).
    by rewrite Ht'.
  - simpl. by apply IH.
Qed.

Lemma GenerateDigest_ret seed e :
  seed ≠ 0 → GenerateDigestWithSeed seed e = Ret (digest 1024 4 seed (engine_keys e)).
Proof.
  intros Hs. unfold GenerateDigestWithSeed.
  change (NewArenaIBLT 1024 4 seed) with (Ret (mkIBLT (replicate (Z.to_nat 1024) zeroBucket) (Z.to_nat 4) seed)).
  assert (0 < Z.to_nat 1024)%nat as Hpos by lia.
  change (Z.to_nat 4) with 4%nat. rewrite digest_walk by (apply empty_usable; [done|lia]).
  rewrite insert_keys_digest by (done || lia). done.
Qed.

(** ** The iterator *)

Lemma delta_entries_elem d rseed k x :
  shards_ok rseed (shardRoots d) →
  (k, x) ∈ delta_entries d ↔
  x ∈ ss_get rseed (shardRoots d) k ∧
  (diffNil d || peelErr d || in_sendKeys (sendKeys d) (entry_key x) = true).
Proof.
  intros Hok. unfold delta_entries. set (keep := λ x, diffNil d || peelErr d || in_sendKeys (sendKeys d) (entry_key x)).
  rewrite (foldl_forEach (λ out id es, out ++ map (λ x, (id, x)) (List.filter keep es))).
  assert (∀ items out, foldl (λ s (it : block), s ++ map (λ x, (it.1, x)) (List.filter keep it.2)) out items =
                       out ++ concat (map (λ it, map (λ x, (it.1, x)) (List.filter keep it.2)) items)) as Hf.
  { induction items as [|it items IH]; intros out; simpl; [by rewrite app_nil_r|]. by rewrite IH, <- app_assoc. }
  rewrite Hf. simpl. rewrite elem_of_concat. change (keep x = true) with (keep x = true). split.
  - intros (l & Hl & ([id es] & -> & Hin)%list_elem_of_fmap).
    apply list_elem_of_fmap in Hl as (y & [= -> ->] & Hy). simpl in *.
    apply list_elem_of_In, filter_In in Hy as [Hy Hk]. apply list_elem_of_In in Hy.
    apply (all_items_elem rseed) in Hin as [Hg _]; [|done]. by rewrite Hg.
  - intros [Hx Hk]. exists (map (λ x, (k, x)) (List.filter keep (ss_get rseed (shardRoots d) k))). split.
    + apply list_elem_of_fmap. exists x. split; [done|]. apply list_elem_of_In, filter_In.
      split; [by apply list_elem_of_In|done].
    + apply list_elem_of_fmap. exists (k, ss_get rseed (shardRoots d) k). split; [done|].
      apply (all_items_elem rseed); [done|]. split; [done|]. intros E. rewrite E in Hx. by apply elem_of_nil in Hx.
Qed.

Lemma elem_engine_keys e key :
  wf_engine e → key ∈ engine_keys e ↔ ∃ k x, x ∈ PointGet e k ∧ entry_key x = key.
Proof.
  intros [Hok _]. unfold engine_keys. rewrite list_elem_of_fmap. split.
  - intros (x & -> & Hx). apply elem_of_concat in Hx as (l & Hl & ([k es] & -> & Hin)%list_elem_of_fmap).
    apply (all_items_elem (routeSeed e)) in Hin as [Hg _]; [|done]. exists k, x. split; [|done].
    by rewrite PointGet_ss, Hg.
  - intros (k & x & Hx & <-). exists x. split; [done|]. apply elem_of_concat. exists (PointGet e k).
    split; [done|]. apply list_elem_of_fmap. exists (k, PointGet e k). split; [done|].
    rewrite PointGet_ss in *. apply (all_items_elem (routeSeed e)); [done|]. split; [done|].
    intros E. rewrite E in Hx. by apply elem_of_nil in Hx.
Qed.

(** Against a digest of another shape the delta is everything, whatever the fuel. *)
Lemma GenerateDelta_mismatch fuel remote e :
  ibltSeed remote ≠ 0 → (length (buckets remote) ≠ 1024%nat ∨ ibltK remote ≠ 4%nat) →
  GenerateDelta fuel remote e = Some (Ret (mkDelta (shards e) [] true false)).
Proof.
  intros Hs Hne. unfold GenerateDelta. rewrite GenerateDigest_ret by done.
  unfold Subtract, digest. cbn [buckets ibltK]. rewrite length_table_of.
  destruct (Nat.eqb_spec 1024 (length (buckets remote))) as [E1|], (Nat.eqb_spec 4 (ibltK remote)) as [E2|];
    try done. exfalso. destruct Hne; congruence.
Qed.

(** ** Delivering a delta *)

(** A delta of the sender's shards whose omissions the receiver already holds
    brings the receiver to the union. *)
Lemma deliver_delta g d e1 e2 :
  wf_engine e1 → wf_engine e2 → closing e2 = false → engine_agrees g e1 →
  (∀ k x, x ∈ PointGet e1 k → is_u64 (DotCounter x)) →
  shardRoots d = shards e1 →
  (∀ k x, x ∈ PointGet e1 k →
     diffNil d || peelErr d || in_sendKeys (sendKeys d) (entry_key x) = true ∨ x ∈ PointGet e2 k) →
  ∃ e2', Join (Some (delta_entries d)) e2 = Ret e2' ∧ wf_engine e2' ∧
    ∀ k, view e2' k = view e2 k ∪ view e1 k.
Proof.
  intros H1 H2 Hc Hg Hu Hd Hcov.
  assert (∀ k x, (k, x) ∈ delta_entries d ↔ x ∈ PointGet e1 k ∧
            (diffNil d || peelErr d || in_sendKeys (sendKeys d) (entry_key x) = true)) as Hel.
  { intros k x. rewrite (delta_entries_elem d (routeSeed e1)); [|rewrite Hd; apply H1].
    by rewrite Hd, PointGet_ss. }
  assert (delta_agrees g (delta_entries d)) as Hga by (intros k x [Hx _]%Hel; by apply Hg).
  destruct (join_view g (delta_entries d) e2 H2 Hc) as (e2' & Hj & Hwf' & _ & _ & Hv); [|done|].
  { apply Forall_forall. intros [k x] [Hx _]%Hel. by eapply Hu. }
  exists e2'. split_and!; [done|done|]. intros k. rewrite Hv. apply map_eq. intros dt.
  rewrite !lookup_union. destruct (view e2 k !! dt) as [y|] eqn:E2; [by rewrite !union_Some_l|].
  rewrite !(left_id_L None (∪)). apply option_eq. intros x.
  rewrite (delta_view_lookup g), Hel, view_lookup by done. split; [tauto|]. intros [Hx Hdt].
  split; [|done]. split; [done|]. destruct (Hcov k x Hx) as [?|Hx2]; [done|]. exfalso.
  assert (view e2 k !! dt = Some x) as Hl by by apply view_lookup. congruence.
Qed.

(** ** Properties *)

(** A delta against the receiver's digest. *)
Lemma delta_completes (g : assignment) (seed : Z) (e1 e2 : Engine) (fuel : nat)
    (common a' b' : list Z) :
  wf_engine e1 → wf_engine e2 → closing e2 = false → engine_agrees g e1 →
  (∀ k x, x ∈ PointGet e1 k → is_u64 (DotCounter x)) → seed ≠ 0 →
  engine_keys e1 ≡ₚ common ++ a' → engine_keys e2 ≡ₚ common ++ b' → (∀ x, x ∈ a' → x ∉ engine_keys e2) →
  (∀ k x k' y, x ∈ PointGet e1 k → y ∈ PointGet e2 k' → entry_key x = entry_key y → k = k' ∧ x = y) →
  separates seed (pos a' ++ neg b') → (1024 + 4 * (length a' + length b') < fuel)%nat →
  let remote := digest 1024 4 seed (engine_keys e2) in
  ∃ d e2', GenerateDelta fuel remote e1 = Some (Ret d) ∧
    Join (Some (delta_entries d)) e2 = Ret e2' ∧
    (∀ k, view e2' k = view e2 k ∪ view e1 k) ∧
    (peelErr d = false → ∀ k x, (k, x) ∈ delta_entries d → x ∉ PointGet e2 k).
Proof.
  intros H1 H2 Hc Hg Hu Hs Ha Hb Hfresh Hsep Hf Hfu. apply (separates_faithful 1024 4) in Hf; [|lia|lia|apply signs_pm|apply digest_spread].
  destruct (reconcile_digests 1024 4 seed common _ _ a' b' fuel Hs Ha Hb Hf Hfu)
    as (diff & r & Hsub & Hp & Hla & _ & Hok).
  set (d := mkDelta (shards e1) (sortFunc Z.compare (localHas r)) false (negb (peelOk r))).
  assert (GenerateDelta fuel (digest 1024 4 seed (engine_keys e2)) e1 = Some (Ret d)) as Hgd.
  { unfold GenerateDelta. cbn [ibltSeed digest]. rewrite GenerateDigest_ret by done.
    fold (digest 1024 4 seed (engine_keys e2)). by rewrite Hsub, Hp. }
  destruct (deliver_delta g d e1 e2 H1 H2 Hc Hg Hu eq_refl) as (e2' & Hj & _ & Hv).
  { intros k x Hx. cbn [d diffNil peelErr sendKeys]. destruct (peelOk r) eqn:Er; [|by left]. simpl.
    rewrite in_sendKeys_spec. destruct (Hok) as [Hok' _]. destruct (Hok' eq_refl) as [Hl _].
    destruct (decide (entry_key x ∈ a')) as [?|Hna]; [left; by rewrite Hl|]. right.
    assert (entry_key x ∈ engine_keys e2) as Hin2.
    { rewrite Hb. apply elem_of_app. left.
      assert (entry_key x ∈ engine_keys e1) as Hin1 by (apply elem_engine_keys; [done|]; eauto).
      rewrite Ha in Hin1. apply elem_of_app in Hin1 as [?|?]; done. }
    apply elem_engine_keys in Hin2 as (k' & y & Hy & Hk); [|done].
    destruct (Hsep k x k' y Hx Hy (eq_sym Hk)) as [-> ->]. done. }
  exists d, e2'.
  split_and!; [done|done|done|]. intros Hpe k x Hin Hx2.
  apply (delta_entries_elem d (routeSeed e1)) in Hin as [_ Hk]; [|apply H1].
  cbn [d diffNil peelErr sendKeys] in *. rewrite Hpe in Hk. simpl in Hk. apply in_sendKeys_spec, Hla in Hk.
  apply (Hfresh _ Hk). apply elem_engine_keys; [done|]. eauto.
Qed.

(** One anti-entropy round completes: a receiver that sends its digest gets
    a delta after which it holds everything the sender holds (the union of the
    two states, entity by entity).  When the peel succeeds the delta carries only
    entries the receiver lacks.  [separates] excludes hash accidents in the
    difference, and the 64-bit keys are taken to separate the entries of the two
    states. *)
Theorem anti_entropy_completes (g : assignment) (seed : Z) (e1 e2 : Engine) (fuel : nat)
    (common a' b' : list Z) :
  wf_engine e1 → wf_engine e2 → closing e2 = false → engine_agrees g e1 →
  (∀ k x, x ∈ PointGet e1 k → is_u64 (DotCounter x)) → seed ≠ 0 →
  engine_keys e1 ≡ₚ common ++ a' → engine_keys e2 ≡ₚ common ++ b' → (∀ x, x ∈ a' → x ∉ engine_keys e2) →
  (∀ k x k' y, x ∈ PointGet e1 k → y ∈ PointGet e2 k' → entry_key x = entry_key y → k = k' ∧ x = y) →
  separates seed (pos a' ++ neg b') → (1024 + 4 * (length a' + length b') < fuel)%nat →
  ∃ remote d e2', GenerateDigestWithSeed seed e2 = Ret remote ∧
    GenerateDelta fuel remote e1 = Some (Ret d) ∧
    Join (Some (delta_entries d)) e2 = Ret e2' ∧
    (∀ k, view e2' k = view e2 k ∪ view e1 k) ∧
    (peelErr d = false → ∀ k x, (k, x) ∈ delta_entries d → x ∉ PointGet e2 k).
Proof.
  intros H1 H2 Hc Hg Hu Hs Ha Hb Hfresh Hsep Hf Hfu.
  destruct (delta_completes g seed e1 e2 fuel common a' b' H1 H2 Hc Hg Hu Hs Ha Hb Hfresh Hsep Hf Hfu) as (d & e2' & H).
  exists (digest 1024 4 seed (engine_keys e2)), d, e2'. split; [by apply GenerateDigest_ret|exact H].
Qed.

(** The oversend fallback is complete: against any digest of another size or
    hash count (the gossip default is one bucket) GenerateDelta returns at once
    and the delta brings any receiver to the union of the two states. *)
Theorem oversend_is_complete (g : assignment) (remote : IBLT) (e1 e2 : Engine) (fuel : nat) :
  wf_engine e1 → wf_engine e2 → closing e2 = false → engine_agrees g e1 →
  (∀ k x, x ∈ PointGet e1 k → is_u64 (DotCounter x)) → ibltSeed remote ≠ 0 →
  (length (buckets remote) ≠ 1024%nat ∨ ibltK remote ≠ 4%nat) →
  ∃ d e2', GenerateDelta fuel remote e1 = Some (Ret d) ∧ Join (Some (delta_entries d)) e2 = Ret e2' ∧
    ∀ k, view e2' k = view e2 k ∪ view e1 k.
Proof.
  intros H1 H2 Hc Hg Hu Hs Hne. set (d := mkDelta (shards e1) [] true false).
  destruct (deliver_delta g d e1 e2 H1 H2 Hc Hg Hu eq_refl) as (e2' & Hj & _ & Hv); [by left|].
  exists d, e2'. split_and!; [by apply GenerateDelta_mismatch|done|done].
Qed.

(** A digest with seed word zero crashes the node that answers it: the wire
    parser accepts it, and GenerateDelta panics in SetSeed as soon as the engine
    holds one entry. *)
Theorem zero_seed_digest_panics (wire : list Z) (remote : IBLT) (e : Engine) (k : string) (x : CRDTEntry)
    (fuel : nat) :
  UnmarshalIBLT wire = Ok remote → ibltSeed remote = 0 → wf_engine e → x ∈ PointGet e k →
  GenerateDelta fuel remote e = Some (Panic "maphash: use of uninitialized Seed").
Proof.
  intros _ Hs [Hok _] Hx. unfold GenerateDelta. rewrite Hs.
  assert (GenerateDigestWithSeed 0 e = Panic "maphash: use of uninitialized Seed") as ->; [|done].
  unfold GenerateDigestWithSeed. change (NewArenaIBLT 1024 4 0) with
    (Ret (mkIBLT (replicate (Z.to_nat 1024) zeroBucket) (Z.to_nat 4) 0)).
  set (t := mkIBLT _ _ 0). set (boom := "maphash: use of uninitialized Seed").
  assert (∀ keys, insert_keys keys t = match keys with [] => Ret t | _ => Panic boom end) as Hik.
  { intros [|key keys]; done. }
  set (fn := λ (st : outcome IBLT) (_ : string) entries, match st with
       | Ret t => (insert_keys (map entry_key entries) t, true) | Panic m => (Panic m, false) end).
  assert (∀ ls, (visit_leaves fn ls (Panic boom)).1 = Panic boom) as Hpan by by intros [|l ls].
  assert (∀ ls, (visit_leaves fn ls (Ret t)).1 =
                match concat (map crdtEntries ls) with [] => Ret t | _ => Panic boom end) as Hls.
  { induction ls as [|l ls IH]; [done|]. cbn [visit_leaves map concat]. unfold fn at 1.
    rewrite Hik. destruct (crdtEntries l) as [|y es]; [apply IH|]. simpl. apply Hpan. }
  assert (∀ st h, digest_shard st h = match root h with Some n => (visit_leaves fn (node_leaves n) st).1 | None => st end) as Hd.
  { intros st h. unfold digest_shard, HAMT_ForEach. destruct (root h); [|done]. by rewrite node_forEach_spec. }
  assert (∀ ss, foldl digest_shard (Panic boom) ss = Panic boom) as Hpanic.
  { induction ss as [|h ss IH]; simpl; [done|]. rewrite Hd. destruct (root h); [|done]. by rewrite Hpan. }
  assert (∀ ss, foldl digest_shard (Ret t) ss =
            match concat (all_items ss).*2 with [] => Ret t | _ => Panic boom end) as Hall.
  { induction ss as [|h ss IH]; [done|]. cbn [foldl]. rewrite Hd. unfold all_items. cbn [map concat].
    rewrite fmap_app, concat_app. unfold hamt_items at 1. destruct (root h) as [n|]; [|exact IH].
    rewrite Hls. replace (concat (map (λ l, (entityID l, crdtEntries l)) (node_leaves n)).*2)
      with (concat (map crdtEntries (node_leaves n))) by (by rewrite <- list_fmap_compose).
    destruct (concat (map crdtEntries (node_leaves n))) as [|y es]; [exact IH|]. simpl. apply Hpanic. }
  rewrite Hall. assert (x ∈ concat (all_items (shards e)).*2) as Hin.
  { apply elem_of_concat. exists (PointGet e k). split; [done|]. apply list_elem_of_fmap.
    exists (k, PointGet e k). split; [done|]. rewrite PointGet_ss in *.
    apply (all_items_elem (routeSeed e)); [done|]. split; [done|]. intros E. rewrite E in Hx. by apply elem_of_nil in Hx. }
  destruct (concat _); [by apply elem_of_nil in Hin|done].
Qed.

Lemma sub_bucket_wire a b : wire_bucket a → wire_bucket b → wire_bucket (sub_bucket a b).
Proof.
  intros (_ & Ha & Ha') (_ & Hb & Hb'). unfold wire_bucket, sub_bucket. cbn [Count KeySum HashSum].
  split_and!; [apply i32_range|apply lxor_u64; done..].
Qed.

Lemma add_bucket_wire s key h b : is_u64 key → is_u64 h → wire_bucket b → wire_bucket (add_bucket s key h b).
Proof.
  intros Hk Hh (_ & Hb & Hb'). unfold wire_bucket, add_bucket. cbn [Count KeySum HashSum].
  split_and!; [apply i32_range|apply lxor_u64; done..].
Qed.

Lemma foldl_alter_wire s key h (ts : list nat) (bs : list Bucket) :
  is_u64 key → is_u64 h → Forall wire_bucket bs →
  Forall wire_bucket (foldl (λ bs i, alter (add_bucket s key h) i bs) bs ts).
Proof.
  intros Hk Hh. revert bs. induction ts as [|t ts IH]; intros bs Hb; simpl; [done|]. apply IH.
  apply Forall_lookup_2. intros j b Hj. destruct (decide (j = t)) as [->|Hne].
  - rewrite list_lookup_alter_eq in Hj. destruct (bs !! t) as [b0|] eqn:E; simplify_eq/=.
    apply add_bucket_wire; [done|done|]. exact (Forall_lookup_1 _ _ _ _ Hb E).
  - rewrite list_lookup_alter_ne in Hj by done. exact (Forall_lookup_1 _ _ _ _ Hb Hj).
Qed.

(** A digest of 64-bit keys fits the wire. *)
Lemma table_wire n k seed m :
  Forall (λ sk : signed, is_u64 sk.2) m → Forall wire_bucket (table_of n k seed m).
Proof.
  induction m as [|[s y] m IH]; intros Hm; [by apply Forall_replicate|]. inversion_clear Hm.
  apply foldl_alter_wire; [done|apply maphash_range|by apply IH].
Qed.

Lemma digest_wire seed keys : is_u64 seed → Forall is_u64 keys → wire_iblt (digest 1024 4 seed keys).
Proof.
  intros Hs Hk. unfold wire_iblt, NumBuckets. cbn [digest buckets ibltK ibltSeed]. rewrite length_table_of.
  split_and!; [vm_compute; discriminate|vm_compute; discriminate|vm_compute; discriminate|done|].
  apply table_wire. unfold pos. by apply Forall_map.
Qed.

(** C40. GenerateDelta can be made to run forever by one digest: for every engine,
    non-zero seed and key whose four bucket indices are distinct there is a
    digest that passes the wire parser and on which GenerateDelta never returns,
    whatever fuel it is given. *)
Theorem generate_delta_hangs_on_crafted_digest (seed key : Z) (e : Engine) :
  wf_engine e → is_u64 seed → seed ≠ 0 → is_u64 key → Forall is_u64 (engine_keys e) →
  NoDup (getHashesInto 1024 4 (hashKeyWithSeed seed key)) →
  ∃ remote wire, MarshalIBLT (Some remote) = Ok wire ∧ UnmarshalIBLT wire = Ok remote ∧
    ∀ fuel, GenerateDelta fuel remote e = None.
Proof.
  intros Hwf Hsu Hs Hku Hkeys Hnd. set (local := digest 1024 4 seed (engine_keys e)).
  assert (usable local) as Hu.
  { split_and!; [done|unfold local; simpl; rewrite length_table_of; lia|apply wf_apply_all, wf_zeros]. }
  assert (Forall wire_bucket (replicate 1024 zeroBucket)) as Hz by (by apply Forall_replicate).
  assert (length (buckets local) = 1024%nat) as Hll by apply length_table_of.
  set (remote := crafted_remote local key).
  assert (wire_iblt remote) as Hw.
  { unfold wire_iblt, NumBuckets. unfold remote. rewrite length_crafted_remote, Hll.
    split_and!; [vm_compute; discriminate|vm_compute; discriminate|vm_compute; discriminate|done|].
    unfold crafted_remote, crafted_diff. cbn [buckets].
    apply Forall_zip_with_sub; [apply sub_bucket_wire| |].
    - apply table_wire. unfold pos. apply Forall_map. exact Hkeys.
    - rewrite Hll. apply foldl_alter_wire; [done|apply maphash_range|done]. }
  exists remote, (iblt_bytes remote). split; [done|]. split.
  { rewrite <- (app_nil_r (iblt_bytes remote)). by apply Unmarshal_iblt_bytes. }
  intros fuel. unfold GenerateDelta. change (ibltSeed remote) with seed.
  rewrite GenerateDigest_ret by done. fold local. unfold remote. rewrite Subtract_crafted.
  rewrite Peel_crafted; [done|done|simpl; lia|]. rewrite Hll. exact Hnd.
Qed.
End AntiEntropy.

(** ** Witnesses *)

Definition sender : Engine :=
  match Join (MH:=fnv_maphash) (SS:=insertion_SliceSort) (Some sample_delta) (sample_engine 1 9) with
  | Ret e => e
  | Panic _ => sample_engine 1 9
  end.

Lemma sender_join :
  Join (MH:=fnv_maphash) (SS:=insertion_SliceSort) (Some sample_delta) (sample_engine 1 9) = Ret sender.
Proof. vm_compute. reflexivity. Qed.

Lemma sender_wf : wf_engine (MH:=fnv_maphash) sender.
Proof.
  destruct (join_ret (MH:=fnv_maphash) (SS:=insertion_SliceSort) sample_delta (sample_engine 1 9)
              (sample_engine_wf 1 9) eq_refl sample_delta_counters) as (e & _ & _ & Hj & Hwf & _).
  rewrite sender_join in Hj. injection Hj as <-. exact Hwf.
Qed.

Lemma sender_elem k x : x ∈ PointGet (MH:=fnv_maphash) sender k → (k, x) ∈ sample_delta.
Proof.
  intros Hx. destruct (join_elem (MH:=fnv_maphash) (SS:=insertion_SliceSort) sample_delta (sample_engine 1 9)
    sender k x (sample_engine_wf 1 9) eq_refl sample_delta_counters sender_join Hx) as [H|H]; [|done].
  unfold sample_engine in H. rewrite PointGet_new in H. by apply elem_of_nil in H.
Qed.

Lemma sender_agrees : engine_agrees (MH:=fnv_maphash) sample_assignment sender.
Proof. intros k x Hx%sender_elem. by apply sample_delta_agrees. Qed.

Lemma sender_counters k x : x ∈ PointGet (MH:=fnv_maphash) sender k → is_u64 (DotCounter x).
Proof.
  intros Hx%sender_elem. pose proof sample_delta_counters as H. rewrite Forall_forall in H.
  exact (H (k, x) Hx).
Qed.

Lemma sender_separates : separates (MH:=fnv_maphash) 7 (pos (engine_keys sender) ++ neg []).
Proof. apply separatesb_spec. vm_compute. reflexivity. Qed.

Lemma anti_entropy_completes_witness :
  ∃ remote d e2',
    GenerateDigestWithSeed (MH:=fnv_maphash) 7 (sample_engine 5 2) = Ret remote ∧
    GenerateDelta (MH:=fnv_maphash) (SS:=insertion_SliceSort) 2000 remote sender = Some (Ret d) ∧
    Join (MH:=fnv_maphash) (SS:=insertion_SliceSort) (Some (delta_entries d)) (sample_engine 5 2) = Ret e2'.
Proof.
  assert (length (engine_keys sender) = 3%nat) as Hl by (vm_compute; reflexivity).
  assert (engine_keys (sample_engine 5 2) = []) as H0 by (vm_compute; reflexivity).
  destruct (anti_entropy_completes (MH:=fnv_maphash) (SS:=insertion_SliceSort) sample_assignment 7 sender
              (sample_engine 5 2) 2000 [] (engine_keys sender) []) as (remote & d & e2' & ? & ? & ? & _).
  - apply sender_wf.
  - apply sample_engine_wf.
  - reflexivity.
  - apply sender_agrees.
  - apply sender_counters.
  - done.
  - done.
  - by rewrite H0.
  - intros x _. rewrite H0. apply not_elem_of_nil.
  - intros k x k' y _ Hy. unfold sample_engine in Hy. rewrite PointGet_new in Hy. by apply elem_of_nil in Hy.
  - apply sender_separates.
  - rewrite Hl. simpl. lia.
  - exists remote, d, e2'. by split_and!.
Defined.

Lemma oversend_is_complete_witness :
  ∃ d e2',
    GenerateDelta (MH:=fnv_maphash) (SS:=insertion_SliceSort) 1 (mkIBLT [zeroBucket] 4 7) sender = Some (Ret d) ∧
    Join (MH:=fnv_maphash) (SS:=insertion_SliceSort) (Some (delta_entries d)) (sample_engine 5 2) = Ret e2'.
Proof.
  destruct (oversend_is_complete (MH:=fnv_maphash) (SS:=insertion_SliceSort) sample_assignment
              (mkIBLT [zeroBucket] 4 7) sender (sample_engine 5 2) 1) as (d & e2' & ? & ? & _).
  - apply sender_wf.
  - apply sample_engine_wf.
  - reflexivity.
  - apply sender_agrees.
  - apply sender_counters.
  - done.
  - by left.
  - exists d, e2'. by split_and!.
Defined.

Lemma zero_seed_digest_panics_witness :
  GenerateDelta (MH:=fnv_maphash) (SS:=insertion_SliceSort) 1 (mkIBLT [zeroBucket] 4 0) sender =
  Some (Panic "maphash: use of uninitialized Seed").
Proof.
  apply (zero_seed_digest_panics (MH:=fnv_maphash) (SS:=insertion_SliceSort)
           (iblt_bytes (mkIBLT [zeroBucket] 4 0)) _ sender "a" (sample_entry 2 6 5)).
  - vm_compute. reflexivity.
  - reflexivity.
  - apply sender_wf.
  - apply (bool_decide_eq_true_1 _). vm_compute. reflexivity.
Defined.

Lemma generate_delta_hangs_on_crafted_digest_witness :
  ∃ remote wire, UnmarshalIBLT wire = Ok remote ∧
    ∀ fuel, GenerateDelta (MH:=fnv_maphash) (SS:=insertion_SliceSort) fuel remote sender = None.
Proof.
  destruct (generate_delta_hangs_on_crafted_digest (MH:=fnv_maphash) (SS:=insertion_SliceSort) 7 5 sender)
    as (remote & wire & _ & Hu & Hf).
  - apply sender_wf.
  - done.
  - done.
  - done.
  - unfold is_u64. apply (bool_decide_eq_true_1 _). vm_compute. reflexivity.
  - apply (bool_decide_eq_true_1 _). vm_compute. reflexivity.
  - exists remote, wire. by split.
Defined.
