(* ===== verification/Reconstruct.v ===== *)
(** The wire-integrity seam of pkg/sync/crdt_reconstruct.go and
    crdt_reconstruct_skew.go: a decoded CRDTDeltaEvent becomes a validated entry
    or a typed error. *)
From S2P Require Import Prelude Bytes Sha256 Dots Lamport.

(** A decoded CRDTDeltaEvent, as the values its accessors return: a pointer
    field is read with an error or with its bytes, a scalar is always read. *)
Record CRDTDeltaEvent := mkEvent {
  ev_Version : Z;
  ev_PayloadDigest : result string (list Z);
  ev_OriginNodeID : result string (list Z);
  ev_DotNodeID : result string (list Z);
  ev_DotCounter : Z;
  ev_H3Index : Z;
  ev_SystemTime : Z;
  ev_ValidTimeStart : Z;
  ev_ValidTimeEnd : Z;
  ev_AssertionTime : Z;
  ev_DecisionTime : Z;
  ev_EntityId : result string string;
  ev_PayloadBytes : result string (list Z);
}.

Record ReconstructedEntry := mkReconstructed {
  rec_EntityID : string;
  rec_Payload : string;
  rec_Entry : CRDTEntry;
}.

Inductive WireIntegrityErrorKind :=
| WireIntegrityDigestMismatch
| WireIntegrityFieldUnread
| WireIntegrityDotOriginMismatch
| WireIntegrityLamportSkewPoisoning.

#[global] Instance WireIntegrityErrorKind_eq_dec : EqDecision WireIntegrityErrorKind.
Proof. solve_decision. Defined.

Record WireIntegrityError := mkWireError {
  we_EntityID : string;
  we_OriginNodeID : list Z;
  we_OnWireDigest : list Z;
  we_RecomputedDigest : list Z;
  we_DotNodeID : list Z;
  we_Field : string;
  we_ReadErrText : string;
  we_InboundDotCounter : Z;
  we_ReceiverLamport : Z;
  we_ComputedBound : Z;
  we_ObservedInboundRate : f64;
  we_HorizonSeconds : f64;
  we_AbsoluteSlack : Z;
  we_Kind : WireIntegrityErrorKind;
}.

(** The zero values of [16]byte and [32]byte. *)
Definition zero16 : list Z := replicate 16 0.
Definition zero32 : list Z := replicate 32 0.

Definition readFieldError (entityID : string) (originNodeID : list Z) (fieldName : string)
    (readErr : option string) : WireIntegrityError :=
  mkWireError entityID originNodeID zero32 zero32 zero16 fieldName (default "" readErr)
    0 0 0 f64_zero f64_zero 0 WireIntegrityFieldUnread.

(** A Data field copied into an array of [n] bytes: an error, or a slice of
    another length, is the failure [fail] of the read. *)
Definition read_array (n : nat) (raw : result string (list Z))
    (fail : option string → WireIntegrityError) : result WireIntegrityError (list Z) :=
  match raw with
  | Err err => Err (fail (Some err))
  | Ok bs => if (length bs =? n)%nat then Ok bs else Err (fail None)
  end.

(** A Text field; its only failure is a read error. *)
Definition read_text {A} (raw : result string A) (fail : option string → WireIntegrityError) :
    result WireIntegrityError A :=
  match raw with
  | Err err => Err (fail (Some err))
  | Ok x => Ok x
  end.

Definition ReconstructEntry (ev : CRDTDeltaEvent) : result WireIntegrityError ReconstructedEntry :=
  originNodeID ← read_array 16 (ev_OriginNodeID ev) (λ _, readFieldError "" zero16 "" None);
  entityID ← read_text (ev_EntityId ev) (readFieldError "" originNodeID "EntityId");
  digest ← read_array 32 (ev_PayloadDigest ev) (readFieldError entityID originNodeID "PayloadDigest");
  dotNodeID ← read_array 16 (ev_DotNodeID ev) (readFieldError entityID originNodeID "DotNodeID");
  if bool_decide (dotNodeID ≠ originNodeID) then
    Err (mkWireError entityID originNodeID zero32 zero32 dotNodeID "" "" 0 0 0 f64_zero f64_zero 0
           WireIntegrityDotOriginMismatch)
  else
    payloadBytes ← read_text (ev_PayloadBytes ev) (readFieldError entityID originNodeID "Payload");
    let rec := mkEntry digest originNodeID dotNodeID (ev_DotCounter ev) (ev_SystemTime ev)
                 (ev_ValidTimeStart ev) (ev_ValidTimeEnd ev) (ev_AssertionTime ev)
                 (ev_DecisionTime ev) (ev_H3Index ev) in
    let recomputed := Sum256 payloadBytes in
    if bool_decide (recomputed = digest) then
      Ok (mkReconstructed entityID (bytes_string payloadBytes) rec)
    else
      Err (mkWireError entityID originNodeID digest recomputed zero16 "" "" 0 0 0 f64_zero f64_zero 0
             WireIntegrityDigestMismatch).

Definition ReconstructEntryWithSkewBound (ev : CRDTDeltaEvent) (snapshot : LamportSnapshot) :
    result WireIntegrityError ReconstructedEntry :=
  rec ← ReconstructEntry ev;
  let bound := MaxAcceptableDotCounter snapshot in
  if bound <? DotCounter (rec_Entry rec) then
    Err (mkWireError (rec_EntityID rec) (OriginNodeID (rec_Entry rec)) zero32 zero32
           (DotNodeID (rec_Entry rec)) "" "" (DotCounter (rec_Entry rec)) (Lamport snapshot) bound
           (ObservedInboundRate snapshot) (HorizonSeconds snapshot) (AbsoluteSlack snapshot)
           WireIntegrityLamportSkewPoisoning)
  else Ok rec.

(** ** Specification *)

(** The contract fields as a well-formed frame carries them. *)
Record frame := mkFrame {
  fr_origin : list Z;
  fr_entity : string;
  fr_digest : list Z;
  fr_dot : list Z;
}.

(** Origin, entity, digest and dot are on the wire at their lengths. *)
Definition headed (ev : CRDTDeltaEvent) (f : frame) : Prop :=
  ev_OriginNodeID ev = Ok (fr_origin f) ∧ length (fr_origin f) = 16%nat ∧
  ev_EntityId ev = Ok (fr_entity f) ∧
  ev_PayloadDigest ev = Ok (fr_digest f) ∧ length (fr_digest f) = 32%nat ∧
  ev_DotNodeID ev = Ok (fr_dot f) ∧ length (fr_dot f) = 16%nat.

Definition frame_entry (ev : CRDTDeltaEvent) (f : frame) : CRDTEntry :=
  mkEntry (fr_digest f) (fr_origin f) (fr_dot f) (ev_DotCounter ev) (ev_SystemTime ev)
    (ev_ValidTimeStart ev) (ev_ValidTimeEnd ev) (ev_AssertionTime ev) (ev_DecisionTime ev) (ev_H3Index ev).

(** What the seam must decide about a frame, in the order of the contract:
    unreadable, foreign dot, wrong digest, far-future counter, accepted. *)
Inductive verdict (ev : CRDTDeltaEvent) (s : LamportSnapshot) :
    result WireIntegrityErrorKind ReconstructedEntry → Prop :=
| v_header : (∀ f, ¬ headed ev f) → verdict ev s (Err WireIntegrityFieldUnread)
| v_dot f : headed ev f → fr_dot f ≠ fr_origin f → verdict ev s (Err WireIntegrityDotOriginMismatch)
| v_payload f msg : headed ev f → fr_dot f = fr_origin f → ev_PayloadBytes ev = Err msg →
    verdict ev s (Err WireIntegrityFieldUnread)
| v_digest f p : headed ev f → fr_dot f = fr_origin f → ev_PayloadBytes ev = Ok p →
    Sum256 p ≠ fr_digest f → verdict ev s (Err WireIntegrityDigestMismatch)
| v_skew f p : headed ev f → fr_dot f = fr_origin f → ev_PayloadBytes ev = Ok p →
    Sum256 p = fr_digest f → MaxAcceptableDotCounter s < ev_DotCounter ev →
    verdict ev s (Err WireIntegrityLamportSkewPoisoning)
| v_accept f p : headed ev f → fr_dot f = fr_origin f → ev_PayloadBytes ev = Ok p →
    Sum256 p = fr_digest f → ev_DotCounter ev <= MaxAcceptableDotCounter s →
    verdict ev s (Ok (mkReconstructed (fr_entity f) (bytes_string p) (frame_entry ev f))).

Definition kind_of {A} (r : result WireIntegrityError A) : result WireIntegrityErrorKind A :=
  match r with Ok a => Ok a | Err w => Err (we_Kind w) end.

Lemma headed_inj ev f f' : headed ev f → headed ev f' → f = f'.
Proof. destruct f, f'. unfold headed; simpl. naive_solver congruence. Qed.

(** Exactly one verdict applies to a frame. *)
Lemma verdict_functional ev s r r' : verdict ev s r → verdict ev s r' → r = r'.
Proof.
  intros H H'. destruct H; destruct H'; try done;
    repeat match goal with
    | Hn : (∀ f, ¬ headed _ f), Hf : headed _ ?f |- _ => destruct (Hn f Hf)
    | Hf : headed _ ?f, Hf' : headed _ ?f' |- _ =>
        assert_fails (unify f f'); pose proof (headed_inj _ _ _ Hf Hf'); subst f'
    end; try (exfalso; congruence || lia); try lia; congruence.
Qed.

Lemma read_array_Ok n raw fail bs :
  read_array n raw fail = Ok bs ↔ raw = Ok bs ∧ length bs = n.
Proof.
  unfold read_array. destruct raw as [r|err]; [|naive_solver].
  destruct (Nat.eqb_spec (length r) n); naive_solver.
Qed.

Lemma read_array_Err n raw fail w :
  read_array n raw fail = Err w → (∃ o, w = fail o) ∧ ∀ bs, raw = Ok bs → length bs ≠ n.
Proof.
  unfold read_array. destruct raw as [r|err]; [|intros [= <-]; split; [by eexists|done]].
  destruct (Nat.eqb_spec (length r) n); [done|]. intros [= <-]. split; [by eexists|naive_solver].
Qed.

(** Header reads that fail are FieldUnread errors, whichever field it is. *)
Lemma unread_header ev s (w : WireIntegrityError) :
  (∀ f, ¬ headed ev f) → we_Kind w = WireIntegrityFieldUnread →
  verdict ev s (kind_of (Err (A:=ReconstructedEntry) w)).
Proof. intros H Hk. simpl. rewrite Hk. by apply v_header. Qed.

Lemma reconstruct_verdict ev s : verdict ev s (kind_of (ReconstructEntryWithSkewBound ev s)).
Proof.
  unfold ReconstructEntryWithSkewBound, ReconstructEntry. simpl.
  destruct (read_array 16 (ev_OriginNodeID ev) _) as [o|w] eqn:Ho; simpl;
    [apply read_array_Ok in Ho as [Ho Hol]|].
  2: { apply read_array_Err in Ho as [[? ->] Hn]. apply unread_header; [|done].
       intros f (E & ? & _). by apply (Hn _ E). }
  destruct (ev_EntityId ev) as [id|msg] eqn:Hid; simpl.
  2: { apply v_header. intros f (_ & _ & E & _). congruence. }
  destruct (read_array 32 (ev_PayloadDigest ev) _) as [dg|w] eqn:Hd; simpl;
    [apply read_array_Ok in Hd as [Hd Hdl]|].
  2: { apply read_array_Err in Hd as [[? ->] Hn]. apply unread_header; [|done].
       intros f (_ & _ & _ & E & ? & _). by apply (Hn _ E). }
  destruct (read_array 16 (ev_DotNodeID ev) _) as [dn|w] eqn:Hdn; simpl;
    [apply read_array_Ok in Hdn as [Hdn Hdnl]|].
  2: { apply read_array_Err in Hdn as [[? ->] Hn]. apply unread_header; [|done].
       intros f (_ & _ & _ & _ & _ & E & ?). by apply (Hn _ E). }
  assert (headed ev (mkFrame o id dg dn)) as Hf by by split_and!.
  case_bool_decide as Hne; simpl; [by apply (v_dot _ _ _ Hf)|]. subst dn.
  destruct (ev_PayloadBytes ev) as [p|msg] eqn:Hp; simpl; [|by apply (v_payload _ _ _ msg Hf)].
  case_bool_decide as Hs; simpl; [|by apply (v_digest _ _ _ p Hf)].
  destruct (Z.ltb_spec (MaxAcceptableDotCounter s) (ev_DotCounter ev)); simpl.
  - by apply (v_skew _ _ _ p Hf).
  - by apply (v_accept _ _ _ p Hf).
Qed.

Lemma reconstruct_Ok_iff ev s r :
  ReconstructEntryWithSkewBound ev s = Ok r ↔ verdict ev s (Ok r).
Proof.
  pose proof (reconstruct_verdict ev s) as H. split.
  - intros E. by rewrite E in H.
  - intros H'. pose proof (verdict_functional _ _ _ _ H H') as E.
    destruct (ReconstructEntryWithSkewBound ev s); simpl in E; congruence.
Qed.

(** The base seam accepts what some bound accepts. *)
Lemma reconstruct_base ev s r :
  ReconstructEntryWithSkewBound ev s = Ok r →
  ReconstructEntry ev = Ok r ∧ DotCounter (rec_Entry r) <= MaxAcceptableDotCounter s.
Proof.
  unfold ReconstructEntryWithSkewBound. destruct (ReconstructEntry ev) as [r'|w]; simpl; [|done].
  destruct (Z.ltb_spec (MaxAcceptableDotCounter s) (DotCounter (rec_Entry r'))); [done|].
  intros [= ->]. done.
Qed.

Lemma reconstruct_counter ev r : ReconstructEntry ev = Ok r → DotCounter (rec_Entry r) = ev_DotCounter ev.
Proof.
  unfold ReconstructEntry. intros H.
  repeat (apply result_bind_Ok in H as (? & _ & H); cbv beta in H).
  case_bool_decide; [done|]. apply result_bind_Ok in H as (? & _ & H). cbv zeta in H.
  case_bool_decide; [|done]. by injection H as <-.
Qed.

(** C27. The seam decides every frame exactly as its contract says: the result's
    kind is the one the contract's order of checks prescribes (unreadable field,
    foreign dot, wrong digest, far-future counter, accepted), that verdict is
    unique, and an accepted entry carries every field of the wire, a dot owned
    by its origin, the SHA-256 of its payload and a counter within the bound. *)
Theorem reconstruct_decides_contract (ev : CRDTDeltaEvent) (s : LamportSnapshot)
    (r : result WireIntegrityErrorKind ReconstructedEntry) :
  verdict ev s r ↔ r = kind_of (ReconstructEntryWithSkewBound ev s).
Proof.
  pose proof (reconstruct_verdict ev s) as H. split.
  - intros H'. by apply (verdict_functional ev s).
  - by intros ->.
Qed.
