(* ===== verification/Envelope.v ===== *)
(** The wire envelopes of pkg/attribution: the batch envelope and its hybrid
    sibling (wire_v1.go), and the relay envelope with its chain of hop
    signatures (envelope.go); with the forwarding of pkg/receive/forward.go.
    Verification and signing of one message are parameters here; Identity.v
    supplies them. *)
From S2P Require Import Prelude Bytes.

(** ** Framing constants *)

Definition PubSize : nat := 32.
Definition SigSize : nat := 64.
Definition OriginSigSize : nat := 64.
Definition WallSize : nat := 8.
Definition DotCounterSize : nat := 8.
Definition OriginNodeIDSize : nat := 16.
Definition HopSize : nat := PubSize + SigSize + WallSize.
Definition HeaderLen : nat := 2 + 2 + 4 + OriginSigSize + DotCounterSize + OriginNodeIDSize.
Definition headerLenV2 : nat := HeaderLen - DotCounterSize - OriginNodeIDSize.
Definition PQSignatureSize : nat := 3309.
Definition BatchEnvelopeHeaderLen : nat := 4 + 1 + 8 + 2 + OriginNodeIDSize + OriginSigSize.
Definition HybridEnvelopeHeaderLen : nat := 4 + 1 + 8 + 2 + OriginNodeIDSize + OriginSigSize + PQSignatureSize.

Definition envelopeVersion : Z := 3.
Definition envelopeVersionV2 : Z := 2.
Definition WireV1Magic : Z := 0x53424154.
Definition WireV1Version : Z := 1.
Definition WireDigestMagic : Z := 0x53445354.
Definition WireHybridPQMagic : Z := 0x53485942.
Definition WireHybridPQVersion : Z := 1.

Inductive EnvelopeError :=
| ErrBatchMalformed
| ErrBatchUnsigned
| ErrHybridMalformed
| ErrHybridUnsigned
| ErrMalformed
| ErrHopBoundExceeded
| ErrVerify (hop : nat).

(** ** Batch envelopes *)

Record BatchEnvelope := mkBatchEnvelope {
  bn_originNodeID : list Z;
  bn_originSig : list Z;
  bn_originSeq : Z;
  bn_batchCount : Z;
  bn_wire : list Z;
}.

Definition MarshalBatchEnvelope (originNodeID originSig : list Z) (originSeq batchCount : Z) (batchWire : list Z) : list Z :=
  be_put 4 WireV1Magic ++ [WireV1Version] ++ be_put 8 originSeq ++ be_put 2 batchCount ++
  originNodeID ++ originSig ++ batchWire.

Definition UnmarshalBatchEnvelope (wire : list Z) : result EnvelopeError BatchEnvelope :=
  if (length wire <? BatchEnvelopeHeaderLen)%nat then Err ErrBatchMalformed
  else if negb (be_get (slice 0 4 wire) =? WireV1Magic) then Err ErrBatchMalformed
  else if negb (nth 4 wire 0 =? WireV1Version) then Err ErrBatchMalformed
  else
    let env := mkBatchEnvelope (slice 15 OriginNodeIDSize wire) (slice (15 + OriginNodeIDSize) OriginSigSize wire)
      (be_get (slice 5 8 wire)) (be_get (slice 13 2 wire)) wire in
    if bool_decide (bn_originSig env = replicate OriginSigSize 0) then Err ErrBatchUnsigned else Ok env.

Definition BatchWire (e : BatchEnvelope) : list Z := drop BatchEnvelopeHeaderLen (bn_wire e).

Record HybridEnvelope := mkHybridEnvelope {
  hy_originNodeID : list Z;
  hy_edSig : list Z;
  hy_pqSig : list Z;
  hy_originSeq : Z;
  hy_batchCount : Z;
  hy_wire : list Z;
}.

Definition MarshalHybridFrame (originNodeID edSig pqSig : list Z) (originSeq batchCount : Z) (batchWire : list Z) : list Z :=
  be_put 4 WireHybridPQMagic ++ [WireHybridPQVersion] ++ be_put 8 originSeq ++ be_put 2 batchCount ++
  originNodeID ++ edSig ++ pqSig ++ batchWire.

Definition UnmarshalHybridFrame (wire : list Z) : result EnvelopeError HybridEnvelope :=
  if (length wire <? HybridEnvelopeHeaderLen)%nat then Err ErrHybridMalformed
  else if negb (be_get (slice 0 4 wire) =? WireHybridPQMagic) then Err ErrHybridMalformed
  else if negb (nth 4 wire 0 =? WireHybridPQVersion) then Err ErrHybridMalformed
  else
    let edOff := (15 + OriginNodeIDSize)%nat in
    let pqOff := (edOff + OriginSigSize)%nat in
    let env := mkHybridEnvelope (slice 15 OriginNodeIDSize wire) (slice edOff OriginSigSize wire)
      (slice pqOff PQSignatureSize wire) (be_get (slice 5 8 wire)) (be_get (slice 13 2 wire)) wire in
    if bool_decide (hy_edSig env = replicate OriginSigSize 0) || bool_decide (hy_pqSig env = replicate PQSignatureSize 0)
    then Err ErrHybridUnsigned else Ok env.

Definition HybridBatchWire (e : HybridEnvelope) : list Z := drop HybridEnvelopeHeaderLen (hy_wire e).

(** The dispatch peeks at the first four bytes. *)
Definition has_magic (magic : Z) (frame : list Z) : bool :=
  (4 <=? length frame)%nat && (be_get (slice 0 4 frame) =? magic).
Definition IsBatchFrame (frame : list Z) : bool := has_magic WireV1Magic frame.
Definition IsDigestFrame (frame : list Z) : bool := has_magic WireDigestMagic frame.
Definition IsHybridFrame (frame : list Z) : bool := has_magic WireHybridPQMagic frame.

(** ** Relay envelopes *)

Record Hop := mkHop { RelayPub : list Z; HopSig : list Z; WallUSec : Z }.

Record RelayEnvelope := mkRelay {
  re_innerWire : list Z;
  re_originSig : list Z;
  re_dotCounter : Z;
  re_originNodeID : list Z;
  re_version : Z;
  re_hops : list Hop;
}.

Definition verifyCostPerHop32c : Z := 60211.

(** [budget] in nanoseconds. *)
Definition MaxHopsForBudget (budget : Z) : Z :=
  if budget <=? 0 then 0
  else let n := budget ÷ verifyCostPerHop32c - 1 in if n <? 0 then 0 else n.

Definition NewSignedRelayEnvelopeV3 (innerWire originSig : list Z) (dotCounter : Z) (originNodeID : list Z)
    (hops : list Hop) : RelayEnvelope :=
  mkRelay innerWire originSig dotCounter originNodeID 0 hops.

Definition hop_bytes (h : Hop) : list Z := RelayPub h ++ HopSig h ++ le_put 8 (u64 (WallUSec h)).

Definition Relay_Marshal (e : RelayEnvelope) : list Z :=
  le_put 2 envelopeVersion ++ le_put 2 (Z.of_nat (length (re_hops e))) ++
  le_put 4 (Z.of_nat (length (re_innerWire e))) ++ re_originSig e ++ le_put 8 (re_dotCounter e) ++
  re_originNodeID e ++ re_innerWire e ++ concat (map hop_bytes (re_hops e)).

Definition headerLenForVersion (ver : Z) : option nat :=
  if ver =? envelopeVersion then Some HeaderLen
  else if ver =? envelopeVersionV2 then Some headerLenV2 else None.

Definition read_hop (base : nat) (wire : list Z) : Hop :=
  mkHop (slice base PubSize wire) (slice (base + PubSize) SigSize wire)
    (i64 (le_get (slice (base + PubSize + SigSize) WallSize wire))).

Definition UnmarshalRelayEnvelope (wire : list Z) : result EnvelopeError RelayEnvelope :=
  if (length wire <? 2)%nat then Err ErrMalformed
  else
    let ver := le_get (slice 0 2 wire) in
    match headerLenForVersion ver with
    | None => Err ErrMalformed
    | Some hdrLen =>
        if (length wire <? hdrLen)%nat then Err ErrMalformed
        else
          let n := Z.to_nat (le_get (slice 2 2 wire)) in
          let innerLen := Z.to_nat (le_get (slice 4 4 wire)) in
          if (length wire <? hdrLen + innerLen + n * HopSize)%nat then Err ErrMalformed
          else
            let off := (8 + OriginSigSize)%nat in
            Ok (mkRelay (slice hdrLen innerLen wire) (slice 8 OriginSigSize wire)
                  (if ver =? envelopeVersion then le_get (slice off DotCounterSize wire) else 0)
                  (if ver =? envelopeVersion then slice (off + DotCounterSize) OriginNodeIDSize wire
                   else replicate OriginNodeIDSize 0)
                  ver
                  (map (λ i, read_hop (hdrLen + innerLen + i * HopSize) wire) (seq 0 n)))
    end.

Definition SignedMaterial (innerWire preceding : list Z) (hopIndex wallUSec : Z) : list Z :=
  innerWire ++ preceding ++ le_put 2 hopIndex ++ le_put 8 (u64 wallUSec).

(** The loop of Open from hop [i] on; [verify] is the hook or VerifyCRDTFrame. *)
Fixpoint open_hops (verify : list Z → list Z → list Z → bool) (innerWire preceding : list Z) (i : nat)
    (hops : list Hop) : option EnvelopeError :=
  match hops with
  | [] => None
  | hop :: hops' =>
      let material := SignedMaterial innerWire preceding (Z.of_nat i `mod` 2 ^ 16) (WallUSec hop) in
      if verify (RelayPub hop) material (HopSig hop) then open_hops verify innerWire material (S i) hops'
      else Some (ErrVerify i)
  end.

Definition Open (verify : list Z → list Z → list Z → bool) (maxHops : Z) (e : RelayEnvelope) :
    result EnvelopeError (list Z * nat) :=
  if maxHops <? Z.of_nat (length (re_hops e)) then Err ErrHopBoundExceeded
  else match open_hops verify (re_innerWire e) [] 0 (re_hops e) with
       | Some err => Err err
       | None => Ok (re_innerWire e, length (re_hops e))
       end.

(** [sign]: ed25519.Sign under the relay's private key. *)
Definition SignHop (sign : list Z → list Z) (relayPub innerWire preceding : list Z) (hopIndex wallUSec : Z) : Hop :=
  mkHop relayPub (sign (SignedMaterial innerWire preceding hopIndex wallUSec)) wallUSec.

(** pkg/receive/forward.go *)
Fixpoint rebuild_from (innerWire preceding : list Z) (i : nat) (hops : list Hop) : list Z :=
  match hops with
  | [] => preceding
  | hop :: hops' =>
      rebuild_from innerWire (SignedMaterial innerWire preceding (Z.of_nat i `mod` 2 ^ 16) (WallUSec hop)) (S i) hops'
  end.

Definition rebuildPreceding (innerWire : list Z) (hops : list Hop) : list Z := rebuild_from innerWire [] 0 hops.

Definition frameLenPrefixSize : nat := 4.

Definition LengthPrefixFrame (envelopeBytes : list Z) : list Z :=
  be_put frameLenPrefixSize (Z.of_nat (length envelopeBytes)) ++ envelopeBytes.

(** The bytes ForwardEnvelope hands to the transport. *)
Definition ForwardEnvelope (sign : list Z → list Z) (relayPub innerWire originSig : list Z) (dotCounter : Z)
    (originNodeID : list Z) (existingHops : list Hop) (hopIndex wallUSec : Z) : list Z :=
  let preceding := rebuildPreceding innerWire existingHops in
  let newHop := SignHop sign relayPub innerWire preceding hopIndex wallUSec in
  LengthPrefixFrame (Relay_Marshal (NewSignedRelayEnvelopeV3 innerWire originSig dotCounter originNodeID
    (existingHops ++ [newHop]))).

(** * Properties of the envelopes of Envelope.v: round trips, dispatch, the chain
    of hop signatures and its forwarding. *)

(** ** Batch and hybrid envelopes *)

Definition sized_batch_header (id sig : list Z) (seq count : Z) : Prop :=
  length id = OriginNodeIDSize ∧ length sig = OriginSigSize ∧ is_u64 seq ∧ 0 <= count < 2 ^ 16.

Lemma nth_app_one (n : nat) (a b : list Z) (x : Z) : length a = n → nth n (a ++ [x] ++ b) 0 = x.
Proof. intros <-. rewrite app_nth2, Nat.sub_diag by lia. done. Qed.

(** The fields common to both headers. *)
Definition batch_header (magic ver seq count : Z) (id rest : list Z) : list Z :=
  be_put 4 magic ++ [ver] ++ be_put 8 seq ++ be_put 2 count ++ id ++ rest.

Lemma length_batch_header magic ver seq count id rest :
  length id = OriginNodeIDSize → length (batch_header magic ver seq count id rest) = (31 + length rest)%nat.
Proof. unfold batch_header, OriginNodeIDSize. intros H. len. Qed.

Lemma batch_header_fields magic ver seq count id rest :
  let wire := batch_header magic ver seq count id rest in
  0 <= magic < 2 ^ 32 → is_u64 seq → 0 <= count < 2 ^ 16 → length id = OriginNodeIDSize →
  be_get (slice 0 4 wire) = magic ∧ nth 4 wire 0 = ver ∧ be_get (slice 5 8 wire) = seq ∧
  be_get (slice 13 2 wire) = count ∧ slice 15 OriginNodeIDSize wire = id ∧
  ∀ off n, slice (31 + off) n wire = slice off n rest.
Proof.
  unfold batch_header, OriginNodeIDSize. intros Hm Hs Hc Hid. split_and!.
  - slices. by rewrite be_get_put by words.
  - apply (nth_app_one 4), length_be_put.
  - slices. by rewrite be_get_put by words.
  - slices. by rewrite be_get_put by words.
  - by slices.
  - intros off n. rewrite !(assoc_L (++)). rewrite slice_app_skip by len. f_equal. len.
Qed.

Lemma unmarshal_marshal_batch id sig seq count w :
  sized_batch_header id sig seq count →
  let wire := MarshalBatchEnvelope id sig seq count w in
  UnmarshalBatchEnvelope wire =
    if bool_decide (sig = replicate OriginSigSize 0) then Err ErrBatchUnsigned
    else Ok (mkBatchEnvelope id sig seq count wire).
Proof.
  intros (H1 & H2 & H3 & H4) wire. change wire with (batch_header WireV1Magic WireV1Version seq count id (sig ++ w)).
  destruct (batch_header_fields WireV1Magic WireV1Version seq count id (sig ++ w)) as (E1 & E2 & E3 & E4 & E5 & E6);
    [unfold WireV1Magic; words|done..|].
  unfold UnmarshalBatchEnvelope. rewrite length_batch_header, length_app, H2 by done.
  rewrite (proj2 (Nat.ltb_ge _ _)) by (unfold BatchEnvelopeHeaderLen, OriginNodeIDSize; lia).
  rewrite E1, E2, E3, E4, E5, (E6 0%nat), slice_app_here by done. done.
Qed.

Lemma BatchWire_marshal id sig seq count w n :
  length id = OriginNodeIDSize → length sig = OriginSigSize →
  BatchWire (mkBatchEnvelope id sig seq n (MarshalBatchEnvelope id sig seq count w)) = w.
Proof.
  intros H1 H2. change (drop BatchEnvelopeHeaderLen (MarshalBatchEnvelope id sig seq count w) = w).
  unfold MarshalBatchEnvelope. rewrite !(assoc_L (++)).
  apply drop_app_length'. unfold BatchEnvelopeHeaderLen. len.
Qed.

Lemma unmarshal_marshal_hybrid id ed pq seq count w :
  sized_batch_header id ed seq count → length pq = PQSignatureSize →
  let wire := MarshalHybridFrame id ed pq seq count w in
  UnmarshalHybridFrame wire =
    if bool_decide (ed = replicate OriginSigSize 0) || bool_decide (pq = replicate PQSignatureSize 0)
    then Err ErrHybridUnsigned else Ok (mkHybridEnvelope id ed pq seq count wire).
Proof.
  intros (H1 & H2 & H3 & H4) H5 wire.
  change wire with (batch_header WireHybridPQMagic WireHybridPQVersion seq count id (ed ++ pq ++ w)).
  destruct (batch_header_fields WireHybridPQMagic WireHybridPQVersion seq count id (ed ++ pq ++ w))
    as (E1 & E2 & E3 & E4 & E5 & E6); [unfold WireHybridPQMagic; words|done..|].
  unfold UnmarshalHybridFrame. rewrite length_batch_header, !length_app, H2, H5 by done.
  rewrite (proj2 (Nat.ltb_ge _ _)) by (unfold HybridEnvelopeHeaderLen, OriginNodeIDSize; lia).
  rewrite E1, E2, E3, E4, E5, (E6 0%nat), (E6 OriginSigSize), slice_app_here by done.
  rewrite slice_app_skip, H2, Nat.sub_diag, slice_app_here by (rewrite ?H2; done). done.
Qed.

Lemma HybridBatchWire_marshal id ed pq seq count w n :
  length id = OriginNodeIDSize → length ed = OriginSigSize → length pq = PQSignatureSize →
  HybridBatchWire (mkHybridEnvelope id ed pq seq n (MarshalHybridFrame id ed pq seq count w)) = w.
Proof.
  intros H1 H2 H3. change (drop HybridEnvelopeHeaderLen (MarshalHybridFrame id ed pq seq count w) = w).
  unfold MarshalHybridFrame. rewrite !(assoc_L (++)).
  apply drop_app_length'. unfold HybridEnvelopeHeaderLen. len.
Qed.

(** ** Relay envelopes *)

Definition wf_hop (h : Hop) : Prop :=
  length (RelayPub h) = PubSize ∧ length (HopSig h) = SigSize ∧ is_i64 (WallUSec h).

Definition wf_relay (e : RelayEnvelope) : Prop :=
  length (re_originSig e) = OriginSigSize ∧ length (re_originNodeID e) = OriginNodeIDSize ∧
  is_u64 (re_dotCounter e) ∧ Forall wf_hop (re_hops e) ∧
  Z.of_nat (length (re_hops e)) < 2 ^ 16 ∧ Z.of_nat (length (re_innerWire e)) < 2 ^ 32.

(** What a marshalled envelope is parsed as. *)
Definition as_v3 (e : RelayEnvelope) : RelayEnvelope :=
  mkRelay (re_innerWire e) (re_originSig e) (re_dotCounter e) (re_originNodeID e) envelopeVersion (re_hops e).

Lemma length_hop_bytes h : wf_hop h → length (hop_bytes h) = HopSize.
Proof. intros (H1 & H2 & _). unfold hop_bytes, HopSize, WallSize. len. Qed.

Lemma length_hops hops : Forall wf_hop hops → length (concat (map hop_bytes hops)) = (length hops * HopSize)%nat.
Proof.
  induction 1 as [|h hops Hh _ IH]; [done|]. cbn [map concat length].
  rewrite length_app, IH, length_hop_bytes by done. lia.
Qed.

Lemma read_hop_bytes pre h rest : wf_hop h → read_hop (length pre) (pre ++ hop_bytes h ++ rest) = h.
Proof.
  intros (H1 & H2 & H3). unfold read_hop, hop_bytes. unfold PubSize, SigSize, WallSize in *.
  rewrite <- !(assoc_L (++)).
  rewrite !(slice_app_skip _ _ pre) by lia.
  replace (length pre - length pre)%nat with 0%nat by lia.
  replace (length pre + 32 - length pre)%nat with 32%nat by lia.
  replace (length pre + 32 + 64 - length pre)%nat with 96%nat by lia.
  slices. rewrite le_get_put by (pose proof (u64_range (WallUSec h)); words). rewrite i64_u64 by done. by destruct h.
Qed.

Lemma read_hops pre hops rest :
  Forall wf_hop hops →
  map (λ i, read_hop (length pre + i * HopSize) (pre ++ concat (map hop_bytes hops) ++ rest)) (seq 0 (length hops)) = hops.
Proof.
  intros Hf. revert pre. induction Hf as [|h hops Hh _ IH]; intros pre; [done|].
  cbn [length seq map concat]. f_equal.
  - rewrite Nat.mul_0_l, Nat.add_0_r, <- (assoc_L (++)). by apply read_hop_bytes.
  - rewrite <- seq_shift, map_map. rewrite <- (IH (pre ++ hop_bytes h)) at 2. apply map_ext. intros i.
    rewrite length_app, length_hop_bytes by done. rewrite <- !(assoc_L (++)). f_equal. lia.
Qed.

Lemma unmarshal_marshal_relay e junk :
  wf_relay e → UnmarshalRelayEnvelope (Relay_Marshal e ++ junk) = Ok (as_v3 e).
Proof.
  intros (H1 & H2 & H3 & H4 & H5 & H6).
  pose proof (length_hops _ H4) as Hl. set (hs := concat (map hop_bytes (re_hops e))) in *.
  set (pre := le_put 2 envelopeVersion ++ le_put 2 (Z.of_nat (length (re_hops e))) ++
    le_put 4 (Z.of_nat (length (re_innerWire e))) ++ re_originSig e ++ le_put 8 (re_dotCounter e) ++ re_originNodeID e).
  assert (length pre = HeaderLen) as Hpre.
  { unfold pre, HeaderLen, OriginSigSize, OriginNodeIDSize, DotCounterSize in *. len. }
  assert (Relay_Marshal e ++ junk = pre ++ re_innerWire e ++ hs ++ junk) as ->.
  { unfold Relay_Marshal, pre, hs. by rewrite <- !(assoc_L (++)). }
  set (wire := pre ++ re_innerWire e ++ hs ++ junk).
  assert (length wire = HeaderLen + length (re_innerWire e) + length (re_hops e) * HopSize + length junk)%nat as Hwl.
  { unfold wire. rewrite !length_app. lia. }
  assert (∀ off n, (off + n <= HeaderLen)%nat → slice off n wire = slice off n pre) as Hin.
  { intros off n Hle. unfold slice, wire. rewrite drop_app_le by lia. apply take_app_le. rewrite length_drop. lia. }
  unfold OriginSigSize, OriginNodeIDSize in *.
  assert (slice 0 2 wire = le_put 2 envelopeVersion) as E1.
  { rewrite Hin by (unfold HeaderLen; lia). unfold pre. by slices. }
  assert (slice 2 2 wire = le_put 2 (Z.of_nat (length (re_hops e)))) as E2.
  { rewrite Hin by (unfold HeaderLen; lia). unfold pre. by slices. }
  assert (slice 4 4 wire = le_put 4 (Z.of_nat (length (re_innerWire e)))) as E3.
  { rewrite Hin by (unfold HeaderLen; lia). unfold pre. by slices. }
  assert (slice 8 64 wire = re_originSig e) as E4.
  { rewrite Hin by (unfold HeaderLen, OriginSigSize; lia). unfold pre. by slices. }
  assert (slice 72 8 wire = le_put 8 (re_dotCounter e)) as E5.
  { rewrite Hin by (unfold HeaderLen, OriginSigSize, DotCounterSize; lia). unfold pre. by slices. }
  assert (slice 80 16 wire = re_originNodeID e) as E6.
  { rewrite Hin by (unfold HeaderLen, OriginSigSize, DotCounterSize, OriginNodeIDSize; lia).
    unfold pre. slices. by apply slice_all. }
  unfold UnmarshalRelayEnvelope. rewrite E1, E2, E3. rewrite !le_get_put by (unfold envelopeVersion; lia).
  unfold headerLenForVersion. rewrite Z.eqb_refl, !Nat2Z.id. cbv iota beta zeta.
  rewrite !(proj2 (Nat.ltb_ge _ _)) by (unfold HeaderLen in *; lia).
  unfold as_v3. do 2 f_equal.
  - unfold wire. rewrite (slice_app_skip _ _ pre) by (rewrite Hpre; done). rewrite Hpre, Nat.sub_diag. by apply slice_app_here.
  - exact E4.
  - change (slice (8 + OriginSigSize) DotCounterSize wire) with (slice 72 8 wire). rewrite E5, le_get_put by words. done.
  - exact E6.
  - rewrite <- Hpre, <- length_app. unfold wire. rewrite (assoc_L (++) pre). by apply read_hops.
Qed.

(** ** The chain of hop signatures *)

(** What hop [i] signs: it carries the inner frame and the times of all hops up
    to it. *)
Definition hop_material (innerWire : list Z) (hops : list Hop) (i : nat) : list Z :=
  rebuildPreceding innerWire (take (S i) hops).

Lemma rebuild_from_app inner p i a b :
  rebuild_from inner p i (a ++ b) = rebuild_from inner (rebuild_from inner p i a) (i + length a) b.
Proof.
  revert p i. induction a as [|h a IH]; intros p i; simpl; [by rewrite Nat.add_0_r|].
  rewrite IH. f_equal. lia.
Qed.

Lemma rebuild_snoc inner hops h :
  rebuildPreceding inner (hops ++ [h]) =
    SignedMaterial inner (rebuildPreceding inner hops) (Z.of_nat (length hops) `mod` 2 ^ 16) (WallUSec h).
Proof. unfold rebuildPreceding. by rewrite rebuild_from_app. Qed.

Lemma length_rebuild inner hops :
  length (rebuildPreceding inner hops) = (length hops * (length inner + 10))%nat.
Proof.
  induction hops as [|h hops IH] using rev_ind; [done|].
  rewrite rebuild_snoc. unfold SignedMaterial. rewrite !length_app, !length_le_put, IH. simpl. lia.
Qed.

Lemma open_hops_None verify inner p i hops :
  open_hops verify inner p i hops = None ↔
  ∀ j h, hops !! j = Some h → verify (RelayPub h) (rebuild_from inner p i (take (S j) hops)) (HopSig h) = true.
Proof.
  revert p i. induction hops as [|h hops IH]; intros p i; simpl; [split; [by intros _ j h|done]|].
  destruct (verify _ _ _) eqn:E.
  - rewrite IH. split; intros H j h' Hj.
    + destruct j as [|j]; [by injection Hj as <-|]. by apply H.
    + exact (H (S j) h' Hj).
  - split; [done|]. intros H. specialize (H 0%nat h eq_refl). simpl in H. congruence.
Qed.

Lemma open_hops_Err verify inner p i hops n h :
  hops !! n = Some h → verify (RelayPub h) (rebuild_from inner p i (take (S n) hops)) (HopSig h) = false →
  (∀ j h', (j < n)%nat → hops !! j = Some h' →
     verify (RelayPub h') (rebuild_from inner p i (take (S j) hops)) (HopSig h') = true) →
  open_hops verify inner p i hops = Some (ErrVerify (i + n)).
Proof.
  revert p i n. induction hops as [|h0 hops IH]; intros p i n Hn Hbad Hpre; [done|].
  destruct n as [|n].
  - injection Hn as ->. simpl in *. by rewrite Hbad, Nat.add_0_r.
  - pose proof (Hpre 0%nat h0 ltac:(lia) eq_refl) as H0. simpl in *. rewrite H0.
    rewrite (IH _ _ n Hn Hbad); [do 2 f_equal; lia|]. intros j h' Hj Hl. apply (Hpre (S j) h'); [lia|done].
Qed.

Lemma SignedMaterial_inj a b p q i j v w :
  0 <= i < 2 ^ 16 → 0 <= j < 2 ^ 16 → is_i64 v → is_i64 w →
  SignedMaterial a p i v = SignedMaterial b q j w → a ++ p = b ++ q ∧ i = j ∧ v = w.
Proof.
  intros Hi Hj Hv Hw. unfold SignedMaterial. rewrite !(assoc_L (++)). intros H.
  apply app_inj_2 in H as [H H2]; [|by rewrite !length_le_put].
  apply app_inj_2 in H as [H H1]; [|by rewrite !length_le_put].
  split_and!; [done| |].
  - by apply (le_put_inj 2) in H1; [| |lia..].
  - apply (le_put_inj 8) in H2; [|pose proof (u64_range v); words|pose proof (u64_range w); words].
    by rewrite <- (i64_u64 v), <- (i64_u64 w), H2.
Qed.

Lemma rebuild_inj a b h1 h2 :
  h1 ≠ [] → h2 ≠ [] → Z.of_nat (length h1) < 2 ^ 16 → Z.of_nat (length h2) < 2 ^ 16 →
  Forall (λ h, is_i64 (WallUSec h)) h1 → Forall (λ h, is_i64 (WallUSec h)) h2 →
  rebuildPreceding a h1 = rebuildPreceding b h2 → a = b ∧ map WallUSec h1 = map WallUSec h2.
Proof.
  revert h2. induction h1 as [|x h1 IH] using rev_ind; intros h2 Hn1 Hn2 Hl1 Hl2 Hf1 Hf2 H; [done|].
  destruct h2 as [|y h2 _] using rev_ind; [done|]. clear Hn1 Hn2.
  rewrite length_app in Hl1, Hl2. simpl in Hl1, Hl2. apply Forall_app in Hf1 as [Hf1 Hx], Hf2 as [Hf2 Hy].
  rewrite Forall_singleton in Hx, Hy. pose proof (f_equal length H) as Hlen.
  rewrite !length_rebuild, !length_app in Hlen. simpl in Hlen. rewrite !rebuild_snoc in H.
  apply SignedMaterial_inj in H as (Hap & Hij & Hw); [|apply Z.mod_pos_bound; lia|apply Z.mod_pos_bound; lia|exact Hx|exact Hy].
  rewrite !Z.mod_small in Hij by lia. apply Nat2Z.inj in Hij. rewrite <- Hij in Hlen.
  assert (length a = length b) as Hab by nia.
  apply app_inj_1 in Hap as [-> HR]; [|done]. split; [done|]. rewrite !map_app. simpl. rewrite Hw. f_equal.
  destruct h1 as [|z h1]; [by destruct h2|]. destruct h2 as [|z2 h2]; [done|].
  apply (IH (z2 :: h2)); [done|done|lia|lia|done|done|done].
Qed.

(** ** Dispatch *)

Lemma has_magic_prefix magic pre rest :
  length pre = 4%nat → is_bytes pre → 0 <= magic < 2 ^ 32 →
  has_magic magic (pre ++ rest) = bool_decide (pre = be_put 4 magic).
Proof.
  intros Hl Hb Hm. unfold has_magic. rewrite length_app, Hl, slice_app_here by done.
  apply Bool.eq_iff_eq_true. rewrite andb_true_iff, Nat.leb_le, Z.eqb_eq, bool_decide_eq_true. split.
  - intros [_ <-]. unfold be_put, be_get. rewrite le_put_get, reverse_involutive; [done|by rewrite length_reverse|].
    by apply Forall_reverse.
  - intros ->. rewrite be_get_put by lia. split; [lia|done].
Qed.

Lemma relay_dispatch e junk magic :
  0 <= magic < 2 ^ 32 → head (be_put 4 magic) ≠ Some 3 → has_magic magic (Relay_Marshal e ++ junk) = false.
Proof.
  intros Hm Hh.
  set (rest := le_put 4 (Z.of_nat (length (re_innerWire e))) ++ re_originSig e ++ le_put 8 (re_dotCounter e) ++
    re_originNodeID e ++ re_innerWire e ++ concat (map hop_bytes (re_hops e)) ++ junk).
  assert (Relay_Marshal e ++ junk =
    (le_put 2 envelopeVersion ++ le_put 2 (Z.of_nat (length (re_hops e)))) ++ rest) as ->.
  { unfold Relay_Marshal, rest. by rewrite <- !(assoc_L (++)). }
  rewrite has_magic_prefix; [|by rewrite length_app, !length_le_put|by apply Forall_app; split; apply le_put_bytes|done].
  apply bool_decide_eq_false_2. intros H. apply Hh. by rewrite <- H.
Qed.

(** ** Properties *)


(** Reads of a byte string are bytes in range. *)
Lemma le_get_slice_range off n wire : is_bytes wire → 0 <= le_get (slice off n wire) < 2 ^ (Z.of_nat n * 8).
Proof.
  intros Hb. pose proof (le_get_range (slice off n wire) (slice_bytes off n wire Hb)) as H.
  assert (length (slice off n wire) <= n)%nat by (unfold slice; rewrite length_take; lia).
  pose proof (Z.pow_le_mono_r 2 (Z.of_nat (length (slice off n wire)) * 8) (Z.of_nat n * 8)). lia.
Qed.

Lemma be_get_slice_range off n wire : is_bytes wire → 0 <= be_get (slice off n wire) < 2 ^ (Z.of_nat n * 8).
Proof.
  intros Hb. unfold be_get.
  pose proof (le_get_range (reverse (slice off n wire)) (proj2 (Forall_reverse _ _) (slice_bytes off n wire Hb))) as H.
  rewrite length_reverse in H. assert (length (slice off n wire) <= n)%nat by (unfold slice; rewrite length_take; lia).
  pose proof (Z.pow_le_mono_r 2 (Z.of_nat (length (slice off n wire)) * 8) (Z.of_nat n * 8)). lia.
Qed.

Lemma i64_range x : is_i64 (i64 x).
Proof. unfold is_i64, i64. pose proof (Z.mod_pos_bound (x + 2 ^ 63) (2 ^ 64) ltac:(lia)). lia. Qed.

Lemma unmarshal_relay_wf wire e :
  is_bytes wire → UnmarshalRelayEnvelope wire = Ok e →
  wf_relay e ∧ (re_version e = envelopeVersion ∨ re_version e = envelopeVersionV2) ∧
  (8 + 64 + length (re_innerWire e) + length (re_hops e) * HopSize <= length wire)%nat.
Proof.
  intros Hb. unfold UnmarshalRelayEnvelope. destruct (_ <? 2)%nat; [done|].
  set (ver := le_get (slice 0 2 wire)). destruct (headerLenForVersion ver) as [hdr|] eqn:Hh; [|done].
  assert (hdr = HeaderLen ∧ ver = envelopeVersion ∨ hdr = headerLenV2 ∧ ver = envelopeVersionV2) as Hv.
  { unfold headerLenForVersion in Hh. destruct (Z.eqb_spec ver envelopeVersion); [left; by injection Hh as <-|].
    destruct (Z.eqb_spec ver envelopeVersionV2); [right; by injection Hh as <-|done]. }
  destruct (Nat.ltb_spec (length wire) hdr) as [|Hhl]; [done|]. set (n := Z.to_nat (le_get (slice 2 2 wire))).
  set (inner := Z.to_nat (le_get (slice 4 4 wire))).
  destruct (Nat.ltb_spec (length wire) (hdr + inner + n * HopSize)) as [|Hlen]; [done|]. intros [= <-].
  pose proof (le_get_slice_range 2 2 wire Hb). pose proof (le_get_slice_range 4 4 wire Hb).
  assert (72 <= hdr)%nat as Hhdr by (destruct Hv as [[-> _]|[-> _]]; apply Nat.leb_le; reflexivity).
  cbn [re_version re_innerWire re_hops]. rewrite length_map, length_seq, length_slice by lia.
  split_and!; [|destruct Hv as [[_ ->]|[_ ->]]; auto|unfold HopSize in *; lia].
  unfold wf_relay. cbn [re_originSig re_originNodeID re_dotCounter re_hops re_innerWire].
  rewrite length_map, length_seq, (length_slice hdr inner) by lia. split_and!; try lia.
  - apply length_slice. unfold OriginSigSize. lia.
  - destruct Hv as [[-> ->]|[-> ->]]; [|done]. apply length_slice.
    apply (Nat.le_trans _ HeaderLen); [apply Nat.leb_le; reflexivity|exact Hhl].
  - destruct (ver =? envelopeVersion); [|by split]. apply (le_get_slice_range _ 8 wire Hb).
  - apply Forall_forall. intros h (i & -> & Hi%elem_of_seq)%list_elem_of_fmap.
    assert (hdr + inner + i * HopSize + HopSize <= length wire)%nat by nia.
    unfold wf_hop, read_hop. simpl. unfold HopSize, WallSize, SigSize, PubSize in *. split_and!.
    + apply length_slice. lia.
    + apply length_slice. lia.
    + apply i64_range.
Qed.

Lemma unmarshal_batch_typed wire e :
  is_bytes wire → UnmarshalBatchEnvelope wire = Ok e →
  sized_batch_header (bn_originNodeID e) (bn_originSig e) (bn_originSeq e) (bn_batchCount e) ∧
  length (BatchWire e) = (length wire - 95)%nat.
Proof.
  intros Hb. unfold UnmarshalBatchEnvelope. destruct (Nat.ltb_spec (length wire) BatchEnvelopeHeaderLen) as [|Hl]; [done|].
  destruct (negb _); [done|]. destruct (negb _); [done|]. cbv zeta. destruct (bool_decide _); [done|]. intros [= <-].
  unfold sized_batch_header, BatchEnvelopeHeaderLen, OriginNodeIDSize, OriginSigSize in *.
  split; [split_and!|unfold BatchWire; simpl; rewrite length_drop; done]; cbn [bn_originNodeID bn_originSig bn_originSeq bn_batchCount].
  - apply length_slice. lia.
  - apply length_slice. lia.
  - apply (be_get_slice_range 5 8 wire Hb).
  - apply (be_get_slice_range 13 2 wire Hb).
  - apply (be_get_slice_range 13 2 wire Hb).
Qed.

Lemma unmarshal_hybrid_typed wire e :
  is_bytes wire → UnmarshalHybridFrame wire = Ok e →
  sized_batch_header (hy_originNodeID e) (hy_edSig e) (hy_originSeq e) (hy_batchCount e) ∧
  length (hy_pqSig e) = PQSignatureSize ∧ length (HybridBatchWire e) = (length wire - 3404)%nat.
Proof.
  intros Hb. unfold UnmarshalHybridFrame. destruct (Nat.ltb_spec (length wire) HybridEnvelopeHeaderLen) as [|Hl]; [done|].
  destruct (negb _); [done|]. destruct (negb _); [done|]. cbv zeta. destruct (_ || _); [done|]. intros [= <-].
  unfold sized_batch_header, HybridEnvelopeHeaderLen, OriginNodeIDSize, OriginSigSize, PQSignatureSize in *.
  split; [split_and!|split; [|unfold HybridBatchWire; cbn [hy_wire]; rewrite length_drop; done]];
    cbn [hy_originNodeID hy_edSig hy_pqSig hy_originSeq hy_batchCount].
  - apply length_slice. lia.
  - apply length_slice. lia.
  - apply (be_get_slice_range 5 8 wire Hb).
  - apply (be_get_slice_range 13 2 wire Hb).
  - apply (be_get_slice_range 13 2 wire Hb).
  - apply length_slice. lia.
Qed.

(** C37.  Parsing is typed: whatever bytes arrive, an envelope that parses has a
    64-byte signature, a 16-byte origin, a counter and sequence number in 64
    bits, a known version, hops of the right shape within 16 bits of count, and
    never claims more bytes than were received. *)
Theorem parsed_envelope_typed (wire : list Z) :
  is_bytes wire →
  (∀ e, UnmarshalRelayEnvelope wire = Ok e →
     wf_relay e ∧ (re_version e = 2 ∨ re_version e = 3) ∧
     (72 + length (re_innerWire e) + length (re_hops e) * HopSize <= length wire)%nat) ∧
  (∀ e, UnmarshalBatchEnvelope wire = Ok e →
     sized_batch_header (bn_originNodeID e) (bn_originSig e) (bn_originSeq e) (bn_batchCount e) ∧
     length (BatchWire e) = (length wire - 95)%nat) ∧
  (∀ e, UnmarshalHybridFrame wire = Ok e →
     sized_batch_header (hy_originNodeID e) (hy_edSig e) (hy_originSeq e) (hy_batchCount e) ∧
     length (hy_pqSig e) = PQSignatureSize ∧ length (HybridBatchWire e) = (length wire - 3404)%nat).
Proof.
  intros Hb. split_and!.
  - intros e He. destruct (unmarshal_relay_wf wire e Hb He) as (Hwf & [Hv|Hv] & Hl); split_and!; auto.
  - intros e. by apply unmarshal_batch_typed.
  - intros e. by apply unmarshal_hybrid_typed.
Qed.

Section Chain.
Context (verify : list Z → list Z → list Z → bool).

(** Hop [i] of [hops] carries a valid signature of its relay. *)
Definition hop_ok (inner : list Z) (hops : list Hop) (i : nat) : bool :=
  match hops !! i with
  | Some h => verify (RelayPub h) (hop_material inner hops i) (HopSig h)
  | None => true
  end.

Lemma open_ok maxHops e :
  Z.of_nat (length (re_hops e)) <= maxHops → (∀ i, hop_ok (re_innerWire e) (re_hops e) i = true) →
  Open verify maxHops e = Ok (re_innerWire e, length (re_hops e)).
Proof.
  intros Hle H. unfold Open. rewrite (proj2 (Z.ltb_ge _ _)) by done.
  rewrite (proj2 (open_hops_None verify _ _ _ _)); [done|]. intros j h Hj.
  specialize (H j). unfold hop_ok in H. by rewrite Hj in H.
Qed.

(** The depth gate and the chain of custody: Open refuses more hops than its
    bound before any signature is checked; otherwise it returns the inner frame
    and the hop count when every hop's signature verifies over the material of
    its position, and the error of the first hop whose signature does not. *)
Theorem open_checks_chain (maxHops : Z) (e : RelayEnvelope) :
  let n := length (re_hops e) in
  (maxHops < Z.of_nat n → ∀ verify', Open verify' maxHops e = Err ErrHopBoundExceeded) ∧
  (Z.of_nat n <= maxHops →
     ((∀ i, hop_ok (re_innerWire e) (re_hops e) i = true) → Open verify maxHops e = Ok (re_innerWire e, n)) ∧
     (∀ i, hop_ok (re_innerWire e) (re_hops e) i = false →
        (∀ j, (j < i)%nat → hop_ok (re_innerWire e) (re_hops e) j = true) →
        Open verify maxHops e = Err (ErrVerify i))).
Proof.
  intros n. split; [|intros Hle; split].
  - intros Hlt verify'. unfold Open. by rewrite (proj2 (Z.ltb_lt _ _)).
  - by apply open_ok.
  - intros i Hi Hpre. unfold Open. rewrite (proj2 (Z.ltb_ge _ _)) by done. unfold hop_ok at 1 in Hi. destruct (re_hops e !! i) as [h|] eqn:Hh; [|done].
    rewrite (open_hops_Err verify _ _ _ _ i h); [done|done|exact Hi|]. intros j h' Hj Hl.
    specialize (Hpre j Hj). unfold hop_ok in Hpre. by rewrite Hl in Hpre.
Qed.

Lemma open_hop_verifies maxHops e r i h :
  Open verify maxHops e = Ok r → re_hops e !! i = Some h →
  verify (RelayPub h) (hop_material (re_innerWire e) (re_hops e) i) (HopSig h) = true.
Proof.
  unfold Open. destruct (_ <? _); [done|]. destruct (open_hops _ _ _ _ _) eqn:E; [done|].
  intros _ Hi. exact (proj1 (open_hops_None _ _ _ _ _) E i h Hi).
Qed.

(** A relay's signature is bound to the frame and to the times before it: if
    two accepted envelopes carry the same key and signature at hops i and j, then
    the positions, the inner frames and the wall times of all hops up to there
    agree, unless that signature verifies for two different messages. *)
Theorem hop_signature_binds_content (m1 m2 : Z) (e1 e2 : RelayEnvelope) (r1 r2 : list Z * nat) (i j : nat) (h1 h2 : Hop) :
  wf_relay e1 → wf_relay e2 → Open verify m1 e1 = Ok r1 → Open verify m2 e2 = Ok r2 →
  re_hops e1 !! i = Some h1 → re_hops e2 !! j = Some h2 →
  RelayPub h1 = RelayPub h2 → HopSig h1 = HopSig h2 →
  (i = j ∧ re_innerWire e1 = re_innerWire e2 ∧
   map WallUSec (take (S i) (re_hops e1)) = map WallUSec (take (S j) (re_hops e2))) ∨
  ∃ a b, a ≠ b ∧ verify (RelayPub h1) a (HopSig h1) = true ∧ verify (RelayPub h1) b (HopSig h1) = true.
Proof.
  intros (_ & _ & _ & Hf1 & Hl1 & _) (_ & _ & _ & Hf2 & Hl2 & _) Ho1 Ho2 Hi Hj Hp Hs.
  pose proof (open_hop_verifies _ _ _ _ _ Ho1 Hi) as V1. pose proof (open_hop_verifies _ _ _ _ _ Ho2 Hj) as V2.
  rewrite <- Hp, <- Hs in V2.
  destruct (decide (hop_material (re_innerWire e1) (re_hops e1) i = hop_material (re_innerWire e2) (re_hops e2) j))
    as [E|E]; [left|right; eauto].
  pose proof (lookup_lt_Some _ _ _ Hi). pose proof (lookup_lt_Some _ _ _ Hj).
  apply rebuild_inj in E as [E1 E2].
  - split_and!; [|done|done]. apply (f_equal length) in E2. rewrite !length_map, !length_take in E2. lia.
  - by destruct (re_hops e1).
  - by destruct (re_hops e2).
  - rewrite length_take. lia.
  - rewrite length_take. lia.
  - eapply Forall_take, Forall_impl; [exact Hf1|]. by intros h (_ & _ & ?).
  - eapply Forall_take, Forall_impl; [exact Hf2|]. by intros h (_ & _ & ?).
Qed.

(** Forwarding: a relay that holds an accepted envelope and signs with its
    key sends bytes that the next node, after the four-byte length prefix, parses
    as the same frame, signature, counter and origin with one more hop, and that
    its Open accepts whenever its bound allows that many hops. *)
Theorem forwarded_envelope_opens (sign : list Z → list Z) (relayPub : list Z) (wallUSec m m' : Z) (e : RelayEnvelope)
    (r : list Z * nat) :
  (∀ msg, length (sign msg) = SigSize ∧ verify relayPub msg (sign msg) = true) →
  length relayPub = PubSize → is_i64 wallUSec → wf_relay e → Z.of_nat (length (re_hops e)) + 1 < 2 ^ 16 →
  Open verify m e = Ok r → Z.of_nat (length (re_hops e)) + 1 <= m' →
  let n := length (re_hops e) in
  let frame := ForwardEnvelope sign relayPub (re_innerWire e) (re_originSig e) (re_dotCounter e) (re_originNodeID e)
                 (re_hops e) (Z.of_nat n) wallUSec in
  ∃ e', UnmarshalRelayEnvelope (drop frameLenPrefixSize frame) = Ok e' ∧ re_innerWire e' = re_innerWire e ∧
    re_originSig e' = re_originSig e ∧ re_dotCounter e' = re_dotCounter e ∧ re_originNodeID e' = re_originNodeID e ∧
    take n (re_hops e') = re_hops e ∧ Open verify m' e' = Ok (re_innerWire e, S n).
Proof.
  intros Hsign Hpub Hw (H1 & H2 & H3 & H4 & H5 & H6) Hn Ho Hm' n frame.
  set (h := SignHop sign relayPub (re_innerWire e) (rebuildPreceding (re_innerWire e) (re_hops e)) (Z.of_nat n) wallUSec) in *.
  set (e1 := NewSignedRelayEnvelopeV3 (re_innerWire e) (re_originSig e) (re_dotCounter e) (re_originNodeID e)
               (re_hops e ++ [h])).
  assert (wf_relay e1) as Hwf.
  { split_and!; try done; cbn [re_hops e1 NewSignedRelayEnvelopeV3].
    - apply Forall_app. split; [done|]. apply Forall_singleton. split_and!; [done|apply Hsign|done].
    - rewrite length_app. simpl. lia. }
  exists (as_v3 e1). cbn [as_v3 e1 NewSignedRelayEnvelopeV3 re_innerWire re_originSig re_dotCounter re_originNodeID re_hops].
  split_and!; try done.
  - rewrite <- (unmarshal_marshal_relay e1 [] Hwf), app_nil_r. f_equal.
  - apply take_app_length.
  - assert (length (re_hops e ++ [h]) = S n) as Hl by (rewrite length_app; simpl; lia).
    rewrite <- Hl. apply (open_ok m' (as_v3 e1)); simpl re_hops; [rewrite Hl; lia|].
    intros i. unfold hop_ok. simpl re_innerWire.
    destruct ((re_hops e ++ [h]) !! i) as [x|] eqn:Hx; [|done]. unfold hop_material.
    apply lookup_app_Some in Hx as [Hx|[Hi Hx]].
    + pose proof (lookup_lt_Some _ _ _ Hx). rewrite take_app_le by lia. exact (open_hop_verifies _ _ _ _ _ Ho Hx).
    + apply list_lookup_singleton_Some in Hx as [Hi' <-]. rewrite take_ge by (rewrite Hl; lia).
      rewrite rebuild_snoc. fold n. rewrite Z.mod_small by lia. apply Hsign.
Qed.

(** The chain does not bind who relayed: an accepted envelope stays accepted
    when the key and signature of any hop are replaced by those of another relay
    that signed the same material, although later hops were signed after the
    original one. *)
Theorem hop_identity_not_bound (m : Z) (e : RelayEnvelope) (r : list Z * nat) (i : nat) (h : Hop) (pub sig : list Z) :
  Open verify m e = Ok r → re_hops e !! i = Some h →
  verify pub (hop_material (re_innerWire e) (re_hops e) i) sig = true →
  Open verify m (mkRelay (re_innerWire e) (re_originSig e) (re_dotCounter e) (re_originNodeID e) (re_version e)
                   (<[i := mkHop pub sig (WallUSec h)]> (re_hops e))) = Ok r.
Proof.
  intros Ho Hi Hv. set (h' := mkHop pub sig (WallUSec h)).
  assert (∀ k, hop_material (re_innerWire e) (<[i := h']> (re_hops e)) k = hop_material (re_innerWire e) (re_hops e) k) as Hmat.
  { intros k. unfold hop_material, rebuildPreceding.
    assert (∀ l l' p n, map WallUSec l = map WallUSec l' →
      rebuild_from (re_innerWire e) p n l = rebuild_from (re_innerWire e) p n l') as Hext.
    { intros l. induction l as [|x l IH]; intros [|y l'] p n Hw; try done. injection Hw as Hxy Hw. simpl.
      rewrite Hxy. by apply IH. }
    apply Hext. rewrite !(fmap_take WallUSec). f_equal. rewrite (list_fmap_insert WallUSec).
    apply list_insert_id. rewrite list_lookup_fmap, Hi. done. }
  unfold Open in *. simpl re_hops. simpl re_innerWire. rewrite length_insert. destruct (_ <? _); [done|].
  destruct (open_hops _ _ _ _ (re_hops e)) eqn:E; [done|].
  rewrite (proj2 (open_hops_None verify _ _ _ _)); [done|]. intros j x Hj.
  change (verify (RelayPub x) (hop_material (re_innerWire e) (<[i:=h']> (re_hops e)) j) (HopSig x) = true).
  rewrite Hmat. apply list_lookup_insert_Some in Hj as [(-> & <- & _)|[_ Hj]]; [exact Hv|].
  exact (proj1 (open_hops_None _ _ _ _ _) E j x Hj).
Qed.
End Chain.
