(* ===== verification/FrameReader.v ===== *)
(** The length-prefix reassembler of pkg/receive/receiver.go: FrameReader over
    an io.Reader that may return any number of the bytes asked for. *)
From S2P Require Import Prelude Bytes Envelope.

Definition maxFrameSize : Z := Z.shiftl 16 20.

(** A byte source: what is left of the stream, how many bytes each Read will
    return at most, and whether the Read that returns the last bytes returns
    io.EOF with them. *)
Record Source := mkSource { src_rest : list Z; src_sizes : list nat; src_eager : bool }.

(** Read into a buffer of [room] > 0 bytes: the bytes and whether the error is
    io.EOF. *)
Definition Read (room : nat) (s : Source) : list Z * bool * Source :=
  match src_rest s with
  | [] => ([], true, s)
  | _ =>
      let k := Nat.min room (Nat.max 1 (default room (head (src_sizes s)))) in
      let rest := drop k (src_rest s) in
      (take k (src_rest s), src_eager s && bool_decide (rest = []), mkSource rest (tail (src_sizes s)) (src_eager s))
  end.

Inductive ReadError := EOF | ErrFrameTooLarge.

(** [fr_cap] is the capacity of the buffer. *)
Record FrameReader := mkFrameReader { fr_src : Source; fr_buf : list Z; fr_cap : Z }.

Definition NewFrameReader (s : Source) : FrameReader := mkFrameReader s [] 0.

(** The doubling loop of fill. *)
Fixpoint double_to (fuel : nat) (newCap target : Z) : Z :=
  match fuel with
  | O => newCap
  | S fuel' => if newCap <? target then double_to fuel' (newCap * 2) target else newCap
  end.

Definition grow_cap (cap target : Z) : Z :=
  if cap <? target then Z.min (double_to 24 1024 target) (maxFrameSize + Z.of_nat frameLenPrefixSize) else cap.

(** The read loop of fill; each turn consumes at least one byte of the source. *)
Fixpoint read_loop (fuel : nat) (cap target : Z) (s : Source) (buf : list Z) : option ReadError * Source * list Z :=
  if target <=? Z.of_nat (length buf) then (None, s, buf)
  else match fuel with
       | O => (None, s, buf)
       | S fuel' =>
           let '(bytes, eof, s') := Read (Z.to_nat (cap - Z.of_nat (length buf))) s in
           if eof : bool then (Some EOF, s', buf ++ bytes) else read_loop fuel' cap target s' (buf ++ bytes)
       end.

Definition fill (target : Z) (f : FrameReader) : option ReadError * FrameReader :=
  let cap := grow_cap (fr_cap f) target in
  let '(err, s, buf) := read_loop (S (length (src_rest (fr_src f)))) cap target (fr_src f) (fr_buf f) in
  (err, mkFrameReader s buf cap).

(** [for len(f.buf) < target { fill }]: fill returns nil only once it holds. *)
Definition fill_to (target : Z) (f : FrameReader) : option ReadError * FrameReader :=
  if Z.of_nat (length (fr_buf f)) <? target then fill target f else (None, f).

Definition ReadFrame (f : FrameReader) : result ReadError (list Z) * FrameReader :=
  match fill_to (Z.of_nat frameLenPrefixSize) f with
  | (Some err, f) => (Err err, f)
  | (None, f) =>
      let frameLen := be_get (take frameLenPrefixSize (fr_buf f)) in
      if (frameLen <=? 0) || (maxFrameSize <? frameLen) then (Err ErrFrameTooLarge, f)
      else
        let need := Z.of_nat frameLenPrefixSize + frameLen in
        match fill_to need f with
        | (Some err, f) => (Err err, f)
        | (None, f) =>
            (Ok (slice frameLenPrefixSize (Z.to_nat frameLen) (fr_buf f)),
             mkFrameReader (fr_src f) (drop (Z.to_nat need) (fr_buf f)) (fr_cap f))
        end
  end.

(** [n] calls, stopping at the first error. *)
Fixpoint ReadFrames (n : nat) (f : FrameReader) : list (list Z) * option ReadError * FrameReader :=
  match n with
  | O => ([], None, f)
  | S n' =>
      match ReadFrame f with
      | (Err err, f') => ([], Some err, f')
      | (Ok frame, f') => let '(frames, err, f'') := ReadFrames n' f' in (frame :: frames, err, f'')
      end
  end.

(** ** Lemmas *)

Definition maxCap : Z := maxFrameSize + 4.

Lemma double_to_ge fuel c t : 0 < c → t <= c * 2 ^ Z.of_nat fuel → t <= double_to fuel c t.
Proof.
  revert c. induction fuel as [|fuel IH]; intros c Hc Ht; [simpl in *; lia|]. simpl.
  destruct (Z.ltb_spec c t); [|done]. apply IH; [lia|]. rewrite Nat2Z.inj_succ, Z.pow_succ_r in Ht by lia. lia.
Qed.

Lemma grow_cap_spec c t : t <= maxCap → c <= maxCap → t <= grow_cap c t ∧ c <= grow_cap c t <= maxCap.
Proof.
  intros Ht Hc. unfold grow_cap. destruct (Z.ltb_spec c t); [|lia].
  assert (t <= double_to 24 1024 t).
  { apply double_to_ge; [lia|]. unfold maxCap, maxFrameSize in Ht. rewrite Z.shiftl_mul_pow2 in Ht by lia. lia. }
  unfold maxCap, frameLenPrefixSize in *. lia.
Qed.

(** A reader over the remaining stream [rest]. *)
Definition pending (f : FrameReader) (rest : list Z) : Prop :=
  fr_buf f ++ src_rest (fr_src f) = rest ∧ src_eager (fr_src f) = false ∧ 0 <= fr_cap f <= maxCap ∧
  Z.of_nat (length (fr_buf f)) <= Z.max (fr_cap f) 0.

Lemma Read_spec room s :
  (0 < room)%nat → src_eager s = false →
  match Read room s with
  | (bytes, eof, s') =>
      bytes ++ src_rest s' = src_rest s ∧ src_eager s' = false ∧ (length bytes <= room)%nat ∧
      if eof then src_rest s = [] ∧ bytes = [] else (length (src_rest s') < length (src_rest s))%nat
  end.
Proof.
  intros Hr He. unfold Read. destruct (src_rest s) as [|b rest] eqn:Es; [simpl; split_and!; try done; lia|].
  rewrite <- Es, He. simpl. set (k := Nat.min _ _).
  assert (0 < k <= room)%nat as Hk by (unfold k; lia).
  split_and!; [apply take_drop|done|rewrite length_take; lia|]. rewrite length_drop, Es. simpl. lia.
Qed.

Lemma read_loop_spec fuel cap target s buf :
  (length (src_rest s) < fuel)%nat → src_eager s = false → target <= cap → Z.of_nat (length buf) <= cap →
  match read_loop fuel cap target s buf with
  | (err, s', buf') =>
      buf' ++ src_rest s' = buf ++ src_rest s ∧ src_eager s' = false ∧ Z.of_nat (length buf') <= cap ∧
      match err with
      | None => target <= Z.of_nat (length buf')
      | Some e => e = EOF ∧ src_rest s' = [] ∧ Z.of_nat (length buf') < target
      end
  end.
Proof.
  revert s buf. induction fuel as [|fuel IH]; intros s buf Hf He Ht Hl; [lia|]. cbn [read_loop].
  destruct (Z.leb_spec target (Z.of_nat (length buf))); [by split_and!|].
  pose proof (Read_spec (Z.to_nat (cap - Z.of_nat (length buf))) s ltac:(lia) He) as Hr.
  destruct (Read _ s) as [[bytes eof] s']. destruct Hr as (Hb & He' & Hlb & Heof). destruct eof.
  - destruct Heof as [Hs ->]. rewrite app_nil_r. simpl in Hb. split_and!; try done; [by rewrite Hb|congruence].
  - specialize (IH s' (buf ++ bytes)). rewrite length_app in IH.
    specialize (IH ltac:(lia) He' Ht ltac:(lia)). destruct (read_loop _ _ _ _ _) as [[err s''] buf'].
    destruct IH as (H1 & H2 & H3 & H4). split_and!; try done. rewrite H1, <- (assoc_L (++)). by rewrite Hb.
Qed.

Lemma fill_to_spec target f rest :
  pending f rest → target <= maxCap →
  match fill_to target f with
  | (err, f') =>
      pending f' rest ∧
      match err with
      | None => target <= Z.of_nat (length (fr_buf f'))
      | Some e => e = EOF ∧ Z.of_nat (length rest) < target
      end
  end.
Proof.
  intros (Hp & He & Hc & Hl) Ht. unfold fill_to. destruct (Z.ltb_spec (Z.of_nat (length (fr_buf f))) target); [|by split_and!].
  unfold fill. destruct (grow_cap_spec (fr_cap f) target Ht) as [H1 H2]; [lia|]. set (cap := grow_cap _ _) in *.
  pose proof (read_loop_spec (S (length (src_rest (fr_src f)))) cap target (fr_src f) (fr_buf f)
    ltac:(lia) He H1 ltac:(lia)) as Hr.
  destruct (read_loop _ _ _ _ _) as [[err s'] buf']. destruct Hr as (R1 & R2 & R3 & R4). split.
  - split_and!; simpl; try done; try lia. by rewrite R1.
  - destruct err; [|done]. destruct R4 as (-> & Hs & Hlt). split; [done|]. rewrite <- Hp, <- R1, Hs, app_nil_r. done.
Qed.

Definition frame_ok (f : list Z) : Prop := 0 < Z.of_nat (length f) <= maxFrameSize.

Lemma prefix_len frame rest :
  frame_ok frame → be_get (take frameLenPrefixSize (LengthPrefixFrame frame ++ rest)) = Z.of_nat (length frame).
Proof.
  intros [H1 H2]. unfold LengthPrefixFrame. rewrite <- (assoc_L (++)), take_app_length' by by rewrite length_be_put.
  apply be_get_put. unfold maxFrameSize, frameLenPrefixSize in *. rewrite Z.shiftl_mul_pow2 in H2 by lia. lia.
Qed.

Lemma take_prefix {A} n (l k : list A) : (n <= length l)%nat → take n (l ++ k) = take n l.
Proof. intros. by rewrite take_app_le. Qed.

Lemma ReadFrame_spec f frame rest :
  pending f (LengthPrefixFrame frame ++ rest) → frame_ok frame →
  ∃ f', ReadFrame f = (Ok frame, f') ∧ pending f' rest.
Proof.
  intros Hp Hf. pose proof Hf as [H1 H2]. pose proof (prefix_len frame rest Hf) as Hlen.
  set (all := LengthPrefixFrame frame ++ rest) in *.
  assert (length all = 4 + length frame + length rest)%nat as Hla.
  { unfold all, LengthPrefixFrame. rewrite !length_app, length_be_put. done. }
  unfold ReadFrame. pose proof (fill_to_spec (Z.of_nat frameLenPrefixSize) f all Hp) as Hs.
  specialize (Hs ltac:(by vm_compute)).
  destruct (fill_to _ f) as [err f1]. destruct Hs as [Hp1 He1]. unfold frameLenPrefixSize in *.
  destruct err as [e|]; [destruct He1; lia|]. pose proof Hp1 as (E1 & _).
  assert (take 4 (fr_buf f1) = take 4 all) as Ht by (rewrite <- E1; symmetry; apply take_prefix; lia).
  rewrite Ht, Hlen. rewrite (proj2 (Z.leb_gt _ _)), (proj2 (Z.ltb_ge _ _)) by lia. cbn [orb]. cbv zeta.
  pose proof (fill_to_spec (Z.of_nat 4 + Z.of_nat (length frame)) f1 all Hp1) as Hs.
  specialize (Hs ltac:(unfold maxCap; lia)). destruct (fill_to _ f1) as [err f2]. destruct Hs as [Hp2 He2].
  destruct err as [e|]; [destruct He2; lia|]. pose proof Hp2 as (E2 & He & Hc & Hl).
  replace (Z.to_nat (Z.of_nat 4 + Z.of_nat (length frame))) with (4 + length frame)%nat by lia. rewrite Nat2Z.id.
  assert (slice 4 (length frame) (fr_buf f2) = frame) as ->.
  { assert (slice 4 (length frame) all = frame) as Hsl.
    { unfold all, LengthPrefixFrame. rewrite <- (assoc_L (++)), slice_app_skip by by rewrite length_be_put.
      rewrite length_be_put. by apply slice_app_here. }
    rewrite <- Hsl at 2. rewrite <- E2. unfold slice. rewrite drop_app_le, take_app_le; rewrite ?length_drop; lia || done. }
  eexists. split; [done|]. unfold pending. cbn [fr_buf fr_src fr_cap]. split_and!; try done; try lia.
  - assert (drop (4 + length frame) all = rest) as Hd.
    { unfold all, LengthPrefixFrame. apply drop_app_length'. rewrite length_app, length_be_put. done. }
    rewrite <- Hd, <- E2. rewrite drop_app_le by lia. done.
  - rewrite length_drop. lia.
Qed.

(** A strict prefix of a prefixed frame. *)
Definition torn_frame (tail : list Z) : Prop :=
  ∃ frame, frame_ok frame ∧ tail `prefix_of` LengthPrefixFrame frame ∧ tail ≠ LengthPrefixFrame frame.

Lemma ReadFrame_torn f tail : pending f tail → torn_frame tail → ∃ f', ReadFrame f = (Err EOF, f') ∧ fr_cap f' <= maxCap.
Proof.
  intros Hp (frame & Hf & [rest Hpre] & Hne).
  assert (length tail < 4 + length frame)%nat as Hlt.
  { apply (f_equal length) in Hpre as Hl. unfold LengthPrefixFrame in Hl. rewrite !length_app, length_be_put in Hl.
    unfold frameLenPrefixSize in Hl. destruct rest; [|simpl in Hl; lia]. rewrite app_nil_r in Hpre. congruence. }
  pose proof Hf as [H1 H2]. unfold ReadFrame. pose proof (fill_to_spec (Z.of_nat frameLenPrefixSize) f tail Hp) as Hs.
  specialize (Hs ltac:(by vm_compute)).
  destruct (fill_to _ f) as [err f1]. destruct Hs as [Hp1 He1]. unfold frameLenPrefixSize in *.
  destruct err as [e|]; [destruct He1 as [-> _]; eexists; split; [done|apply Hp1]|]. pose proof Hp1 as (E1 & _).
  assert (take 4 (fr_buf f1) = take 4 (LengthPrefixFrame frame ++ [])) as ->.
  { rewrite app_nil_r, Hpre, <- E1, <- (assoc_L (++)). symmetry. apply take_prefix. lia. }
  rewrite prefix_len by done. rewrite (proj2 (Z.leb_gt _ _)), (proj2 (Z.ltb_ge _ _)) by lia. cbn [orb]. cbv zeta.
  pose proof (fill_to_spec (Z.of_nat 4 + Z.of_nat (length frame)) f1 tail Hp1) as Hs.
  specialize (Hs ltac:(unfold maxCap; lia)). destruct (fill_to _ f1) as [err f2]. destruct Hs as [Hp2 He2].
  destruct err as [e|].
  - destruct He2 as [-> _]. eexists. split; [done|apply Hp2].
  - destruct Hp2 as (E2 & _). rewrite <- E2, length_app in Hlt. lia.
Qed.

(** ** Properties *)

(** The reassembler recovers the frames: however the transport cuts the
    stream into reads, and whatever strict prefix of one more frame ends it,
    repeated ReadFrame returns exactly the frames that were prefixed, in order,
    then the end of the stream, and its buffer never grows past 16 MiB and four
    bytes. *)
Theorem frame_reader_reassembles (frames : list (list Z)) (tail : list Z) (sizes : list nat) :
  Forall frame_ok frames → torn_frame tail →
  let s := mkSource (concat (map LengthPrefixFrame frames) ++ tail) sizes false in
  ∃ f, ReadFrames (S (length frames)) (NewFrameReader s) = (frames, Some EOF, f) ∧ fr_cap f <= 2 ^ 24 + 4.
Proof.
  intros Hf Ht s. assert (pending (NewFrameReader s) (concat (map LengthPrefixFrame frames) ++ tail)) as Hp.
  { split_and!; try done; by vm_compute. }
  revert Hp. generalize (NewFrameReader s). clear s. induction Hf as [|frame frames Hok _ IH]; intros f Hp.
  - destruct (ReadFrame_torn f tail Hp Ht) as (f' & Hr & Hc). exists f'. simpl. rewrite Hr. split; [done|].
    unfold maxCap, maxFrameSize in Hc. by rewrite Z.shiftl_mul_pow2 in Hc by lia.
  - cbn [map concat] in Hp. rewrite <- (assoc_L (++)) in Hp.
    destruct (ReadFrame_spec f frame _ Hp Hok) as (f' & Hr & Hp'). destruct (IH f' Hp') as (f'' & Hrs & Hc).
    exists f''. cbn [length]. cbn [ReadFrames] in *. by rewrite Hr, Hrs.
Qed.

Lemma frame_reader_reassembles_witness :
  ∃ f, ReadFrames 3 (NewFrameReader (mkSource (concat (map LengthPrefixFrame [[1; 2]; [3]]) ++ [0; 0]) [1; 3; 2]%nat false)) =
    ([[1; 2]; [3]], Some EOF, f) ∧ fr_cap f <= 2 ^ 24 + 4.
Proof.
  apply (frame_reader_reassembles [[1; 2]; [3]] [0; 0] [1; 3; 2]%nat).
  - by repeat constructor.
  - exists [7]. split_and!; [done|by exists [0; 1; 7]|done].
Defined.

(** A Read that returns io.EOF together with the last bytes makes ReadFrame
    report the end of the stream although the frame is complete in the buffer. *)
Example eager_eof_hides_frame :
  (ReadFrame (NewFrameReader (mkSource (LengthPrefixFrame [1; 2]) [] true))).1 = Err EOF.
Proof. reflexivity. Qed.
