(* ===== verification/Admission.v ===== *)
(** The per-peer rate gate of pkg/admission/ewma.go: a sharded map from public
    keys to a high-water mark and a budget. *)
From S2P Require Import Prelude Bytes Lamport.

Definition PeerBucketKey : Type := list Z.
Definition initialBudget : Z := 2 ^ 20.
Definition shardCount : nat := 16.

Inductive FrameDecision := Keep | Drop.

#[global] Instance FrameDecision_eq_dec : EqDecision FrameDecision.
Proof. solve_decision. Defined.

Record PeerEWMA := mkPeer { pe_rate : f64; pe_budget : Z; pe_lastCounter : Z }.

(** One map per shard, each behind its mutex. *)
Record PeerBucket := mkBucket { pb_shards : list (gmap PeerBucketKey PeerEWMA) }.

Definition NewPeerBucket : PeerBucket := mkBucket (replicate shardCount ∅).

Definition shardIndex (k : PeerBucketKey) : nat := Z.to_nat (Z.land (nth 0 k 0) 15).

Definition bucket_get (k : PeerBucketKey) (b : PeerBucket) : option PeerEWMA :=
  pb_shards b !! shardIndex k ≫= (.!! k).

Definition bucket_set (k : PeerBucketKey) (p : PeerEWMA) (b : PeerBucket) : PeerBucket :=
  mkBucket (alter (insert k p) (shardIndex k) (pb_shards b)).

(** alpha*prev + (1-alpha)*float64(delta). *)
Definition next_rate (prev : f64) (delta : Z) : f64 :=
  f64_add (f64_mul f64_0_1 prev) (f64_mul f64_0_9 (f64_of_Z delta)).

Definition Accept (pub : list Z) (counter : Z) (b : PeerBucket) : FrameDecision * PeerBucket :=
  if negb (length pub =? 32)%nat then (Drop, b)
  else
    let peer := default (mkPeer f64_zero initialBudget 0) (bucket_get pub b) in
    let b := bucket_set pub peer b in
    let prev := pe_lastCounter peer in
    let delta := if prev <? counter then counter - prev else 0 in
    if delta =? 0 then (Keep, b)
    else
      let rate := next_rate (pe_rate peer) delta in
      if pe_budget peer <=? delta then (Drop, bucket_set pub (mkPeer rate (pe_budget peer) prev) b)
      else (Keep, bucket_set pub (mkPeer rate (pe_budget peer - delta) counter) b).

Definition Budget (pub : list Z) (b : PeerBucket) : Z :=
  if negb (length pub =? 32)%nat then 0
  else match bucket_get pub b with Some p => pe_budget p | None => 0 end.

Definition Rate (pub : list Z) (b : PeerBucket) : f64 :=
  if negb (length pub =? 32)%nat then f64_zero
  else match bucket_get pub b with Some p => pe_rate p | None => f64_zero end.

(** A run of Accept calls. *)
Definition accept_all (calls : list (list Z * Z)) (b : PeerBucket) : PeerBucket :=
  foldl (λ b c, (Accept c.1 c.2 b).2) b calls.

(** ** Lemmas *)

Lemma shardIndex_lt k : (shardIndex k < shardCount)%nat.
Proof.
  unfold shardIndex, shardCount. change 15 with (Z.ones 4). rewrite Z.land_ones by lia.
  pose proof (Z.mod_pos_bound (nth 0 k 0) (2 ^ 4) ltac:(lia)). lia.
Qed.

Definition bucket_wf (b : PeerBucket) : Prop := length (pb_shards b) = shardCount.

Lemma bucket_get_set b k k' p :
  bucket_wf b → bucket_get k' (bucket_set k p b) = if decide (k' = k) then Some p else bucket_get k' b.
Proof.
  intros Hwf. unfold bucket_get, bucket_set. simpl.
  destruct (lookup_lt_is_Some_2 (pb_shards b) (shardIndex k)) as [m Hm]; [rewrite Hwf; apply shardIndex_lt|].
  destruct (decide (k' = k)) as [->|Hne].
  - rewrite list_lookup_alter_eq, Hm. simpl. apply lookup_insert_eq.
  - destruct (decide (shardIndex k' = shardIndex k)) as [E|E].
    + rewrite E, list_lookup_alter_eq, Hm. simpl. by apply lookup_insert_ne.
    + by rewrite list_lookup_alter_ne.
Qed.

Lemma bucket_wf_set b k p : bucket_wf b → bucket_wf (bucket_set k p b).
Proof. unfold bucket_wf, bucket_set. simpl. by rewrite length_alter. Qed.

(** Each peer's mark and budget add up to the initial budget. *)
Definition peer_ok (p : PeerEWMA) : Prop :=
  0 <= pe_lastCounter p ∧ 0 < pe_budget p ∧ pe_lastCounter p + pe_budget p = initialBudget.

Definition bucket_ok (b : PeerBucket) : Prop :=
  bucket_wf b ∧ ∀ k p, bucket_get k b = Some p → peer_ok p.

Lemma NewPeerBucket_ok : bucket_ok NewPeerBucket.
Proof.
  split; [done|]. intros k p. unfold bucket_get.
  change (pb_shards NewPeerBucket) with (replicate shardCount (∅ : gmap PeerBucketKey PeerEWMA)).
  rewrite lookup_replicate_2 by apply shardIndex_lt. simpl. by rewrite lookup_empty.
Qed.

Lemma bucket_ok_set b k p : bucket_ok b → peer_ok p → bucket_ok (bucket_set k p b).
Proof.
  intros [Hwf Hp] Hpk. split; [by apply bucket_wf_set|]. intros k' p'. rewrite bucket_get_set by done.
  case_decide; [by intros [= <-]|apply Hp].
Qed.

Lemma default_peer_ok b k : bucket_ok b → peer_ok (default (mkPeer f64_zero initialBudget 0) (bucket_get k b)).
Proof.
  intros [_ Hp]. destruct (bucket_get k b) eqn:E; [by eapply Hp|]. by vm_compute.
Qed.

(** One call: the decision, the invariant, and the peers it leaves alone. *)
Lemma Accept_spec pub counter b :
  bucket_ok b → 0 <= counter →
  ((Accept pub counter b).1 = Keep ↔ length pub = 32%nat ∧ counter < initialBudget) ∧
  bucket_ok (Accept pub counter b).2 ∧
  ∀ k, k ≠ pub → bucket_get k (Accept pub counter b).2 = bucket_get k b.
Proof.
  intros Hb Hc. unfold Accept. destruct (Nat.eqb_spec (length pub) 32) as [Hl|Hl]; simpl negb; cbv iota.
  2: { split_and!; [split; [done|by intros [? _]]|done|done]. }
  pose proof (default_peer_ok b pub Hb) as Hp. set (peer := default _ _) in *.
  pose proof Hp as (H1 & H2 & H3). cbv zeta. pose proof Hb as [Hwf _].
  assert (∀ q k, k ≠ pub → bucket_get k (bucket_set pub q (bucket_set pub peer b)) = bucket_get k b) as Hother.
  { intros q k Hk. rewrite !bucket_get_set by (done || by apply bucket_wf_set). by rewrite decide_False, decide_False. }
  destruct (Z.ltb_spec (pe_lastCounter peer) counter) as [Hlt|Hle].
  - rewrite (proj2 (Z.eqb_neq _ _)) by lia. destruct (Z.leb_spec (pe_budget peer) (counter - pe_lastCounter peer)); simpl.
    + split_and!; [split; [done|]; intros [_ ?]; lia| |by apply Hother].
      apply bucket_ok_set; [by apply bucket_ok_set|done].
    + split_and!; [split; [|done]; intros _; split; [done|lia]| |by apply Hother].
      apply bucket_ok_set; [by apply bucket_ok_set|]. unfold peer_ok. simpl. lia.
  - simpl. split_and!; [split; [|done]; intros _; split; [done|lia]|by apply bucket_ok_set|].
    intros k Hk. rewrite bucket_get_set by done. by rewrite decide_False.
Qed.

Lemma accept_all_ok calls b :
  bucket_ok b → Forall (λ c : list Z * Z, 0 <= c.2) calls → bucket_ok (accept_all calls b).
Proof.
  intros Hb Hf. revert b Hb. induction Hf as [|c calls Hc _ IH]; intros b Hb; [done|].
  apply IH. by apply Accept_spec.
Qed.

(** ** Properties *)

(** The rate gate is a fixed ceiling: whatever calls came before, Accept keeps
    a frame exactly when the key has 32 bytes and the counter is below 2^20.
    Neither the rate nor the history matters, there is no refill, and from 2^20
    on every counter of every peer is dropped for ever.  A call never touches
    another peer's budget. *)
Theorem rate_gate_is_fixed_ceiling (calls : list (list Z * Z)) (pub : list Z) (counter : Z) :
  Forall (λ c : list Z * Z, 0 <= c.2) calls → 0 <= counter →
  let b := accept_all calls NewPeerBucket in
  ((Accept pub counter b).1 = Keep ↔ length pub = 32%nat ∧ counter < 2 ^ 20) ∧
  ∀ k, k ≠ pub → Budget k (Accept pub counter b).2 = Budget k b.
Proof.
  intros Hf Hc b. pose proof (accept_all_ok calls NewPeerBucket NewPeerBucket_ok Hf) as Hb.
  destruct (Accept_spec pub counter b Hb Hc) as (H1 & _ & H3). split; [exact H1|].
  intros k Hk. unfold Budget. by rewrite H3.
Qed.

Lemma rate_gate_is_fixed_ceiling_witness :
  (Accept (replicate 32 7) (2 ^ 20) (accept_all [(replicate 32 7, 5); (replicate 32 7, 3)] NewPeerBucket)).1 = Keep ↔
  length (replicate 32 7) = 32%nat ∧ 2 ^ 20 < 2 ^ 20.
Proof.
  apply (rate_gate_is_fixed_ceiling [(replicate 32 7, 5); (replicate 32 7, 3)]); [|lia].
  by repeat constructor.
Defined.
