(* ===== verification/Identity.v ===== *)
(** pkg/identity: the directory of public keys and the verification routines.
    Ed25519, the Edwards curve, ML-DSA-65 and SHAKE256 come from third-party
    packages: they are the class [Crypto]. *)
From S2P Require Import Prelude Bytes.

Class Crypto := {
  (* filippo.io/edwards25519 *)
  edPoint : Type;
  SetBytes : list Z → option edPoint;
  MultByCofactor : edPoint → edPoint;
  IdentityPoint : edPoint;
  PointEqual : edPoint → edPoint → bool;
  (* github.com/cloudflare/circl/sign/ed25519 *)
  ed25519_Verify : list Z → list Z → list Z → bool;
  ed25519_Sign : list Z → list Z → list Z;
  (* filippo.io/mldsa; the boolean says the error is nil *)
  mldsaPublicKey : Type;
  mldsa_Verify : mldsaPublicKey → list Z → list Z → string → bool;
  (* golang.org/x/crypto/sha3: Shake256, [n] bytes read *)
  Shake256 : nat → list Z → list Z;
}.

Definition ed25519_PublicKeySize : nat := 32.
Definition hybridFrameSize : nat := 120.

Inductive DirectoryError := ErrDirectoryBadPubKey | ErrDirectoryBadPQPubKey.

Section Identity.
Context `{CR : Crypto}.

(** ** The directory *)

Record Directory := mkDirectory {
  dir_m : gmap (list Z) (list Z);
  dir_mPQ : gmap (list Z) mldsaPublicKey;
}.

Definition NewDirectory : Directory := mkDirectory ∅ ∅.

Definition Register (nodeID pub : list Z) (d : Directory) : option DirectoryError * Directory :=
  if negb (length pub =? ed25519_PublicKeySize)%nat then (Some ErrDirectoryBadPubKey, d)
  else (None, mkDirectory (<[nodeID := pub]> (dir_m d)) (dir_mPQ d)).

Definition Lookup (nodeID : list Z) (d : Directory) : option (list Z) := dir_m d !! nodeID.

(** [None] is the nil key. *)
Definition RegisterPQ (nodeID : list Z) (pqPub : option mldsaPublicKey) (d : Directory) :
    option DirectoryError * Directory :=
  match pqPub with
  | None => (Some ErrDirectoryBadPQPubKey, d)
  | Some k => (None, mkDirectory (dir_m d) (<[nodeID := k]> (dir_mPQ d)))
  end.

(** The flag of the Go result is that of the Ed25519 map. *)
Definition LookupBoth (nodeID : list Z) (d : Directory) : option (list Z * option mldsaPublicKey) :=
  match dir_m d !! nodeID with Some pub => Some (pub, dir_mPQ d !! nodeID) | None => None end.

Definition Directory_Len (d : Directory) : nat := size (dir_m d).

(** ** Verification *)

(** False: the key is rejected. *)
Definition RejectSmallOrderKey (pub : list Z) : bool :=
  if negb (length pub =? ed25519_PublicKeySize)%nat then false
  else match SetBytes pub with
       | None => false
       | Some P => negb (PointEqual (MultByCofactor P) IdentityPoint)
       end.

Definition VerifyCRDTFrame (pub msg sig : list Z) : bool :=
  if negb (RejectSmallOrderKey pub) then false else ed25519_Verify pub msg sig.

(** True: no error. *)
Definition VerifyCRDTFrame_PostQuantum (pk : option mldsaPublicKey) (frame sig : list Z) (ctx : string) : bool :=
  match pk with None => false | Some k => mldsa_Verify k frame sig ctx end.

Definition VerifyCRDTFrame_Hybrid (edPub : list Z) (pqPub : option mldsaPublicKey) (msg edSig pqSig : list Z)
    (ctx : string) : bool :=
  if negb (VerifyCRDTFrame edPub msg edSig) then false
  else match pqPub with
       | None => false
       | Some _ =>
           if negb (length msg =? hybridFrameSize)%nat then false
           else VerifyCRDTFrame_PostQuantum pqPub msg pqSig ctx
       end.

Definition HashBatchWireToFrame120 (batchWire : list Z) : list Z := Shake256 hybridFrameSize batchWire.

Definition VerifyBatchHybrid (edPub : list Z) (pqPub : option mldsaPublicKey) (batchWire edSig pqSig : list Z)
    (ctx : string) : bool :=
  if (length batchWire =? 0)%nat then false
  else VerifyCRDTFrame_Hybrid edPub pqPub (HashBatchWireToFrame120 batchWire) edSig pqSig ctx.

(** ** Lemmas *)

Lemma VerifyCRDTFrame_true pub msg sig :
  VerifyCRDTFrame pub msg sig = true ↔ RejectSmallOrderKey pub = true ∧ ed25519_Verify pub msg sig = true.
Proof. unfold VerifyCRDTFrame. destruct (RejectSmallOrderKey pub); simpl; naive_solver. Qed.

(** Without a post-quantum key the hybrid verification never succeeds. *)
Lemma hybrid_needs_pq edPub msg edSig pqSig ctx : VerifyCRDTFrame_Hybrid edPub None msg edSig pqSig ctx = false.
Proof. unfold VerifyCRDTFrame_Hybrid. by destruct (VerifyCRDTFrame _ _ _). Qed.

(** What a hybrid batch signature attests: both signatures, over one pad. *)
Lemma VerifyBatchHybrid_true edPub pqPub w edSig pqSig ctx :
  VerifyBatchHybrid edPub pqPub w edSig pqSig ctx = true →
  ∃ k, pqPub = Some k ∧ w ≠ [] ∧ VerifyCRDTFrame edPub (HashBatchWireToFrame120 w) edSig = true ∧
    mldsa_Verify k (HashBatchWireToFrame120 w) pqSig ctx = true.
Proof.
  unfold VerifyBatchHybrid, VerifyCRDTFrame_Hybrid. destruct (Nat.eqb_spec (length w) 0) as [|Hw]; [done|].
  destruct (VerifyCRDTFrame _ _ _) eqn:E; [|done]. simpl. destruct pqPub as [k|]; [|done].
  destruct (negb _); [done|]. simpl. intros H. exists k. split_and!; [done| |done|done]. by intros ->.
Qed.

Lemma Lookup_Register nodeID pub d d' :
  Register nodeID pub d = (None, d') → Lookup nodeID d' = Some pub ∧
  ∀ other, other ≠ nodeID → Lookup other d' = Lookup other d.
Proof.
  unfold Register. destruct (negb _); [done|]. intros [= <-]. unfold Lookup. simpl.
  split; [apply lookup_insert_eq|]. intros other Hne. by apply lookup_insert_ne.
Qed.
End Identity.
