(* ===== verification/Hedge.v ===== *)
(** Signing (pkg/identity/eddsa_hedge.go, hybrid_sign.go, pq_mldsa.go) and the
    node identities of pkg/mesh/peer.go.  The arithmetic of filippo.io/edwards25519,
    circl's key derivation and filippo.io/mldsa are the class [Signer];
    [SignerLaws] states the documented algebra: the group, its base point of
    prime order, RFC 8032's verification equation. *)
From S2P Require Import Prelude Bytes Sha256 Sha512 Identity.

Class Signer (CR : Crypto) := {
  Scalar : Type;
  SetUniformBytes : list Z → option Scalar;
  SetBytesWithClamping : list Z → option Scalar;
  MultiplyAdd : Scalar → Scalar → Scalar → Scalar;
  Scalar_Bytes : Scalar → list Z;
  ScalarBaseMult : Scalar → edPoint;
  Point_Bytes : edPoint → list Z;
  (* circl: NewKeyFromSeed(seed).Public() *)
  PublicFromSeed : list Z → list Z;
  mldsaPrivateKey : Type;
  mldsa_NewPrivateKey : list Z → option mldsaPrivateKey;
  mldsa_PublicKey : mldsaPrivateKey → mldsaPublicKey;
  (* the random bytes the signer reads, message, context *)
  mldsa_Sign : mldsaPrivateKey → list Z → list Z → string → option (list Z);
}.

Definition SeedSize : nat := 32.
Definition SignatureSize : nat := 64.
Definition MLDSA65SignatureSize : nat := 3309.
Definition MLDSA_PrivateKeySize : nat := 32.

Inductive SignError :=
| ErrHedgeSign
| ErrHybridSignBadSeed
| ErrHybridSignNilPQSk
| ErrHybridSignNilBatchWire
| ErrHybridEd (err : SignError)
| ErrHybridPQ (err : SignError)
| ErrPQNilKey
| ErrPQSign
| ErrPQSize
| ErrPQSeed
| ErrIdentitySeed.

(** A Go call whose second result is an error. *)
Definition or_err {A} (err : SignError) (o : option A) : result SignError A :=
  match o with Some a => Ok a | None => Err err end.

Section Hedge.
Context `{CR : Crypto} `{SG : !Signer CR}.

(** [rnd]: what rand.Read delivers, [None] when it fails. *)
Definition SignCRDTFrame (rnd : option (list Z)) (seed msg : list Z) : result SignError (list Z) :=
  if negb (length seed =? SeedSize)%nat then Err ErrHedgeSign
  else
    let pub := PublicFromSeed seed in
    _ ← or_err ErrHedgeSign (SetBytes pub);
    rnd ← or_err ErrHedgeSign rnd;
    let rHash := Sum512 (rnd ++ msg) in
    r ← or_err ErrHedgeSign (SetUniformBytes rHash);
    let RBytes := Point_Bytes (ScalarBaseMult r) in
    let kHash := Sum512 (RBytes ++ pub ++ msg) in
    k ← or_err ErrHedgeSign (SetUniformBytes kHash);
    let seedHash := Sum512 seed in
    a ← or_err ErrHedgeSign (SetBytesWithClamping (take 32 seedHash));
    let s := MultiplyAdd k a r in
    Ok (RBytes ++ Scalar_Bytes s).

(** [None] is the nil key. *)
Definition SignCRDTFrame_PostQuantum (rnd : list Z) (sk : option mldsaPrivateKey) (frame : list Z) (ctx : string) :
    result SignError (list Z) :=
  sk ← or_err ErrPQNilKey sk;
  sig ← or_err ErrPQSign (mldsa_Sign sk rnd frame ctx);
  if negb (length sig =? MLDSA65SignatureSize)%nat then Err ErrPQSize else Ok sig.

Definition wrap_err {A} (c : SignError → SignError) (r : result SignError A) : result SignError A :=
  match r with Ok a => Ok a | Err err => Err (c err) end.

Definition SignCRDTFrame_Hybrid (rnd : option (list Z)) (pqRnd edSeed : list Z) (pqSk : option mldsaPrivateKey)
    (batchWire : list Z) (ctx : string) : result SignError (list Z * list Z) :=
  if negb (length edSeed =? SeedSize)%nat then Err ErrHybridSignBadSeed
  else match pqSk with
       | None => Err ErrHybridSignNilPQSk
       | Some _ =>
           if (length batchWire =? 0)%nat then Err ErrHybridSignNilBatchWire
           else
             let pad := HashBatchWireToFrame120 batchWire in
             edSig ← wrap_err ErrHybridEd (SignCRDTFrame rnd edSeed pad);
             pqSig ← wrap_err ErrHybridPQ (SignCRDTFrame_PostQuantum pqRnd pqSk pad ctx);
             Ok (edSig, pqSig)
       end.

Definition GeneratePreviewKey65 (seed : list Z) : result SignError mldsaPrivateKey :=
  if negb (length seed =? MLDSA_PrivateKeySize)%nat then Err ErrPQSeed else or_err ErrPQSeed (mldsa_NewPrivateKey seed).

(** ** Node identities (pkg/mesh/peer.go) *)

Record NodeIdentity := mkIdentity {
  ni_NodeID : list Z;
  ni_Seed : list Z;
  ni_Pub : list Z;
  ni_PQPriv : option mldsaPrivateKey;
  ni_PQPub : option mldsaPublicKey;
}.

Definition NewNodeIdentity (seed : list Z) : result SignError NodeIdentity :=
  if negb (length seed =? SeedSize)%nat then Err ErrIdentitySeed
  else
    let pub := PublicFromSeed seed in
    Ok (mkIdentity (take 16 pub) seed pub None None).

Definition NewNodeIdentityHybrid (seed : list Z) : result SignError NodeIdentity :=
  ni ← NewNodeIdentity seed;
  pqPriv ← GeneratePreviewKey65 seed;
  Ok (mkIdentity (ni_NodeID ni) (ni_Seed ni) (ni_Pub ni) (Some pqPriv) (Some (mldsa_PublicKey pqPriv))).
End Hedge.

(** ** The algebra *)

(** The order of the base point. *)
Definition order_L : Z := 2 ^ 252 + 27742317777372353535851937790883648493.

(** SetBytesWithClamping: the three lowest bits and the highest cleared, the
    second highest set. *)
Definition clamp (x : Z) : Z := 8 * ((x / 8) `mod` 2 ^ 251) + 2 ^ 254.

Class SignerLaws {CR : Crypto} (SG : Signer CR) := {
  (* the group of points, written additively *)
  edAdd : edPoint → edPoint → edPoint;
  edMul : Z → edPoint → edPoint;
  basePoint : edPoint;
  edMul_add m n P : edMul (m + n) P = edAdd (edMul m P) (edMul n P);
  edMul_mul m n P : edMul (m * n) P = edMul m (edMul n P);
  base_order n : edMul n basePoint = IdentityPoint ↔ (order_L | n);
  base_mod n : edMul (n `mod` order_L) basePoint = edMul n basePoint;
  MultByCofactor_8 P : MultByCofactor P = edMul 8 P;
  PointEqual_eq P Q : PointEqual P Q = true ↔ P = Q;
  (* scalars are residues *)
  sc : Scalar → Z;
  uniform_bytes b : length b = 64%nat → ∃ x, SetUniformBytes b = Some x ∧ sc x = le_get b `mod` order_L;
  clamped_bytes b : length b = 32%nat → ∃ x, SetBytesWithClamping b = Some x ∧ sc x = clamp (le_get b) `mod` order_L;
  multiply_add x y z : sc (MultiplyAdd x y z) = (sc x * sc y + sc z) `mod` order_L;
  base_mult x : ScalarBaseMult x = edMul (sc x) basePoint;
  length_scalar_bytes x : length (Scalar_Bytes x) = 32%nat;
  length_point_bytes P : length (Point_Bytes P) = 32%nat;
  decode_encode P : SetBytes (Point_Bytes P) = Some P;
  (* the zero string encodes a point of order four *)
  base_not_zero x : Point_Bytes (ScalarBaseMult x) ≠ replicate 32 0;
  (* RFC 8032, 5.1.5: the public key of a seed *)
  public_of_seed seed a : length seed = 32%nat → SetBytesWithClamping (take 32 (Sum512 seed)) = Some a →
    PublicFromSeed seed = Point_Bytes (ScalarBaseMult a);
  (* RFC 8032, 5.1.7: accepted when the equation holds *)
  verify_equation pub A Rb R k s msg :
    SetBytes pub = Some A → SetBytes Rb = Some R → length pub = 32%nat → length Rb = 32%nat →
    SetUniformBytes (Sum512 (Rb ++ pub ++ msg)) = Some k →
    edMul (sc s) basePoint = edAdd R (edMul (sc k) A) → ed25519_Verify pub msg (Rb ++ Scalar_Bytes s) = true;
  (* FIPS 204 *)
  mldsa_complete sk rnd msg ctx sig : mldsa_Sign sk rnd msg ctx = Some sig →
    length sig = MLDSA65SignatureSize ∧ mldsa_Verify (mldsa_PublicKey sk) msg sig ctx = true;
}.

Lemma order_odd : Z.gcd order_L 64 = 1.
Proof. vm_compute. reflexivity. Qed.

(** The secret scalar of a seed is no multiple of the order, even times eight. *)
Lemma clamp_not_multiple x : ¬ (order_L | 8 * clamp x).
Proof.
  intros Hd. unfold clamp in Hd. set (m := (x / 8) `mod` 2 ^ 251) in *.
  pose proof (Z.mod_pos_bound (x / 8) (2 ^ 251) ltac:(lia)) as Hm. fold m in Hm.
  replace (8 * (8 * m + 2 ^ 254)) with (64 * (m + 2 ^ 251)) in Hd by lia.
  apply Z.gauss in Hd; [|apply order_odd]. apply Z.divide_pos_le in Hd; [|lia].
  unfold order_L in Hd. lia.
Qed.

Section Laws.
Context {CR : Crypto} {SG : Signer CR} {SL : SignerLaws SG}.

(** The scalars one call of SignCRDTFrame computes. *)
Record signing (rnd seed msg : list Z) (r k a : Scalar) : Prop := {
  sg_r : SetUniformBytes (Sum512 (rnd ++ msg)) = Some r;
  sg_a : SetBytesWithClamping (take 32 (Sum512 seed)) = Some a;
  sg_pub : PublicFromSeed seed = Point_Bytes (ScalarBaseMult a);
  sg_k : SetUniformBytes (Sum512 (Point_Bytes (ScalarBaseMult r) ++ PublicFromSeed seed ++ msg)) = Some k;
  sg_ra : sc r = le_get (Sum512 (rnd ++ msg)) `mod` order_L;
  sg_clamped : sc a = clamp (le_get (take 32 (Sum512 seed))) `mod` order_L;
  sg_sig : SignCRDTFrame (Some rnd) seed msg =
    Ok (Point_Bytes (ScalarBaseMult r) ++ Scalar_Bytes (MultiplyAdd k a r));
}.

Lemma sign_signing rnd seed msg : length seed = 32%nat → ∃ r k a, signing rnd seed msg r k a.
Proof.
  intros Hs. destruct (uniform_bytes (Sum512 (rnd ++ msg)) (length_Sum512 _)) as (r & Hr & Hsr).
  destruct (clamped_bytes (take 32 (Sum512 seed))) as (a & Ha & Hsa).
  { rewrite length_take, length_Sum512. done. }
  pose proof (public_of_seed seed a Hs Ha) as Hp.
  destruct (uniform_bytes (Sum512 (Point_Bytes (ScalarBaseMult r) ++ PublicFromSeed seed ++ msg)) (length_Sum512 _))
    as (k & Hk & _).
  exists r, k, a. split; try done. unfold SignCRDTFrame. rewrite Hs, Nat.eqb_refl. simpl negb. cbv iota zeta.
  rewrite Hp, decode_encode. simpl. rewrite Hr. simpl. rewrite <- Hp, Hk. simpl. rewrite Ha. done.
Qed.

(** A derived key passes the small-order check. *)
Lemma derived_key_ok seed : length seed = 32%nat → RejectSmallOrderKey (PublicFromSeed seed) = true ∧
  length (PublicFromSeed seed) = 32%nat.
Proof.
  intros Hs. destruct (sign_signing [] seed [] Hs) as (r & k & a & [_ _ Hp _ _ Hc _]).
  assert (length (PublicFromSeed seed) = 32%nat) as Hl by (rewrite Hp; apply length_point_bytes).
  split; [|done]. unfold RejectSmallOrderKey. rewrite Hl. simpl. rewrite Hp, decode_encode.
  destruct (PointEqual _ _) eqn:E; [|done]. apply PointEqual_eq in E. exfalso.
  rewrite MultByCofactor_8, base_mult, Hc, base_mod, <- edMul_mul, base_order in E. by apply clamp_not_multiple in E.
Qed.

Lemma sign_verifies rnd seed msg :
  length seed = 32%nat →
  ∃ sig, SignCRDTFrame (Some rnd) seed msg = Ok sig ∧ length sig = 64%nat ∧ sig ≠ replicate 64 0 ∧
    VerifyCRDTFrame (PublicFromSeed seed) msg sig = true.
Proof.
  intros Hs. destruct (sign_signing rnd seed msg Hs) as (r & k & a & [Hr Ha Hp Hk Hsr Hc Hsig]).
  destruct (derived_key_ok seed Hs) as [Hok Hl]. eexists. split; [exact Hsig|]. split_and!.
  - by rewrite length_app, length_point_bytes, length_scalar_bytes.
  - intros Hz. change (replicate 64 0) with (replicate 32 0 ++ replicate 32 0 : list Z) in Hz.
    apply app_inj_1 in Hz as [Hz _]; [by apply base_not_zero in Hz|by rewrite length_point_bytes].
  - apply VerifyCRDTFrame_true. split; [done|].
    apply (verify_equation _ (ScalarBaseMult a) _ (ScalarBaseMult r) k); try done.
    + by rewrite Hp, decode_encode.
    + apply decode_encode.
    + apply length_point_bytes.
    + rewrite !base_mult, multiply_add, base_mod, Z.add_comm, edMul_add, edMul_mul. done.
Qed.

(** What a node signs, every node accepts: with working randomness, signing
    under a 32-byte seed succeeds, gives 64 bytes that are not all zero, and the
    result passes VerifyCRDTFrame under the key derived from the seed, small-order
    check included; a hybrid signature passes VerifyBatchHybrid whenever the ML-DSA
    signer returns one. *)
Theorem signed_frame_verifies (rnd pqRnd seed msg : list Z) (sk : mldsaPrivateKey) (ctx : string) :
  length seed = 32%nat →
  (∃ sig, SignCRDTFrame (Some rnd) seed msg = Ok sig ∧ length sig = 64%nat ∧ sig ≠ replicate 64 0 ∧
     VerifyCRDTFrame (PublicFromSeed seed) msg sig = true) ∧
  (msg ≠ [] → (∀ w, length (Shake256 hybridFrameSize w) = hybridFrameSize) →
   mldsa_Sign sk pqRnd (HashBatchWireToFrame120 msg) ctx ≠ None →
   ∃ edSig pqSig, SignCRDTFrame_Hybrid (Some rnd) pqRnd seed (Some sk) msg ctx = Ok (edSig, pqSig) ∧
     VerifyBatchHybrid (PublicFromSeed seed) (Some (mldsa_PublicKey sk)) msg edSig pqSig ctx = true).
Proof.
  intros Hs. split; [by apply sign_verifies|]. intros Hm Hpad Hpq.
  destruct (mldsa_Sign _ _ _ _) as [pqSig|] eqn:Hq; [|done]. destruct (mldsa_complete _ _ _ _ _ Hq) as [Hl Hv].
  destruct (sign_verifies rnd seed (HashBatchWireToFrame120 msg) Hs) as (edSig & He & _ & _ & Hev).
  exists edSig, pqSig. unfold SignCRDTFrame_Hybrid, VerifyBatchHybrid, VerifyCRDTFrame_Hybrid.
  rewrite Hs, Nat.eqb_refl. assert ((length msg =? 0)%nat = false) as -> by (by destruct msg).
  simpl negb. cbv iota zeta. rewrite He, Hev. unfold SignCRDTFrame_PostQuantum, or_err. cbn [mbind result_bind wrap_err].
  rewrite Hq. cbn [mbind result_bind wrap_err]. rewrite Hl. split; [done|].
  unfold HashBatchWireToFrame120 at 1. rewrite Hpad. exact Hv.
Qed.

(** The nonce is only as secret as the random bytes: it is the hash of the
    randomness and the message and does not contain the key's secret prefix, so
    whoever knows or guesses the 64 random bytes of one signature computes the
    nonce, and from it the secret scalar. *)
Theorem known_randomness_reveals_key (rnd seed msg : list Z) (kinv : Z) :
  length seed = 32%nat →
  ∃ r k s a, SetUniformBytes (Sum512 (rnd ++ msg)) = Some r ∧
    SetUniformBytes (Sum512 (Point_Bytes (ScalarBaseMult r) ++ PublicFromSeed seed ++ msg)) = Some k ∧
    SignCRDTFrame (Some rnd) seed msg = Ok (Point_Bytes (ScalarBaseMult r) ++ Scalar_Bytes s) ∧
    SetBytesWithClamping (take 32 (Sum512 seed)) = Some a ∧
    ((sc k * kinv) `mod` order_L = 1 → sc a = ((sc s - sc r) * kinv) `mod` order_L).
Proof.
  intros Hs. destruct (sign_signing rnd seed msg Hs) as (r & k & a & [Hr Ha Hp Hk Hsr Hc Hsig]).
  exists r, k, (MultiplyAdd k a r), a. split_and!; try done. intros Hinv. rewrite multiply_add.
  assert (sc a = sc a `mod` order_L) as -> by (rewrite Hc; by rewrite Z.mod_mod).
  rewrite Z.mul_mod, Zminus_mod_idemp_l, <- Z.mul_mod by done.
  replace ((sc k * (sc a `mod` order_L) + sc r - sc r) * kinv) with ((sc k * kinv) * (sc a `mod` order_L)) by lia.
  rewrite Z.mul_mod, Hinv, Z.mul_1_l, !Z.mod_mod by done. done.
Qed.
End Laws.

(** ** An instance: the integers modulo the order, each point encoded as itself *)

Definition enc32 (x : Z) : list Z := (x + 1) :: replicate 31 0.
Definition dec32 (b : list Z) : option Z :=
  match b with x :: b' => if bool_decide (b' = replicate 31 0) then Some (x - 1) else None | [] => None end.
Definition uniform (b : list Z) : option Z :=
  if (length b =? 64)%nat then Some (le_get b `mod` order_L) else None.
Definition clamped (b : list Z) : option Z :=
  if (length b =? 32)%nat then Some (clamp (le_get b) `mod` order_L) else None.

Definition mod_verify (pub msg sig : list Z) : bool :=
  match dec32 pub, dec32 (take 32 sig), dec32 (drop 32 sig), uniform (Sum512 (take 32 sig ++ pub ++ msg)) with
  | Some A, Some R, Some s, Some k => s `mod` order_L =? (R + (k * A) `mod` order_L) `mod` order_L
  | _, _, _, _ => false
  end.

Definition mod_crypto : Crypto := {|
  edPoint := Z;
  SetBytes := dec32;
  MultByCofactor P := (8 * P) `mod` order_L;
  IdentityPoint := 0;
  PointEqual := Z.eqb;
  ed25519_Verify := mod_verify;
  ed25519_Sign priv msg := [];
  mldsaPublicKey := list Z;
  mldsa_Verify k frame sig ctx := bool_decide (sig = replicate MLDSA65SignatureSize 7);
  Shake256 n w := replicate n (Z.land (foldl (λ s b, 3 * s + b) 7 w) 255);
|}.

Definition mod_signer : Signer mod_crypto := {|
  Scalar := Z;
  SetUniformBytes := uniform;
  SetBytesWithClamping := clamped;
  MultiplyAdd x y z := (x * y + z) `mod` order_L;
  Scalar_Bytes := enc32;
  ScalarBaseMult x := (x `mod` order_L : @edPoint mod_crypto);
  Point_Bytes := enc32;
  PublicFromSeed seed := enc32 (default 0 (clamped (take 32 (Sum512 seed))));
  mldsaPrivateKey := list Z;
  mldsa_NewPrivateKey seed := Some seed;
  mldsa_PublicKey sk := (sk : @mldsaPublicKey mod_crypto);
  mldsa_Sign sk rnd msg ctx := Some (replicate MLDSA65SignatureSize 7);
|}.

Lemma dec_enc32 x : dec32 (enc32 x) = Some x.
Proof. unfold dec32, enc32. rewrite bool_decide_eq_true_2 by done. f_equal. lia. Qed.

Lemma length_enc32 x : length (enc32 x) = 32%nat.
Proof. done. Qed.

Lemma uniform_spec b : length b = 64%nat → uniform b = Some (le_get b `mod` order_L).
Proof. intros H. unfold uniform. by rewrite H. Qed.

Lemma clamped_spec b : length b = 32%nat → clamped b = Some (clamp (le_get b) `mod` order_L).
Proof. intros H. unfold clamped. by rewrite H. Qed.

#[export] Instance mod_laws : SignerLaws mod_signer.
Proof.
  assert (0 < order_L) as HL by (unfold order_L; lia).
  refine (@Build_SignerLaws mod_crypto mod_signer (λ a b, (a + b) `mod` order_L) (λ n P, (n * P) `mod` order_L) 1
    _ _ _ _ _ _ (λ x, x) _ _ _ _ _ _ _ _ _ _ _).
  - intros m n P. cbn. by rewrite Z.mul_add_distr_r, Z.add_mod by lia.
  - intros m n P. cbn. rewrite Zmult_mod_idemp_r. f_equal. lia.
  - intros n. cbn. rewrite Z.mul_1_r. by rewrite Z.mod_divide by lia.
  - intros n. cbn. by rewrite !Z.mul_1_r, Z.mod_mod by lia.
  - done.
  - intros P Q. apply Z.eqb_eq.
  - intros b Hb. cbn. rewrite uniform_spec by done. eauto.
  - intros b Hb. cbn. rewrite clamped_spec by done. eauto.
  - done.
  - intros x. cbn. by rewrite Z.mul_1_r.
  - apply length_enc32.
  - apply length_enc32.
  - apply dec_enc32.
  - intros x H. change (enc32 (x `mod` order_L) = replicate 32 0) in H.
    injection H as H. pose proof (Z.mod_pos_bound x order_L HL). lia.
  - intros seed a Hs H. change (clamped (take 32 (Sum512 seed)) = Some a) in H.
    change (enc32 (default 0 (clamped (take 32 (Sum512 seed)))) = enc32 (a `mod` order_L)). rewrite H. simpl.
    f_equal. rewrite clamped_spec in H by (rewrite length_take, length_Sum512; done). injection H as <-.
    by rewrite Z.mod_mod by lia.
  - intros pub A Rb R k s msg HA HR Hpl HRl Hk Heq.
    change (mod_verify pub msg (Rb ++ enc32 s) = true). change (dec32 pub = Some A) in HA. change (dec32 Rb = Some R) in HR.
    change (uniform (Sum512 (Rb ++ pub ++ msg)) = Some k) in Hk.
    change ((s * 1) `mod` order_L = (R + (k * A) `mod` order_L) `mod` order_L) in Heq.
    unfold mod_verify. rewrite take_app_length', drop_app_length' by done. rewrite HA, HR, dec_enc32, Hk.
    apply Z.eqb_eq. by rewrite Z.mul_1_r in Heq.
  - intros sk rnd msg ctx sig H. change (Some (replicate MLDSA65SignatureSize 7) = Some sig) in H.
    apply Some_inj in H as <-. split; [apply length_replicate|]. by apply bool_decide_eq_true_2.
Defined.

Lemma signed_frame_verifies_witness :
  ∃ sig, SignCRDTFrame (SG:=mod_signer) (Some (replicate 64 3)) (replicate 32 5) [1; 2; 3] = Ok sig ∧
    VerifyCRDTFrame (CR:=mod_crypto) (PublicFromSeed (Signer:=mod_signer) (replicate 32 5)) [1; 2; 3] sig = true.
Proof.
  destruct (proj1 (signed_frame_verifies (SG:=mod_signer) (replicate 64 3) [] (replicate 32 5) [1; 2; 3]
    ([] : @mldsaPrivateKey mod_crypto mod_signer) "" eq_refl)) as (sig & H1 & _ & _ & H2).
  exists sig. split; [exact H1|exact H2].
Defined.


(** The inverse, modulo the order, of the challenge of the sample signature. *)
Definition sample_inverse : Z :=
  4135882364636187420791200932781239614795559267974824419586301960304250774433.

Lemma known_randomness_reveals_key_witness :
  ∃ r s a : Z, uniform (Sum512 (replicate 64 3 ++ [1; 2; 3])) = Some r ∧
    SignCRDTFrame (SG:=mod_signer) (Some (replicate 64 3)) (replicate 32 5) [1; 2; 3] =
      Ok (enc32 (r `mod` order_L) ++ enc32 s) ∧
    clamped (take 32 (Sum512 (replicate 32 5))) = Some a ∧ a = ((s - r) * sample_inverse) `mod` order_L.
Proof.
  destruct (known_randomness_reveals_key (SG:=mod_signer) (replicate 64 3) (replicate 32 5) [1; 2; 3] sample_inverse
    eq_refl) as (r & k & s & a & H1 & H2 & H3 & H4 & H5).
  exists r, s, a. split_and!; [exact H1|exact H3|exact H4|].
  apply H5. pose proof (f_equal (λ o, (default 0 o * sample_inverse) `mod` order_L) H2) as E.
  refine (eq_trans (eq_sym E) _).
  assert (r = default 0 (uniform (Sum512 (replicate 64 3 ++ [1; 2; 3])))) as -> by (symmetry; exact (f_equal (default 0) H1)).
  vm_compute. reflexivity.
Defined.
