(* ===== verification/Apply.v ===== *)
(** The wire entry points of the engine: BuildCRDTDeltaEvent
    (pkg/sync/crdt_capnp_wire.go), ApplyCRDTDeltaEvent (crdt_apply.go),
    ApplyCRDTDeltaBatch and InspectBatchDots (crdt_apply_batch.go).  The Cap'n
    Proto library and the accessors generated from the schema are the class
    [Capnp]; [CapnpLaws] states what a message read back contains. *)
From S2P Require Import Prelude Bytes Sha256 Dots Hamt HamtMap Lamport Sorting Engine EngineInv.
From S2P Require Import JoinSpec EngineThms Reconstruct.

(** ** The Cap'n Proto interface *)

Inductive scalar_field :=
| FVersion | FDotCounter | FH3Index | FSystemTime | FValidTimeStart | FValidTimeEnd
| FAssertionTime | FDecisionTime.
Inductive data_field := FPayloadDigest | FOriginNodeID | FDotNodeID.
Inductive text_field := FEntityId | FPayload.

Class Capnp := {
  Message : Type;
  Unmarshal : list Z → result string Message;
  ReadRootCRDTDeltaEvent : Message → result string CRDTDeltaEvent;
  CRDTDeltaBatch : Type;
  ReadRootCRDTDeltaBatch : Message → result string CRDTDeltaBatch;
  Events : CRDTDeltaBatch → result string (list CRDTDeltaEvent);
  Builder : Type;
  NewMessage : result string Builder;
  NewRootCRDTDeltaEvent : Builder → result string Builder;
  SetScalar : scalar_field → Z → Builder → Builder;
  SetData : data_field → list Z → Builder → result string Builder;
  SetText : text_field → string → Builder → result string Builder;
  Marshal : Builder → result string (list Z);
}.

Definition with_scalar (f : scalar_field) (x : Z) (ev : CRDTDeltaEvent) : CRDTDeltaEvent :=
  let '(mkEvent v d o n c h st vs ve a dt id p) := ev in
  match f with
  | FVersion => mkEvent x d o n c h st vs ve a dt id p
  | FDotCounter => mkEvent v d o n x h st vs ve a dt id p
  | FH3Index => mkEvent v d o n c x st vs ve a dt id p
  | FSystemTime => mkEvent v d o n c h x vs ve a dt id p
  | FValidTimeStart => mkEvent v d o n c h st x ve a dt id p
  | FValidTimeEnd => mkEvent v d o n c h st vs x a dt id p
  | FAssertionTime => mkEvent v d o n c h st vs ve x dt id p
  | FDecisionTime => mkEvent v d o n c h st vs ve a x id p
  end.

Definition with_data (f : data_field) (x : list Z) (ev : CRDTDeltaEvent) : CRDTDeltaEvent :=
  let '(mkEvent v d o n c h st vs ve a dt id p) := ev in
  match f with
  | FPayloadDigest => mkEvent v (Ok x) o n c h st vs ve a dt id p
  | FOriginNodeID => mkEvent v d (Ok x) n c h st vs ve a dt id p
  | FDotNodeID => mkEvent v d o (Ok x) c h st vs ve a dt id p
  end.

Definition with_text (f : text_field) (x : string) (ev : CRDTDeltaEvent) : CRDTDeltaEvent :=
  let '(mkEvent v d o n c h st vs ve a dt id p) := ev in
  match f with
  | FEntityId => mkEvent v d o n c h st vs ve a dt (Ok x) p
  | FPayload => mkEvent v d o n c h st vs ve a dt id (Ok (string_bytes x))
  end.

(** The schema's types: UInt16, UInt64 and Int64. *)
Definition scalar_fits (f : scalar_field) (x : Z) : Prop :=
  match f with
  | FVersion => 0 <= x < 2 ^ 16
  | FDotCounter | FH3Index => is_u64 x
  | _ => is_i64 x
  end.

(** A setter changes its field; a marshalled message reads back as built. *)
Class CapnpLaws (CP : Capnp) := {
  contents : Builder → CRDTDeltaEvent;
  contents_scalar f x b : scalar_fits f x → contents (SetScalar f x b) = with_scalar f x (contents b);
  contents_data f x b b' : SetData f x b = Ok b' → contents b' = with_data f x (contents b);
  contents_text f x b b' : SetText f x b = Ok b' → contents b' = with_text f x (contents b);
  marshal_unmarshal b wire : Marshal b = Ok wire →
    ∃ m, Unmarshal wire = Ok m ∧ ReadRootCRDTDeltaEvent m = Ok (contents b);
}.

Definition CRDTDeltaEventWireVersion : Z := 1.

(** The errors of the entry points; an element index is present in a batch. *)
Inductive applyError :=
| ErrUnmarshal (err : string)
| ErrReadRoot (err : string)
| ErrReadEvents (err : string)
| ErrVersion (elem : option nat) (got : Z)
| ErrIntegrity (elem : option nat) (err : WireIntegrityError).

Definition err_elem (err : applyError) : option nat :=
  match err with ErrVersion i _ | ErrIntegrity i _ => i | _ => None end.

(** fmt.Errorf with %w around a call's error. *)
Definition wrap {A} (c : string → applyError) (r : result string A) : result applyError A :=
  match r with Ok a => Ok a | Err err => Err (c err) end.

Definition batchPair : Type := string * CRDTEntry.

(** The writer's steps, for its errors. *)
Inductive buildError :=
| BuildNewMessage (err : string)
| BuildNewRoot (err : string)
| BuildData (f : data_field) (err : string)
| BuildText (f : text_field) (err : string)
| BuildMarshal (err : string).

Definition wrap_build {A} (c : string → buildError) (r : result string A) : result buildError A :=
  match r with Ok a => Ok a | Err err => Err (c err) end.

Section Apply.
Context `{MH : MapHash} `{SS : SliceSort} `{CP : Capnp}.

Definition BuildCRDTDeltaEvent (entityID payload : string) (entry : CRDTEntry) :
    result buildError (list Z) :=
  seg ← wrap_build BuildNewMessage NewMessage;
  ev ← wrap_build BuildNewRoot (NewRootCRDTDeltaEvent seg);
  let ev := SetScalar FVersion CRDTDeltaEventWireVersion ev in
  ev ← wrap_build (BuildData FPayloadDigest) (SetData FPayloadDigest (PayloadDigest entry) ev);
  ev ← wrap_build (BuildData FOriginNodeID) (SetData FOriginNodeID (OriginNodeID entry) ev);
  ev ← wrap_build (BuildData FDotNodeID) (SetData FDotNodeID (DotNodeID entry) ev);
  let ev := SetScalar FDotCounter (DotCounter entry) ev in
  let ev := SetScalar FH3Index (H3Index entry) ev in
  let ev := SetScalar FSystemTime (SystemTime entry) ev in
  let ev := SetScalar FValidTimeStart (ValidTimeStart entry) ev in
  let ev := SetScalar FValidTimeEnd (ValidTimeEnd entry) ev in
  let ev := SetScalar FAssertionTime (AssertionTime entry) ev in
  let ev := SetScalar FDecisionTime (DecisionTime entry) ev in
  ev ← wrap_build (BuildText FEntityId) (SetText FEntityId entityID ev);
  ev ← wrap_build (BuildText FPayload) (SetText FPayload payload ev);
  wrap_build BuildMarshal (Marshal ev).

Definition makeSingleEntrySeq (entityID : string) (entry : CRDTEntry) : Seq := Some [(entityID, entry)].
Definition makeBatchEntrySeq (pairs : list batchPair) : Seq := Some pairs.

(** Unmarshal, root and version guard of the single-event frame. *)
Definition decode_event (wire : list Z) : result applyError CRDTDeltaEvent :=
  msg ← wrap ErrUnmarshal (Unmarshal wire);
  ev ← wrap ErrReadRoot (ReadRootCRDTDeltaEvent msg);
  if ev_Version ev =? CRDTDeltaEventWireVersion then Ok ev else Err (ErrVersion None (ev_Version ev)).

(** ApplyCRDTDeltaEvent returns its error and leaves the engine behind; Join
    panics on a closed engine. *)
Definition ApplyCRDTDeltaEvent (wire : list Z) (e : Engine) : outcome (option applyError * Engine) :=
  match decode_event wire with
  | Err err => Ret (Some err, e)
  | Ok ev =>
      let snapshot := Clock_snapshot (clk e) in
      match ReconstructEntryWithSkewBound ev snapshot with
      | Err err => Ret (Some (ErrIntegrity None err), e)
      | Ok rec =>
          match Join (makeSingleEntrySeq (rec_EntityID rec) (rec_Entry rec)) e with
          | Ret e' => Ret (None, e')
          | Panic m => Panic m
          end
      end
  end.

Definition decode_batch (wire : list Z) : result applyError (list CRDTDeltaEvent) :=
  msg ← wrap ErrUnmarshal (Unmarshal wire);
  batch ← wrap ErrReadRoot (ReadRootCRDTDeltaBatch msg);
  wrap ErrReadEvents (Events batch).

(** The loop of ApplyCRDTDeltaBatch from element [i] on. *)
Fixpoint reconstruct_all (snapshot : LamportSnapshot) (i : nat) (events : list CRDTDeltaEvent) :
    result applyError (list batchPair) :=
  match events with
  | [] => Ok []
  | ev :: events' =>
      if ev_Version ev =? CRDTDeltaEventWireVersion then
        match ReconstructEntryWithSkewBound ev snapshot with
        | Err err => Err (ErrIntegrity (Some i) err)
        | Ok rec =>
            accum ← reconstruct_all snapshot (S i) events';
            Ok ((rec_EntityID rec, rec_Entry rec) :: accum)
        end
      else Err (ErrVersion (Some i) (ev_Version ev))
  end.

Definition ApplyCRDTDeltaBatch (wire : list Z) (e : Engine) : outcome (option applyError * Engine) :=
  match decode_batch wire with
  | Err err => Ret (Some err, e)
  | Ok events =>
      let snapshot := Clock_snapshot (clk e) in
      match reconstruct_all snapshot 0 events with
      | Err err => Ret (Some err, e)
      | Ok accum =>
          match Join (makeBatchEntrySeq accum) e with
          | Ret e' => Ret (None, e')
          | Panic m => Panic m
          end
      end
  end.

(** The loop of InspectBatchDots: the base seam, no skew bound. *)
Fixpoint inspect_all (i : nat) (events : list CRDTDeltaEvent) : result applyError (list CRDTEntry) :=
  match events with
  | [] => Ok []
  | ev :: events' =>
      if ev_Version ev =? CRDTDeltaEventWireVersion then
        match ReconstructEntry ev with
        | Err err => Err (ErrIntegrity (Some i) err)
        | Ok rec => accum ← inspect_all (S i) events'; Ok (rec_Entry rec :: accum)
        end
      else Err (ErrVersion (Some i) (ev_Version ev))
  end.

Definition InspectBatchDots (wire : list Z) : result applyError (list Z * list Z) :=
  events ← decode_batch wire;
  entries ← inspect_all 0 events;
  Ok (match entries with [] => zero16 | x :: _ => OriginNodeID x end, map DotCounter entries).

(** ** Lemmas *)

(** An element the seam lets through, and the pair it contributes. *)
Definition accepted (s : LamportSnapshot) (ev : CRDTDeltaEvent) (p : batchPair) : Prop :=
  ev_Version ev = CRDTDeltaEventWireVersion ∧
  ∃ r, verdict ev s (Ok r) ∧ p = (rec_EntityID r, rec_Entry r).

Lemma reconstruct_all_Ok s i events pairs :
  reconstruct_all s i events = Ok pairs ↔ Forall2 (accepted s) events pairs.
Proof.
  revert i pairs. induction events as [|ev events IH]; intros i pairs; simpl.
  { split; [intros [= <-]; constructor|inversion 1; done]. }
  unfold accepted at 1. destruct (Z.eqb_spec (ev_Version ev) CRDTDeltaEventWireVersion) as [Hv|Hv].
  2: { split; [done|]. inversion 1 as [|? ? ? ? [? _]]; done. }
  destruct (ReconstructEntryWithSkewBound ev s) as [r|w] eqn:E.
  - rewrite result_bind_Ok. setoid_rewrite IH. apply reconstruct_Ok_iff in E. split.
    + intros (l & Hl & [= <-]). constructor; [|done]. split; [done|]. by exists r.
    + inversion 1 as [|? ? ? l [_ (r' & Hr' & ->)] Hl]. subst. exists l. split; [done|].
      pose proof (verdict_functional _ _ _ _ E Hr') as [= ->]. done.
  - split; [done|]. inversion 1 as [|? ? ? ? [_ (r' & Hr' & _)]].
    apply reconstruct_Ok_iff in Hr'. congruence.
Qed.

Lemma reconstruct_all_first s i events n ev :
  events !! n = Some ev → (∀ p, ¬ accepted s ev p) →
  (∀ j ev', (j < n)%nat → events !! j = Some ev' → ∃ p, accepted s ev' p) →
  ∃ err, reconstruct_all s i events = Err err ∧ err_elem err = Some (i + n)%nat.
Proof.
  revert i n. induction events as [|x events IH]; intros i n Hn Hbad Hpre; [done|]. simpl.
  destruct n as [|n].
  - injection Hn as ->. rewrite Nat.add_0_r.
    destruct (Z.eqb_spec (ev_Version ev) CRDTDeltaEventWireVersion) as [Hv|Hv]; [|by eexists].
    destruct (ReconstructEntryWithSkewBound ev s) as [r|w] eqn:E; [|by eexists].
    apply reconstruct_Ok_iff in E. destruct (Hbad (rec_EntityID r, rec_Entry r)). split; [done|]. by exists r.
  - destruct (Hpre 0%nat x ltac:(lia) eq_refl) as (p & Hv & r & Hr & _).
    rewrite (proj2 (Z.eqb_eq _ _) Hv), (proj2 (reconstruct_Ok_iff x s r) Hr).
    destruct (IH (S i) n Hn Hbad) as (err & Herr & He).
    { intros j ev' Hj Hl. apply (Hpre (S j) ev'); [lia|done]. }
    exists err. rewrite Herr. split; [done|]. rewrite He. f_equal. lia.
Qed.

(** Every accumulated pair carries a counter of the wire, within the bound. *)
Lemma accepted_counter s ev p :
  accepted s ev p → DotCounter p.2 = ev_DotCounter ev ∧ DotCounter p.2 <= MaxAcceptableDotCounter s.
Proof.
  intros (_ & r & Hr & ->). simpl. apply reconstruct_Ok_iff in Hr.
  destruct (reconstruct_base _ _ _ Hr) as [Hb Hle]. split; [by apply reconstruct_counter|done].
Qed.

Lemma accepted_counters s events pairs :
  Forall2 (accepted s) events pairs → Forall (λ ev, is_u64 (ev_DotCounter ev)) events →
  Forall (λ ie, is_u64 (DotCounter ie.2)) pairs ∧
  Forall (λ ie, DotCounter ie.2 <= MaxAcceptableDotCounter s) pairs.
Proof.
  induction 1 as [|ev p events pairs Hp _ IH]; intros Hf; [split; constructor|].
  inversion_clear Hf as [|? ? Hu Hf']. destruct (accepted_counter _ _ _ Hp) as [He Hle].
  destruct (IH Hf') as [H1 H2]. split; constructor; try done. by rewrite He.
Qed.

Lemma inspect_of_accepted s i events pairs :
  Forall2 (accepted s) events pairs → inspect_all i events = Ok (map snd pairs).
Proof.
  intros H. revert i. induction H as [|ev p events pairs (Hv & r & Hr & ->) _ IH]; intros i; simpl; [done|].
  apply reconstruct_Ok_iff, reconstruct_base in Hr as [Hr _].
  by rewrite (proj2 (Z.eqb_eq _ _) Hv), Hr, (IH (S i)).
Qed.

(** The clock after joining entries within a bound stays within it. *)
Lemma receive_entries_bounded entries c b :
  lamportCounter c <= b → Forall (λ ie : string * CRDTEntry, DotCounter ie.2 <= b) entries →
  lamportCounter c <= lamportCounter (receive_entries entries c) <= b.
Proof.
  intros Hc Hf. rewrite receive_entries_max. induction Hf; simpl in *; lia.
Qed.

Lemma Join_open entries e :
  wf_engine e → Forall (λ ie, is_u64 (DotCounter ie.2)) entries →
  ∀ e', Join (Some entries) e = Ret e' → clk e' = receive_entries entries (clk e) ∧ wf_engine e'.
Proof.
  intros Hwf Hf e' Hj. destruct (closing e) eqn:Hcl; [by unfold Join in Hj; rewrite Hcl in Hj|].
  destruct (join_ret entries e Hwf Hcl Hf) as (e'' & _ & _ & Hj' & Hwf' & _ & Hck & _).
  rewrite Hj in Hj'. by injection Hj' as <-.
Qed.

Lemma snapshot_bound e :
  wf_engine e → lamportCounter (clk e) <= MaxAcceptableDotCounter (Clock_snapshot (clk e)).
Proof.
  intros [_ ((H1 & H2) & _ & (H3 & H4))]. rewrite MaxAcceptable_min by done. simpl.
  pose proof (envelope_range (Clock_snapshot (clk e))) as [? _]. unfold u64_max. lia.
Qed.

(** Joining what the seam accepted moves the clock at most to the bound. *)
Lemma join_accepted_clock events pairs e e' :
  let s := Clock_snapshot (clk e) in
  wf_engine e → Forall2 (accepted s) events pairs → Forall (λ ev, is_u64 (ev_DotCounter ev)) events →
  Join (Some pairs) e = Ret e' →
  lamportCounter (clk e) <= lamportCounter (clk e') <= MaxAcceptableDotCounter s ∧ wf_engine e'.
Proof.
  intros s Hwf Ha Hu Hj. destruct (accepted_counters s events pairs Ha Hu) as [Hf Hb].
  destruct (Join_open pairs e Hwf Hf e' Hj) as [-> ?]. split; [|done].
  apply receive_entries_bounded; [by apply snapshot_bound|done].
Qed.

Lemma decode_event_version wire ev : decode_event wire = Ok ev → ev_Version ev = CRDTDeltaEventWireVersion.
Proof.
  unfold decode_event. rewrite result_bind_Ok. intros (m & _ & (ev' & _ & H)%result_bind_Ok).
  destruct (Z.eqb_spec (ev_Version ev') CRDTDeltaEventWireVersion); [|done]. by injection H as <-.
Qed.

(** ApplyCRDTDeltaEvent is the batch of one element. *)
Lemma apply_event_cases wire ev e :
  decode_event wire = Ok ev →
  (∃ p, accepted (Clock_snapshot (clk e)) ev p ∧
     ApplyCRDTDeltaEvent wire e =
       match Join (Some [p]) e with Ret e' => Ret (None, e') | Panic m => Panic m end) ∨
  (∃ w, kind_of (ReconstructEntryWithSkewBound ev (Clock_snapshot (clk e))) = Err (we_Kind w) ∧
     ApplyCRDTDeltaEvent wire e = Ret (Some (ErrIntegrity None w), e)).
Proof.
  intros Hd. unfold ApplyCRDTDeltaEvent. rewrite Hd. cbv zeta.
  destruct (ReconstructEntryWithSkewBound ev (Clock_snapshot (clk e))) as [r|w] eqn:E.
  - left. exists (rec_EntityID r, rec_Entry r). split; [|done]. split; [by eapply decode_event_version|].
    exists r. split; [by apply reconstruct_Ok_iff|done].
  - right. by exists w.
Qed.

(** ** Properties *)

(** C22. A batch is all or nothing, judged against the clock the call started
    with: when every element is accepted the engine performs exactly one Join of
    all their entries and returns no error; when some element is not, the error
    names the first such element and the engine is untouched; and a frame that
    does not decode leaves the engine untouched too. *)
Theorem apply_batch_all_or_nothing (wire : list Z) (e : Engine) :
  wf_engine e → closing e = false →
  match decode_batch wire with
  | Err err => ApplyCRDTDeltaBatch wire e = Ret (Some err, e)
  | Ok events =>
      Forall (λ ev, is_u64 (ev_DotCounter ev)) events →
      (∀ pairs, Forall2 (accepted (Clock_snapshot (clk e))) events pairs →
         ∃ e', Join (Some pairs) e = Ret e' ∧ ApplyCRDTDeltaBatch wire e = Ret (None, e')) ∧
      (∀ n ev, events !! n = Some ev → (∀ p, ¬ accepted (Clock_snapshot (clk e)) ev p) →
         (∀ j ev', (j < n)%nat → events !! j = Some ev' → ∃ p, accepted (Clock_snapshot (clk e)) ev' p) →
         ∃ err, ApplyCRDTDeltaBatch wire e = Ret (Some err, e) ∧ err_elem err = Some n)
  end.
Proof.
  intros Hwf Hcl. unfold ApplyCRDTDeltaBatch. destruct (decode_batch wire) as [events|err]; [|done].
  intros Hu. split.
  - intros pairs Ha. destruct (accepted_counters _ _ _ Ha Hu) as [Hf _].
    destruct (join_ret pairs e Hwf Hcl Hf) as (e' & _ & _ & Hj & _). exists e'. split; [done|].
    apply (reconstruct_all_Ok _ 0) in Ha. cbv zeta. rewrite Ha.
    by rewrite (Hj : Join (makeBatchEntrySeq pairs) e = Ret e').
  - intros n ev Hn Hbad Hpre. destruct (reconstruct_all_first _ 0 events n ev Hn Hbad Hpre) as (err & Herr & He).
    exists err. cbv zeta. by rewrite Herr.
Qed.

(** C34. No frame can push the receiver's clock past the bound computed from the
    snapshot the call took: whatever a single-event or batch frame holds, and
    whether it is accepted or refused, the clock afterwards is at least the clock
    before and at most that bound. *)
Theorem apply_clock_within_bound (wire : list Z) (e e' : Engine) (err : option applyError) :
  wf_engine e →
  (∀ ev, decode_event wire = Ok ev → is_u64 (ev_DotCounter ev)) →
  (∀ evs, decode_batch wire = Ok evs → Forall (λ ev, is_u64 (ev_DotCounter ev)) evs) →
  ApplyCRDTDeltaEvent wire e = Ret (err, e') ∨ ApplyCRDTDeltaBatch wire e = Ret (err, e') →
  lamportCounter (clk e) <= lamportCounter (clk e') <= MaxAcceptableDotCounter (Clock_snapshot (clk e)) ∧
  wf_engine e'.
Proof.
  intros Hwf Hev Hb H.
  assert (lamportCounter (clk e) <= lamportCounter (clk e) <= MaxAcceptableDotCounter (Clock_snapshot (clk e))
          ∧ wf_engine e) as Hid by (pose proof (snapshot_bound e Hwf); done).
  destruct H as [H|H].
  - destruct (decode_event wire) as [ev|x] eqn:Hd.
    + destruct (apply_event_cases wire ev e Hd) as [(p & Hp & Ha)|(w & _ & Ha)]; rewrite Ha in H.
      * destruct (Join (Some [p]) e) as [e1|] eqn:Hj; [|done]. injection H as _ <-.
        apply (join_accepted_clock [ev] [p]); [done|by constructor; [|constructor]| |done].
        constructor; [by apply Hev|constructor].
      * by injection H as _ <-.
    + unfold ApplyCRDTDeltaEvent in H. rewrite Hd in H. by injection H as _ <-.
  - unfold ApplyCRDTDeltaBatch in H. destruct (decode_batch wire) as [evs|x] eqn:Hd; [|by injection H as _ <-].
    destruct (reconstruct_all _ _ evs) as [pairs|x] eqn:Hr; [|by injection H as _ <-].
    destruct (Join _ e) as [e1|] eqn:Hj; [|done]. injection H as _ <-.
    apply reconstruct_all_Ok in Hr. by apply (join_accepted_clock evs pairs); [| |apply Hb|].
Qed.

(** Inspect and Apply stay in lockstep: a batch InspectBatchDots refuses is
    refused by ApplyCRDTDeltaBatch without touching the engine, and for a batch
    Apply accepts, Inspect returns the counters of exactly the entries that were
    joined, in order, and the origin of the first. *)
Theorem inspect_apply_lockstep (wire : list Z) (e : Engine) :
  (∀ err, InspectBatchDots wire = Err err → ∃ err', ApplyCRDTDeltaBatch wire e = Ret (Some err', e)) ∧
  (∀ e', ApplyCRDTDeltaBatch wire e = Ret (None, e') →
     ∃ pairs, Join (Some pairs) e = Ret e' ∧
       InspectBatchDots wire =
         Ok (default zero16 (head (map (λ p, OriginNodeID p.2) pairs)), map (λ p, DotCounter p.2) pairs)).
Proof.
  unfold InspectBatchDots, ApplyCRDTDeltaBatch.
  destruct (decode_batch wire) as [evs|x]; [|split; [by eexists|done]]. simpl.
  destruct (reconstruct_all (Clock_snapshot (clk e)) 0 evs) as [pairs|x] eqn:Hr.
  - apply reconstruct_all_Ok, (inspect_of_accepted _ 0) in Hr. rewrite Hr. simpl. split; [done|].
    intros e' H. exists pairs. destruct (Join _ e) as [e1|] eqn:Hj; [|done]. injection H as <-.
    split; [done|]. f_equal. f_equal; [by destruct pairs|]. by rewrite map_map.
  - split; [by eexists|done].
Qed.
End Apply.

Section BuildApply.
Context `{MH : MapHash} `{SS : SliceSort} `{CL : CapnpLaws}.

Definition event_of (k payload : string) (x : CRDTEntry) : CRDTDeltaEvent :=
  mkEvent CRDTDeltaEventWireVersion (Ok (PayloadDigest x)) (Ok (OriginNodeID x)) (Ok (DotNodeID x))
    (DotCounter x) (H3Index x) (SystemTime x) (ValidTimeStart x) (ValidTimeEnd x) (AssertionTime x)
    (DecisionTime x) (Ok k) (Ok (string_bytes payload)).

Lemma wrap_build_Ok {A} c (r : result string A) a : wrap_build c r = Ok a ↔ r = Ok a.
Proof. destruct r; simpl; naive_solver. Qed.

(** What BuildCRDTDeltaEvent writes is what the decoder reads. *)
Lemma build_decode k payload x wire :
  sized_entry x → BuildCRDTDeltaEvent k payload x = Ok wire → decode_event wire = Ok (event_of k payload x).
Proof.
  intros (_ & _ & H1 & H2 & H3 & H4 & H5 & H6 & H7) H. unfold BuildCRDTDeltaEvent in H.
  repeat (apply result_bind_Ok in H as (? & ?%wrap_build_Ok & H); cbv beta zeta in H).
  apply wrap_build_Ok, marshal_unmarshal in H as (m & Hm & Hr).
  repeat match goal with
  | HT : SetText _ _ _ = Ok _ |- _ => apply contents_text in HT
  | HD : SetData _ _ _ = Ok _ |- _ => apply contents_data in HD
  end.
  assert (scalar_fits FVersion CRDTDeltaEventWireVersion) as Hv by done.
  unfold decode_event. rewrite Hm. simpl. rewrite Hr. simpl.
  repeat (match goal with
  | HC : contents ?b = _ |- context [contents ?b] => rewrite HC
  end || rewrite contents_scalar by done).
  match goal with |- context [with_scalar FVersion _ ?c] => destruct c end. reflexivity.
Qed.

(** The verdict on a frame built here. *)
Lemma built_verdict k payload x s :
  sized_entry x → DotNodeID x = OriginNodeID x →
  verdict (event_of k payload x) s
    (if bool_decide (Sum256 (string_bytes payload) = PayloadDigest x)
     then if MaxAcceptableDotCounter s <? DotCounter x then Err WireIntegrityLamportSkewPoisoning
          else Ok (mkReconstructed k payload x)
     else Err WireIntegrityDigestMismatch).
Proof.
  intros ((Hd & Ho & Hn) & _) Hdot.
  assert (headed (event_of k payload x) (mkFrame (OriginNodeID x) k (PayloadDigest x) (DotNodeID x))) as Hf
    by by split_and!.
  case_bool_decide; [|by eapply v_digest; [exact Hf|..]].
  destruct (Z.ltb_spec (MaxAcceptableDotCounter s) (DotCounter x)); [by eapply v_skew; [exact Hf|..]|].
  replace (mkReconstructed k payload x)
    with (mkReconstructed k (bytes_string (string_bytes payload))
            (frame_entry (event_of k payload x) (mkFrame (OriginNodeID x) k (PayloadDigest x) (DotNodeID x)))).
  - by apply (v_accept _ _ _ _ Hf).
  - rewrite bytes_string_bytes. by destruct x.
Qed.

(** C28. Build then apply: a frame built from an entry whose dot its origin owns
    and whose digest is the SHA-256 of the payload is accepted by any open
    receiver whose bound reaches its counter, and adds exactly that entry (a dot
    already held keeps its entry); with any other digest the receiver refuses it
    as a digest mismatch, and with a counter past the bound as skew poisoning,
    the engine untouched. *)
Theorem build_apply_roundtrip (k payload : string) (x : CRDTEntry) (wire : list Z) (e : Engine) :
  sized_entry x → DotNodeID x = OriginNodeID x → wf_engine e → closing e = false →
  BuildCRDTDeltaEvent k payload x = Ok wire →
  if bool_decide (Sum256 (string_bytes payload) = PayloadDigest x) then
    if MaxAcceptableDotCounter (Clock_snapshot (clk e)) <? DotCounter x then
      ∃ w, ApplyCRDTDeltaEvent wire e = Ret (Some (ErrIntegrity None w), e) ∧
        we_Kind w = WireIntegrityLamportSkewPoisoning
    else
      ∃ e', ApplyCRDTDeltaEvent wire e = Ret (None, e') ∧ wf_engine e' ∧
        view e' k = view e k ∪ {[Dot x := x]} ∧ ∀ k', k' ≠ k → view e' k' = view e k'
  else
    ∃ w, ApplyCRDTDeltaEvent wire e = Ret (Some (ErrIntegrity None w), e) ∧
      we_Kind w = WireIntegrityDigestMismatch.
Proof.
  intros Hx Hdot Hwf Hcl Hb. pose proof (build_decode k payload x wire Hx Hb) as Hd.
  pose proof (built_verdict k payload x (Clock_snapshot (clk e)) Hx Hdot) as Hv.
  destruct (apply_event_cases wire _ e Hd) as [(p & (_ & r & Hr & ->) & Ha)|(w & Hw & Ha)].
  - pose proof (verdict_functional _ _ _ _ Hv Hr) as E. clear Hv.
    case_bool_decide; [|done]. destruct (_ <? _); [done|]. injection E as <-. simpl in *.
    destruct (join_view (λ _ _, x) [(k, x)] e Hwf Hcl) as (e' & Hj & Hwf' & _ & _ & Hview).
    { constructor; [|constructor]. apply Hx. }
    { intros k' y [[= -> ->]|[]%elem_of_nil]%elem_of_cons. done. }
    exists e'. rewrite Ha.
    match goal with |- context [Join ?d e] => replace (Join d e) with (Ret e') by (symmetry; exact Hj) end. split_and!; [done|done| |].
    + rewrite Hview. unfold delta_view, delta_for. rewrite filter_cons_True by done. done.
    + intros k' Hne. rewrite Hview. unfold delta_view, delta_for.
      rewrite filter_cons_False by (simpl; congruence). apply (right_id_L ∅ (∪)).
  - pose proof (reconstruct_verdict (event_of k payload x) (Clock_snapshot (clk e))) as Hr.
    rewrite Hw in Hr. pose proof (verdict_functional _ _ _ _ Hv Hr) as E. rewrite Ha.
    case_bool_decide; [destruct (_ <? _); [|done]|]; exists w; split; congruence.
Qed.
End BuildApply.
