(* ===== verification/ApplyWitness.v ===== *)
(** A concrete codec that satisfies the laws of [CapnpLaws] (fixed-width scalars
    followed by length-prefixed blobs), and the wire properties applied to
    frames it encodes. *)
From S2P Require Import Prelude Bytes Sha256 Dots Hamt HamtMap Lamport Sorting Engine EngineInv.
From S2P Require Import JoinSpec EngineThms Reconstruct Apply.

Definition get_u64 (bs : list Z) : Z * list Z := (u64 (le_get (take 8 bs)), drop 8 bs).
Definition put_blob (b : list Z) : list Z := le_put 8 (Z.of_nat (length b)) ++ b.
Definition get_blob (bs : list Z) : list Z * list Z :=
  let '(n, bs) := get_u64 bs in
  let n := Z.to_nat (Z.min n (Z.of_nat (length bs))) in (take n bs, drop n bs).

Lemma get_put_u64 x r : is_u64 x → get_u64 (le_put 8 x ++ r) = (x, r).
Proof.
  intros Hx. unfold get_u64. rewrite take_app_length', drop_app_length' by (symmetry; apply length_le_put).
  rewrite le_get_put by words. by rewrite u64_id.
Qed.

Lemma get_u64_range bs : is_u64 (get_u64 bs).1.
Proof. apply u64_range. Qed.

Lemma get_put_blob b r : is_u64 (Z.of_nat (length b)) → get_blob (put_blob b ++ r) = (b, r).
Proof.
  intros Hb. unfold get_blob, put_blob. rewrite <- (assoc_L (++)), get_put_u64 by done.
  rewrite Z.min_l by (rewrite length_app; lia). by rewrite Nat2Z.id, take_app_length, drop_app_length.
Qed.

Definition put_i64 (x : Z) : list Z := le_put 8 (u64 x).
Definition get_i64 (bs : list Z) : Z * list Z := let '(x, bs) := get_u64 bs in (i64 x, bs).

Lemma get_put_i64 x r : is_i64 x → get_i64 (put_i64 x ++ r) = (x, r).
Proof. intros H. unfold get_i64, put_i64. rewrite get_put_u64 by apply u64_range. by rewrite i64_u64. Qed.

Definition enc_event (ev : CRDTDeltaEvent) (d o n p : list Z) (id : string) : list Z :=
  le_put 8 (ev_Version ev) ++ le_put 8 (ev_DotCounter ev) ++ le_put 8 (ev_H3Index ev) ++
  put_i64 (ev_SystemTime ev) ++ put_i64 (ev_ValidTimeStart ev) ++ put_i64 (ev_ValidTimeEnd ev) ++
  put_i64 (ev_AssertionTime ev) ++ put_i64 (ev_DecisionTime ev) ++
  put_blob d ++ put_blob o ++ put_blob n ++ put_blob (string_bytes id) ++ put_blob p.

Definition dec_event (bs : list Z) : CRDTDeltaEvent * list Z :=
  let '(v, bs) := get_u64 bs in let '(c, bs) := get_u64 bs in let '(h, bs) := get_u64 bs in
  let '(st, bs) := get_i64 bs in let '(vs, bs) := get_i64 bs in let '(ve, bs) := get_i64 bs in
  let '(a, bs) := get_i64 bs in let '(dt, bs) := get_i64 bs in
  let '(d, bs) := get_blob bs in let '(o, bs) := get_blob bs in let '(n, bs) := get_blob bs in
  let '(id, bs) := get_blob bs in let '(p, bs) := get_blob bs in
  (mkEvent v (Ok d) (Ok o) (Ok n) c h st vs ve a dt (Ok (bytes_string id)) (Ok p), bs).

Definition fits (x : Z) : bool := (0 <=? x) && (x <? 2 ^ 64).
Definition fits_i64 (x : Z) : bool := (- 2 ^ 63 <=? x) && (x <? 2 ^ 63).
Definition blob_fits (b : list Z) : bool := Z.of_nat (length b) <? 2 ^ 64.

Lemma fits_true x : fits x = true ↔ is_u64 x.
Proof. unfold fits, is_u64. rewrite andb_true_iff, Z.leb_le, Z.ltb_lt. done. Qed.

Lemma fits_i64_true x : fits_i64 x = true ↔ is_i64 x.
Proof. unfold fits_i64, is_i64. rewrite andb_true_iff, Z.leb_le, Z.ltb_lt. done. Qed.

Lemma blob_fits_true b : blob_fits b = true ↔ is_u64 (Z.of_nat (length b)).
Proof. unfold blob_fits, is_u64. rewrite Z.ltb_lt. lia. Qed.

Definition marshal_event (ev : CRDTDeltaEvent) : result string (list Z) :=
  match ev_PayloadDigest ev, ev_OriginNodeID ev, ev_DotNodeID ev, ev_EntityId ev, ev_PayloadBytes ev with
  | Ok d, Ok o, Ok n, Ok id, Ok p =>
      if forallb fits [ev_Version ev; ev_DotCounter ev; ev_H3Index ev] &&
         forallb fits_i64 [ev_SystemTime ev; ev_ValidTimeStart ev; ev_ValidTimeEnd ev; ev_AssertionTime ev;
                           ev_DecisionTime ev] &&
         forallb blob_fits [d; o; n; string_bytes id; p]
      then Ok (enc_event ev d o n p id) else Err "too large"
  | _, _, _, _, _ => Err "incomplete"
  end.

Lemma dec_enc_event ev bs r : marshal_event ev = Ok bs → dec_event (bs ++ r) = (ev, r).
Proof.
  unfold marshal_event. destruct ev as [v [d|] [o|] [n|] c h st vs ve a dt [id|] [p|]]; try done. simpl.
  destruct (_ && _) eqn:E; [|done]. intros [= <-].
  rewrite !andb_true_iff, !fits_true, !fits_i64_true, !blob_fits_true in E.
  destruct E as [[(H1&H2&H3&_) (H4&H5&H6&H7&H8&_)] (B1&B2&B3&B4&B5&_)].
  unfold dec_event, enc_event. cbn [ev_Version ev_DotCounter ev_H3Index ev_SystemTime ev_ValidTimeStart
    ev_ValidTimeEnd ev_AssertionTime ev_DecisionTime]. rewrite <- !(assoc_L (++)).
  rewrite !get_put_u64 by done. rewrite !get_put_i64 by done. rewrite !get_put_blob by done. by rewrite bytes_string_bytes.
Qed.

Fixpoint dec_events (n : nat) (bs : list Z) : list CRDTDeltaEvent :=
  match n with
  | O => []
  | S n' => let '(ev, bs) := dec_event bs in ev :: dec_events n' bs
  end.

Definition empty_event : CRDTDeltaEvent := mkEvent 0 (Ok []) (Ok []) (Ok []) 0 0 0 0 0 0 0 (Ok "") (Ok []).

(** Frames shorter than a header do not decode. *)
#[export] Instance sample_capnp : Capnp := {|
  Message := list Z;
  Unmarshal wire := if (length wire <? 8)%nat then Err "EOF" else Ok wire;
  ReadRootCRDTDeltaEvent m := Ok (dec_event m).1;
  CRDTDeltaBatch := list Z;
  ReadRootCRDTDeltaBatch m := Ok m;
  Events b := let '(n, b) := get_u64 b in Ok (dec_events (Z.to_nat n) b);
  Builder := CRDTDeltaEvent;
  NewMessage := Ok empty_event;
  NewRootCRDTDeltaEvent b := Ok b;
  SetScalar := with_scalar;
  SetData f x b := Ok (with_data f x b);
  SetText f x b := Ok (with_text f x b);
  Marshal := marshal_event;
|}.

#[export] Instance sample_capnp_laws : CapnpLaws sample_capnp.
Proof.
  apply (Build_CapnpLaws sample_capnp (λ b, b)).
  - done.
  - by intros f x b b' [= <-].
  - by intros f x b b' [= <-].
  - intros b wire H. exists wire. split.
    + cbn [Unmarshal sample_capnp]. assert (8 <= length wire)%nat as Hl.
      { change (marshal_event b = Ok wire) in H. unfold marshal_event in H. destruct b as [v [d|] [o|] [n|] c h st vs ve a dt [id|] [p|]]; try done.
        simpl in H. destruct (_ && _); [|done]. injection H as <-. unfold enc_event.
        rewrite length_app, length_le_put. lia. }
      by rewrite (proj2 (Nat.ltb_ge _ _) Hl).
    + pose proof (dec_enc_event b wire [] H) as E. rewrite app_nil_r in E.
      exact (f_equal (λ p, Ok p.1) E).
Defined.

(** ** Witnesses *)

Definition good_entry (counter : Z) : CRDTEntry :=
  mkEntry (Sum256 (string_bytes "hello")) (replicate 16 2) (replicate 16 2) counter (-11) 12 13 14 15 16.

Definition good_wire (counter : Z) : list Z :=
  match BuildCRDTDeltaEvent "a" "hello" (good_entry counter) with Ok w => w | Err _ => [] end.

(** Two frames, the second stamped past the bound when [c2] is. *)
Definition batch_wire (c1 c2 : Z) : list Z := le_put 8 2 ++ good_wire c1 ++ good_wire c2.

Definition counters_u64 (evs : list CRDTDeltaEvent) : bool := forallb (λ ev, fits (ev_DotCounter ev)) evs.

Lemma counters_u64_Forall evs : counters_u64 evs = true → Forall (λ ev, is_u64 (ev_DotCounter ev)) evs.
Proof.
  unfold counters_u64. intros H. apply Forall_forall. intros ev Hin.
  apply fits_true. rewrite forallb_forall in H. apply H. by apply list_elem_of_In.
Qed.

Lemma build_apply_roundtrip_witness :
  ∃ e', ApplyCRDTDeltaEvent (MH:=fnv_maphash) (SS:=insertion_SliceSort) (good_wire 7) (sample_engine 1 9) = Ret (None, e') ∧
    view (MH:=fnv_maphash) e' "a" =
      view (MH:=fnv_maphash) (sample_engine 1 9) "a" ∪ {[Dot (good_entry 7) := good_entry 7]}.
Proof.
  pose proof (build_apply_roundtrip (MH:=fnv_maphash) (SS:=insertion_SliceSort) "a" "hello" (good_entry 7)
    (good_wire 7) (sample_engine 1 9)) as H.
  rewrite bool_decide_eq_true_2 in H by (vm_compute; reflexivity).
  replace (MaxAcceptableDotCounter (Clock_snapshot (clk (sample_engine 1 9))) <? DotCounter (good_entry 7))
    with false in H by (vm_compute; reflexivity).
  destruct H as (e' & Ha & _ & Hv & _).
  - apply (bool_decide_unpack (sized_entry _)). vm_compute. exact I.
  - reflexivity.
  - apply sample_engine_wf.
  - reflexivity.
  - vm_compute. reflexivity.
  - exists e'. split; [exact Ha|exact Hv].
Defined.

(** The second element of this batch is stamped past the bound: nothing of the
    batch is joined. *)
Lemma apply_batch_all_or_nothing_witness :
  ∃ err, ApplyCRDTDeltaBatch (MH:=fnv_maphash) (SS:=insertion_SliceSort) (batch_wire 7 5000) (sample_engine 1 9) =
           Ret (Some err, sample_engine 1 9) ∧ err_elem err = Some 1%nat.
Proof.
  pose proof (apply_batch_all_or_nothing (MH:=fnv_maphash) (SS:=insertion_SliceSort) (batch_wire 7 5000)
    (sample_engine 1 9) (sample_engine_wf 1 9) eq_refl) as H.
  destruct (decode_batch (batch_wire 7 5000)) as [evs|err] eqn:E; [|exfalso; revert E; by vm_compute].
  assert (evs = [event_of "a" "hello" (good_entry 7); event_of "a" "hello" (good_entry 5000)]) as ->.
  { vm_compute in E. injection E as <-. vm_compute. reflexivity. }
  assert (Forall (λ ev, is_u64 (ev_DotCounter ev))
    [event_of "a" "hello" (good_entry 7); event_of "a" "hello" (good_entry 5000)]) as Hu
    by (apply counters_u64_Forall; vm_compute; reflexivity).
  destruct (H Hu) as [_ Hbad].
  apply (Hbad 1%nat (event_of "a" "hello" (good_entry 5000)) eq_refl).
  - intros p (_ & r & Hr & _). apply reconstruct_Ok_iff in Hr. vm_compute in Hr. discriminate Hr.
  - intros [|j] ev' Hj Hl; [|lia]. injection Hl as <-.
    exists ("a", good_entry 7). split; [reflexivity|]. exists (mkReconstructed "a" "hello" (good_entry 7)).
    split; [apply reconstruct_Ok_iff; vm_compute; reflexivity|reflexivity].
Defined.

Lemma apply_clock_within_bound_witness :
  ∃ e', ApplyCRDTDeltaEvent (MH:=fnv_maphash) (SS:=insertion_SliceSort) (good_wire 1000) (sample_engine 1 9) =
          Ret (None, e') ∧ lamportCounter (clk e') <= 1000.
Proof.
  destruct (ApplyCRDTDeltaEvent (MH:=fnv_maphash) (SS:=insertion_SliceSort) (good_wire 1000) (sample_engine 1 9))
    as [[o e']|m] eqn:E; [|exfalso; revert E; by vm_compute].
  assert (o = None) as ->.
  { pose proof (f_equal (λ r, match r with Ret p => Some p.1 | _ => None end) E) as Ed.
    vm_compute in Ed. by injection Ed as <-. }
  exists e'. split; [reflexivity|].
  eapply (apply_clock_within_bound (MH:=fnv_maphash) (SS:=insertion_SliceSort) (good_wire 1000)
    (sample_engine 1 9) e' None (sample_engine_wf 1 9)); [| |left; exact E].
  - intros ev Hd. apply fits_true. vm_compute in Hd. injection Hd as <-. vm_compute. reflexivity.
  - intros evs Hd. apply counters_u64_Forall. vm_compute in Hd. injection Hd as <-. vm_compute. reflexivity.
Defined.

Lemma inspect_apply_lockstep_witness :
  InspectBatchDots (batch_wire 7 5000) = Ok (replicate 16 2, [7; 5000]) ∧
  ∃ e', ApplyCRDTDeltaBatch (MH:=fnv_maphash) (SS:=insertion_SliceSort) (batch_wire 7 8) (sample_engine 1 9) = Ret (None, e') ∧
  ∃ pairs, Join (MH:=fnv_maphash) (SS:=insertion_SliceSort) (Some pairs) (sample_engine 1 9) = Ret e'.
Proof.
  split; [vm_compute; reflexivity|].
  destruct (ApplyCRDTDeltaBatch (MH:=fnv_maphash) (SS:=insertion_SliceSort) (batch_wire 7 8) (sample_engine 1 9))
    as [[o e']|m] eqn:E; [|exfalso; revert E; by vm_compute].
  assert (o = None) as ->.
  { pose proof (f_equal (λ r, match r with Ret p => Some p.1 | _ => None end) E) as Ed.
    vm_compute in Ed. by injection Ed as <-. }
  exists e'. split; [reflexivity|].
  destruct (proj2 (inspect_apply_lockstep (MH:=fnv_maphash) (SS:=insertion_SliceSort) (batch_wire 7 8)
              (sample_engine 1 9)) e' E) as (pairs & Hj & _).
  by exists pairs.
Defined.
