(* ===== verification/Receiver.v ===== *)
(** The receiver of pkg/receive/receiver.go: the gates a relay, batch or hybrid
    frame passes before it reaches the engine, with the clock cap of
    pkg/clock/admission.go and the dispatch of pkg/mesh/digest.go.  The callbacks
    the receiver invokes are returned as a list of [HookCall]s. *)
From S2P Require Import Prelude Bytes Sha256 Dots Hamt HamtMap Lamport Sorting Engine EngineInv.
From S2P Require Import JoinSpec EngineThms Reconstruct Envelope Admission Identity Apply.

Inductive Verdict := VAccept | DropMalformed | DropRate | DropClock | DropDepth | DropVerify.

#[global] Instance Verdict_eq_dec : EqDecision Verdict.
Proof. solve_decision. Defined.

(** Why a frame was dropped. *)
Inductive DropReason :=
| RNone
| REnvelope (err : EnvelopeError)
| RLastHop
| RGateFields
| RRate
| RClock
| RDirectoryMiss
| RSignature
| RDesync
| RApply (err : applyError)
| RHybridOff.

Record AcceptVerdict := mkVerdict { av_Verdict : Verdict; av_Reason : DropReason }.

(** The callbacks. *)
Inductive HookCall :=
| HClockAdvance (post : Z)
| HAcceptRelay (originNodeID : list Z) (dotCounter : Z) (frame : list Z)
| HAcceptRelayBatch (originNodeID : list Z) (originSeq : Z) (dotCounters : list Z) (frame : list Z)
| HHybridAccept
| HDigest (frame : list Z).

(** Which of them are installed. *)
Record Hooks := mkHooks {
  onClockAdvance : bool;
  onAcceptRelay : bool;
  onAcceptRelayBatch : bool;
  onHybridAccept : bool;
  onDigest : bool;
}.

Definition maxDriftEpsilon : Z := 2000.

(** IngressHLCScalarCap.Admit; [now] is the local clock's reading. *)
Definition Admit (now incomingPhysicalUSec incomingLogical : Z) (e : Engine) : bool * Engine :=
  if maxDriftEpsilon <? i64 (incomingPhysicalUSec - now) then (false, e)
  else (true, with_clk (AdvanceLamportTo incomingLogical (clk e)) e).

(** The last hop's key and time, read from the frame. *)
Definition readLastHop (frameBytes : list Z) (hops : nat) : option (list Z * Z) :=
  if (hops =? 0)%nat then None
  else if (length frameBytes <? 8)%nat then None
  else
    let innerLen := Z.to_nat (le_get (slice 4 4 frameBytes)) in
    match headerLenForVersion (le_get (slice 0 2 frameBytes)) with
    | None => None
    | Some hdrLen =>
        let lastBase := (hdrLen + innerLen + (hops - 1) * HopSize)%nat in
        if (length frameBytes <? lastBase + HopSize)%nat then None
        else Some (slice lastBase PubSize frameBytes,
                   i64 (le_get (slice (lastBase + PubSize + SigSize) WallSize frameBytes)))
    end.

Section Receiver.
Context `{MH : MapHash} `{SS : SliceSort} `{CP : Capnp} `{CR : Crypto}.

Record Receiver := mkReceiver {
  rv_bucket : PeerBucket;
  rv_dir : Directory;
  rv_engine : Engine;
  rv_maxHops : Z;
  rv_hybridVerify : bool;
  rv_hooks : Hooks;
  rv_rateDropSeen : gmap (list Z) Z;
}.

Definition NewReceiver (bucket : PeerBucket) (dir : Directory) (engine : Engine) (budget : Z) : Receiver :=
  mkReceiver bucket dir engine (MaxHopsForBudget budget) false (mkHooks false false false false false) ∅.

Definition set_bucket (b : PeerBucket) (r : Receiver) : Receiver :=
  mkReceiver b (rv_dir r) (rv_engine r) (rv_maxHops r) (rv_hybridVerify r) (rv_hooks r) (rv_rateDropSeen r).
Definition set_engine (e : Engine) (r : Receiver) : Receiver :=
  mkReceiver (rv_bucket r) (rv_dir r) e (rv_maxHops r) (rv_hybridVerify r) (rv_hooks r) (rv_rateDropSeen r).
Definition set_hooks (h : Hooks) (r : Receiver) : Receiver :=
  mkReceiver (rv_bucket r) (rv_dir r) (rv_engine r) (rv_maxHops r) (rv_hybridVerify r) h (rv_rateDropSeen r).
Definition SetHybridVerify (enable : bool) (r : Receiver) : Receiver :=
  mkReceiver (rv_bucket r) (rv_dir r) (rv_engine r) (rv_maxHops r) enable (rv_hooks r) (rv_rateDropSeen r).

(** rateDropReason's counter. *)
Definition rateDropReason (originNodeID : list Z) (r : Receiver) : Receiver :=
  mkReceiver (rv_bucket r) (rv_dir r) (rv_engine r) (rv_maxHops r) (rv_hybridVerify r) (rv_hooks r)
    (<[originNodeID := default 0 (rv_rateDropSeen r !! originNodeID) +ₒ 1]> (rv_rateDropSeen r)).

Definition response : Type := AcceptVerdict * Receiver * list HookCall.

Definition drop_frame (v : Verdict) (reason : DropReason) (r : Receiver) : outcome response :=
  Ret (mkVerdict v reason, r, []).

(** The counter and the origin inside the Cap'n Proto frame. *)
Definition readGateFieldsFromCapnp (innerWire : list Z) : option (Z * list Z) :=
  match Unmarshal innerWire with
  | Err _ => None
  | Ok msg =>
      match ReadRootCRDTDeltaEvent msg with
      | Err _ => None
      | Ok ev =>
          match ev_OriginNodeID ev with
          | Err _ => None
          | Ok originBytes =>
              if negb (length originBytes =? 16)%nat then None else Some (ev_DotCounter ev, originBytes)
          end
      end
  end.

Definition readGateFields (env : RelayEnvelope) : option (Z * list Z) :=
  if re_version env =? envelopeVersion then Some (re_dotCounter env, re_originNodeID env)
  else readGateFieldsFromCapnp (re_innerWire env).

(** True: header and inner frame agree. *)
Definition crossCheckGateFields (env : RelayEnvelope) (verifiedInner : list Z) : bool :=
  match readGateFieldsFromCapnp verifiedInner with
  | None => false
  | Some (innerDotCounter, innerOriginNodeID) =>
      (re_dotCounter env =? innerDotCounter) && bool_decide (re_originNodeID env = innerOriginNodeID)
  end.

(** The callback after an apply that moved the clock. *)
Definition clock_hook (preAdvance : Z) (r : Receiver) : list HookCall :=
  let post := LamportCounter (clk (rv_engine r)) in
  if onClockAdvance (rv_hooks r) && (preAdvance <? post) then [HClockAdvance post] else [].

(** The verification of an origin signature on the classical paths. *)
Definition verify_origin (r : Receiver) (originPub msg sig : list Z) : bool :=
  if rv_hybridVerify r then VerifyCRDTFrame_Hybrid originPub None msg sig [] ""
  else VerifyCRDTFrame originPub msg sig.

(** From the depth gate on. *)
Definition verify_and_apply (preAdvance : Z) (frameBytes : list Z) (env : RelayEnvelope) (dotCounter : Z)
    (originNodeID : list Z) (r : Receiver) : outcome response :=
  match Open VerifyCRDTFrame (rv_maxHops r) env with
  | Err ErrHopBoundExceeded => drop_frame DropDepth (REnvelope ErrHopBoundExceeded) r
  | Err err => drop_frame DropVerify (REnvelope err) r
  | Ok (verifiedInner, _) =>
      match Lookup originNodeID (rv_dir r) with
      | None => drop_frame DropVerify RDirectoryMiss r
      | Some originPub =>
          if negb (verify_origin r originPub verifiedInner (re_originSig env)) then drop_frame DropVerify RSignature r
          else if (re_version env =? envelopeVersion) && negb (crossCheckGateFields env verifiedInner)
          then drop_frame DropVerify RDesync r
          else match ApplyCRDTDeltaEvent verifiedInner (rv_engine r) with
               | Panic m => Panic m
               | Ret (Some err, e) => drop_frame DropVerify (RApply err) (set_engine e r)
               | Ret (None, e) =>
                   let r := set_engine e r in
                   Ret (mkVerdict VAccept RNone, r,
                        clock_hook preAdvance r ++
                        (if onAcceptRelay (rv_hooks r) then [HAcceptRelay originNodeID dotCounter frameBytes] else []))
               end
      end
  end.

(** [now1] and [now2]: the wall clock as read for a frame without hops and by
    the clock cap. *)
Definition HandleFrame (now1 now2 : Z) (frameBytes : list Z) (r : Receiver) : outcome response :=
  let preAdvance := LamportCounter (clk (rv_engine r)) in
  match UnmarshalRelayEnvelope frameBytes with
  | Err err => drop_frame DropMalformed (REnvelope err) r
  | Ok env =>
      let hops := length (re_hops env) in
      match (if (0 <? hops)%nat then match readLastHop frameBytes hops with Some l => Some (Some l) | None => None end
             else Some None) with
      | None => drop_frame DropMalformed RLastHop r
      | Some lastHop =>
          match readGateFields env with
          | None => drop_frame DropMalformed RGateFields r
          | Some (dotCounter, originNodeID) =>
              let '(rate, bucket) :=
                match lastHop with
                | Some (pub, _) => Accept pub dotCounter (rv_bucket r)
                | None => (Keep, rv_bucket r)
                end in
              let r := set_bucket bucket r in
              if decide (rate = Drop) then drop_frame DropRate RRate r
              else
                let physUSec := match lastHop with Some (_, wall) => wall | None => now1 end in
                match Admit now2 physUSec dotCounter (rv_engine r) with
                | (false, _) => drop_frame DropClock RClock r
                | (true, e) => verify_and_apply preAdvance frameBytes env dotCounter originNodeID (set_engine e r)
                end
          end
      end
  end.

(** The origin's id, zero-extended to a bucket key. *)
Definition rateKey (originNodeID : list Z) : list Z := originNodeID ++ replicate 16 0.

(** From a verified batch wire on. *)
Definition apply_batch (preAdvance originSeq : Z) (batchWire frameBytes : list Z) (hybrid : bool) (r : Receiver) :
    outcome response :=
  match ApplyCRDTDeltaBatch batchWire (rv_engine r) with
  | Panic m => Panic m
  | Ret (Some err, e) => drop_frame DropVerify (RApply err) (set_engine e r)
  | Ret (None, e) =>
      let r := set_engine e r in
      let relay :=
        if onAcceptRelayBatch (rv_hooks r) then
          match InspectBatchDots batchWire with
          | Err _ => []
          | Ok (batchOrigin, dotCounters) => [HAcceptRelayBatch batchOrigin originSeq dotCounters frameBytes]
          end
        else [] in
      Ret (mkVerdict VAccept RNone, r,
           relay ++ (if hybrid && onHybridAccept (rv_hooks r) then [HHybridAccept] else []) ++ clock_hook preAdvance r)
  end.

Definition HandleBatchFrame (batchFrameBytes : list Z) (r : Receiver) : outcome response :=
  let preAdvance := LamportCounter (clk (rv_engine r)) in
  match UnmarshalBatchEnvelope batchFrameBytes with
  | Err ErrBatchUnsigned => drop_frame DropVerify (REnvelope ErrBatchUnsigned) r
  | Err err => drop_frame DropMalformed (REnvelope err) r
  | Ok env =>
      let originNodeID := bn_originNodeID env in
      let '(rate, bucket) := Accept (rateKey originNodeID) (bn_originSeq env) (rv_bucket r) in
      let r := set_bucket bucket r in
      if decide (rate = Drop) then drop_frame DropRate RRate (rateDropReason originNodeID r)
      else match Lookup originNodeID (rv_dir r) with
           | None => drop_frame DropVerify RDirectoryMiss r
           | Some originPub =>
               if negb (verify_origin r originPub (BatchWire env) (bn_originSig env))
               then drop_frame DropVerify RSignature r
               else apply_batch preAdvance (bn_originSeq env) (BatchWire env) batchFrameBytes false r
           end
  end.

Definition HandleHybridFrame (hybridFrameBytes : list Z) (r : Receiver) : outcome response :=
  if negb (rv_hybridVerify r) then drop_frame DropVerify RHybridOff r
  else
    let preAdvance := LamportCounter (clk (rv_engine r)) in
    match UnmarshalHybridFrame hybridFrameBytes with
    | Err ErrHybridUnsigned => drop_frame DropVerify (REnvelope ErrHybridUnsigned) r
    | Err err => drop_frame DropMalformed (REnvelope err) r
    | Ok env =>
        let originNodeID := hy_originNodeID env in
        let '(rate, bucket) := Accept (rateKey originNodeID) (hy_originSeq env) (rv_bucket r) in
        let r := set_bucket bucket r in
        if decide (rate = Drop) then drop_frame DropRate RRate (rateDropReason originNodeID r)
        else match LookupBoth originNodeID (rv_dir r) with
             | None => drop_frame DropVerify RDirectoryMiss r
             | Some (originPub, pqPub) =>
                 if negb (VerifyBatchHybrid originPub pqPub (HybridBatchWire env) (hy_edSig env) (hy_pqSig env) "")
                 then drop_frame DropVerify RSignature r
                 else apply_batch preAdvance (hy_originSeq env) (HybridBatchWire env) hybridFrameBytes true r
             end
    end.

(** pkg/mesh/digest.go *)
Definition DispatchFrame (now1 now2 : Z) (frame : list Z) (r : Receiver) : outcome response :=
  if IsBatchFrame frame then HandleBatchFrame frame r
  else if IsDigestFrame frame then
    Ret (mkVerdict VAccept RNone, r, if onDigest (rv_hooks r) then [HDigest frame] else [])
  else if IsHybridFrame frame then HandleHybridFrame frame r
  else HandleFrame now1 now2 frame r.

(** pkg/receive/batch_handle.go *)
Definition BatchAcceptCount (batchFrameBytes : list Z) : Z :=
  match UnmarshalBatchEnvelope batchFrameBytes with Err _ => 0 | Ok env => bn_batchCount env end.
Definition HybridAcceptCount (hybridFrameBytes : list Z) : Z :=
  match UnmarshalHybridFrame hybridFrameBytes with Err _ => 0 | Ok env => hy_batchCount env end.
End Receiver.
