(* ===== verification/ReceiverThms.v ===== *)
(** Properties of the receiver: what an accepted frame proves about itself, what
    a dropped one leaves behind, and what the gates do not protect. *)
From S2P Require Import Prelude Bytes Sha256 Dots Hamt HamtMap Lamport Sorting Engine EngineInv.
From S2P Require Import JoinSpec EngineThms Reconstruct Envelope Admission Identity Apply.
From S2P Require Import Receiver.

Section Thms.
Context `{MH : MapHash} `{SS : SliceSort} `{CP : Capnp} `{CR : Crypto}.

(** ** Inversions *)

Lemma apply_event_err wire e err e' : ApplyCRDTDeltaEvent wire e = Ret (Some err, e') → e' = e.
Proof.
  unfold ApplyCRDTDeltaEvent. destruct (decode_event wire); [|by intros [= _ <-]].
  destruct (ReconstructEntryWithSkewBound _ _); [|by intros [= _ <-]]. by destruct (Join _ _).
Qed.

Lemma apply_batch_err wire e err e' : ApplyCRDTDeltaBatch wire e = Ret (Some err, e') → e' = e.
Proof.
  unfold ApplyCRDTDeltaBatch. destruct (decode_batch wire); [|by intros [= _ <-]].
  destruct (reconstruct_all _ _ _); [|by intros [= _ <-]]. by destruct (Join _ _).
Qed.

(** The parts of a receiver no frame changes. *)
Definition same_config (r r' : Receiver) : Prop :=
  rv_dir r' = rv_dir r ∧ rv_maxHops r' = rv_maxHops r ∧ rv_hybridVerify r' = rv_hybridVerify r ∧
  rv_hooks r' = rv_hooks r.

(** The engine of a receiver once the clock cap has admitted [dotCounter]. *)
Definition admitted (dotCounter : Z) (e : Engine) : Engine := with_clk (AdvanceLamportTo dotCounter (clk e)) e.

Lemma set_engine_id r : set_engine (rv_engine r) r = r.
Proof. by destruct r. Qed.

(** Everything HandleFrame checked before it accepted. *)
Record relay_accepted (frame : list Z) (r r' : Receiver) (hs : list HookCall) (env : RelayEnvelope) (dotCounter : Z)
    (originNodeID : list Z) : Prop := {
  ra_parsed : UnmarshalRelayEnvelope frame = Ok env;
  ra_fields : readGateFields env = Some (dotCounter, originNodeID);
  ra_rate : ∀ pub wall, (0 < length (re_hops env))%nat → readLastHop frame (length (re_hops env)) = Some (pub, wall) →
    (Accept pub dotCounter (rv_bucket r)).1 = Keep;
  ra_open : Open VerifyCRDTFrame (rv_maxHops r) env = Ok (re_innerWire env, length (re_hops env));
  ra_origin : ∃ pub, Lookup originNodeID (rv_dir r) = Some pub ∧
    verify_origin r pub (re_innerWire env) (re_originSig env) = true;
  ra_cross : re_version env = envelopeVersion → crossCheckGateFields env (re_innerWire env) = true;
  ra_apply : ApplyCRDTDeltaEvent (re_innerWire env) (admitted dotCounter (rv_engine r)) = Ret (None, rv_engine r');
  ra_config : same_config r r';
  ra_hooks : hs = clock_hook (LamportCounter (clk (rv_engine r))) r' ++
    (if onAcceptRelay (rv_hooks r) then [HAcceptRelay originNodeID dotCounter frame] else []);
}.

(** A dropped frame: no callback, and the engine as it was but for the clock. *)
Definition relay_dropped (frame : list Z) (r r' : Receiver) (hs : list HookCall) : Prop :=
  hs = [] ∧ same_config r r' ∧
  (rv_engine r' = rv_engine r ∨
   ∃ env dotCounter id, UnmarshalRelayEnvelope frame = Ok env ∧ readGateFields env = Some (dotCounter, id) ∧
     rv_engine r' = admitted dotCounter (rv_engine r)).

Lemma Open_Ok_inner verify m e x n : Open verify m e = Ok (x, n) → x = re_innerWire e ∧ n = length (re_hops e).
Proof. unfold Open. destruct (_ <? _); [done|]. destruct (open_hops _ _ _ _ _); [done|]. by intros [= <- <-]. Qed.

Lemma verify_and_apply_inv pre frame env dc id r0 r v r' hs :
  UnmarshalRelayEnvelope frame = Ok env → readGateFields env = Some (dc, id) →
  rv_engine r0 = admitted dc (rv_engine r) → same_config r r0 → pre = LamportCounter (clk (rv_engine r)) →
  (∀ pub wall, (0 < length (re_hops env))%nat → readLastHop frame (length (re_hops env)) = Some (pub, wall) →
     (Accept pub dc (rv_bucket r)).1 = Keep) →
  verify_and_apply pre frame env dc id r0 = Ret (v, r', hs) →
  (v = mkVerdict VAccept RNone ∧ relay_accepted frame r r' hs env dc id) ∨
  (av_Verdict v ≠ VAccept ∧ relay_dropped frame r r' hs).
Proof.
  intros Hp Hf He Hcfg -> Hrate H. pose proof Hcfg as (Hd & Hm & Hv & Hh). unfold verify_and_apply in H.
  assert (∀ v0 reason, drop_frame v0 reason r0 = Ret (v, r', hs) → v0 ≠ VAccept →
    av_Verdict v ≠ VAccept ∧ relay_dropped frame r r' hs) as Hdrop.
  { intros v0 reason [= <- <- <-] Hne. split; [done|]. split_and!; [done|done|]. right. by exists env, dc, id. }
  destruct (Open _ _ _) as [[inner n]|err] eqn:Ho.
  2: { right. destruct err; by apply (Hdrop _ _ H). }
  pose proof Ho as [-> ->]%Open_Ok_inner.
  destruct (Lookup id (rv_dir r0)) as [pub|] eqn:Hl; [|right; by apply (Hdrop _ _ H)].
  destruct (verify_origin _ _ _ _) eqn:Hvo; simpl negb in H; cbv iota in H; [|right; by apply (Hdrop _ _ H)].
  destruct (_ && _) eqn:Hc; [right; by apply (Hdrop _ _ H)|].
  destruct (ApplyCRDTDeltaEvent _ _) as [[[err|] e]|] eqn:Ha; [| |done].
  - right. apply apply_event_err in Ha as ->. rewrite set_engine_id in H. by apply (Hdrop _ _ H).
  - left. cbv zeta in H. injection H as <- <- <-. split; [done|]. split; try done.
    + by rewrite <- Hm.
    + exists pub. rewrite Hd in Hl. split; [done|]. unfold verify_origin in *. by rewrite <- Hv.
    + intros Hver. rewrite Hver in Hc. simpl in Hc. by destruct (crossCheckGateFields _ _).
    + simpl. by rewrite <- He.
    + rewrite <- Hh. done.
Qed.

Lemma HandleFrame_inv now1 now2 frame r v r' hs :
  HandleFrame now1 now2 frame r = Ret (v, r', hs) →
  (v = mkVerdict VAccept RNone ∧ ∃ env dc id, relay_accepted frame r r' hs env dc id) ∨
  (av_Verdict v ≠ VAccept ∧ relay_dropped frame r r' hs).
Proof.
  unfold HandleFrame.
  assert (∀ v0 reason b, drop_frame v0 reason (set_bucket b r) = Ret (v, r', hs) → v0 ≠ VAccept →
    av_Verdict v ≠ VAccept ∧ relay_dropped frame r r' hs) as Hdrop.
  { intros v0 reason b [= <- <- <-] Hne. split; [done|]. split_and!; [done|done|]. by left. }
  assert (∀ v0 reason, drop_frame v0 reason r = Ret (v, r', hs) → v0 ≠ VAccept →
    av_Verdict v ≠ VAccept ∧ relay_dropped frame r r' hs) as Hdrop0.
  { intros v0 reason [= <- <- <-] Hne. split; [done|]. split_and!; [done|done|]. by left. }
  destruct (UnmarshalRelayEnvelope frame) as [env|err] eqn:Hp; [|intros H; right; by apply (Hdrop0 _ _ H)].
  set (lh := if (0 <? length (re_hops env))%nat then _ else _).
  destruct lh as [lastHop|] eqn:Hlh; [|intros H; right; by apply (Hdrop0 _ _ H)].
  destruct (readGateFields env) as [[dc id]|] eqn:Hf; [|intros H; right; by apply (Hdrop0 _ _ H)].
  set (ra := match lastHop with Some _ => _ | None => _ end). destruct ra as [rate bucket] eqn:Hra. cbv zeta.
  destruct (decide (rate = Drop)) as [|Hk]; [right; by eapply Hdrop|].
  destruct (Admit _ _ _ _) as [[|] e] eqn:Had; [|intros H; right; by apply (Hdrop _ _ _ H)].
  assert (e = admitted dc (rv_engine r)) as ->.
  { unfold Admit in Had. destruct (_ <? _); [done|]. by injection Had as <-. }
  intros H. eapply verify_and_apply_inv in H as [[? ?]|?]; [| |exact Hp|exact Hf|done|done|done|].
  3: { intros pub wall Hn Hrl. subst lh ra. rewrite (proj2 (Nat.ltb_lt _ _) Hn), Hrl in Hlh.
       injection Hlh as <-. rewrite Hra. by destruct rate. }
  - left. split; [done|]. eauto.
  - by right.
Qed.

(** What a batch path checked before it accepted: [ok] is its signature check. *)
Record batch_accepted (frame originNodeID wire : list Z) (originSeq : Z) (r r' : Receiver) : Prop := {
  ba_rate : (Accept (rateKey originNodeID) originSeq (rv_bucket r)).1 = Keep;
  ba_apply : ApplyCRDTDeltaBatch wire (rv_engine r) = Ret (None, rv_engine r');
  ba_config : same_config r r';
}.

Lemma apply_batch_inv pre seq wire frame hybrid b r v r' hs :
  apply_batch pre seq wire frame hybrid (set_bucket b r) = Ret (v, r', hs) →
  (v = mkVerdict VAccept RNone ∧ ApplyCRDTDeltaBatch wire (rv_engine r) = Ret (None, rv_engine r') ∧ same_config r r') ∨
  (av_Verdict v ≠ VAccept ∧ hs = [] ∧ same_config r r' ∧ rv_engine r' = rv_engine r).
Proof.
  unfold apply_batch. simpl rv_engine. destruct (ApplyCRDTDeltaBatch _ _) as [[[err|] e]|] eqn:Ha; [| |done].
  - apply apply_batch_err in Ha as ->. intros [= <- <- <-]. by right.
  - cbv zeta. intros [= <- <- <-]. by left.
Qed.

Lemma HandleBatchFrame_inv frame r v r' hs :
  HandleBatchFrame frame r = Ret (v, r', hs) →
  (v = mkVerdict VAccept RNone ∧ ∃ env pub, UnmarshalBatchEnvelope frame = Ok env ∧
     Lookup (bn_originNodeID env) (rv_dir r) = Some pub ∧
     verify_origin r pub (BatchWire env) (bn_originSig env) = true ∧
     batch_accepted frame (bn_originNodeID env) (BatchWire env) (bn_originSeq env) r r') ∨
  (av_Verdict v ≠ VAccept ∧ hs = [] ∧ same_config r r' ∧ rv_engine r' = rv_engine r).
Proof.
  unfold HandleBatchFrame. destruct (UnmarshalBatchEnvelope frame) as [env|err] eqn:Hp.
  2: { destruct err; intros [= <- <- <-]; by right. }
  destruct (Accept _ _ _) as [rate b] eqn:Hra. cbv zeta.
  destruct (decide (rate = Drop)) as [|Hk]; [intros [= <- <- <-]; by right|].
  simpl rv_dir. destruct (Lookup _ _) as [pub|] eqn:Hl; [|intros [= <- <- <-]; by right].
  destruct (verify_origin _ _ _ _) eqn:Hv; [|intros [= <- <- <-]; by right]. simpl negb. cbv iota.
  intros H. apply apply_batch_inv in H as [(-> & Ha & Hc)|?]; [left|by right]. split; [done|].
  exists env, pub. split_and!; [done|done|exact Hv|]. split; [|done|done]. rewrite Hra. by destruct rate.
Qed.

Lemma HandleHybridFrame_inv frame r v r' hs :
  HandleHybridFrame frame r = Ret (v, r', hs) →
  (v = mkVerdict VAccept RNone ∧ rv_hybridVerify r = true ∧ ∃ env pub pq, UnmarshalHybridFrame frame = Ok env ∧
     LookupBoth (hy_originNodeID env) (rv_dir r) = Some (pub, pq) ∧
     VerifyBatchHybrid pub pq (HybridBatchWire env) (hy_edSig env) (hy_pqSig env) "" = true ∧
     batch_accepted frame (hy_originNodeID env) (HybridBatchWire env) (hy_originSeq env) r r') ∨
  (av_Verdict v ≠ VAccept ∧ hs = [] ∧ same_config r r' ∧ rv_engine r' = rv_engine r).
Proof.
  unfold HandleHybridFrame. destruct (rv_hybridVerify r) eqn:Hhy; [|intros [= <- <- <-]; by right].
  simpl negb. cbv iota. destruct (UnmarshalHybridFrame frame) as [env|err] eqn:Hp.
  2: { destruct err; intros [= <- <- <-]; by right. }
  destruct (Accept _ _ _) as [rate b] eqn:Hra. cbv zeta.
  destruct (decide (rate = Drop)) as [|Hk]; [intros [= <- <- <-]; by right|].
  simpl rv_dir. destruct (LookupBoth _ _) as [[pub pq]|] eqn:Hl; [|intros [= <- <- <-]; by right].
  destruct (VerifyBatchHybrid _ _ _ _ _ _) eqn:Hv; [|intros [= <- <- <-]; by right]. simpl negb. cbv iota.
  intros H. apply apply_batch_inv in H as [(-> & Ha & Hc)|?]; [left|by right]. split_and!; [done|done|].
  exists env, pub, pq. split_and!; [done|done|exact Hv|]. split; [|done|done]. rewrite Hra. by destruct rate.
Qed.

(** ** What an accepted frame proves about itself *)

(** The receiver's evidence for the events a frame carries, and the engine they
    are joined onto: the receiver's own, whose clock the clock gate of the relay
    path has first advanced to the verified counter. *)
Inductive authentic (r : Receiver) (frame : list Z) : Engine → list CRDTDeltaEvent → Prop :=
| auth_relay env dotCounter originNodeID pub ev :
    UnmarshalRelayEnvelope frame = Ok env →
    Z.of_nat (length (re_hops env)) <= rv_maxHops r →
    (∀ i, hop_ok VerifyCRDTFrame (re_innerWire env) (re_hops env) i = true) →
    Lookup originNodeID (rv_dir r) = Some pub →
    verify_origin r pub (re_innerWire env) (re_originSig env) = true →
    readGateFields env = Some (dotCounter, originNodeID) →
    readGateFieldsFromCapnp (re_innerWire env) = Some (dotCounter, originNodeID) →
    decode_event (re_innerWire env) = Ok ev → ev_DotCounter ev = dotCounter → ev_OriginNodeID ev = Ok originNodeID →
    authentic r frame (with_clk (AdvanceLamportTo dotCounter (clk (rv_engine r))) (rv_engine r)) [ev]
| auth_batch env pub events :
    UnmarshalBatchEnvelope frame = Ok env → Lookup (bn_originNodeID env) (rv_dir r) = Some pub →
    verify_origin r pub (BatchWire env) (bn_originSig env) = true → decode_batch (BatchWire env) = Ok events →
    authentic r frame (rv_engine r) events
| auth_hybrid env pub k events :
    UnmarshalHybridFrame frame = Ok env → LookupBoth (hy_originNodeID env) (rv_dir r) = Some (pub, Some k) →
    VerifyCRDTFrame pub (HashBatchWireToFrame120 (HybridBatchWire env)) (hy_edSig env) = true →
    mldsa_Verify k (HashBatchWireToFrame120 (HybridBatchWire env)) (hy_pqSig env) "" = true →
    decode_batch (HybridBatchWire env) = Ok events → authentic r frame (rv_engine r) events.

Lemma Open_Ok_iff verify m e :
  Open verify m e = Ok (re_innerWire e, length (re_hops e)) →
  Z.of_nat (length (re_hops e)) <= m ∧ ∀ i, hop_ok verify (re_innerWire e) (re_hops e) i = true.
Proof.
  intros Ho. split.
  - unfold Open in Ho. by destruct (Z.ltb_spec m (Z.of_nat (length (re_hops e)))).
  - intros i. unfold hop_ok. destruct (re_hops e !! i) eqn:Hi; [|done]. by eapply open_hop_verifies.
Qed.

Lemma apply_event_ok wire e e' :
  ApplyCRDTDeltaEvent wire e = Ret (None, e') →
  ∃ ev p, decode_event wire = Ok ev ∧ accepted (Clock_snapshot (clk e)) ev p ∧ Join (Some [p]) e = Ret e'.
Proof.
  intros H. destruct (decode_event wire) as [ev|err] eqn:Hd.
  - destruct (apply_event_cases wire ev e Hd) as [(p & Hp & Ha)|(w & _ & Ha)]; rewrite Ha in H; [|done].
    exists ev, p. split_and!; [done|done|]. destruct (Join (Some [p]) e); [|done]. by injection H as <-.
  - unfold ApplyCRDTDeltaEvent in H. by rewrite Hd in H.
Qed.

Lemma apply_batch_ok wire e e' :
  ApplyCRDTDeltaBatch wire e = Ret (None, e') →
  ∃ evs ps, decode_batch wire = Ok evs ∧ Forall2 (accepted (Clock_snapshot (clk e))) evs ps ∧
    Join (Some ps) e = Ret e'.
Proof.
  unfold ApplyCRDTDeltaBatch. destruct (decode_batch wire) as [evs|] eqn:Hd; [|done]. cbv zeta.
  destruct (reconstruct_all _ _ _) as [ps|] eqn:Hr; [|done]. apply reconstruct_all_Ok in Hr.
  destruct (Join _ _) as [e1|] eqn:Hj; [|done]. intros [= <-]. by exists evs, ps.
Qed.

(** Gate fields and event are read from the same message. *)
Lemma gate_fields_event wire ev dc id :
  readGateFieldsFromCapnp wire = Some (dc, id) → decode_event wire = Ok ev →
  ev_DotCounter ev = dc ∧ ev_OriginNodeID ev = Ok id ∧ length id = 16%nat.
Proof.
  unfold readGateFieldsFromCapnp, decode_event. destruct (Unmarshal wire) as [m|]; [|done]. simpl.
  destruct (ReadRootCRDTDeltaEvent m) as [ev'|]; [|done]. simpl.
  destruct (ev_OriginNodeID ev') as [o|] eqn:Ho; [|done].
  destruct (Nat.eqb_spec (length o) 16); [|done]. simpl. intros [= <- <-].
  destruct (_ =? _); [|done]. by intros [= <-].
Qed.

Lemma relay_gate_fields frame r r' hs env dc id :
  relay_accepted frame r r' hs env dc id → readGateFieldsFromCapnp (re_innerWire env) = Some (dc, id).
Proof.
  intros H. pose proof (ra_fields _ _ _ _ _ _ _ H) as Hf. pose proof (ra_cross _ _ _ _ _ _ _ H) as Hc.
  unfold readGateFields in Hf. destruct (Z.eqb_spec (re_version env) envelopeVersion) as [E|]; [|done].
  specialize (Hc E). injection Hf as <- <-. unfold crossCheckGateFields in Hc.
  destruct (readGateFieldsFromCapnp _) as [[dc' id']|]; [|done]. apply andb_true_iff in Hc as [H1 H2].
  apply Z.eqb_eq in H1. apply bool_decide_eq_true in H2. congruence.
Qed.

Lemma PointGet_admitted dc e k : PointGet (admitted dc e) k = PointGet e k.
Proof. done. Qed.

Lemma lamport_admitted dc e : lamportCounter (clk (admitted dc e)) = Z.max (lamportCounter (clk e)) dc.
Proof. apply AdvanceLamportTo_max. Qed.

(** ** Properties *)

(** C8. Only authentic state is merged.  When a relay, batch or hybrid frame is
    accepted, its envelope parsed, the directory knows the origin its header
    names, and that origin's signature (both signatures on the hybrid path)
    verifies over the exact bytes that were decoded.  On the relay path all hop
    signatures verified within the depth bound, and the counter and origin the
    gates used are those of the decoded event; a batch's events may name other
    origins than its header, for only the bytes are signed.  Every event passed
    the seam against the engine [e0], and the new engine is one Join of exactly
    these events onto [e0]: the receiver's engine itself on the batch and hybrid
    paths, that engine with its clock advanced to the event's counter on the
    relay path. *)
Theorem accepted_frame_is_authentic (now1 now2 : Z) (frame : list Z) (r r' : Receiver) (v : AcceptVerdict) (hs : list HookCall) :
  DispatchFrame now1 now2 frame r = Ret (v, r', hs) → av_Verdict v = VAccept → IsDigestFrame frame = false →
  ∃ events pairs e0, authentic r frame e0 events ∧
    Forall2 (accepted (Clock_snapshot (clk e0))) events pairs ∧ Join (Some pairs) e0 = Ret (rv_engine r') ∧
    same_config r r'.
Proof.
  intros H Hv Hdig. unfold DispatchFrame in H. rewrite Hdig in H. destruct (IsBatchFrame frame).
  - apply HandleBatchFrame_inv in H as [(_ & env & pub & Hp & Hl & Hs & Hb)|(? & _)]; [|done].
    destruct (apply_batch_ok _ _ _ (ba_apply _ _ _ _ _ _ Hb)) as (evs & ps & Hd & Hf & Hj).
    exists evs, ps, (rv_engine r). split_and!; [by eapply auth_batch|done|done|apply Hb].
  - destruct (IsHybridFrame frame).
    + apply HandleHybridFrame_inv in H as [(_ & _ & env & pub & pq & Hp & Hl & Hs & Hb)|(? & _)]; [|done].
      destruct (VerifyBatchHybrid_true _ _ _ _ _ _ Hs) as (k & -> & _ & He & Hq).
      destruct (apply_batch_ok _ _ _ (ba_apply _ _ _ _ _ _ Hb)) as (evs & ps & Hd & Hf & Hj).
      exists evs, ps, (rv_engine r). split_and!; [by eapply auth_hybrid|done|done|apply Hb].
    + apply HandleFrame_inv in H as [(_ & env & dc & id & Ha)|[? _]]; [|done].
      destruct (apply_event_ok _ _ _ (ra_apply _ _ _ _ _ _ _ Ha)) as (ev & p & Hd & Hacc & Hj).
      pose proof (relay_gate_fields _ _ _ _ _ _ _ Ha) as Hg.
      destruct (gate_fields_event _ _ _ _ Hg Hd) as (Hdc & Ho & _).
      destruct (Open_Ok_iff _ _ _ (ra_open _ _ _ _ _ _ _ Ha)) as [Hn Hhops].
      destruct (ra_origin _ _ _ _ _ _ _ Ha) as (pub & Hl & Hs).
      exists [ev], [p], (admitted dc (rv_engine r)). split_and!; [| |done|apply Ha].
      * pose proof (ra_fields _ _ _ _ _ _ _ Ha). unfold admitted. by eapply auth_relay; [apply Ha|..].
      * by constructor.
Qed.

(** C32. A dropped frame leaves no trace in the state: whatever bytes arrive, a
    verdict other than Accept means that no callback ran, configuration and
    directory are as before, and every entity reads as before; the clock is as
    before, or raised to the counter in the header of the dropped frame. *)
Theorem dropped_frame_leaves_state (now1 now2 : Z) (frame : list Z) (r r' : Receiver) (v : AcceptVerdict) (hs : list HookCall) :
  DispatchFrame now1 now2 frame r = Ret (v, r', hs) → av_Verdict v ≠ VAccept →
  hs = [] ∧ same_config r r' ∧ eng_equiv (rv_engine r') (rv_engine r) ∧
  (clk (rv_engine r') = clk (rv_engine r) ∨
   ∃ env dc id, UnmarshalRelayEnvelope frame = Ok env ∧ readGateFields env = Some (dc, id) ∧
     lamportCounter (clk (rv_engine r')) = Z.max (lamportCounter (clk (rv_engine r))) dc).
Proof.
  intros H Hv. unfold DispatchFrame in H. destruct (IsBatchFrame frame).
  { apply HandleBatchFrame_inv in H as [(-> & _)|(_ & -> & Hc & ->)]; [done|]. split_and!; [done|done|done|by left]. }
  destruct (IsDigestFrame frame); [injection H as <- _ _; done|]. destruct (IsHybridFrame frame).
  { apply HandleHybridFrame_inv in H as [(-> & _)|(_ & -> & Hc & ->)]; [done|]. split_and!; [done|done|done|by left]. }
  apply HandleFrame_inv in H as [(-> & _)|(_ & -> & Hc & He)]; [done|]. split_and!; [done|done| |].
  - by destruct He as [->|(env & dc & id & _ & _ & ->)].
  - destruct He as [->|(env & dc & id & Hp & Hg & ->)]; [by left|right]. exists env, dc, id.
    split_and!; [done|done|apply lamport_admitted].
Qed.

(** Strict hybrid mode: with --hybrid-verify no classical relay or batch
    frame is ever accepted, and without it no hybrid frame is, nor does one cost
    the origin any budget. *)
Theorem hybrid_mode_is_strict (now1 now2 : Z) (frame : list Z) (r r' : Receiver) (v : AcceptVerdict) (hs : list HookCall) :
  (rv_hybridVerify r = true →
     HandleFrame now1 now2 frame r = Ret (v, r', hs) ∨ HandleBatchFrame frame r = Ret (v, r', hs) →
     av_Verdict v ≠ VAccept) ∧
  (rv_hybridVerify r = false → HandleHybridFrame frame r = Ret (mkVerdict DropVerify RHybridOff, r, [])).
Proof.
  split.
  - intros Hh [H|H].
    + apply HandleFrame_inv in H as [(_ & env & dc & id & Ha)|[? _]]; [|done].
      destruct (ra_origin _ _ _ _ _ _ _ Ha) as (pub & _ & Hs). unfold verify_origin in Hs.
      by rewrite Hh, hybrid_needs_pq in Hs.
    + apply HandleBatchFrame_inv in H as [(_ & env & pub & _ & _ & Hs & _)|(? & _)]; [|done].
      unfold verify_origin in Hs. by rewrite Hh, hybrid_needs_pq in Hs.
  - intros Hh. unfold HandleHybridFrame. by rewrite Hh.
Qed.
End Thms.
