(* ===== verification/ReceiverSec.v ===== *)
(** The receiver under hostile frames: it never panics and keeps its invariant;
    the skew bound is vacuous behind the clock cap; a frame nobody signed moves
    the clock to its end; and a registered peer can write in another's name. *)
From S2P Require Import Prelude Bytes Sha256 Dots Hamt HamtMap Lamport Sorting Engine EngineInv.
From S2P Require Import JoinSpec EngineThms Reconstruct Envelope Admission Identity Apply.
From S2P Require Import Receiver ReceiverThms.

(** The generated accessors of UInt64 fields return 64-bit values. *)
Class CapnpTyped (CP : Capnp) := {
  event_counter_u64 : ∀ m ev, ReadRootCRDTDeltaEvent m = Ok ev → is_u64 (ev_DotCounter ev);
  events_counter_u64 : ∀ b evs, Events b = Ok evs → Forall (λ ev, is_u64 (ev_DotCounter ev)) evs;
}.

Section Sec.
Context `{MH : MapHash} `{SS : SliceSort} `{CP : Capnp} `{CT : !CapnpTyped CP} `{CR : Crypto}.

Lemma decode_event_u64 wire ev : decode_event wire = Ok ev → is_u64 (ev_DotCounter ev).
Proof.
  unfold decode_event. rewrite result_bind_Ok. intros (m & _ & (ev' & Hr & H)%result_bind_Ok).
  destruct (_ =? _); [|done]. injection H as <-. unfold wrap in Hr.
  destruct (ReadRootCRDTDeltaEvent m) eqn:E; [|done]. injection Hr as <-. by eapply event_counter_u64.
Qed.

Lemma decode_batch_u64 wire evs : decode_batch wire = Ok evs → Forall (λ ev, is_u64 (ev_DotCounter ev)) evs.
Proof.
  unfold decode_batch. rewrite result_bind_Ok. intros (m & _ & (b & _ & H)%result_bind_Ok).
  unfold wrap in H. destruct (Events b) eqn:E; [|done]. injection H as <-. by eapply events_counter_u64.
Qed.

(** ** The invariant *)

Definition receiver_ok (r : Receiver) : Prop :=
  wf_engine (rv_engine r) ∧ dominates (rv_engine r) ∧ closing (rv_engine r) = false ∧ bucket_ok (rv_bucket r).

Lemma wf_admitted dc e : is_u64 dc → wf_engine e → dominates e → wf_engine (admitted dc e) ∧ dominates (admitted dc e).
Proof.
  intros Hu [Hs Hc] Hd. split; [split; [done|by apply wf_AdvanceLamportTo]|].
  intros k x Hx. rewrite lamport_admitted. specialize (Hd k x Hx). lia.
Qed.

Lemma join_ok pairs e :
  wf_engine e → dominates e → closing e = false → Forall (λ ie, is_u64 (DotCounter ie.2)) pairs →
  ∃ e', Join (Some pairs) e = Ret e' ∧ wf_engine e' ∧ dominates e' ∧ closing e' = false.
Proof.
  intros Hwf Hd Hcl Hf. destruct (join_ret pairs e Hwf Hcl Hf) as (e' & _ & _ & Hj & Hwf' & _ & _ & _ & _ & Hcl' & _).
  exists e'. split_and!; [done|done| |congruence].
  by destruct (step_join_inv pairs e e' Hf Hj Hwf Hd).
Qed.

Lemma apply_event_total wire e :
  wf_engine e → dominates e → closing e = false →
  ∃ err e', ApplyCRDTDeltaEvent wire e = Ret (err, e') ∧ wf_engine e' ∧ dominates e' ∧ closing e' = false.
Proof.
  intros Hwf Hd Hcl. destruct (decode_event wire) as [ev|err] eqn:He.
  - destruct (apply_event_cases wire ev e He) as [(p & Hp & ->)|(w & _ & ->)]; [|eauto 6].
    destruct (accepted_counter _ _ _ Hp) as [Hc _].
    destruct (join_ok [p] e Hwf Hd Hcl) as (e' & Hj & ?).
    { constructor; [|done]. rewrite Hc. by eapply decode_event_u64. }
    exists None, e'. split; [|done].
    match goal with |- context [Join ?d e] => replace (Join d e) with (Ret e') by (symmetry; exact Hj) end. done.
  - unfold ApplyCRDTDeltaEvent. rewrite He. eauto 6.
Qed.

Lemma apply_batch_total wire e :
  wf_engine e → dominates e → closing e = false →
  ∃ err e', ApplyCRDTDeltaBatch wire e = Ret (err, e') ∧ wf_engine e' ∧ dominates e' ∧ closing e' = false.
Proof.
  intros Hwf Hd Hcl. unfold ApplyCRDTDeltaBatch. destruct (decode_batch wire) as [evs|err] eqn:He; [|eauto 6].
  cbv zeta. destruct (reconstruct_all _ _ _) as [ps|err] eqn:Hr; [|eauto 6]. apply reconstruct_all_Ok in Hr.
  destruct (accepted_counters _ _ _ Hr (decode_batch_u64 _ _ He)) as [Hu _].
  destruct (join_ok ps e Hwf Hd Hcl Hu) as (e' & Hj & ?). exists None, e'. split; [|done].
  match goal with |- context [Join ?d e] => replace (Join d e) with (Ret e') by (symmetry; exact Hj) end. done.
Qed.

Lemma verify_and_apply_total pre frame env dc id r :
  receiver_ok r → ∃ v r' hs, verify_and_apply pre frame env dc id r = Ret (v, r', hs) ∧ receiver_ok r'.
Proof.
  intros Hr. pose proof Hr as (Hwf & Hd & Hcl & Hb). unfold verify_and_apply.
  destruct (Open _ _ _) as [[inner n]|err]; [|destruct err; by eexists _, _, _].
  destruct (Lookup _ _); [|by eexists _, _, _]. destruct (negb _); [by eexists _, _, _|].
  destruct (_ && _); [by eexists _, _, _|].
  destruct (apply_event_total inner (rv_engine r) Hwf Hd Hcl) as ([err|] & e' & -> & ? & ? & ?); by eexists _, _, _.
Qed.

Lemma apply_batch_ret pre seq wire frame hybrid r :
  receiver_ok r → ∃ v r' hs, apply_batch pre seq wire frame hybrid r = Ret (v, r', hs) ∧ receiver_ok r'.
Proof.
  intros (Hwf & Hd & Hcl & Hb). unfold apply_batch.
  destruct (apply_batch_total wire (rv_engine r) Hwf Hd Hcl) as ([err|] & e' & -> & ? & ? & ?); by eexists _, _, _.
Qed.

Lemma receiver_ok_bucket pub c r :
  receiver_ok r → 0 <= c → receiver_ok (set_bucket (Accept pub c (rv_bucket r)).2 r).
Proof. intros (? & ? & ? & Hb) Hc. split_and!; try done. simpl. by apply Accept_spec. Qed.

Lemma readGateFields_u64 env dc id : wf_relay env → readGateFields env = Some (dc, id) → is_u64 dc.
Proof.
  intros (_ & _ & Hu & _). unfold readGateFields. destruct (_ =? _); [by intros [= <- _]|].
  unfold readGateFieldsFromCapnp. destruct (Unmarshal _); [|done].
  destruct (ReadRootCRDTDeltaEvent _) eqn:E; [|done]. destruct (ev_OriginNodeID _); [|done].
  destruct (negb _); [done|]. intros [= <- _]. by eapply event_counter_u64.
Qed.

Lemma HandleFrame_total now1 now2 frame r :
  is_bytes frame → receiver_ok r →
  ∃ v r' hs, HandleFrame now1 now2 frame r = Ret (v, r', hs) ∧ receiver_ok r'.
Proof.
  intros Hby Hr. unfold HandleFrame. destruct (UnmarshalRelayEnvelope frame) as [env|err] eqn:Hp; [|by eexists _, _, _].
  destruct (unmarshal_relay_wf _ _ Hby Hp) as [Hwf _].
  destruct (if (0 <? _)%nat then _ else _) as [lastHop|]; [|by eexists _, _, _].
  destruct (readGateFields env) as [[dc id]|] eqn:Hg; [|by eexists _, _, _].
  pose proof (readGateFields_u64 _ _ _ Hwf Hg) as Hu.
  assert (∃ rate b, match lastHop with Some (pub, _) => Accept pub dc (rv_bucket r) | None => (Keep, rv_bucket r) end
    = (rate, b) ∧ receiver_ok (set_bucket b r)) as (rate & b & -> & Hr').
  { destruct lastHop as [[pub wall]|].
    - eexists _, _. split; [apply surjective_pairing|]. apply receiver_ok_bucket; [done|words].
    - eexists _, _. split; [done|]. by destruct r. }
  cbv zeta. destruct (decide _); [by eexists _, _, _|].
  destruct (Admit _ _ _ _) as [[|] e] eqn:Ha; [|by eexists _, _, _].
  apply verify_and_apply_total. unfold Admit in Ha. destruct (_ <? _); [done|]. injection Ha as <-.
  destruct Hr' as (H1 & H2 & H3 & H4). destruct (wf_admitted dc _ Hu H1 H2). by split_and!.
Qed.

(** C24. For any bytes on any path an open, well-formed receiver returns a
    verdict and does not panic, and keeps engine, clock and rate buckets well
    formed. The engine here has no arena: the panic of an exhausted arena
    (hamt_arena.go:548, 660, 822), which a Join can reach like any allocation,
    is outside this statement and an outcome of the trie's operations in
    HamtHeap. *)
Theorem receiver_survives_any_frame (now1 now2 : Z) (frame : list Z) (r : Receiver) :
  is_bytes frame → receiver_ok r →
  ∃ v r' hs, DispatchFrame now1 now2 frame r = Ret (v, r', hs) ∧ receiver_ok r'.
Proof.
  intros Hby Hr. unfold DispatchFrame. destruct (IsBatchFrame frame).
  { unfold HandleBatchFrame. destruct (UnmarshalBatchEnvelope frame) as [env|err] eqn:Hp.
    2: { destruct err; by eexists _, _, _. }
    assert (0 <= bn_originSeq env) as Hs.
    { destruct (unmarshal_batch_typed _ _ Hby Hp) as [(_ & _ & Hu & _) _]. words. }
    pose proof (receiver_ok_bucket (rateKey (bn_originNodeID env)) _ _ Hr Hs) as Hr'.
    destruct (Accept _ _ _) as [rate b]. simpl in Hr'. cbv zeta.
    destruct (decide _); [by eexists _, _, _|]. destruct (Lookup _ _); [|by eexists _, _, _].
    destruct (negb _); [by eexists _, _, _|]. by apply apply_batch_ret. }
  destruct (IsDigestFrame frame); [by eexists _, _, _|]. destruct (IsHybridFrame frame); [|by apply HandleFrame_total].
  unfold HandleHybridFrame. destruct (negb _); [by eexists _, _, _|].
  destruct (UnmarshalHybridFrame frame) as [env|err] eqn:Hp; [|destruct err; by eexists _, _, _].
  assert (0 <= hy_originSeq env) as Hs.
  { destruct (unmarshal_hybrid_typed _ _ Hby Hp) as [(_ & _ & Hu & _) _]. words. }
  pose proof (receiver_ok_bucket (rateKey (hy_originNodeID env)) _ _ Hr Hs) as Hr'.
  destruct (Accept _ _ _) as [rate b]. simpl in Hr'. cbv zeta.
  destruct (decide _); [by eexists _, _, _|]. destruct (LookupBoth _ _) as [[pub pq]|]; [|by eexists _, _, _].
  destruct (negb _); [by eexists _, _, _|]. by apply apply_batch_ret.
Qed.

(** ** What the gates do not protect *)

Lemma skew_needs_counter wire ev e w :
  wf_engine e → decode_event wire = Ok ev → ev_DotCounter ev <= lamportCounter (clk e) →
  ∀ err e', ApplyCRDTDeltaEvent wire e = Ret (Some err, e') → err = ErrIntegrity None w →
  we_Kind w ≠ WireIntegrityLamportSkewPoisoning.
Proof.
  intros Hwf Hd Hle err e' Ha -> Hk.
  destruct (apply_event_cases wire ev e Hd) as [(p & _ & Hc)|(w' & Hc & Hc')].
  - rewrite Hc in Ha. by destruct (Join _ e).
  - rewrite Hc' in Ha. injection Ha as -> _. pose proof (reconstruct_verdict ev (Clock_snapshot (clk e))) as Hv.
    rewrite Hc, Hk in Hv. inversion Hv. pose proof (snapshot_bound e Hwf). lia.
Qed.

Lemma verify_and_apply_RApply pre frame env dc id r v r' hs err :
  verify_and_apply pre frame env dc id r = Ret (v, r', hs) → av_Reason v = RApply err →
  (re_version env = envelopeVersion → crossCheckGateFields env (re_innerWire env) = true) ∧
  ∃ e', ApplyCRDTDeltaEvent (re_innerWire env) (rv_engine r) = Ret (Some err, e').
Proof.
  unfold verify_and_apply. destruct (Open _ _ _) as [[inner n]|o] eqn:Ho.
  2: { destruct o; by intros [= <- _ _]. }
  pose proof Ho as [-> _]%Open_Ok_inner. destruct (Lookup _ _); [|by intros [= <- _ _]].
  destruct (negb (verify_origin _ _ _ _)); [by intros [= <- _ _]|].
  destruct (_ && _) eqn:Hc; [by intros [= <- _ _]|].
  destruct (ApplyCRDTDeltaEvent _ _) as [[[err'|] e]|] eqn:Ha; [| |done].
  - intros [= <- _ _] [= <-]. split; [|by eexists]. intros Hv. rewrite Hv in Hc. simpl in Hc.
    by destruct (crossCheckGateFields _ _).
  - cbv zeta. by intros [= <- _ _].
Qed.

(** Behind the clock cap the skew bound is vacuous: the cap has already
    raised the clock to the frame's counter when the seam takes its snapshot, so
    no relay frame, however far in the future its counter, is ever refused for
    skew poisoning. *)
Theorem skew_bound_vacuous_on_relay_path (now1 now2 : Z) (frame : list Z) (r r' : Receiver) (v : AcceptVerdict)
    (hs : list HookCall) (w : WireIntegrityError) :
  is_bytes frame → receiver_ok r → HandleFrame now1 now2 frame r = Ret (v, r', hs) →
  av_Reason v = RApply (ErrIntegrity None w) → we_Kind w ≠ WireIntegrityLamportSkewPoisoning.
Proof.
  intros Hby (Hwf & Hd & _) H Hr. unfold HandleFrame in H.
  destruct (UnmarshalRelayEnvelope frame) as [env|err] eqn:Hp; [|by injection H as <- _ _].
  destruct (unmarshal_relay_wf _ _ Hby Hp) as [Hwe _].
  destruct (if (0 <? _)%nat then _ else _) as [lastHop|]; [|by injection H as <- _ _].
  destruct (readGateFields env) as [[dc id]|] eqn:Hg; [|by injection H as <- _ _].
  destruct (match lastHop with Some _ => _ | None => _ end) as [rate b]. cbv zeta in H.
  destruct (decide _); [by injection H as <- _ _|].
  destruct (Admit _ _ _ _) as [[|] e] eqn:Ha; [|by injection H as <- _ _].
  unfold Admit in Ha. destruct (_ <? _); [done|]. injection Ha as <-.
  destruct (verify_and_apply_RApply _ _ _ _ _ _ _ _ _ _ H Hr) as [Hc (e' & Hap)].
  destruct (decode_event (re_innerWire env)) as [ev|err] eqn:He.
  2: { unfold ApplyCRDTDeltaEvent in Hap. rewrite He in Hap. injection Hap as -> _.
       unfold decode_event, wrap in He. destruct (Unmarshal _); [|done]. simpl in He.
       destruct (ReadRootCRDTDeltaEvent _); [|done]. simpl in He. by destruct (_ =? _). }
  assert (readGateFieldsFromCapnp (re_innerWire env) = Some (dc, id)) as Hgc.
  { unfold readGateFields in Hg. destruct (Z.eqb_spec (re_version env) envelopeVersion) as [E|]; [|done].
    injection Hg as <- <-. specialize (Hc E). unfold crossCheckGateFields in Hc.
    destruct (readGateFieldsFromCapnp _) as [[dc' id']|]; [|done]. apply andb_true_iff in Hc as [H1 H2].
    apply Z.eqb_eq in H1. apply bool_decide_eq_true in H2. congruence. }
  destruct (gate_fields_event _ _ _ _ Hgc He) as [Hdc _].
  destruct (wf_admitted dc _ (readGateFields_u64 _ _ _ Hwe Hg) Hwf Hd) as [Hwa _].
  eapply (skew_needs_counter _ ev _ w Hwa He); [|exact Hap|done].
  rewrite lamport_admitted. lia.
Qed.

(** The frame of the next theorem: an empty event, no hops, a made-up origin,
    signature and counter. *)
Definition unsigned_frame (sig id : list Z) (counter : Z) : list Z :=
  Relay_Marshal (NewSignedRelayEnvelopeV3 [] sig counter id []).

(** Anyone can move the clock: a 96-byte frame with an unknown origin and
    arbitrary signature bytes is dropped by the verification, but not before the
    clock cap has advanced the engine to the counter in its header.  With the
    largest counter, the node's next local write gets the dot with counter 0. *)
Theorem unsigned_frame_moves_clock (now1 now2 counter : Z) (sig id : list Z) (r : Receiver) :
  length sig = 64%nat → length id = 16%nat → is_u64 counter → Lookup id (rv_dir r) = None →
  0 <= rv_maxHops r → i64 (now1 - now2) <= maxDriftEpsilon →
  ∃ r', HandleFrame now1 now2 (unsigned_frame sig id counter) r = Ret (mkVerdict DropVerify RDirectoryMiss, r', []) ∧
    lamportCounter (clk (rv_engine r')) = Z.max (lamportCounter (clk (rv_engine r))) counter ∧
    (counter = u64_max → is_u64 (lamportCounter (clk (rv_engine r))) →
     (NextDot (localNodeID (rv_engine r)) (clk (rv_engine r'))).1 = mkDot (localNodeID (rv_engine r)) 0).
Proof.
  intros Hsig Hid Hu Hl Hm Hnow.
  assert (UnmarshalRelayEnvelope (unsigned_frame sig id counter) =
    Ok (mkRelay [] sig counter id envelopeVersion [])) as Hp.
  { rewrite <- (app_nil_r (unsigned_frame _ _ _)). apply (unmarshal_marshal_relay
      (NewSignedRelayEnvelopeV3 [] sig counter id []) []). by split_and!. }
  unfold HandleFrame. rewrite Hp. cbn [re_hops length Nat.ltb Nat.leb]. unfold readGateFields. cbn [re_version].
  rewrite Z.eqb_refl. cbn [re_dotCounter re_originNodeID]. cbv zeta. rewrite decide_False by done.
  unfold Admit. rewrite (proj2 (Z.ltb_ge _ _) Hnow). unfold verify_and_apply, Open. cbn [re_hops length re_innerWire open_hops].
  assert ((rv_maxHops r <? Z.of_nat 0) = false) as Hd by (apply Z.ltb_ge; lia).
  cbn [rv_maxHops set_engine set_bucket rv_dir rv_engine]. rewrite Hd, Hl.
  eexists. split; [done|]. cbn [rv_engine set_engine clk with_clk]. rewrite AdvanceLamportTo_max. split; [done|].
  intros -> Hc. unfold NextDot. cbn zeta. rewrite AdvanceLamportTo_max, Z.max_r by words.
  change (u64_max +ₒ 1) with 0. destruct (_ <=? _); [done|]. by destruct (_ <=? _).
Qed.

(** Joining one entry. *)
Lemma join_one k x e :
  wf_engine e → closing e = false → is_u64 (DotCounter x) →
  ∃ e', Join (Some [(k, x)]) e = Ret e' ∧ wf_engine e' ∧ closing e' = false ∧
    view e' k = view e k ∪ {[Dot x := x]} ∧ ∀ k', k' ≠ k → view e' k' = view e k'.
Proof.
  intros Hwf Hcl Hu. destruct (join_view (λ _ _, x) [(k, x)] e Hwf Hcl) as (e' & Hj & Hwf' & Hcl' & _ & Hv).
  { by constructor. }
  { intros k' z [[= -> ->]|[]%elem_of_nil]%elem_of_cons. done. }
  exists e'. split_and!; [done|done|done| |].
  - rewrite Hv. unfold delta_view, delta_for. by rewrite filter_cons_True by done.
  - intros k' Hne. rewrite Hv. unfold delta_view, delta_for. rewrite filter_cons_False by (simpl; congruence).
    apply (right_id_L ∅ (∪)).
Qed.

(** A batch of one built event that verifies is joined. *)
Lemma batch_of_one frame env pub r k payload x :
  UnmarshalBatchEnvelope frame = Ok env → Lookup (bn_originNodeID env) (rv_dir r) = Some pub →
  VerifyCRDTFrame pub (BatchWire env) (bn_originSig env) = true → rv_hybridVerify r = false →
  length (bn_originNodeID env) = 16%nat → 0 <= bn_originSeq env < 2 ^ 20 → receiver_ok r →
  decode_batch (BatchWire env) = Ok [event_of k payload x] → sized_entry x → DotNodeID x = OriginNodeID x →
  PayloadDigest x = Sum256 (string_bytes payload) →
  DotCounter x <= MaxAcceptableDotCounter (Clock_snapshot (clk (rv_engine r))) →
  ∃ r' hs, HandleBatchFrame frame r = Ret (mkVerdict VAccept RNone, r', hs) ∧
    wf_engine (rv_engine r') ∧ closing (rv_engine r') = false ∧
    view (rv_engine r') k = view (rv_engine r) k ∪ {[Dot x := x]}.
Proof.
  intros Hp Hl Hs Hh Hlid Hseq (Hwf & Hdom & Hcl & Hbk) Hd Hx Hdo Hdig Hb.
  destruct (Accept_spec (rateKey (bn_originNodeID env)) (bn_originSeq env) (rv_bucket r) Hbk) as (HK & _); [lia|].
  assert ((Accept (rateKey (bn_originNodeID env)) (bn_originSeq env) (rv_bucket r)).1 = Keep) as HKeep.
  { apply HK. unfold rateKey. rewrite length_app, Hlid. split; [done|unfold initialBudget; lia]. }
  set (s := Clock_snapshot (clk (rv_engine r))) in *.
  assert (accepted s (event_of k payload x) (k, x)) as Hacc.
  { split; [done|]. pose proof (built_verdict k payload x s Hx Hdo) as Hv.
    rewrite bool_decide_eq_true_2 in Hv by done. rewrite (proj2 (Z.ltb_ge _ _) Hb) in Hv. eexists. split; [exact Hv|done]. }
  destruct (join_one k x (rv_engine r) Hwf Hcl) as (e1 & Hj & Hwf1 & Hcl1 & Hv1 & _); [apply Hx|].
  unfold HandleBatchFrame. rewrite Hp. destruct (Accept _ _ _) as [rate b]. simpl in HKeep. subst rate. cbv zeta.
  rewrite decide_False by done. cbn [rv_dir set_bucket]. rewrite Hl. unfold verify_origin. cbn [rv_hybridVerify set_bucket].
  rewrite Hh, Hs. cbn [negb]. unfold apply_batch, ApplyCRDTDeltaBatch. rewrite Hd. cbv zeta. cbn [rv_engine set_bucket]. fold s.
  rewrite (proj2 (reconstruct_all_Ok s 0 [event_of k payload x] [(k, x)]))
    by (apply Forall2_cons; split; [exact Hacc|apply Forall2_nil; done]).
  match goal with |- context [Join ?d (rv_engine r)] => replace (Join d (rv_engine r)) with (Ret e1) by (symmetry; exact Hj) end.
  eexists _, _. split; [done|]. by split_and!.
Qed.

(** A registered peer can write in another node's name: the batch path never
    compares the envelope's origin with the origins of its events.  Whoever is in
    the directory and signs a batch can plant, under a victim's dot that the
    receiver does not hold yet, any payload; the receiver stores it as the
    victim's, and ignores the victim's genuine entry with that dot ever after. *)
Theorem registered_peer_forges_origin (frame : list Z) (env : BatchEnvelope) (pub : list Z) (r : Receiver)
    (k payload : string) (x y : CRDTEntry) :
  UnmarshalBatchEnvelope frame = Ok env → Lookup (bn_originNodeID env) (rv_dir r) = Some pub →
  VerifyCRDTFrame pub (BatchWire env) (bn_originSig env) = true → rv_hybridVerify r = false →
  length (bn_originNodeID env) = 16%nat → 0 <= bn_originSeq env < 2 ^ 20 → receiver_ok r →
  decode_batch (BatchWire env) = Ok [event_of k payload x] →
  sized_entry x → OriginNodeID x ≠ bn_originNodeID env → DotNodeID x = OriginNodeID x →
  PayloadDigest x = Sum256 (string_bytes payload) → DotCounter x <= MaxAcceptableDotCounter (Clock_snapshot (clk (rv_engine r))) →
  view (rv_engine r) k !! Dot x = None → Dot y = Dot x →
  ∃ r' hs, HandleBatchFrame frame r = Ret (mkVerdict VAccept RNone, r', hs) ∧
    view (rv_engine r') k !! Dot x = Some x ∧
    ∃ e, Join (Some [(k, y)]) (rv_engine r') = Ret e ∧ view e k = view (rv_engine r') k.
Proof.
  intros Hp Hl Hs Hh Hlid Hseq Hr Hd Hx Hne Hdo Hdig Hb Hno Hy.
  destruct (batch_of_one frame env pub r k payload x) as (r' & hs & Ha & Hwf & Hcl & Hv); try done.
  assert (view (rv_engine r') k !! Dot x = Some x) as Hlk.
  { rewrite Hv. rewrite lookup_union_r by done. apply lookup_singleton_eq. }
  exists r', hs. split_and!; [done|done|].
  destruct (join_one k y (rv_engine r') Hwf Hcl) as (e & Hj & _ & _ & Hve & _).
  { apply (f_equal Counter) in Hy. simpl in Hy. rewrite Hy. apply Hx. }
  exists e. split; [done|]. rewrite Hve, Hy. apply map_eq. intros d. rewrite lookup_union.
  destruct (decide (d = Dot x)) as [->|Hd']; [by rewrite Hlk, lookup_singleton_eq|].
  rewrite lookup_singleton_ne by done. by destruct (view (rv_engine r') k !! d).
Qed.
End Sec.
