(* ===== verification/ReceiverWit.v ===== *)
(** Toy keys and signatures (a signature is a checksum of key and message), and the
    properties of envelopes and receiver applied to frames signed with them. *)
From S2P Require Import Prelude Bytes Sha256 Dots Hamt HamtMap Lamport Sorting Engine EngineInv.
From S2P Require Import JoinSpec EngineThms Reconstruct Envelope Admission Identity Apply.
From S2P Require Import ApplyWitness Receiver ReceiverThms ReceiverSec.

Definition toy_sign (key msg : list Z) : list Z :=
  replicate SigSize (Z.land (foldl (λ s b, Z.land (3 * s + b) 255) 7 (key ++ msg)) 255).
Definition toy_verify (pub msg sig : list Z) : bool := bool_decide (sig = toy_sign pub msg).

#[export] Instance toy_crypto : Crypto := {|
  edPoint := list Z;
  SetBytes b := Some b;
  MultByCofactor P := P;
  IdentityPoint := [];
  PointEqual P Q := bool_decide (P = Q);
  ed25519_Verify := toy_verify;
  ed25519_Sign := toy_sign;
  mldsaPublicKey := list Z;
  mldsa_Verify k frame sig ctx := bool_decide (sig = replicate PQSignatureSize 9);
  Shake256 n w := replicate n (Z.land (foldl (λ s b, 3 * s + b) 7 w) 255);
|}.

Lemma Ok_inj {E A} (a b : A) : @Ok E A a = Ok b → a = b.
Proof. by injection 1. Qed.

#[export] Instance sample_capnp_typed : CapnpTyped sample_capnp.
Proof.
  assert (∀ bs, is_u64 (ev_DotCounter (dec_event bs).1)) as Hd.
  { intros bs. unfold dec_event. destruct (get_u64 bs) as [v b1]. destruct (get_u64 b1) as [c b2] eqn:E.
    repeat match goal with |- context [match ?f ?b with pair _ _ => _ end] => destruct (f b) end.
    pose proof (get_u64_range b1) as H. rewrite E in H. exact H. }
  split.
  - intros m ev <-%Ok_inj. apply Hd.
  - intros b evs. change (Events b) with (let '(n, b) := get_u64 b in @Ok string _ (dec_events (Z.to_nat n) b)).
    destruct (get_u64 b) as [n bs]. intros <-%Ok_inj. generalize (Z.to_nat n). clear n. intros n. revert bs.
    induction n as [|n IH]; intros bs; [constructor|]. cbn [dec_events].
    destruct (dec_event bs) as [ev bs'] eqn:E. constructor; [|apply IH]. specialize (Hd bs). by rewrite E in Hd.
Qed.

Definition pub_of (i : Z) : list Z := replicate 32 i.
Definition node_of (i : Z) : list Z := replicate 16 i.

(** An envelope around [inner], signed by node 2 and relayed at the given times
    by the nodes 11, 12, ... *)
Fixpoint relay_hops (inner : list Z) (pre : list Hop) (key : Z) (walls : list Z) : list Hop :=
  match walls with
  | [] => pre
  | w :: walls' =>
      let h := SignHop (toy_sign (pub_of key)) (pub_of key) inner (rebuildPreceding inner pre)
                 (Z.of_nat (length pre)) w in
      relay_hops inner (pre ++ [h]) (key + 1) walls'
  end.

Definition sample_relay (inner : list Z) (counter : Z) (walls : list Z) : RelayEnvelope :=
  mkRelay inner (toy_sign (pub_of 2) inner) counter (node_of 2) envelopeVersion (relay_hops inner [] 11 walls).

(** ** Envelopes *)

Lemma wf_hop_dec h : Decision (wf_hop h).
Proof. unfold wf_hop, is_i64. apply _. Defined.
#[local] Existing Instance wf_hop_dec.

Lemma wf_relay_dec e : Decision (wf_relay e).
Proof. unfold wf_relay, is_u64. apply _. Defined.
#[local] Existing Instance wf_relay_dec.

Ltac decided := refine (bool_decide_unpack _ _); vm_compute; exact I.


Lemma parsed_envelope_typed_witness :
  ∃ e, UnmarshalRelayEnvelope (Relay_Marshal (sample_relay [5; 6] 9 [100])) = Ok e ∧ wf_relay e.
Proof.
  exists (sample_relay [5; 6] 9 [100]). assert (UnmarshalRelayEnvelope (Relay_Marshal (sample_relay [5; 6] 9 [100]))
    = Ok (sample_relay [5; 6] 9 [100])) as E by (vm_compute; reflexivity).
  split; [exact E|].
  refine (proj1 (proj1 (parsed_envelope_typed (Relay_Marshal (sample_relay [5; 6] 9 [100])) _) _ E)).
  unfold is_bytes, is_byte. decided.
Defined.

Lemma open_checks_chain_witness :
  Open toy_verify 8 (sample_relay [5; 6] 9 [100; -3]) = Ok ([5; 6], 2%nat) ∧
  Open toy_verify 1 (sample_relay [5; 6] 9 [100; -3]) = Err ErrHopBoundExceeded.
Proof.
  split.
  - apply (proj1 (proj2 (open_checks_chain toy_verify 8 (sample_relay [5; 6] 9 [100; -3])) ltac:(vm_compute; discriminate))).
    intros [|[|i]]; vm_compute; reflexivity.
  - apply (proj1 (open_checks_chain toy_verify 1 (sample_relay [5; 6] 9 [100; -3]))). vm_compute. reflexivity.
Defined.

Lemma hop_signature_binds_content_witness :
  let e := sample_relay [5; 6] 9 [100; -3] in
  ∃ h, re_hops e !! 1%nat = Some h ∧
  ((1%nat = 1%nat ∧ re_innerWire e = re_innerWire e ∧
    map WallUSec (take 2 (re_hops e)) = map WallUSec (take 2 (re_hops e))) ∨
   ∃ a b, a ≠ b ∧ toy_verify (RelayPub h) a (HopSig h) = true ∧ toy_verify (RelayPub h) b (HopSig h) = true).
Proof.
  intros e. destruct (re_hops e !! 1%nat) as [h|] eqn:Hh; [|exfalso; revert Hh; vm_compute; discriminate].
  exists h. split; [reflexivity|].
  refine (hop_signature_binds_content toy_verify 4 4 e e ([5; 6], 2%nat) ([5; 6], 2%nat) 1 1 h h _ _ _ _ Hh Hh eq_refl eq_refl).
  - decided.
  - decided.
  - vm_compute. reflexivity.
  - vm_compute. reflexivity.
Defined.

Lemma length_toy_sign key msg : length (toy_sign key msg) = SigSize.
Proof. apply length_replicate. Qed.

Lemma forwarded_envelope_opens_witness :
  let e := sample_relay [5; 6] 9 [100] in
  ∃ e', UnmarshalRelayEnvelope (drop 4 (ForwardEnvelope (toy_sign (pub_of 12)) (pub_of 12) [5; 6] (re_originSig e) 9
          (node_of 2) (re_hops e) 1 200)) = Ok e' ∧ Open toy_verify 2 e' = Ok ([5; 6], 2%nat).
Proof.
  intros e.
  destruct (forwarded_envelope_opens toy_verify (toy_sign (pub_of 12)) (pub_of 12) 200 1 2 e ([5; 6], 1%nat))
    as (e' & H1 & _ & _ & _ & _ & _ & H2).
  - intros msg. split; [apply length_toy_sign|]. apply bool_decide_eq_true_2. reflexivity.
  - reflexivity.
  - split; lia.
  - decided.
  - vm_compute. reflexivity.
  - vm_compute. reflexivity.
  - vm_compute. discriminate.
  - exists e'. split; [exact H1|exact H2].
Defined.

(** Node 99 takes the place of the first relay in a chain of two. *)
Lemma hop_identity_not_bound_witness :
  let e := sample_relay [5; 6] 9 [100; -3] in
  Open toy_verify 4 (mkRelay [5; 6] (re_originSig e) 9 (node_of 2) envelopeVersion
    (<[0%nat := mkHop (pub_of 99) (toy_sign (pub_of 99) (hop_material [5; 6] (re_hops e) 0)) 100]> (re_hops e)))
  = Ok ([5; 6], 2%nat).
Proof.
  intros e. destruct (re_hops e !! 0%nat) as [h|] eqn:Hh; [|exfalso; revert Hh; vm_compute; discriminate].
  assert (WallUSec h = 100) as <- by (apply Some_inj; rewrite <- (f_equal (fmap WallUSec) Hh : WallUSec <$> _ = Some (WallUSec h)); vm_compute; reflexivity).
  refine (hop_identity_not_bound toy_verify 4 e ([5; 6], 2%nat) 0 h _ _ _ Hh _).
  - vm_compute. reflexivity.
  - vm_compute. reflexivity.
Defined.

(** ** Receivers *)

Definition sample_dir : Directory :=
  (Register (node_of 3) (pub_of 3) (Register (node_of 2) (pub_of 2) NewDirectory).2).2.

(** Node 1, which knows the nodes 2 and 3. *)
Definition sample_receiver (hybrid : bool) : Receiver :=
  mkReceiver NewPeerBucket sample_dir (sample_engine 1 9) 4 hybrid (mkHooks true true true true true) ∅.

Lemma sample_receiver_ok hybrid : receiver_ok (MH:=fnv_maphash) (sample_receiver hybrid).
Proof.
  split_and!; [apply sample_engine_wf| |reflexivity|apply NewPeerBucket_ok].
  apply sample_engine_dominates.
Qed.

#[local] Abbreviation dispatch := (DispatchFrame (MH:=fnv_maphash) (SS:=insertion_SliceSort)).
#[local] Abbreviation relay := (HandleFrame (MH:=fnv_maphash) (SS:=insertion_SliceSort)).

(** What the receiver answered. *)
Definition answer (o : outcome response) : option (AcceptVerdict * list HookCall) :=
  match o with Ret (v, _, hs) => Some (v, hs) | Panic _ => None end.

Lemma answered o v hs : answer o = Some (v, hs) → ∃ r', o = Ret (v, r', hs).
Proof. destruct o as [[[v' r'] hs']|m]; [|done]. injection 1 as -> ->. by exists r'. Qed.

Lemma dispatch_relay now1 now2 frame r :
  (IsBatchFrame frame, IsDigestFrame frame, IsHybridFrame frame) = (false, false, false) →
  dispatch now1 now2 frame r = relay now1 now2 frame r.
Proof. intros [= H1 H2 H3]. unfold DispatchFrame. by rewrite H1, H2, H3. Qed.

Definition good_frame : list Z := Relay_Marshal (sample_relay (good_wire 7) 7 [100]).

Lemma accepted_frame_is_authentic_witness :
  ∃ hs r' e0 events, dispatch 50 50 good_frame (sample_receiver false) = Ret (mkVerdict VAccept RNone, r', hs) ∧
    authentic (sample_receiver false) good_frame e0 events.
Proof.
  destruct (answered (dispatch 50 50 good_frame (sample_receiver false)) (mkVerdict VAccept RNone)
    [HClockAdvance 7; HAcceptRelay (node_of 2) 7 good_frame]) as (r' & E); [vm_compute; reflexivity|].
  destruct (accepted_frame_is_authentic (MH:=fnv_maphash) (SS:=insertion_SliceSort) 50 50 good_frame
    (sample_receiver false) r' _ _ E eq_refl) as (events & _ & e0 & Ha & _); [vm_compute; reflexivity|].
  exists [HClockAdvance 7; HAcceptRelay (node_of 2) 7 good_frame], r', e0, events. split; [exact E|exact Ha].
Defined.

(** An event whose digest is not that of its payload, signed all the same. *)
Definition bad_wire : list Z :=
  match BuildCRDTDeltaEvent "a" "bye" (good_entry 7) with Ok w => w | Err _ => [] end.
Definition bad_frame : list Z := Relay_Marshal (sample_relay bad_wire 7 [100]).

Definition drop_reason (o : outcome response) : option (Verdict * option WireIntegrityError) :=
  match o with
  | Ret (mkVerdict v (RApply (ErrIntegrity None w)), _, _) => Some (v, Some w)
  | Ret (mkVerdict v _, _, _) => Some (v, None)
  | Panic _ => None
  end.

Lemma bad_frame_dropped :
  ∃ r' hs w, relay 50 50 bad_frame (sample_receiver false) =
    Ret (mkVerdict DropVerify (RApply (ErrIntegrity None w)), r', hs).
Proof.
  destruct (relay 50 50 bad_frame (sample_receiver false)) as [[[[v reason] r'] hs]|] eqn:E.
  - pose proof (f_equal drop_reason E) as D.
    assert (∃ w, drop_reason (relay 50 50 bad_frame (sample_receiver false)) = Some (DropVerify, Some w)) as (w & Hw)
      by (eexists; vm_compute; reflexivity).
    rewrite D in Hw. destruct reason as [| | | | | | | | |err|]; try discriminate Hw. destruct err as [| | | |o w']; try discriminate Hw.
    destruct o; [discriminate Hw|]. injection Hw as -> ->. exists r', hs, w. reflexivity.
  - exfalso. apply (f_equal drop_reason) in E. revert E. vm_compute. discriminate.
Qed.

Lemma dropped_frame_leaves_state_witness :
  ∃ r' hs v, dispatch 50 50 bad_frame (sample_receiver false) = Ret (v, r', hs) ∧ hs = [] ∧
    eng_equiv (MH:=fnv_maphash) (rv_engine r') (sample_engine 1 9).
Proof.
  destruct bad_frame_dropped as (r' & hs & w & E).
  assert (dispatch 50 50 bad_frame (sample_receiver false) = relay 50 50 bad_frame (sample_receiver false)) as E2
    by (apply dispatch_relay; vm_compute; reflexivity).
  rewrite E in E2. exists r', hs, (mkVerdict DropVerify (RApply (ErrIntegrity None w))).
  destruct (dropped_frame_leaves_state (MH:=fnv_maphash) (SS:=insertion_SliceSort) 50 50 bad_frame
    (sample_receiver false) r' _ hs E2 ltac:(discriminate)) as (Hh & _ & He & _).
  split_and!; [exact E2|exact Hh|exact He].
Defined.

Lemma skew_bound_vacuous_on_relay_path_witness :
  ∃ r' hs w, relay 50 50 bad_frame (sample_receiver false) =
    Ret (mkVerdict DropVerify (RApply (ErrIntegrity None w)), r', hs) ∧ we_Kind w ≠ WireIntegrityLamportSkewPoisoning.
Proof.
  destruct bad_frame_dropped as (r' & hs & w & E). exists r', hs, w. split; [exact E|].
  refine (skew_bound_vacuous_on_relay_path (MH:=fnv_maphash) (SS:=insertion_SliceSort) 50 50 bad_frame
    (sample_receiver false) r' _ hs w _ (sample_receiver_ok false) E eq_refl).
  unfold is_bytes, is_byte. decided.
Defined.

Lemma hybrid_mode_is_strict_witness :
  ∃ v r' hs, relay 50 50 good_frame (sample_receiver true) = Ret (v, r', hs) ∧ av_Verdict v ≠ VAccept.
Proof.
  destruct (answered (relay 50 50 good_frame (sample_receiver true)) (mkVerdict DropVerify RSignature) [])
    as (r' & E); [vm_compute; reflexivity|].
  eexists _, r', _. split; [exact E|].
  exact (proj1 (hybrid_mode_is_strict (MH:=fnv_maphash) (SS:=insertion_SliceSort) 50 50 good_frame
    (sample_receiver true) r' _ _) eq_refl (or_introl E)).
Defined.

Lemma receiver_survives_any_frame_witness :
  ∃ v r' hs, dispatch 50 50 [83; 66; 65; 84; 0; 255] (sample_receiver true) = Ret (v, r', hs) ∧
    receiver_ok (MH:=fnv_maphash) r'.
Proof.
  refine (receiver_survives_any_frame (MH:=fnv_maphash) (SS:=insertion_SliceSort) 50 50 [83; 66; 65; 84; 0; 255]
    (sample_receiver true) _ (sample_receiver_ok true)).
  unfold is_bytes, is_byte. decided.
Defined.

(** Node 77 is not in the directory. *)
Lemma unsigned_frame_moves_clock_witness :
  ∃ r', relay 50 50 (unsigned_frame (replicate 64 0) (node_of 77) u64_max) (sample_receiver false) =
    Ret (mkVerdict DropVerify RDirectoryMiss, r', []) ∧
    (NextDot (localNodeID (sample_engine 1 9)) (clk (rv_engine r'))).1 = mkDot (localNodeID (sample_engine 1 9)) 0.
Proof.
  destruct (unsigned_frame_moves_clock (MH:=fnv_maphash) (SS:=insertion_SliceSort) 50 50 u64_max (replicate 64 0)
    (node_of 77) (sample_receiver false)) as (r' & H & _ & Hn).
  - reflexivity.
  - reflexivity.
  - split; vm_compute; [discriminate|reflexivity].
  - vm_compute. reflexivity.
  - vm_compute. discriminate.
  - vm_compute. discriminate.
  - exists r'. split; [exact H|]. apply Hn; [reflexivity|]. split; vm_compute; [discriminate|reflexivity].
Defined.

(** Node 3 signs a batch with an entry of node 2. *)
Definition forged_wire : list Z := le_put 8 1 ++ good_wire 7.
Definition forged_frame : list Z :=
  MarshalBatchEnvelope (node_of 3) (toy_sign (pub_of 3) forged_wire) 1 1 forged_wire.
Definition genuine_entry : CRDTEntry :=
  mkEntry (Sum256 (string_bytes "genuine")) (node_of 2) (node_of 2) 7 1 2 3 4 5 6.

Lemma registered_peer_forges_origin_witness :
  ∃ r' hs, HandleBatchFrame (MH:=fnv_maphash) (SS:=insertion_SliceSort) forged_frame (sample_receiver false) =
      Ret (mkVerdict VAccept RNone, r', hs) ∧
    view (MH:=fnv_maphash) (rv_engine r') "a" !! mkDot (node_of 2) 7 = Some (good_entry 7).
Proof.
  destruct (registered_peer_forges_origin (MH:=fnv_maphash) (SS:=insertion_SliceSort) forged_frame
    (mkBatchEnvelope (node_of 3) (toy_sign (pub_of 3) forged_wire) 1 1 forged_frame) (pub_of 3) (sample_receiver false)
    "a" "hello" (good_entry 7) genuine_entry) as (r' & hs & H & Hv & _).
  - vm_compute. reflexivity.
  - vm_compute. reflexivity.
  - vm_compute. reflexivity.
  - reflexivity.
  - reflexivity.
  - split; vm_compute; [discriminate|reflexivity].
  - apply sample_receiver_ok.
  - vm_compute. reflexivity.
  - apply (bool_decide_unpack (sized_entry _)). vm_compute. exact I.
  - discriminate.
  - reflexivity.
  - vm_compute. reflexivity.
  - vm_compute. discriminate.
  - vm_compute. reflexivity.
  - reflexivity.
  - exists r', hs. split; [exact H|exact Hv].
Defined.
