(* ===== verification/PayloadStore.v ===== *)
(** The origin-side read path of pkg/mesh/gossip.go: the payload cache, the
    selection of the latest dot, and the in-memory insert and read of a node. *)
From S2P Require Import Prelude Bytes Sha256 Dots Hamt HamtMap Lamport Sorting Engine EngineInv.
From S2P Require Import JoinSpec EngineThms.

(** ** payloadCache: a map keyed by entity and dot, and its running byte total *)

Definition payloadKey : Type := string * CausalDot.

Record payloadCache := mkCache { cache_m : gmap payloadKey string; cache_bytes : Z }.

Definition newPayloadCache : payloadCache := mkCache ∅ 0.

Definition payload_len (p : string) : Z := Z.of_nat (String.length p).

Definition cache_record (entityID : string) (dot : CausalDot) (payload : string) (c : payloadCache) :
    payloadCache :=
  let k := (entityID, dot) in
  let bytes :=
    match cache_m c !! k with
    | Some old => i64 (cache_bytes c - payload_len old)
    | None => cache_bytes c
    end in
  mkCache (<[k := payload]> (cache_m c)) (i64 (bytes + payload_len payload)).

Definition cache_lookup (entityID : string) (dot : CausalDot) (c : payloadCache) : option string :=
  cache_m c !! (entityID, dot).

(** ** selectLatestDot *)

(** The two cases of the switch in which [e] replaces [latest]. *)
Definition later (e latest : CRDTEntry) : bool :=
  match Z.compare (DotCounter e) (DotCounter latest) with
  | Gt => true
  | Eq => bool_decide (bytes_compare (DotNodeID e) (DotNodeID latest) = Lt)
  | Lt => false
  end.

Definition select_step (latest : option CRDTEntry) (e : CRDTEntry) : option CRDTEntry :=
  match latest with
  | None => Some e
  | Some l => Some (if later e l then e else l)
  end.

(** [None] is the unseen result of an empty slice. *)
Definition selectLatestDot (entries : list CRDTEntry) : option CRDTEntry :=
  foldl select_step None entries.

Section Store.
Context `{MH : MapHash}.

Definition PayloadForDot (entityID : string) (dot : CausalDot) (c : payloadCache) : option string :=
  cache_lookup entityID dot c.

Definition LatestPayload (entityID : string) (e : Engine) (c : payloadCache) : option string :=
  match selectLatestDot (PointGet e entityID) with
  | None => None
  | Some latest => cache_lookup entityID (Dot latest) c
  end.

Definition with_digest (d : list Z) (x : CRDTEntry) : CRDTEntry :=
  mkEntry d (OriginNodeID x) (DotNodeID x) (DotCounter x) (SystemTime x) (ValidTimeStart x)
    (ValidTimeEnd x) (AssertionTime x) (DecisionTime x) (H3Index x).

(** InsertLocalEvents_noBridge of a node without a durability bridge. *)
Definition InsertLocalEvents_noBridge (entityID payload : string) (entry : CRDTEntry) (e : Engine) (c : payloadCache) :
    outcome (CausalDot * Engine * payloadCache) :=
  let dgst := Sum256 (string_bytes payload) in
  match InsertLocal entityID (with_digest dgst entry) e with
  | Ret (dot, e') => Ret (dot, e', cache_record entityID dot payload c)
  | Panic m => Panic m
  end.
End Store.

(** ** Lemmas *)

(** The byte total is the sum of the retained lengths. *)
Definition retained (m : gmap payloadKey string) : Z := map_fold (λ _ p n, payload_len p + n) 0 m.

Lemma retained_insert m k p : m !! k = None → retained (<[k := p]> m) = payload_len p + retained m.
Proof. intros Hk. unfold retained. rewrite map_fold_insert_L; [done| |done]. intros; lia. Qed.

Lemma retained_overwrite m k old p :
  m !! k = Some old → retained (<[k := p]> m) = retained m - payload_len old + payload_len p.
Proof.
  intros Hk. rewrite <- (insert_delete_id m k old Hk) at 2. rewrite <- insert_delete_eq.
  rewrite !retained_insert by apply lookup_delete_eq. lia.
Qed.

Definition cache_ok (c : payloadCache) : Prop := cache_bytes c = i64 (retained (cache_m c)).

Lemma i64_add_l x y : i64 (i64 x + y) = i64 (x + y).
Proof.
  unfold i64. f_equal.
  replace ((x + 2 ^ 63) `mod` 2 ^ 64 - 2 ^ 63 + y + 2 ^ 63) with ((x + 2 ^ 63) `mod` 2 ^ 64 + y) by lia.
  rewrite Zplus_mod_idemp_l. f_equal. lia.
Qed.

Lemma cache_record_ok k d p c : cache_ok c → cache_ok (cache_record k d p c).
Proof.
  unfold cache_ok, cache_record. intros Hc. simpl.
  destruct (cache_m c !! (k, d)) as [old|] eqn:E; rewrite Hc.
  - rewrite (retained_overwrite _ _ _ _ E). by rewrite <- !Z.add_opp_r, !i64_add_l, <- !Z.add_assoc, i64_add_l.
  - rewrite (retained_insert _ _ _ E), i64_add_l. f_equal. lia.
Qed.

(** [later] is a strict total order on dots. *)
Lemma later_false_trans a b c : later b a = false → later c b = false → later c a = false.
Proof.
  unfold later. intros H1 H2.
  destruct (Z.compare_spec (DotCounter b) (DotCounter a)) as [E1|E1|E1]; [| |done];
    destruct (Z.compare_spec (DotCounter c) (DotCounter b)) as [E2|E2|E2]; try done;
    destruct (Z.compare_spec (DotCounter c) (DotCounter a)) as [E3|E3|E3]; try done; try lia.
  apply bool_decide_eq_false in H1, H2. apply bool_decide_eq_false.
  intros H3. apply H1. clear H1. destruct (bytes_compare (DotNodeID b) (DotNodeID c)) eqn:E.
  - apply (cmp_eq (cmp:=bytes_compare)) in E. by rewrite E.
  - exact (cmp_lt_trans _ _ _ E H3).
  - by apply (cmp_gt_lt bytes_compare) in E.
Qed.

Lemma later_total a b : later a b = false → later b a = false → Dot a = Dot b.
Proof.
  unfold later, Dot. intros H1 H2.
  destruct (Z.compare_spec (DotCounter a) (DotCounter b)) as [E1|E1|E1]; [| |done];
    destruct (Z.compare_spec (DotCounter b) (DotCounter a)) as [E2|E2|E2]; try done; try lia.
  apply bool_decide_eq_false in H1, H2. f_equal; [|done].
  destruct (bytes_compare (DotNodeID a) (DotNodeID b)) eqn:E; [by apply (cmp_eq (cmp:=bytes_compare))|done|].
  by apply (cmp_gt_lt bytes_compare) in E.
Qed.

Lemma later_irrefl a : later a a = false.
Proof.
  unfold later. rewrite Z.compare_refl. apply bool_decide_eq_false. intros H.
  by rewrite (cmp_refl bytes_compare) in H.
Qed.

Lemma later_asym a b : later a b = true → later b a = false.
Proof.
  unfold later. destruct (Z.compare_spec (DotCounter a) (DotCounter b)) as [E|E|E]; intros H; [| done|].
  - rewrite E, Z.compare_refl. apply bool_decide_eq_true in H. apply bool_decide_eq_false. intros H'.
    pose proof (cmp_lt_trans _ _ _ H H') as H''. by rewrite (cmp_refl bytes_compare) in H''.
  - by rewrite (proj2 (Z.compare_lt_iff _ _)).
Qed.

Lemma select_fold l m :
  ∃ r, foldl select_step (Some m) l = Some r ∧ (r = m ∨ r ∈ l) ∧ later m r = false ∧
    ∀ x, x ∈ l → later x r = false.
Proof.
  revert m. induction l as [|y l IH]; intros m; simpl.
  { exists m. split_and!; [done|by left|apply later_irrefl|]. by intros x ?%elem_of_nil. }
  destruct (IH (if later y m then y else m)) as (r & Hr & Hin & Hm & Hl). exists r.
  destruct (later y m) eqn:E.
  - split_and!; [done|set_solver| |].
    + eapply later_false_trans; [exact Hm|by apply later_asym].
    + intros x [->|Hx]%elem_of_cons; auto.
  - split_and!; [done|set_solver|done|]. intros x [->|Hx]%elem_of_cons; [|auto].
    by eapply later_false_trans; [exact Hm|].
Qed.

(** The selected entry is an entry none of the others is later than. *)
Lemma select_spec l r :
  selectLatestDot l = Some r → r ∈ l ∧ ∀ x, x ∈ l → later x r = false.
Proof.
  destruct l as [|m l]; [done|]. unfold selectLatestDot. simpl.
  destruct (select_fold l m) as (r' & -> & Hin & Hm & Hl). intros [= <-].
  split; [set_solver|]. intros x [->|Hx]%elem_of_cons; auto.
Qed.

Lemma select_None l : selectLatestDot l = None ↔ l = [].
Proof.
  destruct l as [|m l]; [done|]. unfold selectLatestDot. simpl.
  destruct (select_fold l m) as (r & -> & _). done.
Qed.

(** Dots identify the entries of a slice. *)
Definition dots_unique (l : list CRDTEntry) : Prop :=
  ∀ x y, x ∈ l → y ∈ l → Dot x = Dot y → x = y.

Lemma select_unique l r :
  dots_unique l → r ∈ l → (∀ x, x ∈ l → later x r = false) → selectLatestDot l = Some r.
Proof.
  intros Hu Hin Hmax. destruct (selectLatestDot l) as [r'|] eqn:E.
  - apply select_spec in E as [Hin' Hmax']. f_equal. apply Hu; [done|done|]. apply later_total; auto.
  - apply select_None in E as ->. by apply elem_of_nil in Hin.
Qed.

Lemma dots_unique_sorted l : dot_sorted l → dots_unique l.
Proof.
  intros Hs x y Hx Hy Hd. pose proof (dots_map_elem l x Hs Hx) as H1.
  pose proof (dots_map_elem l y Hs Hy) as H2. rewrite Hd in H1. congruence.
Qed.

(** ** Properties *)

(** The selector is a function of the set of entries: on slices whose dots
    identify their entries it returns the one with the largest counter, ties to
    the smallest node id, whatever the order and multiplicity of the slice. *)
Theorem select_latest_order_free (l l' : list CRDTEntry) :
  dots_unique l → (∀ x, x ∈ l ↔ x ∈ l') →
  selectLatestDot l = selectLatestDot l' ∧
  ∀ r, selectLatestDot l = Some r ↔
    r ∈ l ∧ ∀ x, x ∈ l → DotCounter x < DotCounter r ∨
      DotCounter x = DotCounter r ∧ bytes_compare (DotNodeID r) (DotNodeID x) ≠ Gt.
Proof.
  intros Hu Hset.
  assert (∀ x r, later x r = false ↔ DotCounter x < DotCounter r ∨
      DotCounter x = DotCounter r ∧ bytes_compare (DotNodeID r) (DotNodeID x) ≠ Gt) as Hl.
  { intros x r. unfold later. rewrite (cmp_opp (cmp:=bytes_compare) (DotNodeID r)).
    destruct (Z.compare_spec (DotCounter x) (DotCounter r)); rewrite ?bool_decide_eq_false;
      destruct (bytes_compare (DotNodeID r) (DotNodeID x)); simpl; naive_solver lia. }
  split.
  - destruct (selectLatestDot l) as [r|] eqn:E; symmetry.
    + apply select_spec in E as [Hin Hmax]. apply select_unique.
      * intros x y Hx%Hset Hy%Hset. by apply Hu.
      * by apply Hset.
      * intros x Hx%Hset. by apply Hmax.
    + apply select_None in E as ->. apply select_None. destruct l' as [|y l']; [done|].
      exfalso. by apply (not_elem_of_nil y), Hset; left.
  - intros r. setoid_rewrite <- Hl. split; [apply select_spec|]. intros [? ?]. by apply select_unique.
Qed.

Section Props.
Context `{MH : MapHash}.

(** Read your writes: on an open node whose clock dominates its dots, an
    insert returns, and the latest payload of that entity is then exactly the
    payload inserted, with the SHA-256 digest stored in the engine; every other
    entity reads as before, and the cache's byte total stays exact. *)
Theorem read_your_writes (k payload : string) (x : CRDTEntry) (e : Engine) (c : payloadCache) :
  wf_engine e → dominates e → closing e = false → lamportCounter (clk e) < u64_max → cache_ok c →
  ∃ dot e' c', InsertLocalEvents_noBridge k payload x e c = Ret (dot, e', c') ∧
    LatestPayload k e' c' = Some payload ∧
    (∃ y, selectLatestDot (PointGet e' k) = Some y ∧ Dot y = dot ∧
          PayloadDigest y = Sum256 (string_bytes payload)) ∧
    (∀ k', k' ≠ k → LatestPayload k' e' c' = LatestPayload k' e c) ∧ cache_ok c'.
Proof.
  intros Hwf Hd Hcl Hlt Hc. pose proof Hwf as [_ (Hu & _)].
  set (x' := with_digest (Sum256 (string_bytes payload)) x).
  destruct (InsertLocal_spec k x' e Hwf Hcl (dominates_fresh e k _ Hd Hlt Hu))
    as (e' & Hi & Hwf' & _ & _ & _ & _ & _ & Hp & Ho).
  set (dot := mkDot (localNodeID e) (lamportCounter (clk e) +ₒ 1)) in *.
  set (y := stamp dot (localNodeID e) x') in *.
  assert (selectLatestDot (PointGet e' k) = Some y) as Hsel.
  { apply select_unique; [apply dots_unique_sorted; auto with sovereign|rewrite Hp; left|].
    intros z. rewrite Hp. intros [->|Hz]%elem_of_cons; [apply later_irrefl|].
    specialize (Hd k z Hz). unfold later, y. simpl. rewrite u64_id by words.
    by rewrite (proj2 (Z.compare_lt_iff _ _)) by lia. }
  exists dot, e', (cache_record k dot payload c). unfold InsertLocalEvents_noBridge. fold x'. rewrite Hi.
  split_and!; [done| | | |by apply cache_record_ok].
  - unfold LatestPayload. rewrite Hsel. unfold cache_lookup. simpl. apply lookup_insert_eq.
  - exists y. done.
  - intros k' Hne. unfold LatestPayload. rewrite (Ho k' Hne).
    destruct (selectLatestDot (PointGet e k')) as [z|]; [|done]. unfold cache_lookup. simpl.
    apply lookup_insert_ne. congruence.
Qed.
End Props.

(** ** Witnesses *)

Lemma select_latest_order_free_witness :
  selectLatestDot [sample_entry 2 7 5; sample_entry 1 7 5; sample_entry 3 6 5] =
  selectLatestDot [sample_entry 1 7 5; sample_entry 3 6 5; sample_entry 2 7 5].
Proof.
  apply (select_latest_order_free [sample_entry 2 7 5; sample_entry 1 7 5; sample_entry 3 6 5]).
  - intros a b Ha Hb. rewrite !elem_of_cons, elem_of_nil in Ha, Hb.
    destruct Ha as [->|[->|[->|[]]]], Hb as [->|[->|[->|[]]]]; done.
  - set_solver.
Defined.

Lemma read_your_writes_witness :
  ∃ dot e' c',
    InsertLocalEvents_noBridge (MH:=fnv_maphash) "a" "hello" (sample_entry 0 0 0) (sample_engine 1 9) newPayloadCache =
      Ret (dot, e', c') ∧ LatestPayload (MH:=fnv_maphash) "a" e' c' = Some "hello".
Proof.
  assert (lamportCounter (clk (sample_engine 1 9)) < u64_max) as Hlt by (unfold u64_max; simpl; lia).
  destruct (read_your_writes (MH:=fnv_maphash) "a" "hello" (sample_entry 0 0 0)
    (sample_engine 1 9) newPayloadCache (sample_engine_wf 1 9) (sample_engine_dominates 1 9) eq_refl Hlt eq_refl)
    as (dot & e' & c' & Hi & Hl & _).
  exists dot, e', c'. split; [exact Hi|exact Hl].
Defined.
