(* ===== verification/RelayCache.v ===== *)
(** relayCache of pkg/mesh/gossip.go: the frames of other origins a node keeps to
    send on.  The per-frame layer maps (origin, counter) to a frame; the batch
    layer keeps one frame per (origin, sequence number), a reverse index from
    (origin, counter) to the sequence number, and reference counts that free a
    frame with its last pointer. *)
From S2P Require Import Prelude Bytes Dots PayloadStore.

(** (origin, dot counter), and (origin, sequence number of a batch). *)
Abbreviation relayKey := (list Z * Z)%type.
Abbreviation batchRelayKey := (list Z * Z)%type.

Record relayCache := mkRelayCache {
  rc_m : gmap relayKey (list Z);
  rc_batchForward : gmap batchRelayKey (list Z);
  rc_batchReverse : gmap relayKey Z;
  rc_batchRefs : gmap batchRelayKey Z;
  rc_frameBytes : Z;
  rc_batchForwardBytes : Z;
}.

Definition newRelayCache : relayCache := mkRelayCache ∅ ∅ ∅ ∅ 0 0.

Definition frame_len (f : list Z) : Z := Z.of_nat (length f).

Definition relay_retain (originNodeID : list Z) (dotCounter : Z) (frameBytes : list Z) (c : relayCache) : relayCache :=
  let rk := (originNodeID, dotCounter) in
  let bytes := match rc_m c !! rk with Some old => i64 (rc_frameBytes c - frame_len old) | None => rc_frameBytes c end in
  mkRelayCache (<[rk := frameBytes]> (rc_m c)) (rc_batchForward c) (rc_batchReverse c) (rc_batchRefs c)
    (i64 (bytes + frame_len frameBytes)) (rc_batchForwardBytes c).

Definition relay_lookup (originNodeID : list Z) (dotCounter : Z) (c : relayCache) : option (list Z) :=
  rc_m c !! (originNodeID, dotCounter).

(** A read of a missing key gives zero. *)
Definition refs_of (key : batchRelayKey) (c : relayCache) : Z := default 0 (rc_batchRefs c !! key).

(** The displacement of a pointer: the previous frame loses a reference, and is
    freed with the last one. *)
Definition unref (prevKey : batchRelayKey) (c : relayCache) : relayCache :=
  let n := refs_of prevKey c - 1 in
  if n <=? 0 then
    mkRelayCache (rc_m c) (delete prevKey (rc_batchForward c)) (rc_batchReverse c) (delete prevKey (rc_batchRefs c))
      (rc_frameBytes c) (i64 (rc_batchForwardBytes c - frame_len (default [] (rc_batchForward c !! prevKey))))
  else
    mkRelayCache (rc_m c) (rc_batchForward c) (rc_batchReverse c) (<[prevKey := n]> (rc_batchRefs c))
      (rc_frameBytes c) (rc_batchForwardBytes c).

(** batchReverse[rk] = originSeq; batchRefs[fwdKey]++ *)
Definition point_at (originNodeID : list Z) (originSeq dc : Z) (c : relayCache) : relayCache :=
  let fwdKey := (originNodeID, originSeq) in
  mkRelayCache (rc_m c) (rc_batchForward c) (<[(originNodeID, dc) := originSeq]> (rc_batchReverse c))
    (<[fwdKey := refs_of fwdKey c + 1]> (rc_batchRefs c)) (rc_frameBytes c) (rc_batchForwardBytes c).

(** One turn of the loop over the counters. *)
Definition retain_dot (originNodeID : list Z) (originSeq : Z) (c : relayCache) (dc : Z) : relayCache :=
  match rc_batchReverse c !! (originNodeID, dc) with
  | Some prevSeq =>
      if prevSeq =? originSeq then c
      else point_at originNodeID originSeq dc (unref (originNodeID, prevSeq) c)
  | None => point_at originNodeID originSeq dc c
  end.

Definition retainBatch (originNodeID : list Z) (originSeq : Z) (dotCounters : list Z) (frameBytes : list Z)
    (c : relayCache) : relayCache :=
  match dotCounters with
  | [] => c
  | _ =>
      let fwdKey := (originNodeID, originSeq) in
      let bytes :=
        match rc_batchForward c !! fwdKey with
        | Some old => i64 (rc_batchForwardBytes c - frame_len old)
        | None => rc_batchForwardBytes c
        end in
      let c := mkRelayCache (rc_m c) (<[fwdKey := frameBytes]> (rc_batchForward c)) (rc_batchReverse c) (rc_batchRefs c)
                 (rc_frameBytes c) (i64 (bytes + frame_len frameBytes)) in
      foldl (retain_dot originNodeID originSeq) c dotCounters
  end.

(** [None] when the dot has no pointer, or its pointer no frame. *)
Definition lookupBatch (originNodeID : list Z) (dotCounter : Z) (c : relayCache) : option (list Z * Z) :=
  match rc_batchReverse c !! (originNodeID, dotCounter) with
  | None => None
  | Some originSeq =>
      match rc_batchForward c !! (originNodeID, originSeq) with
      | None => None
      | Some frame => Some (frame, originSeq)
      end
  end.

(** ** CacheStats *)

Record CacheStats := mkCacheStats {
  PayloadEntries : nat;
  PayloadBytes : Z;
  RelayFrames : nat;
  RelayFrameBytes : Z;
  RelayBatchForward : nat;
  RelayBatchForwardBytes : Z;
  RelayBatchReverse : nat;
}.

Definition cache_stats (cache : payloadCache) (relay : relayCache) : CacheStats :=
  mkCacheStats (size (cache_m cache)) (cache_bytes cache) (size (rc_m relay)) (rc_frameBytes relay)
    (size (rc_batchForward relay)) (rc_batchForwardBytes relay) (size (rc_batchReverse relay)).

(** ** The invariant *)

(** The keys whose pointer is [key]. *)
Definition points (key : batchRelayKey) (p : relayKey * Z) : Prop := (p.1.1, p.2) = key.
#[global] Instance points_dec key p : Decision (points key p).
Proof. unfold points. apply _. Defined.
Definition pointers (key : batchRelayKey) (m : gmap relayKey Z) : nat := size (filter (points key) m).

Definition total_len {K} `{Countable K} (m : gmap K (list Z)) : Z := map_fold (λ _ f n, frame_len f + n) 0 m.

(** [fwd] is a frame that may be unreferenced: the one being retained. *)
Record relay_inv (fwd : option batchRelayKey) (c : relayCache) : Prop := {
  ri_refs key : refs_of key c = Z.of_nat (pointers key (rc_batchReverse c));
  ri_dom key : is_Some (rc_batchRefs c !! key) → is_Some (rc_batchForward c !! key) ∧ (0 < pointers key (rc_batchReverse c))%nat;
  ri_forward key : is_Some (rc_batchForward c !! key) → Some key = fwd ∨ is_Some (rc_batchRefs c !! key);
  ri_frames : rc_frameBytes c = i64 (total_len (rc_m c));
  ri_bytes : rc_batchForwardBytes c = i64 (total_len (rc_batchForward c));
}.

Definition relay_ok : relayCache → Prop := relay_inv None.

Section Total.
Context {K} `{Countable K}.
Implicit Types m : gmap K (list Z).

Lemma total_insert m k f : m !! k = None → total_len (<[k := f]> m) = frame_len f + total_len m.
Proof. intros Hk. unfold total_len. rewrite map_fold_insert_L; [done| |done]. intros; lia. Qed.

Lemma total_delete m k f : m !! k = Some f → total_len (delete k m) = total_len m - frame_len f.
Proof.
  intros Hk. rewrite <- (insert_delete_id m k f Hk) at 2. rewrite total_insert by apply lookup_delete_eq. lia.
Qed.

Lemma total_overwrite m k old f :
  m !! k = Some old → total_len (<[k := f]> m) = total_len m - frame_len old + frame_len f.
Proof.
  intros Hk. rewrite <- insert_delete_eq, total_insert by apply lookup_delete_eq.
  rewrite (total_delete _ _ _ Hk). lia.
Qed.

(** The running total after an insert, as both retain functions compute it. *)
Lemma total_record m k f bytes :
  bytes = i64 (total_len m) →
  i64 (match m !! k with Some old => i64 (bytes - frame_len old) | None => bytes end + frame_len f) =
    i64 (total_len (<[k := f]> m)).
Proof.
  intros ->. destruct (m !! k) as [old|] eqn:E.
  - rewrite (total_overwrite _ _ _ _ E), <- !Z.add_opp_r, i64_add_l, <- Z.add_assoc, i64_add_l, Z.add_assoc. done.
  - rewrite (total_insert _ _ _ E), i64_add_l. f_equal. lia.
Qed.
End Total.

Lemma pointers_insert_fresh key m k s :
  m !! k = None → pointers key (<[k := s]> m) = ((if decide ((k.1, s) = key) then 1 else 0) + pointers key m)%nat.
Proof.
  intros Hk. unfold pointers. destruct (decide ((k.1, s) = key)) as [Hd|Hd].
  - rewrite map_filter_insert_True by done. rewrite map_size_insert_None; [done|].
    apply map_lookup_filter_None. by left.
  - rewrite map_filter_insert_False by done. by rewrite delete_id.
Qed.

(** Moving a pointer from [s] to [s']. *)
Lemma pointers_move key m k s s' :
  m !! k = Some s →
  Z.of_nat (pointers key (<[k := s']> m)) =
    Z.of_nat (pointers key m) - (if decide ((k.1, s) = key) then 1 else 0) + (if decide ((k.1, s') = key) then 1 else 0).
Proof.
  intros Hk. rewrite <- insert_delete_eq, pointers_insert_fresh by apply lookup_delete_eq.
  rewrite <- (insert_delete_id m k s Hk) at 2. rewrite pointers_insert_fresh by apply lookup_delete_eq.
  destruct (decide _), (decide _); lia.
Qed.

Lemma pointers_pos key m k : m !! k = Some key.2 → k.1 = key.1 → (0 < pointers key m)%nat.
Proof.
  intros Hk He. unfold pointers. destruct (decide (size (filter (points key) m) = 0%nat)) as [Hz|]; [|lia].
  apply map_size_empty_iff in Hz. pose proof (map_filter_empty_not_lookup _ _ k key.2 Hz) as Hn.
  exfalso. apply Hn; [|done]. unfold points. simpl. rewrite He. by destruct key.
Qed.

Lemma refs_insert key key' n c m f r fb bb :
  refs_of key (mkRelayCache m f r (<[key' := n]> (rc_batchRefs c)) fb bb) = if decide (key = key') then n else refs_of key c.
Proof.
  unfold refs_of. simpl. destruct (decide (key = key')) as [->|Hne]; [by rewrite lookup_insert_eq|].
  by rewrite lookup_insert_ne.
Qed.

Lemma refs_delete key key' c m f r fb bb :
  refs_of key (mkRelayCache m f r (delete key' (rc_batchRefs c)) fb bb) = if decide (key = key') then 0 else refs_of key c.
Proof.
  unfold refs_of. simpl. destruct (decide (key = key')) as [->|Hne]; [by rewrite lookup_delete_eq|].
  by rewrite lookup_delete_ne.
Qed.

(** A pointer whose frame is there, and which counts. *)
Lemma pointer_refs fwd c k s :
  relay_inv fwd c → rc_batchReverse c !! k = Some s →
  is_Some (rc_batchRefs c !! (k.1, s)) ∧ is_Some (rc_batchForward c !! (k.1, s)).
Proof.
  intros Hi Hk. pose proof (pointers_pos (k.1, s) _ k Hk eq_refl) as Hp. pose proof (ri_refs _ _ Hi (k.1, s)) as Hr.
  assert (is_Some (rc_batchRefs c !! (k.1, s))) as Hs.
  { unfold refs_of in Hr. destruct (rc_batchRefs c !! (k.1, s)); [by eexists|].
    change (default 0 (@None Z)) with 0 in Hr. lia. }
  split; [done|]. by apply (ri_dom _ _ Hi).
Qed.

(** Freeing keeps the other frames. *)
Lemma unref_spec o prev s c dc :
  relay_inv (Some (o, s)) c → rc_batchReverse c !! (o, dc) = Some prev → prev ≠ s →
  let c' := unref (o, prev) c in
  (∀ key, refs_of key c' = refs_of key c - (if decide (key = (o, prev)) then 1 else 0)) ∧
  (∀ key, is_Some (rc_batchRefs c' !! key) ↔ is_Some (rc_batchRefs c !! key) ∧ (key = (o, prev) → 1 < refs_of key c)) ∧
  (∀ key, rc_batchForward c' !! key = if decide (key = (o, prev) ∧ refs_of key c <= 1) then None else rc_batchForward c !! key) ∧
  rc_batchReverse c' = rc_batchReverse c ∧ rc_m c' = rc_m c ∧ rc_frameBytes c' = rc_frameBytes c ∧
  rc_batchForwardBytes c' = i64 (total_len (rc_batchForward c')).
Proof.
  intros Hi Hr Hne c'. destruct (pointer_refs _ _ _ _ Hi Hr) as [Hs [f Hf]]. simpl in Hs, Hf.
  pose proof (ri_refs _ _ Hi (o, prev)) as Hn. pose proof (pointers_pos (o, prev) _ (o, dc) Hr eq_refl) as Hp.
  unfold c', unref. destruct (Z.leb_spec (refs_of (o, prev) c - 1) 0) as [Hle|Hgt]; split_and!; try done.
  - intros key. rewrite refs_delete. destruct (decide (key = (o, prev))) as [->|]; lia.
  - intros key. simpl. destruct (decide (key = (o, prev))) as [->|Hk].
    + rewrite lookup_delete_eq. split; [by intros [? ?]|]. intros [_ H]. specialize (H eq_refl). lia.
    + rewrite lookup_delete_ne by done. naive_solver.
  - intros key. simpl. destruct (decide (key = (o, prev) ∧ _)) as [[-> _]|Hk]; [apply lookup_delete_eq|].
    apply lookup_delete_ne. intros <-. apply Hk. split; [done|lia].
  - simpl. rewrite Hf. simpl. rewrite (total_delete _ _ _ Hf), (ri_bytes _ _ Hi), <- !Z.add_opp_r, i64_add_l. done.
  - intros key. rewrite refs_insert. destruct (decide (key = (o, prev))) as [->|]; lia.
  - intros key. simpl. destruct (decide (key = (o, prev))) as [->|Hk].
    + rewrite lookup_insert_eq. split; [|by eexists]. intros _. split; [done|lia].
    + rewrite lookup_insert_ne by done. naive_solver.
  - intros key. simpl. rewrite decide_False; [done|]. intros [-> ?]. lia.
  - apply Hi.
Qed.

Lemma point_at_inv o s dc c c0 :
  relay_inv (Some (o, s)) c0 → is_Some (rc_batchForward c !! (o, s)) →
  (∀ key, refs_of key c + (if decide ((o, s) = key) then 1 else 0) =
     Z.of_nat (pointers key (<[(o, dc) := s]> (rc_batchReverse c)))) →
  (∀ key, is_Some (rc_batchRefs c !! key) → is_Some (rc_batchForward c !! key) ∧ 0 < refs_of key c) →
  (∀ key, is_Some (rc_batchForward c !! key) → Some key = Some (o, s) ∨ is_Some (rc_batchRefs c !! key)) →
  rc_m c = rc_m c0 → rc_frameBytes c = rc_frameBytes c0 →
  rc_batchForwardBytes c = i64 (total_len (rc_batchForward c)) →
  relay_inv (Some (o, s)) (point_at o s dc c).
Proof.
  intros Hi Hf Hrefs Hdom Hfwd Hm Hfb Hbb.
  assert (∀ key, refs_of key (point_at o s dc c) = refs_of key c + (if decide ((o, s) = key) then 1 else 0)) as Hr.
  { intros key. unfold point_at. rewrite refs_insert. destruct (decide (key = (o, s))) as [->|].
    - by rewrite decide_True by done.
    - rewrite decide_False by congruence. lia. }
  split.
  - intros key. rewrite Hr, Hrefs. done.
  - intros key Hs. simpl in Hs |- *. rewrite (Nat2Z.inj_lt 0), <- Hrefs.
    destruct (decide ((o, s) = key)) as [<-|Hne].
    + split; [done|]. specialize (Hdom (o, s)). unfold refs_of in *. destruct (rc_batchRefs c !! (o, s)); simpl in *; [|lia].
      destruct (Hdom ltac:(by eexists)). lia.
    + rewrite lookup_insert_ne in Hs by done. destruct (Hdom key Hs). split; [done|lia].
  - intros key Hs. simpl in Hs |- *. destruct (decide ((o, s) = key)) as [<-|Hne]; [by left|].
    rewrite lookup_insert_ne by done. by apply Hfwd.
  - simpl. rewrite Hm, Hfb. apply Hi.
  - simpl. done.
Qed.

Lemma retain_dot_spec o s c dc :
  relay_inv (Some (o, s)) c → is_Some (rc_batchForward c !! (o, s)) →
  let c' := retain_dot o s c dc in
  relay_inv (Some (o, s)) c' ∧ rc_batchForward c' !! (o, s) = rc_batchForward c !! (o, s) ∧
  rc_batchReverse c' = <[(o, dc) := s]> (rc_batchReverse c) ∧
  (∀ key, rc_batchForward c' !! key = rc_batchForward c !! key ∨ rc_batchForward c' !! key = None) ∧ rc_m c' = rc_m c.
Proof.
  intros Hi Hf c'. unfold c', retain_dot. destruct (rc_batchReverse c !! (o, dc)) as [prev|] eqn:Hr.
  - destruct (Z.eqb_spec prev s) as [->|Hne].
    { split_and!; [done|done|by rewrite insert_id|by left|done]. }
    destruct (unref_spec o prev s c dc Hi Hr Hne) as (H1 & H2 & H3 & H4 & H5 & H6 & H7).
    set (c1 := unref (o, prev) c) in *.
    assert (rc_batchForward c1 !! (o, s) = rc_batchForward c !! (o, s)) as Hfs.
    { rewrite H3, decide_False; [done|]. intros [[= ?] _]. congruence. }
    split_and!; [|done|simpl; by rewrite H4| |done].
    + apply (point_at_inv o s dc c1 c); try done.
      * by rewrite Hfs.
      * intros key. rewrite H1, H4, (ri_refs _ _ Hi), (pointers_move key _ (o, dc) prev s Hr). simpl.
        destruct (decide (key = (o, prev))) as [->|]; [rewrite (decide_True (P:=(o,prev)=(o,prev))) by done; lia|].
        rewrite (decide_False (P:=(o, prev) = key)) by congruence. lia.
      * intros key [Hs Hp]%H2. destruct (ri_dom _ _ Hi key Hs) as [Hf' Hp'].
        pose proof (ri_refs _ _ Hi key). rewrite H3, H1. destruct (decide (key = (o, prev))) as [->|].
        -- specialize (Hp eq_refl). rewrite decide_False by (intros [_ ?]; lia). split; [done|lia].
        -- rewrite decide_False by tauto. split; [done|lia].
      * intros key Hs. rewrite H3 in Hs. destruct (decide _) as [|Hk]; [by destruct Hs|].
        destruct (ri_forward _ _ Hi key Hs) as [|Hk']; [by left|right]. apply H2. split; [done|].
        intros ->. destruct (decide (refs_of (o, prev) c <= 1)); [tauto|lia].
    + intros key. simpl. rewrite H3. destruct (decide _); auto.
  - split_and!; [|done|done|by left|done]. apply (point_at_inv o s dc c c); try done.
    + intros key. rewrite (ri_refs _ _ Hi), pointers_insert_fresh by done. simpl. destruct (decide _); lia.
    + intros key Hs. destruct (ri_dom _ _ Hi key Hs). pose proof (ri_refs _ _ Hi key). split; [done|lia].
    + intros key Hs. by apply Hi.
    + apply Hi.
Qed.

Lemma retain_fold o s dcs c f :
  relay_inv (Some (o, s)) c → rc_batchForward c !! (o, s) = Some f →
  let c' := foldl (retain_dot o s) c dcs in
  relay_inv (Some (o, s)) c' ∧ rc_batchForward c' !! (o, s) = Some f ∧
  (∀ k, rc_batchReverse c' !! k = if decide (k.1 = o ∧ k.2 ∈ dcs) then Some s else rc_batchReverse c !! k) ∧
  (∀ key, rc_batchForward c' !! key = rc_batchForward c !! key ∨ rc_batchForward c' !! key = None) ∧ rc_m c' = rc_m c.
Proof.
  revert c. induction dcs as [|dc dcs IH]; intros c Hi Hf; simpl.
  { split_and!; [done|done| |by left|done]. intros k. rewrite decide_False; [done|]. set_solver. }
  destruct (retain_dot_spec o s c dc Hi ltac:(by eexists)) as (Hi1 & Hf1 & Hr1 & Hk1 & Hm1).
  destruct (IH (retain_dot o s c dc) Hi1 ltac:(congruence)) as (Hi2 & Hf2 & Hr2 & Hk2 & Hm2).
  split_and!; [done|done| | |congruence].
  - intros k. rewrite Hr2, Hr1. destruct (decide (k.1 = o ∧ k.2 ∈ dcs)) as [[? ?]|Hn].
    { rewrite decide_True by set_solver. done. }
    destruct (decide (k = (o, dc))) as [->|Hne].
    + rewrite lookup_insert_eq, decide_True by (simpl; set_solver). done.
    + rewrite lookup_insert_ne by done. rewrite decide_False; [done|]. destruct k as [o' d']. simpl in *.
      intros [-> [->|?]%elem_of_cons]; naive_solver.
  - intros key. destruct (Hk2 key) as [->|?]; [apply Hk1|by right].
Qed.

Lemma relay_inv_close fwd c : relay_inv (Some fwd) c → (0 < pointers fwd (rc_batchReverse c))%nat → relay_ok c.
Proof.
  intros [H1 H2 H3 H4 H5] Hp. split; try done. intros key Hk. right. destruct (H3 key Hk) as [[= ->]|?]; [|done].
  specialize (H1 fwd). unfold refs_of in H1. destruct (rc_batchRefs c !! fwd); [by eexists|].
  change (default 0 (@None Z)) with 0 in H1. lia.
Qed.

Lemma retainBatch_start o s f c :
  relay_ok c →
  relay_inv (Some (o, s)) (mkRelayCache (rc_m c) (<[(o, s) := f]> (rc_batchForward c)) (rc_batchReverse c) (rc_batchRefs c)
    (rc_frameBytes c) (i64 (match rc_batchForward c !! (o, s) with
      | Some old => i64 (rc_batchForwardBytes c - frame_len old) | None => rc_batchForwardBytes c end + frame_len f))).
Proof.
  intros [H1 H2 H3 H4 H5]. split; simpl; try done.
  - intros key Hk. destruct (H2 key Hk) as [Hf ?]. split; [|done].
    destruct (decide (key = (o, s))) as [->|]; [by rewrite lookup_insert_eq|by rewrite lookup_insert_ne].
  - intros key Hk. destruct (decide (key = (o, s))) as [->|]; [by left|right].
    rewrite lookup_insert_ne in Hk by done. by destruct (H3 key Hk).
  - by apply total_record.
Qed.

(** What retainBatch does to the reverse index and to lookups. *)
Lemma retainBatch_ok o s dcs f c :
  relay_ok c →
  let c' := retainBatch o s dcs f c in
  relay_ok c' ∧
  (∀ dc, dc ∈ dcs → lookupBatch o dc c' = Some (f, s)) ∧
  (∀ o' dc, ¬ (o' = o ∧ dc ∈ dcs) →
     lookupBatch o' dc c' =
       if decide (dcs ≠ [] ∧ o' = o ∧ rc_batchReverse c !! (o', dc) = Some s) then Some (f, s) else lookupBatch o' dc c) ∧
  rc_m c' = rc_m c.
Proof.
  intros Hi c'. destruct dcs as [|d0 dcs0]; [split_and!; [done|set_solver| |done]; intros; by rewrite decide_False by tauto|].
  set (dcs := d0 :: dcs0) in *. pose proof (retainBatch_start o s f c Hi) as Hs.
  destruct (retain_fold o s dcs _ f Hs) as (Hi' & Hf & Hr & Hk & Hm); [apply lookup_insert_eq|].
  fold (retainBatch o s dcs f c) in Hi', Hf, Hr, Hk, Hm. change (foldl (retain_dot o s) _ dcs) with c' in *.
  assert (relay_ok c') as Hok.
  { apply (relay_inv_close (o, s)); [done|]. apply (pointers_pos _ _ (o, d0)); [|done].
    rewrite Hr. by rewrite decide_True by (simpl; set_solver). }
  split_and!; [done| | |done].
  - intros dc Hd. unfold lookupBatch. rewrite Hr, decide_True by done. by rewrite Hf.
  - intros o' dc Hn. unfold lookupBatch. rewrite Hr, decide_False by done. simpl rc_batchReverse.
    destruct (rc_batchReverse c !! (o', dc)) as [s'|] eqn:E; [|by rewrite decide_False by naive_solver].
    destruct (decide ((o', s') = (o, s))) as [[= -> ->]|Hne]; [by rewrite Hf, decide_True|].
    rewrite decide_False by naive_solver.
    assert (is_Some (rc_batchForward c' !! (o', s'))) as [f' Hf'].
    { apply (pointer_refs None c' (o', dc) s' Hok). rewrite Hr, decide_False by done. done. }
    destruct (Hk (o', s')) as [Heq|Heq]; [|congruence]. rewrite Heq. simpl. by rewrite lookup_insert_ne.
Qed.

Lemma relay_retain_ok o d f c :
  relay_ok c → relay_ok (relay_retain o d f c) ∧ (∀ o' d', lookupBatch o' d' (relay_retain o d f c) = lookupBatch o' d' c) ∧
  (∀ o' d', relay_lookup o' d' (relay_retain o d f c) = if decide ((o', d') = (o, d)) then Some f else relay_lookup o' d' c).
Proof.
  intros [H1 H2 H3 H4 H5]. split_and!; [split; try done; by apply total_record|done|].
  intros o' d'. unfold relay_lookup. simpl. destruct (decide _) as [->|Hne]; [apply lookup_insert_eq|].
  by apply lookup_insert_ne.
Qed.

(** ** Properties *)

Inductive relay_call :=
| CRetain (originNodeID : list Z) (dotCounter : Z) (frameBytes : list Z)
| CRetainBatch (originNodeID : list Z) (originSeq : Z) (dotCounters : list Z) (frameBytes : list Z).

Definition relay_run (c : relayCache) (call : relay_call) : relayCache :=
  match call with
  | CRetain o d f => relay_retain o d f c
  | CRetainBatch o s dcs f => retainBatch o s dcs f c
  end.

Lemma relay_run_ok calls c : relay_ok c → relay_ok (foldl relay_run c calls).
Proof.
  revert c. induction calls as [|call calls IH]; intros c Hc; simpl; [done|]. apply IH.
  destruct call; [by apply relay_retain_ok|by apply retainBatch_ok].
Qed.

Lemma newRelayCache_ok : relay_ok newRelayCache.
Proof.
  split; simpl; try done.
  - by intros key [? ?].
  - by intros key [? ?].
Qed.

Lemma forward_le_reverse c : relay_ok c → (size (rc_batchForward c) <= size (rc_batchReverse c))%nat.
Proof.
  intros Hc. rewrite <- size_dom, <- length_map_to_list.
  rewrite <- (length_map (λ p : relayKey * Z, (p.1.1, p.2)) (map_to_list (rc_batchReverse c))).
  apply (NoDup_incl_length (l := elements (dom (rc_batchForward c)))).
  - apply NoDup_ListNoDup, NoDup_elements.
  - intros key Hk%list_elem_of_In%elem_of_elements%elem_of_dom. destruct (ri_forward _ _ Hc key Hk) as [|Hr]; [done|].
    destruct (ri_dom _ _ Hc key Hr) as [_ Hp]. unfold pointers in Hp.
    destruct (map_choose (filter (points key) (rc_batchReverse c))) as (k & s & Hks).
    { intros Hz. rewrite Hz in Hp. rewrite map_size_empty in Hp. lia. }
    apply map_lookup_filter_Some in Hks as [Hks Hpt]. apply in_map_iff. exists (k, s). split; [exact Hpt|].
    by apply list_elem_of_In, elem_of_map_to_list.
Qed.

(** The relay cache leaks nothing and loses nothing: after any sequence of
    retentions, every dot with a pointer has its frame, a batch frame is kept
    exactly while some dot points at it and its reference count is the number of
    those dots, there are at most as many batch frames as retained dots, and both
    byte totals are the exact sums. *)
Theorem relay_cache_exact (calls : list relay_call) :
  let c := foldl relay_run newRelayCache calls in
  (∀ o d s, rc_batchReverse c !! (o, d) = Some s → ∃ f, lookupBatch o d c = Some (f, s)) ∧
  (∀ key, is_Some (rc_batchForward c !! key) ↔ (0 < pointers key (rc_batchReverse c))%nat) ∧
  (∀ key, refs_of key c = Z.of_nat (pointers key (rc_batchReverse c))) ∧
  (size (rc_batchForward c) <= size (rc_batchReverse c))%nat ∧
  rc_frameBytes c = i64 (total_len (rc_m c)) ∧ rc_batchForwardBytes c = i64 (total_len (rc_batchForward c)).
Proof.
  intros c. assert (relay_ok c) as Hc by apply relay_run_ok, newRelayCache_ok.
  split_and!; [| |apply Hc|by apply forward_le_reverse|apply Hc|apply Hc].
  - intros o d s Hr. destruct (pointer_refs _ _ _ _ Hc Hr) as [_ [f Hf]]. exists f. unfold lookupBatch.
    rewrite Hr. simpl in Hf. by rewrite Hf.
  - intros key. pose proof (ri_refs _ _ Hc key) as Hr. split.
    + intros Hf. destruct (ri_forward _ _ Hc key Hf) as [|Hs]; [done|]. by apply (ri_dom _ _ Hc).
    + intros Hp. apply (ri_dom _ _ Hc). unfold refs_of in Hr. destruct (rc_batchRefs c !! key); [by eexists|].
      change (default 0 (@None Z)) with 0 in Hr. lia.
Qed.

(** What a retained batch serves: every dot of the batch now resolves to the
    new frame, every other dot resolves as before, except the dots that an
    earlier batch with the same origin and sequence number left behind: they now
    resolve to the new frame too, whether or not it carries them. *)
Theorem retained_batch_resolves (calls : list relay_call) (o : list Z) (s : Z) (dcs f : list Z) :
  let c := foldl relay_run newRelayCache calls in
  let c' := retainBatch o s dcs f c in
  (∀ d, d ∈ dcs → lookupBatch o d c' = Some (f, s)) ∧
  (∀ o' d, ¬ (o' = o ∧ d ∈ dcs) → ¬ (o' = o ∧ rc_batchReverse c !! (o, d) = Some s) →
     lookupBatch o' d c' = lookupBatch o' d c) ∧
  (∀ d, dcs ≠ [] → d ∉ dcs → rc_batchReverse c !! (o, d) = Some s → lookupBatch o d c' = Some (f, s)) ∧
  (∀ o' d, relay_lookup o' d c' = relay_lookup o' d c).
Proof.
  intros c c'. assert (relay_ok c) as Hc by apply relay_run_ok, newRelayCache_ok.
  destruct (retainBatch_ok o s dcs f c Hc) as (_ & H1 & H2 & H3). split_and!.
  - done.
  - intros o' d Hn Hs. unfold c'. rewrite H2 by done. rewrite decide_False; [done|]. naive_solver.
  - intros d Hne Hd Hs. unfold c'. rewrite H2 by naive_solver. by rewrite decide_True.
  - intros o' d. unfold relay_lookup, c'. by rewrite H3.
Qed.
