(* ===== verification/Topology.v ===== *)
(** Peer selection (pkg/mesh/region.go, topology.go): every peer of the own
    region and, per round, one peer in each of a few other regions, drawn with
    the PCG generator of math/rand/v2. *)
From S2P Require Import Prelude Bytes.

(** ** math/rand/v2: PCG-DXSM with 128 bits of state *)

Record PCG := mkPCG { pcg_hi : Z; pcg_lo : Z }.

Definition pcg_mul : Z := 2549297995355413924 * 2 ^ 64 + 4865540595714422341.
Definition pcg_inc : Z := 6364136223846793005 * 2 ^ 64 + 1442695040888963407.
Definition pcg_cheapMul : Z := 0xda942042e4dd58b5.

Definition pcg_next (p : PCG) : PCG :=
  let s := ((pcg_hi p * 2 ^ 64 + pcg_lo p) * pcg_mul + pcg_inc) `mod` 2 ^ 128 in
  mkPCG (s / 2 ^ 64) (s `mod` 2 ^ 64).

Definition pcg_Uint64 (p : PCG) : Z * PCG :=
  let p := pcg_next p in
  let hi := Z.lxor (pcg_hi p) (Z.shiftr (pcg_hi p) 32) in
  let hi := u64 (hi * pcg_cheapMul) in
  let hi := Z.lxor hi (Z.shiftr hi 48) in
  (u64 (hi * Z.lor (pcg_lo p) 1), p).

(** The generator's first outputs for the seeds 1 and 2. *)
Example pcg_vector :
  let '(a, p) := pcg_Uint64 (mkPCG 1 2) in (a, (pcg_Uint64 p).1) = (0xc4f5a58656eef510, 0x9dcec3ad077dec6c).
Proof. vm_compute. reflexivity. Qed.

Definition newSeededRand (seed : Z) : PCG := mkPCG seed 0.

(** rng() % n as an index. *)
Definition draw (n : nat) (p : PCG) : nat * PCG :=
  let '(x, p) := pcg_Uint64 p in (Z.to_nat (x `mod` Z.of_nat n), p).

Arguments draw : simpl never.

(** ** Regions *)

Definition RegionUnset : Z := 0.

Definition sameRegion (a b : Z) : bool :=
  if (a =? RegionUnset) || (b =? RegionUnset) then true else a =? b.
Definition crossRegion (a b : Z) : bool :=
  if (a =? RegionUnset) || (b =? RegionUnset) then false else negb (a =? b).

(** The loop over the sixteen bytes. *)
Fixpoint lessPeerID (a b : list Z) : bool :=
  match a, b with
  | x :: a', y :: b' => if x =? y then lessPeerID a' b' else x <? y
  | _, _ => false
  end.

(** The inner loop of the insertion sorts: [x] is swapped towards the front of
    the sorted prefix, given last element first. *)
Fixpoint sink {A} (less : A → A → bool) (x : A) (prefix : list A) : list A :=
  match prefix with
  | [] => [x]
  | y :: prefix' => if less x y then y :: sink less x prefix' else x :: prefix
  end.

Definition insertion {A} (less : A → A → bool) (l : list A) : list A :=
  reverse (foldl (λ acc x, sink less x acc) [] l).

Definition sortPeerIDs (ids : list (list Z)) : list (list Z) := insertion lessPeerID ids.

(** The two parallel slices, as one list of pairs. *)
Definition sortInterCandidates (cands : list (list Z * Z)) : list (list Z * Z) :=
  insertion (λ a b, lessPeerID a.1 b.1) cands.

(** ** pickInterRegionFanout *)

(** Indices and regions of the candidates in other regions. *)
Definition cross_picks (selfRegion : Z) (candidateRegions : list Z) : list (nat * Z) :=
  filter (λ p, crossRegion selfRegion p.2 = true) (imap pair candidateRegions).

(** One candidate into its region's bucket; a new region joins the order. *)
Definition bucket_step (acc : list Z * gmap Z (list nat)) (p : nat * Z) : list Z * gmap Z (list nat) :=
  let '(order, buckets) := acc in
  match buckets !! p.2 with
  | None => (order ++ [p.2], <[p.2 := [p.1]]> buckets)
  | Some idxs => (order, <[p.2 := idxs ++ [p.1]]> buckets)
  end.

Definition swap {A} (i j : nat) (l : list A) : list A :=
  match l !! i, l !! j with
  | Some x, Some y => <[i := y]> (<[j := x]> l)
  | _, _ => l
  end.

(** The partial Fisher-Yates shuffle: [k] more positions from [i] on. *)
Fixpoint shuffle {A} (k i : nat) (l : list A) (p : PCG) : list A * PCG :=
  match k with
  | O => (l, p)
  | S k' =>
      let '(r, p) := draw (length l - i) p in
      shuffle k' (S i) (swap i (i + r) l) p
  end.

(** One peer per chosen region. *)
Fixpoint pick_regions (candidates : list (list Z)) (buckets : gmap Z (list nat)) (regions : list Z) (p : PCG) :
    list (list Z) :=
  match regions with
  | [] => []
  | region :: regions' =>
      let cands := default [] (buckets !! region) in
      if (length cands =? 0)%nat then pick_regions candidates buckets regions' p
      else
        let '(pickIdx, p) := draw (length cands) p in
        nth (nth pickIdx cands 0%nat) candidates [] :: pick_regions candidates buckets regions' p
  end.

Definition pickInterRegionFanout (selfRegion : Z) (candidates : list (list Z)) (candidateRegions : list Z)
    (fanout seed : Z) (out : list (list Z)) : list (list Z) :=
  let picks := cross_picks selfRegion candidateRegions in
  if (length picks =? 0)%nat || (fanout <=? 0) then out
  else
    let rng := newSeededRand seed in
    let '(regionOrder, regionBuckets) := foldl bucket_step ([], ∅) picks in
    let limit := Nat.min (Z.to_nat fanout) (length regionOrder) in
    let '(regionOrder, rng) := shuffle limit 0 regionOrder rng in
    out ++ pick_regions candidates regionBuckets (take limit regionOrder) rng.

(** ** TopologyManager *)

Record TopologyManager := mkTopology {
  tm_regions : gmap (list Z) Z;
  tm_seed : Z;
  tm_fanout : Z;
  tm_selfRegion : Z;
}.

Definition MaxFanout : Z := 16.
Definition DefaultRegionFanout : Z := 3.

Definition NewTopologyManager (selfRegion : Z) : TopologyManager := mkTopology ∅ 0 DefaultRegionFanout selfRegion.

Definition SetRegion (peerID : list Z) (region : Z) (t : TopologyManager) : TopologyManager :=
  mkTopology (<[peerID := region]> (tm_regions t)) (tm_seed t) (tm_fanout t) (tm_selfRegion t).

Definition SetFanout (n : Z) (t : TopologyManager) : TopologyManager :=
  mkTopology (tm_regions t) (tm_seed t) (if n <? 0 then 0 else if MaxFanout <? n then MaxFanout else n) (tm_selfRegion t).

Definition SetSeed (seed : Z) (t : TopologyManager) : TopologyManager :=
  mkTopology (tm_regions t) seed (tm_fanout t) (tm_selfRegion t).

Definition IsInterRegion (peerID : list Z) (t : TopologyManager) : bool :=
  match tm_regions t !! peerID with None => false | Some r => crossRegion (tm_selfRegion t) r end.

(** [order]: the order in which the range over the map visits its entries. *)
Definition Select (order : list (list Z * Z)) (t : TopologyManager) : list (list Z) :=
  let self := tm_selfRegion t in
  let intra := sortPeerIDs (map fst (filter (λ pr : list Z * Z, sameRegion self pr.2 = true) order)) in
  let inter := sortInterCandidates (filter (λ pr : list Z * Z, sameRegion self pr.2 = false) order) in
  pickInterRegionFanout self (map fst inter) (map snd inter) (tm_fanout t) (tm_seed t) intra.

(** ** Sorting *)

Lemma lessPeerID_lt a b : length a = length b → lessPeerID a b = true ↔ bytes_compare a b = Lt.
Proof.
  revert b. induction a as [|x a IH]; intros [|y b] Hl; try done. injection Hl as Hl. simpl.
  unfold bytes_compare in *. simpl. destruct (Z.compare_spec x y) as [->|H|H].
  - rewrite Z.eqb_refl. by apply IH.
  - rewrite (proj2 (Z.eqb_neq _ _)) by lia. rewrite Z.ltb_lt. by split.
  - rewrite (proj2 (Z.eqb_neq _ _)) by lia. rewrite Z.ltb_lt. split; [lia|done].
Qed.

Lemma sink_perm {A} (less : A → A → bool) x l : sink less x l ≡ₚ x :: l.
Proof. induction l as [|y l IH]; simpl; [done|]. destruct (less x y); [|done]. rewrite IH. apply Permutation_swap. Qed.

Lemma insertion_perm {A} (less : A → A → bool) l : insertion less l ≡ₚ l.
Proof.
  unfold insertion. rewrite reverse_Permutation. rewrite <- (app_nil_l l) at 2. generalize (@nil A).
  induction l as [|x l IH]; intros acc; simpl; [by rewrite app_nil_r|].
  rewrite IH, sink_perm. simpl. by rewrite Permutation_middle.
Qed.

Section Sorted.
Context {A} (less : A → A → bool) (P : A → Prop).
Hypothesis less_asym : ∀ a b, P a → P b → less a b = true → less b a = false.
Hypothesis less_trans : ∀ a b c, P a → P b → P c → less a b = false → less b c = false → less a c = false.

Lemma sink_sorted x l :
  P x → Forall P l → StronglySorted (λ a b, less a b = false) l → StronglySorted (λ a b, less a b = false) (sink less x l).
Proof.
  intros Hx Hl. induction 1 as [|y l Hs IH Hf]; simpl; [by repeat constructor|].
  inversion Hl as [|? ? Hy Hl']; subst. destruct (less x y) eqn:E.
  - constructor; [by apply IH|]. rewrite sink_perm. constructor; [by apply less_asym|done].
  - constructor; [by constructor|]. constructor; [done|]. rewrite Forall_forall in Hf, Hl' |- *.
    intros z Hz. by apply (less_trans x y z); auto.
Qed.

(** The result is determined by the elements. *)
Lemma insertion_canonical l1 l2 :
  Forall P l1 → l1 ≡ₚ l2 → (∀ a b, a ∈ l1 → b ∈ l1 → less a b = false → less b a = false → a = b) →
  insertion less l1 = insertion less l2.
Proof.
  intros Hp Hperm Hanti. unfold insertion. f_equal.
  assert (∀ l acc, Forall P l → Forall P acc → StronglySorted (λ a b, less a b = false) acc →
    StronglySorted (λ a b, less a b = false) (foldl (λ acc x, sink less x acc) acc l)) as Hs.
  { induction l as [|x l IH]; intros acc Hl Ha Hs; simpl; [done|]. inversion Hl; subst.
    apply IH; [done|by rewrite sink_perm; constructor|by apply sink_sorted]. }
  assert (∀ l, foldl (λ acc x, sink less x acc) [] l ≡ₚ l) as Hpm.
  { intros l. rewrite <- (insertion_perm less l) at 2. unfold insertion. by rewrite reverse_Permutation. }
  apply (StronglySorted_unique_strong (λ a b, less a b = false)).
  - intros a b Ha Hb. rewrite Hpm in Ha, Hb. rewrite <- Hperm in Hb. by apply Hanti.
  - apply Hs; [done|constructor|constructor].
  - apply Hs; [by rewrite <- Hperm|constructor|constructor].
  - by rewrite !Hpm.
Qed.
End Sorted.

(** Sorting by a key of sixteen bytes. *)
Lemma insertion_by_key {A} (f : A → list Z) l1 l2 :
  Forall (λ a, length (f a) = 16%nat) l1 → l1 ≡ₚ l2 → (∀ a b, a ∈ l1 → b ∈ l1 → f a = f b → a = b) →
  insertion (λ a b, lessPeerID (f a) (f b)) l1 = insertion (λ a b, lessPeerID (f a) (f b)) l2.
Proof.
  intros Hl Hp Hinj.
  assert (∀ a b, length (f a) = 16%nat → length (f b) = 16%nat →
    lessPeerID (f a) (f b) = false ↔ bytes_compare (f a) (f b) ≠ Lt) as Hf.
  { intros a b Ha Hb. rewrite <- not_true_iff_false, lessPeerID_lt by congruence. done. }
  apply (insertion_canonical _ (λ a, length (f a) = 16%nat)); [| |done|done|].
  - intros a b Ha Hb H. apply lessPeerID_lt in H; [|congruence]. rewrite Hf by done.
    rewrite (cmp_opp (f a) (f b)), H. done.
  - intros a b c Ha Hb Hc. rewrite !Hf by done. rewrite (cmp_opp (f b) (f a)), (cmp_opp (f c) (f b)), (cmp_opp (f c) (f a)).
    intros H1 H2 H3. assert (cmp_le bytes_compare (f c) (f a)) as Hle.
    { apply (cmp_le_transitive bytes_compare _ (f b)); unfold cmp_le.
      - destruct (bytes_compare (f c) (f b)); done.
      - destruct (bytes_compare (f b) (f a)); done. }
    unfold cmp_le in Hle. by destruct (bytes_compare (f c) (f a)).
  - rewrite Forall_forall in Hl. intros a b Ha Hb H1 H2. apply Hinj; [done|done|].
    rewrite Hf in H1, H2 by auto. apply (cmp_eq (cmp:=bytes_compare)).
    rewrite (cmp_opp (f a) (f b)) in H2. by destruct (bytes_compare (f a) (f b)).
Qed.

(** ** Buckets, shuffle and picks *)

Lemma bucket_spec ps order buckets :
  foldl bucket_step ([], ∅) ps = (order, buckets) →
  NoDup order ∧ (∀ r, r ∈ order ↔ r ∈ map snd ps) ∧
  ∀ r, buckets !! r = if decide (r ∈ order) then Some (map fst (filter (λ p : nat * Z, p.2 = r) ps)) else None.
Proof.
  revert order buckets. induction ps as [|[i r0] ps IH] using rev_ind; intros order buckets.
  { intros [= <- <-]. split_and!; [constructor|done|]. intros r. by rewrite decide_False by apply not_elem_of_nil. }
  rewrite foldl_app. destruct (foldl bucket_step ([], ∅) ps) as [order0 buckets0] eqn:E.
  destruct (IH _ _ eq_refl) as (Hnd & Ho & Hb). simpl. pose proof (Hb r0) as Hr0.
  assert (∀ r, map fst (filter (λ p : nat * Z, p.2 = r) (ps ++ [(i, r0)])) =
    map fst (filter (λ p : nat * Z, p.2 = r) ps) ++ (if decide (r0 = r) then [i] else [])) as Hf.
  { intros r. rewrite filter_app, map_app. f_equal. rewrite filter_cons. simpl. by destruct (decide (r0 = r)). }
  destruct (decide (r0 ∈ order0)) as [Hin|Hin]; rewrite Hr0; intros [= <- <-]; split_and!.
  - done.
  - intros r. rewrite map_app, elem_of_app, <- Ho. simpl. set_solver.
  - intros r. rewrite Hf. destruct (decide (r0 = r)) as [<-|Hne].
    + by rewrite lookup_insert_eq, decide_True.
    + rewrite lookup_insert_ne, Hb, app_nil_r by done. done.
  - apply NoDup_app. split_and!; [done|set_solver|by apply NoDup_singleton].
  - intros r. rewrite map_app, !elem_of_app, <- Ho. simpl. done.
  - intros r. rewrite Hf. destruct (decide (r0 = r)) as [<-|Hne].
    + rewrite lookup_insert_eq, decide_True by set_solver.
      assert (filter (λ p : nat * Z, p.2 = r0) ps = []) as ->; [|done].
      apply elem_of_nil_inv. intros [j r] [Hjr Hj]%list_elem_of_filter. simpl in Hjr. subst r.
      apply Hin, Ho. apply list_elem_of_fmap. by exists (j, r0).
    + rewrite lookup_insert_ne, Hb, app_nil_r by done.
      destruct (decide (r ∈ order0)); [rewrite decide_True by set_solver; done|]. rewrite decide_False by set_solver. done.
Qed.

Lemma swap_perm {A} i j (l : list A) : swap i j l ≡ₚ l.
Proof.
  unfold swap. destruct (l !! i) as [x|] eqn:Ei; [|done]. destruct (l !! j) as [y|] eqn:Ej; [|done].
  symmetry. destruct (decide (i = j)) as [->|Hne].
  { assert (x = y) as -> by congruence. by rewrite list_insert_insert_eq, list_insert_id. }
  apply Permutation_inj. split; [by rewrite !length_insert|].
  exists (λ k, if decide (k = i) then j else if decide (k = j) then i else k). split.
  - intros a b. repeat case_decide; congruence.
  - pose proof (lookup_lt_Some _ _ _ Ei). pose proof (lookup_lt_Some _ _ _ Ej).
    intros k. case_decide as Hk; [subst k|case_decide as Hk'; [subst k|]].
    + rewrite list_lookup_insert_ne, list_lookup_insert_eq by (rewrite ?length_insert; done). done.
    + rewrite list_lookup_insert_eq by (by rewrite length_insert). done.
    + by rewrite !list_lookup_insert_ne by done.
Qed.

Lemma shuffle_perm {A} k i (l : list A) p : (shuffle k i l p).1 ≡ₚ l.
Proof.
  revert i l p. induction k as [|k IH]; intros i l p; simpl; [done|].
  destruct (draw (length l - i) p) as [r p']. by rewrite IH, swap_perm.
Qed.

Lemma draw_lt n p : (0 < n)%nat → ((draw n p).1 < n)%nat.
Proof.
  intros Hn. unfold draw. destruct (pcg_Uint64 p) as [x p']. simpl.
  pose proof (Z.mod_pos_bound x (Z.of_nat n)). lia.
Qed.

Lemma pick_regions_spec candidates buckets regions p :
  (∀ r, r ∈ regions → ∃ idxs, buckets !! r = Some idxs ∧ idxs ≠ [] ∧ ∀ i, i ∈ idxs → (i < length candidates)%nat) →
  Forall2 (λ r peer, ∃ idxs i, buckets !! r = Some idxs ∧ i ∈ idxs ∧ candidates !! i = Some peer)
    regions (pick_regions candidates buckets regions p).
Proof.
  revert p. induction regions as [|r regions IH]; intros p Hb; cbn [pick_regions]; [constructor|].
  destruct (Hb r ltac:(by left)) as (idxs & Hr & Hne & Hlt). rewrite Hr. cbv zeta. cbn [default from_option id].
  destruct (Nat.eqb_spec (length idxs) 0) as [Hz|Hz]; [by destruct idxs|].
  pose proof (draw_lt (length idxs) p ltac:(lia)) as Hd. destruct (draw (length idxs) p) as [k p']. simpl in Hd.
  constructor; [|apply IH; intros r' Hr'; apply Hb; by right].
  assert (nth k idxs 0%nat ∈ idxs) as Hin by (apply list_elem_of_In, nth_In; lia).
  exists idxs, (nth k idxs 0%nat). split_and!; [done|done|].
  destruct (nth_lookup_or_length candidates (nth k idxs 0%nat) []) as [Hl|Hge]; [exact Hl|]. specialize (Hlt _ Hin). lia.
Qed.

(** ** Properties *)

Lemma cross_not_same a b : crossRegion a b = negb (sameRegion a b).
Proof. unfold crossRegion, sameRegion. by destruct (_ || _). Qed.

Lemma cross_picks_elem self regs i r : (i, r) ∈ cross_picks self regs ↔ regs !! i = Some r ∧ crossRegion self r = true.
Proof.
  unfold cross_picks. rewrite list_elem_of_filter. simpl. split.
  - intros [Hc Hi]. apply elem_of_lookup_imap in Hi as (j & x & Hp & Hj). by injection Hp as -> ->.
  - intros [Hi Hc]. split; [done|]. apply elem_of_lookup_imap. eauto.
Qed.

Section Pick.
Context (self : Z) (cands : list (list Z * Z)).
Hypothesis Hcross : Forall (λ c, crossRegion self c.2 = true) cands.
#[local] Definition picks : list (nat * Z) := cross_picks self (map snd cands).

Lemma picks_elem i r : (i, r) ∈ picks ↔ ∃ c, cands !! i = Some c ∧ c.2 = r.
Proof.
  unfold picks. rewrite cross_picks_elem, list_lookup_fmap. split.
  - intros [Hi _]. destruct (cands !! i) as [c|]; [|done]. injection Hi as <-. by exists c.
  - intros (c & Hc & <-). rewrite Hc. split; [done|]. exact (proj1 (Forall_lookup _ _) Hcross i c Hc).
Qed.

Lemma picks_regions r : r ∈ map snd picks ↔ r ∈ map snd cands.
Proof.
  rewrite !(list_elem_of_fmap snd). split.
  - intros ([i r'] & -> & (c & Hc & <-)%picks_elem). exists c. split; [done|]. by eapply list_elem_of_lookup_2.
  - intros (c & -> & [i Hi]%list_elem_of_lookup). exists (i, c.2). split; [done|]. apply picks_elem. eauto.
Qed.

(** Each chosen region contributes one of its candidates. *)
Lemma picked_regions order buckets regions p :
  foldl bucket_step ([], ∅) picks = (order, buckets) → regions ⊆ order →
  Forall2 (λ r peer, (peer, r) ∈ cands) regions (pick_regions (map fst cands) buckets regions p).
Proof.
  intros Hb Hsub. destruct (bucket_spec _ _ _ Hb) as (_ & Ho & Hbk).
  assert (∀ r i, i ∈ map fst (filter (λ p : nat * Z, p.2 = r) picks) → ∃ c, cands !! i = Some c ∧ c.2 = r) as Hidx.
  { intros r i ([i' r'] & -> & [Hr Hi]%list_elem_of_filter)%list_elem_of_fmap. simpl in *. subst r'. by apply picks_elem. }
  eapply Forall2_impl; [apply pick_regions_spec|].
  - intros r Hr%Hsub. rewrite Hbk, decide_True by done. eexists. split_and!; [done| |].
    + apply Ho, list_elem_of_fmap in Hr as ([i r'] & -> & Hp). simpl. intros Hnil.
      apply (not_elem_of_nil i). rewrite <- Hnil. apply list_elem_of_fmap. exists (i, r'). by rewrite list_elem_of_filter.
    + intros i (c & Hc & _)%Hidx. rewrite length_map. by eapply lookup_lt_Some.
  - intros r peer (idxs & i & Hr & Hi & Hpeer). rewrite Hbk in Hr. destruct (decide _); [|done]. injection Hr as <-.
    apply Hidx in Hi as (c & Hc & <-). rewrite list_lookup_fmap, Hc in Hpeer. injection Hpeer as <-.
    destruct c. by eapply list_elem_of_lookup_2.
Qed.

(** What the fan-out adds: at most one peer per region, as many as it may. *)
Lemma pick_spec fanout seed out :
  ∃ picked : list (list Z * Z),
    pickInterRegionFanout self (map fst cands) (map snd cands) fanout seed out = out ++ map fst picked ∧
    picked ⊆ cands ∧ NoDup (map snd picked) ∧
    length picked = Nat.min (Z.to_nat fanout) (size (list_to_set (map snd cands) : gset Z)).
Proof.
  unfold pickInterRegionFanout. fold picks. destruct (_ || _) eqn:Hz.
  { exists []. rewrite app_nil_r. split_and!; [done|set_solver|constructor|]. apply orb_true_iff in Hz as [Hz|Hz].
    - apply Nat.eqb_eq, length_zero_iff_nil in Hz. assert (map snd cands = []) as ->.
      { apply elem_of_nil_inv. intros r Hr%picks_regions. rewrite Hz in Hr. by apply elem_of_nil in Hr. }
      rewrite list_to_set_nil, size_empty, Nat.min_0_r. done.
    - apply Z.leb_le in Hz. rewrite Z2Nat.nonpos by lia. done. }
  destruct (foldl bucket_step ([], ∅) picks) as [order buckets] eqn:Hb.
  destruct (bucket_spec _ _ _ Hb) as (Hnd & Ho & _). set (limit := Nat.min (Z.to_nat fanout) (length order)).
  pose proof (shuffle_perm limit 0 order (newSeededRand seed)) as Hsh.
  destruct (shuffle limit 0 order (newSeededRand seed)) as [order' rng]. simpl in Hsh.
  assert (take limit order' ⊆ order) as Hin.
  { intros r Hr. rewrite <- Hsh. apply elem_of_take in Hr as (? & ? & _). by eapply list_elem_of_lookup_2. }
  pose proof (picked_regions _ _ _ rng Hb Hin) as HF. pose proof (Forall2_length _ _ _ HF) as HFl.
  set (ps := pick_regions (map fst cands) buckets (take limit order') rng) in *.
  exists (zip ps (take limit order')).
  change (map fst) with (fmap (M:=list) (@fst (list Z) Z)). change (map snd) with (fmap (M:=list) (@snd (list Z) Z)).
  rewrite fst_zip, snd_zip by lia. split_and!; [done| | |].
  - intros [peer r] [i Hi]%list_elem_of_lookup. apply lookup_zip_Some in Hi as [H1 H2].
    exact (Forall2_lookup_lr _ _ _ _ _ _ HF H2 H1).
  - eapply sublist_NoDup; [|apply sublist_take]. by rewrite Hsh.
  - rewrite length_zip_with, <- HFl, Nat.min_id, length_take, Hsh.
    assert (list_to_set (cands.*2) = (list_to_set order : gset Z)) as ->.
    { apply set_eq. intros r. rewrite !elem_of_list_to_set, Ho. symmetry. apply picks_regions. }
    rewrite size_list_to_set by done. unfold limit. lia.
Qed.
End Pick.

Section Order.
Context (t : TopologyManager) (order : list (list Z * Z)).
Hypothesis Horder : order ≡ₚ map_to_list (tm_regions t).
Hypothesis Hlen : ∀ p r, tm_regions t !! p = Some r → length p = 16%nat.

Lemma order_elem pr : pr ∈ order ↔ tm_regions t !! pr.1 = Some pr.2.
Proof. rewrite Horder. destruct pr as [p r]. apply elem_of_map_to_list. Qed.

Lemma order_keys a b : a ∈ order → b ∈ order → a.1 = b.1 → a = b.
Proof. rewrite !order_elem. destruct a, b; simpl. intros H1 H2 ->. congruence. Qed.

Lemma order_NoDup : NoDup order.
Proof. rewrite Horder. apply NoDup_map_to_list. Qed.

(** Sorting any part of the registry by peer does not depend on the order. *)
Lemma sort_part (P : list Z * Z → Prop) `{∀ x, Decision (P x)} order' :
  order' ≡ₚ order →
  sortPeerIDs (map fst (filter P order')) = sortPeerIDs (map fst (filter P order)) ∧
  sortInterCandidates (filter P order') = sortInterCandidates (filter P order).
Proof.
  intros Hp. assert (filter P order ≡ₚ filter P order') as Hpf by (by rewrite Hp).
  assert (∀ x, x ∈ filter P order → length x.1 = 16%nat) as Hl.
  { intros x [_ Hx%order_elem]%list_elem_of_filter. by eapply Hlen. }
  split; symmetry.
  - apply (insertion_by_key (λ x, x)); [|by rewrite Hpf|by intros]. apply Forall_forall.
    intros p (x & -> & Hx)%list_elem_of_fmap. by apply Hl.
  - apply (insertion_by_key fst); [by apply Forall_forall|done|].
    intros a b [_ Ha]%list_elem_of_filter [_ Hb]%list_elem_of_filter. by apply order_keys.
Qed.
End Order.

(** The view of a round: whatever order the map is ranged over, the selection
    is the same; it holds every peer of the own region (untagged peers count as
    such), no peer twice and only registered ones, and beyond the own region
    exactly min(fanout, number of other regions) peers, no two of one region. *)
Theorem select_partial_view (t : TopologyManager) (order order' : list (list Z * Z)) :
  order ≡ₚ map_to_list (tm_regions t) → order' ≡ₚ order →
  (∀ p r, tm_regions t !! p = Some r → length p = 16%nat) →
  let self := tm_selfRegion t in
  let foreign := filter (λ pr : list Z * Z, sameRegion self pr.2 = false) order in
  Select order' t = Select order t ∧ NoDup (Select order t) ∧
  (∀ p, p ∈ Select order t → is_Some (tm_regions t !! p)) ∧
  (∀ p r, tm_regions t !! p = Some r → sameRegion self r = true → p ∈ Select order t) ∧
  ∃ intra picked, Select order t = intra ++ map fst picked ∧ picked ⊆ foreign ∧
    (∀ p, p ∈ intra → ∃ r, tm_regions t !! p = Some r ∧ sameRegion self r = true) ∧
    NoDup (map snd picked) ∧
    length picked = Nat.min (Z.to_nat (tm_fanout t)) (size (list_to_set (map snd foreign) : gset Z)).
Proof.
  intros Ho Ho' Hlen self foreign. pose proof (order_elem t order Ho) as Hel. pose proof (order_NoDup t order Ho) as Hnd.
  set (same := filter (λ pr : list Z * Z, sameRegion self pr.2 = true) order).
  assert (Select order' t = Select order t) as Heq.
  { unfold Select. destruct (sort_part t order Ho Hlen (λ pr, sameRegion self pr.2 = true) order' Ho') as [E1 _].
    destruct (sort_part t order Ho Hlen (λ pr, sameRegion self pr.2 = false) order' Ho') as [_ E2].
    fold self. by rewrite E1, E2. }
  destruct (pick_spec self (sortInterCandidates foreign)) with (fanout := tm_fanout t) (seed := tm_seed t)
    (out := sortPeerIDs (map fst same)) as (picked & Hsel & Hsub & Hnr & Hcount).
  { unfold sortInterCandidates. rewrite insertion_perm. apply Forall_forall.
    intros c [Hc _]%list_elem_of_filter. by rewrite cross_not_same, Hc. }
  change (Select order t = sortPeerIDs (map fst same) ++ map fst picked) in Hsel.
  assert (picked ⊆ foreign) as Hsubf.
  { intros x Hx%Hsub. unfold sortInterCandidates in Hx. by rewrite insertion_perm in Hx. }
  assert (∀ p, p ∈ sortPeerIDs (map fst same) ↔ ∃ r, tm_regions t !! p = Some r ∧ sameRegion self r = true) as Hintra.
  { intros p. unfold sortPeerIDs. rewrite insertion_perm. split.
    - intros (x & -> & [Hs Hx%Hel]%list_elem_of_filter)%list_elem_of_fmap. eauto.
    - intros (r & Hr & Hs). apply list_elem_of_fmap. exists (p, r). split; [done|]. apply list_elem_of_filter. by rewrite Hel. }
  assert (∀ x, x ∈ picked → tm_regions t !! x.1 = Some x.2 ∧ sameRegion self x.2 = false) as Hpk.
  { intros x [? ?%Hel]%Hsubf%list_elem_of_filter. done. }
  split_and!; [done| | | |].
  - rewrite Hsel. apply NoDup_app. split_and!.
    + unfold sortPeerIDs. rewrite insertion_perm. apply NoDup_fmap_fst; [|by apply NoDup_filter].
      intros p r1 r2 [_ ?%Hel]%list_elem_of_filter [_ ?%Hel]%list_elem_of_filter. simpl in *. congruence.
    + intros p (r & Hr & Hs)%Hintra (x & -> & [Hx Hd]%Hpk)%list_elem_of_fmap. congruence.
    + apply NoDup_fmap_fst; [|by eapply NoDup_fmap_1].
      intros p r1 r2 [? _]%Hpk [? _]%Hpk. simpl in *. congruence.
  - intros p. rewrite Hsel, elem_of_app. intros [(r & -> & _)%Hintra|(x & -> & [-> _]%Hpk)%list_elem_of_fmap]; eauto.
  - intros p r Hr Hs. rewrite Hsel, elem_of_app. left. apply Hintra. eauto.
  - exists (sortPeerIDs (map fst same)), picked. split_and!; [done|done|by intros p ?%Hintra|done|].
    rewrite Hcount. do 2 f_equal. apply set_eq. intros r. rewrite !elem_of_list_to_set.
    unfold sortInterCandidates. by rewrite insertion_perm.
Qed.


(** Five peers in the regions 1, 1, 2, 2 and 3, seen from region 1. *)
Definition sample_topology : TopologyManager :=
  SetFanout 2 (SetSeed 7 (foldr (λ pr t, SetRegion (replicate 16 pr.1) pr.2 t) (NewTopologyManager 1)
    [(10, 1); (11, 1); (20, 2); (21, 2); (30, 3)])).

Lemma select_partial_view_witness :
  let order := map_to_list (tm_regions sample_topology) in
  Select (reverse order) sample_topology = Select order sample_topology ∧ NoDup (Select order sample_topology) ∧
  length (Select order sample_topology) = 4%nat.
Proof.
  intros order.
  destruct (select_partial_view sample_topology order (reverse order)) as (H1 & H2 & _).
  - reflexivity.
  - apply reverse_Permutation.
  - intros p r Hp. apply elem_of_map_to_list, (elem_of_list_to_set (C := gset _)) in Hp.
    refine (bool_decide_unpack (set_Forall (λ pr : list Z * Z, length pr.1 = 16%nat)
      (list_to_set (map_to_list (tm_regions sample_topology)) : gset (list Z * Z))) _ (p, r) Hp).
    vm_compute. exact I.
  - split_and!; [exact H1|exact H2|vm_compute; reflexivity].
Defined.
