(* ===== verification/Gossip.v ===== *)
(** The gossiper's state (pkg/mesh/gossip.go), and first BuildCRDTDeltaBatch
    (pkg/mesh/batch.go): the events of a batch written into
    one Cap'n Proto message.  The builder of the list is the class [CapnpBatch],
    next to the reader's and the single event's of Apply.v. *)
From S2P Require Import Prelude Bytes Sha256 Dots Wal WalLog Hamt HamtMap Lamport Sorting Engine.
From S2P Require Import EngineInv JoinSpec EngineThms Merkle Snapshot LocalFS Bridge Iblt Strata.
From S2P Require Import IbltWire AntiEntropy Reconstruct Envelope Identity Hedge Apply.
From S2P Require Import PayloadStore RelayCache Topology.

Definition MaxBatchSize : Z := 256.
Definition DefaultBatchSize : Z := 100.

Record BuiltEvent := mkBuilt { be_EntityID : string; be_Payload : string; be_Entry : CRDTEntry }.

(** A setter of eventsList.At(i) writes into the message. *)
Class CapnpBatch (CP : Capnp) := {
  BatchBuilder : Type;
  NewRootCRDTDeltaBatch : Builder → result string BatchBuilder;
  NewEvents : Z → BatchBuilder → result string BatchBuilder;
  SetScalarAt : nat → scalar_field → Z → BatchBuilder → BatchBuilder;
  SetDataAt : nat → data_field → list Z → BatchBuilder → result string BatchBuilder;
  SetTextAt : nat → text_field → string → BatchBuilder → result string BatchBuilder;
  MarshalBatch : BatchBuilder → result string (list Z);
}.

Class CapnpBatchLaws {CP : Capnp} (CB : CapnpBatch CP) := {
  batch_contents : BatchBuilder → list CRDTDeltaEvent;
  contents_root seg b : NewRootCRDTDeltaBatch seg = Ok b → batch_contents b = [];
  contents_events n b b' : NewEvents n b = Ok b' → Z.of_nat (length (batch_contents b')) = n;
  contents_scalar_at i f x b : scalar_fits f x →
    batch_contents (SetScalarAt i f x b) = alter (with_scalar f x) i (batch_contents b);
  contents_data_at i f x b b' : SetDataAt i f x b = Ok b' →
    batch_contents b' = alter (with_data f x) i (batch_contents b);
  contents_text_at i f x b b' : SetTextAt i f x b = Ok b' →
    batch_contents b' = alter (with_text f x) i (batch_contents b);
  marshal_batch b wire : MarshalBatch b = Ok wire →
    ∃ m bt, Unmarshal wire = Ok m ∧ ReadRootCRDTDeltaBatch m = Ok bt ∧ Events bt = Ok (batch_contents b);
}.

(** The writer's steps, for its errors; an element index inside the loop. *)
Inductive batchBuildError :=
| BatchNewMessage (err : string)
| BatchNewRoot (err : string)
| BatchNewEvents (err : string)
| BatchData (i : nat) (f : data_field) (err : string)
| BatchText (i : nat) (f : text_field) (err : string)
| BatchMarshal (err : string).

Definition wrap_batch {A} (c : string → batchBuildError) (r : result string A) : result batchBuildError A :=
  match r with Ok a => Ok a | Err err => Err (c err) end.

Section Build.
Context `{CP : Capnp} `{CB : !CapnpBatch CP}.

(** The body of the loop. *)
Definition build_event (i : nat) (be : BuiltEvent) (b : BatchBuilder) : result batchBuildError BatchBuilder :=
  let x := be_Entry be in
  let b := SetScalarAt i FVersion CRDTDeltaEventWireVersion b in
  b ← wrap_batch (BatchData i FPayloadDigest) (SetDataAt i FPayloadDigest (PayloadDigest x) b);
  b ← wrap_batch (BatchData i FOriginNodeID) (SetDataAt i FOriginNodeID (OriginNodeID x) b);
  b ← wrap_batch (BatchData i FDotNodeID) (SetDataAt i FDotNodeID (DotNodeID x) b);
  let b := SetScalarAt i FDotCounter (DotCounter x) b in
  let b := SetScalarAt i FH3Index (H3Index x) b in
  let b := SetScalarAt i FSystemTime (SystemTime x) b in
  let b := SetScalarAt i FValidTimeStart (ValidTimeStart x) b in
  let b := SetScalarAt i FValidTimeEnd (ValidTimeEnd x) b in
  let b := SetScalarAt i FAssertionTime (AssertionTime x) b in
  let b := SetScalarAt i FDecisionTime (DecisionTime x) b in
  b ← wrap_batch (BatchText i FEntityId) (SetTextAt i FEntityId (be_EntityID be) b);
  wrap_batch (BatchText i FPayload) (SetTextAt i FPayload (be_Payload be) b).

Fixpoint build_events (i : nat) (events : list BuiltEvent) (b : BatchBuilder) : result batchBuildError BatchBuilder :=
  match events with
  | [] => Ok b
  | be :: events' => b ← build_event i be b; build_events (S i) events' b
  end.

Definition BuildCRDTDeltaBatch (events : list BuiltEvent) : result batchBuildError (list Z) :=
  seg ← wrap_batch BatchNewMessage NewMessage;
  batch ← wrap_batch BatchNewRoot (NewRootCRDTDeltaBatch seg);
  match events with
  | [] => wrap_batch BatchMarshal (MarshalBatch batch)
  | _ =>
      batch ← wrap_batch BatchNewEvents (NewEvents (i32 (Z.of_nat (length events))) batch);
      batch ← build_events 0 events batch;
      wrap_batch BatchMarshal (MarshalBatch batch)
  end.
End Build.

Section BuildLaws.
Context `{CP : Capnp} `{CB : !CapnpBatch CP} `{CL : !CapnpBatchLaws CB}.

Definition built_event (be : BuiltEvent) : CRDTDeltaEvent := event_of (be_EntityID be) (be_Payload be) (be_Entry be).

Lemma wrap_batch_Ok {A} c (r : result string A) a : wrap_batch c r = Ok a ↔ r = Ok a.
Proof. destruct r; simpl; naive_solver. Qed.

Lemma build_event_contents i be b b' :
  sized_entry (be_Entry be) → build_event i be b = Ok b' →
  batch_contents b' = alter (λ _, built_event be) i (batch_contents b).
Proof.
  intros (_ & _ & H1 & H2 & H3 & H4 & H5 & H6 & H7) H. unfold build_event in H. cbv zeta in H.
  do 4 (apply result_bind_Ok in H as (? & ?%wrap_batch_Ok & H)). apply wrap_batch_Ok in H.
  repeat match goal with
  | HT : SetTextAt _ _ _ _ = Ok _ |- _ => apply contents_text_at in HT
  | HD : SetDataAt _ _ _ _ = Ok _ |- _ => apply contents_data_at in HD
  end.
  assert (scalar_fits FVersion CRDTDeltaEventWireVersion) as Hv by done.
  repeat (match goal with
  | HC : batch_contents ?b = _ |- context [batch_contents ?b] => rewrite HC
  end || rewrite contents_scalar_at by done).
  rewrite !list_alter_alter_eq. apply list_alter_ext; [|done]. intros ev _. unfold compose. by destruct ev.
Qed.

Lemma build_events_contents events i b b' :
  Forall (λ be, sized_entry (be_Entry be)) events → build_events i events b = Ok b' →
  length (batch_contents b') = length (batch_contents b) ∧
  (∀ j, (j < i)%nat → batch_contents b' !! j = batch_contents b !! j) ∧
  (∀ j be, events !! j = Some be → (i + j < length (batch_contents b))%nat →
     batch_contents b' !! (i + j)%nat = Some (built_event be)).
Proof.
  intros Hs. revert i b. induction Hs as [|be events Hbe _ IH]; intros i b; simpl.
  { intros [= <-]. done. }
  rewrite result_bind_Ok. intros (b1 & H1 & H2). apply build_event_contents in H1; [|done].
  destruct (IH (S i) b1 H2) as (Hl & Hlt & Hev). rewrite H1, length_alter in Hl, Hev. split_and!; [done| |].
  - intros j Hj. rewrite Hlt, H1, list_lookup_alter_ne by lia. done.
  - intros [|j] be' Hj Hlen.
    + injection Hj as ->. rewrite Nat.add_0_r in *. rewrite Hlt, H1, list_lookup_alter_eq by lia.
      destruct (lookup_lt_is_Some_2 _ _ Hlen) as [x ->]. done.
    + rewrite <- Nat.add_succ_comm in *. by apply Hev.
Qed.

(** What BuildCRDTDeltaBatch writes is what the receiver decodes, in order. *)
Lemma build_batch_decode events wire :
  Forall (λ be, sized_entry (be_Entry be)) events → Z.of_nat (length events) < 2 ^ 31 →
  BuildCRDTDeltaBatch events = Ok wire → decode_batch wire = Ok (map built_event events).
Proof.
  intros Hs Hlen H. unfold BuildCRDTDeltaBatch in H. apply result_bind_Ok in H as (seg & _ & H).
  apply result_bind_Ok in H as (b & Hb%wrap_batch_Ok%contents_root & H).
  assert (∃ b', MarshalBatch b' = Ok wire ∧ batch_contents b' = map built_event events) as (b' & Hm & Hc).
  { destruct events as [|be events]; [apply wrap_batch_Ok in H; eauto|].
    apply result_bind_Ok in H as (b1 & Hb1%wrap_batch_Ok%contents_events & H).
    apply result_bind_Ok in H as (b2 & Hb2 & H%wrap_batch_Ok). exists b2. split; [done|].
    rewrite i32_id in Hb1 by (unfold is_i32; simpl length in *; lia). apply Nat2Z.inj in Hb1.
    destruct (build_events_contents _ _ _ _ Hs Hb2) as (Hl & _ & Hev). apply list_eq. intros j.
    rewrite (list_lookup_fmap built_event). destruct ((be :: events) !! j) as [be'|] eqn:E.
    - pose proof (lookup_lt_Some _ _ _ E). apply (Hev j be' E). lia.
    - apply lookup_ge_None in E. apply lookup_ge_None. lia. }
  apply marshal_batch in Hm as (m & bt & Hu & Hr & He). unfold decode_batch.
  rewrite Hu. simpl. rewrite Hr. simpl. by rewrite He, Hc.
Qed.
End BuildLaws.

(** * The gossiper (pkg/mesh/gossip.go, batch.go, digest.go): local writes with
    their payloads, retention of foreign frames, digest exchange, and the
    anti-entropy sweep that signs and publishes what a peer may lack.

    The environment of a run is the record [Env]: for the n-th request of each
    kind it says whether the context was cancelled, which random bytes and seeds
    were drawn, whether a publish succeeded, and what arrived while the sweep
    waited for a digest.  [World] counts the requests and collects the frames
    that were published. *)

(** What the select of generateSweepDelta saw. *)
Inductive WaitOutcome := WReceived | WCancelled | WTimer.

Record peerDigest := mkPeerDigest { pd_se : option StrataEstimator; pd_iblt : option IBLT }.

Record Env := mkEnv {
  env_cancelled : nat → bool;
  env_rand : nat → option (list Z);
  env_pqRand : nat → list Z;
  env_publish : nat → bool;
  env_seed : nat → Z;
  env_digests : nat → list (list Z);
  env_wait : nat → WaitOutcome;
}.

Record World := mkWorld {
  w_polls : nat;
  w_draws : nat;
  w_pubs : nat;
  w_seeds : nat;
  w_waits : nat;
  w_fallbacks : nat;
  w_interRegion : nat;
  w_sent : list (list Z * list Z);
}.

Definition poll (env : Env) (w : World) : bool * World :=
  (env_cancelled env (w_polls w),
   mkWorld (S (w_polls w)) (w_draws w) (w_pubs w) (w_seeds w) (w_waits w) (w_fallbacks w) (w_interRegion w) (w_sent w)).

Definition draw_rand (w : World) : World :=
  mkWorld (w_polls w) (S (w_draws w)) (w_pubs w) (w_seeds w) (w_waits w) (w_fallbacks w) (w_interRegion w) (w_sent w).

Definition make_seed (env : Env) (w : World) : Z * World :=
  (env_seed env (w_seeds w),
   mkWorld (w_polls w) (w_draws w) (w_pubs w) (S (w_seeds w)) (w_waits w) (w_fallbacks w) (w_interRegion w) (w_sent w)).

(** PeerSet.Publish: a frame that was accepted by the transport is sent. *)
Definition Publish (env : Env) (peerID prefixed : list Z) (w : World) : bool * World :=
  let ok := env_publish env (w_pubs w) in
  (ok, mkWorld (w_polls w) (w_draws w) (S (w_pubs w)) (w_seeds w) (w_waits w) (w_fallbacks w) (w_interRegion w)
         (if ok then w_sent w ++ [(peerID, prefixed)] else w_sent w)).

Definition reportStratifiedFallback (w : World) : World :=
  mkWorld (w_polls w) (w_draws w) (w_pubs w) (w_seeds w) (w_waits w) (S (w_fallbacks w)) (w_interRegion w) (w_sent w).

Definition report_inter_region (w : World) : World :=
  mkWorld (w_polls w) (w_draws w) (w_pubs w) (w_seeds w) (w_waits w) (w_fallbacks w) (S (w_interRegion w)) (w_sent w).

Definition note_wait (w : World) : World :=
  mkWorld (w_polls w) (w_draws w) (w_pubs w) (w_seeds w) (S (w_waits w)) (w_fallbacks w) (w_interRegion w) (w_sent w).

(** ** Digest frames (digest.go) *)

Definition digestFrameHeaderLen : nat := 4 + 16.
Definition digestFrameSELenOff : nat := digestFrameHeaderLen.

(** [None] is the nil pair; the estimator's part may be empty. *)
Definition digestFrameSplit (frame : list Z) : option (list Z * list Z) :=
  if (length frame <? digestFrameSELenOff + 4)%nat then None
  else
    let seLen := Z.to_nat (be_get (slice digestFrameSELenOff 4 frame)) in
    let seStart := (digestFrameSELenOff + 4)%nat in
    if (length frame <? seStart + seLen)%nat then None
    else Some (slice seStart seLen frame, drop (seStart + seLen) frame).

Definition digestFrameSender (frame : list Z) : list Z :=
  if (length frame <? digestFrameHeaderLen)%nat then zero16 else slice 4 16 frame.

Definition buildDigestFrame (senderID marshaledStrata marshaledIBLT : list Z) : list Z :=
  be_put 4 WireDigestMagic ++ senderID ++ be_put 4 (u32 (Z.of_nat (length marshaledStrata))) ++
  marshaledStrata ++ marshaledIBLT.

Section Gossip.
Context `{MH : MapHash} `{SS : SliceSort} `{CP : Capnp} `{CB : !CapnpBatch CP} `{CR : Crypto} `{SG : !Signer CR}.

(** The engine, alone or inside the durability bridge that writes through it. *)
Inductive Store := SBare (e : Engine) | SBridge (b : Bridge.Bridge).

Definition engine_of (s : Store) : Engine := match s with SBare e => e | SBridge b => b_engine b end.

(** The memo of one sweep: [None] is the nil map. *)
Record SweepMemo := mkMemo {
  sweepEnvCache : option (gmap nat (list Z * nat));
  sweepEnvRound : Z;
  sweepEnvIdx : nat;
}.

Record Convergence := mkConv {
  lastConvergedAt : option Z;
  lastConvergedRoot : list Z;
  prevRoot : list Z;
}.

(** A digest channel has room for one digest: [None] is an empty channel. *)
Record Gossiper := mkGossiper {
  g_commitInFlight : Z;
  g_cache : payloadCache;
  g_relay : relayCache;
  g_owner : NodeIdentity;
  g_store : Store;
  g_domains : Directory;
  g_batchSize : Z;
  g_sweepRound : Z;
  g_memo : SweepMemo;
  g_batchSeq : Z;
  g_conv : Convergence;
  g_stratified : bool;
  g_digestRecv : gmap (list Z) (option peerDigest);
  g_hybridSign : bool;
  g_topology : option TopologyManager;
  g_interRegionReporter : bool;
  g_regionAware : bool;
}.

Definition g_engine (g : Gossiper) : Engine := engine_of (g_store g).

Definition NewGossiper (owner : NodeIdentity) (store : Store) (dir : Directory) : Gossiper :=
  mkGossiper 0 newPayloadCache newRelayCache owner store dir 0 0 (mkMemo None 0 0) 0
    (mkConv None (replicate 32 0) (replicate 32 0)) false ∅ false None false false.

Definition with_memo (m : SweepMemo) (g : Gossiper) : Gossiper :=
  mkGossiper (g_commitInFlight g) (g_cache g) (g_relay g) (g_owner g) (g_store g) (g_domains g) (g_batchSize g)
    (g_sweepRound g) m (g_batchSeq g) (g_conv g) (g_stratified g) (g_digestRecv g) (g_hybridSign g) (g_topology g)
    (g_interRegionReporter g) (g_regionAware g).
Definition with_seq (n : Z) (g : Gossiper) : Gossiper :=
  mkGossiper (g_commitInFlight g) (g_cache g) (g_relay g) (g_owner g) (g_store g) (g_domains g) (g_batchSize g)
    (g_sweepRound g) (g_memo g) n (g_conv g) (g_stratified g) (g_digestRecv g) (g_hybridSign g) (g_topology g)
    (g_interRegionReporter g) (g_regionAware g).
Definition with_recv (m : gmap (list Z) (option peerDigest)) (g : Gossiper) : Gossiper :=
  mkGossiper (g_commitInFlight g) (g_cache g) (g_relay g) (g_owner g) (g_store g) (g_domains g) (g_batchSize g)
    (g_sweepRound g) (g_memo g) (g_batchSeq g) (g_conv g) (g_stratified g) m (g_hybridSign g) (g_topology g)
    (g_interRegionReporter g) (g_regionAware g).
Definition with_store_cache (s : Store) (c : payloadCache) (g : Gossiper) : Gossiper :=
  mkGossiper (g_commitInFlight g) c (g_relay g) (g_owner g) s (g_domains g) (g_batchSize g)
    (g_sweepRound g) (g_memo g) (g_batchSeq g) (g_conv g) (g_stratified g) (g_digestRecv g) (g_hybridSign g)
    (g_topology g) (g_interRegionReporter g) (g_regionAware g).
Definition with_relay (r : relayCache) (g : Gossiper) : Gossiper :=
  mkGossiper (g_commitInFlight g) (g_cache g) r (g_owner g) (g_store g) (g_domains g) (g_batchSize g)
    (g_sweepRound g) (g_memo g) (g_batchSeq g) (g_conv g) (g_stratified g) (g_digestRecv g) (g_hybridSign g)
    (g_topology g) (g_interRegionReporter g) (g_regionAware g).
Definition with_conv (c : Convergence) (g : Gossiper) : Gossiper :=
  mkGossiper (g_commitInFlight g) (g_cache g) (g_relay g) (g_owner g) (g_store g) (g_domains g) (g_batchSize g)
    (g_sweepRound g) (g_memo g) (g_batchSeq g) c (g_stratified g) (g_digestRecv g) (g_hybridSign g)
    (g_topology g) (g_interRegionReporter g) (g_regionAware g).

(** sweepRound++, the memo dropped, and the topology reseeded when armed. *)
Definition start_round (t : option TopologyManager) (g : Gossiper) : Gossiper :=
  let round := g_sweepRound g +ₒ 1 in
  mkGossiper (g_commitInFlight g) (g_cache g) (g_relay g) (g_owner g) (g_store g) (g_domains g) (g_batchSize g)
    round (mkMemo None round 0) (g_batchSeq g) (g_conv g) (g_stratified g) (g_digestRecv g) (g_hybridSign g)
    t (g_interRegionReporter g) (g_regionAware g).

Definition SetBatchSize (n : Z) (g : Gossiper) : Gossiper :=
  let n := if n <? 1 then 1 else n in
  let n := if MaxBatchSize <? n then MaxBatchSize else n in
  mkGossiper (g_commitInFlight g) (g_cache g) (g_relay g) (g_owner g) (g_store g) (g_domains g) n
    (g_sweepRound g) (g_memo g) (g_batchSeq g) (g_conv g) (g_stratified g) (g_digestRecv g) (g_hybridSign g)
    (g_topology g) (g_interRegionReporter g) (g_regionAware g).

(** ** Configuration *)

Definition SetStratifiedAntiEntropy (on : bool) (g : Gossiper) : Gossiper :=
  mkGossiper (g_commitInFlight g) (g_cache g) (g_relay g) (g_owner g) (g_store g) (g_domains g) (g_batchSize g)
    (g_sweepRound g) (g_memo g) (g_batchSeq g) (g_conv g) on (g_digestRecv g) (g_hybridSign g)
    (g_topology g) (g_interRegionReporter g) (g_regionAware g).
Definition SetHybridSign (on : bool) (g : Gossiper) : Gossiper :=
  mkGossiper (g_commitInFlight g) (g_cache g) (g_relay g) (g_owner g) (g_store g) (g_domains g) (g_batchSize g)
    (g_sweepRound g) (g_memo g) (g_batchSeq g) (g_conv g) (g_stratified g) (g_digestRecv g) on
    (g_topology g) (g_interRegionReporter g) (g_regionAware g).
Definition SetTopology (t : option TopologyManager) (g : Gossiper) : Gossiper :=
  mkGossiper (g_commitInFlight g) (g_cache g) (g_relay g) (g_owner g) (g_store g) (g_domains g) (g_batchSize g)
    (g_sweepRound g) (g_memo g) (g_batchSeq g) (g_conv g) (g_stratified g) (g_digestRecv g) (g_hybridSign g)
    t (g_interRegionReporter g) (g_regionAware g).
Definition SetRegionAware (on : bool) (g : Gossiper) : Gossiper :=
  mkGossiper (g_commitInFlight g) (g_cache g) (g_relay g) (g_owner g) (g_store g) (g_domains g) (g_batchSize g)
    (g_sweepRound g) (g_memo g) (g_batchSeq g) (g_conv g) (g_stratified g) (g_digestRecv g) (g_hybridSign g)
    (g_topology g) (g_interRegionReporter g) on.
Definition SetInterRegionReporter (installed : bool) (g : Gossiper) : Gossiper :=
  mkGossiper (g_commitInFlight g) (g_cache g) (g_relay g) (g_owner g) (g_store g) (g_domains g) (g_batchSize g)
    (g_sweepRound g) (g_memo g) (g_batchSeq g) (g_conv g) (g_stratified g) (g_digestRecv g) (g_hybridSign g)
    (g_topology g) installed (g_regionAware g).

(** The bridge writes through the node's own engine; nil goes back to memory only. *)
Definition SetBridge (b : option Bridge.Bridge) (g : Gossiper) : Gossiper :=
  mkGossiper (g_commitInFlight g) (g_cache g) (g_relay g) (g_owner g) (match b with Some b => SBridge b | None => SBare (engine_of (g_store g)) end) (g_domains g) (g_batchSize g)
    (g_sweepRound g) (g_memo g) (g_batchSeq g) (g_conv g) (g_stratified g) (g_digestRecv g) (g_hybridSign g)
    (g_topology g) (g_interRegionReporter g) (g_regionAware g).
Definition BridgeActive (g : Gossiper) : bool := match g_store g with SBridge _ => true | SBare _ => false end.

(** CommitStats: count, total and maximum of the append times. *)
Definition Gossiper_CommitStats (g : Gossiper) : Z * Z * Z :=
  match g_store g with
  | SBare _ => (0, 0, 0)
  | SBridge b => (commitCount b, commitAppendNs b, commitMaxAppendNs b)
  end.

Definition RegisterPeer (peerID pub : list Z) (g : Gossiper) : option DirectoryError * Gossiper :=
  let '(err, d) := Register peerID pub (g_domains g) in
  (err, mkGossiper (g_commitInFlight g) (g_cache g) (g_relay g) (g_owner g) (g_store g) d (g_batchSize g)
    (g_sweepRound g) (g_memo g) (g_batchSeq g) (g_conv g) (g_stratified g) (g_digestRecv g) (g_hybridSign g)
    (g_topology g) (g_interRegionReporter g) (g_regionAware g)).

(** ** Retention of foreign frames *)

Definition RetainForeign (originNodeID : list Z) (dotCounter : Z) (frameBytes : list Z) (g : Gossiper) : Gossiper :=
  if decide (originNodeID = ni_NodeID (g_owner g)) then g
  else with_relay (relay_retain originNodeID dotCounter frameBytes (g_relay g)) g.

Definition RetainForeignBatch (originNodeID : list Z) (originSeq : Z) (dotCounters batchFrameBytes : list Z)
    (g : Gossiper) : Gossiper :=
  if decide (originNodeID = ni_NodeID (g_owner g)) then g
  else with_relay (retainBatch originNodeID originSeq dotCounters batchFrameBytes (g_relay g)) g.

Definition Gossiper_CacheStats (g : Gossiper) : CacheStats := cache_stats (g_cache g) (g_relay g).

(** ** Local writes *)

Definition zeroDot : CausalDot := mkDot zero16 0.

(** [r], [ok], [ns]: what the log's write and fsync did (used with a bridge).
    The in-flight counter is back where it was when the call returns. *)
Definition InsertLocalEvents (entityID payload : string) (entry : CRDTEntry) (r : wres) (ok : bool) (ns : Z)
    (g : Gossiper) : outcome (CausalDot * Gossiper) :=
  match g_store g with
  | SBridge b =>
      match PutLocal entityID (string_bytes payload) entry r ok ns b with
      | Panic m => Panic m
      | Ret (_, Some _, b, _) => Ret (zeroDot, with_store_cache (SBridge b) (g_cache g) g)
      | Ret (dot, None, b, _) =>
          Ret (dot, with_store_cache (SBridge b) (cache_record entityID dot payload (g_cache g)) g)
      end
  | SBare e =>
      match InsertLocalEvents_noBridge entityID payload entry e (g_cache g) with
      | Panic m => Panic m
      | Ret (dot, e, c) => Ret (dot, with_store_cache (SBare e) c g)
      end
  end.

(** The loop of the in-memory batch. *)
Fixpoint insert_items (items : list BuiltEvent) (e : Engine) (c : payloadCache) :
    outcome (list CausalDot * Engine * payloadCache) :=
  match items with
  | [] => Ret ([], e, c)
  | it :: items' =>
      match InsertLocalEvents_noBridge (be_EntityID it) (be_Payload it) (be_Entry it) e c with
      | Panic m => Panic m
      | Ret (dot, e, c) =>
          match insert_items items' e c with
          | Panic m => Panic m
          | Ret (dots, e, c) => Ret (dot :: dots, e, c)
          end
      end
  end.

Definition record_all (items : list BuiltEvent) (dots : list CausalDot) (c : payloadCache) : payloadCache :=
  foldl (λ c p, cache_record (be_EntityID p.1) p.2 (be_Payload p.1) c) c (zip items dots).

Definition local_item (it : BuiltEvent) : LocalItem := mkItem (be_EntityID it) (string_bytes (be_Payload it)) (be_Entry it).

(** Dots, failedFrom and error. *)
Definition InsertLocalEventsBatch (items : list BuiltEvent) (rs : nat → wres) (ok : bool) (ns : Z) (g : Gossiper) :
    outcome (list CausalDot * Z * option WALError * Gossiper) :=
  match g_store g with
  | SBridge b =>
      match PutLocals (map local_item items) rs ok ns b with
      | Panic m => Panic m
      | Ret (dots, failedFrom, Some err, b, _) =>
          Ret (dots, failedFrom, Some err, with_store_cache (SBridge b) (g_cache g) g)
      | Ret (dots, _, None, b, _) =>
          Ret (dots, -1, None, with_store_cache (SBridge b) (record_all items dots (g_cache g)) g)
      end
  | SBare e =>
      match insert_items items e (g_cache g) with
      | Panic m => Panic m
      | Ret (dots, e, c) => Ret (dots, -1, None, with_store_cache (SBare e) c g)
      end
  end.
End Gossip.
