(* ===== verification/GossipSweep.v ===== *)
(** The anti-entropy sweep (pkg/mesh/gossip.go, batch.go, digest.go): the memo of
    signed envelopes, batches signed and published, the per-frame path, digest
    exchange, and the sweep over the peers. *)
From S2P Require Import Prelude Bytes Sha256 Dots Wal WalLog Hamt HamtMap Lamport Sorting Engine.
From S2P Require Import EngineInv JoinSpec EngineThms Merkle Snapshot LocalFS Bridge Iblt Strata.
From S2P Require Import IbltWire AntiEntropy Reconstruct Envelope Identity Hedge Apply.
From S2P Require Import PayloadStore RelayCache Topology Gossip.

(** copy into a fixed array. *)
Definition copy_array (n : nat) (src : list Z) : list Z := take n src ++ replicate (n - length src) 0.

Definition u16 (x : Z) : Z := x `mod` 2 ^ 16.

(** What a call of ShipBatch or ShipBatchHybrid fails with. *)
Inductive ShipError :=
| ShipTooLarge (n : nat)
| ShipCancelled
| ShipNoPQKey
| ShipBuild (err : batchBuildError)
| ShipSign (err : SignError)
| ShipPublish.

(** The results of shipDelta and shipBatchedDelta. *)
Record Tally := mkTally {
  t_shipped : Z;
  t_entries : Z;
  t_misses : Z;
  t_relayMisses : Z;
  t_pending : Z;
}.

Definition tally0 : Tally := mkTally 0 0 0 0 0.
Definition add_shipped (b e : Z) (t : Tally) : Tally :=
  mkTally (t_shipped t + b) (t_entries t + e) (t_misses t) (t_relayMisses t) (t_pending t).
Definition add_miss (t : Tally) : Tally :=
  mkTally (t_shipped t) (t_entries t) (t_misses t + 1) (t_relayMisses t) (t_pending t).
Definition add_relayMiss (t : Tally) : Tally :=
  mkTally (t_shipped t) (t_entries t) (t_misses t) (t_relayMisses t + 1) (t_pending t).
Definition add_pending (t : Tally) : Tally :=
  mkTally (t_shipped t) (t_entries t) (t_misses t) (t_relayMisses t) (t_pending t + 1).

Record sweepState := mkSweep {
  st_round : Z;
  st_shippedEnvelopes : Z;
  st_shippedEntries : Z;
  st_payloadMisses : Z;
  st_relayMisses : Z;
  st_payloadPending : Z;
}.

Definition add_tally (t : Tally) (st : sweepState) : sweepState :=
  mkSweep (st_round st) (st_shippedEnvelopes st + t_shipped t) (st_shippedEntries st + t_entries t)
    (st_payloadMisses st + t_misses t) (st_relayMisses st + t_relayMisses t) (st_payloadPending st + t_pending t).

(** A range whose body may stop it: [false] stops. *)
Fixpoint range {A S} (f : A → S → bool * S) (l : list A) (s : S) : S :=
  match l with
  | [] => s
  | a :: l' => let '(go, s) := f a s in if go then range f l' s else s
  end.

Section Sweep.
Context `{MH : MapHash} `{SS : SliceSort} `{CP : Capnp} `{CB : !CapnpBatch CP} `{CR : Crypto} `{SG : !Signer CR}.

(** ** The memo of one sweep *)

Definition sweepEnvelope (batchLen : nat) (g : Gossiper) : option (list Z) * Gossiper :=
  if g_stratified g then (None, g)
  else
    let m := g_memo g in
    match sweepEnvCache m with
    | None => (None, g)
    | Some cache =>
        if negb (sweepEnvRound m =? g_sweepRound g) then (None, g)
        else match cache !! sweepEnvIdx m with
             | None => (None, g)
             | Some (env, n) =>
                 if negb (n =? batchLen)%nat then (None, g)
                 else (Some env, with_memo (mkMemo (Some cache) (sweepEnvRound m) (S (sweepEnvIdx m))) g)
             end
    end.

Definition cacheSweepEnvelope (batchLen : nat) (prefixed : list Z) (g : Gossiper) : Gossiper :=
  if g_stratified g then g
  else
    let m := g_memo g in
    let '(cache, round) :=
      match sweepEnvCache m with Some c => (c, sweepEnvRound m) | None => (∅, g_sweepRound g) end in
    with_memo (mkMemo (Some (<[sweepEnvIdx m := (prefixed, batchLen)]> cache)) round (S (sweepEnvIdx m))) g.

(** ** Batches *)

(** Results, gossiper and world of one call. *)
Definition shipped (A : Type) : Type := result ShipError A * Gossiper * World.

(** The publish that ends a call. *)
Definition publish_batch (env : Env) (peerID prefixed : list Z) (n : nat) (g : Gossiper) (w : World) : shipped (Z * Z) :=
  let '(ok, w) := Publish env peerID prefixed w in
  (if ok then Ok (1, Z.of_nat n) else Err ShipPublish, g, w).

(** From the first look at the memo on; [sign] is the part of the two calls that
    differs: the signature and the envelope around it. *)
Definition ship_with (sign : list Z → result SignError (Z → list Z)) (env : Env) (peerID : list Z)
    (events : list BuiltEvent) (g : Gossiper) (w : World) : shipped (Z * Z) :=
  match sweepEnvelope (length events) g with
  | (Some pre, g) => publish_batch env peerID pre (length events) g w
  | (None, g) =>
      match BuildCRDTDeltaBatch events with
      | Err err => (Err (ShipBuild err), g, w)
      | Ok batchWire =>
          match sign batchWire with
          | Err err => (Err (ShipSign err), g, draw_rand w)
          | Ok envelope =>
              let w := draw_rand w in
              let originSeq := g_batchSeq g +ₒ 1 in
              let g := with_seq originSeq g in
              let prefixed := LengthPrefixFrame (envelope originSeq) in
              publish_batch env peerID prefixed (length events) (cacheSweepEnvelope (length events) prefixed g) w
          end
      end
  end.

Definition ShipBatch (env : Env) (peerID : list Z) (events : list BuiltEvent) (g : Gossiper) (w : World) : shipped (Z * Z) :=
  if (length events =? 0)%nat then (Ok (0, 0), g, w)
  else if MaxBatchSize <? Z.of_nat (length events) then (Err (ShipTooLarge (length events)), g, w)
  else
    let '(cancelled, w) := poll env w in
    if cancelled then (Err ShipCancelled, g, w)
    else
      ship_with (λ batchWire,
        sig ← SignCRDTFrame (env_rand env (w_draws w)) (ni_Seed (g_owner g)) batchWire;
        Ok (λ originSeq, MarshalBatchEnvelope (ni_NodeID (g_owner g)) (copy_array OriginSigSize sig) originSeq
                           (u16 (Z.of_nat (length events))) batchWire)) env peerID events g w.

Definition ShipBatchHybrid (env : Env) (peerID : list Z) (events : list BuiltEvent) (g : Gossiper) (w : World) : shipped (Z * Z) :=
  if (length events =? 0)%nat then (Ok (0, 0), g, w)
  else if MaxBatchSize <? Z.of_nat (length events) then (Err (ShipTooLarge (length events)), g, w)
  else
    let '(cancelled, w) := poll env w in
    if cancelled then (Err ShipCancelled, g, w)
    else match ni_PQPriv (g_owner g) with
         | None => (Err ShipNoPQKey, g, w)
         | Some _ =>
             ship_with (λ batchWire,
               sigs ← SignCRDTFrame_Hybrid (env_rand env (w_draws w)) (env_pqRand env (w_draws w)) (ni_Seed (g_owner g))
                        (ni_PQPriv (g_owner g)) batchWire "";
               Ok (λ originSeq, MarshalHybridFrame (ni_NodeID (g_owner g)) sigs.1 sigs.2 originSeq
                                  (u16 (Z.of_nat (length events))) batchWire)) env peerID events g w
         end.

(** The variables the closures of shipBatchedDelta share. *)
Record ShipState := mkShip {
  sh_g : Gossiper;
  sh_w : World;
  sh_batch : list BuiltEvent;
  sh_seen : gset batchRelayKey;
  sh_tally : Tally;
}.

Definition count (f : Tally → Tally) (s : ShipState) : ShipState :=
  mkShip (sh_g s) (sh_w s) (sh_batch s) (sh_seen s) (f (sh_tally s)).
Definition set_world (w : World) (s : ShipState) : ShipState :=
  mkShip (sh_g s) w (sh_batch s) (sh_seen s) (sh_tally s).

Definition flush (env : Env) (peerID : list Z) (s : ShipState) : ShipState :=
  if (length (sh_batch s) =? 0)%nat then s
  else
    let '(r, g, w) :=
      if g_hybridSign (sh_g s) then ShipBatchHybrid env peerID (sh_batch s) (sh_g s) (sh_w s)
      else ShipBatch env peerID (sh_batch s) (sh_g s) (sh_w s) in
    mkShip g w [] (sh_seen s) (match r with Err _ => sh_tally s | Ok (b, e) => add_shipped b e (sh_tally s) end).

(** The miss of an own entry's payload: pending while a commit is in flight. *)
Definition payload_miss (s : ShipState) : ShipState :=
  count (if 0 <? g_commitInFlight (sh_g s) then add_pending else add_miss) s.

(** The body of the range over the delta's entries. *)
Definition batched_entry (env : Env) (peerID : list Z) (batchSize : Z) (p : string * CRDTEntry) (s : ShipState) :
    bool * ShipState :=
  let '(cancelled, w) := poll env (sh_w s) in
  let s := set_world w s in
  let '(entityID, entry) := p in
  if cancelled then (false, s)
  else if negb (bool_decide (OriginNodeID entry = ni_NodeID (g_owner (sh_g s)))) then
    let s := flush env peerID s in
    match lookupBatch (OriginNodeID entry) (DotCounter entry) (g_relay (sh_g s)) with
    | None => (true, count add_relayMiss s)
    | Some (frame, originSeq) =>
        let bk := (OriginNodeID entry, originSeq) in
        if bool_decide (bk ∈ sh_seen s) then (true, s)
        else
          let '(ok, w) := Publish env peerID (LengthPrefixFrame frame) (sh_w s) in
          let s := set_world w s in
          (true, if ok then mkShip (sh_g s) (sh_w s) (sh_batch s) ({[bk]} ∪ sh_seen s) (add_shipped 1 0 (sh_tally s))
                 else s)
    end
  else
    match cache_lookup entityID (Dot entry) (g_cache (sh_g s)) with
    | None => (true, payload_miss s)
    | Some payload =>
        let batch := sh_batch s ++ [mkBuilt entityID payload entry] in
        let s := mkShip (sh_g s) (sh_w s) batch (sh_seen s) (sh_tally s) in
        (true, if batchSize <=? Z.of_nat (length batch) then flush env peerID s else s)
    end.

Definition clamp_batchSize (batchSize : Z) : Z :=
  let batchSize := if batchSize <? 1 then DefaultBatchSize else batchSize in
  if MaxBatchSize <? batchSize then MaxBatchSize else batchSize.

Definition rewind_memo (g : Gossiper) : Gossiper :=
  with_memo (mkMemo (sweepEnvCache (g_memo g)) (sweepEnvRound (g_memo g)) 0) g.

Definition shipBatchedDelta (env : Env) (peerID : list Z) (delta : CRDTDelta) (batchSize : Z) (g : Gossiper) (w : World) :
    Tally * Gossiper * World :=
  let s := range (batched_entry env peerID (clamp_batchSize batchSize)) (delta_entries delta)
             (mkShip (rewind_memo g) w [] ∅ tally0) in
  let s := flush env peerID s in
  (sh_tally s, sh_g s, sh_w s).

(** ** One frame per entry *)

Definition per_frame_entry (env : Env) (peerID : list Z) (p : string * CRDTEntry) (s : ShipState) : bool * ShipState :=
  let '(cancelled, w) := poll env (sh_w s) in
  let s := set_world w s in
  let '(entityID, entry) := p in
  if cancelled then (false, s)
  else if negb (bool_decide (OriginNodeID entry = ni_NodeID (g_owner (sh_g s)))) then
    match relay_lookup (OriginNodeID entry) (DotCounter entry) (g_relay (sh_g s)) with
    | None => (true, count add_relayMiss s)
    | Some frame =>
        let '(ok, w) := Publish env peerID (LengthPrefixFrame frame) (sh_w s) in
        let s := set_world w s in
        (true, if ok then count (add_shipped 1 1) s else s)
    end
  else
    match cache_lookup entityID (Dot entry) (g_cache (sh_g s)) with
    | None => (true, payload_miss s)
    | Some payload =>
        match BuildCRDTDeltaEvent entityID payload entry with
        | Err _ => (true, s)
        | Ok innerWire =>
            let r := SignCRDTFrame (env_rand env (w_draws (sh_w s))) (ni_Seed (g_owner (sh_g s))) innerWire in
            let s := set_world (draw_rand (sh_w s)) s in
            match r with
            | Err _ => (true, s)
            | Ok sig =>
                let e := NewSignedRelayEnvelopeV3 innerWire (copy_array OriginSigSize sig) (DotCounter entry)
                           (OriginNodeID entry) [] in
                let '(ok, w) := Publish env peerID (LengthPrefixFrame (Relay_Marshal e)) (sh_w s) in
                let s := set_world w s in
                (true, if ok then count (add_shipped 1 1) s else s)
            end
        end
    end.

Definition shipDelta (env : Env) (peerID : list Z) (delta : CRDTDelta) (g : Gossiper) (w : World) : Tally * Gossiper * World :=
  let s := range (per_frame_entry env peerID) (delta_entries delta) (mkShip g w [] ∅ tally0) in
  (sh_tally s, sh_g s, sh_w s).

(** ** Digests *)

(** The channel of a peer, made when it is missing and emptied when it is not. *)
Definition registerDigestRecv (peerID : list Z) (g : Gossiper) : Gossiper :=
  with_recv (<[peerID := None]> (g_digestRecv g)) g.

Definition digestRecvFor (peerID : list Z) (g : Gossiper) : option (option peerDigest) := g_digestRecv g !! peerID.

Definition offer_digest (peerID : list Z) (pd : peerDigest) (g : Gossiper) : Gossiper :=
  match digestRecvFor peerID g with
  | Some None => with_recv (<[peerID := Some pd]> (g_digestRecv g)) g
  | _ => g
  end.

Definition DeliverDigest (frame : list Z) (g : Gossiper) : Gossiper :=
  let peerID := digestFrameSender frame in
  match digestRecvFor peerID g with
  | None => g
  | Some _ =>
      match digestFrameSplit frame with
      | None => offer_digest peerID (mkPeerDigest None None) g
      | Some (seBody, ibltBody) =>
          match UnmarshalStrataEstimator seBody with
          | Err _ => offer_digest peerID (mkPeerDigest None None) g
          | Ok se =>
              match UnmarshalIBLT ibltBody with
              | Err _ => offer_digest peerID (mkPeerDigest (Some se) None) g
              | Ok iblt => offer_digest peerID (mkPeerDigest (Some se) (Some iblt)) g
              end
          end
      end
  end.

(** The delta against an empty digest; its seed is drawn by NewIBLT. *)
Definition oversend (fuel : nat) (env : Env) (g : Gossiper) (w : World) : option (outcome (CRDTDelta * Gossiper * World)) :=
  let '(seed, w) := make_seed env w in
  match NewIBLTWithSeed 1 4 seed with
  | Panic m => Some (Panic m)
  | Ret emptyDigest =>
      match GenerateDelta fuel emptyDigest (g_engine g) with
      | None => None
      | Some (Panic m) => Some (Panic m)
      | Some (Ret d) => Some (Ret (d, g, w))
      end
  end.

(** What the select takes: a receive needs a digest in the channel. *)
Definition wait_digest (env : Env) (peerID : list Z) (g : Gossiper) (w : World) :
    WaitOutcome * option peerDigest * Gossiper * World :=
  let n := w_waits w in
  let g := foldl (λ g frame, DeliverDigest frame g) g (env_digests env n) in
  let w := note_wait w in
  match env_wait env n, digestRecvFor peerID g with
  | WReceived, Some (Some pd) => (WReceived, Some pd, with_recv (<[peerID := None]> (g_digestRecv g)) g, w)
  | WCancelled, _ => (WCancelled, None, g, w)
  | _, _ => (WTimer, None, g, w)
  end.

Definition fall_back (fuel : nat) (env : Env) (g : Gossiper) (w : World) : option (outcome (CRDTDelta * Gossiper * World)) :=
  oversend fuel env g (reportStratifiedFallback w).

Definition generateSweepDelta (fuel : nat) (env : Env) (peerID : list Z) (g : Gossiper) (w : World) :
    option (outcome (CRDTDelta * Gossiper * World)) :=
  if negb (g_stratified g) then oversend fuel env g w
  else
    let g := registerDigestRecv peerID g in
    let '(seed, w) := make_seed env w in
    match GenerateStrataEstimator seed (g_engine g), GenerateDigestWithSeed seed (g_engine g) with
    | Panic m, _ | _, Panic m => Some (Panic m)
    | Ret localSE, Ret localIBLT =>
        match MarshalStrataEstimator (Some localSE), MarshalIBLT (Some localIBLT) with
        | Err _, _ | _, Err _ => fall_back fuel env g w
        | Ok marshaledSE, Ok marshaledIBLT =>
            let digestFrame := buildDigestFrame (ni_NodeID (g_owner g)) marshaledSE marshaledIBLT in
            let '(ok, w) := Publish env peerID (LengthPrefixFrame digestFrame) w in
            if negb ok then fall_back fuel env g w
            else match wait_digest env peerID g w with
                 | (WCancelled, _, g, w) => oversend fuel env g w
                 | (WTimer, _, g, w) => fall_back fuel env g w
                 | (WReceived, remotePD, g, w) =>
                     match remotePD with
                     | Some (mkPeerDigest _ (Some remote)) =>
                         match GenerateDelta fuel remote (g_engine g) with
                         | None => None
                         | Some (Panic m) => Some (Panic m)
                         | Some (Ret d) => Some (Ret (d, g, w))
                         end
                     | _ => fall_back fuel env g w
                     end
                 end
        end
    end.

(** ** The sweep *)

Definition regionArmed (g : Gossiper) : option TopologyManager := if g_regionAware g then g_topology g else None.

(** The body of the range over the peers, from the skip of the own id on. *)
Definition sweep_peer (fuel : nat) (env : Env) (shared : option CRDTDelta) (peerID : list Z)
    (st : sweepState) (g : Gossiper) (w : World) : option (outcome (sweepState * Gossiper * World)) :=
  let w := match regionArmed g with
           | Some t => if g_interRegionReporter g && IsInterRegion peerID t then report_inter_region w else w
           | None => w
           end in
  match (match shared with
         | Some d => Some (Ret (d, g, w))
         | None => generateSweepDelta fuel env peerID g w
         end) with
  | None => None
  | Some (Panic m) => Some (Panic m)
  | Some (Ret (delta, g, w)) =>
      let '(t, g, w) :=
        if (1 <? g_batchSize g) || g_hybridSign g then shipBatchedDelta env peerID delta (g_batchSize g) g w
        else shipDelta env peerID delta g w in
      Some (Ret (add_tally t st, g, w))
  end.

Fixpoint sweep_peers (fuel : nat) (env : Env) (shared : option CRDTDelta) (peerIDs : list (list Z))
    (st : sweepState) (g : Gossiper) (w : World) : option (outcome (sweepState * Gossiper * World)) :=
  match peerIDs with
  | [] => Some (Ret (st, g, w))
  | peerID :: peerIDs' =>
      let '(cancelled, w) := poll env w in
      if cancelled then Some (Ret (st, g, w))
      else if bool_decide (peerID = ni_NodeID (g_owner g)) then sweep_peers fuel env shared peerIDs' st g w
      else match sweep_peer fuel env shared peerID st g w with
           | None => None
           | Some (Panic m) => Some (Panic m)
           | Some (Ret (st, g, w)) => sweep_peers fuel env shared peerIDs' st g w
           end
  end.

(** The topology, reseeded for the round that starts, when it is in use. *)
Definition armed_topology (g : Gossiper) : option TopologyManager :=
  match regionArmed g with
  | Some t => Some (SetSeed (Z.lxor (g_sweepRound g +ₒ 1) (le_get (take 8 (ni_NodeID (g_owner g))))) t)
  | None => None
  end.

(** [peers]: what peers.Peers() returns; [order]: the iteration order of the
    topology's map. *)
Definition sweep_targets (peers : list (list Z)) (order : list (list Z * Z)) (g : Gossiper) : list (list Z) :=
  match armed_topology g with Some t => Select order t | None => sortFunc bytes_compare peers end.

Definition AntiEntropySweep (fuel : nat) (env : Env) (peers : list (list Z)) (order : list (list Z * Z))
    (g : Gossiper) (w : World) : option (outcome (sweepState * Gossiper * World)) :=
  let peerIDs := sweep_targets peers order g in
  let g := start_round (match armed_topology g with Some t => Some t | None => g_topology g end) g in
  match peerIDs with
  | [] => Some (Ret (mkSweep 0 0 0 0 0 0, g, w))
  | _ =>
      let st := mkSweep (i64 (g_sweepRound g)) 0 0 0 0 0 in
      if g_stratified g then sweep_peers fuel env None peerIDs st g w
      else match generateSweepDelta fuel env zero16 g w with
           | None => None
           | Some (Panic m) => Some (Panic m)
           | Some (Ret (shared, g, w)) => sweep_peers fuel env (Some shared) peerIDs st g w
           end
  end.

(** ** Convergence *)

Definition CurrentRoot (g : Gossiper) : list Z := MerkleRootFromShards (g_engine g).

(** [now]: the wall clock. *)
Definition stampConvergence (now : Z) (g : Gossiper) : Gossiper :=
  let c := g_conv g in
  let curRoot := MerkleRootFromShards (g_engine g) in
  let c := if bool_decide (curRoot = prevRoot c) && negb (bool_decide (curRoot = lastConvergedRoot c))
           then mkConv (Some now) curRoot (prevRoot c) else c in
  with_conv (mkConv (lastConvergedAt c) (lastConvergedRoot c) curRoot) g.

(** [None] is ErrNoPeers. *)
Definition Converges (peers : list (list Z)) (g : Gossiper) : option (list Z) :=
  if (length peers =? 0)%nat then None else Some (MerkleRootFromShards (g_engine g)).

Definition ConvergenceLag (now : Z) (g : Gossiper) : Z :=
  match lastConvergedAt (g_conv g) with None => 0 | Some t => now - t end.

(** One tick of SweepLoop; [now] is when the convergence is stamped. *)
Definition sweep_tick (fuel : nat) (env : Env) (peers : list (list Z)) (order : list (list Z * Z)) (now : Z)
    (g : Gossiper) (w : World) : option (outcome (sweepState * Gossiper * World)) :=
  match AntiEntropySweep fuel env peers order g w with
  | Some (Ret (st, g, w)) => Some (Ret (st, stampConvergence now g, w))
  | r => r
  end.
End Sweep.
