(* ===== verification/GossipPlan.v ===== *)
(** What a batched sweep puts on the wire: a plan computed from the delta, the
    payload cache and the relay cache alone, and the proof that the sweep sends
    exactly this plan, the same bytes to every peer. *)
From S2P Require Import Prelude Bytes Sha256 Dots Wal WalLog Hamt HamtMap Lamport Sorting Engine.
From S2P Require Import EngineInv JoinSpec EngineThms Merkle Snapshot LocalFS Bridge Iblt.
From S2P Require Import IbltPeel Strata IbltWire AntiEntropy Reconstruct Envelope Identity Hedge.
From S2P Require Import Apply PayloadStore RelayCache Topology Gossip GossipSweep.

Lemma zip_with_snoc {A B C} (f : A → B → C) l x k y :
  k !! length l = Some y → zip_with f (l ++ [x]) k = zip_with f l k ++ [f x y].
Proof.
  revert k. induction l as [|a l IH]; intros [|b k] Hk; simplify_eq/=; [done|]. by rewrite IH.
Qed.

Section Plan.
Context `{MH : MapHash} `{SS : SliceSort} `{CP : Capnp} `{CB : !CapnpBatch CP} `{CR : Crypto} `{SG : !Signer CR}.

(** ** The plan *)

Inductive Item := OwnBatch (evs : list BuiltEvent) | Foreign (frame : list Z).

Definition close (batch : list BuiltEvent) : list Item := if decide (batch = []) then [] else [OwnBatch batch].

(** Own entries with a payload in batches of at most [size], closed early by a
    foreign entry; a foreign frame once per origin and sequence number. *)
Fixpoint plan (size : Z) (g : Gossiper) (l : list (string * CRDTEntry)) (batch : list BuiltEvent)
    (seen : gset batchRelayKey) : list Item :=
  match l with
  | [] => close batch
  | (k, x) :: l' =>
      if decide (OriginNodeID x = ni_NodeID (g_owner g)) then
        match cache_lookup k (Dot x) (g_cache g) with
        | None => plan size g l' batch seen
        | Some p =>
            let batch := batch ++ [mkBuilt k p x] in
            if size <=? Z.of_nat (length batch) then OwnBatch batch :: plan size g l' [] seen else plan size g l' batch seen
        end
      else
        close batch ++
        match lookupBatch (OriginNodeID x) (DotCounter x) (g_relay g) with
        | None => plan size g l' [] seen
        | Some (f, s) =>
            if decide ((OriginNodeID x, s) ∈ seen) then plan size g l' [] seen
            else Foreign f :: plan size g l' [] ({[(OriginNodeID x, s)]} ∪ seen)
        end
  end.

Lemma plan_same size g g' l batch seen :
  g_owner g' = g_owner g → g_cache g' = g_cache g → g_relay g' = g_relay g → plan size g' l batch seen = plan size g l batch seen.
Proof.
  intros H1 H2 H3. revert batch seen. induction l as [|[k x] l IH]; intros batch seen; simpl; [done|].
  rewrite H1, H2, H3. case_decide.
  - destruct (cache_lookup _ _ _); [|by apply IH]. destruct (_ <=? _); by rewrite IH.
  - destruct (lookupBatch _ _ _) as [[f s]|]; [|by rewrite IH]. case_decide; by rewrite IH.
Qed.

Definition own_batches (P : list Item) : list (list BuiltEvent) :=
  omap (λ i, match i with OwnBatch evs => Some evs | Foreign _ => None end) P.

(** The frames of a plan, given those minted for its own batches. *)
Fixpoint render (P : list Item) (mint : list (list Z)) : list (list Z) :=
  match P with
  | [] => []
  | Foreign f :: P' => f :: render P' mint
  | OwnBatch _ :: P' => match mint with f :: mint' => f :: render P' mint' | [] => [] end
  end.

(** ** A healthy run *)

(** The signature and the envelope of one batch. *)
Definition sign_envelope (g : Gossiper) (rnd : option (list Z)) (pqRnd : list Z) (n : nat) (wire : list Z) :
    result SignError (Z → list Z) :=
  if g_hybridSign g then
    sigs ← SignCRDTFrame_Hybrid rnd pqRnd (ni_Seed (g_owner g)) (ni_PQPriv (g_owner g)) wire "";
    Ok (λ seq, MarshalHybridFrame (ni_NodeID (g_owner g)) sigs.1 sigs.2 seq (u16 (Z.of_nat n)) wire)
  else
    sig ← SignCRDTFrame rnd (ni_Seed (g_owner g)) wire;
    Ok (λ seq, MarshalBatchEnvelope (ni_NodeID (g_owner g)) (copy_array OriginSigSize sig) seq (u16 (Z.of_nat n)) wire).

(** Nothing is cancelled, every publish succeeds, and every batch of [B] can be
    built and signed. *)
Record healthy (env : Env) (g : Gossiper) (B : list (list BuiltEvent)) : Prop := {
  hl_live : ∀ n, env_cancelled env n = false;
  hl_publish : ∀ n, env_publish env n = true;
  hl_seed : ∀ n, env_seed env n ≠ 0;
  hl_build : ∀ evs, evs ∈ B → ∃ wire, BuildCRDTDeltaBatch evs = Ok wire;
  hl_sign : ∀ n wire evs, evs ∈ B → BuildCRDTDeltaBatch evs = Ok wire →
    ∃ envelope, sign_envelope g (env_rand env n) (env_pqRand env n) (length evs) wire = Ok envelope;
  hl_pq : g_hybridSign g = true → ni_PQPriv (g_owner g) ≠ None;
}.

(** [f] is the envelope of [evs] signed with sequence number [seq]. *)
Definition minted (env : Env) (g : Gossiper) (evs : list BuiltEvent) (seq : Z) (f : list Z) : Prop :=
  ∃ n wire envelope, BuildCRDTDeltaBatch evs = Ok wire ∧
    sign_envelope g (env_rand env n) (env_pqRand env n) (length evs) wire = Ok envelope ∧ f = envelope seq.

Section Run.
Context (env : Env) (g0 : Gossiper) (B : list (list BuiltEvent)) (H : healthy env g0 B) (Hns : g_stratified g0 = false).
Context (size : Z) (Hsize : 1 <= size <= MaxBatchSize).
Context (base : Z) (Hbase : 0 <= base) (Hwide : base + Z.of_nat (length B) < 2 ^ 64).

(** The gossiper after [mint] was minted, at memo position [idx]. *)
Definition memo_of (mint : list (list Z)) : option (gmap nat (list Z * nat)) :=
  if decide (mint = []) then None
  else Some (map_seq 0 (zip_with (λ f evs, (LengthPrefixFrame f, length (evs : list BuiltEvent))) mint B)).

Definition gst (mint : list (list Z)) (idx : nat) : Gossiper :=
  with_memo (mkMemo (memo_of mint) (g_sweepRound g0) idx) (with_seq (base + Z.of_nat (length mint)) g0).

Definition mints_ok (mint : list (list Z)) : Prop :=
  ∀ i f, mint !! i = Some f → ∃ evs, B !! i = Some evs ∧ minted env g0 evs (base + 1 + Z.of_nat i) f.

Lemma mints_length mint : mints_ok mint → (length mint <= length B)%nat.
Proof.
  intros Hm. destruct (decide (length mint <= length B)%nat) as [|Hn]; [done|].
  destruct (lookup_lt_is_Some_2 mint (length B)) as [f Hf]; [lia|].
  destruct (Hm _ _ Hf) as (evs & He & _). apply lookup_lt_Some in He. lia.
Qed.

Lemma memo_hit mint idx f evs :
  mint !! idx = Some f → B !! idx = Some evs →
  sweepEnvelope (length evs) (gst mint idx) = (Some (LengthPrefixFrame f), gst mint (S idx)).
Proof.
  intros Hf He. unfold sweepEnvelope, gst, memo_of. simpl. rewrite Hns, Z.eqb_refl. simpl.
  rewrite decide_False by (by intros ->).
  rewrite lookup_map_seq_0, lookup_zip_with, Hf, He. simpl. by rewrite Nat.eqb_refl.
Qed.

Lemma memo_miss mint n : sweepEnvelope n (gst mint (length mint)) = (None, gst mint (length mint)).
Proof.
  unfold sweepEnvelope, gst, memo_of. simpl. rewrite Hns. case_decide; [done|]. rewrite Z.eqb_refl. simpl.
  rewrite lookup_map_seq_0, lookup_zip_with, (lookup_ge_None_2 mint) by lia. done.
Qed.

Lemma memo_cache mint f evs :
  B !! length mint = Some evs → (length mint <= length B)%nat →
  cacheSweepEnvelope (length evs) (LengthPrefixFrame f)
    (with_seq ((base + Z.of_nat (length mint)) +ₒ 1) (gst mint (length mint))) = gst (mint ++ [f]) (S (length mint)).
Proof.
  intros He Hl. pose proof (lookup_lt_Some _ _ _ He) as Hlt.
  assert ((base + Z.of_nat (length mint)) +ₒ 1 = base + Z.of_nat (length (mint ++ [f]))) as ->.
  { rewrite length_app. simpl. rewrite u64_id by words. lia. }
  assert (memo_of (mint ++ [f]) = Some (<[length mint := (LengthPrefixFrame f, length evs)]>
    (map_seq 0 (zip_with (λ f evs, (LengthPrefixFrame f, length (evs : list BuiltEvent))) mint B)))) as Hmo.
  { unfold memo_of. rewrite decide_False by (by destruct mint). f_equal.
    rewrite (zip_with_snoc _ _ _ _ _ He), map_seq_snoc, length_zip_with.
    by replace (length mint `min` length B)%nat with (length mint) by lia. }
  unfold cacheSweepEnvelope, gst. cbn [g_stratified with_seq with_memo g_memo g_sweepRound sweepEnvCache sweepEnvRound sweepEnvIdx].
  rewrite Hns, Hmo. unfold memo_of. case_decide as Hd; simpl; [subst mint; done|done].
Qed.

(** A flush publishes the frame of the next batch of the plan: the one in the
    memo, or a new one that enters it. *)
Lemma flush_ship p s mint idx evs :
  sh_g s = gst mint idx → sh_batch s = evs → B !! idx = Some evs → mints_ok mint → (idx <= length mint)%nat →
  evs ≠ [] → Z.of_nat (length evs) <= MaxBatchSize →
  ∃ mint' f w', flush env p s = mkShip (gst mint' (S idx)) w' [] (sh_seen s)
      (add_shipped 1 (Z.of_nat (length evs)) (sh_tally s)) ∧
    mint `prefix_of` mint' ∧ mint' !! idx = Some f ∧ mints_ok mint' ∧
    w_sent w' = w_sent (sh_w s) ++ [(p, LengthPrefixFrame f)].
Proof.
  intros Hg Hb He Hm Hi Hne Hlen. pose proof (mints_length _ Hm) as Hml.
  assert (∃ w1, w_sent w1 = w_sent (sh_w s) ∧
    flush env p s = let '(r, g, w) := ship_with (sign_envelope g0 (env_rand env (w_draws w1)) (env_pqRand env (w_draws w1))
        (length evs)) env p evs (gst mint idx) w1 in
      mkShip g w [] (sh_seen s) (match r with Err _ => sh_tally s | Ok (b, e) => add_shipped b e (sh_tally s) end))
    as (w1 & Hw1 & ->).
  { eexists (poll env (sh_w s)).2. split; [done|]. unfold flush. rewrite Hb, Hg.
    assert ((length evs =? 0)%nat = false) as E0 by (by destruct evs). rewrite E0.
    change (g_hybridSign (gst mint idx)) with (g_hybridSign g0). unfold ShipBatch, ShipBatchHybrid, sign_envelope.
    rewrite E0, (proj2 (Z.ltb_ge _ _) Hlen). cbn [poll fst snd]. rewrite (hl_live _ _ _ H).
    change (g_owner (gst mint idx)) with (g_owner g0). destruct (g_hybridSign g0) eqn:Eh; [|done].
    destruct (ni_PQPriv (g_owner g0)) eqn:Ep; [done|]. by destruct (hl_pq _ _ _ H Eh). }
  unfold ship_with. destruct (decide (idx < length mint)%nat) as [Hlt|Hge].
  - destruct (lookup_lt_is_Some_2 mint idx Hlt) as [f Hf]. rewrite (memo_hit mint idx f evs Hf He).
    unfold publish_batch, Publish. rewrite (hl_publish _ _ _ H). eexists mint, f, _.
    split_and!; [done|done|done|done|]. simpl. by rewrite Hw1.
  - assert (idx = length mint) as -> by lia. rewrite memo_miss. pose proof (list_elem_of_lookup_2 _ _ _ He) as Hin.
    destruct (hl_build _ _ _ H evs Hin) as [wire Hw]. rewrite Hw.
    destruct (hl_sign _ _ _ H (w_draws w1) wire evs Hin Hw) as [envelope Hs]. rewrite Hs.
    change (g_batchSeq (gst mint (length mint))) with (base + Z.of_nat (length mint)).
    pose proof (lookup_lt_Some _ _ _ He) as Hlt. cbv zeta. rewrite memo_cache by done.
    unfold publish_batch, Publish. rewrite (hl_publish _ _ _ H). eexists _, _, _.
    split_and!; [done|by apply prefix_app_r|by apply list_lookup_middle| |simpl; by rewrite Hw1].
    intros i f' [Hf'|[Hi' Hf']]%lookup_app_Some; [by apply Hm|]. apply list_lookup_singleton_Some in Hf' as [Hi0 <-].
    replace i with (length mint) by lia. exists evs. split; [done|]. exists (w_draws w1), wire, envelope.
    split_and!; [done|done|]. rewrite u64_id by words. f_equal. lia.
Qed.

(** ** The simulation *)

Definition item_entries (i : Item) : Z := match i with OwnBatch evs => Z.of_nat (length evs) | Foreign _ => 0 end.
Definition plan_entries (P : list Item) : Z := foldr (λ i n, item_entries i + n) 0 P.

Lemma own_batches_close batch P : own_batches (close batch ++ P) = (if decide (batch = []) then [] else [batch]) ++ own_batches P.
Proof. unfold close. by case_decide. Qed.

(** A state of the loop with the rest [P] of the plan ahead of it. *)
Record at_plan (s : ShipState) (mint : list (list Z)) (idx : nat) (P : list Item) : Prop := {
  ap_g : sh_g s = gst mint idx;
  ap_mints : mints_ok mint;
  ap_idx : (idx <= length mint)%nat;
  ap_rest : drop idx B = own_batches P;
}.

(** ... and where its run ends. *)
Definition ends_plan (p : list Z) (s s' : ShipState) (mint : list (list Z)) (idx : nat) (P : list Item) : Prop :=
  ∃ mint', mint `prefix_of` mint' ∧ mints_ok mint' ∧ length mint' = length B ∧
    sh_g s' = gst mint' (length B) ∧
    w_sent (sh_w s') = w_sent (sh_w s) ++ map (λ f, (p, LengthPrefixFrame f)) (render P (drop idx mint')) ∧
    t_shipped (sh_tally s') = t_shipped (sh_tally s) + Z.of_nat (length P) ∧
    t_entries (sh_tally s') = t_entries (sh_tally s) + plan_entries P.

Lemma ends_plan_same p s1 s s' mint idx P :
  w_sent (sh_w s1) = w_sent (sh_w s) → t_shipped (sh_tally s1) = t_shipped (sh_tally s) →
  t_entries (sh_tally s1) = t_entries (sh_tally s) → ends_plan p s1 s' mint idx P → ends_plan p s s' mint idx P.
Proof. intros H1 H2 H3. unfold ends_plan. by rewrite H1, H2, H3. Qed.

(** Flushing the batch at the head of the plan. *)
Lemma flush_step p s mint idx evs P :
  at_plan s mint idx (OwnBatch evs :: P) → sh_batch s = evs → evs ≠ [] → Z.of_nat (length evs) <= MaxBatchSize →
  ∃ mint', at_plan (flush env p s) mint' (S idx) P ∧ mint `prefix_of` mint' ∧
    sh_batch (flush env p s) = [] ∧ sh_seen (flush env p s) = sh_seen s ∧
    ∀ s', ends_plan p (flush env p s) s' mint' (S idx) P → ends_plan p s s' mint idx (OwnBatch evs :: P).
Proof.
  intros [Hg Hm Hi Hr] Hb Hne Hlen. simpl in Hr.
  assert (B !! idx = Some evs) as He by (rewrite <- (Nat.add_0_r idx), <- lookup_drop, Hr; done).
  destruct (flush_ship p s mint idx evs Hg Hb He Hm Hi Hne Hlen) as (mint' & f & w' & -> & Hpre & Hf & Hm' & Hw').
  exists mint'. split_and!; [|done|done|done|].
  - split; simpl; [done|done| |].
    + apply lookup_lt_Some in Hf. lia.
    + rewrite (drop_S _ _ _ He) in Hr. by injection Hr.
  - intros s' (mint2 & Hp2 & Hm2 & Hl2 & Hg2 & Hw2 & Ht1 & Ht2). exists mint2. simpl in Hw2, Ht1, Ht2.
    split_and!; [by etrans|done|done|done| |simpl; lia|simpl; lia].
    rewrite Hw2, Hw', <- app_assoc. f_equal. rewrite (drop_S mint2 f idx); [done|]. by eapply prefix_lookup_Some.
Qed.

Lemma close_step p s mint idx P :
  at_plan s mint idx (close (sh_batch s) ++ P) → Z.of_nat (length (sh_batch s)) <= MaxBatchSize →
  ∃ mint' idx', at_plan (flush env p s) mint' idx' P ∧ sh_batch (flush env p s) = [] ∧ sh_seen (flush env p s) = sh_seen s ∧
    ∀ s', ends_plan p (flush env p s) s' mint' idx' P → ends_plan p s s' mint idx (close (sh_batch s) ++ P).
Proof.
  intros Hap Hlen. unfold close in *. case_decide as Hd.
  - exists mint, idx. assert (flush env p s = s) as -> by (unfold flush; by rewrite Hd). done.
  - destruct (flush_step p s mint idx (sh_batch s) P Hap eq_refl Hd Hlen) as (mint' & ? & _ & ? & ? & ?). eauto 10.
Qed.

Lemma run_plan p l s mint idx :
  at_plan s mint idx (plan size g0 l (sh_batch s) (sh_seen s)) → Z.of_nat (length (sh_batch s)) < size →
  ends_plan p s (flush env p (range (batched_entry env p size) l s)) mint idx (plan size g0 l (sh_batch s) (sh_seen s)).
Proof.
  revert s mint idx. induction l as [|[k x] l IH]; intros s mint idx Hap Hlen; cbn [plan range] in *.
  - rewrite <- (app_nil_r (close _)) in *. destruct (close_step p s mint idx [] Hap) as (mint' & idx' & [Hg Hm Hi Hr] & _ & _ & Hk); [lia|].
    apply Hk. exists mint'. pose proof (mints_length _ Hm) as Hml. simpl in Hr.
    assert (length B <= idx')%nat as Hle by (apply (f_equal length) in Hr; rewrite length_drop in Hr; simpl in Hr; lia).
    split_and!; [done|done|lia| | |simpl; lia|simpl; lia].
    + rewrite Hg. f_equal. lia.
    + simpl. by rewrite app_nil_r.
  - unfold batched_entry at 1. cbn [poll fst snd]. rewrite (hl_live _ _ _ H). cbv beta iota zeta.
    set (s1 := set_world (poll env (sh_w s)).2 s).
    apply (ends_plan_same p s1); [done..|].
    change (sh_batch s) with (sh_batch s1) in *. change (sh_seen s) with (sh_seen s1) in *.
    assert (∀ P, at_plan s mint idx P → at_plan s1 mint idx P) as Hs1 by (intros P []; done). apply Hs1 in Hap. clear Hs1.
    change (set_world _ s) with s1. clearbody s1. clear s. rename s1 into s.
    pose proof (ap_g _ _ _ _ Hap) as Hg.
    assert (g_owner (sh_g s) = g_owner g0) as -> by by rewrite Hg. assert (g_cache (sh_g s) = g_cache g0) as -> by by rewrite Hg.
    case_bool_decide as Ho; cbn [negb].
    + rewrite decide_True in * by done. destruct (cache_lookup k (Dot x) (g_cache g0)) as [pl|] eqn:Hc.
      2: { apply (ends_plan_same p (payload_miss s)); [done|by unfold payload_miss; destruct (_ <? _)..|].
           apply (IH (payload_miss s)); [|done]. by destruct Hap. }
      cbv zeta in Hap |- *. set (b := sh_batch s ++ [mkBuilt k pl x]) in *.
      set (s1 := mkShip (sh_g s) (sh_w s) b (sh_seen s) (sh_tally s)).
      assert (b ≠ []) as Hb by (unfold b; by destruct (sh_batch s)).
      assert (Z.of_nat (length b) <= size) as Hbl by (unfold b; rewrite length_app; simpl; lia).
      destruct (Z.leb_spec size (Z.of_nat (length b))) as [Hle|Hlt]; [|by apply (IH s1); [destruct Hap|]].
      destruct (flush_step p s1 mint idx b (plan size g0 l [] (sh_seen s))) as (mint' & Hap' & _ & Hb' & Hs' & Hk);
        [by destruct Hap|done|done|lia|].
      apply Hk. pose proof (IH (flush env p s1) mint' (S idx)) as IH1. rewrite Hb', Hs' in IH1.
      apply IH1; [done|simpl; lia].
    + rewrite decide_False in * by done. destruct (close_step p s mint idx _ Hap) as (mint' & idx' & Hap' & Hb' & Hs' & Hk); [lia|].
      apply Hk. clear Hk Hap. rewrite <- Hs' in Hap' |- *.
      generalize dependent (flush env p s). intros s1 Hap' Hb' _.
      pose proof (ap_g _ _ _ _ Hap') as Hg1.
      assert (g_relay (sh_g s1) = g_relay g0) as -> by by rewrite Hg1.
      assert (Z.of_nat (length (sh_batch s1)) < size) as Hl1 by (rewrite Hb'; simpl; lia).
      destruct (lookupBatch _ _ _) as [[f sq]|].
      2: { rewrite <- Hb' in Hap' |- *. apply (ends_plan_same p (count add_relayMiss s1)); [done..|].
           apply (IH (count add_relayMiss s1)); [|done]. by destruct Hap'. }
      case_bool_decide as Hseen; [rewrite decide_True in * by done|rewrite decide_False in * by done].
      { rewrite <- Hb' in Hap' |- *. by apply IH. }
      unfold Publish. rewrite (hl_publish _ _ _ H). cbn [fst snd]. cbv beta iota zeta.
      match goal with |- context [range _ l ?t] => set (s2 := t) end.
      assert (ends_plan p s2 (flush env p (range (batched_entry env p size) l s2)) mint' idx'
        (plan size g0 l [] ({[(OriginNodeID x, sq)]} ∪ sh_seen s1))) as (m2 & H1 & H2 & H3 & H4 & H5 & H6 & H7).
      { pose proof (IH s2 mint' idx') as IH2. change (sh_batch s2) with (sh_batch s1) in IH2.
        change (sh_seen s2) with ({[(OriginNodeID x, sq)]} ∪ sh_seen s1) in IH2. rewrite Hb' in IH2.
        apply IH2; [by destruct Hap'|simpl; lia]. }
      exists m2. split_and!; [done|done|done|done| | |].
      * rewrite H5. cbn [s2 sh_w set_world w_sent]. rewrite <- app_assoc. done.
      * rewrite H6. cbn [s2 sh_tally set_world t_shipped add_shipped length]. lia.
      * rewrite H7. cbn [s2 sh_tally set_world t_entries add_shipped]. simpl. lia.
Qed.
End Run.

(** ** The whole sweep *)

Lemma clamp_range n : 1 <= clamp_batchSize n <= MaxBatchSize.
Proof.
  unfold clamp_batchSize, DefaultBatchSize, MaxBatchSize. destruct (Z.ltb_spec n 1); [done|].
  destruct (Z.ltb_spec 256 n); lia.
Qed.

(** Everything the engine holds. *)
Definition full_delta (e : Engine) : CRDTDelta := mkDelta (shards e) [] true false.

Lemma oversend_full fuel env g w :
  env_seed env (w_seeds w) ≠ 0 → ∃ w', oversend fuel env g w = Some (Ret (full_delta (g_engine g), g, w')) ∧ w_sent w' = w_sent w.
Proof.
  intros Hs. unfold oversend, make_seed. change (NewIBLTWithSeed 1 4 (env_seed env (w_seeds w)))
    with (Ret (mkIBLT (replicate (Z.to_nat 1) zeroBucket) (Z.to_nat 4) (env_seed env (w_seeds w)))).
  cbv beta iota zeta. rewrite GenerateDelta_mismatch; [by eexists|done|by left].
Qed.

(** The plan of a sweep. *)
Definition sweep_plan (g : Gossiper) : list Item :=
  plan (clamp_batchSize (g_batchSize g)) g (delta_entries (full_delta (g_engine g))) [] ∅.

Definition batched (g : Gossiper) : bool := (1 <? g_batchSize g) || g_hybridSign g.

(** The frames a list of peers is sent. *)
Definition to_peers (targets frames : list (list Z)) : list (list Z * list Z) :=
  concat (map (λ p, map (λ f, (p, LengthPrefixFrame f)) frames) targets).

Definition others (g : Gossiper) (peerIDs : list (list Z)) : list (list Z) :=
  filter (λ p, p ≠ ni_NodeID (g_owner g)) peerIDs.

Section Peers.
Context (env : Env) (g0 : Gossiper) (H : healthy env g0 (own_batches (sweep_plan g0)))
  (Hns : g_stratified g0 = false) (Hbat : batched g0 = true).
Context (base : Z) (Hbase : 0 <= base) (Hwide : base + Z.of_nat (length (own_batches (sweep_plan g0))) < 2 ^ 64).

Abbreviation BB := (own_batches (sweep_plan g0)).

Lemma ship_peer p mint idx w :
  mints_ok env g0 BB base mint →
  ∃ t w' mint', shipBatchedDelta env p (full_delta (g_engine g0)) (g_batchSize g0) (gst g0 BB base mint idx) w =
      (t, gst g0 BB base mint' (length BB), w') ∧
    mint `prefix_of` mint' ∧ mints_ok env g0 BB base mint' ∧ length mint' = length BB ∧
    w_sent w' = w_sent w ++ map (λ f, (p, LengthPrefixFrame f)) (render (sweep_plan g0) mint') ∧
    t_shipped t = Z.of_nat (length (sweep_plan g0)) ∧ t_entries t = plan_entries (sweep_plan g0).
Proof.
  intros Hm. unfold shipBatchedDelta.
  change (rewind_memo (gst g0 BB base mint idx)) with (gst g0 BB base mint 0).
  destruct (run_plan env g0 BB H Hns (clamp_batchSize (g_batchSize g0)) (clamp_range _) base Hbase Hwide p
    (delta_entries (full_delta (g_engine g0))) (mkShip (gst g0 BB base mint 0) w [] ∅ tally0) mint 0)
    as (mint' & H1 & H2 & H3 & H4 & H5 & H6 & H7).
  - split; [done|done|lia|done].
  - pose proof (clamp_range (g_batchSize g0)). simpl. lia.
  - eexists _, _, mint'. rewrite H4. split_and!; [done|done|done|done|exact H5|exact H6|exact H7].
Qed.

Lemma sweep_peers_plan fuel peerIDs st mint idx w :
  mints_ok env g0 BB base mint → let T := others g0 peerIDs in
  ∃ st' w' mint' idx', sweep_peers fuel env (Some (full_delta (g_engine g0))) peerIDs st (gst g0 BB base mint idx) w =
      Some (Ret (st', gst g0 BB base mint' idx', w')) ∧
    mint `prefix_of` mint' ∧ mints_ok env g0 BB base mint' ∧ (T ≠ [] → length mint' = length BB) ∧
    w_sent w' = w_sent w ++ to_peers T (render (sweep_plan g0) mint') ∧
    st_shippedEnvelopes st' = st_shippedEnvelopes st + Z.of_nat (length T) * Z.of_nat (length (sweep_plan g0)) ∧
    st_shippedEntries st' = st_shippedEntries st + Z.of_nat (length T) * plan_entries (sweep_plan g0).
Proof.
  revert st mint idx w. induction peerIDs as [|p peerIDs IH]; intros st mint idx w Hm; simpl.
  { exists st, w, mint, idx. split_and!; [done..|by rewrite app_nil_r|lia|lia]. }
  rewrite (hl_live _ _ _ H). change (g_owner (gst g0 BB base mint idx)) with (g_owner g0). case_bool_decide as Ho.
  { unfold others. rewrite filter_cons_False by (by intros ?). by apply (IH st mint idx (poll env w).2). }
  unfold others. rewrite filter_cons_True by done. fold (others g0 peerIDs). unfold sweep_peer.
  change (g_batchSize (gst g0 BB base mint idx)) with (g_batchSize g0).
  change (g_hybridSign (gst g0 BB base mint idx)) with (g_hybridSign g0). fold (batched g0). rewrite Hbat.
  match goal with |- context [shipBatchedDelta _ _ _ _ _ ?t] => set (w1 := t) end.
  assert (w_sent w1 = w_sent w) as Hw1.
  { unfold w1. destruct (regionArmed _); [|done]. by destruct (_ && _). }
  clearbody w1. cbn [length].
  destruct (ship_peer p mint idx w1 Hm) as (t & w2 & m2 & -> & Hp2 & Hm2 & Hl2 & Hs2 & Ht1 & Ht2). cbv beta iota zeta.
  destruct (IH (add_tally t st) m2 (length BB) w2 Hm2) as (st' & w' & m3 & idx' & -> & Hp3 & Hm3 & _ & Hs3 & Hn1 & Hn2).
  assert (m3 = m2) as ->.
  { symmetry. apply prefix_length_eq; [done|]. rewrite Hl2. by apply (mints_length env g0 BB base). }
  exists st', w', m2, idx'. split_and!; [done|done|done|done| | |].
  - rewrite Hs3, Hs2, Hw1, <- app_assoc. done.
  - rewrite Hn1. cbn [add_tally st_shippedEnvelopes]. lia.
  - rewrite Hn2. cbn [add_tally st_shippedEntries]. lia.
Qed.
End Peers.

(** The sweep as a whole. *)
Lemma sweep_run (fuel : nat) (env : Env) (peers : list (list Z)) (order : list (list Z * Z))
    (g : Gossiper) (w : World) :
  let P := sweep_plan g in let T := others g (sweep_targets peers order g) in
  healthy env g (own_batches P) → g_stratified g = false → batched g = true →
  0 <= g_batchSeq g → g_batchSeq g + Z.of_nat (length (own_batches P)) < 2 ^ 64 →
  ∃ st g' w' mint, AntiEntropySweep fuel env peers order g w = Some (Ret (st, g', w')) ∧
    w_sent w' = w_sent w ++ to_peers T (render P mint) ∧
    (∀ i f, mint !! i = Some f →
       ∃ evs, own_batches P !! i = Some evs ∧ minted env g evs (g_batchSeq g + 1 + Z.of_nat i) f) ∧
    (T ≠ [] → length mint = length (own_batches P)) ∧ g_batchSeq g' = g_batchSeq g + Z.of_nat (length mint) ∧
    st_shippedEnvelopes st = Z.of_nat (length T) * Z.of_nat (length P) ∧
    st_shippedEntries st = Z.of_nat (length T) * plan_entries P.
Proof.
  intros P T Hh Hns Hbat Hb Hw. unfold AntiEntropySweep.
  set (g1 := start_round _ g).
  assert (sweep_plan g1 = P) as HP by by apply plan_same.
  assert (healthy env g1 (own_batches (sweep_plan g1))) as Hh1 by (rewrite HP; destruct Hh; by split).
  assert (gst g1 (own_batches P) (g_batchSeq g) [] 0 = g1) as Hg1.
  { unfold gst, g1, start_round, with_memo, with_seq. cbn. by rewrite Z.add_0_r. }
  unfold T. clear T. destruct (sweep_targets peers order g) as [|p0 ps] eqn:Et.
  { eexists _, g1, w, []. unfold others. rewrite filter_nil. cbn [to_peers map concat length]. rewrite app_nil_r.
    split_and!; [done..|cbn; lia|done|done]. }
  rewrite <- Et. clear p0 ps Et. change (g_stratified g1) with (g_stratified g). rewrite Hns.
  unfold generateSweepDelta. change (g_stratified g1) with (g_stratified g). rewrite Hns. cbn [negb].
  destruct (oversend_full fuel env g1 w (hl_seed _ _ _ Hh _)) as (w1 & -> & Hw1). cbv beta iota zeta.
  destruct (sweep_peers_plan env g1 Hh1 Hns Hbat (g_batchSeq g) Hb ltac:(by rewrite HP) fuel (sweep_targets peers order g)
    (mkSweep (i64 (g_sweepRound g1)) 0 0 0 0 0) [] 0 w1) as (st & w' & mint & idx & Hrun & _ & Hm & Hl & Hs & Hn1 & Hn2).
  { intros i f Hf. by rewrite lookup_nil in Hf. }
  rewrite HP in *. rewrite Hg1 in Hrun.
  exists st, (gst g1 (own_batches P) (g_batchSeq g) mint idx), w', mint.
  split_and!; [exact Hrun| |exact Hm|exact Hl|done|exact Hn1|exact Hn2]. by rewrite Hs, Hw1.
Qed.
End Plan.
