(* ===== verification/GossipReach.v ===== *)
(** From one node's sweep to another node's engine: the plan covers every own
    entry with a payload and every retained foreign frame, and a receiver that
    knows the sender's key accepts the batches it is sent and holds their entries
    afterwards. *)
From S2P Require Import Prelude Bytes Sha256 Dots Wal WalLog Hamt HamtMap Lamport Sorting Engine.
From S2P Require Import EngineInv JoinSpec EngineThms Merkle Snapshot LocalFS Bridge Iblt.
From S2P Require Import IbltPeel Strata IbltWire AntiEntropy Reconstruct Envelope Admission.
From S2P Require Import Identity Hedge Apply Receiver ReceiverThms ReceiverSec PayloadStore.
From S2P Require Import RelayCache Topology Gossip GossipSweep GossipPlan.

Section Reach.
Context `{MH : MapHash} `{SS : SliceSort} `{CP : Capnp} `{CB : !CapnpBatch CP} `{CR : Crypto} `{SG : !Signer CR}.

(** ** What the plan holds *)

Lemma elem_close evs batch : OwnBatch evs ∈ close batch ↔ evs = batch ∧ batch ≠ [].
Proof.
  unfold close. case_decide as Hd; [|rewrite list_elem_of_singleton; naive_solver].
  split; [by intros ?%elem_of_nil|naive_solver].
Qed.

Lemma plan_batch size g l batch seen be :
  be ∈ batch → ∃ evs, OwnBatch evs ∈ plan size g l batch seen ∧ be ∈ evs.
Proof.
  revert batch seen. induction l as [|[k x] l IH]; intros batch seen Hin; simpl.
  { exists batch. rewrite elem_close. split_and!; [done| |done]. intros ->. by apply elem_of_nil in Hin. }
  case_decide.
  - destruct (cache_lookup _ _ _) as [p|]; [|by apply IH]. destruct (_ <=? _).
    + eexists. split; [by left|]. apply elem_of_app. by left.
    + apply IH. apply elem_of_app. by left.
  - exists batch. split; [|done]. apply elem_of_app. left. apply elem_close. split; [done|]. intros ->. by apply elem_of_nil in Hin.
Qed.

Lemma plan_own size g l batch seen k x p :
  (k, x) ∈ l → OriginNodeID x = ni_NodeID (g_owner g) → cache_lookup k (Dot x) (g_cache g) = Some p →
  ∃ evs, OwnBatch evs ∈ plan size g l batch seen ∧ mkBuilt k p x ∈ evs.
Proof.
  intros Hin Ho Hc. revert batch seen. induction l as [|[k' x'] l IH]; intros batch seen; [by apply elem_of_nil in Hin|].
  simpl. apply elem_of_cons in Hin as [[= <- <-]|Hin].
  - rewrite decide_True, Hc by done. destruct (_ <=? _).
    + eexists. split; [by left|]. apply elem_of_app. right. by apply list_elem_of_singleton.
    + apply plan_batch. apply elem_of_app. right. by apply list_elem_of_singleton.
  - specialize (IH Hin). case_decide.
    + destruct (cache_lookup k' _ _); [|by apply IH]. destruct (_ <=? _); [|by apply IH].
      destruct (IH [] seen) as (evs & ? & ?). exists evs. split; [by right|done].
    + assert (∀ s, ∃ evs, OwnBatch evs ∈ plan size g l [] s ∧ mkBuilt k p x ∈ evs) as IH' by (intros s; apply IH).
      destruct (lookupBatch _ _ _) as [[f s]|]; [|destruct (IH' seen) as (evs & ? & ?); exists evs; set_solver].
      case_decide; [destruct (IH' seen) as (evs & ? & ?)|destruct (IH' ({[(OriginNodeID x', s)]} ∪ seen)) as (evs & ? & ?)];
        exists evs; set_solver.
Qed.

Lemma plan_foreign size g l batch seen k x f s :
  (k, x) ∈ l → OriginNodeID x ≠ ni_NodeID (g_owner g) →
  lookupBatch (OriginNodeID x) (DotCounter x) (g_relay g) = Some (f, s) → (OriginNodeID x, s) ∉ seen →
  Foreign f ∈ plan size g l batch seen.
Proof.
  intros Hin Ho Hl. revert batch seen. induction l as [|[k' x'] l IH]; intros batch seen Hs; [by apply elem_of_nil in Hin|].
  simpl. apply elem_of_cons in Hin as [[= <- <-]|Hin].
  { rewrite decide_False, Hl by done. rewrite decide_False by done. apply elem_of_app. right. by left. }
  specialize (IH Hin). case_decide.
  - destruct (cache_lookup _ _ _); [|by apply IH]. destruct (_ <=? _); [right|]; by apply IH.
  - apply elem_of_app. right. destruct (lookupBatch (OriginNodeID x') _ _) as [[f' s']|] eqn:Hl'; [|by apply IH].
    case_decide; [by apply IH|]. destruct (decide ((OriginNodeID x', s') = (OriginNodeID x, s))) as [[= Eo ->]|Hne].
    + assert (f' = f) as ->; [|by left]. unfold lookupBatch in Hl, Hl'. rewrite Eo in Hl'.
      destruct (rc_batchReverse _ !! (OriginNodeID x, DotCounter x)) as [s1|]; [|done].
      destruct (rc_batchReverse _ !! (OriginNodeID x, DotCounter x')) as [s2|]; [|done].
      destruct (rc_batchForward _ !! (OriginNodeID x, s1)) eqn:E1; [|done].
      destruct (rc_batchForward _ !! (OriginNodeID x, s2)) eqn:E2; [|done]. congruence.
    + right. apply IH. intros [Hx%elem_of_singleton|Hx]%elem_of_union; [congruence|done].
Qed.

(** An event of a batch is an own entry with its cached payload. *)
Definition own_event (g : Gossiper) (l : list (string * CRDTEntry)) (be : BuiltEvent) : Prop :=
  (be_EntityID be, be_Entry be) ∈ l ∧ OriginNodeID (be_Entry be) = ni_NodeID (g_owner g) ∧
  cache_lookup (be_EntityID be) (Dot (be_Entry be)) (g_cache g) = Some (be_Payload be).

Lemma own_event_cons g kx l be : own_event g l be → own_event g (kx :: l) be.
Proof. intros (? & ? & ?). split_and!; [by right|done|done]. Qed.

Lemma plan_sound size g l batch seen evs :
  OwnBatch evs ∈ plan size g l batch seen → 1 <= size → Z.of_nat (length batch) < size →
  Z.of_nat (length evs) <= size ∧ Forall (λ be, be ∈ batch ∨ own_event g l be) evs.
Proof.
  intros Hin Hs. revert batch seen Hin. induction l as [|[k x] l IH]; intros batch seen Hin Hb; simpl in Hin.
  { apply elem_close in Hin as [-> _]. split; [lia|]. apply Forall_forall. tauto. }
  assert (∀ b : list BuiltEvent, Forall (λ be, be ∈ b ∨ own_event g l be) evs → (∀ be, be ∈ b → be ∈ batch ∨ own_event g ((k, x) :: l) be) →
    Forall (λ be, be ∈ batch ∨ own_event g ((k, x) :: l) be) evs) as Hmono.
  { intros b Hf Hbb. eapply Forall_impl; [exact Hf|]. intros be [?|?]; [by apply Hbb|right; by apply own_event_cons]. }
  case_decide as Ho.
  - destruct (cache_lookup k (Dot x) (g_cache g)) as [p|] eqn:Hc.
    2: { destruct (IH _ _ Hin Hb) as [? ?]. split; [done|]. apply (Hmono batch); tauto. }
    assert (∀ be, be ∈ batch ++ [mkBuilt k p x] → be ∈ batch ∨ own_event g ((k, x) :: l) be) as Hnew.
    { intros be [?| ->%list_elem_of_singleton]%elem_of_app; [by left|right]. split_and!; [by left|done|done]. }
    assert (Z.of_nat (length (batch ++ [mkBuilt k p x])) <= size) as Hl by (rewrite length_app; simpl; lia).
    destruct (Z.leb_spec size (Z.of_nat (length (batch ++ [mkBuilt k p x])))).
    + apply elem_of_cons in Hin as [[= ->]|Hin]; [split; [done|by apply Forall_forall]|].
      destruct (IH _ _ Hin) as [? ?]; [simpl; lia|]. split; [done|]. apply (Hmono []); [done|by intros ? ?%elem_of_nil].
    + destruct (IH _ _ Hin) as [? ?]; [lia|]. split; [done|]. by apply (Hmono (batch ++ [mkBuilt k p x])).
  - apply elem_of_app in Hin as [[-> _]%elem_close|Hin]; [split; [lia|apply Forall_forall; tauto]|].
    assert (∃ s, OwnBatch evs ∈ plan size g l [] s) as (s & Hin').
    { destruct (lookupBatch _ _ _) as [[f s]|]; [|by eexists]. case_decide; [by eexists|].
      apply elem_of_cons in Hin as [?|?]; [done|by eexists]. }
    destruct (IH _ _ Hin') as [? ?]; [simpl; lia|]. split; [done|]. apply (Hmono []); [done|by intros ? ?%elem_of_nil].
Qed.

Lemma plan_nonempty size g l batch seen evs : OwnBatch evs ∈ plan size g l batch seen → evs ≠ [].
Proof.
  revert batch seen. induction l as [|[k x] l IH]; intros batch seen; simpl.
  { intros [-> ?]%elem_close. done. }
  case_decide.
  - destruct (cache_lookup _ _ _); [|apply IH]. destruct (_ <=? _); [|apply IH].
    intros [[= ->]|?]%elem_of_cons; [by destruct batch|by eapply IH].
  - intros [[-> ?]%elem_close|Hin]%elem_of_app; [done|]. destruct (lookupBatch _ _ _) as [[f s]|]; [|by eapply IH].
    case_decide; [by eapply IH|]. apply elem_of_cons in Hin as [?|?]; [done|by eapply IH].
Qed.

Lemma own_batches_elem evs P : evs ∈ own_batches P ↔ OwnBatch evs ∈ P.
Proof.
  unfold own_batches. rewrite list_elem_of_omap. split; [|by exists (OwnBatch evs)].
  intros ([evs'|] & Hin & [=]). by subst.
Qed.

Lemma sweep_plan_events g evs :
  OwnBatch evs ∈ sweep_plan g →
  Z.of_nat (length evs) <= clamp_batchSize (g_batchSize g) ∧
  Forall (own_event g (delta_entries (full_delta (g_engine g)))) evs.
Proof.
  intros Hin. pose proof (clamp_range (g_batchSize g)). destruct (plan_sound _ _ _ _ _ _ Hin) as [Hl Hf]; [lia|simpl; lia|].
  split; [done|]. eapply Forall_impl; [exact Hf|]. by intros be [?%elem_of_nil|?].
Qed.

(** The frames of the plan are all sent. *)
Lemma render_own P mint evs :
  OwnBatch evs ∈ P → length mint = length (own_batches P) →
  ∃ i f, mint !! i = Some f ∧ own_batches P !! i = Some evs ∧ f ∈ render P mint.
Proof.
  revert mint. induction P as [|[evs'|f'] P IH]; intros mint Hin Hl; [by apply elem_of_nil in Hin| |].
  - destruct mint as [|f mint]; [done|]. apply elem_of_cons in Hin as [[= <-]|Hin].
    + exists 0%nat, f. split_and!; [done|done|by left].
    + destruct (IH mint Hin) as (i & f1 & ? & ? & ?); [simpl in Hl; congruence|].
      exists (S i), f1. split_and!; [done|done|by right].
  - apply elem_of_cons in Hin as [|Hin]; [done|]. destruct (IH mint Hin Hl) as (i & f1 & ? & ? & ?).
    exists i, f1. split_and!; [done|done|by right].
Qed.

Lemma render_foreign P mint f : Foreign f ∈ P → length mint = length (own_batches P) → f ∈ render P mint.
Proof.
  revert mint. induction P as [|[evs|f'] P IH]; intros mint Hin Hl; [by apply elem_of_nil in Hin| |].
  - destruct mint as [|f1 mint]; [done|]. apply elem_of_cons in Hin as [|Hin]; [done|]. right. apply IH; [done|].
    simpl in Hl. congruence.
  - apply elem_of_cons in Hin as [[= <-]|Hin]; [by left|]. right. by apply IH.
Qed.

(** C23. A sweep in batched, not stratified mode in which nothing is cancelled,
    every publish succeeds, every batch can be built and signed and batch
    numbers stay below 2^64 refines a plan computed from engine and caches:
    every selected peer gets the same bytes in the same order, each own batch is
    built, signed and numbered once, and the counters are the plan's times the
    peers. *)
Theorem sweep_sends_plan (fuel : nat) (env : Env) (peers : list (list Z)) (order : list (list Z * Z))
    (g : Gossiper) (w : World) :
  let P := sweep_plan g in let T := others g (sweep_targets peers order g) in
  healthy env g (own_batches P) → g_stratified g = false → batched g = true →
  0 <= g_batchSeq g → g_batchSeq g + Z.of_nat (length (own_batches P)) < 2 ^ 64 →
  ∃ st g' w' mint, AntiEntropySweep fuel env peers order g w = Some (Ret (st, g', w')) ∧
    w_sent w' = w_sent w ++ to_peers T (render P mint) ∧
    (∀ i f, mint !! i = Some f →
       ∃ evs, own_batches P !! i = Some evs ∧ minted env g evs (g_batchSeq g + 1 + Z.of_nat i) f) ∧
    (T ≠ [] → length mint = length (own_batches P)) ∧ g_batchSeq g' = g_batchSeq g + Z.of_nat (length mint) ∧
    st_shippedEnvelopes st = Z.of_nat (length T) * Z.of_nat (length P) ∧
    st_shippedEntries st = Z.of_nat (length T) * plan_entries P ∧
    (∀ evs, evs ∈ own_batches P → 0 < Z.of_nat (length evs) <= clamp_batchSize (g_batchSize g) ∧
       Forall (own_event g (delta_entries (full_delta (g_engine g)))) evs).
Proof.
  intros P T Hh Hns Hbat Hb Hw.
  destruct (sweep_run fuel env peers order g w Hh Hns Hbat Hb Hw) as (st & g' & w' & mint & H1 & H2 & H3 & H4 & H5 & H6 & H7).
  exists st, g', w', mint. split_and!; try done. intros evs Hin%own_batches_elem.
  destruct (sweep_plan_events g evs Hin) as [Hl Hf]. apply plan_nonempty in Hin.
  split; [destruct evs; simpl in *; [done|lia]|done].
Qed.

(** ** Delivery *)

Definition pair_of (be : BuiltEvent) : string * CRDTEntry := (be_EntityID be, be_Entry be).

(** An entry every honest receiver accepts with this payload. *)
Definition genuine (be : BuiltEvent) : Prop :=
  sized_entry (be_Entry be) ∧ DotNodeID (be_Entry be) = OriginNodeID (be_Entry be) ∧
  PayloadDigest (be_Entry be) = Sum256 (string_bytes (be_Payload be)).

Lemma genuine_accepted s be :
  genuine be → DotCounter (be_Entry be) <= MaxAcceptableDotCounter s → accepted s (built_event be) (pair_of be).
Proof.
  intros (Hx & Hdo & Hdig) Hb. split; [done|].
  pose proof (built_verdict (be_EntityID be) (be_Payload be) (be_Entry be) s Hx Hdo) as Hv.
  rewrite bool_decide_eq_true_2 in Hv by done. rewrite (proj2 (Z.ltb_ge _ _) Hb) in Hv. eexists. split; [exact Hv|done].
Qed.

Context `{CT : !CapnpTyped CP} `{CL : !CapnpBatchLaws CB} `{SL : !SignerLaws SG}.

(** The receiver knows the sender, runs in the classical mode, and its bound
    reaches the events. *)
Record ready (owner : NodeIdentity) (evs : list BuiltEvent) (r : Receiver) : Prop := {
  rd_ok : receiver_ok r;
  rd_key : Lookup (ni_NodeID owner) (rv_dir r) = Some (PublicFromSeed (ni_Seed owner));
  rd_mode : rv_hybridVerify r = false;
  rd_bound : Forall (λ be, DotCounter (be_Entry be) <= MaxAcceptableDotCounter (Clock_snapshot (clk (rv_engine r)))) evs;
}.

Lemma batch_delivered owner a evs wire sig seq now1 now2 r :
  length (ni_NodeID owner) = 16%nat → length sig = 64%nat → sig ≠ replicate 64 0 → 0 <= seq < 2 ^ 20 →
  Forall genuine evs → delta_agrees a (map pair_of evs) → Z.of_nat (length evs) <= MaxBatchSize →
  BuildCRDTDeltaBatch evs = Ok wire → VerifyCRDTFrame (PublicFromSeed (ni_Seed owner)) wire sig = true →
  ready owner evs r →
  ∃ r' hs, DispatchFrame now1 now2 (MarshalBatchEnvelope (ni_NodeID owner) sig seq (u16 (Z.of_nat (length evs))) wire) r =
      Ret (mkVerdict VAccept RNone, r', hs) ∧ receiver_ok r' ∧
    ∀ k, view (rv_engine r') k = view (rv_engine r) k ∪ delta_view k (map pair_of evs).
Proof.
  intros Hid Hsl Hsz Hseq Hg Ha Hn Hb Hv [Hok Hk Hh Hbd]. pose proof Hok as (Hwf & Hdom & Hcl & Hbk).
  unfold MaxBatchSize in Hn. set (f := MarshalBatchEnvelope _ _ _ _ _).
  assert (sized_batch_header (ni_NodeID owner) sig seq (u16 (Z.of_nat (length evs)))) as Hhd.
  { split_and!; [done|done|split; lia|unfold u16; rewrite Z.mod_small; lia|unfold u16; rewrite Z.mod_small; lia]. }
  pose proof (unmarshal_marshal_batch _ _ _ _ wire Hhd) as Hp. cbv zeta in Hp. fold f in Hp.
  rewrite bool_decide_eq_false_2 in Hp by done.
  assert (IsBatchFrame f = true) as Hdis.
  { unfold f, MarshalBatchEnvelope, IsBatchFrame.
    rewrite has_magic_prefix by (done || apply be_put_bytes || (unfold WireV1Magic; lia)). by apply bool_decide_eq_true_2. }
  unfold DispatchFrame. rewrite Hdis. unfold HandleBatchFrame. rewrite Hp. cbn [bn_originNodeID bn_originSeq bn_originSig].
  destruct (Accept_spec (rateKey (ni_NodeID owner)) seq (rv_bucket r) Hbk) as (HK & Hbk' & _); [lia|].
  assert ((Accept (rateKey (ni_NodeID owner)) seq (rv_bucket r)).1 = Keep) as HKeep.
  { apply HK. unfold rateKey. rewrite length_app, Hid. split; [done|unfold initialBudget; lia]. }
  destruct (Accept _ _ _) as [rate b]. simpl in HKeep, Hbk'. subst rate. cbv zeta. rewrite decide_False by done.
  cbn [rv_dir set_bucket]. rewrite Hk. unfold verify_origin. cbn [rv_hybridVerify set_bucket].
  unfold f. rewrite Hh, BatchWire_marshal, Hv by done. cbn [negb]. unfold apply_batch, ApplyCRDTDeltaBatch.
  rewrite (build_batch_decode evs wire); [|eapply Forall_impl; [exact Hg|]; by intros be []|lia|done].
  cbv zeta. cbn [rv_engine set_bucket]. set (s := Clock_snapshot (clk (rv_engine r))) in *.
  rewrite (proj2 (reconstruct_all_Ok s 0 (map built_event evs) (map pair_of evs))).
  2: { clear -Hg Hbd. induction Hg as [|be evs Hbe _ IH]; simpl; [constructor|].
       inversion_clear Hbd. constructor; [by apply genuine_accepted|by apply IH]. }
  assert (Forall (λ ie : string * CRDTEntry, is_u64 (DotCounter ie.2)) (map pair_of evs)) as Hu.
  { apply Forall_fmap. eapply Forall_impl; [exact Hg|]. intros be [Hx _]. apply Hx. }
  destruct (join_view a (map pair_of evs) (rv_engine r) Hwf Hcl Hu Ha) as (e1 & Hj & Hwf1 & Hcl1 & _ & Hvw).
  destruct (join_ok (map pair_of evs) (rv_engine r) Hwf Hdom Hcl Hu) as (e1' & Hj' & _ & Hdom1 & _).
  rewrite Hj in Hj'. injection Hj' as <-.
  match goal with |- context [Join ?d (rv_engine r)] => replace (Join d (rv_engine r)) with (Ret e1) by (symmetry; exact Hj) end.
  eexists _, _. split; [done|]. split; [|exact Hvw]. by split_and!.
Qed.

(** ** The whole way *)

(** The own entries with a payload are what local writes make them. *)
Definition own_genuine (g : Gossiper) : Prop :=
  ∀ k x p, x ∈ PointGet (g_engine g) k → OriginNodeID x = ni_NodeID (g_owner g) →
    cache_lookup k (Dot x) (g_cache g) = Some p → genuine (mkBuilt k p x).

(** The owner's keys are those of its seed. *)
Definition own_keys (owner : NodeIdentity) : Prop :=
  length (ni_Seed owner) = 32%nat ∧ length (ni_NodeID owner) = 16%nat.

Lemma full_delta_elem e k x : wf_engine e → (k, x) ∈ delta_entries (full_delta e) ↔ x ∈ PointGet e k.
Proof.
  intros Hwf. rewrite (delta_entries_elem _ (routeSeed e)) by apply Hwf. simpl. rewrite PointGet_ss. tauto.
Qed.

Definition engine_assignment (e : Engine) : assignment := λ k d, default (mkEntry [] [] [] 0 0 0 0 0 0 0) (view e k !! d).

Lemma engine_assignment_agrees e k x : wf_engine e → x ∈ PointGet e k → x = engine_assignment e k (Dot x).
Proof.
  intros Hwf Hx. unfold engine_assignment. assert (view e k !! Dot x = Some x) as -> by by apply view_lookup. done.
Qed.

Lemma minted_signed env g evs seq f :
  g_hybridSign g = false → own_keys (g_owner g) → minted env g evs seq f →
  ∃ wire sig, BuildCRDTDeltaBatch evs = Ok wire ∧ length sig = 64%nat ∧ sig ≠ replicate 64 0 ∧
    VerifyCRDTFrame (PublicFromSeed (ni_Seed (g_owner g))) wire sig = true ∧
    f = MarshalBatchEnvelope (ni_NodeID (g_owner g)) sig seq (u16 (Z.of_nat (length evs))) wire.
Proof.
  intros Hh [Hs _] (n & wire & envelope & Hb & Hsg & ->). unfold sign_envelope in Hsg. rewrite Hh in Hsg.
  apply result_bind_Ok in Hsg as (sig & Hsig & [= <-]).
  destruct (env_rand env n) as [rnd|].
  - destruct (sign_verifies rnd _ wire Hs) as (sig' & Hs' & Hl & Hz & Hv). rewrite Hsig in Hs'. injection Hs' as <-.
    exists wire, sig. split_and!; try done. unfold copy_array.
    by rewrite Hl, take_ge, Nat.sub_diag, app_nil_r by (rewrite Hl; done).
  - unfold SignCRDTFrame in Hsig. rewrite Hs in Hsig. simpl in Hsig.
    by destruct (or_err _ (SetBytes _)).
Qed.

(** C3. One sweep in the classical batched mode (not stratified, not hybrid,
    batch size over 1) of a well-formed engine, in which nothing is cancelled,
    every publish succeeds and every batch can be built and signed: for every
    own entry as local writes make it whose payload is cached, each selected
    peer is sent a frame that any ready receiver accepts and holds from then on
    (a dot it already held keeps its entry). Ready: it is well formed, knows the
    node's key, runs in the classical mode and its clock bound reaches the
    batch. Batch numbers stay below 2^20, where the receivers' rate gate ends
    (rate_gate_is_fixed_ceiling). Foreign entries with a retained batch go out
    in the retained frame, byte for byte. *)
Theorem sweep_reaches_peer (fuel : nat) (env : Env) (peers : list (list Z)) (order : list (list Z * Z))
    (g : Gossiper) (w : World) (p : list Z) :
  healthy env g (own_batches (sweep_plan g)) → g_stratified g = false → 1 < g_batchSize g → g_hybridSign g = false →
  wf_engine (g_engine g) → own_keys (g_owner g) → own_genuine g →
  0 <= g_batchSeq g → g_batchSeq g + Z.of_nat (length (own_batches (sweep_plan g))) < 2 ^ 20 →
  p ∈ sweep_targets peers order g → p ≠ ni_NodeID (g_owner g) →
  ∃ st g' w' sent, AntiEntropySweep fuel env peers order g w = Some (Ret (st, g', w')) ∧ w_sent w' = w_sent w ++ sent ∧
  (∀ k x payload, x ∈ PointGet (g_engine g) k → OriginNodeID x = ni_NodeID (g_owner g) →
     cache_lookup k (Dot x) (g_cache g) = Some payload →
     ∃ f evs, (p, LengthPrefixFrame f) ∈ sent ∧ OwnBatch evs ∈ sweep_plan g ∧ mkBuilt k payload x ∈ evs ∧
       ∀ now1 now2 r, ready (g_owner g) evs r →
       ∃ r' hs y, DispatchFrame now1 now2 f r = Ret (mkVerdict VAccept RNone, r', hs) ∧ receiver_ok r' ∧
         view (rv_engine r') k !! Dot x = Some y ∧ (view (rv_engine r) k !! Dot x = None → y = x)) ∧
  (∀ k x f s, x ∈ PointGet (g_engine g) k → OriginNodeID x ≠ ni_NodeID (g_owner g) →
     lookupBatch (OriginNodeID x) (DotCounter x) (g_relay g) = Some (f, s) → (p, LengthPrefixFrame f) ∈ sent).
Proof.
  intros Hh Hns Hbs Hcl Hwf Hkeys Hgen Hseq Hwide Hp Hne.
  assert (batched g = true) as Hbat by (unfold batched; by rewrite (proj2 (Z.ltb_lt _ _) Hbs)).
  destruct (sweep_run fuel env peers order g w Hh Hns Hbat Hseq ltac:(lia))
    as (st & g' & w' & mint & Hrun & Hsent & Hmint & Hlen & _).
  set (P := sweep_plan g) in *. set (T := others g (sweep_targets peers order g)) in *.
  assert (p ∈ T) as HpT by (by apply list_elem_of_filter).
  assert (length mint = length (own_batches P)) as Hl by (apply Hlen; intros E; rewrite E in HpT; by apply elem_of_nil in HpT).
  assert (∀ f, f ∈ render P mint → (p, LengthPrefixFrame f) ∈ to_peers T (render P mint)) as Hto.
  { intros f Hf. unfold to_peers. apply elem_of_concat. exists (map (λ f, (p, LengthPrefixFrame f)) (render P mint)).
    split; apply list_elem_of_fmap; eauto. }
  exists st, g', w', (to_peers T (render P mint)). split_and!; [done|done| |].
  - intros k x payload Hx Ho Hc.
    destruct (plan_own (clamp_batchSize (g_batchSize g)) g (delta_entries (full_delta (g_engine g))) [] ∅ k x payload)
      as (evs & Hevs & Hbe); [by apply full_delta_elem|done|done|]. fold P in Hevs.
    destruct (render_own P mint evs Hevs Hl) as (i & f & Hi & Hbi & Hf). exists f, evs. split_and!; [by apply Hto|done|done|].
    intros now1 now2 r Hr. destruct (Hmint i f Hi) as (evs' & He' & Hm). rewrite Hbi in He'. injection He' as <-.
    apply minted_signed in Hm as (wire & sig & Hb & Hsl & Hsz & Hv & ->); [|done|done].
    destruct (sweep_plan_events g evs Hevs) as [Hsize Hown]. rewrite Forall_forall in Hown.
    assert (delta_agrees (engine_assignment (g_engine g)) (map pair_of evs)) as Hag.
    { intros k' x' (be & [= -> ->] & (Hin & _)%Hown)%list_elem_of_fmap.
      apply full_delta_elem in Hin; [|done]. by apply engine_assignment_agrees. }
    pose proof (lookup_lt_Some _ _ _ Hbi) as Hilt. pose proof (clamp_range (g_batchSize g)).
    destruct (batch_delivered (g_owner g) (engine_assignment (g_engine g)) evs wire sig (g_batchSeq g + 1 + Z.of_nat i) now1 now2 r)
      as (r' & hs & Hd & Hok' & Hvw); try done; [apply Hkeys|lia| |lia|].
    { apply Forall_forall. intros [k' p' x'] (Hin & Ho' & Hc')%Hown. apply full_delta_elem in Hin; [|done]. by apply Hgen. }
    assert (delta_view k (map pair_of evs) !! Dot x = Some x) as Hdv.
    { apply (delta_view_lookup _ _ _ _ _ Hag). split; [|done]. apply list_elem_of_fmap. by exists (mkBuilt k payload x). }
    exists r', hs. destruct (view (rv_engine r) k !! Dot x) as [y|] eqn:Ey; [exists y|exists x];
      (split_and!; [exact Hd|done| |done]); rewrite Hvw, lookup_union, Ey, Hdv; done.
  - intros k x f s Hx Ho Hlk. apply Hto, render_foreign; [|done].
    apply (plan_foreign _ _ _ _ _ k x f s); [by apply full_delta_elem|done|done|by intros ?%elem_of_empty].
Qed.
End Reach.

(** * Local writes keep what the sweep relies on: every own entry with a cached
    payload carries that payload's digest and the node's own dot, on every
    path (in memory or through the log, one write or a batch, log failures
    included). *)

Section Write.
Context `{MH : MapHash} `{SS : SliceSort} `{CP : Capnp} `{CB : !CapnpBatch CP} `{CR : Crypto} `{SG : !Signer CR}.

(** The caller's part of an entry fits its fields. *)
Definition sized_meta (x : CRDTEntry) : Prop :=
  is_u64 (H3Index x) ∧ is_i64 (SystemTime x) ∧ is_i64 (ValidTimeStart x) ∧ is_i64 (ValidTimeEnd x) ∧
  is_i64 (AssertionTime x) ∧ is_i64 (DecisionTime x).

Record store_ok (id : list Z) (e : Engine) (c : payloadCache) : Prop := {
  so_wf : wf_engine e;
  so_dom : dominates e;
  so_open : closing e = false;
  so_id : localNodeID e = id;
  so_cached : ∀ k d p, cache_lookup k d c = Some p → Counter d <= lamportCounter (clk e);
  so_genuine : ∀ k x p, x ∈ PointGet e k → OriginNodeID x = id → cache_lookup k (Dot x) c = Some p → genuine (mkBuilt k p x);
}.

(** The entry a write of [payload] left under [dot]. *)
Definition written (e : Engine) (k : string) (dot : CausalDot) (payload : string) : Prop :=
  ∃ y, y ∈ PointGet e k ∧ Dot y = dot ∧ OriginNodeID y = localNodeID e ∧ genuine (mkBuilt k payload y).

Context (id : list Z) (Hlen : length id = 16%nat) (Hbytes : is_bytes id).

Lemma insert_written k payload x e c :
  store_ok id e c → sized_meta x → lamportCounter (clk e) < u64_max →
  ∃ dot e', InsertLocal k (set_digest (Sum256 (string_bytes payload)) x) e = Ret (dot, e') ∧
    store_ok id e' c ∧ written e' k dot payload ∧ lamportCounter (clk e') = lamportCounter (clk e) + 1 ∧
    ∀ k0 d0 p0, written e k0 d0 p0 → written e' k0 d0 p0.
Proof.
  intros [Hwf Hd Hcl Hid Hca Hge] (M1 & M2 & M3 & M4 & M5 & M6) Hlt. pose proof Hwf as [_ (Hu & _)].
  set (x' := set_digest _ x).
  destruct (InsertLocal_spec k x' e Hwf Hcl (dominates_fresh e k _ Hd Hlt Hu))
    as (e' & Hi & Hwf' & Hcl' & Hck & Hl & _ & _ & Hp & Ho).
  set (dot := mkDot (localNodeID e) (lamportCounter (clk e) +ₒ 1)) in *. set (y := stamp dot (localNodeID e) x') in *.
  assert (lamportCounter (clk e') = lamportCounter (clk e) + 1) as Hlam by (rewrite Hck, NextDot_lamport; apply u64_id; words).
  assert (Counter dot = lamportCounter (clk e) + 1) as Hdot by (unfold dot; simpl; apply u64_id; words).
  assert (NodeID dot = localNodeID e) as Hnode by done.
  assert (∀ z k0, z ∈ PointGet e k0 → z ∈ PointGet e' k0) as Hmono.
  { intros z k0 Hz. destruct (decide (k0 = k)) as [->|Hne]; [rewrite Hp; by right|by rewrite Ho]. }
  exists dot, e'. split_and!; [done| | |done|].
  - split; [done|by destruct (step_insert_inv k x' dot e e' Hi Hlt Hwf Hd)|done|congruence| |].
    + intros k0 d0 p0 H0. specialize (Hca _ _ _ H0). lia.
    + intros k0 z p0 Hz Horg Hc0. destruct (decide (k0 = k)) as [->|Hne]; [|rewrite Ho in Hz by done; by apply Hge].
      rewrite Hp in Hz. apply elem_of_cons in Hz as [->|Hz]; [|by apply Hge].
      exfalso. specialize (Hca _ _ _ Hc0). simpl in Hca. rewrite u64_id in Hca by words. lia.
  - exists y. rewrite Hp, Hl. split_and!; [by left|done|done|]. assert (localNodeID e = id) as Hid' by done. unfold y. clearbody dot.
    split; [|done]. split; [split_and!; simpl; rewrite ?Hid; [apply length_Sum256|done|by rewrite Hnode, Hid]|].
    split; [split_and!; simpl; rewrite ?Hid; [apply Sum256_bytes|done|by rewrite Hnode, Hid]|].
    split_and!; simpl; try done. rewrite Hdot. split; words.
  - intros k0 d0 p0 (z & Hz & Hzd & Hzo & Hzg). exists z. rewrite Hl. split_and!; [by apply Hmono|done|done|done].
Qed.

Lemma record_ok k dot payload e c :
  store_ok id e c → written e k dot payload → store_ok id e (cache_record k dot payload c).
Proof.
  intros [Hwf Hd Hcl Hid Hca Hge] (y & Hy & Hdy & Hoy & Hg). split; [done..| |].
  - intros k0 d0 p0. unfold cache_lookup. simpl. destruct (decide ((k0, d0) = (k, dot))) as [[= -> ->]|Hne].
    + intros _. rewrite <- Hdy. exact (Hd _ _ Hy).
    + rewrite lookup_insert_ne by congruence. apply Hca.
  - intros k0 x p0 Hx Horg. unfold cache_lookup. simpl. destruct (decide ((k0, Dot x) = (k, dot))) as [[= -> Hdx]|Hne].
    + rewrite Hdx, lookup_insert_eq. intros [= <-]. assert (x = y) as ->; [|done].
      assert (view e k !! dot = Some x) as H1 by by apply view_lookup.
      assert (view e k !! dot = Some y) as H2 by by apply view_lookup. congruence.
    + rewrite lookup_insert_ne by congruence. by apply Hge.
Qed.

Definition items_ok (items : list BuiltEvent) : Prop := Forall (λ it, sized_meta (be_Entry it)) items.

(** Dots of written items. *)
Definition all_written (e : Engine) (items : list BuiltEvent) (dots : list CausalDot) : Prop :=
  Forall2 (λ it dot, written e (be_EntityID it) dot (be_Payload it)) items dots.

Lemma inserts_written items e c :
  store_ok id e c → items_ok items → lamportCounter (clk e) + Z.of_nat (length items) <= u64_max →
  ∃ l e', put_inserts (map local_item items) e = Ret (l, e') ∧ store_ok id e' c ∧ all_written e' items l.*1 ∧
    lamportCounter (clk e') = lamportCounter (clk e) + Z.of_nat (length items) ∧
    ∀ k0 d0 p0, written e k0 d0 p0 → written e' k0 d0 p0.
Proof.
  intros Hs Hi. revert e Hs. induction Hi as [|it items Hm _ IH]; intros e Hs Hlt; simpl in *.
  { exists [], e. split_and!; [done|done|constructor|lia|done]. }
  destruct (insert_written (be_EntityID it) (be_Payload it) (be_Entry it) e c Hs Hm ltac:(lia))
    as (dot & e1 & Hins & Hs1 & Hw1 & Hl1 & Hm1).
  unfold put_insert. rewrite Hins. destruct (IH e1 Hs1 ltac:(lia)) as (l & e2 & -> & Hs2 & Hw2 & Hl2 & Hm2).
  eexists _, e2. split_and!; [done|done|simpl; constructor; [by apply Hm2|done]|lia|]. intros k0 d0 p0 Hw. by apply Hm2, Hm1.
Qed.

Lemma record_all_ok items dots e c :
  store_ok id e c → all_written e items dots → store_ok id e (record_all items dots c).
Proof.
  intros Hs Hw. revert c Hs. induction Hw as [|it dot items dots Hit _ IH]; intros c Hs; [done|].
  unfold record_all. simpl. apply IH. by apply record_ok.
Qed.

(** The loop without a log records after every insert. *)
Lemma insert_items_written items e c :
  store_ok id e c → items_ok items → lamportCounter (clk e) + Z.of_nat (length items) <= u64_max →
  ∃ dots e' c', insert_items items e c = Ret (dots, e', c') ∧ store_ok id e' c' ∧ all_written e' items dots ∧
    lamportCounter (clk e') = lamportCounter (clk e) + Z.of_nat (length items) ∧
    c' = record_all items dots c ∧ ∀ k0 d0 p0, written e k0 d0 p0 → written e' k0 d0 p0.
Proof.
  intros Hs Hi. revert e c Hs. induction Hi as [|it items Hm _ IH]; intros e c Hs Hlt; simpl in *.
  { exists [], e, c. split_and!; [done|done|constructor|lia|done|done]. }
  destruct (insert_written (be_EntityID it) (be_Payload it) (be_Entry it) e c Hs Hm ltac:(lia))
    as (dot & e1 & Hins & Hs1 & Hw1 & Hl1 & Hm1).
  unfold InsertLocalEvents_noBridge. change (with_digest ?d ?x) with (set_digest d x). rewrite Hins.
  destruct (IH e1 _ (record_ok _ _ _ _ _ Hs1 Hw1) ltac:(lia)) as (dots & e2 & c2 & -> & Hs2 & Hw2 & Hl2 & -> & Hm2).
  eexists _, e2, _. split_and!; [done|done|constructor; [by apply Hm2|done]|lia|done|]. intros k0 d0 p0 Hw. by apply Hm2, Hm1.
Qed.

Lemma record_all_cached items dots c it dot :
  (it, dot) ∈ zip items dots → is_Some (cache_lookup (be_EntityID it) dot (record_all items dots c)).
Proof.
  assert (∀ l k d c, is_Some (cache_lookup k d c) →
    is_Some (cache_lookup k d (foldl (λ c (p : BuiltEvent * CausalDot), cache_record (be_EntityID p.1) p.2 (be_Payload p.1) c) c l))) as Hk.
  { induction l as [|q l IH]; intros k d c0 Hc; simpl; [done|]. apply IH. unfold cache_lookup. simpl.
    destruct (decide ((k, d) = (be_EntityID q.1, q.2))) as [->|]; [by rewrite lookup_insert_eq|by rewrite lookup_insert_ne]. }
  unfold record_all. generalize (zip items dots) c. induction l as [|q l IH]; intros c0 Hin; [by apply elem_of_nil in Hin|].
  apply elem_of_cons in Hin as [<-|Hin]; simpl; [|by apply IH]. apply Hk. unfold cache_lookup. simpl. by rewrite lookup_insert_eq.
Qed.
End Write.

Section WriteThm.
Context `{MH : MapHash} `{SS : SliceSort} `{CP : Capnp} `{CB : !CapnpBatch CP} `{CR : Crypto} `{SG : !Signer CR}.

Definition gossiper_ok (g : Gossiper) : Prop := store_ok (ni_NodeID (g_owner g)) (g_engine g) (g_cache g).

(** Local writes keep every cached own entry shippable, with or without a
    log.  A write returns; the entry is in the engine under the returned dot with
    the digest of its payload, and the payload is cached under that dot; when the
    log fails the dot returned is zero and the cache is as before, so the entry
    that went into the engine has no payload.  A batch does the same for all its
    items, or for none when the log fails. *)
Theorem local_writes_shippable (k payload : string) (x : CRDTEntry) (items : list BuiltEvent) (r : wres) (rs : nat → wres)
    (ok : bool) (ns : Z) (g : Gossiper) :
  gossiper_ok g → length (ni_NodeID (g_owner g)) = 16%nat → is_bytes (ni_NodeID (g_owner g)) →
  sized_meta x → items_ok items → lamportCounter (clk (g_engine g)) + Z.of_nat (S (length items)) <= u64_max →
  (∃ dot g', InsertLocalEvents k payload x r ok ns g = Ret (dot, g') ∧ gossiper_ok g' ∧ g_owner g' = g_owner g ∧
     (dot = zeroDot ∧ g_cache g' = g_cache g ∧ (∃ b, g_store g = SBridge b) ∨
      written (g_engine g') k dot payload ∧ cache_lookup k dot (g_cache g') = Some payload)) ∧
  (∃ dots failed err g', InsertLocalEventsBatch items rs ok ns g = Ret (dots, failed, err, g') ∧ gossiper_ok g' ∧
     g_owner g' = g_owner g ∧ all_written (g_engine g') items dots ∧
     match err with
     | Some _ => g_cache g' = g_cache g
     | None => ∀ it dot, (it, dot) ∈ zip items dots → is_Some (cache_lookup (be_EntityID it) dot (g_cache g'))
     end).
Proof.
  intros Hg Hl Hb Hx Hi Hlt. unfold gossiper_ok, g_engine in *. split.
  - destruct (insert_written (ni_NodeID (g_owner g)) Hl Hb k payload x (engine_of (g_store g)) (g_cache g) Hg Hx ltac:(lia))
      as (dot & e1 & Hins & Hs1 & Hw1 & _).
    pose proof (record_ok _ k dot payload e1 (g_cache g) Hs1 Hw1) as Hs2. unfold InsertLocalEvents.
    assert (cache_lookup k dot (cache_record k dot payload (g_cache g)) = Some payload) as Hc by (apply lookup_insert_eq).
    destruct (g_store g) as [e|b] eqn:Est; simpl in Hins.
    + unfold InsertLocalEvents_noBridge. change (with_digest ?d ?x) with (set_digest d x). rewrite Hins.
      eexists _, _. split_and!; [done|done|done|by right].
    + unfold PutLocal, put_insert. rewrite Hins. destruct (AppendMutation _ _ _ _) as [s [err|]].
      * eexists _, _. split_and!; [done|done|done|]. left. eauto.
      * unfold count_mutations. destruct (noteMutations _ _ _) as [n owner]. eexists _, _. split_and!; [done|done|done|by right].
  - unfold InsertLocalEventsBatch. destruct (g_store g) as [e|b] eqn:Est; simpl in *.
    + destruct (insert_items_written (ni_NodeID (g_owner g)) Hl Hb items e (g_cache g) Hg Hi ltac:(lia))
        as (dots & e' & c' & -> & Hs' & Hw & _ & -> & _).
      eexists _, _, _, _. split_and!; [done|done|done|done|]. intros it dot. apply record_all_cached.
    + destruct (inserts_written (ni_NodeID (g_owner g)) Hl Hb items (b_engine b) (g_cache g) Hg Hi ltac:(lia))
        as (l & e' & Hp & Hs' & Hw & _). unfold PutLocals. rewrite Hp.
      destruct (AppendMutations _ _ _) as [[s n] [err|]].
      * eexists _, _, _, _. split_and!; done.
      * unfold count_mutations. destruct (noteMutations _ _ _) as [m owner]. eexists _, _, _, _.
        split_and!; [done|by apply record_all_ok|done|done|]. intros it dot. apply record_all_cached.
Qed.

(** The hypothesis of the sweep. *)
Lemma gossiper_ok_genuine g : gossiper_ok g → own_genuine g.
Proof. intros [_ _ _ _ _ Hg]. exact Hg. Qed.
End WriteThm.
