(* ===== verification/GossipDigest.v ===== *)
(** The digest exchange of a stratified sweep (pkg/mesh/digest.go, gossip.go):
    a digest frame read back, the delta against the digest that arrived, the
    full delta when none does, and what an unsigned digest can do. *)
From S2P Require Import Prelude Bytes Sha256 Dots Wal WalLog Hamt HamtMap Lamport Sorting Engine.
From S2P Require Import EngineInv JoinSpec EngineThms Merkle Snapshot LocalFS Bridge Iblt.
From S2P Require Import IbltPeel Strata IbltWire AntiEntropy Reconstruct Envelope Admission.
From S2P Require Import Identity Hedge Apply ApplyWitness Receiver ReceiverThms ReceiverSec.
From S2P Require Import ReceiverWit PayloadStore RelayCache Topology Gossip GossipSweep.
From S2P Require Import GossipPlan GossipReach.

(** ** Frames *)

Lemma digest_frame_fields id se ib :
  length id = 16%nat → Z.of_nat (length se) < 2 ^ 32 →
  let f := buildDigestFrame id se ib in
  digestFrameSender f = id ∧ digestFrameSplit f = Some (se, ib) ∧ IsDigestFrame f = true.
Proof.
  intros Hid Hse f. unfold f, buildDigestFrame, u32. rewrite Z.mod_small by lia.
  set (lb := be_put 4 (Z.of_nat (length se))). assert (length lb = 4%nat) as Hlb by apply length_be_put.
  assert (be_get lb = Z.of_nat (length se)) as Hget by (apply be_get_put; lia).
  assert (length (be_put 4 WireDigestMagic) = 4%nat) as Hmb by apply length_be_put.
  assert (length (be_put 4 WireDigestMagic ++ id ++ lb ++ se ++ ib) = (24 + length se + length ib)%nat) as Hlen
    by (rewrite !length_app, Hmb, Hlb, Hid; lia).
  split_and!.
  - unfold digestFrameSender, digestFrameHeaderLen. rewrite Hlen, (proj2 (Nat.ltb_ge _ _)) by lia.
    rewrite slice_app_skip by (rewrite Hmb; done). rewrite Hmb. by rewrite slice_app_here by done.
  - unfold digestFrameSplit, digestFrameSELenOff, digestFrameHeaderLen. rewrite Hlen, (proj2 (Nat.ltb_ge _ _)) by lia.
    assert (slice (4 + 16) 4 (be_put 4 WireDigestMagic ++ id ++ lb ++ se ++ ib) = lb) as ->.
    { rewrite (assoc_L (++)), slice_app_skip by (rewrite length_app, Hmb, Hid; done).
      rewrite length_app, Hmb, Hid. by rewrite slice_app_here by done. }
    cbv zeta. rewrite Hget, Nat2Z.id. rewrite (proj2 (Nat.ltb_ge _ _)) by lia.
    assert (be_put 4 WireDigestMagic ++ id ++ lb ++ se ++ ib = ((be_put 4 WireDigestMagic ++ id ++ lb) ++ se) ++ ib) as ->
      by by rewrite <- !(assoc_L (++)).
    set (pre := be_put 4 WireDigestMagic ++ id ++ lb). assert (length pre = 24%nat) as Hpre by (unfold pre; rewrite !length_app, Hmb, Hid, Hlb; done).
    f_equal. f_equal.
    + rewrite <- (assoc_L (++)), slice_app_skip by (rewrite Hpre; done). rewrite Hpre.
      change (4 + 16 + 4 - 24)%nat with 0%nat. apply slice_app_here. done.
    + apply drop_app_length'. rewrite length_app, Hpre. done.
  - unfold IsDigestFrame. rewrite has_magic_prefix by (done || apply be_put_bytes || (unfold WireDigestMagic; lia)).
    by apply bool_decide_eq_true_2.
Qed.

Section Digest.
Context `{MH : MapHash} `{SS : SliceSort} `{CP : Capnp} `{CB : !CapnpBatch CP} `{CR : Crypto} `{SG : !Signer CR}.

(** ** The estimator of an engine *)

(** The walk of GenerateStrataEstimator is the insertion of all keys. *)
Definition strata_ok (seed : Z) (se : StrataEstimator) : Prop :=
  length (strata se) = strataCount ∧ strataSeed se = seed ∧
  Forall (λ t, usable t ∧ wire_iblt t) (strata se).

Lemma stratum_lt key : (stratum key < strataCount)%nat.
Proof. unfold stratum, strataCount. destruct (Z.leb_spec (Z.of_nat 32) (trailingZeros64 key)); lia. Qed.

Lemma Strata_Insert_ok seed key se :
  is_u64 key → strata_ok seed se → ∃ se', Strata_Insert key se = Ret se' ∧ strata_ok seed se'.
Proof.
  intros Hk (Hl & Hs & Hf). unfold Strata_Insert. pose proof (stratum_lt key) as Hlt.
  destruct (lookup_lt_is_Some_2 (strata se) (stratum key)) as [t Ht]; [lia|]. rewrite Ht.
  pose proof (Forall_lookup_1 _ _ _ _ Hf Ht) as [Hu (W1 & W2 & W3 & W4)].
  destruct (update_ret 1 key t Hu) as [Hr Hu']. unfold IBLT_Insert. rewrite Hr. eexists. split; [done|].
  split; [cbn [strata]; by rewrite length_insert|]. split; [done|]. cbn [strata]. apply Forall_insert; [done|]. split; [done|].
  destruct Hu' as (_ & Hb' & _). cbn [buckets] in Hb'.
  split; [|split; [exact W2|split; [exact W3|]]].
  - unfold NumBuckets in *. cbn [buckets]. by rewrite length_apply_key.
  - apply foldl_alter_wire; [done|apply maphash_range|done].
Qed.

Lemma strata_insert_keys_ok seed keys se :
  Forall is_u64 keys → strata_ok seed se → ∃ se', strata_insert_keys keys se = Ret se' ∧ strata_ok seed se'.
Proof.
  intros Hk. revert se. induction Hk as [|key keys Hkey _ IH]; intros se Hs; simpl; [by eauto|].
  destruct (Strata_Insert_ok seed key se Hkey Hs) as (se1 & -> & H1). by apply IH.
Qed.

Lemma entry_keys_u64 xs : Forall is_u64 (map entry_key xs).
Proof.
  apply Forall_forall. intros key (x & -> & _)%list_elem_of_fmap. exact (HashCausalDot_range (Dot x) (PayloadDigest x)).
Qed.

Lemma estimator_walk seed ss se :
  strata_ok seed se → ∃ se',
  foldl (λ st shardRoot, HAMT_ForEach (λ st (_ : string) entries,
      match st with
      | Ret se => (strata_insert_keys (map entry_key entries) se, true)
      | Panic m => (Panic m, false)
      end) shardRoot st) (Ret se) ss = Ret se' ∧ strata_ok seed se'.
Proof.
  revert se. induction ss as [|h ss IH]; intros se Hs; simpl; [by eauto|]. unfold HAMT_ForEach.
  destruct (root h) as [nd|]; [|by apply IH]. rewrite node_forEach_spec.
  assert (∀ items se, strata_ok seed se → ∃ se', visit_leaves (λ st (_ : string) entries,
      match st with
      | Ret se => (strata_insert_keys (map entry_key entries) se, true)
      | Panic m => (Panic m, false)
      end) items (Ret se) = (Ret se', true) ∧ strata_ok seed se') as Hv.
  { clear. induction items as [|l items IH]; intros se Hs; simpl; [by eauto|].
    destruct (strata_insert_keys_ok seed (map entry_key (crdtEntries l)) se (entry_keys_u64 _) Hs) as (se1 & -> & H1).
    by apply IH. }
  destruct (Hv (node_leaves nd) se Hs) as (se1 & -> & H1). by apply IH.
Qed.

Lemma estimator_ok seed e : seed ≠ 0 → is_u64 seed → ∃ se, GenerateStrataEstimator seed e = Ret se ∧ strata_ok seed se.
Proof.
  intros Hs Hu. apply estimator_walk. split_and!; [apply length_replicate|done|]. apply Forall_replicate. split.
  - apply empty_usable; [done|unfold strataIBLTBuckets; lia].
  - split_and!; cbn [ibltK ibltSeed buckets]; unfold NumBuckets; cbn [buckets];
      [by rewrite length_replicate|done|done|done|by apply Forall_replicate].
Qed.

Lemma engine_keys_u64 e : Forall is_u64 (engine_keys e).
Proof. apply entry_keys_u64. Qed.

(** What a node marshals for its digest frame is what its peer decodes. *)
Lemma length_concat_iblts ts : Forall (λ t, NumBuckets t <= maxIBLTBuckets) ts →
  Z.of_nat (length (concat (map iblt_bytes ts))) <= Z.of_nat (length ts) * (18 + 20 * maxIBLTBuckets).
Proof.
  induction 1 as [|t ts Ht _ IH]; [done|]. cbn [map concat length]. rewrite length_app, length_iblt_bytes.
  unfold NumBuckets in Ht. unfold ibltWireHeaderLen, bucketWireLen. lia.
Qed.

Lemma strata_decodes seed se :
  strata_ok seed se → is_u64 seed →
  ∃ bytes, MarshalStrataEstimator (Some se) = Ok bytes ∧ UnmarshalStrataEstimator bytes = Ok se ∧
    Z.of_nat (length bytes) < 2 ^ 32.
Proof.
  intros (Hl & Hs & Hf) Hu. eexists. split; [done|].
  assert (Forall wire_iblt (strata se)) as Hw by (eapply Forall_impl; [exact Hf|]; by intros t []).
  split; [by apply strata_decode; rewrite ?Hs|].
  assert (Z.of_nat (length (concat (map iblt_bytes (strata se)))) <= 32 * (18 + 20 * maxIBLTBuckets)) as Hb.
  { etrans; [apply length_concat_iblts; eapply Forall_impl; [exact Hw|]; by intros t []|].
    rewrite Hl. done. }
  rewrite !length_app, !length_le_put. cbn [length]. assert (maxIBLTBuckets = 699050) as E by reflexivity. rewrite E in Hb. lia.
Qed.

(** ** What the sweep does with a digest *)

Lemma DeliverDigest_stores id seBytes se ib g :
  length id = 16%nat → Z.of_nat (length seBytes) < 2 ^ 32 → UnmarshalStrataEstimator seBytes = Ok se → wire_iblt ib →
  g_digestRecv g !! id = Some None →
  DeliverDigest (buildDigestFrame id seBytes (iblt_bytes ib)) g =
    with_recv (<[id := Some (mkPeerDigest (Some se) (Some ib))]> (g_digestRecv g)) g.
Proof.
  intros Hid Hl Hse Hib Hch. destruct (digest_frame_fields id seBytes (iblt_bytes ib) Hid Hl) as (E1 & E2 & _).
  unfold DeliverDigest, digestRecvFor. rewrite E1, Hch, E2, Hse.
  rewrite <- (app_nil_r (iblt_bytes ib)), Unmarshal_iblt_bytes by done.
  unfold offer_digest, digestRecvFor. by rewrite Hch.
Qed.

(** The sweep of one peer in which [frame] is what arrives. *)
Record exchange (env : Env) (w : World) (frame : list Z) : Prop := {
  ex_seed : env_seed env (w_seeds w) ≠ 0 ∧ is_u64 (env_seed env (w_seeds w));
  ex_publish : env_publish env (w_pubs w) = true;
  ex_digest : env_digests env (w_waits w) = [frame];
  ex_wait : env_wait env (w_waits w) = WReceived;
}.

(** The frame a node sends for its engine under a seed. *)
Definition own_digest_frame (id : list Z) (seed : Z) (e : Engine) (frame : list Z) : Prop :=
  ∃ se seBytes, GenerateStrataEstimator seed e = Ret se ∧ MarshalStrataEstimator (Some se) = Ok seBytes ∧
    UnmarshalStrataEstimator seBytes = Ok se ∧ Z.of_nat (length seBytes) < 2 ^ 32 ∧
    frame = buildDigestFrame id seBytes (iblt_bytes (digest 1024 4 seed (engine_keys e))).

Lemma own_frame_exists id seed e : seed ≠ 0 → is_u64 seed → ∃ frame, own_digest_frame id seed e frame.
Proof.
  intros Hs Hu. destruct (estimator_ok seed e Hs Hu) as (se & Hse & Hok).
  destruct (strata_decodes seed se Hok Hu) as (bytes & Hm & Hun & Hl). eexists _, se, bytes. split_and!; done.
Qed.

Lemma own_frame_delivered id seed e frame g :
  own_digest_frame id seed e frame → is_u64 seed → length id = 16%nat → g_digestRecv g !! id = Some None →
  ∃ se, DeliverDigest frame g =
    with_recv (<[id := Some (mkPeerDigest (Some se) (Some (digest 1024 4 seed (engine_keys e))))]> (g_digestRecv g)) g.
Proof.
  intros (se & bytes & _ & _ & Hun & Hl & ->) Hu Hid Hch. exists se.
  apply DeliverDigest_stores; try done. apply digest_wire; [done|apply engine_keys_u64].
Qed.

Lemma exchange_delta fuel env w p g seBytes se remote d :
  exchange env w (buildDigestFrame p seBytes (iblt_bytes remote)) → g_stratified g = true → length p = 16%nat →
  Z.of_nat (length seBytes) < 2 ^ 32 → UnmarshalStrataEstimator seBytes = Ok se → wire_iblt remote →
  GenerateDelta fuel remote (g_engine g) = Some (Ret d) →
  ∃ g' w' own, generateSweepDelta fuel env p g w = Some (Ret (d, g', w')) ∧ g_store g' = g_store g ∧
    w_fallbacks w' = w_fallbacks w ∧ w_sent w' = w_sent w ++ [(p, LengthPrefixFrame own)] ∧
    own_digest_frame (ni_NodeID (g_owner g)) (env_seed env (w_seeds w)) (g_engine g) own.
Proof.
  intros [[Hs Hu] Hp Hd Hw] Hst Hlp Hl Hse Hib Hgd. unfold generateSweepDelta. rewrite Hst. cbn [negb].
  set (g1 := registerDigestRecv p g). change (g_engine g1) with (g_engine g). cbn [make_seed].
  set (seed := env_seed env (w_seeds w)) in *. destruct (estimator_ok seed (g_engine g) Hs Hu) as (lse & Hlse & Hlok).
  destruct (strata_decodes seed lse Hlok Hu) as (bytes & Hm & Hun & Hbl).
  rewrite Hlse, GenerateDigest_ret, Hm by done. cbn [MarshalIBLT]. unfold Publish. cbn [w_pubs]. rewrite Hp. cbn [negb].
  cbv beta iota zeta. unfold wait_digest. cbn [w_waits]. rewrite Hd, Hw. cbn [foldl].
  rewrite (DeliverDigest_stores p seBytes se remote g1) by (done || apply lookup_insert_eq).
  unfold digestRecvFor. cbn [with_recv g_digestRecv]. rewrite lookup_insert_eq. cbv beta iota zeta.
  change (g_engine (with_recv _ _)) with (g_engine g). rewrite Hgd.
  eexists _, _, _. split_and!; [reflexivity|done|done|reflexivity|].
  exists lse, bytes. split_and!; done.
Qed.

(** C20. In a stratified round whose digest is published and in which the peer's
    own digest frame arrives in time, the node sends a digest frame that the
    peer's channel decodes to the digest of the node's engine, and generates a
    delta which, joined by the peer as it is (what carries it there is the
    sweep's, stated elsewhere), brings the peer to the union of both states;
    when the peel succeeds it holds only entries the peer lacks, and no fallback
    is counted. Engines are well formed, the peer's open, the sender's dots name
    one entry per entity and are 64-bit, 64-bit keys tell the entries of the two
    states apart, the difference has no hash accident (separates), and the fuel
    is above 1024 + 4 per differing key. *)
Theorem digest_exchange_completes (a : assignment) (fuel : nat) (env : Env) (w : World) (p frame : list Z) (g : Gossiper)
    (seed2 : Z) (e2 : Engine) (common a' b' : list Z) :
  let e1 := g_engine g in
  exchange env w frame → own_digest_frame p seed2 e2 frame → g_stratified g = true → length p = 16%nat →
  length (ni_NodeID (g_owner g)) = 16%nat → is_u64 seed2 → seed2 ≠ 0 →
  wf_engine e1 → wf_engine e2 → closing e2 = false → engine_agrees a e1 →
  (∀ k x, x ∈ PointGet e1 k → is_u64 (DotCounter x)) →
  engine_keys e1 ≡ₚ common ++ a' → engine_keys e2 ≡ₚ common ++ b' → (∀ x, x ∈ a' → x ∉ engine_keys e2) →
  (∀ k x k' y, x ∈ PointGet e1 k → y ∈ PointGet e2 k' → entry_key x = entry_key y → k = k' ∧ x = y) →
  separates seed2 (pos a' ++ neg b') → (1024 + 4 * (length a' + length b') < fuel)%nat →
  ∃ d g' w' own e2', generateSweepDelta fuel env p g w = Some (Ret (d, g', w')) ∧ w_fallbacks w' = w_fallbacks w ∧
    w_sent w' = w_sent w ++ [(p, LengthPrefixFrame own)] ∧
    (∀ gp : Gossiper, g_digestRecv gp !! ni_NodeID (g_owner g) = Some None →
       ∃ se, g_digestRecv (DeliverDigest own gp) !! ni_NodeID (g_owner g) =
         Some (Some (mkPeerDigest (Some se) (Some (digest 1024 4 (env_seed env (w_seeds w)) (engine_keys e1)))))) ∧
    Join (Some (delta_entries d)) e2 = Ret e2' ∧ (∀ k, view e2' k = view e2 k ∪ view e1 k) ∧
    (peelErr d = false → ∀ k x, (k, x) ∈ delta_entries d → x ∉ PointGet e2 k).
Proof.
  intros e1 Hex (se & bytes & _ & _ & Hun & Hl & ->) Hst Hp Hid Hu2 Hs2 H1 H2 Hc Hag Hu Ha Hb Hfr Hsep Hf Hfu.
  destruct (delta_completes a seed2 e1 e2 fuel common a' b' H1 H2 Hc Hag Hu Hs2 Ha Hb Hfr Hsep Hf Hfu)
    as (d & e2' & Hgd & Hj & Hv & Hmin).
  pose proof Hex as [[Hs Hsu] _ _ _].
  destruct (exchange_delta fuel env w p g bytes se _ d Hex Hst Hp Hl Hun (digest_wire _ _ Hu2 (engine_keys_u64 e2)) Hgd)
    as (g' & w' & own & Hrun & _ & Hfb & Hsent & Hown).
  exists d, g', w', own, e2'. split_and!; try done. intros gp Hch.
  destruct (own_frame_delivered _ _ _ _ gp Hown Hsu Hid Hch) as (lse & ->). exists lse. apply lookup_insert_eq.
Qed.

Lemma faithful_nil n k seed : faithful n k seed [].
Proof.
  intros m' ->%sublist_nil_r. split; [|done]. intros i. unfold isPure.
  change (table_of n k seed []) with (replicate n zeroBucket).
  destruct (replicate n zeroBucket !! i) as [b|] eqn:E; [|done]. by apply lookup_replicate in E as [-> _].
Qed.

(** An unsigned digest silences the sweep: anyone who can get a digest frame to
    a node, with another peer's id as its sender and the node's own digest (which
    the node sends out in the clear, under a seed of anyone's choice) as its body,
    makes the delta for that peer empty, whatever that peer lacks.  Nothing is
    reported as a fallback. *)
Theorem forged_digest_silences_sweep (fuel : nat) (env : Env) (w : World) (victim seBytes : list Z) (se : StrataEstimator)
    (seed : Z) (g : Gossiper) :
  let forged := buildDigestFrame victim seBytes (iblt_bytes (digest 1024 4 seed (engine_keys (g_engine g)))) in
  wf_engine (g_engine g) → exchange env w forged → g_stratified g = true → length victim = 16%nat → Z.of_nat (length seBytes) < 2 ^ 32 →
  UnmarshalStrataEstimator seBytes = Ok se → is_u64 seed → seed ≠ 0 → (1024 < fuel)%nat →
  ∃ d g' w', generateSweepDelta fuel env victim g w = Some (Ret (d, g', w')) ∧ delta_entries d = [] ∧
    w_fallbacks w' = w_fallbacks w.
Proof.
  intros forged Hwf Hex Hst Hv Hl Hse Hu Hs Hfu. set (e := g_engine g) in *.
  destruct (reconcile_digests 1024 4 seed (engine_keys e) (engine_keys e) (engine_keys e) [] [] fuel Hs)
    as (diff & r & Hsub & Hpl & Hla & Hra & Hok); [by rewrite app_nil_r..|apply faithful_nil|simpl; lia|].
  assert (∀ l : list Z, (∀ x, x ∈ l → x ∈ []) → l = []) as Hnil.
  { intros [|z l] Hl'; [done|]. exfalso. by apply (not_elem_of_nil z), Hl'; left. }
  apply Hnil in Hla, Hra. assert (peelOk r = true) as Hpk by (apply Hok; by rewrite Hla, Hra).
  set (d := mkDelta (shards e) (sortFunc Z.compare (localHas r)) false (negb (peelOk r))).
  assert (GenerateDelta fuel (digest 1024 4 seed (engine_keys e)) e = Some (Ret d)) as Hgd.
  { unfold GenerateDelta. cbn [ibltSeed digest]. rewrite GenerateDigest_ret by done.
    fold (digest 1024 4 seed (engine_keys e)). by rewrite Hsub, Hpl. }
  destruct (exchange_delta fuel env w victim g seBytes se _ d Hex Hst Hv Hl Hse (digest_wire _ _ Hu (engine_keys_u64 e)) Hgd)
    as (g' & w' & own & Hrun & _ & Hfb & _).
  exists d, g', w'. split_and!; [done| |done].
  destruct (delta_entries d) as [|[k x] l] eqn:E; [done|]. exfalso.
  assert ((k, x) ∈ delta_entries d) as Hin by (rewrite E; by left).
  apply (delta_entries_elem d (routeSeed e)) in Hin as [_ Hin]; [|apply Hwf].
  cbn [d diffNil peelErr sendKeys] in Hin. rewrite Hpk in Hin. cbn [negb orb] in Hin.
  apply in_sendKeys_spec in Hin. rewrite Hla in Hin. by apply elem_of_nil in Hin.
Qed.
End Digest.

(** * A concrete batch codec, and the properties of the sweep applied to a node
    that wrote one entry. *)

Definition marshal_events (evs : list CRDTDeltaEvent) : result string (list Z) :=
  if Z.of_nat (length evs) <? 2 ^ 64 then
    bodies ← foldr (λ ev r, b ← marshal_event ev; bs ← r; Ok (b ++ bs)) (Ok []) evs;
    Ok (le_put 8 (Z.of_nat (length evs)) ++ bodies)
  else Err "too many".

#[export] Instance sample_batch : CapnpBatch sample_capnp := {|
  BatchBuilder := list CRDTDeltaEvent;
  NewRootCRDTDeltaBatch _ := Ok [];
  NewEvents n _ := if (0 <=? n) then Ok (replicate (Z.to_nat n) empty_event) else Err "negative";
  SetScalarAt i f x b := alter (with_scalar f x) i b;
  SetDataAt i f x b := Ok (alter (with_data f x) i b);
  SetTextAt i f x b := Ok (alter (with_text f x) i b);
  MarshalBatch := marshal_events;
|}.

Lemma dec_bodies evs bodies :
  foldr (λ ev r, b ← marshal_event ev; bs ← r; Ok (b ++ bs)) (Ok []) evs = Ok bodies → dec_events (length evs) bodies = evs.
Proof.
  revert bodies. induction evs as [|ev evs IH]; intros bodies H; [done|].
  cbn [foldr] in H. apply result_bind_Ok in H as (b & Hb & H). apply result_bind_Ok in H as (bs & Hbs & H). injection H as <-.
  cbn [length dec_events]. rewrite (dec_enc_event ev b bs Hb). by rewrite IH.
Qed.

#[export] Instance sample_batch_laws : CapnpBatchLaws sample_batch.
Proof.
  apply (Build_CapnpBatchLaws _ sample_batch (λ b : list CRDTDeltaEvent, b)).
  - intros seg b H. by apply Ok_inj in H.
  - intros n b b' H. cbn in H. destruct (Z.leb_spec 0 n); [|done]. apply Ok_inj in H as <-. rewrite length_replicate. lia.
  - done.
  - intros i f x b b' H. by apply Ok_inj in H.
  - intros i f x b b' H. by apply Ok_inj in H.
  - intros b wire H. change (marshal_events b = Ok wire) in H. unfold marshal_events in H.
    destruct (Z.ltb_spec (Z.of_nat (length b)) (2 ^ 64)); [|done]. apply result_bind_Ok in H as (bodies & Hb & <-%Ok_inj).
    set (wire := le_put 8 (Z.of_nat (length b)) ++ bodies) in *.
    assert (8 <= length wire)%nat as H8 by (unfold wire; rewrite length_app, length_le_put; lia).
    assert (get_u64 wire = (Z.of_nat (length b), bodies)) as Hget by (apply get_put_u64; split; lia). clearbody wire.
    exists wire, wire. split; [|split; [reflexivity|]].
    + change (Unmarshal wire) with (if (length wire <? 8)%nat then @Err string (list Z) "EOF" else Ok wire).
      by rewrite (proj2 (Nat.ltb_ge _ _) H8).
    + change ((let '(n, b) := get_u64 wire in @Ok string _ (dec_events (Z.to_nat n) b)) = Ok b).
      rewrite Hget. by rewrite Nat2Z.id, (dec_bodies _ _ Hb).
Defined.

(** Events of fitting size are always built. *)
Lemma genuine_marshals be :
  genuine be → (length (string_bytes (be_EntityID be)) < 1000)%nat → (length (string_bytes (be_Payload be)) < 1000)%nat →
  ∃ b, marshal_event (built_event be) = Ok b.
Proof.
  intros (((H1 & H2 & H3) & _ & U1 & U2 & I1 & I2 & I3 & I4 & I5) & _) Hid Hp. eexists. unfold marshal_event, built_event, event_of.
  cbn [ev_PayloadDigest ev_OriginNodeID ev_DotNodeID ev_EntityId ev_PayloadBytes ev_Version ev_DotCounter ev_H3Index
    ev_SystemTime ev_ValidTimeStart ev_ValidTimeEnd ev_AssertionTime ev_DecisionTime forallb].
  rewrite (proj2 (fits_true CRDTDeltaEventWireVersion)) by (split; unfold CRDTDeltaEventWireVersion; lia).
  rewrite (proj2 (fits_true _) U1), (proj2 (fits_true _) U2), (proj2 (fits_i64_true _) I1), (proj2 (fits_i64_true _) I2),
    (proj2 (fits_i64_true _) I3), (proj2 (fits_i64_true _) I4), (proj2 (fits_i64_true _) I5).
  rewrite !(proj2 (blob_fits_true _)); [reflexivity|..]; unfold is_u64; rewrite ?H1, ?H2, ?H3; lia.
Qed.

Lemma sample_builds evs :
  Forall genuine evs → Forall (λ be, (length (string_bytes (be_EntityID be)) < 1000)%nat ∧ (length (string_bytes (be_Payload be)) < 1000)%nat) evs →
  Z.of_nat (length evs) < 2 ^ 31 → ∃ wire, BuildCRDTDeltaBatch evs = Ok wire.
Proof.
  intros Hg Hs Hl.
  assert (∀ l i b, ∃ b', build_events (CB:=sample_batch) i l b = Ok b') as Hbuild.
  { induction l as [|be l IH]; intros i b; [by eexists|]. cbn [build_events]. unfold build_event. cbv zeta.
    repeat (cbn [SetDataAt SetTextAt sample_batch wrap_batch mbind result_bind]). apply IH. }
  assert (∃ bodies, foldr (λ ev r, b ← marshal_event ev; bs ← r; Ok (b ++ bs)) (Ok []) (map built_event evs) = Ok bodies) as [bodies Hbod].
  { clear Hl. induction Hg as [|be evs Hbe _ IH]; [by eexists|]. inversion_clear Hs as [|? ? [S1 S2] S3].
    destruct (IH S3) as [bodies Hb], (genuine_marshals be Hbe S1 S2) as [b Hm].
    cbn [map foldr]. rewrite Hm, Hb. by eexists. }
  destruct evs as [|be evs']; [eexists; reflexivity|].
  set (n := i32 (Z.of_nat (length (be :: evs')))) in *.
  assert (n = Z.of_nat (length (be :: evs'))) as Hn by (apply i32_id; unfold is_i32; lia).
  destruct (Hbuild (be :: evs') 0%nat (replicate (Z.to_nat n) empty_event)) as [b' Hb'].
  exists (le_put 8 (Z.of_nat (length (be :: evs'))) ++ bodies).
  unfold BuildCRDTDeltaBatch. cbn [NewMessage sample_capnp wrap_batch mbind result_bind NewRootCRDTDeltaBatch NewEvents sample_batch].
  fold n. rewrite (proj2 (Z.leb_le 0 n)) by lia. cbn [wrap_batch mbind result_bind]. rewrite Hb'. cbn [mbind result_bind MarshalBatch sample_batch].
  assert (b' = map built_event (be :: evs')) as ->.
  { assert (Forall (λ be, sized_entry (be_Entry be)) (be :: evs')) as Hz by (eapply Forall_impl; [exact Hg|]; by intros ? []).
    destruct (build_events_contents (CL:=sample_batch_laws) _ _ _ _ Hz Hb') as (Hlen & _ & Hev). cbn in Hlen, Hev.
    rewrite length_replicate in Hlen, Hev. apply list_eq. intros j. rewrite (list_lookup_fmap built_event).
    destruct ((be :: evs') !! j) as [be'|] eqn:E.
    - pose proof (lookup_lt_Some _ _ _ E). apply (Hev j be' E). cbn [length] in *. lia.
    - apply lookup_ge_None in E. apply lookup_ge_None. rewrite Hlen. cbn [length] in *. lia. }
  unfold marshal_events. rewrite length_map. rewrite (proj2 (Z.ltb_lt _ _)) by lia. rewrite Hbod. reflexivity.
Qed.

(** ** A node that wrote one entry *)

#[local] Existing Instances fnv_maphash insertion_SliceSort.

Definition sample_owner : NodeIdentity (SG:=mod_signer) :=
  mkIdentity (replicate 16 2) (replicate 32 5) (PublicFromSeed (Signer:=mod_signer) (replicate 32 5)) None None.

Definition new_node : Gossiper (SG:=mod_signer) :=
  SetBatchSize 100 (NewGossiper sample_owner (SBare (sample_engine 2 9)) NewDirectory).

Definition sample_write : outcome (CausalDot * Gossiper (SG:=mod_signer)) :=
  InsertLocalEvents "a" "hello" (sample_entry 0 0 0) WrOk true 0 new_node.

Definition sample_node : Gossiper (SG:=mod_signer) :=
  match sample_write with Ret (_, g) => g | Panic _ => new_node end.

Lemma new_node_ok : gossiper_ok new_node.
Proof.
  split; [apply sample_engine_wf|apply sample_engine_dominates|reflexivity|reflexivity| |].
  - intros k d p H. change ((∅ : gmap payloadKey string) !! (k, d) = Some p) in H. by rewrite lookup_empty in H.
  - intros k x p H. change (x ∈ PointGet (sample_engine 2 9) k) in H. unfold sample_engine in H.
    rewrite PointGet_new in H. by apply elem_of_nil in H.
Qed.

Lemma sample_meta : sized_meta (sample_entry 0 0 0).
Proof. split_and!; split; vm_compute; done. Qed.

Definition sample_env : Env :=
  mkEnv (λ _, false) (λ _, Some (replicate 64 3)) (λ _, []) (λ _, true) (λ _, 7) (λ _, []) (λ _, WTimer).
Definition world0 : World := mkWorld 0 0 0 0 0 0 0 [].

(** The node after the write. *)
Lemma sample_node_ok :
  gossiper_ok sample_node ∧ g_owner sample_node = sample_owner ∧
  (∃ dot, written (g_engine sample_node) "a" dot "hello" ∧
     g_cache sample_node = cache_record "a" dot "hello" newPayloadCache) ∧
  lamportCounter (clk (g_engine sample_node)) = 1.
Proof.
  assert (is_bytes (replicate 16 2)) as Hb by (apply Forall_replicate; split; lia).
  destruct (insert_written (replicate 16 2) eq_refl Hb "a" "hello" (sample_entry 0 0 0)
    (sample_engine 2 9) newPayloadCache new_node_ok sample_meta ltac:(vm_compute; done)) as (dot & e' & Hi & Hs & Hw & Hl & _).
  assert (sample_write = Ret (dot, with_store_cache (SBare e') (cache_record "a" dot "hello" newPayloadCache) new_node)) as E.
  { unfold sample_write, InsertLocalEvents. cbn [g_store new_node SetBatchSize NewGossiper]. unfold InsertLocalEvents_noBridge.
    change (with_digest ?d ?x) with (set_digest d x). by rewrite Hi. }
  unfold sample_node. rewrite E. split_and!; [exact (record_ok (replicate 16 2) "a" dot "hello" e' newPayloadCache Hs Hw)|done| |exact Hl].
  exists dot. split; [exact Hw|reflexivity].
Qed.

(** Every event of the plan is the entry that was written. *)
Lemma sample_events evs :
  evs ∈ own_batches (sweep_plan sample_node) →
  Z.of_nat (length evs) <= 256 ∧ Forall genuine evs ∧
  Forall (λ be, be_EntityID be = "a" ∧ be_Payload be = "hello" ∧ DotCounter (be_Entry be) <= 1) evs.
Proof.
  intros Hin%own_batches_elem. destruct sample_node_ok as (Hok & Hown & (dot & _ & Hc) & Hlam).
  pose proof (clamp_range (g_batchSize sample_node)) as Hcl. unfold MaxBatchSize in Hcl.
  destruct (sweep_plan_events sample_node evs Hin) as [Hl Hev]. split; [lia|]. clear Hin.
  rewrite Forall_forall in Hev.
  pose proof Hok as [Hwf Hdom _ _ _ Hgen].
  split; apply Forall_forall; intros [k p x] (Hin' & Ho & Hlk)%Hev; apply (full_delta_elem _ _ _ Hwf) in Hin'.
  - exact (Hgen _ _ _ Hin' Ho Hlk).
  - cbn [be_EntityID be_Payload be_Entry] in *. rewrite Hc in Hlk. unfold cache_lookup, cache_record in Hlk. cbn [cache_m newPayloadCache] in Hlk.
    destruct (decide ((k, Dot x) = ("a", dot))) as [E|Hne].
    + rewrite E, lookup_insert_eq in Hlk. injection E as -> _. injection Hlk as <-. split_and!; [done|done|]. rewrite <- Hlam. exact (Hdom _ _ Hin').
    + by rewrite lookup_insert_ne, lookup_empty in Hlk.
Qed.

Lemma sample_healthy : healthy sample_env sample_node (own_batches (sweep_plan sample_node)).
Proof.
  split; try done.
  - intros evs (Hl & Hg & Hf)%sample_events. apply sample_builds; [done| |lia].
    eapply Forall_impl; [exact Hf|]. intros be (-> & -> & _). split; vm_compute; lia.
  - intros n wire evs _ _. unfold sign_envelope. destruct sample_node_ok as (_ & -> & _).
    assert (g_hybridSign sample_node = false) as -> by (vm_compute; reflexivity).
    destruct (sign_verifies (SL:=mod_laws) (replicate 64 3) (replicate 32 5) wire eq_refl) as (sig & Hs & _).
    change (env_rand sample_env n) with (Some (replicate 64 3)). change (ni_Seed sample_owner) with (replicate 32 5). rewrite Hs.
    eexists. reflexivity.
Qed.

(** Node 3, which knows node 2. *)
Definition sample_peer : Receiver (CR:=mod_crypto) :=
  mkReceiver NewPeerBucket (mkDirectory {[replicate 16 2 := PublicFromSeed (Signer:=mod_signer) (replicate 32 5)]} ∅)
    (sample_engine 3 9) 4 false (mkHooks false false false false false) ∅.

Lemma sample_peer_ready evs : OwnBatch evs ∈ sweep_plan sample_node → ready sample_owner evs sample_peer.
Proof.
  intros (_ & _ & Hf)%own_batches_elem%sample_events. split; [|apply lookup_singleton_eq|done|].
  - split_and!; [apply sample_engine_wf|apply sample_engine_dominates|reflexivity|apply NewPeerBucket_ok].
  - eapply Forall_impl; [exact Hf|]. intros be (_ & _ & Hc). etrans; [exact Hc|]. vm_compute. discriminate.
Qed.

Lemma sample_targets : sweep_targets [replicate 16 3] [] sample_node = [replicate 16 3].
Proof. vm_compute. reflexivity. Qed.

Lemma sweep_sends_plan_witness :
  ∃ st g' w' mint, AntiEntropySweep 0 sample_env [replicate 16 3] [] sample_node world0 = Some (Ret (st, g', w')) ∧
    w_sent w' = to_peers [replicate 16 3] (render (sweep_plan sample_node) mint) ∧ length mint = 1%nat ∧
    g_batchSeq g' = 1.
Proof.
  assert (length (own_batches (sweep_plan sample_node)) = 1%nat) as H1 by (vm_compute; reflexivity).
  assert (others sample_node (sweep_targets [replicate 16 3] [] sample_node) = [replicate 16 3]) as HT by (vm_compute; reflexivity).
  destruct (sweep_sends_plan 0 sample_env [replicate 16 3] [] sample_node world0 sample_healthy) as (st & g' & w' & mint & E1 & E2 & _ & E4 & E5 & _).
  - vm_compute. reflexivity.
  - vm_compute. reflexivity.
  - vm_compute. discriminate.
  - rewrite H1. vm_compute. reflexivity.
  - rewrite HT in E2, E4. exists st, g', w', mint. split; [exact E1|]. split; [exact E2|].
    rewrite H1 in E4. assert (length mint = 1%nat) as Hm by (apply E4; discriminate). split; [exact Hm|].
    rewrite E5, Hm. vm_compute. reflexivity.
Defined.

Lemma sweep_reaches_peer_witness :
  ∃ st g' w' f r' hs y dot, AntiEntropySweep 0 sample_env [replicate 16 3] [] sample_node world0 = Some (Ret (st, g', w')) ∧
    (replicate 16 3, LengthPrefixFrame f) ∈ w_sent w' ∧
    DispatchFrame 0 0 f sample_peer = Ret (mkVerdict VAccept RNone, r', hs) ∧
    view (rv_engine r') "a" !! dot = Some y ∧ PayloadDigest y = Sum256 (string_bytes "hello").
Proof.
  destruct sample_node_ok as (Hok & Hown & (dot & (x & Hx & Hd & Ho & Hg) & Hc) & _).
  assert (localNodeID (g_engine sample_node) = ni_NodeID (g_owner sample_node)) as Hid by apply Hok.
  destruct (sweep_reaches_peer (SL:=mod_laws) 0 sample_env [replicate 16 3] [] sample_node world0 (replicate 16 3) sample_healthy)
    as (st & g' & w' & sent & E1 & E2 & E3 & _).
  - vm_compute. reflexivity.
  - vm_compute. reflexivity.
  - vm_compute. reflexivity.
  - apply Hok.
  - rewrite Hown. split; reflexivity.
  - by apply gossiper_ok_genuine.
  - vm_compute. discriminate.
  - vm_compute. reflexivity.
  - rewrite sample_targets. by left.
  - rewrite Hown. discriminate.
  - destruct (E3 "a" x "hello" Hx) as (f & evs & F1 & F2 & _ & F4).
    + rewrite Ho. exact Hid.
    + rewrite Hc, Hd. apply lookup_insert_eq.
    + rewrite Hown in F4. destruct (F4 0 0 sample_peer (sample_peer_ready evs F2)) as (r' & hs & y & G1 & _ & G3 & G4).
      exists st, g', w', f, r', hs, y, (Dot x). split; [exact E1|]. split; [rewrite E2; exact F1|].
      split; [exact G1|]. split; [exact G3|]. rewrite G4; [apply Hg|].
      change (view (sample_engine 3 9) "a" !! Dot x = None). unfold view, sample_engine. rewrite PointGet_new. reflexivity.
Defined.

Lemma local_writes_shippable_witness :
  ∃ dot g', InsertLocalEvents "a" "hello" (sample_entry 0 0 0) WrOk true 0 new_node = Ret (dot, g') ∧
    cache_lookup "a" dot (g_cache g') = Some "hello".
Proof.
  destruct (local_writes_shippable "a" "hello" (sample_entry 0 0 0) [] WrOk (λ _, WrOk) true 0 new_node new_node_ok)
    as [(dot & g' & E1 & _ & _ & E2) _].
  - reflexivity.
  - apply Forall_replicate. split; lia.
  - exact sample_meta.
  - constructor.
  - vm_compute. discriminate.
  - exists dot, g'. split; [exact E1|]. destruct E2 as [(_ & _ & (b & Hb))|[_ E2]]; [discriminate Hb|exact E2].
Defined.

(** ** Digests *)

Definition digest_node : Gossiper (SG:=mod_signer) :=
  SetStratifiedAntiEntropy true (NewGossiper sample_owner (SBare sender) NewDirectory).

Definition digest_env (frame : list Z) : Env :=
  mkEnv (λ _, false) (λ _, None) (λ _, []) (λ _, true) (λ _, 11) (λ _, [frame]) (λ _, WReceived).

Lemma digest_exchange_ok frame : exchange (digest_env frame) world0 frame.
Proof. split; [|done..]. split; [done|split; [done|reflexivity]]. Qed.

Lemma digest_exchange_completes_witness :
  ∃ frame d g' w' e2', generateSweepDelta 2000 (digest_env frame) (replicate 16 5) digest_node world0 = Some (Ret (d, g', w')) ∧
    Join (Some (delta_entries d)) (sample_engine 5 2) = Ret e2' ∧
    ∀ k, view e2' k = view (sample_engine 5 2) k ∪ view sender k.
Proof.
  destruct (own_frame_exists (replicate 16 5) 7 (sample_engine 5 2)) as [frame Hf]; [done|split; [done|reflexivity]|].
  assert (length (engine_keys sender) = 3%nat) as Hl by (vm_compute; reflexivity).
  assert (engine_keys (sample_engine 5 2) = []) as H0 by (vm_compute; reflexivity).
  destruct (digest_exchange_completes sample_assignment 2000 (digest_env frame) world0 (replicate 16 5) frame digest_node 7
    (sample_engine 5 2) [] (engine_keys sender) [] (digest_exchange_ok frame) Hf)
    as (d & g' & w' & own & e2' & E1 & _ & _ & _ & E2 & E3 & _).
  - reflexivity.
  - reflexivity.
  - reflexivity.
  - split; [done|reflexivity].
  - done.
  - exact sender_wf.
  - apply sample_engine_wf.
  - reflexivity.
  - exact sender_agrees.
  - exact sender_counters.
  - reflexivity.
  - rewrite H0. reflexivity.
  - intros x _. rewrite H0. apply not_elem_of_nil.
  - intros k x k' y _ Hy. unfold sample_engine in Hy. rewrite PointGet_new in Hy. by apply elem_of_nil in Hy.
  - exact sender_separates.
  - rewrite Hl. cbn [length]. lia.
  - exists frame, d, g', w', e2'. split; [exact E1|]. split; [exact E2|exact E3].
Defined.

(** Node 5 lacks all three entries; the forged frame makes the delta empty. *)
Lemma forged_digest_silences_sweep_witness :
  length (engine_keys sender) = 3%nat ∧
  ∃ frame d g' w', generateSweepDelta 2000 (digest_env frame) (replicate 16 5) digest_node world0 = Some (Ret (d, g', w')) ∧
    delta_entries d = [].
Proof.
  split; [vm_compute; reflexivity|].
  destruct (estimator_ok 7 sender) as (se & _ & Hok); [done|split; [done|reflexivity]|].
  destruct (strata_decodes 7 se Hok) as (bytes & _ & Hun & Hl); [split; [done|reflexivity]|].
  destruct (forged_digest_silences_sweep 2000
    (digest_env (buildDigestFrame (replicate 16 5) bytes (iblt_bytes (digest 1024 4 7 (engine_keys sender)))))
    world0 (replicate 16 5) bytes se 7 digest_node sender_wf (digest_exchange_ok _)) as (d & g' & w' & E1 & E2 & _).
  - reflexivity.
  - reflexivity.
  - exact Hl.
  - exact Hun.
  - split; [done|reflexivity].
  - done.
  - lia.
  - eexists _, d, g', w'. split; [exact E1|exact E2].
Defined.
