(* ===== verification/CommitWindow.v ===== *)
(** The commit window (pkg/mesh/gossip.go, batch.go): concurrent local writes,
    the commitInFlight counter around them, and a sweep that classifies an own
    entry without a payload.  One step is one action on the shared state: a change
    of the counter, an insert into the engine, the log's answer, a record into
    the payload cache; the sweep's lookup and its load of the counter are two
    steps. *)
From S2P Require Import Prelude Bytes Dots PayloadStore.

(** Where a call of InsertLocalEvents or InsertLocalEventsBatch stands. *)
Inductive Writer :=
(** with a log: entries still to insert, entries inserted *)
| WInserting (todo ins : list payloadKey)
(** the log has answered without an error: payloads still to record *)
| WRecording (todo : list payloadKey)
(** without a log: entries still to insert and record *)
| WMem (todo : list payloadKey)
(** ... and one inserted and not yet recorded *)
| WMemInserted (d : payloadKey) (todo : list payloadKey).

Inductive SweepAt := SIdle | SMissed (d : payloadKey).

Record Window := mkWindow {
  commitInFlight : Z;
  visible : gset payloadKey;
  recorded : gset payloadKey;
  (* entries whose log append failed *)
  orphans : gset payloadKey;
  writers : gmap nat Writer;
  sweep_at : SweepAt;
  misses : list payloadKey;
  pending : list payloadKey;
}.

Definition quiet : Window := mkWindow 0 ∅ ∅ ∅ ∅ SIdle [] [].

Inductive window_step : Window → Window → Prop :=
(** commitInFlight.Add(1), with and without a bridge *)
| ws_begin i ds n v r o ws sw ms ps : ws !! i = None →
    window_step (mkWindow n v r o ws sw ms ps) (mkWindow (n + 1) v r o (<[i := WInserting ds []]> ws) sw ms ps)
| ws_begin_mem i ds n v r o ws sw ms ps : ws !! i = None →
    window_step (mkWindow n v r o ws sw ms ps) (mkWindow (n + 1) v r o (<[i := WMem ds]> ws) sw ms ps)
| ws_insert i d ds ins n v r o ws sw ms ps : ws !! i = Some (WInserting (d :: ds) ins) →
    window_step (mkWindow n v r o ws sw ms ps)
      (mkWindow n ({[d]} ∪ v) r o (<[i := WInserting ds (d :: ins)]> ws) sw ms ps)
(** the append and its fsync *)
| ws_logged i ins n v r o ws sw ms ps : ws !! i = Some (WInserting [] ins) →
    window_step (mkWindow n v r o ws sw ms ps) (mkWindow n v r o (<[i := WRecording ins]> ws) sw ms ps)
| ws_log_failed i ins n v r o ws sw ms ps : ws !! i = Some (WInserting [] ins) →
    window_step (mkWindow n v r o ws sw ms ps)
      (mkWindow (n - 1) v r (list_to_set ins ∪ o) (delete i ws) sw ms ps)
| ws_record i d ds n v r o ws sw ms ps : ws !! i = Some (WRecording (d :: ds)) →
    window_step (mkWindow n v r o ws sw ms ps) (mkWindow n v ({[d]} ∪ r) o (<[i := WRecording ds]> ws) sw ms ps)
| ws_end i n v r o ws sw ms ps : ws !! i = Some (WRecording []) →
    window_step (mkWindow n v r o ws sw ms ps) (mkWindow (n - 1) v r o (delete i ws) sw ms ps)
| ws_mem_insert i d ds n v r o ws sw ms ps : ws !! i = Some (WMem (d :: ds)) →
    window_step (mkWindow n v r o ws sw ms ps) (mkWindow n ({[d]} ∪ v) r o (<[i := WMemInserted d ds]> ws) sw ms ps)
| ws_mem_record i d ds n v r o ws sw ms ps : ws !! i = Some (WMemInserted d ds) →
    window_step (mkWindow n v r o ws sw ms ps) (mkWindow n v ({[d]} ∪ r) o (<[i := WMem ds]> ws) sw ms ps)
| ws_mem_end i n v r o ws sw ms ps : ws !! i = Some (WMem []) →
    window_step (mkWindow n v r o ws sw ms ps) (mkWindow (n - 1) v r o (delete i ws) sw ms ps)
(** the sweep looks up the payload of an own entry *)
| ws_hit d n v r o ws ms ps : d ∈ v → d ∈ r →
    window_step (mkWindow n v r o ws SIdle ms ps) (mkWindow n v r o ws SIdle ms ps)
| ws_miss d n v r o ws ms ps : d ∈ v → d ∉ r →
    window_step (mkWindow n v r o ws SIdle ms ps) (mkWindow n v r o ws (SMissed d) ms ps)
(** ... and loads the counter *)
| ws_pending d n v r o ws ms ps : 0 < n →
    window_step (mkWindow n v r o ws (SMissed d) ms ps) (mkWindow n v r o ws SIdle ms (d :: ps))
| ws_orphan d n v r o ws ms ps : ¬ 0 < n →
    window_step (mkWindow n v r o ws (SMissed d) ms ps) (mkWindow n v r o ws SIdle (d :: ms) ps).

(** ** The invariant *)

(** The entries a writer has made visible and will still record, or orphan. *)
Definition in_hand (w : Writer) : gset payloadKey :=
  match w with
  | WInserting _ ins => list_to_set ins
  | WRecording todo => list_to_set todo
  | WMem _ => ∅
  | WMemInserted d _ => {[d]}
  end.

(** Every visible entry is recorded, orphaned, or in some writer's hands. *)
Definition accounted (v r o : gset payloadKey) (ws : gmap nat Writer) : Prop :=
  ∀ d, d ∈ v → d ∈ r ∨ d ∈ o ∨ ∃ i w, ws !! i = Some w ∧ d ∈ in_hand w.

Record window_ok (s : Window) : Prop := {
  wo_count : commitInFlight s = Z.of_nat (size (writers s));
  wo_visible : accounted (visible s) (recorded s) (orphans s) (writers s);
  wo_missed : ∀ d, sweep_at s = SMissed d → d ∈ visible s;
  wo_misses : ∀ d, d ∈ misses s → d ∈ recorded s ∨ d ∈ orphans s;
}.

Lemma quiet_ok : window_ok quiet.
Proof. split; [done|by intros d ?%elem_of_empty|done|by intros d ?%elem_of_nil]. Qed.

(** A writer moves on: what it held, and what it makes visible, it holds now, or
    it is recorded or orphaned. *)
Lemma writer_moves v v' r r' o o' ws ws' i w w' :
  accounted v r o ws → ws !! i = Some w → (∀ j, j ≠ i → ws' !! j = ws !! j) → ws' !! i = w' →
  r ⊆ r' → o ⊆ o' → (∀ d, d ∈ v' → d ∈ v ∨ d ∈ from_option in_hand ∅ w') →
  in_hand w ⊆ r' ∪ o' ∪ from_option in_hand ∅ w' → accounted v' r' o' ws'.
Proof.
  intros Hv Hi Hj Hi' Hr Ho Hnew Hw d Hd.
  assert (d ∈ from_option in_hand ∅ w' → ∃ i w, ws' !! i = Some w ∧ d ∈ in_hand w) as Hhand.
  { destruct w' as [w'|]; [|by intros ?%elem_of_empty]. eauto. }
  destruct (Hnew d Hd) as [Hdv|?]; [|by auto].
  destruct (Hv d Hdv) as [?|[?|(j & w0 & Hj0 & Hin)]]; [set_solver..|].
  destruct (decide (j = i)) as [->|Hne].
  - rewrite Hi in Hj0. injection Hj0 as <-. specialize (Hw d Hin).
    apply elem_of_union in Hw as [[?|?]%elem_of_union|?]; auto.
  - right. right. exists j, w0. by rewrite Hj.
Qed.

Lemma accounted_new v r o ws i w : accounted v r o ws → ws !! i = None → accounted v r o (<[i := w]> ws).
Proof.
  intros Hv Hi d Hd. destruct (Hv d Hd) as [?|[?|(j & w0 & Hj & ?)]]; [auto..|]. right. right. exists j, w0.
  rewrite lookup_insert_ne; [done|]. intros ->. congruence.
Qed.

Lemma size_update (ws : gmap nat Writer) i w w' : ws !! i = Some w → size (<[i := w']> ws) = size ws.
Proof. intros H. apply map_size_insert_Some. by eexists. Qed.

Lemma size_remove (ws : gmap nat Writer) i w : ws !! i = Some w → Z.of_nat (size (delete i ws)) = Z.of_nat (size ws) - 1.
Proof.
  intros H. rewrite map_size_delete_Some by (by eexists).
  assert (size ws ≠ 0%nat); [|lia]. intros E0. apply map_size_empty_inv in E0. subst. by rewrite lookup_empty in H.
Qed.

Lemma size_add (ws : gmap nat Writer) i w : ws !! i = None → Z.of_nat (size (<[i := w]> ws)) = Z.of_nat (size ws) + 1.
Proof. intros H. rewrite map_size_insert_None by done. lia. Qed.

(** What every step but the sweep's report keeps. *)
Lemma window_ok_writers n n' v v' r r' o o' ws ws' sw ms ps :
  window_ok (mkWindow n v r o ws sw ms ps) →
  n' - n = Z.of_nat (size ws') - Z.of_nat (size ws) → accounted v' r' o' ws' → v ⊆ v' → r ⊆ r' → o ⊆ o' →
  window_ok (mkWindow n' v' r' o' ws' sw ms ps).
Proof.
  intros [Hn Hv Hm Hp] Hn' Hv' Hvv Hr Ho. split; cbn in *; [lia|done|set_solver|set_solver].
Qed.

Lemma window_step_ok s s' : window_step s s' → window_ok s → window_ok s'.
Proof.
  intros Hs Hok. pose proof Hok as [Hn Hv Hm Hp].
  destruct Hs as [i ds n v r o ws sw ms ps Hi|i ds n v r o ws sw ms ps Hi|i d ds ins n v r o ws sw ms ps Hi
    |i ins n v r o ws sw ms ps Hi|i ins n v r o ws sw ms ps Hi|i d ds n v r o ws sw ms ps Hi|i n v r o ws sw ms ps Hi
    |i d ds n v r o ws sw ms ps Hi|i d ds n v r o ws sw ms ps Hi|i n v r o ws sw ms ps Hi|d n v r o ws ms ps Hd Hr
    |d n v r o ws ms ps Hd Hr|d n v r o ws ms ps Hlt|d n v r o ws ms ps Hlt]; cbn in *.
  1, 2: eapply window_ok_writers; [exact Hok|rewrite size_add by done; lia|by apply accounted_new|set_solver..].
  1, 2, 4, 6, 7: eapply window_ok_writers; [exact Hok|rewrite (size_update _ _ _ _ Hi); lia| |set_solver..];
    eapply writer_moves; [exact Hv|exact Hi|by intros; rewrite lookup_insert_ne|apply lookup_insert_eq|set_solver..].
  1, 2, 3: eapply window_ok_writers; [exact Hok|rewrite (size_remove _ _ _ Hi); lia| |set_solver..];
    eapply writer_moves; [exact Hv|exact Hi|by intros; rewrite lookup_delete_ne|apply lookup_delete_eq|set_solver..].
  - done.
  - split; cbn; [done|done|by intros ? [= <-]|done].
  - split; cbn; [done|done|done|done].
  - split; cbn; [done|done|done|]. intros d' [->|Hd']%elem_of_cons; [|by apply Hp].
    destruct (Hv d (Hm d eq_refl)) as [?|[?|(i & w & Hi & _)]]; [auto..|]. exfalso.
    assert (size ws = 0%nat) as E by lia. apply map_size_empty_inv in E. subst. by rewrite lookup_empty in Hi.
Qed.

Lemma window_run_ok s : rtc window_step quiet s → window_ok s.
Proof.
  intros Hr. pose proof quiet_ok as H. revert Hr H. generalize quiet. induction 1; intros; [done|].
  eauto using window_step_ok.
Qed.

(** ** Properties *)

(** What the orphan alarm means.  In every reachable state the counter is zero
    exactly when no commit is under way, and then an own entry without a payload is
    one whose log append failed; so a lookup that misses while the counter is zero
    has found an orphan.  But the sweep reads the counter after the lookup: every
    reported miss is an orphan or an entry recorded in between, and the second
    happens: there is a run without any log failure that reports, as an orphan, an
    entry whose payload is already recorded. *)
Theorem orphan_alarm (d0 : payloadKey) :
  (∀ s, rtc window_step quiet s →
     (commitInFlight s = 0 ↔ writers s = ∅) ∧
     (commitInFlight s = 0 → ∀ d, d ∈ visible s → d ∉ recorded s → d ∈ orphans s) ∧
     (∀ d, d ∈ misses s → d ∈ orphans s ∨ d ∈ recorded s)) ∧
  (∃ s, rtc window_step quiet s ∧ misses s = [d0] ∧ d0 ∈ recorded s ∧ orphans s = ∅ ∧ commitInFlight s = 0).
Proof.
  split.
  - intros s Hr%window_run_ok. destruct Hr as [Hn Hv _ Hp].
    assert (commitInFlight s = 0 ↔ writers s = ∅) as Hz.
    { rewrite Hn. split; [|intros ->; by rewrite map_size_empty]. intros E. apply map_size_empty_inv. lia. }
    split_and!; [done| |intros d Hd; destruct (Hp d Hd); auto].
    intros E%Hz d Hd Hnr. destruct (Hv d Hd) as [?|[?|(i & w & Hi & _)]]; [done|done|]. by rewrite E, lookup_empty in Hi.
  - eexists (mkWindow 0 {[d0]} {[d0]} ∅ ∅ SIdle [d0] []). split_and!; [|done|set_solver|done|done].
    eapply rtc_l; [apply (ws_begin_mem 0 [d0]); done|]. cbn.
    eapply rtc_l; [apply (ws_mem_insert 0 d0 []); done|].
    eapply rtc_l; [apply (ws_miss d0); set_solver|].
    eapply rtc_l; [apply (ws_mem_record 0 d0 []); done|].
    eapply rtc_l; [apply (ws_mem_end 0); done|].
    eapply rtc_l; [apply (ws_orphan d0); lia|].
    assert ({[d0]} ∪ ∅ = ({[d0]} : gset payloadKey)) as -> by set_solver. apply rtc_refl.
Qed.
