(* ===== verification/PeerSet.v ===== *)
(** The peer set (pkg/mesh/peer.go): outbound and inbound connections under two
    keys (node id and address), their liveness, release by handle, eviction of
    dead entries, and the backoff of the reconnect loop.

    Connections live in a heap and the maps hold their addresses, as the code's
    maps hold *peerConn: identity is the address.  An operation is the part of
    a method under the lock with the effects that follow it; a dial is two
    operations, the check and the installation, with the network in between. *)
From S2P Require Import Prelude Bytes Dots Reconstruct.

(** ** The node id in a certificate *)

Definition fromHexChar (c : Z) : option Z :=
  if (48 <=? c) && (c <=? 57) then Some (c - 48)
  else if (97 <=? c) && (c <=? 102) then Some (c - 97 + 10)
  else if (65 <=? c) && (c <=? 70) then Some (c - 65 + 10)
  else None.

(** hex.DecodeString *)
Fixpoint hex_DecodeString (s : list Z) : option (list Z) :=
  match s with
  | [] => Some []
  | [_] => None
  | p :: q :: s' =>
      match fromHexChar p, fromHexChar q, hex_DecodeString s' with
      | Some a, Some b, Some rest => Some (a * 16 + b :: rest)
      | _, _, _ => None
      end
  end.

(** [cn]: the CommonName of the peer's leaf, [None] without certificates. *)
Definition nodeIDFromConn (cn : option string) : option (list Z) :=
  match cn with
  | None => None
  | Some cn =>
      if bool_decide (cn = "") then None
      else match hex_DecodeString (string_bytes cn) with
           | Some nid => if (length nid =? 16)%nat then Some nid else None
           | None => None
           end
  end.

(** ** State *)

(** [pc_reader]: [None] without a reader goroutine (an inbound connection), else
    whether its context was cancelled. *)
Record peerConn := mkConn {
  pc_addr : string;
  pc_peerID : list Z;
  pc_done : bool;
  pc_closed : bool;
  pc_reader : option bool;
}.

Record PeerSet := mkPeerSet {
  ps_heap : gmap nat peerConn;
  ps_next : nat;
  ps_peers : gmap (list Z) nat;
  ps_byAddr : gmap string nat;
  ps_autoReconcile : bool;
}.

Definition NewPeerSet : PeerSet := mkPeerSet ∅ 0 ∅ ∅ false.
Definition SetAutoReconcile (on : bool) (ps : PeerSet) : PeerSet :=
  mkPeerSet (ps_heap ps) (ps_next ps) (ps_peers ps) (ps_byAddr ps) on.

Definition set_heap (h : gmap nat peerConn) (ps : PeerSet) : PeerSet :=
  mkPeerSet h (ps_next ps) (ps_peers ps) (ps_byAddr ps) (ps_autoReconcile ps).
Definition set_maps (peers : gmap (list Z) nat) (byAddr : gmap string nat) (ps : PeerSet) : PeerSet :=
  mkPeerSet (ps_heap ps) (ps_next ps) peers byAddr (ps_autoReconcile ps).

Definition mark_done (pc : peerConn) : peerConn := mkConn (pc_addr pc) (pc_peerID pc) true (pc_closed pc) (pc_reader pc).
Definition mark_closed (pc : peerConn) : peerConn := mkConn (pc_addr pc) (pc_peerID pc) (pc_done pc) true (pc_reader pc).
Definition mark_cancelled (pc : peerConn) : peerConn :=
  mkConn (pc_addr pc) (pc_peerID pc) (pc_done pc) (pc_closed pc) (match pc_reader pc with Some _ => Some true | None => None end).

(** Effects on one connection. *)
Definition touch (f : peerConn → peerConn) (c : nat) (ps : PeerSet) : PeerSet := set_heap (alter f c (ps_heap ps)) ps.
Definition closeDone : nat → PeerSet → PeerSet := touch mark_done.
Definition conn_Close : nat → PeerSet → PeerSet := touch mark_closed.
Definition cancelReader : nat → PeerSet → PeerSet := touch mark_cancelled.

(** The select on the done channel. *)
Definition is_done (ps : PeerSet) (c : nat) : bool := default false (pc_done <$> ps_heap ps !! c).

(** ** Dial *)

(** Up to the dial: [None] when the address has a live connection. *)
Definition dial_check (addr : string) (ps : PeerSet) : option PeerSet :=
  match ps_byAddr ps !! addr with
  | Some existing => if is_done ps existing then Some (conn_Close existing ps) else None
  | None => Some ps
  end.

Definition reconcilePeerID (cn : option string) : option (list Z) := nodeIDFromConn cn.

(** From a dialled connection on. *)
Definition dial_install (addr : string) (peerID : list Z) (cn : option string) (ps : PeerSet) : PeerSet :=
  let effectivePeerID :=
    if ps_autoReconcile ps && bool_decide (peerID = zero16) then default peerID (reconcilePeerID cn) else peerID in
  let c := ps_next ps in
  mkPeerSet (<[c := mkConn addr effectivePeerID false false (Some false)]> (ps_heap ps)) (S c)
    (<[effectivePeerID := c]> (ps_peers ps)) (<[addr := c]> (ps_byAddr ps)) (ps_autoReconcile ps).

(** A dial that nothing interrupts; [conn]: the leaf of the dialled connection, or
    [None] when the dial fails.  [true] is a nil error. *)
Definition Dial (addr : string) (peerID : list Z) (conn : option (option string)) (ps : PeerSet) : bool * PeerSet :=
  match dial_check addr ps with
  | None => (true, ps)
  | Some ps =>
      match conn with
      | None => (false, ps)
      | Some cn => (true, dial_install addr peerID cn ps)
      end
  end.

(** ** Inbound connections *)

(** The id and the handle; the zero id and no handle when nothing is installed. *)
Definition RegisterInbound (addr : string) (cn : option string) (ps : PeerSet) : list Z * option nat * PeerSet :=
  match nodeIDFromConn cn with
  | None => (zero16, None, ps)
  | Some real =>
      let existing := match ps_peers ps !! real with Some c => Some c | None => ps_byAddr ps !! addr end in
      let install := mkPeerSet (<[ps_next ps := mkConn addr real false false None]> (ps_heap ps)) (S (ps_next ps))
        (<[real := ps_next ps]> (ps_peers ps)) (<[addr := ps_next ps]> (ps_byAddr ps)) (ps_autoReconcile ps) in
      match existing with
      | None => (real, Some (ps_next ps), install)
      | Some old =>
          if is_done ps old then (real, Some (ps_next ps), conn_Close old (cancelReader old install))
          else (zero16, None, ps)
      end
  end.

Definition removeDeadEntry (c : nat) (ps : PeerSet) : PeerSet :=
  match ps_heap ps !! c with
  | None => ps
  | Some pc =>
      set_maps
        (if bool_decide (pc_peerID pc ≠ zero16) && bool_decide (ps_peers ps !! pc_peerID pc = Some c)
         then delete (pc_peerID pc) (ps_peers ps) else ps_peers ps)
        (if bool_decide (ps_byAddr ps !! pc_addr pc = Some c) then delete (pc_addr pc) (ps_byAddr ps) else ps_byAddr ps) ps
  end.

(** [mine]: the handle, [None] for the release by id alone. *)
Definition ReleaseInboundConn (nodeID : list Z) (mine : option nat) (ps : PeerSet) : PeerSet :=
  if decide (nodeID = zero16) then ps
  else match ps_peers ps !! nodeID with
       | None => ps
       | Some c =>
           if match mine with Some m => negb (m =? c)%nat | None => false end then ps
           else removeDeadEntry c (if is_done ps c then ps else closeDone c ps)
       end.

Definition ReleaseInbound (nodeID : list Z) (ps : PeerSet) : PeerSet := ReleaseInboundConn nodeID None ps.

(** The deferred calls of readLoop, whenever it returns. *)
Definition reader_exit (c : nat) (ps : PeerSet) : PeerSet := conn_Close c (removeDeadEntry c (closeDone c ps)).

(** ** Publish, Peers, Close *)

(** The connection a publish writes to; [None] is the error. *)
Definition publish_conn (peerID : list Z) (ps : PeerSet) : option nat := ps_peers ps !! peerID.

Definition Peers (ps : PeerSet) : gset (list Z) := dom (ps_peers ps).

(** Cancel, close and done: the two waits return, done being closed. *)
Definition shut (c : nat) (ps : PeerSet) : PeerSet := closeDone c (conn_Close c (cancelReader c ps)).

(** [order]: the iteration order of the map. *)
Definition Close (order : list (list Z * nat)) (ps : PeerSet) : PeerSet := foldl (λ ps p, shut p.2 ps) ps order.

(** The range over byAddr stops at the first match; [order] as above. *)
Definition first_addr (c : nat) (order : list (string * nat)) : option string :=
  fst <$> head (filter (λ p, p.2 = c) order).

Definition ClosePeer (peerID : list Z) (order : list (string * nat)) (ps : PeerSet) : PeerSet :=
  match ps_peers ps !! peerID with
  | None => ps
  | Some c =>
      shut c (set_maps (delete peerID (ps_peers ps))
        (match first_addr c order with Some a => delete a (ps_byAddr ps) | None => ps_byAddr ps end) ps)
  end.

(** ** The reconnect loop *)

Definition liveReconnectEdge (addr : string) (peerID : list Z) (ps : PeerSet) : option nat :=
  let byAddr := match ps_byAddr ps !! addr with
                | Some c => if is_done ps c then None else Some c
                | None => None
                end in
  let pc := match byAddr with
            | Some c => Some c
            | None => if decide (peerID = zero16) then None else ps_peers ps !! peerID
            end in
  match pc with
  | Some c => if is_done ps c then None else Some c
  | None => None
  end.

(** FNV-1a over the address and the id. *)
Definition seed_step (seed b : Z) : Z := Z.lxor seed b *ₒ 1099511628211.
Definition reconnect_seed (addr : string) (peerID : list Z) : Z * Z :=
  let seed := foldl seed_step 14695981039346656037 (string_bytes addr ++ peerID) in
  (seed, Z.lxor seed 0x9E3779B97F4A7C15).

Definition second : Z := 1000000000.
Definition successFloor : Z := 250000000.

(** The normalized first backoff and ceiling, in nanoseconds. *)
Definition reconnect_base (backoff0 : Z) : Z := if backoff0 <=? 0 then second else backoff0.
Definition reconnect_max (backoffMax : Z) : Z := if backoffMax <=? 0 then 10 * second else backoffMax.

(** A wait of [b] with the draw [r] of rng.Int64N(2*span+1). *)
Definition jittered (b r : Z) : Z := let span := b ÷ 5 in if 0 <? span then i64 (b + i64 (r - span)) else b.

Definition next_backoff (bmax b : Z) : Z := let b := i64 (b * 2) in if bmax <? b then bmax else b.

(** What the loop does next, at the point where it has no live edge to wait on. *)
Inductive LoopStep := LDedupe | LRetry (wait : Z) | LSettle (wait : Z).

(** One turn: the recheck, the dial and the wait.  [r]: the draw of the jitter.
    Returns the step, the next backoff and the peer set. *)
Definition reconnect_turn (addr : string) (peerID : list Z) (base bmax b r : Z) (conn : option (option string))
    (ps : PeerSet) : LoopStep * Z * PeerSet :=
  match liveReconnectEdge addr peerID ps with
  | Some _ => (LDedupe, base, ps)
  | None =>
      match Dial addr peerID conn ps with
      | (false, ps) => (LRetry (jittered b r), next_backoff bmax b, ps)
      | (true, ps) => (LSettle (jittered successFloor r), base, ps)
      end
  end.

(** ** Interleavings *)

(** The peer set with the dials whose check has passed. *)
Abbreviation dial_state := (list (string * list Z) * PeerSet)%type.

Inductive peer_step : dial_state → dial_state → Prop :=
| pst_check addr id D ps ps' : dial_check addr ps = Some ps' → peer_step (D, ps) ((addr, id) :: D, ps')
| pst_install addr id cn D1 D2 ps :
    peer_step (D1 ++ (addr, id) :: D2, ps) (D1 ++ D2, dial_install addr id cn ps)
| pst_dial_failed addr id D1 D2 ps : peer_step (D1 ++ (addr, id) :: D2, ps) (D1 ++ D2, ps)
| pst_register addr cn D ps : peer_step (D, ps) (D, (RegisterInbound addr cn ps).2)
| pst_release id mine D ps : peer_step (D, ps) (D, ReleaseInboundConn id mine ps)
| pst_reader_exit c D ps : (∃ pc, ps_heap ps !! c = Some pc ∧ pc_reader pc ≠ None) → peer_step (D, ps) (D, reader_exit c ps)
| pst_close_peer id order D ps : order ≡ₚ map_to_list (ps_byAddr ps) → peer_step (D, ps) (D, ClosePeer id order ps)
| pst_close order D ps : order ≡ₚ map_to_list (ps_peers ps) → peer_step (D, ps) (D, Close order ps)
| pst_auto on D ps : peer_step (D, ps) (D, SetAutoReconcile on ps).

(** ** The invariant *)

(** Both maps name connections that exist, under their own key. *)
Record peers_ok (ps : PeerSet) : Prop := {
  po_peers : ∀ id c, ps_peers ps !! id = Some c → ∃ pc, ps_heap ps !! c = Some pc ∧ pc_peerID pc = id;
  po_addrs : ∀ a c, ps_byAddr ps !! a = Some c → ∃ pc, ps_heap ps !! c = Some pc ∧ pc_addr pc = a;
  po_fresh : ∀ c pc, ps_heap ps !! c = Some pc → (c < ps_next ps)%nat;
}.

Lemma new_ok : peers_ok NewPeerSet.
Proof. by split. Qed.

(** The keys of a connection do not change. *)
Definition keeps_keys (f : peerConn → peerConn) : Prop :=
  ∀ pc, pc_addr (f pc) = pc_addr pc ∧ pc_peerID (f pc) = pc_peerID pc.

Lemma keeps_done : keeps_keys mark_done. Proof. done. Qed.
Lemma keeps_closed : keeps_keys mark_closed. Proof. done. Qed.
Lemma keeps_cancelled : keeps_keys mark_cancelled. Proof. done. Qed.
#[local] Hint Resolve keeps_done keeps_closed keeps_cancelled : core.

Lemma touch_lookup f c ps c' :
  ps_heap (touch f c ps) !! c' = if decide (c' = c) then f <$> ps_heap ps !! c' else ps_heap ps !! c'.
Proof.
  unfold touch. simpl. case_decide; subst; [apply lookup_alter_eq|by apply lookup_alter_ne].
Qed.

Lemma touch_ok f c ps : keeps_keys f → peers_ok ps → peers_ok (touch f c ps).
Proof.
  intros Hf [Hp Ha Hn].
  assert (∀ c' pc, ps_heap ps !! c' = Some pc → ∃ pc', ps_heap (touch f c ps) !! c' = Some pc' ∧
    pc_addr pc' = pc_addr pc ∧ pc_peerID pc' = pc_peerID pc) as Hk.
  { intros c' pc Hc. rewrite touch_lookup, Hc. case_decide; simpl; eexists; (split; [done|]); [apply Hf|done]. }
  split.
  - intros id c' H. destruct (Hp id c' H) as (pc & Hc & <-). destruct (Hk c' pc Hc) as (pc' & ? & ? & ?). eauto.
  - intros a c' H. destruct (Ha a c' H) as (pc & Hc & <-). destruct (Hk c' pc Hc) as (pc' & ? & ? & ?). eauto.
  - intros c' pc. rewrite touch_lookup. case_decide; [|apply Hn]. intros (pc0 & Hc & _)%fmap_Some. by eapply Hn.
Qed.

(** Entries may only go. *)
Lemma shrink_ok peers byAddr ps : peers ⊆ ps_peers ps → byAddr ⊆ ps_byAddr ps → peers_ok ps → peers_ok (set_maps peers byAddr ps).
Proof.
  intros H1 H2 [Hp Ha Hn]. split; simpl; [|..|done].
  - intros id c H. apply Hp. by eapply lookup_weaken.
  - intros a c H. apply Ha. by eapply lookup_weaken.
Qed.

Lemma removeDeadEntry_ok c ps : peers_ok ps → peers_ok (removeDeadEntry c ps).
Proof.
  intros H. unfold removeDeadEntry. destruct (ps_heap ps !! c); [|done].
  apply shrink_ok; [destruct (_ && _)|case_bool_decide|done]; (apply delete_subseteq || done).
Qed.

(** A new connection under its keys. *)
Lemma install_ok pc ps :
  peers_ok ps → peers_ok (mkPeerSet (<[ps_next ps := pc]> (ps_heap ps)) (S (ps_next ps))
    (<[pc_peerID pc := ps_next ps]> (ps_peers ps)) (<[pc_addr pc := ps_next ps]> (ps_byAddr ps)) (ps_autoReconcile ps)).
Proof.
  intros [Hp Ha Hn].
  assert (∀ c pc0, ps_heap ps !! c = Some pc0 → <[ps_next ps := pc]> (ps_heap ps) !! c = Some pc0) as Hold.
  { intros c pc0 Hc. rewrite lookup_insert_ne; [done|]. intros <-. apply Hn in Hc. lia. }
  split; simpl.
  - intros id c. rewrite lookup_insert_Some. intros [[<- <-]|[_ H]]; [exists pc; by rewrite lookup_insert_eq|].
    destruct (Hp id c H) as (pc0 & ? & ?). eauto.
  - intros a c. rewrite lookup_insert_Some. intros [[<- <-]|[_ H]]; [exists pc; by rewrite lookup_insert_eq|].
    destruct (Ha a c H) as (pc0 & ? & ?). eauto.
  - intros c pc0. rewrite lookup_insert_Some. intros [[<- _]|[_ H]]; [lia|]. apply Hn in H. lia.
Qed.

Lemma shut_ok c ps : peers_ok ps → peers_ok (shut c ps).
Proof. intros H. unfold shut. by repeat apply touch_ok. Qed.

Lemma peer_step_ok s s' : peer_step s s' → peers_ok s.2 → peers_ok s'.2.
Proof.
  intros Hs Hok. destruct Hs as [addr id D ps ps' Hc|addr id cn D1 D2 ps|addr id D1 D2 ps|addr cn D ps|id mine D ps|c D ps _
    |id order D ps _|order D ps _|on D ps]; simpl in *.
  - unfold dial_check in Hc. destruct (ps_byAddr ps !! addr); [|by injection Hc as <-].
    destruct (is_done _ _); [|done]. injection Hc as <-. by apply touch_ok.
  - apply (install_ok (mkConn addr _ false false (Some false))). done.
  - done.
  - unfold RegisterInbound. destruct (nodeIDFromConn cn) as [real|]; [|done].
    pose proof (install_ok (mkConn addr real false false None) ps Hok) as Hi.
    destruct (match ps_peers ps !! real with Some _ => _ | None => _ end); [|done].
    destruct (is_done _ _); [|done]. simpl. by repeat apply touch_ok.
  - unfold ReleaseInboundConn. case_decide; [done|]. destruct (ps_peers ps !! id) as [c|]; [|done].
    destruct (match mine with Some _ => _ | None => _ end); [done|]. apply removeDeadEntry_ok.
    destruct (is_done _ _); [done|by apply touch_ok].
  - unfold reader_exit. apply touch_ok; [done|]. by apply removeDeadEntry_ok, touch_ok.
  - unfold ClosePeer. destruct (ps_peers ps !! id) as [c|]; [|done]. apply shut_ok, shrink_ok; [apply delete_subseteq| |done].
    destruct (first_addr _ _); [apply delete_subseteq|done].
  - unfold Close. clear -Hok. revert ps Hok. induction order as [|p order IH]; intros ps Hok; simpl; [done|].
    apply IH. by apply shut_ok.
  - by destruct Hok.
Qed.

Lemma reachable_ok s : rtc peer_step ([], NewPeerSet) s → peers_ok s.2.
Proof.
  intros Hr. assert (peers_ok (([], NewPeerSet) : dial_state).2) as H0 by apply new_ok. revert Hr H0.
  generalize (([], NewPeerSet) : dial_state). induction 1; intros; [done|]. eauto using peer_step_ok.
Qed.

(** ** What an operation leaves alone *)

Definition untouched (c : nat) (ps ps' : PeerSet) : Prop :=
  (∀ id, ps_peers ps !! id = Some c → ps_peers ps' !! id = Some c) ∧
  (∀ a, ps_byAddr ps !! a = Some c → ps_byAddr ps' !! a = Some c) ∧ ps_heap ps' !! c = ps_heap ps !! c.

Lemma untouched_refl c ps : untouched c ps ps.
Proof. by split_and!. Qed.

Lemma untouched_trans c ps1 ps2 ps3 : untouched c ps1 ps2 → untouched c ps2 ps3 → untouched c ps1 ps3.
Proof. intros (A1 & A2 & A3) (B1 & B2 & B3). split_and!; [auto|auto|congruence]. Qed.

Lemma touch_untouched f m c ps : c ≠ m → untouched c ps (touch f m ps).
Proof. intros Hne. split_and!; [done|done|]. by rewrite touch_lookup, decide_False. Qed.

Lemma remove_untouched m c ps : c ≠ m → untouched c ps (removeDeadEntry m ps).
Proof.
  intros Hne. unfold removeDeadEntry. destruct (ps_heap ps !! m) as [pc|]; [|apply untouched_refl]. split_and!; simpl; [| |done].
  - intros id Hid. destruct (_ && bool_decide (ps_peers ps !! _ = Some m)) eqn:E; [|done].
    apply andb_true_iff in E as [_ E]. apply bool_decide_eq_true in E. rewrite lookup_delete_ne; [done|]. intros <-. congruence.
  - intros a Ha. case_bool_decide as E; [|done]. rewrite lookup_delete_ne; [done|]. intros <-. congruence.
Qed.

(** A dead connection's entries are gone, the shared zero key apart. *)
Lemma remove_gone m ps :
  peers_ok ps → let ps' := removeDeadEntry m ps in
  (∀ a, ps_byAddr ps' !! a ≠ Some m) ∧ (∀ id, id ≠ zero16 → ps_peers ps' !! id ≠ Some m).
Proof.
  intros [Hp Ha _] ps'. unfold ps', removeDeadEntry. destruct (ps_heap ps !! m) as [pc|] eqn:Em.
  2: { split; [intros a H|intros id _ H]; [destruct (Ha a m H) as (? & ? & _)|destruct (Hp id m H) as (? & ? & _)]; congruence. }
  split; simpl.
  - intros a. case_bool_decide as E.
    + rewrite lookup_delete_Some. intros [Hne H]. destruct (Ha a m H) as (pc' & Hc & Haddr). congruence.
    + intros H. destruct (Ha a m H) as (pc' & Hc & <-). congruence.
  - intros id Hz. destruct (_ && _) eqn:E.
    + rewrite lookup_delete_Some. intros [Hne H]. destruct (Hp id m H) as (pc' & Hc & Hid). congruence.
    + intros H. destruct (Hp id m H) as (pc' & Hc & <-). rewrite Em in Hc. injection Hc as <-.
      rewrite bool_decide_eq_true_2, bool_decide_eq_true_2 in E by done. done.
Qed.

(** A live connection survives an inbound registration. *)
Lemma register_spares_live addr cn ps c pc :
  peers_ok ps → ps_heap ps !! c = Some pc → pc_done pc = false →
  let '(_, h, ps') := RegisterInbound addr cn ps in
  ps_heap ps' !! c = Some pc ∧ (∀ id0, ps_peers ps !! id0 = Some c → ps_peers ps' !! id0 = Some c) ∧
  (∀ a, ps_byAddr ps !! a = Some c → a ≠ addr ∨ h = None → ps_byAddr ps' !! a = Some c) ∧ (h = None → ps' = ps).
Proof.
  intros [Hp Ha Hn] Hc Hlive. pose proof (Hn c pc Hc) as Hlt.
  assert (is_done ps c = false) as Hd by (unfold is_done; by rewrite Hc).
  unfold RegisterInbound. destruct (nodeIDFromConn cn) as [real|]; [|done]. set (ins := mkPeerSet _ _ _ _ _).
  assert (ps_peers ps !! real ≠ Some c → ps_heap ins !! c = Some pc ∧
    (∀ id0, ps_peers ps !! id0 = Some c → ps_peers ins !! id0 = Some c) ∧
    (∀ a, ps_byAddr ps !! a = Some c → a ≠ addr ∨ Some (ps_next ps) = None → ps_byAddr ins !! a = Some c)) as Hins.
  { intros Hr. unfold ins. simpl. rewrite lookup_insert_ne by lia. split_and!; [done| |].
    - intros id0 H0. rewrite lookup_insert_ne; [done|]. intros <-. done.
    - intros a H0 [Hne|?]; [|done]. by rewrite lookup_insert_ne. }
  destruct (ps_peers ps !! real) as [old|] eqn:E1; [|destruct (ps_byAddr ps !! addr) as [old|] eqn:E2].
  3: { destruct (Hins ltac:(done)) as (? & ? & ?). by split_and!. }
  all: destruct (is_done ps old) eqn:Ed; [|done]; assert (c ≠ old) as Hco by congruence;
    destruct (Hins ltac:(congruence)) as (I1 & I2 & I3); split_and!; try done;
    unfold conn_Close, cancelReader; by rewrite touch_lookup, decide_False, touch_lookup, decide_False.
Qed.

(** ** Properties *)

(** C36. The two maps of the peer set stay sound under every interleaving of
    dials, inbound registrations, releases, reader exits and closes: an entry names
    a connection that exists and carries that id or address.  When a connection's
    reader exits, no entry is left for it (under the shared zero id apart), and
    ClosePeer leaves none for the connection it shut. *)
Theorem peer_maps_sound (s : dial_state) (c : nat) (id : list Z) (order : list (string * nat)) :
  rtc peer_step ([], NewPeerSet) s → order ≡ₚ map_to_list (ps_byAddr s.2) →
  (∀ id c, ps_peers s.2 !! id = Some c → ∃ pc, ps_heap s.2 !! c = Some pc ∧ pc_peerID pc = id) ∧
  (∀ a c, ps_byAddr s.2 !! a = Some c → ∃ pc, ps_heap s.2 !! c = Some pc ∧ pc_addr pc = a) ∧
  (let ps' := reader_exit c s.2 in
   (∀ a, ps_byAddr ps' !! a ≠ Some c) ∧ (∀ id, id ≠ zero16 → ps_peers ps' !! id ≠ Some c)) ∧
  (let ps' := ClosePeer id order s.2 in
   ps_peers ps' !! id = None ∧ ∀ m, ps_peers s.2 !! id = Some m → is_done ps' m = true ∧ ∀ a, ps_byAddr ps' !! a ≠ Some m).
Proof.
  intros Hr Ho. pose proof (reachable_ok s Hr) as Hok. pose proof Hok as [Hp Ha Hn]. split_and!; [done|done| |].
  - cbv zeta. apply (remove_gone c (closeDone c s.2)). by apply touch_ok.
  - cbv zeta. unfold ClosePeer. destruct (ps_peers s.2 !! id) as [m|] eqn:Em; [|done]. simpl.
    split; [apply lookup_delete_eq|]. intros m' [= <-]. destruct (Hp id m Em) as (pc & Hm & _). split.
    + unfold is_done, shut, closeDone. rewrite touch_lookup, decide_True by done. unfold conn_Close, cancelReader.
      rewrite touch_lookup, decide_True, touch_lookup, decide_True by done. simpl. by rewrite Hm.
    + intros a. unfold first_addr. destruct (filter (λ p : string * nat, p.2 = m) order) as [|[a0 c0] l] eqn:Ef; simpl.
      * intros H. assert ((a, m) ∈ filter (λ p : string * nat, p.2 = m) order) as Hin.
        { apply list_elem_of_filter. split; [done|]. rewrite Ho. by apply elem_of_map_to_list. }
        rewrite Ef in Hin. by apply elem_of_nil in Hin.
      * assert ((a0, c0) ∈ filter (λ p : string * nat, p.2 = m) order) as Hin by (rewrite Ef; by left).
        apply list_elem_of_filter in Hin as [E Hin]. simpl in E. subst c0. rewrite Ho in Hin. apply elem_of_map_to_list in Hin.
        rewrite lookup_delete_Some. intros [Hne H]. destruct (Ha a m H) as (p1 & ? & ?), (Ha a0 m Hin) as (p2 & ? & ?). congruence.
Qed.

(** C11. No operation kills a connection it does not own.  An inbound
    registration leaves the state of every live connection and its entries by id
    alone, and its entry by address too, unless the registration was accepted for
    that very address, which then names the new connection; when a live connection
    is in its way it declines and changes nothing.  The release of a handle and the
    exit of a reader leave every other connection's entries and state alone, also
    when that other connection has replaced theirs under the same id, and the
    release after a decline does nothing. *)
Theorem no_wrong_kill (s : dial_state) (c : nat) (addr : string) (cn : option string) (id : list Z) (m : nat) :
  rtc peer_step ([], NewPeerSet) s →
  (∀ pc, ps_heap s.2 !! c = Some pc → pc_done pc = false →
     let '(_, h, ps') := RegisterInbound addr cn s.2 in
     ps_heap ps' !! c = Some pc ∧ (∀ id0, ps_peers s.2 !! id0 = Some c → ps_peers ps' !! id0 = Some c) ∧
     (∀ a, ps_byAddr s.2 !! a = Some c → a ≠ addr ∨ h = None → ps_byAddr ps' !! a = Some c) ∧
     (h = None → ps' = s.2)) ∧
  (c ≠ m → untouched c s.2 (ReleaseInboundConn id (Some m) s.2) ∧ untouched c s.2 (reader_exit m s.2)) ∧
  (∀ id1, RegisterInbound addr cn s.2 = (id1, None, (RegisterInbound addr cn s.2).2) →
     ReleaseInboundConn id1 None (RegisterInbound addr cn s.2).2 = s.2).
Proof.
  intros Hr. pose proof (reachable_ok s Hr) as Hok. pose proof Hok as [Hp Ha Hn]. destruct s as [D ps]. simpl in *. split_and!.
  - intros pc Hc Hlive. by apply register_spares_live.
  - intros Hne. split.
    + unfold ReleaseInboundConn. case_decide; [apply untouched_refl|]. destruct (ps_peers ps !! id) as [c'|]; [|apply untouched_refl].
      destruct (Nat.eqb_spec m c') as [<-|]; simpl; [|apply untouched_refl].
      eapply untouched_trans; [|by apply remove_untouched]. destruct (is_done ps m); [apply untouched_refl|by apply touch_untouched].
    + unfold reader_exit. eapply untouched_trans; [by apply (touch_untouched mark_done m)|].
      eapply untouched_trans; [by apply remove_untouched|by apply touch_untouched].
  - intros id1. unfold RegisterInbound. destruct (nodeIDFromConn cn) as [real|]; [|by intros [= <-]].
    destruct (match ps_peers ps !! real with Some _ => _ | None => _ end) as [old|]; [|done].
    destruct (is_done ps old); [done|]. by intros [= <-].
Qed.

(** A superseded inbound connection is never released: when a dial that had
    passed its check installs its connection after an inbound one was registered
    for the same node, the release by the inbound connection's own handle does
    nothing at all: its address entry stays, its done channel stays open, and not
    even Close shuts it. *)
Theorem superseded_inbound_leaks (s : dial_state) (addr addr2 : string) (cn cn2 : option string) (id : list Z) (m : nat)
    (ps1 : PeerSet) (order : list (list Z * nat)) :
  rtc peer_step ([], NewPeerSet) s → RegisterInbound addr cn s.2 = (id, Some m, ps1) → addr2 ≠ addr → id ≠ zero16 →
  let ps2 := dial_install addr2 id cn2 ps1 in let ps3 := ReleaseInboundConn id (Some m) ps2 in
  order ≡ₚ map_to_list (ps_peers ps3) →
  ps3 = ps2 ∧ ps_byAddr ps3 !! addr = Some m ∧ is_done ps3 m = false ∧ is_done (Close order ps3) m = false.
Proof.
  intros Hr Hreg Ha2 Hz ps2 ps3 Ho. pose proof (reachable_ok s Hr) as Hok.
  assert (peers_ok ps1 ∧ m ≠ ps_next ps1 ∧ ps_byAddr ps1 !! addr = Some m ∧
    ∃ pc, ps_heap ps1 !! m = Some pc ∧ pc_done pc = false ∧ pc_peerID pc = id) as (Hok1 & Hmn & Haddr & pc & Hm & Hd & Hid).
  { assert (peers_ok ps1) as Hok1.
    { pose proof (peer_step_ok _ _ (pst_register addr cn s.1 s.2)) as H. rewrite Hreg in H. by apply H. }
    split; [done|]. unfold RegisterInbound in Hreg. destruct (nodeIDFromConn cn) as [real|]; [|by injection Hreg as <-].
    set (ins := mkPeerSet _ _ _ _ _) in *.
    assert (m = ps_next s.2 ∧ real = id ∧ (ps1 = ins ∨ ∃ old, is_done s.2 old = true ∧ ps1 = conn_Close old (cancelReader old ins)))
      as (-> & -> & Hps1).
    { destruct (match ps_peers s.2 !! real with Some _ => _ | None => _ end) as [old|]; [|injection Hreg as <- <- <-; auto].
      destruct (is_done s.2 old) eqn:Ed; [|done]. injection Hreg as <- <- <-. eauto 10. }
    destruct Hps1 as [->|(old & Ed & ->)].
    - unfold ins. simpl. rewrite !lookup_insert_eq. split_and!; [lia|done|by eexists].
    - assert (ps_next s.2 ≠ old) as Hno.
      { intros <-. unfold is_done in Ed. destruct (ps_heap s.2 !! ps_next s.2) as [p|] eqn:E; [|done]. apply Hok in E. lia. }
      unfold conn_Close, cancelReader. cbn [ps_next ps_byAddr touch set_heap]. split_and!; [simpl; lia|apply lookup_insert_eq|].
      rewrite touch_lookup, decide_False, touch_lookup, decide_False by done. unfold ins. simpl. rewrite lookup_insert_eq. by eexists. }
  assert (ps_peers ps2 !! id = Some (ps_next ps1)) as Hnew.
  { unfold ps2, dial_install. simpl. rewrite (bool_decide_eq_false_2 (id = zero16)), andb_false_r by done. apply lookup_insert_eq. }
  assert (ps3 = ps2) as E3.
  { unfold ps3, ReleaseInboundConn. rewrite decide_False, Hnew by done.
    destruct (Nat.eqb_spec m (ps_next ps1)); [done|]. done. }
  assert (ps_heap ps2 !! m = Some pc) as Hm2 by (unfold ps2, dial_install; simpl; by rewrite lookup_insert_ne).
  rewrite E3 in *. split_and!; [done|unfold ps2, dial_install; simpl; by rewrite lookup_insert_ne|unfold is_done; by rewrite Hm2|].
  assert (∀ p, p ∈ order → p.2 ≠ m) as Hnot.
  { intros [id' c'] Hin. rewrite Ho in Hin. apply elem_of_map_to_list in Hin. simpl. intros ->.
    assert (peers_ok ps2) as [Hp2 _ _] by apply (peer_step_ok ([(addr2, id)], ps1) _ (pst_install addr2 id cn2 [] [] ps1) Hok1).
    destruct (Hp2 id' m Hin) as (pc' & Hpc' & Hid'). rewrite Hm2 in Hpc'. injection Hpc' as <-. congruence. }
  clear Ho. unfold Close. assert (is_done ps2 m = false) as Hd2 by (unfold is_done; by rewrite Hm2). clear -Hnot Hd2. revert Hd2.
  generalize ps2. clear ps2. induction order as [|p order IH]; intros ps Hd2; simpl; [done|].
  apply IH; [intros q Hq; apply Hnot; by right|]. unfold is_done, shut, closeDone, conn_Close, cancelReader.
  assert (m ≠ p.2) by (symmetry; apply Hnot; by left). by rewrite !touch_lookup, !decide_False.
Qed.

(** ** Backoff *)

Lemma i64_same x : is_i64 x → i64 x = x.
Proof. intros H. unfold is_i64, i64 in *. rewrite Z.mod_small; lia. Qed.

Lemma next_backoff_min bmax b : 0 < b < 2 ^ 62 → next_backoff bmax b = Z.min (b * 2) bmax.
Proof.
  intros Hb. unfold next_backoff. cbv zeta. rewrite i64_same by (unfold is_i64; lia).
  destruct (Z.ltb_spec bmax (b * 2)); lia.
Qed.

Lemma jittered_range b r : 0 < b < 2 ^ 62 → 0 <= r <= 2 * (b ÷ 5) → b - b ÷ 5 <= jittered b r <= b + b ÷ 5.
Proof.
  intros Hb Hr. unfold jittered. cbv zeta. rewrite Z.quot_div_nonneg in * by lia.
  assert (0 <= b / 5 <= b) as Hq by (split; [apply Z.div_pos|apply Z.div_le_upper_bound]; lia).
  destruct (Z.ltb_spec 0 (b / 5)); [|lia]. rewrite (i64_same (r - b / 5)), i64_same by (unfold is_i64; lia). lia.
Qed.

(** Reconnects are paced.  After k failed dials the backoff is the base doubled
    k times, capped by the ceiling from the first failure on; the wait of a failed
    dial is within a fifth of it and positive, a successful dial is followed by at
    least 200 ms, and a turn that does not dial has found a live edge, on whose
    done channel the next turn blocks: the loop never spins. *)
Theorem reconnect_paced (addr : string) (peerID : list Z) (backoff0 backoffMax r : Z) (k : nat) (conn : option (option string))
    (ps : PeerSet) :
  let base := reconnect_base backoff0 in let bmax := reconnect_max backoffMax in
  backoff0 < 2 ^ 62 → backoffMax < 2 ^ 62 →
  let b := Nat.iter k (next_backoff bmax) base in
  b = (if decide (k = 0%nat) then base else Z.min (base * 2 ^ Z.of_nat k) bmax) ∧
  match reconnect_turn addr peerID base bmax b r conn ps with
  | (LDedupe, b', ps') => b' = base ∧ ps' = ps ∧ ∃ c, liveReconnectEdge addr peerID ps' = Some c ∧ is_done ps' c = false
  | (LRetry wait, b', _) => (0 <= r <= 2 * (b ÷ 5) → 0 < wait ∧ b - b ÷ 5 <= wait <= b + b ÷ 5) ∧ b' = next_backoff bmax b
  | (LSettle wait, b', _) => (0 <= r <= 2 * (successFloor ÷ 5) → 200000000 <= wait) ∧ b' = base
  end.
Proof.
  intros base bmax H0 Hm b.
  assert (0 < base < 2 ^ 62) as Hbase by (unfold base, reconnect_base, second; destruct (Z.leb_spec backoff0 0); lia).
  assert (0 < bmax < 2 ^ 62) as Hbmax by (unfold bmax, reconnect_max, second; destruct (Z.leb_spec backoffMax 0); lia).
  assert (b = (if decide (k = 0%nat) then base else Z.min (base * 2 ^ Z.of_nat k) bmax) ∧ 0 < b < 2 ^ 62) as [Hb Hbr].
  { unfold b. clear b. induction k as [|k [IH IHr]]; [split; [done|exact Hbase]|]. rewrite decide_False by done.
    change (Nat.iter (S k) ?f ?x) with (f (Nat.iter k f x)). rewrite next_backoff_min by done. rewrite IH. clear IH IHr.
    assert (0 < 2 ^ Z.of_nat k) by (apply Z.pow_pos_nonneg; lia).
    rewrite Nat2Z.inj_succ, Z.pow_succ_r by lia. case_decide; [subst k; split; [simpl; lia|lia]|]. split; nia. }
  split; [exact Hb|]. unfold reconnect_turn. destruct (liveReconnectEdge addr peerID ps) as [c|] eqn:El.
  - split_and!; [done|done|]. exists c. split; [done|]. unfold liveReconnectEdge in El. cbv zeta in El.
    match type of El with match ?X with _ => _ end = _ => destruct X as [c'|]; [|done] end.
    destruct (is_done ps c') eqn:E; [done|]. by injection El as <-.
  - destruct (Dial addr peerID conn ps) as [[] ps'].
    + split; [|done]. intros Hr. pose proof (jittered_range successFloor r ltac:(unfold successFloor; lia) Hr) as Hj.
      unfold successFloor in *. rewrite Z.quot_div_nonneg in Hj by lia. change (250000000 / 5) with 50000000 in Hj. lia.
    + split; [|done]. intros Hr. pose proof (jittered_range b r Hbr Hr) as Hj. rewrite Z.quot_div_nonneg in * by lia.
      assert (b / 5 < b) by (apply Z.div_lt; lia). lia.
Qed.

(** ** Witnesses *)

Definition sample_cn : option string := Some "01010101010101010101010101010101".
Definition registered : PeerSet := (RegisterInbound "10.0.0.1:40000" sample_cn NewPeerSet).2.

Lemma registered_reachable : rtc peer_step ([], NewPeerSet) ([], registered).
Proof. apply rtc_once. exact (pst_register "10.0.0.1:40000" sample_cn [] NewPeerSet). Qed.

Lemma peer_maps_sound_witness :
  ps_byAddr registered !! "10.0.0.1:40000" = Some 0%nat ∧ ps_byAddr (reader_exit 0 registered) !! "10.0.0.1:40000" ≠ Some 0%nat.
Proof.
  split; [vm_compute; reflexivity|].
  destruct (peer_maps_sound ([], registered) 0 (replicate 16 1) (map_to_list (ps_byAddr registered)) registered_reachable
    (reflexivity _)) as (_ & _ & [H _] & _).
  apply H.
Defined.

(** A second inbound connection of the same node is declined. *)
Lemma no_wrong_kill_witness :
  ps_peers (RegisterInbound "10.0.0.1:40001" sample_cn registered).2 !! replicate 16 1 = Some 0%nat.
Proof.
  destruct (no_wrong_kill ([], registered) 0 "10.0.0.1:40001" sample_cn (replicate 16 1) 5 registered_reachable) as (H & _).
  assert (ps_heap registered !! 0%nat = Some (mkConn "10.0.0.1:40000" (replicate 16 1) false false None)) as E
    by (vm_compute; reflexivity).
  specialize (H _ E eq_refl). cbn [snd] in H.
  destruct (RegisterInbound "10.0.0.1:40001" sample_cn registered) as [[id1 h] ps'].
  destruct H as (_ & H & _). apply H. vm_compute. reflexivity.
Defined.

Lemma superseded_inbound_leaks_witness :
  let ps3 := ReleaseInboundConn (replicate 16 1) (Some 0%nat) (dial_install "peer:7000" (replicate 16 1) None registered) in
  ps_byAddr ps3 !! "10.0.0.1:40000" = Some 0%nat ∧ is_done ps3 0 = false.
Proof.
  intros ps3.
  destruct (superseded_inbound_leaks ([], NewPeerSet) "10.0.0.1:40000" "peer:7000" sample_cn None (replicate 16 1) 0 registered
    (map_to_list (ps_peers ps3)) (rtc_refl _ _)) as (_ & H1 & H2 & _).
  - vm_compute. reflexivity.
  - discriminate.
  - discriminate.
  - reflexivity.
  - split; [exact H1|exact H2].
Defined.

Lemma reconnect_paced_witness :
  Nat.iter 3 (next_backoff (reconnect_max 0)) (reconnect_base 0) = 8000000000 ∧
  Nat.iter 4 (next_backoff (reconnect_max 0)) (reconnect_base 0) = 10000000000.
Proof.
  split.
  - rewrite (proj1 (reconnect_paced "a" [] 0 0 0 3 None NewPeerSet ltac:(lia) ltac:(lia))). vm_compute. reflexivity.
  - rewrite (proj1 (reconnect_paced "a" [] 0 0 0 4 None NewPeerSet ltac:(lia) ltac:(lia))). vm_compute. reflexivity.
Defined.
