(* ===== verification/LsmKeys.v ===== *)
(** Names in the query tier's object store (internal/database): the keys of L0
    and L1 files and of compaction manifests (l0_flusher.go, l1_compactor.go),
    the system time read back from a key (query.go) and the text of a manifest.

    Go strings are their bytes here; [lit] writes one as a Coq string. *)
From S2P Require Import Prelude Bytes Sha256.

Definition lit : string → list Z := string_bytes.
Arguments lit !_ /.

Abbreviation Store := (gmap (list Z) (list Z)).

(** ** strconv, encoding/hex and strings *)

(** strconv.FormatInt(n, 10): the digits of the magnitude, which has at most 20. *)
Fixpoint digits (fuel : nat) (n : Z) (acc : list Z) : list Z :=
  match fuel with
  | O => acc
  | S k => if n <? 10 then 48 + n :: acc else digits k (n / 10) (48 + n `mod` 10 :: acc)
  end.

Definition FormatInt (n : Z) : list Z := if n <? 0 then 45 :: digits 20 (- n) [] else digits 20 n [].

Fixpoint ParseUint (acc : Z) (s : list Z) : option Z :=
  match s with
  | [] => Some acc
  | c :: s' => if (48 <=? c) && (c <=? 57) then ParseUint (10 * acc + (c - 48)) s' else None
  end.

(** strconv.ParseInt(s, 10, 64). *)
Definition ParseInt (s : list Z) : option Z :=
  let '(neg, s) := match s with
                   | c :: s' => if c =? 43 then (false, s') else if c =? 45 then (true, s') else (false, s)
                   | [] => (false, s)
                   end in
  match s with
  | [] => None
  | _ => match ParseUint 0 s with
         | Some un =>
             if negb neg && (2 ^ 63 <=? un) then None
             else if neg && (2 ^ 63 <? un) then None
             else Some (if neg then - un else un)
         | None => None
         end
  end.

Definition hexChar (n : Z) : Z := if n <? 10 then 48 + n else 87 + n.

(** hex.Encode. *)
Definition hexEncode (bs : list Z) : list Z := bs ≫= λ b, [hexChar (b / 16); hexChar (b `mod` 16)].

(** strings.LastIndexByte and strings.IndexByte. *)
Fixpoint IndexByte (c : Z) (s : list Z) : option nat :=
  match s with
  | [] => None
  | b :: s' => if b =? c then Some O else S <$> IndexByte c s'
  end.

Fixpoint LastIndexByte (c : Z) (s : list Z) : option nat :=
  match s with
  | [] => None
  | b :: s' => match LastIndexByte c s' with
               | Some i => Some (S i)
               | None => if b =? c then Some O else None
               end
  end.

Definition HasPrefix (s p : list Z) : bool := bool_decide (p `prefix_of` s).
Definition HasSuffix (s p : list Z) : bool := bool_decide (p `suffix_of` s).

(** The UTF-8 encodings of the characters unicode.IsSpace accepts. *)
Definition spaces : list (list Z) :=
  map (λ c, [c]) [9; 10; 11; 12; 13; 32] ++
  [[0xC2; 0x85]; [0xC2; 0xA0]; [0xE1; 0x9A; 0x80]] ++
  map (λ c, [0xE2; 0x80; c]) [0x80; 0x81; 0x82; 0x83; 0x84; 0x85; 0x86; 0x87; 0x88; 0x89; 0x8A; 0xA8; 0xA9; 0xAF] ++
  [[0xE2; 0x81; 0x9F]; [0xE3; 0x80; 0x80]].

(** Drops leading members of [ws]; no member is empty, so the length is enough
    fuel. *)
Fixpoint trim_front (ws : list (list Z)) (fuel : nat) (s : list Z) : list Z :=
  match fuel with
  | O => s
  | S k => match list_find (λ w, w `prefix_of` s) ws with
           | Some (_, w) => trim_front ws k (drop (length w) s)
           | None => s
           end
  end.

(** strings.TrimSpace. *)
Definition TrimSpace (s : list Z) : list Z :=
  let s := trim_front spaces (length s) s in
  reverse (trim_front (map reverse spaces) (length s) (reverse s)).

(** ** Keys *)

Definition hexOf8 (hash8 : list Z) : list Z := hexEncode hash8.
Definition EntityHash8 (entityID : list Z) : list Z := take 8 (Sum256 entityID).
Definition EntityHash8Hex (entityID : list Z) : list Z := hexOf8 (EntityHash8 entityID).

Definition l0Prefix (hash8 : list Z) : list Z := lit "l0/" ++ hexOf8 hash8 ++ lit "/".
Definition l1Prefix (hash8 : list Z) : list Z := lit "l1/" ++ hexOf8 hash8 ++ lit "/".
Definition manifestsPrefix (hash8 : list Z) : list Z := lit "compaction/" ++ hexOf8 hash8 ++ lit "/".

(** The key UploadPartition writes an L0 file under. *)
Definition l0KeyFor (hash8 : list Z) (firstSysTimeNs : Z) : list Z :=
  l0Prefix hash8 ++ FormatInt firstSysTimeNs ++ lit ".arrow".

Definition l1KeyFor (hash8 : list Z) (firstSysTimeNs : Z) : list Z :=
  l1Prefix hash8 ++ FormatInt firstSysTimeNs ++ lit ".arrow".

Definition manifestKeyFor (hash8 : list Z) (firstSysTimeNs : Z) : list Z :=
  manifestsPrefix hash8 ++ FormatInt firstSysTimeNs ++ lit ".manifest".

Definition parseFirstSysFromKey (key : list Z) : option Z :=
  match LastIndexByte 47 key with
  | None => None
  | Some slash =>
      if (slash =? length key - 1)%nat then None
      else
        let tail := drop (S slash) key in
        match LastIndexByte 46 tail with
        | None | Some O => None
        | Some dot =>
            match ParseInt (take dot tail) with
            | Some n => if n <? 0 then None else Some n
            | None => None
            end
        end
  end.

(** ** Manifests *)

Definition newline : Z := 10.

Definition buildManifest (l1Key : list Z) (l0Keys : list (list Z)) : list Z :=
  l1Key ++ [newline] ++ (l0Keys ≫= λ k, k ++ [newline]).

(** One line of the loop; [first] until a line that is not blank was seen. *)
Definition manifest_line (ln : list Z) (st : bool * list Z * list (list Z)) : bool * list Z * list (list Z) :=
  let '(first, l1Key, l0Keys) := st in
  let ln := TrimSpace ln in
  match ln with
  | [] => st
  | _ =>
      if first then (false, ln, l0Keys)
      else if bool_decide (l1Key = []) && HasPrefix ln (lit "l1/") then (first, ln, l0Keys)
      else if HasPrefix ln (lit "l0/") then (first, l1Key, l0Keys ++ [ln])
      else st
  end.

(** The loop over [s[start:]]; every turn drops at least one byte. *)
Fixpoint parse_lines (fuel : nat) (s : list Z) (st : bool * list Z * list (list Z)) : bool * list Z * list (list Z) :=
  match fuel, s with
  | O, _ | _, [] => st
  | S k, _ =>
      let e := default (length s) (IndexByte newline s) in
      parse_lines k (drop (S e) s) (manifest_line (take e s) st)
  end.

Definition ParseManifest (body : list Z) : list Z * list (list Z) :=
  let '(_, l1Key, l0Keys) := parse_lines (length body) body (true, [], []) in (l1Key, l0Keys).

(** ** Numbers in keys *)

Definition is_digit (c : Z) : Prop := 48 <= c <= 57.

Lemma digits_shape fuel n acc : 0 <= n → ∃ ds, digits fuel n acc = ds ++ acc ∧ Forall is_digit ds ∧ (0 < fuel → ds ≠ [])%nat.
Proof.
  revert n acc. induction fuel as [|k IH]; intros n acc Hn; simpl.
  - exists []. split_and!; [done|done|lia].
  - destruct (n <? 10) eqn:E.
    + apply Z.ltb_lt in E. exists [48 + n]. split_and!; [done| |done]. constructor; [unfold is_digit; lia|done].
    + destruct (IH (n / 10) (48 + n `mod` 10 :: acc)) as (ds & -> & Hds & _); [by apply Z.div_pos|].
      exists (ds ++ [48 + n `mod` 10]). rewrite <- app_assoc. split_and!; [done| |by destruct ds].
      apply Forall_app. split; [done|]. constructor; [|done]. unfold is_digit.
      pose proof (Z.mod_pos_bound n 10). lia.
Qed.

Lemma ParseUint_digits fuel n acc a :
  0 <= n < 10 ^ Z.of_nat fuel → (0 < fuel)%nat →
  ∃ k, 0 <= k ∧ n < 10 ^ k ∧ ParseUint a (digits fuel n acc) = ParseUint (a * 10 ^ k + n) acc.
Proof.
  revert n acc a. induction fuel as [|f IH]; intros n acc a Hn Hf; [lia|]. simpl.
  destruct (n <? 10) eqn:E.
  - apply Z.ltb_lt in E. exists 1. split_and!; [lia|lia|]. simpl.
    rewrite (proj2 (Z.leb_le 48 (48 + n))), (proj2 (Z.leb_le (48 + n) 57)) by lia. simpl. f_equal. lia.
  - apply Z.ltb_ge in E. rewrite Nat2Z.inj_succ, Z.pow_succ_r in Hn by lia.
    destruct f as [|f]; [simpl in Hn; lia|].
    destruct (IH (n / 10) (48 + n `mod` 10 :: acc) a) as (k & Hk & Hlt & ->); [|lia|].
    { split; [apply Z.div_pos; lia|apply Z.div_lt_upper_bound; lia]. }
    exists (k + 1). pose proof (Z.mod_pos_bound n 10). pose proof (Z.div_mod n 10).
    rewrite Z.pow_add_r by lia. split_and!; [lia|nia|]. simpl.
    rewrite (proj2 (Z.leb_le 48 (48 + n `mod` 10))), (proj2 (Z.leb_le (48 + n `mod` 10) 57)) by lia. simpl.
    f_equal. nia.
Qed.

Lemma FormatInt_nonneg n : 0 <= n → ∃ ds, FormatInt n = ds ∧ Forall is_digit ds ∧ ds ≠ [].
Proof.
  intros Hn. unfold FormatInt. rewrite (proj2 (Z.ltb_ge n 0)) by lia.
  destruct (digits_shape 20 n [] Hn) as (ds & -> & Hds & Hne). exists ds. rewrite app_nil_r. split_and!; [done|done|].
  apply Hne. lia.
Qed.

Lemma ParseInt_FormatInt n : 0 <= n < 2 ^ 63 → ParseInt (FormatInt n) = Some n.
Proof.
  intros Hn. destruct (FormatInt_nonneg n) as (ds & E & Hds & Hne); [lia|].
  pose proof (ParseUint_digits 20 n [] 0) as (k & _ & _ & HP); [lia|lia|].
  unfold FormatInt in E. rewrite (proj2 (Z.ltb_ge n 0)) in E by lia. rewrite E in HP.
  unfold FormatInt. rewrite (proj2 (Z.ltb_ge n 0)), E by lia. unfold ParseInt.
  destruct ds as [|c ds]; [done|]. inversion Hds as [|? ? Hc]; subst. unfold is_digit in Hc.
  rewrite (proj2 (Z.eqb_neq c 43)), (proj2 (Z.eqb_neq c 45)) by lia.
  replace (0 * 10 ^ k + n) with n in HP by lia. rewrite HP. cbn [ParseUint negb andb].
  by rewrite (proj2 (Z.leb_gt (2 ^ 63) n)) by lia.
Qed.

Lemma FormatInt_inj n m : 0 <= n < 2 ^ 63 → 0 <= m < 2 ^ 63 → FormatInt n = FormatInt m → n = m.
Proof. intros Hn Hm E. apply (f_equal ParseInt) in E. rewrite !ParseInt_FormatInt in E by done. congruence. Qed.

(** ** Positions of separators *)

Lemma LastIndexByte_none c s : Forall (λ b, b ≠ c) s → LastIndexByte c s = None.
Proof. induction 1 as [|b s Hb _ IH]; simpl; [done|]. by rewrite IH, (proj2 (Z.eqb_neq b c)). Qed.

Lemma LastIndexByte_app c p s : Forall (λ b, b ≠ c) s → LastIndexByte c (p ++ c :: s) = Some (length p).
Proof.
  intros Hs. induction p as [|b p IH]; simpl; [by rewrite LastIndexByte_none, Z.eqb_refl|]. by rewrite IH.
Qed.

Lemma IndexByte_app c p s : Forall (λ b, b ≠ c) p → IndexByte c (p ++ c :: s) = Some (length p).
Proof.
  induction 1 as [|b p Hb _ IH]; simpl; [by rewrite Z.eqb_refl|]. by rewrite (proj2 (Z.eqb_neq b c)), IH.
Qed.

Lemma digits_avoid c ds : (c < 48 ∨ 57 < c) → Forall is_digit ds → Forall (λ b, b ≠ c) ds.
Proof. intros Hc H. eapply Forall_impl; [exact H|]. unfold is_digit. lia. Qed.

Lemma decide_avoid c (s : list Z) : forallb (λ b, negb (b =? c)) s = true → Forall (λ b, b ≠ c) s.
Proof.
  rewrite forallb_forall. intros H. apply Forall_forall. intros b Hb%list_elem_of_In%H.
  by apply negb_true_iff, Z.eqb_neq in Hb.
Qed.

(** A key that ends in /<n><suffix> gives n back, whatever comes before. *)
Lemma parse_numbered p n (suffix : list Z) :
  0 <= n < 2 ^ 63 → forallb (λ b, negb (b =? 47)) suffix = true → forallb (λ b, negb (b =? 46)) suffix = true →
  parseFirstSysFromKey (p ++ lit "/" ++ FormatInt n ++ lit "." ++ suffix) = Some n.
Proof.
  intros Hn H47%decide_avoid H46%decide_avoid. destruct (FormatInt_nonneg n) as (ds & E & Hds & Hne); [lia|].
  unfold parseFirstSysFromKey. change (lit "/") with [47]. change (lit ".") with [46]. rewrite E. cbn [app].
  rewrite LastIndexByte_app.
  2: { apply Forall_app. split; [apply digits_avoid; [lia|done]|]. constructor; [done|done]. }
  rewrite (proj2 (Nat.eqb_neq _ _)).
  2: { rewrite !length_app. simpl. rewrite length_app. simpl. destruct ds; [done|]. simpl. lia. }
  rewrite drop_app_ge by lia. replace (S (length p) - length p)%nat with 1%nat by lia.
  change (drop 1 (47 :: ds ++ 46 :: suffix)) with (ds ++ 46 :: suffix). rewrite LastIndexByte_app by done.
  rewrite take_app_length. destruct (length ds) eqn:L; [by destruct ds|].
  rewrite <- E, ParseInt_FormatInt by done. by rewrite (proj2 (Z.ltb_ge n 0)) by lia.
Qed.

Lemma parse_l0Key h n : 0 <= n < 2 ^ 63 → parseFirstSysFromKey (l0KeyFor h n) = Some n.
Proof.
  intros Hn. pose proof (parse_numbered (lit "l0/" ++ hexOf8 h) n (lit "arrow") Hn eq_refl eq_refl) as H.
  unfold l0KeyFor, l0Prefix. rewrite <- !app_assoc in *. exact H.
Qed.

Lemma parse_l1Key h n : 0 <= n < 2 ^ 63 → parseFirstSysFromKey (l1KeyFor h n) = Some n.
Proof.
  intros Hn. pose proof (parse_numbered (lit "l1/" ++ hexOf8 h) n (lit "arrow") Hn eq_refl eq_refl) as H.
  unfold l1KeyFor, l1Prefix. rewrite <- !app_assoc in *. exact H.
Qed.

Lemma parse_manifestKey h n : 0 <= n < 2 ^ 63 → parseFirstSysFromKey (manifestKeyFor h n) = Some n.
Proof.
  intros Hn. pose proof (parse_numbered (lit "compaction/" ++ hexOf8 h) n (lit "manifest") Hn eq_refl eq_refl) as H.
  unfold manifestKeyFor, manifestsPrefix. rewrite <- !app_assoc in *. exact H.
Qed.

(** ** Which prefix a key has *)

Lemma hexChar_inj a b : 0 <= a < 16 → 0 <= b < 16 → hexChar a = hexChar b → a = b.
Proof. unfold hexChar. intros Ha Hb. destruct (a <? 10) eqn:E1, (b <? 10) eqn:E2; lia. Qed.

Lemma length_hexEncode bs : length (hexEncode bs) = (2 * length bs)%nat.
Proof. unfold hexEncode. induction bs as [|b bs IH]; [done|]. cbn in *. rewrite IH. lia. Qed.

Lemma hexEncode_inj bs bs' : is_bytes bs → is_bytes bs' → hexEncode bs = hexEncode bs' → bs = bs'.
Proof.
  intros H. revert bs'. induction H as [|b bs Hb _ IH]; intros bs' H' E; destruct H' as [|b' bs' Hb' H']; [done|done|done|].
  unfold is_byte in *. unfold hexEncode in *. cbn in E. injection E as E1 E2 E3.
  apply hexChar_inj in E1; [|split; [apply Z.div_pos; lia|apply Z.div_lt_upper_bound; lia]..].
  apply hexChar_inj in E2; [|apply Z.mod_pos_bound; lia..]. f_equal; [|by apply IH].
  rewrite (Z.div_mod b 16), (Z.div_mod b' 16) by lia. congruence.
Qed.

Definition hash8_ok (h : list Z) : Prop := length h = 8%nat ∧ is_bytes h.

(** The key of one entity's file is not under another entity's prefix. *)
Lemma prefix_same (tier : list Z) h h' rest :
  hash8_ok h → hash8_ok h' → tier ++ hexOf8 h' ++ lit "/" `prefix_of` tier ++ hexOf8 h ++ rest → h = h'.
Proof.
  intros [Hl Hb] [Hl' Hb'] [k E]. rewrite <- app_assoc in E. apply app_inv_head in E.
  rewrite <- app_assoc in E. apply app_inj_1 in E as [E _]; [by apply hexEncode_inj|].
  unfold hexOf8. rewrite !length_hexEncode. lia.
Qed.

Lemma l0Key_l0Prefix h h' n : hash8_ok h → hash8_ok h' → HasPrefix (l0KeyFor h n) (l0Prefix h') = bool_decide (h = h').
Proof.
  intros Hh Hh'. unfold HasPrefix, l0KeyFor, l0Prefix. apply bool_decide_ext. rewrite <- !app_assoc. split; [by apply prefix_same|].
  intros ->. apply prefix_app, prefix_app, prefix_app_r. done.
Qed.

Lemma l1Key_l1Prefix h h' n : hash8_ok h → hash8_ok h' → HasPrefix (l1KeyFor h n) (l1Prefix h') = bool_decide (h = h').
Proof.
  intros Hh Hh'. unfold HasPrefix, l1KeyFor, l1Prefix. apply bool_decide_ext. rewrite <- !app_assoc. split; [by apply prefix_same|].
  intros ->. apply prefix_app, prefix_app, prefix_app_r. done.
Qed.

Lemma manifestKey_prefix h h' n :
  hash8_ok h → hash8_ok h' → HasPrefix (manifestKeyFor h n) (manifestsPrefix h') = bool_decide (h = h').
Proof.
  intros Hh Hh'. unfold HasPrefix, manifestKeyFor, manifestsPrefix. apply bool_decide_ext. rewrite <- !app_assoc.
  split; [by apply prefix_same|]. intros ->. apply prefix_app, prefix_app, prefix_app_r. done.
Qed.

(** The three tiers are told apart by their first bytes. *)
Definition tier_of (key : list Z) : list Z := take 3 key.

Lemma tier_prefix (p key : list Z) : (3 <= length p)%nat → HasPrefix key p = true → tier_of key = tier_of p.
Proof.
  intros Hl H%bool_decide_eq_true. destruct H as [k ->]. unfold tier_of. rewrite take_app_le by lia. done.
Qed.

Lemma l0Key_inj h n m : 0 <= n < 2 ^ 63 → 0 <= m < 2 ^ 63 → l0KeyFor h n = l0KeyFor h m → n = m.
Proof. intros Hn Hm E. apply (f_equal parseFirstSysFromKey) in E. rewrite !parse_l0Key in E by done. congruence. Qed.

Lemma l1Key_inj h n m : 0 <= n < 2 ^ 63 → 0 <= m < 2 ^ 63 → l1KeyFor h n = l1KeyFor h m → n = m.
Proof. intros Hn Hm E. apply (f_equal parseFirstSysFromKey) in E. rewrite !parse_l1Key in E by done. congruence. Qed.

(** ** Manifests read back *)

(** No trimming: neither the first nor the last byte can start or end a space. *)
Definition clean_line (s : list Z) : Prop :=
  Forall (λ b, b ≠ newline) s ∧ (∃ b s', s = b :: s' ∧ 32 < b < 128) ∧ (∃ b s', s = s' ++ [b] ∧ 32 < b < 128).

Lemma trim_front_id ws fuel b s : Forall (λ w, ∀ c w', w = c :: w' → c ≠ b) ws → Forall (λ w, w ≠ []) ws →
  trim_front ws fuel (b :: s) = b :: s.
Proof.
  intros H Hne. destruct fuel as [|k]; simpl; [done|].
  destruct (list_find _ ws) as [[i w]|] eqn:E; [|done]. exfalso.
  apply list_find_Some in E as (Hi & [r Hr] & _). rewrite Forall_lookup in H, Hne.
  destruct w as [|c w]; [by destruct (Hne _ _ Hi)|]. injection Hr as <- _. by apply (H _ _ Hi b w).
Qed.

Lemma spaces_heads b : 32 < b < 128 → Forall (λ w, ∀ c w', w = c :: w' → c ≠ b) spaces.
Proof. intros Hb. repeat constructor; intros c w' [= <- _]; lia. Qed.

Lemma spaces_tails b : 32 < b < 128 → Forall (λ w, ∀ c w', w = c :: w' → c ≠ b) (map reverse spaces).
Proof. intros Hb. repeat constructor; cbn; intros c w' [= <- _]; lia. Qed.

Lemma TrimSpace_clean s : clean_line s → TrimSpace s = s.
Proof.
  intros (_ & (b & s' & E & Hb) & (c & s'' & E' & Hc)). unfold TrimSpace.
  assert (trim_front spaces (length s) s = s) as ->.
  { generalize (length s) as fuel. intros fuel. rewrite E. apply trim_front_id; [by apply spaces_heads|by repeat constructor]. }
  assert (trim_front (map reverse spaces) (length s) (reverse s) = reverse s) as ->; [|apply reverse_involutive].
  generalize (length s) as fuel. intros fuel. rewrite E', reverse_app.
  apply (trim_front_id _ fuel c (reverse s'')); [by apply spaces_tails|by repeat constructor].
Qed.

Lemma parse_lines_line fuel ln rest st :
  Forall (λ b, b ≠ newline) ln →
  parse_lines (S fuel) (ln ++ newline :: rest) st = parse_lines fuel rest (manifest_line ln st).
Proof.
  intros H. cbn [parse_lines]. destruct (ln ++ newline :: rest) eqn:E; [by destruct ln|]. rewrite <- E.
  rewrite IndexByte_app by done. cbn [from_option id]. rewrite take_app_length.
  rewrite drop_app_ge by lia. replace (S (length ln) - length ln)%nat with 1%nat by lia. done.
Qed.

Lemma parse_l0_lines l0s fuel l1 acc :
  Forall (λ k, clean_line k ∧ HasPrefix k (lit "l0/") = true) l0s → l1 ≠ [] → (length l0s <= fuel)%nat →
  parse_lines fuel (l0s ≫= λ k, k ++ [newline]) (false, l1, acc) = (false, l1, acc ++ l0s).
Proof.
  intros H Hl1. revert fuel acc. induction H as [|k l0s [Hk Hp] _ IH]; intros fuel acc Hf.
  - rewrite app_nil_r. by destruct fuel.
  - destruct fuel as [|fuel]; [simpl in Hf; lia|]. rewrite bind_cons, <- app_assoc. cbn [app]. rewrite parse_lines_line by apply Hk.
    unfold manifest_line. rewrite TrimSpace_clean by done. destruct k as [|b k]; [by destruct Hk as (_ & (? & ? & ? & _) & _)|].
    rewrite bool_decide_eq_false_2 by done. cbn [andb]. rewrite Hp.
    rewrite IH by (simpl in Hf; lia). by rewrite <- app_assoc.
Qed.

(** What Compaction writes as a manifest is what the resolver and the reaper
    read. *)
Lemma ParseManifest_build l1Key l0Keys :
  clean_line l1Key → Forall (λ k, clean_line k ∧ HasPrefix k (lit "l0/") = true) l0Keys →
  ParseManifest (buildManifest l1Key l0Keys) = (l1Key, l0Keys).
Proof.
  intros H1 H0. unfold ParseManifest, buildManifest.
  assert (length l0Keys <= length (l0Keys ≫= λ k, k ++ [newline]))%nat as Hlen.
  { clear. induction l0Keys as [|k l IH]; [done|]. cbn in *. rewrite !length_app. simpl. lia. }
  rewrite length_app. cbn [length app]. rewrite <- plus_n_Sm. rewrite parse_lines_line by apply H1.
  unfold manifest_line at 1. rewrite TrimSpace_clean by done.
  destruct l1Key as [|b l1Key]; [by destruct H1 as (_ & (? & ? & ? & _) & _)|].
  rewrite parse_l0_lines; [done|done|done|]. lia.
Qed.
