(* ===== verification/Resolver.v ===== *)
(** The bitemporal resolver of the query tier (internal/database/query.go): AsOf
    and Range over the L0 and L1 Arrow files of an object store, the manifests
    that say which L0 files are superseded, and the live events of the engine.

    Arrow IPC files are the class [ArrowIPC]; the object store is the map from
    keys to contents, with an environment that fails downloads and listings and
    cancels the context.  Times are nanoseconds (UnixNano). *)
From S2P Require Import Prelude Bytes Sha256 Sorting LsmKeys.

(** ** Events, rows and files *)

Record TriTemporalEvent := mkTTE {
  te_EntityID : list Z;
  te_SystemTime : Z;
  te_ValidTimeStart : Z;
  te_ValidTimeEnd : Z;
  te_AssertionTime : Z;
  te_H3Index : Z;
  te_Payload : list Z;
  te_PayloadDigest : list Z;
}.

(** A row of a record with the columns of ArrowSchema. *)
Record Row := mkRow {
  entity_id_hash : list Z;
  system_time : Z;
  valid_time_start : Z;
  valid_time_end : Z;
  assertion_time : Z;
  h3_index : Z;
  payload_digest : list Z;
  entity_id : list Z;
  payload : list Z;
}.

Inductive DataType := FixedSizeBinaryType (byteWidth : Z) | TimestampNsUTC | Uint64Type | LargeBinaryType | OtherType.

#[global] Instance DataType_eq_dec : EqDecision DataType.
Proof. solve_decision. Defined.
#[global] Instance Row_eq_dec : EqDecision Row.
Proof. solve_decision. Defined.

Definition ArrowSchema : list DataType :=
  [FixedSizeBinaryType 16; TimestampNsUTC; TimestampNsUTC; TimestampNsUTC; TimestampNsUTC; Uint64Type;
   FixedSizeBinaryType 32; LargeBinaryType; LargeBinaryType].

(** What the columns' types say of a row. *)
Record row_typed (r : Row) : Prop := {
  rt_hash : length (entity_id_hash r) = 16%nat;
  rt_sys : is_i64 (system_time r);
  rt_vs : is_i64 (valid_time_start r);
  rt_ve : is_i64 (valid_time_end r);
  rt_ast : is_i64 (assertion_time r);
  rt_h3 : is_u64 (h3_index r);
  rt_digest : length (payload_digest r) = 32%nat;
}.

(** The Arrow IPC file format: a writer that puts rows into one record, and a
    reader that gives the types of the fields and the records, each of which may
    fail to load.  A record is read as rows once its types are ArrowSchema's. *)
Class ArrowIPC := {
  ipc_write : list Row → list Z;
  ipc_open : list Z → option (list DataType * list (option (list Row)));
  ipc_write_nonempty : ∀ rows, ipc_write rows ≠ [];
  ipc_open_write : ∀ rows, Forall row_typed rows → ipc_open (ipc_write rows) = Some (ArrowSchema, [Some rows]);
}.

(** The environment of one call: what ListObjects answers, which keys fail to
    download, and whether the n-th look at the context finds it cancelled. *)
Record IOEnv := mkIOEnv {
  list_objects : Store → list Z → option (list (list Z));
  download_fails : list Z → bool;
  cancelled : nat → bool;
}.

Definition Download (env : IOEnv) (s : Store) (key : list Z) : option (list Z) :=
  if download_fails env key then None else s !! key.

Record LiveEvent := mkLive {
  le_Payload : list Z;
  le_PayloadDigest : list Z;
  le_SystemTime : Z;
  le_ValidTimeStart : Z;
  le_ValidTimeEnd : Z;
  le_AssertionTime : Z;
  le_H3Index : Z;
}.

(** No live source, a live read that failed, or its events. *)
Inductive LiveRead := NoSource | LiveError | LiveEvents (lcs : list LiveEvent).

Record ResolverConfig := mkResolverConfig { MaxL0Files : Z; MaxRangeRows : Z; EnableFirstSysSkip : bool }.

Definition DefaultResolverConfig : ResolverConfig := mkResolverConfig 1000 4096 true.

Record Resolver := mkResolver { r_config : ResolverConfig; pruningFrontierObserved : Z }.

Definition NewResolver (config : ResolverConfig) : Resolver :=
  mkResolver (mkResolverConfig (if MaxL0Files config <=? 0 then 1000 else MaxL0Files config)
                               (if MaxRangeRows config <? 0 then 0 else MaxRangeRows config)
                               (EnableFirstSysSkip config)) 0.

Definition observeQueryTxTime (txTimeNs : Z) (r : Resolver) : Resolver :=
  if txTimeNs <=? pruningFrontierObserved r then r else mkResolver (r_config r) txTimeNs.

Definition QueryTxTimeFrontier (r : Resolver) : Z := pruningFrontierObserved r.

Inductive QueryError :=
  | ErrEmptyEntityID | ErrCancelledBeforeListing | ErrListL1 | ErrListL0 | ErrEntityNotFound | ErrCancelledDuringScan.

Inductive ScanError := ErrDownload | ErrArrowReader | ErrSchemaMismatch | ErrTypeMismatch.

Section Scan.
Context `{AI : ArrowIPC}.
Context (env : IOEnv) (s : Store).

(** The part scanFile, scanWindowFile and readEntityRowsFromKey share: download,
    open, compare the schema.  An empty object has no records and is no error. *)
Definition open_arrow (key : list Z) : result ScanError (list (option (list Row))) :=
  match Download env s key with
  | None => Err ErrDownload
  | Some [] => Ok []
  | Some data =>
      match ipc_open data with
      | None => Err ErrArrowReader
      | Some (schema, records) =>
          if negb (length schema =? length ArrowSchema)%nat then Err ErrSchemaMismatch
          else if bool_decide (schema = ArrowSchema) then Ok records else Err ErrTypeMismatch
      end
  end.

Section Query.
Context (hashPrefix entityIDBytes : list Z).

Definition event_of_row (r : Row) : TriTemporalEvent :=
  mkTTE (entity_id r) (system_time r) (valid_time_start r) (valid_time_end r) (assertion_time r) (h3_index r)
        (payload r) (payload_digest r).

(** The filters of scanRecordBatch, in its order. *)
Definition passes (validTimeNs txTimeNs : Z) (r : Row) : bool :=
  bool_decide (entity_id_hash r = hashPrefix) && negb (txTimeNs <? system_time r) &&
  negb ((validTimeNs <? valid_time_start r) || (valid_time_end r <=? validTimeNs)) &&
  bool_decide (entity_id r = entityIDBytes).

Definition scan_row (validTimeNs txTimeNs currentBest : Z) (acc : option Row * Z) (r : Row) : option Row * Z :=
  if passes validTimeNs txTimeNs r && negb ((system_time r <=? currentBest) || (system_time r <=? acc.2))
  then (Some r, system_time r) else acc.

Definition scanRecordBatch (rec : list Row) (validTimeNs txTimeNs currentBestSysTime : Z) : option TriTemporalEvent * Z :=
  let '(best, bestSysTime) := foldl (scan_row validTimeNs txTimeNs currentBestSysTime) (None, 0) rec in
  (event_of_row <$> best, bestSysTime).

(** [match != nil && sysTime > best]: the new candidate, or the old one. *)
Definition newer (cand best : option TriTemporalEvent * Z) : option TriTemporalEvent * Z :=
  match cand.1 with
  | Some _ => if best.2 <? cand.2 then cand else best
  | None => best
  end.

(** The records of a file; [n] counts the looks at the context. *)
Fixpoint scan_records (validTimeNs txTimeNs : Z) (recs : list (option (list Row))) (n : nat)
    (best : option TriTemporalEvent * Z) : option TriTemporalEvent * Z * nat :=
  match recs with
  | [] => (best, n)
  | rec :: recs' =>
      if cancelled env n then (best, S n)
      else
        match rec with
        | None => scan_records validTimeNs txTimeNs recs' (S n) best
        | Some rows =>
            scan_records validTimeNs txTimeNs recs' (S n)
              (newer (scanRecordBatch rows validTimeNs txTimeNs best.2) best)
        end
  end.

Definition scanFile (key : list Z) (validTimeNs txTimeNs : Z) (n : nat) :
    result ScanError (option TriTemporalEvent * Z) * nat :=
  match open_arrow key with
  | Err e => (Err e, n)
  | Ok records => let '(best, n) := scan_records validTimeNs txTimeNs records n (None, 0) in (Ok best, n)
  end.

(** The filter of scanWindowRecordBatch. *)
Definition overlaps (validLoNs validHiNs txTimeNs : Z) (r : Row) : bool :=
  bool_decide (entity_id_hash r = hashPrefix) && negb (txTimeNs <? system_time r) &&
  negb ((validHiNs <=? valid_time_start r) || (valid_time_end r <=? validLoNs)) &&
  bool_decide (entity_id r = entityIDBytes).

Fixpoint scanWindowRecordBatch (rec : list Row) (validLoNs validHiNs txTimeNs : Z)
    (out : list TriTemporalEvent) (cap : Z) : list TriTemporalEvent * bool :=
  match rec with
  | [] => (out, false)
  | r :: rec' =>
      if overlaps validLoNs validHiNs txTimeNs r then
        if (0 <? cap) && (cap <=? Z.of_nat (length out)) then (out, true)
        else scanWindowRecordBatch rec' validLoNs validHiNs txTimeNs (out ++ [event_of_row r]) cap
      else scanWindowRecordBatch rec' validLoNs validHiNs txTimeNs out cap
  end.

Fixpoint window_records (validLoNs validHiNs txTimeNs cap : Z) (recs : list (option (list Row))) (n : nat)
    (collected : list TriTemporalEvent) : list TriTemporalEvent * bool * nat :=
  match recs with
  | [] => (collected, false, n)
  | rec :: recs' =>
      if cancelled env n then (collected, false, S n)
      else
        match rec with
        | None => window_records validLoNs validHiNs txTimeNs cap recs' (S n) collected
        | Some rows =>
            let '(collected, stop) := scanWindowRecordBatch rows validLoNs validHiNs txTimeNs collected cap in
            if stop : bool then (collected, stop, S n)
            else window_records validLoNs validHiNs txTimeNs cap recs' (S n) collected
        end
  end.

Definition scanWindowFile (key : list Z) (validLoNs validHiNs txTimeNs : Z) (collected : list TriTemporalEvent)
    (cap : Z) (n : nat) : result ScanError (list TriTemporalEvent * bool) * nat :=
  match open_arrow key with
  | Err e => (Err e, n)
  | Ok records =>
      let '(collected, stop, n) := window_records validLoNs validHiNs txTimeNs cap records n collected in
      (Ok (collected, stop), n)
  end.
End Query.

(** ** Which files a query scans *)

(** A file or manifest whose name says that all its rows are later than the
    query. *)
Definition first_sys_skip (cfg : ResolverConfig) (txTimeNs : Z) (key : list Z) : bool :=
  EnableFirstSysSkip cfg &&
  match parseFirstSysFromKey key with Some firstSys => txTimeNs <? firstSys | None => false end.

Definition manifest_keys (mk : list Z) : list (list Z) :=
  match Download env s mk with
  | None => []
  | Some body => (ParseManifest body).2
  end.

Definition loadSupersededL0Keys (cfg : ResolverConfig) (prefix : list Z) (txTimeNs : Z) : gset (list Z) :=
  if negb (HasPrefix prefix (lit "l0/")) then ∅
  else
    match list_objects env s (lit "compaction/" ++ drop 3 prefix) with
    | None => ∅
    | Some keys =>
        list_to_set (filter (λ mk, first_sys_skip cfg txTimeNs mk = false) keys ≫= manifest_keys)
    end.

(** The newest files by name, when there are more than MaxL0Files. *)
Definition cap_tail (cfg : ResolverConfig) (tailKeys : list (list Z)) : list (list Z) :=
  if (0 <? MaxL0Files cfg) && (MaxL0Files cfg <? Z.of_nat (length tailKeys))
  then drop (length tailKeys - Z.to_nat (MaxL0Files cfg)) (insertion_sort bytes_compare tailKeys)
  else tailKeys.

Definition scan_keys (cfg : ResolverConfig) (superseded : gset (list Z)) (l1Keys l0Keys : list (list Z)) : list (list Z) :=
  let tailKeys := cap_tail cfg (filter (λ k, k ∉ superseded) l0Keys) in
  let scanKeys := if bool_decide (l1Keys = []) && bool_decide (tailKeys = []) then l0Keys else l1Keys in
  insertion_sort (λ a b, bytes_compare b a) (scanKeys ++ tailKeys).

(** ** AsOf *)

Fixpoint asof_scan (cfg : ResolverConfig) (hashPrefix entityIDBytes : list Z) (validTimeNs txTimeNs : Z)
    (keys : list (list Z)) (n : nat) (dominant : option TriTemporalEvent * Z) :
    option (option TriTemporalEvent * Z) :=
  match keys with
  | [] => Some dominant
  | key :: keys' =>
      if cancelled env n then None
      else if first_sys_skip cfg txTimeNs key
      then asof_scan cfg hashPrefix entityIDBytes validTimeNs txTimeNs keys' (S n) dominant
      else
        match scanFile hashPrefix entityIDBytes key validTimeNs txTimeNs (S n) with
        | (Err _, n) => asof_scan cfg hashPrefix entityIDBytes validTimeNs txTimeNs keys' n dominant
        | (Ok found, n) => asof_scan cfg hashPrefix entityIDBytes validTimeNs txTimeNs keys' n (newer found dominant)
        end
  end.

Definition live_event (entityID : list Z) (le : LiveEvent) : TriTemporalEvent :=
  mkTTE entityID (le_SystemTime le) (le_ValidTimeStart le) (le_ValidTimeEnd le) (le_AssertionTime le) (le_H3Index le)
        (le_Payload le) (le_PayloadDigest le).

Definition merge_live (entityID : list Z) (validTimeNs txTimeNs : Z) (dominant : option TriTemporalEvent * Z) (le : LiveEvent) :
    option TriTemporalEvent * Z :=
  if txTimeNs <? le_SystemTime le then dominant
  else if (validTimeNs <? le_ValidTimeStart le) || (le_ValidTimeEnd le <=? validTimeNs) then dominant
  else if dominant.2 <? le_SystemTime le then (Some (live_event entityID le), le_SystemTime le)
  else dominant.

Definition AsOf (live : LiveRead) (entityID : list Z) (validTimeNs txTimeNs : Z) (r : Resolver) :
    result QueryError TriTemporalEvent * Resolver :=
  let cfg := r_config r in
  if bool_decide (entityID = []) then (Err ErrEmptyEntityID, r)
  else
    let hashPrefix := take 16 (Sum256 entityID) in
    let hash8 := take 8 hashPrefix in
    let r := observeQueryTxTime txTimeNs r in
    if cancelled env 0 then (Err ErrCancelledBeforeListing, r)
    else
      match list_objects env s (l1Prefix hash8) with
      | None => (Err ErrListL1, r)
      | Some l1Keys =>
          match list_objects env s (l0Prefix hash8) with
          | None => (Err ErrListL0, r)
          | Some l0Keys =>
              if bool_decide (l1Keys = []) && bool_decide (l0Keys = []) &&
                 match live with NoSource => true | _ => false end
              then (Err ErrEntityNotFound, r)
              else
                let superseded := loadSupersededL0Keys cfg (l0Prefix hash8) txTimeNs in
                match asof_scan cfg hashPrefix entityID validTimeNs txTimeNs
                        (scan_keys cfg superseded l1Keys l0Keys) 1 (None, 0) with
                | None => (Err ErrCancelledDuringScan, r)
                | Some dominant =>
                    let dominant := match live with
                                    | LiveEvents lcs => foldl (merge_live entityID validTimeNs txTimeNs) dominant lcs
                                    | _ => dominant
                                    end in
                    (match dominant.1 with Some ev => Ok ev | None => Err ErrEntityNotFound end, r)
                end
          end
      end.

(** ** Range *)

Fixpoint range_scan (cfg : ResolverConfig) (hashPrefix entityIDBytes : list Z) (validLoNs validHiNs txTimeNs cap : Z)
    (keys : list (list Z)) (n : nat) (collected : list TriTemporalEvent) : option (list TriTemporalEvent * bool) :=
  match keys with
  | [] => Some (collected, false)
  | key :: keys' =>
      if cancelled env n then None
      else if first_sys_skip cfg txTimeNs key
      then range_scan cfg hashPrefix entityIDBytes validLoNs validHiNs txTimeNs cap keys' (S n) collected
      else
        match scanWindowFile hashPrefix entityIDBytes key validLoNs validHiNs txTimeNs collected cap (S n) with
        | (Err _, n) => range_scan cfg hashPrefix entityIDBytes validLoNs validHiNs txTimeNs cap keys' n collected
        | (Ok (rows, true), _) => Some (rows, true)
        | (Ok (rows, false), n) => range_scan cfg hashPrefix entityIDBytes validLoNs validHiNs txTimeNs cap keys' n rows
        end
  end.

Abbreviation liveRowKey := (Z * list Z)%type.

Definition row_key (ev : TriTemporalEvent) : liveRowKey := (te_SystemTime ev, te_PayloadDigest ev).

Fixpoint range_live (entityID : list Z) (validLoNs validHiNs txTimeNs cap : Z) (lcs : list LiveEvent)
    (seen : gset liveRowKey) (collected : list TriTemporalEvent) (truncated : bool) : list TriTemporalEvent * bool :=
  match lcs with
  | [] => (collected, truncated)
  | le :: lcs' =>
      if txTimeNs <? le_SystemTime le then range_live entityID validLoNs validHiNs txTimeNs cap lcs' seen collected truncated
      else if (validHiNs <=? le_ValidTimeStart le) || (le_ValidTimeEnd le <=? validLoNs)
      then range_live entityID validLoNs validHiNs txTimeNs cap lcs' seen collected truncated
      else
        let ev := live_event entityID le in
        if bool_decide (row_key ev ∈ seen)
        then range_live entityID validLoNs validHiNs txTimeNs cap lcs' seen collected truncated
        else if (0 <? cap) && (cap <=? Z.of_nat (length collected)) then (collected, true)
        else range_live entityID validLoNs validHiNs txTimeNs cap lcs' ({[row_key ev]} ∪ seen) (collected ++ [ev]) truncated
  end.

(** sort.SliceStable: insertion keeps equal elements in order. *)
Definition by_ValidTimeStart (a b : TriTemporalEvent) : comparison :=
  Z.compare (te_ValidTimeStart a) (te_ValidTimeStart b).

Definition Range (live : LiveRead) (entityID : list Z) (validLoNs validHiNs txTimeNs : Z) (r : Resolver) :
    result QueryError (list TriTemporalEvent * bool) :=
  let cfg := r_config r in
  if bool_decide (entityID = []) then Err ErrEmptyEntityID
  else if validHiNs <=? validLoNs then Err ErrEntityNotFound
  else
    let hashPrefix := take 16 (Sum256 entityID) in
    let hash8 := take 8 hashPrefix in
    if cancelled env 0 then Err ErrCancelledBeforeListing
    else
      match list_objects env s (l1Prefix hash8) with
      | None => Err ErrListL1
      | Some l1Keys =>
          match list_objects env s (l0Prefix hash8) with
          | None => Err ErrListL0
          | Some l0Keys =>
              if bool_decide (l1Keys = []) && bool_decide (l0Keys = []) &&
                 match live with NoSource => true | _ => false end
              then Err ErrEntityNotFound
              else
                let superseded := loadSupersededL0Keys cfg (l0Prefix hash8) txTimeNs in
                match range_scan cfg hashPrefix entityID validLoNs validHiNs txTimeNs (MaxRangeRows cfg)
                        (scan_keys cfg superseded l1Keys l0Keys) 1 [] with
                | None => Err ErrCancelledDuringScan
                | Some (collected, truncated) =>
                    let '(collected, truncated) :=
                      match live with
                      | LiveEvents (le :: lcs) =>
                          range_live entityID validLoNs validHiNs txTimeNs (MaxRangeRows cfg) (le :: lcs)
                            (list_to_set (map row_key collected)) collected truncated
                      | _ => (collected, truncated)
                      end in
                    match collected with
                    | [] => Err ErrEntityNotFound
                    | _ => Ok (insertion_sort by_ValidTimeStart collected, truncated)
                    end
                end
          end
      end.
End Scan.

(** ** CoalesceRange *)

Definition by_start_newest (a b : TriTemporalEvent) : comparison :=
  match Z.compare (te_ValidTimeStart a) (te_ValidTimeStart b) with
  | Eq => Z.compare (te_SystemTime b) (te_SystemTime a)
  | c => c
  end.

(** The first row of each start, in an ordered list. *)
Fixpoint first_of_starts (last : option Z) (rows : list TriTemporalEvent) : list TriTemporalEvent :=
  match rows with
  | [] => []
  | r :: rows' =>
      if bool_decide (last = Some (te_ValidTimeStart r)) then first_of_starts last rows'
      else r :: first_of_starts (Some (te_ValidTimeStart r)) rows'
  end.

Definition CoalesceRange (rows : list TriTemporalEvent) : list TriTemporalEvent :=
  if (length rows <=? 1)%nat then rows
  else first_of_starts None (insertion_sort by_start_newest rows).
