(* ===== verification/L1Compactor.v ===== *)
(** Compaction of the query tier (internal/database/l1_compactor.go), the reaper
    of superseded L0 files (l0_reaper.go) and the sweep that drives them
    (cmd/sovereign-node/main.go).

    An upload that fails may still have stored its object; every call reports
    what it did through the store it returns. *)
From S2P Require Import Prelude Bytes Sha256 Sorting LsmKeys Resolver.

Record CompactionConfig := mkCompactionConfig {
  L0FilesPerEntityTrigger : Z;
  MaxL1FilesPerEntity : Z;
  EnableDominancePruning : bool;
  PruningHorizonInt64Ns : Z;
  PruneBackoffInt64Ns : Z;
}.

Definition DefaultCompactionConfig : CompactionConfig := mkCompactionConfig 64 4 false 0 0.

Record horizonInferrer := mkInferrer { operatorFloor : Z; backoffNs : Z }.

Record L1Compactor := mkL1Compactor { lc_cfg : CompactionConfig; lc_inferrer : horizonInferrer }.

Definition NewL1Compactor (cfg : CompactionConfig) : L1Compactor :=
  let trigger := if L0FilesPerEntityTrigger cfg <=? 0 then 64 else L0FilesPerEntityTrigger cfg in
  let maxL1 := if MaxL1FilesPerEntity cfg <=? 0 then 4 else MaxL1FilesPerEntity cfg in
  if EnableDominancePruning cfg && (PruningHorizonInt64Ns cfg <=? 0)
  then mkL1Compactor (mkCompactionConfig trigger maxL1 false 0 (PruneBackoffInt64Ns cfg))
                     (mkInferrer 0 (PruneBackoffInt64Ns cfg))
  else mkL1Compactor (mkCompactionConfig trigger maxL1 (EnableDominancePruning cfg) (PruningHorizonInt64Ns cfg)
                                         (PruneBackoffInt64Ns cfg))
                     (mkInferrer (PruningHorizonInt64Ns cfg) (PruneBackoffInt64Ns cfg)).

Definition EffectiveHorizon (observedFrontier : Z) (c : L1Compactor) : Z :=
  let inferred := i64 (observedFrontier - backoffNs (lc_inferrer c)) in
  if inferred <? operatorFloor (lc_inferrer c) then operatorFloor (lc_inferrer c) else inferred.

Definition with_horizon (h : Z) (c : L1Compactor) : L1Compactor :=
  let cfg := lc_cfg c in
  mkL1Compactor (mkCompactionConfig (L0FilesPerEntityTrigger cfg) (MaxL1FilesPerEntity cfg) (EnableDominancePruning cfg) h
                                    (PruneBackoffInt64Ns cfg)) (lc_inferrer c).

Definition SetInferredHorizon (candidate : Z) (c : L1Compactor) : L1Compactor :=
  if candidate <=? PruningHorizonInt64Ns (lc_cfg c) then c else with_horizon candidate c.

Definition InferHorizon (resolver : option Resolver) (c : L1Compactor) : L1Compactor :=
  match resolver with
  | None => c
  | Some r => SetInferredHorizon (EffectiveHorizon (QueryTxTimeFrontier r) c) c
  end.

(** ** Rows in the merge *)

Record mergedRowT := mkMerged {
  frag : list Z;
  sysT : Z;
  vs : Z;
  ve : Z;
  ast : Z;
  h3 : Z;
  pdz : list Z;
  eid : list Z;
  pld : list Z;
}.

Definition merged_of_row (r : Row) : mergedRowT :=
  mkMerged (entity_id_hash r ++ be_put 8 (u64 (system_time r)) ++ be_put 8 (u64 (valid_time_start r)) ++
            be_put 8 (u64 (assertion_time r)))
           (system_time r) (valid_time_start r) (valid_time_end r) (assertion_time r) (h3_index r) (payload_digest r)
           (entity_id r) (payload r).

(** The columns Compaction appends for a merged row. *)
Definition row_of_merged (m : mergedRowT) : Row :=
  mkRow (take 16 (frag m)) (sysT m) (vs m) (ve m) (ast m) (h3 m) (pdz m) (eid m) (pld m).

Definition extractEntityRowsFromRecord (fullHash16 entityIDBytes : list Z) (rec : list Row) : list mergedRowT :=
  map merged_of_row (filter (λ r, entity_id_hash r = fullHash16 ∧ entity_id r = entityIDBytes) rec).

(** ** DominancePrune *)

Abbreviation liveInterval := (Z * Z)%type.

(** Some live interval contains the row's. *)
Definition covered (live : list liveInterval) (r : mergedRowT) : bool :=
  existsb (λ l, (l.1 <=? vs r) && (ve r <=? l.2)) live.

(** The rows at the front that have the given system time, and the rest. *)
Fixpoint split_batch (batchSys : Z) (rrows : list mergedRowT) : list mergedRowT * list mergedRowT :=
  match rrows with
  | r :: rest => if sysT r =? batchSys then let '(b, rest') := split_batch batchSys rest in (r :: b, rest') else ([], rrows)
  | [] => ([], [])
  end.

(** The sweep over the rows before [end], last row first; [acc] are the rows that
    stay behind [end].  A turn takes at least one row, so the number of rows is
    enough fuel. *)
Fixpoint prune_sweep (fuel : nat) (horizon : Z) (rrows : list mergedRowT) (live : list liveInterval)
    (acc : list mergedRowT) : list mergedRowT :=
  match fuel, rrows with
  | O, _ | _, [] => acc
  | S k, r :: _ =>
      let batchSys := sysT r in
      let '(batch, rest) := split_batch batchSys rrows in
      let kept := reverse (filter (λ r, covered live r = false) batch) in
      let live := if batchSys <=? horizon then live ++ map (λ r, (vs r, ve r)) kept else live in
      prune_sweep k horizon rest live (kept ++ acc)
  end.

Definition DominancePrune (rows : list mergedRowT) (horizon : Z) : list mergedRowT :=
  if bool_decide (rows = []) || (horizon <=? 0) then rows
  else prune_sweep (length rows) horizon (reverse rows) [] [].

(** ** Compaction *)

Inductive UploadOutcome := UpStored | UpFailed (stored : bool).

(** Upload: the store afterwards and whether the call succeeded. *)
Definition do_upload (o : UploadOutcome) (key data : list Z) (s : Store) : Store * bool :=
  match o with
  | UpStored => (<[key := data]> s, true)
  | UpFailed true => (<[key := data]> s, false)
  | UpFailed false => (s, false)
  end.

Record CompactionResult := mkCompactionResult {
  cr_EntityHash8 : list Z;
  cr_L0Files : list (list Z);
  cr_L1Key : list Z;
  cr_ManifestKey : list Z;
  cr_Rows : Z;
  cr_AlreadyMoved : bool;
  cr_RowsBefore : Z;
  cr_RowsAfter : Z;
  cr_RowsPruned : Z;
}.

Inductive CompactionError :=
  | ErrListL0Files | ErrCompactionCancelled | ErrArrowWrite | ErrUploadL1 (key : list Z) | ErrUploadManifest (key : list Z)
  | ErrRecoverEntityID | ErrNoRows | PanicColumnType.

Section Compactor.
Context `{AI : ArrowIPC}.
Context (env : IOEnv).

Fixpoint merge_records (fullHash16 entityIDBytes : list Z) (recs : list (option (list Row))) (n : nat) (out : list mergedRowT) :
    list mergedRowT * nat :=
  match recs with
  | [] => (out, n)
  | rec :: recs' =>
      if cancelled env n then (out, S n)
      else
        match rec with
        | None => merge_records fullHash16 entityIDBytes recs' (S n) out
        | Some rows =>
            merge_records fullHash16 entityIDBytes recs' (S n)
              (out ++ extractEntityRowsFromRecord fullHash16 entityIDBytes rows)
        end
  end.

Definition readEntityRowsFromKey (s : Store) (key entityID : list Z) (n : nat) : result ScanError (list mergedRowT) * nat :=
  match open_arrow env s key with
  | Err e => (Err e, n)
  | Ok records => let '(out, n) := merge_records (take 16 (Sum256 entityID)) entityID records n [] in (Ok out, n)
  end.

(** The merge loop: a file that cannot be read is passed over. *)
Fixpoint merge_files (s : Store) (entityID : list Z) (keys : list (list Z)) (n : nat) (rows : list mergedRowT) :
    option (list mergedRowT) :=
  match keys with
  | [] => Some rows
  | key :: keys' =>
      if cancelled env n then None
      else
        match readEntityRowsFromKey s key entityID (S n) with
        | (Err _, n) => merge_files s entityID keys' n rows
        | (Ok rowz, n) => merge_files s entityID keys' n (rows ++ rowz)
        end
  end.

Definition by_frag (a b : mergedRowT) : comparison := bytes_compare (frag a) (frag b).

Definition zlen {A} (l : list A) : Z := Z.of_nat (length l).

(** [arrow_ok], [up1] and [up2]: whether the Arrow writer works, and how the
    uploads of the L1 file and of the manifest end. *)
Definition Compaction (c : L1Compactor) (arrow_ok : bool) (up1 up2 : UploadOutcome) (entityID hash8 : list Z) (s : Store) :
    result CompactionError CompactionResult * Store :=
  match list_objects env s (l0Prefix hash8) with
  | None => (Err ErrListL0Files, s)
  | Some [] => (Ok (mkCompactionResult hash8 [] [] [] 0 true 0 0 0), s)
  | Some l0keys =>
      let l0keys := insertion_sort bytes_compare l0keys in
      match merge_files s entityID l0keys 0 [] with
      | None => (Err ErrCompactionCancelled, s)
      | Some [] => (Ok (mkCompactionResult hash8 l0keys [] [] 0 true 0 0 0), s)
      | Some rows =>
          let rows := insertion_sort by_frag rows in
          let rowsBefore := zlen rows in
          let pruning := EnableDominancePruning (lc_cfg c) && (0 <? PruningHorizonInt64Ns (lc_cfg c)) in
          let rows := if pruning then DominancePrune rows (PruningHorizonInt64Ns (lc_cfg c)) else rows in
          let rowsPruned := if pruning then rowsBefore - zlen rows else 0 in
          match rows with
          | [] => (Ok (mkCompactionResult hash8 l0keys [] [] 0 true rowsBefore 0 rowsBefore), s)
          | first :: _ =>
              let l1Key := l1KeyFor hash8 (sysT first) in
              if negb arrow_ok then (Err ErrArrowWrite, s)
              else
                let '(s, ok) := do_upload up1 l1Key (ipc_write (map row_of_merged rows)) s in
                if negb ok then (Err (ErrUploadL1 l1Key), s)
                else
                  let manifestKey := manifestKeyFor hash8 (sysT first) in
                  let '(s, ok) := do_upload up2 manifestKey (buildManifest l1Key l0keys) s in
                  if negb ok then (Err (ErrUploadManifest manifestKey), s)
                  else (Ok (mkCompactionResult hash8 l0keys l1Key manifestKey (zlen rows) false rowsBefore (zlen rows)
                              rowsPruned), s)
          end
      end
  end.

Definition SupersededL0Keys (s : Store) (hash8 : list Z) : gset (list Z) :=
  match list_objects env s (manifestsPrefix hash8) with
  | None => ∅
  | Some keys => list_to_set (keys ≫= manifest_keys env s)
  end.

(** firstEntityIDFromKey does not compare the schema: a column of another type
    panics. *)
Definition firstEntityIDFromKey (s : Store) (key : list Z) : result CompactionError (list Z) :=
  match Download env s key with
  | None => Err ErrRecoverEntityID
  | Some [] => Ok []
  | Some data =>
      match ipc_open data with
      | None => Err ErrRecoverEntityID
      | Some (_, []) => Ok []
      | Some (_, None :: _) => Err ErrRecoverEntityID
      | Some (_, Some [] :: _) => Ok []
      | Some (schema, Some (r :: _) :: _) =>
          if bool_decide (schema !! 7%nat = Some LargeBinaryType) then Ok (entity_id r) else Err PanicColumnType
      end
  end.

Definition CompactionByHash8 (c : L1Compactor) (arrow_ok : bool) (up1 up2 : UploadOutcome) (hash8 : list Z) (s : Store) :
    result CompactionError CompactionResult * Store :=
  match list_objects env s (l0Prefix hash8) with
  | None => (Err ErrListL0Files, s)
  | Some [] => (Ok (mkCompactionResult hash8 [] [] [] 0 true 0 0 0), s)
  | Some l0keys =>
      match insertion_sort bytes_compare l0keys with
      | [] => (Err ErrNoRows, s)
      | k0 :: _ =>
          match firstEntityIDFromKey s k0 with
          | Err e => (Err e, s)
          | Ok [] => (Err ErrNoRows, s)
          | Ok entityID => Compaction c arrow_ok up1 up2 entityID hash8 s
          end
      end
  end.

(** ** The reaper *)

Record ReapResult := mkReap { ReapedManifests : Z; ReapedL0 : Z; SkippedOrphan : Z; SkippedError : Z }.

Definition orphan (r : ReapResult) : ReapResult :=
  mkReap (ReapedManifests r) (ReapedL0 r) (SkippedOrphan r + 1) (SkippedError r).
Definition errored (r : ReapResult) : ReapResult :=
  mkReap (ReapedManifests r) (ReapedL0 r) (SkippedOrphan r) (SkippedError r + 1).
Definition reaped_l0 (r : ReapResult) : ReapResult :=
  mkReap (ReapedManifests r) (ReapedL0 r + 1) (SkippedOrphan r) (SkippedError r).
Definition reaped_manifest (r : ReapResult) : ReapResult :=
  mkReap (ReapedManifests r + 1) (ReapedL0 r) (SkippedOrphan r) (SkippedError r).

(** The deletes of one manifest, up to the first that fails. *)
Fixpoint delete_l0s (delete_ok : list Z → bool) (l0Keys : list (list Z)) (s : Store) (r : ReapResult) :
    bool * Store * ReapResult :=
  match l0Keys with
  | [] => (true, s, r)
  | k :: l0Keys' =>
      if delete_ok k then delete_l0s delete_ok l0Keys' (delete k s) (reaped_l0 r) else (false, s, r)
  end.

Definition reap_manifest (delete_ok : list Z → bool) (manifestKey : list Z) (s : Store) (r : ReapResult) : Store * ReapResult :=
  if negb (HasSuffix manifestKey (lit ".manifest")) then (s, r)
  else
    match Download env s manifestKey with
    | None => (s, orphan r)
    | Some body =>
        let '(l1Key, l0Keys) := ParseManifest body in
        if bool_decide (l1Key = []) then (s, orphan r)
        else
          match Download env s l1Key with
          | None => (s, orphan r)
          | Some _ =>
              let '(deletesOK, s, r) := delete_l0s delete_ok l0Keys s r in
              if negb deletesOK then (s, errored r)
              else if delete_ok manifestKey then (delete manifestKey s, reaped_manifest r)
              else (s, errored r)
          end
    end.

Fixpoint reap_all (delete_ok : list Z → bool) (manifestKeys : list (list Z)) (n : nat) (s : Store) (r : ReapResult) :
    Store * ReapResult :=
  match manifestKeys with
  | [] => (s, r)
  | mk :: manifestKeys' =>
      if cancelled env n then (s, r)
      else let '(s, r) := reap_manifest delete_ok mk s r in reap_all delete_ok manifestKeys' (S n) s r
  end.

Definition Reap (delete_ok : list Z → bool) (s : Store) : Store * ReapResult :=
  match list_objects env s (lit "compaction/") with
  | None => (s, mkReap 0 0 0 0)
  | Some manifestKeys => reap_all delete_ok manifestKeys 0 s (mkReap 0 0 0 0)
  end.

(** ** The compaction sweep *)

Definition hexNibble (c : Z) : option Z :=
  if (48 <=? c) && (c <=? 57) then Some (c - 48)
  else if (97 <=? c) && (c <=? 102) then Some (c - 97 + 10)
  else if (65 <=? c) && (c <=? 70) then Some (c - 65 + 10)
  else None.

Fixpoint hex_pairs (s : list Z) : option (list Z) :=
  match s with
  | [] => Some []
  | a :: b :: s' =>
      match hexNibble a, hexNibble b, hex_pairs s' with
      | Some hi, Some lo, Some bs => Some (hi * 16 + lo :: bs)
      | _, _, _ => None
      end
  | _ => None
  end.

Definition hexDecode8Into (hex : list Z) : option (list Z) :=
  if negb (length hex =? 16)%nat then None else hex_pairs hex.

(** The buckets in the order in which their first key is listed: hex segment,
    hash and number of keys. *)
Abbreviation bucket := (list Z * list Z * Z)%type.

Fixpoint bump (hexSeg : list Z) (bs : list bucket) : option (list bucket) :=
  match bs with
  | [] => None
  | (seg, h, n) :: bs' =>
      if bool_decide (seg = hexSeg) then Some ((seg, h, n + 1) :: bs')
      else (λ r, (seg, h, n) :: r) <$> bump hexSeg bs'
  end.

Definition add_key (bs : list bucket) (k : list Z) : list bucket :=
  if (length k <? 20)%nat || negb (HasPrefix k (lit "l0/")) || negb (bool_decide (k !! 19%nat = Some 47)) then bs
  else
    let hexSeg := take 16 (drop 3 k) in
    match bump hexSeg bs with
    | Some bs' => bs'
    | None => match hexDecode8Into hexSeg with
              | Some h => bs ++ [(hexSeg, h, 1)]
              | None => bs
              end
    end.

(** The compactions of the buckets that reach the trigger.  [ups i] are the
    Arrow writer and the uploads of the i-th; [stop i] cancels before it. *)
Fixpoint compact_buckets (c : L1Compactor) (ups : nat → bool * UploadOutcome * UploadOutcome) (stop : nat → bool)
    (i : nat) (bs : list bucket) (s : Store) : Store :=
  match bs with
  | [] => s
  | (_, h, n) :: bs' =>
      if n <? L0FilesPerEntityTrigger (lc_cfg c) then compact_buckets c ups stop i bs' s
      else if stop i then s
      else
        let '(arrow_ok, up1, up2) := ups i in
        compact_buckets c ups stop (S i) bs' (CompactionByHash8 c arrow_ok up1 up2 h s).2
  end.

Definition runCompactionSweep (c : L1Compactor) (resolver : option Resolver)
    (ups : nat → bool * UploadOutcome * UploadOutcome) (stop : nat → bool) (s : Store) : L1Compactor * Store :=
  let c := InferHorizon resolver c in
  match list_objects env s (lit "l0/") with
  | None | Some [] => (c, s)
  | Some l0Keys => (c, compact_buckets c ups stop 0 (foldl add_key [] l0Keys) s)
  end.
End Compactor.
