(* ===== verification/LsmPrune.v ===== *)
(** DominancePrune against its quadratic reference: the sweep with a set of live
    intervals drops exactly the rows that some other row dominates. *)
From S2P Require Import Prelude Bytes Sorting LsmKeys Resolver L1Compactor.

(** [r'] is newer than [r], contains its valid time, and is no later than the
    horizon. *)
Definition dominates (horizon : Z) (r' r : mergedRowT) : Prop :=
  sysT r < sysT r' ∧ (vs r' <= vs r ∧ ve r <= ve r') ∧ sysT r' <= horizon.

#[global] Instance dominates_dec horizon r' r : Decision (dominates horizon r' r).
Proof. unfold dominates. apply _. Defined.

(** The rows a reference that compares every pair keeps. *)
Definition undominated (horizon : Z) (rows : list mergedRowT) (r : mergedRowT) : Prop :=
  ¬ Exists (λ r', dominates horizon r' r) rows.

#[global] Instance undominated_dec horizon rows r : Decision (undominated horizon rows r).
Proof. unfold undominated. apply _. Defined.

Lemma elem_unreverse {A} (x : A) l : x ∈ reverse l → x ∈ l.
Proof. by rewrite elem_of_reverse. Qed.

Lemma filter_ext_elem {A} (P Q : A → Prop) `{∀ x, Decision (P x)} `{∀ x, Decision (Q x)} (l : list A) :
  (∀ x, x ∈ l → P x ↔ Q x) → filter P l = filter Q l.
Proof.
  induction l as [|x l IH]; intros H'; [done|]. rewrite !filter_cons, IH by (intros; apply H'; by right).
  destruct (H' x ltac:(by left)) as [H1 H2]. by repeat case_decide; auto; exfalso; auto.
Qed.

Lemma split_batch_spec b rrows batch rest :
  split_batch b rrows = (batch, rest) → StronglySorted (λ x y, sysT y <= sysT x) rrows → Forall (λ r, sysT r <= b) rrows →
  rrows = batch ++ rest ∧ Forall (λ r, sysT r = b) batch ∧ Forall (λ r, sysT r < b) rest.
Proof.
  revert batch rest. induction rrows as [|r rrows IH]; intros batch rest E Hs Hb; simpl in E; [by simplify_eq|].
  apply StronglySorted_inv in Hs as [Hs Hr]. apply Forall_cons in Hb as [Hrb Hb].
  destruct (sysT r =? b) eqn:Er.
  - apply Z.eqb_eq in Er. destruct (split_batch b rrows) as [b0 rest0]. injection E as <- <-.
    destruct (IH b0 rest0 eq_refl Hs Hb) as (-> & H1 & H2). by repeat constructor.
  - apply Z.eqb_neq in Er. injection E as <- <-. split_and!; [done|constructor|]. constructor; [lia|].
    eapply Forall_impl; [exact Hr|]. simpl. lia.
Qed.

Lemma covered_true live r : covered live r = true ↔ ∃ l, l ∈ live ∧ l.1 <= vs r ∧ ve r <= l.2.
Proof.
  unfold covered. rewrite existsb_exists. setoid_rewrite andb_true_iff. setoid_rewrite Z.leb_le.
  by setoid_rewrite list_elem_of_In.
Qed.

(** What the live set says of the rows [done] behind [end]. *)
Record live_ok (horizon : Z) (done : list mergedRowT) (live : list liveInterval) : Prop := {
  live_sound : ∀ l, l ∈ live → ∃ p, p ∈ done ∧ sysT p <= horizon ∧ l = (vs p, ve p);
  live_complete : ∀ p, p ∈ done → sysT p <= horizon → covered live p = true;
}.

Lemma covered_dominated horizon rrows done live r :
  live_ok horizon done live → (∀ p q, p ∈ done → q ∈ rrows → sysT q < sysT p) → Forall (λ q, sysT q <= sysT r) rrows →
  r ∈ rrows →
  covered live r = false ↔ undominated horizon (reverse rrows ++ done) r.
Proof.
  intros [Hsd Hcp] Hlt Hle Hr. unfold undominated. rewrite Exists_exists.
  destruct (covered live r) eqn:E; (split; [|try done]); [done|..].
  - intros H. exfalso. apply H. apply covered_true in E as (l & Hl & H1 & H2).
    destruct (Hsd l Hl) as (p & Hp & Hph & ->). exists p. split; [apply elem_of_app; by right|].
    split; [by apply Hlt|]. done.
  - intros _ (r' & Hin & Hs & [Hv He] & Hh). apply elem_of_app in Hin as [Hin%elem_unreverse|Hin].
    + rewrite Forall_forall in Hle. specialize (Hle _ Hin). lia.
    + specialize (Hcp _ Hin Hh). apply covered_true in Hcp as (l & Hl & H1 & H2).
      assert (covered live r = true) by (apply covered_true; exists l; split_and!; [done|lia|lia]). congruence.
Qed.

Lemma live_ok_step horizon b done batch live :
  live_ok horizon done live → Forall (λ r, sysT r = b) batch →
  live_ok horizon (reverse batch ++ done)
    (if b <=? horizon
     then live ++ map (λ r, (vs r, ve r)) (reverse (filter (λ r, covered live r = false) batch)) else live).
Proof.
  intros [Hsd Hcp] Hb. rewrite Forall_forall in Hb. destruct (b <=? horizon) eqn:E.
  - apply Z.leb_le in E. split.
    + intros l [Hl|Hl]%elem_of_app.
      { destruct (Hsd l Hl) as (p & Hp & H). exists p. split; [apply elem_of_app; by right|done]. }
      apply list_elem_of_fmap in Hl as (p & -> & Hp). apply elem_unreverse, list_elem_of_filter in Hp as [_ Hp].
      exists p. split; [apply elem_of_app; left; by apply elem_of_reverse|]. rewrite (Hb p Hp). done.
    + intros p [Hp%elem_unreverse|Hp]%elem_of_app Hh; unfold covered; rewrite existsb_app; apply orb_true_iff.
      * destruct (covered live p) eqn:Ec; [by left|]. right. apply existsb_exists. exists (vs p, ve p).
        split; [|simpl; by rewrite !Z.leb_refl]. apply list_elem_of_In, list_elem_of_fmap. exists p. split; [done|].
        apply elem_of_reverse, list_elem_of_filter. done.
      * left. by apply Hcp.
  - apply Z.leb_gt in E. split.
    + intros l Hl. destruct (Hsd l Hl) as (p & Hp & H). exists p. split; [apply elem_of_app; by right|done].
    + intros p [Hp%elem_unreverse|Hp]%elem_of_app Hh; [|by apply Hcp]. specialize (Hb p Hp). lia.
Qed.

Lemma prune_sweep_exact fuel horizon rrows done live acc :
  (length rrows <= fuel)%nat → StronglySorted (λ x y, sysT y <= sysT x) rrows →
  (∀ p q, p ∈ done → q ∈ rrows → sysT q < sysT p) → live_ok horizon done live →
  prune_sweep fuel horizon rrows live acc = filter (undominated horizon (reverse rrows ++ done)) (reverse rrows) ++ acc.
Proof.
  revert rrows done live acc. induction fuel as [|k IH]; intros rrows done live acc Hf Hs Hlt Hok.
  { destruct rrows; [done|simpl in Hf; lia]. }
  destruct rrows as [|r rrows]; [done|]. cbn [prune_sweep].
  destruct (split_batch (sysT r) (r :: rrows)) as [batch rest] eqn:E.
  assert (Forall (λ q, sysT q <= sysT r) (r :: rrows)) as Hle.
  { constructor; [lia|]. by apply StronglySorted_inv in Hs as [_ ?]. }
  destruct (split_batch_spec _ _ _ _ E Hs Hle) as (Eq & Hb & Hrest).
  assert (batch ≠ []) as Hne.
  { cbn in E. rewrite Z.eqb_refl in E. destruct (split_batch _ rrows). by injection E as <- <-. }
  clear E. rewrite Eq in *. rewrite reverse_app, filter_app.
  assert (reverse (filter (λ q, covered live q = false) batch) =
          filter (undominated horizon (reverse (batch ++ rest) ++ done)) (reverse batch)) as Hkept.
  { rewrite <- filter_reverse. apply filter_ext_elem.
    intros q Hq%elem_unreverse. apply covered_dominated; [done|done| |apply elem_of_app; by left].
    rewrite Forall_forall in Hb. by rewrite (Hb q Hq). }
  rewrite reverse_app in Hkept. rewrite <- app_assoc in *. rewrite Hkept at 2.
  rewrite (IH rest (reverse batch ++ done)); [|..].
  - by rewrite <- app_assoc.
  - rewrite length_app in Hf. destruct batch; [done|]. simpl in Hf. lia.
  - by apply StronglySorted_app_1_r in Hs.
  - intros p q [Hp%elem_unreverse|Hp]%elem_of_app Hq.
    + rewrite Forall_forall in Hb, Hrest. rewrite (Hb p Hp). by apply Hrest.
    + apply Hlt; [done|]. apply elem_of_app. by right.
  - by apply live_ok_step.
Qed.

Lemma reverse_sorted {A} (R : relation A) (l : list A) : StronglySorted R l → StronglySorted (flip R) (reverse l).
Proof.
  induction 1 as [|x l Hs IH Hx]; [constructor|]. rewrite reverse_cons. apply StronglySorted_app_2; [|done|by repeat constructor].
  intros a b Ha%elem_unreverse ->%list_elem_of_singleton. rewrite Forall_forall in Hx. by apply Hx.
Qed.

Lemma prune_filter (rows : list mergedRowT) (horizon : Z) :
  0 < horizon → StronglySorted (λ a b, sysT a <= sysT b) rows →
  DominancePrune rows horizon = filter (undominated horizon rows) rows.
Proof.
  intros Hh Hs. unfold DominancePrune. rewrite (proj2 (Z.leb_gt horizon 0)) by lia. rewrite orb_false_r.
  case_bool_decide as E; [by rewrite E|].
  rewrite (prune_sweep_exact _ _ _ []).
  - by rewrite reverse_involutive, !app_nil_r.
  - by rewrite length_reverse.
  - by apply reverse_sorted in Hs.
  - intros p q Hp. by apply not_elem_of_nil in Hp.
  - split; [intros l Hl|intros p Hp]; by apply not_elem_of_nil in Hl || by apply not_elem_of_nil in Hp.
Qed.

(** Every row that is dropped is dominated by one that is kept. *)
Lemma kept_dominator horizon rows r :
  r ∈ rows → ∃ r', r' ∈ filter (undominated horizon rows) rows ∧ (r' = r ∨ dominates horizon r' r).
Proof.
  remember (Z.to_nat (horizon - sysT r)) as m eqn:Em. revert r Em.
  induction m as [m IH] using lt_wf_ind. intros r -> Hr. destruct (decide (undominated horizon rows r)) as [Hu|Hd].
  { exists r. split; [by apply list_elem_of_filter|by left]. }
  apply dec_stable in Hd. apply Exists_exists in Hd as (d & Hin & Hs & [Hv He] & Hh).
  destruct (IH (Z.to_nat (horizon - sysT d)) ltac:(lia) d eq_refl Hin) as (r' & Hr' & H).
  exists r'. split; [done|]. right. destruct H as [->|(Hs' & [Hv' He'] & Hh')]; unfold dominates; lia.
Qed.

(** C30. The sweep with live intervals keeps exactly the rows that the quadratic
    reference keeps: in rows ordered by system time, those for which no row is
    newer, contains their valid time and is within the horizon; and every row it
    drops is dominated by a row it keeps. *)
Theorem dominance_prune_exact (rows : list mergedRowT) (horizon : Z) :
  0 < horizon → StronglySorted (λ a b, sysT a <= sysT b) rows →
  DominancePrune rows horizon = filter (undominated horizon rows) rows ∧
  ∀ r, r ∈ rows → ∃ r', r' ∈ DominancePrune rows horizon ∧ (r' = r ∨ dominates horizon r' r).
Proof.
  intros Hh Hs. rewrite prune_filter by done. split; [done|]. intros r. apply kept_dominator.
Qed.

Definition row3 (sys s e : Z) : mergedRowT := merged_of_row (mkRow [] sys s e 0 0 [] [] []).

Lemma dominance_prune_exact_witness :
  DominancePrune [row3 1 0 10; row3 2 0 5; row3 3 0 5; row3 9 0 10] 3 = [row3 1 0 10; row3 3 0 5; row3 9 0 10].
Proof.
  destruct (dominance_prune_exact [row3 1 0 10; row3 2 0 5; row3 3 0 5; row3 9 0 10] 3) as [-> _];
    [lia|repeat constructor; cbn; lia|by vm_compute].
Defined.

(** ** The composite key orders rows by system time *)

Lemma list_compare_app {A} (cmp : A → A → comparison) a b c d :
  length a = length b →
  list_compare cmp (a ++ c) (b ++ d) = match list_compare cmp a b with Eq => list_compare cmp c d | o => o end.
Proof.
  revert b. induction a as [|x a IH]; intros [|y b] H; try done. simpl. injection H as H.
  destruct (cmp x y); [by apply IH|done|done].
Qed.

Lemma bytes_compare_app a b c d :
  length a = length b →
  bytes_compare (a ++ c) (b ++ d) = match bytes_compare a b with Eq => bytes_compare c d | o => o end.
Proof. apply list_compare_app. Qed.

Lemma be_put_S n x : be_put (S n) x = be_put n (x / 256) ++ [x `mod` 256].
Proof.
  unfold be_put, le_put. rewrite Nat2Z.inj_succ, Z_to_little_endian_succ by lia.
  rewrite reverse_cons, Z.land_ones, Z.shiftr_div_pow2 by lia. done.
Qed.

(** Big-endian numbers of one width compare as their values. *)
Lemma be_compare n x y :
  0 <= x < 2 ^ (Z.of_nat n * 8) → 0 <= y < 2 ^ (Z.of_nat n * 8) → bytes_compare (be_put n x) (be_put n y) = Z.compare x y.
Proof.
  revert x y. induction n as [|n IH]; intros x y Hx Hy.
  - assert (x = 0) as -> by lia. assert (y = 0) as -> by lia. done.
  - replace (Z.of_nat (S n) * 8) with (Z.of_nat n * 8 + 8) in Hx, Hy by lia.
    rewrite Z.pow_add_r in Hx, Hy by lia. rewrite !be_put_S, bytes_compare_app by (by rewrite !length_be_put).
    rewrite IH by (split; [apply Z.div_pos; lia|apply Z.div_lt_upper_bound; lia]).
    pose proof (Z.div_mod x 256 ltac:(lia)) as Ex. pose proof (Z.div_mod y 256 ltac:(lia)) as Ey.
    pose proof (Z.mod_pos_bound x 256 ltac:(lia)). pose proof (Z.mod_pos_bound y 256 ltac:(lia)).
    destruct (Z.compare_spec (x / 256) (y / 256)) as [E|E|E].
    + cbn. destruct (Z.compare_spec (x `mod` 256) (y `mod` 256)); symmetry; [apply Z.compare_eq_iff|apply Z.compare_lt_iff|apply Z.compare_gt_iff]; lia.
    + symmetry. apply Z.compare_lt_iff. nia.
    + symmetry. apply Z.compare_gt_iff. nia.
Qed.

Lemma StronglySorted_impl {A} (R R' : relation A) (l : list A) :
  (∀ x y, x ∈ l → y ∈ l → R x y → R' x y) → StronglySorted R l → StronglySorted R' l.
Proof.
  intros H Hs. induction Hs as [|x l Hs IH Hx]; [constructor|]. constructor.
  - apply IH. intros a b Ha Hb. apply H; by right.
  - apply Forall_forall. rewrite Forall_forall in Hx. intros y Hy. apply H; [by left|by right|by apply Hx].
Qed.

(** One entity's rows with system times that are not negative. *)
Lemma frag_order hash rows :
  Forall (λ r, entity_id_hash r = hash ∧ 0 <= system_time r < 2 ^ 63) rows →
  StronglySorted (λ a b, sysT a <= sysT b) (insertion_sort by_frag (map merged_of_row rows)).
Proof.
  intros H. assert (WeakCmp by_frag) as Hw by exact (weak_by_key frag bytes_compare).
  apply (StronglySorted_impl (λ a b, by_frag a b ≠ Gt)); [|by apply insertion_sort_sorted].
  intros a b Ha Hb Hab. rewrite insertion_sort_perm in Ha, Hb.
  apply list_elem_of_fmap in Ha as (ra & -> & Ha). apply list_elem_of_fmap in Hb as (rb & -> & Hb).
  rewrite Forall_forall in H. destruct (H ra Ha) as [Ea Sa], (H rb Hb) as [Eb Sb]. cbn.
  unfold by_frag in Hab. cbn [frag merged_of_row] in Hab. rewrite Ea, Eb, bytes_compare_app, (cmp_refl bytes_compare) in Hab by done.
  rewrite bytes_compare_app in Hab by (by rewrite !length_be_put).
  unfold u64 in Hab. rewrite !(Z.mod_small (system_time _)), be_compare in Hab by lia.
  destruct (Z.compare_spec (system_time ra) (system_time rb)); [lia|lia|done].
Qed.
