(* ===== verification/ResolverThms.v ===== *)
(** What the scan of AsOf computes: the event with the greatest system time
    among those that are visible in the scanned files. *)
From S2P Require Import Prelude Bytes Sha256 Sorting LsmKeys Resolver LsmPrune.

(** [d] is a greatest event of [S], or says that [S] has none with a positive
    system time. *)
Record best (S : TriTemporalEvent → Prop) (d : option TriTemporalEvent * Z) : Prop := {
  best_in : ∀ ev, d.1 = Some ev → S ev ∧ te_SystemTime ev = d.2 ∧ 0 < d.2;
  best_none : d.1 = None → d.2 = 0;
  best_max : ∀ ev, S ev → te_SystemTime ev <= d.2;
}.

(** Nothing seen yet: the initial value of the loops, where a set with no
    positive system time counts as empty. *)
Lemma best_empty (S : TriTemporalEvent → Prop) : (∀ ev, S ev → te_SystemTime ev <= 0) → best S (None, 0).
Proof. intros H. by split. Qed.

Lemma best_nonneg S d : best S d → 0 <= d.2.
Proof.
  intros [Hi Hn _]. destruct d as [[ev|] b]; simpl in *; [destruct (Hi ev eq_refl) as (_ & _ & ?); lia|rewrite Hn; done].
Qed.

Lemma best_iff S S' d : (∀ ev, S ev ↔ S' ev) → best S d → best S' d.
Proof.
  intros H [Hi Hn Hm]. split; [|done|].
  - intros ev E. destruct (Hi ev E) as (? & ? & ?). split; [by apply H|done].
  - intros ev Hev. apply Hm. by apply H.
Qed.

Lemma best_newer S S' c d : best S' c → best S d → best (λ ev, S ev ∨ S' ev) (newer c d).
Proof.
  intros [Hi' Hn' Hm'] [Hi Hn Hm]. unfold newer. destruct c as [[ev'|] b']; cbn [fst snd] in *.
  - destruct (d.2 <? b') eqn:E; [apply Z.ltb_lt in E|apply Z.ltb_ge in E].
    + split; cbn [fst snd].
      * intros ev [= <-]. destruct (Hi' ev' eq_refl) as (? & ? & ?). split; [by right|done].
      * done.
      * intros ev [Hev|Hev]; [specialize (Hm ev Hev); lia|by apply Hm'].
    + split; [intros ev E'; destruct (Hi ev E') as (? & ?); split; [by left|done]|done|].
      intros ev [Hev|Hev]; [by apply Hm|]. specialize (Hm' ev Hev). lia.
  - specialize (Hn' eq_refl). subst b'.
    pose proof (best_nonneg S d ltac:(by split)) as Hp.
    split; [intros ev E'; destruct (Hi ev E') as (? & ?); split; [by left|done]|done|].
    intros ev [Hev|Hev]; [by apply Hm|]. specialize (Hm' ev Hev). lia.
Qed.

Section Scan.
Context `{AI : ArrowIPC}.
Context (env : IOEnv) (s : Store).
Context (H16 eid : list Z) (v t : Z).
Hypothesis no_cancel : ∀ n, cancelled env n = false.
Hypothesis no_fail : ∀ k, download_fails env k = false.

(** The visible events of some rows. *)
Definition visible_rows (rows : list Row) (ev : TriTemporalEvent) : Prop :=
  ∃ r, r ∈ rows ∧ passes H16 eid v t r = true ∧ ev = event_of_row r.

Lemma scan_rows_spec cb rows acc res :
  foldl (scan_row H16 eid v t cb) acc rows = res →
  (res.1 = acc.1 ∧ res.2 = acc.2 ∨
   ∃ r, res = (Some r, system_time r) ∧ r ∈ rows ∧ passes H16 eid v t r = true ∧ cb < system_time r ∧ acc.2 < system_time r) ∧
  acc.2 <= res.2 ∧ ∀ r, r ∈ rows → passes H16 eid v t r = true → system_time r <= Z.max cb res.2.
Proof.
  revert acc. induction rows as [|r rows IH]; intros acc E; cbn [foldl] in E.
  { subst res. split_and!; [by left|lia|]. intros r Hr. by apply not_elem_of_nil in Hr. }
  destruct (IH _ E) as (H1 & H2 & H3). clear IH E. unfold scan_row in *.
  destruct (passes H16 eid v t r && negb ((system_time r <=? cb) || (system_time r <=? acc.2))) eqn:C.
  - apply andb_true_iff in C as [Cp C]. apply negb_true_iff, orb_false_iff in C as [C1%Z.leb_gt C2%Z.leb_gt].
    cbn [fst snd] in *. split_and!.
    + right. destruct H1 as [[E1 E2]|(r' & -> & Hr' & Hp & Hc & Ha)].
      * exists r. split_and!; [destruct res; simpl in *; congruence|by left|done|lia|lia].
      * exists r'. split_and!; [done|by right|done|lia|lia].
    + lia.
    + intros r' [->|Hr']%elem_of_cons Hp; [lia|by apply H3].
  - split_and!.
    + destruct H1 as [H1|(r' & -> & Hr' & Hp & Hc)]; [by left|]. right. exists r'. split_and!; [done|by right|done|lia|lia].
    + lia.
    + intros r' [->|Hr']%elem_of_cons Hp; [|by apply H3]. rewrite Hp in C. cbn [andb] in C.
      apply negb_false_iff, orb_true_iff in C as [C%Z.leb_le|C%Z.leb_le]; lia.
Qed.

Lemma scanRecordBatch_best S rows d :
  best S d → best (λ ev, S ev ∨ visible_rows rows ev) (newer (scanRecordBatch H16 eid rows v t d.2) d).
Proof.
  intros Hd. pose proof (best_nonneg S d Hd) as Hp. unfold scanRecordBatch.
  destruct (foldl _ _ _) as [o b] eqn:E.
  destruct (scan_rows_spec _ _ _ _ E) as (H1 & H2 & H3). clear E. cbn [fst snd] in *.
  destruct Hd as [Hi Hn Hm]. destruct H1 as [[-> ->]|(r & [= -> ->] & Hr & Hpass & Hc & H0)]; unfold newer; cbn [fst snd fmap option_fmap option_map].
  - split; [intros ev E'; destruct (Hi ev E') as (? & ?); split; [by left|done]|done|].
    intros ev [Hev|(r & Hr & Hpass & ->)]; [by apply Hm|]. specialize (H3 r Hr Hpass). simpl. lia.
  - rewrite (proj2 (Z.ltb_lt _ _)) by lia. split; cbn [fst snd].
    + intros ev [= <-]. split; [right; by exists r|]. simpl. split; [done|lia].
    + done.
    + intros ev [Hev|(r' & Hr' & Hpass' & ->)]; [specialize (Hm ev Hev); lia|]. specialize (H3 r' Hr' Hpass'). simpl. lia.
Qed.

(** The rows of a file's records that could be loaded. *)
Definition loaded (recs : list (option (list Row))) : list Row := recs ≫= default [].

Lemma scan_records_best S recs n d :
  best S d → best (λ ev, S ev ∨ visible_rows (loaded recs) ev) (scan_records env H16 eid v t recs n d).1.
Proof.
  revert S n d. induction recs as [|rec recs IH]; intros S n d Hd; cbn [scan_records].
  - apply (best_iff S); [|done]. intros ev. split; [by left|]. intros [?|(r & Hr & _)]; [done|]. by apply not_elem_of_nil in Hr.
  - rewrite no_cancel. destruct rec as [rows|].
    + eapply best_iff; [|apply IH, scanRecordBatch_best, Hd]. intros ev. unfold visible_rows, loaded. rewrite bind_cons.
      setoid_rewrite elem_of_app. simpl. naive_solver.
    + eapply best_iff; [|apply IH, Hd]. intros ev. unfold visible_rows, loaded. rewrite bind_cons. done.
Qed.

(** The files the scan relies on: rows written by the Arrow writer, all at or
    after the system time in the file's name. *)
Definition good_file (rows_of : list Z → list Row) (key : list Z) : Prop :=
  s !! key = Some (ipc_write (rows_of key)) ∧ Forall row_typed (rows_of key) ∧
  ∀ n, parseFirstSysFromKey key = Some n → Forall (λ r, n <= system_time r) (rows_of key).

Lemma open_good rows_of key : good_file rows_of key → open_arrow env s key = Ok [Some (rows_of key)].
Proof.
  intros (E & Ht & _). unfold open_arrow, Download. rewrite no_fail, E.
  pose proof (ipc_write_nonempty (rows_of key)) as Hne. destruct (ipc_write (rows_of key)) as [|b bs] eqn:Ed; [done|].
  rewrite <- Ed, ipc_open_write by done. cbn [negb]. by rewrite Nat.eqb_refl, bool_decide_eq_true_2.
Qed.

Lemma asof_scan_best cfg rows_of S keys n d :
  Forall (good_file rows_of) keys → best S d →
  ∃ d', asof_scan env s cfg H16 eid v t keys n d = Some d' ∧
        best (λ ev, S ev ∨ ∃ k, k ∈ keys ∧ visible_rows (rows_of k) ev) d'.
Proof.
  intros Hg. revert S n d. induction Hg as [|key keys Hk _ IH]; intros S n d Hd; cbn [asof_scan].
  - exists d. split; [done|]. apply (best_iff S); [|done]. intros ev. split; [by left|].
    intros [?|(k & Hk & _)]; [done|]. by apply not_elem_of_nil in Hk.
  - rewrite no_cancel. destruct (first_sys_skip cfg t key) eqn:Esk.
    + destruct (IH S (Datatypes.S n) d Hd) as (d' & -> & Hb). exists d'. split; [done|].
      eapply best_iff; [|exact Hb]. intros ev. setoid_rewrite elem_of_cons.
      split; [naive_solver|]. intros [?|(k & [->|Hk'] & Hv)]; [by left| |right; by exists k].
      exfalso. unfold first_sys_skip in Esk. apply andb_true_iff in Esk as [_ Esk].
      destruct (parseFirstSysFromKey key) as [m|] eqn:Em; [|done]. apply Z.ltb_lt in Esk.
      destruct Hk as (_ & _ & Hfirst). specialize (Hfirst m Em). rewrite Forall_forall in Hfirst.
      destruct Hv as (r & Hr & Hpass & _). specialize (Hfirst r Hr). unfold passes in Hpass.
      rewrite !andb_true_iff, negb_true_iff, Z.ltb_ge in Hpass. lia.
    + unfold scanFile. rewrite (open_good rows_of key Hk).
      pose proof (scan_records_best (λ _, False) [Some (rows_of key)] (Datatypes.S n) (None, 0)) as Hf.
      destruct (scan_records env H16 eid v t [Some (rows_of key)] (Datatypes.S n) (None, 0)) as [found n'].
      specialize (Hf (best_empty (λ _, False) (λ _ F, False_ind _ F))). cbn [fst] in Hf.
      destruct (IH _ n' _ (best_newer _ _ _ _ Hf Hd)) as (d' & -> & Hb). exists d'. split; [done|].
      eapply best_iff; [|exact Hb]. intros ev. setoid_rewrite elem_of_cons. unfold loaded, visible_rows. rewrite bind_cons.
      cbn [from_option id mbind list_bind]. rewrite app_nil_r. naive_solver.
Qed.

(** ** The live events *)

Definition visible_live (lcs : list LiveEvent) (ev : TriTemporalEvent) : Prop :=
  ∃ le, le ∈ lcs ∧ ev = live_event eid le ∧ te_SystemTime ev <= t ∧ te_ValidTimeStart ev <= v < te_ValidTimeEnd ev.

Lemma merge_live_best S lcs d :
  best S d → best (λ ev, S ev ∨ visible_live lcs ev) (foldl (merge_live eid v t) d lcs).
Proof.
  revert S d. induction lcs as [|le lcs IH]; intros S d Hd; cbn [foldl].
  - apply (best_iff S); [|done]. intros ev. split; [by left|]. intros [?|(le & Hl & _)]; [done|]. by apply not_elem_of_nil in Hl.
  - eapply best_iff; [|apply (IH (λ ev, S ev ∨ visible_live [le] ev))].
    { intros ev. unfold visible_live. setoid_rewrite elem_of_cons. setoid_rewrite elem_of_nil. naive_solver. }
    clear IH. unfold merge_live. pose proof (best_nonneg S d Hd) as Hp. destruct Hd as [Hi Hn Hm].
    assert (∀ b, (∀ ev, visible_live [le] ev → te_SystemTime ev <= d.2) → b = d →
            best (λ ev, S ev ∨ visible_live [le] ev) b) as Hkeep.
    { intros b Hle ->. split; [intros ev E'; destruct (Hi ev E') as (? & ?); split; [by left|done]|done|].
      intros ev [Hev|Hev]; [by apply Hm|by apply Hle]. }
    destruct (t <? le_SystemTime le) eqn:E1; [apply Z.ltb_lt in E1|apply Z.ltb_ge in E1].
    { apply Hkeep; [|done]. intros ev (le' & ->%list_elem_of_singleton & -> & Ht & _). simpl in Ht. lia. }
    destruct ((v <? le_ValidTimeStart le) || (le_ValidTimeEnd le <=? v)) eqn:E2.
    { apply Hkeep; [|done]. intros ev (le' & ->%list_elem_of_singleton & -> & _ & Hv). simpl in Hv.
      apply orb_true_iff in E2 as [E2%Z.ltb_lt|E2%Z.leb_le]; lia. }
    apply orb_false_iff in E2 as [E2%Z.ltb_ge E3%Z.leb_gt].
    destruct (d.2 <? le_SystemTime le) eqn:E4; [apply Z.ltb_lt in E4|apply Z.ltb_ge in E4].
    + split; cbn [fst snd].
      * intros ev [= <-]. split; [right; exists le; split_and!; [by left|done|done|done|done]|]. simpl. split; [done|lia].
      * done.
      * intros ev [Hev|(le' & ->%list_elem_of_singleton & -> & _)]; [specialize (Hm ev Hev); lia|done].
    + apply Hkeep; [|done]. intros ev (le' & ->%list_elem_of_singleton & -> & _). simpl. lia.
Qed.
End Scan.
