(* ===== verification/LsmInv.v ===== *)
(** The files of one entity in the query tier, as a representation of its
    history: what flushes, compactions and reaps keep true of the object store,
    and what AsOf answers from it. *)
From S2P Require Import Prelude Bytes Sha256 Sorting LsmKeys Resolver L1Compactor LsmPrune.
From S2P Require Import ResolverThms.

(** A context that lives, downloads that succeed and complete listings. *)
Record calm (env : IOEnv) (s : Store) : Prop := {
  calm_list : ∀ p, ∃ l, list_objects env s p = Some l ∧ ∀ k, k ∈ l ↔ is_Some (s !! k) ∧ HasPrefix k p = true;
  calm_ctx : ∀ n, cancelled env n = false;
  calm_get : ∀ k, download_fails env k = false;
}.

(** [r'] stands for [r] in every query at or after the horizon. *)
Definition covers (hz : Z) (r' r : Row) : Prop :=
  r' = r ∨ system_time r < system_time r' ∧ (valid_time_start r' <= valid_time_start r ∧ valid_time_end r <= valid_time_end r') ∧
           system_time r' <= hz.

Lemma covers_trans hz r1 r2 r3 : covers hz r1 r2 → covers hz r2 r3 → covers hz r1 r3.
Proof. unfold covers. intros [->|H1] [->|H2]; [by left|by right|by right|]. right. lia. Qed.

Lemma covers_mono hz hz' r' r : hz <= hz' → covers hz r' r → covers hz' r' r.
Proof. unfold covers. intros H [->|?]; [by left|]. right. lia. Qed.

Section Tier.
Context `{AI : ArrowIPC}.
Context (eid : list Z).

Definition H16 : list Z := take 16 (Sum256 eid).
Definition h8 : list Z := take 8 H16.

Definition mine (r : Row) : Prop := entity_id_hash r = H16 ∧ entity_id r = eid.

Definition holds (s : Store) (key : list Z) (n : Z) (rows : list Row) : Prop :=
  s !! key = Some (ipc_write rows) ∧ Forall row_typed rows ∧ 0 <= n < 2 ^ 63.
Definition l0_file (s : Store) (n : Z) (rows : list Row) : Prop := holds s (l0KeyFor h8 n) n rows.
Definition l1_file (s : Store) (n : Z) (rows : list Row) : Prop := holds s (l1KeyFor h8 n) n rows.

(** The rows of a file named by the least of their system times. *)
Record file_ok (hist : list Row) (n : Z) (rows : list Row) : Prop := {
  fo_range : 0 <= n < 2 ^ 63;
  fo_typed : Forall row_typed rows;
  fo_first : Forall (λ r, n <= system_time r) rows;
  fo_attained : n ∈ map system_time rows;
  fo_hist : ∀ r, r ∈ rows → r ∈ hist;
}.

(** Everything an L0 file named by the manifest holds is in its L1 file. *)
Definition manifest_ok (hz : Z) (hist : list Row) (s : Store) (n : Z) (ns : list Z) : Prop :=
  (∃ rows1, l1_file s n rows1 ∧
     ∀ m rows0, m ∈ ns → l0_file s m rows0 → ∀ r, r ∈ rows0 → ∃ r', r' ∈ rows1 ∧ covers hz r' r) ∧
  ∀ m, m ∈ ns → m ∈ map system_time hist.

Record tier_ok (hz : Z) (hist : list Row) (s : Store) : Prop := {
  tk_rows : Forall (λ r, mine r ∧ row_typed r ∧ 0 <= system_time r) hist;
  tk_l0 : ∀ k data, s !! k = Some data → HasPrefix k (l0Prefix h8) = true →
    ∃ n rows, k = l0KeyFor h8 n ∧ data = ipc_write rows ∧ file_ok hist n rows;
  tk_l1 : ∀ k data, s !! k = Some data → HasPrefix k (l1Prefix h8) = true →
    ∃ n rows, k = l1KeyFor h8 n ∧ data = ipc_write rows ∧ file_ok hist n rows;
  tk_manifest : ∀ k data, s !! k = Some data → HasPrefix k (lit "compaction/") = true →
    ∃ h n ns, hash8_ok h ∧ 0 <= n < 2 ^ 63 ∧ Forall (λ m, 0 <= m < 2 ^ 63) ns ∧ k = manifestKeyFor h n ∧
      data = buildManifest (l1KeyFor h n) (map (l0KeyFor h) ns) ∧ (h = h8 → manifest_ok hz hist s n ns);
  tk_hist : ∀ r, r ∈ hist →
    (∃ n rows r', l1_file s n rows ∧ r' ∈ rows ∧ covers hz r' r) ∨ (∃ m rows, l0_file s m rows ∧ r ∈ rows);
}.

(** ** Keys and files *)

Lemma h8_ok : hash8_ok h8.
Proof.
  unfold h8, H16, hash8_ok. rewrite !length_take, length_Sum256. split; [done|].
  unfold is_bytes. do 2 apply Forall_take. apply Sum256_bytes.
Qed.

Lemma l0_prefix h n : hash8_ok h → HasPrefix (l0KeyFor h n) (l0Prefix h8) = bool_decide (h = h8).
Proof. intros. apply l0Key_l0Prefix; [done|apply h8_ok]. Qed.

Lemma l1_prefix h n : hash8_ok h → HasPrefix (l1KeyFor h n) (l1Prefix h8) = bool_decide (h = h8).
Proof. intros. apply l1Key_l1Prefix; [done|apply h8_ok]. Qed.

(** The prefixes of the three tiers exclude each other. *)
Lemma tier_excl (a b k : list Z) :
  (3 <= length a)%nat → (3 <= length b)%nat → tier_of a ≠ tier_of b → HasPrefix k a = true → HasPrefix k b = false.
Proof.
  intros Ha Hb Hne Hk. destruct (HasPrefix k b) eqn:E; [|done]. apply tier_prefix in Hk, E; congruence || done.
Qed.

Lemma write_inj rows rows' :
  Forall row_typed rows → Forall row_typed rows' → ipc_write rows = ipc_write rows' → rows = rows'.
Proof. intros H H' E. apply (f_equal ipc_open) in E. rewrite !ipc_open_write in E by done. congruence. Qed.

Lemma tier_l0 hz hist s m rows : tier_ok hz hist s → l0_file s m rows → file_ok hist m rows.
Proof.
  intros Hok (Hf & Ht & Hm). destruct (tk_l0 _ _ _ Hok _ _ Hf) as (n & rows' & Ek & Ed & Hfo).
  { rewrite l0_prefix by apply h8_ok. by apply bool_decide_eq_true_2. }
  apply l0Key_inj in Ek as <-; [|done|apply Hfo]. apply write_inj in Ed as <-; [done|done|apply Hfo].
Qed.

Lemma tier_l1 hz hist s m rows : tier_ok hz hist s → l1_file s m rows → file_ok hist m rows.
Proof.
  intros Hok (Hf & Ht & Hm). destruct (tk_l1 _ _ _ Hok _ _ Hf) as (n & rows' & Ek & Ed & Hfo).
  { rewrite l1_prefix by apply h8_ok. by apply bool_decide_eq_true_2. }
  apply l1Key_inj in Ek as <-; [|done|apply Hfo]. apply write_inj in Ed as <-; [done|done|apply Hfo].
Qed.

Lemma holds_inj s key n m rows rows' : holds s key n rows → holds s key m rows' → rows = rows'.
Proof. intros (E & Ht & _) (E' & Ht' & _). apply write_inj; [done|done|congruence]. Qed.

(** The rows of a file, as a function of its key. *)
Definition rows_at (s : Store) (key : list Z) : list Row :=
  match s !! key with
  | Some data => match ipc_open data with Some (_, recs) => loaded recs | None => [] end
  | None => []
  end.

Lemma rows_at_holds s key n rows : holds s key n rows → rows_at s key = rows.
Proof.
  intros (E & Ht & _). unfold rows_at. rewrite E, ipc_open_write by done. unfold loaded.
  rewrite bind_cons. cbn [from_option id mbind list_bind]. apply app_nil_r.
Qed.

Lemma good_holds s key n rows :
  parseFirstSysFromKey key = Some n → holds s key n rows → Forall (λ r, n <= system_time r) rows →
  good_file s (rows_at s) key.
Proof.
  intros Hp Hh Hf. unfold good_file. rewrite (rows_at_holds _ _ _ _ Hh). split_and!; [apply Hh|apply Hh|].
  intros n' Hn'. by simplify_eq.
Qed.

Lemma tier_key_l0 hz hist s k : tier_ok hz hist s → is_Some (s !! k) → HasPrefix k (l0Prefix h8) = true →
  ∃ n rows, k = l0KeyFor h8 n ∧ l0_file s n rows ∧ file_ok hist n rows.
Proof.
  intros Hok [data E] Hp. destruct (tk_l0 _ _ _ Hok _ _ E Hp) as (n & rows & -> & -> & Hfo).
  exists n, rows. split; [done|]. split; [|done]. split; [done|]. split; apply Hfo.
Qed.

Lemma tier_key_l1 hz hist s k : tier_ok hz hist s → is_Some (s !! k) → HasPrefix k (l1Prefix h8) = true →
  ∃ n rows, k = l1KeyFor h8 n ∧ l1_file s n rows ∧ file_ok hist n rows.
Proof.
  intros Hok [data E] Hp. destruct (tk_l1 _ _ _ Hok _ _ E Hp) as (n & rows & -> & -> & Hfo).
  exists n, rows. split; [done|]. split; [|done]. split; [done|]. split; apply Hfo.
Qed.

Lemma tier_good hz hist s k : tier_ok hz hist s → is_Some (s !! k) →
  HasPrefix k (l0Prefix h8) = true ∨ HasPrefix k (l1Prefix h8) = true →
  good_file s (rows_at s) k ∧ ∀ r, r ∈ rows_at s k → r ∈ hist.
Proof.
  intros Hok Hk [Hp|Hp].
  - destruct (tier_key_l0 _ _ _ _ Hok Hk Hp) as (n & rows & -> & Hf & Hfo).
    split; [eapply good_holds; [apply parse_l0Key, Hfo|exact Hf|apply Hfo]|].
    rewrite (rows_at_holds _ _ _ _ Hf). apply Hfo.
  - destruct (tier_key_l1 _ _ _ _ Hok Hk Hp) as (n & rows & -> & Hf & Hfo).
    split; [eapply good_holds; [apply parse_l1Key, Hfo|exact Hf|apply Hfo]|].
    rewrite (rows_at_holds _ _ _ _ Hf). apply Hfo.
Qed.

(** ** Manifests *)

Lemma hexChar_line n : 0 <= n → hexChar n ≠ newline.
Proof. unfold hexChar, newline. destruct (n <? 10); lia. Qed.

Lemma clean_key (tier h suffix : list Z) n :
  (∃ b l, tier = b :: l ∧ 32 < b < 128) → (∃ b l, suffix = l ++ [b] ∧ 32 < b < 128) →
  Forall (λ b, b ≠ newline) tier → Forall (λ b, b ≠ newline) suffix → is_bytes h → 0 <= n →
  clean_line ((tier ++ hexOf8 h ++ lit "/") ++ FormatInt n ++ suffix).
Proof.
  intros (b & l & -> & Hb) (c & l' & -> & Hc) Ht Hs Hh Hn. split_and!.
  - rewrite !Forall_app. split_and!; [done| |by repeat constructor| |by apply Forall_app in Hs as [? _]|by apply Forall_app in Hs as [_ ?]].
    + apply Forall_forall. intros x Hx. unfold hexOf8, hexEncode in Hx. apply list_elem_of_bind in Hx as (y & Hx & Hy).
      unfold is_bytes in Hh. rewrite Forall_forall in Hh. specialize (Hh y Hy). unfold is_byte in Hh.
      apply elem_of_cons in Hx as [->|Hx%list_elem_of_singleton]; [|subst x]; apply hexChar_line.
      * apply Z.div_pos; lia.
      * apply Z.mod_pos_bound. lia.
    + destruct (FormatInt_nonneg n Hn) as (ds & -> & Hds & _). eapply digits_avoid; [|done]. unfold newline. lia.
  - exists b. eexists. split; [|done]. by rewrite <- !app_comm_cons.
  - exists c. eexists. split; [|done]. by rewrite !app_assoc.
Qed.

Lemma clean_l0 h n : hash8_ok h → 0 <= n → clean_line (l0KeyFor h n).
Proof.
  intros [_ Hb] Hn. apply clean_key; [by exists 108, [48; 47]|by exists 119, (lit ".arro")| | |done|done]; by apply decide_avoid.
Qed.

Lemma clean_l1 h n : hash8_ok h → 0 <= n → clean_line (l1KeyFor h n).
Proof.
  intros [_ Hb] Hn. apply clean_key; [by exists 108, [49; 47]|by exists 119, (lit ".arro")| | |done|done]; by apply decide_avoid.
Qed.

(** A manifest of Compaction reads back. *)
Lemma manifest_parse h n ns :
  hash8_ok h → 0 <= n < 2 ^ 63 → Forall (λ m, 0 <= m < 2 ^ 63) ns →
  ParseManifest (buildManifest (l1KeyFor h n) (map (l0KeyFor h) ns)) = (l1KeyFor h n, map (l0KeyFor h) ns).
Proof.
  intros Hh Hn Hns. apply ParseManifest_build; [apply clean_l1; [done|lia]|]. apply Forall_fmap.
  eapply Forall_impl; [exact Hns|]. intros m [Hm _]. split; [apply clean_l0; [done|exact Hm]|].
  unfold HasPrefix, l0KeyFor, l0Prefix. apply bool_decide_eq_true_2. rewrite <- !app_assoc. by apply prefix_app_r.
Qed.
End Tier.

(** * AsOf over a tier that represents a history: which files it scans, and that
    its answer is the newest visible event of the whole history. *)

(** Valid at [v] and recorded by [t]. *)
Definition visible (v t : Z) (ev : TriTemporalEvent) : Prop :=
  0 < te_SystemTime ev <= t ∧ te_ValidTimeStart ev <= v < te_ValidTimeEnd ev.

(** The specification of AsOf over the events that were ever recorded. *)
Definition answers (recorded : TriTemporalEvent → Prop) (v t : Z) (res : result QueryError TriTemporalEvent) : Prop :=
  match res with
  | Ok ev => recorded ev ∧ visible v t ev ∧ ∀ ev', recorded ev' → visible v t ev' → te_SystemTime ev' <= te_SystemTime ev
  | Err ErrEntityNotFound => ∀ ev', recorded ev' → ¬ visible v t ev'
  | Err _ => False
  end.

Section AsOf.
Context `{AI : ArrowIPC}.
Context (eid : list Z).

Definition live_list (live : LiveRead) : list LiveEvent := match live with LiveEvents lcs => lcs | _ => [] end.

(** The rows of the history and the live events, as AsOf returns them. *)
Definition recorded (hist : list Row) (live : LiveRead) (ev : TriTemporalEvent) : Prop :=
  (∃ r, r ∈ hist ∧ ev = event_of_row r) ∨ (∃ le, le ∈ live_list live ∧ ev = live_event eid le).

Lemma passes_visible v t r :
  mine eid r → passes (H16 eid) eid v t r = true ↔
  system_time r <= t ∧ valid_time_start r <= v < valid_time_end r.
Proof.
  intros [Eh Ee]. unfold passes. rewrite !andb_true_iff, !negb_true_iff, !bool_decide_eq_true, orb_false_iff.
  rewrite !Z.ltb_ge, Z.leb_gt. naive_solver lia.
Qed.

Context (env : IOEnv) (s : Store).
Hypothesis Hcalm : calm env s.

(** ** The files that are scanned *)

Lemma list_tier (p : list Z) :
  ∃ l, list_objects env s p = Some l ∧ ∀ k, k ∈ l ↔ is_Some (s !! k) ∧ HasPrefix k p = true.
Proof. apply Hcalm. Qed.

(** A superseded file is one that a manifest of the entity names. *)
Lemma superseded_manifest hz hist cfg t k :
  tier_ok eid hz hist s → k ∈ loadSupersededL0Keys env s cfg (l0Prefix (h8 eid)) t →
  ∃ n ns m, manifest_ok eid hz hist s n ns ∧ m ∈ ns ∧ 0 <= m < 2 ^ 63 ∧ k = l0KeyFor (h8 eid) m.
Proof.
  intros Hok. unfold loadSupersededL0Keys.
  assert (HasPrefix (l0Prefix (h8 eid)) (lit "l0/") = true) as ->.
  { unfold HasPrefix, l0Prefix. apply bool_decide_eq_true_2. by apply prefix_app_r. }
  change (lit "compaction/" ++ drop 3 (l0Prefix (h8 eid))) with (manifestsPrefix (h8 eid)). cbn [negb].
  destruct (list_tier (manifestsPrefix (h8 eid))) as (l & -> & Hl).
  rewrite elem_of_list_to_set. intros (mk & Hk & Hmk)%list_elem_of_bind. apply list_elem_of_filter in Hmk as [_ Hmk].
  apply Hl in Hmk as [[data E] Hp]. unfold manifest_keys, Download in Hk. rewrite (calm_get _ _ Hcalm), E in Hk.
  destruct (tk_manifest _ _ _ _ Hok _ _ E) as (h & n & ns & Hh & Hn & Hns & -> & -> & Hm).
  { unfold HasPrefix in *. apply bool_decide_eq_true in Hp. apply bool_decide_eq_true_2.
    unfold manifestsPrefix in Hp. etrans; [|exact Hp]. by apply prefix_app_r. }
  rewrite (manifestKey_prefix h _ n) in Hp by (done || apply h8_ok). apply bool_decide_eq_true in Hp as ->.
  rewrite manifest_parse in Hk by done. cbn [snd] in Hk. apply list_elem_of_fmap in Hk as (m & -> & Hm').
  exists n, ns, m. split; [by apply Hm|]. split; [done|]. split; [|done]. by rewrite Forall_forall in Hns; apply Hns.
Qed.

Lemma elem_scan_keys cfg sup l1Keys l0Keys k :
  (Z.of_nat (length l0Keys) <= MaxL0Files cfg) →
  k ∈ scan_keys cfg sup l1Keys l0Keys ↔
  k ∈ l1Keys ∨ k ∈ l0Keys ∧ (k ∉ sup ∨ l1Keys = [] ∧ filter (λ k, k ∉ sup) l0Keys = []).
Proof.
  clear Hcalm. intros Hcap. unfold scan_keys, cap_tail. rewrite insertion_sort_perm.
  pose proof (length_filter (λ k, k ∉ sup) l0Keys) as Hlen.
  rewrite (proj2 (Z.ltb_ge (MaxL0Files cfg) (Z.of_nat (length (filter (λ k, k ∉ sup) l0Keys))))) by lia.
  rewrite andb_false_r. rewrite elem_of_app, list_elem_of_filter.
  destruct (decide (l1Keys = [])) as [->|H1].
  - destruct (decide (filter (λ k, k ∉ sup) l0Keys = [])) as [E|E].
    + rewrite !bool_decide_eq_true_2 by done. cbn [andb]. set_solver.
    + rewrite (bool_decide_eq_false_2 (filter _ _ = [])) by done. rewrite andb_false_r. set_solver.
  - rewrite bool_decide_eq_false_2 by done. cbn [andb]. set_solver.
Qed.

(** ** The answer *)

Section Scan.
Context (hz : Z) (hist : list Row) (cfg : ResolverConfig) (v t : Z) (l1Keys l0Keys : list (list Z)).
Hypothesis Hok : tier_ok eid hz hist s.
Hypothesis Ht : hz <= t.
Hypothesis Hl1 : ∀ k, k ∈ l1Keys ↔ is_Some (s !! k) ∧ HasPrefix k (l1Prefix (h8 eid)) = true.
Hypothesis Hl0 : ∀ k, k ∈ l0Keys ↔ is_Some (s !! k) ∧ HasPrefix k (l0Prefix (h8 eid)) = true.
Hypothesis Hcap : Z.of_nat (length l0Keys) <= MaxL0Files cfg.

Abbreviation sup := (loadSupersededL0Keys env s cfg (l0Prefix (h8 eid)) t).
Abbreviation scanned := (scan_keys cfg sup l1Keys l0Keys).

Lemma scanned_files k : k ∈ scanned → good_file s (rows_at s) k ∧ ∀ r, r ∈ rows_at s k → r ∈ hist.
Proof.
  rewrite elem_scan_keys by done. intros [[Hk Hp]%Hl1|[[Hk Hp]%Hl0 _]]; (eapply tier_good; [exact Hok|exact Hk|]); auto.
Qed.

Lemma l1_scanned n rows : l1_file eid s n rows → l1KeyFor (h8 eid) n ∈ scanned.
Proof.
  intros (E & _). apply elem_scan_keys; [done|]. left. apply Hl1. split; [by eexists|].
  rewrite l1_prefix by apply h8_ok. by apply bool_decide_eq_true_2.
Qed.

(** What covers a visible row of the history is scanned. *)
Lemma hist_scanned r :
  r ∈ hist → ∃ k r', k ∈ scanned ∧ r' ∈ rows_at s k ∧ covers hz r' r.
Proof.
  intros Hr. destruct (tk_hist _ _ _ _ Hok r Hr) as [(n & rows & r' & Hf & Hr' & Hc)|(m & rows & Hf & Hin)].
  - exists (l1KeyFor (h8 eid) n), r'. split; [by eapply l1_scanned|]. by rewrite (rows_at_holds _ _ _ _ Hf).
  - destruct (decide (l0KeyFor (h8 eid) m ∈ sup)) as [Hsup|Hsup].
    + destruct (superseded_manifest _ _ _ _ _ Hok Hsup) as (n & ns & m' & [(rows1 & Hf1 & Hcov) _] & Hm' & Hrg & E).
      apply l0Key_inj in E as <-; [|apply Hf|done]. destruct (Hcov m rows Hm' Hf r Hin) as (r' & Hr' & Hc).
      exists (l1KeyFor (h8 eid) n), r'. split; [by eapply l1_scanned|]. by rewrite (rows_at_holds _ _ _ _ Hf1).
    + exists (l0KeyFor (h8 eid) m), r. rewrite (rows_at_holds _ _ _ _ Hf). split; [|split; [done|by left]].
      apply elem_scan_keys; [done|]. right. split; [|by left]. apply Hl0. split; [eexists; apply Hf|].
      rewrite l0_prefix by apply h8_ok. by apply bool_decide_eq_true_2.
Qed.

Lemma covers_visible r r' : mine eid r → mine eid r' → covers hz r' r →
  passes (H16 eid) eid v t r = true → passes (H16 eid) eid v t r' = true ∧ system_time r <= system_time r'.
Proof.
  intros Hm Hm' Hc. rewrite !passes_visible by done. destruct Hc as [->|(H1 & [H2 H3] & H4)]; [done|]. lia.
Qed.

(** The scan and the live merge give a best event of everything recorded. *)
Lemma scan_answers live :
  ∃ d, asof_scan env s cfg (H16 eid) eid v t scanned 1 (None, 0) = Some d ∧
  answers (recorded hist live) v t
    (match (foldl (merge_live eid v t) d (live_list live)).1 with Some ev => Ok ev | None => Err ErrEntityNotFound end).
Proof.
  destruct (asof_scan_best env s (H16 eid) eid v t (calm_ctx _ _ Hcalm) (calm_get _ _ Hcalm) cfg (rows_at s) (λ _, False)
              scanned 1 (None, 0)) as (d & Hd & Hb).
  { apply Forall_forall. intros k Hk. by apply scanned_files. }
  { by apply best_empty. }
  exists d. split; [done|]. apply (merge_live_best eid v t _ (live_list live)) in Hb.
  assert (∀ r, r ∈ hist → mine eid r) as Hmine.
  { intros r Hr. pose proof (tk_rows _ _ _ _ Hok) as H. rewrite Forall_forall in H. by apply H. }
  assert (∀ ev, recorded hist live ev → visible v t ev →
          te_SystemTime ev <= (foldl (merge_live eid v t) d (live_list live)).2) as Hmax.
  { intros ev [(r & Hr & ->)|(le & Hle & ->)] [[Hp Hs] Hv].
    - destruct (hist_scanned r Hr) as (k & r' & Hk & Hr' & Hc).
      assert (r' ∈ hist) as Hin by (by apply (scanned_files k)).
      destruct (covers_visible r r' (Hmine r Hr) (Hmine r' Hin) Hc) as [Hpass Hle]; [by apply passes_visible; auto|].
      etrans; [exact Hle|]. apply (best_max _ _ Hb (event_of_row r')). left. right. exists k. split; [done|]. by exists r'.
    - apply (best_max _ _ Hb). right. exists le. done. }
  pose proof (best_none _ _ Hb) as Hnone. pose proof (best_in _ _ Hb) as Hin.
  destruct (foldl _ d _) as [[ev|] b]; cbn [fst snd] in *.
  - destruct (Hin ev eq_refl) as (Hs & <- & Hpos). clear Hin Hnone.
    destruct Hs as [[[]|(k & Hk & r & Hr & Hpass & ->)]|(le & Hle & -> & Hs & Hv)].
    + assert (r ∈ hist) as Hrh by (by apply (scanned_files k)). apply passes_visible in Hpass as [Hs Hv]; [|auto].
      split; [left; by exists r|]. by split.
    + split; [right; by exists le|]. by split.
  - intros ev' Hrec Hvis. specialize (Hmax ev' Hrec Hvis). rewrite Hnone in Hmax by done. destruct Hvis as [[? _] _]. lia.
Qed.
End Scan.

Lemma asof_answers hz hist live v t r :
  eid ≠ [] → tier_ok eid hz hist s → hz <= t →
  (∀ l, list_objects env s (l0Prefix (h8 eid)) = Some l → Z.of_nat (length l) <= MaxL0Files (r_config r)) →
  answers (recorded hist live) v t (AsOf env s live eid v t r).1.
Proof.
  intros Hne Hok Ht Hcap. unfold AsOf. rewrite bool_decide_eq_false_2 by done. fold (H16 eid). fold (h8 eid).
  rewrite (calm_ctx _ _ Hcalm). destruct (list_tier (l1Prefix (h8 eid))) as (l1Keys & -> & Hl1).
  destruct (list_tier (l0Prefix (h8 eid))) as (l0Keys & E0 & Hl0). rewrite E0. specialize (Hcap _ E0).
  destruct (scan_answers hz hist (r_config r) v t l1Keys l0Keys Hok Ht Hl1 Hl0 Hcap live) as (d & Hd & Hans).
  destruct (bool_decide (l1Keys = []) && bool_decide (l0Keys = []) && _) eqn:E.
  - rewrite !andb_true_iff, !bool_decide_eq_true in E. destruct E as [[-> ->] E]. destruct live; try done.
    intros ev [(row & Hr & ->)|(le & Hle & _)]; [|by apply not_elem_of_nil in Hle].
    destruct (hist_scanned hz hist (r_config r) t [] [] Hok Hl1 Hl0 Hcap row Hr) as (k & r' & Hk & _).
    apply elem_scan_keys in Hk; [|done]. destruct Hk as [Hk|[Hk _]]; by apply not_elem_of_nil in Hk.
  - cbn zeta. rewrite Hd. cbn [fst]. destruct live; exact Hans.
Qed.
End AsOf.
