(* ===== verification/LsmSteps.v ===== *)
(** Flushes, compactions and reaps keep a tier a representation of its history. *)
From S2P Require Import Prelude Bytes Sha256 Sorting LsmKeys Resolver L1Compactor LsmPrune.
From S2P Require Import ResolverThms LsmInv.

(** ** Keys of different tiers *)

Lemma tier_l0K h n : tier_of (l0KeyFor h n) = [108; 48; 47].
Proof. reflexivity. Qed.
Lemma tier_l1K h n : tier_of (l1KeyFor h n) = [108; 49; 47].
Proof. reflexivity. Qed.
Lemma tier_manK h n : tier_of (manifestKeyFor h n) = [99; 111; 109].
Proof. reflexivity. Qed.

Lemma tier_ne k k' : tier_of k ≠ tier_of k' → k ≠ k'.
Proof. congruence. Qed.

Lemma prefix_tier_l0 h k : HasPrefix k (l0Prefix h) = true → tier_of k = [108; 48; 47].
Proof. intros H. by apply tier_prefix in H; [|simpl; lia]. Qed.
Lemma prefix_tier_l1 h k : HasPrefix k (l1Prefix h) = true → tier_of k = [108; 49; 47].
Proof. intros H. by apply tier_prefix in H; [|simpl; lia]. Qed.
Lemma prefix_tier_man k : HasPrefix k (lit "compaction/") = true → tier_of k = [99; 111; 109].
Proof. intros H. by apply tier_prefix in H; [|simpl; lia]. Qed.

(** Keys that differ by their tier. *)
Ltac tier :=
  repeat match goal with
    | H : HasPrefix _ (l0Prefix _) = true |- _ => apply prefix_tier_l0 in H
    | H : HasPrefix _ (l1Prefix _) = true |- _ => apply prefix_tier_l1 in H
    | H : HasPrefix _ (lit "compaction/") = true |- _ => apply prefix_tier_man in H
    end;
  apply tier_ne; rewrite ?tier_l0K, ?tier_l1K, ?tier_manK; congruence.

Section Steps.
Context `{AI : ArrowIPC}.
Context (eid : list Z).
Abbreviation h8 := (h8 eid).
Abbreviation tier_ok := (tier_ok eid).
Abbreviation l0_file := (l0_file eid).
Abbreviation l1_file := (l1_file eid).
Abbreviation manifest_ok := (manifest_ok eid).

Lemma holds_ne s s' key n rows : s' !! key = s !! key → holds s' key n rows ↔ holds s key n rows.
Proof. intros E. unfold holds. by rewrite E. Qed.

Lemma tier_mono hz hz' hist s : hz <= hz' → tier_ok hz hist s → tier_ok hz' hist s.
Proof.
  intros Hle [Hr H0 H1 Hm Hh]. split; [done|done|done| |].
  - intros k data E Hp. destruct (Hm k data E Hp) as (h & n & ns & ? & ? & ? & ? & ? & Hok).
    exists h, n, ns. do 5 (split; [done|]). intros Eh. destruct (Hok Eh) as [(rows1 & Hf & Hc) Hns]. split; [|done].
    exists rows1. split; [done|]. intros m rows0 Hm' Hf0 r Hr'. destruct (Hc m rows0 Hm' Hf0 r Hr') as (r' & ? & ?).
    exists r'. split; [done|by eapply covers_mono].
  - intros r Hr'. destruct (Hh r Hr') as [(n & rows & r' & ? & ? & ?)|?]; [left|by right].
    exists n, rows, r'. split_and!; [done|done|by eapply covers_mono].
Qed.

(** ** A flush adds a file *)

Lemma flush_ok hz hist s n rows :
  tier_ok hz hist s → Forall (λ r, mine eid r ∧ row_typed r ∧ 0 <= system_time r) rows →
  Forall (λ r, n <= system_time r) rows → n ∈ map system_time rows → n ∉ map system_time hist →
  tier_ok hz (hist ++ rows) (<[l0KeyFor h8 n := ipc_write rows]> s).
Proof.
  intros Hok Hrows Hfirst Hatt Hfresh. destruct Hok as [Hr H0 H1 Hm Hh].
  assert (Forall row_typed rows) as Ht by (eapply Forall_impl; [exact Hrows|]; simpl; naive_solver).
  assert (0 <= n < 2 ^ 63) as Hn.
  { apply list_elem_of_fmap in Hatt as (r & -> & Hin). rewrite Forall_forall in Hrows.
    destruct (Hrows r Hin) as (_ & Hty & ?). destruct (rt_sys _ Hty). lia. }
  assert (∀ n rows0, file_ok hist n rows0 → file_ok (hist ++ rows) n rows0) as Hwk.
  { intros n' rows' [? ? ? ? Hin]. split; [done..|]. intros r Hr'. apply elem_of_app. left. by apply Hin. }
  split.
  - by apply Forall_app.
  - intros k data E Hp. destruct (decide (k = l0KeyFor h8 n)) as [->|Hne].
    + rewrite lookup_insert_eq in E. injection E as <-. exists n, rows. do 2 (split; [done|]). split; [done..|].
      intros r Hr'. apply elem_of_app. by right.
    + rewrite lookup_insert_ne in E by done. destruct (H0 k data E Hp) as (n' & rows' & -> & -> & Hfo).
      exists n', rows'. do 2 (split; [done|]). by apply Hwk.
  - intros k data E Hp. rewrite lookup_insert_ne in E by (symmetry; tier).
    destruct (H1 k data E Hp) as (n' & rows' & -> & -> & Hfo). exists n', rows'. do 2 (split; [done|]). by apply Hwk.
  - intros k data E Hp. rewrite lookup_insert_ne in E by (symmetry; tier).
    destruct (Hm k data E Hp) as (h & n' & ns & ? & ? & Hns & ? & ? & Hok). exists h, n', ns. do 5 (split; [done|]).
    intros Eh. destruct (Hok Eh) as [(rows1 & Hf & Hc) Hin]. split.
    + exists rows1. split; [apply (holds_ne s); [apply lookup_insert_ne; tier|done]|].
      intros m rows0 Hm' Hf0. apply (Hc m); [done|]. apply (holds_ne s) in Hf0; [done|].
      apply lookup_insert_ne. intros E'. apply l0Key_inj in E' as <-; [by apply Hfresh, Hin|done|].
      rewrite Forall_forall in Hns. by apply Hns.
    + intros m Hm'. rewrite map_app. apply elem_of_app. left. by apply Hin.
  - intros r [Hr'|Hr']%elem_of_app.
    + destruct (Hh r Hr') as [(n' & rows' & r' & Hf & ? & ?)|(m & rows' & Hf & ?)].
      * left. exists n', rows', r'. split; [apply (holds_ne s); [apply lookup_insert_ne; tier|done]|done].
      * right. exists m, rows'. split; [|done]. apply (holds_ne s); [|done]. apply lookup_insert_ne.
        intros E'. destruct Hf as (Hf & Hty & Hrg). apply l0Key_inj in E' as <-; [|done|done]. apply Hfresh.
        destruct (H0 _ _ Hf) as (n' & rows'' & Ek & _ & Hfo).
        { rewrite l0_prefix by apply h8_ok. by apply bool_decide_eq_true_2. }
        apply l0Key_inj in Ek as <-; [|done|apply Hfo]. pose proof (fo_attained _ _ _ Hfo) as Ha.
        apply list_elem_of_fmap in Ha as (x & -> & Hx). apply list_elem_of_fmap. exists x. split; [done|]. by apply Hfo.
    + right. exists n, rows. split; [|done]. split; [apply lookup_insert_eq|done].
Qed.

(** ** A compaction writes an L1 file and a manifest *)

(** Every row of an L0 file is represented in [rows]. *)
Definition merges (hz : Z) (s : Store) (rows : list Row) : Prop :=
  ∀ m rows0 r, l0_file s m rows0 → r ∈ rows0 → ∃ r', r' ∈ rows ∧ covers hz r' r.

(** What an L1 file under the name [n] holds is still in L0 files. *)
Definition backed (s : Store) (n : Z) : Prop :=
  ∀ rows1 r, l1_file s n rows1 → r ∈ rows1 → ∃ m rows0, l0_file s m rows0 ∧ r ∈ rows0.

Lemma insert_l1_ok hz hist s n rows :
  tier_ok hz hist s → file_ok hist n rows → merges hz s rows → backed s n →
  tier_ok hz hist (<[l1KeyFor h8 n := ipc_write rows]> s).
Proof.
  intros [Hr H0 H1 Hm Hh] Hfo Hmg Hbk.
  assert (∀ m rows0, l0_file (<[l1KeyFor h8 n := ipc_write rows]> s) m rows0 ↔ l0_file s m rows0) as Hl0.
  { intros m rows0. apply holds_ne, lookup_insert_ne. tier. }
  assert (l1_file (<[l1KeyFor h8 n := ipc_write rows]> s) n rows) as Hnew.
  { split; [apply lookup_insert_eq|split; apply Hfo]. }
  assert (∀ n' rows1, n' ≠ n → l1_file s n' rows1 → l1_file (<[l1KeyFor h8 n := ipc_write rows]> s) n' rows1) as Hold.
  { intros n' rows1 Hne Hf. apply (holds_ne s); [|done]. apply lookup_insert_ne. intros E.
    apply l1Key_inj in E; [done|apply Hfo|apply Hf]. }
  split; [done|..].
  - intros k data E Hp. rewrite lookup_insert_ne in E by (symmetry; tier). by apply H0.
  - intros k data E Hp. destruct (decide (k = l1KeyFor h8 n)) as [->|Hne].
    + rewrite lookup_insert_eq in E. injection E as <-. by exists n, rows.
    + rewrite lookup_insert_ne in E by done. by apply H1.
  - intros k data E Hp. rewrite lookup_insert_ne in E by (symmetry; tier).
    destruct (Hm k data E Hp) as (h & n' & ns & ? & ? & ? & ? & ? & Hok). exists h, n', ns. do 5 (split; [done|]).
    intros Eh. destruct (Hok Eh) as [(rows1 & Hf & Hc) Hin]. split; [|done].
    destruct (decide (n' = n)) as [->|Hne].
    + exists rows. split; [done|]. intros m rows0 _ Hf0 r Hr'. apply Hl0 in Hf0. exact (Hmg m rows0 r Hf0 Hr').
    + exists rows1. split; [by apply Hold|]. intros m rows0 Hm' Hf0. apply Hl0 in Hf0. by apply (Hc m).
  - intros r Hr'. destruct (Hh r Hr') as [(n' & rows1 & r' & Hf & Hin & Hc)|(m & rows0 & Hf & Hin)].
    + left. destruct (decide (n' = n)) as [->|Hne].
      * destruct (Hbk rows1 r' Hf Hin) as (m & rows0 & Hf0 & Hin0). destruct (Hmg m rows0 r' Hf0 Hin0) as (r'' & Hin' & Hc').
        exists n, rows, r''. split_and!; [done|done|]. by eapply covers_trans.
      * exists n', rows1, r'. split_and!; [by apply Hold|done|done].
    + right. exists m, rows0. split; [by apply Hl0|done].
Qed.

Lemma insert_manifest_ok hz hist s n ns :
  tier_ok hz hist s → 0 <= n < 2 ^ 63 → Forall (λ m, 0 <= m < 2 ^ 63) ns → manifest_ok hz hist s n ns →
  tier_ok hz hist (<[manifestKeyFor h8 n := buildManifest (l1KeyFor h8 n) (map (l0KeyFor h8) ns)]> s).
Proof.
  intros [Hr H0 H1 Hm Hh] Hn Hns Hmo. set (s' := <[_ := _]> s).
  assert (∀ m rows0, l0_file s' m rows0 ↔ l0_file s m rows0) as Hl0.
  { intros m rows0. apply holds_ne, lookup_insert_ne. tier. }
  assert (∀ m rows0, l1_file s' m rows0 ↔ l1_file s m rows0) as Hl1.
  { intros m rows0. apply holds_ne, lookup_insert_ne. tier. }
  assert (∀ n' ns', manifest_ok hz hist s n' ns' → manifest_ok hz hist s' n' ns') as Hmo'.
  { intros n' ns' [(rows1 & Hf & Hc) Hin]. split; [|done]. exists rows1. split; [by apply Hl1|].
    intros m rows0 Hm' Hf0. apply Hl0 in Hf0. by apply (Hc m). }
  split; [done|..].
  - intros k data E Hp. unfold s' in E. rewrite lookup_insert_ne in E by (symmetry; tier). by apply H0.
  - intros k data E Hp. unfold s' in E. rewrite lookup_insert_ne in E by (symmetry; tier). by apply H1.
  - intros k data E Hp. unfold s' in E. destruct (decide (k = manifestKeyFor h8 n)) as [->|Hne].
    + rewrite lookup_insert_eq in E. injection E as <-. exists h8, n, ns. split; [apply h8_ok|]. do 4 (split; [done|]).
      intros _. by apply Hmo'.
    + rewrite lookup_insert_ne in E by done. destruct (Hm k data E Hp) as (h & n' & ns' & ? & ? & ? & ? & ? & Hok).
      exists h, n', ns'. do 5 (split; [done|]). intros Eh. by apply Hmo', Hok.
  - intros r Hr'. destruct (Hh r Hr') as [(n' & rows1 & r' & Hf & ?)|(m & rows0 & Hf & ?)].
    + left. exists n', rows1, r'. by rewrite Hl1.
    + right. exists m, rows0. by rewrite Hl0.
Qed.

Lemma filter_all {A} (P : A → Prop) `{∀ x, Decision (P x)} l : Forall P l → filter P l = l.
Proof. induction 1 as [|x l Hx _ IH]; [done|]. by rewrite filter_cons_True, IH. Qed.

Lemma StronglySorted_filter {A} (R : relation A) (P : A → Prop) `{∀ x, Decision (P x)} l :
  StronglySorted R l → StronglySorted R (filter P l).
Proof.
  induction 1 as [|x l Hs IH Hx]; [constructor|]. rewrite filter_cons. case_decide; [|done]. constructor; [done|].
  rewrite Forall_forall in *. intros y [_ Hy]%list_elem_of_filter. by apply Hx.
Qed.

Lemma merge_files_rows env s hz hist keys n acc :
  tier_ok hz hist s → calm env s → Forall (λ k, is_Some (s !! k) ∧ HasPrefix k (l0Prefix h8) = true) keys →
  merge_files env s eid keys n acc = Some (acc ++ map merged_of_row (keys ≫= rows_at s)).
Proof.
  intros Hok Hcalm Hk. revert n acc. induction Hk as [|key keys [Hk Hp] _ IH]; intros n acc; cbn [merge_files].
  { cbn. by rewrite app_nil_r. }
  rewrite (calm_ctx _ _ Hcalm). destruct (tier_good eid hz hist s key Hok Hk (or_introl Hp)) as [Hg Hin].
  unfold readEntityRowsFromKey. rewrite (open_good env s (calm_get _ _ Hcalm) _ _ Hg). cbn [merge_records].
  rewrite (calm_ctx _ _ Hcalm), IH, bind_cons, map_app. unfold extractEntityRowsFromRecord.
  cbn [app]. rewrite filter_all; [by rewrite app_assoc|]. apply Forall_forall. intros r Hr.
  pose proof (tk_rows _ _ _ _ Hok) as H. rewrite Forall_forall in H. by apply H, Hin.
Qed.

Lemma row_of_merged_of r : length (entity_id_hash r) = 16%nat → row_of_merged (merged_of_row r) = r.
Proof.
  intros Hl. unfold row_of_merged, merged_of_row. cbn -[be_put take u64].
  rewrite take_app_le, take_ge by lia. by destruct r.
Qed.

(** The horizon up to which a tier was pruned, after a compaction. *)
Definition pruned_to (c : L1Compactor) (hz : Z) : Z :=
  if EnableDominancePruning (lc_cfg c) && (0 <? PruningHorizonInt64Ns (lc_cfg c))
  then Z.max hz (PruningHorizonInt64Ns (lc_cfg c)) else hz.

(** The rows that go into the L1 file. *)
Definition merged_rows (c : L1Compactor) (rows : list Row) : list mergedRowT :=
  let rows := insertion_sort by_frag (map merged_of_row rows) in
  if EnableDominancePruning (lc_cfg c) && (0 <? PruningHorizonInt64Ns (lc_cfg c))
  then DominancePrune rows (PruningHorizonInt64Ns (lc_cfg c)) else rows.

Lemma merged_rows_spec c hz rows :
  Forall (λ r, mine eid r ∧ row_typed r ∧ 0 <= system_time r) rows →
  (∀ m, m ∈ merged_rows c rows → ∃ r, r ∈ rows ∧ m = merged_of_row r) ∧
  (∀ r, r ∈ rows → ∃ r', r' ∈ rows ∧ merged_of_row r' ∈ merged_rows c rows ∧ covers (pruned_to c hz) r' r) ∧
  StronglySorted (λ a b, sysT a <= sysT b) (merged_rows c rows).
Proof.
  intros Hr. unfold merged_rows, pruned_to. set (sorted := insertion_sort by_frag (map merged_of_row rows)).
  assert (StronglySorted (λ a b, sysT a <= sysT b) sorted) as Hs.
  { apply (frag_order (H16 eid)). eapply Forall_impl; [exact Hr|]. intros r ((Eh & _) & Ht & Hp). split; [done|].
    destruct (rt_sys _ Ht). lia. }
  assert (∀ m, m ∈ sorted ↔ ∃ r, m = merged_of_row r ∧ r ∈ rows) as Hin.
  { intros m. unfold sorted. rewrite insertion_sort_perm. apply list_elem_of_fmap. }
  destruct (_ && _) eqn:E.
  - apply andb_true_iff in E as [_ E%Z.ltb_lt]. rewrite prune_filter by done. split_and!.
    + intros m [_ Hm]%list_elem_of_filter. apply Hin in Hm as (r & -> & ?). by exists r.
    + intros r Hr'. destruct (kept_dominator (PruningHorizonInt64Ns (lc_cfg c)) sorted (merged_of_row r)) as (m & Hm & Hd).
      { apply Hin. by exists r. }
      assert (m ∈ sorted) as (r' & -> & Hr'')%Hin by (by apply list_elem_of_filter in Hm as [_ ?]).
      exists r'. split; [done|]. split; [done|]. destruct Hd as [Hd|(H1 & [H2 H3] & H4)].
      * left. rewrite Forall_forall in Hr. rewrite <- (row_of_merged_of r'), Hd, row_of_merged_of; [done|..]; by apply rt_hash, Hr.
      * right. cbn in H1, H2, H3, H4. lia.
    + by apply StronglySorted_filter.
  - split_and!; [intros m (r & -> & ?)%Hin; by exists r| |done].
    intros r Hr'. exists r. split; [done|]. split; [apply Hin; by exists r|by left].
Qed.

(** The L0 files of a listing, and their rows. *)
Section Listed.
Context (hz : Z) (hist : list Row) (s : Store) (keys : list (list Z)).
Hypothesis Hok : tier_ok hz hist s.
Hypothesis Hkeys : ∀ k, k ∈ keys ↔ is_Some (s !! k) ∧ HasPrefix k (l0Prefix h8) = true.

Lemma listed_rows r : r ∈ keys ≫= rows_at s ↔ ∃ m rows0, l0_file s m rows0 ∧ r ∈ rows0.
Proof.
  rewrite list_elem_of_bind. split.
  - intros (k & Hr & [Hs Hp]%Hkeys). destruct (tier_key_l0 eid hz hist s k Hok Hs Hp) as (m & rows0 & -> & Hf & _).
    exists m, rows0. by rewrite (rows_at_holds _ _ _ _ Hf) in Hr.
  - intros (m & rows0 & Hf & Hr). exists (l0KeyFor h8 m). rewrite (rows_at_holds _ _ _ _ Hf). split; [done|].
    apply Hkeys. split; [eexists; apply Hf|]. rewrite l0_prefix by apply h8_ok. by apply bool_decide_eq_true_2.
Qed.

Lemma listed_typed : Forall (λ r, mine eid r ∧ row_typed r ∧ 0 <= system_time r) (keys ≫= rows_at s).
Proof.
  apply Forall_forall. intros r (m & rows0 & Hf & Hr)%listed_rows. pose proof (tk_rows _ _ _ _ Hok) as H.
  rewrite Forall_forall in H. apply H. by apply (tier_l0 eid hz hist s m rows0).
Qed.

Lemma listed_numbers :
  ∃ ns, keys = map (l0KeyFor h8) ns ∧ Forall (λ m, 0 <= m < 2 ^ 63) ns ∧ ∀ m, m ∈ ns → m ∈ map system_time hist.
Proof.
  assert (Forall (λ k, ∃ m, k = l0KeyFor h8 m ∧ 0 <= m < 2 ^ 63 ∧ m ∈ map system_time hist) keys) as H.
  { apply Forall_forall. intros k [Hs Hp]%Hkeys. destruct (tier_key_l0 eid hz hist s k Hok Hs Hp) as (m & rows0 & -> & _ & Hfo).
    exists m. split; [done|]. split; [apply Hfo|]. pose proof (fo_attained _ _ _ Hfo) as Ha.
    apply list_elem_of_fmap in Ha as (x & -> & Hx). apply list_elem_of_fmap. exists x. split; [done|]. by apply Hfo. }
  clear Hkeys. induction H as [|k ks (m & -> & Hm & Hin) _ (ns & -> & Hns & Hall)].
  - exists []. split_and!; [done|done|]. intros m Hm. by apply not_elem_of_nil in Hm.
  - exists (m :: ns). split_and!; [done|by constructor|]. intros m' [->|Hm']%elem_of_cons; [done|by apply Hall].
Qed.

(** The L1 file that a compaction writes. *)
Lemma merged_file c first rest :
  merged_rows c (keys ≫= rows_at s) = first :: rest →
  let rows := map row_of_merged (first :: rest) in
  file_ok hist (sysT first) rows ∧ merges (pruned_to c hz) s rows ∧
  ∀ r, r ∈ rows → ∃ m rows0, l0_file s m rows0 ∧ r ∈ rows0.
Proof.
  intros Er rows. pose proof listed_typed as Hty. pose proof listed_rows as Hall. set (all := keys ≫= rows_at s) in *.
  destruct (merged_rows_spec c hz all Hty) as (Hsub & Hcov & Hsort). rewrite Er in Hsub, Hcov, Hsort.
  rewrite Forall_forall in Hty.
  assert (∀ r, r ∈ rows ↔ r ∈ all ∧ merged_of_row r ∈ first :: rest) as Hrows.
  { intros r. unfold rows. rewrite list_elem_of_fmap. split.
    - intros (m & -> & Hm). destruct (Hsub m Hm) as (r & Hr & ->). by rewrite row_of_merged_of by (by apply rt_hash, Hty).
    - intros [Hr Hm]. exists (merged_of_row r). by rewrite row_of_merged_of by (by apply rt_hash, Hty). }
  destruct (Hsub first ltac:(by left)) as (r0 & Hr0 & Ef).
  split_and!.
  - split.
    + rewrite Ef. destruct (Hty r0 Hr0) as (_ & Ht & ?). destruct (rt_sys _ Ht). simpl. lia.
    + apply Forall_forall. intros r [Hr _]%Hrows. by apply Hty.
    + apply Forall_forall. intros r [Hr Hm]%Hrows. apply StronglySorted_inv in Hsort as [_ Hsort]. rewrite Forall_forall in Hsort.
      apply elem_of_cons in Hm as [<-|Hm]; [done|]. apply (Hsort _ Hm).
    + apply list_elem_of_fmap. exists r0. split; [by rewrite Ef|]. apply Hrows. rewrite <- Ef. split; [done|by left].
    + intros r [Hr _]%Hrows. apply Hall in Hr as (m & rows0 & Hf & Hin). by apply (tier_l0 eid hz hist s m rows0).
  - intros m rows0 r Hf Hr. destruct (Hcov r) as (r' & Hr' & Hm & Hc); [apply Hall; by exists m, rows0|].
    exists r'. split; [by apply Hrows|done].
  - intros r [Hr _]%Hrows. by apply Hall.
Qed.
End Listed.

(** What Compaction leaves in the store: nothing new, the L1 file, or the L1
    file and its manifest. *)
Lemma compaction_effect env c arrow_ok up1 up2 hz hist s :
  tier_ok hz hist s → calm env s →
  let s' := (Compaction env c arrow_ok up1 up2 eid h8 s).2 in
  s' = s ∨
  ∃ n rows, file_ok hist n rows ∧ merges (pruned_to c hz) s rows ∧
    (∀ r, r ∈ rows → ∃ m rows0, l0_file s m rows0 ∧ r ∈ rows0) ∧
    let s1 := <[l1KeyFor h8 n := ipc_write rows]> s in
    (s' = s1 ∨
     ∃ ns, Forall (λ m, 0 <= m < 2 ^ 63) ns ∧ (∀ m, m ∈ ns → m ∈ map system_time hist) ∧
       s' = <[manifestKeyFor h8 n := buildManifest (l1KeyFor h8 n) (map (l0KeyFor h8) ns)]> s1).
Proof.
  intros Hok Hcalm. unfold Compaction. destruct (calm_list _ _ Hcalm (l0Prefix h8)) as (l0 & -> & Hl0).
  destruct l0 as [|k0 l0']; [by left|]. set (keys := insertion_sort bytes_compare (k0 :: l0')).
  assert (∀ k, k ∈ keys ↔ is_Some (s !! k) ∧ HasPrefix k (l0Prefix h8) = true) as Hkeys.
  { intros k. unfold keys. by rewrite insertion_sort_perm. }
  rewrite (merge_files_rows env s hz hist keys 0 [] Hok Hcalm) by (apply Forall_forall; intros k; apply Hkeys). cbn [app].
  pose proof (merged_file hz hist s keys Hok Hkeys c) as Hfile.
  destruct (listed_numbers hz hist s keys Hok Hkeys) as (ns & Ens & Hns & Hin).
  destruct (map merged_of_row _) as [|m0 ms] eqn:Em; [by left|]. rewrite <- Em. clear Em m0 ms. cbn zeta.
  fold (merged_rows c (keys ≫= rows_at s)).
  destruct (merged_rows c (keys ≫= rows_at s)) as [|first rest] eqn:Er; [by left|].
  specialize (Hfile first rest eq_refl) as (Hfo & Hmg & Hbk).
  destruct arrow_ok; cbn [negb]; [|by left]. rewrite Ens.
  destruct up1 as [|[]]; cbn [do_upload negb snd]; [..|by left]; right; do 2 eexists; (split; [exact Hfo|]);
    (split; [exact Hmg|]); (split; [exact Hbk|]); [|by left].
  destruct up2 as [|[]]; cbn [do_upload negb snd]; [right|right|by left]; by exists ns.
Qed.

Lemma compaction_ok env c arrow_ok up1 up2 hz hist s :
  tier_ok hz hist s → calm env s →
  (∀ n m rows0 r, l0_file s m rows0 → r ∈ rows0 → system_time r = n → backed s n) →
  tier_ok (pruned_to c hz) hist (Compaction env c arrow_ok up1 up2 eid h8 s).2.
Proof.
  intros Hok Hcalm Hbk. assert (hz <= pruned_to c hz) as Hle by (unfold pruned_to; case_match; lia).
  apply (tier_mono _ _ _ _ Hle) in Hok as Hok'.
  destruct (compaction_effect env c arrow_ok up1 up2 hz hist s Hok Hcalm) as [->|(n & rows & Hfo & Hmg & Hb & H)]; [done|].
  assert (tier_ok (pruned_to c hz) hist (<[l1KeyFor h8 n := ipc_write rows]> s)) as H1.
  { apply insert_l1_ok; [done|done|done|]. pose proof (fo_attained _ _ _ Hfo) as Ha.
    apply list_elem_of_fmap in Ha as (r & -> & Hr). destruct (Hb r Hr) as (m & rows0 & Hf & Hr0). by eapply Hbk. }
  cbn zeta in H. destruct H as [->|(ns & Hns & Hin & ->)]; [done|]. apply insert_manifest_ok; [done|apply Hfo|done|].
  split; [|done]. exists rows. split; [split; [apply lookup_insert_eq|split; apply Hfo]|].
  intros m rows0 _ Hf r Hr. apply (Hmg m rows0 r); [|done]. eapply holds_ne; [|exact Hf].
  symmetry. apply lookup_insert_ne. tier.
Qed.

(** The sweep knows the hash only and takes the entity from the first file. *)
Lemma by_hash8 env c arrow_ok up1 up2 hz hist s :
  eid ≠ [] → tier_ok hz hist s → calm env s →
  CompactionByHash8 env c arrow_ok up1 up2 h8 s = Compaction env c arrow_ok up1 up2 eid h8 s.
Proof.
  intros Hne Hok Hcalm. unfold CompactionByHash8.
  destruct (calm_list _ _ Hcalm (l0Prefix h8)) as (l0 & El & Hl0). rewrite El.
  destruct l0 as [|k0 l0']; [unfold Compaction; by rewrite El|].
  destruct (insertion_sort bytes_compare (k0 :: l0')) as [|k ks] eqn:Es.
  { pose proof (insertion_sort_perm bytes_compare (k0 :: l0')) as Hp. rewrite Es in Hp. by apply Permutation_nil_l in Hp. }
  assert (k ∈ k0 :: l0') as [Hs Hp]%Hl0 by (rewrite <- (insertion_sort_perm bytes_compare), Es; by left).
  destruct (tier_key_l0 eid hz hist s k Hok Hs Hp) as (n & rows & -> & Hf & Hfo). destruct Hf as (E & Ht & _).
  unfold firstEntityIDFromKey, Download. rewrite (calm_get _ _ Hcalm), E.
  pose proof (ipc_write_nonempty rows) as Hw. destruct (ipc_write rows) eqn:Ew; [done|]. rewrite <- Ew.
  rewrite ipc_open_write by done. pose proof (fo_attained _ _ _ Hfo) as Ha.
  destruct rows as [|r rows]; [by apply not_elem_of_nil in Ha|]. rewrite bool_decide_eq_true_2 by done.
  pose proof (tk_rows _ _ _ _ Hok) as Hr. rewrite Forall_forall in Hr.
  destruct (Hr r) as ((_ & ->) & _); [apply Hfo; by left|].
  clear - Hne. generalize (LsmInv.h8 eid). intros h. revert Hne. case eid; [congruence|reflexivity].
Qed.

(** ** A reap deletes files that a manifest and its L1 file replace *)

Lemma delete_foreign hz hist s k :
  tier_ok hz hist s → HasPrefix k (l0Prefix h8) = false → HasPrefix k (l1Prefix h8) = false → tier_ok hz hist (delete k s).
Proof.
  intros [Hr H0 H1 Hm Hh] Hn0 Hn1.
  assert (∀ m rows, l0_file (delete k s) m rows ↔ l0_file s m rows) as Hl0.
  { intros m rows. apply holds_ne, lookup_delete_ne. intros ->. rewrite l0_prefix in Hn0 by apply h8_ok.
    by apply bool_decide_eq_false in Hn0. }
  assert (∀ m rows, l1_file (delete k s) m rows ↔ l1_file s m rows) as Hl1.
  { intros m rows. apply holds_ne, lookup_delete_ne. intros ->. rewrite l1_prefix in Hn1 by apply h8_ok.
    by apply bool_decide_eq_false in Hn1. }
  split; [done|..].
  - intros k' data [_ E]%lookup_delete_Some. by apply H0.
  - intros k' data [_ E]%lookup_delete_Some. by apply H1.
  - intros k' data [_ E]%lookup_delete_Some Hp. destruct (Hm k' data E Hp) as (h & n & ns & ? & ? & ? & ? & ? & Hok).
    exists h, n, ns. do 5 (split; [done|]). intros Eh. destruct (Hok Eh) as [(rows1 & Hf & Hc) Hin]. split; [|done].
    exists rows1. split; [by apply Hl1|]. intros m rows0 Hm' Hf0. apply Hl0 in Hf0. by apply (Hc m).
  - intros r Hr'. destruct (Hh r Hr') as [(n & rows & r' & Hf & ?)|(m & rows & Hf & ?)].
    + left. exists n, rows, r'. by rewrite Hl1.
    + right. exists m, rows. by rewrite Hl0.
Qed.

Lemma delete_l0 hz hist s m n ns :
  tier_ok hz hist s → manifest_ok hz hist s n ns → m ∈ ns → 0 <= m < 2 ^ 63 → tier_ok hz hist (delete (l0KeyFor h8 m) s).
Proof.
  intros [Hr H0 H1 Hm Hh] [(rowsM & HfM & HcM) _] Hin Hrg.
  assert (∀ m' rows, l0_file (delete (l0KeyFor h8 m) s) m' rows → l0_file s m' rows) as Hl0.
  { intros m' rows ([_ E]%lookup_delete_Some & Ht). by split. }
  assert (∀ m' rows, l1_file (delete (l0KeyFor h8 m) s) m' rows ↔ l1_file s m' rows) as Hl1.
  { intros m' rows. apply holds_ne, lookup_delete_ne. tier. }
  split; [done|..].
  - intros k data [_ E]%lookup_delete_Some. by apply H0.
  - intros k data [_ E]%lookup_delete_Some. by apply H1.
  - intros k data [_ E]%lookup_delete_Some Hp. destruct (Hm k data E Hp) as (h & n' & ns' & ? & ? & ? & ? & ? & Hok).
    exists h, n', ns'. do 5 (split; [done|]). intros Eh. destruct (Hok Eh) as [(rows1 & Hf & Hc) Hin']. split; [|done].
    exists rows1. split; [by apply Hl1|]. intros m' rows0 Hm' Hf0%Hl0. by apply (Hc m').
  - intros r Hr'. destruct (Hh r Hr') as [(n' & rows & r' & Hf & ?)|(m' & rows & Hf & Hrow)].
    + left. exists n', rows, r'. by rewrite Hl1.
    + destruct (decide (m' = m)) as [->|Hne].
      * left. destruct (HcM m rows Hin Hf r Hrow) as (r' & ? & ?). exists n, rowsM, r'. by rewrite Hl1.
      * right. exists m', rows. split; [|done]. destruct Hf as (E & Ht & Hr''). split; [|done]. rewrite lookup_delete_ne; [done|].
        intros Ek. apply l0Key_inj in Ek; done.
Qed.

(** A key of another entity's tier is not under this entity's prefixes. *)
Lemma l0_foreign h m : hash8_ok h → h ≠ h8 → HasPrefix (l0KeyFor h m) (l0Prefix h8) = false ∧ HasPrefix (l0KeyFor h m) (l1Prefix h8) = false.
Proof.
  intros Hh Hne. split; [rewrite l0_prefix by done; by apply bool_decide_eq_false_2|].
  destruct (HasPrefix _ (l1Prefix h8)) eqn:E; [|done]. apply prefix_tier_l1 in E. by rewrite tier_l0K in E.
Qed.

Lemma manifest_foreign h n : HasPrefix (manifestKeyFor h n) (l0Prefix h8) = false ∧ HasPrefix (manifestKeyFor h n) (l1Prefix h8) = false.
Proof.
  split; [destruct (HasPrefix _ (l0Prefix h8)) eqn:E|destruct (HasPrefix _ (l1Prefix h8)) eqn:E]; done.
Qed.

(** Deleting the files of a manifest, which stays in the store meanwhile. *)
Lemma delete_l0s_ok del hz hist h n ns ns0 s r :
  tier_ok hz hist s → hash8_ok h → 0 <= n < 2 ^ 63 → Forall (λ m, 0 <= m < 2 ^ 63) ns → ns0 ⊆ ns →
  (h = h8 → manifest_ok hz hist s n ns) →
  tier_ok hz hist (delete_l0s del (map (l0KeyFor h) ns0) s r).1.2.
Proof.
  intros Hok Hh Hn Hns. revert s r Hok. induction ns0 as [|m ns0 IH]; intros s r Hok Hsub Hm; cbn [map delete_l0s]; [done|].
  destruct (del _); [|done].
  assert (m ∈ ns) as Hin by (apply Hsub; by left). assert (0 <= m < 2 ^ 63) by (rewrite Forall_forall in Hns; by apply Hns).
  apply IH.
  - destruct (decide (h = h8)) as [->|Hne]; [by eapply delete_l0; [|apply Hm| |]|].
    destruct (l0_foreign h m Hh Hne). by apply delete_foreign.
  - intros x Hx. apply Hsub. by right.
  - intros ->. destruct (Hm eq_refl) as [(rows1 & Hf & Hc) Hin']. split; [|done]. exists rows1. split.
    + apply (holds_ne s); [|done]. apply lookup_delete_ne. tier.
    + intros m' rows0 Hm' ([_ E]%lookup_delete_Some & Ht). by apply (Hc m' rows0 Hm').
Qed.

Lemma reap_manifest_ok env del hz hist k s r :
  tier_ok hz hist s → HasPrefix k (lit "compaction/") = true → tier_ok hz hist (reap_manifest env del k s r).1.
Proof.
  intros Hok Hp. unfold reap_manifest. destruct (negb _); [done|].
  destruct (Download env s k) as [body|] eqn:E; [|done].
  unfold Download in E. destruct (download_fails env k); [done|].
  destruct (tk_manifest _ _ _ _ Hok k body E Hp) as (h & n & ns & Hh & Hn & Hns & -> & -> & Hm).
  rewrite manifest_parse by done. destruct (bool_decide _); [done|]. destruct (Download env s (l1KeyFor h n)); [|done].
  pose proof (delete_l0s_ok del hz hist h n ns ns s r Hok Hh Hn Hns ltac:(done) Hm) as Hd.
  destruct (delete_l0s _ _ _ _) as [[ok s'] r']. cbn [fst snd] in Hd. destruct ok; [|done]. cbn [negb].
  destruct (del _); [|done]. destruct (manifest_foreign h n). by apply delete_foreign.
Qed.

Lemma reap_ok env del hz hist s :
  tier_ok hz hist s → (∀ l, list_objects env s (lit "compaction/") = Some l → Forall (λ k, HasPrefix k (lit "compaction/") = true) l) →
  tier_ok hz hist (Reap env del s).1.
Proof.
  intros Hok Hl. unfold Reap. destruct (list_objects env s (lit "compaction/")) as [ks|]; [|done].
  specialize (Hl ks eq_refl). generalize 0%nat (mkReap 0 0 0 0). revert s Hok.
  induction Hl as [|k ks Hp _ IH]; intros s Hok n r; cbn [reap_all]; [done|]. destruct (cancelled env n); [done|].
  pose proof (reap_manifest_ok env del hz hist k s r Hok Hp) as Hk. destruct (reap_manifest env del k s r) as [s' r']. by apply IH.
Qed.
End Steps.
