(* ===== verification/LsmThms.v ===== *)
(** The query tier as a system of flushes, compactions, reaps and the work of
    other entities: AsOf answers from the whole history in every state it
    reaches. *)
From S2P Require Import Prelude Bytes Sha256 Sorting LsmKeys Resolver L1Compactor LsmPrune.
From S2P Require Import ResolverThms LsmInv LsmSteps.

(** The object store, every row flushed so far, the greatest horizon a
    compaction pruned with, and whether the reaper ever ran. *)
Record lsm_state := mkLsm { ls_store : Store; ls_hist : list Row; ls_hz : Z; ls_reaped : bool }.

Definition lsm_init : lsm_state := mkLsm ∅ [] 0 false.

Section System.
Context `{AI : ArrowIPC}.
Context (eid : list Z).

(** A manifest that another entity's compaction writes. *)
Definition foreign_manifest (k data : list Z) : Prop :=
  ∃ h n ns, hash8_ok h ∧ h ≠ h8 eid ∧ 0 <= n < 2 ^ 63 ∧ Forall (λ m, 0 <= m < 2 ^ 63) ns ∧ k = manifestKeyFor h n ∧
    data = buildManifest (l1KeyFor h n) (map (l0KeyFor h) ns).

Definition own_key (k : list Z) : Prop :=
  HasPrefix k (l0Prefix (h8 eid)) = true ∨ HasPrefix k (l1Prefix (h8 eid)) = true ∨ HasPrefix k (manifestsPrefix (h8 eid)) = true.

(** What happens to the tier: an L0 file written under the name [n], a
    compaction, a sweep of the reaper, or other work on the store. *)
Inductive lsm_event :=
| EvFlush (n : Z) (rows : list Row)
| EvCompact (env : IOEnv) (c : L1Compactor) (arrow_ok : bool) (up1 up2 : UploadOutcome)
| EvReap (env : IOEnv) (del : list Z → bool)
| EvOther (s' : Store).

Definition lsm_effect (ev : lsm_event) (st : lsm_state) : lsm_state :=
  let '(mkLsm s hist hz rp) := st in
  match ev with
  | EvFlush n rows => mkLsm (<[l0KeyFor (h8 eid) n := ipc_write rows]> s) (hist ++ rows) hz rp
  | EvCompact env c arrow_ok up1 up2 =>
      mkLsm (CompactionByHash8 env c arrow_ok up1 up2 (h8 eid) s).2 hist (pruned_to c hz) rp
  | EvReap env del => mkLsm (Reap env del s).1 hist hz true
  | EvOther s' => mkLsm s' hist hz rp
  end.

(** The conditions of a regular run.  The code checks none of them; outside of
    them rows are lost, as the runs at the end of this file and
    CkptFlush.equal_time_replaces_file show.  A flush has the entity's own rows with
    non-negative system times, is named by the least of them, and that one is new
    to the entity; a compaction's reads succeed (its uploads may end in any way),
    and once the reaper ran it only replaces an L1 file whose rows L0 files still
    hold; the reaper lists keys with the prefix it asked for (any of its deletes may
    fail); other work leaves the entity's keys alone and writes well-formed
    manifests of other entities. *)
Definition lsm_regular (ev : lsm_event) (st : lsm_state) : Prop :=
  let '(mkLsm s hist _ rp) := st in
  match ev with
  | EvFlush n rows =>
      Forall (λ r, mine eid r ∧ row_typed r ∧ 0 <= system_time r) rows ∧ Forall (λ r, n <= system_time r) rows ∧
      n ∈ map system_time rows ∧ n ∉ map system_time hist
  | EvCompact env _ _ _ _ =>
      calm env s ∧
      (rp = true → ∀ n m rows0 r, l0_file eid s m rows0 → r ∈ rows0 → system_time r = n → backed eid s n)
  | EvReap env _ =>
      ∀ l, list_objects env s (lit "compaction/") = Some l → Forall (λ k, HasPrefix k (lit "compaction/") = true) l
  | EvOther s' =>
      (∀ k, own_key k → s' !! k = s !! k) ∧
      (∀ k data, s' !! k = Some data → HasPrefix k (lit "compaction/") = true → own_key k ∨ foreign_manifest k data)
  end.

Definition lsm_step (st st' : lsm_state) : Prop := ∃ ev, lsm_regular ev st ∧ st' = lsm_effect ev st.

Lemma lsm_flush s hist hz rp n rows :
  Forall (λ r, mine eid r ∧ row_typed r ∧ 0 <= system_time r) rows → Forall (λ r, n <= system_time r) rows →
  n ∈ map system_time rows → n ∉ map system_time hist →
  lsm_step (mkLsm s hist hz rp) (mkLsm (<[l0KeyFor (h8 eid) n := ipc_write rows]> s) (hist ++ rows) hz rp).
Proof. intros. by exists (EvFlush n rows). Qed.

Lemma lsm_compact s hist hz rp env c arrow_ok up1 up2 :
  calm env s →
  (rp = true → ∀ n m rows0 r, l0_file eid s m rows0 → r ∈ rows0 → system_time r = n → backed eid s n) →
  lsm_step (mkLsm s hist hz rp)
    (mkLsm (CompactionByHash8 env c arrow_ok up1 up2 (h8 eid) s).2 hist (pruned_to c hz) rp).
Proof. intros. by exists (EvCompact env c arrow_ok up1 up2). Qed.

Definition lsm_reachable : lsm_state → Prop := rtc lsm_step lsm_init.

Lemma tier_empty : tier_ok eid 0 [] ∅.
Proof.
  split; [done|..]; try (intros k data E; by rewrite lookup_empty in E). intros r Hr. by apply not_elem_of_nil in Hr.
Qed.

Lemma own_l0 n : own_key (l0KeyFor (h8 eid) n).
Proof. left. rewrite l0_prefix by apply h8_ok. by apply bool_decide_eq_true_2. Qed.
Lemma own_l1 n : own_key (l1KeyFor (h8 eid) n).
Proof. right; left. rewrite l1_prefix by apply h8_ok. by apply bool_decide_eq_true_2. Qed.

Lemma other_ok hz hist s s' :
  tier_ok eid hz hist s → (∀ k, own_key k → s' !! k = s !! k) →
  (∀ k data, s' !! k = Some data → HasPrefix k (lit "compaction/") = true → own_key k ∨ foreign_manifest k data) →
  tier_ok eid hz hist s'.
Proof.
  intros [Hr H0 H1 Hm Hh] Hown Hfor.
  assert (∀ m rows, l0_file eid s' m rows ↔ l0_file eid s m rows) as Hl0 by (intros; apply holds_ne, Hown, own_l0).
  assert (∀ m rows, l1_file eid s' m rows ↔ l1_file eid s m rows) as Hl1 by (intros; apply holds_ne, Hown, own_l1).
  split; [done|..].
  - intros k data E Hp. rewrite Hown in E by (by left). by apply H0.
  - intros k data E Hp. rewrite Hown in E by (by right; left). by apply H1.
  - intros k data E Hp. destruct (Hfor k data E Hp) as [Hk|(h & n & ns & ? & ? & ? & ? & ? & ?)].
    + rewrite Hown in E by done. destruct (Hm k data E Hp) as (h & n & ns & ? & ? & ? & ? & ? & Hok).
      exists h, n, ns. do 5 (split; [done|]). intros Eh. destruct (Hok Eh) as [(rows1 & Hf & Hc) Hin]. split; [|done].
      exists rows1. split; [by apply Hl1|]. intros m rows0 Hm' Hf0. apply Hl0 in Hf0. by apply (Hc m).
    + exists h, n, ns. do 5 (split; [done|]). done.
  - intros r Hr'. destruct (Hh r Hr') as [(n & rows & r' & Hf & ?)|(m & rows & Hf & ?)].
    + left. exists n, rows, r'. by rewrite Hl1.
    + right. exists m, rows. by rewrite Hl0.
Qed.

(** As long as no file was reaped, L0 files hold everything the L1 files hold. *)
Definition all_backed (s : Store) : Prop := ∀ n, backed eid s n.

Lemma compaction_backed env c arrow_ok up1 up2 hz hist s :
  tier_ok eid hz hist s → calm env s → all_backed s → all_backed (Compaction env c arrow_ok up1 up2 eid (h8 eid) s).2.
Proof.
  intros Hok Hcalm Hb.
  destruct (compaction_effect eid env c arrow_ok up1 up2 hz hist s Hok Hcalm) as [->|(n & rows & Hfo & _ & Hback & H)]; [done|].
  assert (∀ s1, (∀ m rows0, l0_file eid s m rows0 → l0_file eid s1 m rows0) →
            (∀ m rows1, l1_file eid s1 m rows1 → l1_file eid s m rows1 ∨ rows1 = rows) → all_backed s1) as Hgen.
  { intros s1 H0 H1 n' rows1 r Hf Hr. destruct (H1 _ _ Hf) as [Hf'| ->].
    - destruct (Hb n' rows1 r Hf' Hr) as (m & rows0 & ? & ?). exists m, rows0. auto.
    - destruct (Hback r Hr) as (m & rows0 & ? & ?). exists m, rows0. auto. }
  assert (∀ m rows1, l1_file eid (<[l1KeyFor (h8 eid) n:=ipc_write rows]> s) m rows1 → l1_file eid s m rows1 ∨ rows1 = rows) as Hone.
  { intros m rows1 (E & Ht & Hrg). destruct (decide (l1KeyFor (h8 eid) n = l1KeyFor (h8 eid) m)) as [Ek|Ek].
    - rewrite <- Ek, lookup_insert_eq in E. right. symmetry. apply write_inj; [apply Hfo|done|congruence].
    - rewrite lookup_insert_ne in E by done. by left. }
  cbn zeta in H. destruct H as [->|(ns & _ & _ & ->)]; apply Hgen.
  - intros m rows0 Hf. apply (holds_ne s); [|done]. apply lookup_insert_ne. tier.
  - done.
  - intros m rows0 Hf. apply (holds_ne s); [|done]. rewrite lookup_insert_ne by tier. apply lookup_insert_ne. tier.
  - intros m rows1 Hf. apply Hone. eapply holds_ne; [|exact Hf]. symmetry. apply lookup_insert_ne. tier.
Qed.

Record lsm_inv (st : lsm_state) : Prop := {
  li_tier : tier_ok eid (ls_hz st) (ls_hist st) (ls_store st);
  li_backed : ls_reaped st = false → all_backed (ls_store st);
}.

Lemma flush_backed hz hist s n rows :
  tier_ok eid hz hist s → n ∉ map system_time hist → 0 <= n < 2 ^ 63 →
  all_backed s → all_backed (<[l0KeyFor (h8 eid) n := ipc_write rows]> s).
Proof.
  intros Hok Hfresh Hn Hb n' rows1 r Hf Hr. destruct (Hb n' rows1 r) as (m & rows0 & Hf0 & Hr0); [|done|].
  { eapply holds_ne; [|exact Hf]. symmetry. apply lookup_insert_ne. tier. }
  exists m, rows0. split; [|done]. apply (holds_ne s); [|done]. apply lookup_insert_ne. intros E.
  apply l0Key_inj in E as <-; [|done|apply Hf0]. apply Hfresh.
  pose proof (tier_l0 eid hz hist s n rows0 Hok Hf0) as Hfo. pose proof (fo_attained _ _ _ Hfo) as Ha.
  apply list_elem_of_fmap in Ha as (x & -> & Hx). apply list_elem_of_fmap. exists x. split; [done|]. by apply Hfo.
Qed.

Lemma lsm_step_inv st st' : eid ≠ [] → lsm_step st st' → lsm_inv st → lsm_inv st'.
Proof.
  intros Hne Hst [Hok Hb]. destruct Hst as (ev & Hreg & ->), st as [s hist hz rp].
  destruct ev as [n rows|env c a u1 u2|env del|s']; cbn [lsm_regular] in Hreg;
    [destruct Hreg as (H1 & H2 & H3 & H4)|destruct Hreg as [Hcalm Hg]|rename Hreg into Hl|destruct Hreg as [Hown Hfor]];
    cbn [lsm_effect ls_store ls_hist ls_hz ls_reaped] in *; split; cbn [ls_store ls_hist ls_hz ls_reaped].
  - by apply flush_ok.
  - intros E. apply (flush_backed hz hist); [done|done| |by apply Hb].
    apply list_elem_of_fmap in H3 as (r & -> & Hr). rewrite Forall_forall in H1. destruct (H1 r Hr) as (_ & Ht & ?).
    destruct (rt_sys _ Ht). lia.
  - rewrite (by_hash8 eid env c a u1 u2 hz hist s Hne Hok Hcalm). apply compaction_ok; [done|done|].
    intros n m rows0 r Hf Hr Er. destruct rp; [by eapply Hg|by apply Hb].
  - intros E. rewrite (by_hash8 eid env c a u1 u2 hz hist s Hne Hok Hcalm). eapply compaction_backed; eauto.
  - by apply reap_ok.
  - done.
  - by eapply other_ok.
  - intros E n rows1 r Hf Hr. destruct (Hb E n rows1 r) as (m & rows0 & Hf0 & ?).
    + eapply holds_ne; [|exact Hf]. symmetry. apply Hown, own_l1.
    + done.
    + exists m, rows0. split; [|done]. eapply holds_ne; [|exact Hf0]. apply Hown, own_l0.
Qed.

Lemma lsm_reachable_inv st : eid ≠ [] → lsm_reachable st → lsm_inv st.
Proof.
  intros Hne Hr. assert (lsm_inv lsm_init) as H0.
  { split; [apply tier_empty|]. intros _ n rows1 r (E & _). cbn [lsm_init ls_store] in E. by rewrite lookup_empty in E. }
  revert H0. induction Hr as [|st1 st2 st3 Hst _ IH]; [done|]. intros H. apply IH. by eapply lsm_step_inv.
Qed.

(** C4. AsOf answers from the whole history.  After any regular run of flushes
    (non-negative system times, named by a first one new to the entity),
    compactions with and without pruning whose reads succeed and whose uploads may
    fail (once the reaper ran, only over L1 files that L0 files still back), reaps
    with failing deletes, and other entities' work, a query with calm I/O, with at
    most MaxL0Files level-0 files listed and a transaction time at or after the
    greatest pruning horizon, returns a visible event with the greatest system time
    of all rows ever flushed and all live events, or not found when none is
    visible.  Outside these conditions rows are lost (unreadable_l0_hidden,
    partial_reap_loses_row, negative_system_time_prunes, capped_tail_drops_newest,
    equal_time_replaces_file). *)
Theorem queries_answer_history (st : lsm_state) (env : IOEnv) (live : LiveRead) (v t : Z) (r : Resolver) :
  eid ≠ [] → lsm_reachable st → calm env (ls_store st) → ls_hz st <= t →
  (∀ l, list_objects env (ls_store st) (l0Prefix (h8 eid)) = Some l → Z.of_nat (length l) <= MaxL0Files (r_config r)) →
  answers (recorded eid (ls_hist st) live) v t (AsOf env (ls_store st) live eid v t r).1.
Proof.
  intros Hne Hr Hcalm Ht Hcap. eapply asof_answers; [done|done| |exact Ht|done]. by apply lsm_reachable_inv.
Qed.
End System.

(** * A concrete file format and store for the query tier, a run of the system of
    LsmThms.v, and runs outside its conditions that lose rows. *)

(** ** A file format: every field and list with its length in front *)

Definition enc_list (l : list Z) : list Z := Z.of_nat (length l) :: l.

Definition dec_list (bs : list Z) : option (list Z * list Z) :=
  match bs with
  | n :: bs' => Some (take (Z.to_nat n) bs', drop (Z.to_nat n) bs')
  | [] => None
  end.

Definition enc_row (r : Row) : list Z :=
  enc_list (entity_id_hash r) ++ [system_time r; valid_time_start r; valid_time_end r; assertion_time r; h3_index r] ++
  enc_list (payload_digest r) ++ enc_list (entity_id r) ++ enc_list (payload r).

Definition dec_row (bs : list Z) : option (Row * list Z) :=
  '(h, bs) ← dec_list bs;
  match bs with
  | st :: v :: w :: a :: h3 :: bs =>
      '(d, bs) ← dec_list bs; '(e, bs) ← dec_list bs; '(p, bs) ← dec_list bs;
      Some (mkRow h st v w a h3 d e p, bs)
  | _ => None
  end.

Fixpoint dec_rows (n : nat) (bs : list Z) : option (list Row) :=
  match n with
  | O => Some []
  | S k => '(r, bs) ← dec_row bs; rs ← dec_rows k bs; Some (r :: rs)
  end.

Lemma dec_enc_list l bs : dec_list (enc_list l ++ bs) = Some (l, bs).
Proof. unfold dec_list, enc_list. cbn [app]. by rewrite Nat2Z.id, take_app_length, drop_app_length. Qed.

Lemma dec_enc_row r bs : dec_row (enc_row r ++ bs) = Some (r, bs).
Proof.
  unfold dec_row, enc_row. rewrite <- !app_assoc, dec_enc_list. cbn [mbind option_bind app].
  rewrite !dec_enc_list. cbn [mbind option_bind]. rewrite !dec_enc_list. cbn [mbind option_bind].
  rewrite dec_enc_list. cbn [mbind option_bind]. by destruct r.
Qed.

Lemma dec_enc_rows rs bs : dec_rows (length rs) ((rs ≫= enc_row) ++ bs) = Some rs.
Proof.
  induction rs as [|r rs IH]; [done|]. rewrite bind_cons, <- app_assoc. cbn [length dec_rows].
  rewrite dec_enc_row. cbn [mbind option_bind]. by rewrite IH.
Qed.

Definition flat_open (bs : list Z) : option (list DataType * list (option (list Row))) :=
  match bs with
  | n :: bs' => (λ rows, (ArrowSchema, [Some rows])) <$> dec_rows (Z.to_nat n) bs'
  | [] => None
  end.

#[export] Instance flat_ipc : ArrowIPC := {|
  ipc_write rows := Z.of_nat (length rows) :: (rows ≫= enc_row);
  ipc_open := flat_open;
  ipc_write_nonempty rows := λ E, eq_ind (Z.of_nat (length rows) :: (rows ≫= enc_row)) (λ l, match l with [] => False | _ => True end) I [] E;
  ipc_open_write rows _ :=
    eq_trans (f_equal (fmap (λ rows, (ArrowSchema, [Some rows])))
                (eq_trans (f_equal2 dec_rows (Nat2Z.id (length rows)) (eq_sym (app_nil_r _))) (dec_enc_rows rows [])))
             eq_refl;
|}.

(** ** An object store that works *)

Definition std_env : IOEnv :=
  mkIOEnv (λ s p, Some (filter (λ k, HasPrefix k p = true) (map fst (map_to_list s)))) (λ _, false) (λ _, false).

Lemma std_calm s : calm std_env s.
Proof.
  split; [|done|done]. intros p. eexists. split; [done|]. intros k. rewrite list_elem_of_filter, list_elem_of_fmap.
  split.
  - intros (Hp & [k' data] & -> & E%elem_of_map_to_list). cbn in *. split; [by eexists|done].
  - intros [[data E] Hp]. split; [done|]. exists (k, data). split; [done|]. by apply elem_of_map_to_list.
Qed.

Lemma std_listed s p l :
  list_objects std_env s p = Some l → Forall (λ k, HasPrefix k p = true) l ∧ (length l <= size s)%nat.
Proof.
  intros [= <-]. split; [apply Forall_forall; intros k [Hk _]%list_elem_of_filter; done|].
  etrans; [apply length_filter|]. rewrite length_map, length_map_to_list. done.
Qed.

Definition ent : list Z := lit "sensor-7".
Definition row_at (sys s e : Z) : Row := mkRow (H16 ent) sys s e 0 0 (replicate 32 0) ent [].

Lemma row_at_ok sys s e : is_i64 sys → is_i64 s → is_i64 e → 0 <= sys → mine ent (row_at sys s e) ∧ row_typed (row_at sys s e) ∧ 0 <= sys.
Proof.
  intros Hs Hv He Hp. split; [done|]. split; [|done]. split; try done.
Qed.

(** Two flushes, a compaction that prunes up to 20, and a reap. *)
Definition prune20 : L1Compactor := NewL1Compactor (mkCompactionConfig 1 4 true 20 0).
Definition flush1 (s : Store) : Store := <[l0KeyFor (h8 ent) 10 := ipc_write [row_at 10 0 10]]> s.
Definition flush2 (s : Store) : Store := <[l0KeyFor (h8 ent) 20 := ipc_write [row_at 20 0 10; row_at 30 5 10]]> s.

Lemma queries_answer_history_witness :
  let s2 := flush2 (flush1 ∅) in
  let s3 := (CompactionByHash8 std_env prune20 true UpStored UpStored (h8 ent) s2).2 in
  let s4 := (Reap std_env (λ _, true) s3).1 in
  answers (recorded ent [row_at 10 0 10; row_at 20 0 10; row_at 30 5 10] NoSource) 7 25
    (AsOf std_env s4 NoSource ent 7 25 (NewResolver DefaultResolverConfig)).1.
Proof.
  cbn zeta.
  set (s2 := flush2 (flush1 ∅)). set (s3 := (CompactionByHash8 _ _ _ _ _ _ s2).2). set (s4 := (Reap _ _ s3).1).
  apply (queries_answer_history ent (mkLsm s4 [row_at 10 0 10; row_at 20 0 10; row_at 30 5 10] 20 true)).
  - done.
  - apply (rtc_l _ _ (mkLsm (flush1 ∅) [row_at 10 0 10] 0 false)).
    { apply (lsm_flush ent ∅ [] 0 false 10 [row_at 10 0 10]); [|by repeat constructor|by left|by apply not_elem_of_nil].
      constructor; [by apply row_at_ok|done]. }
    apply (rtc_l _ _ (mkLsm s2 [row_at 10 0 10; row_at 20 0 10; row_at 30 5 10] 0 false)).
    { apply (lsm_flush ent (flush1 ∅) [row_at 10 0 10] 0 false 20 [row_at 20 0 10; row_at 30 5 10]);
        [|repeat constructor; cbn; lia|by left|cbn; rewrite list_elem_of_singleton; lia].
      constructor; [by apply row_at_ok|]. constructor; [by apply row_at_ok|done]. }
    change 20 with (pruned_to prune20 0).
    eapply rtc_l; [apply (lsm_compact ent s2 _ 0 false std_env prune20 true UpStored UpStored (std_calm s2)); intros [=]|].
    fold s3. apply rtc_once. exists (EvReap std_env (λ _, true)). split; [|done]. intros l Hl. by apply (std_listed s3 _ l).
  - apply std_calm.
  - done.
  - intros l [_ Hl]%std_listed. assert (size s4 <= 1000)%nat as Hs by (apply Nat.leb_le; vm_compute; reflexivity).
    cbn [ls_store] in Hl. change (MaxL0Files _) with 1000. lia.
Defined.

(** ** Runs that lose rows *)

Definition ask (s : Store) (v t : Z) : result QueryError TriTemporalEvent :=
  (AsOf std_env s NoSource ent v t (NewResolver DefaultResolverConfig)).1.

Definition compact_with (env : IOEnv) (c : L1Compactor) (s : Store) : Store :=
  (CompactionByHash8 env c true UpStored UpStored (h8 ent) s).2.

Definition put_l0 (rows : list Row) (n : Z) (s : Store) : Store := <[l0KeyFor (h8 ent) n := ipc_write rows]> s.

(** One download that fails during the merge. *)
Definition flaky (key : list Z) : IOEnv := mkIOEnv (list_objects std_env) (λ k, bool_decide (k = key)) (λ _, false).

Definition plain : L1Compactor := NewL1Compactor DefaultCompactionConfig.

(** A compaction that cannot download one of the L0 files passes it over but
    names it in the manifest: the row in it is no longer found, although the file
    is still there, and the reaper then deletes the only copy. *)
Theorem unreadable_l0_hidden :
  let s := put_l0 [row_at 20 50 60] 20 (put_l0 [row_at 10 0 10] 10 ∅) in
  let s' := compact_with (flaky (l0KeyFor (h8 ent) 20)) plain s in
  ask s 55 25 = Ok (event_of_row (row_at 20 50 60)) ∧
  ask s' 55 25 = Err ErrEntityNotFound ∧ is_Some (s' !! l0KeyFor (h8 ent) 20) ∧
  (Reap std_env (λ _, true) s').1 !! l0KeyFor (h8 ent) 20 = None.
Proof. vm_compute. split_and!; [reflexivity|reflexivity|eexists; reflexivity|reflexivity]. Qed.

(** A reap that stops at a failing delete, followed by a compaction, loses a
    row: the L1 file is named by its first row, the second compaction reads the
    one L0 file that is left, gives its L1 file the same name and so replaces the
    file that held the rows of the reaped one. *)
Theorem partial_reap_loses_row :
  let s := put_l0 [row_at 20 0 10] 20 (put_l0 [row_at 10 0 10; row_at 30 50 60] 10 ∅) in
  let s1 := compact_with std_env prune20 s in
  let s2 := (Reap std_env (λ k, negb (bool_decide (k = l0KeyFor (h8 ent) 20))) s1).1 in
  let s3 := compact_with std_env prune20 s2 in
  ask s1 55 40 = Ok (event_of_row (row_at 30 50 60)) ∧ ask s2 55 40 = Ok (event_of_row (row_at 30 50 60)) ∧
  ask s3 55 40 = Err ErrEntityNotFound.
Proof. vm_compute. split_and!; reflexivity. Qed.

(** The composite key orders negative system times after all others: the sweep of
    DominancePrune meets such a row first and lets it dominate newer ones. *)
Theorem negative_system_time_prunes :
  let s := put_l0 [row_at (-1) 0 10] (-1) (put_l0 [row_at 10 0 10] 10 ∅) in
  ask s 5 25 = Ok (event_of_row (row_at 10 0 10)) ∧ ask (compact_with std_env prune20 s) 5 25 = Err ErrEntityNotFound.
Proof. vm_compute. split; reflexivity. Qed.

(** The horizon that the sweep infers is the greatest transaction time that was
    asked for, not a bound below the times that will be: with the operator's
    floor at 5, one query at 100 lets the next sweep prune a row that a query at
    15 needs. *)
Theorem inferred_horizon_prunes_needed_row :
  let c := NewL1Compactor (mkCompactionConfig 1 4 true 5 0) in
  let s := put_l0 [row_at 8 50 60; row_at 10 0 10; row_at 20 0 10] 8 ∅ in
  let r := (AsOf std_env s NoSource ent 5 100 (NewResolver DefaultResolverConfig)).2 in
  let s' := (runCompactionSweep std_env c (Some r) (λ _, (true, UpStored, UpStored)) (λ _, false) s).2 in
  ask s 5 15 = Ok (event_of_row (row_at 10 0 10)) ∧ ask s' 5 15 = Err ErrEntityNotFound.
Proof. vm_compute. split; reflexivity. Qed.

(** With more L0 files than MaxL0Files, AsOf keeps the last names in byte order:
    "100" comes before "99", so the newest file is the one that is dropped. *)
Theorem capped_tail_drops_newest :
  let s := put_l0 [row_at 100 0 10] 100 (put_l0 [row_at 99 0 10] 99 ∅) in
  (AsOf std_env s NoSource ent 5 200 (NewResolver (mkResolverConfig 1 0 true))).1 = Ok (event_of_row (row_at 99 0 10)) ∧
  ask s 5 200 = Ok (event_of_row (row_at 100 0 10)).
Proof. vm_compute. split; reflexivity. Qed.

(** * Range over a tier that represents a history: the window in closed form, and
    that it is sound, ordered, bounded and complete. *)

(** At most [cap] elements when [cap] is positive, and whether some were left out. *)
Definition capped {A} (cap : Z) (l : list A) : list A * bool :=
  if (0 <? cap) && (cap <? Z.of_nat (length l)) then (take (Z.to_nat cap) l, true) else (l, false).

Definition within {A} (cap : Z) (l : list A) : Prop := 0 < cap → Z.of_nat (length l) <= cap.

Lemma capped_within {A} cap (l : list A) : within cap (capped cap l).1.
Proof.
  unfold within, capped. intros H. destruct ((0 <? cap) && _) eqn:E; cbn [fst].
  - rewrite length_take. lia.
  - rewrite andb_false_iff, !Z.ltb_ge in E. lia.
Qed.

Lemma capped_full {A} cap (l : list A) : (capped cap l).2 = false → (capped cap l).1 = l.
Proof. unfold capped. by case_match. Qed.

Lemma capped_sub {A} cap (l : list A) x : x ∈ (capped cap l).1 → x ∈ l.
Proof.
  unfold capped. case_match; cbn [fst]; [|done]. intros Hx. rewrite <- (take_drop (Z.to_nat cap) l). apply elem_of_app. by left.
Qed.

(** Capping early does not change what capping the whole gives. *)
Lemma capped_stop {A} cap (a b : list A) : (capped cap a).2 = true → capped cap (a ++ b) = capped cap a.
Proof.
  unfold capped. rewrite length_app. destruct ((0 <? cap) && (cap <? Z.of_nat (length a))) eqn:E; [|done]. intros _.
  rewrite andb_true_iff, !Z.ltb_lt in E. rewrite (proj2 (Z.ltb_lt 0 cap)), (proj2 (Z.ltb_lt cap _)) by lia. cbn [andb].
  rewrite take_app_le by lia. done.
Qed.

Lemma filter_none {A} (P : A → Prop) `{∀ x, Decision (P x)} l : Forall (λ x, ¬ P x) l → filter P l = [].
Proof. induction 1 as [|x l Hx _ IH]; [done|]. by rewrite filter_cons_False. Qed.

Section Window.
Context `{AI : ArrowIPC}.
Context (env : IOEnv) (s : Store) (hash eid : list Z) (lo hi t cap : Z).
Hypothesis no_cancel : ∀ n, cancelled env n = false.
Hypothesis no_fail : ∀ k, download_fails env k = false.

Definition window (rows : list Row) : list TriTemporalEvent :=
  map event_of_row (filter (λ r, overlaps hash eid lo hi t r = true) rows).

Lemma window_batch rows out :
  within cap out → scanWindowRecordBatch hash eid rows lo hi t out cap = capped cap (out ++ window rows).
Proof.
  revert out. induction rows as [|r rows IH]; intros out Hout; cbn [scanWindowRecordBatch].
  - unfold window. cbn. rewrite app_nil_r. unfold capped, within in *. destruct (0 <? cap) eqn:E; [|done].
    apply Z.ltb_lt in E. specialize (Hout E). by rewrite (proj2 (Z.ltb_ge cap _)).
  - unfold window in *. rewrite filter_cons. destruct (overlaps hash eid lo hi t r); [|by apply IH].
    rewrite decide_True by done. cbn [map].
    destruct ((0 <? cap) && (cap <=? Z.of_nat (length out))) eqn:E.
    + rewrite andb_true_iff, Z.ltb_lt, Z.leb_le in E. unfold capped. rewrite length_app. cbn [length].
      rewrite (proj2 (Z.ltb_lt 0 cap)), (proj2 (Z.ltb_lt cap _)) by lia. cbn [andb]. unfold within in Hout.
      rewrite take_app_le, take_ge by lia. done.
    + rewrite IH; [by rewrite <- app_assoc|]. unfold within. rewrite length_app. cbn [length].
      rewrite andb_false_iff, Z.ltb_ge, Z.leb_gt in E. lia.
Qed.

(** The scan of good files, in one expression. *)
Lemma range_scan_window cfg rows_of keys n out :
  Forall (good_file s rows_of) keys → within cap out →
  range_scan env s cfg hash eid lo hi t cap keys n out = Some (capped cap (out ++ (keys ≫= λ k, window (rows_of k)))).
Proof.
  intros Hg. revert n out. induction Hg as [|key keys Hk _ IH]; intros n out Hout; cbn [range_scan].
  - cbn. rewrite app_nil_r. unfold capped, within in *. destruct (0 <? cap) eqn:E; [|done].
    apply Z.ltb_lt in E. specialize (Hout E). by rewrite (proj2 (Z.ltb_ge cap _)).
  - rewrite no_cancel, bind_cons. destruct (first_sys_skip cfg t key) eqn:Esk.
    + rewrite IH by done. do 3 f_equal. unfold window at 2. enough (filter (λ r, overlaps hash eid lo hi t r = true) (rows_of key) = []) as -> by done.
      apply filter_none. unfold first_sys_skip in Esk. apply andb_true_iff in Esk as [_ Esk].
      destruct (parseFirstSysFromKey key) as [m|] eqn:Em; [|done]. apply Z.ltb_lt in Esk.
      destruct Hk as (_ & _ & Hfirst). eapply Forall_impl; [exact (Hfirst m Em)|]. intros r Hr Ho. cbv beta in Hr, Ho.
      unfold overlaps in Ho. rewrite !andb_true_iff, negb_true_iff, Z.ltb_ge in Ho. lia.
    + unfold scanWindowFile. rewrite (open_good env s no_fail rows_of key Hk). cbn [window_records].
      rewrite no_cancel, window_batch by done. pose proof (capped_within cap (out ++ window (rows_of key))) as Hw.
      pose proof (capped_full cap (out ++ window (rows_of key))) as Hf.
      destruct (capped cap (out ++ window (rows_of key))) as [rows [|]] eqn:Ec; cbn [fst snd] in *.
      * rewrite app_assoc. rewrite capped_stop by (by rewrite Ec). by rewrite Ec.
      * rewrite IH by done. by rewrite Hf, <- app_assoc by done.
Qed.

End Window.

(** ** The live rows *)

Section Live.
Context (eid : list Z) (lo hi t cap : Z).

Definition live_overlaps (le : LiveEvent) : Prop :=
  le_SystemTime le <= t ∧ le_ValidTimeStart le < hi ∧ lo < le_ValidTimeEnd le.

Lemma range_live_spec lcs seen out tr res :
  (∀ ev, ev ∈ out → row_key ev ∈ seen) → (∀ key, key ∈ seen → ∃ ev, ev ∈ out ∧ row_key ev = key) → within cap out →
  range_live eid lo hi t cap lcs seen out tr = res →
  within cap res.1 ∧ (∀ ev, ev ∈ out → ev ∈ res.1) ∧
  (∀ ev, ev ∈ res.1 → ev ∈ out ∨ ∃ le, le ∈ lcs ∧ live_overlaps le ∧ ev = live_event eid le) ∧
  (res.2 = false → tr = false ∧ ∀ le, le ∈ lcs → live_overlaps le → ∃ ev, ev ∈ res.1 ∧ row_key ev = row_key (live_event eid le)).
Proof.
  revert seen out tr. induction lcs as [|le lcs IH]; intros seen out tr Hin Hseen Hw E; cbn [range_live] in E.
  { subst res. cbn. split_and!; [done|done|by left|]. intros ->. split; [done|]. intros le Hle. by apply not_elem_of_nil in Hle. }
  assert (∀ seen out, (∀ ev, ev ∈ out → row_key ev ∈ seen) → (∀ key, key ∈ seen → ∃ ev, ev ∈ out ∧ row_key ev = key) → within cap out →
            range_live eid lo hi t cap lcs seen out tr = res →
            ((live_overlaps le → row_key (live_event eid le) ∈ seen)) →
            within cap res.1 ∧ (∀ ev, ev ∈ out → ev ∈ res.1) ∧
            (∀ ev, ev ∈ res.1 → ev ∈ out ∨ ∃ le', le' ∈ le :: lcs ∧ live_overlaps le' ∧ ev = live_event eid le') ∧
            (res.2 = false → tr = false ∧ ∀ le', le' ∈ le :: lcs → live_overlaps le' → ∃ ev, ev ∈ res.1 ∧ row_key ev = row_key (live_event eid le'))) as Hgo.
  { intros seen' out' H1 H2 H3 H4 H5. destruct (IH seen' out' tr H1 H2 H3 H4) as (A & B & C & D). split_and!; [done|done|..].
    - intros ev Hev. destruct (C ev Hev) as [?|(le' & ? & ?)]; [by left|right]. exists le'. split; [by right|done].
    - intros Hf. destruct (D Hf) as [Ht HD]. split; [done|]. intros le' [->|Hle']%elem_of_cons Ho; [|by apply HD].
      destruct (H2 _ (H5 Ho)) as (ev & Hev & Ek). exists ev. split; [by apply B|done]. }
  destruct (t <? le_SystemTime le) eqn:E1.
  { apply (Hgo seen out); try done. intros [Ht _]. apply Z.ltb_lt in E1. lia. }
  destruct ((hi <=? le_ValidTimeStart le) || (le_ValidTimeEnd le <=? lo)) eqn:E2.
  { apply (Hgo seen out); try done. intros (_ & H1 & H2). rewrite orb_true_iff, !Z.leb_le in E2. lia. }
  rewrite orb_false_iff, !Z.leb_gt in E2. apply Z.ltb_ge in E1.
  case_bool_decide as E3; [by apply (Hgo seen out)|].
  destruct ((0 <? cap) && (cap <=? Z.of_nat (length out))) eqn:E4.
  { subst res. cbn. split_and!; [done|done|by left|done]. }
  destruct (Hgo ({[row_key (live_event eid le)]} ∪ seen) (out ++ [live_event eid le])) as (A & B & C & D); [set_solver| | |done|set_solver|].
  - intros key [Hk%elem_of_singleton|Hk]%elem_of_union; [subst key; exists (live_event eid le); set_solver|].
    destruct (Hseen key Hk) as (ev & ? & ?). exists ev. set_solver.
  - unfold within in *. rewrite length_app. cbn [length]. rewrite andb_false_iff, Z.ltb_ge, Z.leb_gt in E4. lia.
  - split_and!; [done|intros; apply B; set_solver| |done]. intros ev Hev.
    destruct (C ev Hev) as [[?|Hn%list_elem_of_singleton]%elem_of_app|?]; [by left|subst ev; right|by right].
    exists le. split; [by left|]. split; [|done]. unfold live_overlaps. lia.
Qed.
End Live.

(** The flag is set only with the cap reached. *)
Definition at_cap {A} (cap : Z) (l : list A) : Prop := 0 < cap ∧ Z.of_nat (length l) = cap.

Lemma at_cap_nonempty {A} cap (l : list A) : at_cap cap l → l ≠ [].
Proof. intros [H E] ->. cbn in E. lia. Qed.

Lemma capped_at_cap {A} cap (l : list A) : (capped cap l).2 = true → at_cap cap (capped cap l).1.
Proof.
  unfold capped, at_cap. destruct ((0 <? cap) && _) eqn:E; [|done]. rewrite andb_true_iff, !Z.ltb_lt in E. intros _. cbn.
  rewrite length_take. lia.
Qed.

Lemma range_live_at_cap eid lo hi t cap lcs seen out tr :
  within cap out → (tr = true → at_cap cap out) → (range_live eid lo hi t cap lcs seen out tr).2 = true →
  at_cap cap (range_live eid lo hi t cap lcs seen out tr).1.
Proof.
  revert seen out. induction lcs as [|le lcs IH]; intros seen out Hw Hout; cbn [range_live]; [done|].
  do 3 (case_match; [by apply IH|]). unfold within, at_cap in *.
  destruct ((0 <? cap) && _) eqn:E.
  - intros _. cbn. rewrite andb_true_iff, Z.ltb_lt, Z.leb_le in E. lia.
  - rewrite andb_false_iff, Z.ltb_ge, Z.leb_gt in E. apply IH; [rewrite length_app; cbn; lia|].
    intros Ht. destruct (Hout Ht). lia.
Qed.

Section History.
Context `{AI : ArrowIPC}.
Context (eid : list Z).

(** The valid times meet the window, and the event was recorded by [t]. *)
Definition in_window (lo hi t : Z) (ev : TriTemporalEvent) : Prop :=
  te_SystemTime ev <= t ∧ te_ValidTimeStart ev < hi ∧ lo < te_ValidTimeEnd ev.

Lemma overlaps_window lo hi t r : mine eid r → overlaps (H16 eid) eid lo hi t r = true ↔ in_window lo hi t (event_of_row r).
Proof.
  intros [Eh Ee]. unfold overlaps, in_window. rewrite !andb_true_iff, !negb_true_iff, !bool_decide_eq_true, orb_false_iff.
  rewrite Z.ltb_ge, !Z.leb_gt. cbn. naive_solver.
Qed.

(** The rows a window must show, with a covering row in place of a pruned one. *)
Definition window_complete (hz : Z) (hist : list Row) (live : LiveRead) (lo hi t : Z) (rows : list TriTemporalEvent) : Prop :=
  (∀ r, r ∈ hist → in_window lo hi t (event_of_row r) → ∃ r', event_of_row r' ∈ rows ∧ covers hz r' r) ∧
  (∀ le, le ∈ live_list live → in_window lo hi t (live_event eid le) →
     ∃ ev, ev ∈ rows ∧ row_key ev = row_key (live_event eid le)).

(** The scan's part: sound and, when nothing was cut off, complete. *)
Lemma scan_window env s hz hist cfg lo hi t l1Keys l0Keys :
  calm env s → tier_ok eid hz hist s → hz <= t →
  (∀ k, k ∈ l1Keys ↔ is_Some (s !! k) ∧ HasPrefix k (l1Prefix (h8 eid)) = true) →
  (∀ k, k ∈ l0Keys ↔ is_Some (s !! k) ∧ HasPrefix k (l0Prefix (h8 eid)) = true) →
  Z.of_nat (length l0Keys) <= MaxL0Files cfg →
  ∃ l, range_scan env s cfg (H16 eid) eid lo hi t (MaxRangeRows cfg)
         (scan_keys cfg (loadSupersededL0Keys env s cfg (l0Prefix (h8 eid)) t) l1Keys l0Keys) 1 [] =
       Some (capped (MaxRangeRows cfg) l) ∧
  (∀ ev, ev ∈ l → ∃ r, r ∈ hist ∧ ev = event_of_row r ∧ in_window lo hi t ev) ∧
  (∀ r, r ∈ hist → in_window lo hi t (event_of_row r) → ∃ r', event_of_row r' ∈ l ∧ covers hz r' r).
Proof.
  intros Hcalm Hok Ht Hl1 Hl0 Hcap. eexists. split.
  { apply (range_scan_window env s _ _ _ _ _ _ (calm_ctx _ _ Hcalm) (calm_get _ _ Hcalm) cfg (rows_at s)); [|intros ?; cbn; lia].
    apply Forall_forall. intros k Hk. by eapply scanned_files. }
  assert (∀ r, r ∈ hist → mine eid r) as Hmine.
  { intros r Hr. pose proof (tk_rows _ _ _ _ Hok) as H. rewrite Forall_forall in H. by apply H. }
  cbn [app]. split.
  - intros ev (k & Hev & Hk)%list_elem_of_bind. apply list_elem_of_fmap in Hev as (r & -> & Hr).
    apply list_elem_of_filter in Hr as [Ho Hr]. assert (r ∈ hist) as Hin by (by eapply scanned_files).
    exists r. split_and!; [done|done|..]; apply overlaps_window in Ho; auto; apply Ho.
  - intros r Hr Hw. destruct (hist_scanned eid env s Hcalm hz hist cfg t l1Keys l0Keys Hok Hl1 Hl0 Hcap r Hr) as (k & r' & Hk & Hr' & Hc).
    exists r'. split; [|done]. apply list_elem_of_bind. exists k. split; [|done]. apply list_elem_of_fmap. exists r'. split; [done|].
    apply list_elem_of_filter. split; [|done]. assert (r' ∈ hist) as Hin by (by eapply scanned_files).
    apply overlaps_window; [auto|]. unfold in_window in *. cbn in *. destruct Hc as [->|(? & [? ?] & ?)]; [done|]. lia.
Qed.

(** The live part on top of it. *)
Lemma live_window hz hist live lo hi t cap l :
  (∀ ev, ev ∈ l → ∃ r, r ∈ hist ∧ ev = event_of_row r ∧ in_window lo hi t ev) →
  (∀ r, r ∈ hist → in_window lo hi t (event_of_row r) → ∃ r', event_of_row r' ∈ l ∧ covers hz r' r) →
  let '(collected, truncated) := capped cap l in
  let '(rows, tr) :=
    match live with
    | LiveEvents (le :: lcs) =>
        range_live eid lo hi t cap (le :: lcs) (list_to_set (map row_key collected)) collected truncated
    | _ => (collected, truncated)
    end in
  within cap rows ∧ (tr = true → at_cap cap rows) ∧ (∀ ev, ev ∈ rows → recorded eid hist live ev ∧ in_window lo hi t ev) ∧
  (tr = false → window_complete hz hist live lo hi t rows).
Proof.
  intros Hs Hc. pose proof (capped_within cap l) as Hw. pose proof (capped_at_cap cap l) as Hne.
  pose proof (capped_sub cap l) as Hsub. pose proof (capped_full cap l) as Hfull.
  destruct (capped cap l) as [out tr0]. cbn [fst snd] in *.
  assert (∀ ev, ev ∈ out → recorded eid hist live ev ∧ in_window lo hi t ev) as Hout.
  { intros ev Hev%Hsub. destruct (Hs ev Hev) as (r & ? & ? & ?). split; [left; by exists r|done]. }
  assert (tr0 = false → ∀ r, r ∈ hist → in_window lo hi t (event_of_row r) → ∃ r', event_of_row r' ∈ out ∧ covers hz r' r) as Hcomp.
  { intros E. by rewrite Hfull. }
  assert (live_list live = [] → within cap out ∧ (tr0 = true → at_cap cap out) ∧ (∀ ev, ev ∈ out → recorded eid hist live ev ∧ in_window lo hi t ev) ∧
          (tr0 = false → window_complete hz hist live lo hi t out)) as Hnil.
  { intros El. split_and!; [done|done|done|]. intros E. split; [by apply Hcomp|]. rewrite El. intros le Hle. by apply not_elem_of_nil in Hle. }
  destruct live as [| |[|le0 lcs0]]; try by apply Hnil. clear Hnil. set (lcs := le0 :: lcs0) in *.
  pose proof (range_live_at_cap eid lo hi t cap lcs (list_to_set (map row_key out)) out tr0 Hw Hne) as Hne'.
  edestruct (range_live_spec eid lo hi t cap lcs (list_to_set (map row_key out)) out tr0) as (A & B & C & D); [..|exact Hw|reflexivity|].
  { intros ev Hev. apply elem_of_list_to_set, list_elem_of_fmap. by exists ev. }
  { intros key Hk%elem_of_list_to_set. apply list_elem_of_fmap in Hk as (ev & -> & ?). by exists ev. }
  destruct (range_live _ _ _ _ _ _ _ _ _) as [rows tr]. cbn [fst snd] in *. split_and!; [done|done|..].
  - intros ev Hev. destruct (C ev Hev) as [Ho|(le & Hle & Ho & ->)]; [by apply Hout|]. split; [right; by exists le|]. exact Ho.
  - intros E. destruct (D E) as [E0 HD]. split.
    + intros r Hr Hrw. destruct (Hcomp E0 r Hr Hrw) as (r' & ? & ?). exists r'. split; [by apply B|done].
    + intros le Hle Ho. by apply HD.
Qed.

(** C29. Range returns the whole window.  In every state of the tier that
    fresh flushes, calm compactions of backed L1 names, reaps and other entities'
    files can produce, under calm query I/O, with at most MaxL0Files level-0 files
    and a transaction time at or after the pruning horizon: the rows are in order
    of their start, at most MaxRangeRows, each recorded and meeting the window by
    the transaction time (a row stored in two files may appear twice); the result
    is marked truncated only when it holds exactly MaxRangeRows rows; unless it is,
    every recorded event of the window is there (a pruned row through the row that
    dominates it, a live one through its system time and digest); and not found
    means that the window is empty. *)
Theorem range_answers_history (st : lsm_state) (env : IOEnv) (live : LiveRead) (lo hi t : Z) (r : Resolver) :
  eid ≠ [] → lo < hi → lsm_reachable eid st → calm env (ls_store st) → ls_hz st <= t →
  (∀ l, list_objects env (ls_store st) (l0Prefix (h8 eid)) = Some l → Z.of_nat (length l) <= MaxL0Files (r_config r)) →
  match Range env (ls_store st) live eid lo hi t r with
  | Ok (rows, truncated) =>
      StronglySorted (λ a b, te_ValidTimeStart a <= te_ValidTimeStart b) rows ∧ within (MaxRangeRows (r_config r)) rows ∧
      (∀ ev, ev ∈ rows → recorded eid (ls_hist st) live ev ∧ in_window lo hi t ev) ∧
      (truncated = true → at_cap (MaxRangeRows (r_config r)) rows) ∧
      (truncated = false → window_complete (ls_hz st) (ls_hist st) live lo hi t rows)
  | Err ErrEntityNotFound => ∀ ev, recorded eid (ls_hist st) live ev → ¬ in_window lo hi t ev
  | Err _ => False
  end.
Proof.
  intros Hne Hlh Hr Hcalm Ht Hcap. destruct (lsm_reachable_inv eid st Hne Hr) as [Hok _].
  unfold Range. rewrite bool_decide_eq_false_2 by done. rewrite (proj2 (Z.leb_gt hi lo)) by done.
  fold (H16 eid). fold (h8 eid). rewrite (calm_ctx _ _ Hcalm).
  destruct (calm_list _ _ Hcalm (l1Prefix (h8 eid))) as (l1Keys & -> & Hl1).
  destruct (calm_list _ _ Hcalm (l0Prefix (h8 eid))) as (l0Keys & E0 & Hl0). rewrite E0. specialize (Hcap _ E0).
  destruct (bool_decide (l1Keys = []) && bool_decide (l0Keys = []) && _) eqn:E.
  { rewrite !andb_true_iff, !bool_decide_eq_true in E. destruct E as [[-> ->] E]. destruct live; try done.
    intros ev [(row & Hrow & ->)|(le & Hle & _)]; [|by apply not_elem_of_nil in Hle].
    destruct (hist_scanned eid env _ Hcalm _ _ (r_config r) t [] [] Hok Hl1 Hl0 Hcap row Hrow) as (k & r' & Hk & _).
    apply elem_scan_keys in Hk; [|done]. destruct Hk as [Hk|[Hk _]]; by apply not_elem_of_nil in Hk. }
  destruct (scan_window env _ _ _ (r_config r) lo hi t l1Keys l0Keys Hcalm Hok Ht Hl1 Hl0 Hcap) as (l & -> & Hs & Hc).
  pose proof (live_window _ _ live lo hi t (MaxRangeRows (r_config r)) l Hs Hc) as H.
  destruct (capped _ l) as [collected truncated]. cbn zeta.
  destruct (match live with LiveEvents (_ :: _) => _ | _ => _ end) as [rows tr].
  destruct H as (Hw & Hne' & Hsound & Hcomp). destruct rows as [|ev0 rows].
  - destruct tr; [by destruct (at_cap_nonempty _ _ (Hne' eq_refl))|]. destruct (Hcomp eq_refl) as [H1 H2].
    intros ev [(row & Hrow & ->)|(le & Hle & ->)] Hin.
    + destruct (H1 row Hrow Hin) as (r' & Hn & _). by apply not_elem_of_nil in Hn.
    + destruct (H2 le Hle Hin) as (ev & Hn & _). by apply not_elem_of_nil in Hn.
  - set (rows' := ev0 :: rows) in *. split_and!.
    + apply (StronglySorted_impl (λ a b, by_ValidTimeStart a b ≠ Gt)).
      * intros a b _ _ Hab. unfold by_ValidTimeStart in Hab. apply Z.compare_le_iff. done.
      * apply (@insertion_sort_sorted _ by_ValidTimeStart (weak_by_key te_ValidTimeStart Z.compare)).
    + unfold within in *. by rewrite (Permutation_length (insertion_sort_perm _ rows')).
    + intros ev Hev. rewrite insertion_sort_perm in Hev. by apply Hsound.
    + intros Etr. unfold at_cap. rewrite (Permutation_length (insertion_sort_perm _ rows')). by apply Hne'.
    + intros Etr. destruct (Hcomp Etr) as [H1 H2]. unfold window_complete. setoid_rewrite insertion_sort_perm. done.
Qed.
End History.

Lemma range_answers_history_witness :
  let s1 := flush1 ∅ in
  match Range std_env s1 NoSource ent 3 8 25 (NewResolver DefaultResolverConfig) with
  | Ok (rows, truncated) =>
      StronglySorted (λ a b, te_ValidTimeStart a <= te_ValidTimeStart b) rows ∧ within 4096 rows ∧
      (∀ ev, ev ∈ rows → recorded ent [row_at 10 0 10] NoSource ev ∧ in_window 3 8 25 ev) ∧
      (truncated = true → at_cap 4096 rows) ∧
      (truncated = false → window_complete ent 0 [row_at 10 0 10] NoSource 3 8 25 rows)
  | Err ErrEntityNotFound => ∀ ev, recorded ent [row_at 10 0 10] NoSource ev → ¬ in_window 3 8 25 ev
  | Err _ => False
  end.
Proof.
  cbn zeta. set (s1 := flush1 ∅).
  apply (range_answers_history ent (mkLsm s1 [row_at 10 0 10] 0 false) std_env NoSource 3 8 25 (NewResolver DefaultResolverConfig)).
  - done.
  - lia.
  - apply rtc_once. apply (lsm_flush ent ∅ [] 0 false 10 [row_at 10 0 10]); [|by repeat constructor|by left|by apply not_elem_of_nil].
    constructor; [by apply row_at_ok|done].
  - apply std_calm.
  - done.
  - intros l [_ Hl]%std_listed. assert (size s1 <= 1000)%nat as Hs by (apply Nat.leb_le; vm_compute; reflexivity).
    cbn [ls_store] in Hl. change (MaxL0Files _) with 1000. lia.
Defined.

(** ** CoalesceRange *)

#[local] Instance by_start_newest_weak : WeakCmp by_start_newest.
Proof.
  split; unfold by_start_newest.
  - intros a b. rewrite (Z.compare_antisym (te_ValidTimeStart a)), (Z.compare_antisym (te_SystemTime b)).
    by destruct (Z.compare_spec (te_ValidTimeStart a) (te_ValidTimeStart b)).
  - intros a b c.
    destruct (Z.compare_spec (te_ValidTimeStart a) (te_ValidTimeStart b)) as [E|E|E]; [| |done];
      (destruct (Z.compare_spec (te_ValidTimeStart b) (te_ValidTimeStart c)) as [E'|E'|E']; [| |done]);
      destruct (Z.compare_spec (te_ValidTimeStart a) (te_ValidTimeStart c)); try lia; try done.
    destruct (Z.compare_spec (te_SystemTime b) (te_SystemTime a)), (Z.compare_spec (te_SystemTime c) (te_SystemTime b)),
      (Z.compare_spec (te_SystemTime c) (te_SystemTime a)); try done; lia.
Qed.

Lemma by_start_newest_le a b :
  by_start_newest a b ≠ Gt →
  te_ValidTimeStart a < te_ValidTimeStart b ∨ te_ValidTimeStart a = te_ValidTimeStart b ∧ te_SystemTime b <= te_SystemTime a.
Proof.
  unfold by_start_newest. destruct (Z.compare_spec (te_ValidTimeStart a) (te_ValidTimeStart b)); [|by left|done].
  intros Hc. right. split; [done|]. apply Z.compare_le_iff. done.
Qed.

Lemma first_of_starts_spec last rows :
  StronglySorted (λ a b, by_start_newest a b ≠ Gt) rows → (∀ x, last = Some x → Forall (λ r, x <= te_ValidTimeStart r) rows) →
  (∀ ev, ev ∈ first_of_starts last rows → ev ∈ rows ∧ (∀ x, last = Some x → x < te_ValidTimeStart ev) ∧
     ∀ ev', ev' ∈ rows → te_ValidTimeStart ev' = te_ValidTimeStart ev → te_SystemTime ev' <= te_SystemTime ev) ∧
  (∀ ev, ev ∈ rows → last ≠ Some (te_ValidTimeStart ev) →
     ∃ ev', ev' ∈ first_of_starts last rows ∧ te_ValidTimeStart ev' = te_ValidTimeStart ev) ∧
  StronglySorted (λ a b, te_ValidTimeStart a < te_ValidTimeStart b) (first_of_starts last rows).
Proof.
  intros Hs. revert last. induction Hs as [|r rows Hs IH Hr]; intros last Hl; cbn [first_of_starts].
  { split_and!; [|..|constructor]; intros ev Hev; by apply not_elem_of_nil in Hev. }
  assert (Forall (λ r', te_ValidTimeStart r <= te_ValidTimeStart r') rows) as Hge.
  { eapply Forall_impl; [exact Hr|]. intros r' [?|[? _]]%by_start_newest_le; lia. }
  rewrite Forall_forall in Hr. case_bool_decide as E.
  - destruct (IH last) as (A & B & C). { intros x Hx. specialize (Hl x Hx). by apply Forall_cons in Hl as [_ ?]. }
    split_and!; [| |done].
    + intros ev Hev. destruct (A ev Hev) as (H1 & H2 & H3). split; [by right|]. split; [done|].
      intros ev' [->|Hev']%elem_of_cons Eq; [|by apply H3]. specialize (H2 _ E). lia.
    + intros ev [->|Hev]%elem_of_cons Hne; [done|by apply B].
  - destruct (IH (Some (te_ValidTimeStart r))) as (A & B & C); [by intros x [= <-]|]. split_and!.
    + intros ev [->|Hev]%elem_of_cons.
      * split; [by left|]. split.
        { intros x Hx. specialize (Hl x Hx). apply Forall_cons in Hl as [Hle _]. assert (x ≠ te_ValidTimeStart r) by congruence. lia. }
        intros ev' [->|Hev']%elem_of_cons Eq; [done|]. destruct (by_start_newest_le _ _ (Hr ev' Hev')) as [?|[_ ?]]; lia.
      * destruct (A ev Hev) as (H1 & H2 & H3). specialize (H2 _ eq_refl). split; [by right|]. split.
        { intros x Hx. specialize (Hl x Hx). apply Forall_cons in Hl as [Hle _]. lia. }
        intros ev' [->|Hev']%elem_of_cons Eq; [lia|by apply H3].
    + intros ev [->|Hev]%elem_of_cons Hne; [exists r; split; [by left|done]|].
      destruct (decide (te_ValidTimeStart ev = te_ValidTimeStart r)) as [Eq|Nq]; [exists r; split; [by left|done]|].
      destruct (B ev Hev) as (ev' & ? & ?); [congruence|]. exists ev'. split; [by right|done].
    + constructor; [done|]. apply Forall_forall. intros ev Hev. by apply (A ev Hev).
Qed.

(** CoalesceRange keeps, for every start, one row with the greatest system time,
    in order of the starts. *)
Theorem coalesce_newest_per_start (rows : list TriTemporalEvent) :
  (∀ ev, ev ∈ CoalesceRange rows → ev ∈ rows ∧
     ∀ ev', ev' ∈ rows → te_ValidTimeStart ev' = te_ValidTimeStart ev → te_SystemTime ev' <= te_SystemTime ev) ∧
  (∀ ev, ev ∈ rows → ∃ ev', ev' ∈ CoalesceRange rows ∧ te_ValidTimeStart ev' = te_ValidTimeStart ev) ∧
  StronglySorted (λ a b, te_ValidTimeStart a < te_ValidTimeStart b) (CoalesceRange rows).
Proof.
  unfold CoalesceRange. destruct (length rows <=? 1)%nat eqn:E.
  - destruct rows as [|r [|? ?]]; [..|done].
    + split_and!; [..|constructor]; intros ev Hev; by apply not_elem_of_nil in Hev.
    + split_and!; [|intros ev Hev; by exists ev|by repeat constructor].
      intros ev Hev. split; [done|]. intros ev' Hev'. apply list_elem_of_singleton in Hev as ->, Hev' as ->. done.
  - destruct (first_of_starts_spec None (insertion_sort by_start_newest rows)) as (A & B & C);
      [apply insertion_sort_sorted, _|done|].
    assert (∀ ev, ev ∈ insertion_sort by_start_newest rows ↔ ev ∈ rows) as Hp by (intros; by rewrite insertion_sort_perm).
    split_and!; [|intros ev Hev; by apply B; [apply Hp|]|done]. intros ev Hev. destruct (A ev Hev) as (H1 & _ & H2).
    split; [by apply Hp|]. intros ev' Hev'. by apply H2, Hp.
Qed.

(** It compares rows of one start only: a row stays although another covers its
    valid time and is newer. *)
Theorem coalesce_keeps_dominated :
  let older := event_of_row (row_at 1 2 8) in
  let newer := event_of_row (row_at 5 0 10) in
  CoalesceRange [newer; older] = [newer; older].
Proof. vm_compute. reflexivity. Qed.

(** A row that was merged under two names is returned twice: the L1 files of two
    compactions with different first rows both stay. *)
Theorem range_repeats_rows :
  let s1 := compact_with std_env plain (put_l0 [row_at 20 0 10] 20 ∅) in
  let s2 := compact_with std_env plain (put_l0 [row_at 10 50 60] 10 s1) in
  Range std_env s1 NoSource ent 3 8 40 (NewResolver DefaultResolverConfig) = Ok ([event_of_row (row_at 20 0 10)], false) ∧
  Range std_env s2 NoSource ent 3 8 40 (NewResolver DefaultResolverConfig) =
    Ok ([event_of_row (row_at 20 0 10); event_of_row (row_at 20 0 10)], false).
Proof. vm_compute. split; reflexivity. Qed.
