(* ===== verification/SkipList.v ===== *)
(** The memtable's skip list (internal/database/skiplist_arena.go): nodes and
    data in one arena, found by 32-bit offsets.

    A node is the record of the words in its 64 bytes; keys and values are bytes
    of the arena.  Nodes grow up from offset 64, data grows down from the end;
    the invariant [sl_inv] keeps the two areas apart.  The calls run one
    at a time, except in the last section. *)
From S2P Require Import Prelude Bytes Sorting LsmPrune.

Definition maxHeight : nat := 11.
Definition nodeSize : Z := 64.
Definition keySize : Z := 40.

(** The offset that ends a list. *)
Definition NIL : Z := 0xFFFFFFFF.

Record snode := mkNode {
  n_height : Z;
  n_keyOff : Z;
  n_valOff : Z;
  n_keyLen : Z;
  n_valLen : Z;
  n_next : list Z;
}.

Record SkipListArena := mkSL {
  sl_arena : list Z;
  sl_nodes : gmap Z snode;
  nodeCount : Z;
  nodeTop : Z;
  dataBottom : Z;
  sl_height : Z;
  sl_size : Z;
}.

Definition arena_len (sl : SkipListArena) : Z := Z.of_nat (length (sl_arena sl)).

Definition NewSkipListArena (arenaSize : Z) : SkipListArena :=
  mkSL (replicate (Z.to_nat arenaSize) 0) {[0 := mkNode (Z.of_nat maxHeight) 0 0 0 0 (replicate maxHeight NIL)]}
       0 nodeSize arenaSize 1 0.

(** The coin is thrown until it fails or the tower is full. *)
Fixpoint randomHeight (coins : list bool) (h : nat) : nat :=
  match coins with
  | true :: coins' => if (h <? maxHeight)%nat then randomHeight coins' (S h) else h
  | _ => h
  end.

Definition nodeNext (offset : Z) (level : nat) (sl : SkipListArena) : Z :=
  match sl_nodes sl !! offset with
  | Some n => default 0 (n_next n !! level)
  | None => 0
  end.

Definition set_nodes (m : gmap Z snode) (sl : SkipListArena) : SkipListArena :=
  mkSL (sl_arena sl) m (nodeCount sl) (nodeTop sl) (dataBottom sl) (sl_height sl) (sl_size sl).

Definition set_next (level : nat) (next : Z) (n : snode) : snode :=
  mkNode (n_height n) (n_keyOff n) (n_valOff n) (n_keyLen n) (n_valLen n) (<[level := next]> (n_next n)).

Definition setNodeNext (offset : Z) (level : nat) (next : Z) (sl : SkipListArena) : SkipListArena :=
  set_nodes (alter (set_next level next) offset (sl_nodes sl)) sl.

Definition casNodeNext (offset : Z) (level : nat) (expected next : Z) (sl : SkipListArena) : bool * SkipListArena :=
  if nodeNext offset level sl =? expected then (true, setNodeNext offset level next sl) else (false, sl).

(** [arena[off : off+len]], nil when it leaves the arena. *)
Definition arena_slice (off len : Z) (sl : SkipListArena) : list Z :=
  if (arena_len sl <=? off) || (arena_len sl <? u32 (off + len)) then []
  else slice (Z.to_nat off) (Z.to_nat len) (sl_arena sl).

Definition nodeKey (offset : Z) (sl : SkipListArena) : list Z :=
  if (offset =? 0) || (offset =? NIL) then []
  else match sl_nodes sl !! offset with
       | Some n => arena_slice (n_keyOff n) (n_keyLen n) sl
       | None => []
       end.

(** ** Allocation *)

Definition bump_top (sl : SkipListArena) : SkipListArena :=
  mkSL (sl_arena sl) (sl_nodes sl) (nodeCount sl) (nodeTop sl + nodeSize) (dataBottom sl) (sl_height sl) (sl_size sl).

(** The node's offset and its data's, or ErrArenaFull; the node's 64 bytes stay
    taken when there is no room for the data. *)
Definition allocNode (height keyLen valLen : Z) (sl : SkipListArena) : option (Z * Z) * SkipListArena :=
  let nodeOff := nodeTop sl in
  if arena_len sl <? u32 (nodeOff + nodeSize) then (None, sl)
  else
    let sl := bump_top sl in
    let dataLen := u32 (keyLen + valLen) in
    if dataBottom sl <? dataLen then (None, sl)
    else
      let dataOff := dataBottom sl - dataLen in
      if dataOff <? nodeOff + nodeSize then (None, sl)
      else
        (Some (nodeOff, dataOff),
         mkSL (sl_arena sl)
              (<[nodeOff := mkNode height dataOff (dataOff + keyLen) keyLen valLen (replicate maxHeight NIL)]> (sl_nodes sl))
              (u32 (nodeCount sl + 1)) (nodeTop sl) dataOff (sl_height sl) (sl_size sl + dataLen)).

(** ** Put *)

(** The walk along one level to the last node below the key.  A list has at most
    nodeCount nodes, so nodeCount + 1 turns are enough. *)
Fixpoint walk (fuel : nat) (level : nat) (key : list Z) (x : Z) (sl : SkipListArena) : Z :=
  match fuel with
  | O => x
  | S k =>
      let nxt := nodeNext x level sl in
      if nxt =? NIL then x
      else match bytes_compare (nodeKey nxt sl) key with
           | Lt => walk k level key nxt sl
           | _ => x
           end
  end.

Definition walk_fuel (sl : SkipListArena) : nat := S (Z.to_nat (nodeCount sl)).

(** prev[i] and next[i] for the levels below [levels], the lowest first. *)
Fixpoint find_levels (levels : nat) (key : list Z) (x : Z) (sl : SkipListArena) : list (Z * Z) :=
  match levels with
  | O => []
  | S i => let x := walk (walk_fuel sl) i key x sl in find_levels i key x sl ++ [(x, nodeNext x i sl)]
  end.

(** The levels above the list's height start at the head. *)
Definition upper_levels (listHeight height : nat) (sl : SkipListArena) : list (Z * Z) :=
  map (λ i, (0, nodeNext 0 i sl)) (seq listHeight (height - listHeight)).

(** Linking the node into one level: the search is repeated from prev when the
    compare-and-swap fails, which takes another call that changed the word; a
    call that runs alone needs one turn. *)
Fixpoint link_level (fuel : nat) (node : Z) (level : nat) (key : list Z) (prev next : Z) (sl : SkipListArena) : SkipListArena :=
  match fuel with
  | O => sl
  | S k =>
      match casNodeNext prev level next node (setNodeNext node level next sl) with
      | (true, sl) => sl
      | (false, sl) => let x := walk (walk_fuel sl) level key prev sl in link_level k node level key x (nodeNext x level sl) sl
      end
  end.

Fixpoint link_levels (level : nat) (node : Z) (key : list Z) (found : list (Z * Z)) (sl : SkipListArena) : SkipListArena :=
  match found with
  | [] => sl
  | (prev, next) :: found' => link_levels (S level) node key found' (link_level 1 node level key prev next sl)
  end.

Definition write_data (off : Z) (bs : list Z) (sl : SkipListArena) : SkipListArena :=
  mkSL (list_inserts (Z.to_nat off) bs (sl_arena sl)) (sl_nodes sl) (nodeCount sl) (nodeTop sl) (dataBottom sl) (sl_height sl)
       (sl_size sl).

Definition raise_height (height : nat) (sl : SkipListArena) : SkipListArena :=
  if Z.of_nat height <=? sl_height sl then sl
  else mkSL (sl_arena sl) (sl_nodes sl) (nodeCount sl) (nodeTop sl) (dataBottom sl) (Z.of_nat height) (sl_size sl).

(** Put: [val] are the bytes the callback writes; false is ErrArenaFull. *)
Definition Put (height : nat) (key val : list Z) (sl : SkipListArena) : bool * SkipListArena :=
  match allocNode (Z.of_nat height) (u32 (Z.of_nat (length key))) (u32 (Z.of_nat (length val))) sl with
  | (None, sl) => (false, sl)
  | (Some (newNodeOff, dataOff), sl) =>
      let sl := write_data dataOff (key ++ val) sl in
      let sl := raise_height height sl in
      let listHeight := Z.to_nat (sl_height sl) in
      let found := find_levels listHeight key 0 sl ++ upper_levels listHeight height sl in
      (true, link_levels 0 newNodeOff key (take height found) sl)
  end.

(** ** Seek and iteration *)

Definition nodeValue (offset : Z) (sl : SkipListArena) : list Z :=
  if (offset =? 0) || (offset =? NIL) then []
  else match sl_nodes sl !! offset with
       | Some n => arena_slice (n_valOff n) (n_valLen n) sl
       | None => []
       end.

Fixpoint seekLowerBoundLinear (fuel : nat) (target : list Z) (cur : Z) (sl : SkipListArena) : Z :=
  match fuel with
  | O => NIL
  | S k =>
      if cur =? NIL then NIL
      else match bytes_compare (nodeKey cur sl) target with
           | Lt => seekLowerBoundLinear k target (nodeNext cur 0 sl) sl
           | _ => cur
           end
  end.

Fixpoint seek_levels (levels : nat) (target : list Z) (x : Z) (sl : SkipListArena) : Z :=
  match levels with
  | O => x
  | S i => seek_levels i target (walk (walk_fuel sl) i target x sl) sl
  end.

Definition Seek (target : list Z) (sl : SkipListArena) : Z :=
  let x := seek_levels (Z.to_nat (sl_height sl)) target 0 sl in
  let cur := nodeNext x 0 sl in
  if negb (cur =? NIL) && match bytes_compare (nodeKey cur sl) target with Lt => true | _ => false end
  then seekLowerBoundLinear (walk_fuel sl) target (nodeNext 0 0 sl) sl else cur.

(** The loop [for it.Valid() { ...; it.Next() }] from a node. *)
Fixpoint iterate (fuel : nat) (cur : Z) (sl : SkipListArena) : list (list Z * list Z) :=
  match fuel with
  | O => []
  | S k => if cur =? NIL then [] else (nodeKey cur sl, nodeValue cur sl) :: iterate k (nodeNext cur 0 sl) sl
  end.

(** NewIterator and its loop: every entry of the list. *)
Definition entries (sl : SkipListArena) : list (list Z * list Z) := iterate (walk_fuel sl) (nodeNext 0 0 sl) sl.

(** ** The two reservations of allocNode

    allocNode takes the node's bytes with one compare-and-swap and the data's
    with a second; another call's reservations may fall between them. *)

Definition reserve_node (sl : SkipListArena) : option (Z * SkipListArena) :=
  if arena_len sl <? u32 (nodeTop sl + nodeSize) then None else Some (nodeTop sl, bump_top sl).

Definition reserve_data (nodeOff dataLen : Z) (sl : SkipListArena) : option (Z * SkipListArena) :=
  if dataBottom sl <? dataLen then None
  else
    let dataOff := dataBottom sl - dataLen in
    if dataOff <? nodeOff + nodeSize then None
    else Some (dataOff, mkSL (sl_arena sl) (sl_nodes sl) (nodeCount sl) (nodeTop sl) dataOff (sl_height sl) (sl_size sl)).

(** * The skip list refines a sorted list: Put is sorted insertion, iteration reads
    the list and Seek finds its lower bound. *)

(** ** Words of nodes *)

Lemma nodeNext_set sl o l v o' l' n :
  sl_nodes sl !! o = Some n → (l < length (n_next n))%nat →
  nodeNext o' l' (setNodeNext o l v sl) = if bool_decide (o' = o ∧ l' = l) then v else nodeNext o' l' sl.
Proof.
  intros Hn Hl. unfold nodeNext, setNodeNext. cbn [sl_nodes set_nodes]. destruct (decide (o' = o)) as [->|Ho].
  - rewrite lookup_alter_eq, Hn. cbn [fmap option_fmap option_map set_next n_next].
    destruct (decide (l' = l)) as [->|Hl'].
    + rewrite bool_decide_eq_true_2 by done. by rewrite list_lookup_insert_eq.
    + rewrite bool_decide_eq_false_2 by naive_solver. by rewrite list_lookup_insert_ne by done.
  - rewrite bool_decide_eq_false_2 by naive_solver. by rewrite lookup_alter_ne by done.
Qed.

Lemma nodeKey_set sl o l v o' : nodeKey o' (setNodeNext o l v sl) = nodeKey o' sl.
Proof.
  unfold nodeKey, setNodeNext. cbn [sl_nodes set_nodes]. destruct ((o' =? 0) || (o' =? NIL)); [done|].
  destruct (decide (o' = o)) as [->|Ho]; [|by rewrite lookup_alter_ne by done].
  rewrite lookup_alter_eq. by destruct (sl_nodes sl !! o).
Qed.

Lemma nodeValue_set sl o l v o' : nodeValue o' (setNodeNext o l v sl) = nodeValue o' sl.
Proof.
  unfold nodeValue, setNodeNext. cbn [sl_nodes set_nodes]. destruct ((o' =? 0) || (o' =? NIL)); [done|].
  destruct (decide (o' = o)) as [->|Ho]; [|by rewrite lookup_alter_ne by done].
  rewrite lookup_alter_eq. by destruct (sl_nodes sl !! o).
Qed.

(** ** Chains *)

(** The nodes that follow [x] on a level. *)
Fixpoint chain (sl : SkipListArena) (i : nat) (x : Z) (l : list Z) : Prop :=
  match l with
  | [] => nodeNext x i sl = NIL
  | y :: l' => nodeNext x i sl = y ∧ y ≠ NIL ∧ chain sl i y l'
  end.

Lemma chain_ext sl sl' i x l :
  (∀ y, y ∈ x :: l → nodeNext y i sl' = nodeNext y i sl) → chain sl i x l → chain sl' i x l.
Proof.
  revert x. induction l as [|y l IH]; intros x He; cbn [chain]; [by rewrite He by left|].
  intros (E & Hn & Hc). split_and!; [rewrite He by left; done|done|]. apply IH; [|done]. intros z Hz. apply He. by right.
Qed.

(** The last node of a list, or where it starts from. *)
Definition last_from (x : Z) (a : list Z) : Z := default x (last a).

Lemma last_from_cons x y a : last_from x (y :: a) = last_from y a.
Proof. unfold last_from. rewrite last_cons. by destruct (last a). Qed.

Lemma chain_suffix sl i x a b : chain sl i x (a ++ b) → chain sl i (last_from x a) b.
Proof.
  revert x. induction a as [|y a IH]; intros x; [done|]. rewrite last_from_cons. cbn. intros (_ & _ & H). by apply IH.
Qed.

Lemma chain_next sl i x b : chain sl i x b → nodeNext x i sl = default NIL (head b).
Proof. destruct b; [done|]. by intros [? _]. Qed.

Lemma last_from_elem x a : last_from x a ∈ x :: a.
Proof. unfold last_from. destruct (last a) as [y|] eqn:El; [|by left]. right. by apply last_Some_elem_of in El. Qed.

Lemma chain_splice sl sl' i x a b n :
  chain sl i x (a ++ b) → NoDup (x :: a) →
  (∀ y, y ∈ x :: a → y ≠ last_from x a → nodeNext y i sl' = nodeNext y i sl) →
  nodeNext (last_from x a) i sl' = n → n ≠ NIL → chain sl' i n b → chain sl' i x (a ++ n :: b).
Proof.
  revert x. induction a as [|y a IH]; intros x Hc Hd He Hn Hnil Hb; [done|].
  rewrite last_from_cons in *. cbn [app chain] in *. destruct Hc as (E & Hy & Hc). apply NoDup_cons in Hd as [Hx Hd].
  split_and!; [|done|].
  - rewrite He; [done|by left|]. intros ->. apply Hx, last_from_elem.
  - apply IH; [done|done| |done|done|done]. intros z Hz. apply He. by right.
Qed.

(** Putting a node between two parts of a chain: its word points to the second
    part, and the last word of the first part points to it. *)
Lemma chain_insert sl i x a b n nd nx :
  chain sl i x (a ++ b) → NoDup (x :: a ++ b) → n ∉ x :: a ++ b → n ≠ NIL →
  sl_nodes sl !! n = Some nd → (i < length (n_next nd))%nat →
  sl_nodes sl !! last_from x a = Some nx → (i < length (n_next nx))%nat →
  chain (setNodeNext (last_from x a) i n (setNodeNext n i (nodeNext (last_from x a) i sl) sl)) i x (a ++ n :: b).
Proof.
  intros Hc Hd Hn Hnil End Hl1 Enx Hl2. pose proof (last_from_elem x a) as Hp.
  set (p := last_from x a) in *. set (v := nodeNext p i sl).
  assert (n ≠ p) as Hnp by (intros ->; apply Hn; set_solver).
  assert (sl_nodes (setNodeNext n i v sl) !! p = Some nx) as Enx'.
  { unfold setNodeNext. cbn [sl_nodes set_nodes]. by rewrite lookup_alter_ne. }
  set (sl' := setNodeNext p i n _).
  assert (∀ y, nodeNext y i sl' = if bool_decide (y = p) then n else if bool_decide (y = n) then v else nodeNext y i sl) as Hnext.
  { intros y. unfold sl'. rewrite (nodeNext_set _ p i n y i nx) by done. rewrite (nodeNext_set sl n i v y i nd) by done.
    repeat case_bool_decide; naive_solver. }
  clearbody sl'. apply NoDup_cons in Hd as [Hx Hd]. apply NoDup_app in Hd as (Ha & Hab & Hb).
  assert (p ∉ b) as Hpb.
  { apply elem_of_cons in Hp as [->|Hp]; [set_solver|by apply Hab]. }
  apply (chain_splice sl); [done|constructor; [set_solver|done]| | |done|].
  - intros y Hy Hne. rewrite Hnext, !bool_decide_eq_false_2; [done|set_solver|done].
  - fold p. by rewrite Hnext, bool_decide_eq_true_2.
  - apply chain_suffix in Hc. fold p in Hc.
    assert (nodeNext n i sl' = v) as Hnn by (by rewrite Hnext, bool_decide_eq_false_2, bool_decide_eq_true_2).
    destruct b as [|y b]; cbn [chain] in *; [by rewrite Hnn|]. destruct Hc as (E & Hy & Hc). split_and!; [by rewrite Hnn|done|].
    apply (chain_ext sl); [|done]. intros z Hz. rewrite Hnext, !bool_decide_eq_false_2; [done|set_solver|set_solver].
Qed.

(** ** The search *)

(** The walk stops in front of the first node that is not below the key. *)
Lemma walk_chain sl i key x a b fuel :
  chain sl i x (a ++ b) → Forall (λ y, bytes_compare (nodeKey y sl) key = Lt) a →
  (∀ y, head b = Some y → bytes_compare (nodeKey y sl) key ≠ Lt) → (length a < fuel)%nat →
  walk fuel i key x sl = last_from x a.
Proof.
  revert x fuel. induction a as [|y a IH]; intros x fuel Hc Ha Hb Hf; (destruct fuel as [|k]; [lia|]); cbn [walk].
  - rewrite (chain_next _ _ _ _ Hc). destruct b as [|z b]; [by rewrite Z.eqb_refl|]. change (default NIL (head ([] ++ z :: b))) with z.
    destruct Hc as (_ & Hz & _). rewrite (proj2 (Z.eqb_neq z NIL)) by done. specialize (Hb z eq_refl).
    by destruct (bytes_compare (nodeKey z sl) key).
  - rewrite last_from_cons. destruct Hc as (-> & Hy & Hc). rewrite (proj2 (Z.eqb_neq y NIL)) by done.
    apply Forall_cons in Ha as [-> Ha]. apply IH; [done|done|done|]. cbn in Hf. lia.
Qed.

(** ** The invariant *)

Lemma filter_sublist {A} (P : A → Prop) `{∀ x, Decision (P x)} (l k : list A) :
  l `sublist_of` k → filter P l `sublist_of` filter P k.
Proof.
  induction 1 as [|x l k _ IH|x l k _ IH]; [done|..]; rewrite !filter_cons; case_decide; try done; by constructor.
Qed.

Definition below (key : list Z) (sl : SkipListArena) (y : Z) : Prop := bytes_compare (nodeKey y sl) key = Lt.

#[local] Instance below_dec key sl y : Decision (below key sl y).
Proof. unfold below. apply _. Defined.

Definition pre (key : list Z) (sl : SkipListArena) (l : list Z) : list Z := filter (below key sl) l.
Definition post (key : list Z) (sl : SkipListArena) (l : list Z) : list Z := filter (λ y, ¬ below key sl y) l.

(** The nodes of every level, where each node's words and data lie, and that the
    node and data areas do not meet. *)
Record sl_inv (sl : SkipListArena) (L : nat → list Z) : Prop := {
  si_chain : ∀ i, (i < maxHeight)%nat → chain sl i 0 (L i);
  si_sub : ∀ i, L (S i) `sublist_of` L i;
  si_top : ∀ i, (Z.to_nat (sl_height sl) <= i)%nat → L i = [];
  si_sorted : StronglySorted (λ a b, cmp_le bytes_compare (nodeKey a sl) (nodeKey b sl)) (L O);
  si_nodup : NoDup (0 :: L O);
  si_nil : NIL ∉ L O;
  si_count : Z.of_nat (length (L O)) <= nodeCount sl;
  si_height : 1 <= sl_height sl <= Z.of_nat maxHeight;
  si_node : ∀ o, o ∈ 0 :: L O → ∃ n, sl_nodes sl !! o = Some n ∧ length (n_next n) = maxHeight;
  si_room : ∀ o n, o ∈ L O → sl_nodes sl !! o = Some n →
    o + nodeSize <= nodeTop sl ∧ o + nodeSize <= dataBottom sl ∧ dataBottom sl <= n_keyOff n ∧
    n_valOff n = n_keyOff n + n_keyLen n ∧ 0 <= n_keyLen n ∧ 0 <= n_valLen n ∧ n_valOff n + n_valLen n <= arena_len sl;
  si_bounds : nodeSize <= nodeTop sl <= arena_len sl ∧ 0 <= dataBottom sl <= arena_len sl ∧ arena_len sl + nodeSize < 2 ^ 32;
}.

Section Search.
Context (sl : SkipListArena) (L : nat → list Z) (key : list Z).
Hypothesis Hinv : sl_inv sl L.

Lemma level_sub i : L i `sublist_of` L O.
Proof. induction i as [|i IH]; [done|]. etrans; [apply (si_sub _ _ Hinv)|done]. Qed.

Lemma level_nodup i : NoDup (0 :: L i).
Proof. eapply sublist_NoDup; [apply (si_nodup _ _ Hinv)|]. apply sublist_skip, level_sub. Qed.

Lemma sorted_split l : l `sublist_of` L O → l = pre key sl l ++ post key sl l.
Proof.
  intros Hl. assert (StronglySorted (λ a b, cmp_le bytes_compare (nodeKey a sl) (nodeKey b sl)) l) as Hs.
  { pose proof (si_sorted _ _ Hinv) as H. clear -Hl H. induction Hl as [|x l k Hlk IH|x l k Hlk IH]; [constructor|..].
    - apply StronglySorted_inv in H as [H Hx]. constructor; [by apply IH|]. rewrite Forall_forall in *. intros y Hy.
      apply Hx. by eapply elem_of_sublist.
    - apply StronglySorted_inv in H as [H _]. by apply IH. }
  clear Hl. unfold pre, post. induction Hs as [|x l Hs IH Hx]; [done|]. rewrite !filter_cons.
  destruct (decide (below key sl x)) as [Hb|Hb].
  - rewrite (decide_False (P := ¬ below key sl x)) by tauto. cbn. by f_equal.
  - rewrite (decide_True (P := ¬ below key sl x)) by done.
    enough (filter (below key sl) l = []) as E by (rewrite E in *; cbn in *; by f_equal).
    clear IH Hs. induction Hx as [|y l Hy _ IH]; [done|]. rewrite filter_cons, decide_False; [done|].
    unfold below in *. intros Hlt. apply Hb. destruct (cmp_le_lt_eq bytes_compare _ _ Hy) as [Hxy| ->]; [|done].
    by eapply (cmp_lt_transitive bytes_compare).
Qed.

Lemma post_head l y : head (post key sl l) = Some y → bytes_compare (nodeKey y sl) key ≠ Lt.
Proof.
  intros H. assert (y ∈ post key sl l) as Hy by (destruct (post key sl l); [done|]; injection H as ->; by left).
  apply list_elem_of_filter in Hy as [Hy _]. exact Hy.
Qed.

Definition found_at (i : nat) : Z * Z := (last_from 0 (pre key sl (L i)), default NIL (head (post key sl (L i)))).

Lemma walk_level i : (i < maxHeight)%nat →
  walk (walk_fuel sl) i key (last_from 0 (pre key sl (L (S i)))) sl = (found_at i).1.
Proof.
  intros Hi. pose proof (si_chain _ _ Hinv i Hi) as Hc. rewrite (sorted_split (L i)) in Hc by apply level_sub.
  assert (pre key sl (L (S i)) `sublist_of` pre key sl (L i)) as Hsub by (apply filter_sublist, (si_sub _ _ Hinv)).
  assert (∃ a1 a2, pre key sl (L i) = a1 ++ a2 ∧ last_from 0 a1 = last_from 0 (pre key sl (L (S i)))) as (a1 & a2 & Ea & El).
  { unfold last_from at 2. destruct (last (pre key sl (L (S i)))) as [x|] eqn:E; [|by exists [], (pre key sl (L i))].
    apply last_Some_elem_of in E. apply (elem_of_sublist _ _ _ E) in Hsub. apply list_elem_of_split in Hsub as (l1 & l2 & ->).
    exists (l1 ++ [x]), l2. split; [by rewrite <- app_assoc|]. unfold last_from. by rewrite last_snoc. }
  unfold found_at. cbn [fst]. rewrite <- El. rewrite Ea, <- app_assoc in Hc. apply chain_suffix in Hc.
  rewrite (walk_chain sl i key _ a2 (post key sl (L i))); [|done|..|apply post_head|].
  - rewrite Ea. unfold last_from. rewrite last_app. by destruct (last a2).
  - assert (Forall (below key sl) (pre key sl (L i))) as Hf by (apply Forall_forall; intros y [Hy _]%list_elem_of_filter; done).
    rewrite Ea in Hf. by apply Forall_app in Hf as [_ ?].
  - unfold walk_fuel. pose proof (si_count _ _ Hinv). pose proof (sublist_length _ _ (level_sub i)) as H1.
    pose proof (length_filter (below key sl) (L i)) as H2. fold (pre key sl (L i)) in H2. rewrite Ea, length_app in H2. lia.
Qed.

Lemma next_level i : (i < maxHeight)%nat → nodeNext (found_at i).1 i sl = (found_at i).2.
Proof.
  intros Hi. pose proof (si_chain _ _ Hinv i Hi) as Hc. rewrite (sorted_split (L i)) in Hc by apply level_sub.
  apply chain_suffix in Hc. by apply chain_next in Hc.
Qed.

Lemma find_levels_spec n : (n <= maxHeight)%nat →
  find_levels n key (last_from 0 (pre key sl (L n))) sl = map found_at (seq 0 n).
Proof.
  induction n as [|n IH]; intros Hn; [done|]. cbn [find_levels]. rewrite walk_level, next_level by lia.
  change (find_levels n key (found_at n).1 sl) with (find_levels n key (last_from 0 (pre key sl (L n))) sl).
  rewrite IH, seq_S, map_app by lia. done.
Qed.

(** The search of Put and of Seek starts at the head of the highest level. *)
Lemma find_from_top : find_levels (Z.to_nat (sl_height sl)) key 0 sl = map found_at (seq 0 (Z.to_nat (sl_height sl))).
Proof.
  rewrite <- find_levels_spec by (pose proof (si_height _ _ Hinv); lia).
  by rewrite (si_top _ _ Hinv (Z.to_nat (sl_height sl))) by lia.
Qed.
End Search.

(** ** Linking *)

(** Two lists with the same data: only words of towers differ. *)
Record same_data (sl sl' : SkipListArena) : Prop := {
  sd_key : ∀ o, nodeKey o sl' = nodeKey o sl;
  sd_val : ∀ o, nodeValue o sl' = nodeValue o sl;
  sd_node : ∀ o n', sl_nodes sl' !! o = Some n' → ∃ n, sl_nodes sl !! o = Some n ∧ length (n_next n') = length (n_next n) ∧
    n_keyOff n' = n_keyOff n ∧ n_valOff n' = n_valOff n ∧ n_keyLen n' = n_keyLen n ∧ n_valLen n' = n_valLen n;
  sd_dom : ∀ o n, sl_nodes sl !! o = Some n → is_Some (sl_nodes sl' !! o);
  sd_arena : sl_arena sl' = sl_arena sl;
  sd_count : nodeCount sl' = nodeCount sl;
  sd_top : nodeTop sl' = nodeTop sl;
  sd_bottom : dataBottom sl' = dataBottom sl;
  sd_height : sl_height sl' = sl_height sl;
}.

Lemma same_data_refl sl : same_data sl sl.
Proof. split; try done. intros o n E. by exists n. Qed.

Lemma same_data_trans a b c : same_data a b → same_data b c → same_data a c.
Proof.
  intros [K1 V1 N1 D1 A1 C1 T1 B1 H1] [K2 V2 N2 D2 A2 C2 T2 B2 H2]. split; try congruence.
  - intros o n' E. destruct (N2 o n' E) as (n & E' & ? & ? & ? & ? & ?). destruct (N1 o n E') as (m & ? & ? & ? & ? & ? & ?).
    exists m. split_and!; congruence.
  - intros o n E. destruct (D1 o n E) as [n' E']. by eapply D2.
Qed.

Lemma same_data_set sl o l v : same_data sl (setNodeNext o l v sl).
Proof.
  split; try done; intros.
  - apply nodeKey_set.
  - apply nodeValue_set.
  - revert H. unfold setNodeNext. cbn [sl_nodes set_nodes]. destruct (decide (o0 = o)) as [->|Hne].
    + rewrite lookup_alter_eq. destruct (sl_nodes sl !! o) as [n|]; [|done]. intros [= <-]. exists n.
      cbn. by rewrite length_insert.
    + rewrite lookup_alter_ne by done. intros E. by exists n'.
  - unfold setNodeNext. cbn [sl_nodes set_nodes]. destruct (decide (o0 = o)) as [->|Hne].
    + rewrite lookup_alter_eq, H. by eexists.
    + rewrite lookup_alter_ne by done. by eexists.
Qed.

Section Link.
Context (key : list Z) (node : Z) (L : nat → list Z) (sl0 : SkipListArena).
Hypothesis Hinv : sl_inv sl0 L.
Hypothesis Hnode : ∃ n, sl_nodes sl0 !! node = Some n ∧ length (n_next n) = maxHeight.
Hypothesis Hnew : node ∉ 0 :: L O.
Hypothesis Hnil : node ≠ NIL.

(** The level with the node in its place. *)
Definition spliced (i : nat) : list Z := pre key sl0 (L i) ++ node :: post key sl0 (L i).

Lemma node_at sl o : same_data sl0 sl → o ∈ node :: 0 :: L O → ∃ n, sl_nodes sl !! o = Some n ∧ length (n_next n) = maxHeight.
Proof.
  intros Hsd Ho. assert (∃ n, sl_nodes sl0 !! o = Some n ∧ length (n_next n) = maxHeight) as (n & E & Hl).
  { apply elem_of_cons in Ho as [->|Ho]; [done|]. by apply (si_node _ _ Hinv). }
  destruct (sd_dom _ _ Hsd o n E) as [n' E']. destruct (sd_node _ _ Hsd o n' E') as (n2 & E2 & Hl2 & _).
  exists n'. split; [done|]. congruence.
Qed.

Lemma link_level_spec i sl :
  (i < maxHeight)%nat → same_data sl0 sl → chain sl i 0 (L i) →
  let sl' := link_level 1 node i key (found_at sl0 L key i).1 (found_at sl0 L key i).2 sl in
  same_data sl0 sl' ∧ chain sl' i 0 (spliced i) ∧ ∀ j x, j ≠ i → nodeNext x j sl' = nodeNext x j sl.
Proof.
  intros Hi Hsd Hc. pose proof (sorted_split sl0 L key Hinv (L i) (level_sub sl0 L Hinv i)) as Es.
  pose proof (level_nodup sl0 L Hinv i) as Hd. rewrite Es in Hc, Hd.
  unfold found_at. cbn [fst snd]. set (p := last_from 0 (pre key sl0 (L i))).
  assert (p ∈ 0 :: L O) as Hp.
  { pose proof (last_from_elem 0 (pre key sl0 (L i))) as H. fold p in H. apply elem_of_cons in H as [->|H]; [by left|].
    right. apply list_elem_of_filter in H as [_ H]. eapply elem_of_sublist; [exact H|apply (level_sub sl0 L Hinv)]. }
  assert (nodeNext p i sl = default NIL (head (post key sl0 (L i)))) as Hnx by (apply chain_next, chain_suffix, Hc).
  destruct (node_at sl p Hsd) as (np & Enp & Hlp); [by right|]. destruct (node_at sl node Hsd) as (nn & Enn & Hln); [by left|].
  assert (node ≠ p) as Hne by (intros ->; done).
  assert (link_level 1 node i key p (default NIL (head (post key sl0 (L i)))) sl =
          setNodeNext p i node (setNodeNext node i (nodeNext p i sl) sl)) as ->.
  { cbn [link_level]. unfold casNodeNext. rewrite (nodeNext_set sl node i _ p i nn) by (done || lia).
    rewrite bool_decide_eq_false_2 by naive_solver. by rewrite Hnx, Z.eqb_refl. }
  cbn zeta. split_and!.
  - eapply same_data_trans; [|apply same_data_set]. eapply same_data_trans; [exact Hsd|apply same_data_set].
  - unfold spliced. eapply chain_insert; [done|done| |done|exact Enn|lia|exact Enp|lia].
    rewrite <- Es. intros [E|H]%elem_of_cons; [apply Hnew; rewrite E; by left|]. apply Hnew. right.
    eapply elem_of_sublist; [exact H|apply (level_sub sl0 L Hinv)].
  - intros j x Hj. assert (sl_nodes (setNodeNext node i (nodeNext p i sl) sl) !! p = Some np) as Enp'.
    { unfold setNodeNext. cbn [sl_nodes set_nodes]. by rewrite lookup_alter_ne. }
    rewrite (nodeNext_set _ p i node x j np) by (done || lia). rewrite (nodeNext_set sl node i _ x j nn) by (done || lia).
    rewrite !bool_decide_eq_false_2 by naive_solver. done.
Qed.

Lemma link_levels_spec m k sl :
  (k + m <= maxHeight)%nat → same_data sl0 sl →
  (∀ j, (k <= j < maxHeight)%nat → chain sl j 0 (L j)) → (∀ j, (j < k)%nat → chain sl j 0 (spliced j)) →
  let sl' := link_levels k node key (map (found_at sl0 L key) (seq k m)) sl in
  same_data sl0 sl' ∧ (∀ j, (k + m <= j < maxHeight)%nat → chain sl' j 0 (L j)) ∧ (∀ j, (j < k + m)%nat → chain sl' j 0 (spliced j)).
Proof.
  revert k sl. induction m as [|m IH]; intros k sl Hkm Hsd Hup Hlo; cbn [seq map link_levels].
  { rewrite Nat.add_0_r. done. }
  destruct (found_at sl0 L key k) as [p nx] eqn:Ef.
  destruct (link_level_spec k sl) as (Hsd' & Hc' & Hoth); [lia|done|by apply Hup; lia|]. rewrite Ef in Hsd', Hc', Hoth. cbn [fst snd] in *.
  set (sl1 := link_level 1 node k key p nx sl) in *. cbn zeta.
  destruct (IH (S k) sl1) as (A & B & C); [lia|done|..].
  - intros j Hj. apply (chain_ext sl); [intros y _; apply Hoth; lia|apply Hup; lia].
  - intros j Hj. destruct (decide (j = k)) as [->|Hne]; [done|]. apply (chain_ext sl); [intros y _; apply Hoth; lia|apply Hlo; lia].
  - replace (k + S m)%nat with (S k + m)%nat by lia. done.
Qed.
End Link.

(** ** Allocation *)

Lemma slice_inserts_ge i n off (k l : list Z) :
  (i + length k <= off)%nat → slice off n (list_inserts i k l) = slice off n l.
Proof.
  intros H. unfold slice. apply list_eq. intros j. destruct (decide (j < n)%nat) as [Hj|Hj].
  - rewrite !lookup_take_lt, !lookup_drop by lia. apply list_lookup_inserts_ge. lia.
  - by rewrite !lookup_take_ge by lia.
Qed.

Lemma slice_inserts_in i a n (k l : list Z) :
  (a + n <= length k)%nat → (i + length k <= length l)%nat → slice (i + a) n (list_inserts i k l) = slice a n k.
Proof.
  intros H Hl. unfold slice. apply list_eq. intros j. destruct (decide (j < n)%nat) as [Hj|Hj].
  - rewrite !lookup_take_lt, !lookup_drop by lia. rewrite list_lookup_inserts by lia. f_equal. lia.
  - by rewrite !lookup_take_ge by lia.
Qed.

(** Reading a node's data needs only its record and its bytes. *)
Lemma same_reads sl sl' o n :
  sl_nodes sl !! o = Some n → sl_nodes sl' !! o = Some n → length (sl_arena sl') = length (sl_arena sl) →
  (∀ off len, n_keyOff n <= off → slice (Z.to_nat off) len (sl_arena sl') = slice (Z.to_nat off) len (sl_arena sl)) →
  0 <= n_keyLen n → n_valOff n = n_keyOff n + n_keyLen n →
  nodeKey o sl' = nodeKey o sl ∧ nodeValue o sl' = nodeValue o sl.
Proof.
  intros E E' Hl Hs Hk Hv. unfold nodeKey, nodeValue, arena_slice, arena_len. rewrite E, E', Hl, !Hs by lia. done.
Qed.

Lemma bump_inv sl L : sl_inv sl L → nodeTop sl + nodeSize <= arena_len sl → sl_inv (bump_top sl) L.
Proof.
  intros [C1 C2 C3 C4 C5 C6 C7 C8 C9 C10 C11] Hle. split; try done.
  - intros i Hi. apply (chain_ext sl); [done|by apply C1].
  - intros o n Ho En. destruct (C10 o n Ho En) as (? & ? & ? & ? & ? & ? & ?). unfold arena_len, nodeSize in *. cbn.
    unfold nodeSize. split_and!; done || lia.
  - unfold arena_len, nodeSize in *. cbn. unfold nodeSize. lia.
Qed.

(** The list after a successful allocation, the writes of the data and the new
    height. *)
Definition allocated (height : nat) (key val : list Z) (sl : SkipListArena) : SkipListArena :=
  let dataOff := dataBottom sl - Z.of_nat (length (key ++ val)) in
  raise_height height
    (mkSL (list_inserts (Z.to_nat dataOff) (key ++ val) (sl_arena sl))
       (<[nodeTop sl := mkNode (Z.of_nat height) dataOff (dataOff + Z.of_nat (length key)) (Z.of_nat (length key))
                          (Z.of_nat (length val)) (replicate maxHeight NIL)]> (sl_nodes sl))
       (u32 (nodeCount sl + 1)) (nodeTop sl + nodeSize) dataOff (sl_height sl) (sl_size sl + Z.of_nat (length (key ++ val)))).

Lemma alloc_cases sl L height key val :
  sl_inv sl L → Z.of_nat (length key) + Z.of_nat (length val) < 2 ^ 32 →
  match allocNode (Z.of_nat height) (u32 (Z.of_nat (length key))) (u32 (Z.of_nat (length val))) sl with
  | (None, sl') =>
      dataBottom sl - Z.of_nat (length (key ++ val)) < nodeTop sl + nodeSize ∧
      sl' = (if nodeTop sl + nodeSize <=? arena_len sl then bump_top sl else sl)
  | (Some (node, dataOff), sl1) =>
      node = nodeTop sl ∧ raise_height height (write_data dataOff (key ++ val) sl1) = allocated height key val sl ∧
      nodeTop sl + nodeSize <= arena_len sl ∧
      nodeTop sl + nodeSize <= dataBottom sl - Z.of_nat (length (key ++ val))
  end.
Proof.
  intros Hinv Hlen. pose proof (si_bounds _ _ Hinv) as (Hb1 & Hb2 & Hb3). rewrite length_app. unfold nodeSize in *.
  unfold allocNode, u32, nodeSize. rewrite !(Z.mod_small (Z.of_nat _)) by lia. rewrite !Z.mod_small by lia.
  destruct (arena_len sl <? nodeTop sl + 64) eqn:E1; [apply Z.ltb_lt in E1; split; [lia|]; by rewrite (proj2 (Z.leb_gt _ _)) by lia|].
  apply Z.ltb_ge in E1. rewrite (proj2 (Z.leb_le _ _) E1).
  cbn [bump_top dataBottom]. destruct (dataBottom sl <? _) eqn:E2; [apply Z.ltb_lt in E2; split; [lia|done]|]. apply Z.ltb_ge in E2.
  destruct (_ <? nodeTop sl + 64) eqn:E3; [apply Z.ltb_lt in E3; split; [lia|done]|]. apply Z.ltb_ge in E3.
  split; [done|]. unfold allocated, write_data, u32. rewrite length_app, Nat2Z.inj_add. split; [done|]. split; lia.
Qed.

Lemma nodes_raise h sl : sl_nodes (raise_height h sl) = sl_nodes sl.
Proof. unfold raise_height. by destruct (_ <=? _). Qed.

Lemma height_raise h sl : sl_height (raise_height h sl) = Z.max (Z.of_nat h) (sl_height sl).
Proof. unfold raise_height. destruct (_ <=? _) eqn:E; [apply Z.leb_le in E|apply Z.leb_gt in E; cbn]; lia. Qed.

Section Allocate.
Context (sl : SkipListArena) (L : nat → list Z) (height : nat) (key val : list Z).
Hypothesis Hinv : sl_inv sl L.
Hypothesis Hh : (1 <= height <= maxHeight)%nat.
Hypothesis Hcnt : nodeCount sl + 1 < 2 ^ 32.
Hypothesis Htop : nodeTop sl + nodeSize <= arena_len sl.
Hypothesis Hroom : nodeTop sl + nodeSize <= dataBottom sl - Z.of_nat (length (key ++ val)).

#[local] Abbreviation sl' := (allocated height key val sl).
#[local] Abbreviation dataOff := (dataBottom sl - Z.of_nat (length (key ++ val))).

Lemma new_node : sl_nodes sl' !! nodeTop sl =
  Some (mkNode (Z.of_nat height) dataOff (dataOff + Z.of_nat (length key)) (Z.of_nat (length key)) (Z.of_nat (length val))
          (replicate maxHeight NIL)).
Proof. unfold allocated. rewrite nodes_raise. cbn [sl_nodes]. by rewrite lookup_insert_eq. Qed.

Lemma old_node o : o ≠ nodeTop sl → sl_nodes sl' !! o = sl_nodes sl !! o.
Proof. intros Ho. unfold allocated. rewrite nodes_raise. cbn [sl_nodes]. by rewrite lookup_insert_ne. Qed.

Lemma alloc_arena : sl_arena sl' = list_inserts (Z.to_nat dataOff) (key ++ val) (sl_arena sl).
Proof. unfold allocated, raise_height. by destruct (_ <=? _). Qed.

Lemma alloc_len : arena_len sl' = arena_len sl.
Proof. unfold arena_len. by rewrite alloc_arena, length_inserts. Qed.

Lemma alloc_marks : nodeCount sl' = (nodeCount sl + 1) ∧ nodeTop sl' = (nodeTop sl + nodeSize) ∧ dataBottom sl' = dataOff.
Proof.
  pose proof (si_count _ _ Hinv). unfold allocated, raise_height. destruct (_ <=? _); cbn; unfold u32; rewrite Z.mod_small by lia; done.
Qed.

Lemma node_fresh : (nodeTop sl ∉ 0 :: L O) ∧ nodeTop sl ≠ NIL ∧ nodeTop sl ≠ 0.
Proof.
  pose proof (si_bounds _ _ Hinv) as (Hb1 & Hb2 & Hb3). unfold nodeSize in *. split_and!; [|unfold NIL; lia|lia].
  intros [E|Ho]%elem_of_cons; [lia|]. destruct (si_node _ _ Hinv (nodeTop sl)) as (n & En & _); [by right|].
  destruct (si_room _ _ Hinv _ n Ho En) as (H & _). unfold nodeSize in H. lia.
Qed.

Lemma old_reads o : o ∈ L O → nodeKey o sl' = nodeKey o sl ∧ nodeValue o sl' = nodeValue o sl.
Proof.
  intros Ho. destruct (si_node _ _ Hinv o) as (n & En & _); [by right|].
  destruct (si_room _ _ Hinv _ n Ho En) as (H1 & H2 & H3 & H4 & H5 & H6 & H7).
  apply (same_reads sl sl' o n); [done| |by rewrite alloc_arena, length_inserts| |done|done].
  - rewrite old_node; [done|]. unfold nodeSize in H1. lia.
  - intros off len Hoff. rewrite alloc_arena. apply slice_inserts_ge. pose proof (si_bounds _ _ Hinv). unfold nodeSize in *. lia.
Qed.

Lemma new_reads : nodeKey (nodeTop sl) sl' = key ∧ nodeValue (nodeTop sl) sl' = val.
Proof.
  pose proof (si_bounds _ _ Hinv) as (Hb1 & Hb2 & Hb3). destruct node_fresh as (_ & Hn1 & Hn2). unfold nodeSize in *.
  unfold nodeKey, nodeValue. rewrite (proj2 (Z.eqb_neq _ _) Hn1), (proj2 (Z.eqb_neq _ _) Hn2), new_node. cbn [orb n_keyOff n_keyLen n_valOff n_valLen].
  rewrite length_app, Nat2Z.inj_add in Hroom. unfold arena_slice. rewrite alloc_len, !length_app, Nat2Z.inj_add. unfold u32. rewrite !Z.mod_small by lia.
  split.
  - destruct (_ || _) eqn:E.
    { apply orb_prop in E as [E|E]; [apply Z.leb_le in E|apply Z.ltb_lt in E; lia]. destruct key; [done|]. cbn in *. lia. }
    rewrite alloc_arena, length_app, Nat2Z.inj_add. set (d := dataBottom sl - _).
    replace (Z.to_nat d) with (Z.to_nat d + 0)%nat at 1 by lia.
    rewrite slice_inserts_in; [|rewrite length_app; lia|rewrite length_app; unfold arena_len in *; subst d; lia].
    unfold slice. rewrite drop_0, Nat2Z.id. apply take_app_length.
  - destruct (_ || _) eqn:E.
    { apply orb_prop in E as [E|E]; [apply Z.leb_le in E|apply Z.ltb_lt in E; lia]. destruct val; [done|]. cbn in *. lia. }
    rewrite alloc_arena, length_app, Nat2Z.inj_add. set (d := dataBottom sl - _).
    replace (Z.to_nat (d + Z.of_nat (length key))) with (Z.to_nat d + length key)%nat by (subst d; lia).
    rewrite slice_inserts_in; [|rewrite length_app; lia|rewrite length_app; unfold arena_len in *; subst d; lia].
    unfold slice. rewrite drop_app_length, Nat2Z.id. by apply firstn_all.
Qed.

(** The allocated node and its data touch nothing that a node of the list uses. *)
Lemma allocated_inv : sl_inv sl' L.
Proof.
  pose proof (si_bounds _ _ Hinv) as (Hb1 & Hb2 & Hb3). destruct alloc_marks as (Hc & Ht & Hd). destruct node_fresh as (Hf & _ & _).
  assert (∀ o, o ∈ 0 :: L O → sl_nodes sl' !! o = sl_nodes sl !! o) as Hold by (intros o Ho; apply old_node; intros ->; done).
  split.
  - intros i Hi. apply (chain_ext sl); [|by apply (si_chain _ _ Hinv)]. intros y Hy. unfold nodeNext. rewrite Hold; [done|].
    eapply elem_of_sublist; [exact Hy|]. apply sublist_skip, (level_sub sl L Hinv).
  - apply (si_sub _ _ Hinv).
  - intros i Hi. apply (si_top _ _ Hinv). unfold allocated in Hi. rewrite height_raise in Hi. cbn [sl_height] in Hi. lia.
  - pose proof (si_sorted _ _ Hinv) as Hs. pose proof old_reads as Hr. clear -Hs Hr. revert Hr. induction Hs as [|x l Hs IH Hx]; intros Hr; [constructor|].
    constructor; [apply IH; intros o Ho; apply Hr; by right|]. rewrite Forall_forall in *. intros y Hy.
    rewrite (proj1 (Hr x ltac:(by left))), (proj1 (Hr y ltac:(by right))). by apply Hx.
  - apply (si_nodup _ _ Hinv).
  - apply (si_nil _ _ Hinv).
  - rewrite Hc. pose proof (si_count _ _ Hinv). lia.
  - unfold allocated. rewrite height_raise. cbn [sl_height]. pose proof (si_height _ _ Hinv). lia.
  - intros o Ho. rewrite Hold by done. by apply (si_node _ _ Hinv).
  - intros o n Ho. rewrite Hold by (by right). intros En. destruct (si_room _ _ Hinv o n Ho En) as (? & ? & ? & ? & ? & ? & ?).
    rewrite Ht, Hd, alloc_len. unfold nodeSize in *. split_and!; done || lia.
  - rewrite Ht, Hd, alloc_len. unfold nodeSize in *. lia.
Qed.
End Allocate.

(** ** Iteration and Seek *)

Definition kv (sl : SkipListArena) (o : Z) : list Z * list Z := (nodeKey o sl, nodeValue o sl).

Lemma iterate_chain sl x l fuel :
  chain sl 0 x l → (length l < fuel)%nat → iterate fuel (nodeNext x 0 sl) sl = map (kv sl) l.
Proof.
  revert x fuel. induction l as [|y l IH]; intros x fuel Hc Hf; (destruct fuel as [|k]; [lia|]); cbn [iterate chain] in *.
  - by rewrite Hc, Z.eqb_refl.
  - destruct Hc as (-> & Hy & Hc). rewrite (proj2 (Z.eqb_neq y NIL)) by done. cbn [map]. f_equal. apply IH; [done|]. cbn in Hf. lia.
Qed.

Lemma entries_list sl L : sl_inv sl L → entries sl = map (kv sl) (L O).
Proof.
  intros Hinv. apply iterate_chain; [apply (si_chain _ _ Hinv); unfold maxHeight; lia|].
  pose proof (si_count _ _ Hinv). unfold walk_fuel. lia.
Qed.

(** The entries from the first one whose key is not below the target. *)
Fixpoint from_key (target : list Z) (l : list (list Z * list Z)) : list (list Z * list Z) :=
  match l with
  | [] => []
  | (k, v) :: l' => match bytes_compare k target with Lt => from_key target l' | _ => l end
  end.

Lemma from_key_split target sl a b :
  Forall (below target sl) a → (∀ y, head b = Some y → ¬ below target sl y) → from_key target (map (kv sl) (a ++ b)) = map (kv sl) b.
Proof.
  intros Ha Hb. induction Ha as [|y a Hy _ IH]; cbn.
  - destruct b as [|y b]; [done|]. cbn. specialize (Hb y eq_refl). unfold below in Hb.
    by destruct (bytes_compare (nodeKey y sl) target).
  - unfold below in Hy. by rewrite Hy.
Qed.

Lemma pre_below target sl l : Forall (below target sl) (pre target sl l).
Proof. apply Forall_forall. by intros y [Hy _]%list_elem_of_filter. Qed.

Lemma seek_levels_spec sl L target n : sl_inv sl L → (n <= maxHeight)%nat →
  seek_levels n target (last_from 0 (pre target sl (L n))) sl = last_from 0 (pre target sl (L O)).
Proof.
  intros Hinv. induction n as [|n IH]; intros Hn; [done|]. cbn [seek_levels]. rewrite (walk_level sl L target Hinv) by lia.
  apply IH. lia.
Qed.

Lemma Seek_spec sl L target : sl_inv sl L → Seek target sl = default NIL (head (post target sl (L O))).
Proof.
  intros Hinv. unfold Seek. pose proof (si_height _ _ Hinv) as Hh.
  assert (seek_levels (Z.to_nat (sl_height sl)) target 0 sl = last_from 0 (pre target sl (L O))) as ->.
  { rewrite <- (seek_levels_spec sl L target (Z.to_nat (sl_height sl)) Hinv) by lia. by rewrite (si_top _ _ Hinv (Z.to_nat (sl_height sl))) by lia. }
  change (last_from 0 (pre target sl (L O))) with (found_at sl L target O).1. rewrite (next_level sl L target Hinv) by (unfold maxHeight; lia).
  unfold found_at. cbn [snd]. destruct (head (post target sl (L O))) as [y|] eqn:Ey; cbn [default]; [|by rewrite Z.eqb_refl].
  pose proof (post_head sl target (L O) y Ey) as Hy. cbn.
  by destruct (bytes_compare (nodeKey y sl) target), (y =? NIL).
Qed.

Lemma seek_iterates sl L target :
  sl_inv sl L → iterate (walk_fuel sl) (Seek target sl) sl = from_key target (entries sl).
Proof.
  intros Hinv. pose proof (sorted_split sl L target Hinv (L O)) as Es. specialize (Es (reflexivity _)).
  rewrite (Seek_spec sl L) by done. rewrite (entries_list sl L) by done. rewrite Es at 2.
  rewrite from_key_split; [|apply pre_below|intros y; apply post_head].
  assert (0 < maxHeight)%nat as H0 by (unfold maxHeight; lia). pose proof (si_chain _ _ Hinv O H0) as Hc. rewrite Es in Hc. apply chain_suffix in Hc.
  rewrite <- (chain_next _ _ _ _ Hc). apply iterate_chain; [done|]. pose proof (si_count _ _ Hinv).
  assert (length (L O) = length (pre target sl (L O)) + length (post target sl (L O)))%nat by (rewrite <- length_app; by f_equal).
  unfold walk_fuel. lia.
Qed.

(** ** Put *)

(** The reference: insertion in front of the first entry whose key is not
    below. *)
Fixpoint put_sorted (key val : list Z) (l : list (list Z * list Z)) : list (list Z * list Z) :=
  match l with
  | [] => [(key, val)]
  | (k, v) :: l' => match bytes_compare k key with Lt => (k, v) :: put_sorted key val l' | _ => (key, val) :: l end
  end.

Lemma put_sorted_perm key val l : put_sorted key val l ≡ₚ (key, val) :: l.
Proof.
  induction l as [|[k v] l IH]; cbn; [done|]. destruct (bytes_compare k key); [done| |done]. rewrite IH. apply Permutation_swap.
Qed.

Lemma length_put_sorted key val l : length (put_sorted key val l) = S (length l).
Proof. by rewrite put_sorted_perm. Qed.

Lemma put_sorted_split key val sl a b :
  Forall (below key sl) a → (∀ y, head b = Some y → ¬ below key sl y) →
  put_sorted key val (map (kv sl) (a ++ b)) = map (kv sl) a ++ (key, val) :: map (kv sl) b.
Proof.
  intros Ha Hb. induction Ha as [|y a Hy _ IH]; cbn.
  - destruct b as [|y b]; [done|]. cbn. specialize (Hb y eq_refl). unfold below in Hb.
    by destruct (bytes_compare (nodeKey y sl) key).
  - unfold below in Hy. rewrite Hy. by rewrite <- IH.
Qed.

(** The levels after a node of the height was linked. *)
Definition linked (key : list Z) (node : Z) (height : nat) (L : nat → list Z) (sl : SkipListArena) (i : nat) : list Z :=
  if (i <? height)%nat then spliced key node L sl i else L i.

Lemma same_data_kv sl sl' o : same_data sl sl' → kv sl' o = kv sl o.
Proof. intros H. unfold kv. by rewrite (sd_key _ _ H), (sd_val _ _ H). Qed.

Section Linked.
Context (key : list Z) (node : Z) (height : nat) (L : nat → list Z) (sl sl' : SkipListArena).
Hypothesis Hinv : sl_inv sl L.
Hypothesis Hh : (1 <= height <= Z.to_nat (sl_height sl))%nat.
Hypothesis Hnew : node ∉ 0 :: L O.
Hypothesis Hnil : node ≠ NIL.
Hypothesis Hkey : nodeKey node sl = key.
Hypothesis Hcount : Z.of_nat (length (L O)) + 1 <= nodeCount sl.
Hypothesis Hroom : ∃ n, sl_nodes sl !! node = Some n ∧ length (n_next n) = maxHeight ∧
  node + nodeSize <= nodeTop sl ∧ node + nodeSize <= dataBottom sl ∧ dataBottom sl <= n_keyOff n ∧
  n_valOff n = n_keyOff n + n_keyLen n ∧ 0 <= n_keyLen n ∧ 0 <= n_valLen n ∧ n_valOff n + n_valLen n <= arena_len sl.
Hypothesis Hsd : same_data sl sl'.
Hypothesis Hup : ∀ j, (height <= j < maxHeight)%nat → chain sl' j 0 (L j).
Hypothesis Hlo : ∀ j, (j < height)%nat → chain sl' j 0 (spliced key node L sl j).

#[local] Abbreviation L' := (linked key node height L sl).

Lemma linked_perm : L' O ≡ₚ node :: L O.
Proof.
  unfold linked. rewrite (proj2 (Nat.ltb_lt _ _)) by lia. unfold spliced. rewrite <- Permutation_middle. constructor.
  by rewrite <- (sorted_split sl L key Hinv (L O)).
Qed.

Lemma linked_sub i : L' (S i) `sublist_of` L' i.
Proof.
  unfold linked, spliced. pose proof (si_sub _ _ Hinv i) as Hs.
  destruct (Nat.ltb_spec (S i) height), (Nat.ltb_spec i height); try lia; [| |done].
  - apply sublist_app; [by apply filter_sublist|]. apply sublist_skip. by apply filter_sublist.
  - rewrite (sorted_split sl L key Hinv (L (S i))) by apply (level_sub sl L Hinv).
    apply sublist_app; [by apply filter_sublist|]. apply sublist_cons. by apply filter_sublist.
Qed.

Lemma sorted_app_key (a b : list Z) :
  StronglySorted (λ x y, cmp_le bytes_compare (nodeKey x sl) (nodeKey y sl)) (a ++ b) →
  Forall (below (nodeKey node sl) sl) a → Forall (λ y, ¬ below (nodeKey node sl) sl y) b →
  StronglySorted (λ x y, cmp_le bytes_compare (nodeKey x sl) (nodeKey y sl)) (a ++ node :: b).
Proof.
  intros Hs Ha Hb. induction Ha as [|x a Hx _ IH]; cbn [app] in *.
  - constructor; [done|]. eapply Forall_impl; [exact Hb|]. intros y Hy. unfold below in Hy. unfold cmp_le.
    rewrite (cmp_opp (cmp:=bytes_compare) (nodeKey y sl) (nodeKey node sl)). by destruct (bytes_compare (nodeKey y sl) (nodeKey node sl)).
  - apply StronglySorted_inv in Hs as [Hs Hf]. constructor; [by apply IH|]. rewrite Forall_app in *. destruct Hf as [Hf1 Hf2].
    split; [done|]. constructor; [|done]. unfold cmp_le. unfold below in Hx. by rewrite Hx.
Qed.

Lemma linked_sorted : StronglySorted (λ a b, cmp_le bytes_compare (nodeKey a sl') (nodeKey b sl')) (L' O).
Proof.
  assert (StronglySorted (λ a b, cmp_le bytes_compare (nodeKey a sl) (nodeKey b sl)) (L' O)) as H.
  { unfold linked. rewrite (proj2 (Nat.ltb_lt _ _)) by lia. unfold spliced. rewrite <- Hkey. apply sorted_app_key.
    - rewrite <- (sorted_split sl L _ Hinv (L O)) by done. apply (si_sorted _ _ Hinv).
    - apply pre_below.
    - apply Forall_forall. by intros y [Hy _]%list_elem_of_filter. }
  induction H as [|x l _ IH Hx]; constructor; [done|]. eapply Forall_impl; [exact Hx|]. intros y Hy. cbn. by rewrite !(sd_key _ _ Hsd).
Qed.

Lemma linked_inv : sl_inv sl' L'.
Proof.
  pose proof linked_perm as Hp. pose proof (si_height _ _ Hinv) as Hhe. split.
  - intros i Hi. unfold linked. destruct (Nat.ltb_spec i height); [by apply Hlo|by apply Hup].
  - apply linked_sub.
  - intros i Hi. rewrite (sd_height _ _ Hsd) in Hi. unfold linked. rewrite (proj2 (Nat.ltb_ge _ _)) by lia. by apply (si_top _ _ Hinv).
  - apply linked_sorted.
  - rewrite Hp. pose proof (si_nodup _ _ Hinv) as Hd. rewrite Permutation_swap. by constructor.
  - rewrite Hp. pose proof (si_nil _ _ Hinv). intros [E|E]%elem_of_cons; [congruence|done].
  - rewrite Hp, (sd_count _ _ Hsd). cbn [length]. lia.
  - rewrite (sd_height _ _ Hsd). done.
  - intros o Ho. apply (node_at node L sl Hinv); [|done|].
    + destruct Hroom as (n & ? & ? & _). by exists n.
    + rewrite Hp in Ho. clear -Ho. set_solver.
  - intros o n' Ho En'. destruct (sd_node _ _ Hsd o n' En') as (n & En & _ & E1 & E2 & E3 & E4).
    assert (arena_len sl' = arena_len sl) as Ea by (unfold arena_len; by rewrite (sd_arena _ _ Hsd)).
    rewrite Ea, (sd_top _ _ Hsd), (sd_bottom _ _ Hsd), E1, E2, E3, E4. rewrite Hp in Ho. apply elem_of_cons in Ho as [->|Ho].
    + destruct Hroom as (m & Em & _ & H). by assert (n = m) as -> by congruence.
    + by apply (si_room _ _ Hinv o n).
  - rewrite (sd_top _ _ Hsd), (sd_bottom _ _ Hsd). unfold arena_len. rewrite (sd_arena _ _ Hsd). apply (si_bounds _ _ Hinv).
Qed.

Lemma linked_entries : entries sl' = put_sorted key (nodeValue node sl) (entries sl).
Proof.
  rewrite (entries_list sl' _ linked_inv), (entries_list sl L Hinv).
  rewrite (sorted_split sl L key Hinv (L O)) at 1 by done.
  rewrite put_sorted_split; [|apply pre_below|intros y; apply post_head].
  unfold linked. rewrite (proj2 (Nat.ltb_lt _ _)) by lia. unfold spliced. rewrite map_app. cbn [map].
  rewrite !(map_ext (kv sl') (kv sl)) by (intros; by apply same_data_kv). rewrite (same_data_kv sl sl') by done.
  unfold kv at 2. by rewrite Hkey.
Qed.
End Linked.

(** ** Runs of Put *)

(** What a client sees of the list: its entries in order, and the two marks that
    decide whether the next entry fits. *)
Record sorted_store := mkStore {
  st_entries : list (list Z * list Z);
  st_top : Z;
  st_bottom : Z;
}.

Definition store_of (sl : SkipListArena) : sorted_store := mkStore (entries sl) (nodeTop sl) (dataBottom sl).

(** An entry costs its bytes and 64 more; a refused one costs the 64 when they
    are there. *)
Definition store_put (arenaSize : Z) (key val : list Z) (s : sorted_store) : bool * sorted_store :=
  let room := st_bottom s - Z.of_nat (length (key ++ val)) in
  if st_top s + nodeSize <=? room then (true, mkStore (put_sorted key val (st_entries s)) (st_top s + nodeSize) room)
  else (false, mkStore (st_entries s) (if st_top s + nodeSize <=? arenaSize then st_top s + nodeSize else st_top s) (st_bottom s)).

Lemma raise_top height sl : nodeTop (raise_height height sl) = nodeTop sl.
Proof. unfold raise_height. by destruct (_ <=? _). Qed.

(** The invariant of a run: the list's, and that every node was taken from the
    node area, which bounds their number, and is in the list. *)
Definition run_inv (arenaSize : Z) (sl : SkipListArena) : Prop :=
  (∃ L, sl_inv sl L) ∧ arena_len sl = arenaSize ∧ nodeSize * (nodeCount sl + 1) <= nodeTop sl ∧
  nodeCount sl = Z.of_nat (length (entries sl)).

Lemma run_inv_bump arenaSize sl : run_inv arenaSize sl → nodeTop sl + nodeSize <= arenaSize →
  run_inv arenaSize (bump_top sl) ∧ entries (bump_top sl) = entries sl.
Proof.
  intros ((L & Hinv) & Ha & Hn & Hc) Ht. assert (sl_inv (bump_top sl) L) as Hinv' by (apply bump_inv; [done|lia]).
  assert (entries (bump_top sl) = entries sl) as E by (by rewrite (entries_list _ L Hinv), (entries_list _ L Hinv')).
  split; [|done]. split_and!; [by exists L|done| |by rewrite E].
  cbn. unfold nodeSize in *. lia.
Qed.

Lemma put_links sl L height key val :
  sl_inv sl L → (1 <= height <= maxHeight)%nat → nodeCount sl + 1 < 2 ^ 32 → nodeTop sl + nodeSize <= arena_len sl →
  nodeTop sl + nodeSize <= dataBottom sl - Z.of_nat (length (key ++ val)) →
  let sl1 := allocated height key val sl in
  let listHeight := Z.to_nat (sl_height sl1) in
  let sl' := link_levels 0 (nodeTop sl) key (take height (find_levels listHeight key 0 sl1 ++ upper_levels listHeight height sl1)) sl1 in
  same_data sl1 sl' ∧ (∃ L', sl_inv sl' L') ∧ entries sl' = put_sorted key val (entries sl).
Proof.
  intros Hinv Hh Hcnt Htop Hroom sl1 listHeight sl'. destruct (node_fresh sl L height key val) as (Hf & Hnil & _); [done..|].
  destruct (alloc_marks sl L height key val) as (Hc & Ht & Hd); [done..|].
  assert (sl_inv (allocated height key val sl) L) as Hinv1 by (by apply allocated_inv). fold sl1 in Hc, Ht, Hd, Hinv1.
  destruct (new_reads sl L height key val) as [Hk Hv]; [done..|]. fold sl1 in Hk, Hv.
  assert (height <= listHeight)%nat as Hle by (unfold listHeight, sl1, allocated; rewrite height_raise; lia).
  assert (take height (find_levels listHeight key 0 sl1 ++ upper_levels listHeight height sl1) = map (found_at sl1 L key) (seq 0 height)) as Ef.
  { unfold listHeight at 1. rewrite (find_from_top sl1 L key Hinv1). fold listHeight. rewrite take_app_le by (rewrite length_map, length_seq; lia).
    rewrite firstn_map. f_equal. rewrite take_seq. f_equal. lia. }
  unfold sl'. rewrite Ef. clear Ef sl'.
  pose proof (new_node sl height key val) as En. fold sl1 in En.
  destruct (link_levels_spec key (nodeTop sl) L sl1 Hinv1) with (m := height) (k := O) (sl := sl1) as (Hsd & Hup & Hlo);
    [eexists; split; [exact En|done]|done|done|lia|apply same_data_refl|intros; apply (si_chain _ _ Hinv1); lia|lia|].
  set (sl' := link_levels _ _ _ _ _) in *.
  assert (arena_len sl1 = arena_len sl) as Hal by apply alloc_len. pose proof (si_bounds _ _ Hinv) as Hb. pose proof (si_count _ _ Hinv) as Hcn.
  assert (∃ n, sl_nodes sl1 !! nodeTop sl = Some n ∧ length (n_next n) = maxHeight ∧
    nodeTop sl + nodeSize <= nodeTop sl1 ∧ nodeTop sl + nodeSize <= dataBottom sl1 ∧ dataBottom sl1 <= n_keyOff n ∧
    n_valOff n = n_keyOff n + n_keyLen n ∧ 0 <= n_keyLen n ∧ 0 <= n_valLen n ∧ n_valOff n + n_valLen n <= arena_len sl1) as Hnd.
  { eexists. split; [exact En|]. rewrite Ht, Hd, Hal. cbn [n_next n_keyOff n_valOff n_keyLen n_valLen].
    rewrite length_app, Nat2Z.inj_add in *. split_and!; done || lia. }
  split; [done|]. split.
  - exists (linked key (nodeTop sl) height L sl1). apply linked_inv; done || lia.
  - rewrite (linked_entries key (nodeTop sl) height L sl1 sl'); [|done || lia..]. rewrite Hv. f_equal.
    rewrite (entries_list sl1 L), (entries_list sl L) by done. apply map_ext_Forall, Forall_forall. intros o Ho.
    destruct (old_reads sl L height key val) with (o := o) as [E1 E2]; [done..|]. fold sl1 in E1, E2. unfold kv. by rewrite E1, E2.
Qed.

Lemma Put_spec arenaSize sl height key val :
  run_inv arenaSize sl → (1 <= height <= maxHeight)%nat → Z.of_nat (length key) + Z.of_nat (length val) < 2 ^ 32 →
  let '(ok, sl') := Put height key val sl in
  run_inv arenaSize sl' ∧ (ok, store_of sl') = store_put arenaSize key val (store_of sl).
Proof.
  intros Hr Hh Hlen. pose proof Hr as ((L & Hinv) & Ha & Hn & Hc). pose proof (si_bounds _ _ Hinv) as (Hb1 & Hb2 & Hb3).
  pose proof (alloc_cases sl L height key val Hinv Hlen) as H. unfold Put, store_put, store_of. cbn [st_entries st_top st_bottom].
  destruct (allocNode _ _ _ sl) as [[[node dataOff]|] sl1].
  - destruct H as (-> & E & Ht & Hroom). rewrite (proj2 (Z.leb_le _ _) Hroom). rewrite E.
    destruct (put_links sl L height key val) as (Hsd & HL & He); [done || (unfold nodeSize in *; lia)..|].
    destruct (alloc_marks sl L height key val) as (Hc' & Ht' & Hd'); [done || (unfold nodeSize in *; lia)..|].
    set (sl' := link_levels _ _ _ _ _) in *. split; [split_and!; [done|..]|].
    + unfold arena_len. rewrite (sd_arena _ _ Hsd). by rewrite <- Ha, <- (alloc_len sl height key val).
    + rewrite (sd_count _ _ Hsd), (sd_top _ _ Hsd), Hc', Ht'. unfold nodeSize in *. lia.
    + rewrite (sd_count _ _ Hsd), Hc', He, length_put_sorted. lia.
    + rewrite He, (sd_top _ _ Hsd), (sd_bottom _ _ Hsd), Ht', Hd'. done.
  - destruct H as (Hroom & ->). rewrite (proj2 (Z.leb_gt _ _) Hroom). subst arenaSize.
    destruct (Z.leb_spec (nodeTop sl + nodeSize) (arena_len sl)) as [Hle|Hgt]; [|done].
    destruct (run_inv_bump _ sl Hr) as [Hr' ->]; [lia|done].
Qed.

Lemma randomHeight_bounds coins h : (1 <= h <= maxHeight)%nat → (1 <= randomHeight coins h <= maxHeight)%nat.
Proof.
  revert h. induction coins as [|[] coins IH]; intros h Hh; cbn [randomHeight]; [done| |done]. destruct (Nat.ltb_spec h maxHeight); [apply IH; lia|lia].
Qed.

Lemma new_run_inv arenaSize : nodeSize <= arenaSize → arenaSize + nodeSize < 2 ^ 32 →
  run_inv arenaSize (NewSkipListArena arenaSize) ∧ store_of (NewSkipListArena arenaSize) = mkStore [] nodeSize arenaSize.
Proof.
  intros H1 H2. assert (arena_len (NewSkipListArena arenaSize) = arenaSize) as Hl.
  { unfold arena_len. cbn [NewSkipListArena sl_arena]. rewrite length_replicate. unfold nodeSize in *. lia. }
  split; [|done]. split_and!; [|done|cbn; unfold nodeSize; lia|done]. exists (λ _, []). split; try done.
  - intros i Hi. cbn [chain]. unfold nodeNext. cbn [NewSkipListArena sl_nodes]. rewrite lookup_singleton_eq. cbn [n_next].
    by rewrite lookup_replicate_2.
  - constructor.
  - constructor; [apply not_elem_of_nil|constructor].
  - apply not_elem_of_nil.
  - intros o Ho. apply list_elem_of_singleton in Ho as ->. eexists. cbn [NewSkipListArena sl_nodes]. rewrite lookup_singleton_eq. by split.
  - intros o n Ho. by apply not_elem_of_nil in Ho.
  - rewrite Hl. cbn [NewSkipListArena nodeTop dataBottom]. unfold nodeSize in *. lia.
Qed.

(** One call of Put: its coin throws, its key and its value. *)
Definition put_call : Type := list bool * list Z * list Z.

(** A key and a value whose lengths add up below 2^32, the width of the lengths
    in a node. *)
Definition fits (c : put_call) : Prop :=
  let '(_, key, val) := c in Z.of_nat (length key) + Z.of_nat (length val) < 2 ^ 32.

Fixpoint put_all (cs : list put_call) (sl : SkipListArena) : list bool * SkipListArena :=
  match cs with
  | [] => ([], sl)
  | (coins, key, val) :: cs' =>
      let '(ok, sl1) := Put (randomHeight coins 1) key val sl in
      let '(oks, sl2) := put_all cs' sl1 in (ok :: oks, sl2)
  end.

Fixpoint store_all (arenaSize : Z) (cs : list put_call) (s : sorted_store) : list bool * sorted_store :=
  match cs with
  | [] => ([], s)
  | (_, key, val) :: cs' =>
      let '(ok, s1) := store_put arenaSize key val s in
      let '(oks, s2) := store_all arenaSize cs' s1 in (ok :: oks, s2)
  end.

Lemma put_all_spec arenaSize cs sl :
  run_inv arenaSize sl → Forall fits cs →
  let '(oks, sl') := put_all cs sl in run_inv arenaSize sl' ∧ (oks, store_of sl') = store_all arenaSize cs (store_of sl).
Proof.
  intros Hr Hf. revert sl Hr. induction Hf as [|[[coins key] val] cs Hc _ IH]; intros sl Hr; cbn [put_all store_all]; [done|].
  pose proof (Put_spec arenaSize sl (randomHeight coins 1) key val Hr) as H.
  specialize (H (randomHeight_bounds coins 1 ltac:(unfold maxHeight; lia)) Hc).
  destruct (Put (randomHeight coins 1) key val sl) as [ok sl1]. destruct H as [Hr1 E]. rewrite <- E. specialize (IH sl1 Hr1).
  destruct (put_all cs sl1) as [oks sl2]. destruct IH as [Hr2 E2]. by rewrite <- E2.
Qed.

(** C18.  From an empty arena, whatever the coins, a run of Puts accepts and
    refuses exactly the entries that a sorted association list with a budget of
    arena bytes does, iteration over the skip list reads that list, and an
    iterator after Seek reads the part of it from the first key that is not below
    the target: the towers, the offsets and the shared arena do not show. *)
Theorem skiplist_refines_sorted_store arenaSize cs :
  nodeSize <= arenaSize → arenaSize + nodeSize < 2 ^ 32 → Forall fits cs →
  let '(oks, sl) := put_all cs (NewSkipListArena arenaSize) in
  (oks, store_of sl) = store_all arenaSize cs (mkStore [] nodeSize arenaSize) ∧
  ∀ target, iterate (walk_fuel sl) (Seek target sl) sl = from_key target (entries sl).
Proof.
  intros H1 H2 Hf. destruct (new_run_inv arenaSize H1 H2) as [Hr E]. pose proof (put_all_spec arenaSize cs _ Hr Hf) as H.
  destruct (put_all cs (NewSkipListArena arenaSize)) as [oks sl]. destruct H as [((L & Hinv) & _) E']. rewrite E', E.
  split; [done|]. intros target. by apply (seek_iterates sl L).
Qed.

Definition wit_calls : list put_call :=
  [([true; true], [5; 1], [50]); ([], [3], [30]); ([true], [5; 1], [51]); ([true; true; true], [9], [90; 91]); ([], [1], repeat 7 200)].

Lemma skiplist_refines_sorted_store_witness :
  let '(oks, sl) := put_all wit_calls (NewSkipListArena 400) in
  oks = [true; true; true; true; false] ∧
  entries sl = [([3], [30]); ([5; 1], [51]); ([5; 1], [50]); ([9], [90; 91])] ∧
  iterate (walk_fuel sl) (Seek [4] sl) sl = [([5; 1], [51]); ([5; 1], [50]); ([9], [90; 91])].
Proof.
  pose proof (skiplist_refines_sorted_store 400 wit_calls ltac:(by vm_compute) ltac:(by vm_compute) ltac:(by repeat constructor; vm_compute)) as H.
  destruct (put_all wit_calls (NewSkipListArena 400)) as [oks sl]. destruct H as [E Hs].
  assert (store_all 400 wit_calls (mkStore [] nodeSize 400) =
    ([true; true; true; true; false], mkStore [([3], [30]); ([5; 1], [51]); ([5; 1], [50]); ([9], [90; 91])] 384 389)) as E2
    by (vm_compute; reflexivity).
  rewrite E2 in E. injection E as -> E3 E4 E5. split; [done|]. split; [done|]. rewrite Hs, E3. by vm_compute.
Defined.

(** ** Interleaved reservations *)

(** allocNode succeeds with what its two reservations return. *)
Lemma allocNode_reserves height keyLen valLen sl :
  (allocNode height keyLen valLen sl).1 =
  match reserve_node sl with
  | Some (nodeOff, sl1) =>
      match reserve_data nodeOff (u32 (keyLen + valLen)) sl1 with Some (dataOff, _) => Some (nodeOff, dataOff) | None => None end
  | None => None
  end.
Proof.
  unfold allocNode, reserve_node, reserve_data. destruct (arena_len sl <? _); [done|].
  destruct (dataBottom (bump_top sl) <? _); [done|]. by destruct (_ <? _).
Qed.

(** In an arena of 256 bytes: call A reserves its node, call B its node and its
    data, A its data.  All four reservations succeed, and A's data, which A writes
    next, lies inside B's node: the check against A's own node does not see B's. *)
Theorem interleaved_data_overlaps_node :
  ∃ a s1 b s2 db s3 da s4,
    reserve_node (NewSkipListArena 256) = Some (a, s1) ∧ reserve_node s1 = Some (b, s2) ∧
    reserve_data b 41 s2 = Some (db, s3) ∧ reserve_data a 72 s3 = Some (da, s4) ∧
    b < da ∧ da < b + nodeSize.
Proof.
  set (s1 := bump_top (NewSkipListArena 256)). set (s2 := bump_top s1).
  set (s3 := mkSL (sl_arena s2) (sl_nodes s2) (nodeCount s2) (nodeTop s2) 215 (sl_height s2) (sl_size s2)).
  set (s4 := mkSL (sl_arena s3) (sl_nodes s3) (nodeCount s3) (nodeTop s3) 143 (sl_height s3) (sl_size s3)).
  exists 64, s1, 128, s2, 215, s3, 143, s4. split_and!; reflexivity.
Qed.
