(* ===== verification/Pii.v ===== *)
(** PII masking on the write path (internal/crypto/pii.go): every 12-digit run of
    a payload is replaced by a marker and the digest of the run.

    An index outside a string or buffer is a panic, [None]; [copy] writes what
    fits.  xxhash is a parameter. *)
From S2P Require Import Prelude Bytes LsmKeys.

Class XXHash := { Sum64String : list Z → Z }.

Definition piiLen : nat := 12.
Definition redactionMarker : list Z := lit "PII_REDACTED".
Definition markerLen : nat := length redactionMarker.
Definition digestHexLen : nat := 16.
Definition replLen : nat := (markerLen + 1 + digestHexLen)%nat.
Definition hexChars : list Z := lit "0123456789abcdef".

(** A byte below '0' wraps around to a large one. *)
Definition isDigitByte (b : Z) : bool := (b - 0x30) `mod` 2 ^ 8 <? 10.

(** The conjunction stops at the first byte that is no digit. *)
Fixpoint digits_from (n : nat) (payload : list Z) (i : nat) : option bool :=
  match n with
  | O => Some true
  | S k => match payload !! i with
           | Some b => if isDigitByte b then digits_from k payload (S i) else Some false
           | None => None
           end
  end.

Definition isDigitRun12 (payload : list Z) (i : nat) : option bool := digits_from 12 payload i.

Fixpoint find_run (rest : list Z) (i run : nat) : option nat :=
  match rest with
  | [] => None
  | b :: rest' =>
      if isDigitByte b then
        if (piiLen <=? S run)%nat then Some (i + 1 - piiLen)%nat else find_run rest' (S i) (S run)
      else find_run rest' (S i) 0
  end.

Definition findFirstPIIRun (payload : list Z) : option nat :=
  if (length payload <? piiLen)%nat then None else find_run payload 0 0.

(** [for i < end]: one turn per byte is enough. *)
Fixpoint count_masks (fuel : nat) (payload : list Z) (i end_ masks : nat) : option nat :=
  match fuel with
  | O => Some masks
  | S k =>
      if (i <? end_)%nat then
        match isDigitRun12 payload i with
        | Some true => count_masks k payload (i + piiLen) end_ (S masks)
        | Some false => count_masks k payload (S i) end_ masks
        | None => None
        end
      else Some masks
  end.

(** [copy(out[pos:], bs)] *)
Definition copy_at (out : list Z) (pos : nat) (bs : list Z) : list Z := list_inserts pos bs out.

(** What copy returns. *)
Definition copied (out : list Z) (pos : nat) (bs : list Z) : nat := Nat.min (length bs) (length out - pos).

Fixpoint hex16 (k : nat) (v : Z) : list Z :=
  match k with
  | O => []
  | S k' => default 0 (hexChars !! Z.to_nat (Z.land (Z.shiftr v (Z.of_nat k' * 4)) 0x0f)) :: hex16 k' v
  end.

(** Sixteen writes by index. *)
Definition writeHex16 (out : list Z) (pos : nat) (v : Z) : option (list Z) :=
  if (pos + digestHexLen <=? length out)%nat then Some (list_inserts pos (hex16 digestHexLen v) out) else None.

Section Mask.
Context `{XXHash}.

Fixpoint assemble (fuel : nat) (payload : list Z) (masks inPos outPos litStart masked : nat) (out : list Z) : option (list Z) :=
  let finish := if (litStart <? length payload)%nat then copy_at out outPos (drop litStart payload) else out in
  match fuel with
  | O => Some finish
  | S k =>
      if ((inPos <? length payload + 1 - piiLen) && (masked <? masks))%nat then
        match isDigitRun12 payload inPos with
        | Some true =>
            let '(out, outPos) :=
              if (litStart <? inPos)%nat then
                let literal := slice litStart (inPos - litStart) payload in (copy_at out outPos literal, outPos + copied out outPos literal)%nat
              else (out, outPos) in
            let '(out, outPos) := (copy_at out outPos redactionMarker, outPos + copied out outPos redactionMarker)%nat in
            if (outPos <? length out)%nat then
              let out := <[outPos := 95]> out in
              match writeHex16 out (S outPos) (Sum64String (slice inPos piiLen payload)) with
              | Some out =>
                  assemble k payload masks (inPos + piiLen) (S outPos + digestHexLen) (inPos + piiLen) (S masked) out
              | None => None
              end
            else None
        | Some false => assemble k payload masks (S inPos) outPos litStart masked out
        | None => None
        end
      else Some finish
  end.

Definition maskAssemble (payload out : list Z) (masks : nat) : option (list Z) :=
  assemble (length payload) payload masks 0 0 0 0 out.

Definition MaskPII (payload : list Z) : option (list Z) :=
  let n := length payload in
  if (n <? piiLen)%nat then Some payload
  else match findFirstPIIRun payload with
       | None => Some payload
       | Some firstStart =>
           match count_masks n payload firstStart (n - piiLen + 1) 0 with
           | Some masks => maskAssemble payload (replicate (n + masks * (replLen - piiLen)) 0) masks
           | None => None
           end
       end.
End Mask.

(** ** The specification *)

Definition run12 (l : list Z) : bool := (piiLen <=? length l)%nat && forallb isDigitByte (take piiLen l).

Fixpoint has_run (l : list Z) : bool :=
  match l with
  | [] => false
  | _ :: l' => run12 l || has_run l'
  end.

Fixpoint runs (skip : nat) (l : list Z) : nat :=
  match l with
  | [] => O
  | b :: l' =>
      match skip with
      | S k => runs k l'
      | O => if run12 l then S (runs (piiLen - 1) l') else runs 0 l'
      end
  end.

Section Spec.
Context `{XXHash}.

Definition redacted (run : list Z) : list Z := redactionMarker ++ [95] ++ hex16 digestHexLen (Sum64String run).

(** The leftmost run is replaced, then the leftmost one of what follows it; the
    bytes outside runs are kept. *)
Inductive masks_to : list Z → list Z → Prop :=
| masks_none l : has_run l = false → masks_to l l
| masks_run l run rest out :
    length run = piiLen → forallb isDigitByte run = true → has_run (l ++ take (piiLen - 1) run) = false →
    masks_to rest out → masks_to (l ++ run ++ rest) (l ++ redacted run ++ out).

(** The same as a function: whether a run starts here decides each step; [skip]
    bytes of a run are still to be passed over. *)
Fixpoint mask (skip : nat) (l : list Z) : list Z :=
  match l with
  | [] => []
  | b :: l' =>
      match skip with
      | S k => mask k l'
      | O => if run12 l then redacted (take piiLen l) ++ mask (piiLen - 1) l' else b :: mask 0 l'
      end
  end.
End Spec.

(** ** The scans *)

Lemma digits_from_spec n payload i :
  (i + n <= length payload)%nat → digits_from n payload i = Some (forallb isDigitByte (take n (drop i payload))).
Proof.
  revert i. induction n as [|n IH]; intros i Hi; cbn [digits_from]; [done|].
  destruct (lookup_lt_is_Some_2 payload i) as [b Eb]; [lia|]. rewrite Eb, (drop_S _ _ _ Eb). cbn [take forallb].
  destruct (isDigitByte b); [|done]. rewrite IH by lia. done.
Qed.

Lemma isDigitRun12_spec payload i :
  (i + piiLen <= length payload)%nat → isDigitRun12 payload i = Some (run12 (drop i payload)).
Proof.
  intros Hi. unfold isDigitRun12. change 12%nat with piiLen. rewrite digits_from_spec by done. unfold run12.
  rewrite length_drop. by rewrite (proj2 (Nat.leb_le _ _)) by lia.
Qed.

Lemma run12_short l : (length l < piiLen)%nat → run12 l = false.
Proof. intros Hl. unfold run12. by rewrite (proj2 (Nat.leb_gt _ _)). Qed.

Lemma run12_cut b ds rest : (length ds < piiLen)%nat → isDigitByte b = false → run12 (ds ++ b :: rest) = false.
Proof.
  intros Hl Hb. unfold run12. destruct (_ <=? _)%nat; [|done]. cbn [andb]. rewrite take_app_ge by lia.
  rewrite forallb_app. replace (piiLen - length ds)%nat with (S (piiLen - length ds - 1)) by lia. cbn [take forallb]. rewrite Hb.
  apply andb_false_r.
Qed.

Lemma has_run_false l : has_run l = false ↔ ∀ j, run12 (drop j l) = false.
Proof.
  induction l as [|b l IH]; cbn [has_run].
  - split; [|done]. intros _ j. by rewrite drop_nil.
  - rewrite orb_false_iff, IH. split.
    + intros [H1 H2] [|j]; [done|apply H2].
    + intros H. split; [apply (H O)|]. intros j. apply (H (S j)).
Qed.

(** The first position where a run starts. *)
Fixpoint first_run (l : list Z) (j : nat) : option nat :=
  match l with
  | [] => None
  | _ :: l' => if run12 l then Some j else first_run l' (S j)
  end.

Lemma first_run_skip ds b rest j :
  (length ds < piiLen)%nat → isDigitByte b = false → first_run (ds ++ b :: rest) j = first_run rest (j + length ds + 1).
Proof.
  revert j. induction ds as [|d ds IH]; intros j Hl Hb.
  - pose proof (run12_cut b [] rest Hl Hb) as E. cbn [app first_run] in *. rewrite E. f_equal. cbn. lia.
  - pose proof (run12_cut b (d :: ds) rest Hl Hb) as E. cbn [app first_run] in *. rewrite E, IH; [|cbn in Hl; lia|done].
    f_equal. cbn. lia.
Qed.

Lemma first_run_short l j : (length l < piiLen)%nat → first_run l j = None.
Proof.
  revert j. induction l as [|b l IH]; intros j Hl; [done|]. cbn [first_run]. rewrite run12_short by done.
  apply IH. cbn in Hl. lia.
Qed.

Lemma find_run_spec rest i ds :
  (length ds < piiLen)%nat → (length ds <= i)%nat → forallb isDigitByte ds = true →
  find_run rest i (length ds) = first_run (ds ++ rest) (i - length ds).
Proof.
  revert i ds. induction rest as [|b rest IH]; intros i ds Hl Hi Hd; cbn [find_run].
  { rewrite app_nil_r. by rewrite first_run_short. }
  destruct (isDigitByte b) eqn:Eb.
  - assert (forallb isDigitByte (ds ++ [b]) = true) as Hd' by (rewrite forallb_app; cbn; by rewrite Hd, Eb).
    assert (length (ds ++ [b]) = S (length ds)) as Hl' by (rewrite length_app; cbn; lia).
    replace (ds ++ b :: rest) with ((ds ++ [b]) ++ rest) by (by rewrite <- app_assoc).
    destruct (Nat.leb_spec piiLen (S (length ds))) as [Hge|Hlt].
    + assert (run12 ((ds ++ [b]) ++ rest) = true) as Er.
      { unfold run12. rewrite length_app, Hl'. rewrite (proj2 (Nat.leb_le _ _)) by lia. cbn [andb].
        rewrite take_app_le by lia. by rewrite firstn_all2 by lia. }
      destruct ((ds ++ [b]) ++ rest) as [|x l] eqn:El; [by destruct ds|]. cbn [first_run]. rewrite Er. f_equal. lia.
    + rewrite <- Hl', IH; [|lia|lia|done]. f_equal. lia.
  - rewrite first_run_skip by done. change O with (length (@nil Z)) at 1. rewrite IH; [|cbn; unfold piiLen; lia|cbn; lia|done].
    cbn [app length]. f_equal. lia.
Qed.

Lemma findFirst_spec payload : findFirstPIIRun payload = first_run payload 0.
Proof.
  unfold findFirstPIIRun. destruct (Nat.ltb_spec (length payload) piiLen); [by rewrite first_run_short|].
  apply (find_run_spec payload 0 []); [cbn; unfold piiLen; lia|done|done].
Qed.

Lemma first_run_None l j : first_run l j = None → has_run l = false.
Proof.
  revert j. induction l as [|b l IH]; intros j; cbn [first_run has_run]; [done|]. destruct (run12 (b :: l)); [done|]. apply IH.
Qed.

Lemma first_run_Some l j i : first_run l j = Some i →
  (j <= i)%nat ∧ run12 (drop (i - j) l) = true ∧ ∀ k, (k < i - j)%nat → run12 (drop k l) = false.
Proof.
  revert j. induction l as [|b l IH]; intros j; cbn [first_run]; [done|]. destruct (run12 (b :: l)) eqn:E.
  - intros [= <-]. rewrite Nat.sub_diag. split_and!; [done|done|lia].
  - intros Hf. destruct (IH (S j) Hf) as (Hle & Hr & Hk). split; [lia|]. replace (i - j)%nat with (S (i - S j)) by lia.
    split; [done|]. intros [|k] Hlt; [done|]. apply Hk. lia.
Qed.

(** ** The masked text *)

Section MaskThms.
Context `{XXHash}.

Lemma length_redacted run : length (redacted run) = replLen.
Proof. done. Qed.

Lemma run12_length l : run12 l = true → (piiLen <= length l)%nat.
Proof. unfold run12. intros [H1 _]%andb_prop. by apply Nat.leb_le. Qed.

Lemma mask_skip k l : mask k l = mask 0 (drop k l).
Proof. revert k. induction l as [|b l IH]; intros [|k]; try done. cbn [mask drop]. by rewrite IH. Qed.

Lemma runs_skip k l : runs k l = runs 0 (drop k l).
Proof. revert k. induction l as [|b l IH]; intros [|k]; try done. cbn [runs drop]. by rewrite IH. Qed.

(** A run at the front. *)
Lemma mask_front l : run12 l = true →
  mask 0 l = redacted (take piiLen l) ++ mask 0 (drop piiLen l) ∧ runs 0 l = S (runs 0 (drop piiLen l)).
Proof.
  intros Hr. pose proof (run12_length l Hr) as Hl. destruct l as [|b l]; [cbn in Hl; unfold piiLen in Hl; lia|].
  cbn [mask runs]. rewrite Hr, mask_skip, runs_skip. done.
Qed.

Lemma mask_step b l : run12 (b :: l) = false → mask 0 (b :: l) = b :: mask 0 l ∧ runs 0 (b :: l) = runs 0 l.
Proof. intros Hr. cbn [mask runs]. by rewrite Hr. Qed.

Lemma mask_clean l : has_run l = false → mask 0 l = l ∧ runs 0 l = O.
Proof.
  induction l as [|b l IH]; [done|]. cbn [has_run]. intros [H1 H2]%orb_false_elim. destruct (IH H2) as [E1 E2].
  destruct (mask_step b l H1) as [-> ->]. by rewrite E1.
Qed.

Lemma runs_clean l : runs 0 l = O → has_run l = false.
Proof.
  induction l as [|b l IH]; [done|]. cbn [has_run]. destruct (run12 (b :: l)) eqn:E.
  - destruct (mask_front _ E) as [_ ->]. done.
  - destruct (mask_step b l E) as [_ ->]. apply IH.
Qed.

(** Everything in front of the first run is kept. *)
Lemma mask_first l i : (i <= length l)%nat → (∀ k, (k < i)%nat → run12 (drop k l) = false) →
  mask 0 l = take i l ++ mask 0 (drop i l) ∧ runs 0 l = runs 0 (drop i l).
Proof.
  revert l. induction i as [|i IH]; intros l Hi Hk; [done|]. destruct l as [|b l]; [cbn in Hi; lia|].
  destruct (mask_step b l (Hk O ltac:(lia))) as [-> ->]. destruct (IH l) as [-> ->]; [cbn in Hi; lia| |done].
  intros k Hlt. apply (Hk (S k)). lia.
Qed.

Lemma length_mask l : length (mask 0 l) = (length l + runs 0 l * (replLen - piiLen))%nat.
Proof.
  remember (length l) as n eqn:En. revert l En. induction (lt_wf n) as [n _ IH]. intros l ->.
  destruct (run12 l) eqn:E.
  - pose proof (run12_length l E) as Hl. destruct (mask_front l E) as [-> ->].
    rewrite length_app, length_redacted, (IH (length (drop piiLen l))); [|rewrite length_drop; unfold piiLen in *; lia|done].
    rewrite length_drop. unfold replLen, piiLen, digestHexLen, markerLen in *. cbn [length redactionMarker]. lia.
  - destruct l as [|b l]; [done|]. destruct (mask_step b l E) as [-> ->]. cbn [length]. rewrite (IH (length l)) by (cbn; lia || done). lia.
Qed.

Lemma mask_masks l : masks_to l (mask 0 l).
Proof.
  remember (length l) as n eqn:En. revert l En. induction (lt_wf n) as [n _ IH]. intros l ->.
  destruct (first_run l 0) as [i|] eqn:Ef.
  - apply first_run_Some in Ef as (_ & Hr & Hk). rewrite Nat.sub_0_r in *. pose proof (run12_length _ Hr) as Hl. rewrite length_drop in Hl.
    destruct (mask_first l i) as [-> _]; [unfold piiLen in *; lia|done|]. destruct (mask_front _ Hr) as [-> _].
    assert (l = take i l ++ take piiLen (drop i l) ++ drop piiLen (drop i l)) as El by (by rewrite !take_drop).
    rewrite El at 1. apply masks_run.
    + rewrite length_take, length_drop. lia.
    + by apply andb_prop in Hr as [_ ?].
    + apply has_run_false. intros j. rewrite take_take, Nat.min_l by lia. destruct (decide (j < i)%nat) as [Hj|Hj].
      * specialize (Hk j Hj). replace (take i l ++ take (piiLen - 1) (drop i l)) with (take (i + (piiLen - 1)) l) by (by rewrite take_take_drop).
        unfold run12 in *. rewrite length_drop, length_take. rewrite length_drop in Hk.
        destruct (Nat.leb_spec piiLen (Nat.min (i + (piiLen - 1)) (length l) - j)); [|done]. cbn [andb].
        rewrite (proj2 (Nat.leb_le _ _)) in Hk by lia. cbn [andb] in Hk.
        rewrite <- Hk. f_equal. rewrite skipn_firstn_comm, take_take. f_equal. lia.
      * apply run12_short. rewrite length_drop, length_app, !length_take, length_drop. unfold piiLen in *. lia.
    + apply (IH (length (drop piiLen (drop i l)))); [|done]. rewrite !length_drop. unfold piiLen in *. lia.
  - apply first_run_None in Ef. destruct (mask_clean l Ef) as [-> _]. by constructor.
Qed.

Lemma short_clean l : (length l < piiLen)%nat → has_run l = false.
Proof. intros Hl. apply has_run_false. intros j. apply run12_short. rewrite length_drop. lia. Qed.

Lemma count_masks_spec fuel payload i masks :
  (piiLen <= length payload)%nat → (length payload - i <= fuel)%nat →
  count_masks fuel payload i (length payload - piiLen + 1) masks = Some (masks + runs 0 (drop i payload))%nat.
Proof.
  intros Hn. revert i masks. induction fuel as [|k IH]; intros i masks Hf; cbn [count_masks].
  { rewrite drop_ge by lia. cbn. by rewrite Nat.add_0_r. }
  destruct (Nat.ltb_spec i (length payload - piiLen + 1)) as [Hi|Hi].
  - rewrite isDigitRun12_spec by lia. destruct (run12 (drop i payload)) eqn:E.
    + rewrite IH by (unfold piiLen in *; lia). destruct (mask_front _ E) as [_ ->]. rewrite drop_drop. by rewrite Nat.add_succ_comm.
    + rewrite IH by lia. destruct (lookup_lt_is_Some_2 payload i) as [b Eb]; [unfold piiLen in *; lia|].
      rewrite (drop_S _ _ _ Eb) in *. by destruct (mask_step _ _ E) as [_ ->].
  - destruct (mask_clean (drop i payload)) as [_ ->]; [|by rewrite Nat.add_0_r]. apply short_clean. rewrite length_drop. unfold piiLen in *. lia.
Qed.

(** The buffer holds [pre] up to [pos]. *)
Definition filled (out : list Z) (pos : nat) (pre : list Z) : Prop := take pos out = pre ∧ (pos <= length out)%nat.

Lemma filled_copy out pos pre bs :
  filled out pos pre → (pos + length bs <= length out)%nat →
  filled (list_inserts pos bs out) (pos + length bs) (pre ++ bs).
Proof.
  intros [<- Hp] Hl. split; [|by rewrite length_inserts]. apply list_eq. intros j.
  destruct (decide (j < pos)%nat) as [Hj|Hj].
  - rewrite lookup_take_lt by lia. rewrite lookup_app_l by (rewrite length_take; lia). rewrite lookup_take_lt by done.
    by apply list_lookup_inserts_lt.
  - rewrite lookup_app_r by (rewrite length_take; lia). rewrite length_take, Nat.min_l by done.
    destruct (decide (j < pos + length bs)%nat) as [Hj2|Hj2].
    + rewrite lookup_take_lt by done. by apply list_lookup_inserts; lia.
    + rewrite lookup_take_ge by lia. symmetry. apply lookup_ge_None. lia.
Qed.

Lemma slice_then_drop litStart inPos (l : list Z) :
  (litStart <= inPos)%nat → slice litStart (inPos - litStart) l ++ drop inPos l = drop litStart l.
Proof.
  intros Hle. unfold slice. replace inPos with (litStart + (inPos - litStart))%nat at 2 by lia. rewrite <- drop_drop. apply take_drop.
Qed.

Lemma finish_spec payload out outPos litStart inPos pre :
  (litStart <= inPos <= length payload)%nat → filled out outPos pre →
  length out = (outPos + (inPos - litStart) + length (drop inPos payload))%nat →
  (if (litStart <? length payload)%nat then copy_at out outPos (drop litStart payload) else out) =
  pre ++ slice litStart (inPos - litStart) payload ++ drop inPos payload.
Proof.
  intros Hp Hf Hl. rewrite slice_then_drop by lia. rewrite length_drop in Hl. destruct (Nat.ltb_spec litStart (length payload)) as [Hlt|Hge].
  - destruct (filled_copy out outPos pre (drop litStart payload) Hf) as [E _]; [rewrite length_drop; lia|]. unfold copy_at.
    rewrite <- E. rewrite firstn_all2; [done|]. rewrite length_inserts, length_drop. lia.
  - rewrite (drop_ge payload) by lia. destruct Hf as [<- _]. rewrite app_nil_r. by rewrite firstn_all2 by lia.
Qed.

Lemma copied_all out pos bs : (pos + length bs <= length out)%nat → copied out pos bs = length bs.
Proof. unfold copied. lia. Qed.

Lemma length_slice_in a n (l : list Z) : (a + n <= length l)%nat → length (slice a n l) = n.
Proof. intros Hl. unfold slice. rewrite length_take, length_drop. lia. Qed.

(** The writes of one replacement. *)
Lemma redact_writes out p pre run :
  filled out p pre → (p + replLen <= length out)%nat →
  ∃ out', (p + length redactionMarker <? length (copy_at out p redactionMarker))%nat = true ∧
    writeHex16 (<[(p + length redactionMarker)%nat := 95]> (copy_at out p redactionMarker)) (S (p + length redactionMarker)) (Sum64String run) = Some out' ∧
    filled out' (p + replLen) (pre ++ redacted run) ∧ length out' = length out.
Proof.
  intros Hf Hl. unfold replLen, markerLen, digestHexLen in Hl. set (m := redactionMarker) in *.
  pose proof (filled_copy out p pre m Hf ltac:(lia)) as Hf1. fold (copy_at out p m) in Hf1.
  assert (length (copy_at out p m) = length out) as L1 by apply length_inserts.
  set (out1 := copy_at out p m) in *.
  pose proof (filled_copy out1 _ _ [95] Hf1 ltac:(cbn [length]; lia)) as Hf2.
  change (list_inserts (p + length m) [95] out1) with (<[(p + length m)%nat := 95]> out1) in Hf2.
  set (out2 := <[(p + length m)%nat := 95]> out1) in *. assert (length out2 = length out) as L2 by (unfold out2; by rewrite length_insert).
  replace (p + length m + length [95%Z])%nat with (S (p + length m)) in Hf2 by (cbn; lia).
  assert (length (hex16 digestHexLen (Sum64String run)) = 16%nat) as Lh by done.
  pose proof (filled_copy out2 _ _ (hex16 digestHexLen (Sum64String run)) Hf2 ltac:(rewrite Lh, L2; lia)) as Hf3.
  eexists. split_and!; [apply Nat.ltb_lt; lia| | |].
  - unfold writeHex16. rewrite (proj2 (Nat.leb_le _ _)) by (unfold digestHexLen; lia). reflexivity.
  - unfold redacted. fold m. rewrite !app_assoc.
    replace (p + replLen)%nat with (S (p + length m) + length (hex16 digestHexLen (Sum64String run)))%nat; [done|].
    rewrite Lh. unfold replLen, markerLen, digestHexLen. fold m. lia.
  - by rewrite length_inserts.
Qed.

Lemma assemble_spec fuel payload masks inPos outPos litStart masked out pre :
  (litStart <= inPos <= length payload)%nat → (length payload - inPos <= fuel)%nat → (piiLen <= length payload)%nat →
  (masked + runs 0 (drop inPos payload) = masks)%nat → filled out outPos pre →
  length out = (outPos + (inPos - litStart) + length (mask 0 (drop inPos payload)))%nat →
  assemble fuel payload masks inPos outPos litStart masked out =
  Some (pre ++ slice litStart (inPos - litStart) payload ++ mask 0 (drop inPos payload)).
Proof.
  intros Hp Hfu Hn. revert inPos outPos litStart masked out pre Hp Hfu.
  induction fuel as [|k IH]; intros inPos outPos litStart masked out pre Hp Hfu Hm Hf Hl; cbn [assemble].
  { f_equal. rewrite (drop_ge payload inPos) in * by lia. rewrite (finish_spec payload out outPos litStart inPos pre); [|done|done|by rewrite (drop_ge payload inPos) by lia].
    by rewrite (drop_ge payload inPos) by lia. }
  destruct (Nat.ltb_spec inPos (length payload + 1 - piiLen)) as [Hi|Hi]; cbn [andb].
  2:{ f_equal. destruct (mask_clean (drop inPos payload)) as [E _]; [apply short_clean; rewrite length_drop; unfold piiLen in *; lia|].
      rewrite E in *. by apply finish_spec. }
  destruct (Nat.ltb_spec masked masks) as [Hma|Hma].
  2:{ f_equal. destruct (mask_clean (drop inPos payload)) as [E _]; [apply runs_clean; lia|]. rewrite E in *. by apply finish_spec. }
  rewrite isDigitRun12_spec by lia. destruct (run12 (drop inPos payload)) eqn:Er.
  - destruct (mask_front _ Er) as [Em Ern]. rewrite Em, Ern, drop_drop, length_app, length_redacted in *.
    set (literal := slice litStart (inPos - litStart) payload).
    assert (length literal = inPos - litStart)%nat as Hlit by (apply length_slice_in; lia).
    rewrite (copied_all out outPos literal) by lia.
    assert (filled (copy_at out outPos literal) (outPos + length literal) (pre ++ literal)) as Hf1 by (apply filled_copy; [done|lia]).
    assert ((if (litStart <? inPos)%nat then (copy_at out outPos literal, (outPos + length literal)%nat) else (out, outPos)) =
            (copy_at out outPos literal, (outPos + length literal)%nat)) as ->.
    { destruct (Nat.ltb_spec litStart inPos); [done|]. destruct literal; [|cbn in Hlit; lia]. cbn. f_equal. lia. }
    set (out1 := copy_at out outPos literal) in *. assert (length out1 = length out) as L1 by (apply length_inserts).
    set (p1 := (outPos + length literal)%nat) in *. unfold replLen, markerLen, digestHexLen in Hl. cbn [length redactionMarker] in Hl.
    rewrite (copied_all out1 p1 redactionMarker) by (cbn [length redactionMarker]; lia).
    destruct (redact_writes out1 p1 (pre ++ literal) (slice inPos piiLen payload) Hf1) as (out2 & -> & -> & Hf2 & L2);
      [unfold replLen, markerLen, digestHexLen; cbn [length redactionMarker]; lia|].
    change (length redactionMarker) with markerLen.
    rewrite (IH _ _ _ _ _ ((pre ++ literal) ++ redacted (slice inPos piiLen payload))); [|lia|unfold piiLen in *; lia|..].
    + rewrite Nat.sub_diag. unfold slice at 2. cbn [take app]. by rewrite <- !app_assoc.
    + lia.
    + replace (S (p1 + markerLen) + digestHexLen)%nat with (p1 + replLen)%nat; [done|]. unfold replLen. lia.
    + rewrite L2, L1, Hl. unfold p1. rewrite Hlit. unfold replLen, markerLen, digestHexLen. cbn [length redactionMarker]. lia.
  - destruct (lookup_lt_is_Some_2 payload inPos) as [b Eb]; [unfold piiLen in *; lia|].
    rewrite (drop_S _ _ _ Eb) in *. destruct (mask_step _ _ Er) as [Em Ern]. rewrite Em, Ern in *. cbn [length] in Hl.
    rewrite (IH _ _ _ _ _ pre); [|unfold piiLen in *; lia|lia|done|done|lia]. f_equal. f_equal.
    replace (S inPos - litStart)%nat with (S (inPos - litStart)) by lia. unfold slice.
    rewrite (take_S_r _ _ b), <- app_assoc; [done|]. rewrite lookup_drop. by replace (litStart + (inPos - litStart))%nat with inPos by lia.
Qed.

Lemma MaskPII_spec payload : MaskPII payload = Some (mask 0 payload).
Proof.
  unfold MaskPII. destruct (Nat.ltb_spec (length payload) piiLen) as [Hs|Hn].
  { f_equal. symmetry. by apply mask_clean, short_clean. }
  rewrite findFirst_spec. destruct (first_run payload 0) as [i|] eqn:Ef.
  - apply first_run_Some in Ef as (_ & Hr & Hk). rewrite Nat.sub_0_r in *. pose proof (run12_length _ Hr) as Hl. rewrite length_drop in Hl.
    destruct (mask_first payload i) as [_ Er]; [unfold piiLen in *; lia|done|].
    rewrite count_masks_spec by lia. rewrite <- Er. unfold maskAssemble. cbn [Nat.add].
    rewrite (assemble_spec _ _ _ _ _ _ _ _ []); [done|lia|lia|done|done|split; [done|lia]|].
    rewrite length_replicate, drop_0, length_mask. lia.
  - apply first_run_None in Ef. f_equal. symmetry. by apply mask_clean.
Qed.

(** C31.  MaskPII never panics, and its result is the payload with the leftmost
    12-digit run replaced by the marker and the run's digest, then the leftmost run
    of what follows, and so on: the two scans agree on the number of runs, the
    buffer allocated from it is filled to its last byte, and a payload without a
    run comes back as it is. *)
Theorem mask_pii_exact (payload : list Z) :
  ∃ out, MaskPII payload = Some out ∧ masks_to payload out ∧ (has_run payload = false ↔ out = payload).
Proof.
  exists (mask 0 payload). split; [apply MaskPII_spec|]. split; [apply mask_masks|]. split.
  - intros Hc. by apply mask_clean.
  - intros E. apply runs_clean. pose proof (length_mask payload) as Hl. rewrite E in Hl.
    unfold replLen, markerLen, digestHexLen, piiLen in Hl. cbn [length redactionMarker] in Hl. lia.
Qed.
End MaskThms.

Example mask_example :
  MaskPII (H := {| Sum64String := λ _, 255 |}) (lit "id 1234567890123!") = Some (lit "id PII_REDACTED_00000000000000ff3!").
Proof. by vm_compute. Qed.
