(* ===== verification/Tombstones.v ===== *)
(** The tombstone collector (internal/database/compactor.go): deletion markers
    are kept until every registered peer is past their epoch by the lag. *)
From S2P Require Import Prelude Bytes LsmPrune.

Definition DefaultStabilityLag : Z := 2.

Record TombstoneRecord := mkTomb {
  tr_EntityID : list Z;
  tr_Epoch : Z;
  tr_NodeID : list Z;
  tr_Counter : Z;
  tr_Timestamp : Z;
}.

Record EpochCompactor := mkEC {
  currentEpoch : Z;
  stabilityLag : Z;
  peerEpochs : gmap (list Z) Z;
  tombstones : list TombstoneRecord;
  totalPruned : Z;
  totalInserted : Z;
  lastPruneTime : Z;
}.

Definition NewEpochCompactor (lag : Z) : EpochCompactor :=
  mkEC 0 (if lag =? 0 then DefaultStabilityLag else lag) ∅ [] 0 0 0.

Definition CurrentEpoch (c : EpochCompactor) : Z := currentEpoch c.

Definition BumpEpoch (c : EpochCompactor) : Z * EpochCompactor :=
  let e := u64 (currentEpoch c + 1) in
  (e, mkEC e (stabilityLag c) (peerEpochs c) (tombstones c) (totalPruned c) (totalInserted c) (lastPruneTime c)).

Definition AdvancePeerEpoch (nodeID : list Z) (epoch : Z) (c : EpochCompactor) : EpochCompactor :=
  let advance := match peerEpochs c !! nodeID with Some current => current <? epoch | None => true end in
  mkEC (currentEpoch c) (stabilityLag c) (if advance then <[nodeID := epoch]> (peerEpochs c) else peerEpochs c) (tombstones c)
       (totalPruned c) (totalInserted c) (lastPruneTime c).

(** The loop over the map keeps the least epoch seen. *)
Definition StableEpoch (c : EpochCompactor) : Z :=
  if decide (peerEpochs c = ∅) then 0
  else map_fold (λ _ e minEpoch, if e <? minEpoch then e else minEpoch) (2 ^ 64 - 1) (peerEpochs c).

Definition InsertTombstone (entityID nodeID : list Z) (counter now : Z) (c : EpochCompactor) : EpochCompactor :=
  mkEC (currentEpoch c) (stabilityLag c) (peerEpochs c)
       (tombstones c ++ [mkTomb entityID (currentEpoch c) nodeID counter now])
       (totalPruned c) (u64 (totalInserted c + 1)) (lastPruneTime c).

(** The in-place filter over the array: the records that stay move down to
    [writeIdx], the others' ids are collected. *)
Fixpoint prune_loop (todo readIdx writeIdx : nat) (threshold : Z) (ts : list TombstoneRecord) (pruned : gset (list Z))
    : nat * list TombstoneRecord * gset (list Z) :=
  match todo with
  | O => (writeIdx, ts, pruned)
  | S k =>
      match ts !! readIdx with
      | Some t =>
          if threshold <? tr_Epoch t then
            prune_loop k (S readIdx) (S writeIdx) threshold (if (writeIdx =? readIdx)%nat then ts else <[writeIdx := t]> ts) pruned
          else prune_loop k (S readIdx) writeIdx threshold ts ({[tr_EntityID t]} ∪ pruned)
      | None => (writeIdx, ts, pruned)
      end
  end.

(** The ids of the records dropped, the number that stay, the new state. *)
Definition PruneTombstones (now : Z) (c : EpochCompactor) : gset (list Z) * nat * EpochCompactor :=
  let stableEpoch := StableEpoch c in
  if stableEpoch <? stabilityLag c then (∅, length (tombstones c), c)
  else
    let threshold := stableEpoch - stabilityLag c in
    let '(writeIdx, ts, pruned) := prune_loop (length (tombstones c)) 0 0 threshold (tombstones c) ∅ in
    let prunedCount := Z.of_nat (length (tombstones c) - writeIdx) in
    (pruned, writeIdx,
     mkEC (currentEpoch c) (stabilityLag c) (peerEpochs c) (take writeIdx ts)
          (if 0 <? prunedCount then u64 (totalPruned c + prunedCount) else totalPruned c) (totalInserted c)
          (if 0 <? prunedCount then now else lastPruneTime c)).

Definition TombstoneCount (c : EpochCompactor) : nat := length (tombstones c).

(** ** What is pruned *)

Lemma stable_least (m : gmap (list Z) Z) init :
  let r := map_fold (λ _ e minEpoch, if e <? minEpoch then e else minEpoch) init m in
  r <= init ∧ map_Forall (λ _ e, r <= e) m ∧ (r = init ∨ ∃ k, m !! k = Some r).
Proof.
  cbn zeta. eapply (map_fold_weak_ind (λ r m, r <= init ∧ map_Forall (λ _ e, r <= e) m ∧ (r = init ∨ ∃ k, m !! k = Some r))).
  - split_and!; [lia|apply map_Forall_empty|by left].
  - intros k e m' r Hk (H1 & H2 & H3). destruct (Z.ltb_spec e r) as [He|He].
    + split_and!; [lia| |right; exists k; apply lookup_insert_eq]. apply map_Forall_insert; [done|]. split; [lia|].
      eapply map_Forall_impl; [exact H2|]. cbn. lia.
    + split_and!; [done|by apply map_Forall_insert|]. destruct H3 as [?|[k' E]]; [by left|]. right. exists k'.
      rewrite lookup_insert_ne; [done|]. congruence.
Qed.

(** Every registered peer, and there is one, is past the marker's epoch by the
    lag. *)
Definition cleared (c : EpochCompactor) (t : TombstoneRecord) : Prop :=
  peerEpochs c ≠ ∅ ∧ map_Forall (λ _ e, tr_Epoch t + stabilityLag c <= e) (peerEpochs c).

#[global] Instance cleared_dec c t : Decision (cleared c t).
Proof. unfold cleared. apply _. Defined.

Record ec_inv (c : EpochCompactor) : Prop := {
  ec_lag : 0 < stabilityLag c;
  ec_peers : map_Forall (λ _ e, 0 <= e < 2 ^ 64) (peerEpochs c);
  ec_epochs : Forall (λ t, 0 <= tr_Epoch t) (tombstones c);
  ec_current : 0 <= currentEpoch c;
}.

Lemma cleared_threshold c t : ec_inv c → 0 <= tr_Epoch t →
  cleared c t ↔ ¬ StableEpoch c < stabilityLag c ∧ ¬ StableEpoch c - stabilityLag c < tr_Epoch t.
Proof.
  intros [Hlag Hp _ _] Ht. unfold cleared, StableEpoch. destruct (decide (peerEpochs c = ∅)) as [E|E].
  { split; [by intros [? _]|]. lia. }
  destruct (stable_least (peerEpochs c) (2 ^ 64 - 1)) as (H1 & H2 & H3). set (r := map_fold _ _ _) in *. split.
  - intros [_ Hf]. assert (tr_Epoch t + stabilityLag c <= r); [|lia]. destruct H3 as [->|[k Ek]]; [|exact (Hf k r Ek)].
    apply map_choose in E as (k & e & Ek). specialize (Hf k e Ek). specialize (Hp k e Ek). cbn in Hf, Hp. lia.
  - intros [Ha Hb]. split; [done|]. eapply map_Forall_impl; [exact H2|]. cbn. lia.
Qed.

(** The loop is a filter: what stays is compacted to the front. *)
Lemma prune_loop_spec threshold (done_ kept junk todo : list TombstoneRecord) pruned :
  length (kept ++ junk) = length done_ →
  ∃ ts, prune_loop (length todo) (length done_) (length kept) threshold (kept ++ junk ++ todo) pruned =
          (length (kept ++ filter (λ t, threshold < tr_Epoch t) todo), ts,
           list_to_set (tr_EntityID <$> filter (λ t, ¬ threshold < tr_Epoch t) todo) ∪ pruned) ∧
        take (length (kept ++ filter (λ t, threshold < tr_Epoch t) todo)) ts = kept ++ filter (λ t, threshold < tr_Epoch t) todo.
Proof.
  revert done_ kept junk pruned. induction todo as [|t todo IH]; intros done_ kept junk pruned Hl; cbn [length prune_loop].
  { eexists. rewrite !filter_nil, !app_nil_r. cbn. split; [f_equal; set_solver|]. apply take_app_length. }
  assert ((kept ++ junk ++ t :: todo) !! length done_ = Some t) as ->.
  { rewrite app_assoc, <- Hl. by apply list_lookup_middle. }
  rewrite !filter_cons. destruct (Z.ltb_spec threshold (tr_Epoch t)) as [Hlt|Hge].
  - rewrite decide_True by done. rewrite (decide_False (P := ¬ threshold < tr_Epoch t)) by tauto.
    assert (∃ junk', (if (length kept =? length done_)%nat then kept ++ junk ++ t :: todo else <[length kept := t]> (kept ++ junk ++ t :: todo)) =
              (kept ++ [t]) ++ junk' ++ todo ∧ length ((kept ++ [t]) ++ junk') = length (done_ ++ [t])) as (junk' & -> & Hl').
    { rewrite !length_app in *. cbn [length]. destruct (Nat.eqb_spec (length kept) (length done_)) as [E|E].
      - exists []. assert (junk = []) as -> by (apply nil_length_inv; lia). rewrite <- app_assoc. split; [done|]. rewrite !length_app. cbn. lia.
      - destruct junk as [|j junk]; [cbn in Hl; lia|]. exists (junk ++ [t]). rewrite insert_app_r_alt, Nat.sub_diag by lia. cbn.
        rewrite <- !app_assoc. cbn. split; [done|]. rewrite !length_app. cbn in *. rewrite length_app. cbn. lia. }
    destruct (IH (done_ ++ [t]) (kept ++ [t]) junk' pruned Hl') as (ts & E & Et). exists ts.
    rewrite !last_length in E. rewrite <- (app_assoc kept [t] (filter _ _)) in E, Et. cbn [app] in E, Et. by split.
  - rewrite decide_False by lia. rewrite (decide_True (P := ¬ threshold < tr_Epoch t)) by lia.
    destruct (IH (done_ ++ [t]) kept (junk ++ [t]) ({[tr_EntityID t]} ∪ pruned)) as (ts & E & Et).
    { rewrite !length_app in *. cbn. lia. }
    exists ts. rewrite last_length in E. rewrite <- app_assoc in E. cbn [app] in E. rewrite E.
    split; [|done]. f_equal. rewrite fmap_cons. cbn [list_to_set]. set_solver.
Qed.

(** ** The operations keep the invariant *)

Inductive ec_op :=
| OpBump
| OpAdvance (nodeID : list Z) (epoch : Z)
| OpInsert (entityID nodeID : list Z) (counter now : Z)
| OpPrune (now : Z).

Definition ec_run (op : ec_op) (c : EpochCompactor) : EpochCompactor :=
  match op with
  | OpBump => (BumpEpoch c).2
  | OpAdvance n e => AdvancePeerEpoch n e c
  | OpInsert id n k t => InsertTombstone id n k t c
  | OpPrune t => (PruneTombstones t c).2
  end.

Definition op_typed (op : ec_op) : Prop := match op with OpAdvance _ e => 0 <= e < 2 ^ 64 | _ => True end.

Lemma gc_prune_filter now c : ec_inv c →
  PruneTombstones now c =
  (list_to_set (tr_EntityID <$> filter (cleared c) (tombstones c)), length (filter (λ t, ¬ cleared c t) (tombstones c)),
   (PruneTombstones now c).2) ∧
  tombstones (PruneTombstones now c).2 = filter (λ t, ¬ cleared c t) (tombstones c) ∧
  peerEpochs (PruneTombstones now c).2 = peerEpochs c ∧ stabilityLag (PruneTombstones now c).2 = stabilityLag c ∧
  currentEpoch (PruneTombstones now c).2 = currentEpoch c.
Proof.
  intros Hinv. unfold PruneTombstones. destruct (Z.ltb_spec (StableEpoch c) (stabilityLag c)) as [Hs|Hs].
  - assert (Forall (λ t, ¬ cleared c t) (tombstones c)) as Hn.
    { eapply Forall_impl; [apply (ec_epochs _ Hinv)|]. cbn. intros t Ht. rewrite cleared_threshold by done. tauto. }
    assert (filter (λ t, ¬ cleared c t) (tombstones c) = tombstones c) as ->.
    { clear -Hn. induction Hn; [done|]. rewrite filter_cons, decide_True by done. by f_equal. }
    assert (filter (cleared c) (tombstones c) = []) as ->.
    { clear -Hn. induction Hn; [done|]. by rewrite filter_cons, decide_False by done. }
    done.
  - assert (∀ l, Forall (λ t, 0 <= tr_Epoch t) l →
      filter (λ t, StableEpoch c - stabilityLag c < tr_Epoch t) l = filter (λ t, ¬ cleared c t) l ∧
      filter (λ t, ¬ StableEpoch c - stabilityLag c < tr_Epoch t) l = filter (cleared c) l) as Hfil.
    { intros l Hl. rewrite Forall_forall in Hl. split; apply filter_ext_elem; intros t Ht; rewrite (cleared_threshold c t Hinv (Hl t Ht)); lia. }
    destruct (Hfil _ (ec_epochs _ Hinv)) as [F1 F2].
    destruct (prune_loop_spec (StableEpoch c - stabilityLag c) [] [] [] (tombstones c) ∅ eq_refl) as (ts & E & Et).
    cbn [length app] in E, Et. rewrite F1, ?F2 in E, Et. rewrite E. cbn [fst snd tombstones peerEpochs stabilityLag currentEpoch].
    rewrite Et. split_and!; [|done..]. rewrite (right_id_L ∅ (∪)). do 4 f_equal. apply filter_ext_elem. intros t Ht. pose proof (ec_epochs _ Hinv) as He. rewrite Forall_forall in He. rewrite (cleared_threshold c t Hinv (He t Ht)). lia.
Qed.

Lemma ec_run_inv op c : op_typed op → ec_inv c → ec_inv (ec_run op c).
Proof.
  intros Ht Hinv. pose proof Hinv as [Hlag Hp He Hc]. destruct op as [|n e|id n k now|now]; cbn [ec_run].
  - split; try done. cbn. unfold u64. apply Z.mod_pos_bound. lia.
  - split; try done. unfold AdvancePeerEpoch. cbn [peerEpochs].
    destruct (match peerEpochs c !! n with Some current => current <? e | None => true end); [by apply map_Forall_insert_2|done].
  - split; try done. cbn. apply Forall_app. split; [done|]. by constructor.
  - destruct (gc_prune_filter now c Hinv) as (_ & E1 & E2 & E3 & E4). split; rewrite ?E1, ?E2, ?E3, ?E4; try done.
    rewrite Forall_forall in *. intros t [_ H]%list_elem_of_filter. by apply He.
Qed.

(** After any operations, a prune drops exactly the markers whose epoch every
    registered peer has passed by the lag, none when no peer is registered, keeps
    the others in their order, and returns the dropped ids and the number kept. *)
Theorem prune_drops_cleared (lag now : Z) (ops : list ec_op) :
  0 <= lag → Forall op_typed ops →
  let c := foldl (λ c op, ec_run op c) (NewEpochCompactor lag) ops in
  let '(pruned, remaining, c') := PruneTombstones now c in
  tombstones c' = filter (λ t, ¬ cleared c t) (tombstones c) ∧ remaining = TombstoneCount c' ∧
  pruned = list_to_set (tr_EntityID <$> filter (cleared c) (tombstones c)).
Proof.
  intros Hlag Hops c. assert (ec_inv c) as Hinv.
  { subst c. assert (ec_inv (NewEpochCompactor lag)) as H0.
    { split; cbn; [|apply map_Forall_empty|constructor|lia]. unfold DefaultStabilityLag. destruct (Z.eqb_spec lag 0); lia. }
    revert H0. generalize (NewEpochCompactor lag). induction Hops as [|op ops Hop _ IH]; intros c Hc; cbn [foldl]; [done|].
    by apply IH, ec_run_inv. }
  destruct (gc_prune_filter now c Hinv) as (E & E1 & _). unfold TombstoneCount. rewrite E. rewrite E1. done.
Qed.

Lemma prune_drops_cleared_witness :
  let c := foldl (λ c op, ec_run op c) (NewEpochCompactor 0) [OpInsert [1] [] 1 0; OpBump; OpInsert [2] [] 2 0; OpAdvance [7] 2; OpAdvance [8] 5] in
  let '(pruned, remaining, c') := PruneTombstones 9 c in
  tombstones c' = filter (λ t, ¬ cleared c t) (tombstones c) ∧ remaining = TombstoneCount c' ∧
  pruned = list_to_set (tr_EntityID <$> filter (cleared c) (tombstones c)).
Proof. apply (prune_drops_cleared 0 9); [lia|]. repeat constructor; cbn; lia. Defined.
