(* ===== verification/MemTable.v ===== *)
(** The write side of the query tier (internal/database): MemTable.Write, the
    asynchronous and the synchronous flush of memtable.go, and the partitioned
    Arrow files of l0_flusher.go; and the checkpoint's delta flush through them
    (pkg/durability: NewSnapshotMemTable, queryTierEvent,
    stageAndFlushQueryTierDelta).

    The calls run one at a time, and a background flush runs as one step. *)
From S2P Require Import Prelude Bytes Sha256 Dots LsmKeys Resolver L1Compactor SkipList Pii.
From S2P Require Import Tombstones.

(** ** UTF-8, as unicode/utf8 defines it *)

Definition cont (lo hi b : Z) : bool := (lo <=? b) && (b <=? hi).

Fixpoint ValidString (s : list Z) : bool :=
  match s with
  | [] => true
  | b :: s1 =>
      if b <? 0x80 then ValidString s1
      else if cont 0xC2 0xDF b then
        match s1 with b1 :: s2 => cont 0x80 0xBF b1 && ValidString s2 | _ => false end
      else if cont 0xE0 0xEF b then
        match s1 with
        | b1 :: b2 :: s3 =>
            cont (if b =? 0xE0 then 0xA0 else 0x80) (if b =? 0xED then 0x9F else 0xBF) b1 && cont 0x80 0xBF b2 && ValidString s3
        | _ => false
        end
      else if cont 0xF0 0xF4 b then
        match s1 with
        | b1 :: b2 :: b3 :: s4 =>
            cont (if b =? 0xF0 then 0x90 else 0x80) (if b =? 0xF4 then 0x8F else 0xBF) b1 && cont 0x80 0xBF b2 && cont 0x80 0xBF b3 &&
            ValidString s4
        | _ => false
        end
      else false
  end.

(** ** The entry of an event *)

Definition event_key (ev : TriTemporalEvent) : list Z :=
  take 16 (Sum256 (te_EntityID ev)) ++ be_put 8 (u64 (te_SystemTime ev)) ++ be_put 8 (u64 (te_ValidTimeStart ev)) ++
  be_put 8 (u64 (te_AssertionTime ev)).

Definition event_value (ev : TriTemporalEvent) (sanitized : list Z) : list Z :=
  le_put 2 (Z.of_nat (length (te_EntityID ev))) ++ te_EntityID ev ++ le_put 8 (te_H3Index ev) ++ le_put 8 (u64 (te_ValidTimeEnd ev)) ++
  te_PayloadDigest ev ++ le_put 4 (u32 (Z.of_nat (length sanitized))) ++ sanitized.

(** The size of an entry with its node. *)
Definition totalEventSize (ev : TriTemporalEvent) (sanitized : list Z) : Z :=
  keySize + (2 + Z.of_nat (length (te_EntityID ev)) + 8 + 8 + 32 + 4 + Z.of_nat (length sanitized)) + nodeSize.

(** [bs[off : off+n]]; a slice that leaves the value panics. *)
Definition sub (off n : Z) (bs : list Z) : option (list Z) :=
  if Z.of_nat (length bs) <? off + n then None else Some (slice (Z.to_nat off) (Z.to_nat n) bs).

Definition entry_id (val : list Z) : option (list Z) :=
  hdr ← sub 0 2 val;
  sub 2 (le_get hdr) val.

(** The columns FlushArenaToIPC appends for an entry. *)
Definition entry_row (key val : list Z) : option Row :=
  hdr ← sub 0 2 val;
  let entityIDLen := le_get hdr in
  entityIDBytes ← sub 2 entityIDLen val;
  let off := 2 + entityIDLen in
  h3 ← sub off 8 val;
  vend ← sub (off + 8) 8 val;
  digest ← sub (off + 16) 32 val;
  plen ← sub (off + 48) 4 val;
  body ← sub (off + 52) (le_get plen) val;
  hash ← sub 0 16 key;
  sysT ← sub 16 8 key;
  vstart ← sub 24 8 key;
  assertT ← sub 32 8 key;
  Some (mkRow hash (i64 (be_get sysT)) (i64 (be_get vstart)) (i64 (le_get vend)) (i64 (be_get assertT)) (le_get h3) digest entityIDBytes body).

(** ** FlushArenaToIPC *)

Record L0Partition := mkPartition {
  EntityHash : list Z;
  FirstSysTimeNs : Z;
  Buf : list Z;
}.

Inductive FlushError := ErrArrowWrite | ErrEmit.

Section Flusher.
Context `{ArrowIPC} {St : Type}.

(** [emit]: the callback, which returns whether it succeeded; [arrow_ok]: whether
    the Arrow writer takes a record.  A panic is [None]. *)
Context (emit : L0Partition → St → St * bool) (arrow_ok : list Row → bool).

Definition open_partition : Type := list Z * Z * list Row.

Definition finalize (cur : option open_partition) (st : St) : St * option FlushError :=
  match cur with
  | None => (st, None)
  | Some (hash, first, rows) =>
      if arrow_ok rows then
        match emit (mkPartition hash first (ipc_write rows)) st with
        | (st, true) => (st, None)
        | (st, false) => (st, Some ErrEmit)
        end
      else (st, Some ErrArrowWrite)
  end.

Fixpoint flush_entries (pruned : gset (list Z)) (es : list (list Z * list Z)) (cur : option open_partition) (st : St)
    : option (St * option FlushError) :=
  match es with
  | [] => Some (finalize cur st)
  | (key, val) :: es' =>
      id ← entry_id val;
      if decide (id ∈ pruned) then flush_entries pruned es' cur st
      else
        r ← entry_row key val;
        match cur with
        | None => flush_entries pruned es' (Some (entity_id_hash r, system_time r, [r])) st
        | Some (hash, first, rows) =>
            if decide (hash = entity_id_hash r) then flush_entries pruned es' (Some (hash, first, rows ++ [r])) st
            else match finalize cur st with
                 | (st, Some e) => Some (st, Some e)
                 | (st, None) => flush_entries pruned es' (Some (entity_id_hash r, system_time r, [r])) st
                 end
        end
  end.

(** [pruned]: what PruneTombstones of the compactor returned, empty without one. *)
Definition FlushArenaToIPC (pruned : gset (list Z)) (sl : SkipListArena) (st : St) : option (St * option FlushError) :=
  if nodeCount sl =? 0 then Some (st, None) else flush_entries pruned (entries sl) None st.
End Flusher.

Definition partition_key (p : L0Partition) : list Z := l0KeyFor (take 8 (EntityHash p)) (FirstSysTimeNs p).

Definition UploadPartition (o : UploadOutcome) (p : L0Partition) (s : Store) : Store * bool := do_upload o (partition_key p) (Buf p) s.

(** ** MemTable *)

Definition DefaultMaxInflightFlushes : nat := 4.

(** [mt_frozen]: the arenas whose background flush has not ended, with the number
    of the flush; [mt_fallbackDir]: whether there is a fallback directory. *)
Record MemTable := mkMT {
  mt_skipList : SkipListArena;
  mt_arenaSize : Z;
  mt_maxEntries : Z;
  mt_fallbackDir : bool;
  mt_frozen : list (Z * SkipListArena);
  mt_flushCount : Z;
  mt_flushErrors : Z;
  mt_closed : bool;
}.

Definition NewMemTable (arenaSize maxEntries : Z) (fallbackDir : bool) : MemTable :=
  mkMT (NewSkipListArena arenaSize) arenaSize maxEntries fallbackDir [] 0 0 false.

Definition with_skipList (sl : SkipListArena) (m : MemTable) : MemTable :=
  mkMT sl (mt_arenaSize m) (mt_maxEntries m) (mt_fallbackDir m) (mt_frozen m) (mt_flushCount m) (mt_flushErrors m) (mt_closed m).

Definition with_flush (frozen : list (Z * SkipListArena)) (count errors : Z) (m : MemTable) : MemTable :=
  mkMT (mt_skipList m) (mt_arenaSize m) (mt_maxEntries m) (mt_fallbackDir m) frozen count errors (mt_closed m).

Inductive WriteError :=
| ErrEntityIDTooLong | ErrInvalidUTF8 | ErrEventTooLarge | ErrClosed | ErrBackpressure | ErrInsertionFailed.

(** What the select of swapAndFlushAsync finds ready; a slot only while fewer than
    four flushes run. *)
Inductive SelectResult := SlotFree | CtxDone | ShutdownClosed.

Definition swapAndFlushAsync (sel : SelectResult) (m : MemTable) : option WriteError * MemTable :=
  if nodeCount (mt_skipList m) =? 0 then (None, m)
  else
    match sel with
    | CtxDone => (Some ErrBackpressure, m)
    | ShutdownClosed => (Some ErrClosed, m)
    | SlotFree =>
        let flushNum := i64 (mt_flushCount m + 1) in
        (None, with_flush (mt_frozen m ++ [(flushNum, mt_skipList m)]) flushNum (mt_flushErrors m)
                 (with_skipList (NewSkipListArena (mt_arenaSize m)) m))
    end.

(** The loop of retries: [attempts] are left, Put has failed. *)
Fixpoint write_retry (attempts : nat) (coins : nat → list bool) (sel : nat → SelectResult) (key val : list Z) (m : MemTable)
    : option WriteError * MemTable :=
  match attempts with
  | O => (Some ErrInsertionFailed, m)
  | S k =>
      match swapAndFlushAsync (sel k) m with
      | (Some e, m) => (Some e, m)
      | (None, m) =>
          if mt_closed m then (Some ErrClosed, m)
          else match Put (randomHeight (coins k) 1) key val (mt_skipList m) with
               | (true, sl) => (None, with_skipList sl m)
               | (false, sl) => write_retry k coins sel key val (with_skipList sl m)
               end
      end
  end.

Section Write.
Context `{XXHash}.

(** [coins] and [sel]: the coin throws and the selects of the call, the first
    ones at index 4 and 3.  A panic of MaskPII is [None]. *)
Definition Write (coins : nat → list bool) (sel : nat → SelectResult) (ev : TriTemporalEvent) (m : MemTable)
    : option (option WriteError * MemTable) :=
  if 65535 <? Z.of_nat (length (te_EntityID ev)) then Some (Some ErrEntityIDTooLong, m)
  else if negb (ValidString (te_EntityID ev)) then Some (Some ErrInvalidUTF8, m)
  else
    sanitized ← MaskPII (te_Payload ev);
    if u64 (mt_arenaSize m - nodeSize) <? totalEventSize ev sanitized then Some (Some ErrEventTooLarge, m)
    else if mt_closed m then Some (Some ErrClosed, m)
    else
      match (if mt_maxEntries m <=? nodeCount (mt_skipList m) then swapAndFlushAsync (sel 3%nat) m else (None, m)) with
      | (Some e, m) => Some (Some e, m)
      | (None, m) =>
          if mt_closed m then Some (Some ErrClosed, m)
          else
            let key := event_key ev in
            let val := event_value ev sanitized in
            match Put (randomHeight (coins 4%nat) 1) key val (mt_skipList m) with
            | (true, sl) => Some (None, with_skipList sl m)
            | (false, sl) => Some (write_retry 3 coins sel key val (with_skipList sl m))
            end
      end.
End Write.

(** ** Flushing *)

(** Where partitions go: the object store and the files of the fallback
    directory. *)
Record Disk := mkDisk {
  d_store : Store;
  d_fallback : Store;
}.

Definition fallback_name (p : L0Partition) (now : Z) : list Z :=
  lit "l0_fallback_" ++ hexEncode (take 8 (EntityHash p)) ++ lit "_" ++ FormatInt (FirstSysTimeNs p) ++ lit "_" ++ FormatInt now ++
  lit ".arrow".

(** os.WriteFile; a write that fails may leave an empty file, a part of the data
    or nothing. *)
Definition write_file (ok : bool) (left : option (list Z)) (name data : list Z) (fs : Store) : Store :=
  if ok then <[name := data]> fs else match left with Some d => <[name := d]> fs | None => fs end.

(** How one partition's I/O goes: its uploads, what ends the wait after a failed
    attempt, whether the table is seen closed, the fallback write and the clock. *)
Inductive Wait := TimerFired | WaitCtxDone | WaitShutdown.

Record PartIO := mkPartIO {
  io_up : nat → UploadOutcome;
  io_wait : nat → Wait;
  io_closed : nat → bool;
  io_write : bool;
  io_left : option (list Z);
  io_now : Z;
}.

(** The retry loop of the background flush: attempt number [n], [left] attempts
    left; whether the partition was stored. *)
Fixpoint upload_retry (left n : nat) (io : PartIO) (p : L0Partition) (s : Store) : Store * bool :=
  match left with
  | O => (s, false)
  | S k =>
      if (0 <? n)%nat && io_closed io n then (s, false)
      else match UploadPartition (io_up io n) p s with
           | (s, true) => (s, true)
           | (s, false) => match io_wait io n with TimerFired => upload_retry k (S n) io p s | _ => (s, false) end
           end
  end.

(** The callback's state: the partition's number, the disk, whether an upload
    failed. *)
Definition emit_state : Type := nat * Disk * bool.

Definition emit_async (fallbackDir : bool) (ios : nat → PartIO) (p : L0Partition) (st : emit_state) : emit_state * bool :=
  let '(i, d, failed) := st in
  match upload_retry 10 0 (ios i) p (d_store d) with
  | (s, true) => ((S i, mkDisk s (d_fallback d), failed), true)
  | (s, false) =>
      ((S i, mkDisk s (if fallbackDir then write_file (io_write (ios i)) (io_left (ios i)) (fallback_name p (io_now (ios i))) (Buf p) (d_fallback d)
                       else d_fallback d), true), true)
  end.

Definition emit_sync (fallbackDir : bool) (ios : nat → PartIO) (p : L0Partition) (st : emit_state) : emit_state * bool :=
  let '(i, d, failed) := st in
  match UploadPartition (io_up (ios i) 0%nat) p (d_store d) with
  | (s, true) => ((S i, mkDisk s (d_fallback d), failed), true)
  | (s, false) =>
      if fallbackDir then
        ((S i, mkDisk s (write_file (io_write (ios i)) (io_left (ios i)) (fallback_name p (io_now (ios i))) (Buf p) (d_fallback d)), true),
         io_write (ios i))
      else ((S i, mkDisk s (d_fallback d), true), false)
  end.

Section Flush.
Context `{ArrowIPC}.

(** The background flush of the frozen arena number [n]. *)
Definition flush_job (arrow_ok : list Row → bool) (pruned : gset (list Z)) (ios : nat → PartIO) (n : nat) (m : MemTable) (d : Disk)
    : option (MemTable * Disk) :=
  match mt_frozen m !! n with
  | None => Some (m, d)
  | Some (_, frozen) =>
      '(_, d', failed, serErr) ← FlushArenaToIPC (emit_async (mt_fallbackDir m) ios) arrow_ok pruned frozen (O, d, false);
      let errs := if bool_decide (serErr ≠ None) || failed then i64 (mt_flushErrors m + 1) else mt_flushErrors m in
      Some (with_flush (delete n (mt_frozen m)) (mt_flushCount m) errs m, d')
  end.

(** Flush: whether it returned nil. *)
Definition Flush (arrow_ok : list Row → bool) (pruned : gset (list Z)) (ios : nat → PartIO) (m : MemTable) (d : Disk)
    : option (bool * MemTable * Disk) :=
  if nodeCount (mt_skipList m) =? 0 then Some (true, m, d)
  else
    let frozen := mt_skipList m in
    let m := with_skipList (NewSkipListArena (mt_arenaSize m)) m in
    '(_, d', _, serErr) ← FlushArenaToIPC (emit_sync (mt_fallbackDir m) ios) arrow_ok pruned frozen (O, d, false);
    match serErr with
    | Some _ => Some (false, m, d')
    | None => Some (true, with_flush (mt_frozen m) (i64 (mt_flushCount m + 1)) (mt_flushErrors m) m, d')
    end.

(** The jobs that are in flight end one after the other. *)
Fixpoint drain (arrow_ok : list Row → bool) (pruned : nat → gset (list Z)) (jobs : nat → nat → PartIO) (k : nat) (m : MemTable) (d : Disk)
    : option (MemTable * Disk) :=
  match k with
  | O => Some (m, d)
  | S k' => '(m, d) ← flush_job arrow_ok (pruned k') (jobs k') 0 m d; drain arrow_ok pruned jobs k' m d
  end.

Definition MemTable_Close (arrow_ok : list Row → bool) (pruned : gset (list Z)) (ios : nat → PartIO) (jobs : nat → nat → PartIO)
    (prunes : nat → gset (list Z)) (m : MemTable) (d : Disk) : option (bool * MemTable * Disk) :=
  let m := mkMT (mt_skipList m) (mt_arenaSize m) (mt_maxEntries m) (mt_fallbackDir m) (mt_frozen m) (mt_flushCount m) (mt_flushErrors m) true in
  '(ok, m, d) ← Flush arrow_ok pruned ios m d;
  if (ok : bool) then '(m, d) ← drain arrow_ok prunes jobs (length (mt_frozen m)) m d; Some (true, m, d)
  else Some (false, m, d).

(** ** The checkpoint's delta flush *)

Definition NewSnapshotMemTable (fallbackDir : bool) : MemTable := NewMemTable (2 ^ 22) (2 ^ 20) fallbackDir.

(** The row of an entity in the index: the payload is not stored. *)
Definition queryTierEvent (entityID : string) (entry : CRDTEntry) : TriTemporalEvent :=
  mkTTE (string_bytes entityID) (SystemTime entry) (ValidTimeStart entry) (ValidTimeEnd entry) (AssertionTime entry) (H3Index entry) []
        (PayloadDigest entry).

Context `{XXHash}.

Fixpoint stage_rows (coins : nat → nat → list bool) (sel : nat → nat → SelectResult) (i : nat) (delta : list (string * CRDTEntry)) (m : MemTable)
    : option (bool * MemTable) :=
  match delta with
  | [] => Some (true, m)
  | (k, x) :: delta' =>
      '(err, m) ← Write (coins i) (sel i) (queryTierEvent k x) m;
      match err with
      | Some _ => Some (false, m)
      | None => stage_rows coins sel (S i) delta' m
      end
  end.

Definition stageAndFlushQueryTierDelta (coins : nat → nat → list bool) (sel : nat → nat → SelectResult) (arrow_ok : list Row → bool)
    (ios : nat → PartIO) (delta : list (string * CRDTEntry)) (m : MemTable) (d : Disk) : option (bool * MemTable * Disk) :=
  '(ok, m) ← stage_rows coins sel 0 delta m;
  if (ok : bool) then Flush arrow_ok ∅ ios m d else Some (false, m, d).
End Flush.
