(* ===== verification/MemTableThms.v ===== *)
(** What a MemTable's flush writes: the entry of an event reads back as its row,
    the partitions are the entities' rows in key order, and a checkpoint's delta
    becomes one file per entity that the resolver finds. *)
From S2P Require Import Prelude Bytes Sha256 Dots Sorting LsmKeys Resolver L1Compactor LsmPrune.
From S2P Require Import SkipList Pii Tombstones MemTable.

(** ** Entries and rows *)

Record event_typed (ev : TriTemporalEvent) : Prop := {
  et_id : Z.of_nat (length (te_EntityID ev)) <= 65535;
  et_sys : is_i64 (te_SystemTime ev);
  et_vs : is_i64 (te_ValidTimeStart ev);
  et_ve : is_i64 (te_ValidTimeEnd ev);
  et_ast : is_i64 (te_AssertionTime ev);
  et_h3 : is_u64 (te_H3Index ev);
  et_digest : length (te_PayloadDigest ev) = 32%nat;
}.

(** The row an event's entry stands for. *)
Definition event_row (ev : TriTemporalEvent) (sanitized : list Z) : Row :=
  mkRow (take 16 (Sum256 (te_EntityID ev))) (te_SystemTime ev) (te_ValidTimeStart ev) (te_ValidTimeEnd ev) (te_AssertionTime ev)
        (te_H3Index ev) (te_PayloadDigest ev) (te_EntityID ev) sanitized.

Lemma sub_mid off n pre mid post :
  off = Z.of_nat (length pre) → n = Z.of_nat (length mid) → sub off n (pre ++ mid ++ post) = Some mid.
Proof.
  intros -> ->. unfold sub. rewrite !length_app, (proj2 (Z.ltb_ge _ _)) by lia. unfold slice.
  by rewrite !Nat2Z.id, drop_app_length, take_app_length.
Qed.

Lemma length_hash16 id : length (take 16 (Sum256 id)) = 16%nat.
Proof. by rewrite length_take, length_Sum256. Qed.

Lemma length_event_key ev : length (event_key ev) = 40%nat.
Proof. unfold event_key. rewrite !length_app, length_hash16, !length_be_put. done. Qed.

Lemma length_event_value ev sanitized : event_typed ev →
  Z.of_nat (length (event_value ev sanitized)) = totalEventSize ev sanitized - keySize - nodeSize.
Proof.
  intros Ht. unfold event_value, totalEventSize. rewrite !length_app, !length_le_put, (et_digest _ Ht). unfold keySize, nodeSize. lia.
Qed.

Lemma i64_be8 x : is_i64 x → i64 (be_get (be_put 8 (u64 x))) = x.
Proof. intros Hx. pose proof (u64_range x). rewrite be_get_put by (cbn; words). by apply i64_u64. Qed.

Lemma i64_le8 x : is_i64 x → i64 (le_get (le_put 8 (u64 x))) = x.
Proof. intros Hx. pose proof (u64_range x). rewrite le_get_put by (cbn; words). by apply i64_u64. Qed.

Section RoundTrip.
Context (ev : TriTemporalEvent) (sanitized : list Z).
Hypothesis Hev : event_typed ev.
Hypothesis Hlen : Z.of_nat (length sanitized) < 2 ^ 32.

#[local] Abbreviation idlen := (Z.of_nat (length (te_EntityID ev))).
#[local] Abbreviation val := (event_value ev sanitized).

Lemma val_header : sub 0 2 val = Some (le_put 2 idlen).
Proof. apply (sub_mid 0 2 []); [done|]. by rewrite length_le_put. Qed.

Lemma header_len : le_get (le_put 2 idlen) = idlen.
Proof. apply le_get_put. pose proof (et_id _ Hev). cbn. lia. Qed.

Lemma entry_id_value : entry_id val = Some (te_EntityID ev).
Proof.
  unfold entry_id. rewrite val_header. cbn [mbind option_bind]. rewrite header_len. apply (sub_mid 2 idlen (le_put 2 idlen)); [|done].
  by rewrite length_le_put.
Qed.

(** Reading the entry of an event gives the event's row. *)
Lemma entry_row_event : entry_row (event_key ev) val = Some (event_row ev sanitized).
Proof.
  unfold entry_row. rewrite val_header. cbn [mbind option_bind]. rewrite header_len.
  set (h := le_put 2 idlen). set (id := te_EntityID ev). set (h3 := le_put 8 (te_H3Index ev)). set (ve := le_put 8 (u64 (te_ValidTimeEnd ev))).
  set (dg := te_PayloadDigest ev). set (pl := le_put 4 (u32 (Z.of_nat (length sanitized)))).
  assert (length h = 2%nat) as L1 by apply length_le_put. assert (length h3 = 8%nat) as L2 by apply length_le_put.
  assert (length ve = 8%nat) as L3 by apply length_le_put. assert (length pl = 4%nat) as L4 by apply length_le_put.
  pose proof (et_digest _ Hev) as L5. fold dg in L5.
  assert (le_get pl = Z.of_nat (length sanitized)) as Hpl.
  { unfold pl, u32. rewrite Z.mod_small by lia. apply le_get_put. cbn. lia. }
  assert (val = h ++ id ++ h3 ++ ve ++ dg ++ pl ++ sanitized) as -> by done.
  rewrite (sub_mid 2 (Z.of_nat (length id)) h id) by lia. cbn [mbind option_bind].
  replace (h ++ id ++ h3 ++ ve ++ dg ++ pl ++ sanitized) with ((h ++ id) ++ h3 ++ ve ++ dg ++ pl ++ sanitized) by (by rewrite <- app_assoc).
  rewrite (sub_mid (2 + Z.of_nat (length id)) 8) by (rewrite ?length_app; lia). cbn [mbind option_bind].
  replace ((h ++ id) ++ h3 ++ ve ++ dg ++ pl ++ sanitized) with ((h ++ id ++ h3) ++ ve ++ dg ++ pl ++ sanitized) by (by rewrite <- !app_assoc).
  rewrite (sub_mid (2 + Z.of_nat (length id) + 8) 8) by (rewrite ?length_app; lia). cbn [mbind option_bind].
  replace ((h ++ id ++ h3) ++ ve ++ dg ++ pl ++ sanitized) with ((h ++ id ++ h3 ++ ve) ++ dg ++ pl ++ sanitized) by (by rewrite <- !app_assoc).
  rewrite (sub_mid (2 + Z.of_nat (length id) + 16) 32) by (rewrite ?length_app; lia). cbn [mbind option_bind].
  replace ((h ++ id ++ h3 ++ ve) ++ dg ++ pl ++ sanitized) with ((h ++ id ++ h3 ++ ve ++ dg) ++ pl ++ sanitized) by (by rewrite <- !app_assoc).
  rewrite (sub_mid (2 + Z.of_nat (length id) + 48) 4) by (rewrite ?length_app; lia). cbn [mbind option_bind]. rewrite Hpl.
  replace ((h ++ id ++ h3 ++ ve ++ dg) ++ pl ++ sanitized) with ((h ++ id ++ h3 ++ ve ++ dg ++ pl) ++ sanitized ++ [])
    by (by rewrite <- !app_assoc, app_nil_r).
  rewrite (sub_mid (2 + Z.of_nat (length id) + 52) (Z.of_nat (length sanitized))) by (rewrite ?length_app; lia). cbn [mbind option_bind].
  unfold event_key. fold id. set (hash := take 16 (Sum256 id)). assert (length hash = 16%nat) as L6 by apply length_hash16.
  set (st := be_put 8 (u64 (te_SystemTime ev))). set (vs := be_put 8 (u64 (te_ValidTimeStart ev))). set (ast := be_put 8 (u64 (te_AssertionTime ev))).
  assert (length st = 8%nat) as L7 by apply length_be_put. assert (length vs = 8%nat) as L8 by apply length_be_put.
  assert (length ast = 8%nat) as L9 by apply length_be_put.
  assert (sub 0 16 (hash ++ st ++ vs ++ ast) = Some hash) as -> by (apply (sub_mid 0 16 []); [done|lia]). cbn [mbind option_bind].
  rewrite (sub_mid 16 8 hash st) by (done || lia). cbn [mbind option_bind].
  replace (hash ++ st ++ vs ++ ast) with ((hash ++ st) ++ vs ++ ast) by (by rewrite <- app_assoc).
  rewrite (sub_mid 24 8) by (rewrite ?length_app; lia). cbn [mbind option_bind].
  replace ((hash ++ st) ++ vs ++ ast) with ((hash ++ st ++ vs) ++ ast ++ []) by (by rewrite <- !app_assoc, app_nil_r).
  rewrite (sub_mid 32 8) by (rewrite ?length_app; lia). cbn [mbind option_bind].
  unfold st, vs, ast, ve, h3. rewrite !i64_be8, i64_le8 by apply Hev. rewrite le_get_put by (pose proof (et_h3 _ Hev); unfold is_u64 in *; cbn; lia).
  done.
Qed.
End RoundTrip.

(** ** Partitions *)

(** The rows of a file are one entity's: the rows of a run of equal hashes. *)
Fixpoint group (cur : option open_partition) (rs : list Row) : list open_partition :=
  match rs with
  | [] => match cur with Some g => [g] | None => [] end
  | r :: rs' =>
      match cur with
      | None => group (Some (entity_id_hash r, system_time r, [r])) rs'
      | Some (h, f, rows) =>
          if decide (h = entity_id_hash r) then group (Some (h, f, rows ++ [r])) rs'
          else (h, f, rows) :: group (Some (entity_id_hash r, system_time r, [r])) rs'
      end
  end.

Definition g_hash (g : open_partition) : list Z := g.1.1.
Definition g_first (g : open_partition) : Z := g.1.2.
Definition g_rows (g : open_partition) : list Row := g.2.

(** A partition is named by its first row. *)
Definition part_ok (g : open_partition) : Prop :=
  ∃ r rows, g_rows g = r :: rows ∧ g_first g = system_time r ∧ Forall (λ x, entity_id_hash x = g_hash g) (r :: rows).

Lemma part_ok_one r : part_ok (entity_id_hash r, system_time r, [r]).
Proof. exists r, []. split; [done|]. split; [done|]. by repeat constructor. Qed.

Lemma part_ok_snoc h f rows r : part_ok (h, f, rows) → h = entity_id_hash r → part_ok (h, f, rows ++ [r]).
Proof.
  intros (r0 & rows0 & E & Ef & Hh) Hr. unfold g_rows, g_first, g_hash in *. cbn in *. exists r0, (rows0 ++ [r]). cbn. rewrite E.
  split; [done|]. split; [done|]. apply (Forall_app _ (r0 :: rows0) [r]). split; [done|]. by repeat constructor.
Qed.

#[local] Abbreviation hash_le := (cmp_le bytes_compare).
#[local] Abbreviation hash_lt := (cmp_lt bytes_compare).

Lemma group_some h f rows rs :
  part_ok (h, f, rows) → StronglySorted hash_le (h :: map entity_id_hash rs) →
  let gs := group (Some (h, f, rows)) rs in
  concat (map g_rows gs) = rows ++ rs ∧ Forall part_ok gs ∧ StronglySorted hash_lt (map g_hash gs) ∧ Forall (hash_le h) (map g_hash gs).
Proof.
  revert h f rows. induction rs as [|r rs IH]; intros h f rows Hp Hs; cbn [group map] in *.
  { cbn. rewrite !app_nil_r. split; [done|]. split; [by constructor|]. split; [by repeat constructor|]. constructor; [|done].
    unfold cmp_le. cbn. by rewrite (cmp_refl bytes_compare). }
  apply StronglySorted_inv in Hs as [Hs Hh]. destruct (decide (h = entity_id_hash r)) as [Er|Er].
  - destruct (IH h f (rows ++ [r])) as (H1 & H2 & H3 & H4); [by apply part_ok_snoc|by rewrite Er|].
    split; [|done]. rewrite H1, <- app_assoc. done.
  - destruct (IH (entity_id_hash r) (system_time r) [r]) as (H1 & H2 & H3 & H4); [apply part_ok_one|done|].
    apply Forall_cons in Hh as [Hr Hh]. assert (hash_lt h (entity_id_hash r)) as Hlt by (destruct (cmp_le_lt_eq bytes_compare _ _ Hr); done).
    assert (Forall (hash_lt h) (map g_hash (group (Some (entity_id_hash r, system_time r, [r])) rs))) as Hall.
    { eapply Forall_impl; [exact H4|]. cbn. intros x Hx. destruct (cmp_le_lt_eq bytes_compare _ _ Hx) as [Hx'| <-]; [|done].
      by eapply (cmp_lt_transitive bytes_compare). }
    cbn [map concat]. rewrite H1. split; [done|]. split; [by constructor|]. split; [by constructor|]. constructor.
    + unfold cmp_le. cbn. by rewrite (cmp_refl bytes_compare).
    + eapply Forall_impl; [exact Hall|]. intros x. apply cmp_lt_le.
Qed.

Lemma group_sorted rs : StronglySorted hash_le (map entity_id_hash rs) →
  concat (map g_rows (group None rs)) = rs ∧ Forall part_ok (group None rs) ∧ NoDup (map g_hash (group None rs)).
Proof.
  intros Hs. destruct rs as [|r rs]; [by repeat split; constructor|]. cbn [group].
  destruct (group_some (entity_id_hash r) (system_time r) [r] rs) as (H1 & H2 & H3 & _); [apply part_ok_one|done|].
  split; [done|]. split; [done|]. clear -H3. induction H3 as [|x l _ IH Hx]; constructor; [|done]. intros Hin.
  rewrite Forall_forall in Hx. specialize (Hx x Hin). unfold cmp_lt in Hx. by rewrite (cmp_refl bytes_compare) in Hx.
Qed.

Section FlushEntries.
Context `{ArrowIPC} {St : Type} (emit : L0Partition → St → St * bool) (arrow_ok : list Row → bool).

Definition part_of (g : open_partition) : L0Partition := mkPartition (g_hash g) (g_first g) (ipc_write (g_rows g)).

(** The entries decode to the rows. *)
Definition decodes (es : list (list Z * list Z)) (rs : list Row) : Prop :=
  Forall2 (λ e r, entry_id e.2 = Some (entity_id r) ∧ entry_row e.1 e.2 = Some r) es rs.

Hypothesis Hemit : ∀ p st, (emit p st).2 = true.
Hypothesis Harrow : ∀ rows, arrow_ok rows = true.

Lemma finalize_emits g st : finalize emit arrow_ok (Some g) st = ((emit (part_of g) st).1, None).
Proof.
  destruct g as [[h f] rows]. unfold finalize. rewrite Harrow. specialize (Hemit (part_of (h, f, rows)) st).
  unfold part_of, g_hash, g_first, g_rows in *. cbn [fst snd] in *. destruct (emit _ st) as [st' ok]. cbn in *. by subst ok.
Qed.

Lemma flush_entries_groups pruned es rs cur st :
  decodes es rs →
  flush_entries emit arrow_ok pruned es cur st =
  Some (foldl (λ st g, (emit (part_of g) st).1) st (group cur (filter (λ r, entity_id r ∉ pruned) rs)), None).
Proof.
  intros Hd. revert cur st. induction Hd as [|[key val] r es rs [Hid Hr] _ IH]; intros cur st; cbn [flush_entries fst snd] in *.
  - rewrite filter_nil. cbn [group]. destruct cur as [g|]; [|done]. by rewrite finalize_emits.
  - rewrite Hid. cbn [mbind option_bind]. rewrite filter_cons. destruct (decide (entity_id r ∈ pruned)) as [Hp|Hp].
    { rewrite decide_False by tauto. apply IH. }
    rewrite decide_True by done. rewrite Hr. cbn [mbind option_bind group]. destruct cur as [[[h f] rows]|]; [|apply IH].
    destruct (decide (h = entity_id_hash r)); [apply IH|]. rewrite finalize_emits. cbn [foldl]. apply IH.
Qed.
End FlushEntries.

(** ** The entries of a table *)

(** An entry that Write made. *)
Definition written (e : list Z * list Z) : Prop :=
  ∃ ev sanitized, event_typed ev ∧ Z.of_nat (length sanitized) < 2 ^ 32 ∧ e = (event_key ev, event_value ev sanitized).

Definition rows_of (es : list (list Z * list Z)) : list Row := omap (λ e, entry_row e.1 e.2) es.

Lemma rows_of_cons ev sanitized es :
  event_typed ev → Z.of_nat (length sanitized) < 2 ^ 32 →
  rows_of ((event_key ev, event_value ev sanitized) :: es) = event_row ev sanitized :: rows_of es.
Proof. intros Ht Hl. unfold rows_of. cbn [omap list_omap]. cbn [fst snd]. by rewrite entry_row_event. Qed.

Lemma written_decodes es : Forall written es → decodes es (rows_of es).
Proof.
  induction 1 as [|e es (ev & sn & Ht & Hl & ->) _ IH]; [constructor|]. rewrite rows_of_cons by done. constructor; [|done]. cbn [fst snd].
  by rewrite entry_id_value, entry_row_event.
Qed.

(** Rows in key order: by hash, one entity's by system time when it is not
    negative. *)
Definition row_le (a b : Row) : Prop :=
  hash_le (entity_id_hash a) (entity_id_hash b) ∧
  (entity_id_hash a = entity_id_hash b → 0 <= system_time a → 0 <= system_time b → system_time a <= system_time b).

Definition entry_le (a b : list Z * list Z) : Prop := hash_le a.1 b.1.

Lemma event_key_le ev ev' sn sn' :
  event_typed ev → event_typed ev' → hash_le (event_key ev) (event_key ev') → row_le (event_row ev sn) (event_row ev' sn').
Proof.
  intros Ht Ht' Hle. unfold row_le. cbn [event_row entity_id_hash system_time]. unfold cmp_le, event_key in Hle.
  rewrite bytes_compare_app in Hle by (by rewrite !length_hash16). split.
  - unfold cmp_le. by destruct (bytes_compare (take 16 (Sum256 (te_EntityID ev))) _).
  - intros Eh Ha Hb. rewrite Eh, (cmp_refl bytes_compare) in Hle. rewrite bytes_compare_app in Hle by (by rewrite !length_be_put).
    pose proof (et_sys _ Ht) as H1. pose proof (et_sys _ Ht') as H2. unfold is_i64 in *. unfold u64 in Hle.
    rewrite !(Z.mod_small (te_SystemTime _)), be_compare in Hle by (cbn; lia).
    destruct (Z.compare_spec (te_SystemTime ev) (te_SystemTime ev')); [lia|lia|done].
Qed.

Lemma written_sorted es : Forall written es → StronglySorted entry_le es → StronglySorted row_le (rows_of es).
Proof.
  intros Hw Hs. induction Hs as [|e es Hs IH He]; [constructor|]. apply Forall_cons in Hw as [(ev & sn & Ht & Hl & ->) Hw].
  rewrite rows_of_cons by done. constructor; [by apply IH|]. clear IH Hs.
  induction He as [|e' es Hle _ IH]; [constructor|]. apply Forall_cons in Hw as [(ev' & sn' & Ht' & Hl' & ->) Hw].
  rewrite rows_of_cons by done. constructor; [|by apply IH]. by apply event_key_le.
Qed.

Lemma entries_sorted arenaSize sl : run_inv arenaSize sl → StronglySorted entry_le (entries sl).
Proof.
  intros ((L & Hinv) & _). rewrite (entries_list sl L Hinv). pose proof (si_sorted _ _ Hinv) as Hs.
  induction Hs as [|x l _ IH Hx]; [constructor|]. cbn [map]. constructor; [done|]. apply Forall_map. exact Hx.
Qed.

Lemma StronglySorted_concat {A} (R : relation A) ls : StronglySorted R (concat ls) → Forall (StronglySorted R) ls.
Proof.
  induction ls as [|l ls IH]; intros Hs; constructor; cbn in Hs.
  - by eapply StronglySorted_app_1_l.
  - by eapply IH, StronglySorted_app_1_r.
Qed.

Lemma filter_StronglySorted {A} (R : relation A) (P : A → Prop) `{∀ x, Decision (P x)} l : StronglySorted R l → StronglySorted R (filter P l).
Proof.
  induction 1 as [|x l _ IH Hx]; [constructor|]. rewrite filter_cons. case_decide; [|done]. constructor; [done|].
  rewrite Forall_forall in *. intros y [_ Hy]%list_elem_of_filter. by apply Hx.
Qed.

(** The least system time names the partition. *)
Definition first_least (g : open_partition) : Prop := Forall (λ r, g_first g <= system_time r) (g_rows g).

Lemma sorted_hashes rs : StronglySorted row_le rs → StronglySorted hash_le (map entity_id_hash rs).
Proof.
  induction 1 as [|x l _ IH Hx]; [constructor|]. cbn [map]. constructor; [done|]. apply Forall_map.
  eapply Forall_impl; [exact Hx|]. intros y Hy. apply Hy.
Qed.

Lemma group_first rs : StronglySorted row_le rs → Forall (λ r, 0 <= system_time r) rs → Forall first_least (group None rs).
Proof.
  intros Hs Hn. destruct (group_sorted rs (sorted_hashes rs Hs)) as (Hc & Hp & _). rewrite <- Hc in Hs, Hn. apply StronglySorted_concat in Hs.
  rewrite Forall_forall in Hs. rewrite Forall_forall in Hn. rewrite Forall_forall in Hp. apply Forall_forall. intros g Hg. destruct (Hp g Hg) as (r & rows & Er & Ef & Hr).
  assert (StronglySorted row_le (g_rows g)) as Hsg by (apply Hs, list_elem_of_fmap; by exists g).
  assert (∀ x, x ∈ g_rows g → 0 <= system_time x) as Hng.
  { intros x Hx. apply Hn. apply list_elem_of_In, in_concat. exists (g_rows g). split; [by apply in_map, list_elem_of_In|by apply list_elem_of_In]. }
  unfold first_least. rewrite Er, Ef in *. apply StronglySorted_inv in Hsg as [_ Hle]. constructor; [lia|].
  rewrite Forall_forall in Hle. rewrite Forall_forall in Hr. apply Forall_forall. intros x Hx. destruct (Hle x Hx) as [_ H]. apply H.
  - rewrite (Hr r), (Hr x); [done|by right|by left].
  - apply Hng. by left.
  - apply Hng. by right.
Qed.

(** With an emit and an Arrow writer that succeed, a flush hands over one
    partition per entity hash, in the order of the hashes; together they hold
    exactly the rows of the entries in key order, less those of pruned entities,
    and the first row names the partition. *)
Lemma flush_groups `{ArrowIPC} {St : Type} (emit : L0Partition → St → St * bool) (arrow_ok : list Row → bool)
    (pruned : gset (list Z)) (arenaSize : Z) (sl : SkipListArena) (st : St) :
  run_inv arenaSize sl → Forall written (entries sl) → (∀ p st, (emit p st).2 = true) → (∀ rows, arrow_ok rows = true) →
  ∃ gs,
    FlushArenaToIPC emit arrow_ok pruned sl st = Some (foldl (λ st g, (emit (part_of g) st).1) st gs, None) ∧
    concat (map g_rows gs) = filter (λ r, entity_id r ∉ pruned) (rows_of (entries sl)) ∧
    Forall part_ok gs ∧ NoDup (map g_hash gs) ∧
    (Forall (λ r, 0 <= system_time r) (rows_of (entries sl)) → Forall first_least gs).
Proof.
  intros Hr Hw Hemit Harrow. set (rs := filter (λ r, entity_id r ∉ pruned) (rows_of (entries sl))).
  assert (StronglySorted row_le rs) as Hs by (apply filter_StronglySorted, written_sorted; [done|by eapply entries_sorted]).
  exists (group None rs). destruct (group_sorted rs (sorted_hashes rs Hs)) as (H1 & H2 & H3). split_and!; [|done|done|done|].
  - unfold FlushArenaToIPC. destruct (Z.eqb_spec (nodeCount sl) 0) as [E|E].
    + destruct Hr as (_ & _ & _ & Hc). assert (entries sl = []) as En by (apply nil_length_inv; lia). subst rs. by rewrite En.
    + apply flush_entries_groups; [done|done|]. by apply written_decodes.
  - intros Hn. apply group_first; [done|]. rewrite Forall_forall in *. intros r [_ Hin]%list_elem_of_filter. by apply Hn.
Qed.

(** * The MemTable loses nothing it acknowledged: an event is in the active arena,
    in a frozen one, or was handed to a flush that ended; and a flush whose uploads
    succeed leaves a file with its row under its entity's prefix. *)

Definition all_entries (m : MemTable) : list (list Z * list Z) :=
  entries (mt_skipList m) ++ concat (map (λ f, entries f.2) (mt_frozen m)).

(** An arena of the table. *)
Definition arena_ok (arenaSize : Z) (sl : SkipListArena) : Prop := run_inv arenaSize sl ∧ Forall written (entries sl).

Record mt_inv (m : MemTable) : Prop := {
  mi_size : nodeSize <= mt_arenaSize m ∧ mt_arenaSize m + nodeSize < 2 ^ 32;
  mi_active : arena_ok (mt_arenaSize m) (mt_skipList m);
  mi_fresh : nodeCount (mt_skipList m) = 0 → store_of (mt_skipList m) = mkStore [] nodeSize (mt_arenaSize m);
  mi_frozen : Forall (λ f, arena_ok (mt_arenaSize m) f.2) (mt_frozen m);
}.

Lemma new_entries arenaSize : entries (NewSkipListArena arenaSize) = [].
Proof. reflexivity. Qed.

Lemma new_arena_ok arenaSize : nodeSize <= arenaSize → arenaSize + nodeSize < 2 ^ 32 → arena_ok arenaSize (NewSkipListArena arenaSize).
Proof.
  intros H1 H2. split; [by apply new_run_inv|]. by rewrite new_entries.
Qed.

Lemma new_mt_inv arenaSize maxEntries fb : nodeSize <= arenaSize → arenaSize + nodeSize < 2 ^ 32 → mt_inv (NewMemTable arenaSize maxEntries fb).
Proof.
  intros H1 H2. split; cbn [NewMemTable mt_skipList mt_arenaSize mt_frozen]; [done|by apply new_arena_ok| |constructor].
  intros _. by apply new_run_inv.
Qed.

(** An entry small enough for an empty arena. *)
Definition small (arenaSize : Z) (key val : list Z) : Prop :=
  Z.of_nat (length (key ++ val)) + 2 * nodeSize <= arenaSize.

Lemma put_active m height key val ok sl :
  mt_inv m → (1 <= height <= maxHeight)%nat → written (key, val) → small (mt_arenaSize m) key val →
  Put height key val (mt_skipList m) = (ok, sl) →
  mt_inv (with_skipList sl m) ∧ entries sl ≡ₚ (if ok then [(key, val)] else []) ++ entries (mt_skipList m) ∧
  (nodeCount (mt_skipList m) = 0 → ok = true).
Proof.
  intros [Hs [Hr Hw] Hf Hfz] Hh Hwr Hsm E. unfold small in Hsm. rewrite length_app in Hsm.
  pose proof (Put_spec (mt_arenaSize m) (mt_skipList m) height key val Hr Hh) as H. rewrite E in H.
  destruct H as [Hr' Hst]; [unfold nodeSize in *; lia|].
  assert (nodeCount (mt_skipList m) = 0 → ok = true) as Hok.
  { intros Hc. rewrite (Hf Hc) in Hst. unfold store_put in Hst. cbn [st_bottom st_top st_entries] in Hst.
    rewrite (proj2 (Z.leb_le _ _)) in Hst by (rewrite length_app; unfold nodeSize in *; lia). by injection Hst. }
  assert (entries sl ≡ₚ (if ok then [(key, val)] else []) ++ entries (mt_skipList m)) as Hp.
  { unfold store_put in Hst. unfold store_of at 2 in Hst. unfold store_of in Hst. cbn [st_entries st_top st_bottom] in Hst.
    destruct (_ <=? _); injection Hst as -> Hst _ _; rewrite Hst; [apply put_sorted_perm|done]. }
  split; [|done]. split; cbn [with_skipList mt_skipList mt_arenaSize mt_frozen]; [done| | |done].
  - split; [done|]. rewrite Hp. destruct ok; [by constructor|done].
  - intros Hc. destruct Hr' as (_ & _ & _ & Hn). rewrite Hp, length_app in Hn.
    destruct ok; cbn [length] in Hn; [lia|]. destruct Hr as (_ & _ & _ & Hn0). discriminate Hok. lia.
Qed.

Lemma swap_keeps sel m err m' :
  mt_inv m → swapAndFlushAsync sel m = (err, m') →
  mt_inv m' ∧ all_entries m' ≡ₚ all_entries m ∧ mt_arenaSize m' = mt_arenaSize m ∧ mt_closed m' = mt_closed m ∧
  (sel = SlotFree → err = None ∧ nodeCount (mt_skipList m') = 0).
Proof.
  intros Hm. unfold swapAndFlushAsync. destruct (Z.eqb_spec (nodeCount (mt_skipList m)) 0) as [E|E]; [by intros [= <- <-]|].
  destruct sel; intros [= <- <-]; [|by split_and!..]. pose proof Hm as [[Hs1 Hs2] Ha Hf Hfz].
  split_and!; [|unfold all_entries; cbn [with_flush with_skipList mt_skipList mt_frozen]|done|done|done].
  - split; cbn; [done|by apply new_arena_ok| |].
    + intros _. by apply new_run_inv.
    + apply Forall_app. split; [done|]. by constructor.
  - rewrite new_entries, map_app, concat_app. cbn [map concat app snd]. rewrite app_nil_r. apply Permutation_app_comm.
Qed.

Lemma write_retry_keeps k coins sel key val m err m' :
  mt_inv m → written (key, val) → small (mt_arenaSize m) key val → mt_closed m = false →
  write_retry k coins sel key val m = (err, m') →
  mt_inv m' ∧ all_entries m' ≡ₚ (match err with Some _ => [] | None => [(key, val)] end) ++ all_entries m ∧
  ((0 < k)%nat → (∀ i, sel i = SlotFree) → err = None).
Proof.
  revert m. induction k as [|k IH]; intros m Hm Hw Hsm Hc; cbn [write_retry].
  { intros [= <- <-]. split_and!; [done|done|lia]. }
  destruct (swapAndFlushAsync (sel k) m) as [e m1] eqn:Es. destruct (swap_keeps _ _ _ _ Hm Es) as (Hm1 & Hp1 & Ha1 & Hc1 & Hfr).
  destruct e as [e|]. { intros [= <- <-]. split_and!; [done|done|]. intros _ Hsel. by destruct (Hfr (Hsel k)). }
  rewrite Hc1, Hc. destruct (Put _ key val (mt_skipList m1)) as [ok sl] eqn:Ep.
  destruct (put_active m1 _ key val ok sl Hm1 (randomHeight_bounds (coins k) 1 ltac:(unfold maxHeight; lia)) Hw) as (Hm2 & Hp2 & Hok);
    [by rewrite Ha1|done|].
  assert (all_entries (with_skipList sl m1) ≡ₚ (if ok then [(key, val)] else []) ++ all_entries m) as Hp3.
  { rewrite <- Hp1. unfold all_entries. cbn [with_skipList mt_skipList mt_frozen]. by rewrite Hp2, app_assoc. }
  destruct ok; [intros [= <- <-]; by split_and!|]. intros E.
  destruct (IH (with_skipList sl m1)) as (Hm3 & Hp4 & Hsuc); [done|done|by cbn; rewrite Ha1|by cbn; rewrite Hc1|done|].
  split_and!; [done|by rewrite Hp4, Hp3|]. intros _ Hsel. destruct (Hfr (Hsel k)) as [_ H0]. by specialize (Hok H0).
Qed.

(** ** Write *)

(** The fields an event has by its type. *)
Record event_sized (ev : TriTemporalEvent) : Prop := {
  es_sys : is_i64 (te_SystemTime ev);
  es_vs : is_i64 (te_ValidTimeStart ev);
  es_ve : is_i64 (te_ValidTimeEnd ev);
  es_ast : is_i64 (te_AssertionTime ev);
  es_h3 : is_u64 (te_H3Index ev);
  es_digest : length (te_PayloadDigest ev) = 32%nat;
}.

Lemma sized_typed ev : event_sized ev → Z.of_nat (length (te_EntityID ev)) <= 65535 → event_typed ev.
Proof. intros [] Hid. by split. Qed.

Section Writes.
Context `{XXHash}.

(** The entry of an event, with its payload masked. *)
Definition event_entry (ev : TriTemporalEvent) : list Z * list Z := (event_key ev, event_value ev (mask 0 (te_Payload ev))).

(** What Write asks of an event. *)
Definition writable (arenaSize : Z) (ev : TriTemporalEvent) : Prop :=
  Z.of_nat (length (te_EntityID ev)) <= 65535 ∧ ValidString (te_EntityID ev) = true ∧
  totalEventSize ev (mask 0 (te_Payload ev)) <= arenaSize - nodeSize.

Lemma entry_small arenaSize ev : event_sized ev → writable arenaSize ev → arenaSize < 2 ^ 32 →
  written (event_entry ev) ∧ small arenaSize (event_entry ev).1 (event_entry ev).2.
Proof.
  intros He (Hid & _ & Hsz) Ha. pose proof (sized_typed ev He Hid) as Ht.
  pose proof (length_event_value ev (mask 0 (te_Payload ev)) Ht) as Hv. unfold totalEventSize, keySize, nodeSize in *. split.
  - exists ev, (mask 0 (te_Payload ev)). split; [done|]. split; [lia|done].
  - unfold small, event_entry. cbn [fst snd]. rewrite length_app, length_event_key. unfold nodeSize. lia.
Qed.

(** A call of Write that returns nil adds the event's entry, one that fails adds
    nothing; a writable event is refused only by a closed table or while no flush
    slot is free. *)
Lemma Write_keeps coins sel ev m :
  mt_inv m → event_sized ev →
  ∃ err m', Write coins sel ev m = Some (err, m') ∧ mt_inv m' ∧
    all_entries m' ≡ₚ (match err with Some _ => [] | None => [event_entry ev] end) ++ all_entries m ∧
    (err = None → writable (mt_arenaSize m) ev) ∧
    (writable (mt_arenaSize m) ev → mt_closed m = false → (∀ i, sel i = SlotFree) → err = None).
Proof.
  intros Hm He. unfold Write. pose proof (mi_size _ Hm) as [Hs1 Hs2]. unfold writable.
  destruct (Z.ltb_spec 65535 (Z.of_nat (length (te_EntityID ev)))) as [Hid|Hid].
  { eexists _, m. split_and!; [done|done|done|done|lia]. }
  destruct (ValidString (te_EntityID ev)) eqn:Hu; cbn [negb]; [|by eexists _, m; split_and!; naive_solver].
  rewrite MaskPII_spec. cbn [mbind option_bind]. unfold u64. rewrite Z.mod_small by (unfold nodeSize in *; lia).
  destruct (Z.ltb_spec (mt_arenaSize m - nodeSize) (totalEventSize ev (mask 0 (te_Payload ev)))) as [Hsz|Hsz].
  { eexists _, m. split_and!; [done|done|done|done|lia]. }
  assert (writable (mt_arenaSize m) ev) as Hwr by done.
  destruct (entry_small (mt_arenaSize m) ev He Hwr ltac:(unfold nodeSize in *; lia)) as [Hw Hsm].
  destruct (mt_closed m) eqn:Hc; [by eexists _, m; split_and!; naive_solver|].
  destruct (if mt_maxEntries m <=? _ then _ else _) as [e m1] eqn:Es.
  assert (mt_inv m1 ∧ all_entries m1 ≡ₚ all_entries m ∧ mt_arenaSize m1 = mt_arenaSize m ∧ mt_closed m1 = mt_closed m ∧
          (sel 3%nat = SlotFree → e = None)) as (Hm1 & Hp1 & Ha1 & Hc1 & Hfr).
  { destruct (_ <=? _); [|by injection Es as <- <-]. destruct (swap_keeps _ _ _ _ Hm Es) as (? & ? & ? & ? & Hx). naive_solver. }
  destruct e as [e|]. { eexists _, m1. split_and!; [done|done|done|done|]. intros _ _ Hsel. by apply Hfr. }
  rewrite Hc1, Hc. destruct (Put _ (event_key ev) _ (mt_skipList m1)) as [ok sl] eqn:Ep.
  destruct (put_active m1 _ (event_entry ev).1 (event_entry ev).2 ok sl Hm1 (randomHeight_bounds (coins 4%nat) 1 ltac:(unfold maxHeight; lia)) Hw)
    as (Hm2 & Hp2 & _); [by rewrite Ha1|done|].
  assert (all_entries (with_skipList sl m1) ≡ₚ (if ok then [event_entry ev] else []) ++ all_entries m) as Hp3.
  { rewrite <- Hp1. unfold all_entries. cbn [with_skipList mt_skipList mt_frozen]. rewrite Hp2, app_assoc. done. }
  destruct ok; [by eexists _, _; split_and!|].
  destruct (write_retry 3 coins sel (event_key ev) _ (with_skipList sl m1)) as [err m'] eqn:Er.
  destruct (write_retry_keeps 3 coins sel (event_entry ev).1 (event_entry ev).2 (with_skipList sl m1) err m') as (Hm' & Hp' & Hsuc);
    [done|done|by cbn; rewrite Ha1|by cbn; rewrite Hc1|done|].
  eexists _, _. split_and!; [done|done|by rewrite Hp', Hp3|done|]. intros _ _ Hsel. apply Hsuc; [lia|done].
Qed.
End Writes.

(** ** Flushes end *)

Lemma flush_total `{ArrowIPC} {St : Type} (emit : L0Partition → St → St * bool) (arrow_ok : list Row → bool) pruned arenaSize sl st :
  arena_ok arenaSize sl → ∃ r, FlushArenaToIPC emit arrow_ok pruned sl st = Some r.
Proof.
  intros [_ Hw]. unfold FlushArenaToIPC. destruct (_ =? 0); [by eexists|]. pose proof (written_decodes _ Hw) as Hd.
  generalize (@None open_partition) as cur. revert st.
  induction Hd as [|[key val] r es rs [Hid Hr] _ IH]; intros st cur; cbn [flush_entries fst snd] in *; [by eexists|].
  rewrite Hid. cbn [mbind option_bind]. destruct (decide _); [apply IH; by apply Forall_cons in Hw as [_ ?]|].
  rewrite Hr. cbn [mbind option_bind]. apply Forall_cons in Hw as [_ Hw]. destruct cur as [[[h f] rows]|]; [|by apply IH].
  destruct (decide _); [by apply IH|]. destruct (finalize _ _ _ st) as [st' [e|]]; [by eexists|by apply IH].
Qed.

Section System.
Context `{ArrowIPC} `{XXHash}.

Lemma job_total arrow_ok pruned ios n m d : mt_inv m → ∃ m' d', flush_job arrow_ok pruned ios n m d = Some (m', d').
Proof.
  intros Hm. unfold flush_job. destruct (mt_frozen m !! n) as [[k f]|] eqn:E; [|by eexists _, _].
  pose proof (Forall_lookup_1 _ _ _ _ (mi_frozen _ Hm) E) as Hf.
  destruct (flush_total (emit_async (mt_fallbackDir m) ios) arrow_ok pruned _ f (O, d, false) Hf) as [[[[? ?] ?] ?] ->].
  cbn. by eexists _, _.
Qed.

Lemma Flush_total arrow_ok pruned ios m d : mt_inv m → ∃ ok m' d', Flush arrow_ok pruned ios m d = Some (ok, m', d').
Proof.
  intros Hm. unfold Flush. destruct (_ =? 0); [by eexists _, _, _|].
  destruct (flush_total (emit_sync (mt_fallbackDir m) ios) arrow_ok pruned _ (mt_skipList m) (O, d, false) (mi_active _ Hm)) as [[[[? ?] ?] [e|]] E];
    cbn [with_skipList mt_fallbackDir]; rewrite E; cbn; by eexists _, _, _.
Qed.

Lemma with_flush_inv frozen count errs m :
  mt_inv m → Forall (λ f, arena_ok (mt_arenaSize m) f.2) frozen → mt_inv (with_flush frozen count errs m).
Proof. intros [H1 H2 H3 _] Hf. by split. Qed.

Lemma fresh_active_inv m : mt_inv m → mt_inv (with_skipList (NewSkipListArena (mt_arenaSize m)) m).
Proof.
  intros [[H1 H2] _ _ Hf]. split; cbn [with_skipList mt_skipList mt_arenaSize mt_frozen]; [done|by apply new_arena_ok| |done].
  intros _. by apply new_run_inv.
Qed.

(** Ending the flush of a frozen arena takes its entries out of the table. *)
Lemma job_keeps arrow_ok pruned ios n f m d m' d' :
  mt_inv m → mt_frozen m !! n = Some f → flush_job arrow_ok pruned ios n m d = Some (m', d') →
  mt_inv m' ∧ all_entries m ≡ₚ entries f.2 ++ all_entries m'.
Proof.
  intros Hm E. unfold flush_job. rewrite E. destruct f as [k f]. destruct (FlushArenaToIPC _ _ _ f _) as [[[[? ?] ?] ?]|]; [|done].
  cbn [mbind option_bind]. intros [= <- <-]. split.
  - apply with_flush_inv; [done|]. apply Forall_delete, Hm.
  - unfold all_entries. cbn [with_flush mt_skipList mt_frozen snd]. rewrite (delete_Permutation (mt_frozen m) n (k, f) E) at 1.
    cbn [map concat snd]. rewrite !app_assoc. apply Permutation_app; [apply Permutation_app_comm|done].
Qed.

Lemma Flush_keeps arrow_ok pruned ios m d ok m' d' :
  mt_inv m → Flush arrow_ok pruned ios m d = Some (ok, m', d') →
  mt_inv m' ∧ all_entries m ≡ₚ entries (mt_skipList m) ++ all_entries m' ∧ entries (mt_skipList m') = [].
Proof.
  intros Hm. unfold Flush. destruct (Z.eqb_spec (nodeCount (mt_skipList m)) 0) as [E|E].
  { intros [= <- <- <-]. pose proof (mi_fresh _ Hm E) as Hf. apply (f_equal st_entries) in Hf. cbn [store_of st_entries] in Hf.
    split_and!; [done| |done]. by rewrite Hf. }
  destruct (FlushArenaToIPC _ _ _ _ _) as [[[[? ?] ?] err]|]; [|done]. cbn [mbind option_bind].
  pose proof (fresh_active_inv m Hm) as Hm1. set (m1 := with_skipList _ m) in *.
  assert (all_entries m ≡ₚ entries (mt_skipList m) ++ all_entries m1) as Hp by (unfold all_entries, m1; cbn [with_skipList mt_skipList mt_frozen]; by rewrite new_entries).
  destruct err; intros [= <- <- <-]; (split_and!; [|done|apply new_entries]); [done|]. apply with_flush_inv; [done|apply Hm1].
Qed.

(** ** What a flush that reports success leaves on disk *)

(** Every partition is handed over, and every callback succeeds. *)
Fixpoint emit_all {St} (emit : L0Partition → St → St * bool) (gs : list open_partition) (st : St) : option St :=
  match gs with
  | [] => Some st
  | g :: gs' => match emit (part_of g) st with (st, true) => emit_all emit gs' st | (_, false) => None end
  end.

Lemma flush_success {St} (emit : L0Partition → St → St * bool) arrow_ok pruned es rs cur st st' :
  decodes es rs → flush_entries emit arrow_ok pruned es cur st = Some (st', None) →
  emit_all emit (group cur (filter (λ r, entity_id r ∉ pruned) rs)) st = Some st'.
Proof.
  assert (∀ g st st', finalize emit arrow_ok (Some g) st = (st', None) → emit (part_of g) st = (st', true)) as Hfin.
  { intros [[h f] rows] s s'. unfold finalize, part_of, g_hash, g_first, g_rows. cbn [fst snd]. destruct (arrow_ok rows); [|done].
    destruct (emit _ s) as [s1 []]; [|done]. by intros [= ->]. }
  intros Hd. revert cur st. induction Hd as [|[key val] r es rs [Hid Hr] _ IH]; intros cur st; cbn [flush_entries fst snd] in *.
  - rewrite filter_nil. cbn [group]. destruct cur as [g|]; [|by intros [= <-]]. intros [= E]. cbn [emit_all].
    by rewrite (Hfin _ _ _ E).
  - rewrite Hid. cbn [mbind option_bind]. rewrite filter_cons. destruct (decide (entity_id r ∈ pruned)) as [Hp|Hp].
    { rewrite decide_False by tauto. apply IH. }
    rewrite decide_True by done. rewrite Hr. cbn [mbind option_bind group]. destruct cur as [[[h f] rows]|]; [|apply IH].
    destruct (decide (h = entity_id_hash r)); [apply IH|]. destruct (finalize _ _ _ st) as [s1 [e|]] eqn:E; [done|]. intros H1.
    cbn [emit_all]. rewrite (Hfin _ _ _ E). by apply IH.
Qed.

(** The partition is in the object store or in a fallback file. *)
Definition part_saved (g : open_partition) (d : Disk) : Prop :=
  d_store d !! partition_key (part_of g) = Some (Buf (part_of g)) ∨
  ∃ now, d_fallback d !! fallback_name (part_of g) now = Some (Buf (part_of g)).

(** [d'] differs from [d] at most in the files of the partition's entity hash. *)
Definition touches (g : open_partition) (d d' : Disk) : Prop :=
  (∀ k, k ≠ partition_key (part_of g) → d_store d' !! k = d_store d !! k) ∧
  (∀ k, (∀ now, k ≠ fallback_name (part_of g) now) → d_fallback d' !! k = d_fallback d !! k).

Definition g8 (g : open_partition) : list Z := take 8 (g_hash g).

Lemma part_keys_apart g g' : hash8_ok (g8 g) → hash8_ok (g8 g') → g8 g ≠ g8 g' → partition_key (part_of g) ≠ partition_key (part_of g').
Proof.
  intros H1 H2 Hne E. unfold partition_key, part_of in E. cbn [EntityHash FirstSysTimeNs] in E. fold (g8 g) (g8 g') in E.
  apply (f_equal (λ k, HasPrefix k (l0Prefix (g8 g')))) in E. rewrite !l0Key_l0Prefix in E by done.
  rewrite (bool_decide_eq_true_2 (g8 g' = g8 g')), bool_decide_eq_true in E by done. done.
Qed.

Lemma fallback_names_apart g g' now now' :
  hash8_ok (g8 g) → hash8_ok (g8 g') → g8 g ≠ g8 g' → fallback_name (part_of g) now ≠ fallback_name (part_of g') now'.
Proof.
  intros [L1 B1] [L2 B2] Hne E. unfold fallback_name, part_of in E. cbn [EntityHash FirstSysTimeNs] in E. fold (g8 g) (g8 g') in E.
  apply app_inj_1 in E as [_ E]; [|done]. apply app_inj_1 in E as [E _]; [by apply hexEncode_inj in E|].
  rewrite !length_hexEncode. lia.
Qed.

Lemma part_saved_kept g g' d d' :
  hash8_ok (g8 g) → hash8_ok (g8 g') → g8 g ≠ g8 g' → touches g' d d' → part_saved g d → part_saved g d'.
Proof.
  intros H1 H2 Hne [T1 T2] [E|[now E]]; [left|right; exists now].
  - rewrite T1; [done|]. by apply part_keys_apart.
  - rewrite T2; [done|]. intros now'. by apply fallback_names_apart.
Qed.

Lemma upload_effect o p s : (UploadPartition o p s).2 = true → (UploadPartition o p s).1 !! partition_key p = Some (Buf p).
Proof. unfold UploadPartition, do_upload. destruct o as [|[]]; cbn; [|done..]. intros _. apply lookup_insert_eq. Qed.

Lemma upload_others o p s k : k ≠ partition_key p → (UploadPartition o p s).1 !! k = s !! k.
Proof. intros Hk. unfold UploadPartition, do_upload. destruct o as [|[]]; cbn; [by rewrite lookup_insert_ne..|done]. Qed.

Lemma upload_retry_effect left n io p s :
  ((upload_retry left n io p s).2 = true → (upload_retry left n io p s).1 !! partition_key p = Some (Buf p)) ∧
  ∀ k, k ≠ partition_key p → (upload_retry left n io p s).1 !! k = s !! k.
Proof.
  revert n s. induction left as [|left IH]; intros n s; cbn [upload_retry]; [done|]. destruct (_ && _); [done|].
  pose proof (upload_effect (io_up io n) p s) as Hs. pose proof (upload_others (io_up io n) p s) as Ho.
  destruct (UploadPartition _ _ _) as [s1 []]; cbn [fst snd] in *; [by split; [|intros; apply Ho]|].
  destruct (io_wait io n); [|by split; [|intros; apply Ho]..]. destruct (IH (S n) s1) as [I1 I2]. split; [done|].
  intros k Hk. rewrite I2 by done. by apply Ho.
Qed.

(** A synchronous callback that succeeds has saved its partition; a background
    one that leaves the failure flag down has uploaded it. *)
Lemma emit_sync_saves fb ios g i d f st' :
  emit_sync fb ios (part_of g) (i, d, f) = (st', true) → part_saved g st'.1.2 ∧ touches g d st'.1.2.
Proof.
  unfold emit_sync. pose proof (upload_effect (io_up (ios i) 0%nat) (part_of g) (d_store d)) as Hs.
  pose proof (upload_others (io_up (ios i) 0%nat) (part_of g) (d_store d)) as Ho.
  destruct (UploadPartition _ _ _) as [s []]; cbn [fst snd] in *.
  { intros [= <-]. cbn [fst snd]. split; [left; by apply Hs|]. by split. }
  destruct fb; [|done]. intros E. injection E as <- Ew. cbn [fst snd]. rewrite Ew. split.
  - right. exists (io_now (ios i)). cbn. apply lookup_insert_eq.
  - split; [done|]. intros k Hk. cbn. rewrite lookup_insert_ne; [done|]. intros <-. by apply (Hk (io_now (ios i))).
Qed.

Lemma emit_async_saves fb ios g i d f st' :
  emit_async fb ios (part_of g) (i, d, f) = (st', true) →
  (f = true → st'.2 = true) ∧ touches g d st'.1.2 ∧ (st'.2 = false → part_saved g st'.1.2).
Proof.
  unfold emit_async. destruct (upload_retry_effect 10 0 (ios i) (part_of g) (d_store d)) as [Hs Ho].
  destruct (upload_retry _ _ _ _ _) as [s []]; cbn [fst snd] in *; intros [= <-]; cbn [fst snd].
  - split; [done|]. split; [by split|]. intros _. left. by apply Hs.
  - split; [done|]. split; [|done]. split; [done|]. cbn. intros k Hk. destruct fb; [|done]. unfold write_file.
    destruct (io_write _); [|destruct (io_left _); [|done]];
      (rewrite lookup_insert_ne; [done|]; intros <-; by apply (Hk (io_now (ios i)))).
Qed.

Lemma emit_all_saves (emit : L0Partition → emit_state → emit_state * bool) (good : emit_state → Prop) gs st st' :
  (∀ g st st', emit (part_of g) st = (st', true) →
     (good st' → good st) ∧ touches g st.1.2 st'.1.2 ∧ (good st' → part_saved g st'.1.2)) →
  Forall (λ g, hash8_ok (g8 g)) gs → NoDup (map g8 gs) → emit_all emit gs st = Some st' → good st' →
  good st ∧ (∀ g, g ∈ gs → part_saved g st'.1.2) ∧
  ∀ g, hash8_ok (g8 g) → g8 g ∉ map g8 gs → part_saved g st.1.2 → part_saved g st'.1.2.
Proof.
  intros Hemit Hok. revert st. induction Hok as [|g gs Hg Hok IH]; intros st Hd; cbn [emit_all map] in *.
  { intros [= <-] Hgood. split_and!; [done| |done]. by intros g ?%not_elem_of_nil. }
  apply NoDup_cons in Hd as [Hn Hd]. destruct (emit (part_of g) st) as [st1 []] eqn:E; [|done]. intros Ha Hgood.
  destruct (Hemit _ _ _ E) as (H1 & H2 & H3). destruct (IH st1 Hd Ha Hgood) as (I1 & I2 & I3). split_and!; [auto|..].
  - intros g' [->|Hin]%elem_of_cons; [|by apply I2]. apply I3; [done|done|auto].
  - intros g' Hg' [Hne Hnin]%not_elem_of_cons Hs. apply I3; [done|done|]. by apply (part_saved_kept g' g st.1.2).
Qed.

(** A row is in a file of its entity in the object store, or in a fallback file. *)
Definition row_saved (d : Disk) (r : Row) : Prop :=
  ∃ rows, r ∈ rows ∧ ((∃ n, d_store d !! l0KeyFor (take 8 (entity_id_hash r)) n = Some (ipc_write rows)) ∨
                      ∃ name, d_fallback d !! name = Some (ipc_write rows)).

(** The 8-byte hashes in the file names tell the arena's entities apart. *)
Definition hashes_apart (sl : SkipListArena) : Prop :=
  ∀ r1 r2, r1 ∈ rows_of (entries sl) → r2 ∈ rows_of (entries sl) →
    take 8 (entity_id_hash r1) = take 8 (entity_id_hash r2) → entity_id_hash r1 = entity_id_hash r2.

Definition arena_saved (pruned : gset (list Z)) (sl : SkipListArena) (d : Disk) : Prop :=
  hashes_apart sl → ∀ r, r ∈ rows_of (entries sl) → entity_id r ∉ pruned → row_saved d r.

Lemma written_hash8 es r : Forall written es → r ∈ rows_of es → hash8_ok (take 8 (entity_id_hash r)).
Proof.
  induction 1 as [|e es (ev & sn & Ht & Hl & ->) _ IH]; [by intros ?%not_elem_of_nil|]. rewrite rows_of_cons by done.
  intros [->|Hin]%elem_of_cons; [|by apply IH]. cbn [event_row entity_id_hash]. split.
  - by rewrite length_take, length_hash16.
  - unfold is_bytes. do 2 apply Forall_take. apply Sum256_bytes.
Qed.

(** A flush without an error, of callbacks that save what they report. *)
Lemma flush_saves (emit : L0Partition → emit_state → emit_state * bool) (good : emit_state → Prop) arrow_ok pruned arenaSize sl st st' :
  (∀ g st st', emit (part_of g) st = (st', true) →
     (good st' → good st) ∧ touches g st.1.2 st'.1.2 ∧ (good st' → part_saved g st'.1.2)) →
  arena_ok arenaSize sl → FlushArenaToIPC emit arrow_ok pruned sl st = Some (st', None) → good st' →
  arena_saved pruned sl st'.1.2.
Proof.
  intros Hemit [Hr Hw] Hf Hgood Hap r Hin Hnp. unfold FlushArenaToIPC in Hf. destruct (Z.eqb_spec (nodeCount sl) 0) as [E|E].
  { destruct Hr as (_ & _ & _ & Hc). assert (entries sl = []) as En by (apply nil_length_inv; lia).
    rewrite En in Hin. by apply not_elem_of_nil in Hin. }
  apply (flush_success emit arrow_ok pruned _ _ _ _ _ (written_decodes _ Hw)) in Hf.
  set (rs := filter (λ r, entity_id r ∉ pruned) (rows_of (entries sl))) in *.
  assert (StronglySorted row_le rs) as Hs by (apply filter_StronglySorted, written_sorted; [done|by eapply entries_sorted]).
  destruct (group_sorted rs (sorted_hashes rs Hs)) as (Hcat & Hparts & Hnd). set (gs := group None rs) in *.
  assert (∀ g, g ∈ gs → ∃ r0, r0 ∈ rows_of (entries sl) ∧ entity_id_hash r0 = g_hash g) as Hrow.
  { intros g Hg. rewrite Forall_forall in Hparts. destruct (Hparts g Hg) as (r0 & rows & Er & _ & Hh). exists r0. split.
    - assert (r0 ∈ rs) as [_ ?]%list_elem_of_filter; [|done]. rewrite <- Hcat. apply elem_of_concat. exists (g_rows g).
      split; [rewrite Er; by left|]. apply list_elem_of_fmap. by exists g.
    - by apply Forall_cons in Hh as [? _]. }
  destruct (emit_all_saves emit good gs st st' Hemit) as (_ & Hsv & _); [| |done|done|].
  - apply Forall_forall. intros g Hg. destruct (Hrow g Hg) as (r0 & Hr0 & Eh). unfold g8. rewrite <- Eh. by eapply written_hash8.
  - clear -Hnd Hrow Hap. induction gs as [|g gs IH]; cbn [map] in *; [constructor|]. apply NoDup_cons in Hnd as [Hn Hnd]. constructor.
    + intros (g' & E & Hg')%list_elem_of_fmap. apply Hn. apply list_elem_of_fmap. exists g'. split; [|done].
      destruct (Hrow g) as (r1 & H1 & E1); [by left|]. destruct (Hrow g') as (r2 & H2 & E2); [by right|].
      unfold g8 in E. rewrite <- E1, <- E2 in E |- *. by apply Hap.
    + apply IH; [done|]. intros g' Hg'. apply Hrow. by right.
  - assert (r ∈ rs) as Hrs by (by apply list_elem_of_filter). rewrite <- Hcat in Hrs.
    apply elem_of_concat in Hrs as (l & Hl & (g & -> & Hg)%list_elem_of_fmap). exists (g_rows g). split; [done|].
    rewrite Forall_forall in Hparts. destruct (Hparts g Hg) as (r0 & rows & Er & _ & Hh). rewrite <- Er, Forall_forall in Hh.
    destruct (Hsv g Hg) as [Es|[now Es]]; [left|right; by eexists]. rewrite (Hh r Hl). by eexists.
Qed.

Lemma Flush_saves arrow_ok pruned ios m d m' d' :
  mt_inv m → Flush arrow_ok pruned ios m d = Some (true, m', d') → arena_saved pruned (mt_skipList m) d'.
Proof.
  intros Hm. unfold Flush. destruct (Z.eqb_spec (nodeCount (mt_skipList m)) 0) as [E|E].
  { intros _ _ r Hin. pose proof (mi_fresh _ Hm E) as Hf. apply (f_equal st_entries) in Hf. cbn [store_of st_entries] in Hf.
    rewrite Hf in Hin. by apply not_elem_of_nil in Hin. }
  destruct (FlushArenaToIPC _ _ _ _ _) as [[[[i1 d1] f1] [err|]]|] eqn:Ef; [done| |done]. cbn [mbind option_bind]. intros [= <- <-].
  apply (flush_saves _ (λ _, True) _ _ (mt_arenaSize m)) in Ef; [done| |apply Hm|done].
  intros g [[i d0] f] st' Hs. destruct (emit_sync_saves _ _ _ _ _ _ _ Hs). by split_and!.
Qed.

Lemma job_saves arrow_ok pruned ios n f m d m' d' :
  mt_inv m → mt_frozen m !! n = Some f → flush_job arrow_ok pruned ios n m d = Some (m', d') →
  mt_flushErrors m' = mt_flushErrors m → arena_saved pruned f.2 d'.
Proof.
  intros Hm En. unfold flush_job. rewrite En. destruct f as [k f]. pose proof (Forall_lookup_1 _ _ _ _ (mi_frozen _ Hm) En) as Hf.
  destruct (FlushArenaToIPC _ _ _ f _) as [[[[i1 d1] f1] err]|] eqn:Ef; [|done]. cbn [mbind option_bind snd].
  intros [= <- <-]. cbn [with_flush mt_flushErrors].
  assert (i64 (mt_flushErrors m + 1) ≠ mt_flushErrors m) as Hne.
  { unfold i64. pose proof (Z.div_mod (mt_flushErrors m + 1 + 2 ^ 63) (2 ^ 64) ltac:(lia)). lia. }
  destruct err as [err|]; [by rewrite bool_decide_eq_true_2|]. rewrite bool_decide_eq_false_2 by tauto. cbn [orb].
  destruct f1; [done|]. intros _. apply (flush_saves _ (λ st, st.2 = false) _ _ (mt_arenaSize m)) in Ef; [done| |done|done].
  intros g [[i d0] f0] st' Hs. destruct (emit_async_saves _ _ _ _ _ _ _ Hs) as (H1 & H2 & H3). split_and!; [|done|done].
  cbn. destruct f0; [|done]. rewrite H1 by done. done.
Qed.

(** ** The table over time *)

(** [ms_acked]: the entries of the writes that returned nil; [ms_saved] and
    [ms_failed]: the entries of the arenas whose flush has ended, by what it
    reported, nil or an error for Flush, and for a background flush whether it
    counted an error. *)
Record mt_state := mkMS {
  ms_table : MemTable;
  ms_disk : Disk;
  ms_acked : list (list Z * list Z);
  ms_saved : list (list Z * list Z);
  ms_failed : list (list Z * list Z);
}.

(** What a flush that ended adds to either. *)
Definition report (ok : bool) (es : list (list Z * list Z)) (st : list (list Z * list Z) * list (list Z * list Z)) :
    list (list Z * list Z) * list (list Z * list Z) :=
  if ok then (es ++ st.1, st.2) else (st.1, es ++ st.2).

Definition with_closed (m : MemTable) : MemTable :=
  mkMT (mt_skipList m) (mt_arenaSize m) (mt_maxEntries m) (mt_fallbackDir m) (mt_frozen m) (mt_flushCount m) (mt_flushErrors m) true.

(** Calls one at a time; Close is its flag, a Flush, and the end of the flushes in
    flight ([close_steps]). *)
Inductive mt_step : mt_state → mt_state → Prop :=
| mt_write m d acked saved failed coins sel ev err m' :
    event_sized ev → Write coins sel ev m = Some (err, m') →
    mt_step (mkMS m d acked saved failed)
      (mkMS m' d (match err with Some _ => [] | None => [event_entry ev] end ++ acked) saved failed)
| mt_job m d acked saved failed saved' failed' arrow_ok pruned ios n f m' d' :
    mt_frozen m !! n = Some f → flush_job arrow_ok pruned ios n m d = Some (m', d') →
    (saved', failed') = report (mt_flushErrors m' =? mt_flushErrors m) (entries f.2) (saved, failed) →
    mt_step (mkMS m d acked saved failed) (mkMS m' d' acked saved' failed')
| mt_flush m d acked saved failed saved' failed' arrow_ok pruned ios ok m' d' :
    Flush arrow_ok pruned ios m d = Some (ok, m', d') →
    (saved', failed') = report ok (entries (mt_skipList m)) (saved, failed) →
    mt_step (mkMS m d acked saved failed) (mkMS m' d' acked saved' failed')
| mt_shut m d acked saved failed : mt_step (mkMS m d acked saved failed) (mkMS (with_closed m) d acked saved failed).

Definition mt_reachable (arenaSize maxEntries : Z) (fb : bool) (d : Disk) : mt_state → Prop :=
  rtc mt_step (mkMS (NewMemTable arenaSize maxEntries fb) d [] [] []).

Definition conserved (st : mt_state) : Prop :=
  mt_inv (ms_table st) ∧ ms_acked st ≡ₚ all_entries (ms_table st) ++ ms_saved st ++ ms_failed st.

Lemma report_perm ok es saved failed saved' failed' :
  (saved', failed') = report ok es (saved, failed) → saved' ++ failed' ≡ₚ es ++ saved ++ failed.
Proof.
  unfold report. destruct ok; cbn [fst snd]; intros [= -> ->]; [by rewrite app_assoc|].
  rewrite !app_assoc. apply Permutation_app; [apply Permutation_app_comm|done].
Qed.

Lemma report_moves ok es saved failed saved' failed' acked a a' :
  (saved', failed') = report ok es (saved, failed) → a ≡ₚ es ++ a' → acked ≡ₚ a ++ saved ++ failed →
  acked ≡ₚ a' ++ saved' ++ failed'.
Proof.
  intros Hr Ha Hp. rewrite (report_perm _ _ _ _ _ _ Hr), Hp, Ha, (Permutation_app_comm es a'). by rewrite <- !app_assoc.
Qed.

Lemma mt_step_conserves st st' : mt_step st st' → conserved st → conserved st'.
Proof.
  intros Hst [Hm Hp]. destruct Hst as [m dd acked saved failed coins sel ev err m' He Ew|
    m dd acked saved failed saved' failed' ao pr ios n f m' d' Ef Ej Er|m dd acked saved failed saved' failed' ao pr ios ok m' d' Ef Er|
    m dd acked saved failed]; unfold conserved; cbn [ms_table ms_acked ms_saved ms_failed] in *.
  - destruct (Write_keeps coins sel ev m Hm He) as (err' & m2 & Ew' & Hm' & Hp' & _). rewrite Ew' in Ew. injection Ew as -> ->.
    split; [done|]. by rewrite Hp', Hp, !app_assoc.
  - destruct (job_keeps _ _ _ _ _ _ _ _ _ Hm Ef Ej) as [Hm' Hp']. split; [done|]. eapply report_moves; [exact Er|exact Hp'|exact Hp].
  - destruct (Flush_keeps _ _ _ _ _ _ _ _ Hm Ef) as (Hm' & Hp' & _). split; [done|]. eapply report_moves; [exact Er|exact Hp'|exact Hp].
  - split; [|done]. by destruct Hm as [H1 H2 H3 H4].
Qed.

Lemma mt_steps_conserve st st' : rtc mt_step st st' → conserved st → conserved st'.
Proof. induction 1 as [|a b c Hab _ IH]; [done|]. intros Ha. by eapply IH, mt_step_conserves. Qed.

Lemma mt_reachable_inv arenaSize maxEntries fb d st :
  nodeSize <= arenaSize → arenaSize + nodeSize < 2 ^ 32 → mt_reachable arenaSize maxEntries fb d st → conserved st.
Proof.
  intros H1 H2 Hr. eapply mt_steps_conserve; [exact Hr|]. split; [by apply new_mt_inv|].
  unfold all_entries. cbn [ms_table ms_acked ms_saved ms_failed NewMemTable mt_skipList mt_frozen]. by rewrite new_entries.
Qed.

(** ** Close *)

(** The flushes in flight all end. *)
Lemma drain_steps arrow_ok pruned jobs k m d acked saved failed :
  mt_inv m → length (mt_frozen m) = k →
  ∃ m' d' saved' failed', drain arrow_ok pruned jobs k m d = Some (m', d') ∧
    rtc mt_step (mkMS m d acked saved failed) (mkMS m' d' acked saved' failed') ∧
    mt_frozen m' = [] ∧ mt_skipList m' = mt_skipList m ∧ mt_closed m' = mt_closed m.
Proof.
  revert m d saved failed. induction k as [|k IH]; intros m d saved failed Hm Hk; cbn [drain].
  { exists m, d, saved, failed. split_and!; [done|apply rtc_refl|by apply nil_length_inv|done|done]. }
  destruct (mt_frozen m) as [|f fs] eqn:Ef; [done|].
  assert (mt_frozen m !! 0%nat = Some f) as E0 by (by rewrite Ef).
  destruct (job_total arrow_ok (pruned k) (jobs k) 0 m d Hm) as (m1 & d1 & Ej). rewrite Ej. cbn [mbind option_bind].
  destruct (job_keeps _ _ _ _ _ _ _ _ _ Hm E0 Ej) as [Hm1 _].
  destruct (report (mt_flushErrors m1 =? mt_flushErrors m) (entries f.2) (saved, failed)) as [s1 f1] eqn:Er.
  assert (mt_frozen m1 = fs ∧ mt_skipList m1 = mt_skipList m ∧ mt_closed m1 = mt_closed m) as (E1 & E2 & E3).
  { unfold flush_job in Ej. rewrite E0 in Ej. destruct f as [kf f]. destruct (FlushArenaToIPC _ _ _ f _) as [[[[? ?] ?] ?]|]; [|done].
    cbn [mbind option_bind] in Ej. injection Ej as <- <-. cbn [with_flush mt_frozen mt_skipList mt_closed]. by rewrite Ef. }
  destruct (IH m1 d1 s1 f1 Hm1) as (m' & d' & s' & f' & -> & Hs & H1 & H2 & H3); [rewrite E1; by injection Hk|].
  exists m', d', s', f'. split_and!; [done| |done|congruence|congruence]. eapply rtc_l; [|exact Hs].
  by eapply (mt_job _ _ _ _ _ _ _ _ _ _ 0%nat f).
Qed.

(** Close returns, is a sequence of the steps above, and leaves an empty table
    when it returns nil. *)
Lemma close_steps arrow_ok pruned ios jobs prunes m d acked saved failed :
  mt_inv m →
  ∃ ok m' d' saved' failed', MemTable_Close arrow_ok pruned ios jobs prunes m d = Some (ok, m', d') ∧
    rtc mt_step (mkMS m d acked saved failed) (mkMS m' d' acked saved' failed') ∧
    mt_closed m' = true ∧ (ok = true → all_entries m' = []).
Proof.
  intros Hm. unfold MemTable_Close. fold (with_closed m).
  assert (mt_inv (with_closed m)) as Hmc by (by destruct Hm).
  destruct (Flush_total arrow_ok pruned ios _ d Hmc) as (ok & m1 & d1 & Ef). rewrite Ef. cbn [mbind option_bind].
  destruct (Flush_keeps _ _ _ _ _ _ _ _ Hmc Ef) as (Hm1 & _ & Hempty).
  assert (mt_closed m1 = true) as Hc1.
  { unfold Flush in Ef. destruct (_ =? 0); [by injection Ef as <- <- <-|].
    destruct (FlushArenaToIPC _ _ _ _ _) as [[[[? ?] ?] []]|]; [| |done]; cbn [mbind option_bind] in Ef; by injection Ef as <- <- <-. }
  destruct (report ok (entries (mt_skipList (with_closed m))) (saved, failed)) as [s1 f1] eqn:Er.
  assert (rtc mt_step (mkMS m d acked saved failed) (mkMS m1 d1 acked s1 f1)) as Hs1.
  { eapply rtc_l; [apply mt_shut|]. eapply rtc_once. by eapply mt_flush. }
  destruct ok.
  - destruct (drain_steps arrow_ok prunes jobs (length (mt_frozen m1)) m1 d1 acked s1 f1 Hm1 eq_refl)
      as (m' & d' & s' & f' & -> & Hs & H1 & H2 & H3). cbn [mbind option_bind].
    exists true, m', d', s', f'. split_and!; [done|by etrans|congruence|]. intros _. unfold all_entries. by rewrite H1, H2, Hempty.
  - exists false, m1, d1, s1, f1. by split_and!.
Qed.

(** C19.  Of the MemTable's calls, one at a time (two overlapping Puts can break
    an arena, SkipList.interleaved_data_overlaps_node): whatever writes, background
    flushes in any order, synchronous flushes, closes and failures came before, the
    acknowledged writes are exactly the entries of the active arena, of the arenas
    in flight and of those whose flush reported success or failure.  No call panics,
    neither the mask nor the decoding of an entry; a write of an event that passes
    the checks succeeds whenever the table is open and the selects find a slot.
    When Flush returns nil, or a background flush counts no error, every row of the
    arena whose entity is not pruned is then in a file of the object store or of
    the fallback directory, provided the 8-byte hashes in the file names tell the
    arena's entities apart.  Close ends, closes the table, and leaves it empty when
    it returns nil. *)
Theorem memtable_conserves_writes (arenaSize maxEntries : Z) (fb : bool) (d : Disk) (st : mt_state) :
  nodeSize <= arenaSize → arenaSize + nodeSize < 2 ^ 32 → mt_reachable arenaSize maxEntries fb d st →
  let m := ms_table st in
  ms_acked st ≡ₚ all_entries m ++ ms_saved st ++ ms_failed st ∧
  (∀ coins sel ev, event_sized ev →
     ∃ err m', Write coins sel ev m = Some (err, m') ∧
       (writable (mt_arenaSize m) ev → mt_closed m = false → (∀ i, sel i = SlotFree) → err = None)) ∧
  (∀ arrow_ok pruned ios n f, mt_frozen m !! n = Some f →
     ∃ m' d', flush_job arrow_ok pruned ios n m (ms_disk st) = Some (m', d') ∧
       (mt_flushErrors m' = mt_flushErrors m → arena_saved pruned f.2 d')) ∧
  (∀ arrow_ok pruned ios,
     ∃ ok m' d', Flush arrow_ok pruned ios m (ms_disk st) = Some (ok, m', d') ∧
       (ok = true → arena_saved pruned (mt_skipList m) d')) ∧
  (∀ arrow_ok pruned ios jobs prunes,
     ∃ ok m' d' saved failed, MemTable_Close arrow_ok pruned ios jobs prunes m (ms_disk st) = Some (ok, m', d') ∧
       mt_reachable arenaSize maxEntries fb d (mkMS m' d' (ms_acked st) saved failed) ∧
       mt_closed m' = true ∧ (ok = true → all_entries m' = [])).
Proof.
  intros H1 H2 Hr m. destruct (mt_reachable_inv _ _ _ _ _ H1 H2 Hr) as [Hm Hp]. fold m in Hm, Hp. split_and!; [done|..].
  - intros coins sel ev He. destruct (Write_keeps coins sel ev _ Hm He) as (err & m' & E & _ & _ & _ & Hok). by exists err, m'.
  - intros arrow_ok pruned ios n f Ef. destruct (job_total arrow_ok pruned ios n _ (ms_disk st) Hm) as (m' & d' & E).
    exists m', d'. split; [done|]. by eapply job_saves.
  - intros arrow_ok pruned ios. destruct (Flush_total arrow_ok pruned ios _ (ms_disk st) Hm) as (ok & m' & d' & E).
    exists ok, m', d'. split; [done|]. intros ->. by eapply Flush_saves.
  - intros arrow_ok pruned ios jobs prunes. destruct st as [mt dd acked saved failed]. subst m. cbn [ms_table ms_disk ms_acked] in *.
    destruct (close_steps arrow_ok pruned ios jobs prunes mt dd acked saved failed Hm) as (ok & m' & d' & s' & f' & E & Hs & Hc & He).
    exists ok, m', d', s', f'. split_and!; [done| |done|done]. unfold mt_reachable in *. by etrans.
Qed.
End System.
