(* ===== verification/CkptFlush.v ===== *)
(** The checkpoint's delta flush through the MemTable (pkg/durability/bridge.go
    and snapshot.go on internal/database): one file per changed entity, and the
    flush step of the query tier for each of them. *)
From S2P Require Import Prelude Bytes Sha256 Dots Sorting LsmKeys Resolver L1Compactor LsmPrune.
From S2P Require Import ResolverThms LsmInv LsmSteps LsmThms SkipList Pii Tombstones MemTable.
From S2P Require Import MemTableThms.

(** ** Writes to the store *)

Definition puts (kvs : list (list Z * list Z)) (s : Store) : Store := foldl (λ s kv, <[kv.1 := kv.2]> s) s kvs.

Lemma puts_out kvs s k : k ∉ kvs.*1 → puts kvs s !! k = s !! k.
Proof.
  revert s. induction kvs as [|[k' v'] kvs IH]; intros s Hn; [done|]. rewrite fmap_cons in Hn. apply not_elem_of_cons in Hn as [Hne Hn].
  change (puts kvs (<[k' := v']> s) !! k = s !! k). rewrite IH by done. by rewrite lookup_insert_ne.
Qed.

Lemma puts_in kvs s k v : NoDup kvs.*1 → (k, v) ∈ kvs → puts kvs s !! k = Some v.
Proof.
  revert s. induction kvs as [|[k' v'] kvs IH]; intros s Hd Hin; [by apply not_elem_of_nil in Hin|].
  rewrite fmap_cons in Hd. apply NoDup_cons in Hd as [Hn Hd]. change (puts kvs (<[k' := v']> s) !! k = Some v).
  apply elem_of_cons in Hin as [[= -> ->]|Hin]; [|by apply IH]. rewrite puts_out by done. apply lookup_insert_eq.
Qed.

Lemma puts_perm kvs kvs' s : kvs ≡ₚ kvs' → NoDup kvs.*1 → puts kvs s = puts kvs' s.
Proof.
  intros Hp Hd. assert (NoDup kvs'.*1) as Hd' by (by rewrite <- Hp). apply map_eq. intros k. destruct (decide (k ∈ kvs.*1)) as [Hk|Hk].
  - apply list_elem_of_fmap in Hk as ([k' v] & -> & Hin). cbn [fst]. rewrite (puts_in kvs s k' v), (puts_in kvs' s k' v); [done|done|by rewrite <- Hp|done|done].
  - rewrite !puts_out; [done|by rewrite <- Hp|done].
Qed.

Section Delta.
Context `{AI : ArrowIPC} `{XX : XXHash}.

Definition part_put (g : open_partition) : list Z * list Z := (partition_key (part_of g), Buf (part_of g)).

(** Uploads that succeed at the first attempt. *)
Definition uploads_ok (ios : nat → PartIO) : Prop := ∀ i, io_up (ios i) 0%nat = UpStored.

Lemma sync_emits fb ios p st : uploads_ok ios → (emit_sync fb ios p st).2 = true.
Proof. intros Hup. destruct st as [[i d] failed]. unfold emit_sync. rewrite Hup. done. Qed.

Lemma sync_puts fb ios gs i d failed : uploads_ok ios →
  foldl (λ st g, (emit_sync fb ios (part_of g) st).1) (i, d, failed) gs =
  ((i + length gs)%nat, mkDisk (puts (map part_put gs) (d_store d)) (d_fallback d), failed).
Proof.
  intros Hup. revert i d. induction gs as [|g gs IH]; intros i d; cbn [foldl map].
  { rewrite Nat.add_0_r. by destruct d. }
  unfold emit_sync at 2. rewrite Hup. cbn [UploadPartition do_upload fst]. rewrite IH. cbn [d_store d_fallback puts foldl].
  do 2 f_equal. cbn [length]. lia.
Qed.

(** Flush with uploads that succeed writes the groups of the active arena. *)
Lemma Flush_puts arrow_ok ios m d :
  mt_inv m → uploads_ok ios → (∀ rows, arrow_ok rows = true) →
  ∃ m' gs, Flush arrow_ok ∅ ios m d = Some (true, m', mkDisk (puts (map part_put gs) (d_store d)) (d_fallback d)) ∧
    concat (map g_rows gs) = rows_of (entries (mt_skipList m)) ∧ Forall part_ok gs ∧ NoDup (map g_hash gs).
Proof.
  intros Hm Hup Har. destruct (mi_active _ Hm) as [Hr Hw]. unfold Flush. destruct (Z.eqb_spec (nodeCount (mt_skipList m)) 0) as [E|E].
  { exists m, []. destruct d. split; [done|]. pose proof (mi_fresh _ Hm E) as Hf. apply (f_equal st_entries) in Hf. cbn [store_of st_entries] in Hf.
    rewrite Hf. by repeat split; constructor. }
  destruct (flush_groups (emit_sync (mt_fallbackDir m) ios) arrow_ok ∅ _ (mt_skipList m) (O, d, false) Hr Hw) as (gs & Ef & Hc & Hp & Hd & _);
    [intros; by apply sync_emits|done|].
  cbn [with_skipList mt_fallbackDir]. rewrite Ef, sync_puts by done. cbn [mbind option_bind].
  eexists _, gs. split; [done|]. split; [|done]. rewrite Hc. clear. induction (rows_of _) as [|r rs IH]; [done|].
  rewrite filter_cons, decide_True by set_solver. by rewrite IH.
Qed.

(** ** Groups of one row *)

Lemma groups_single rs gs :
  concat (map g_rows gs) = rs → Forall part_ok gs → NoDup (map entity_id_hash rs) →
  gs = map (λ r, (entity_id_hash r, system_time r, [r])) rs.
Proof.
  intros <- Hp. induction Hp as [|[[h f] rows] gs (r & rows' & Er & Ef & Hh) _ IH]; intros Hd; [done|]. unfold g_rows, g_first, g_hash in *.
  cbn [map concat fst snd] in *. subst rows f. rewrite map_app in *. apply NoDup_app in Hd as (Hd1 & _ & Hd2).
  apply Forall_cons in Hh as [Hr Hh]. destruct rows' as [|r2 rows'].
  - cbn [map app]. rewrite Hr. f_equal. by apply IH.
  - exfalso. apply Forall_cons in Hh as [Hr2 _]. cbn [map] in Hd1. apply NoDup_cons in Hd1 as [Hn _]. apply Hn. rewrite Hr, <- Hr2. by left.
Qed.

(** The row and the file of an entity of the delta. *)
Definition delta_row (kx : string * CRDTEntry) : Row := event_row (queryTierEvent kx.1 kx.2) [].
Definition delta_put (kx : string * CRDTEntry) : list Z * list Z :=
  (l0KeyFor (h8 (string_bytes kx.1)) (SystemTime kx.2), ipc_write [delta_row kx]).

Lemma single_put kx : part_put (entity_id_hash (delta_row kx), system_time (delta_row kx), [delta_row kx]) = delta_put kx.
Proof. reflexivity. Qed.

(** ** Staging *)

Lemma query_event_sized k x : sized_entry x → event_sized (queryTierEvent k x).
Proof. intros ((H1 & _) & _ & _ & H2 & H3 & H4 & H5 & H6 & _). by split. Qed.

Definition delta_cost (kx : string * CRDTEntry) : Z := totalEventSize (queryTierEvent kx.1 kx.2) [].

(** A delta that Write takes without a swap. *)
Record delta_fits (room count : Z) (delta : list (string * CRDTEntry)) : Prop := {
  df_entry : Forall (λ kx, sized_entry kx.2) delta;
  df_id : Forall (λ kx, Z.of_nat (length (string_bytes kx.1)) <= 65535 ∧ ValidString (string_bytes kx.1) = true) delta;
  df_room : foldr (λ kx n, delta_cost kx + n) 0 delta <= room;
  df_count : Z.of_nat (length delta) <= count;
}.

Definition room_of (m : MemTable) : Z := dataBottom (mt_skipList m) - nodeTop (mt_skipList m).

(** Without a swap: Put succeeds in the active arena. *)
Lemma Write_fits coins sel ev m :
  mt_inv m → event_sized ev → writable (mt_arenaSize m) ev → mt_closed m = false → nodeCount (mt_skipList m) < mt_maxEntries m →
  totalEventSize ev (mask 0 (te_Payload ev)) <= room_of m →
  ∃ sl, Write coins sel ev m = Some (None, with_skipList sl m) ∧ mt_inv (with_skipList sl m) ∧
    entries sl ≡ₚ event_entry ev :: entries (mt_skipList m) ∧ nodeCount sl = nodeCount (mt_skipList m) + 1 ∧
    room_of (with_skipList sl m) = room_of m - totalEventSize ev (mask 0 (te_Payload ev)).
Proof.
  intros Hm He Hwr Hc Hcnt Hroom. pose proof (mi_size _ Hm) as [Hs1 Hs2]. pose proof Hwr as (Hid & Hu & Hsz).
  destruct (entry_small (mt_arenaSize m) ev He Hwr ltac:(unfold nodeSize in *; lia)) as [Hw Hsm].
  pose proof (length_event_value ev (mask 0 (te_Payload ev)) (sized_typed ev He Hid)) as Hv.
  unfold Write. rewrite (proj2 (Z.ltb_ge _ _)) by done. rewrite Hu. cbn [negb]. rewrite MaskPII_spec. cbn [mbind option_bind].
  unfold u64. rewrite Z.mod_small by (unfold nodeSize in *; lia). rewrite (proj2 (Z.ltb_ge _ _)) by done. rewrite Hc.
  rewrite (proj2 (Z.leb_gt _ _)) by done. rewrite Hc.
  destruct (mi_active _ Hm) as [Hr _]. pose proof (randomHeight_bounds (coins 4%nat) 1 ltac:(unfold maxHeight; lia)) as Hh.
  destruct (Put _ (event_key ev) _ (mt_skipList m)) as [ok sl] eqn:Ep.
  destruct (put_active m _ (event_entry ev).1 (event_entry ev).2 ok sl Hm Hh Hw Hsm Ep) as (Hm2 & Hp2 & _).
  pose proof (Put_spec (mt_arenaSize m) (mt_skipList m) _ (event_key ev) (event_value ev (mask 0 (te_Payload ev))) Hr Hh) as Hps.
  rewrite Ep in Hps. destruct Hps as [(_ & _ & _ & Hn) Hst]; [rewrite length_event_key; unfold totalEventSize, keySize, nodeSize in *; lia|].
  unfold store_put, store_of in Hst. cbn [st_entries st_top st_bottom] in Hst. unfold room_of in *.
  assert (Z.of_nat (length (event_key ev ++ event_value ev (mask 0 (te_Payload ev)))) = totalEventSize ev (mask 0 (te_Payload ev)) - nodeSize) as El.
  { rewrite length_app, length_event_key, Nat2Z.inj_add, Hv. unfold keySize. lia. }
  rewrite El, (proj2 (Z.leb_le _ _)) in Hst by lia. injection Hst as -> He' Ht' Hb'.
  exists sl. split; [done|]. split; [done|]. split; [exact Hp2|]. destruct Hr as (_ & _ & _ & Hn0).
  split; [rewrite Hn, Hn0, Hp2; cbn [length app]; lia|]. cbn [with_skipList mt_skipList]. rewrite Ht', Hb'. lia.
Qed.

Definition delta_entry (kx : string * CRDTEntry) : list Z * list Z := event_entry (queryTierEvent kx.1 kx.2).

Lemma room_le m : mt_inv m → room_of m <= mt_arenaSize m - nodeSize.
Proof.
  intros Hm. destruct (mi_active _ Hm) as [((L & Hinv) & Ha & _) _]. pose proof (si_bounds _ _ Hinv). unfold room_of. lia.
Qed.

Lemma stage_fits coins sel i delta m :
  mt_inv m → mt_closed m = false → delta_fits (room_of m) (mt_maxEntries m - nodeCount (mt_skipList m)) delta →
  ∃ sl, stage_rows coins sel i delta m = Some (true, with_skipList sl m) ∧ mt_inv (with_skipList sl m) ∧
    entries sl ≡ₚ map delta_entry delta ++ entries (mt_skipList m).
Proof.
  revert i m. induction delta as [|[k x] delta IH]; intros i m Hm Hc [H1 H2 H3 H4]; cbn [stage_rows].
  { exists (mt_skipList m). destruct m. by split_and!. }
  apply Forall_cons in H1 as [Hx H1]. apply Forall_cons in H2 as [[Hid Hu] H2]. cbn [fst snd foldr length] in *.
  pose proof (room_le m Hm) as Hrl. set (ev := queryTierEvent k x) in *.
  assert (0 <= foldr (λ kx n, delta_cost kx + n) 0 delta) as Hnn.
  { clear. induction delta as [|kx delta IH]; cbn [foldr]; [lia|].
    assert (0 <= delta_cost kx) by (unfold delta_cost, totalEventSize, keySize, nodeSize; lia). lia. }
  assert (delta_cost (k, x) = totalEventSize ev (mask 0 (te_Payload ev))) as Ec by done.
  destruct (Write_fits (coins i) (sel i) ev m) as (sl & -> & Hm1 & Hp & Hcnt & Hroom);
    [done|by apply query_event_sized|split_and!; [done|done|lia]|done|lia|lia|].
  cbn [mbind option_bind]. destruct (IH (S i) (with_skipList sl m) Hm1 Hc) as (sl' & E & Hm2 & Hp2).
  - split; [done|done|rewrite Hroom; lia|cbn [with_skipList mt_skipList mt_maxEntries]; lia].
  - exists sl'. split; [exact E|]. split; [exact Hm2|]. cbn [with_skipList mt_skipList] in Hp2. rewrite Hp2, Hp. cbn [map app].
    symmetry. apply Permutation_middle.
Qed.

Lemma rows_of_delta delta :
  Forall (λ kx, sized_entry kx.2) delta →
  Forall (λ kx, Z.of_nat (length (string_bytes kx.1)) <= 65535 ∧ ValidString (string_bytes kx.1) = true) delta →
  rows_of (map delta_entry delta) = map delta_row delta.
Proof.
  induction delta as [|[k x] delta IH]; intros H1 H2; [done|]. apply Forall_cons in H1 as [Hx H1]. apply Forall_cons in H2 as [[Hid _] H2].
  cbn [map fst snd] in *. unfold delta_entry at 1, event_entry. cbn [fst snd]. rewrite rows_of_cons; [by rewrite IH| |cbn; lia].
  apply sized_typed; [by apply query_event_sized|done].
Qed.

Lemma h8_keys delta :
  NoDup (map (λ kx, h8 (string_bytes kx.1)) delta) → NoDup (map delta_put delta).*1.
Proof.
  induction delta as [|[k x] delta IH]; intros Hd; [constructor|]. cbn [map fst] in Hd. apply NoDup_cons in Hd as [Hn Hd].
  cbn [map]. rewrite fmap_cons. constructor; [|by apply IH]. intros Hin. apply Hn. apply list_elem_of_fmap in Hin as (kv & E & Hin).
  apply list_elem_of_fmap in Hin as ([k' x'] & -> & Hin). cbn [delta_put fst snd] in E. apply list_elem_of_fmap. exists (k', x'). split; [|done].
  apply (f_equal (λ key, HasPrefix key (l0Prefix (h8 (string_bytes k'))))) in E. rewrite !l0_prefix in E by apply h8_ok.
  rewrite (bool_decide_eq_true_2 (h8 (string_bytes k') = _)) in E by done. cbn [fst]. by apply bool_decide_eq_true in E.
Qed.

(** The delta of a checkpoint becomes one file for each of its entities. *)
Lemma stage_flush_puts coins sel arrow_ok ios delta m d :
  mt_inv m → mt_closed m = false → entries (mt_skipList m) = [] →
  delta_fits (room_of m) (mt_maxEntries m - nodeCount (mt_skipList m)) delta →
  NoDup (map (λ kx, h8 (string_bytes kx.1)) delta) → uploads_ok ios → (∀ rows, arrow_ok rows = true) →
  ∃ m' kvs, stageAndFlushQueryTierDelta coins sel arrow_ok ios delta m d = Some (true, m', mkDisk (puts kvs (d_store d)) (d_fallback d)) ∧
    kvs ≡ₚ map delta_put delta ∧ NoDup kvs.*1.
Proof.
  intros Hm Hc He Hfit Hd Hup Har. unfold stageAndFlushQueryTierDelta.
  destruct (stage_fits coins sel 0 delta m Hm Hc Hfit) as (sl & -> & Hm1 & Hp). cbn [mbind option_bind]. rewrite He, app_nil_r in Hp.
  destruct (Flush_puts arrow_ok ios (with_skipList sl m) d Hm1 Hup Har) as (m' & gs & -> & Hcat & Hpo & _). cbn [with_skipList mt_skipList] in Hcat.
  assert (rows_of (entries sl) ≡ₚ map delta_row delta) as Hrows.
  { rewrite <- rows_of_delta by apply Hfit. unfold rows_of. by rewrite Hp. }
  rewrite (groups_single _ gs Hcat Hpo).
  2:{ rewrite Hrows. apply (NoDup_fmap_1 (take 8)). change (NoDup (map (take 8) (map entity_id_hash (map delta_row delta)))). rewrite !map_map. exact Hd. }
  assert (map part_put (map (λ r, (entity_id_hash r, system_time r, [r])) (rows_of (entries sl))) ≡ₚ map delta_put delta) as Hk.
  { rewrite Hrows. rewrite !map_map. done. }
  exists m'. eexists. split; [done|]. split; [done|]. rewrite Hk. by apply h8_keys.
Qed.

Lemma snapshot_flush coins sel arrow_ok ios delta fb d :
  delta_fits (2 ^ 22 - nodeSize) (2 ^ 20) delta → NoDup (map (λ kx, h8 (string_bytes kx.1)) delta) →
  uploads_ok ios → (∀ rows, arrow_ok rows = true) →
  ∃ m' kvs, stageAndFlushQueryTierDelta coins sel arrow_ok ios delta (NewSnapshotMemTable fb) d =
      Some (true, m', mkDisk (puts kvs (d_store d)) (d_fallback d)) ∧
    kvs ≡ₚ map delta_put delta ∧ NoDup kvs.*1.
Proof.
  intros Hfit Hd Hup Har. unfold NewSnapshotMemTable. set (size := 2 ^ 22) in *. set (cap := 2 ^ 20) in *.
  assert (mt_inv (NewMemTable size cap fb)) as Hm by (apply new_mt_inv; subst size; unfold nodeSize; lia).
  apply stage_flush_puts; [done|done|apply new_entries| |done|done|done].
  destruct (new_run_inv size ltac:(subst size; unfold nodeSize; lia) ltac:(subst size; unfold nodeSize; lia)) as [_ En].
  assert (room_of (NewMemTable size cap fb) = size - nodeSize) as -> by done.
  assert (mt_maxEntries (NewMemTable size cap fb) - nodeCount (mt_skipList (NewMemTable size cap fb)) = cap) as -> by (cbn [NewMemTable mt_maxEntries mt_skipList NewSkipListArena nodeCount]; lia).
  done.
Qed.

(** ** The query tier's step *)

(** Files of other entities leave an entity's tier as it is. *)
Lemma lsm_put_others eid st kvs :
  eid ≠ [] → lsm_reachable eid st → Forall (λ kv, ∃ h n, hash8_ok h ∧ h ≠ h8 eid ∧ kv.1 = l0KeyFor h n) kvs →
  lsm_reachable eid (mkLsm (puts kvs (ls_store st)) (ls_hist st) (ls_hz st) (ls_reaped st)).
Proof.
  intros Hne Hr Hkvs. pose proof (lsm_reachable_inv eid st Hne Hr) as [Hok _]. rewrite Forall_forall in Hkvs.
  assert (∀ k h, k ∈ kvs.*1 → HasPrefix k (lit "compaction/") = false ∧ HasPrefix k (l1Prefix h) = false ∧ HasPrefix k (manifestsPrefix h) = false ∧
            HasPrefix k (l0Prefix (h8 eid)) = false) as Hout.
  { intros k h (kv & -> & Hin)%list_elem_of_fmap. destruct (Hkvs kv Hin) as (h' & n & Hh & Hne' & ->).
    assert (∀ p, (3 <= length p)%nat → tier_of p ≠ [108; 48; 47] → HasPrefix (l0KeyFor h' n) p = false) as Hp.
    { intros p Hl Ht. destruct (HasPrefix (l0KeyFor h' n) p) eqn:E; [|done]. apply tier_prefix in E; [|done]. by rewrite tier_l0K in E. }
    split_and!; [apply Hp; [cbn; lia|done]|apply Hp; [cbn; lia|done]|apply Hp; [cbn; lia|done]|].
    rewrite l0_prefix by done. by apply bool_decide_eq_false_2. }
  eapply rtc_r; [exact Hr|]. destruct st as [s hist hz rp]. cbn [ls_store ls_hist ls_hz ls_reaped] in *. exists (EvOther (puts kvs s)). split; [split|done].
  - intros k Hk. apply puts_out. intros Hin. destruct (Hout k (h8 eid) Hin) as (_ & H1 & H2 & H3). destruct Hk as [?|[?|?]]; congruence.
  - intros k data E Hp. rewrite puts_out in E by (intros Hin; destruct (Hout k (h8 eid) Hin) as [? _]; congruence).
    destruct (tk_manifest _ _ _ _ Hok k data E Hp) as (h & n & ns & Hh & Hn & Hns & Ek & Ed & _). destruct (decide (h = h8 eid)) as [->|Hd].
    + left. right. right. rewrite Ek. rewrite manifestKey_prefix by done. by apply bool_decide_eq_true_2.
    + right. by exists h, n, ns.
Qed.

(** The flush step of one entity of the delta. *)
Lemma delta_step coins sel arrow_ok ios delta fb d k x st :
  delta_fits (2 ^ 22 - nodeSize) (2 ^ 20) delta → NoDup (map (λ kx, h8 (string_bytes kx.1)) delta) →
  uploads_ok ios → (∀ rows, arrow_ok rows = true) →
  (k, x) ∈ delta → string_bytes k ≠ [] → 0 <= SystemTime x →
  lsm_reachable (string_bytes k) st → ls_store st = d_store d → SystemTime x ∉ map system_time (ls_hist st) →
  ∃ m' d', stageAndFlushQueryTierDelta coins sel arrow_ok ios delta (NewSnapshotMemTable fb) d = Some (true, m', d') ∧
    lsm_reachable (string_bytes k) (mkLsm (d_store d') (ls_hist st ++ [delta_row (k, x)]) (ls_hz st) (ls_reaped st)).
Proof.
  intros Hfit Hd Hup Har Hin Hne Hsys Hr Es Hfresh.
  destruct (snapshot_flush coins sel arrow_ok ios delta fb d Hfit Hd Hup Har) as (m' & kvs & E & Hp & Hnd).
  exists m'. eexists. split; [exact E|]. cbn [d_store]. apply elem_of_Permutation in Hin as [delta' Hdel].
  assert (sized_entry x) as Hx by (pose proof (df_entry _ _ _ Hfit) as Hf; rewrite Forall_forall in Hf; apply (Hf (k, x)); rewrite Hdel; by left).
  rewrite Hdel in Hp, Hd. cbn [map fst] in Hp, Hd. apply NoDup_cons in Hd as [Hn Hd].
  rewrite (puts_perm kvs (map delta_put delta' ++ [delta_put (k, x)])); [|by rewrite Hp, Permutation_cons_append|done].
  unfold puts. rewrite foldl_app. cbn [foldl delta_put fst snd]. fold (puts (map delta_put delta') (d_store d)). rewrite <- Es.
  eapply rtc_r; [apply (lsm_put_others _ st (map delta_put delta') Hne Hr)|].
  - apply Forall_map, Forall_forall. intros [k' x'] Hin. exists (h8 (string_bytes k')), (SystemTime x'). split; [apply h8_ok|]. split; [|done].
    intros E'. apply Hn. rewrite <- E'. apply list_elem_of_fmap. by exists (k', x').
  - apply lsm_flush; [|by repeat constructor|by left|done]. constructor; [|done]. split; [by split|]. split; [|done].
    destruct Hx as ((H1 & _) & _ & _ & H2 & H3 & H4 & H5 & H6 & _). split; cbn; [apply length_hash16|done..].
Qed.

(** C5. A checkpoint's delta flush from a fresh MemTable, of a delta that fits
    its 4 MiB and 2^20 entries, whose ids are valid UTF-8 of at most 65535 bytes
    with different 8-byte hashes, when uploads and the Arrow encoding succeed:
    it returns nil, and for an entity of the delta with a non-empty id, a
    non-negative system time new to the entity and a tier reached by a regular
    run (lsm_regular), the store it leaves is that tier one flush later, so that
    AsOf, with calm I/O, at most MaxL0Files level-0 files and a transaction time
    at or after the pruning horizon, answers from the entity's whole history and
    the new row. invalid_id_blocks_flush and equal_time_replaces_file show what
    happens otherwise; failed uploads are reported as success. *)
Theorem checkpoint_flush_reaches_queries coins sel arrow_ok ios delta fb d k x st :
  delta_fits (2 ^ 22 - nodeSize) (2 ^ 20) delta → NoDup (map (λ kx, h8 (string_bytes kx.1)) delta) →
  uploads_ok ios → (∀ rows, arrow_ok rows = true) →
  (k, x) ∈ delta → string_bytes k ≠ [] → 0 <= SystemTime x →
  lsm_reachable (string_bytes k) st → ls_store st = d_store d → SystemTime x ∉ map system_time (ls_hist st) →
  ∃ m' d', stageAndFlushQueryTierDelta coins sel arrow_ok ios delta (NewSnapshotMemTable fb) d = Some (true, m', d') ∧
    let hist := ls_hist st ++ [delta_row (k, x)] in
    lsm_reachable (string_bytes k) (mkLsm (d_store d') hist (ls_hz st) (ls_reaped st)) ∧
    ∀ env live v t r, calm env (d_store d') → ls_hz st <= t →
      (∀ l, list_objects env (d_store d') (l0Prefix (h8 (string_bytes k))) = Some l → Z.of_nat (length l) <= MaxL0Files (r_config r)) →
      answers (recorded (string_bytes k) hist live) v t (AsOf env (d_store d') live (string_bytes k) v t r).1.
Proof.
  intros Hfit Hd Hup Har Hin Hne Hsys Hr Es Hfresh.
  pose proof (delta_step coins sel arrow_ok ios delta fb d k x st Hfit Hd Hup Har Hin Hne Hsys Hr Es Hfresh) as (m' & d' & E & Hr').
  exists m', d'. split; [done|]. cbn zeta. split; [done|]. intros env live v t r Hcalm Ht Hcap.
  eapply (asof_answers (string_bytes k) env (d_store d') Hcalm); [done|exact (li_tier _ _ (lsm_reachable_inv _ _ Hne Hr'))|done|done].
Qed.
End Delta.

(** * Checkpoint flushes on concrete data, and the ways a delta flush ends without
    its rows in the query tier. *)

Section Failures.
Context `{AI : ArrowIPC} `{XX : XXHash}.

(** Uploads that fail and store nothing, fallback writes that succeed. *)
Definition uploads_fail (ios : nat → PartIO) : Prop := ∀ i, io_up (ios i) 0%nat = UpFailed false ∧ io_write (ios i) = true.

Lemma fallback_emits ios p st : uploads_fail ios → (emit_sync true ios p st).2 = true ∧ d_store (emit_sync true ios p st).1.1.2 = d_store st.1.2.
Proof. intros Hf. destruct st as [[i d] failed]. unfold emit_sync. destruct (Hf i) as [-> Hw]. cbn. done. Qed.

(** C39.  When every upload of a checkpoint's delta flush fails and the fallback
    directory takes the files, the flush returns nil, and the object store, all
    that queries read, is as before: the checkpoint then records the delta as
    flushed, and its rows are written again only when their entities change. *)
Theorem failed_uploads_report_success coins sel arrow_ok ios delta d :
  delta_fits (2 ^ 22 - nodeSize) (2 ^ 20) delta → uploads_fail ios → (∀ rows, arrow_ok rows = true) →
  ∃ m' d', stageAndFlushQueryTierDelta coins sel arrow_ok ios delta (NewSnapshotMemTable true) d = Some (true, m', d') ∧
    d_store d' = d_store d.
Proof.
  intros Hfit Hf Har. unfold NewSnapshotMemTable, stageAndFlushQueryTierDelta. set (size := 2 ^ 22) in *. set (cap := 2 ^ 20) in *.
  set (m := NewMemTable size cap true). assert (mt_inv m) as Hm by (apply new_mt_inv; subst size; unfold nodeSize; lia).
  destruct (stage_fits coins sel 0 delta m Hm eq_refl) as (sl & -> & Hm1 & _).
  { assert (room_of m = size - nodeSize) as -> by done.
    assert (mt_maxEntries m - nodeCount (mt_skipList m) = cap) as -> by (cbn [m NewMemTable mt_maxEntries mt_skipList NewSkipListArena nodeCount]; lia). done. }
  cbn [mbind option_bind]. unfold Flush. destruct (_ =? 0); [by eexists _, _|]. cbn [with_skipList mt_skipList mt_fallbackDir m NewMemTable mt_arenaSize].
  destruct (mi_active _ Hm1) as [Hr Hw]. cbn [with_skipList mt_skipList mt_arenaSize] in Hr, Hw.
  destruct (flush_groups (emit_sync true ios) arrow_ok ∅ _ sl (O, d, false) Hr Hw) as (gs & -> & _);
    [intros p st; by apply fallback_emits|done|].
  assert (∀ st, d_store (foldl (λ st g, (emit_sync true ios (part_of g) st).1) st gs).1.2 = d_store st.1.2) as Hst.
  { clear -Hf. induction gs as [|g gs IH]; intros st; [done|]. cbn [foldl]. rewrite IH. by apply fallback_emits. }
  specialize (Hst (O, d, false)). destruct (foldl _ _ gs) as [[i d'] failed]. cbn [mbind option_bind fst snd] in *. by eexists _, d'.
Qed.

(** An id that is not UTF-8 fails the staging, so no row of the delta that comes
    after it is written and the flush does not run. *)
Lemma stage_invalid coins sel i delta m :
  mt_inv m → Forall (λ kx, sized_entry kx.2) delta → Exists (λ kx, ValidString (string_bytes kx.1) = false) delta →
  ∃ m', stage_rows coins sel i delta m = Some (false, m').
Proof.
  revert i m. induction delta as [|[k x] delta IH]; intros i m Hm Hs He; [by apply Exists_nil in He|]. apply Forall_cons in Hs as [Hx Hs].
  cbn [stage_rows]. destruct (Write_keeps (coins i) (sel i) (queryTierEvent k x) m Hm (query_event_sized k x Hx)) as (err & m' & -> & Hm' & _ & Hwr & _).
  cbn [mbind option_bind]. destruct err as [e|]; [by eexists|]. apply IH; [done|done|]. apply Exists_cons in He as [He|He]; [|done].
  destruct (Hwr eq_refl) as (_ & Hu & _). cbn in He, Hu. congruence.
Qed.

(** The engine takes entity ids of any bytes, the MemTable only UTF-8: with one
    entity in the delta whose id is not UTF-8, the flush of every checkpoint fails
    before it writes a file, whatever the other rows and however often it is
    tried. *)
Theorem invalid_id_blocks_flush coins sel arrow_ok ios delta fb d :
  Forall (λ kx, sized_entry kx.2) delta → Exists (λ kx, ValidString (string_bytes kx.1) = false) delta →
  ∃ m', stageAndFlushQueryTierDelta coins sel arrow_ok ios delta (NewSnapshotMemTable fb) d = Some (false, m', d).
Proof.
  intros Hs He. unfold stageAndFlushQueryTierDelta.
  destruct (stage_invalid coins sel 0 delta (NewSnapshotMemTable fb)) as [m' ->]; [|done|done|by exists m'].
  apply new_mt_inv; unfold nodeSize; lia.
Qed.

(** Two rows of an entity with one system time: the file of the second replaces
    the first's, and the store is as if the first had never been flushed. *)
Theorem equal_time_replaces_file coins sel arrow_ok ios fb k x y d :
  delta_fits (2 ^ 22 - nodeSize) (2 ^ 20) [(k, x)] → delta_fits (2 ^ 22 - nodeSize) (2 ^ 20) [(k, y)] → uploads_ok ios →
  (∀ rows, arrow_ok rows = true) → SystemTime x = SystemTime y →
  ∃ m1 d1 m2 d2, stageAndFlushQueryTierDelta coins sel arrow_ok ios [(k, x)] (NewSnapshotMemTable fb) d = Some (true, m1, d1) ∧
    stageAndFlushQueryTierDelta coins sel arrow_ok ios [(k, y)] (NewSnapshotMemTable fb) d1 = Some (true, m2, d2) ∧
    d_store d2 = <[l0KeyFor (h8 (string_bytes k)) (SystemTime y) := ipc_write [delta_row (k, y)]]> (d_store d).
Proof.
  intros Hx Hy Hup Har E.
  destruct (snapshot_flush coins sel arrow_ok ios [(k, x)] fb d Hx) as (m1 & kv1 & E1 & Hp1 & Hd1); [apply NoDup_singleton|done|done|].
  set (d1 := mkDisk (puts kv1 (d_store d)) (d_fallback d)) in *.
  destruct (snapshot_flush coins sel arrow_ok ios [(k, y)] fb d1 Hy) as (m2 & kv2 & E2 & Hp2 & Hd2); [apply NoDup_singleton|done|done|].
  exists m1, d1, m2. eexists. split; [exact E1|]. split; [exact E2|]. cbn [d_store d1].
  rewrite (puts_perm kv2 _ _ Hp2 Hd2), (puts_perm kv1 _ _ Hp1 Hd1). cbn [map puts foldl delta_put fst snd]. rewrite E. apply insert_insert_eq.
Qed.
End Failures.

(** ** Witnesses *)

#[local] Instance zero_hash : XXHash := {| Sum64String := λ _, 0 |}.

Definition wit_entry (sys : Z) : CRDTEntry := mkEntry (replicate 32 7) (replicate 16 1) (replicate 16 1) 3 sys 0 100 sys sys 9.

Lemma wit_sized sys : is_i64 sys → sized_entry (wit_entry sys).
Proof. intros Hs. unfold sized_entry. cbn. split; [done|]. split; [repeat split; repeat constructor; cbn; lia|]. unfold is_u64, is_i64 in *. lia. Qed.

Definition wit_delta : list (string * CRDTEntry) := [("pump-1"%string, wit_entry 40); ("pump-2"%string, wit_entry 50)].

Definition good_io (o : UploadOutcome) (i : nat) : PartIO := mkPartIO (λ _, o) (λ _, TimerFired) (λ _, false) true None 0.

Lemma wit_fits : delta_fits (2 ^ 22 - nodeSize) (2 ^ 20) wit_delta.
Proof.
  split; [|by repeat constructor|by vm_compute|by vm_compute]. repeat (constructor; [apply wit_sized; unfold is_i64; lia|]). constructor.
Qed.

Lemma wit_hashes : NoDup (map (λ kx : string * CRDTEntry, h8 (string_bytes kx.1)) wit_delta).
Proof. apply (bool_decide_unpack _). by vm_compute. Qed.

Definition wit_coins (_ _ : nat) : list bool := [true; false].
Definition wit_sel (_ _ : nat) : SelectResult := SlotFree.

Lemma checkpoint_flush_reaches_queries_witness :
  ∃ m' d', stageAndFlushQueryTierDelta wit_coins wit_sel (λ _, true) (good_io UpStored) wit_delta (NewSnapshotMemTable false) (mkDisk ∅ ∅) = Some (true, m', d') ∧
    lsm_reachable (string_bytes "pump-2") (mkLsm (d_store d') [delta_row ("pump-2"%string, wit_entry 50)] 0 false).
Proof.
  destruct (checkpoint_flush_reaches_queries wit_coins wit_sel (λ _, true) (good_io UpStored) wit_delta false (mkDisk ∅ ∅) "pump-2"%string (wit_entry 50)
              lsm_init) as (m' & d' & E & Hr & _); [apply wit_fits|apply wit_hashes|done|done|by right; left|done|done|apply rtc_refl|done|apply not_elem_of_nil|].
  exists m', d'. by split.
Defined.

Lemma failed_uploads_report_success_witness :
  ∃ m' d', stageAndFlushQueryTierDelta wit_coins wit_sel (λ _, true) (good_io (UpFailed false)) wit_delta (NewSnapshotMemTable true) (mkDisk ∅ ∅) =
      Some (true, m', d') ∧ d_store d' = ∅.
Proof. apply (failed_uploads_report_success wit_coins wit_sel (λ _, true) (good_io (UpFailed false)) wit_delta (mkDisk ∅ ∅)); [apply wit_fits|done|done]. Defined.

Lemma invalid_id_blocks_flush_witness :
  ∃ m', stageAndFlushQueryTierDelta wit_coins wit_sel (λ _, true) (good_io UpStored)
      [("pump-1"%string, wit_entry 40); (bytes_string [0xC3; 0x28], wit_entry 41)] (NewSnapshotMemTable false) (mkDisk ∅ ∅) = Some (false, m', mkDisk ∅ ∅).
Proof.
  apply invalid_id_blocks_flush.
  - repeat (constructor; [apply wit_sized; unfold is_i64; lia|]). constructor.
  - right. left. by vm_compute.
Defined.

Definition wit_event : TriTemporalEvent := queryTierEvent "pump-1" (wit_entry 40).

(** One write into a table of 512 bytes. *)
Lemma memtable_conserves_writes_witness :
  ∃ st, mt_reachable 512 10 true (mkDisk ∅ ∅) st ∧ ms_acked st = [event_entry wit_event] ∧
    ms_acked st ≡ₚ all_entries (ms_table st) ++ ms_saved st ++ ms_failed st.
Proof.
  assert (event_sized wit_event) as He by (apply query_event_sized, wit_sized; unfold is_i64; lia).
  assert (writable 512 wit_event) as Hw by (split_and!; by vm_compute).
  destruct (memtable_conserves_writes 512 10 true (mkDisk ∅ ∅) (mkMS (NewMemTable 512 10 true) (mkDisk ∅ ∅) [] [] [])) as (_ & Hwr & _);
    [by vm_compute|by vm_compute|apply rtc_refl|].
  destruct (Hwr (wit_coins 0%nat) (wit_sel 0%nat) wit_event He) as (err & m' & E & Hok). rewrite (Hok Hw eq_refl (λ _, eq_refl)) in E.
  exists (mkMS m' (mkDisk ∅ ∅) [event_entry wit_event] [] []).
  assert (mt_reachable 512 10 true (mkDisk ∅ ∅) (mkMS m' (mkDisk ∅ ∅) [event_entry wit_event] [] [])) as Hr.
  { apply rtc_once. exact (mt_write _ _ [] [] [] (wit_coins 0%nat) (wit_sel 0%nat) wit_event None m' He E). }
  split; [done|]. split; [done|]. eapply memtable_conserves_writes; [| |exact Hr]; by vm_compute.
Defined.
