(* ===== verification/LiveSource.v ===== *)
(** The live side of a query (cmd/sovereign-node/main.go, engineHAMTAdapter): the
    engine's entries of an entity as live events, and what AsOf makes of a write
    that no flush has seen. *)
From S2P Require Import Prelude Bytes Sha256 Dots Hamt HamtMap Lamport Sorting Engine EngineInv.
From S2P Require Import JoinSpec EngineThms LsmKeys Resolver L1Compactor LsmPrune ResolverThms.
From S2P Require Import LsmInv LsmSteps LsmThms.

Definition live_of_entry (x : CRDTEntry) : LiveEvent :=
  mkLive [] (PayloadDigest x) (SystemTime x) (ValidTimeStart x) (ValidTimeEnd x) (AssertionTime x) (H3Index x).

Section Live.
Context {MH : MapHash}.

(** LiveRead of the adapter: [None] is an adapter without an engine. *)
Definition engineLiveRead (engine : option Engine) (entityID : string) (txTimeNs : Z) : LiveRead :=
  match engine with
  | None => LiveEvents []
  | Some e => LiveEvents (map live_of_entry (filter (λ x, ¬ txTimeNs < SystemTime x) (PointGet e entityID)))
  end.

(** C6. Read your writes: right after InsertLocal on an open, well-formed engine
    whose clock covers its dots and is below 2^64 - 1, with nothing of the write
    flushed, AsOf at a transaction time and a valid time that see the entry (its
    system time is positive) finds a visible event, of the entry's system time
    or a later one. The entity's tier is one a regular run reaches
    (lsm_regular), the query's I/O is calm, at most MaxL0Files level-0 files are
    listed and the transaction time is at or after the pruning horizon; with a
    failing listing AsOf returns an error instead. *)
Theorem asof_sees_own_write `{ArrowIPC} (k : string) (x : CRDTEntry) (e : Engine) (st : lsm_state) (env : IOEnv) (v t : Z) (r : Resolver) :
  wf_engine e → EngineThms.dominates e → closing e = false → lamportCounter (clk e) < u64_max →
  string_bytes k ≠ [] → lsm_reachable (string_bytes k) st → calm env (ls_store st) → ls_hz st <= t →
  (∀ l, list_objects env (ls_store st) (l0Prefix (h8 (string_bytes k))) = Some l → Z.of_nat (length l) <= MaxL0Files (r_config r)) →
  0 < SystemTime x <= t → ValidTimeStart x <= v < ValidTimeEnd x →
  ∃ dot e' ev, InsertLocal k x e = Ret (dot, e') ∧
    (AsOf env (ls_store st) (engineLiveRead (Some e') k t) (string_bytes k) v t r).1 = Ok ev ∧
    SystemTime x <= te_SystemTime ev ∧ visible v t ev.
Proof.
  intros Hwf Hd Hcl Hlt Hne Hr Hcalm Hz Hcap Ht Hv. pose proof Hwf as [_ (Hu & _)].
  destruct (InsertLocal_spec k x e Hwf Hcl (dominates_fresh e k _ Hd Hlt Hu)) as (e' & Hi & _ & _ & _ & _ & _ & _ & Hp & _).
  set (y := stamp _ _ x) in Hp. set (live := engineLiveRead (Some e') k t).
  pose proof (asof_answers (string_bytes k) env (ls_store st) Hcalm (ls_hz st) (ls_hist st) live v t r Hne
                (li_tier _ _ (lsm_reachable_inv _ _ Hne Hr)) Hz Hcap) as Ha.
  assert (recorded (string_bytes k) (ls_hist st) live (live_event (string_bytes k) (live_of_entry y))) as Hrec.
  { right. exists (live_of_entry y). split; [|done]. cbn [live engineLiveRead live_list]. apply list_elem_of_fmap. exists y. split; [done|].
    apply list_elem_of_filter. split; [unfold y; cbn; lia|]. rewrite Hp. by left. }
  assert (visible v t (live_event (string_bytes k) (live_of_entry y))) as Hvis by (unfold visible; cbn; lia).
  unfold live in *. destruct (AsOf _ _ _ _ _ _ _) as [res r'] eqn:Eas. cbn [fst] in *. unfold answers in Ha.
  destruct res as [ev|err]; [|destruct err; try done; by destruct (Ha _ Hrec)].
  destruct Ha as (_ & Hvi & Hmax). exists (mkDot (localNodeID e) (lamportCounter (clk e) +ₒ 1)), e', ev. split; [exact Hi|]. rewrite Eas. split; [done|].
  split; [exact (Hmax _ Hrec Hvis)|done].
Qed.
End Live.

Lemma asof_sees_own_write_witness :
  ∃ dot e' ev, InsertLocal (MH:=fnv_maphash) "a" (sample_entry 0 0 5) (sample_engine 1 9) = Ret (dot, e') ∧
    (AsOf std_env ∅ (engineLiveRead (MH:=fnv_maphash) (Some e') "a" 100) (string_bytes "a") 25 100 (NewResolver DefaultResolverConfig)).1 = Ok ev ∧
    10 <= te_SystemTime ev.
Proof.
  assert (lamportCounter (clk (sample_engine 1 9)) < u64_max) as Hlt by (unfold u64_max; simpl; lia).
  destruct (asof_sees_own_write (MH:=fnv_maphash) "a" (sample_entry 0 0 5) (sample_engine 1 9) lsm_init std_env 25 100
              (NewResolver DefaultResolverConfig) (sample_engine_wf 1 9) (sample_engine_dominates 1 9) eq_refl Hlt) as (dot & e' & ev & Hi & Ha & Hs & _).
  - done.
  - apply rtc_refl.
  - apply std_calm.
  - by vm_compute.
  - intros l Hl. apply std_listed in Hl as [_ Hl]. cbn [lsm_init ls_store] in Hl. rewrite map_size_empty in Hl.
    assert (length l = 0)%nat as -> by lia. by vm_compute.
  - by vm_compute.
  - by vm_compute.
  - exists dot, e', ev. split; [exact Hi|]. split; [exact Ha|exact Hs].
Defined.
