(* ===== verification/NodePool.v ===== *)
(** The node pool of the lock-free stacks (pkg/sync/elimination.go): nodes found
    by index, heads that pack a generation with an index, and a free list in 64
    shards.  A routine that other goroutines run at the same time is a machine
    whose steps are its atomic operations.

    The second half is about linked lists of such nodes in general: what a
    compare-and-swap on a packed head keeps of the lists, of the pushes and of
    the pops in flight. *)
From S2P Require Import Prelude Bytes.

(** ** Packed heads *)

Definition NullOffset64 : Z := 0.
Definition elimPoolGenShift : Z := 32.
Definition elimPoolIndexMask : Z := Z.shiftl 1 elimPoolGenShift - 1.

Definition elimPackIndex (gen index : Z) : Z :=
  Z.lor (u64 (Z.shiftl gen elimPoolGenShift)) (Z.land index elimPoolIndexMask).
Definition elimIndex (packed : Z) : Z := Z.land packed elimPoolIndexMask.
Definition elimGen (packed : Z) : Z := Z.shiftr packed elimPoolGenShift.

(** ** The pool *)

Record ElimNode := mkNode { value : Z; next : Z; freeNext : Z }.

Definition elimPoolShardCount : nat := 64.

(** [free] is the single list the constructor still builds; no routine reads it
    again. *)
Record ElimNodePool := mkPool {
  nodes : list ElimNode;
  free : Z;
  count : Z;
  freeShards : list Z;
}.

Definition with_nodes (ns : list ElimNode) (p : ElimNodePool) := mkPool ns (free p) (count p) (freeShards p).
Definition with_count (c : Z) (p : ElimNodePool) := mkPool (nodes p) (free p) c (freeShards p).
Definition with_shards (hs : list Z) (p : ElimNodePool) := mkPool (nodes p) (free p) (count p) hs.

(** Stores into the fields of nodes[i]; an index out of range panics. *)
Definition at_node (i : Z) (f : ElimNode → ElimNode) (ns : list ElimNode) : option (list ElimNode) :=
  n ← ns !! Z.to_nat i; Some (<[Z.to_nat i := f n]> ns).
Definition store_value (i x : Z) := at_node i (λ n, mkNode x (next n) (freeNext n)).
Definition store_next (i x : Z) := at_node i (λ n, mkNode (value n) x (freeNext n)).
Definition store_freeNext (i x : Z) := at_node i (λ n, mkNode (value n) (next n) x).

(** One round of the loop that gives index [i] to its home shard. *)
Definition seed_index (i : nat) (p : ElimNodePool) : option ElimNodePool :=
  let home := (i mod elimPoolShardCount)%nat in
  head ← freeShards p !! home;
  ns ← store_freeNext (Z.of_nat i) head (nodes p);
  let newFree := elimPackIndex (elimGen head + 1) (Z.of_nat i) in
  Some (with_shards (<[home := newFree]> (freeShards p)) (with_nodes ns p)).

(** for i := cap - 1; i >= 1; i-- *)
Fixpoint seed_all (i : nat) (p : ElimNodePool) : option ElimNodePool :=
  match i with
  | O => Some p
  | S j => p' ← seed_index (S j) p; seed_all j p'
  end.

Definition NewElimNodePool (cap : nat) : option ElimNodePool :=
  let linked := imap (λ i n, if decide (1 <= i)%nat then mkNode (value n) (next n) (elimPackIndex 0 (Z.of_nat i + 1)) else n)
                  (replicate cap (mkNode 0 0 0)) in
  ns ← store_freeNext (Z.of_nat cap - 1) (elimPackIndex 0 NullOffset64) linked;
  seed_all (cap - 1) (mkPool ns (elimPackIndex 1 1) 0 (replicate elimPoolShardCount NullOffset64)).

(** CompareAndSwap on a head. *)
Definition cas (h : nat) (old new : Z) (heads : list Z) : option (bool * list Z) :=
  cur ← heads !! h; Some (if decide (cur = old) then (true, <[h := new]> heads) else (false, heads)).

(** The head a pop installs. *)
Definition popped_head (cur nextPacked : Z) : Z :=
  let nextIdx := elimIndex nextPacked in
  if decide (nextIdx = NullOffset64) then NullOffset64 else elimPackIndex (elimGen cur + 1) nextIdx.

(** ** allocIndexSharded *)

Definition elimAllocShardRetry : nat := 16.

(** Where a call stands: before the load of the head, the load of freeNext, the
    compare-and-swap, the increment of the counter. *)
Inductive allocPc :=
| ALoad (probe retry : nat)
| ANext (probe retry : nat) (head : Z)
| ACas (probe retry : nat) (head nextPacked : Z)
| ACount (idx : Z).

(** After the last shard the search starts over (a Gosched now and then aside). *)
Definition next_probe (probe : nat) : allocPc := ALoad (if decide (S probe < elimPoolShardCount)%nat then S probe else O) O.

Definition next_retry (probe retry : nat) : allocPc :=
  if decide (S retry < elimAllocShardRetry)%nat then ALoad probe (S retry) else next_probe probe.

Definition alloc_shard (pid probe : nat) : nat := ((pid mod elimPoolShardCount + probe) mod elimPoolShardCount)%nat.

(** One atomic operation; [inr idx] when the call returns. *)
Definition alloc_step (pid : nat) (a : allocPc) (p : ElimNodePool) : option (ElimNodePool * (allocPc + Z)) :=
  match a with
  | ALoad probe retry =>
      head ← freeShards p !! alloc_shard pid probe;
      Some (p, inl (if decide (elimIndex head = NullOffset64) then next_probe probe else ANext probe retry head))
  | ANext probe retry head =>
      n ← nodes p !! Z.to_nat (elimIndex head);
      Some (p, inl (ACas probe retry head (freeNext n)))
  | ACas probe retry head nextPacked =>
      '(ok, hs) ← cas (alloc_shard pid probe) head (popped_head head nextPacked) (freeShards p);
      Some (with_shards hs p, inl (if (ok : bool) then ACount (elimIndex head) else next_retry probe retry))
  | ACount idx => Some (with_count (count p + 1) p, inr idx)
  end.

(** ** freeIndexSharded *)

Inductive freePc := FLoad | FLink (head : Z) | FCas (head : Z) | FCount.

(** One atomic operation; [None] when the call returns. *)
Definition free_step (idx : Z) (shard : nat) (f : freePc) (p : ElimNodePool) : option (ElimNodePool * option freePc) :=
  match f with
  | FLoad => head ← freeShards p !! shard; Some (p, Some (FLink head))
  | FLink head => ns ← store_freeNext idx head (nodes p); Some (with_nodes ns p, Some (FCas head))
  | FCas head =>
      '(ok, hs) ← cas shard head (elimPackIndex (elimGen head + 1) idx) (freeShards p);
      Some (with_shards hs p, Some (if (ok : bool) then FCount else FLoad))
  | FCount => Some (with_count (count p - 1) p, None)
  end.

(** freeIndexHome *)
Definition home_shard (idx : Z) : nat := Z.to_nat (idx `mod` Z.of_nat elimPoolShardCount).

(** ** Packed heads *)

Lemma index_land x : elimIndex x = x `mod` 2 ^ 32.
Proof. unfold elimIndex. change elimPoolIndexMask with (Z.ones 32). by apply Z.land_ones. Qed.

Lemma gen_div x : elimGen x = x `div` 2 ^ 32.
Proof. unfold elimGen, elimPoolGenShift. by apply Z.shiftr_div_pow2. Qed.

Lemma pack_sum g i : 0 <= g < 2 ^ 32 → 0 <= i < 2 ^ 32 → elimPackIndex g i = g * 2 ^ 32 + i.
Proof.
  intros Hg Hi. unfold elimPackIndex, elimPoolGenShift.
  change (Z.land i elimPoolIndexMask) with (elimIndex i). rewrite index_land, Z.mod_small by done.
  rewrite Z.shiftl_mul_pow2 by done. unfold u64. rewrite Z.mod_small by lia.
  rewrite <- Z.add_lor_land. enough (Z.land (g * 2 ^ 32) i = 0) by lia.
  apply Z.bits_inj'. intros n Hn. rewrite Z.land_spec, Z.bits_0, <- Z.shiftl_mul_pow2, Z.shiftl_spec by lia.
  destruct (Z.lt_ge_cases n 32) as [Hlt|Hge]; [by rewrite Z.testbit_neg_r by lia|].
  rewrite (Z.bits_above_log2 i n), andb_false_r; [done|lia|].
  destruct (Z.eq_dec i 0) as [->|]; [rewrite Z.log2_nonpos by lia; lia|]. apply Z.log2_lt_pow2; [lia|].
  apply Z.lt_le_trans with (2 ^ 32); [lia|]. by apply Z.pow_le_mono_r.
Qed.

Lemma index_pack g i : 0 <= g < 2 ^ 32 → 0 <= i < 2 ^ 32 → elimIndex (elimPackIndex g i) = i.
Proof. intros Hg Hi. rewrite pack_sum, index_land, Z.add_comm, Z_mod_plus_full by done. by apply Z.mod_small. Qed.

Lemma gen_pack g i : 0 <= g < 2 ^ 32 → 0 <= i < 2 ^ 32 → elimGen (elimPackIndex g i) = g.
Proof. intros Hg Hi. rewrite pack_sum, gen_div, Z.div_add_l by done. rewrite (Z.div_small i); lia. Qed.

Lemma index_range x : 0 <= elimIndex x < 2 ^ 32.
Proof. rewrite index_land. by apply Z.mod_pos_bound. Qed.

Lemma index_null : elimIndex NullOffset64 = 0.
Proof. done. Qed.

Lemma gen_nonneg x : 0 <= x → 0 <= elimGen x.
Proof. intros. rewrite gen_div. by apply Z.div_pos. Qed.

(** ** Lists of nodes

    [lk] reads the link field of a node by its index. *)

Fixpoint chain (lk : Z → Z) (p : Z) (l : list Z) : Prop :=
  match l with
  | [] => elimIndex p = NullOffset64
  | i :: l' => elimIndex p = i ∧ i ≠ NullOffset64 ∧ chain lk (lk i) l'
  end.

Lemma nodes_ext lk lk' p l : (∀ i, i ∈ l → lk' i = lk i) → chain lk p l → chain lk' p l.
Proof.
  revert p. induction l as [|i l IH]; intros p Hl; [done|]. intros (H1 & H2 & H3). split_and!; [done|done|].
  rewrite Hl by by left. apply IH; [|done]. intros j Hj. apply Hl. by right.
Qed.

Lemma chain_head lk p p' l : elimIndex p' = elimIndex p → chain lk p l → chain lk p' l.
Proof. intros E. destruct l; simpl; by rewrite E. Qed.

Lemma chain_inhabited lk p l : chain lk p l → elimIndex p ≠ NullOffset64 → ∃ l', l = elimIndex p :: l' ∧ chain lk (lk (elimIndex p)) l'.
Proof. destruct l as [|i l]; simpl; [done|]. intros (-> & _ & H) _. by eexists. Qed.

(** What a goroutine has under way on a family of lists: nothing, a push of
    [idx] on list [h] whose link is stored, a pop of list [h] that has loaded the
    head, and perhaps the link of its first node. *)
Inductive lview :=
| LNone
| LPush (h : nat) (idx cur : Z)
| LPop (h : nat) (cur : Z) (np : option Z).

Definition pops (h : nat) (v : lview) : Prop := match v with LPop h' _ _ => h' = h | _ => False end.

#[global] Instance pops_dec h v : Decision (pops h v).
Proof. destruct v; unfold pops; apply _. Defined.

Definition view_ok (cap : Z) (lk : Z → Z) (heads : list Z) (v : lview) : Prop :=
  match v with
  | LNone => True
  | LPush h idx cur => lk idx = cur ∧ 0 < idx < cap ∧ (h < length heads)%nat ∧ 0 <= cur
  | LPop h cur np =>
      0 <= cur ∧ 0 < elimIndex cur < cap ∧
      ∃ hd, heads !! h = Some hd ∧
        (hd = cur ∧ (∀ n, np = Some n → lk (elimIndex cur) = n) ∨ elimGen cur < elimGen hd)
  end.

(** The lists [C] behind the heads, and the goroutines' views of them; [G] bounds
    the generations. *)
Record family (cap : Z) (lk : Z → Z) (heads : list Z) (C : list (list Z)) (G : Z) (vs : list lview) : Prop := {
  fam_chain : Forall2 (chain lk) heads C;
  fam_heads : Forall (λ p, 0 <= p ∧ elimGen p <= G) heads;
  fam_views : ∀ u v, vs !! u = Some v → view_ok cap lk heads v;
}.

Section Family.
Context (cap : Z) (Hcap : cap <= 2 ^ 32).

Lemma family_local lk heads C G vs t v' :
  family cap lk heads C G vs → view_ok cap lk heads v' → family cap lk heads C G (<[t := v']> vs).
Proof.
  intros [H1 H2 H3] Hv. split; [done|done|]. intros u v [(_ & <- & _)|[_ Hu]]%list_lookup_insert_Some; [done|by eapply H3].
Qed.

Lemma family_mono lk heads C G G' vs : G <= G' → family cap lk heads C G vs → family cap lk heads C G' vs.
Proof. intros HG [H1 H2 H3]. split; [done| |done]. eapply Forall_impl; [exact H2|]. simpl. lia. Qed.

Lemma family_ext lk lk' heads C G vs : (∀ i, lk' i = lk i) → family cap lk heads C G vs → family cap lk' heads C G vs.
Proof.
  intros E [H1 H2 H3]. split; [|done|].
  - eapply Forall2_impl; [exact H1|]. intros p l. apply nodes_ext. intros i _. apply E.
  - intros u v Hu. pose proof (H3 u v Hu) as Hv. destruct v; simpl in *; [done|by rewrite E|]. by rewrite E.
Qed.

(** The link of a node in no list is written. *)
Lemma family_link lk lk' heads C G vs t i v' :
  (∀ j, j ≠ i → lk' j = lk j) → i ∉ concat C →
  (∀ u h idx cur, u ≠ t → vs !! u = Some (LPush h idx cur) → idx ≠ i) →
  view_ok cap lk' heads v' → family cap lk heads C G vs → family cap lk' heads C G (<[t := v']> vs).
Proof.
  intros E Hi Hp Hv [H1 H2 H3]. split; [|done|].
  - apply Forall2_same_length_lookup. split; [by eapply Forall2_length|]. intros k p l Hk Hl.
    apply (nodes_ext lk); [|by eapply Forall2_lookup_lr]. intros j Hj. apply E. intros ->. apply Hi.
    apply elem_of_concat. exists l. split; [done|by eapply list_elem_of_lookup_2].
  - intros u v [(_ & <- & _)|[Hne Hu]]%list_lookup_insert_Some; [done|]. pose proof (H3 u v Hu) as Hw.
    destruct v as [|h idx cur|h cur np]; simpl in *; [done| |].
    + rewrite E; [done|]. by eapply Hp.
    + destruct Hw as (Hc & Hr & hd & Hh & Hf). split_and!; [done|lia|lia|]. exists hd. split; [done|].
      destruct Hf as [[-> Hn]|Hg]; [left|by right]. split; [done|]. intros n En. rewrite E; [by apply Hn|].
      intros Heq. apply Hi. rewrite <- Heq.
      destruct (Forall2_lookup_l _ _ _ _ _ H1 Hh) as (l & Hl & Hch).
      destruct (chain_inhabited _ _ _ Hch) as (l' & -> & _); [unfold NullOffset64; lia|].
      apply elem_of_concat. eexists. split; [by left|by eapply list_elem_of_lookup_2].
Qed.

(** A head is replaced by one of a greater generation, or no other goroutine is
    popping that list. *)
Lemma views_swap lk (heads : list Z) (vs : list lview) (t h : nat) cur new v :
  heads !! h = Some cur → (∀ u v, vs !! u = Some v → view_ok cap lk heads v) →
  (elimGen cur < elimGen new ∨ ∀ u w, u ≠ t → vs !! u = Some w → ¬ pops h w) → view_ok cap lk (<[h := new]> heads) v →
  ∀ u w, <[t := v]> vs !! u = Some w → view_ok cap lk (<[h := new]> heads) w.
Proof.
  intros Hh Hvs Hgen Hv u w [(_ & <- & _)|[Hne Hu]]%list_lookup_insert_Some; [done|]. pose proof (Hvs u w Hu) as Hw.
  destruct w as [|h' idx c|h' c np]; simpl in *; [done|by rewrite length_insert|].
  destruct Hw as (Hc & Hr & hd & Hhd & Hf). split_and!; [done|lia|lia|]. destruct (decide (h' = h)) as [->|Hn].
  - rewrite list_lookup_insert_eq by by eapply lookup_lt_Some. eexists. split; [done|]. right.
    assert (hd = cur) as -> by congruence. destruct Hgen as [Hg|Hno]; [|by destruct (Hno u _ (not_eq_sym Hne) Hu)].
    destruct Hf as [[-> _]|Hf]; lia.
  - rewrite list_lookup_insert_ne by done. eauto.
Qed.

Lemma heads_swap (heads : list Z) h (new G : Z) :
  Forall (λ p, 0 <= p ∧ elimGen p <= G) heads → 0 <= new ∧ elimGen new <= G + 1 →
  Forall (λ p, 0 <= p ∧ elimGen p <= G + 1) (<[h := new]> heads).
Proof. intros H Hn. apply Forall_insert; [|done]. eapply Forall_impl; [exact H|]. simpl. lia. Qed.

Lemma head_gen lk heads C G vs h cur :
  family cap lk heads C G vs → heads !! h = Some cur → 0 <= cur ∧ 0 <= elimGen cur <= G.
Proof. intros [_ H2 _] Hh. rewrite Forall_lookup in H2. destruct (H2 _ _ Hh). split; [done|]. split; [by apply gen_nonneg|done]. Qed.

Lemma pack_nonneg g i : 0 <= g < 2 ^ 32 → 0 <= i < 2 ^ 32 → 0 <= elimPackIndex g i.
Proof. intros. rewrite pack_sum by done. lia. Qed.

(** The swap of a push succeeds. *)
Lemma family_push lk heads C G vs t h idx cur :
  family cap lk heads C G vs → G + 1 < 2 ^ 32 → vs !! t = Some (LPush h idx cur) → heads !! h = Some cur →
  ∃ c, C !! h = Some c ∧
    family cap lk (<[h := elimPackIndex (elimGen cur + 1) idx]> heads) (<[h := idx :: c]> C) (G + 1) (<[t := LNone]> vs).
Proof.
  intros HF HG Ht Hh. pose proof (head_gen _ _ _ _ _ _ _ HF Hh) as [Hc Hg]. destruct HF as [H1 H2 H3].
  destruct (H3 _ _ Ht) as (Hlk & Hidx & _). destruct (Forall2_lookup_l _ _ _ _ _ H1 Hh) as (c & Hcl & Hch).
  assert (0 <= elimGen cur + 1 < 2 ^ 32 ∧ 0 <= idx < 2 ^ 32) as [Hg' Hi'] by lia.
  exists c. split; [done|]. split.
  - apply Forall2_insert; [done|]. simpl. rewrite index_pack by done. split_and!; [done|unfold NullOffset64; lia|].
    rewrite Hlk. done.
  - apply heads_swap; [done|]. rewrite gen_pack by done. split; [by apply pack_nonneg|lia].
  - eapply views_swap; [done|done| |done]. left. rewrite gen_pack by done. lia.
Qed.

(** The swap of a pop succeeds. *)
Lemma family_pop lk heads C G vs t h cur np :
  family cap lk heads C G vs → G + 1 < 2 ^ 32 → vs !! t = Some (LPop h cur (Some np)) → heads !! h = Some cur →
  (elimIndex np = NullOffset64 → ∀ u w, u ≠ t → vs !! u = Some w → ¬ pops h w) →
  ∃ c, C !! h = Some (elimIndex cur :: c) ∧
    family cap lk (<[h := popped_head cur np]> heads) (<[h := c]> C) (G + 1) (<[t := LNone]> vs).
Proof.
  intros HF HG Ht Hh Hcalm. pose proof (head_gen _ _ _ _ _ _ _ HF Hh) as [Hc Hg]. destruct HF as [H1 H2 H3].
  destruct (H3 _ _ Ht) as (_ & Hidx & hd & Hhd & Hf). assert (hd = cur) as -> by congruence.
  destruct Hf as [[_ Hn]|Hf]; [|lia]. specialize (Hn np eq_refl).
  destruct (Forall2_lookup_l _ _ _ _ _ H1 Hh) as (l & Hl & Hch).
  destruct (chain_inhabited _ _ _ Hch) as (c & -> & Hc'); [unfold NullOffset64; lia|]. rewrite Hn in Hc'.
  pose proof (index_range np) as Hr. assert (0 <= elimGen cur + 1 < 2 ^ 32) as Hg' by lia.
  exists c. split; [done|]. unfold popped_head. destruct (decide (elimIndex np = NullOffset64)) as [E|E]; split.
  - apply Forall2_insert; [done|]. eapply chain_head; [|done]. by rewrite E.
  - apply heads_swap; [done|]. split; [done|]. change (elimGen NullOffset64) with 0. lia.
  - eapply views_swap; [done|done|right; by apply Hcalm|done].
  - apply Forall2_insert; [done|]. eapply chain_head; [|done]. by apply index_pack.
  - apply heads_swap; [done|]. rewrite gen_pack by done. split; [by apply pack_nonneg|lia].
  - eapply views_swap; [done|done| |done]. left. rewrite gen_pack by done. lia.
Qed.

(** A pop loads a head, and then the link. *)
Lemma view_load lk heads C G vs h cur :
  family cap lk heads C G vs → heads !! h = Some cur → 0 < elimIndex cur < cap → view_ok cap lk heads (LPop h cur None).
Proof.
  intros HF Hh Hi. destruct (head_gen _ _ _ _ _ _ _ HF Hh) as [Hc _]. split_and!; [done|lia|lia|]. exists cur. split; [done|]. by left.
Qed.

Lemma view_link lk heads h cur :
  view_ok cap lk heads (LPop h cur None) → view_ok cap lk heads (LPop h cur (Some (lk (elimIndex cur)))).
Proof.
  intros (Hc & Hr & hd & Hh & Hf). split_and!; [done|lia|lia|]. exists hd. split; [done|].
  destruct Hf as [[-> _]|Hf]; [left|by right]. split; [done|]. by intros n [= <-].
Qed.

End Family.
