(* ===== verification/ShardedStack.v ===== *)
(** ShardedStack (pkg/sync/sharded.go): 64 stacks of pool nodes, one per
    processor, and per goroutine a cache of free indices.  A goroutine's Push or
    Pop is a machine whose steps are the atomic operations of the call; the
    processor ids procPin returns are the environment's. *)
From S2P Require Import Prelude Bytes NodePool.

Definition DeepCacheCap : nat := 128.
Definition secShardCount : nat := 64.

Record secDeepCache := mkCache { dc_indices : list Z; dc_count : nat }.

Definition new_cache : secDeepCache := mkCache (replicate DeepCacheCap 0) 0.

(** Where a call of Push or Pop stands.  [v] is the value, [pid] the processor.
    PushCount: before the load of the pool's counter; Filling: [i] of [n] indices
    of the refill are there, the next is being allocated; PushValue: the node's
    value is to be written; PushLoad, PushLink, PushCas: the loop on the shard's
    head; PopLoad, PopNext, PopCas: the loop on the shard [probe] after [start];
    PopRead: the head was swapped, the value is to be read; Draining: [i] indices
    of the full cache are back in the pool, the next is being freed. *)
Inductive callPc :=
| Idle
| PushCount (v : Z) (pid : nat)
| Filling (v : Z) (pid n i : nat) (a : allocPc)
| PushValue (v : Z) (pid : nat) (idx : Z)
| PushLoad (pid : nat) (idx : Z)
| PushLink (pid : nat) (idx cur : Z)
| PushCas (pid : nat) (idx cur : Z)
| PopLoad (pid start probe : nat)
| PopNext (pid start probe : nat) (cur : Z)
| PopCas (pid start probe : nat) (cur nextPacked : Z)
| PopRead (pid : nat) (idx : Z)
| Draining (v : Z) (pid : nat) (idx : Z) (i : nat) (f : freePc).

Record Goroutine := mkG { g_cache : secDeepCache; g_pc : callPc }.

Record ShardedMem := mkSM { sm_pool : ElimNodePool; sm_shards : list Z }.

Definition NewShardedStack : list Z := replicate secShardCount NullOffset64.

Inductive Call := CallPush (v pidFull : Z) | CallPop (pidFull startFull : Z).
Inductive Ret := RetPush | RetPop (r : option Z).

Definition shard_of (pidFull : Z) : nat := Z.to_nat (Z.land pidFull (Z.of_nat secShardCount - 1)).

(** The end of deepAlloc: the last index of the cache. *)
Definition take_cached (v : Z) (pid : nat) (dc : secDeepCache) : option Goroutine :=
  match dc_count dc with
  | O => None
  | S c => idx ← dc_indices dc !! c; Some (mkG (mkCache (dc_indices dc) c) (PushValue v pid idx))
  end.

(** A call up to its first atomic operation. *)
Definition start_call (c : Call) (dc : secDeepCache) : option Goroutine :=
  match c with
  | CallPush v pidFull =>
      let pid := shard_of pidFull in
      if decide (dc_count dc = O) then Some (mkG dc (PushCount v pid)) else take_cached v pid dc
  | CallPop pidFull startFull => Some (mkG dc (PopLoad (shard_of pidFull) (shard_of startFull) 0))
  end.

(** How many indices a refill takes. *)
Definition refill_size (p : ElimNodePool) : nat :=
  let available := Z.of_nat (length (nodes p)) - 1 - count p in
  if decide (available <= 0) then 1%nat
  else if decide (available < Z.of_nat (DeepCacheCap / 2)) then Z.to_nat available else (DeepCacheCap / 2)%nat.

(** deepFreeLocal: the drain of a full cache takes the last index out of it and
    frees it; then the popped node's index goes in. *)
Definition drain_next (v : Z) (pid : nat) (idx : Z) (i : nat) (dc : secDeepCache) : option Goroutine :=
  match dc_count dc with
  | O => None
  | S c => Some (mkG (mkCache (dc_indices dc) c) (Draining v pid idx i FLoad))
  end.

Definition cache_index (idx : Z) (dc : secDeepCache) : option secDeepCache :=
  _ ← dc_indices dc !! dc_count dc;
  Some (mkCache (<[dc_count dc := idx]> (dc_indices dc)) (S (dc_count dc))).

Definition popped_shard (start probe : nat) : nat := Z.to_nat (Z.land (Z.of_nat start + Z.of_nat probe) (Z.of_nat secShardCount - 1)).

(** The next atomic operation of a call, with the local computation that follows
    it; [None] is a panic. *)
Definition call_step (m : ShardedMem) (g : Goroutine) : option (ShardedMem * Goroutine * option Ret) :=
  let p := sm_pool m in
  let dc := g_cache g in
  match g_pc g with
  | Idle => Some (m, g, None)
  | PushCount v pid => Some (m, mkG dc (Filling v pid (refill_size p) 0 (ALoad 0 0)), None)
  | Filling v pid n i a =>
      '(p', r) ← alloc_step pid a p;
      let m' := mkSM p' (sm_shards m) in
      match (r : allocPc + Z) with
      | inl a' => Some (m', mkG dc (Filling v pid n i a'), None)
      | inr idx =>
          _ ← dc_indices dc !! i;
          let ixs := <[i := idx]> (dc_indices dc) in
          if decide (S i < n)%nat then Some (m', mkG (mkCache ixs (dc_count dc)) (Filling v pid n (S i) (ALoad 0 0)), None)
          else g' ← take_cached v pid (mkCache ixs n); Some (m', g', None)
      end
  | PushValue v pid idx =>
      ns ← store_value idx v (nodes p);
      Some (mkSM (with_nodes ns p) (sm_shards m), mkG dc (PushLoad pid idx), None)
  | PushLoad pid idx => cur ← sm_shards m !! pid; Some (m, mkG dc (PushLink pid idx cur), None)
  | PushLink pid idx cur =>
      ns ← store_next idx cur (nodes p);
      Some (mkSM (with_nodes ns p) (sm_shards m), mkG dc (PushCas pid idx cur), None)
  | PushCas pid idx cur =>
      '(ok, hs) ← cas pid cur (elimPackIndex (elimGen cur + 1) idx) (sm_shards m);
      Some (if (ok : bool) then (mkSM p hs, mkG dc Idle, Some RetPush) else (mkSM p hs, mkG dc (PushLoad pid idx), None))
  | PopLoad pid start probe =>
      cur ← sm_shards m !! popped_shard start probe;
      Some (if decide (elimIndex cur = NullOffset64) then
              if decide (S probe < secShardCount)%nat then (m, mkG dc (PopLoad pid start (S probe)), None)
              else (m, mkG dc Idle, Some (RetPop None))
            else (m, mkG dc (PopNext pid start probe cur), None))
  | PopNext pid start probe cur =>
      n ← nodes p !! Z.to_nat (elimIndex cur);
      Some (m, mkG dc (PopCas pid start probe cur (next n)), None)
  | PopCas pid start probe cur nextPacked =>
      '(ok, hs) ← cas (popped_shard start probe) cur (popped_head cur nextPacked) (sm_shards m);
      Some (mkSM p hs, mkG dc (if (ok : bool) then PopRead pid (elimIndex cur) else PopLoad pid start probe), None)
  | PopRead pid idx =>
      n ← nodes p !! Z.to_nat idx;
      if decide (DeepCacheCap <= dc_count dc)%nat then
        g' ← drain_next (value n) pid idx 0 dc; Some (m, g', None)
      else dc' ← cache_index idx dc; Some (m, mkG dc' Idle, Some (RetPop (Some (value n))))
  | Draining v pid idx i f =>
      fi ← dc_indices dc !! dc_count dc;
      '(p', r) ← free_step fi pid f p;
      let m' := mkSM p' (sm_shards m) in
      match (r : option freePc) with
      | Some f' => Some (m', mkG dc (Draining v pid idx i f'), None)
      | None =>
          if decide (S i < DeepCacheCap / 2)%nat then g' ← drain_next v pid idx (S i) dc; Some (m', g', None)
          else dc' ← cache_index idx dc; Some (m', mkG dc' Idle, Some (RetPop (Some v)))
      end
  end.

(** ** The system: any number of goroutines, one atomic operation at a time *)

Record Sys := mkSys { s_mem : ShardedMem; s_gs : list Goroutine }.

(** Goroutine [t] calls, or performs its next operation. *)
Inductive choice := Start (t : nat) (c : Call) | Step (t : nat).
Inductive event := EvCall (t : nat) (c : Call) | EvRet (t : nat) (r : Ret).

Definition sys_step (ch : choice) (s : Sys) : option (Sys * list event) :=
  match ch with
  | Start t c =>
      g ← s_gs s !! t;
      match g_pc g with
      | Idle => g' ← start_call c (g_cache g); Some (mkSys (s_mem s) (<[t := g']> (s_gs s)), [EvCall t c])
      | _ => Some (s, [])
      end
  | Step t =>
      g ← s_gs s !! t;
      '(m', g', r) ← call_step (s_mem s) g;
      Some (mkSys m' (<[t := g']> (s_gs s)), match (r : option Ret) with Some r => [EvRet t r] | None => [] end)
  end.

Fixpoint sys_run (chs : list choice) (s : Sys) : option (Sys * list event) :=
  match chs with
  | [] => Some (s, [])
  | ch :: chs' =>
      '(s1, e1) ← sys_step ch s;
      '(s2, e2) ← sys_run chs' s1;
      Some (s2, e1 ++ e2)
  end.

Definition start_sys (p : ElimNodePool) (n : nat) : Sys :=
  mkSys (mkSM p NewShardedStack) (replicate n (mkG new_cache Idle)).
