(* ===== verification/ShardedThms.v ===== *)
(** ShardedStack implements 64 stacks with atomic operations: every run in which
    no pop installs the empty head over another pop in flight has the calls and
    returns of a run of the specification, and no index is out of range.  Without
    that condition a value can be returned twice and another lost, and two refills
    can wait for each other for ever. *)
From S2P Require Import Prelude Bytes NodePool ShardedStack.

(** ** The specification: 64 stacks, pushed to and popped from atomically

    A push goes to the stack of its processor.  A pop visits the stacks in order
    from [start]: it takes the top of the first one it does not find empty, and
    fails only when it has found each of them empty once. *)

Inductive acall := AIdle | APushing (v : Z) (h : nat) | APopping (start k : nat) | APopped (v : Z).
Record Spec := mkSpec { a_stacks : list (list Z); a_calls : list acall }.

Definition visited (start k : nat) : nat := ((start + k) mod secShardCount)%nat.

Inductive spec_step : Spec → list event → Spec → Prop :=
| SCallPush S T t v pid : T !! t = Some AIdle →
    spec_step (mkSpec S T) [EvCall t (CallPush v pid)] (mkSpec S (<[t := APushing v (shard_of pid)]> T))
| SCallPop S T t pid start : T !! t = Some AIdle →
    spec_step (mkSpec S T) [EvCall t (CallPop pid start)] (mkSpec S (<[t := APopping (shard_of start) 0]> T))
| SPush S T t v h st : T !! t = Some (APushing v h) → S !! h = Some st →
    spec_step (mkSpec S T) [EvRet t RetPush] (mkSpec (<[h := v :: st]> S) (<[t := AIdle]> T))
| SEmpty S T t start k : T !! t = Some (APopping start k) → (k < secShardCount)%nat → S !! visited start k = Some [] →
    spec_step (mkSpec S T) [] (mkSpec S (<[t := APopping start (k + 1)]> T))
| SPop S T t start k v st : T !! t = Some (APopping start k) → (k < secShardCount)%nat → S !! visited start k = Some (v :: st) →
    spec_step (mkSpec S T) [] (mkSpec (<[visited start k := st]> S) (<[t := APopped v]> T))
| SRetPop S T t v : T !! t = Some (APopped v) →
    spec_step (mkSpec S T) [EvRet t (RetPop (Some v))] (mkSpec S (<[t := AIdle]> T))
| SRetNone S T t start : T !! t = Some (APopping start secShardCount) →
    spec_step (mkSpec S T) [EvRet t (RetPop None)] (mkSpec S (<[t := AIdle]> T)).

Inductive spec_steps : Spec → list event → Spec → Prop :=
| SNil a : spec_steps a [] a
| SCons a e1 a1 e2 a2 : spec_step a e1 a1 → spec_steps a1 e2 a2 → spec_steps a (e1 ++ e2) a2.

Definition start_spec (n : nat) : Spec := mkSpec (replicate secShardCount []) (replicate n AIdle).

Lemma spec_one a e a' : spec_step a e a' → spec_steps a e a'.
Proof. intros H. rewrite <- (app_nil_r e). econstructor; [done|constructor]. Qed.

Lemma spec_app a e1 a1 e2 a2 : spec_steps a e1 a1 → spec_steps a1 e2 a2 → spec_steps a (e1 ++ e2) a2.
Proof. induction 1; [done|]. intros. rewrite <- app_assoc. econstructor; eauto. Qed.

(** ** Fields of nodes by index *)

Definition field (f : ElimNode → Z) (ns : list ElimNode) (i : Z) : Z := default 0 (f <$> ns !! Z.to_nat i).

Lemma at_node_field i f ns : 0 < i < Z.of_nat (length ns) →
  ∃ ns', at_node i f ns = Some ns' ∧ length ns' = length ns ∧
    ∀ g j, field g ns' j = if decide (j = i) then field (g ∘ f) ns i else field g ns j.
Proof.
  intros Hi. unfold at_node. destruct (lookup_lt_is_Some_2 ns (Z.to_nat i)) as [n Hn]; [lia|]. rewrite Hn. simpl.
  eexists. split; [done|]. split; [apply length_insert|]. intros g j. unfold field. destruct (decide (j = i)) as [->|Hne].
  - rewrite list_lookup_insert_eq by lia. by rewrite Hn.
  - by rewrite list_lookup_insert_ne by lia.
Qed.

Lemma field_in f ns i : 0 <= i < Z.of_nat (length ns) → ∃ n, ns !! Z.to_nat i = Some n ∧ field f ns i = f n.
Proof. intros Hi. destruct (lookup_lt_is_Some_2 ns (Z.to_nat i)) as [n Hn]; [lia|]. exists n. unfold field. by rewrite Hn. Qed.

(** A store into one field leaves the others. *)
Lemma store_value_spec i x ns : 0 < i < Z.of_nat (length ns) →
  ∃ ns', store_value i x ns = Some ns' ∧ length ns' = length ns ∧
    (∀ j, field value ns' j = if decide (j = i) then x else field value ns j) ∧
    (∀ j, field next ns' j = field next ns j) ∧ ∀ j, field freeNext ns' j = field freeNext ns j.
Proof.
  intros Hi. destruct (at_node_field i (λ n, mkNode x (next n) (freeNext n)) ns Hi) as (ns' & E & Hl & Hf).
  destruct (field_in value ns i) as (n & Hn & _); [lia|].
  exists ns'. split_and!; [done|done|..]; intros j; rewrite Hf; destruct (decide (j = i)) as [->|]; try done; unfold field; by rewrite Hn.
Qed.

Lemma store_next_spec i x ns : 0 < i < Z.of_nat (length ns) →
  ∃ ns', store_next i x ns = Some ns' ∧ length ns' = length ns ∧
    (∀ j, field next ns' j = if decide (j = i) then x else field next ns j) ∧
    (∀ j, field value ns' j = field value ns j) ∧ ∀ j, field freeNext ns' j = field freeNext ns j.
Proof.
  intros Hi. destruct (at_node_field i (λ n, mkNode (value n) x (freeNext n)) ns Hi) as (ns' & E & Hl & Hf).
  destruct (field_in value ns i) as (n & Hn & _); [lia|].
  exists ns'. split_and!; [done|done|..]; intros j; rewrite Hf; destruct (decide (j = i)) as [->|]; try done; unfold field; by rewrite Hn.
Qed.

Lemma store_freeNext_spec i x ns : 0 < i < Z.of_nat (length ns) →
  ∃ ns', store_freeNext i x ns = Some ns' ∧ length ns' = length ns ∧
    (∀ j, field freeNext ns' j = if decide (j = i) then x else field freeNext ns j) ∧
    (∀ j, field value ns' j = field value ns j) ∧ ∀ j, field next ns' j = field next ns j.
Proof.
  intros Hi. destruct (at_node_field i (λ n, mkNode (value n) (next n) x) ns Hi) as (ns' & E & Hl & Hf).
  destruct (field_in value ns i) as (n & Hn & _); [lia|].
  exists ns'. split_and!; [done|done|..]; intros j; rewrite Hf; destruct (decide (j = i)) as [->|]; try done; unfold field; by rewrite Hn.
Qed.

(** ** What a goroutine holds *)

Definition freeing (dc : secDeepCache) : Z := dc_indices dc !!! dc_count dc.

Definition held (g : Goroutine) : list Z :=
  match g_pc g with
  | Filling _ _ _ _ (ACount idx) => [idx]
  | PushValue _ _ idx | PushLoad _ idx | PushLink _ idx _ | PushCas _ idx _ | PopRead _ idx => [idx]
  | Draining _ _ idx _ FCount => [idx]
  | Draining _ _ idx _ _ => [idx; freeing (g_cache g)]
  | _ => []
  end.

Definition filled_upto (g : Goroutine) : nat :=
  match g_pc g with Filling _ _ _ i _ => i | _ => dc_count (g_cache g) end.

Definition g_owned (g : Goroutine) : list Z := held g ++ take (filled_upto g) (dc_indices (g_cache g)).

Definition free_view (g : Goroutine) : lview :=
  match g_pc g with
  | Filling _ pid _ _ (ANext probe _ head) => LPop (alloc_shard pid probe) head None
  | Filling _ pid _ _ (ACas probe _ head np) => LPop (alloc_shard pid probe) head (Some np)
  | Draining _ pid _ _ (FCas head) => LPush pid (freeing (g_cache g)) head
  | _ => LNone
  end.

Definition stack_view (g : Goroutine) : lview :=
  match g_pc g with
  | PushCas pid idx cur => LPush pid idx cur
  | PopNext _ start probe cur => LPop (popped_shard start probe) cur None
  | PopCas _ start probe cur np => LPop (popped_shard start probe) cur (Some np)
  | _ => LNone
  end.

(** ** Calm steps

    A step that would install the empty head in a list while another goroutine,
    having loaded that list's head, is still to compare it, is not calm.  This rules
    out more than the runs that go wrong: those in which that goroutine's
    compare-and-swap then meets the same head again. *)

Definition other_pops (view : Goroutine → lview) (h t : nat) (gs : list Goroutine) : bool :=
  existsb (λ ug, negb (bool_decide (ug.1 = t)) && bool_decide (pops h (view ug.2))) (imap pair gs).

(** The list a goroutine's next step empties, when its compare-and-swap would
    succeed. *)
Definition empties (heads : list Z) (v : lview) : option nat :=
  match v with
  | LPop h cur (Some np) => if decide (elimIndex np = NullOffset64 ∧ heads !! h = Some cur) then Some h else None
  | _ => None
  end.

Definition calm_on (view : Goroutine → lview) (heads : list Z) (t : nat) (g : Goroutine) (gs : list Goroutine) : bool :=
  match empties heads (view g) with Some h => negb (other_pops view h t gs) | None => true end.

Definition calm_step (ch : choice) (s : Sys) : bool :=
  match ch with
  | Start _ _ => true
  | Step t =>
      match s_gs s !! t with
      | Some g => calm_on free_view (freeShards (sm_pool (s_mem s))) t g (s_gs s) && calm_on stack_view (sm_shards (s_mem s)) t g (s_gs s)
      | None => true
      end
  end.

Fixpoint calm_run (chs : list choice) (s : Sys) : bool :=
  match chs with
  | [] => true
  | ch :: chs' => calm_step ch s && match sys_step ch s with Some (s', _) => calm_run chs' s' | None => true end
  end.

Lemma calm_others view heads t g gs h cur np :
  calm_on view heads t g gs = true → view g = LPop h cur (Some np) → heads !! h = Some cur → elimIndex np = NullOffset64 →
  ∀ u w, u ≠ t → map view gs !! u = Some w → ¬ pops h w.
Proof.
  unfold calm_on, empties. intros Hc Ev Hh Hn. rewrite Ev, decide_True in Hc by done. apply negb_true_iff in Hc.
  intros u w Hne Hu Hp. rewrite list_lookup_fmap in Hu. destruct (gs !! u) as [g'|] eqn:Eg; simplify_eq/=.
  unfold other_pops in Hc. rewrite <- not_true_iff_false, existsb_exists in Hc. apply Hc. exists (u, g').
  split; [apply list_elem_of_In, elem_of_lookup_imap; by eauto|]. simpl. rewrite andb_true_iff, negb_true_iff.
  by rewrite bool_decide_eq_false, bool_decide_eq_true.
Qed.

(** ** The invariant *)

Definition pc_ok (count : nat) (p : callPc) : Prop :=
  match p with
  | Idle => True
  | PushCount _ pid => (pid < secShardCount ∧ count = 0)%nat
  | PushValue _ pid _ | PushLoad pid _ | PushCas pid _ _ | PopRead pid _ => (pid < secShardCount)%nat
  | PushLink pid _ cur => (pid < secShardCount)%nat ∧ 0 <= cur
  | Filling _ pid n i _ => (pid < secShardCount ∧ count = 0 ∧ i < n ∧ n <= DeepCacheCap / 2)%nat
  | PopLoad pid _ probe | PopNext pid _ probe _ | PopCas pid _ probe _ _ => (pid < secShardCount ∧ probe < secShardCount)%nat
  | Draining _ pid _ i f =>
      (pid < secShardCount ∧ i < DeepCacheCap / 2 ∧ count + i + 1 = DeepCacheCap)%nat ∧
      match f with FLink head => 0 <= head | _ => True end
  end.

Record g_ok (g : Goroutine) : Prop := {
  go_len : length (dc_indices (g_cache g)) = DeepCacheCap;
  go_count : (dc_count (g_cache g) <= DeepCacheCap)%nat;
  go_pc : pc_ok (dc_count (g_cache g)) (g_pc g);
}.

(** The call of the specification a goroutine is in. *)
Definition call_of (ns : list ElimNode) (g : Goroutine) : acall :=
  match g_pc g with
  | Idle => AIdle
  | PushCount v pid | Filling v pid _ _ _ | PushValue v pid _ => APushing v pid
  | PushLoad pid idx | PushLink pid idx _ | PushCas pid idx _ => APushing (field value ns idx) pid
  | PopLoad _ start probe | PopNext _ start probe _ | PopCas _ start probe _ _ => APopping start probe
  | PopRead _ idx => APopped (field value ns idx)
  | Draining v _ _ _ _ => APopped v
  end.

(** The abstract state of a memory with stacks [S]. *)
Definition abs_of (ns : list ElimNode) (S : list (list Z)) (gs : list Goroutine) : Spec :=
  mkSpec (map (map (field value ns)) S) (map (call_of ns) gs).

Abbreviation s_pool s := (sm_pool (s_mem s)).
Abbreviation s_nodes s := (nodes (s_pool s)).

Record inv (cap G : Z) (s : Sys) (F S : list (list Z)) : Prop := {
  i_cap : Z.of_nat (length (s_nodes s)) = cap;
  i_free : family cap (field freeNext (s_nodes s)) (freeShards (s_pool s)) F G (map free_view (s_gs s));
  i_stack : family cap (field next (s_nodes s)) (sm_shards (s_mem s)) S G (map stack_view (s_gs s));
  i_frees : length (freeShards (s_pool s)) = elimPoolShardCount;
  i_shards : length (sm_shards (s_mem s)) = secShardCount;
  i_own : ∀ i, (occ i (concat F) + occ i (concat S) + occ i (concat (map g_owned (s_gs s))))%nat = (if decide (0 < i < cap)%Z then 1 else 0)%nat;
  i_gs : Forall g_ok (s_gs s);
}.

Lemma abs_ext ns ns' S gs : (∀ j, field value ns' j = field value ns j) → abs_of ns' S gs = abs_of ns S gs.
Proof.
  intros E. unfold abs_of. f_equal.
  - apply map_ext. intros l. by apply map_ext.
  - apply map_ext. intros g. unfold call_of. by destruct (g_pc g); rewrite ?E.
Qed.

Lemma abs_same t g g' ns S gs : gs !! t = Some g → call_of ns g' = call_of ns g → abs_of ns S (<[t := g']> gs) = abs_of ns S gs.
Proof.
  intros Ht E. unfold abs_of. f_equal. rewrite map_update. apply list_insert_id. rewrite E. by rewrite list_lookup_fmap, Ht.
Qed.

(** The value of a node in no stack, that its owner alone holds. *)
Lemma value_abs t g g' idx v pid ns ns' S gs :
  gs !! t = Some g → (∀ j, field value ns' j = if decide (j = idx) then v else field value ns j) →
  idx ∉ concat S → (∀ u h, u ≠ t → gs !! u = Some h → idx ∉ held h) →
  call_of ns g = APushing v pid → call_of ns' g' = APushing v pid → abs_of ns' S (<[t := g']> gs) = abs_of ns S gs.
Proof.
  intros Ht Hval HS Hoth Hg Hg'. unfold abs_of. f_equal.
  - apply list_fmap_ext. intros k l Hl. apply list_fmap_ext. intros k' j Hj. rewrite Hval, decide_False; [done|].
    intros ->. apply HS, elem_of_concat. exists l. split; by eapply list_elem_of_lookup_2.
  - apply list_eq. intros u. rewrite map_update. destruct (decide (u = t)) as [->|Hne].
    + rewrite list_lookup_insert_eq by (rewrite length_map; by eapply lookup_lt_Some). rewrite list_lookup_fmap, Ht. simpl. congruence.
    + rewrite list_lookup_insert_ne, !list_lookup_fmap by done. destruct (gs !! u) as [h|] eqn:Eu; [|done]. simpl. f_equal.
      specialize (Hoth u h Hne Eu). unfold held in Hoth. unfold call_of.
      destruct (g_pc h); try done; rewrite Hval, decide_False; try done; intros ->; by apply Hoth; left.
Qed.

Section Step.
Context (cap G : Z) (Hcap : cap <= 2 ^ 32) (HG : G + 1 < 2 ^ 32).
Context (s : Sys) (F S : list (list Z)) (Hinv : inv cap G s F S).
Context (t : nat) (g : Goroutine) (Ht : s_gs s !! t = Some g).

Lemma here_ok : g_ok g.
Proof. eapply (Forall_lookup_1 _ _ _ _ (i_gs _ _ _ _ _ Hinv)), Ht. Qed.

Lemma here_view (view : Goroutine → lview) : map view (s_gs s) !! t = Some (view g).
Proof. by rewrite list_lookup_fmap, Ht. Qed.

Lemma owned_here : map g_owned (s_gs s) !! t = Some (g_owned g).
Proof. by rewrite list_lookup_fmap, Ht. Qed.

Lemma owned_range i : i ∈ g_owned g → 0 < i < cap ∧ (i ∉ concat F) ∧ (i ∉ concat S).
Proof.
  intros Hi%occ_elem. pose proof (occ_part i _ _ _ owned_here) as Hp. pose proof (i_own _ _ _ _ _ Hinv i) as Ho.
  rewrite !occ_elem. destruct (decide (0 < i < cap)); lia.
Qed.

Lemma owned_other i u g' : u ≠ t → s_gs s !! u = Some g' → i ∈ g_owned g → i ∉ g_owned g'.
Proof.
  intros Hne Hu Hi%occ_elem. assert (map g_owned (s_gs s) !! u = Some (g_owned g')) as Hu' by (by rewrite list_lookup_fmap, Hu).
  pose proof (occ_parts i _ _ _ _ _ Hne Hu' owned_here) as Hp. pose proof (i_own _ _ _ _ _ Hinv i) as Ho.
  rewrite occ_elem. destruct (decide (0 < i < cap)); lia.
Qed.

Lemma listed_range i : i ∈ concat F ∨ i ∈ concat S → 0 < i < cap.
Proof. rewrite !occ_elem. pose proof (i_own _ _ _ _ _ Hinv i) as Ho. destruct (decide (0 < i < cap)); lia. Qed.

(** The state after a step of [t], from its parts. *)
Lemma inv_after m' g' F' S' :
  Z.of_nat (length (nodes (sm_pool m'))) = cap →
  family cap (field freeNext (nodes (sm_pool m'))) (freeShards (sm_pool m')) F' (G + 1) (<[t := free_view g']> (map free_view (s_gs s))) →
  family cap (field next (nodes (sm_pool m'))) (sm_shards m') S' (G + 1) (<[t := stack_view g']> (map stack_view (s_gs s))) →
  length (freeShards (sm_pool m')) = elimPoolShardCount → length (sm_shards m') = secShardCount →
  (∀ i, occ i (concat F') + occ i (concat S') + occ i (g_owned g') = occ i (concat F) + occ i (concat S) + occ i (g_owned g))%nat →
  g_ok g' → inv cap (G + 1) (mkSys m' (<[t := g']> (s_gs s))) F' S'.
Proof.
  intros H1 H2 H3 H4 H5 H6 H7. split; simpl; rewrite ?map_update; try done.
  - intros i. pose proof (occ_update i _ _ _ (g_owned g') owned_here) as Hu. pose proof (i_own _ _ _ _ _ Hinv i) as Ho.
    specialize (H6 i). destruct (decide (0 < i < cap)); lia.
  - apply Forall_insert; [|done]. apply (i_gs _ _ _ _ _ Hinv).
Qed.

(** A step that changes no node and no head. *)
Lemma inv_local m' g' :
  nodes (sm_pool m') = s_nodes s → freeShards (sm_pool m') = freeShards (s_pool s) → sm_shards m' = sm_shards (s_mem s) →
  view_ok cap (field freeNext (s_nodes s)) (freeShards (s_pool s)) (free_view g') →
  view_ok cap (field next (s_nodes s)) (sm_shards (s_mem s)) (stack_view g') →
  (∀ i, occ i (g_owned g') = occ i (g_owned g)) → g_ok g' →
  inv cap (G + 1) (mkSys m' (<[t := g']> (s_gs s))) F S.
Proof.
  intros E1 E2 E3 V1 V2 Ho Hg. apply inv_after; rewrite ?E1, ?E2, ?E3; try apply Hinv; try done.
  - apply family_local; [|done]. eapply family_mono; [|apply Hinv]. lia.
  - apply family_local; [|done]. eapply family_mono; [|apply Hinv]. lia.
  - intros i. rewrite Ho. lia.
Qed.

(** ** Steps *)

Definition events_of (r : option Ret) : list event := match r with Some r => [EvRet t r] | None => [] end.

(** What a step of [t] must do. *)
Definition simulated : Prop :=
  ∃ m' g' r F' S', call_step (s_mem s) g = Some (m', g', r) ∧
    inv cap (G + 1) (mkSys m' (<[t := g']> (s_gs s))) F' S' ∧
    spec_steps (abs_of (s_nodes s) S (s_gs s)) (events_of r) (abs_of (nodes (sm_pool m')) S' (<[t := g']> (s_gs s))).

(** A step that changes no node and no head. *)
Lemma local_step m' g' r :
  call_step (s_mem s) g = Some (m', g', r) →
  nodes (sm_pool m') = s_nodes s → freeShards (sm_pool m') = freeShards (s_pool s) → sm_shards m' = sm_shards (s_mem s) →
  view_ok cap (field freeNext (s_nodes s)) (freeShards (s_pool s)) (free_view g') →
  view_ok cap (field next (s_nodes s)) (sm_shards (s_mem s)) (stack_view g') →
  (∀ i, occ i (g_owned g') = occ i (g_owned g)) → g_ok g' →
  spec_steps (abs_of (s_nodes s) S (s_gs s)) (events_of r)
    (mkSpec (map (map (field value (s_nodes s))) S) (<[t := call_of (s_nodes s) g']> (map (call_of (s_nodes s)) (s_gs s)))) →
  simulated.
Proof.
  intros E H1 H2 H3 V1 V2 Ho Hg Hs. exists m', g', r, F, S. split; [done|]. split; [by apply inv_local|].
  rewrite H1. unfold abs_of. by rewrite map_update.
Qed.

(** ... and that the specification does not see. *)
Lemma silent_step m' g' :
  call_step (s_mem s) g = Some (m', g', None) →
  nodes (sm_pool m') = s_nodes s → freeShards (sm_pool m') = freeShards (s_pool s) → sm_shards m' = sm_shards (s_mem s) →
  view_ok cap (field freeNext (s_nodes s)) (freeShards (s_pool s)) (free_view g') →
  view_ok cap (field next (s_nodes s)) (sm_shards (s_mem s)) (stack_view g') →
  (∀ i, occ i (g_owned g') = occ i (g_owned g)) → g_ok g' → call_of (s_nodes s) g' = call_of (s_nodes s) g →
  simulated.
Proof.
  intros E H1 H2 H3 V1 V2 Ho Hg Hc. eapply local_step; try done. rewrite Hc, list_insert_id; [constructor|].
  by rewrite list_lookup_fmap, Ht.
Qed.

Lemma refill_bounds p : (1 <= refill_size p <= DeepCacheCap / 2)%nat.
Proof. unfold refill_size. change (DeepCacheCap / 2)%nat with 64%nat. repeat case_decide; lia. Qed.

Lemma free_head h : (h < elimPoolShardCount)%nat → ∃ hd, freeShards (s_pool s) !! h = Some hd.
Proof. intros Hh. apply lookup_lt_is_Some_2. by rewrite (i_frees _ _ _ _ _ Hinv). Qed.

Lemma stack_head h : (h < secShardCount)%nat → ∃ hd, sm_shards (s_mem s) !! h = Some hd.
Proof. intros Hh. apply lookup_lt_is_Some_2. by rewrite (i_shards _ _ _ _ _ Hinv). Qed.

Lemma alloc_shard_lt pid probe : (alloc_shard pid probe < elimPoolShardCount)%nat.
Proof. apply Nat.mod_upper_bound. discriminate. Qed.

(** The first node behind a head is a node of the pool. *)
Lemma first_range (lk : Z → Z) heads C vs h hd :
  family cap lk heads C G vs → (∀ i, i ∈ concat C → 0 < i < cap) → heads !! h = Some hd → elimIndex hd ≠ NullOffset64 →
  0 < elimIndex hd < cap.
Proof.
  intros [H1 _ _] Hr Hh Hn. destruct (Forall2_lookup_l _ _ _ _ _ H1 Hh) as (l & Hl & Hch).
  destruct (chain_inhabited _ _ _ Hch Hn) as (l' & -> & _). apply Hr, elem_of_concat. eexists. split; [by left|].
  by eapply list_elem_of_lookup_2.
Qed.

Lemma free_first h hd : freeShards (s_pool s) !! h = Some hd → elimIndex hd ≠ NullOffset64 → 0 < elimIndex hd < cap.
Proof. intros Hh Hn. eapply first_range; [exact (i_free _ _ _ _ _ Hinv)| |done|done]. intros i Hi. apply listed_range. by left. Qed.

Lemma stack_first h hd : sm_shards (s_mem s) !! h = Some hd → elimIndex hd ≠ NullOffset64 → 0 < elimIndex hd < cap.
Proof. intros Hh Hn. eapply first_range; [exact (i_stack _ _ _ _ _ Hinv)| |done|done]. intros i Hi. apply listed_range. by right. Qed.

Lemma free_here : view_ok cap (field freeNext (s_nodes s)) (freeShards (s_pool s)) (free_view g).
Proof. eapply (fam_views _ _ _ _ _ _ (i_free _ _ _ _ _ Hinv)), here_view. Qed.

Lemma stack_here : view_ok cap (field next (s_nodes s)) (sm_shards (s_mem s)) (stack_view g).
Proof. eapply (fam_views _ _ _ _ _ _ (i_stack _ _ _ _ _ Hinv)), here_view. Qed.

(** The parts of a step that follow from where the call stands. *)
Ltac at_pc Hpc := pose proof here_ok as [Hlen Hcnt Hpok]; rewrite Hpc in Hpok; cbn [pc_ok] in Hpok.
Ltac routine Hpc :=
  solve [done | by split | unfold call_of; by rewrite Hpc | intros ?; unfold g_owned, held, filled_upto; by rewrite Hpc].

Lemma step_PushCount v pid : g_pc g = PushCount v pid → simulated.
Proof.
  intros Hpc. at_pc Hpc. destruct Hpok as [Hpid H0]. pose proof (refill_bounds (s_pool s)) as Hn.
  eapply silent_step; [unfold call_step; rewrite Hpc; reflexivity|..]; try routine Hpc.
  intros i. unfold g_owned, held, filled_upto. rewrite Hpc. simpl. by rewrite H0.
Qed.

Lemma next_probe_load probe : ∃ p, next_probe probe = ALoad p 0.
Proof. unfold next_probe. case_decide; by eexists. Qed.

Lemma next_retry_load probe retry : ∃ p r, next_retry probe retry = ALoad p r.
Proof. unfold next_retry. case_decide; [by eexists _, _|]. destruct (next_probe_load probe) as [p ->]. by eexists _, _. Qed.

Lemma step_ALoad v pid n i probe retry : g_pc g = Filling v pid n i (ALoad probe retry) → simulated.
Proof.
  intros Hpc. at_pc Hpc. destruct (free_head _ (alloc_shard_lt pid probe)) as [hd Hhd].
  assert (call_step (s_mem s) g = Some (s_mem s, mkG (g_cache g) (Filling v pid n i
    (if decide (elimIndex hd = NullOffset64) then next_probe probe else ANext probe retry hd)), None)) as E.
  { unfold call_step. rewrite Hpc. unfold alloc_step. rewrite Hhd. simpl. by destruct (s_mem s). }
  destruct (decide (elimIndex hd = NullOffset64)) as [Hz|Hz].
  - destruct (next_probe_load probe) as [p Ep]. rewrite Ep in E. eapply silent_step; [exact E|..]; routine Hpc.
  - eapply silent_step; [exact E|..]; try routine Hpc.
    simpl. eapply view_load; [exact (i_free _ _ _ _ _ Hinv)|done|by eapply free_first].
Qed.

Lemma step_ANext v pid n i probe retry head : g_pc g = Filling v pid n i (ANext probe retry head) → simulated.
Proof.
  intros Hpc. at_pc Hpc. pose proof free_here as Hv. unfold free_view in Hv. rewrite Hpc in Hv.
  destruct (field_in freeNext (s_nodes s) (elimIndex head)) as (nd & Hnd & Ef).
  { rewrite (i_cap _ _ _ _ _ Hinv). destruct Hv as (_ & Hr & _). lia. }
  eapply silent_step; [unfold call_step; rewrite Hpc; unfold alloc_step; rewrite Hnd; simpl; reflexivity|..]; try routine Hpc.
  simpl. rewrite <- Ef. by apply view_link.
Qed.

Lemma cas_here h old new heads hd : heads !! h = Some hd →
  cas h old new heads = Some (if decide (hd = old) then (true, <[h := new]> heads) else (false, heads)).
Proof. intros E. unfold cas. by rewrite E. Qed.

Lemma step_ACas v pid n i probe retry head np :
  calm_on free_view (freeShards (s_pool s)) t g (s_gs s) = true →
  g_pc g = Filling v pid n i (ACas probe retry head np) → simulated.
Proof.
  intros Hcalm Hpc. at_pc Hpc. destruct (free_head _ (alloc_shard_lt pid probe)) as [hd Hhd].
  assert (free_view g = LPop (alloc_shard pid probe) head (Some np)) as Ev by (unfold free_view; by rewrite Hpc).
  destruct (decide (hd = head)) as [->|Hne].
  - destruct (family_pop cap _ _ _ _ _ t (alloc_shard pid probe) head np (i_free _ _ _ _ _ Hinv) HG) as (c & Hc & Hfam);
      [by rewrite here_view, Ev|done|by eapply calm_others|].
    eexists _, (mkG (g_cache g) (Filling v pid n i (ACount (elimIndex head)))), None, _, S. split; [|split].
    + unfold call_step. rewrite Hpc. unfold alloc_step. rewrite (cas_here _ _ _ _ _ Hhd), decide_True by done. reflexivity.
    + apply inv_after; simpl; try apply Hinv; [done| | | |by split].
      * apply family_local; [|done]. eapply family_mono; [|apply Hinv]. lia.
      * rewrite length_insert. apply Hinv.
      * intros j. pose proof (occ_update j _ _ _ c Hc) as Ho. simpl in Ho. unfold g_owned, held, filled_upto. rewrite Hpc. simpl. lia.
    + simpl. rewrite (abs_same t g) by (done || unfold call_of; by rewrite Hpc). constructor.
  - destruct (next_retry_load probe retry) as (p' & r' & Er). 
    eapply silent_step; [unfold call_step; rewrite Hpc; unfold alloc_step; rewrite (cas_here _ _ _ _ _ Hhd), decide_False by done;
      simpl; rewrite Er; reflexivity|..]; routine Hpc.
Qed.

Lemma take_snoc_insert (l : list Z) i x : (i < length l)%nat → take (i + 1) (<[i := x]> l) = take i l ++ [x].
Proof.
  intros Hi. rewrite Nat.add_1_r, (take_S_r _ _ x) by by apply list_lookup_insert_eq. by rewrite take_insert_ge.
Qed.

Lemma step_ACount v pid n i idx : g_pc g = Filling v pid n i (ACount idx) → simulated.
Proof.
  intros Hpc. at_pc Hpc. destruct Hpok as (Hpid & H0 & Hi & Hn). change (DeepCacheCap / 2)%nat with 64%nat in Hn.
  assert (i < length (dc_indices (g_cache g)))%nat as Hil by (rewrite Hlen; unfold DeepCacheCap; lia).
  destruct (lookup_lt_is_Some_2 _ _ Hil) as [old Hold].
  assert (∀ j, occ j (take (i + 1) (<[i := idx]> (dc_indices (g_cache g)))) = occ j (g_owned g)) as Ho.
  { intros j. rewrite take_snoc_insert by done. unfold g_owned, held, filled_upto. rewrite Hpc. simpl. rewrite occ_app. simpl. lia. }
  assert (call_step (s_mem s) g = if decide (i + 1 < n)%nat then
      Some (mkSM (with_count (count (s_pool s) + 1) (s_pool s)) (sm_shards (s_mem s)),
        mkG (mkCache (<[i := idx]> (dc_indices (g_cache g))) (dc_count (g_cache g))) (Filling v pid n (i + 1) (ALoad 0 0)), None)
    else Some (mkSM (with_count (count (s_pool s) + 1) (s_pool s)) (sm_shards (s_mem s)),
        mkG (mkCache (<[i := idx]> (dc_indices (g_cache g))) i) (PushValue v pid idx), None)) as E.
  { unfold call_step. rewrite Hpc. simpl. rewrite Hold. simpl. rewrite <- Nat.add_1_r. case_decide; [done|].
    assert (n = Datatypes.S i) as -> by lia. unfold take_cached. simpl. by rewrite list_lookup_insert_eq. }
  destruct (decide (i + 1 < n)%nat) as [Hlt|Hge]; (eapply silent_step; [exact E|..]; try routine Hpc).
  - split; simpl; [by rewrite length_insert|done|]. split_and!; [done|done|lia|done].
  - intros j. rewrite <- Ho. unfold g_owned, held, filled_upto. simpl.
    rewrite take_snoc_insert, take_insert_ge, occ_app by done. simpl. lia.
  - split; simpl; [by rewrite length_insert|unfold DeepCacheCap; lia|done].
Qed.

Lemma step_PushValue v pid idx : g_pc g = PushValue v pid idx → simulated.
Proof.
  intros Hpc. at_pc Hpc. assert (idx ∈ g_owned g) as Hin by (unfold g_owned, held; rewrite Hpc; by left).
  destruct (owned_range idx Hin) as (Hr & HiF & HiS). pose proof (i_cap _ _ _ _ _ Hinv) as Hlc.
  destruct (store_value_spec idx v (s_nodes s)) as (ns & Est & Hl & Hval & Hnx & Hfn); [lia|].
  eexists _, (mkG (g_cache g) (PushLoad pid idx)), None, F, S. split; [|split].
  - unfold call_step. rewrite Hpc, Est. reflexivity.
  - apply inv_after; simpl; try apply Hinv; [lia| | |intros j; unfold g_owned, held, filled_upto; by rewrite Hpc|by split].
    + eapply family_ext; [done|]. apply family_local; [|done]. eapply family_mono; [|apply Hinv]. lia.
    + eapply family_ext; [done|]. apply family_local; [|done]. eapply family_mono; [|apply Hinv]. lia.
  - simpl. rewrite (value_abs t g _ idx v pid (s_nodes s)); [constructor|done|done|done| |unfold call_of; by rewrite Hpc|].
    + intros u h Hne Hu Hh. eapply owned_other; [done|done|exact Hin|]. apply elem_of_app. by left.
    + unfold call_of. simpl. by rewrite Hval, decide_True.
Qed.

Lemma step_PushLoad pid idx : g_pc g = PushLoad pid idx → simulated.
Proof.
  intros Hpc. at_pc Hpc. destruct (stack_head pid Hpok) as [hd Hhd].
  eapply silent_step; [unfold call_step; rewrite Hpc, Hhd; reflexivity|..]; try routine Hpc.
  split; simpl; [done|done|]. split; [done|]. eapply head_gen; [exact (i_stack _ _ _ _ _ Hinv)|done].
Qed.

(** The index of a push is the goroutine's own. *)
Lemma pushing_stack u g' h idx cur : s_gs s !! u = Some g' → stack_view g' = LPush h idx cur → idx ∈ g_owned g'.
Proof. unfold stack_view, g_owned, held. intros _ E. destruct (g_pc g'); simplify_eq/=. by left. Qed.

Lemma pushing_free u g' h idx cur : s_gs s !! u = Some g' → free_view g' = LPush h idx cur → idx ∈ g_owned g'.
Proof.
  unfold free_view, g_owned, held. intros _ E. destruct (g_pc g') as [| | v p n i a| | | | | | | | |v p ix i f]; try done;
    [by destruct a|]. destruct f; simplify_eq/=. right. by left.
Qed.

Lemma others_push (view : Goroutine → lview) i :
  (∀ u g' h idx cur, s_gs s !! u = Some g' → view g' = LPush h idx cur → idx ∈ g_owned g') → i ∈ g_owned g →
  ∀ u h idx cur, u ≠ t → map view (s_gs s) !! u = Some (LPush h idx cur) → idx ≠ i.
Proof.
  intros Hown Hi u h idx cur Hne Hu ->. rewrite list_lookup_fmap in Hu. destruct (s_gs s !! u) as [g'|] eqn:Eu; simplify_eq/=.
  eapply owned_other; [exact Hne|exact Eu|exact Hi|]. by eapply Hown.
Qed.

Lemma step_PushLink pid idx cur : g_pc g = PushLink pid idx cur → simulated.
Proof.
  intros Hpc. at_pc Hpc. destruct Hpok as [Hpid Hcur]. assert (idx ∈ g_owned g) as Hin by (unfold g_owned, held; rewrite Hpc; by left).
  destruct (owned_range idx Hin) as (Hr & HiF & HiS). pose proof (i_cap _ _ _ _ _ Hinv) as Hlc.
  destruct (store_next_spec idx cur (s_nodes s)) as (ns & Est & Hl & Hnx & Hval & Hfn); [lia|].
  eexists _, (mkG (g_cache g) (PushCas pid idx cur)), None, F, S. split; [|split].
  - unfold call_step. rewrite Hpc, Est. reflexivity.
  - apply inv_after; simpl; try apply Hinv; [lia| | |intros j; unfold g_owned, held, filled_upto; by rewrite Hpc|by split].
    + eapply family_ext; [done|]. apply family_local; [|done]. eapply family_mono; [|apply Hinv]. lia.
    + eapply family_link; [intros j Hj; by rewrite Hnx, decide_False|done|by eapply others_push; [apply pushing_stack|]| |
        eapply family_mono; [|apply Hinv]; lia].
      simpl. rewrite Hnx, decide_True, (i_shards _ _ _ _ _ Hinv) by done. done.
  - simpl. rewrite (abs_ext (s_nodes s) ns) by done. rewrite (abs_same t g); [constructor|done|]. unfold call_of. by rewrite Hpc.
Qed.

Lemma step_PushCas pid idx cur : g_pc g = PushCas pid idx cur → simulated.
Proof.
  intros Hpc. at_pc Hpc. destruct (stack_head pid Hpok) as [hd Hhd].
  assert (stack_view g = LPush pid idx cur) as Ev by (unfold stack_view; by rewrite Hpc).
  destruct (decide (hd = cur)) as [->|Hne].
  - destruct (family_push cap Hcap _ _ _ _ _ t pid idx cur (i_stack _ _ _ _ _ Hinv) HG) as (c & Hc & Hfam);
      [by rewrite here_view, Ev|done|].
    eexists _, (mkG (g_cache g) Idle), (Some RetPush), F, _. split; [|split].
    + unfold call_step. rewrite Hpc, (cas_here _ _ _ _ _ Hhd), decide_True by done. reflexivity.
    + apply inv_after; simpl; try apply Hinv; [|exact Hfam| | |by split].
      * apply family_local; [|done]. eapply family_mono; [|apply Hinv]. lia.
      * rewrite length_insert. apply Hinv.
      * intros j. pose proof (occ_update j _ _ _ (idx :: c) Hc) as Ho. simpl in Ho. unfold g_owned, held, filled_upto. rewrite Hpc. simpl. lia.
    + simpl. unfold abs_of. rewrite !map_update. apply spec_one, (SPush _ _ _ _ _ (map (field value (s_nodes s)) c)).
      * rewrite list_lookup_fmap, Ht. simpl. unfold call_of. by rewrite Hpc.
      * by rewrite list_lookup_fmap, Hc.
  - eapply silent_step; [unfold call_step; rewrite Hpc, (cas_here _ _ _ _ _ Hhd), decide_False by done; reflexivity|..]; routine Hpc.
Qed.

Lemma popped_visited start probe : popped_shard start probe = visited start probe.
Proof.
  unfold popped_shard, visited. change (Z.of_nat secShardCount - 1) with (Z.ones 6). rewrite Z.land_ones by done.
  rewrite <- Nat2Z.inj_add. change (2 ^ 6) with (Z.of_nat 64). rewrite <- Nat2Z.inj_mod. apply Nat2Z.id.
Qed.

Lemma visited_lt start k : (visited start k < secShardCount)%nat.
Proof. apply Nat.mod_upper_bound. discriminate. Qed.

Lemma empty_stack h hd : sm_shards (s_mem s) !! h = Some hd → elimIndex hd = NullOffset64 → S !! h = Some [].
Proof.
  intros Hh Hz. destruct (Forall2_lookup_l _ _ _ _ _ (fam_chain _ _ _ _ _ _ (i_stack _ _ _ _ _ Hinv)) Hh) as (l & Hl & Hch).
  destruct l as [|i l]; [done|]. destruct Hch as (E & Hi & _). congruence.
Qed.

Lemma calls_here : map (call_of (s_nodes s)) (s_gs s) !! t = Some (call_of (s_nodes s) g).
Proof. by rewrite list_lookup_fmap, Ht. Qed.

Lemma step_PopLoad pid start probe : g_pc g = PopLoad pid start probe → simulated.
Proof.
  intros Hpc. at_pc Hpc. destruct Hpok as [Hpid Hprobe]. pose proof (visited_lt start probe) as Hvis.
  destruct (stack_head (popped_shard start probe)) as [hd Hhd]; [by rewrite popped_visited|].
  pose proof calls_here as Hcall. unfold call_of in Hcall. rewrite Hpc in Hcall.
  destruct (decide (elimIndex hd = NullOffset64)) as [Hz|Hz].
  - assert (map (map (field value (s_nodes s))) S !! visited start probe = Some []) as Hst.
    { rewrite list_lookup_fmap, <- popped_visited. by rewrite (empty_stack _ _ Hhd Hz). }
    destruct (decide (probe + 1 < secShardCount)%nat) as [Hlt|Hge].
    + eapply local_step; [unfold call_step; rewrite Hpc, Hhd; simpl; rewrite decide_True, <- (Nat.add_1_r probe), decide_True by done; reflexivity|..];
        try routine Hpc. by apply spec_one, SEmpty.
    + eapply local_step; [unfold call_step; rewrite Hpc, Hhd; simpl; rewrite decide_True, <- (Nat.add_1_r probe), decide_False by done; reflexivity|..];
        try routine Hpc. simpl. change [EvRet t (RetPop None)] with ([] ++ [EvRet t (RetPop None)]).
      eapply SCons; [by apply SEmpty|]. assert (probe + 1 = secShardCount)%nat as -> by lia.
      eapply eq_rect; [apply spec_one, SRetNone with (start := start)|]; [|by rewrite list_insert_insert_eq].
      rewrite list_lookup_insert_eq; [done|]. by eapply lookup_lt_Some.
  - eapply silent_step; [unfold call_step; rewrite Hpc, Hhd; simpl; rewrite decide_False by done; reflexivity|..]; try routine Hpc.
    simpl. eapply view_load; [exact (i_stack _ _ _ _ _ Hinv)|done|by eapply stack_first].
Qed.

Lemma step_PopNext pid start probe cur : g_pc g = PopNext pid start probe cur → simulated.
Proof.
  intros Hpc. at_pc Hpc. pose proof stack_here as Hv. unfold stack_view in Hv. rewrite Hpc in Hv.
  destruct (field_in next (s_nodes s) (elimIndex cur)) as (nd & Hnd & Ef).
  { rewrite (i_cap _ _ _ _ _ Hinv). destruct Hv as (_ & Hr & _). lia. }
  eapply silent_step; [unfold call_step; rewrite Hpc, Hnd; simpl; reflexivity|..]; try routine Hpc.
  simpl. rewrite <- Ef. by apply view_link.
Qed.

Lemma step_PopCas pid start probe cur np :
  calm_on stack_view (sm_shards (s_mem s)) t g (s_gs s) = true → g_pc g = PopCas pid start probe cur np → simulated.
Proof.
  intros Hcalm Hpc. at_pc Hpc. destruct Hpok as [Hpid Hprobe].
  destruct (stack_head (popped_shard start probe)) as [hd Hhd]; [rewrite popped_visited; apply visited_lt|].
  assert (stack_view g = LPop (popped_shard start probe) cur (Some np)) as Ev by (unfold stack_view; by rewrite Hpc).
  destruct (decide (hd = cur)) as [->|Hne].
  - destruct (family_pop cap _ _ _ _ _ t (popped_shard start probe) cur np (i_stack _ _ _ _ _ Hinv) HG) as (c & Hc & Hfam);
      [by rewrite here_view, Ev|done|by eapply calm_others|].
    eexists _, (mkG (g_cache g) (PopRead pid (elimIndex cur))), None, F, _. split; [|split].
    + unfold call_step. rewrite Hpc, (cas_here _ _ _ _ _ Hhd), decide_True by done. reflexivity.
    + apply inv_after; simpl; try apply Hinv; [|exact Hfam| | |by split].
      * apply family_local; [|done]. eapply family_mono; [|apply Hinv]. lia.
      * rewrite length_insert. apply Hinv.
      * intros j. pose proof (occ_update j _ _ _ c Hc) as Ho. simpl in Ho. unfold g_owned, held, filled_upto. rewrite Hpc. simpl. lia.
    + simpl. unfold abs_of. rewrite !map_update, popped_visited in *. apply spec_one, SPop; [|done|].
      * rewrite calls_here. unfold call_of. by rewrite Hpc.
      * by rewrite list_lookup_fmap, Hc.
  - eapply silent_step; [unfold call_step; rewrite Hpc, (cas_here _ _ _ _ _ Hhd), decide_False by done; reflexivity|..]; routine Hpc.
Qed.

(** The popped index goes into a cache with room, and the call returns. *)
Lemma cache_and_return m' v pid idx :
  nodes (sm_pool m') = s_nodes s → freeShards (sm_pool m') = freeShards (s_pool s) → sm_shards m' = sm_shards (s_mem s) →
  (dc_count (g_cache g) < DeepCacheCap)%nat → length (dc_indices (g_cache g)) = DeepCacheCap → (pid < secShardCount)%nat →
  (∀ i, occ i (g_owned g) = occ i (idx :: take (dc_count (g_cache g)) (dc_indices (g_cache g)))) →
  call_of (s_nodes s) g = APopped v →
  call_step (s_mem s) g = (dc' ← cache_index idx (g_cache g); Some (m', mkG dc' Idle, Some (RetPop (Some v)))) → simulated.
Proof.
  intros E1 E2 E3 Hc Hl Hpid Ho Hcall E.
  destruct (lookup_lt_is_Some_2 (dc_indices (g_cache g)) (dc_count (g_cache g))) as [old Hold]; [by rewrite Hl|].
  unfold cache_index in E. rewrite Hold in E. simpl in E. eapply local_step; [exact E|done|done|done|done|done| | |].
  - intros i. rewrite Ho. unfold g_owned, held, filled_upto. simpl. rewrite <- Nat.add_1_r, take_snoc_insert by (by rewrite Hl).
    rewrite occ_app. simpl. lia.
  - split; simpl; [by rewrite length_insert|lia|done].
  - simpl. apply spec_one, SRetPop. rewrite calls_here. by f_equal.
Qed.

(** The last index of the cache is taken out, to be freed. *)
Lemma drain_step m' v pid idx i :
  nodes (sm_pool m') = s_nodes s → freeShards (sm_pool m') = freeShards (s_pool s) → sm_shards m' = sm_shards (s_mem s) →
  (pid < secShardCount)%nat → (i < DeepCacheCap / 2)%nat → (dc_count (g_cache g) + i = DeepCacheCap)%nat →
  length (dc_indices (g_cache g)) = DeepCacheCap →
  (∀ j, occ j (g_owned g) = occ j (idx :: take (dc_count (g_cache g)) (dc_indices (g_cache g)))) →
  call_of (s_nodes s) g = APopped v →
  call_step (s_mem s) g = (g' ← drain_next v pid idx i (g_cache g); Some (m', g', None)) → simulated.
Proof.
  intros E1 E2 E3 Hpid Hi Hc Hl Ho Hcall E. change (DeepCacheCap / 2)%nat with 64%nat in Hi. unfold DeepCacheCap in *.
  unfold drain_next in E. destruct (dc_count (g_cache g)) as [|c] eqn:Ec; [lia|]. simpl in E.
  destruct (lookup_lt_is_Some_2 (dc_indices (g_cache g)) c) as [x Hx]; [rewrite Hl; lia|].
  eapply silent_step; [exact E|done|done|done|done|done| | |by rewrite Hcall].
  - intros j. rewrite Ho. unfold g_owned, held, filled_upto, freeing. simpl. rewrite (take_S_r _ _ _ Hx), occ_app. simpl.
    rewrite (list_lookup_total_correct _ _ _ Hx). lia.
  - split; simpl; [done|unfold DeepCacheCap; lia|]. unfold DeepCacheCap. split_and!; [done|done|lia|done].
Qed.

Lemma step_PopRead pid idx : g_pc g = PopRead pid idx → simulated.
Proof.
  intros Hpc. at_pc Hpc. assert (idx ∈ g_owned g) as Hin by (unfold g_owned, held; rewrite Hpc; by left).
  destruct (owned_range idx Hin) as (Hr & _ & _). destruct (field_in value (s_nodes s) idx) as (nd & Hnd & Ef).
  { rewrite (i_cap _ _ _ _ _ Hinv). lia. }
  assert (call_of (s_nodes s) g = APopped (value nd)) as Hcall by (unfold call_of; by rewrite Hpc, Ef).
  destruct (decide (DeepCacheCap <= dc_count (g_cache g))%nat) as [Hfull|Hroom].
  - eapply (drain_step (s_mem s) (value nd) pid idx 0); try done; [unfold DeepCacheCap; cbv; lia|lia| |].
    + intros j. unfold g_owned, held, filled_upto. by rewrite Hpc.
    + unfold call_step. rewrite Hpc, Hnd. simpl. by rewrite decide_True.
  - eapply (cache_and_return (s_mem s) (value nd) pid idx); try done; [lia| |].
    + intros j. unfold g_owned, held, filled_upto. by rewrite Hpc.
    + unfold call_step. rewrite Hpc, Hnd. simpl. by rewrite decide_False.
Qed.

Lemma freeing_here v pid idx i f : g_pc g = Draining v pid idx i f → dc_indices (g_cache g) !! dc_count (g_cache g) = Some (freeing (g_cache g)).
Proof.
  intros Hpc. at_pc Hpc. destruct Hpok as [(Hpid & Hi & Hc) _]. apply list_lookup_lookup_total_lt. rewrite Hlen. lia.
Qed.

Lemma step_FLoad v pid idx i : g_pc g = Draining v pid idx i FLoad → simulated.
Proof.
  intros Hpc. at_pc Hpc. destruct Hpok as [(Hpid & Hi & Hc) _]. destruct (free_head pid Hpid) as [hd Hhd].
  eapply silent_step; [unfold call_step; rewrite Hpc, (freeing_here _ _ _ _ _ Hpc); simpl; rewrite Hhd; simpl; reflexivity|..];
    try routine Hpc. split; simpl; [done|done|]. split; [done|]. eapply head_gen; [exact (i_free _ _ _ _ _ Hinv)|done].
Qed.

Lemma step_FLink v pid idx i head : g_pc g = Draining v pid idx i (FLink head) → simulated.
Proof.
  intros Hpc. at_pc Hpc. destruct Hpok as [(Hpid & Hi & Hc) Hhead]. set (fi := freeing (g_cache g)).
  assert (fi ∈ g_owned g) as Hin by (unfold g_owned, held; rewrite Hpc; right; by left).
  destruct (owned_range fi Hin) as (Hr & HiF & HiS). pose proof (i_cap _ _ _ _ _ Hinv) as Hlc.
  destruct (store_freeNext_spec fi head (s_nodes s)) as (ns & Est & Hl & Hfn & Hval & Hnx); [lia|].
  eexists _, (mkG (g_cache g) (Draining v pid idx i (FCas head))), None, F, S. split; [|split].
  - unfold call_step. rewrite Hpc, (freeing_here _ _ _ _ _ Hpc). simpl. fold fi. rewrite Est. reflexivity.
  - apply inv_after; simpl; try apply Hinv; [lia| | |intros j; unfold g_owned, held, filled_upto; by rewrite Hpc|by split].
    + eapply family_link; [intros j Hj; by rewrite Hfn, decide_False|done|by eapply others_push; [apply pushing_free|]| |
        eapply family_mono; [|apply Hinv]; lia].
      simpl. fold fi. rewrite Hfn, decide_True, (i_frees _ _ _ _ _ Hinv) by done. done.
    + eapply family_ext; [done|]. apply family_local; [|done]. eapply family_mono; [|apply Hinv]. lia.
  - simpl. rewrite (abs_ext (s_nodes s) ns) by done. rewrite (abs_same t g); [constructor|done|]. unfold call_of. by rewrite Hpc.
Qed.

Lemma step_FCas v pid idx i head : g_pc g = Draining v pid idx i (FCas head) → simulated.
Proof.
  intros Hpc. at_pc Hpc. destruct Hpok as [(Hpid & Hi & Hc) _]. destruct (free_head pid Hpid) as [hd Hhd].
  assert (free_view g = LPush pid (freeing (g_cache g)) head) as Ev by (unfold free_view; by rewrite Hpc).
  destruct (decide (hd = head)) as [->|Hne].
  - destruct (family_push cap Hcap _ _ _ _ _ t pid (freeing (g_cache g)) head (i_free _ _ _ _ _ Hinv) HG) as (c & Hcl & Hfam);
      [by rewrite here_view, Ev|done|].
    eexists _, (mkG (g_cache g) (Draining v pid idx i FCount)), None, _, S. split; [|split].
    + unfold call_step. rewrite Hpc, (freeing_here _ _ _ _ _ Hpc). simpl. rewrite (cas_here _ _ _ _ _ Hhd), decide_True by done. reflexivity.
    + apply inv_after; simpl; try apply Hinv; [exact Hfam| | | |by split].
      * apply family_local; [|done]. eapply family_mono; [|apply Hinv]. lia.
      * rewrite length_insert. apply Hinv.
      * intros j. pose proof (occ_update j _ _ _ (freeing (g_cache g) :: c) Hcl) as Ho. simpl in Ho.
        unfold g_owned, held, filled_upto. rewrite Hpc. simpl. lia.
    + simpl. rewrite (abs_same t g) by (done || unfold call_of; by rewrite Hpc). constructor.
  - eapply silent_step; [unfold call_step; rewrite Hpc, (freeing_here _ _ _ _ _ Hpc); simpl; rewrite (cas_here _ _ _ _ _ Hhd), decide_False by done; reflexivity|..];
      routine Hpc.
Qed.

Lemma step_FCount v pid idx i : g_pc g = Draining v pid idx i FCount → simulated.
Proof.
  intros Hpc. at_pc Hpc. destruct Hpok as [(Hpid & Hi & Hc) _].
  assert (call_of (s_nodes s) g = APopped v) as Hcall by (unfold call_of; by rewrite Hpc).
  assert (∀ j, occ j (g_owned g) = occ j (idx :: take (dc_count (g_cache g)) (dc_indices (g_cache g)))) as Ho
    by (intros j; unfold g_owned, held, filled_upto; by rewrite Hpc).
  set (m' := mkSM (with_count (count (s_pool s) - 1) (s_pool s)) (sm_shards (s_mem s))).
  destruct (decide (i + 1 < DeepCacheCap / 2)%nat) as [Hlt|Hge].
  - eapply (drain_step m' v pid idx (i + 1)); try done; [lia|].
    unfold call_step. rewrite Hpc, (freeing_here _ _ _ _ _ Hpc). simpl. by rewrite <- Nat.add_1_r, decide_True.
  - eapply (cache_and_return m' v pid idx); try done; [lia|].
    unfold call_step. rewrite Hpc, (freeing_here _ _ _ _ _ Hpc). simpl. by rewrite <- Nat.add_1_r, decide_False.
Qed.

End Step.

(** ** Runs *)

Lemma shard_of_lt pid : (shard_of pid < secShardCount)%nat.
Proof.
  unfold shard_of. change (Z.of_nat secShardCount - 1) with (Z.ones 6). rewrite Z.land_ones by done.
  pose proof (Z.mod_pos_bound pid (2 ^ 6) ltac:(done)). unfold secShardCount. lia.
Qed.

(** One operation of a call. *)
Lemma call_step_simulated cap G s F S t g :
  cap <= 2 ^ 32 → G + 1 < 2 ^ 32 → inv cap G s F S → s_gs s !! t = Some g → calm_step (Step t) s = true →
  simulated cap G s S t g.
Proof.
  intros Hcap HG Hinv Ht Hcalm. unfold calm_step in Hcalm. rewrite Ht in Hcalm. apply andb_true_iff in Hcalm as [Hf Hs].
  destruct (g_pc g) as [|v pid|v pid n i [p r|p r h|p r h np|idx]|v pid idx|pid idx|pid idx cur|pid idx cur|pid st pr|pid st pr cur|pid st pr cur np|pid idx|v pid idx i [|h|h|]] eqn:Hpc.
  - eapply silent_step; [done|done|unfold call_step; rewrite Hpc; reflexivity|..]; try done.
    + unfold free_view. by rewrite Hpc.
    + unfold stack_view. by rewrite Hpc.
    + by eapply here_ok.
  - by eapply step_PushCount.
  - by eapply step_ALoad.
  - by eapply step_ANext.
  - by eapply step_ACas.
  - by eapply step_ACount.
  - by eapply step_PushValue.
  - by eapply step_PushLoad.
  - by eapply step_PushLink.
  - by eapply step_PushCas.
  - by eapply step_PopLoad.
  - by eapply step_PopNext.
  - by eapply step_PopCas.
  - by eapply step_PopRead.
  - by eapply step_FLoad.
  - by eapply step_FLink.
  - by eapply step_FCas.
  - by eapply step_FCount.
Qed.

Definition chooser (ch : choice) : nat := match ch with Start t _ | Step t => t end.

(** The first instructions of a call. *)
Lemma start_simulated cap G s F S t g c :
  inv cap G s F S → s_gs s !! t = Some g → g_pc g = Idle →
  ∃ g', start_call c (g_cache g) = Some g' ∧ inv cap (G + 1) (mkSys (s_mem s) (<[t := g']> (s_gs s))) F S ∧
    spec_steps (abs_of (s_nodes s) S (s_gs s)) [EvCall t c] (abs_of (s_nodes s) S (<[t := g']> (s_gs s))).
Proof.
  intros Hinv Ht Hpc. pose proof (here_ok _ _ _ _ _ Hinv _ _ Ht) as [Hlen Hcnt _].
  assert (map (call_of (s_nodes s)) (s_gs s) !! t = Some AIdle) as Hcall.
  { rewrite list_lookup_fmap, Ht. simpl. unfold call_of. by rewrite Hpc. }
  enough (∃ g', start_call c (g_cache g) = Some g' ∧ (∀ i, occ i (g_owned g') = occ i (g_owned g)) ∧ g_ok g' ∧
    free_view g' = LNone ∧ stack_view g' = LNone ∧
    call_of (s_nodes s) g' = match c with CallPush v pid => APushing v (shard_of pid) | CallPop _ st => APopping (shard_of st) 0 end)
    as (g' & E & Ho & Hok & Ef & Es & Ec).
  { exists g'. split; [done|]. split.
    - eapply inv_local; try done; [rewrite Ef; done|rewrite Es; done].
    - unfold abs_of. rewrite map_update, Ec. apply spec_one. destruct c; by constructor. }
  assert (∀ j, occ j (g_owned g) = occ j (take (dc_count (g_cache g)) (dc_indices (g_cache g)))) as Ho.
  { intros j. unfold g_owned, held, filled_upto. by rewrite Hpc. }
  destruct c as [v pid|pid st]; simpl.
  - destruct (decide (dc_count (g_cache g) = 0%nat)) as [H0|H0].
    + eexists. split; [done|]. split_and!; try done. split; simpl; [done|done|]. split; [apply shard_of_lt|done].
    + unfold take_cached. destruct (dc_count (g_cache g)) as [|c] eqn:Ec; [done|].
      destruct (lookup_lt_is_Some_2 (dc_indices (g_cache g)) c) as [x Hx]; [rewrite Hlen; lia|]. rewrite Hx. simpl.
      eexists. split; [done|]. split_and!; try done.
      * intros j. rewrite Ho, (take_S_r _ _ _ Hx), occ_app. unfold g_owned, held, filled_upto. simpl. lia.
      * split; simpl; [done|lia|apply shard_of_lt].
  - eexists. split; [done|]. split_and!; try done. split; simpl; [done|done|]. split; [apply shard_of_lt|unfold secShardCount; lia].
Qed.

Lemma sys_step_simulated cap G s F S ch :
  cap <= 2 ^ 32 → G + 1 < 2 ^ 32 → inv cap G s F S → (chooser ch < length (s_gs s))%nat → calm_step ch s = true →
  ∃ s' ev F' S', sys_step ch s = Some (s', ev) ∧ length (s_gs s') = length (s_gs s) ∧ inv cap (G + 1) s' F' S' ∧
    spec_steps (abs_of (s_nodes s) S (s_gs s)) ev (abs_of (s_nodes s') S' (s_gs s')).
Proof.
  intros Hcap HG Hinv Hlt Hcalm. destruct (lookup_lt_is_Some_2 _ _ Hlt) as [g Ht]. destruct ch as [t c|t]; simpl in *; rewrite Ht; simpl.
  - assert (g_pc g = Idle ∨ g_pc g ≠ Idle) as [Hpc|Hpc] by (destruct (g_pc g); naive_solver).
    + destruct (start_simulated _ _ _ _ _ _ _ c Hinv Ht Hpc) as (g' & E & Hi & Hs). rewrite Hpc, E. simpl.
      eexists _, _, F, S. split; [done|]. split; [apply length_insert|]. done.
    + exists s, [], F, S. split; [by destruct (g_pc g)|]. split; [done|]. split; [|constructor]. destruct Hinv. split; try done;
        (eapply family_mono; [|done]; lia).
  - destruct (call_step_simulated _ _ _ _ _ _ _ Hcap HG Hinv Ht) as (m' & g' & r & F' & S' & E & Hi & Hs).
    { exact Hcalm. }
    rewrite E. simpl. eexists _, _, F', S'. split; [done|]. split; [apply length_insert|]. done.
Qed.

Lemma sys_run_simulated cap G s F S chs :
  cap <= 2 ^ 32 → G + Z.of_nat (length chs) < 2 ^ 32 → inv cap G s F S →
  Forall (λ ch, chooser ch < length (s_gs s))%nat chs → calm_run chs s = true →
  ∃ s' ev F' S', sys_run chs s = Some (s', ev) ∧ inv cap (G + Z.of_nat (length chs)) s' F' S' ∧
    spec_steps (abs_of (s_nodes s) S (s_gs s)) ev (abs_of (s_nodes s') S' (s_gs s')).
Proof.
  revert G s F S. induction chs as [|ch chs IH]; intros G s F S Hcap HG Hinv Hch Hcalm; simpl in *.
  - exists s, [], F, S. rewrite Z.add_0_r. split_and!; [done|done|constructor].
  - apply andb_true_iff in Hcalm as [Hc1 Hc2]. apply Forall_cons in Hch as [Hch1 Hch2].
    destruct (sys_step_simulated cap G s F S ch) as (s1 & e1 & F1 & S1 & E1 & Hl1 & Hi1 & Hs1); try done; [lia|].
    rewrite E1 in Hc2. rewrite E1. simpl. rewrite <- Hl1 in Hch2.
    destruct (IH (G + 1) s1 F1 S1) as (s2 & e2 & F2 & S2 & E2 & Hi2 & Hs2); try done; [lia|]. rewrite E2. simpl.
    eexists _, _, F2, S2. split; [done|]. split; [|by eapply spec_app].
    eapply (eq_rect _ (λ x, inv cap x s2 F2 S2)); [exact Hi2|simpl; lia].
Qed.

(** ** A fresh pool *)

Lemma chain_null lk (n : nat) : Forall2 (chain lk) (replicate n NullOffset64) (replicate n []).
Proof. induction n; simpl; constructor; done. Qed.

Lemma occ_nils i n : occ i (concat (replicate n [])) = 0%nat.
Proof. induction n; simpl; done. Qed.

Lemma family_empty cap lk n G vs : 0 <= G → Forall (λ v, v = LNone) vs →
  family cap lk (replicate n NullOffset64) (replicate n []) G vs.
Proof.
  intros HG Hvs. split; [apply chain_null| |].
  - apply Forall_replicate. split; [done|]. change (elimGen NullOffset64) with 0. done.
  - intros u v Hu. rewrite Forall_lookup in Hvs. by rewrite (Hvs _ _ Hu).
Qed.

(** Seeding gives each index to the list of its home shard. *)
Lemma seed_all_spec cap j p F G :
  cap <= 2 ^ 32 → Z.of_nat (length (nodes p)) = cap → length (freeShards p) = elimPoolShardCount → Z.of_nat j < cap →
  G + Z.of_nat j < 2 ^ 32 → family cap (field freeNext (nodes p)) (freeShards p) F G [LNone] →
  (∀ i, occ i (concat F) = if decide (Z.of_nat j < i < cap) then 1%nat else 0%nat) →
  ∃ p' F', seed_all j p = Some p' ∧ Z.of_nat (length (nodes p')) = cap ∧ length (freeShards p') = elimPoolShardCount ∧
    family cap (field freeNext (nodes p')) (freeShards p') F' (G + Z.of_nat j) [LNone] ∧
    ∀ i, occ i (concat F') = if decide (0 < i < cap) then 1%nat else 0%nat.
Proof.
  intros Hcap. revert p F G. induction j as [|j IH]; intros p F G Hl Hs Hj HG Hfam Hocc.
  { exists p, F. rewrite Z.add_0_r. split_and!; done. }
  simpl. unfold seed_index. set (home := (Datatypes.S j mod elimPoolShardCount)%nat).
  destruct (lookup_lt_is_Some_2 (freeShards p) home) as [head Hhead].
  { rewrite Hs. apply Nat.mod_upper_bound. discriminate. }
  rewrite Hhead. simpl. set (i := Z.of_nat (Datatypes.S j)).
  destruct (store_freeNext_spec i head (nodes p)) as (ns & -> & Hns & Hfn & _); [lia|]. simpl.
  assert (i ∉ concat F) as Hi by (rewrite occ_elem, Hocc, decide_False; lia).
  assert (0 <= head) as H0 by by eapply head_gen.
  assert (family cap (field freeNext ns) (freeShards p) F G (<[0%nat := LPush home i head]> [LNone])) as Hfam1.
  { eapply family_link; [intros k Hk; by rewrite Hfn, decide_False|exact Hi|by intros [|u]| |exact Hfam].
    simpl. rewrite Hfn, decide_True by done. split_and!; try lia. by eapply lookup_lt_Some. }
  destruct (family_push cap Hcap _ _ _ _ _ 0 home i head Hfam1) as (c & Hc & Hfam2); [lia|done|done|].
  destruct (IH (with_shards (<[home := elimPackIndex (elimGen head + 1) i]> (freeShards p)) (with_nodes ns p)) (<[home := i :: c]> F) (G + 1))
    as (p' & F' & E & H1 & H2 & H3 & H4); simpl; try done; try lia.
  - by rewrite length_insert.
  - intros k. pose proof (occ_update k _ _ _ (i :: c) Hc) as Ho. simpl in Ho. rewrite Hocc in Ho.
    destruct (decide (i = k)), (decide (Z.of_nat (Datatypes.S j) < k < cap)), (decide (Z.of_nat j < k < cap)); lia.
  - exists p', F'. split_and!; try done. eapply (eq_rect _ (λ x, family _ _ _ _ x _)); [exact H3|lia].
Qed.

Lemma pool_ready cap : (1 <= cap)%nat → Z.of_nat cap <= 2 ^ 32 →
  ∃ p F, NewElimNodePool cap = Some p ∧ Z.of_nat (length (nodes p)) = Z.of_nat cap ∧ length (freeShards p) = elimPoolShardCount ∧
    family (Z.of_nat cap) (field freeNext (nodes p)) (freeShards p) F (Z.of_nat cap - 1) [LNone] ∧
    ∀ i, occ i (concat F) = if decide (0 < i < Z.of_nat cap) then 1%nat else 0%nat.
Proof.
  intros H1 Hcap. unfold NewElimNodePool. set (linked := imap _ _).
  assert (length linked = cap) as Hl by (unfold linked; rewrite length_imap; apply length_replicate).
  assert (∃ ns, store_freeNext (Z.of_nat cap - 1) (elimPackIndex 0 NullOffset64) linked = Some ns ∧ length ns = cap) as (ns & -> & Hns).
  { unfold store_freeNext, at_node. destruct (lookup_lt_is_Some_2 linked (Z.to_nat (Z.of_nat cap - 1))) as [n ->]; [lia|]. simpl.
    eexists. split; [done|]. by rewrite length_insert. }
  simpl. destruct (seed_all_spec (Z.of_nat cap) (cap - 1) (mkPool ns (elimPackIndex 1 1) 0 (replicate elimPoolShardCount NullOffset64))
    (replicate elimPoolShardCount []) 0) as (p' & F' & E & A & B & C & D); cbn [nodes freeShards]; try done; try lia.
  - apply family_empty; [done|]. by repeat constructor.
  - intros i. rewrite occ_nils, decide_False; [done|lia].
  - exists p', F'. split_and!; try done. eapply (eq_rect _ (λ x, family _ _ _ _ x _)); [exact C|lia].
Qed.

Lemma fresh_inv cap n : (1 <= cap)%nat → Z.of_nat cap <= 2 ^ 32 →
  ∃ p F, NewElimNodePool cap = Some p ∧ inv (Z.of_nat cap) (Z.of_nat cap) (start_sys p n) F (replicate secShardCount []) ∧
    abs_of (nodes p) (replicate secShardCount []) (s_gs (start_sys p n)) = start_spec n.
Proof.
  intros H1 Hcap. destruct (pool_ready cap H1 Hcap) as (p & F & E & Hl & Hs & Hfam & Hocc). exists p, F. split; [done|]. split.
  - split; simpl; try done.
    + destruct Hfam as [A B _]. split; [done| |].
      * eapply Forall_impl; [exact B|]. simpl. lia.
      * intros u v Hu. rewrite list_lookup_fmap in Hu. destruct (replicate n _ !! u) as [g|] eqn:Eg; simplify_eq/=.
        by apply lookup_replicate in Eg as [-> _].
    + apply family_empty; [lia|]. rewrite fmap_replicate. by apply Forall_replicate.
    + intros i. rewrite Hocc, fmap_replicate. change (g_owned (mkG new_cache Idle)) with (@nil Z).
      rewrite (occ_nils i n). simpl. lia.
    + apply Forall_replicate. split; simpl; [done|lia|done].
  - unfold abs_of, start_spec, start_sys. cbn [s_gs]. by rewrite !fmap_replicate.
Qed.

(** C12. Every run of the sharded lock-free stack over a fresh node pool,
    interleaved one atomic operation at a time, of fewer than 2^32 operations
    and nodes together, in which no pop (of a stack or of a free list) installs
    the empty head of a list while another pop of that list is in flight,
    produces the calls and results of atomic pushes and pops on one stack per
    shard. The excluded runs are more than those that go wrong: they include two
    pops racing for a last node. empty_head_aba shows why some must be. *)
Theorem sharded_stack_linearizable (cap n : nat) (chs : list choice) :
  (1 <= cap)%nat → Z.of_nat cap + Z.of_nat (length chs) < 2 ^ 32 → Forall (λ ch, chooser ch < n)%nat chs →
  ∃ p, NewElimNodePool cap = Some p ∧
    (calm_run chs (start_sys p n) = true →
     ∃ s' evs a', sys_run chs (start_sys p n) = Some (s', evs) ∧ spec_steps (start_spec n) evs a' ∧
       ∀ h hd, sm_shards (s_mem s') !! h = Some hd →
         ∃ l, chain (field next (s_nodes s')) hd l ∧ a_stacks a' !! h = Some (map (field value (s_nodes s')) l)).
Proof.
  intros H1 Hb Hch. destruct (fresh_inv cap n H1) as (p & F & E & Hinv & Habs); [lia|]. exists p. split; [done|]. intros Hcalm.
  destruct (sys_run_simulated (Z.of_nat cap) (Z.of_nat cap) _ _ _ chs ltac:(lia) Hb Hinv) as (s' & evs & F' & S' & Er & Hi & Hs); [|done|].
  { simpl. by rewrite length_replicate. }
  exists s', evs, (abs_of (s_nodes s') S' (s_gs s')). split; [done|]. split; [by rewrite <- Habs|].
  intros h hd Hh. destruct (Forall2_lookup_l _ _ _ _ _ (fam_chain _ _ _ _ _ _ (i_stack _ _ _ _ _ Hi)) Hh) as (l & Hl & Hch').
  exists l. split; [done|]. simpl. by rewrite list_lookup_fmap, Hl.
Qed.

(** ** What the specification conserves *)

Definition pushed (evs : list event) : list Z :=
  omap (λ e, match e with EvCall _ (CallPush v _) => Some v | _ => None end) evs.
Definition popped (evs : list event) : list Z :=
  omap (λ e, match e with EvRet _ (RetPop r) => r | _ => None end) evs.

Definition in_call (c : acall) : list Z := match c with APushing v _ | APopped v => [v] | _ => [] end.
Definition spec_values (a : Spec) : list Z := concat (a_stacks a) ++ concat (map in_call (a_calls a)).

Lemma call_values v (T : list acall) t c c' : T !! t = Some c →
  (occ v (concat (map in_call (<[t := c']> T))) + occ v (in_call c) = occ v (concat (map in_call T)) + occ v (in_call c'))%nat.
Proof. intros Ht. rewrite map_update. apply occ_update. by rewrite list_lookup_fmap, Ht. Qed.

Lemma spec_step_conserves a e a' v : spec_step a e a' →
  (occ v (pushed e) + occ v (spec_values a) = occ v (popped e) + occ v (spec_values a'))%nat.
Proof.
  unfold spec_values. intros H. rewrite !occ_app.
  destruct H as [S T t w pid Ht|S T t pid st Ht|S T t w h stk Ht HS|S T t st k Ht Hk HS|S T t st k w stk Ht Hk HS|S T t w Ht|S T t st Ht];
    cbn [a_stacks a_calls] in *; pose proof (call_values v T t _ AIdle Ht) as H0; cbn [in_call occ] in H0.
  - pose proof (call_values v T t _ (APushing w (shard_of pid)) Ht) as H1. simpl in *. lia.
  - pose proof (call_values v T t _ (APopping (shard_of st) 0) Ht) as H1. simpl in *. lia.
  - pose proof (occ_update v S h _ (w :: stk) HS) as H2. simpl in *. lia.
  - pose proof (call_values v T t _ (APopping st (k + 1)) Ht) as H1. simpl in *. lia.
  - pose proof (call_values v T t _ (APopped w) Ht) as H1. pose proof (occ_update v S _ _ stk HS) as H2. simpl in *. lia.
  - simpl in *. lia.
  - simpl in *. lia.
Qed.

Lemma spec_conserves a e a' v : spec_steps a e a' →
  (occ v (pushed e) + occ v (spec_values a) = occ v (popped e) + occ v (spec_values a'))%nat.
Proof.
  induction 1 as [|a e1 a1 e2 a2 H1 _ IH]; [done|]. unfold pushed, popped in *. rewrite !omap_app, !occ_app.
  pose proof (spec_step_conserves _ _ _ v H1) as H. unfold pushed, popped in H. lia.
Qed.

Lemma spec_pops_pushed n e a' v : spec_steps (start_spec n) e a' → (occ v (popped e) <= occ v (pushed e))%nat.
Proof.
  intros H. pose proof (spec_conserves _ _ _ v H) as Hc. unfold spec_values, start_spec in Hc. cbn [a_stacks a_calls] in Hc.
  rewrite !occ_app, fmap_replicate in Hc. change (in_call AIdle) with (@nil Z) in Hc. rewrite !occ_nils in Hc. lia.
Qed.

(** ** A pop that installs the empty head over another *)

Definition solo (t : nat) (c : Call) : list choice := Start t c :: replicate 3000 (Step t).

(** Goroutine 0 stops before its compare-and-swap; 1 and 2 empty the stack, 3 and
    1 fill it again; 0 goes on, and 3 pops twice. *)
Definition aba_run : list choice :=
  solo 1 (CallPush 10 1) ++ solo 1 (CallPush 20 1) ++ [Start 0 (CallPop 0 0); Step 0; Step 0; Step 0] ++
  solo 1 (CallPop 1 1) ++ solo 2 (CallPop 2 2) ++ solo 3 (CallPush 30 1) ++ solo 1 (CallPush 40 1) ++ replicate 10 (Step 0) ++
  solo 3 (CallPop 1 1) ++ solo 3 (CallPop 1 1).

Definition run_from (cap n : nat) (chs : list choice) : option (Sys * list event) :=
  p ← NewElimNodePool cap; sys_run chs (start_sys p n).

(** The empty head carries no generation: after a pop has installed it, a head
    that an earlier pop still holds can come back, with another node below.  In
    this run of four goroutines the value 10, pushed once, is returned twice, the
    value 30 is lost, and no run of the specification has these returns. *)
Theorem empty_head_aba :
  ∃ s evs, run_from 400 4 aba_run = Some (s, evs) ∧ pushed evs = [10; 20; 30; 40] ∧ popped evs = [20; 10; 40; 10] ∧
    Forall (λ h, elimIndex h = NullOffset64) (sm_shards (s_mem s)) ∧ ¬ ∃ a', spec_steps (start_spec 4) evs a'.
Proof.
  assert ((λ r, (pushed r.2, popped r.2, bool_decide (Forall (λ h, elimIndex h = NullOffset64) (sm_shards (s_mem r.1)))))
    <$> run_from 400 4 aba_run = Some ([10; 20; 30; 40], [20; 10; 40; 10], true)) as E by by vm_compute.
  destruct (run_from 400 4 aba_run) as [[s evs]|]; simpl in E; [|done]. injection E as E1 E2 E3. apply bool_decide_eq_true in E3.
  exists s, evs. split_and!; try done. intros [a' H]. pose proof (spec_pops_pushed _ _ _ 10 H) as Hc. rewrite E1, E2 in Hc.
  vm_compute in Hc. lia.
Qed.

(** ** Two refills *)

(** Every free list is empty and every goroutine is looking for a free node. *)
Definition stuck (s : Sys) : Prop :=
  Forall (λ h, elimIndex h = NullOffset64) (freeShards (s_pool s)) ∧ length (freeShards (s_pool s)) = elimPoolShardCount ∧
  Forall (λ g, ∃ v pid n i probe retry, g_pc g = Filling v pid n i (ALoad probe retry)) (s_gs s).

Lemma stuck_step ch s : stuck s → (chooser ch < length (s_gs s))%nat →
  ∃ s', sys_step ch s = Some (s', []) ∧ stuck s' ∧ length (s_gs s') = length (s_gs s).
Proof.
  intros (H1 & H2 & H3) Hch. destruct (lookup_lt_is_Some_2 _ _ Hch) as [g Hg].
  destruct (Forall_lookup_1 _ _ _ _ H3 Hg) as (v & pid & n & i & probe & retry & Hpc).
  destruct ch as [t c|t]; simpl in Hg |- *; rewrite Hg; simpl; unfold call_step; rewrite Hpc; [by exists s|]. simpl.
  destruct (lookup_lt_is_Some_2 (freeShards (s_pool s)) (alloc_shard pid probe)) as [hd Hhd]; [rewrite H2; apply alloc_shard_lt|].
  rewrite Hhd. simpl. rewrite decide_True by exact (Forall_lookup_1 _ _ _ _ H1 Hhd).
  eexists. split; [done|]. split; [|apply length_insert]. split_and!; [done|done|]. simpl. apply Forall_insert; [done|].
  destruct (next_probe_load probe) as [q ->]. by eexists _, _, _, _, _, _.
Qed.

Lemma stuck_run chs s : stuck s → Forall (λ ch, chooser ch < length (s_gs s))%nat chs → ∃ s', sys_run chs s = Some (s', []) ∧ stuck s'.
Proof.
  revert s. induction chs as [|ch chs IH]; intros s Hs Hch; [by exists s|]. apply Forall_cons in Hch as [H1 H2]. simpl.
  destruct (stuck_step ch s Hs H1) as (s1 & -> & Hs1 & Hl). simpl. rewrite <- Hl in H2. destruct (IH s1 Hs1 H2) as (s2 & -> & Hs2). by exists s2.
Qed.

Definition refill_run : list choice :=
  [Start 0 (CallPush 1 0); Start 1 (CallPush 2 32)] ++ concat (replicate 3000 [Step 0; Step 1]).

(** With 64 free nodes two goroutines push one value each: both refills count 64
    free nodes before either takes one, each takes 32, and whatever happens next
    neither call returns. *)
Theorem refills_deadlock :
  ∃ s, run_from 65 2 refill_run = Some (s, [EvCall 0 (CallPush 1 0); EvCall 1 (CallPush 2 32)]) ∧
    ∀ chs, Forall (λ ch, chooser ch < 2)%nat chs → ∃ s', sys_run chs s = Some (s', []).
Proof.
  assert ((λ r, (r.2, freeShards (s_pool r.1), map g_pc (s_gs r.1))) <$> run_from 65 2 refill_run =
    Some ([EvCall 0 (CallPush 1 0); EvCall 1 (CallPush 2 32)], replicate 64 0,
      [Filling 1 0 64 32 (ALoad 7 0); Filling 2 32 64 32 (ALoad 7 0)])) as E by by vm_compute.
  destruct (run_from 65 2 refill_run) as [[s evs]|]; simpl in E; [|done]. injection E as E1 E2 E3. subst evs.
  exists s. split; [done|]. destruct (s_gs s) as [|g0 [|g1 [|g2 gs]]] eqn:Eg; simplify_eq/=. assert (stuck s) as Hst.
  { split_and!; rewrite ?E2, ?Eg; [by repeat constructor|done|]. repeat constructor; by eexists _, _, _, _, _, _. }
  intros chs Hch. destruct (stuck_run chs s Hst) as (s' & -> & _); [by rewrite Eg|by exists s'].
Qed.

(** An interleaved run: a push overtakes a pop in flight, whose swap fails and is
    tried again. *)
Definition sample_run : list choice :=
  solo 0 (CallPush 7 0) ++ solo 0 (CallPush 8 0) ++ [Start 1 (CallPop 0 0); Step 1; Start 0 (CallPush 9 0); Step 0; Step 0] ++
  replicate 10 (Step 0) ++ replicate 10 (Step 1).

Lemma sharded_stack_linearizable_witness :
  ∃ p, NewElimNodePool 200 = Some p ∧ calm_run sample_run (start_sys p 2) = true ∧
    (popped ∘ snd <$> sys_run sample_run (start_sys p 2)) = Some [9] ∧
    ∃ s' evs a', sys_run sample_run (start_sys p 2) = Some (s', evs) ∧ spec_steps (start_spec 2) evs a' ∧
       ∀ h hd, sm_shards (s_mem s') !! h = Some hd →
         ∃ l, chain (field next (s_nodes s')) hd l ∧ a_stacks a' !! h = Some (map (field value (s_nodes s')) l).
Proof.
  destruct (sharded_stack_linearizable 200 2 sample_run) as (p & Ep & H); [lia|by vm_compute|by apply (bool_decide_unpack _); vm_compute|].
  exists p. split; [done|].
  assert (((λ p, (calm_run sample_run (start_sys p 2), popped ∘ snd <$> sys_run sample_run (start_sys p 2))) <$> NewElimNodePool 200) =
    Some (true, Some [9])) as E by by vm_compute.
  apply fmap_Some_1 in E as (p' & Ep' & E). rewrite Ep in Ep'. injection Ep' as <-. apply pair_equal_spec in E as [E1 E2].
  split; [by symmetry|]. split; [by symmetry|]. apply H. by symmetry.
Defined.
