(* ===== verification/Reclaim.v ===== *)
(** Epoch-based reclamation (pkg/sync/reclamation.go): participants enter and
    leave epochs, unlinked objects are retired into the lists of an epoch, and an
    advance of the global epoch frees the lists that are two epochs old.

    One step is one atomic operation.  The objects are numbers; [objs] records
    what the clients have done with each of them, and a participant's [held] the
    objects it has read in its critical section.  Retirements and advances run
    as tasks of their own, whichever goroutine started them. *)
From S2P Require Import Prelude.

Definition InactiveEpoch : Z := u64_max.
Definition HazardSlots : nat := 4.
Definition arenaRetiredFreelistShardCount : nat := 256.
Definition hazardSnapshotLen : nat := 64.

(** Where a participant's owner stands: outside, in Enter (clearing a hazard,
    storing active, loading the global epoch, storing the epoch), in its critical
    section, in Exit, in DetachAndProtect. *)
Inductive phase :=
| POut
| PEnterClear (i : nat) | PEnterActive | PEnterLoad | PEnterStore (g : Z)
| PIn
| PExitClear (i : nat) | PExitEpoch | PExitActive
| PProtect (slot : nat) (x : Z) | PDetachEpoch | PDetachActive.

Record Participant := mkPart {
  active : bool;
  epoch : Z;
  hazards : list (option Z);
  p_phase : phase;
  held : list Z;
}.

Definition new_participant : Participant := mkPart false 0 (replicate HazardSlots None) POut [].

(** Retire and RetireBlock of object [x]: load the epoch, draw a shard, push. *)
Inductive retireTask := RLoad (x : Z) | RRoute (x e : Z) | RPush (x e : Z) (shard : nat) | RDone.

(** AdvanceEpoch, a call that found epoch [cur]: the walk over the participants
    ([k] of them left; whether active; which epoch), the compare-and-swap, the
    swaps of the safe lists ([heads] taken so far), and freeRetiredList on each
    of them: the hazard snapshot ([k] participants left, the next slot) and the
    walk of the list. *)
Inductive advanceTask :=
| VEpoch
| VHead (cur : Z)
| VActive (cur : Z) (k : nat)
| VPe (cur : Z) (k : nat)
| VCas (cur : Z)
| VSwap (cur : Z) (shard : nat) (heads : list (list Z))
| VList (heads : list (list Z))
| VSnap (l : list Z) (rest : list (list Z)) (k slot : nat) (snap : list Z)
| VNode (l : list Z) (rest : list (list Z)) (snap : list Z).

(** Reachable by new readers; unlinked while the global epoch was [u]; freed. *)
Inductive ostate := Linked | Unlinked (u : Z) | Freed.

Record EBR := mkEBR {
  globalEpoch : Z;
  parts : list Participant;
  retired : list (list Z);
  retiredRoute : Z;
  retires : list retireTask;
  advances : list advanceTask;
  objs : gmap Z ostate;
}.

Definition NewEBRManager : EBR :=
  mkEBR 0 [] (replicate (3 * arenaRetiredFreelistShardCount) []) 0 [] [] ∅.

Definition with_parts ps s := mkEBR (globalEpoch s) ps (retired s) (retiredRoute s) (retires s) (advances s) (objs s).
Definition with_retires rs s := mkEBR (globalEpoch s) (parts s) (retired s) (retiredRoute s) rs (advances s) (objs s).
Definition with_advances vs s := mkEBR (globalEpoch s) (parts s) (retired s) (retiredRoute s) (retires s) vs (objs s).
Definition with_retired l s := mkEBR (globalEpoch s) (parts s) l (retiredRoute s) (retires s) (advances s) (objs s).
Definition with_objs o s := mkEBR (globalEpoch s) (parts s) (retired s) (retiredRoute s) (retires s) (advances s) o.

(** retired[e % 3][shard] *)
Definition retired_slot (e : Z) (shard : nat) : nat := (Z.to_nat (e `mod` 3) * arenaRetiredFreelistShardCount + shard)%nat.

(** ** Participants *)

(** The next operation of Enter, Exit or DetachAndProtect. *)
Definition part_step (g : Z) (p : Participant) : option Participant :=
  match p_phase p with
  | POut | PIn => None
  | PEnterClear i =>
      Some (mkPart (active p) (epoch p) (<[i := None]> (hazards p)) (if decide (S i < HazardSlots)%nat then PEnterClear (S i) else PEnterActive) (held p))
  | PEnterActive => Some (mkPart true (epoch p) (hazards p) PEnterLoad (held p))
  | PEnterLoad => Some (mkPart (active p) (epoch p) (hazards p) (PEnterStore g) (held p))
  | PEnterStore e => Some (mkPart (active p) e (hazards p) PIn (held p))
  | PExitClear i =>
      Some (mkPart (active p) (epoch p) (<[i := None]> (hazards p)) (if decide (S i < HazardSlots)%nat then PExitClear (S i) else PExitEpoch) (held p))
  | PExitEpoch => Some (mkPart (active p) InactiveEpoch (hazards p) PExitActive (held p))
  | PExitActive => Some (mkPart false (epoch p) (hazards p) POut (held p))
  | PProtect slot x => Some (mkPart (active p) (epoch p) (<[slot := Some x]> (hazards p)) PDetachEpoch (held p))
  | PDetachEpoch => Some (mkPart (active p) InactiveEpoch (hazards p) PDetachActive [])
  | PDetachActive => Some (mkPart false (epoch p) (hazards p) POut (held p))
  end.

(** What the owner of a participant may call. *)
Inductive partCall := Enter | Exit | Read (x : Z) | DetachAndProtect (slot : nat) (x : Z) | ClearHazard (slot : nat).

Definition part_call (o : gmap Z ostate) (c : partCall) (p : Participant) : option Participant :=
  match c, p_phase p with
  | Enter, POut => Some (mkPart (active p) (epoch p) (hazards p) (PEnterClear 0) [])
  | Exit, (POut | PIn) => Some (mkPart (active p) (epoch p) (hazards p) (PExitClear 0) [])
  | Read x, PIn =>
      match o !! x with
      | Some Linked => Some (mkPart (active p) (epoch p) (hazards p) PIn (x :: held p))
      | _ => None
      end
  | DetachAndProtect slot x, PIn =>
      if decide (x ∈ held p ∧ (slot < HazardSlots)%nat) then Some (mkPart (active p) (epoch p) (hazards p) (PProtect slot x) (held p)) else None
  | ClearHazard slot, POut =>
      if decide (slot < HazardSlots)%nat then Some (mkPart (active p) (epoch p) (<[slot := None]> (hazards p)) POut (held p)) else None
  | _, _ => None
  end.

(** ** Tasks *)

(** routeRetiredShard *)
Definition route_shard (route : Z) : nat := Z.to_nat (Z.land route (Z.of_nat arenaRetiredFreelistShardCount - 1)).

Definition retire_step (r : retireTask) (s : EBR) : option (retireTask * EBR) :=
  match r with
  | RLoad x => Some (RRoute x (globalEpoch s), s)
  | RRoute x e =>
      Some (RPush x e (route_shard (retiredRoute s)),
            mkEBR (globalEpoch s) (parts s) (retired s) (u64 (retiredRoute s + 1)) (retires s) (advances s) (objs s))
  | RPush x e shard => Some (RDone, with_retired (alter (cons x) (retired_slot e shard) (retired s)) s)
  | RDone => None
  end.

(** The hazard snapshot keeps the first 64. *)
Definition snap_add (h : option Z) (snap : list Z) : list Z :=
  match h with
  | Some x => if decide (length snap < hazardSnapshotLen)%nat then snap ++ [x] else snap
  | None => snap
  end.

(** freeRetiredList: the hazard snapshot of one list, then its nodes; the walk of
    the participants goes from the newest to the oldest. *)
Definition free_list_step (v : advanceTask) (s : EBR) : option (option advanceTask * EBR) :=
  match v with
  | VList [] => Some (None, s)
  | VList (l :: rest) => Some (Some (VSnap l rest (length (parts s)) 0 []), s)
  | VSnap l rest 0 slot snap => Some (Some (VNode l rest snap), s)
  | VSnap l rest (S k) slot snap =>
      p ← parts s !! k;
      h ← hazards p !! slot;
      let snap' := snap_add h snap in
      Some (Some (if decide (S slot < HazardSlots)%nat then VSnap l rest (S k) (S slot) snap' else VSnap l rest k 0 snap'), s)
  | VNode [] rest snap => Some (Some (VList rest), s)
  | VNode (x :: l) rest snap =>
      if decide (x ∈ snap) then Some (Some (VNode l rest snap), with_retires (retires s ++ [RLoad x]) s)
      else Some (Some (VNode l rest snap), with_objs (<[x := Freed]> (objs s)) s)
  | _ => None
  end.

(** AdvanceEpoch: the check of the participants in the same order, the epoch, the
    swap of the retired lists, and freeRetiredList on each. *)
Definition advance_step (v : advanceTask) (s : EBR) : option (option advanceTask * EBR) :=
  match v with
  | VEpoch => Some (Some (VHead (globalEpoch s)), s)
  | VHead cur => Some (Some (VActive cur (length (parts s))), s)
  | VActive cur 0 => Some (Some (VCas cur), s)
  | VActive cur (S k) =>
      p ← parts s !! k;
      Some (Some (if active p then VPe cur (S k) else VActive cur k), s)
  | VPe cur 0 => None
  | VPe cur (S k) =>
      p ← parts s !! k;
      Some (if decide (epoch p < cur) then None else Some (VActive cur k), s)
  | VCas cur =>
      if decide (globalEpoch s = cur) then
        Some (Some (VSwap cur 0 []), mkEBR (u64 (cur + 1)) (parts s) (retired s) (retiredRoute s) (retires s) (advances s) (objs s))
      else Some (None, s)
  | VSwap cur shard heads =>
      l ← retired s !! retired_slot (cur + 2) shard;
      let heads' := heads ++ [l] in
      Some (Some (if decide (S shard < arenaRetiredFreelistShardCount)%nat then VSwap cur (S shard) heads' else VList heads'),
            with_retired (<[retired_slot (cur + 2) shard := []]> (retired s)) s)
  | VList _ | VSnap _ _ _ _ _ | VNode _ _ _ => free_list_step v s
  end.

(** ** The system *)

Inductive move :=
| Register
| PCall (k : nat) (c : partCall)
| PStep (k : nat)
| Publish (x : Z)
| Unlink (x : Z)
| RStep (i : nat)
| StartAdvance
| VStep (i : nat).

Definition ebr_step (mv : move) (s : EBR) : option EBR :=
  match mv with
  | Register => Some (with_parts (parts s ++ [new_participant]) s)
  | PCall k c => p ← parts s !! k; p' ← part_call (objs s) c p; Some (with_parts (<[k := p']> (parts s)) s)
  | PStep k => p ← parts s !! k; p' ← part_step (globalEpoch s) p; Some (with_parts (<[k := p']> (parts s)) s)
  | Publish x => match objs s !! x with None => Some (with_objs (<[x := Linked]> (objs s)) s) | Some _ => None end
  | Unlink x =>
      match objs s !! x with
      | Some Linked => Some (with_retires (retires s ++ [RLoad x]) (with_objs (<[x := Unlinked (globalEpoch s)]> (objs s)) s))
      | _ => None
      end
  | RStep i => r ← retires s !! i; '(r', s') ← retire_step r s; Some (with_retires (<[i := r']> (retires s)) s')
  | StartAdvance => Some (with_advances (advances s ++ [VEpoch]) s)
  | VStep i =>
      v ← advances s !! i;
      '(v', s') ← advance_step v s;
      Some (with_advances (match (v' : option advanceTask) with Some v' => <[i := v']> (advances s) | None => <[i := VList []]> (advances s) end) s')
  end.

Fixpoint ebr_run (mvs : list move) (s : EBR) : option EBR :=
  match mvs with [] => Some s | mv :: mvs' => s' ← ebr_step mv s; ebr_run mvs' s' end.

(** No advance succeeds while another is still swapping out its lists. *)
Definition swapping (v : advanceTask) : bool := match v with VSwap _ _ _ => true | _ => false end.

Definition prompt_step (mv : move) (s : EBR) : bool :=
  match mv with
  | VStep i => match advances s !! i with Some (VCas cur) => negb (bool_decide (globalEpoch s = cur) && existsb swapping (advances s)) | _ => true end
  | _ => true
  end.

Fixpoint prompt_run (mvs : list move) (s : EBR) : bool :=
  match mvs with
  | [] => true
  | mv :: mvs' => prompt_step mv s && match ebr_step mv s with Some s' => prompt_run mvs' s' | None => true end
  end.

(** ** A sweep that comes late *)

Fixpoint repeat_move (n : nat) (mv : move) : list move := match n with O => [] | S n' => mv :: repeat_move n' mv end.

(** An advance from 0 to 1 stops before its first swap; a second one goes from 1
    to 2; a reader enters and reads object 7, which is then unlinked and retired;
    the first advance goes on. *)
Definition late_sweep : list move :=
  [Publish 7; Register; StartAdvance] ++ repeat_move 5 (VStep 0) ++
  [StartAdvance] ++ repeat_move 5 (VStep 1) ++ repeat_move 256 (VStep 1) ++
  [PCall 0 Enter] ++ repeat_move 7 (PStep 0) ++ [PCall 0 (Read 7); Unlink 7] ++ repeat_move 3 (RStep 0) ++
  repeat_move 256 (VStep 0) ++ repeat_move 7 (VStep 0).

(** The reader holds object 7 and object 7 is freed: the lists of epoch 2 are those
    of epoch -1, which the first advance swaps out although the global epoch is 2
    by then. *)
Theorem late_sweep_frees_held :
  ∃ s p, ebr_run late_sweep NewEBRManager = Some s ∧ parts s !! 0%nat = Some p ∧ p_phase p = PIn ∧ held p = [7] ∧
    active p = true ∧ epoch p = globalEpoch s ∧ objs s !! 7 = Some Freed.
Proof.
  assert ((λ s, (parts s, globalEpoch s, objs s !! 7)) <$> ebr_run late_sweep NewEBRManager =
    Some ([mkPart true 2 [None; None; None; None] PIn [7]], 2, Some Freed)) as E by by vm_compute.
  apply fmap_Some_1 in E as (s & -> & E). apply pair_equal_spec in E as [[E1 E2]%pair_equal_spec E3].
  exists s, (mkPart true 2 [None; None; None; None] PIn [7]). rewrite <- E1, <- E2. split_and!; done.
Qed.

(** ** A snapshot that is full *)

(** Sixty-five participants each read an object and detach with a hazard pointer
    on it; the first one's object is unlinked and retired, and two advances
    follow, the second one up to the first retired list. *)
Definition detach_all (n : nat) : list move :=
  concat (map (λ k, [Publish (Z.of_nat k); Register; PCall k Enter] ++ repeat_move 7 (PStep k) ++
    [PCall k (Read (Z.of_nat k)); PCall k (DetachAndProtect 0 (Z.of_nat k))] ++ repeat_move 3 (PStep k)) (seq 0 n)).

Definition full_snapshot : list move :=
  detach_all 65 ++ [Unlink 0] ++ repeat_move 3 (RStep 0) ++
  concat (map (λ i, [StartAdvance] ++ repeat_move (2 + 65 + 2) (VStep i) ++ repeat_move 256 (VStep i)) [0; 1]%nat) ++
  repeat_move (1 + 65 * 4 + 2) (VStep 1).

(** The run is prompt, the first participant's hazard pointer is on object 0, and
    object 0 is freed: the snapshot holds the 64 hazard pointers of the newer
    participants. *)
Theorem full_snapshot_frees_protected :
  ∃ s p, ebr_run full_snapshot NewEBRManager = Some s ∧ prompt_run full_snapshot NewEBRManager = true ∧
    parts s !! 0%nat = Some p ∧ hazards p !! 0%nat = Some (Some 0) ∧ objs s !! 0 = Some Freed.
Proof.
  assert ((λ s, (parts s !! 0%nat, objs s !! 0)) <$> ebr_run full_snapshot NewEBRManager =
    Some (Some (mkPart false InactiveEpoch [Some 0; None; None; None] POut []), Some Freed)) as E by by vm_compute.
  apply fmap_Some_1 in E as (s & Er & E). apply pair_equal_spec in E as [E1 E2].
  eexists s, _. split; [exact Er|]. split; [by vm_compute|]. split; [exact (eq_sym E1)|]. by split.
Qed.

(** ** The invariant *)

Definition in_section (ph : phase) : bool := match ph with PIn | PProtect _ _ | PDetachEpoch => true | _ => false end.

Record part_ok (g : Z) (p : Participant) : Prop := {
  po_slots : length (hazards p) = HazardSlots;
  po_held : held p ≠ [] → in_section (p_phase p) = true;
  po_inside : in_section (p_phase p) = true → active p = true ∧ epoch p <= g;
  po_phase : match p_phase p with
             | PEnterLoad => active p = true
             | PEnterStore e => active p = true ∧ e <= g
             | PProtect slot x => x ∈ held p ∧ (slot < HazardSlots)%nat
             | _ => True
             end;
}.

Definition live (o : gmap Z ostate) (x : Z) : Prop := ∃ st, o !! x = Some st ∧ st ≠ Freed.

(** The objects a task still has to deal with. *)
Definition retire_objs (r : retireTask) : list Z := match r with RLoad x | RRoute x _ | RPush x _ _ => [x] | RDone => [] end.
Definition advance_objs (v : advanceTask) : list Z :=
  match v with
  | VSwap _ _ heads | VList heads => concat heads
  | VSnap l rest _ _ _ | VNode l rest _ => l ++ concat rest
  | _ => []
  end.

Definition tokens (s : EBR) : list Z :=
  concat (map retire_objs (retires s)) ++ concat (retired s) ++ concat (map advance_objs (advances s)).

Definition is_unlinked (o : gmap Z ostate) (x : Z) : bool := match o !! x with Some (Unlinked _) => true | _ => false end.

(** No participant from number [k] on holds an object unlinked before epoch [cur]. *)
Definition passed (s : EBR) (cur : Z) (k : nat) : Prop :=
  ∀ j p x u, (k <= j)%nat → parts s !! j = Some p → x ∈ held p → objs s !! x = Some (Unlinked u) → cur <= u.

Definition unheld (s : EBR) (x : Z) : Prop := ∀ j p, parts s !! j = Some p → x ∉ held p.

(** The hazards on [l] that a snapshot with [k] participants left and [slot] slots
    of the next one read has seen. *)
Definition scanned (s : EBR) (l : list Z) (k slot : nat) (snap : list Z) : Prop :=
  ∀ j p i x, parts s !! j = Some p → hazards p !! i = Some (Some x) → x ∈ l → (k <= j ∨ S j = k ∧ i < slot)%nat → x ∈ snap.

Definition retire_ok (s : EBR) (r : retireTask) : Prop :=
  match r with
  | RRoute x e => e <= globalEpoch s ∧ ∀ u, objs s !! x = Some (Unlinked u) → u <= e
  | RPush x e shard => (e <= globalEpoch s ∧ ∀ u, objs s !! x = Some (Unlinked u) → u <= e) ∧ (shard < arenaRetiredFreelistShardCount)%nat
  | _ => True
  end.

Definition advance_ok (s : EBR) (v : advanceTask) : Prop :=
  (∀ x, x ∈ advance_objs v → unheld s x) ∧
  match v with
  | VEpoch | VList _ => True
  | VHead cur => 0 <= cur <= globalEpoch s
  | VActive cur k | VPe cur k => 0 <= cur <= globalEpoch s ∧ passed s cur k ∧ (k <= length (parts s))%nat
  | VCas cur => 0 <= cur <= globalEpoch s ∧ passed s cur 0
  | VSwap cur shard _ => globalEpoch s = cur + 1 ∧ 0 <= cur ∧ (shard < arenaRetiredFreelistShardCount)%nat
  | VSnap l _ k slot snap =>
      scanned s l k slot snap ∧ (k <= length (parts s) ∧ slot < HazardSlots ∧ length snap <= HazardSlots * (length (parts s) - k) + slot)%nat
  | VNode l _ snap => scanned s l 0 0 snap
  end.

Record ebr_inv (B : Z) (s : EBR) : Prop := {
  e_global : 0 <= globalEpoch s <= B;
  e_parts : ∀ k p, parts s !! k = Some p → part_ok (globalEpoch s) p;
  e_held : ∀ k p x, parts s !! k = Some p → x ∈ held p →
    objs s !! x = Some Linked ∨ ∃ u, objs s !! x = Some (Unlinked u) ∧ epoch p <= u ∧ globalEpoch s - 1 <= u;
  e_hazards : ∀ k p i x, parts s !! k = Some p → hazards p !! i = Some (Some x) → live (objs s) x;
  e_tokens : ∀ x, occ x (tokens s) = if is_unlinked (objs s) x then 1%nat else 0%nat;
  e_unlinked : ∀ x u, objs s !! x = Some (Unlinked u) → u <= globalEpoch s;
  e_retires : ∀ i r, retires s !! i = Some r → retire_ok s r;
  e_lists : length (retired s) = (3 * arenaRetiredFreelistShardCount)%nat;
  e_labels : ∀ j l x, retired s !! j = Some l → x ∈ l → ∃ L, (j / arenaRetiredFreelistShardCount)%nat = Z.to_nat (L `mod` 3) ∧
    L <= globalEpoch s ∧ ∀ u, objs s !! x = Some (Unlinked u) → u <= L;
  e_advances : ∀ i v, advances s !! i = Some v → advance_ok s v;
}.

Lemma is_unlinked_spec o x : is_unlinked o x = true ↔ ∃ u, o !! x = Some (Unlinked u).
Proof. unfold is_unlinked. destruct (o !! x) as [[]|]; naive_solver. Qed.

Lemma token_unlinked B s x : ebr_inv B s → x ∈ tokens s → ∃ u, objs s !! x = Some (Unlinked u).
Proof.
  intros H Hx%occ_elem. apply is_unlinked_spec. pose proof (e_tokens _ _ H x) as Ht. destruct (is_unlinked (objs s) x); [done|lia].
Qed.

Lemma task_tokens s i v x : advances s !! i = Some v → x ∈ advance_objs v → x ∈ tokens s.
Proof.
  intros Hi Hx. unfold tokens. rewrite !elem_of_app. right; right. apply elem_of_concat. exists (advance_objs v). split; [done|].
  apply list_elem_of_fmap. exists v. split; [done|]. by eapply list_elem_of_lookup_2.
Qed.

(** ** What a step of one part leaves of the tasks of the others *)

Record quiet (s s' : EBR) : Prop := {
  q_global : globalEpoch s <= globalEpoch s';
  q_length : (length (parts s) <= length (parts s'))%nat;
  q_held : ∀ j p' x, parts s' !! j = Some p' → x ∈ held p' →
    (∃ p, parts s !! j = Some p ∧ x ∈ held p) ∨ objs s !! x = Some Linked;
  q_objs : ∀ x u, objs s' !! x = Some (Unlinked u) → objs s !! x = Some (Unlinked u) ∨ globalEpoch s <= u;
  q_hazards : ∀ j p' i x, parts s' !! j = Some p' → hazards p' !! i = Some (Some x) →
    (∃ p, parts s !! j = Some p ∧ hazards p !! i = Some (Some x)) ∨ ∃ j p, parts s !! j = Some p ∧ x ∈ held p;
}.

Lemma quiet_advance B s s' v :
  ebr_inv B s → quiet s s' → (∀ x, x ∈ advance_objs v → x ∈ tokens s) →
  globalEpoch s' = globalEpoch s ∨ swapping v = false → advance_ok s v → advance_ok s' v.
Proof.
  intros Hinv Hq Htok Hg [Hun Hv].
  assert (∀ x, x ∈ advance_objs v → unheld s' x) as Hun'.
  { intros x Hx j p' Hj Hh. destruct (q_held _ _ Hq j p' x Hj Hh) as [(p & Hp & Hx')|Hl]; [by apply (Hun x Hx j p)|].
    destruct (token_unlinked B s x Hinv (Htok x Hx)) as [u Hu]. congruence. }
  assert (∀ cur k, cur <= globalEpoch s → passed s cur k → passed s' cur k) as Hpass.
  { intros cur k Hc Hp j p' x u Hk Hj Hh Hx. destruct (q_objs _ _ Hq x u Hx) as [Hx'|]; [|lia].
    destruct (q_held _ _ Hq j p' x Hj Hh) as [(p & Hp' & Hx'')|Hl]; [by eapply Hp|congruence]. }
  assert (∀ l k slot snap, (∀ x, x ∈ l → x ∈ advance_objs v) → scanned s l k slot snap → scanned s' l k slot snap) as Hscan.
  { intros l k slot snap Hl Hsc j p' i x Hj Hh Hx Hk. destruct (q_hazards _ _ Hq j p' i x Hj Hh) as [(p & Hp & Hh')|(j' & p & Hp & Hx')].
    - by eapply Hsc.
    - exfalso. by apply (Hun x (Hl x Hx) j' p). }
  pose proof (q_global _ _ Hq). pose proof (q_length _ _ Hq). split; [done|]. destruct v; simpl in *; try done.
  - lia.
  - destruct Hv as (Hc & Hp & Hk). split_and!; try lia. apply Hpass; [lia|done].
  - destruct Hv as (Hc & Hp & Hk). split_and!; try lia. apply Hpass; [lia|done].
  - destruct Hv as (Hc & Hp). split_and!; try lia. apply Hpass; [lia|done].
  - destruct Hg as [Hg|Hg]; [|done]. destruct Hv as (H1 & H2 & H3). split_and!; try done. lia.
  - destruct Hv as (Hs & Hk & Hsl & Hl). split_and!; try done; [|lia|].
    + apply Hscan; [|done]. intros x Hx. apply elem_of_app. by left.
    + unfold HazardSlots in *. lia.
  - apply Hscan; [|done]. intros x Hx. apply elem_of_app. by left.
Qed.

Lemma part_ok_mono g g' p : g <= g' → part_ok g p → part_ok g' p.
Proof.
  intros Hg [H1 H2 H3 H4]. split; [done|done| |].
  - intros Hi. destruct (H3 Hi). split; [done|lia].
  - destruct (p_phase p); try done. destruct H4. split; [done|lia].
Qed.

(** The invariant after a step, from what the step touches. *)
Lemma inv_by B B' s s' :
  ebr_inv B s → quiet s s' → globalEpoch s' <= B' →
  (∀ k p', parts s' !! k = Some p' → part_ok (globalEpoch s') p') →
  (∀ k p x, parts s' !! k = Some p → x ∈ held p →
    objs s' !! x = Some Linked ∨ ∃ u, objs s' !! x = Some (Unlinked u) ∧ epoch p <= u ∧ globalEpoch s' - 1 <= u) →
  (∀ k p i x, parts s' !! k = Some p → hazards p !! i = Some (Some x) → live (objs s') x) →
  (∀ x, occ x (tokens s') = if is_unlinked (objs s') x then 1%nat else 0%nat) →
  (∀ x u, objs s' !! x = Some (Unlinked u) → u <= globalEpoch s') →
  (∀ i r, retires s' !! i = Some r → (retires s !! i = Some r ∧ ∀ x, x ∈ retire_objs r → objs s' !! x = objs s !! x) ∨ retire_ok s' r) →
  length (retired s') = length (retired s) →
  (∀ j l x, retired s' !! j = Some l → x ∈ l → (∃ l0, retired s !! j = Some l0 ∧ x ∈ l0 ∧ objs s' !! x = objs s !! x) ∨
    ∃ L, (j / arenaRetiredFreelistShardCount)%nat = Z.to_nat (L `mod` 3) ∧ L <= globalEpoch s' ∧ ∀ u, objs s' !! x = Some (Unlinked u) → u <= L) →
  (∀ i v, advances s' !! i = Some v → (advances s !! i = Some v ∧ (globalEpoch s' = globalEpoch s ∨ swapping v = false)) ∨ advance_ok s' v) →
  ebr_inv B' s'.
Proof.
  intros Hinv Hq HB Hparts Hheld Hhaz Htok Hunl Hret Hlen Hlab Hadv. pose proof (q_global _ _ Hq) as Hg.
  pose proof (e_global _ _ Hinv) as Hge. split; try done.
  - lia.
  - intros i r Hi. destruct (Hret i r Hi) as [[Hr Hx]|]; [|done]. pose proof (e_retires _ _ Hinv i r Hr) as Hok.
    destruct r; simpl in *; try done; (rewrite Hx by by left).
    + destruct Hok. split; [lia|done].
    + destruct Hok as [[] ?]. split_and!; [lia|done|done].
  - rewrite Hlen. apply Hinv.
  - intros j l x Hj Hx. destruct (Hlab j l x Hj Hx) as [(l0 & Hl0 & Hx0 & Ho)|]; [|done].
    destruct (e_labels _ _ Hinv j l0 x Hl0 Hx0) as (L & HL & HLg & Hu). exists L. rewrite Ho. split_and!; [done|lia|done].
  - intros i v Hi. destruct (Hadv i v Hi) as [[Hv Hs]|]; [|done]. eapply quiet_advance; [done|done| |done|by eapply e_advances].
    intros x. by apply task_tokens with i.
Qed.

Lemma quiet_parts s s' : globalEpoch s' = globalEpoch s → objs s' = objs s → parts s' = parts s → quiet s s'.
Proof. intros E1 E2 E3. split; rewrite ?E1, ?E2, ?E3; try done; [left; by eauto|by left|left; by eauto]. Qed.

(** ** Participants *)

Lemma inv_part B s k p p' :
  ebr_inv B s → parts s !! k = Some p → part_ok (globalEpoch s) p' →
  (∀ x, x ∈ held p' → objs s !! x = Some Linked ∨ x ∈ held p ∧ epoch p' = epoch p) →
  (∀ i x, hazards p' !! i = Some (Some x) → hazards p !! i = Some (Some x) ∨ x ∈ held p) →
  ebr_inv (B + 1) (with_parts (<[k := p']> (parts s)) s).
Proof.
  intros Hinv Hk Hok Hheld Hhaz. eapply inv_by; [done| |..]; simpl; try done; try (by intros; left; eauto).
  - split; simpl; [done|by rewrite length_insert|..]; try (by intros; left; eauto).
    + intros j q x [(<- & <- & _)|[_ Hj]]%list_lookup_insert_Some Hx; [|left; by eauto].
      destruct (Hheld x Hx) as [|[]]; [by right|left; by eauto].
    + intros j q i x [(<- & <- & _)|[_ Hj]]%list_lookup_insert_Some Hx; [|left; by eauto].
      destruct (Hhaz i x Hx); [left; by eauto|right; by eauto].
  - pose proof (e_global _ _ Hinv). lia.
  - intros j q [(<- & <- & _)|[_ Hj]]%list_lookup_insert_Some; [done|by eapply e_parts].
  - intros j q x [(<- & <- & _)|[_ Hj]]%list_lookup_insert_Some Hx; [|by eapply e_held].
    destruct (Hheld x Hx) as [|[Hx' E]]; [by left|]. rewrite E. by eapply e_held.
  - intros j q i x [(<- & <- & _)|[_ Hj]]%list_lookup_insert_Some Hx; [|by eapply e_hazards].
    destruct (Hhaz i x Hx) as [|Hx']; [by eapply e_hazards|].
    destruct (e_held _ _ Hinv k p x Hk Hx') as [|(u & Hu & _)]; eexists; by split.
  - apply (e_tokens _ _ Hinv).
  - apply (e_unlinked _ _ Hinv).
Qed.

Lemma insert_hazard (h : list (option Z)) j w i x : <[j := w]> h !! i = Some (Some x) → h !! i = Some (Some x) ∨ w = Some x.
Proof. intros [(-> & -> & _)|[_ H]]%list_lookup_insert_Some; [by right|by left]. Qed.

Lemma inv_part_call B s k p c p' :
  ebr_inv B s → parts s !! k = Some p → part_call (objs s) c p = Some p' → ebr_inv (B + 1) (with_parts (<[k := p']> (parts s)) s).
Proof.
  intros Hinv Hk Hc. pose proof (e_parts _ _ Hinv k p Hk) as [H1 H2 H3 H4]. unfold part_call in Hc.
  destruct c as [| |y|slot y|slot], (p_phase p) eqn:Ep; try discriminate Hc;
    [|..|destruct (objs s !! y) as [[]|] eqn:Ey; try discriminate Hc|case_decide as Hd; [|discriminate Hc]|case_decide as Hd; [|discriminate Hc]];
    injection Hc as <-; (eapply inv_part; [exact Hinv|exact Hk|split; simpl|..]); simpl; try done; try (by intros ? ?%elem_of_nil); try (by left); try (by right).
  all: rewrite ?length_insert; try done; try (by intros; apply H3).
  all: try (intros z; rewrite elem_of_cons; intros [->|]; [by left|by right]).
  all: try (intros i z [?|?]%insert_hazard; [by left|done]).
Qed.

Lemma inv_part_step B s k p p' :
  ebr_inv B s → parts s !! k = Some p → part_step (globalEpoch s) p = Some p' → ebr_inv (B + 1) (with_parts (<[k := p']> (parts s)) s).
Proof.
  intros Hinv Hk Hc. pose proof (e_parts _ _ Hinv k p Hk) as [H1 H2 H3 H4]. unfold part_step in Hc.
  assert (in_section (p_phase p) = false → held p = []) as H5 by (intros E; destruct (held p); [done|rewrite H2 in E by done; done]).
  destruct (p_phase p) eqn:Ep; simplify_eq/=; (eapply inv_part; [exact Hinv|exact Hk|..]); simpl; rewrite ?H5 by done;
    try (by intros ? ?%elem_of_nil); try (by intros; left); try (by intros; right).
  all: try (intros i' y [?|?]%insert_hazard; [by left|simplify_eq; right; by destruct H4]).
  all: split; simpl; rewrite ?length_insert; try done; try (destruct H4; done); try (by case_decide); try (by intros; split).
Qed.

Lemma inv_register B s : ebr_inv B s → ebr_inv (B + 1) (with_parts (parts s ++ [new_participant]) s).
Proof.
  intros Hinv. pose proof (e_global _ _ Hinv).
  assert (∀ j p, (parts s ++ [new_participant]) !! j = Some p → parts s !! j = Some p ∨ p = new_participant) as Hj.
  { intros j p [|[_ Hj]]%lookup_app_Some; [by left|]. apply list_lookup_singleton_Some in Hj as [_ <-]. by right. }
  assert (∀ (i : nat) x, hazards new_participant !! i = Some (Some x) → False) as Hnone.
  { intros i x Hi%lookup_replicate. by destruct Hi. }
  eapply inv_by; [done| |..]; simpl; try done; try (by intros; left; eauto).
  - split; simpl; [done|rewrite length_app; lia|..]; try (by intros; left; eauto).
    + intros j p x [Hp| ->]%Hj Hx; [left; by eauto|by apply elem_of_nil in Hx].
    + intros j p i x [Hp| ->]%Hj Hx; [left; by eauto|by apply Hnone in Hx].
  - lia.
  - intros k p [Hp| ->]%Hj; [by eapply e_parts|]. split; done.
  - intros k p x [Hp| ->]%Hj Hx; [by eapply e_held|by apply elem_of_nil in Hx].
  - intros k p i x [Hp| ->]%Hj Hx; [by eapply e_hazards|by apply Hnone in Hx].
  - apply (e_tokens _ _ Hinv).
  - apply (e_unlinked _ _ Hinv).
Qed.

(** ** Objects *)

Lemma live_insert o x y st : live o x → st ≠ Freed → live (<[y := st]> o) x.
Proof.
  intros (st' & Hx & Hf) Hst. destruct (decide (x = y)) as [->|Hne]; [exists st; by rewrite lookup_insert_eq|].
  exists st'. by rewrite lookup_insert_ne.
Qed.

Lemma is_unlinked_other o x y st : x ≠ y → is_unlinked (<[y := st]> o) x = is_unlinked o x.
Proof. intros Hne. unfold is_unlinked. by rewrite lookup_insert_ne. Qed.

Lemma token_other B s x y : ebr_inv B s → x ∈ tokens s → is_unlinked (objs s) y = false → x ≠ y.
Proof. intros Hinv Hx Hy ->. destruct (token_unlinked _ _ _ Hinv Hx) as [u Hu]. unfold is_unlinked in Hy. by rewrite Hu in Hy. Qed.

Lemma retire_token s i r x : retires s !! i = Some r → x ∈ retire_objs r → x ∈ tokens s.
Proof.
  intros Hi Hx. unfold tokens. rewrite !elem_of_app. left. apply elem_of_concat. exists (retire_objs r). split; [done|].
  apply list_elem_of_fmap. exists r. split; [done|]. by eapply list_elem_of_lookup_2.
Qed.

Lemma list_token s j l x : retired s !! j = Some l → x ∈ l → x ∈ tokens s.
Proof.
  intros Hj Hx. unfold tokens. rewrite !elem_of_app. right; left. apply elem_of_concat. exists l. split; [done|].
  by eapply list_elem_of_lookup_2.
Qed.

Lemma inv_publish B s x : ebr_inv B s → objs s !! x = None → ebr_inv (B + 1) (with_objs (<[x := Linked]> (objs s)) s).
Proof.
  intros Hinv Hx. pose proof (e_global _ _ Hinv). assert (is_unlinked (objs s) x = false) as Hu by (unfold is_unlinked; by rewrite Hx).
  eapply inv_by; [done| |..]; simpl; try done; try apply Hinv.
  - split; simpl; try done; try (by intros; left; eauto).
    intros y u. destruct (decide (y = x)) as [->|Hne]; [by rewrite lookup_insert_eq|]. rewrite lookup_insert_ne by done. by left.
  - lia.
  - intros k p y Hk Hy. destruct (decide (y = x)) as [->|Hne]; [left; by rewrite lookup_insert_eq|].
    rewrite lookup_insert_ne by done. by eapply e_held.
  - intros k p i y Hk Hy. apply live_insert; [by eapply e_hazards|done].
  - intros y. change (occ y (tokens s) = if is_unlinked (<[x := Linked]> (objs s)) y then 1%nat else 0%nat).
    rewrite (e_tokens _ _ Hinv). destruct (decide (y = x)) as [->|Hne]; [|by rewrite is_unlinked_other].
    rewrite Hu. unfold is_unlinked. by rewrite lookup_insert_eq.
  - intros y u. destruct (decide (y = x)) as [->|Hne]; [by rewrite lookup_insert_eq|]. rewrite lookup_insert_ne by done. apply Hinv.
  - intros i r Hr. left. split; [done|]. intros y Hy. apply lookup_insert_ne. apply not_eq_sym. eapply token_other; [done|by eapply retire_token|done].
  - intros j l y Hj Hy. left. exists l. split_and!; [done|done|]. apply lookup_insert_ne, not_eq_sym. eapply token_other; [done|by eapply list_token|done].
  - intros i v Hv. left. split; [done|by left].
Qed.

Lemma inv_unlink B s x : ebr_inv B s → objs s !! x = Some Linked →
  ebr_inv (B + 1) (with_retires (retires s ++ [RLoad x]) (with_objs (<[x := Unlinked (globalEpoch s)]> (objs s)) s)).
Proof.
  intros Hinv Hx. pose proof (e_global _ _ Hinv). assert (is_unlinked (objs s) x = false) as Hu by (unfold is_unlinked; by rewrite Hx).
  eapply inv_by; [done| |..]; simpl; try done; try apply Hinv.
  - split; simpl; try done; try (by intros; left; eauto).
    intros y u. destruct (decide (y = x)) as [->|Hne]; [rewrite lookup_insert_eq; intros [= <-]; by right|].
    rewrite lookup_insert_ne by done. by left.
  - lia.
  - intros k p y Hk Hy. destruct (decide (y = x)) as [->|Hne].
    + right. rewrite lookup_insert_eq. eexists. split; [done|]. split; [|lia]. pose proof (e_parts _ _ Hinv k p Hk) as [_ H2 H3 _].
      apply H3, H2. intros E. rewrite E in Hy. by apply elem_of_nil in Hy.
    + rewrite lookup_insert_ne by done. by eapply e_held.
  - intros k p i y Hk Hy. apply live_insert; [by eapply e_hazards|done].
  - intros y. unfold tokens. cbn [retires retired advances with_retires with_objs]. rewrite map_app, concat_app, !occ_app.
    pose proof (e_tokens _ _ Hinv y) as Ht. unfold tokens in Ht. rewrite !occ_app in Ht. simpl.
    destruct (decide (x = y)) as [->|Hne].
    + rewrite Hu in Ht. unfold is_unlinked. rewrite lookup_insert_eq. lia.
    + rewrite is_unlinked_other by done. lia.
  - intros y u. destruct (decide (y = x)) as [->|Hne]; [rewrite lookup_insert_eq; intros [= <-]; lia|].
    rewrite lookup_insert_ne by done. apply Hinv.
  - intros i r [Hr|[_ Hr]]%lookup_app_Some.
    + left. split; [done|]. intros y Hy. apply lookup_insert_ne, not_eq_sym. eapply token_other; [done|by eapply retire_token|done].
    + apply list_lookup_singleton_Some in Hr as [_ <-]. by right.
  - intros j l y Hj Hy. left. exists l. split_and!; [done|done|]. apply lookup_insert_ne, not_eq_sym. eapply token_other; [done|by eapply list_token|done].
  - intros i v Hv. left. split; [done|by left].
Qed.

(** ** Tasks *)

(** A step of a task that changes no participant, no object and not the epoch. *)
Lemma inv_tasks B s s' :
  ebr_inv B s → globalEpoch s' = globalEpoch s → parts s' = parts s → objs s' = objs s →
  (∀ x, occ x (tokens s') = occ x (tokens s)) →
  (∀ i r, retires s' !! i = Some r → retires s !! i = Some r ∨ retire_ok s' r) →
  length (retired s') = length (retired s) →
  (∀ j l x, retired s' !! j = Some l → x ∈ l → (∃ l0, retired s !! j = Some l0 ∧ x ∈ l0) ∨
    ∃ L, (j / arenaRetiredFreelistShardCount)%nat = Z.to_nat (L `mod` 3) ∧ L <= globalEpoch s ∧ ∀ u, objs s !! x = Some (Unlinked u) → u <= L) →
  (∀ i v, advances s' !! i = Some v → advances s !! i = Some v ∨ advance_ok s' v) →
  ebr_inv (B + 1) s'.
Proof.
  intros Hinv E1 E2 E3 Htok Hret Hlen Hlab Hadv. pose proof (e_global _ _ Hinv).
  eapply inv_by; [done|by apply quiet_parts|..]; rewrite ?E1, ?E2, ?E3; try done; try apply Hinv.
  - lia.
  - intros x. rewrite Htok. apply Hinv.
  - intros i r Hr. destruct (Hret i r Hr); [left; by split|by right].
  - intros j l x Hj Hx. destruct (Hlab j l x Hj Hx) as [(l0 & ? & ?)|]; [left; by exists l0|by right].
  - intros i v Hv. destruct (Hadv i v Hv); [left; split; [done|by left]|by right].
Qed.

Lemma occ_tasks {A} (f : A → list Z) x (l : list A) i a a' : l !! i = Some a →
  (occ x (concat (map f (<[i := a']> l))) + occ x (f a) = occ x (concat (map f l)) + occ x (f a'))%nat.
Proof. intros Hi. rewrite map_update. apply occ_update. by rewrite list_lookup_fmap, Hi. Qed.

Lemma alter_at {A} (f : A → A) (l : list A) i x : l !! i = Some x → alter f i l = <[i := f x]> l.
Proof. revert i. induction l as [|y l IH]; intros [|i] Hi; simplify_eq/=; [done|]. f_equal. by apply IH. Qed.

Lemma route_any route : (route_shard route < arenaRetiredFreelistShardCount)%nat.
Proof.
  unfold route_shard. change (Z.of_nat arenaRetiredFreelistShardCount - 1) with (Z.ones 8). rewrite Z.land_ones by done.
  pose proof (Z.mod_pos_bound route (2 ^ 8) ltac:(done)). unfold arenaRetiredFreelistShardCount. lia.
Qed.

Lemma slot_div e shard : (shard < arenaRetiredFreelistShardCount)%nat →
  (retired_slot e shard / arenaRetiredFreelistShardCount)%nat = Z.to_nat (e `mod` 3).
Proof. intros H. unfold retired_slot. rewrite Nat.div_add_l by done. rewrite (Nat.div_small shard) by done. lia. Qed.

Lemma slot_lt e shard : (shard < arenaRetiredFreelistShardCount)%nat → (retired_slot e shard < 3 * arenaRetiredFreelistShardCount)%nat.
Proof.
  intros H. unfold retired_slot. pose proof (Z.mod_pos_bound e 3 ltac:(done)). unfold arenaRetiredFreelistShardCount in *. lia.
Qed.

Lemma inv_retire B s i r r' s' : ebr_inv B s → retires s !! i = Some r → retire_step r s = Some (r', s') →
  ebr_inv (B + 1) (with_retires (<[i := r']> (retires s)) s').
Proof.
  intros Hinv Hi Hr. pose proof (e_retires _ _ Hinv i r Hi) as Hok.
  assert (∀ x, occ x (concat (map retire_objs (<[i := r']> (retires s)))) + occ x (retire_objs r) =
    occ x (concat (map retire_objs (retires s))) + occ x (retire_objs r'))%nat as Hocc by (intros x; by apply occ_tasks).
  destruct r as [x|x e|x e shard|]; simplify_eq/=.
  - eapply inv_tasks; [done|done|done|done| | |done|intros; left; by eauto|by left].
    + intros y. specialize (Hocc y). unfold tokens. simpl in *. rewrite !occ_app. lia.
    + simpl. intros j r [(<- & <- & _)|[_ Hj]]%list_lookup_insert_Some; [|by left]. right. split; [done|].
      intros u Hu. by eapply e_unlinked.
  - eapply inv_tasks; [done|done|done|done| | |done|intros; left; by eauto|by left].
    + intros y. specialize (Hocc y). unfold tokens. simpl in *. rewrite !occ_app. lia.
    + simpl. intros j r [(<- & <- & _)|[_ Hj]]%list_lookup_insert_Some; [|by left]. right. split; [done|apply route_any].
  - destruct Hok as [[He Hu] Hsh]. pose proof (slot_lt e shard Hsh) as Hlt. rewrite <- (e_lists _ _ Hinv) in Hlt.
    destruct (lookup_lt_is_Some_2 _ _ Hlt) as [l0 Hl0].
    assert (alter (cons x) (retired_slot e shard) (retired s) = <[retired_slot e shard := x :: l0]> (retired s)) as E
      by (by apply alter_at).
    eapply inv_tasks; [done|done|done|done| | | | |by left].
    + intros y. specialize (Hocc y). unfold tokens. simpl in *. rewrite E, !occ_app.
      pose proof (occ_update y _ _ _ (x :: l0) Hl0) as Ho. simpl in Ho. lia.
    + simpl. intros j r [(<- & <- & _)|[_ Hj]]%list_lookup_insert_Some; [by right|by left].
    + simpl. apply length_alter.
    + simpl. rewrite E. intros j l y [(<- & <- & _)|[_ Hj]]%list_lookup_insert_Some Hy; [|left; by eauto].
      apply elem_of_cons in Hy as [->|Hy]; [|left; by eauto]. right. exists e. split_and!; [by apply slot_div|done|done].
Qed.

(** ** Advances *)

Section Advance.
Context (B : Z) (s : EBR) (Hinv : ebr_inv B s) (i : nat) (v : advanceTask) (Hi : advances s !! i = Some v).

Lemma adv_here : advance_ok s v.
Proof. by eapply e_advances. Qed.

Lemma adv_local v' : (∀ x, occ x (advance_objs v') = occ x (advance_objs v)) → advance_ok s v' →
  ebr_inv (B + 1) (with_advances (<[i := v']> (advances s)) s).
Proof.
  intros Ho Hok. eapply inv_tasks; [done|done|done|done| |by left|done|intros; left; by eauto|].
  - intros x. pose proof (occ_tasks advance_objs x _ _ _ v' Hi) as Hx. rewrite Ho in Hx. unfold tokens. simpl. rewrite !occ_app. lia.
  - simpl. intros j w [(<- & <- & _)|[_ Hj]]%list_lookup_insert_Some; [by right|by left].
Qed.

Lemma adv_end : (∀ x, occ x (advance_objs v) = 0%nat) → ebr_inv (B + 1) (with_advances (<[i := VList []]> (advances s)) s).
Proof. intros Ho. apply adv_local; [intros x; by rewrite Ho|]. split; [|done]. by intros x ?%elem_of_nil. Qed.

Lemma nothing_held x : x ∈ advance_objs VEpoch → unheld s x.
Proof. by intros ?%elem_of_nil. Qed.

(** Whatever the lists of two epochs ago hold, no participant does. *)
Lemma swept_unheld cur shard l x :
  globalEpoch s = cur + 1 → (shard < arenaRetiredFreelistShardCount)%nat →
  retired s !! retired_slot (cur + 2) shard = Some l → x ∈ l → unheld s x.
Proof.
  intros Hg Hsh Hl Hx j p Hj Hh. destruct (e_labels _ _ Hinv _ _ _ Hl Hx) as (L & HL & HLg & Hu). rewrite slot_div in HL by done.
  assert ((cur + 2) `mod` 3 = L `mod` 3) as Hm by (pose proof (Z.mod_pos_bound (cur + 2) 3); pose proof (Z.mod_pos_bound L 3); lia).
  assert (L <= cur - 1) as HLc by (pose proof (Z.div_mod (cur + 2) 3); pose proof (Z.div_mod L 3); lia).
  destruct (token_unlinked _ _ x Hinv) as [u Hu']; [by eapply list_token|]. specialize (Hu u Hu').
  destruct (e_held _ _ Hinv j p x Hj Hh) as [|(u' & Hu'' & _ & Hb)]; [congruence|]. assert (u' = u) by congruence. lia.
Qed.

Lemma adv_swap cur shard heads l :
  v = VSwap cur shard heads → retired s !! retired_slot (cur + 2) shard = Some l →
  ebr_inv (B + 1) (with_advances (<[i := if decide (S shard < arenaRetiredFreelistShardCount)%nat then VSwap cur (S shard) (heads ++ [l]) else VList (heads ++ [l])]> (advances s))
    (with_retired (<[retired_slot (cur + 2) shard := []]> (retired s)) s)).
Proof.
  intros Ev0 Hl. pose proof adv_here as Hok. pose proof Hi as Hi'. rewrite Ev0 in Hok, Hi'. destruct Hok as [Hun (Hg & Hc & Hsh)]. set (v' := if decide _ then _ else _).
  assert (advance_objs v' = concat (heads ++ [l])) as Ev by (unfold v'; by case_decide).
  eapply inv_tasks; [done|done|done|done| |by left| | |].
  - intros x. pose proof (occ_tasks advance_objs x _ _ _ v' Hi') as Hx. rewrite Ev, concat_app, occ_app in Hx.
    pose proof (occ_update x _ _ _ [] Hl) as Ho. unfold tokens. simpl in *. rewrite app_nil_r in Hx. rewrite !occ_app. lia.
  - simpl. apply length_insert.
  - simpl. intros j l' x [(<- & <- & _)|[_ Hj]]%list_lookup_insert_Some Hx; [by apply elem_of_nil in Hx|left; by eauto].
  - simpl. intros j w [(<- & <- & _)|[_ Hj]]%list_lookup_insert_Some; [|by left]. right. split.
    + intros x Hx. rewrite Ev, concat_app, elem_of_app in Hx. simpl in Hx. rewrite app_nil_r in Hx. destruct Hx as [Hx|Hx]; [by apply Hun|].
      by eapply swept_unheld.
    + unfold v'. case_decide; done.
Qed.

Lemma adv_cas cur : v = VCas cur → globalEpoch s = cur → cur + 1 < 2 ^ 64 → existsb swapping (advances s) = false →
  ebr_inv (B + 1) (with_advances (<[i := VSwap cur 0 []]> (advances s))
    (mkEBR (u64 (cur + 1)) (parts s) (retired s) (retiredRoute s) (retires s) (advances s) (objs s))).
Proof.
  intros Ev Hg Hb Hsw. pose proof adv_here as Hok. pose proof Hi as Hi'. rewrite Ev in Hok, Hi'. destruct Hok as [_ (Hc & Hp)]. rewrite (u64_id (cur + 1)) by words.
  assert (∀ j w, advances s !! j = Some w → swapping w = false) as Hns.
  { intros j w Hj. destruct (swapping w) eqn:E; [|done]. rewrite <- not_true_iff_false, existsb_exists in Hsw. destruct Hsw.
    exists w. split; [|done]. apply list_elem_of_In. by eapply list_elem_of_lookup_2. }
  pose proof (e_global _ _ Hinv). eapply inv_by; [done| |..]; simpl; try done.
  - split; simpl; try done; try (by intros; left; eauto). lia.
  - lia.
  - intros k p Hk. eapply part_ok_mono; [|by eapply e_parts]. lia.
  - intros k p x Hk Hx. destruct (e_held _ _ Hinv k p x Hk Hx) as [|(u & Hu & He & _)]; [by left|]. right. exists u.
    specialize (Hp k p x u ltac:(lia) Hk Hx Hu). split_and!; [done|done|lia].
  - apply Hinv.
  - intros x. pose proof (occ_tasks advance_objs x _ _ _ (VSwap cur 0 []) Hi') as Hx. simpl in Hx.
    rewrite <- (e_tokens _ _ Hinv). unfold tokens. simpl. rewrite !occ_app. lia.
  - intros x u Hx. pose proof (e_unlinked _ _ Hinv x u Hx). lia.
  - intros j r Hr. left. by split.
  - intros j l x Hj Hx. left. by exists l.
  - intros j w [(<- & <- & _)|[_ Hj]]%list_lookup_insert_Some.
    + right. split; [by intros x ?%elem_of_nil|]. split_and!; [done|lia|unfold arenaRetiredFreelistShardCount; lia].
    + left. split; [done|right; by eapply Hns].
Qed.

(** The object at the head of the list a task walks is nowhere else. *)
Lemma token_once x l rest snap : v = VNode (x :: l) rest snap →
  (occ x (concat (map retire_objs (retires s))) = 0 ∧ occ x (concat (retired s)) = 0 ∧
   occ x (concat (map advance_objs (<[i := VNode l rest snap]> (advances s)))) = 0)%nat ∧ is_unlinked (objs s) x = true.
Proof.
  intros Ev. pose proof Hi as Hi'. rewrite Ev in Hi'. pose proof (e_tokens _ _ Hinv x) as Ht. pose proof (occ_tasks advance_objs x _ _ _ (VNode l rest snap) Hi') as Hx.
  unfold tokens in Ht. rewrite !occ_app in Ht. simpl in Hx. rewrite decide_True in Hx by done. destruct (is_unlinked (objs s) x); lia.
Qed.

Lemma adv_free x l rest snap : v = VNode (x :: l) rest snap → x ∉ snap →
  ebr_inv (B + 1) (with_advances (<[i := VNode l rest snap]> (advances s)) (with_objs (<[x := Freed]> (objs s)) s)).
Proof.
  intros Ev Hsnap. destruct (token_once _ _ _ _ Ev) as [(Hr0 & Hl0 & Ha0) Hul]. pose proof adv_here as Hok. pose proof Hi as Hi'. rewrite Ev in Hok, Hi'. destruct Hok as [Hun Hsc]. simpl in Hsc.
  assert (unheld s x) as Hx by (apply Hun; by left). pose proof (e_global _ _ Hinv).
  assert (∀ y u, <[x := Freed]> (objs s) !! y = Some (Unlinked u) → y ≠ x ∧ objs s !! y = Some (Unlinked u)) as Hobj.
  { intros y u. destruct (decide (y = x)) as [->|Hne]; [by rewrite lookup_insert_eq|]. by rewrite lookup_insert_ne. }
  assert (quiet s (with_advances (<[i := VNode l rest snap]> (advances s)) (with_objs (<[x := Freed]> (objs s)) s))) as Hq.
  { split; simpl; try done; try (by intros; left; eauto). intros y u [_ Hy]%Hobj. by left. }
  eapply inv_by; [exact Hinv|exact Hq|..]; simpl; try done; try apply Hinv.
  - lia.
  - intros k p y Hk Hy. destruct (decide (y = x)) as [->|Hne]; [by destruct (Hx k p Hk)|]. rewrite lookup_insert_ne by done. by eapply e_held.
  - intros k p j y Hk Hy. destruct (e_hazards _ _ Hinv k p j y Hk Hy) as (st & Hst & Hf). exists st. rewrite lookup_insert_ne; [done|].
    intros ->. apply Hsnap. eapply Hsc; [exact Hk|exact Hy|by left|left; lia].
  - intros y. pose proof (occ_tasks advance_objs y _ _ _ (VNode l rest snap) Hi') as Hy. simpl in Hy.
    pose proof (e_tokens _ _ Hinv y) as Ht. unfold tokens in *. simpl. rewrite !occ_app in *. destruct (decide (x = y)) as [->|Hne].
    + unfold is_unlinked. rewrite lookup_insert_eq. lia.
    + rewrite is_unlinked_other by done. lia.
  - intros y u [_ Hy]%Hobj. by eapply e_unlinked.
  - intros j r Hr. left. split; [done|]. intros y Hy. apply lookup_insert_ne. intros ->. enough (0 < occ y (concat (map retire_objs (retires s))))%nat by lia.
    apply occ_elem, elem_of_concat. exists (retire_objs r). split; [done|]. apply list_elem_of_fmap. exists r. split; [done|]. by eapply list_elem_of_lookup_2.
  - intros j l' y Hj Hy. left. exists l'. split_and!; [done|done|]. apply lookup_insert_ne. intros ->.
    enough (0 < occ y (concat (retired s)))%nat by lia. apply occ_elem, elem_of_concat. exists l'. split; [done|]. by eapply list_elem_of_lookup_2.
  - intros j w [(<- & <- & _)|[Hne Hj]]%list_lookup_insert_Some; [|left; split; [done|by left]]. right. split.
    + intros y Hy. apply Hun. by right.
    + intros j p k y Hj Hh Hy Hk. eapply Hsc; [exact Hj|exact Hh|by right|done].
Qed.

Lemma adv_requeue x l rest snap : v = VNode (x :: l) rest snap →
  ebr_inv (B + 1) (with_advances (<[i := VNode l rest snap]> (advances s)) (with_retires (retires s ++ [RLoad x]) s)).
Proof.
  intros Ev. pose proof adv_here as Hok. pose proof Hi as Hi'. rewrite Ev in Hok, Hi'. destruct Hok as [Hun Hsc]. simpl in Hsc. eapply inv_tasks; [done|done|done|done| | |done|intros; left; by eauto|].
  - intros y. pose proof (occ_tasks advance_objs y _ _ _ (VNode l rest snap) Hi') as Hy. unfold tokens. simpl in *.
    rewrite map_app, concat_app, !occ_app. simpl. lia.
  - simpl. intros j r [Hr|[_ Hr]]%lookup_app_Some; [by left|]. apply list_lookup_singleton_Some in Hr as [_ <-]. by right.
  - simpl. intros j w [(<- & <- & _)|[_ Hj]]%list_lookup_insert_Some; [|by left]. right. split.
    + intros y Hy. apply Hun. by right.
    + intros j p k y Hj Hh Hy Hk. eapply Hsc; [exact Hj|exact Hh|by right|done].
Qed.

End Advance.

Lemma snap_add_sub h snap x : x ∈ snap → x ∈ snap_add h snap.
Proof. intros Hx. destruct h; simpl; [case_decide; [apply elem_of_app; by left|done]|done]. Qed.

Lemma snap_add_in x snap : (length snap < hazardSnapshotLen)%nat → x ∈ snap_add (Some x) snap.
Proof. intros Hl. simpl. rewrite decide_True by done. apply elem_of_app. right. by left. Qed.

Lemma snap_add_length h snap : (length (snap_add h snap) <= length snap + 1)%nat.
Proof. destruct h; simpl; [case_decide; rewrite ?length_app; simpl; lia|lia]. Qed.

(** The walk over the participants. *)
Lemma walk_ok B s cur k p :
  ebr_inv B s → parts s !! k = Some p → active p = false ∨ cur <= epoch p → passed s cur (S k) → passed s cur k.
Proof.
  intros Hinv Hk Hp Hpass j q x u Hj Hq Hx Hu. destruct (decide (j = k)) as [->|Hne]; [|eapply (Hpass j); eauto; lia].
  assert (q = p) as -> by congruence. pose proof (e_parts _ _ Hinv k p Hk) as [_ H2 H3 _].
  destruct (H3 (H2 ltac:(intros E; rewrite E in Hx; by apply elem_of_nil in Hx))) as [Ha _].
  destruct (e_held _ _ Hinv k p x Hk Hx) as [|(u' & Hu' & He & _)]; [congruence|]. destruct Hp as [|Hp]; [congruence|].
  assert (u' = u) by congruence. lia.
Qed.

(** One slot of the hazard snapshot. *)
Lemma snap_ok s l k slot snap p h :
  (∀ x, x ∈ l → unheld s x) → parts s !! k = Some p → hazards p !! slot = Some h → (length snap < hazardSnapshotLen)%nat →
  scanned s l (S k) slot snap → scanned s l (S k) (S slot) (snap_add h snap).
Proof.
  intros _ Hp Hh Hlen Hsc j q i x Hj Hx Hl Hk. destruct (decide (j = k ∧ i = slot)) as [[-> ->]|Hne].
  - assert (h = Some x) as -> by congruence. by apply snap_add_in.
  - apply snap_add_sub. eapply Hsc; [exact Hj|exact Hx|done|]. lia.
Qed.

Lemma inv_advance B s i v r :
  ebr_inv B s → B + 1 < 2 ^ 64 → (length (parts s) <= 16)%nat → advances s !! i = Some v → prompt_step (VStep i) s = true →
  advance_step v s = Some r →
  ebr_inv (B + 1) (with_advances (match r.1 with Some v' => <[i := v']> (advances s) | None => <[i := VList []]> (advances s) end) r.2).
Proof.
  intros Hinv HB Hn Hi Hpr Hs. pose proof (e_advances _ _ Hinv i v Hi) as [Hun Hok]. pose proof (e_global _ _ Hinv) as Hg.
  unfold prompt_step in Hpr. rewrite Hi in Hpr.
  destruct v as [|cur|cur [|k]|cur [|k]|cur|cur shard heads|[|l rest]|l rest [|k] slot snap|[|x l] rest snap]; simplify_eq/=.
  - apply (adv_local _ _ Hinv _ _ Hi); [done|]. split; [done|]. simpl. lia.
  - apply (adv_local _ _ Hinv _ _ Hi); [done|]. split; [done|]. simpl. split_and!; [lia|lia| |done].
    intros j p x u Hj Hp. apply lookup_lt_Some in Hp. lia.
  - apply (adv_local _ _ Hinv _ _ Hi); [done|]. split; [done|]. simpl. by destruct Hok as (? & ? & _).
  - destruct Hok as (Hc & Hp & Hk). destruct (parts s !! k) as [p|] eqn:Ep; simplify_eq/=.
    apply (adv_local _ _ Hinv _ _ Hi); [by destruct (active p)|]. destruct (active p) eqn:Ea; (split; [done|]); simpl.
    + done.
    + split_and!; [lia|lia| |lia]. eapply walk_ok; [done|done|by left|done].
  - destruct Hok as (Hc & Hp & Hk). destruct (parts s !! k) as [p|] eqn:Ep; simplify_eq/=. case_decide.
    + by apply (adv_end _ _ Hinv _ _ Hi).
    + apply (adv_local _ _ Hinv _ _ Hi); [done|]. split; [done|]. simpl. split_and!; [lia|lia| |lia].
      eapply walk_ok; [done|done|right; lia|done].
  - case_decide as Hc; simplify_eq.
    + rewrite bool_decide_true in Hpr by done. simpl in Hpr. apply negb_true_iff in Hpr.
      eapply (adv_cas _ _ Hinv _ _ Hi); [done|done|lia|done].
    + by apply (adv_end _ _ Hinv _ _ Hi).
  - destruct (retired s !! retired_slot (cur + 2) shard) as [l|] eqn:El; simplify_eq/=.
    by apply (adv_swap _ _ Hinv _ _ Hi cur shard heads l).
  - by apply (adv_end _ _ Hinv _ _ Hi).
  - apply (adv_local _ _ Hinv _ _ Hi); [done|]. split; [done|]. simpl. split_and!; [|lia|unfold HazardSlots; lia|lia].
    intros j p m x Hj Hh Hx Hk. apply lookup_lt_Some in Hj. lia.
  - apply (adv_local _ _ Hinv _ _ Hi); [done|]. split; [done|]. simpl. intros j p m x Hj Hh Hx _. eapply Hok; [exact Hj|exact Hh|done|left; lia].
  - destruct Hok as (Hsc & Hk & Hsl & Hlen). destruct (parts s !! k) as [p|] eqn:Ep; simplify_eq/=.
    destruct (hazards p !! slot) as [h|] eqn:Eh; simplify_eq/=.
    assert (length snap < hazardSnapshotLen)%nat as Hl by (unfold hazardSnapshotLen, HazardSlots in *; lia).
    assert (scanned s l (S k) (S slot) (snap_add h snap)) as Hsc' by (eapply snap_ok; [intros y Hy; apply Hun, elem_of_app; by left|done..]).
    pose proof (snap_add_length h snap) as Hl'. apply (adv_local _ _ Hinv _ _ Hi); [by case_decide|]. case_decide; (split; [done|]); simpl.
    + split_and!; [done|lia|done|lia].
    + split_and!; [|lia|unfold HazardSlots; lia|unfold HazardSlots in *; lia]. intros j q m x Hj Hh Hx [Hjk|[_ Hm]]; [|lia].
      eapply Hsc'; [exact Hj|exact Hh|done|]. destruct (decide (j = k)) as [->|]; [right|left; lia]. split; [done|].
      assert (q = p) as -> by congruence. apply lookup_lt_Some in Hh. rewrite (po_slots _ _ (e_parts _ _ Hinv k p Ep)) in Hh. lia.
  - apply (adv_local _ _ Hinv _ _ Hi); [done|]. split; [|done]. intros x Hx. by apply Hun.
  - case_decide; simplify_eq.
    + by apply (adv_requeue _ _ Hinv _ _ Hi x l rest snap).
    + by apply (adv_free _ _ Hinv _ _ Hi x l rest snap).
Qed.

Lemma inv_step B s mv s' : ebr_inv B s → B + 1 < 2 ^ 64 → (length (parts s) <= 16)%nat → prompt_step mv s = true →
  ebr_step mv s = Some s' → ebr_inv (B + 1) s'.
Proof.
  intros Hinv HB Hn Hpr Hs. destruct mv as [|k c|k|x|x|i| |i]; simplify_eq/=.
  - by apply inv_register.
  - destruct (parts s !! k) as [p|] eqn:Ep; simplify_eq/=. destruct (part_call (objs s) c p) as [p'|] eqn:Ec; simplify_eq/=. by eapply inv_part_call.
  - destruct (parts s !! k) as [p|] eqn:Ep; simplify_eq/=. destruct (part_step (globalEpoch s) p) as [p'|] eqn:Ec; simplify_eq/=. by eapply inv_part_step.
  - destruct (objs s !! x) eqn:Ex; simplify_eq/=. by apply inv_publish.
  - destruct (objs s !! x) as [[]|] eqn:Ex; simplify_eq/=. by apply inv_unlink.
  - destruct (retires s !! i) as [r|] eqn:Er; simplify_eq/=. destruct (retire_step r s) as [[r' s1]|] eqn:Es; simplify_eq/=. by eapply inv_retire.
  - eapply inv_tasks; [done|done|done|done| |by left|done|intros; left; by eauto|].
    + intros x. unfold tokens. simpl. rewrite map_app, concat_app. simpl. by rewrite !app_nil_r.
    + simpl. intros j w [|[_ Hw]]%lookup_app_Some; [by left|]. apply list_lookup_singleton_Some in Hw as [_ <-]. right.
      split; [|done]. by intros x ?%elem_of_nil.
  - destruct (advances s !! i) as [v|] eqn:Ev; simplify_eq/=. destruct (advance_step v s) as [[v' s1]|] eqn:Es; simplify_eq/=.
    apply (inv_advance B s i v (v', s1)); try done. simpl. by rewrite Ev.
Qed.

Lemma retire_parts r s q : retire_step r s = Some q → parts q.2 = parts s.
Proof. destruct r; intros ?; by simplify_eq/=. Qed.

Lemma advance_parts v s q : advance_step v s = Some q → parts q.2 = parts s.
Proof.
  destruct v as [|cur|cur [|k]|cur [|k]|cur|cur shard heads|[|l rest]|l rest [|k] slot snap|[|x l] rest snap]; simpl; intros H;
    repeat case_decide; simplify_option_eq; done.
Qed.

Lemma step_parts mv s s' : ebr_step mv s = Some s' → (length (parts s) <= length (parts s'))%nat.
Proof.
  destruct mv as [|k c|k|x|x|i| |i]; simpl; intros Hs.
  - simplify_eq/=. rewrite length_app. lia.
  - simplify_option_eq. by rewrite length_insert.
  - simplify_option_eq. by rewrite length_insert.
  - destruct (objs s !! x); by simplify_eq/=.
  - destruct (objs s !! x) as [[]|]; by simplify_eq/=.
  - destruct (retires s !! i) as [r|]; simplify_eq/=. destruct (retire_step r s) as [q|] eqn:Eq; simplify_eq/=.
    pose proof (retire_parts _ _ _ Eq) as E. destruct q. simplify_eq/=. by rewrite E.
  - by simplify_eq/=.
  - destruct (advances s !! i) as [v|]; simplify_eq/=. destruct (advance_step v s) as [q|] eqn:Eq; simplify_eq/=.
    pose proof (advance_parts _ _ _ Eq) as E. destruct q. simplify_eq/=. by rewrite E.
Qed.

Lemma run_parts mvs s s' : ebr_run mvs s = Some s' → (length (parts s) <= length (parts s'))%nat.
Proof.
  revert s. induction mvs as [|mv mvs IH]; simpl; intros s Hs; [by simplify_eq|]. destruct (ebr_step mv s) as [s1|] eqn:E; [|done].
  pose proof (step_parts _ _ _ E). simpl in Hs. specialize (IH _ Hs). lia.
Qed.

Lemma run_inv mvs B s s' : ebr_inv B s → B + Z.of_nat (length mvs) < 2 ^ 64 → ebr_run mvs s = Some s' →
  (length (parts s') <= 16)%nat → prompt_run mvs s = true → ebr_inv (B + Z.of_nat (length mvs)) s'.
Proof.
  revert B s. induction mvs as [|mv mvs IH]; simpl; intros B s Hinv HB Hr Hn Hp.
  - simplify_eq. by rewrite Z.add_0_r.
  - destruct (ebr_step mv s) as [s1|] eqn:E; [|done]. simpl in Hr. apply andb_true_iff in Hp as [Hp1 Hp2].
    pose proof (run_parts _ _ _ Hr). pose proof (step_parts _ _ _ E).
    eapply (eq_rect _ (λ b, ebr_inv b s')); [apply (IH (B + 1) s1); try done; [|lia]|lia]. eapply inv_step; [exact Hinv|lia|lia|done|done].
Qed.

Lemma occ_no_lists n x : occ x (concat (replicate n []) ++ []) = 0%nat.
Proof. induction n as [|n IH]; [done|exact IH]. Qed.

Lemma ebr_start : ebr_inv 0 NewEBRManager.
Proof.
  split.
  - done.
  - by intros [].
  - by intros [].
  - by intros [].
  - intros x. exact (occ_no_lists _ x).
  - intros x u Hx. cbn in Hx. by rewrite lookup_empty in Hx.
  - by intros [].
  - apply length_replicate.
  - intros j l x Hj Hx. apply lookup_replicate in Hj as [-> _]. by apply elem_of_nil in Hx.
  - by intros [].
Qed.

(** C13.  Epoch-based reclamation frees nothing that is in use: take any run of at
    most sixteen participants that enter, read linked objects, leave or detach
    with a hazard pointer, of unlinkings with their retirements, and of advances
    of the epoch, interleaved atomic operation by atomic operation, in which no
    advance succeeds while another has lists still to swap out.  An object that a
    participant has read in its critical section, or protects with a hazard
    pointer, is not freed; and every unlinked object is in exactly one retirement,
    retired list or advance, so it is neither lost nor freed twice. *)
Theorem ebr_frees_nothing_in_use (mvs : list move) (s : EBR) :
  ebr_run mvs NewEBRManager = Some s → prompt_run mvs NewEBRManager = true →
  (length (parts s) <= 16)%nat → Z.of_nat (length mvs) < 2 ^ 64 →
  (∀ k p x, parts s !! k = Some p → x ∈ held p ∨ Some x ∈ hazards p → live (objs s) x) ∧
  ∀ x, occ x (tokens s) = if is_unlinked (objs s) x then 1%nat else 0%nat.
Proof.
  intros Hr Hp Hn Hl. pose proof (run_inv mvs 0 _ s ebr_start ltac:(lia) Hr Hn Hp) as Hinv. split; [|apply Hinv].
  intros k p x Hk [Hx|Hx].
  - destruct (e_held _ _ Hinv k p x Hk Hx) as [|(u & Hu & _)]; eexists; by split.
  - apply list_elem_of_lookup in Hx as [i Hi]. by eapply e_hazards.
Qed.

(** Two epochs pass after an object is retired, and it is freed; a second one is
    still held. *)
Definition timely : list move :=
  [Publish 7; Publish 8; Register; PCall 0 Enter] ++ repeat_move 7 (PStep 0) ++ [PCall 0 (Read 7); Unlink 7] ++ repeat_move 3 (RStep 0) ++
  [PCall 0 Exit] ++ repeat_move 6 (PStep 0) ++
  concat (map (λ i, [StartAdvance] ++ repeat_move 4 (VStep i) ++ repeat_move 256 (VStep i) ++ repeat_move (256 * 8) (VStep i)) [0; 1]%nat) ++
  [PCall 0 Enter] ++ repeat_move 7 (PStep 0) ++ [PCall 0 (Read 8); Unlink 8] ++ repeat_move 3 (RStep 1).

Lemma ebr_frees_nothing_in_use_witness :
  ∃ s p, ebr_run timely NewEBRManager = Some s ∧ objs s !! 7 = Some Freed ∧ parts s !! 0%nat = Some p ∧ held p = [8] ∧ live (objs s) 8.
Proof.
  assert ((λ s, (parts s, objs s !! 7, prompt_run timely NewEBRManager)) <$> ebr_run timely NewEBRManager =
    Some ([mkPart true 2 [None; None; None; None] PIn [8]], Some Freed, true)) as E by by vm_compute.
  apply fmap_Some_1 in E as (s & Er & E). apply pair_equal_spec in E as [[E1 E2]%pair_equal_spec E3].
  destruct (ebr_frees_nothing_in_use timely s Er) as [Hlive _]; [exact (eq_sym E3)|rewrite <- E1; simpl; lia|by vm_compute|].
  exists s, (mkPart true 2 [None; None; None; None] PIn [8]). rewrite <- E1.
  split; [exact Er|]. split; [exact (eq_sym E2)|]. split; [reflexivity|]. split; [reflexivity|].
  eapply (Hlive 0%nat); [rewrite <- E1; reflexivity|]. left. left.
Defined.
