(* ===== verification/Arena.v ===== *)
(** The off-heap arena (pkg/sync/hamt_arena.go): nodes of 72 bytes and variable
    blocks of power-of-two sizes, cut off the end of the mapping or taken from
    sharded free lists.

    Addresses are offsets from the base.  The memory is a map from the offsets of
    8-byte words, zero where nothing was written.  The calls run one at a time;
    what keeps concurrent pops of a free list apart is the epoch (Reclaim.v). *)
From S2P Require Import Prelude.

Definition nodeSize : Z := 72.
Definition numVarClasses : nat := 16.
Definition varAllocHeaderSize : Z := 8.
Definition minVarAllocSize : Z := 16.
Definition numSizeClasses : nat := 1 + numVarClasses.
Definition arenaShardCount : nat := 256.
Definition arenaVarFreelistSweep : nat := 128.
Definition NullOffset : Z := 0.

(** [heads] are the heads of nodeFreelist, as class 0, and of varFreelist, class
    after class. *)
Record Arena := mkArena {
  a_mem : gmap Z Z;
  heads : list Z;
  nodePop : Z;
  nodePush : Z;
  varPop : Z;
  varPush : Z;
  bumpOffset : Z;
  a_size : Z;
}.

Definition NewHamtArena (size : Z) : Arena :=
  mkArena ∅ (replicate (numSizeClasses * arenaShardCount) NullOffset) 0 0 0 0 nodeSize size.

Definition word (m : gmap Z Z) (off : Z) : Z := default 0 (m !! off).

(** ** Size classes *)

Definition Len64 (x : Z) : Z := if decide (x = 0) then 0 else Z.log2 x + 1.
Definition TrailingZeros64 (x : Z) : Z := if decide (x = 0) then 64 else Z.log2 (Z.land x (- x)).

Definition varSizeClassIndex (payloadSize : Z) : Z * Z :=
  if decide (payloadSize = 0) then (0, 0)
  else
    let totalSize0 := u64 (payloadSize + varAllocHeaderSize) in
    let totalSize := if decide (totalSize0 < minVarAllocSize) then minVarAllocSize else totalSize0 in
    let rounded := u64 (Z.shiftl 1 (Len64 (totalSize - 1))) in
    let idx0 := TrailingZeros64 rounded - 3 in
    let idx1 := if decide (idx0 < 1) then 1 else idx0 in
    let idx := if decide (Z.of_nat numSizeClasses <= idx1) then Z.of_nat numSizeClasses - 1 else idx1 in
    (idx, rounded).

Definition blockSizeForClass (classIdx : nat) : Z :=
  if decide (classIdx = O) then nodeSize else Z.shiftl 1 (Z.of_nat classIdx + 3).

(** ** Free lists *)

(** The round-robin routes: the shard, from a counter that was read and advanced. *)
Definition shard_route (counter : Z) : nat := Z.to_nat (Z.land counter (Z.of_nat arenaShardCount - 1)).

Definition list_of (classIdx shard : nat) : nat := (classIdx * arenaShardCount + shard)%nat.

Definition with_mem m a := mkArena m (heads a) (nodePop a) (nodePush a) (varPop a) (varPush a) (bumpOffset a) (a_size a).
Definition with_heads hs a := mkArena (a_mem a) hs (nodePop a) (nodePush a) (varPop a) (varPush a) (bumpOffset a) (a_size a).
Definition with_bump b a := mkArena (a_mem a) (heads a) (nodePop a) (nodePush a) (varPop a) (varPush a) b (a_size a).

(** The first block of a list; the link is in its first word. *)
Definition pop_block (h : nat) (a : Arena) : option (Z * Arena) :=
  head ← heads a !! h;
  if decide (head = NullOffset) then None
  else Some (head, with_heads (<[h := word (a_mem a) head]> (heads a)) a).

Definition push_block (h : nat) (offset : Z) (a : Arena) : option Arena :=
  head ← heads a !! h;
  Some (with_heads (<[h := offset]> (heads a)) (with_mem (<[offset := head]> (a_mem a)) a)).

(** Words [off], [off] + 8, ... below [off] + [size] become zero (clearMem; a last,
    partial word is cleared whole). *)
Definition clear_words (off size : Z) (m : gmap Z Z) : gmap Z Z :=
  filter (λ kv, ¬ (off <= kv.1 < off + size)) m.

(** ** Nodes *)

(** refCount 1, every other word zero (the code does not write the blank
    32-bit field after the bitmap, which nothing reads). *)
Definition init_node (off : Z) (a : Arena) : Arena := with_mem (<[off := 1]> (clear_words off nodeSize (a_mem a))) a.

Definition bumpAllocateNode (a : Arena) : option (Z * Arena) :=
  let endOffset := u64 (bumpOffset a + nodeSize) in
  let startOffset := u64 (endOffset - nodeSize) in
  if decide (a_size a < endOffset) then None else Some (startOffset, init_node startOffset (with_bump endOffset a)).

(** [None] is the panic of an exhausted arena. *)
Definition AllocNode (a : Arena) : option (Z * Arena) :=
  let shard := shard_route (nodePop a) in
  let a1 := mkArena (a_mem a) (heads a) (u64 (nodePop a + 1)) (nodePush a) (varPop a) (varPush a) (bumpOffset a) (a_size a) in
  match pop_block (list_of 0 shard) a1 with
  | Some (off, a2) => Some (off, init_node off a2)
  | None => bumpAllocateNode a1
  end.

Definition pushFreeNode (offset : Z) (a : Arena) : option Arena :=
  let shard := shard_route (nodePush a) in
  push_block (list_of 0 shard) offset
    (mkArena (a_mem a) (heads a) (nodePop a) (u64 (nodePush a + 1)) (varPop a) (varPush a) (bumpOffset a) (a_size a)).

(** ** Variable blocks *)

(** The sweep over the shards from [start] on: [n] probes left. *)
Fixpoint sweep (classIdx start n : nat) (a : Arena) : option (Z * Arena) :=
  match n with
  | O => None
  | S n' =>
      let probe := (arenaVarFreelistSweep - n)%nat in
      let shard := Z.to_nat (Z.land (Z.of_nat start + Z.of_nat probe) (Z.of_nat arenaShardCount - 1)) in
      match pop_block (list_of classIdx shard) a with
      | Some r => Some r
      | None => sweep classIdx start n' a
      end
  end.

(** The offset of the payload, 0 for an empty one; [None] is the panic. *)
Definition allocVar (payloadSize : Z) (a : Arena) : option (Z * Arena) :=
  if decide (payloadSize = 0) then Some (0, a)
  else
    let '(classIdx, blockSize) := varSizeClassIndex payloadSize in
    if decide (classIdx = 0) then Some (0, a)
    else
      let c := Z.to_nat classIdx in
      let a1 := mkArena (a_mem a) (heads a) (nodePop a) (nodePush a) (u64 (varPop a + 1)) (varPush a) (bumpOffset a) (a_size a) in
      match sweep c (shard_route (varPop a)) arenaVarFreelistSweep a1 with
      | Some (blockPtr, a2) =>
          let m := <[blockPtr := classIdx]> (a_mem a2) in
          let payload := blockPtr + varAllocHeaderSize in
          Some (payload, with_mem (clear_words payload payloadSize m) a2)
      | None =>
          let endOffset := u64 (bumpOffset a1 + blockSize) in
          let startOffset := u64 (endOffset - blockSize) in
          if decide (a_size a1 < endOffset) then None
          else Some (startOffset + varAllocHeaderSize, with_mem (<[startOffset := classIdx]> (a_mem a1)) (with_bump endOffset a1))
      end.

(** freeVar, through pushFreeVar: an offset 0 and a header that is no class of
    variable blocks are ignored. *)
Definition pushFreeVar (offset : Z) (a : Arena) : option Arena :=
  if decide (offset = 0) then Some a
  else
    let blockPtr := offset - varAllocHeaderSize in
    let classIdx := word (a_mem a) blockPtr in
    if decide (classIdx < 1 ∨ Z.of_nat numSizeClasses <= classIdx) then Some a
    else
      let shard := shard_route (varPush a) in
      push_block (list_of (Z.to_nat classIdx) shard) blockPtr
        (mkArena (a_mem a) (heads a) (nodePop a) (nodePush a) (varPop a) (u64 (varPush a + 1)) (bumpOffset a) (a_size a)).

(** ** A client *)

(** What a client owns: a node, or a variable block with a payload of [b_size]
    bytes; the client's words are those of the node, or of the payload. *)
Record Block := mkBlock { b_start : Z; b_class : nat; b_size : Z }.

#[global] Instance Block_eq_dec : EqDecision Block.
Proof. solve_decision. Defined.

Definition area (b : Block) : Z * Z :=
  if decide (b_class b = O) then (b_start b, b_start b + nodeSize)
  else (b_start b + varAllocHeaderSize, b_start b + varAllocHeaderSize + b_size b).

Definition owns (b : Block) (off : Z) : Prop := (area b).1 <= off ∧ off + 8 <= (area b).2 ∧ off `mod` 8 = 0.

#[global] Instance owns_dec b off : Decision (owns b off).
Proof. unfold owns. apply _. Defined.

(** The arena, the blocks the client has, and what it last stored in them. *)
Record Client := mkClient { c_arena : Arena; c_live : list Block; c_stored : gmap Z Z }.

Inductive op := ONode | OVar (size : Z) | OFree (i : nat) | OStore (i : nat) (off v : Z).

Definition forget (b : Block) (st : gmap Z Z) : gmap Z Z := filter (λ kv, ¬ ((area b).1 <= kv.1 < (area b).2)) st.

Definition client_step (o : op) (s : Client) : option Client :=
  match o with
  | ONode =>
      '(off, a) ← AllocNode (c_arena s);
      Some (mkClient a (mkBlock off 0 nodeSize :: c_live s) (<[off := 1]> (c_stored s)))
  | OVar size =>
      '(off, a) ← allocVar size (c_arena s);
      if decide (size = 0) then Some (mkClient a (c_live s) (c_stored s))
      else Some (mkClient a (mkBlock (off - varAllocHeaderSize) (Z.to_nat (varSizeClassIndex size).1) size :: c_live s) (c_stored s))
  | OFree i =>
      b ← c_live s !! i;
      a ← (if decide (b_class b = O) then pushFreeNode (b_start b) (c_arena s)
           else pushFreeVar (b_start b + varAllocHeaderSize) (c_arena s));
      Some (mkClient a (delete i (c_live s)) (forget b (c_stored s)))
  | OStore i off v =>
      b ← c_live s !! i;
      if decide (owns b off) then
        Some (mkClient (with_mem (<[off := v]> (a_mem (c_arena s))) (c_arena s)) (c_live s) (<[off := v]> (c_stored s)))
      else None
  end.

Fixpoint client_run (ops : list op) (s : Client) : option Client :=
  match ops with [] => Some s | o :: ops' => s' ← client_step o s; client_run ops' s' end.

Definition new_client (size : Z) : Client := mkClient (NewHamtArena size) [] ∅.

(** ** A class that is no size *)

(** Payloads over 512 KiB all fall into the last class, whose list then holds
    blocks of different sizes: a block of 1 MiB is freed and handed out again for
    4 MiB, over a block that is in use, whose contents it clears. *)
Theorem oversized_blocks_overlap :
  ∃ ops s b b' off, client_run ops (new_client (2 ^ 30)) = Some s ∧ b ∈ c_live s ∧ b' ∈ c_live s ∧ b ≠ b' ∧
    owns b off ∧ owns b' off ∧ c_stored s !! off = Some 42 ∧ word (a_mem (c_arena s)) off = 0.
Proof.
  set (ops := [OVar (2 ^ 19); OVar 100; OStore 0 (80 + 2 ^ 20) 42; OFree 1] ++ replicate 254 (OVar 8) ++ [OVar (2 ^ 22)]).
  set (b := mkBlock (72 + 2 ^ 20) 4 100). set (b' := mkBlock 72 16 (2 ^ 22)).
  assert ((λ s, (bool_decide (b ∈ c_live s), bool_decide (b' ∈ c_live s), c_stored s !! (80 + 2 ^ 20), word (a_mem (c_arena s)) (80 + 2 ^ 20)))
    <$> client_run ops (new_client (2 ^ 30)) = Some (true, true, Some 42, 0)) as E by by vm_compute.
  apply fmap_Some_1 in E as (s & Er & E). apply pair_equal_spec in E as [[[E1 E2]%pair_equal_spec E3]%pair_equal_spec E4].
  exists ops, s, b, b', (80 + 2 ^ 20). split; [exact Er|].
  split; [exact (bool_decide_eq_true_1 _ (eq_sym E1))|]. split; [exact (bool_decide_eq_true_1 _ (eq_sym E2))|].
  split; [discriminate|]. split; [by apply (bool_decide_unpack _); vm_compute|]. split; [by apply (bool_decide_unpack _); vm_compute|].
  split; [exact (eq_sym E3)|exact (eq_sym E4)].
Qed.

(** ** Size classes *)

Lemma tz_pow2 k : 0 <= k → TrailingZeros64 (2 ^ k) = k.
Proof.
  intros Hk. unfold TrailingZeros64. rewrite decide_False by (pose proof (Z.pow_pos_nonneg 2 k); lia).
  replace (- 2 ^ k) with (Z.lnot (Z.ones k)) by (rewrite Z.ones_equiv; unfold Z.lnot; lia). rewrite <- Z.ldiff_land.
  rewrite Z.ldiff_ones_r, Z.shiftr_div_pow2, Z.div_same by (done || apply Z.pow_nonzero; lia).
  rewrite Z.shiftl_mul_pow2, Z.mul_1_l by done. by apply Z.log2_pow2.
Qed.

Lemma class_size c : c ≠ O → blockSizeForClass c = 2 ^ (Z.of_nat c + 3).
Proof. intros Hc. unfold blockSizeForClass. rewrite decide_False by done. rewrite Z.shiftl_mul_pow2 by lia. lia. Qed.

(** Every payload of at most 512 KiB less the header has a class that fits it. *)
Lemma varSizeClassIndex_fits n : 0 < n <= 2 ^ 19 - 8 →
  ∃ c, (1 <= c <= 16)%nat ∧ varSizeClassIndex n = (Z.of_nat c, blockSizeForClass c) ∧ n + 8 <= blockSizeForClass c.
Proof.
  intros Hn. unfold varSizeClassIndex. rewrite decide_False by lia. unfold varAllocHeaderSize, minVarAllocSize.
  rewrite (u64_id (n + 8)) by words. set (t := if decide (n + 8 < 16) then 16 else n + 8).
  assert (16 <= t <= 2 ^ 19 ∧ n + 8 <= t) as [Ht Hnt] by (unfold t; case_decide; lia).
  unfold Len64. rewrite (decide_False (P := t - 1 = 0)) by lia. set (L := Z.log2 (t - 1) + 1).
  assert (4 <= L <= 19) as HL.
  { unfold L. assert (3 <= Z.log2 (t - 1)) by (apply Z.log2_le_pow2; lia). assert (Z.log2 (t - 1) < 19) by (apply Z.log2_lt_pow2; lia). lia. }
  assert (t <= 2 ^ L) as Htl by (unfold L; rewrite Z.add_1_r; pose proof (Z.log2_spec (t - 1) ltac:(lia)); lia).
  rewrite Z.shiftl_mul_pow2, Z.mul_1_l by lia.
  assert (2 ^ L < 2 ^ 64) as H64 by (apply Z.pow_lt_mono_r; lia).
  rewrite (u64_id (2 ^ L)) by (pose proof (Z.pow_pos_nonneg 2 L); words). rewrite tz_pow2 by lia.
  exists (Z.to_nat (L - 3)). rewrite class_size by lia. rewrite Z2Nat.id by lia. replace (L - 3 + 3) with L by lia. split; [lia|].
  rewrite (decide_False (P := L - 3 < 1)), (decide_False (P := Z.of_nat numSizeClasses <= L - 3)) by (change (Z.of_nat numSizeClasses) with 17; lia).
  split; [done|lia].
Qed.

Lemma class_aligned c : 16 <= blockSizeForClass c ∧ blockSizeForClass c `mod` 8 = 0.
Proof.
  destruct (decide (c = O)) as [->|Hc]; [done|]. rewrite class_size by done. replace (Z.of_nat c + 3) with (Z.of_nat (c - 1) + 4) by lia.
  rewrite Z.pow_add_r by lia. assert (0 < 2 ^ Z.of_nat (c - 1)) by (apply Z.pow_pos_nonneg; lia). split; [lia|].
  replace (2 ^ Z.of_nat (c - 1) * 2 ^ 4) with ((2 ^ Z.of_nat (c - 1) * 2) * 8) by lia. by apply Z_mod_mult.
Qed.

(** ** The invariant *)

Fixpoint fchain (m : gmap Z Z) (p : Z) (l : list Z) : Prop :=
  match l with [] => p = NullOffset | x :: l' => p = x ∧ fchain m (word m x) l' end.

(** The blocks ever cut, with their classes; the lists [C] behind the heads; the
    starts in [fl] are in the hands of an operation under way. *)
Record ainv (a : Arena) (live : list Block) (st : gmap Z Z) (blocks : gmap Z nat) (C : list (list Z)) (fl : list Z) : Prop := {
  v_heads : Forall2 (fchain (a_mem a)) (heads a) C;
  v_length : length (heads a) = (numSizeClasses * arenaShardCount)%nat;
  v_lists : ∀ h l x, C !! h = Some l → x ∈ l → blocks !! x = Some (h / arenaShardCount)%nat;
  v_blocks : ∀ x c, blocks !! x = Some c → nodeSize <= x ∧ x `mod` 8 = 0 ∧ (c <= 16)%nat ∧ x + blockSizeForClass c <= bumpOffset a;
  v_apart : ∀ x y c d, blocks !! x = Some c → blocks !! y = Some d → x < y → x + blockSizeForClass c <= y;
  v_own : ∀ x, (occ x (concat C) + occ x (map b_start live) + occ x fl)%nat = match blocks !! x with Some _ => 1%nat | None => 0%nat end;
  v_live : ∀ b, b ∈ live → blocks !! b_start b = Some (b_class b) ∧
    (b_class b ≠ O → word (a_mem a) (b_start b) = Z.of_nat (b_class b) ∧ 0 < b_size b ∧ b_size b + 8 <= blockSizeForClass (b_class b));
  v_bump : nodeSize <= bumpOffset a <= a_size a ∧ bumpOffset a `mod` 8 = 0;
  v_fresh : ∀ off, bumpOffset a <= off → word (a_mem a) off = 0;
  v_words : ∀ b off, b ∈ live → owns b off → word (a_mem a) off = default 0 (st !! off);
  v_stored : ∀ off v, st !! off = Some v → ∃ b, b ∈ live ∧ owns b off;
}.

(** The words a block's owner may use are the block's. *)
Lemma owns_range b off : (b_class b ≠ O → 0 < b_size b ∧ b_size b + 8 <= blockSizeForClass (b_class b)) → owns b off →
  b_start b <= off ∧ off + 8 <= b_start b + blockSizeForClass (b_class b) ∧ (b_class b ≠ O → b_start b + 8 <= off).
Proof.
  unfold owns, area, varAllocHeaderSize. intros Hb. destruct (decide (b_class b = O)) as [E|E]; simpl; intros (H1 & H2 & _).
  - rewrite E. unfold blockSizeForClass. rewrite decide_True by done. split_and!; [lia|lia|done].
  - destruct (Hb E). split_and!; [lia|lia|]. intros _. lia.
Qed.

(** Two blocks that share an offset are one. *)
Lemma same_block a live st blocks C fl x y c d off :
  ainv a live st blocks C fl → blocks !! x = Some c → blocks !! y = Some d →
  x <= off < x + blockSizeForClass c → y <= off < y + blockSizeForClass d → x = y.
Proof.
  intros H Hx Hy H1 H2. destruct (Z.lt_trichotomy x y) as [Hlt|[|Hlt]]; [|done|].
  - pose proof (v_apart _ _ _ _ _ _ H x y c d Hx Hy Hlt). lia.
  - pose proof (v_apart _ _ _ _ _ _ H y x d c Hy Hx Hlt). lia.
Qed.

Lemma fchain_ext m m' p l : (∀ x, x ∈ l → word m' x = word m x) → fchain m p l → fchain m' p l.
Proof.
  revert p. induction l as [|x l IH]; intros p Hx; [done|]. intros [-> Hc]. split; [done|]. rewrite Hx by by left.
  apply IH; [|done]. intros y Hy. apply Hx. by right.
Qed.

Lemma lists_ext m m' hs C : (∀ x, x ∈ concat C → word m' x = word m x) → Forall2 (fchain m) hs C → Forall2 (fchain m') hs C.
Proof.
  intros Hx HF. apply Forall2_same_length_lookup. split; [by eapply Forall2_length|]. intros k p l Hk Hl.
  apply (fchain_ext m); [|by eapply Forall2_lookup_lr]. intros x Hxl. apply Hx, elem_of_concat. exists l. split; [done|].
  by eapply list_elem_of_lookup_2.
Qed.

Section Moves.
Context (a : Arena) (live : list Block) (st : gmap Z Z) (blocks : gmap Z nat) (C : list (list Z)).

(** What the memory's blocks are does not depend on the counters. *)
Lemma ainv_counters fl a' : a_mem a' = a_mem a → heads a' = heads a → bumpOffset a' = bumpOffset a → a_size a' = a_size a →
  ainv a live st blocks C fl → ainv a' live st blocks C fl.
Proof. intros E1 E2 E3 E4 []. split; rewrite ?E1, ?E2, ?E3, ?E4; done. Qed.

Lemma live_block fl b : ainv a live st blocks C fl → b ∈ live → ∀ off, owns b off →
  b_start b <= off < b_start b + blockSizeForClass (b_class b) ∧ (b_class b ≠ O → b_start b < off).
Proof.
  intros H Hb off Ho. destruct (v_live _ _ _ _ _ _ H b Hb) as [_ Hc].
  destruct (owns_range b off) as (H1 & H2 & H3); [intros E; by destruct (Hc E) as (_ & ?)|done|]. split; [lia|]. intros E. specialize (H3 E). lia.
Qed.

(** A block of a list is taken. *)
Lemma ainv_pop h x a' : ainv a live st blocks C [] → pop_block h a = Some (x, a') →
  ∃ C', ainv a' live st blocks C' [x] ∧ blocks !! x = Some (h / arenaShardCount)%nat.
Proof.
  intros H Hp. unfold pop_block in Hp. destruct (heads a !! h) as [p|] eqn:Eh; simplify_eq/=. case_decide as Hz; simplify_eq.
  destruct (Forall2_lookup_l _ _ _ _ _ (v_heads _ _ _ _ _ _ H) Eh) as (l & El & Hl). destruct l as [|y l]; [done|]. destruct Hl as [-> Hl].
  exists (<[h := l]> C). split; [|by eapply v_lists; [done|done|left]].
  assert (∀ i, occ i (concat (<[h := l]> C)) + occ i [y] = occ i (concat C))%nat as Ho.
  { intros i. pose proof (occ_update i _ _ _ l El) as Hu. simpl in *. lia. }
  destruct H as [H1 H2 H3 H4 H5 H6 H7 H8 H9 H10 H11]. split; simpl; try done.
  - by apply Forall2_insert.
  - by rewrite length_insert.
  - intros k l' z [(<- & <- & _)|[_ Hk]]%list_lookup_insert_Some Hz'; [eapply H3; [done|by right]|by eapply H3].
  - intros i. specialize (Ho i). specialize (H6 i). simpl in *. lia.
Qed.

(** A block is cut off the end. *)
Lemma ainv_bump c : ainv a live st blocks C [] → (c <= 16)%nat → bumpOffset a + blockSizeForClass c <= a_size a →
  ainv (with_bump (bumpOffset a + blockSizeForClass c) a) live st (<[bumpOffset a := c]> blocks) C [bumpOffset a] ∧ blocks !! bumpOffset a = None.
Proof.
  intros H Hc Hs. pose proof (class_aligned c) as [Hc1 Hc2]. set (x := bumpOffset a).
  assert (∀ y d, blocks !! y = Some d → y + blockSizeForClass d <= x ∧ 16 <= blockSizeForClass d) as Hbelow.
  { intros y d Hy. destruct (v_blocks _ _ _ _ _ _ H y d Hy) as (_ & _ & _ & ?). pose proof (class_aligned d) as [? _]. by split. }
  assert (blocks !! x = None) as Hx by (destruct (blocks !! x) as [d|] eqn:Ex; [destruct (Hbelow x d Ex); lia|done]).
  split; [|done]. destruct H as [H1 H2 H3 H4 H5 H6 H7 H8 H9 H10 H11].
  assert (∀ y d, blocks !! y = Some d → <[x := c]> blocks !! y = Some d) as Hold.
  { intros y d Hy. rewrite lookup_insert_ne; [done|]. intros ->. congruence. }
  split; simpl; try done.
  - intros h l y Hl Hy. apply Hold. by eapply H3.
  - intros y d [[<- <-]|[_ Hy]]%lookup_insert_Some.
    + destruct H8. split_and!; [lia|done|done|done].
    + destruct (H4 y d Hy) as (A1 & A2 & A3 & A4). split_and!; try done. lia.
  - intros y z d e [[<- <-]|[_ Hy]]%lookup_insert_Some [[<- <-]|[_ Hz]]%lookup_insert_Some Hlt; try lia.
    + destruct (Hbelow z e Hz). lia.
    + destruct (Hbelow y d Hy). lia.
    + by eapply H5.
  - intros i. specialize (H6 i). simpl in H6. simpl. destruct (decide (x = i)) as [<-|Hne].
    + rewrite lookup_insert_eq. rewrite Hx in H6. lia.
    + rewrite lookup_insert_ne by done. lia.
  - intros b Hb. destruct (H7 b Hb). split; [by apply Hold|done].
  - split; [lia|]. rewrite Z.add_mod, Hc2 by done. unfold x. destruct H8 as [_ ->]. done.
  - intros off Hoff. apply H9. lia.
Qed.

(** The block an operation has in hand becomes the client's: the words of the
    block alone have changed, and read as the client expects. *)
Lemma ainv_give x c b m' st' : ainv a live st blocks C [x] → blocks !! x = Some c → b_start b = x → b_class b = c →
  (∀ off, ¬ (x <= off < x + blockSizeForClass c) → word m' off = word (a_mem a) off) →
  (c ≠ O → word m' x = Z.of_nat c ∧ 0 < b_size b ∧ b_size b + 8 <= blockSizeForClass c) →
  (∀ off, owns b off → word m' off = default 0 (st' !! off)) →
  (∀ off, ¬ owns b off → st' !! off = st !! off) →
  ainv (with_mem m' a) (b :: live) st' blocks C [].
Proof.
  intros H Hx Hs Hc Hout Hhdr Hown Hst. pose proof H as H0. destruct H as [H1 H2 H3 H4 H5 H6 H7 H8 H9 H10 H11].
  assert (∀ y d, y ≠ x → blocks !! y = Some d → ∀ off, y <= off < y + blockSizeForClass d → word m' off = word (a_mem a) off) as Hother.
  { intros y d Hne Hy off Hoff. apply Hout. intros Hin. apply Hne. by eapply same_block. }
  assert (∀ b', b' ∈ live → b_start b' ≠ x) as Hlive.
  { intros b' Hb' E. pose proof (H6 x) as Ho. rewrite Hx in Ho. simpl in Ho. rewrite decide_True in Ho by done.
    assert (0 < occ x (map b_start live))%nat; [|lia]. apply occ_elem. rewrite <- E. by apply list_elem_of_fmap_2. }
  split; simpl; try done.
  - eapply lists_ext; [|done]. intros y Hy. assert (y ≠ x) as Hne.
    { intros ->. apply occ_elem in Hy. pose proof (H6 x) as Ho. rewrite Hx in Ho. simpl in Ho. rewrite decide_True in Ho by done. lia. }
    apply elem_of_concat in Hy as (l & Hy & Hl). apply list_elem_of_lookup in Hl as [h Hl]. pose proof (H3 h l y Hl Hy) as Hb.
    pose proof (class_aligned (h / arenaShardCount)%nat). eapply Hother; [done|done|lia].
  - intros i. specialize (H6 i). simpl in H6. rewrite Hs. lia.
  - intros b' [->|Hb']%elem_of_cons.
    + rewrite Hs, Hc. split; [done|]. intros E. by apply Hhdr.
    + destruct (H7 b' Hb') as [Hb Hh]. split; [done|]. intros E. destruct (Hh E) as (A1 & A2 & A3). split_and!; try done. rewrite <- A1.
      pose proof (class_aligned (b_class b')). eapply Hother; [by apply Hlive|done|lia].
  - intros off Hoff. destruct (H4 x c Hx) as (_ & _ & _ & Hb). rewrite Hout by lia. by apply H9.
  - intros b' off [->|Hb']%elem_of_cons Ho; [by apply Hown|]. destruct (live_block _ b' H0 Hb' off Ho) as [Hr _].
    destruct (H7 b' Hb') as [Hb _]. rewrite (Hother _ _ (Hlive b' Hb') Hb) by done. rewrite (H10 b' off Hb' Ho), Hst; [done|].
    intros Ho'. apply (Hlive b' Hb'). destruct (owns_range b off) as (R1 & R2 & _).
    { intros E. rewrite Hc in E. destruct (Hhdr E) as (_ & ?). by rewrite Hc. }
    { done. }
    eapply same_block; [done|done|done|done|]. rewrite Hs, Hc in *. lia.
  - intros off v Hv. destruct (decide (owns b off)) as [Ho|Ho]; [exists b; split; [by left|done]|]. rewrite Hst in Hv by done.
    destruct (H11 off v Hv) as (b' & Hb' & Ho'). exists b'. split; [by right|done].
Qed.

(** The client gives a block up. *)
Lemma ainv_release i b : ainv a live st blocks C [] → live !! i = Some b →
  ainv a (delete i live) (forget b st) blocks C [b_start b].
Proof.
  intros H Hi. pose proof (delete_Permutation _ _ _ Hi) as Hp. pose proof H as H0. destruct H as [H1 H2 H3 H4 H5 H6 H7 H8 H9 H10 H11].
  assert (∀ x, occ x (map b_start live) = occ x (b_start b :: map b_start (delete i live))) as Hocc.
  { intros x. clear -Hi. revert i Hi. induction live as [|y l IH]; intros [|i] Hi; simplify_eq/=; [done|]. rewrite (IH i Hi). simpl. lia. }
  assert (∀ b', b' ∈ delete i live → b' ∈ live) as Hsub by (intros b' Hb'; rewrite Hp; by right).
  assert (∀ b', b' ∈ delete i live → b_start b' ≠ b_start b) as Hne.
  { intros b' Hb' E. pose proof (H6 (b_start b)) as Ho. rewrite Hocc in Ho. simpl in Ho. rewrite decide_True in Ho by done.
    assert (0 < occ (b_start b) (map b_start (delete i live)))%nat; [|destruct (blocks !! b_start b); lia].
    apply occ_elem. rewrite <- E. by apply list_elem_of_fmap_2. }
  assert (b ∈ live) as Hb by (by eapply list_elem_of_lookup_2).
  split; try done.
  - intros x. specialize (H6 x). rewrite Hocc in H6. simpl in *. lia.
  - intros b' Hb'. by apply H7, Hsub.
  - intros b' off Hb' Ho. rewrite (H10 b' off (Hsub _ Hb') Ho). unfold forget. f_equal.
    destruct (st !! off) as [v|] eqn:Ev; symmetry; [|by apply map_lookup_filter_None_2; left].
    apply map_lookup_filter_Some_2; [done|]. simpl. intros Hin. apply (Hne b' Hb').
    destruct (live_block _ b' H0 (Hsub _ Hb') off Ho) as [Hr _]. destruct (H7 b Hb) as [Hbb Hbc]. destruct (H7 b' (Hsub _ Hb')) as [Hbb' _].
    eapply same_block; [exact H0|exact Hbb'|exact Hbb|done|]. unfold area, varAllocHeaderSize in Hin. destruct (decide (b_class b = O)) as [E|E]; simpl in Hin.
    + rewrite E. unfold blockSizeForClass. rewrite decide_True by done. lia.
    + destruct (Hbc E) as (_ & ? & ?). lia.
  - intros off v Hv. apply map_lookup_filter_Some in Hv as [Hv Hn]. simpl in Hn. destruct (H11 off v Hv) as (b' & Hb' & Ho). exists b'. split; [|done].
    rewrite Hp in Hb'. apply elem_of_cons in Hb' as [->|]; [|done]. destruct Hn. destruct Ho as (? & ? & _). lia.
Qed.

Lemma word_insert m off v o : word (<[off := v]> m) o = if decide (o = off) then v else word m o.
Proof. unfold word. case_decide as E; [subst; by rewrite lookup_insert_eq|by rewrite lookup_insert_ne]. Qed.

Lemma word_clear m off n o : word (clear_words off n m) o = if decide (off <= o < off + n) then 0 else word m o.
Proof.
  unfold word, clear_words. case_decide as E.
  - rewrite map_lookup_filter_None_2; [done|]. right. intros v _ Hn. by apply Hn.
  - destruct (m !! o) as [v|] eqn:Ev; [rewrite (map_lookup_filter_Some_2 _ _ _ v); done|].
    by rewrite map_lookup_filter_None_2 by by left.
Qed.

(** ... and it goes on a list of its class. *)
Lemma ainv_push h x c : ainv a live st blocks C [x] → blocks !! x = Some c → (h / arenaShardCount)%nat = c → (h < length (heads a))%nat →
  ∃ a' C', push_block h x a = Some a' ∧ a_size a' = a_size a ∧ ainv a' live st blocks C' [].
Proof.
  intros H Hx Hc Hh. unfold push_block. destruct (lookup_lt_is_Some_2 _ _ Hh) as [p Ep]. rewrite Ep. simpl.
  pose proof H as H0. destruct H as [H1 H2 H3 H4 H5 H6 H7 H8 H9 H10 H11].
  destruct (Forall2_lookup_l _ _ _ _ _ H1 Ep) as (l & El & Hl). pose proof (H6 x) as Hox. rewrite Hx in Hox. simpl in Hox. rewrite decide_True in Hox by done.
  assert (∀ y, y ∈ concat C → word (<[x := p]> (a_mem a)) y = word (a_mem a) y) as Hch.
  { intros y Hy%occ_elem. rewrite word_insert, decide_False; [done|]. intros ->. lia. }
  assert (∀ b, b ∈ live → b_start b ≠ x) as Hlive.
  { intros b Hb E. assert (0 < occ x (map b_start live))%nat; [|lia]. apply occ_elem. rewrite <- E. by apply list_elem_of_fmap_2. }
  destruct (H4 x c Hx) as (Hx1 & Hx2 & Hx3 & Hx4). pose proof (class_aligned c) as [Hc1 _].
  eexists _, (<[h := x :: l]> C). split; [done|]. split; [done|]. split; simpl; try done.
  - apply Forall2_insert; [by eapply lists_ext|]. split; [done|]. rewrite word_insert, decide_True by done.
    eapply fchain_ext; [|done]. intros y Hy. apply Hch, elem_of_concat. exists l. split; [done|]. by eapply list_elem_of_lookup_2.
  - by rewrite length_insert.
  - intros k l' y [(<- & <- & _)|[_ Hk]]%list_lookup_insert_Some Hy; [|by eapply H3].
    apply elem_of_cons in Hy as [->|Hy]; [by rewrite Hx, <- Hc|by eapply H3].
  - intros i. pose proof (occ_update i _ _ _ (x :: l) El) as Ho. specialize (H6 i). simpl in *. lia.
  - intros b Hb. destruct (H7 b Hb) as [A1 A2]. split; [done|]. intros E. rewrite word_insert, decide_False by by apply Hlive. by apply A2.
  - intros off Hoff. rewrite word_insert, decide_False by lia. by apply H9.
  - intros b off Hb Ho. rewrite word_insert, decide_False; [by eapply H10|]. intros ->. apply (Hlive b Hb).
    destruct (live_block _ b H0 Hb x Ho) as [Hr _]. eapply (same_block a live st blocks C [x]); [done|by apply H7|done|done|lia].
Qed.

(** The client stores into a word of its own. *)
Lemma ainv_store b off v : ainv a live st blocks C [] → b ∈ live → owns b off →
  ainv (with_mem (<[off := v]> (a_mem a)) a) live (<[off := v]> st) blocks C [].
Proof.
  intros H Hb Ho. destruct (live_block _ b H Hb off Ho) as [Hr Hr']. pose proof H as H0. destruct H as [H1 H2 H3 H4 H5 H6 H7 H8 H9 H10 H11].
  destruct (H7 b Hb) as [Hbb _].
  assert (∀ y d, blocks !! y = Some d → y = off → y = b_start b) as Hstart.
  { intros y d Hy ->. pose proof (class_aligned d). apply (same_block a live st blocks C [] off (b_start b) d (b_class b) off); try done. lia. }
  split; simpl; try done.
  - eapply lists_ext; [|done]. intros y Hy. rewrite word_insert, decide_False; [done|]. intros E.
    assert (y = b_start b) as ->.
    { pose proof Hy as Hy'. apply elem_of_concat in Hy' as (l & Hyl & [h Hl]%list_elem_of_lookup). by eapply Hstart; [eapply H3|]. }
    apply occ_elem in Hy. pose proof (H6 (b_start b)) as Hox. rewrite Hbb in Hox.
    assert (0 < occ (b_start b) (map b_start live))%nat; [|lia]. by apply occ_elem, list_elem_of_fmap_2.
  - intros b' Hb'. destruct (H7 b' Hb') as [A1 A2]. split; [done|]. intros E. rewrite word_insert, decide_False; [by apply A2|]. intros E'.
    pose proof (Hstart _ _ A1 E') as E''. rewrite E'' in A1. assert (b_class b' = b_class b) by congruence. specialize (Hr' ltac:(congruence)). lia.
  - intros o Hoff. destruct (H4 _ _ Hbb) as (_ & _ & _ & ?). rewrite word_insert, decide_False by lia. by apply H9.
  - intros b' o Hb' Ho'. rewrite word_insert. case_decide as E; [subst; by rewrite lookup_insert_eq|]. rewrite lookup_insert_ne by done. by eapply H10.
  - intros o w [[<- <-]|[_ Hw]]%lookup_insert_Some; [by exists b|by eapply H11].
Qed.

(** Nothing is stored in a block that is not the client's. *)
Lemma stored_none x c off : ainv a live st blocks C [x] → blocks !! x = Some c → x <= off < x + blockSizeForClass c → st !! off = None.
Proof.
  intros H Hx Hoff. destruct (st !! off) as [v|] eqn:Ev; [|done]. destruct (v_stored _ _ _ _ _ _ H off v Ev) as (b & Hb & Ho).
  destruct (live_block _ b H Hb off Ho) as [Hr _]. destruct (v_live _ _ _ _ _ _ H b Hb) as [Hbb _].
  assert (b_start b = x) as E by by eapply same_block. pose proof (v_own _ _ _ _ _ _ H x) as Hox. rewrite Hx in Hox. simpl in Hox.
  rewrite decide_True in Hox by done. assert (0 < occ x (map b_start live))%nat; [|lia]. apply occ_elem. rewrite <- E. by apply list_elem_of_fmap_2.
Qed.

End Moves.

Lemma shard_route_lt counter : (shard_route counter < arenaShardCount)%nat.
Proof.
  unfold shard_route. change (Z.of_nat arenaShardCount - 1) with (Z.ones 8). rewrite Z.land_ones by done.
  pose proof (Z.mod_pos_bound counter (2 ^ 8) ltac:(done)). unfold arenaShardCount. lia.
Qed.

Lemma list_of_class c shard : (shard < arenaShardCount)%nat → (list_of c shard / arenaShardCount)%nat = c.
Proof. intros H. unfold list_of. rewrite Nat.div_add_l by done. rewrite (Nat.div_small shard) by done. lia. Qed.

Lemma list_of_lt c shard : (c <= 16)%nat → (shard < arenaShardCount)%nat → (list_of c shard < numSizeClasses * arenaShardCount)%nat.
Proof. intros Hc Hs. unfold list_of, numSizeClasses, numVarClasses, arenaShardCount in *. lia. Qed.

Lemma pop_size h a x a' : pop_block h a = Some (x, a') → a_size a' = a_size a.
Proof. unfold pop_block. intros. simplify_option_eq. done. Qed.

(** A node is handed out with a reference count of one and nothing else. *)
Lemma node_given a live st blocks C x : ainv a live st blocks C [x] → blocks !! x = Some O →
  ainv (init_node x a) (mkBlock x 0 nodeSize :: live) (<[x := 1]> st) blocks C [].
Proof.
  intros H Hx. assert (∀ off, x <= off < x + nodeSize → st !! off = None) as Hn.
  { intros off Hoff. eapply stored_none; [exact H|exact Hx|]. done. }
  eapply ainv_give; [exact H|exact Hx|done|done| |done| |].
  - intros off Hoff. change (blockSizeForClass 0) with nodeSize in Hoff. rewrite word_insert, word_clear, !decide_False; [done|done|unfold nodeSize in *; lia].
  - intros off (H1 & H2 & _). unfold area in H1, H2. rewrite decide_True in H1, H2 by done. simpl in H1, H2. rewrite word_insert. case_decide as E.
    + subst. by rewrite lookup_insert_eq.
    + rewrite word_clear, decide_True by lia. rewrite lookup_insert_ne by done. by rewrite Hn by lia.
  - intros off Ho. rewrite lookup_insert_ne; [done|]. intros <-. apply Ho. unfold owns, area. rewrite decide_True by done. simpl.
    destruct (v_blocks _ _ _ _ _ _ H x O Hx) as (_ & Hm & _). unfold nodeSize. split_and!; [lia|lia|done].
Qed.

(** A variable block is handed out with its class in the header and a clear payload. *)
Lemma var_given a live st blocks C x c n m' :
  ainv a live st blocks C [x] → blocks !! x = Some c → c ≠ O → 0 < n → n + 8 <= blockSizeForClass c →
  (∀ off, ¬ (x <= off < x + blockSizeForClass c) → word m' off = word (a_mem a) off) → word m' x = Z.of_nat c →
  (∀ off, x + 8 <= off < x + 8 + n → word m' off = 0) →
  ainv (with_mem m' a) (mkBlock x c n :: live) st blocks C [].
Proof.
  intros H Hx Hc Hn Hfit Hout Hhdr Hclear. eapply ainv_give; [exact H|exact Hx|done|done|done|done| |done].
  intros off (H1 & H2 & _). unfold area in H1, H2. rewrite decide_False in H1, H2 by done. unfold varAllocHeaderSize in *. simpl in *.
  rewrite Hclear by lia. rewrite (stored_none _ _ _ _ _ x c off H Hx) by lia. done.
Qed.

Lemma alloc_node_ok a live st blocks C off a' : a_size a < 2 ^ 63 → ainv a live st blocks C [] → AllocNode a = Some (off, a') →
  ∃ blocks' C', a_size a' = a_size a ∧ ainv a' (mkBlock off 0 nodeSize :: live) (<[off := 1]> st) blocks' C' [].
Proof.
  intros Hsz H Ha. unfold AllocNode in Ha. set (a1 := mkArena _ _ _ _ _ _ _ _) in Ha.
  assert (ainv a1 live st blocks C []) as H1 by (eapply ainv_counters; [..|exact H]; done).
  destruct (pop_block _ a1) as [[x a2]|] eqn:Ep.
  - simplify_eq. destruct (ainv_pop _ _ _ _ _ _ _ _ H1 Ep) as (C' & H2 & Hx). rewrite list_of_class in Hx by apply shard_route_lt.
    exists blocks, C'. split; [simpl; by rewrite (pop_size _ _ _ _ Ep)|]. by apply node_given.
  - unfold bumpAllocateNode in Ha. destruct (v_bump _ _ _ _ _ _ H1) as [Hb _]. unfold nodeSize in Hb.
    assert (bumpOffset a1 <= a_size a) as Hb' by apply Hb.
    rewrite (u64_id (bumpOffset a1 + nodeSize)) in Ha by (unfold nodeSize; words).
    replace (bumpOffset a1 + nodeSize - nodeSize) with (bumpOffset a1) in Ha by lia. rewrite u64_id in Ha by words.
    case_decide as Hfit; simplify_eq. destruct (ainv_bump a1 live st blocks C 0 H1) as [H2 Hn]; [lia|change (blockSizeForClass 0) with nodeSize; lia|].
    exists (<[bumpOffset a1 := O]> blocks), C. split; [done|]. apply node_given; [exact H2|apply lookup_insert_eq].
Qed.

Lemma sweep_pops c start n a r : sweep c start n a = Some r → ∃ shard, (shard < arenaShardCount)%nat ∧ pop_block (list_of c shard) a = Some r.
Proof.
  induction n as [|n IH]; [done|]. cbn [sweep]. destruct (pop_block _ a) as [q|] eqn:Ep; [|done]. intros [= <-]. eexists. split; [|exact Ep].
  apply shard_route_lt.
Qed.

Lemma alloc_var_ok a live st blocks C n off a' : a_size a < 2 ^ 63 → 0 < n <= 2 ^ 19 - 8 → ainv a live st blocks C [] → allocVar n a = Some (off, a') →
  ∃ blocks' C', a_size a' = a_size a ∧
    ainv a' (mkBlock (off - varAllocHeaderSize) (Z.to_nat (varSizeClassIndex n).1) n :: live) st blocks' C' [].
Proof.
  intros Hsz Hn H Ha. unfold allocVar in Ha. rewrite decide_False in Ha by lia. destruct (varSizeClassIndex_fits n Hn) as (c & Hc & E & Hfit).
  rewrite E in *. cbn [fst snd] in *. rewrite decide_False in Ha by lia. rewrite Nat2Z.id in *. set (a1 := mkArena _ _ _ _ _ _ _ _) in Ha.
  assert (ainv a1 live st blocks C []) as H1 by (eapply ainv_counters; [..|exact H]; done).
  destruct (sweep _ _ _ a1) as [[x a2]|] eqn:Es.
  - apply sweep_pops in Es as (shard & Hsh & Ep). destruct (ainv_pop _ _ _ _ _ _ _ _ H1 Ep) as (C' & H2 & Hx).
    rewrite list_of_class in Hx by done. simplify_eq. unfold varAllocHeaderSize. rewrite Z.add_simpl_r.
    exists blocks, C'. split; [simpl; by rewrite (pop_size _ _ _ _ Ep)|]. eapply var_given; [exact H2|exact Hx|lia|lia|lia|..].
    + intros o Ho. rewrite word_clear, decide_False by lia. rewrite word_insert, decide_False by lia. done.
    + rewrite word_clear, decide_False by lia. rewrite word_insert, decide_True by done. done.
    + intros o Ho. by rewrite word_clear, decide_True by lia.
  - destruct (v_bump _ _ _ _ _ _ H1) as [Hb _]. unfold nodeSize in Hb. assert (bumpOffset a1 <= a_size a) as Hb' by apply Hb.
    assert (blockSizeForClass c <= 2 ^ 19) as Hcs by (rewrite class_size by lia; apply Z.pow_le_mono_r; lia).
    rewrite (u64_id (bumpOffset a1 + blockSizeForClass c)) in Ha by words.
    replace (bumpOffset a1 + blockSizeForClass c - blockSizeForClass c) with (bumpOffset a1) in Ha by lia. rewrite u64_id in Ha by words.
    case_decide as Hsize; simplify_eq. destruct (ainv_bump a1 live st blocks C c H1) as [H2 Hnone]; [lia|lia|].
    unfold varAllocHeaderSize. rewrite Z.add_simpl_r. exists (<[bumpOffset a1 := c]> blocks), C. split; [done|].
    eapply var_given; [exact H2|apply lookup_insert_eq|lia|lia|lia|..].
    + intros o Ho. rewrite word_insert, decide_False by lia. done.
    + rewrite word_insert, decide_True by done. done.
    + intros o Ho. rewrite word_insert, decide_False by lia. apply (v_fresh _ _ _ _ _ _ H1). lia.
Qed.

Lemma free_ok a live st blocks C i b : ainv a live st blocks C [] → live !! i = Some b →
  ∃ a' C', (if decide (b_class b = O) then pushFreeNode (b_start b) a else pushFreeVar (b_start b + varAllocHeaderSize) a) = Some a' ∧
    a_size a' = a_size a ∧ ainv a' (delete i live) (forget b st) blocks C' [].
Proof.
  intros H Hi. assert (b ∈ live) as Hb by (by eapply list_elem_of_lookup_2). destruct (v_live _ _ _ _ _ _ H b Hb) as [Hbb Hhdr].
  destruct (v_blocks _ _ _ _ _ _ H _ _ Hbb) as (Hx1 & Hx2 & Hc & _). pose proof (ainv_release _ _ _ _ _ _ _ H Hi) as Hr.
  pose proof (v_length _ _ _ _ _ _ H) as Hlen. case_decide as E.
  - unfold pushFreeNode. set (a1 := mkArena _ _ _ _ _ _ _ _).
    assert (ainv a1 (delete i live) (forget b st) blocks C [b_start b]) as H1 by (eapply ainv_counters; [..|exact Hr]; done).
    eapply (ainv_push a1); [exact H1|exact Hbb|rewrite E; apply list_of_class, shard_route_lt|]. simpl. rewrite Hlen. apply list_of_lt; [lia|apply shard_route_lt].
  - destruct (Hhdr E) as (Hw & _ & _). unfold pushFreeVar, varAllocHeaderSize, nodeSize in *. rewrite decide_False by lia.
    rewrite Z.add_simpl_r, Hw, decide_False by (change (Z.of_nat numSizeClasses) with 17; lia). rewrite Nat2Z.id.
    set (a1 := mkArena _ _ _ _ _ _ _ _).
    assert (ainv a1 (delete i live) (forget b st) blocks C [b_start b]) as H1 by (eapply ainv_counters; [..|exact Hr]; done).
    eapply (ainv_push a1); [exact H1|exact Hbb|apply list_of_class, shard_route_lt|]. simpl. rewrite Hlen. apply list_of_lt; [lia|apply shard_route_lt].
Qed.

(** Payloads of at most 512 KiB less the header. *)
Definition fits_class (o : op) : Prop := match o with OVar n => 0 <= n <= 2 ^ 19 - 8 | _ => True end.

Lemma client_step_ok o s s' blocks C : a_size (c_arena s) < 2 ^ 63 → fits_class o →
  ainv (c_arena s) (c_live s) (c_stored s) blocks C [] → client_step o s = Some s' →
  ∃ blocks' C', a_size (c_arena s') = a_size (c_arena s) ∧ ainv (c_arena s') (c_live s') (c_stored s') blocks' C' [].
Proof.
  intros Hsz Hf H Hs. destruct o as [|n|i|i off v]; cbn [client_step] in Hs.
  - destruct (AllocNode (c_arena s)) as [[off a]|] eqn:Ea; simplify_eq/=. by eapply alloc_node_ok.
  - destruct (allocVar n (c_arena s)) as [[off a]|] eqn:Ea; simplify_eq/=. case_decide as E; simplify_eq/=.
    + unfold allocVar in Ea. rewrite decide_True in Ea by done. simplify_eq. by exists blocks, C.
    + eapply alloc_var_ok; [exact Hsz|lia|exact H|exact Ea].
  - destruct (c_live s !! i) as [b|] eqn:Eb; simplify_eq/=. destruct (free_ok _ _ _ _ _ _ _ H Eb) as (a' & C' & E & Hz & H').
    rewrite E in Hs. simplify_eq/=. by exists blocks, C'.
  - destruct (c_live s !! i) as [b|] eqn:Eb; simplify_eq/=. case_decide as Ho; simplify_eq/=. exists blocks, C. split; [done|].
    eapply ainv_store; [exact H|by eapply list_elem_of_lookup_2|exact Ho].
Qed.

Lemma client_run_ok ops s s' blocks C : a_size (c_arena s) < 2 ^ 63 → Forall fits_class ops →
  ainv (c_arena s) (c_live s) (c_stored s) blocks C [] → client_run ops s = Some s' →
  ∃ blocks' C', a_size (c_arena s') = a_size (c_arena s) ∧ ainv (c_arena s') (c_live s') (c_stored s') blocks' C' [].
Proof.
  revert s blocks C. induction ops as [|o ops IH]; intros s blocks C Hsz Hf H Hs; simpl in Hs; [simplify_eq; by exists blocks, C|].
  apply Forall_cons in Hf as [Hf1 Hf2]. destruct (client_step o s) as [s1|] eqn:E1; [|done]. simpl in Hs.
  destruct (client_step_ok _ _ _ _ _ Hsz Hf1 H E1) as (b1 & C1 & Hz & H1). rewrite <- Hz in Hsz |- *. by eapply IH.
Qed.

Lemma new_hamt_arena_ok size : nodeSize <= size → ainv (NewHamtArena size) [] ∅ ∅ (replicate (numSizeClasses * arenaShardCount) []) [].
Proof.
  intros Hs. split; cbn [NewHamtArena a_mem heads bumpOffset a_size].
  - generalize (numSizeClasses * arenaShardCount)%nat as n. induction n; simpl; by constructor.
  - apply length_replicate.
  - intros h l x Hl Hx. apply lookup_replicate in Hl as [-> _]. by apply elem_of_nil in Hx.
  - intros x c Hx. by rewrite lookup_empty in Hx.
  - intros x y c d Hx. by rewrite lookup_empty in Hx.
  - intros x. rewrite lookup_empty. generalize (numSizeClasses * arenaShardCount)%nat as n. induction n as [|n IH]; [done|exact IH].
  - by intros b ?%elem_of_nil.
  - split; [lia|done].
  - intros off _. unfold word. by rewrite lookup_empty.
  - by intros b off ?%elem_of_nil.
  - intros off v Hv. by rewrite lookup_empty in Hv.
Qed.

Lemma singles_concat (l : list Block) : concat (map (λ b, [b_start b]) l) = map b_start l.
Proof. induction l as [|b l IH]; [done|]. simpl. by rewrite IH. Qed.

(** C15.  The arena is a heap of disjoint blocks: after any sequence of node and
    block allocations, frees of blocks the client has and stores into words it
    owns, with payloads of at most 512 KiB less the 8-byte header, the client's
    blocks lie inside the arena and no two of them share a word, and every word
    reads as what the client last stored there since the block was handed out,
    zero if nothing (a node's reference count: one). *)
Theorem arena_blocks_disjoint (size : Z) (ops : list op) (s : Client) :
  nodeSize <= size < 2 ^ 63 → Forall fits_class ops → client_run ops (new_client size) = Some s →
  (∀ b off, b ∈ c_live s → owns b off → 0 < off ∧ off + 8 <= size ∧ word (a_mem (c_arena s)) off = default 0 (c_stored s !! off)) ∧
  ∀ i j b b' off, c_live s !! i = Some b → c_live s !! j = Some b' → owns b off → owns b' off → i = j.
Proof.
  intros Hs Hf Hr. destruct (client_run_ok ops (new_client size) s ∅ _ (proj2 Hs) Hf (new_hamt_arena_ok size (proj1 Hs)) Hr) as (blocks & C & Hz & H). simpl in Hz.
  split.
  - intros b off Hb Ho. destruct (v_live _ _ _ _ _ _ H b Hb) as [Hbb Hhdr].
    destruct (v_blocks _ _ _ _ _ _ H _ _ Hbb) as (H1 & H2 & _ & H3). destruct (v_bump _ _ _ _ _ _ H) as [Hbump _]. unfold nodeSize in *.
    destruct (owns_range b off (λ E, proj2 (Hhdr E)) Ho) as (? & ? & _). split_and!; [lia|lia|by eapply v_words].
  - intros i j b b' off Hi Hj Ho Ho'. assert (b ∈ c_live s ∧ b' ∈ c_live s) as [Hb Hb'] by (split; by eapply list_elem_of_lookup_2).
    destruct (live_block _ _ _ _ _ _ b H Hb off Ho) as [Hrg _]. destruct (live_block _ _ _ _ _ _ b' H Hb' off Ho') as [Hrg' _].
    destruct (v_live _ _ _ _ _ _ H b Hb) as [Hbb _]. destruct (v_live _ _ _ _ _ _ H b' Hb') as [Hbb' _].
    assert (b_start b = b_start b') as E by by eapply same_block. destruct (decide (i = j)) as [|Hne]; [done|]. exfalso.
    pose proof (v_own _ _ _ _ _ _ H (b_start b)) as Hown. rewrite Hbb in Hown.
    pose proof (occ_parts (b_start b) (map (λ b, [b_start b]) (c_live s)) i j [b_start b] [b_start b'] Hne) as Hp.
    rewrite !list_lookup_fmap, Hi, Hj in Hp. specialize (Hp eq_refl eq_refl). simpl in Hp. rewrite <- E, decide_True in Hp by done.
    assert (concat (map (λ b, [b_start b]) (c_live s)) = map b_start (c_live s)) as Ec by apply singles_concat.
    rewrite Ec in Hp. lia.
Qed.

Lemma arena_blocks_disjoint_witness :
  ∃ s b off, client_run [ONode; OVar 100; OStore 0 152 7; OFree 1; ONode] (new_client (2 ^ 20)) = Some s ∧
    c_live s !! 1%nat = Some b ∧ owns b off ∧ word (a_mem (c_arena s)) off = 7.
Proof.
  set (ops := [ONode; OVar 100; OStore 0 152 7; OFree 1; ONode]).
  assert ((λ s, (c_live s !! 1%nat, c_stored s !! 152)) <$> client_run ops (new_client (2 ^ 20)) = Some (Some (mkBlock 144 4 100), Some 7)) as E by by vm_compute.
  apply fmap_Some_1 in E as (s & Er & E). apply pair_equal_spec in E as [E1 E2].
  assert (owns (mkBlock 144 4 100) 152) as Ho by (by apply (bool_decide_unpack _); vm_compute).
  exists s, (mkBlock 144 4 100), 152. split; [exact Er|]. split; [exact (eq_sym E1)|]. split; [exact Ho|].
  destruct (arena_blocks_disjoint (2 ^ 20) ops s) as [H _]; [unfold nodeSize; lia| |exact Er|].
  - unfold ops. repeat constructor; simpl; lia.
  - destruct (H (mkBlock 144 4 100) 152) as (_ & _ & ->); [by eapply list_elem_of_lookup_2|exact Ho|]. by rewrite <- E2.
Defined.
