(* ===== verification/HamtHeap.v ===== *)
(** The trie of hamt.go in the arena: nodes with reference counts, the arrays and
    the leaf data they own, path copying, and the release of a version.

    A block is its contents with their length; the header and the size class of
    a block are Arena.v's.  [retiredBlocks] are the calls of RetireBlock in order;
    a retired block stays in memory until it is reclaimed. *)
From S2P Require Import Prelude Bytes Dots Hamt HamtMap.

(** ** Memory *)

(** hamtLeaf, as it lies in an entries array. *)
Record offLeaf := mkOff { offHash : Z; entityPtr : Z; entriesPtr : Z }.

Inductive memBlock :=
| BNode (refCount bm childrenPtr leavesPtr : Z)
| BChildren (children : list Z)
| BEntries (leaves : list offLeaf)
| BString (s : string)
| BCRDT (es : list CRDTEntry)
| BHAMT (rootPtr sd cnt : Z).

Definition is_node (b : memBlock) : bool := match b with BNode _ _ _ _ => true | _ => false end.

(** The words of a block, all of them 8 bytes. *)
Definition block_words (b : memBlock) : nat :=
  match b with
  | BNode _ _ _ _ => 9
  | BChildren cs => length cs
  | BEntries ls => 1 + 4 * length ls
  | BString s => (String.length s + 7) / 8
  | BCRDT es => 15 * length es
  | BHAMT _ _ _ => 4
  end.

Definition block_bytes (b : memBlock) : Z := 8 * Z.of_nat (block_words b).

(** ** Results

    An operation ends with a value or stops: the arena is exhausted and panics; a
    payload is over the largest size class, for which the arena promises nothing,
    so that the model ends there; or memory is read that holds something else. *)
Inductive stop := Exhausted | Oversized (size : Z) | Wild.

Inductive res (A : Type) := Done (a : A) | Stop (s : stop).
Arguments Done {A} a.
Arguments Stop {A} s.

#[global] Instance res_ret : MRet res := @Done.
#[global] Instance res_bind : MBind res := λ A B f r, match r with Done a => f a | Stop s => Stop s end.

(** A read. *)
Definition found {A} (o : option A) : res A := match o with Some a => Done a | None => Stop Wild end.

(** 512 KiB less the header: the largest payload with a size class of its own. *)
Definition maxPayload : Z := 2 ^ 19 - 8.

(** What the arena does for its clients: it hands out a node, or a payload of
    some size, or is exhausted ([None]); it takes a node or a payload back.
    [arena_ok U]: the addresses in [U] are handed out, nodes where [true].  A new
    one is not null and not among them, for payloads that have a size class.
    HamtHeapThms.hamt_arena: the arena of Arena.v does this. *)
Class ArenaAlloc := {
  arena : Type;
  arena_node : arena → option (Z * arena);
  arena_var : Z → arena → option (Z * arena);
  arena_free : bool → Z → arena → arena;
  arena_ok : gmap Z bool → arena → Prop;
  arena_node_ok U a x a' : arena_ok U a → arena_node a = Some (x, a') →
    U !! x = None ∧ x ≠ 0 ∧ arena_ok (<[x := true]> U) a';
  arena_var_ok U a n x a' : arena_ok U a → 0 < n <= maxPayload → arena_var n a = Some (x, a') →
    U !! x = None ∧ x ≠ 0 ∧ arena_ok (<[x := false]> U) a';
  arena_free_ok U a b x : arena_ok U a → U !! x = Some b → arena_ok (delete x U) (arena_free b x a);
}.

(** Memory: the blocks by address, what has been retired, and the arena. *)
Record Mem `{AA : ArenaAlloc} := mkMem { blocks : gmap Z memBlock; retiredBlocks : list (Z * bool); m_arena : arena }.
Arguments mkMem {AA} _ _ _.
Arguments blocks {AA} _.
Arguments retiredBlocks {AA} _.
Arguments m_arena {AA} _.

Section Heap.
Context `{AA : ArenaAlloc} `{MH : MapHash}.

Definition set_blocks (bs : gmap Z memBlock) (m : Mem) : Mem := mkMem bs (retiredBlocks m) (m_arena m).

(** AllocNode and allocVar, and the stores that fill the block. *)
Definition alloc (b : memBlock) (m : Mem) : res (Z * Mem) :=
  if negb (is_node b) && (maxPayload <? block_bytes b) then Stop (Oversized (block_bytes b))
  else match (if is_node b then arena_node (m_arena m) else arena_var (block_bytes b) (m_arena m)) with
       | Some (x, a) => Done (x, mkMem (<[x := b]> (blocks m)) (retiredBlocks m) a)
       | None => Stop Exhausted
       end.

Definition RetireBlock (x : Z) (isNode : bool) (m : Mem) : Mem :=
  mkMem (blocks m) (retiredBlocks m ++ [(x, isNode)]) (m_arena m).

(** ** Leaves *)

Definition allocString (s : string) (m : Mem) : res (Z * Mem) := if decide (s = ""%string) then Done (0, m) else alloc (BString s) m.

Definition allocCRDTEntries (es : list CRDTEntry) (m : Mem) : res (Z * Mem) := if decide (es = []) then Done (0, m) else alloc (BCRDT es) m.

Definition makeLeaf (key : string) (hash : Z) (entries : list CRDTEntry) (m : Mem) : res (offLeaf * Mem) :=
  '(ep, m1) ← allocString key m;
  '(cp, m2) ← allocCRDTEntries entries m1;
  Done (mkOff hash ep cp, m2).

(** entityID() and crdtEntries(); [None] is a read of memory that holds something
    else. *)
Definition leaf_entityID (bs : gmap Z memBlock) (l : offLeaf) : option string :=
  if decide (entityPtr l = 0) then Some ""%string else match bs !! entityPtr l with Some (BString s) => Some s | _ => None end.

Definition leaf_crdtEntries (bs : gmap Z memBlock) (l : offLeaf) : option (list CRDTEntry) :=
  if decide (entriesPtr l = 0) then Some [] else match bs !! entriesPtr l with Some (BCRDT es) => Some es | _ => None end.

Definition copyLeaf (src : offLeaf) (m : Mem) : res (offLeaf * Mem) :=
  s ← found (leaf_entityID (blocks m) src);
  '(ep, m1) ← allocString s m;
  es ← found (leaf_crdtEntries (blocks m1) src);
  '(cp, m2) ← allocCRDTEntries es m1;
  Done (mkOff (offHash src) ep cp, m2).

Fixpoint copy_leaves (ls : list offLeaf) (m : Mem) : res (list offLeaf * Mem) :=
  match ls with
  | [] => Done ([], m)
  | l :: ls' =>
      '(l', m1) ← copyLeaf l m;
      '(r, m2) ← copy_leaves ls' m1;
      Done (l' :: r, m2)
  end.

(** The index of the leaf of [key]. *)
Fixpoint find_key (bs : gmap Z memBlock) (key : string) (ls : list offLeaf) : option (option nat) :=
  match ls with
  | [] => Some None
  | l :: ls' =>
      s ← leaf_entityID bs l;
      if String.eqb s key then Some (Some O)
      else match find_key bs key ls' with Some r => Some (S <$> r) | None => None end
  end.

(** ** Nodes *)

Definition read_node (p : Z) (bs : gmap Z memBlock) : option (Z * Z * Z) :=
  match bs !! p with Some (BNode _ bm cp ep) => Some (bm, cp, ep) | _ => None end.

Definition allocChildrenArray (cs : list Z) (m : Mem) : res (Z * Mem) := if decide (cs = []) then Done (0, m) else alloc (BChildren cs) m.

Definition allocEntriesArray (ls : list offLeaf) (m : Mem) : res (Z * Mem) := if decide (ls = []) then Done (0, m) else alloc (BEntries ls) m.

Definition getEntries (ep : Z) (bs : gmap Z memBlock) : option (list offLeaf) :=
  if decide (ep = 0) then Some [] else match bs !! ep with Some (BEntries ls) => Some ls | _ => None end.

Definition getChildren (cp : Z) (n : nat) (bs : gmap Z memBlock) : option (list Z) :=
  if decide (cp = 0 ∨ n = O) then Some []
  else match bs !! cp with Some (BChildren cs) => if decide (n <= length cs)%nat then Some (take n cs) else None | _ => None end.

(** The stores into a node that was just allocated. *)
Definition store_node (x bm cp ep : Z) (m : Mem) : option Mem :=
  match blocks m !! x with
  | Some (BNode rc _ _ _) => Some (set_blocks (<[x := BNode rc bm cp ep]> (blocks m)) m)
  | _ => None
  end.

Definition alloc_node (m : Mem) : res (Z * Mem) := alloc (BNode 1 0 0 0) m.

(** A node with the leaves [ls]. *)
Definition leaf_node (ls : list offLeaf) (m : Mem) : res (Z * Mem) :=
  '(x, m1) ← alloc_node m;
  '(ep, m2) ← allocEntriesArray ls m1;
  m3 ← found (store_node x 0 0 ep m2);
  Done (x, m3).

(** A node with one new leaf. *)
Definition new_leaf_node (key : string) (hash : Z) (entries : list CRDTEntry) (m : Mem) : res (Z * Mem) :=
  '(l, m1) ← makeLeaf key hash entries m;
  leaf_node [l] m1.

(** The children of the new node [x], the last thing it gets. *)
Definition finish_node (x bm : Z) (cs : list Z) (m : Mem) : res (Z * Mem) :=
  '(cp, m1) ← allocChildrenArray cs m;
  m2 ← found (store_node x bm cp 0 m1);
  Done (x, m2).

(** ** Reference counts *)

Definition IncRef (p : Z) (m : Mem) : option Mem :=
  if decide (p = 0) then Some m
  else match blocks m !! p with
       | Some (BNode rc bm cp ep) => Some (set_blocks (<[p := BNode (i32 (rc + 1)) bm cp ep]> (blocks m)) m)
       | _ => None
       end.

Fixpoint inc_all (cs : list Z) (m : Mem) : option Mem :=
  match cs with [] => Some m | c :: cs' => m1 ← IncRef c m; inc_all cs' m1 end.

Definition retire_nonnull (x : Z) (m : Mem) : Mem := if decide (x = 0) then m else RetireBlock x false m.

Fixpoint retire_leaves (ls : list offLeaf) (m : Mem) : Mem :=
  match ls with [] => m | l :: ls' => retire_leaves ls' (retire_nonnull (entriesPtr l) (retire_nonnull (entityPtr l) m)) end.

(** DecRef's loop; the top of the stack is first.  The children go onto it in
    order, so the last one is on top. *)
Fixpoint dec_loop (fuel : nat) (stack : list Z) (m : Mem) : option Mem :=
  match fuel with
  | O => None
  | S fuel' =>
      match stack with
      | [] => Some m
      | current :: stack' =>
          if decide (current = 0) then dec_loop fuel' stack' m
          else
            match blocks m !! current with
            | Some (BNode rc bm cp ep) =>
                let rc' := i32 (rc - 1) in
                let m1 := set_blocks (<[current := BNode rc' bm cp ep]> (blocks m)) m in
                if decide (rc' = 0) then
                  kids ← getChildren cp (popcount bm) (blocks m1);
                  leaves ← getEntries ep (blocks m1);
                  dec_loop fuel' (rev kids ++ stack')
                    (RetireBlock current true (retire_nonnull ep (retire_nonnull cp (retire_leaves leaves m1))))
                else dec_loop fuel' stack' m1
            | _ => None
            end
      end
  end.

Definition words_used (bs : gmap Z memBlock) : nat := list_sum (map (λ kv, block_words kv.2) (map_to_list bs)).

(** Every turn of the loop gives up a reference, and each is a word of memory. *)
Definition DecRef (p : Z) (m : Mem) : option Mem := dec_loop (S (words_used (blocks m))) [p] m.

(** ** get *)

Fixpoint heap_get (fuel : nat) (p : Z) (key : string) (hash : Z) (depth : nat) (bs : gmap Z memBlock) : option (list CRDTEntry) :=
  match fuel with
  | O => None
  | S fuel' =>
      if decide (p = 0) then Some []
      else
        '(bm, cp, ep) ← read_node p bs;
        leaves ← getEntries ep bs;
        match leaves with
        | _ :: _ =>
            i ← find_key bs key leaves;
            match (i : option nat) with
            | Some i => l ← leaves !! i; leaf_crdtEntries bs l
            | None => Some []
            end
        | [] =>
            if (hamtMaxDepth <=? depth)%nat then Some []
            else
              let idx := segment hash depth in
              if Z.land bm (bit_of idx) =? 0 then Some []
              else
                cs ← getChildren cp (popcount bm) bs;
                c ← cs !! pos_of bm idx;
                heap_get fuel' c key hash (S depth) bs
        end
  end.

(** ** set *)

Definition heap_updateLeafEntry (oldLeaves : list offLeaf) (idx : nat) (key : string) (hash : Z) (entries : list CRDTEntry) (m : Mem) : res (Z * Mem) :=
  match entries with
  | [] =>
      if (length oldLeaves =? 1)%nat then Done (0, m)
      else
        '(newLeaves, m1) ← copy_leaves (take idx oldLeaves ++ drop (S idx) oldLeaves) m;
        leaf_node newLeaves m1
  | _ :: _ =>
      '(before, m1) ← copy_leaves (take idx oldLeaves) m;
      '(l, m2) ← makeLeaf key hash entries m1;
      '(after, m3) ← copy_leaves (drop (S idx) oldLeaves) m2;
      leaf_node (before ++ l :: after) m3
  end.

Definition heap_appendToCollision (p : Z) (oldLeaves : list offLeaf) (key : string) (hash : Z) (entries : list CRDTEntry) (m : Mem) : res (Z * Mem) :=
  match entries with
  | [] => Done (p, m)
  | _ :: _ =>
      '(before, m1) ← copy_leaves oldLeaves m;
      '(l, m2) ← makeLeaf key hash entries m1;
      leaf_node (before ++ [l]) m2
  end.

(** [rem] is [hamtMaxDepth - depth]. *)
Fixpoint heap_setCollision (rem : nat) (p : Z) (oldHash : Z) (newKey : string) (newHash : Z) (newEntries : list CRDTEntry) (m : Mem) : res (Z * Mem) :=
  match rem with
  | O =>
      '(_, _, ep) ← found (read_node p (blocks m));
      oldLeaves ← found (getEntries ep (blocks m));
      heap_appendToCollision p oldLeaves newKey newHash newEntries m
  | S rem' =>
      let depth := (hamtMaxDepth - rem)%nat in
      let idxOld := segment oldHash depth in
      let idxNew := segment newHash depth in
      '(x, m1) ← alloc_node m;
      if (idxOld =? idxNew)%nat then
        '(c, m2) ← heap_setCollision rem' p oldHash newKey newHash newEntries m1;
        finish_node x (bit_of idxOld) [c] m2
      else
        '(c, m2) ← new_leaf_node newKey newHash newEntries m1;
        m3 ← found (IncRef p m2);
        finish_node x (Z.lor (bit_of idxOld) (bit_of idxNew)) (if (idxOld <? idxNew)%nat then [p; c] else [c; p]) m3
  end.

(** The rest of set at an inner node once the child's set returned
    [newChildPtr]. *)
Definition heap_replaceChild (p bm : Z) (idx : nat) (oldChildren : list Z) (childPtr newChildPtr : Z) (m : Mem) : res (Z * Mem) :=
  let pos := pos_of bm idx in
  let others := take pos oldChildren ++ drop (S pos) oldChildren in
  if decide (newChildPtr = childPtr) then Done (p, m)
  else
    '(x, m2) ← alloc_node m;
    m3 ← found (inc_all others m2);
    if decide (newChildPtr = 0) then
      if Z.ldiff bm (bit_of idx) =? 0 then Done (0, m3)
      else finish_node x (Z.ldiff bm (bit_of idx)) others m3
    else finish_node x bm (<[pos := newChildPtr]> oldChildren) m3.

Fixpoint heap_set (fuel : nat) (p : Z) (key : string) (hash : Z) (entries : list CRDTEntry) (depth : nat) (m : Mem) : res (Z * Mem) :=
  match fuel with
  | O => Stop Wild
  | S fuel' =>
      if decide (p = 0) then Done (0, m)
      else
        '(bm, cp, ep) ← found (read_node p (blocks m));
        leaves ← found (getEntries ep (blocks m));
        match leaves with
        | l0 :: _ =>
            i ← found (find_key (blocks m) key leaves);
            match (i : option nat) with
            | Some i => heap_updateLeafEntry leaves i key hash entries m
            | None =>
                match entries with
                | [] => Done (p, m)
                | _ :: _ => heap_setCollision (hamtMaxDepth - depth) p (offHash l0) key hash entries m
                end
            end
        | [] =>
            let idx := segment hash depth in
            let pos := pos_of bm idx in
            oldChildren ← found (getChildren cp (popcount bm) (blocks m));
            if Z.land bm (bit_of idx) =? 0 then
              match entries with
              | [] => Done (p, m)
              | _ :: _ =>
                  '(c, m1) ← new_leaf_node key hash entries m;
                  '(x, m2) ← alloc_node m1;
                  m3 ← found (inc_all oldChildren m2);
                  finish_node x (Z.lor bm (bit_of idx)) (take pos oldChildren ++ c :: drop pos oldChildren) m3
              end
            else
              childPtr ← found (oldChildren !! pos);
              '(newChildPtr, m1) ← heap_set fuel' childPtr key hash entries (S depth) m;
              heap_replaceChild p bm idx oldChildren childPtr newChildPtr m1
        end
  end.

(** ** Versions: the wrapper blocks *)

(** The depth of a trie is at most hamtMaxDepth. *)
Definition trie_fuel : nat := S hamtMaxDepth.

Definition heap_NewHAMT (sd : Z) (m : Mem) : res (Z * Mem) :=
  '(w, m1) ← alloc (BHAMT 0 0 0) m;
  '(r, m2) ← alloc_node m1;
  Done (w, set_blocks (<[w := BHAMT r sd 0]> (blocks m2)) m2).

Definition read_HAMT (w : Z) (bs : gmap Z memBlock) : option (Z * Z * Z) :=
  match bs !! w with Some (BHAMT r sd cnt) => Some (r, sd, cnt) | _ => None end.

Definition heap_HAMT_Get (w : Z) (key : string) (bs : gmap Z memBlock) : option (list CRDTEntry) :=
  '(r, sd, _) ← read_HAMT w bs;
  heap_get trie_fuel r key (seededHash sd key) 0 bs.

Definition heap_HAMT_Set (w : Z) (key : string) (entries : list CRDTEntry) (m : Mem) : res (Z * Mem) :=
  '(r, sd, cnt) ← found (read_HAMT w (blocks m));
  existing ← found (heap_get trie_fuel r key (seededHash sd key) 0 (blocks m));
  '(newRoot, m1) ← heap_set trie_fuel r key (seededHash sd key) entries 0 m;
  let delta := match existing, entries with [], _ :: _ => 1 | _ :: _, [] => -1 | _, _ => 0 end in
  alloc (BHAMT newRoot sd (cnt + delta)) m1.

Definition heap_HAMT_Delete (w : Z) (key : string) (m : Mem) : res (Z * Mem) :=
  '(r, sd, cnt) ← found (read_HAMT w (blocks m));
  existing ← found (heap_get trie_fuel r key (seededHash sd key) 0 (blocks m));
  match existing with
  | [] => Done (w, m)
  | _ :: _ =>
      '(newRoot, m1) ← heap_set trie_fuel r key (seededHash sd key) [] 0 m;
      alloc (BHAMT newRoot sd (cnt - 1)) m1
  end.

(** What freeRetiredList does to a wrapper: DecRef of the root, then
    freeHAMTWrapper. *)
Definition free_version (w : Z) (m : Mem) : option Mem :=
  '(r, _, _) ← read_HAMT w (blocks m);
  m1 ← DecRef r m;
  Some (RetireBlock w false (set_blocks (<[w := BHAMT 0 0 0]> (blocks m1)) m1)).

(** What freeRetiredList does to a retired block: it goes back to the arena. *)
Definition reclaim_block (k : nat) (m : Mem) : Mem :=
  match retiredBlocks m !! k with
  | Some (x, isNode) => mkMem (delete x (blocks m)) (delete k (retiredBlocks m)) (arena_free isNode x (m_arena m))
  | None => m
  end.

(** ** A system of versions *)

Record Store := mkStore { st_mem : Mem; st_versions : list Z }.

(** A new version of version [i], the release of version [i], and the reclamation
    of the [k]-th retired block. *)
Inductive storeOp := OpSet (i : nat) (key : string) (es : list CRDTEntry) | OpDelete (i : nat) (key : string) | OpRelease (i : nat) | OpReclaim (k : nat).

Definition store_step (o : storeOp) (s : Store) : res Store :=
  match o with
  | OpSet i key es =>
      w ← found (st_versions s !! i);
      '(w', m) ← heap_HAMT_Set w key es (st_mem s);
      Done (mkStore m (st_versions s ++ [w']))
  | OpDelete i key =>
      w ← found (st_versions s !! i);
      '(w', m) ← heap_HAMT_Delete w key (st_mem s);
      Done (mkStore m (if decide (w' = w) then st_versions s else st_versions s ++ [w']))
  | OpRelease i =>
      w ← found (st_versions s !! i);
      m ← found (free_version w (st_mem s));
      Done (mkStore m (delete i (st_versions s)))
  | OpReclaim k => Done (mkStore (reclaim_block k (st_mem s)) (st_versions s))
  end.

Fixpoint store_run (ops : list storeOp) (s : Store) : res Store :=
  match ops with [] => Done s | o :: ops' => s' ← store_step o s; store_run ops' s' end.

(** One empty version in a new arena. *)
Definition new_store (sd : Z) (a : arena) : res Store :=
  '(w, m) ← heap_NewHAMT sd (mkMem ∅ [] a);
  Done (mkStore m [w]).

Definition run_store (sd : Z) (a : arena) (ops : list storeOp) : res Store := s ← new_store sd a; store_run ops s.

End Heap.
