(* ===== verification/HamtHeapThms.v ===== *)
(** The trie in the arena implements the trie of Hamt.v: every version that is not
    released reads as the value it stands for, a reference count is the number of
    references, and what no version uses any more is retired, once. *)
From S2P Require Import Prelude Bytes Dots Arena Hamt HamtMap HamtHeap.

Lemma occ_perm i (l k : list Z) : l ≡ₚ k → occ i l = occ i k.
Proof. induction 1; simpl; lia. Qed.

Definition present {A} (o : option A) : nat := match o with Some _ => 1 | None => 0 end.

(** ** Ghost state

    A live node with the tree it stands for, its arrays, and what is in them. *)

Record gnode := mkGnode { g_tree : HamtNode; g_cp : Z; g_ep : Z; g_kids : list Z; g_leaves : list offLeaf }.

Definition tree_bm (n : HamtNode) : Z := match n with mkNode bm _ _ => bm end.
Definition tree_cs (n : HamtNode) : list HamtNode := match n with mkNode _ cs _ => cs end.

Definition nonnull (l : list Z) : list Z := filter (λ x, x ≠ 0) l.
Definition leaf_owned (l : offLeaf) : list Z := nonnull [entityPtr l; entriesPtr l].
Definition leaves_owned (ls : list offLeaf) : list Z := concat (map leaf_owned ls).
Definition owned (g : gnode) : list Z := nonnull [g_cp g; g_ep g] ++ leaves_owned (g_leaves g).

Definition gather (f : gnode → list Z) (G : gmap Z gnode) : list Z := concat (map (λ kv, f kv.2) (map_to_list G)).

Lemma gather_insert f G p g : G !! p = None → gather f (<[p := g]> G) ≡ₚ f g ++ gather f G.
Proof. intros H. unfold gather. by rewrite (map_to_list_insert _ _ _ H). Qed.

Lemma gather_delete f G p g : G !! p = Some g → gather f G ≡ₚ f g ++ gather f (delete p G).
Proof. intros H. rewrite <- (gather_insert f (delete p G) p g) by apply lookup_delete_eq. by rewrite insert_delete_id. Qed.

Lemma gather_part f G p g x : G !! p = Some g → (occ x (f g) <= occ x (gather f G))%nat.
Proof. intros H. rewrite (occ_perm _ _ _ (gather_delete f G p g H)), occ_app. lia. Qed.

(** ** Stops *)

(** An arena that refuses nothing within the size classes. *)
Definition generous `{AA : ArenaAlloc} : Prop :=
  ∀ U a, arena_ok U a → is_Some (arena_node a) ∧ ∀ n, 0 < n <= maxPayload → is_Some (arena_var n a).

(** The arena is exhausted or a payload is over the largest class, and never
    memory that holds something else. *)
Definition stops `{AA : ArenaAlloc} {A} (r : res A) : Prop :=
  ∃ s, r = Stop s ∧ match s with Exhausted => ¬ generous | Oversized n => maxPayload < n | Wild => False end.

Lemma stops_bind `{AA : ArenaAlloc} {A B} (r : res A) (f : A → res B) : stops r → stops (r ≫= f).
Proof. intros (s & -> & Hs). by exists s. Qed.

Ltac stopped := left; apply stops_bind; assumption.

(** ** The invariant *)

Section Invariant.
Context `{AA : ArenaAlloc}.

Definition leaf_at (bs : gmap Z memBlock) (l : offLeaf) (v : hamtLeaf) : Prop :=
  offHash l = leafHash v ∧ leaf_entityID bs l = Some (entityID v) ∧ leaf_crdtEntries bs l = Some (crdtEntries v).

Record g_ok (bs : gmap Z memBlock) (G : gmap Z gnode) (g : gnode) : Prop := {
  go_len : length (tree_cs (g_tree g)) = popcount (tree_bm (g_tree g));
  go_kids : Forall2 (λ k c, ∃ gk, G !! k = Some gk ∧ g_tree gk = c) (g_kids g) (tree_cs (g_tree g));
  go_leaves : Forall2 (leaf_at bs) (g_leaves g) (node_entries (g_tree g));
  go_children : if decide (g_kids g = []) then g_cp g = 0 else g_cp g ≠ 0 ∧ bs !! g_cp g = Some (BChildren (g_kids g));
  go_entries : if decide (g_leaves g = []) then g_ep g = 0 else g_ep g ≠ 0 ∧ bs !! g_ep g = Some (BEntries (g_leaves g));
}.

(** The arena knows the blocks in memory, and what is retired is retired as what
    it is. *)
Definition kinds (m : Mem) : gmap Z bool := is_node <$> blocks m.

Definition accounted (m : Mem) : Prop := arena_ok (kinds m) (m_arena m) ∧ ∀ x b, (x, b) ∈ retiredBlocks m → kinds m !! x = Some b.

Lemma accounted_eq m m' : kinds m' = kinds m → retiredBlocks m' = retiredBlocks m → m_arena m' = m_arena m → accounted m → accounted m'.
Proof. unfold accounted. by intros -> -> ->. Qed.

Lemma kinds_set m x b c : blocks m !! x = Some b → is_node b = is_node c → kinds (set_blocks (<[x := c]> (blocks m)) m) = kinds m.
Proof.
  intros Hx E. unfold kinds. cbn [set_blocks blocks]. rewrite fmap_insert. apply insert_id. by rewrite lookup_fmap, Hx, <- E.
Qed.

Lemma accounted_set m x b c : blocks m !! x = Some b → is_node b = is_node c → accounted m → accounted (set_blocks (<[x := c]> (blocks m)) m).
Proof. intros Hx E. apply accounted_eq; [by eapply kinds_set|done|done]. Qed.

Lemma accounted_retire m x b : kinds m !! x = Some b → accounted m → accounted (RetireBlock x b m).
Proof. intros Hx [H1 H2]. split; [exact H1|]. intros y c [Hy|Hy]%elem_of_app; [by apply H2|]. apply list_elem_of_singleton in Hy. by simplify_eq. Qed.

(** [R]: the references from outside; [F]: the blocks under construction and the
    wrappers. *)
Definition count_of (G : gmap Z gnode) (R : list Z) (p : Z) : nat := (occ p (gather g_kids G) + occ p R)%nat.

Record hinv (m : Mem) (G : gmap Z gnode) (R F : list Z) : Prop := {
  h_null : blocks m !! 0 = None;
  h_node : ∀ p g, G !! p = Some g → g_ok (blocks m) G g ∧ (0 < count_of G R p)%nat ∧
    blocks m !! p = Some (BNode (i32 (Z.of_nat (count_of G R p))) (tree_bm (g_tree g)) (g_cp g) (g_ep g));
  h_closed : ∀ x, (0 < count_of G R x)%nat → is_Some (G !! x);
  h_own : ∀ x, (occ x (gather owned G) + present (G !! x) + occ x F + occ x (retiredBlocks m).*1 = present (blocks m !! x))%nat;
  h_arena : accounted m;
}.

Lemma hinv_occ m G R R' F F' : (∀ x, occ x R = occ x R') → (∀ x, occ x F = occ x F') → hinv m G R F → hinv m G R' F'.
Proof.
  intros HR HF [H1 H2 H3 H4 H5]. assert (∀ p, count_of G R p = count_of G R' p) as Hc by (intros p; unfold count_of; by rewrite HR).
  split; [done| | | |done].
  - intros p g Hp. rewrite <- Hc. by apply H2.
  - intros x. rewrite <- Hc. apply H3.
  - intros x. rewrite <- HF. apply H4.
Qed.

(** What a leaf or a node says depends on the blocks it owns. *)
Lemma leaf_at_agree bs bs' l v : (∀ x, x ∈ leaf_owned l → bs' !! x = bs !! x) → leaf_at bs l v → leaf_at bs' l v.
Proof.
  unfold leaf_at, leaf_entityID, leaf_crdtEntries, leaf_owned, nonnull. intros H (H1 & H2 & H3). split; [done|]. split.
  - destruct (decide (entityPtr l = 0)); [done|]. rewrite H; [done|]. apply list_elem_of_filter. split; [done|]. by left.
  - destruct (decide (entriesPtr l = 0)); [done|]. rewrite H; [done|]. apply list_elem_of_filter. split; [done|]. by right; left.
Qed.

Lemma leaves_at_agree bs bs' ls vs : (∀ x, x ∈ leaves_owned ls → bs' !! x = bs !! x) → Forall2 (leaf_at bs) ls vs → Forall2 (leaf_at bs') ls vs.
Proof.
  intros H. induction 1 as [|l v ls vs Hl Hls IH]; constructor.
  - eapply leaf_at_agree; [|exact Hl]. intros x Hx. apply H. unfold leaves_owned. simpl. apply elem_of_app. by left.
  - apply IH. intros x Hx. apply H. unfold leaves_owned. simpl. apply elem_of_app. by right.
Qed.

Lemma g_ok_agree bs bs' G G' g : (∀ x, x ∈ owned g → bs' !! x = bs !! x) →
  (∀ k gk, k ∈ g_kids g → G !! k = Some gk → G' !! k = Some gk) → g_ok bs G g → g_ok bs' G' g.
Proof.
  intros H HG [H1 H2 H3 H4 H5]. split; [done| | | |].
  - apply Forall2_same_length_lookup in H2 as [Hl H2]. apply Forall2_same_length_lookup. split; [done|].
    intros i k c Hk Hc. destruct (H2 i k c Hk Hc) as (gk & Hgk & E). exists gk. split; [|done]. apply HG; [|done]. by eapply list_elem_of_lookup_2.
  - eapply leaves_at_agree; [|exact H3]. intros x Hx. apply H. unfold owned. apply elem_of_app. by right.
  - destruct (decide (g_kids g = [])); [done|]. destruct H4 as [H4 H4']. split; [done|]. rewrite H; [done|]. unfold owned, nonnull.
    apply elem_of_app. left. apply list_elem_of_filter. split; [done|]. by left.
  - destruct (decide (g_leaves g = [])); [done|]. destruct H5 as [H5 H5']. split; [done|]. rewrite H; [done|]. unfold owned, nonnull.
    apply elem_of_app. left. apply list_elem_of_filter. split; [done|]. by right; left.
Qed.

Section Moves.
Context (m : Mem) (G : gmap Z gnode) (R F : list Z) (H : hinv m G R F).

Lemma owned_present p g x : G !! p = Some g → x ∈ owned g → is_Some (blocks m !! x) ∧ G !! x = None ∧ x ∉ F.
Proof.
  intros Hp Hx. apply occ_elem in Hx. pose proof (gather_part owned G p g x Hp). pose proof (h_own _ _ _ _ H x) as Ho.
  destruct (blocks m !! x) as [b|]; [|simpl in Ho; lia]. split; [done|]. destruct (G !! x); [simpl in Ho; lia|]. split; [done|]. rewrite occ_elem. simpl in Ho. lia.
Qed.

Lemma floating_present x : x ∈ F → is_Some (blocks m !! x) ∧ G !! x = None ∧ x ≠ 0.
Proof.
  intros Hx. apply occ_elem in Hx. pose proof (h_own _ _ _ _ H x) as Ho.
  destruct (blocks m !! x) as [b|] eqn:E; [|simpl in Ho; lia]. split; [done|]. destruct (G !! x); [simpl in Ho; lia|]. split; [done|].
  intros ->. by rewrite (h_null _ _ _ _ H) in E.
Qed.

Lemma node_ptr p g : G !! p = Some g → p ≠ 0.
Proof. intros Hp ->. destruct (h_node _ _ _ _ H 0 g Hp) as (_ & _ & E). by rewrite (h_null _ _ _ _ H) in E. Qed.

Lemma kid_node p g i k : G !! p = Some g → g_kids g !! i = Some k → ∃ gk, G !! k = Some gk ∧ tree_cs (g_tree g) !! i = Some (g_tree gk).
Proof.
  intros Hp Hk. destruct (h_node _ _ _ _ H p g Hp) as ([_ Hkids _ _ _] & _). destruct (Forall2_lookup_l _ _ _ _ _ Hkids Hk) as (c & Hc & gk & Hgk & <-).
  by exists gk.
Qed.

(** Changes outside the live nodes and what they own. *)
Lemma hinv_change m' F' :
  blocks m' !! 0 = None → (∀ x, is_Some (blocks m !! x) → x ∉ F → x ∉ (retiredBlocks m).*1 → blocks m' !! x = blocks m !! x) →
  (∀ x, (occ x F' + occ x (retiredBlocks m').*1 + present (blocks m !! x) = present (blocks m' !! x) + occ x F + occ x (retiredBlocks m).*1)%nat) →
  accounted m' → hinv m' G R F'.
Proof.
  intros H0 Hsame Hown Hacc. destruct H as [H1 H2 H3 H4 _]. split; [done| |done| |done].
  - intros p g Hp. destruct (H2 p g Hp) as (Hok & Hc & Hb). split_and!; [|done|].
    + eapply g_ok_agree; [|done|exact Hok]. intros x Hx. apply occ_elem in Hx. pose proof (gather_part owned G p g x Hp). specialize (H4 x).
      destruct (blocks m !! x) as [b|] eqn:E; simpl in H4; [|lia]. rewrite <- E. apply Hsame; [by eexists|rewrite occ_elem; lia|rewrite occ_elem; lia].
    + rewrite Hsame; [done|by eexists| |]; rewrite occ_elem; specialize (H4 p); rewrite Hp, Hb in H4; simpl in H4; lia.
  - intros x. specialize (H4 x). specialize (Hown x). lia.
Qed.

End Moves.

(** The blocks of [F] are left alone. *)
Definition keeps (F : list Z) (m m' : Mem) : Prop := ∀ x, x ∈ F → blocks m' !! x = blocks m !! x.

Lemma keeps_trans F F' m1 m2 m3 : keeps F m1 m2 → keeps F' m2 m3 → (∀ x, x ∈ F → x ∈ F') → keeps F m1 m3.
Proof. intros H1 H2 HF x Hx. by rewrite H2, H1 by auto. Qed.

Section Steps.

(** What the arena gives is new. *)
Lemma alloc_fresh b m x m' : accounted m → (is_node b = false → 0 < block_words b)%nat → alloc b m = Done (x, m') →
  blocks m !! x = None ∧ x ≠ 0 ∧ blocks m' = <[x := b]> (blocks m) ∧ retiredBlocks m' = retiredBlocks m ∧ accounted m'.
Proof.
  intros [H1 H2] Hw E. unfold alloc in E. case_match eqn:Eo; [done|]. case_match eqn:Ea; [|done]. case_match. simplify_eq. cbn [blocks retiredBlocks].
  assert (kinds m !! x = None ∧ x ≠ 0 ∧ arena_ok (<[x := is_node b]> (kinds m)) a) as (Hx & Hx0 & Hok).
  { destruct (is_node b) eqn:Eb; [by eapply arena_node_ok|]. eapply arena_var_ok; [exact H1| |exact Ea]. apply Z.ltb_ge in Eo.
    specialize (Hw eq_refl). unfold block_bytes in *. lia. }
  assert (kinds (mkMem (<[x := b]> (blocks m)) (retiredBlocks m) a) = <[x := is_node b]> (kinds m)) as Ek by apply fmap_insert.
  unfold kinds in Hx. rewrite lookup_fmap, fmap_None in Hx. split_and!; [done|done|done|done|]. unfold accounted. rewrite Ek. split; [exact Hok|].
  intros y c Hy. cbn [retiredBlocks] in Hy. specialize (H2 y c Hy). rewrite lookup_insert_ne; [done|]. intros <-. unfold kinds in H2. by rewrite lookup_fmap, Hx in H2.
Qed.

Lemma alloc_stops b m G R F : hinv m G R F → (is_node b = false → 0 < block_words b)%nat → stops (alloc b m) ∨ ∃ x m', alloc b m = Done (x, m').
Proof.
  intros H Hw. destruct (h_arena _ _ _ _ H) as [Hok _]. unfold alloc. case_match eqn:Eo; [left; eexists; split; [done|]; by apply andb_true_iff in Eo as [_ ?%Z.ltb_lt]|].
  destruct (if is_node b then _ else _) as [[x a]|] eqn:Ea; [right; by eexists _, _|left]. exists Exhausted. split; [done|]. intros Hg. specialize (Hg _ _ Hok).
  destruct (is_node b); [by destruct Hg as [[? ?] _]; congruence|]. specialize (Hw eq_refl). cbn [negb andb] in Eo. apply Z.ltb_ge in Eo.
  destruct (proj2 Hg (block_bytes b)) as [? ?]; [unfold block_bytes in *; lia|congruence].
Qed.

Lemma alloc_node_stops m G R F : hinv m G R F → stops (alloc_node m) ∨ ∃ x m', alloc_node m = Done (x, m').
Proof. intros H. by eapply alloc_stops. Qed.

(** A new block is the caller's. *)
Lemma hinv_alloc m G R F b x m' : hinv m G R F → (is_node b = false → 0 < block_words b)%nat → alloc b m = Done (x, m') →
  hinv m' G R (x :: F) ∧ keeps F m m' ∧ blocks m' !! x = Some b ∧ blocks m !! x = None ∧ x ≠ 0.
Proof.
  intros H Hw E. destruct (alloc_fresh b m x m' (h_arena _ _ _ _ H) Hw E) as (Hn & Hx & Eb & Er & Hacc). unfold keeps. rewrite Eb.
  split_and!; [|by intros y Hy; rewrite lookup_insert_ne; [|intros <-; destruct (floating_present _ _ _ _ H x Hy) as [[? ?] _]; congruence]|apply lookup_insert_eq|done|done].
  eapply hinv_change; [exact H| | | |done]; rewrite ?Eb, ?Er.
  - rewrite lookup_insert_ne by done. apply (h_null _ _ _ _ H).
  - intros y [c Hy] _ _. rewrite lookup_insert_ne; [done|]. intros <-. congruence.
  - intros y. simpl. destruct (decide (x = y)) as [<-|Hne]; [rewrite lookup_insert_eq, Hn; simpl; lia|]. rewrite lookup_insert_ne by done. lia.
Qed.

Lemma hinv_alloc_node m G R F x m' : hinv m G R F → alloc_node m = Done (x, m') →
  hinv m' G R (x :: F) ∧ keeps F m m' ∧ blocks m' !! x = Some (BNode 1 0 0 0) ∧ blocks m !! x = None ∧ x ≠ 0.
Proof. intros H. by apply hinv_alloc. Qed.

(** The node under construction gets its fields. *)
Lemma hinv_store m G R F x rc b c e bm cp ep : hinv m G R (x :: F) → blocks m !! x = Some (BNode rc b c e) →
  ∃ m', store_node x bm cp ep m = Some m' ∧ hinv m' G R (x :: F) ∧ blocks m' !! x = Some (BNode rc bm cp ep) ∧
    ∀ y, y ≠ x → blocks m' !! y = blocks m !! y.
Proof.
  intros H Hx. unfold store_node. rewrite Hx. eexists. split; [done|]. split; [|split; [apply lookup_insert_eq|]].
  - eapply hinv_change; [exact H| | | |eapply accounted_set; [exact Hx|done|apply H]].
    + simpl. destruct (floating_present _ _ _ _ H x) as (_ & _ & ?); [by left|]. rewrite lookup_insert_ne by done. apply (h_null _ _ _ _ H).
    + intros y _ Hy _. simpl. rewrite lookup_insert_ne; [done|]. intros ->. apply Hy. by left.
    + intros y. cbn [set_blocks blocks retiredBlocks]. destruct (decide (x = y)) as [<-|Hne]; [rewrite lookup_insert_eq, Hx; simpl; lia|].
      rewrite lookup_insert_ne by done. lia.
  - intros y Hy. simpl. by rewrite lookup_insert_ne.
Qed.

(** Changes of a live node's count. *)
Lemma hinv_recount m G R R' F p g rc' :
  hinv m G R F → G !! p = Some g → (∀ x, x ≠ p → occ x R' = occ x R) → (0 < count_of G R' p)%nat → rc' = i32 (Z.of_nat (count_of G R' p)) →
  hinv (set_blocks (<[p := BNode rc' (tree_bm (g_tree g)) (g_cp g) (g_ep g)]> (blocks m)) m) G R' F.
Proof.
  intros H Hp HR Hc ->. assert (∀ q, q ≠ p → count_of G R' q = count_of G R q) as Hcount by (intros q Hq; unfold count_of; by rewrite HR).
  pose proof H as H0. destruct H as [H1 H2 H3 H4 H5]. pose proof (node_ptr _ _ _ _ H0 p g Hp) as Hp0.
  split; [cbn [set_blocks blocks retiredBlocks]..|by eapply accounted_set; [by apply H2| |]].
  - by rewrite lookup_insert_ne.
  - intros q g' Hq. destruct (H2 q g' Hq) as (Hok & Hcq & Hb). split_and!.
    + eapply g_ok_agree; [|done|exact Hok]. intros x Hx. destruct (owned_present _ _ _ _ H0 q g' x Hq Hx) as (_ & Hn & _).
      rewrite lookup_insert_ne; [done|]. intros ->. congruence.
    + destruct (decide (q = p)) as [->|Hne]; [done|]. by rewrite Hcount.
    + destruct (decide (q = p)) as [->|Hne]; [rewrite lookup_insert_eq; by simplify_eq|]. rewrite lookup_insert_ne by done. by rewrite Hcount.
  - intros x Hx. destruct (decide (x = p)) as [->|Hne]; [by eexists|]. rewrite Hcount in Hx by done. by apply H3.
  - intros x. rewrite H4. destruct (decide (p = x)) as [<-|Hne]; [|by rewrite lookup_insert_ne]. rewrite lookup_insert_eq.
    destruct (H2 p g Hp) as (_ & _ & ->). done.
Qed.

Lemma i32_succ z : i32 (i32 z + 1) = i32 (z + 1).
Proof. apply i32_congr. rewrite <- Zplus_mod_idemp_l, i32_mod, Zplus_mod_idemp_l. done. Qed.

Lemma i32_pred z : i32 (i32 z - 1) = i32 (z - 1).
Proof. apply i32_congr. rewrite <- Zminus_mod_idemp_l, i32_mod, Zminus_mod_idemp_l. done. Qed.

Lemma hinv_inc m G R F p : hinv m G R F → is_Some (G !! p) →
  ∃ m', IncRef p m = Some m' ∧ hinv m' G (p :: R) F ∧ keeps F m m'.
Proof.
  intros H [g Hp]. pose proof (node_ptr _ _ _ _ H p g Hp) as Hp0. destruct (h_node _ _ _ _ H p g Hp) as (_ & Hc & Hb).
  unfold IncRef. rewrite decide_False, Hb by done. eexists. split; [done|]. split.
  - apply (hinv_recount m G R (p :: R) F p g); [done|done| | |].
    + intros x Hx. simpl. rewrite decide_False by done. done.
    + unfold count_of in *. simpl. rewrite decide_True by done. lia.
    + rewrite i32_succ. f_equal. unfold count_of. simpl. rewrite decide_True by done. lia.
  - intros x Hx. simpl. destruct (floating_present _ _ _ _ H x Hx) as (_ & ? & _). rewrite lookup_insert_ne; [done|]. congruence.
Qed.

Lemma hinv_inc_all m G R F cs : hinv m G R F → Forall (λ c, is_Some (G !! c)) cs →
  ∃ m', inc_all cs m = Some m' ∧ hinv m' G (cs ++ R) F ∧ keeps F m m'.
Proof.
  intros H Hcs. revert m R H. induction Hcs as [|c cs Hc Hcs IH]; intros m R H; simpl; [by exists m|].
  destruct (hinv_inc m G R F c H Hc) as (m1 & -> & H1 & K1). simpl. destruct (IH m1 (c :: R) H1) as (m2 & -> & H2 & K2).
  exists m2. split; [done|]. split; [|by eapply keeps_trans]. eapply hinv_occ; [|done|exact H2].
  intros x. rewrite <- (occ_perm x (c :: cs ++ R) (cs ++ c :: R)); [done|]. by rewrite Permutation_middle.
Qed.

(** A finished node becomes live, with the one reference the caller has. *)
Lemma hinv_commit m G R R' F F' x g :
  hinv m G R F → (∀ y, occ y F = occ y (x :: owned g ++ F')) → (∀ y, occ y R = occ y (g_kids g ++ R')) →
  blocks m !! x = Some (BNode 1 (tree_bm (g_tree g)) (g_cp g) (g_ep g)) → g_ok (blocks m) G g →
  hinv m (<[x := g]> G) (x :: R') F' ∧ G !! x = None.
Proof.
  intros H HF HR Hb Hok. destruct (floating_present _ _ _ _ H x) as (_ & Hn & Hx0).
  { apply occ_elem. rewrite HF. simpl. rewrite decide_True by done. lia. }
  assert (count_of G R x = 0%nat) as Hx.
  { destruct (count_of G R x) eqn:E; [done|]. destruct (h_closed _ _ _ _ H x); [lia|congruence]. }
  assert (∀ p, count_of (<[x := g]> G) (x :: R') p = (count_of G R p + if decide (x = p) then 1 else 0)%nat) as Hcount.
  { intros p. unfold count_of. rewrite (occ_perm _ _ _ (gather_insert g_kids G x g Hn)), HR, !occ_app. simpl. lia. }
  assert (∀ k gk, G !! k = Some gk → <[x := g]> G !! k = Some gk) as Hmono by (intros k gk Hk; rewrite lookup_insert_ne; [done|congruence]).
  split; [|done]. split; [| | | |apply H].
  - apply (h_null _ _ _ _ H).
  - intros p g' Hp. rewrite Hcount. destruct (decide (x = p)) as [<-|Hne].
    + rewrite lookup_insert_eq in Hp. simplify_eq. rewrite Hx. split_and!; [|lia|exact Hb].
      eapply g_ok_agree; [done|intros k gk _; apply Hmono|exact Hok].
    + rewrite lookup_insert_ne in Hp by done. destruct (h_node _ _ _ _ H p g' Hp) as (Hok' & Hc & Hb'). rewrite Nat.add_0_r. split_and!; [|done|done].
      eapply g_ok_agree; [done|intros k gk _; apply Hmono|exact Hok'].
  - intros y. rewrite Hcount. destruct (decide (x = y)) as [<-|Hne]; [by rewrite lookup_insert_eq|]. rewrite Nat.add_0_r, lookup_insert_ne by done.
    apply (h_closed _ _ _ _ H).
  - intros y. rewrite <- (h_own _ _ _ _ H y), HF, (occ_perm _ _ _ (gather_insert owned G x g Hn)). simpl. rewrite !occ_app.
    destruct (decide (x = y)) as [<-|Hne]; [rewrite lookup_insert_eq, Hn; simpl; lia|]. rewrite lookup_insert_ne by done. lia.
Qed.

End Steps.

(** ** New nodes *)

Section Build.

Lemma alloc_or_ok P `{!Decision P} m G R F b x m' : hinv m G R F → (¬ P → 0 < block_words b)%nat →
  (if decide P then Done (0, m) else alloc b m) = Done (x, m') →
  hinv m' G R (nonnull [x] ++ F) ∧ keeps F m m' ∧ if decide P then x = 0 else x ≠ 0 ∧ blocks m' !! x = Some b.
Proof.
  intros H Hw E. destruct (decide P) as [HP|HP]; [by simplify_eq|].
  destruct (hinv_alloc _ _ _ _ _ _ _ H (λ _, Hw HP) E) as (H1 & K1 & Hb & _ & Hx). unfold nonnull. rewrite filter_cons_True by done. done.
Qed.

Lemma alloc_or_stops P `{!Decision P} m G R F b : hinv m G R F → (¬ P → 0 < block_words b)%nat →
  stops (if decide P then Done (0, m) else alloc b m) ∨ ∃ x m', (if decide P then Done (0, m) else alloc b m) = Done (x, m').
Proof. intros H Hw. case_decide as E; [right; by eexists _, _|]. eapply alloc_stops; [exact H|]. intros _. by apply Hw. Qed.

Lemma string_words s : s ≠ ""%string → (0 < block_words (BString s))%nat.
Proof.
  intros Hs. cbn [block_words]. destruct s as [|c s]; [done|]. cbn [String.length]. pose proof (Nat.div_mod (S (String.length s) + 7) 8). 
  pose proof (Nat.mod_upper_bound (S (String.length s) + 7) 8). lia.
Qed.

Lemma entries_words es : es ≠ [] → (0 < block_words (BCRDT es))%nat.
Proof. destruct es; [done|]. cbn [block_words length]. lia. Qed.

Lemma children_words cs : cs ≠ [] → (0 < block_words (BChildren cs))%nat.
Proof. destruct cs; [done|]. cbn [block_words length]. lia. Qed.

Lemma leaves_words ls : ls ≠ [] → (0 < block_words (BEntries ls))%nat.
Proof. intros _. cbn [block_words]. lia. Qed.

Lemma makeLeaf_ok m G R F key hash es : hinv m G R F → stops (makeLeaf key hash es m) ∨ ∃ l m', makeLeaf key hash es m = Done (l, m') ∧
  hinv m' G R (leaf_owned l ++ F) ∧ keeps F m m' ∧ leaf_at (blocks m') l (mkLeaf hash key es).
Proof.
  intros H. unfold makeLeaf, allocString. destruct (alloc_or_stops (key = ""%string) m G R F (BString key) H (string_words key)) as [Hs|(ep & m1 & E1)]; [stopped|].
  rewrite E1. cbn [mbind res_bind]. unfold allocCRDTEntries. destruct (alloc_or_ok _ _ _ _ _ _ _ _ H (string_words key) E1) as (H1 & K1 & B1).
  destruct (alloc_or_stops (es = []) m1 G R _ (BCRDT es) H1 (entries_words es)) as [Hs|(cp & m2 & E2)]; [stopped|].
  rewrite E2. cbn [mbind res_bind]. right. eexists _, m2. split; [done|].
  destruct (alloc_or_ok _ _ _ _ _ _ _ _ H1 (entries_words es) E2) as (H2 & K2 & B2). split_and!.
  - eapply hinv_occ; [done| |exact H2]. intros x. unfold leaf_owned, nonnull. simpl. rewrite !filter_cons, !filter_nil. repeat case_decide; simpl; lia.
  - eapply keeps_trans; [exact K1|exact K2|]. intros x Hx. apply elem_of_app. by right.
  - unfold leaf_at, leaf_entityID, leaf_crdtEntries. simpl. split_and!; [done| |].
    + destruct (decide (key = ""%string)) as [->|Hk]; [by rewrite B1, decide_True|]. destruct B1 as [B1 B1']. rewrite decide_False by done.
      rewrite K2, B1'; [done|]. unfold nonnull. rewrite filter_cons_True by done. by left.
    + destruct (decide (es = [])) as [->|He]; [by rewrite B2, decide_True|]. destruct B2 as [B2 B2']. by rewrite decide_False, B2'.
Qed.

(** [ls] are leaves of a live node. *)
Definition lives (G : gmap Z gnode) (ls : list offLeaf) (vs : list hamtLeaf) : Prop :=
  ∀ m R F, hinv m G R F → Forall2 (leaf_at (blocks m)) ls vs.

Lemma copyLeaf_ok m G R F l v : hinv m G R F → lives G [l] [v] → stops (copyLeaf l m) ∨
  ∃ l' m', copyLeaf l m = Done (l', m') ∧ hinv m' G R (leaf_owned l' ++ F) ∧ keeps F m m' ∧ leaf_at (blocks m') l' v.
Proof.
  intros H Hl. pose proof (Hl _ _ _ H) as Hm. inversion_clear Hm as [|????(Hh & Hs & _) _]. unfold copyLeaf. rewrite Hs. cbn [found mbind res_bind].
  pose proof (makeLeaf_ok m G R F (entityID v) (offHash l) (crdtEntries v) H) as Hmk. unfold makeLeaf in Hmk.
  destruct (allocString (entityID v) m) as [[ep m1]|s] eqn:E1; cbn [mbind res_bind] in *; [|left; destruct Hmk as [Hmk|(? & ? & ? & _)]; [destruct Hmk as (? & [= <-] & ?); by exists s|done]].
  destruct (alloc_or_ok _ _ _ _ _ _ _ _ H (string_words _) E1) as (H1 & K1 & B1).
  pose proof (Hl _ _ _ H1) as Hm. inversion_clear Hm as [|????(_ & _ & He) _]. rewrite He. cbn [found mbind res_bind].
  destruct Hmk as [Hmk|(l' & m' & E & H2 & K2 & L2)]; [by left|right]. exists l', m'. split; [exact E|]. split; [done|]. split; [done|]. rewrite Hh in L2. by destruct v.
Qed.

Lemma lives_cons G l ls v vs : lives G (l :: ls) (v :: vs) → lives G [l] [v] ∧ lives G ls vs.
Proof. intros Hl. split; intros m R F H; specialize (Hl m R F H); inversion_clear Hl; [by constructor|done]. Qed.

Lemma lives_app G ls ls' vs vs' : lives G ls vs → lives G ls' vs' → lives G (ls ++ ls') (vs ++ vs').
Proof. intros H1 H2 m R F H. apply Forall2_app; [by eapply H1|by eapply H2]. Qed.

Lemma copy_leaves_ok G R ls vs : lives G ls vs → length ls = length vs → ∀ m F, hinv m G R F → stops (copy_leaves ls m) ∨
  ∃ ls' m', copy_leaves ls m = Done (ls', m') ∧ hinv m' G R (leaves_owned ls' ++ F) ∧ keeps F m m' ∧ Forall2 (leaf_at (blocks m')) ls' vs.
Proof.
  revert vs. induction ls as [|l ls IH]; intros [|v vs] Hl Hlen m F H; simplify_eq/=; [right; by exists [], m|].
  apply lives_cons in Hl as [Hl Hls]. destruct (copyLeaf_ok m G R F l v H Hl) as [Hs|(l' & m1 & -> & H1 & K1 & L1)]; [stopped|]. cbn [mbind res_bind].
  destruct (IH vs Hls Hlen m1 _ H1) as [Hs|(ls' & m2 & -> & H2 & K2 & L2)]; [stopped|]. cbn [mbind res_bind]. right. exists (l' :: ls'), m2. split; [done|]. split_and!.
  - eapply hinv_occ; [done| |exact H2]. intros x. unfold leaves_owned. simpl. rewrite !occ_app. lia.
  - eapply keeps_trans; [exact K1|exact K2|]. intros x Hx. apply elem_of_app. by right.
  - constructor; [|done]. eapply leaf_at_agree; [|exact L1]. intros x Hx. apply K2, elem_of_app. by left.
Qed.

(** The result [x] stands for [n] and nothing that lived before has changed; [L]
    are nodes that are referred to from nowhere. *)
Definition grown (m : Mem) (G : gmap Z gnode) (R F L : list Z) (x : Z) (n : HamtNode) (m' : Mem) : Prop :=
  ∃ G' g, G ⊆ G' ∧ G !! x = None ∧ G' !! x = Some g ∧ g_tree g = n ∧ hinv m' G' (x :: L ++ R) F ∧ keeps F m m'.

Lemma leaf_node_ok m G R F ls vs : hinv m G R (leaves_owned ls ++ F) → Forall2 (leaf_at (blocks m)) ls vs →
  stops (leaf_node ls m) ∨ ∃ x m', leaf_node ls m = Done (x, m') ∧ grown m G R F [] x (leafNode vs) m'.
Proof.
  intros H Hl. unfold leaf_node. destruct (alloc_node_stops m _ _ _ H) as [Hs|(x & m1 & E1)]; [stopped|]. rewrite E1. cbn [mbind res_bind].
  destruct (hinv_alloc_node _ _ _ _ _ _ H E1) as (H1 & K1 & B1 & N1 & Hx).
  unfold allocEntriesArray. destruct (alloc_or_stops (ls = []) m1 G R _ (BEntries ls) H1 (leaves_words ls)) as [Hs|(ep & m2 & E2)]; [stopped|]. rewrite E2. cbn [mbind res_bind].
  destruct (alloc_or_ok _ _ _ _ _ _ _ _ H1 (leaves_words ls) E2) as (H2 & K2 & B2).
  assert (hinv m2 G R (x :: nonnull [ep] ++ leaves_owned ls ++ F)) as H2'.
  { eapply hinv_occ; [done| |exact H2]. intros y. apply occ_perm. symmetry. apply Permutation_middle. }
  assert (blocks m2 !! x = Some (BNode 1 0 0 0)) as B by (rewrite K2; [done|by left]).
  destruct (hinv_store _ _ _ _ x _ _ _ _ 0 0 ep H2' B) as (m3 & -> & H3 & B3 & K3). cbn [found mbind res_bind]. right. exists x, m3. split; [done|].
  assert (∀ y, y ∈ nonnull [ep] ++ leaves_owned ls ++ F → y ≠ x) as Hfl.
  { intros y Hy ->. destruct (floating_present _ _ _ _ H2' x) as ([b Hb] & Hn & _); [by left|]. pose proof (h_own _ _ _ _ H2' x) as Ho. rewrite Hb in Ho.
    apply occ_elem in Hy. cbn [occ present] in Ho. rewrite decide_True in Ho by done. lia. }
  set (g := mkGnode (leafNode vs) 0 ep [] ls).
  destruct (hinv_commit m3 G R R _ F x g H3) as [H4 Hn]; [| |exact B3| |].
  - intros y. unfold owned, g, nonnull. simpl. rewrite !filter_cons, !filter_nil. rewrite (decide_False (P := (0 ≠ 0))) by (intros Hz; by apply Hz). rewrite !occ_app. lia.
  - done.
  - split; simpl; [done|constructor| |done|].
    + eapply leaves_at_agree; [|exact Hl]. intros y Hy. rewrite K3; [|apply Hfl, elem_of_app; right; apply elem_of_app; by left].
      rewrite K2, K1; [done|apply elem_of_app; by left|right; apply elem_of_app; by left].
    + destruct (decide (ls = [])) as [|Hne]; [done|]. destruct B2 as [B2 B2']. split; [done|]. rewrite K3, B2'; [done|].
      apply Hfl. unfold nonnull. rewrite filter_cons_True by done. by left.
  - exists (<[x := g]> G), g. split_and!; [by apply insert_subseteq|done|apply lookup_insert_eq|done|exact H4|].
    intros y Hy. rewrite K3; [|apply Hfl, elem_of_app; right; apply elem_of_app; by right].
    rewrite K2, K1; [done|apply elem_of_app; by right|right; apply elem_of_app; by right].
Qed.

Lemma finish_node_ok m G R F x b c e bm kids cs : hinv m G (kids ++ R) (x :: F) → blocks m !! x = Some (BNode 1 b c e) →
  Forall2 (λ k c, ∃ gk, G !! k = Some gk ∧ g_tree gk = c) kids cs → length cs = popcount bm →
  stops (finish_node x bm kids m) ∨ ∃ m', finish_node x bm kids m = Done (x, m') ∧ grown m G R F [] x (mkNode bm cs []) m'.
Proof.
  intros H B Hk Hlen. unfold finish_node, allocChildrenArray. destruct (alloc_or_stops (kids = []) m G (kids ++ R) (x :: F) (BChildren kids) H (children_words kids)) as [Hs|(cp & m1 & E1)]; [stopped|]. rewrite E1. cbn [mbind res_bind].
  destruct (alloc_or_ok _ _ _ _ _ _ _ _ H (children_words kids) E1) as (H1 & K1 & B1).
  assert (hinv m1 G (kids ++ R) (x :: nonnull [cp] ++ F)) as H1'.
  { eapply hinv_occ; [done| |exact H1]. intros y. apply occ_perm. symmetry. apply Permutation_middle. }
  assert (blocks m1 !! x = Some (BNode 1 b c e)) as B' by (rewrite K1; [done|by left]).
  destruct (hinv_store _ _ _ _ x _ _ _ _ bm cp 0 H1' B') as (m2 & -> & H2 & B2 & K2). cbn [found mbind res_bind]. right. exists m2. split; [done|].
  assert (∀ y, y ∈ nonnull [cp] ++ F → y ≠ x) as Hfl.
  { intros y Hy ->. destruct (floating_present _ _ _ _ H1' x) as ([b' Hb] & Hn & _); [by left|]. pose proof (h_own _ _ _ _ H1' x) as Ho. rewrite Hb in Ho.
    apply occ_elem in Hy. cbn [occ present] in Ho. rewrite decide_True in Ho by done. lia. }
  set (g := mkGnode (mkNode bm cs []) cp 0 kids []).
  destruct (hinv_commit m2 G (kids ++ R) R _ F x g H2) as [H3 Hn]; [|done|exact B2| |].
  - intros y. unfold owned, g, nonnull. simpl. rewrite app_nil_r, !occ_app, !filter_cons, !filter_nil. rewrite (decide_False (P := (0 ≠ 0))) by (intros Hz; by apply Hz).
    done.
  - split; simpl; [done|exact Hk|constructor| |done].
    destruct (decide (kids = [])) as [|Hne]; [done|]. destruct B1 as [B1 B1']. split; [done|]. rewrite K2, B1'; [done|].
    apply Hfl. unfold nonnull. rewrite filter_cons_True by done. by left.
  - exists (<[x := g]> G), g. split_and!; [by apply insert_subseteq|done|apply lookup_insert_eq|done|exact H3|].
    intros y Hy. rewrite K2 by (apply Hfl, elem_of_app; by right). rewrite K1; [done|by right].
Qed.

End Build.

(** ** Reading a live node *)

Section Reads.
Context (m : Mem) (G : gmap Z gnode) (R F : list Z) (H : hinv m G R F) (p : Z) (g : gnode) (Hp : G !! p = Some g).

Lemma live_read : read_node p (blocks m) = Some (tree_bm (g_tree g), g_cp g, g_ep g).
Proof. destruct (h_node _ _ _ _ H p g Hp) as (_ & _ & E). unfold read_node. by rewrite E. Qed.

Lemma live_entries : getEntries (g_ep g) (blocks m) = Some (g_leaves g).
Proof.
  destruct (h_node _ _ _ _ H p g Hp) as (Hok & _ & _). pose proof (go_entries _ _ _ Hok) as He. unfold getEntries.
  destruct (decide (g_leaves g = [])) as [E|E]; [by rewrite He, decide_True, E|]. destruct He as [He ->]. by rewrite decide_False.
Qed.

Lemma live_children : getChildren (g_cp g) (popcount (tree_bm (g_tree g))) (blocks m) = Some (g_kids g).
Proof.
  destruct (h_node _ _ _ _ H p g Hp) as (Hok & _ & _). pose proof (go_children _ _ _ Hok) as Hc. pose proof (go_len _ _ _ Hok) as Hl.
  rewrite <- (Forall2_length _ _ _ (go_kids _ _ _ Hok)) in Hl. unfold getChildren.
  destruct (decide (g_kids g = [])) as [E|E]; [rewrite Hc, decide_True, E by (by left); done|]. destruct Hc as [Hc ->].
  rewrite decide_False; [|intros [?|E']; [done|]; rewrite E' in Hl; by destruct (g_kids g)]. rewrite <- Hl, decide_True by done. by rewrite take_ge.
Qed.

Lemma live_leaves : Forall2 (leaf_at (blocks m)) (g_leaves g) (node_entries (g_tree g)).
Proof. destruct (h_node _ _ _ _ H p g Hp) as (Hok & _ & _). apply Hok. Qed.

End Reads.

Lemma lives_node G p g : G !! p = Some g → lives G (g_leaves g) (node_entries (g_tree g)).
Proof. intros Hp m R F H. by eapply live_leaves. Qed.

Lemma find_key_index bs key ls vs : Forall2 (leaf_at bs) ls vs → find_key bs key ls = Some (find_index key vs).
Proof. induction 1 as [|l v ls vs (_ & Hs & _) Hls IH]; [done|]. simpl. rewrite Hs. simpl. destruct (String.eqb _ key); [done|]. by rewrite IH. Qed.

Lemma find_leaf_index key vs : find_leaf key vs = match find_index key vs with Some i => default [] (crdtEntries <$> vs !! i) | None => [] end.
Proof. induction vs as [|v vs IH]; [done|]. simpl. destruct (String.eqb _ key); [done|]. rewrite IH. by destruct (find_index key vs). Qed.

Lemma heap_get_ok hk m G R F key hash fuel p g d : hinv m G R F → G !! p = Some g → wf_node hk d (g_tree g) → fuel = (S hamtMaxDepth - d)%nat →
  heap_get fuel p key hash d (blocks m) = Some (node_get (g_tree g) key hash d).
Proof.
  intros H. revert p g d. induction fuel as [|fuel IH]; intros p g d Hp Hwf Hf.
  { exfalso. assert (d <= hamtMaxDepth)%nat by (destruct (g_tree g); inversion Hwf; lia). lia. }
  cbn [heap_get]. rewrite decide_False by (by eapply node_ptr). rewrite (live_read _ _ _ _ H p g Hp). cbn [mbind option_bind].
  rewrite (live_entries _ _ _ _ H p g Hp). cbn [mbind option_bind]. pose proof (live_leaves _ _ _ _ H p g Hp) as Hls.
  pose proof (live_children _ _ _ _ H p g Hp) as Hcs. pose proof (kid_node _ _ _ _ H p g) as Hkid. destruct (g_tree g) as [bm cs vs] eqn:Et.
  cbn [tree_bm tree_cs node_entries] in *.
  destruct (g_leaves g) as [|l ls] eqn:El; inversion Hls as [|? v ? vs' Hl Hr]; subst vs.
  - apply wf_inner_inv in Hwf as (Hd & Hlen & Hc). rewrite node_get_inner by done.
    rewrite (proj2 (Nat.leb_gt hamtMaxDepth d)) by done.
    rewrite land_bit_of, pos_of_rank by (pose proof (segment_lt hash d); lia). unfold slot.
    destruct (Z.testbit bm (Z.of_nat (segment hash d))) eqn:Eb; cbn [negb]; [|done]. rewrite Hcs. cbn [mbind option_bind].
    destruct (slot_present bm cs _ (segment_lt hash d) Hlen Eb) as [c Hslot]. pose proof Hslot as Hslot'. unfold slot in Hslot'. rewrite Eb in Hslot'.
    destruct (h_node _ _ _ _ H p g Hp) as (Hok & _ & _). pose proof (go_kids _ _ _ Hok) as Hk2. rewrite Et in Hk2. cbn [tree_cs] in Hk2.
    destruct (Forall2_lookup_r _ _ _ _ _ Hk2 Hslot') as (k & Hk & gk & Hgk & Etk). rewrite Hslot', Hk. cbn [mbind option_bind].
    rewrite <- Etk. apply IH; [done| |lia]. rewrite Etk. by apply (Hc (segment hash d)); [apply segment_lt|].
  - rewrite node_get_leaf, find_leaf_index. rewrite <- El. rewrite (find_key_index (blocks m) key _ (v :: vs')) by by rewrite El. cbn [mbind option_bind].
    destruct (find_index key (v :: vs')) as [i|] eqn:Ei; [|done]. pose proof Ei as (a & v' & b & Ev & <- & _)%find_index_Some.
    assert ((v :: vs') !! length a = Some v') as Hv by (rewrite Ev; by apply list_lookup_middle).
    destruct (Forall2_lookup_r _ _ _ _ _ Hls Hv) as (l' & Hl' & _ & _ & Hes). rewrite El, Hl', Hv. simpl. done.
Qed.

(** ** Path copying *)

Lemma leaves_owned_app a b : leaves_owned (a ++ b) = leaves_owned a ++ leaves_owned b.
Proof. unfold leaves_owned. by rewrite map_app, concat_app. Qed.

Lemma leaves_owned_one l : leaves_owned [l] = leaf_owned l.
Proof. unfold leaves_owned. simpl. apply app_nil_r. Qed.

Lemma grown_after m m2 G G' R F L L0 x n m' :
  G ⊆ G' → keeps F m m2 → grown m2 G' (L0 ++ R) F L x n m' → grown m G R F (L ++ L0) x n m'.
Proof.
  intros HG HK (G2 & g & HG2 & Hn & Hx & Ht & H & HK2). exists G2, g. split_and!; [by transitivity G'| |done|done| |by eapply keeps_trans].
  - destruct (G !! x) eqn:E; [|done]. rewrite (lookup_weaken _ _ _ _ E HG) in Hn. done.
  - eapply hinv_occ; [|done|exact H]. intros y. by rewrite <- app_assoc.
Qed.

Lemma grown_node m G R F L x n m' : grown m G R F L x n m' →
  ∃ G' g, G ⊆ G' ∧ G' !! x = Some g ∧ g_tree g = n ∧ hinv m' G' (x :: L ++ R) F ∧ keeps F m m'.
Proof. intros (G' & g & ? & _ & ? & ? & ? & ?). by exists G', g. Qed.

Lemma kids_weaken (G G' : gmap Z gnode) (kids : list Z) (cs : list HamtNode) : G ⊆ G' →
  Forall2 (λ k c, ∃ gk, G !! k = Some gk ∧ g_tree gk = c) kids cs → Forall2 (λ k c, ∃ gk, G' !! k = Some gk ∧ g_tree gk = c) kids cs.
Proof. intros HG Hk2. eapply Forall2_impl; [exact Hk2|]. intros k c (gk & Hk & E). exists gk. split; [by eapply lookup_weaken|done]. Qed.

Section Set_.

(** New leaves next to copies of old ones. *)
Lemma rebuilt_leaf_ok m G R F ls vs ls' vs' key hash es : hinv m G R F → lives G ls vs → length ls = length vs →
  lives G ls' vs' → length ls' = length vs' →
  let r := ('(a, m1) ← copy_leaves ls m; '(l, m2) ← makeLeaf key hash es m1; '(b, m3) ← copy_leaves ls' m2; leaf_node (a ++ l :: b) m3) in
  stops r ∨ ∃ x m', r = Done (x, m') ∧ grown m G R F [] x (leafNode (vs ++ mkLeaf hash key es :: vs')) m'.
Proof.
  intros H L1 N1 L2 N2. cbv zeta. destruct (copy_leaves_ok G R ls vs L1 N1 m F H) as [Hs|(a & m1 & -> & H1 & K1 & A1)]; [stopped|]. cbn [mbind res_bind].
  destruct (makeLeaf_ok m1 G R _ key hash es H1) as [Hs|(l & m2 & -> & H2 & K2 & A2)]; [stopped|]. cbn [mbind res_bind].
  destruct (copy_leaves_ok G R ls' vs' L2 N2 m2 _ H2) as [Hs|(b & m3 & -> & H3 & K3 & A3)]; [stopped|]. cbn [mbind res_bind].
  destruct (leaf_node_ok m3 G R F (a ++ l :: b) (vs ++ mkLeaf hash key es :: vs')) as [Hs|(x & m' & -> & H4)].
  - eapply hinv_occ; [done| |exact H3]. intros y. rewrite (cons_middle l a b), !leaves_owned_app, leaves_owned_one, !occ_app. lia.
  - apply Forall2_app; [|constructor; [|done]].
    + eapply leaves_at_agree; [|exact A1]. intros y Hy. rewrite K3, K2; [done|apply elem_of_app; by left|].
      apply elem_of_app. right. apply elem_of_app. by left.
    + eapply leaf_at_agree; [|exact A2]. intros y Hy. apply K3, elem_of_app. by left.
  - by left.
  - right. exists x, m'. split; [done|]. apply (grown_after m m3 G G R F [] [] x); [done| |exact H4].
    intros y Hy. rewrite K3, K2, K1; [done|done|apply elem_of_app; by right|apply elem_of_app; right; apply elem_of_app; by right].
Qed.

Lemma new_leaf_ok m G R F key hash es : hinv m G R F → stops (new_leaf_node key hash es m) ∨
  ∃ x m', new_leaf_node key hash es m = Done (x, m') ∧ grown m G R F [] x (leafNode [mkLeaf hash key es]) m'.
Proof. intros H. apply (rebuilt_leaf_ok m G R F [] [] [] [] key hash es H); done || by intros ????. Qed.

Lemma lives_part G ls vs i : lives G ls vs → lives G (take i ls) (take i vs) ∧ lives G (drop i ls) (drop i vs).
Proof. intros H. split; intros m R F Hm; [apply Forall2_take|apply Forall2_drop]; by eapply H. Qed.

Lemma heap_setCollision_ok rem p g oldHash key hash es G : G !! p = Some g → es ≠ [] → ∀ m R F, hinv m G R F →
  stops (heap_setCollision rem p oldHash key hash es m) ∨ ∃ x m', heap_setCollision rem p oldHash key hash es m = Done (x, m') ∧
    grown m G R F [] x (setCollision_at rem (g_tree g) oldHash key hash es) m'.
Proof.
  intros Hp Hes. induction rem as [|rem IH]; intros m R F H.
  - cbn [heap_setCollision setCollision_at]. rewrite (live_read _ _ _ _ H p g Hp). cbn [found mbind res_bind].
    rewrite (live_entries _ _ _ _ H p g Hp). cbn [found mbind res_bind]. pose proof (Forall2_length _ _ _ (live_leaves _ _ _ _ H p g Hp)) as Hlen.
    unfold heap_appendToCollision, appendToCollision. destruct es as [|e es]; [done|].
    apply (rebuilt_leaf_ok m G R F (g_leaves g) (node_entries (g_tree g)) [] [] key hash (e :: es) H); [by eapply lives_node|done|by intros ????|done].
  - cbn [heap_setCollision setCollision_at]. set (i := segment oldHash _). set (j := segment hash _).
    assert (i < 32 ∧ j < 32)%nat as [Hi Hj] by (split; apply segment_lt).
    destruct (alloc_node_stops m _ _ _ H) as [Hs|(x & m1 & E1)]; [stopped|]. rewrite E1. cbn [mbind res_bind].
    destruct (hinv_alloc_node _ _ _ _ _ _ H E1) as (H1 & K1 & B1 & _ & _).
    destruct (Nat.eqb_spec i j) as [Eij|Hij].
    + destruct (IH m1 R (x :: F) H1) as [Hs|(c & m2 & -> & Hc)]; [stopped|]. cbn [mbind res_bind].
      destruct (grown_node _ _ _ _ _ _ _ _ Hc) as (G' & gc & HG & Hgc & Ht & H2 & K2).
      destruct (finish_node_ok m2 G' R F x 0 0 0 (bit_of i) [c] [setCollision_at rem (g_tree g) oldHash key hash es]) as [Hs|(m' & E2 & H3)].
      * exact H2.
      * rewrite K2; [done|by left].
      * constructor; [by exists gc|constructor].
      * unfold popcount. rewrite rank_bit_of, bool_decide_true by done. done.
      * by left.
      * right. exists x, m'. split; [done|]. apply (grown_after m m2 G G' R F [] []); [done| |exact H3].
        eapply keeps_trans; [exact K1|exact K2|by right].
    + destruct (new_leaf_ok m1 G R (x :: F) key hash es H1) as [Hs|(c & m2 & -> & Hc)]; [stopped|]. cbn [mbind res_bind].
      destruct (grown_node _ _ _ _ _ _ _ _ Hc) as (G' & gc & HG & Hgc & Ht & H3 & K3). pose proof (lookup_weaken _ _ _ _ Hp HG) as Hp'.
      destruct (hinv_inc m2 G' _ _ p H3) as (m3 & -> & H4 & K4); [by eexists|]. cbn [found mbind res_bind].
      set (kids := if (i <? j)%nat then [p; c] else [c; p]).
      set (cs := if (i <? j)%nat then [g_tree g; leafNode [mkLeaf hash key es]] else [leafNode [mkLeaf hash key es]; g_tree g]).
      destruct (finish_node_ok m3 G' R F x 0 0 0 (Z.lor (bit_of i) (bit_of j)) kids cs) as [Hs|(m' & E5 & H5)].
      * eapply hinv_occ; [|done|exact H4]. intros y. unfold kids. destruct (i <? j)%nat; simpl; lia.
      * rewrite K4, K3; [done|by left|by left].
      * unfold kids, cs. destruct (i <? j)%nat; (constructor; [eexists; by split|]; constructor; [eexists; by split|constructor]).
      * rewrite popcount_pair by done. unfold cs. by destruct (i <? j)%nat.
      * by left.
      * right. exists x, m'. split; [done|]. apply (grown_after m m3 G G' R F [] []); [done| |exact H5].
        intros y Hy. rewrite K4, K3, K1; [done|done|by right|by right].
Qed.

(** What set returns: the node itself, null, or a new node; [L] are nodes it
    allocates and drops. *)
Definition leaks (G : gmap Z gnode) (L : list Z) : Prop := NoDup L ∧ ∀ x, x ∈ L → G !! x = None.

Definition set_returns (m : Mem) (G : gmap Z gnode) (R F : list Z) (p : Z) (es : list CRDTEntry) (r : setResult) (x : Z) (m' : Mem) : Prop :=
  match r with
  | Same => es = [] ∧ x = p ∧ m' = m
  | Gone => es = [] ∧ x = 0 ∧ ∃ G' L, G ⊆ G' ∧ hinv m' G' (L ++ R) F ∧ keeps F m m' ∧ leaks G L ∧ ∀ y, y ∈ L → is_Some (G' !! y)
  | Fresh n => ∃ L, grown m G R F L x n m' ∧ leaks G L ∧ (es ≠ [] → L = [])
  end.

Lemma leaks_nil G : leaks G [].
Proof. split; [constructor|]. by intros x ?%elem_of_nil. Qed.

Lemma grown_returns m G R F p es x n m' : grown m G R F [] x n m' → set_returns m G R F p es (Fresh n) x m'.
Proof. intros H. exists []. split; [done|]. split; [apply leaks_nil|done]. Qed.

Lemma update_ok m G R F p g i key hash es : hinv m G R F → G !! p = Some g → (i < length (g_leaves g))%nat →
  stops (heap_updateLeafEntry (g_leaves g) i key hash es m) ∨ ∃ x m', heap_updateLeafEntry (g_leaves g) i key hash es m = Done (x, m') ∧
    set_returns m G R F p es (updateLeafEntry (node_entries (g_tree g)) i key hash es) x m'.
Proof.
  intros H Hp Hi. pose proof (Forall2_length _ _ _ (live_leaves _ _ _ _ H p g Hp)) as Hlen. pose proof (lives_node G p g Hp) as Hl.
  destruct (lives_part _ _ _ i Hl) as [Ht _]. destruct (lives_part _ _ _ (S i) Hl) as [_ Hd].
  unfold heap_updateLeafEntry, updateLeafEntry. rewrite <- Hlen. destruct es as [|e es].
  - destruct (Nat.eqb_spec (length (g_leaves g)) 1) as [E|E].
    + right. eexists _, _. split; [done|]. split; [done|]. split; [done|]. exists G, []. split_and!; [done|done|done|apply leaks_nil|by intros y ?%elem_of_nil].
    + destruct (copy_leaves_ok G R _ _ (lives_app _ _ _ _ _ Ht Hd)) with (m := m) (F := F) as [Hs|(a & m1 & -> & H1 & K1 & A1)]; [|done|stopped|].
      { rewrite !length_app, !length_take, !length_drop. lia. }
      cbn [mbind res_bind]. destruct (leaf_node_ok m1 G R F a _ H1 A1) as [Hs|(x & m' & -> & H2)]; [by left|]. right. exists x, m'. split; [done|].
      apply grown_returns. apply (grown_after m m1 G G R F [] []); [done|done|exact H2].
  - destruct (rebuilt_leaf_ok m G R F _ _ (drop (S i) (g_leaves g)) (drop (S i) (node_entries (g_tree g))) key hash (e :: es) H Ht) as [Hs|(x & m' & E & H')]; [|exact Hd| |by left|].
    + rewrite !length_take. lia.
    + rewrite !length_drop. lia.
    + right. exists x, m'. split; [exact E|]. apply grown_returns. rewrite insert_take_drop by lia. exact H'.
Qed.

(** A new inner node whose children are old ones and [extra] new ones. *)
Lemma copy_inner_ok m m1 m2 G G' R F L x others kids cs extra bm :
  G ⊆ G' → hinv m1 G' (extra ++ L ++ R) F → keeps F m m1 → alloc_node m1 = Done (x, m2) → Forall (λ c, is_Some (G' !! c)) others →
  kids ≡ₚ others ++ extra → Forall2 (λ k c, ∃ gk, G' !! k = Some gk ∧ g_tree gk = c) kids cs → length cs = popcount bm →
  ∃ m3, inc_all others m2 = Some m3 ∧ (stops (finish_node x bm kids m3) ∨
    ∃ m', finish_node x bm kids m3 = Done (x, m') ∧ grown m G R F L x (mkNode bm cs []) m').
Proof.
  intros HG H HK E Ho Hk Hcs Hlen. destruct (hinv_alloc_node _ _ _ _ _ _ H E) as (H2 & K2 & B2 & _ & _).
  destruct (hinv_inc_all m2 G' _ _ others H2 Ho) as (m3 & E3 & H3 & K3). exists m3. split; [done|].
  destruct (finish_node_ok m3 G' (L ++ R) F x 0 0 0 bm kids cs) as [Hs|(m' & E4 & H4)]; [|by rewrite K3; [|left]|done|done|by left|].
  - eapply hinv_occ; [|done|exact H3]. intros y. rewrite (occ_app y kids), (occ_perm y _ _ Hk), !occ_app. lia.
  - right. exists m'. split; [done|]. apply (grown_after m m3 G G' R F [] L); [done| |exact H4].
    intros y Hy. rewrite K3, K2, HK; [done|done|done|by right].
Qed.

Lemma dropped_node_ok m m1 m2 G G' R F L x : G ⊆ G' → hinv m1 G' (L ++ R) F → keeps F m m1 → alloc_node m1 = Done (x, m2) → leaks G L →
  (∀ y, y ∈ L → is_Some (G' !! y)) → set_returns m G R F 0 [] Gone 0 m2.
Proof.
  intros HG H HK E [Hnd HL] HL'. destruct (hinv_alloc_node _ _ _ _ _ _ H E) as (H2 & K2 & B2 & N2 & Hx).
  destruct (hinv_commit m2 G' (L ++ R) (L ++ R) (x :: F) F x (mkGnode (mkNode 0 [] []) 0 0 [] [])) as [H3 Hn]; [done|done|done|exact B2|by split; try constructor|].
  split; [done|]. split; [done|]. exists (<[x := mkGnode (mkNode 0 [] []) 0 0 [] []]> G'), (x :: L). split_and!.
  - transitivity G'; [done|by apply insert_subseteq].
  - exact H3.
  - intros y Hy. by rewrite K2, HK.
  - split; [constructor; [|done]; intros Hx'; destruct (HL' x Hx'); congruence|]. intros y [->|Hy]%elem_of_cons; [|by apply HL].
    destruct (G !! x) eqn:Ex; [|done]. rewrite (lookup_weaken _ _ _ _ Ex HG) in Hn. done.
  - intros y [->|Hy]%elem_of_cons; [by rewrite lookup_insert_eq|]. destruct (HL' y Hy) as [g Hg].
    destruct (decide (x = y)) as [->|]; [by rewrite lookup_insert_eq|]. rewrite lookup_insert_ne by done. by eexists.
Qed.

Lemma kids_live (G : gmap Z gnode) (kids : list Z) (cs : list HamtNode) :
  Forall2 (λ k c, ∃ gk, G !! k = Some gk ∧ g_tree gk = c) kids cs → Forall (λ k, is_Some (G !! k)) kids.
Proof. induction 1 as [|k c kids cs (gk & Hk & _) _ IH]; constructor; [by eexists|done]. Qed.

(** The cases of an inner node [p] with the bitmap [bm] and the children [cs]. *)
Section Inner.
Context (m : Mem) (G : gmap Z gnode) (R F : list Z) (H : hinv m G R F) (p : Z) (g : gnode) (Hp : G !! p = Some g).
Context (bm : Z) (cs : list HamtNode) (Et : g_tree g = mkNode bm cs []) (Hlen : length cs = popcount bm) (idx : nat) (Hseg : (idx < 32)%nat).
Let pos := rank bm idx.
Let others := take pos (g_kids g) ++ drop (S pos) (g_kids g).

Lemma inner_kids : Forall2 (λ k c, ∃ gk, G !! k = Some gk ∧ g_tree gk = c) (g_kids g) cs.
Proof. destruct (h_node _ _ _ _ H p g Hp) as (Hok & _ & _). pose proof (go_kids _ _ _ Hok) as Hk. by rewrite Et in Hk. Qed.

Lemma inner_live G' : G ⊆ G' → Forall (λ k, is_Some (G' !! k)) (g_kids g) ∧ Forall (λ k, is_Some (G' !! k)) others.
Proof.
  intros HG. pose proof (kids_live _ _ _ (kids_weaken G G' _ _ HG inner_kids)) as Hl. split; [done|].
  apply Forall_app. split; [by apply Forall_take|by apply Forall_drop].
Qed.

Lemma set_insert_ok key hash e es : Z.testbit bm (Z.of_nat idx) = false →
  let r := ('(c, m1) ← new_leaf_node key hash (e :: es) m; '(x, m2) ← alloc_node m1; m3 ← found (inc_all (g_kids g) m2);
            finish_node x (Z.lor bm (bit_of idx)) (take pos (g_kids g) ++ c :: drop pos (g_kids g)) m3) in
  stops r ∨ ∃ y m', r = Done (y, m') ∧
    set_returns m G R F p (e :: es) (Fresh (mkNode (Z.lor bm (bit_of idx)) (take pos cs ++ leafNode [mkLeaf hash key (e :: es)] :: drop pos cs) [])) y m'.
Proof.
  intros Eb. cbv zeta. destruct (new_leaf_ok m G R F key hash (e :: es) H) as [Hs|(c & m1 & -> & Hgr)]; [stopped|]. cbn [mbind res_bind].
  pose proof Hgr as (G' & g' & HG & Hn & Hx & Ht & H1 & K1).
  destruct (alloc_node_stops m1 _ _ _ H1) as [Hs|(y & m2 & Ey)]; [stopped|]. rewrite Ey. cbn [mbind res_bind]. pose proof (kids_weaken G G' _ _ HG inner_kids) as Hk.
  destruct (copy_inner_ok m m1 m2 G G' R F [] y (g_kids g) (take pos (g_kids g) ++ c :: drop pos (g_kids g)) (take pos cs ++ leafNode [mkLeaf hash key (e :: es)] :: drop pos cs)
    [c] (Z.lor bm (bit_of idx)) HG H1 K1 Ey (proj1 (inner_live G' HG))) as (m3 & -> & [Hs|(m' & E5 & H4)]); [| | |by left|].
  - rewrite <- (take_drop pos (g_kids g)) at 3. rewrite <- app_assoc. apply Permutation_app_head. apply Permutation_cons_append.
  - apply Forall2_app; [by apply Forall2_take|]. constructor; [by exists g'|]. by apply Forall2_drop.
  - by apply length_slot_insert.
  - right. exists y, m'. split; [exact E5|]. by apply grown_returns.
Qed.

Context (Eb : Z.testbit bm (Z.of_nat idx) = true).

Lemma inner_pos : (pos < length (g_kids g))%nat.
Proof. rewrite (Forall2_length _ _ _ inner_kids), Hlen. unfold pos, popcount. apply rank_lt; [done|lia]. Qed.

Lemma set_gone_ok k m1 x m2 : set_returns m G R F k [] Gone 0 m1 → alloc_node m1 = Done (x, m2) →
  ∃ m3, inc_all others m2 = Some m3 ∧
    let r := if Z.ldiff bm (bit_of idx) =? 0 then Done (0, m3) else finish_node x (Z.ldiff bm (bit_of idx)) others m3 in
    stops r ∨ ∃ z m', r = Done (z, m') ∧ set_returns m G R F p [] (set_child bm cs idx Gone) z m'.
Proof.
  intros (_ & _ & G' & L & HG & H1 & K1 & HL & HL') Ex. pose proof (length_slot_delete bm cs idx Hseg Hlen Eb) as Hlen'. fold pos in Hlen'.
  cbn [set_child]. fold pos. destruct (Z.eqb_spec (Z.ldiff bm (bit_of idx)) 0) as [Ez|Ez].
  - assert (others = []) as ->.
    { apply length_zero_iff_nil. rewrite Ez in Hlen'. change (popcount 0) with 0%nat in Hlen'. rewrite <- Hlen'. unfold others.
      rewrite !length_app, !length_take, !length_drop, (Forall2_length _ _ _ inner_kids). done. }
    exists m2. split; [done|]. right. eexists _, _. split; [done|]. exact (dropped_node_ok m m1 m2 G G' R F L x HG H1 K1 Ex HL HL').
  - destruct (copy_inner_ok m m1 m2 G G' R F L x others others (take pos cs ++ drop (S pos) cs) [] (Z.ldiff bm (bit_of idx)) HG H1 K1 Ex (proj2 (inner_live G' HG)))
      as (m3 & E3 & Hfin); [by rewrite app_nil_r| |done|].
    { apply (kids_weaken G); [done|]. pose proof inner_kids. apply Forall2_app; [by apply Forall2_take|by apply Forall2_drop]. }
    exists m3. split; [done|]. destruct Hfin as [Hs|(m' & E4 & H4)]; [by left|]. right. exists x, m'. split; [done|]. by exists L.
Qed.

Lemma set_fresh_ok k es n' c m1 x m2 : set_returns m G R F k es (Fresh n') c m1 → alloc_node m1 = Done (x, m2) →
  ∃ m3, inc_all others m2 = Some m3 ∧ let r := finish_node x bm (<[pos := c]> (g_kids g)) m3 in
    stops r ∨ ∃ z m', r = Done (z, m') ∧ set_returns m G R F p es (set_child bm cs idx (Fresh n')) z m'.
Proof.
  intros (L & Hgr & HL & Hes) Ex. pose proof Hgr as (G' & g' & HG & Hn & Hx & Ht & H1 & K1). pose proof inner_pos as Hpos.
  destruct (copy_inner_ok m m1 m2 G G' R F L x others (<[pos := c]> (g_kids g)) (<[pos := n']> cs) [c] bm HG H1 K1 Ex (proj2 (inner_live G' HG))) as (m3 & E3 & Hfin).
  - rewrite insert_take_drop by done. unfold others. rewrite <- app_assoc. apply Permutation_app_head. apply Permutation_cons_append.
  - apply Forall2_insert; [apply (kids_weaken G); [done|apply inner_kids]|by exists g'].
  - by rewrite length_insert.
  - exists m3. split; [done|]. destruct Hfin as [Hs|(m' & E4 & H4)]; [by left|]. right. exists x, m'. split; [done|]. by exists L.
Qed.

Lemma replaceChild_ok k gk es r c m1 : G !! k = Some gk → set_returns m G R F k es r c m1 →
  stops (heap_replaceChild p bm idx (g_kids g) k c m1) ∨ ∃ z m', heap_replaceChild p bm idx (g_kids g) k c m1 = Done (z, m') ∧
    set_returns m G R F p es (set_child bm cs idx r) z m'.
Proof.
  intros Hk Hret. unfold heap_replaceChild. rewrite pos_of_rank by lia. fold pos. fold others. destruct r as [| |n'].
  - destruct Hret as (-> & -> & ->). rewrite decide_True by done. right. by eexists _, _.
  - pose proof Hret as (-> & -> & G1 & L1 & _ & H1 & _). rewrite decide_False by (intros E0; by apply (node_ptr _ _ _ _ H k gk Hk)).
    destruct (alloc_node_stops m1 _ _ _ H1) as [Hs|(x & m2 & Ex)]; [stopped|]. rewrite Ex. cbn [mbind res_bind].
    destruct (set_gone_ok k m1 x m2 Hret Ex) as (m3 & -> & Hfin). cbn [found mbind res_bind]. by rewrite decide_True.
  - pose proof Hret as (L & (G' & g' & HG & Hn & Hx & _ & H1 & _) & _). rewrite decide_False by (intros ->; congruence).
    destruct (alloc_node_stops m1 _ _ _ H1) as [Hs|(x & m2 & Ex)]; [stopped|]. rewrite Ex. cbn [mbind res_bind].
    destruct (set_fresh_ok k es n' c m1 x m2 Hret Ex) as (m3 & -> & Hfin). cbn [found mbind res_bind].
    by rewrite decide_False by (intros ->; by apply (node_ptr _ _ _ _ H1 0 g' Hx)).
Qed.
End Inner.

Lemma heap_set_ok hk key es fuel : ∀ p g d m G R F, hinv m G R F → G !! p = Some g → wf_node hk d (g_tree g) → fuel = (S hamtMaxDepth - d)%nat →
  stops (heap_set fuel p key (hk key) es d m) ∨
  ∃ x m', heap_set fuel p key (hk key) es d m = Done (x, m') ∧ set_returns m G R F p es (node_set (g_tree g) key (hk key) es d) x m'.
Proof.
  induction fuel as [|fuel IH]; intros p g d m G R F H Hp Hwf Hf.
  { exfalso. assert (d <= hamtMaxDepth)%nat by (destruct (g_tree g); inversion Hwf; lia). lia. }
  cbn [heap_set]. rewrite decide_False by (by eapply node_ptr). rewrite (live_read _ _ _ _ H p g Hp). cbn [found mbind res_bind].
  rewrite (live_entries _ _ _ _ H p g Hp). cbn [found mbind res_bind]. pose proof (live_leaves _ _ _ _ H p g Hp) as Hls.
  destruct (g_leaves g) as [|l ls] eqn:El.
  - pose proof (live_children _ _ _ _ H p g Hp) as Hcs. destruct (g_tree g) as [bm cs vs] eqn:Et. cbn [tree_bm node_entries] in *. inversion Hls. subst vs. clear Hls.
    rewrite Hcs. cbn [found mbind res_bind]. apply wf_inner_inv in Hwf as (Hd & Hlen & Hc). rewrite node_set_inner. cbn zeta.
    pose proof (segment_lt (hk key) d) as Hseg. rewrite land_bit_of, pos_of_rank by lia. set (idx := segment (hk key) d) in *.
    destruct (Z.testbit bm (Z.of_nat idx)) eqn:Eb; cbn [negb].
    + destruct (slot_present bm cs idx Hseg Hlen Eb) as [c Hslot]. rewrite Hslot. pose proof Hslot as Hc'. unfold slot in Hc'. rewrite Eb in Hc'.
      destruct (Forall2_lookup_r _ _ _ _ _ (inner_kids m G R F H p g Hp bm cs Et) Hc') as (k & Hk & gk & Hgk & Etk). rewrite Hk. cbn [found mbind res_bind].
      destruct (IH k gk (S d) m G R F H Hgk) as [Hs|(x & m1 & -> & Hret)]; [rewrite Etk; by apply (Hc idx)|lia|stopped|]. rewrite Etk in Hret. cbn [mbind res_bind].
      exact (replaceChild_ok m G R F H p g Hp bm cs Et Hlen idx Hseg Eb k gk es _ x m1 Hgk Hret).
    + destruct es as [|e es]; [right; by eexists _, _|]. exact (set_insert_ok m G R F H p g Hp bm cs Et Hlen idx Hseg key (hk key) e es Eb).
  - destruct (node_entries (g_tree g)) as [|v vs] eqn:Ev; [inversion Hls|]. destruct (g_tree g) as [bm cs vs0] eqn:Et. cbn [node_entries] in Ev. subst vs0.
    rewrite (find_key_index _ key _ _ Hls). cbn [found mbind res_bind]. rewrite (node_set_leaf hk).
    destruct (find_index key (v :: vs)) as [i|] eqn:Ei.
    + pose proof Ei as (a & v' & b & Evs & Ha & _)%find_index_Some. rewrite <- El.
      destruct (update_ok m G R F p g i key (hk key) es H Hp) as [Hs|(x & m' & E & Hret)]; [|by left|].
      { rewrite El, (Forall2_length _ _ _ Hls), Evs, length_app. simpl. lia. }
      right. exists x, m'. split; [done|]. by rewrite Et in Hret.
    + case_bool_decide as Ees; [subst; right; by eexists _, _|]. destruct es as [|e es]; [done|]. inversion Hls as [|???? (Hh & _) _]. subst. rewrite Hh.
      destruct (heap_setCollision_ok (hamtMaxDepth - d) p g (leafHash v) key (hk key) (e :: es) G Hp) with (m := m) (R := R) (F := F) as [Hs|(x & m' & E & Hgr)]; [done|done|by left|].
      right. exists x, m'. split; [done|]. rewrite Et in Hgr. by apply grown_returns.
Qed.

End Set_.

(** ** Releasing references *)

Lemma retire_nonnull_spec x m : blocks (retire_nonnull x m) = blocks m ∧
  ∀ y, occ y (retiredBlocks (retire_nonnull x m)).*1 = (occ y (retiredBlocks m).*1 + occ y (nonnull [x]))%nat.
Proof.
  unfold retire_nonnull, nonnull. destruct (decide (x = 0)) as [->|Hx]; (split; [done|]); intros y.
  - rewrite filter_cons_False by (intros Hz; by apply Hz). simpl. lia.
  - rewrite filter_cons_True by done. simpl. rewrite fmap_app, occ_app. simpl. lia.
Qed.

Lemma retire_leaves_spec ls m : blocks (retire_leaves ls m) = blocks m ∧
  ∀ y, occ y (retiredBlocks (retire_leaves ls m)).*1 = (occ y (retiredBlocks m).*1 + occ y (leaves_owned ls))%nat.
Proof.
  revert m. induction ls as [|l ls IH]; intros m; simpl; [split; [done|intros y; lia]|].
  destruct (retire_nonnull_spec (entityPtr l) m) as [E1 O1]. destruct (retire_nonnull_spec (entriesPtr l) (retire_nonnull (entityPtr l) m)) as [E2 O2].
  destruct (IH (retire_nonnull (entriesPtr l) (retire_nonnull (entityPtr l) m))) as [E3 O3]. rewrite E3, E2, E1. split; [done|].
  intros y. rewrite O3, O2, O1. unfold leaves_owned, leaf_owned, nonnull. simpl. rewrite occ_app, !filter_cons, !filter_nil. repeat case_decide; simpl; lia.
Qed.

Definition retire_node (p : Z) (g : gnode) (m : Mem) : Mem :=
  RetireBlock p true (retire_nonnull (g_ep g) (retire_nonnull (g_cp g) (retire_leaves (g_leaves g) m))).

Lemma retire_node_spec p g m : blocks (retire_node p g m) = blocks m ∧
  ∀ y, occ y (retiredBlocks (retire_node p g m)).*1 = (occ y (retiredBlocks m).*1 + occ y (owned g) + if decide (p = y) then 1 else 0)%nat.
Proof.
  unfold retire_node. destruct (retire_leaves_spec (g_leaves g) m) as [E1 O1]. destruct (retire_nonnull_spec (g_cp g) (retire_leaves (g_leaves g) m)) as [E2 O2].
  destruct (retire_nonnull_spec (g_ep g) (retire_nonnull (g_cp g) (retire_leaves (g_leaves g) m))) as [E3 O3]. simpl. rewrite E3, E2, E1. split; [done|].
  intros y. rewrite fmap_app, occ_app, O3, O2, O1. unfold owned, nonnull. simpl. rewrite occ_app, !filter_cons, !filter_nil. repeat case_decide; simpl; lia.
Qed.

(** What a node owns is no node, and is retired as such. *)
Lemma owned_kinds m G g x : g_ok (blocks m) G g → x ∈ owned g → kinds m !! x = Some false.
Proof.
  intros [_ _ Hl Hc He] [Hx|Hx]%elem_of_app; unfold kinds; rewrite lookup_fmap.
  - apply list_elem_of_filter in Hx as [Hx0 [->|[->|Hx]%elem_of_cons]%elem_of_cons]; [| |by apply elem_of_nil in Hx].
    + destruct (decide (g_kids g = [])); [congruence|]. by destruct Hc as [_ ->].
    + destruct (decide (g_leaves g = [])); [congruence|]. by destruct He as [_ ->].
  - clear Hc He. induction Hl as [|l v ls vs (_ & Hs & Hes) _ IH]; [by apply elem_of_nil in Hx|]. unfold leaves_owned in Hx. simpl in Hx. apply elem_of_app in Hx as [Hx|Hx]; [|by apply IH].
    unfold leaf_entityID, leaf_crdtEntries in Hs, Hes. apply list_elem_of_filter in Hx as [Hx0 [->|[->|Hx]%elem_of_cons]%elem_of_cons]; [| |by apply elem_of_nil in Hx].
    + rewrite decide_False in Hs by done. by destruct (blocks m !! entityPtr l) as [[]|].
    + rewrite decide_False in Hes by done. by destruct (blocks m !! entriesPtr l) as [[]|].
Qed.

Lemma retire_nonnull_acc x m : (x ∈ nonnull [x] → kinds m !! x = Some false) → accounted m → accounted (retire_nonnull x m).
Proof.
  intros Hx Hm. unfold retire_nonnull. case_decide as E; [done|]. apply accounted_retire; [|done]. apply Hx. unfold nonnull. rewrite filter_cons_True by done. by left.
Qed.

Lemma retire_kinds x m : kinds (retire_nonnull x m) = kinds m.
Proof. unfold kinds. by destruct (retire_nonnull_spec x m) as [-> _]. Qed.

Lemma retire_leaves_acc ls : ∀ m, (∀ x, x ∈ leaves_owned ls → kinds m !! x = Some false) → accounted m → accounted (retire_leaves ls m).
Proof.
  induction ls as [|l ls IH]; intros m Hx Hm; simpl; [done|]. unfold leaves_owned in Hx. simpl in Hx.
  assert (∀ x, x ∈ leaf_owned l → kinds m !! x = Some false) as Hl by (intros x Hin; apply Hx, elem_of_app; by left).
  unfold leaf_owned in Hl. change [entityPtr l; entriesPtr l] with ([entityPtr l] ++ [entriesPtr l]) in Hl. unfold nonnull in Hl. rewrite filter_app in Hl.
  apply IH; [intros x Hin; rewrite !retire_kinds; apply Hx, elem_of_app; by right|].
  apply retire_nonnull_acc; [rewrite retire_kinds; intros Hin; apply Hl, elem_of_app; by right|].
  apply retire_nonnull_acc; [intros Hin; apply Hl, elem_of_app; by left|done].
Qed.

Lemma retire_node_acc p g m : (∀ x, x ∈ owned g → kinds m !! x = Some false) → kinds m !! p = Some true → accounted m → accounted (retire_node p g m).
Proof.
  intros Hx Hp Hm. unfold retire_node. unfold owned, nonnull in Hx. change [g_cp g; g_ep g] with ([g_cp g] ++ [g_ep g]) in Hx. rewrite filter_app in Hx.
  assert (kinds (retire_leaves (g_leaves g) m) = kinds m) as Ek by (unfold kinds; by destruct (retire_leaves_spec (g_leaves g) m) as [-> _]).
  apply accounted_retire; [by rewrite !retire_kinds, Ek|].
  apply retire_nonnull_acc; [rewrite retire_kinds, Ek; intros Hin; apply Hx, elem_of_app; left; apply elem_of_app; by right|].
  apply retire_nonnull_acc; [rewrite Ek; intros Hin; apply Hx, elem_of_app; left; apply elem_of_app; by left|].
  apply retire_leaves_acc; [|done]. intros x Hin. apply Hx, elem_of_app. by right.
Qed.

(** The last reference to [p] goes: its children lose theirs later. *)
Lemma hinv_die m G R F p g rc : hinv m G (p :: R) F → G !! p = Some g → count_of G (p :: R) p = 1%nat →
  hinv (retire_node p g (set_blocks (<[p := BNode rc (tree_bm (g_tree g)) (g_cp g) (g_ep g)]> (blocks m)) m)) (delete p G) (g_kids g ++ R) F.
Proof.
  intros H Hp Hc. set (m1 := set_blocks _ _). destruct (retire_node_spec p g m1) as [Eb Or].
  assert (occ p (gather g_kids G) = 0 ∧ occ p R = 0)%nat as [Hk HR] by (unfold count_of in Hc; simpl in Hc; rewrite decide_True in Hc by done; lia).
  assert (∀ q, count_of (delete p G) (g_kids g ++ R) q = if decide (q = p) then 0%nat else count_of G (p :: R) q) as Hcount.
  { intros q. unfold count_of. rewrite occ_app. pose proof (occ_perm q _ _ (gather_delete g_kids G p g Hp)) as E. rewrite occ_app in E.
    simpl. destruct (decide (q = p)) as [->|Hne]; [lia|]. rewrite (decide_False (P := p = q)) by congruence. lia. }
  assert (accounted (retire_node p g m1)) as Hacc.
  { destruct (h_node _ _ _ _ H p g Hp) as (Hok & _ & Hb). assert (kinds m1 = kinds m) as Ek by by eapply kinds_set.
    apply retire_node_acc; rewrite ?Ek; [intros x Hx; by eapply owned_kinds|unfold kinds; by rewrite lookup_fmap, Hb|]. eapply accounted_set; [exact Hb|done|apply H]. }
  pose proof (node_ptr _ _ _ _ H p g Hp) as Hp0. split; [rewrite ?Eb; simpl..|exact Hacc].
  - rewrite lookup_insert_ne by done. apply (h_null _ _ _ _ H).
  - intros q g' [Hne Hq]%lookup_delete_Some. rewrite Hcount, decide_False by congruence. destruct (h_node _ _ _ _ H q g' Hq) as (Hok & Hcq & Hb). split_and!; [|done|].
    + eapply g_ok_agree; [| |exact Hok].
      * intros x Hx. destruct (owned_present _ _ _ _ H q g' x Hq Hx) as (_ & Hn & _). rewrite lookup_insert_ne; [done|]. intros ->. congruence.
      * intros k gk Hkq Hgk. rewrite lookup_delete_ne; [done|]. intros <-. apply occ_elem in Hkq. pose proof (gather_part g_kids G q g' p Hq). lia.
    + by rewrite lookup_insert_ne.
  - intros x. rewrite Hcount. case_decide as E; [lia|]. intros Hx. rewrite lookup_delete_ne by congruence. by apply (h_closed _ _ _ _ H).
  - intros x. rewrite Or. simpl. pose proof (h_own _ _ _ _ H x) as Ho. pose proof (occ_perm x _ _ (gather_delete owned G p g Hp)) as E. rewrite occ_app in E.
    destruct (decide (p = x)) as [<-|Hne].
    + rewrite lookup_delete_eq, lookup_insert_eq. rewrite Hp in Ho. destruct (h_node _ _ _ _ H p g Hp) as (_ & _ & Hb). rewrite Hb in Ho. simpl in *. lia.
    + rewrite lookup_delete_ne, lookup_insert_ne by done. lia.
Qed.

Lemma occ_length i l : (occ i l <= length l)%nat.
Proof. induction l as [|x l IH]; simpl; [lia|]. case_decide; lia. Qed.

Lemma i32_zero c : 0 <= c < 2 ^ 32 → i32 c = 0 → c = 0.
Proof. unfold i32. intros Hc E. pose proof (Z.div_mod (c + 2 ^ 31) (2 ^ 32) ltac:(lia)). pose proof (Z.mod_pos_bound (c + 2 ^ 31) (2 ^ 32) ltac:(lia)). lia. Qed.

Lemma nonnull_app a b : nonnull (a ++ b) = nonnull a ++ nonnull b.
Proof. apply filter_app. Qed.

Lemma nonnull_id l : (∀ x, x ∈ l → x ≠ 0) → nonnull l = l.
Proof.
  induction l as [|x l IH]; intros H; [done|]. unfold nonnull. rewrite filter_cons_True by (apply H; by left). f_equal. apply IH. intros y Hy. apply H. by right.
Qed.

Lemma dec_loop_ok R F fuel : ∀ stack m G, hinv m G (nonnull stack ++ R) F → (length stack + length (gather g_kids G) < fuel)%nat →
  Z.of_nat (length stack + length R + length (gather g_kids G)) < 2 ^ 32 →
  ∃ m' G', dec_loop fuel stack m = Some m' ∧ G' ⊆ G ∧ hinv m' G' R F ∧ keeps F m m'.
Proof.
  induction fuel as [|fuel IH]; intros stack m G H Hf HT; [lia|]. cbn [dec_loop].
  destruct stack as [|p stack]; [by exists m, G|]. destruct (decide (p = 0)) as [->|Hp0].
  { apply IH; [|simpl in *; lia|simpl in *; lia]. eapply hinv_occ; [|done|exact H]. intros y. by unfold nonnull; rewrite filter_cons_False by (intros Hz; by apply Hz). }
  unfold nonnull in H. rewrite filter_cons_True in H by done. fold (nonnull stack) in H. simpl in H.
  destruct (h_closed _ _ _ _ H p) as [g Hp]. { unfold count_of. simpl. rewrite decide_True by done. lia. }
  destruct (h_node _ _ _ _ H p g Hp) as (Hok & Hc & Hb). rewrite Hb. cbn zeta. rewrite i32_pred.
  assert (Z.of_nat (count_of G (p :: nonnull stack ++ R) p) < 2 ^ 32) as Hbound.
  { unfold count_of. pose proof (occ_length p (gather g_kids G)). pose proof (occ_length p (p :: nonnull stack ++ R)) as Hl.
    assert (length (nonnull stack) <= length stack)%nat by apply length_filter. rewrite length_cons, length_app in Hl. simpl length in HT. lia. }
  assert (count_of G (p :: nonnull stack ++ R) p = S (count_of G (nonnull stack ++ R) p)) as Hs by (unfold count_of; simpl; rewrite decide_True by done; lia).
  assert (∀ x, x ∈ F → x ≠ p) as HFp by (intros x Hx ->; destruct (floating_present _ _ _ _ H p Hx) as (_ & ? & _); congruence).
  case_decide as E0.
  - apply i32_zero in E0; [|lia]. cbn [set_blocks blocks].
    assert (getChildren (g_cp g) (popcount (tree_bm (g_tree g))) (<[p := BNode (i32 (Z.of_nat (count_of G (p :: nonnull stack ++ R) p) - 1)) (tree_bm (g_tree g)) (g_cp g) (g_ep g)]> (blocks m)) = Some (g_kids g)) as ->.
    { pose proof (live_children _ _ _ _ H p g Hp) as E. unfold getChildren in *. case_decide; [done|]. rewrite lookup_insert_ne; [done|]. intros Ep. by rewrite <- Ep, Hb in E. }
    assert (getEntries (g_ep g) (<[p := BNode (i32 (Z.of_nat (count_of G (p :: nonnull stack ++ R) p) - 1)) (tree_bm (g_tree g)) (g_cp g) (g_ep g)]> (blocks m)) = Some (g_leaves g)) as ->.
    { pose proof (live_entries _ _ _ _ H p g Hp) as E. unfold getEntries in *. case_decide; [done|]. rewrite lookup_insert_ne; [done|]. intros Ep. by rewrite <- Ep, Hb in E. }
    cbn [mbind option_bind]. pose proof (Permutation_length (gather_delete g_kids G p g Hp)) as Hl. rewrite length_app in Hl.
    set (m1 := set_blocks _ _). fold (retire_node p g m1).
    destruct (IH (rev (g_kids g) ++ stack) (retire_node p g m1) (delete p G)) as (m' & G' & E & HG & H' & HK).
    + eapply hinv_occ; [|done|apply hinv_die; [exact H|done|lia]]. intros y. rewrite nonnull_app, (nonnull_id (rev (g_kids g))), !occ_app; [rewrite (occ_perm y (rev (g_kids g)) (g_kids g)); [lia|symmetry; apply Permutation_rev]|].
      intros k [i Hk]%list_elem_of_In%in_rev%list_elem_of_In%list_elem_of_lookup. destruct (kid_node _ _ _ _ H p g i k Hp Hk) as (gk & Hgk & _). by eapply node_ptr.
    + rewrite length_app, length_rev. simpl length in Hf. lia.
    + rewrite length_app, length_rev. simpl length in HT. lia.
    + exists m', G'. split; [done|]. split; [transitivity (delete p G); [done|apply delete_subseteq]|]. split; [done|].
      intros x Hx. rewrite HK by done. destruct (retire_node_spec p g m1) as [-> _]. simpl. rewrite lookup_insert_ne; [done|]. intros <-. by apply (HFp p).
  - assert (0 < count_of G (nonnull stack ++ R) p)%nat by (destruct (count_of G (nonnull stack ++ R) p); [exfalso; apply E0; by rewrite Hs|lia]).
    destruct (IH stack (set_blocks (<[p := BNode (i32 (Z.of_nat (count_of G (p :: nonnull stack ++ R) p) - 1)) (tree_bm (g_tree g)) (g_cp g) (g_ep g)]> (blocks m)) m) G) as (m' & G' & E & HG & H' & HK).
    + eapply hinv_recount; [exact H|done| |done|rewrite Hs; f_equal; lia]. intros x Hx. simpl. by rewrite decide_False by congruence.
    + simpl length in Hf. lia.
    + simpl length in HT. lia.
    + exists m', G'. split; [done|]. split; [done|]. split; [done|]. intros x Hx. rewrite HK by done. simpl. rewrite lookup_insert_ne; [done|]. intros <-. by apply (HFp p).
Qed.

(** ** How many references there are *)

Definition words_at (bs : gmap Z memBlock) (xs : list Z) : nat := list_sum (map (λ x, from_option block_words 0%nat (bs !! x)) xs).

Lemma words_delete bs x b : bs !! x = Some b → words_used bs = (block_words b + words_used (delete x bs))%nat.
Proof.
  intros H. unfold words_used. rewrite <- (insert_delete_id bs x b H) at 1.
  assert (∀ l k : list (Z * memBlock), l ≡ₚ k → list_sum (map (λ kv, block_words kv.2) l) = list_sum (map (λ kv, block_words kv.2) k)) as Hperm
    by (induction 1; simpl; lia).
  rewrite (Hperm _ _ (map_to_list_insert (delete x bs) x b (lookup_delete_eq bs x))). done.
Qed.

Lemma words_at_le xs : ∀ bs, NoDup xs → (words_at bs xs <= words_used bs)%nat.
Proof.
  induction xs as [|x xs IH]; intros bs Hnd; [unfold words_at; simpl; lia|]. apply NoDup_cons in Hnd as [Hx Hnd]. unfold words_at. simpl. fold (words_at bs xs).
  destruct (bs !! x) as [b|] eqn:E; simpl; [|by apply IH]. rewrite (words_delete bs x b E). specialize (IH (delete x bs) Hnd).
  assert (words_at (delete x bs) xs = words_at bs xs) as <-; [|lia]. unfold words_at. f_equal. apply map_ext_in. intros y Hy.
  rewrite lookup_delete_ne; [done|]. intros <-. by apply Hx, list_elem_of_In.
Qed.

Lemma words_at_app bs xs ys : words_at bs (xs ++ ys) = (words_at bs xs + words_at bs ys)%nat.
Proof. unfold words_at. by rewrite map_app, list_sum_app. Qed.

Lemma words_at_ge bs xs : (∀ x, x ∈ xs → ∃ b, bs !! x = Some b ∧ (1 <= block_words b)%nat) → (length xs <= words_at bs xs)%nat.
Proof.
  induction xs as [|x xs IH]; intros H; [done|]. unfold words_at. simpl. fold (words_at bs xs). destruct (H x) as (b & -> & Hb); [by left|]. simpl.
  assert (length xs <= words_at bs xs)%nat; [|lia]. apply IH. intros y Hy. apply H. by right.
Qed.

Lemma NoDup_occ l : (∀ x, (occ x l <= 1)%nat) → NoDup l.
Proof.
  induction l as [|x l IH]; intros H; constructor.
  - rewrite occ_elem. specialize (H x). simpl in H. rewrite decide_True in H by done. lia.
  - apply IH. intros y. specialize (H y). simpl in H. lia.
Qed.

Lemma occ_NoDup l x : NoDup l → (occ x l <= 1)%nat.
Proof.
  induction 1 as [|y l Hy Hl IH]; simpl; [lia|]. case_decide as E; [|lia]. subst. rewrite occ_elem in Hy. lia.
Qed.

(** The references, the wrappers and the dropped nodes are words of memory. *)
Lemma reference_words m G R F L : hinv m G R F → NoDup L → (∀ x, x ∈ L → is_Some (G !! x)) →
  (∀ w, w ∈ F → ∃ r sd c, blocks m !! w = Some (BHAMT r sd c)) →
  (length (gather g_kids G) + length F + length L <= words_used (blocks m))%nat.
Proof.
  intros H HL HLG HF. set (cps := gather (λ g, nonnull [g_cp g]) G).
  assert (∀ x, occ x cps <= occ x (gather owned G))%nat as Hcps.
  { intros x. unfold cps, gather. induction (map_to_list G) as [|[p g] l IH]; [done|]. simpl. rewrite !occ_app.
    assert (occ x (nonnull [g_cp g]) <= occ x (owned g))%nat; [|lia]. unfold owned. rewrite occ_app. change [g_cp g; g_ep g] with ([g_cp g] ++ [g_ep g]).
    rewrite nonnull_app, occ_app. lia. }
  assert (length (gather g_kids G) = words_at (blocks m) cps) as ->.
  { unfold cps, gather. assert (Forall (λ kv, g_ok (blocks m) G kv.2) (map_to_list G)) as Hall.
    { apply Forall_forall. intros [p g] Hpg%elem_of_map_to_list. by destruct (h_node _ _ _ _ H p g Hpg). }
    induction Hall as [|[p g] l Hg _ IH]; [done|]. simpl in *. rewrite length_app, IH, words_at_app. f_equal. pose proof (go_children _ _ _ Hg) as Hc.
    unfold nonnull. destruct (decide (g_kids g = [])) as [E|E].
    - rewrite Hc, filter_cons_False by (intros Hz; by apply Hz). by rewrite E.
    - destruct Hc as [Hc Hb]. rewrite filter_cons_True by done. unfold words_at. simpl. rewrite Hb. simpl. lia. }
  pose proof (words_at_ge (blocks m) F) as HF'. pose proof (words_at_ge (blocks m) L) as HL'. pose proof (words_at_le (cps ++ F ++ L) (blocks m)) as Hle.
  rewrite !words_at_app in Hle. assert (NoDup (cps ++ F ++ L)) as Hnd.
  { apply NoDup_occ. intros x. rewrite !occ_app. pose proof (h_own _ _ _ _ H x) as Ho. specialize (Hcps x). pose proof (occ_NoDup L x HL) as Hx.
    assert (present (blocks m !! x) <= 1)%nat by (by destruct (blocks m !! x); simpl; lia). destruct (decide (x ∈ L)) as [Hin|Hin].
    - destruct (HLG x Hin) as [g Hg]. rewrite Hg in Ho. simpl in Ho. lia.
    - assert (occ x L = 0)%nat by (rewrite occ_elem in Hin; lia). lia. }
  specialize (Hle Hnd). assert (length F <= words_at (blocks m) F)%nat by (apply HF'; intros w (r & sd & c & ->)%HF; eexists; split; [done|simpl; lia]).
  assert (length L <= words_at (blocks m) L)%nat; [|lia]. apply HL'. intros x Hx. destruct (HLG x Hx) as [g Hg].
  destruct (h_node _ _ _ _ H x g Hg) as (_ & _ & ->). eexists. split; [done|simpl; lia].
Qed.

(** ** Without references nothing lives *)

Fixpoint height (n : HamtNode) : nat := match n with mkNode _ cs _ => S (foldr Nat.max 0%nat (map height cs)) end.

Lemma height_child n c : c ∈ tree_cs n → (height c < height n)%nat.
Proof.
  destruct n as [bm cs ls]. simpl. intros Hc. assert (height c <= foldr Nat.max 0%nat (map height cs))%nat; [|lia].
  induction cs as [|d cs IH]; [by apply elem_of_nil in Hc|]. apply elem_of_cons in Hc as [->|Hc]; simpl; [lia|]. specialize (IH Hc). lia.
Qed.

Lemma gather_in f G x : x ∈ gather f G → ∃ p g, G !! p = Some g ∧ x ∈ f g.
Proof.
  unfold gather. intros (l & Hx & Hl)%elem_of_concat. apply list_elem_of_fmap in Hl as ([p g] & -> & Hpg%elem_of_map_to_list). by exists p, g.
Qed.

Lemma unreferenced_empty m G F : hinv m G [] F → G = ∅.
Proof.
  intros H. apply map_empty. intros p. destruct (G !! p) as [g|] eqn:Hp; [exfalso|done].
  set (top := foldr Nat.max 0%nat (map (λ kv, height (g_tree kv.2)) (map_to_list G))).
  assert (∀ q gq, G !! q = Some gq → (height (g_tree gq) <= top)%nat) as Htop.
  { intros q gq Hq%elem_of_map_to_list. unfold top. induction (map_to_list G) as [|kv l IH]; [by apply elem_of_nil in Hq|].
    apply elem_of_cons in Hq as [<-|Hq]; simpl; [lia|]. specialize (IH Hq). lia. }
  revert p g Hp. assert (∀ n p g, G !! p = Some g → (top - height (g_tree g) <= n)%nat → False) as Hup; [|intros p g Hp; by eapply Hup].
  induction n as [|n IH]; intros p g Hp Hn; (destruct (h_node _ _ _ _ H p g Hp) as (_ & Hc & _));
    (unfold count_of in Hc; rewrite Nat.add_0_r, <- occ_elem in Hc; apply gather_in in Hc as (q & gq & Hq & [i Hk]%list_elem_of_lookup));
    (destruct (kid_node _ _ _ _ H q gq i p Hq Hk) as (gp & Hgp & Hcs); simplify_eq);
    (pose proof (height_child (g_tree gq) (g_tree g) ltac:(by eapply list_elem_of_lookup_2)); pose proof (Htop q gq Hq)); [lia|].
  apply (IH q gq Hq). lia.
Qed.

(** ** Versions *)

Section Versions.
Context `{MH : MapHash}.

(** Wrapper [w] is version [rh.2], with the root at [rh.1]. *)
Definition version_at (bs : gmap Z memBlock) (G : gmap Z gnode) (w : Z) (rh : Z * HAMT) : Prop :=
  bs !! w = Some (BHAMT rh.1 (seed rh.2) (count rh.2)) ∧
  match root rh.2 with
  | None => rh.1 = 0
  | Some n => ∃ g, G !! rh.1 = Some g ∧ g_tree g = n ∧ wf_node (hashKey rh.2) 0 n
  end.

Record sinv (s : Store) (G : gmap Z gnode) (rhs : list (Z * HAMT)) (L : list Z) : Prop := {
  s_heap : hinv (st_mem s) G (nonnull rhs.*1 ++ L) (st_versions s);
  s_versions : Forall2 (version_at (blocks (st_mem s)) G) (st_versions s) rhs;
  s_dropped : NoDup L ∧ ∀ x, x ∈ L → is_Some (G !! x);
}.

Lemma versions_weaken bs bs' G G' ws rhs : (∀ w, w ∈ ws → bs' !! w = bs !! w) → G ⊆ G' →
  Forall2 (version_at bs G) ws rhs → Forall2 (version_at bs' G') ws rhs.
Proof.
  intros Hb HG. induction 1 as [|w rh ws rhs [H1 H2] Hr IH]; constructor.
  - split; [rewrite Hb; [done|by left]|]. destruct (root rh.2) as [n|]; [|done]. destruct H2 as (g & Hg & ? & ?). exists g. split; [by eapply lookup_weaken|done].
  - apply IH. intros w' Hw. apply Hb. by right.
Qed.

(** Get on the version. *)
Lemma version_get m G R F w rh key : hinv m G R F → version_at (blocks m) G w rh →
  heap_get trie_fuel rh.1 key (hashKey rh.2 key) 0 (blocks m) = Some (HAMT_Get rh.2 key).
Proof.
  intros H [_ Hv]. unfold HAMT_Get. destruct (root rh.2) as [n|].
  - destruct Hv as (g & Hg & <- & Hwf). by eapply heap_get_ok.
  - rewrite Hv. done.
Qed.

Lemma version_HAMT_Get m G R F w rh key : hinv m G R F → version_at (blocks m) G w rh → heap_HAMT_Get w key (blocks m) = Some (HAMT_Get rh.2 key).
Proof.
  intros H Hv. unfold heap_HAMT_Get, read_HAMT. destruct Hv as [Hw Hv]. rewrite Hw. cbn [mbind option_bind]. eapply version_get; [exact H|by split].
Qed.

(** A new wrapper for the root [r]. *)
Lemma new_version_ok s G G' rhs L L' r h m1 : sinv s G rhs L → G ⊆ G' → hinv m1 G' (nonnull [r] ++ L' ++ nonnull rhs.*1 ++ L) (st_versions s) →
  keeps (st_versions s) (st_mem s) m1 → leaks G L' → (∀ x, x ∈ L' → is_Some (G' !! x)) →
  match root h with None => r = 0 | Some n => ∃ g, G' !! r = Some g ∧ g_tree g = n ∧ wf_node (hashKey h) 0 n end →
  stops (alloc (BHAMT r (seed h) (count h)) m1) ∨
  ∃ w m2, alloc (BHAMT r (seed h) (count h)) m1 = Done (w, m2) ∧ (w ∉ st_versions s) ∧ sinv (mkStore m2 (st_versions s ++ [w])) G' (rhs ++ [(r, h)]) (L' ++ L).
Proof.
  intros [H1 H2 [H3 H4]] HG H HK [HL HL'] HLG Hr. assert (is_node (BHAMT r (seed h) (count h)) = false → 0 < block_words (BHAMT r (seed h) (count h)))%nat as Hwd by (cbn [block_words]; lia).
  destruct (alloc_stops _ m1 _ _ _ H Hwd) as [Hs|(w & m2 & E)]; [by left|right]. destruct (hinv_alloc _ _ _ _ _ _ _ H Hwd E) as (Hm2 & K2 & Bw & Nw & _).
  exists w, m2. split; [done|]. split.
  { intros Hw. destruct (floating_present _ _ _ _ H w Hw) as ([b Hb] & _). congruence. }
  split; simpl.
  - eapply hinv_occ; [| |exact Hm2]; intros y; [|rewrite occ_app; simpl; lia]. rewrite fmap_app, nonnull_app. simpl. rewrite !occ_app. lia.
  - apply Forall2_app; [|constructor; [by split|constructor]]. eapply versions_weaken; [|exact HG|exact H2]. intros w' Hw. by rewrite K2, HK.
  - split.
    + apply NoDup_app. split; [done|]. split; [|done]. intros x Hx Hx'. destruct (H4 x Hx') as [g Hg]. rewrite (HL' x Hx) in Hg. done.
    + intros x [Hx|Hx]%elem_of_app; [by apply HLG|]. destruct (H4 x Hx) as [g Hg]. exists g. by eapply lookup_weaken.
Qed.

Lemma no_leaks_sub (G : gmap Z gnode) : ∀ x, x ∈ ([] : list Z) → is_Some (G !! x).
Proof. by intros x ?%elem_of_nil. Qed.

Lemma grown_root s G rhs L L' x n m' : sinv s G rhs L → grown (st_mem s) G (nonnull rhs.*1 ++ L) (st_versions s) L' x n m' → leaks G L' →
  ∃ G' g, G ⊆ G' ∧ G' !! x = Some g ∧ g_tree g = n ∧ hinv m' G' (nonnull [x] ++ L' ++ nonnull rhs.*1 ++ L) (st_versions s) ∧
    keeps (st_versions s) (st_mem s) m' ∧ ∀ y, y ∈ L' → is_Some (G' !! y).
Proof.
  intros Hs (G' & g & HG & Hn & Hx & Ht & H & HK) HL. exists G', g. split_and!; try done.
  - assert (x ≠ 0) by (by eapply node_ptr). unfold nonnull at 1. rewrite filter_cons_True by done. exact H.
  - intros y Hy. apply (h_closed _ _ _ _ H). unfold count_of. simpl. rewrite occ_app. apply occ_elem in Hy. lia.
Qed.

(** The versions as values. *)
Definition spec_store_step (o : storeOp) (hs : list HAMT) : option (list HAMT) :=
  match o with
  | OpSet i key es => h ← hs !! i; Some (hs ++ [HAMT_Set h key es])
  | OpDelete i key => h ← hs !! i; Some (if decide (HAMT_Get h key = []) then hs else hs ++ [HAMT_Delete h key])
  | OpRelease i => _ ← hs !! i; Some (delete i hs)
  | OpReclaim _ => Some hs
  end.

Fixpoint spec_store_run (ops : list storeOp) (hs : list HAMT) : option (list HAMT) :=
  match ops with [] => Some hs | o :: ops' => hs' ← spec_store_step o hs; spec_store_run ops' hs' end.

(** A step keeps the invariant; without deletions no node is dropped. *)
Definition step_kept (o : storeOp) (s s' : Store) (rhs' : list (Z * HAMT)) (L : list Z) : Prop :=
  ∃ G' L', sinv s' G' rhs' L' ∧ match o with OpDelete _ _ => True | _ => L' = L end.

Lemma set_step_ok s G rhs L i key es r h : sinv s G rhs L → es ≠ [] → rhs !! i = Some (r, h) → stops (store_step (OpSet i key es) s) ∨
  ∃ s' r', store_step (OpSet i key es) s = Done s' ∧ step_kept (OpSet i key es) s s' (rhs ++ [(r', HAMT_Set h key es)]) L.
Proof.
  intros Hs Hes Hi. pose proof Hs as [H1 H2 H3]. destruct (Forall2_lookup_r _ _ _ _ _ H2 Hi) as (w & Hw & Hv). cbn [store_step]. rewrite Hw. cbn [found mbind res_bind].
  pose proof (version_get _ _ _ _ _ _ key H1 Hv) as Hget. destruct Hv as [Hb Hroot]. cbn [fst snd] in Hb, Hroot, Hget.
  unfold heap_HAMT_Set, read_HAMT. rewrite Hb. cbn [found mbind res_bind]. unfold hashKey in Hget. rewrite Hget. cbn [found mbind res_bind].
  destruct (root h) as [n|] eqn:Er.
  - destruct Hroot as (g & Hg & <- & Hwf). destruct (heap_set_ok (hashKey h) key es trie_fuel r g 0 _ _ _ _ H1 Hg Hwf eq_refl) as [Hst|(x & m1 & E & Hret)];
      [left; by apply stops_bind, stops_bind|].
    unfold hashKey in E. rewrite E. cbn [mbind res_bind]. pose proof (node_set_wf (hashKey h) (g_tree g) 0 key es Hwf) as Hwf'.
    destruct (node_set (g_tree g) key (hashKey h key) es 0) as [| |n'] eqn:En; [by destruct Hret|by destruct Hret|]. destruct Hret as (L' & Hgr & HL & HL').
    rewrite (HL' Hes) in *. destruct (grown_root _ _ _ _ _ _ _ _ Hs Hgr HL) as (G' & g' & HG & Hg' & Ht & Hm1 & HK & _).
    destruct (new_version_ok s G G' rhs L [] x (HAMT_Set h key es) m1 Hs HG Hm1 HK HL (no_leaks_sub _)) as [Hst|(w' & m2 & E2 & _ & Hs')].
    { unfold HAMT_Set. cbn [root]. rewrite Er, En. exists g'. split_and!; [done|done|]. exact Hwf'. }
    { left. by apply stops_bind. }
    unfold HAMT_Set in E2. cbn [seed count] in E2. rewrite E2. cbn [mbind res_bind]. right. eexists _, x. split; [done|]. by exists G', L.
  - subst r. change (heap_set trie_fuel 0 key (seededHash (seed h) key) es 0 (st_mem s)) with (Done (0, st_mem s)). cbn [mbind res_bind].
    destruct (new_version_ok s G G rhs L [] 0 (HAMT_Set h key es) (st_mem s) Hs) as [Hst|(w' & m2 & E2 & _ & Hs')]; [done|done|by intros ??|apply leaks_nil|apply no_leaks_sub| | |].
    { unfold HAMT_Set. cbn [root]. by rewrite Er. }
    { left. by apply stops_bind. }
    unfold HAMT_Set in E2. cbn [seed count] in E2. rewrite E2. cbn [mbind res_bind]. right. eexists _, 0. split; [done|]. by exists G, L.
Qed.

Lemma delete_step_ok s G rhs L i key r h : sinv s G rhs L → rhs !! i = Some (r, h) → stops (store_step (OpDelete i key) s) ∨
  ∃ s' rhs', store_step (OpDelete i key) s = Done s' ∧ rhs'.*2 = (if decide (HAMT_Get h key = []) then rhs.*2 else rhs.*2 ++ [HAMT_Delete h key]) ∧
    step_kept (OpDelete i key) s s' rhs' L.
Proof.
  intros Hs Hi. pose proof Hs as [H1 H2 H3]. destruct (Forall2_lookup_r _ _ _ _ _ H2 Hi) as (w & Hw & Hv). cbn [store_step]. rewrite Hw. cbn [found mbind res_bind].
  pose proof (version_get _ _ _ _ _ _ key H1 Hv) as Hget. destruct Hv as [Hb Hroot]. cbn [fst snd] in Hb, Hroot, Hget.
  unfold heap_HAMT_Delete, read_HAMT. rewrite Hb. cbn [found mbind res_bind]. unfold hashKey in Hget. rewrite Hget. cbn [found mbind res_bind].
  destruct (HAMT_Get h key) as [|e es] eqn:Eg.
  { right. exists s, rhs. cbn [mbind res_bind]. rewrite !decide_True by done. split; [by destruct s|]. split; [done|]. by exists G, L. }
  rewrite decide_False by done.
  pose proof Eg as Eg'. unfold HAMT_Get in Eg'. destruct (root h) as [n|] eqn:Er; [|done]. destruct Hroot as (g & Hg & <- & Hwf).
  destruct (heap_set_ok (hashKey h) key [] trie_fuel r g 0 _ _ _ _ H1 Hg Hwf eq_refl) as [Hst|(x & m1 & E & Hret)]; [left; by apply stops_bind, stops_bind|].
  unfold hashKey in E. rewrite E. cbn [mbind res_bind]. pose proof (node_set_wf (hashKey h) (g_tree g) 0 key [] Hwf) as Hwf'.
  pose proof (node_set_get (hashKey h) (g_tree g) 0 key [] key Hwf) as Hgone. rewrite String.eqb_refl in Hgone.
  assert (HAMT_Delete h key = mkHAMT (result_node (g_tree g) (node_set (g_tree g) key (hashKey h key) [] 0)) (seed h) (count h - 1)) as Ed
    by (unfold HAMT_Delete; by rewrite Eg, Er).
  assert (∃ G' L', G ⊆ G' ∧ hinv m1 G' (nonnull [x] ++ L' ++ nonnull rhs.*1 ++ L) (st_versions s) ∧ keeps (st_versions s) (st_mem s) m1 ∧ leaks G L' ∧
    (∀ y, y ∈ L' → is_Some (G' !! y)) ∧
    match root (HAMT_Delete h key) with None => x = 0 | Some n => ∃ g, G' !! x = Some g ∧ g_tree g = n ∧ wf_node (hashKey (HAMT_Delete h key)) 0 n end)
    as (G' & L' & HG & Hm1 & HK & HL & HLG & Hnew).
  { rewrite Ed. destruct (node_set (g_tree g) key (hashKey h key) [] 0) as [| |n'] eqn:En.
    - exfalso. unfold result_get in Hgone. cbn [result_node] in Hgone. by rewrite Eg' in Hgone.
    - destruct Hret as (_ & -> & G' & L' & HG & Hm1 & HK & HL & HLG). by exists G', L'.
    - destruct Hret as (L' & Hgr & HL & _). destruct (grown_root _ _ _ _ _ _ _ _ Hs Hgr HL) as (G' & g' & HG & Hg' & Ht & Hm1 & HK & HLG).
      exists G', L'. split_and!; try done. exists g'. split_and!; [done|done|exact Hwf']. }
  destruct (new_version_ok s G G' rhs L L' x (HAMT_Delete h key) m1 Hs HG Hm1 HK HL HLG Hnew) as [Hst|(w' & m2 & E2 & Hne & Hs')].
  { left. rewrite Ed in Hst. by apply stops_bind. }
  rewrite Ed in E2. cbn [seed count] in E2. rewrite E2. cbn [mbind res_bind]. right.
  rewrite decide_False by (intros ->; apply Hne; by eapply list_elem_of_lookup_2). eexists _, (rhs ++ [(x, HAMT_Delete h key)]). split; [done|]. split; [by rewrite fmap_app|].
  by exists G', (L' ++ L).
Qed.

Lemma delete_middle {A} (l : list A) i x : l !! i = Some x → l ≡ₚ x :: delete i l.
Proof. intros H. by rewrite <- (delete_Permutation _ _ _ H). Qed.

Lemma release_step_ok s G rhs L i r h : sinv s G rhs L → rhs !! i = Some (r, h) → Z.of_nat (words_used (blocks (st_mem s))) < 2 ^ 32 →
  ∃ s', store_step (OpRelease i) s = Done s' ∧ step_kept (OpRelease i) s s' (delete i rhs) L.
Proof.
  intros Hs Hi Hwords. pose proof Hs as [H1 H2 [H3 H4]]. destruct (Forall2_lookup_r _ _ _ _ _ H2 Hi) as (w & Hw & Hv). cbn [store_step]. rewrite Hw. cbn [found mbind res_bind].
  destruct Hv as [Hb _]. cbn [fst snd] in Hb. unfold free_version, read_HAMT. rewrite Hb. cbn [mbind option_bind].
  pose proof (reference_words _ _ _ _ L H1 H3 H4) as Hrw. specialize (Hrw ltac:(intros w' [j Hj]%list_elem_of_lookup; destruct (Forall2_lookup_l _ _ _ _ _ H2 Hj) as (rh & _ & E & _); by eexists _, _, _)).
  pose proof (Forall2_length _ _ _ H2) as Hlen. pose proof (lookup_lt_Some _ _ _ Hi) as Hlt.
  assert (∀ y, occ y (nonnull rhs.*1 ++ L) = occ y (nonnull [r] ++ nonnull (delete i rhs).*1 ++ L)) as Hocc.
  { intros y. rewrite (occ_app y (nonnull rhs.*1)). assert (occ y (nonnull rhs.*1) = occ y (nonnull ([r] ++ (delete i rhs).*1))) as ->; [|rewrite nonnull_app, !occ_app; lia].
    apply occ_perm. unfold nonnull. rewrite (delete_middle rhs i (r, h) Hi) at 1. done. }
  assert (length (nonnull (delete i rhs).*1) <= length rhs - 1)%nat as Hshort.
  { etransitivity; [apply length_filter|]. rewrite length_fmap, length_delete by by eexists. lia. }
  unfold DecRef. destruct (dec_loop_ok (nonnull (delete i rhs).*1 ++ L) (st_versions s) (S (words_used (blocks (st_mem s)))) [r] (st_mem s) G) as (m1 & G' & -> & HG & Hm1 & HK).
  { by eapply hinv_occ; [exact Hocc|done|]. }
  { simpl. lia. }
  { rewrite length_app. simpl length. lia. }
  cbn [found mbind option_bind res_bind]. eexists. split; [done|]. exists G', L. split; [|done]. cbn [st_mem st_versions].
  assert (∀ y, occ y (st_versions s) = occ y (w :: delete i (st_versions s))) as Hvs by (intros y; apply occ_perm; by apply delete_middle).
  destruct (floating_present _ _ _ _ Hm1 w) as ([b Hbw] & _ & Hw0); [by eapply list_elem_of_lookup_2|].
  assert (hinv (RetireBlock w false (set_blocks (<[w:=BHAMT 0 0 0]> (blocks m1)) m1)) G' (nonnull (delete i rhs).*1 ++ L) (delete i (st_versions s))) as Hfin.
  { eapply hinv_change; [exact Hm1| | | |]; cbn [RetireBlock set_blocks blocks retiredBlocks].
    - rewrite lookup_insert_ne by done. apply (h_null _ _ _ _ Hm1).
    - intros x _ Hx _. rewrite lookup_insert_ne; [done|]. intros <-. apply Hx. by eapply list_elem_of_lookup_2.
    - intros x. rewrite Hvs, fmap_app, occ_app. simpl. destruct (decide (w = x)) as [<-|Hne]; [rewrite lookup_insert_eq, Hbw; simpl; lia|].
      rewrite lookup_insert_ne by done. lia.
    - rewrite HK in Hbw by (by eapply list_elem_of_lookup_2). simplify_eq. rewrite <- (HK w) in Hb by (by eapply list_elem_of_lookup_2).
      apply accounted_retire; [unfold kinds; cbn [set_blocks blocks]; by rewrite lookup_fmap, lookup_insert_eq|]. eapply accounted_set; [exact Hb|done|apply Hm1]. }
  split; [exact Hfin| |].
  - apply Forall2_same_length_lookup. cbn [st_versions].
    split; [rewrite (length_delete (st_versions s)), (length_delete rhs) by (by eexists); lia|]. intros j w' [r' h'] Hj Hj'.
    cbn [RetireBlock set_blocks blocks st_mem]. assert (w' ≠ w) as Hne.
    { intros ->. pose proof (h_own _ _ _ _ Hm1 w) as Ho. rewrite Hvs, Hbw in Ho. simpl in Ho. rewrite decide_True in Ho by done.
      assert (0 < occ w (delete i (st_versions s)))%nat by (apply occ_elem; by eapply list_elem_of_lookup_2). lia. }
    assert (∃ j', st_versions s !! j' = Some w' ∧ rhs !! j' = Some (r', h')) as (j' & E1 & E2).
    { destruct (decide (j < i)%nat); [rewrite list_lookup_delete_lt in Hj by done; rewrite list_lookup_delete_lt in Hj' by done; by eexists|].
      rewrite list_lookup_delete_ge in Hj by lia. rewrite list_lookup_delete_ge in Hj' by lia. by eexists. }
    destruct (Forall2_lookup_lr _ _ _ _ _ _ H2 E1 E2) as [Hb' Hroot]. split.
    + rewrite lookup_insert_ne by congruence. rewrite HK; [done|by eapply list_elem_of_lookup_2].
    + cbn [fst snd] in *. destruct (root h') as [n|]; [|done]. destruct Hroot as (g & Hg & Ht & Hwf). exists g. split; [|done].
      destruct (h_closed _ _ _ _ Hm1 r') as [g' Hg'].
      { unfold count_of. rewrite occ_app. assert (0 < occ r' (nonnull (delete i rhs).*1))%nat; [|lia]. apply occ_elem, list_elem_of_filter.
        split; [by eapply (node_ptr _ _ _ _ H1)|]. apply list_elem_of_fmap. exists (r', h'). split; [done|]. by eapply list_elem_of_lookup_2. }
      rewrite Hg'. rewrite (lookup_weaken _ _ _ _ Hg' HG) in Hg. done.
  - split; [done|]. intros x Hx. apply (h_closed _ _ _ _ Hm1). unfold count_of. rewrite occ_app. apply occ_elem in Hx. lia.
Qed.

Lemma reclaim_step_ok s G rhs L k : sinv s G rhs L → ∃ s', store_step (OpReclaim k) s = Done s' ∧ step_kept (OpReclaim k) s s' rhs L.
Proof.
  intros Hs. pose proof Hs as [H1 H2 H3]. cbn [store_step]. unfold reclaim_block.
  destruct (retiredBlocks (st_mem s) !! k) as [[x b]|] eqn:Ek; [|exists s; split; [by destruct s|]; by exists G, L].
  eexists. split; [done|]. exists G, L. split; [|done].
  assert (∀ y, occ y (retiredBlocks (st_mem s)).*1 = ((if decide (x = y) then 1 else 0) + occ y (delete k (retiredBlocks (st_mem s))).*1)%nat) as Ho.
  { intros y. change (occ y (retiredBlocks (st_mem s)).*1 = occ y ((x, b) :: delete k (retiredBlocks (st_mem s))).*1). apply occ_perm. f_equiv. by apply delete_middle. }
  pose proof (h_own _ _ _ _ H1 x) as Hx. rewrite Ho, decide_True in Hx by done. destruct (blocks (st_mem s) !! x) as [bx|] eqn:Ex; simpl in Hx; [|lia].
  split; [|eapply versions_weaken; [|done|exact H2]|done]; cbn [st_mem st_versions].
  - eapply hinv_change; [exact H1| | | |]; cbn [blocks retiredBlocks].
    + destruct (decide (x = 0)) as [->|]; [apply lookup_delete_eq|]. rewrite lookup_delete_ne by done. apply (h_null _ _ _ _ H1).
    + intros y _ _ Hy. rewrite lookup_delete_ne; [done|]. intros <-. apply Hy, occ_elem. rewrite Ho, decide_True by done. lia.
    + intros y. rewrite Ho. destruct (decide (x = y)) as [<-|Hne]; [rewrite lookup_delete_eq, Ex; simpl; lia|]. rewrite lookup_delete_ne by done. lia.
    + destruct (h_arena _ _ _ _ H1) as [Ha Hret]. unfold accounted, kinds. cbn [blocks m_arena retiredBlocks]. rewrite fmap_delete. split.
      * apply arena_free_ok; [exact Ha|]. apply Hret. by eapply list_elem_of_lookup_2.
      * intros y c Hy. assert (y ∈ (delete k (retiredBlocks (st_mem s))).*1) as Hy' by (apply list_elem_of_fmap; by exists (y, c)).
        rewrite lookup_delete_ne; [|intros <-; apply occ_elem in Hy'; lia]. apply Hret. rewrite (delete_middle _ _ _ Ek). by right.
  - intros w Hw. cbn [blocks]. rewrite lookup_delete_ne; [done|]. intros <-. apply occ_elem in Hw. lia.
Qed.

Lemma new_store_ok sd a : arena_ok ∅ a → stops (new_store sd a) ∨ ∃ s G r, new_store sd a = Done s ∧ sinv s G [(r, NewHAMT sd)] [].
Proof.
  intros Ha. assert (hinv (mkMem ∅ [] a) ∅ [] []) as H0.
  { split; [done|by intros p g; rewrite lookup_empty| |by intros x; cbn [blocks]; rewrite !lookup_empty|].
    - intros x. unfold count_of, gather. rewrite map_to_list_empty. simpl. lia.
    - unfold accounted, kinds. cbn [blocks m_arena retiredBlocks]. rewrite fmap_empty. split; [done|]. by intros x b ?%elem_of_nil. }
  unfold new_store, heap_NewHAMT. assert (is_node (BHAMT 0 0 0) = false → 0 < block_words (BHAMT 0 0 0))%nat as Hw by (cbn [block_words]; lia).
  destruct (alloc_stops _ _ _ _ _ H0 Hw) as [Hs|(w & m1 & E1)]; [left; by apply stops_bind, stops_bind|]. rewrite E1. cbn [mbind res_bind].
  destruct (hinv_alloc _ _ _ _ _ _ _ H0 Hw E1) as (H1 & _ & B1 & _ & Hw0).
  destruct (alloc_node_stops _ _ _ _ H1) as [Hs|(r & m2 & E2)]; [left; by apply stops_bind, stops_bind|]. rewrite E2. cbn [mbind res_bind]. right.
  destruct (hinv_alloc_node _ _ _ _ _ _ H1 E2) as (H2 & K2 & B2 & _ & Hr).
  destruct (hinv_commit m2 ∅ [] [] [r; w] [w] r (mkGnode (mkNode 0 [] []) 0 0 [] [])) as [H3 _]; [done|done|done|exact B2|by split; try constructor|].
  rewrite <- (K2 w) in B1 by by left. eexists _, _, r. split; [done|]. split; cbn [st_mem st_versions].
  - cbn [fmap list_fmap fst]. unfold nonnull. rewrite filter_cons_True, app_nil_r by done. rewrite filter_nil.
    eapply hinv_change; [exact H3| | | |eapply accounted_set; [exact B1|done|apply H3]]; cbn [set_blocks blocks retiredBlocks].
    + rewrite lookup_insert_ne by done. apply (h_null _ _ _ _ H3).
    + intros x _ Hx _. rewrite lookup_insert_ne; [done|]. intros <-. apply Hx. by left.
    + intros x. destruct (decide (w = x)) as [<-|Hne]; [rewrite lookup_insert_eq, B1; simpl; lia|]. rewrite lookup_insert_ne by done. lia.
  - constructor; [|constructor]. split; [apply lookup_insert_eq|]. cbn. eexists. split; [apply lookup_insert_eq|]. split; [done|].
    destruct (wf_NewHAMT sd) as [[(n & [= <-] & Hwf) _] _]. exact Hwf.
  - split; [constructor|]. by intros x ?%elem_of_nil.
Qed.

Definition sets_something (o : storeOp) : Prop := match o with OpSet _ _ es => es ≠ [] | _ => True end.
Definition no_delete (o : storeOp) : Prop := match o with OpDelete _ _ => False | _ => True end.

Lemma store_step_ok o s G rhs L hs' : sinv s G rhs L → sets_something o → spec_store_step o rhs.*2 = Some hs' →
  Z.of_nat (words_used (blocks (st_mem s))) < 2 ^ 32 → stops (store_step o s) ∨ ∃ s' rhs', store_step o s = Done s' ∧ rhs'.*2 = hs' ∧ step_kept o s s' rhs' L.
Proof.
  intros Hs Ho Hspec Hw. destruct o as [i key es|i key|i|k]; cbn [spec_store_step] in Hspec.
  - rewrite list_lookup_fmap in Hspec. destruct (rhs !! i) as [[r h]|] eqn:Ei; [|done]. simplify_eq/=.
    destruct (set_step_ok s G rhs L i key es r h Hs Ho Ei) as [Hst|(s' & r' & E & Hk)]; [by left|right].
    exists s', (rhs ++ [(r', HAMT_Set h key es)]). split; [done|]. by rewrite fmap_app.
  - rewrite list_lookup_fmap in Hspec. destruct (rhs !! i) as [[r h]|] eqn:Ei; [|done]. cbn [fmap option_fmap option_map snd mbind option_bind] in Hspec. simplify_eq.
    destruct (delete_step_ok s G rhs L i key r h Hs Ei) as [Hst|(s' & rhs' & E & Er & Hk)]; [by left|right]. by exists s', rhs'.
  - right. rewrite list_lookup_fmap in Hspec. destruct (rhs !! i) as [[r h]|] eqn:Ei; [|done]. simplify_eq/=.
    destruct (release_step_ok s G rhs L i r h Hs Ei Hw) as (s' & E & Hk). exists s', (delete i rhs). split; [done|]. split; [|done].
    unfold fmap. by rewrite list_fmap_delete.
  - right. simplify_eq. destruct (reclaim_step_ok s G rhs L k Hs) as (s' & E & Hk). by exists s', rhs.
Qed.

(** 2^32 words of memory at every point of the run, so that no reference count
    wraps. *)
Definition fits_memory (ops : list storeOp) (s : Store) : Prop :=
  ∀ k s', store_run (take k ops) s = Done s' → Z.of_nat (words_used (blocks (st_mem s'))) < 2 ^ 32.

Lemma store_run_ok ops : ∀ s G rhs L hs, sinv s G rhs L → Forall sets_something ops → spec_store_run ops rhs.*2 = Some hs → fits_memory ops s →
  stops (store_run ops s) ∨ ∃ s' G' rhs' L', store_run ops s = Done s' ∧ rhs'.*2 = hs ∧ sinv s' G' rhs' L' ∧ (Forall no_delete ops → L' = L).
Proof.
  induction ops as [|o ops IH]; intros s G rhs L hs Hs Ho Hspec Hfit; simpl in Hspec; [right; simplify_eq; by exists s, G, rhs, L|].
  apply Forall_cons in Ho as [Ho1 Ho2]. destruct (spec_store_step o rhs.*2) as [hs1|] eqn:E1; [|done]. cbn [mbind option_bind] in Hspec. cbn [store_run].
  destruct (store_step_ok o s G rhs L hs1 Hs Ho1 E1) as [Hst|(s1 & rhs1 & Es & <- & G1 & L1 & Hs1 & HL1)]; [by apply (Hfit O)|stopped|]. rewrite Es. cbn [mbind res_bind].
  destruct (IH s1 G1 rhs1 L1 hs Hs1 Ho2 Hspec) as [Hst|(s' & G' & rhs' & L' & E & ? & ? & HL)]; [|by left|right].
  { intros k s' Hk. apply (Hfit (S k)). simpl. by rewrite Es. }
  exists s', G', rhs', L'. split; [exact E|]. split; [done|]. split; [done|]. intros Hnd. apply Forall_cons in Hnd as [Hn1 Hn2].
  rewrite (HL Hn2). by destruct o.
Qed.

Definition fits_words (sd : Z) (a : arena) (ops : list storeOp) : Prop :=
  ∀ k s, run_store sd a (take k ops) = Done s → Z.of_nat (words_used (blocks (st_mem s))) < 2 ^ 32.

Lemma run_store_ok sd a ops hs : arena_ok ∅ a → Forall sets_something ops → spec_store_run ops [NewHAMT sd] = Some hs → fits_words sd a ops →
  stops (run_store sd a ops) ∨ ∃ s G rhs L, run_store sd a ops = Done s ∧ rhs.*2 = hs ∧ sinv s G rhs L ∧ (Forall no_delete ops → L = []).
Proof.
  intros Ha Ho Hspec Hfit. unfold run_store. destruct (new_store_ok sd a Ha) as [Hst|(s0 & G0 & r & E0 & H0)]; [stopped|]. rewrite E0. cbn [mbind res_bind].
  apply (store_run_ok ops s0 G0 [(r, NewHAMT sd)] []); [done|done|done|]. intros k s Hk. apply (Hfit k). unfold run_store. by rewrite E0.
Qed.

(** C14.  The trie in the arena is the persistent trie.  Take a new arena and any
    sequence of Sets with entries, Deletes, releases of versions and reclamations
    of retired blocks that names versions that exist, with memory below 2^32 words
    throughout.  Either it stops because the arena is exhausted (which an arena
    that refuses no payload within the size classes never is) or because a payload
    is over the largest class; or every operation succeeds, the versions that are
    not released are those of the value trie, each reads as it did when it was
    made, and no block is retired twice.  It never reads memory that holds
    something else. *)
Theorem arena_trie_refines_values (sd : Z) (a : arena) (ops : list storeOp) (hs : list HAMT) :
  arena_ok ∅ a → Forall sets_something ops → spec_store_run ops [NewHAMT sd] = Some hs → fits_words sd a ops →
  stops (run_store sd a ops) ∨
  ∃ s, run_store sd a ops = Done s ∧ length (st_versions s) = length hs ∧ NoDup (retiredBlocks (st_mem s)).*1 ∧
    ∀ i w h key, st_versions s !! i = Some w → hs !! i = Some h → heap_HAMT_Get w key (blocks (st_mem s)) = Some (HAMT_Get h key).
Proof.
  intros Ha Ho Hspec Hfit. destruct (run_store_ok sd a ops hs Ha Ho Hspec Hfit) as [Hst|(s & G & rhs & L & E & <- & [H1 H2 H3] & _)]; [by left|right].
  exists s. split; [done|]. split; [by rewrite length_fmap, (Forall2_length _ _ _ H2)|]. split.
  - apply NoDup_occ. intros x. pose proof (h_own _ _ _ _ H1 x) as Hx. destruct (blocks (st_mem s) !! x); simpl in Hx; lia.
  - intros i w h key Hw Hh. rewrite list_lookup_fmap in Hh. destruct (rhs !! i) as [[r' h']|] eqn:Ei; simplify_eq/=.
    apply (version_HAMT_Get _ _ _ _ _ (r', h) key H1). exact (Forall2_lookup_lr _ _ _ _ _ _ H2 Hw Ei).
Qed.

(** C16.  Nothing is lost: when a run of Sets with entries, releases and
    reclamations, without Delete, completes and leaves no version, every block that
    is still in memory is retired, so that all of it goes back to the arena.
    (Memory stays below 2^32 words.  A Delete of the last entity, or a Set of it to
    no entries, allocates a node that is never retired: [emptied_node_leaks].) *)
Theorem released_tries_retired (sd : Z) (a : arena) (ops : list storeOp) :
  arena_ok ∅ a → Forall sets_something ops → Forall no_delete ops → spec_store_run ops [NewHAMT sd] = Some [] → fits_words sd a ops →
  stops (run_store sd a ops) ∨
  ∃ s, run_store sd a ops = Done s ∧ ∀ x, is_Some (blocks (st_mem s) !! x) → x ∈ (retiredBlocks (st_mem s)).*1.
Proof.
  intros Ha Ho Hnd Hspec Hfit. destruct (run_store_ok sd a ops [] Ha Ho Hspec Hfit) as [Hst|(s & G & rhs & L & E & Er & [H1 H2 _] & HL)]; [by left|right].
  exists s. split; [done|]. apply fmap_nil_inv in Er as ->. rewrite (HL Hnd) in H1. apply Forall2_nil_inv_r in H2. rewrite H2 in H1.
  pose proof (unreferenced_empty _ _ _ H1) as ->. intros x [b Hb]. apply occ_elem. pose proof (h_own _ _ _ _ H1 x) as Hx. rewrite Hb, lookup_empty in Hx.
  unfold gather in Hx. rewrite map_to_list_empty in Hx. simpl in Hx. lia.
Qed.
End Versions.
End Invariant.

(** ** The arena of Arena.v *)

(** Where the client of a block finds it, and whether it is a node. *)
Definition handle (b : Block) : Z := (area b).1.
Definition node_block (b : Block) : bool := bool_decide (b_class b = O).
Definition handles (live : list Block) : gmap Z bool := list_to_map ((λ b, (handle b, node_block b)) <$> live).

Lemma live_handle a live st blks C b : ainv a live st blks C [] → b ∈ live → 0 < b_start b ∧ b_start b <= handle b <= b_start b + 8 ∧
  b_start b + 16 <= b_start b + blockSizeForClass (b_class b) ∧ blks !! b_start b = Some (b_class b).
Proof.
  intros H Hb. destruct (v_live _ _ _ _ _ _ H b Hb) as [Hbb _]. destruct (v_blocks _ _ _ _ _ _ H _ _ Hbb) as (Hx & _). unfold nodeSize in Hx.
  pose proof (class_aligned (b_class b)). unfold handle, area, varAllocHeaderSize. case_decide; simpl; split_and!; done || lia.
Qed.

Lemma live_starts a live st blks C : ainv a live st blks C [] → NoDup (map b_start live).
Proof.
  intros H. apply NoDup_occ. intros x. pose proof (v_own _ _ _ _ _ _ H x) as Hx. destruct (blks !! x); lia.
Qed.

Lemma live_handles a live st blks C : ainv a live st blks C [] → NoDup (map handle live).
Proof.
  intros H. pose proof (live_starts _ _ _ _ _ H) as Hnd. apply NoDup_fmap_2_strong; [|by eapply NoDup_fmap_1]. intros b c Hb Hc E.
  destruct (live_handle _ _ _ _ _ b H Hb) as (_ & Hb1 & Hb2 & Hb3). destruct (live_handle _ _ _ _ _ c H Hc) as (_ & Hc1 & Hc2 & Hc3).
  assert (b_start b = b_start c) as Es.
  { destruct (Z.lt_trichotomy (b_start b) (b_start c)) as [Hlt|[Heq|Hlt]]; [|done|].
    - pose proof (v_apart _ _ _ _ _ _ H _ _ _ _ Hb3 Hc3 Hlt). lia.
    - pose proof (v_apart _ _ _ _ _ _ H _ _ _ _ Hc3 Hb3 Hlt). lia. }
  apply list_elem_of_lookup in Hb as [i Hi], Hc as [j Hj].
  assert (i = j) as <- by (eapply (NoDup_lookup (map b_start live)); [exact Hnd|rewrite list_lookup_fmap, Hi; done|rewrite list_lookup_fmap, Hj; simpl; by rewrite Es]). congruence.
Qed.

Lemma handles_keys live : ((λ b, (handle b, node_block b)) <$> live).*1 = map handle live.
Proof. rewrite <- list_fmap_compose. done. Qed.

Lemma handles_new b live : NoDup (map handle (b :: live)) → handles live !! handle b = None.
Proof. intros [Hn _]%NoDup_cons. apply not_elem_of_list_to_map. by rewrite handles_keys. Qed.

Lemma handles_elem live x b : handles live !! x = Some b → ∃ i c, live !! i = Some c ∧ x = handle c ∧ b = node_block c.
Proof. intros (c & [= -> ->] & [i Hi]%list_elem_of_lookup)%elem_of_list_to_map_2%list_elem_of_fmap. by exists i, c. Qed.

Lemma handles_delete live i b : NoDup (map handle live) → live !! i = Some b → handles (delete i live) = delete (handle b) (handles live).
Proof.
  intros Hnd Hi. pose proof (delete_middle live i b Hi) as Hp. assert (NoDup (map handle (b :: delete i live))) as Hnd' by (by rewrite <- Hp).
  rewrite <- (delete_insert_id (handles (delete i live)) (handle b) (node_block b)) by by apply handles_new. f_equal.
  change (handles (b :: delete i live) = handles live). apply list_to_map_proper; [by rewrite handles_keys|]. by rewrite <- Hp.
Qed.

(** The arena keeps what the trie relies on. *)
#[global] Program Instance hamt_arena : ArenaAlloc := {|
  arena := Arena;
  arena_node := AllocNode;
  arena_var := allocVar;
  arena_free isNode x a := default a (if isNode then pushFreeNode x a else pushFreeVar x a);
  arena_ok U a := ∃ live st blks C, a_size a < 2 ^ 63 ∧ ainv a live st blks C [] ∧ U = handles live;
|}.
Next Obligation.
  intros U a x a' (live & st & blks & C & Hsz & H & ->) E. destruct (alloc_node_ok _ _ _ _ _ _ _ Hsz H E) as (blks' & C' & Ez & H').
  pose proof (handles_new _ _ (live_handles _ _ _ _ _ H')) as Hn. destruct (live_handle _ _ _ _ _ _ H' (list_elem_of_here _ _)) as (Hx & _).
  split; [exact Hn|]. split; [simpl in Hx; lia|]. by eexists (_ :: live), _, blks', C'; rewrite Ez.
Qed.
Next Obligation.
  intros U a n x a' (live & st & blks & C & Hsz & H & ->) Hsize E. destruct (alloc_var_ok _ _ _ _ _ _ _ _ Hsz Hsize H E) as (blks' & C' & Ez & H').
  destruct (varSizeClassIndex_fits n Hsize) as (c & Hc & Ec & _). rewrite Ec in H'. cbn [fst] in H'. rewrite Nat2Z.id in H'. set (b := mkBlock _ c n) in H'.
  assert (handle b = x ∧ node_block b = false) as [Ex Eb].
  { unfold handle, area, node_block, b. rewrite decide_False, bool_decide_false by (simpl; lia). simpl. split; [lia|done]. }
  pose proof (handles_new _ _ (live_handles _ _ _ _ _ H')) as Hn. destruct (live_handle _ _ _ _ _ _ H' (list_elem_of_here _ _)) as (Hx & Hx' & _).
  rewrite Ex in Hn, Hx'. split; [exact Hn|]. split; [lia|]. exists (b :: live), st, blks', C'. rewrite Ez. split_and!; [done|done|].
  unfold handles. rewrite fmap_cons, Ex, Eb. done.
Qed.
Next Obligation.
  intros U a b x (live & st & blks & C & Hsz & H & ->) (i & c & Hi & -> & ->)%handles_elem. destruct (free_ok _ _ _ _ _ _ _ H Hi) as (a' & C' & E & Ez & H').
  assert ((if node_block c then pushFreeNode (handle c) a else pushFreeVar (handle c) a) = Some a') as ->.
  { rewrite <- E. unfold node_block, handle, area. destruct (decide (b_class c = O)); [by rewrite bool_decide_true|by rewrite bool_decide_false]. }
  simpl. exists (delete i live), (forget c st), blks, C'. rewrite Ez. split_and!; [done|done|]. rewrite (handles_delete _ _ _ (live_handles _ _ _ _ _ H) Hi). done.
Qed.

Lemma arena_starts_ok size : nodeSize <= size < 2 ^ 63 → arena_ok ∅ (NewHamtArena size).
Proof. intros Hs. exists [], ∅, ∅, (replicate (numSizeClasses * arenaShardCount) []). split_and!; [apply Hs|apply new_hamt_arena_ok, Hs|done]. Qed.

(** ** Runs *)

(** An allocator that only goes up refuses nothing. *)
Program Definition endless_arena : ArenaAlloc := {|
  arena := Z;
  arena_node a := Some (a, a + nodeSize);
  arena_var n a := Some (a, a + n);
  arena_free _ _ a := a;
  arena_ok U a := 0 < a ∧ ∀ x b, U !! x = Some b → x < a;
|}.
Next Obligation.
  intros U a x a' [H1 H2] [= <- <-]. unfold nodeSize. split; [destruct (U !! a) eqn:E; [specialize (H2 _ _ E); lia|done]|]. split; [lia|]. split; [lia|].
  intros y b [[<- _]|[_ Hy]]%lookup_insert_Some; [lia|]. specialize (H2 y b Hy). lia.
Qed.
Next Obligation.
  intros U a n x a' [H1 H2] Hn [= <- <-]. split; [destruct (U !! a) eqn:E; [specialize (H2 _ _ E); lia|done]|]. split; [lia|]. split; [lia|].
  intros y b [[<- _]|[_ Hy]]%lookup_insert_Some; [lia|]. specialize (H2 y b Hy). lia.
Qed.
Next Obligation. intros U a b x [H1 H2] Hx. split; [done|]. intros y c [_ Hy]%lookup_delete_Some. by eapply H2. Qed.

Lemma endless_generous : generous (AA := endless_arena).
Proof. intros U a _. by split; eexists. Qed.

Definition ends_done {A} (r : res A) : bool := match r with Done _ => true | Stop _ => false end.

Section Runs.
Context `{AA : ArenaAlloc} `{MH : MapHash}.

Lemma ends_done_stops {A} (r : res A) : ends_done r = true → ¬ stops r.
Proof. by intros E (s & -> & _). Qed.

Fixpoint fits_run (ops : list storeOp) (s : Store) : bool :=
  (Z.of_nat (words_used (blocks (st_mem s))) <? 2 ^ 32) &&
  match ops with [] => true | o :: ops' => match store_step o s with Done s' => fits_run ops' s' | Stop _ => true end end.

Lemma fits_run_ok ops : ∀ s, fits_run ops s = true → fits_memory ops s.
Proof.
  induction ops as [|o ops IH]; intros s Hf k s' Hk; simpl in Hf; apply andb_true_iff in Hf as [Hw Hf]; apply Z.ltb_lt in Hw.
  - rewrite take_nil in Hk. by simplify_eq/=.
  - destruct k as [|k]; [by simplify_eq/=|]. cbn [take store_run] in Hk. destruct (store_step o s) as [s1|]; [|done]. by eapply IH.
Qed.

Lemma fits_words_ok sd a ops : match new_store sd a with Done s => fits_run ops s | Stop _ => true end = true → fits_words sd a ops.
Proof. intros Hf k s Hk. unfold run_store in Hk. destruct (new_store sd a) as [s0|]; [|done]. by eapply fits_run_ok. Qed.
End Runs.

Definition three_versions : list storeOp :=
  [OpSet 0 "a" [sample_entry 1 1 5]; OpSet 1 "b" [sample_entry 2 1 5]; OpDelete 2 "a"; OpRelease 1; OpReclaim 0; OpReclaim 0].

(** In an arena of 1 MiB. *)
Lemma arena_trie_refines_values_witness :
  ∃ s w, run_store (MH := fnv_maphash) 7 (NewHamtArena (2 ^ 20)) three_versions = Done s ∧ st_versions s !! 1%nat = Some w ∧
    heap_HAMT_Get (MH := fnv_maphash) w "a" (blocks (st_mem s)) = Some [sample_entry 1 1 5].
Proof.
  assert ((λ hs, (length hs, (λ h, HAMT_Get (MH := fnv_maphash) h "a") <$> hs !! 1%nat)) <$> spec_store_run (MH := fnv_maphash) three_versions [NewHAMT 7] =
    Some (3%nat, Some [sample_entry 1 1 5])) as E by by vm_compute.
  apply fmap_Some_1 in E as (hs & Hspec & E). apply pair_equal_spec in E as [Hlen Hget].
  destruct (arena_trie_refines_values (AA := hamt_arena) (MH := fnv_maphash) 7 (NewHamtArena (2 ^ 20)) three_versions hs) as [Hst|(s & Hr & Hv & _ & Hread)].
  - apply arena_starts_ok. unfold nodeSize. lia.
  - repeat constructor; discriminate.
  - exact Hspec.
  - apply fits_words_ok. by vm_compute.
  - exfalso. by eapply ends_done_stops; [|exact Hst]; vm_compute.
  - destruct (hs !! 1%nat) as [h|] eqn:Eh; [|discriminate Hget]. destruct (lookup_lt_is_Some_2 (st_versions s) 1) as [w Hw]; [lia|].
    exists s, w. split; [exact Hr|]. split; [exact Hw|]. rewrite (Hread _ _ _ "a"%string Hw Eh). exact (eq_sym Hget).
Defined.

Definition all_released : list storeOp := [OpSet 0 "a" [sample_entry 1 1 5]; OpSet 1 "b" [sample_entry 2 1 5]; OpRelease 1; OpRelease 0; OpRelease 0].

Lemma released_tries_retired_witness :
  ∃ s, run_store (MH := fnv_maphash) 7 (NewHamtArena (2 ^ 20)) all_released = Done s ∧ (0 < length (retiredBlocks (st_mem s)))%nat ∧
    ∀ x, is_Some (blocks (st_mem s) !! x) → x ∈ (retiredBlocks (st_mem s)).*1.
Proof.
  destruct (released_tries_retired (AA := hamt_arena) (MH := fnv_maphash) 7 (NewHamtArena (2 ^ 20)) all_released) as [Hst|(s & Hr & Hall)].
  - apply arena_starts_ok. unfold nodeSize. lia.
  - repeat constructor; discriminate.
  - repeat constructor.
  - by vm_compute.
  - apply fits_words_ok. by vm_compute.
  - exfalso. by eapply ends_done_stops; [|exact Hst]; vm_compute.
  - exists s. split; [exact Hr|]. split; [|exact Hall].
    assert (match run_store (MH := fnv_maphash) 7 (NewHamtArena (2 ^ 20)) all_released with Done s => length (retiredBlocks (st_mem s)) | Stop _ => O end = 16%nat) as E by by vm_compute.
    rewrite Hr in E. rewrite E. lia.
Defined.

(** ** What goes wrong *)

Definition observe {A B} (f : A → B) (r : res A) : option B := match r with Done a => Some (f a) | Stop _ => None end.

Lemma observe_done {A B} (f : A → B) (r : res A) b : observe f r = Some b → ∃ a, r = Done a ∧ f a = b.
Proof. destruct r as [a|]; [|done]. intros [= <-]. by exists a. Qed.

(** The deletion of the last entity, or its Set to no entries, leaves a node that
    nothing refers to and that is not retired, also when every version is
    released. *)
Theorem emptied_node_leaks (drop_a : storeOp) : drop_a = OpDelete 1 "a" ∨ drop_a = OpSet 1 "a" [] →
  ∃ s x, run_store (MH := fnv_maphash) 7 (NewHamtArena (2 ^ 20)) [OpSet 0 "a" [sample_entry 1 1 5]; drop_a; OpRelease 2; OpRelease 1; OpRelease 0] = Done s ∧
    st_versions s = [] ∧ blocks (st_mem s) !! x = Some (BNode 1 0 0 0) ∧ occ x (retiredBlocks (st_mem s)).*1 = 0%nat.
Proof.
  intros Hd. set (r := run_store _ _ _).
  assert (observe (λ s, (st_versions s, blocks (st_mem s) !! 640, occ 640 (retiredBlocks (st_mem s)).*1)) r = Some ([], Some (BNode 1 0 0 0), 0%nat)) as E
    by by destruct Hd as [-> | ->]; vm_compute.
  apply observe_done in E as (s & Er & E). apply pair_equal_spec in E as [[E1 E2]%pair_equal_spec E3]. exists s, 640. split; [exact Er|]. split; [exact E1|]. split; [exact E2|exact E3].
Qed.

(** Set of an absent entity to no entries returns a version that shares the root
    without a reference of its own: the release of the older version retires it,
    and the newer one reads memory that was given back. *)
Theorem empty_set_shares_root : ∃ ops s w, run_store (MH := fnv_maphash) 7 (NewHamtArena (2 ^ 20)) ops = Done s ∧ st_versions s !! 1%nat = Some w ∧
  heap_HAMT_Get (MH := fnv_maphash) w "a" (blocks (st_mem s)) = None.
Proof.
  set (ops := [OpSet 0 "a" [sample_entry 1 1 5]; OpSet 1 "b" []; OpRelease 1; OpReclaim 4]).
  assert (observe (λ s, (st_versions s !! 1%nat, heap_HAMT_Get (MH := fnv_maphash) 648 "a" (blocks (st_mem s)))) (run_store (MH := fnv_maphash) 7 (NewHamtArena (2 ^ 20)) ops) =
    Some (Some 648, None)) as E by by vm_compute.
  apply observe_done in E as (s & Er & E). apply pair_equal_spec in E as [E1 E2]. exists ops, s, 648. split; [exact Er|]. split; [exact E1|exact E2].
Qed.

Definition stop_of {A} (r : res A) : option stop := match r with Done _ => None | Stop s => Some s end.

(** A small arena runs out: the Set panics. *)
Theorem arena_runs_out : stop_of (run_store (MH := fnv_maphash) 7 (NewHamtArena 512) [OpSet 0 "a" [sample_entry 1 1 5]]) = Some Exhausted.
Proof. by vm_compute. Qed.

(** An entity with 4370 entries asks for a payload over the largest class. *)
Theorem long_entity_oversized : stop_of (run_store (MH := fnv_maphash) 7 (NewHamtArena (2 ^ 30)) [OpSet 0 "a" (replicate 4370 (sample_entry 1 1 5))]) = Some (Oversized 524400).
Proof. by vm_compute. Qed.
